(* ===== verification/_CoqProject ===== *)
-Q . S2P
Prelude.v
RowFormat.v
SortKey.v
KeyEnc.v
DdlLog.v
CfName.v
TableOptions.v
Effects.v
TidesDb.v
Keyring.v
FkCatalog.v
Lifecycle.v
DdlDeferred.v
Table.v
KeyCodec.v
Row.v
RowCrypt.v
TableMeta.v
FtsText.v
FtsScore.v
Spatial.v
RowDb.v
Dml.v
TableRep.v
DmlSpec.v
DmlInsert.v
DmlDelete.v
DmlUpdate.v
DmlExample.v
Expiry.v
CursorDb.v
Quiet.v
FtsWords.v
FkRows.v
FkRowsSpec.v
FkExample.v
FkSource.v
Scan.v
ScanSpec.v
ScanIndex.v
ScanExample.v
Counters.v
Sampling.v
Stats.v
StatsSpec.v
StatsExample.v
Cost.v
FtsSearch.v
FtsMatch.v
FtsSearchSpec.v
FtsExample.v
Inplace.v
InplaceSpec.v
InplaceExample.v
TableDdl.v
TableDdlSpec.v
Alter.v
DdlExample.v
Open.v
TxnDb.v
SrvDb.v
XaCodec.v
Txn.v
Xa.v
TxnUndo.v
TxnSpec.v
XaSpec.v
XaRecover.v
TxnDoubt.v
XaReach.v
TxnExample.v
Udf.v
Plugin.v
Status.v
StatusExample.v
Handler.v
