(* ===== verification/Prelude.v ===== *)
(** * TideSQL storage engine: verification development

    TideSQL ([src/tidesdb]) is a MySQL storage engine on the TidesDB log-structured library.  The
    server hands it records, keys, DDL statements and full-text queries; the engine turns them into
    keys and values of column families, one family per table and one per secondary index, beside
    families of its own for foreign keys, wrapped encryption keys and pending schema changes.  The
    sources fall into pure codecs and formulas ([src/core]), the engine's services ([src/engine]) and
    the handler ([src/handler]), which composes them with calls into the library.

    ** Files and the sources they model

    Foundations.
    - [Prelude] (this file): machine integers, byte strings and their order, integer stores and
      loads, the tactics, scope and hint database of the development.
    - [Effects]: the state monad with crashes and its triples [spec].  [TidesDb], [RowDb], [CursorDb],
      [TxnDb], [SrvDb]: the library as classes of operations whose laws state its documented
      behaviour (reads see the transaction's own writes, a commit is atomic, an iterator walks a
      snapshot in key order, any call may fail or never return), with in-memory instances the
      witnesses run on.  [Quiet]: the same library while nothing fails.
    - [Table]: the server's [Field], record buffer and [KEY], a parameter of the codecs on records.

    Codecs and formulas, one definition per function; output buffers are results, cursors are the
    bytes still unread.
    - [RowFormat] (row_format.cc), [SortKey] (sort_key.cc), [KeyEnc] (crypto_keyenc.cc), [DdlLog]
      (ddl_log_rec.cc), [CfName] (cf_name.cc), [TableOptions] (table_options.cc), [FtsText]
      (fts_text.cc), [FtsScore] (fts_score.cc), [Spatial] (spatial.cc), [XaCodec] (the XID and
      table-name codecs of ha_tidesdb_txn.cc), [Cost] (cost_model.cc, ha_tidesdb_cost_double.cc).
    - [KeyCodec] (ha_tidesdb_keycodec.cc): comparable keys, covering reads, pushed conditions; [Row],
      [RowCrypt] (ha_tidesdb_row.cc): stored rows and their encryption.

    Rows.
    - [Dml] (ha_tidesdb_dml.cc, ha_tidesdb_dml_update.cc): INSERT, UPDATE and DELETE of a row.
      [TableRep] relates the families of a table to an abstract table; [DmlSpec], [DmlInsert],
      [DmlDelete], [DmlUpdate] prove the refinement, [DmlExample] runs it.  [Expiry]
      (ha_tidesdb_read.cc): the lifetime of a row, and what reads see of entries with deadlines.
    - [Scan] (ha_tidesdb_scan.cc, ha_tidesdb_index.cc, ha_tidesdb_read.cc, ha_tidesdb_spatial.cc):
      table, index, spatial and batched reads; [ScanSpec], [ScanIndex], [ScanExample].
    - [FtsWords], [FtsSearch], [FtsMatch] (ha_tidesdb_fts.cc, ha_tidesdb_fts_search.cc): the
      dictionaries and the search over postings; [FtsSearchSpec], [FtsExample].
    - [FkRows], [FkSource] (ha_tidesdb_fk.cc, ha_tidesdb_fk_source_dd.cc): foreign keys on rows;
      [FkRowsSpec], [FkExample].
    - [Counters] (ha_tidesdb_open.cc, ha_tidesdb.cc): row ids and auto-increment.
    - [Sampling] (ha_tidesdb_sampling.cc), [Stats] (ha_tidesdb_admin.cc, ha_tidesdb_optimizer.cc,
      rir.cc): samples, statistics, estimates and maintenance; [StatsSpec], [StatsExample].

    Transactions ([ha_tidesdb_txn.cc]).
    - [Txn]: the connection's transaction, statement and SQL savepoints; [Xa]: two-phase commit and
      recovery; [TxnUndo], [TxnSpec], [XaSpec], [XaRecover], [TxnDoubt], [XaReach], [TxnExample].

    Schema and administration.
    - [FkCatalog] (ha_tidesdb_fk.cc): the catalog of foreign keys; [Lifecycle]
      (ha_tidesdb_lifecycle.cc): dropping, renaming and truncating; [DdlDeferred]
      (ha_tidesdb_ddl_deferred.cc): deferred DDL, its hook and its recovery.
    - [TableMeta] (ha_tidesdb_table_options.cc, ha_tidesdb_open.cc): the records a table keeps about
      itself; [TableDdl], [TableDdlSpec] (ha_tidesdb_open.cc, ha_tidesdb_ddl.cc): CREATE TABLE and the
      last phase of ALTER; [Inplace], [InplaceSpec], [InplaceExample] (ha_tidesdb_ddl.cc): the index
      build; [Alter]: the three phases together; [DdlExample].
    - [Open] (ha_tidesdb_open.cc, ha_tidesdb_table_options.cc, ha_tidesdb_config.cc): a table's options,
      the configuration of its families, opening a table and closing a handler.
    - [Keyring] (ha_tidesdb_crypto_keyring.cc): wrapped table keys and master-key rotation, against
      the library and the server's keyring service.
    - [Udf] (ha_tidesdb_udf.cc): backup, checkpoint, rotations; [Plugin] (ha_tidesdb.cc,
      ha_tidesdb_crypto_keyring.cc): starting and stopping the engine; [Status], [StatusExample]
      (ha_tidesdb_status.cc): the counters of SHOW STATUS and the text of SHOW ENGINE STATUS.
    - [Handler] (ha_tidesdb.cc, ha_tidesdb_open.cc, ha_tidesdb_admin.cc): the translation of the library's
      error codes, the server's hints, the session variables a statement caches, the notes of ANALYZE.

    ** What the theorems show

    - Row operations refine a table with its indexes: [write_row_refines], [update_row_refines],
      [delete_row_refines], [end_bulk_delete_refines], whatever fails or crashes.
    - Reads return exactly the rows they should, in order: [table_scan_exact], [index_lookup_exact],
      [fulltext_search_exact], [sample_exact]; the pieces they stand on are [index_entry_order],
      [index_probe_exact], [icp_verdict_exact], [tokenize_exact], [parse_printed_query],
      [decompose_exact], [compute_mbr_exact].
    - Transactions: [statement_rolls_back] up to the first batch boundary of a bulk statement, [commit_atomic],
      [prepare_hands_over], [decision_exact], [prepared_batch_never_lost] along any run of callbacks and row
      operations with crashes, [recover_hands_over_all], [prepared_commits_after_restart].
    - Records survive storage: [row_reads_back] also after columns are added or dropped at the end,
      [encrypted_record_reads_back], [covering_read_restores] for the column types that survive it,
      [serialized_row_fits]; the lemmas [instant_alter_misreads] and [covering_read_garbles] are the
      boundaries.
    - Foreign keys: the catalog refines a set of constraints ([fk_rename_refines]), a child's check
      is exact ([child_check_exact]), a parent's delete leaves no dangling reference
      ([parent_delete_keeps_references]), nor does an update unless it sets a column to NULL (the lemmas
      [parent_update_keeps_references], [nulled_parent_leaves_orphan]).
    - Atomic schema changes: [ddl_statement_atomic], [recover_never_forgets], [alter_exact],
      [created_table_is_empty], [truncated_table_is_empty], [recovered_counters_fresh];
      [table_configuration_well_formed] for the options behind them.
    - Keys are never lost: [published_keys_survive], [master_rotation_keeps_keys].
    - Estimates and reports: [point_probe_exact]; the lemma [status_report_in_bounds] says when the text of
      SHOW ENGINE STATUS fits its buffer.
    Each of them states the conditions it needs, and its comment names them with the lemma that shows what the
    code does outside: an iterator with bounds left cached ([bounded_iterator_reused]), a probe value that ends
    in 0xff bytes, an update that moves a row without writing its full-text columns
    ([moved_row_keeps_stale_postings]), required wildcards ([required_wildcard_counts_words]) and so on.
    - Lemmas state, on concrete inputs or in general, where the code departs from what it means to
      do, among them [cf_name_collision], [read_error_overwrites_key], [failed_second_phase_discards],
      [second_open_of_unreadable_table], [backup_loses_transaction], [long_families_leave_buffer],
      [refreshed_row_lost_to_index], [locked_tables_keep_variables].

    ** Bounds and fuel

    Recursion that is not structural carries fuel, and the theorems are stated for the function with
    the fuel its caller gives it, so running out is excluded, not assumed away.
    - Loops over bytes ([TableOptions.parse_loop], [column_loop], the loops of [FtsText]) get the length
      of the input; each round consumes a byte.  [to_string_fuel] gets the twenty digits of a 64-bit
      number.
    - Loops over an iterator ([iter_read_loop], [secondary_loop], [spatial_loop], [skip_meta_back],
      [last_loop] of [Scan]; [find_prefix], [collect_refs] of [FkRows]; [build_loop] of [Inplace];
      [posting_loop] of [FtsSearch]; [count_meta] and [sample_loop] of [Stats] and [Sampling]) get one
      more than the number of entries the iterator can still reach; each round moves it.  For
      [spatial_loop] this is multiplied by the number of curve ranges, which it visits in turn.
      [ft_read_loop] gets one more than the number of results.
    - [drain] of [Xa] gets one more than the number of transactions in doubt.
    - The sample limit of [Stats] and the recursion depth of [Spatial] are the source's own bounds.
    Integers keep the width the source gives them, the reduction written where the source converts;
    doubles are IEEE-754's ([SpecFloat]).

    ** Not modelled, and the plan

    Parameters, with their documented behaviour as the laws of a class: the TidesDB library, the
    server's [Field] methods, keyring and open tables, AES, the charset, [log] and [pow].  Of the library the laws
    say no more than its calls document: a call may fail, and of an iteration each key and each value may; a family
    that exists is not changed by creating it again; the counts of a range are estimates.  Left out:
    the declarations of system variables other than those a table's options start from, the compatibility
    macros, the texts of log messages, file system clean-up; locks and true concurrency (a callback of
    the server is one step, failures and crashes may happen at each library call).  To come: cascades as a
    refinement over several tables; the lemmas on updates and deletes of a parent row are about
    restricting constraints. *)
From Stdlib Require Export ZArith Lia.
From stdpp Require Export base list gmap strings.

#[global] Open Scope Z_scope.

(** ** Machine integers

    A C++ unsigned integer of width [w] is a [Z] in [[0, 2^w)]; every operation of the source that
    can leave that interval is followed here by the reduction the language performs. *)

Declare Scope tdb_scope.
Delimit Scope tdb_scope with tdb.

Definition u8 (z : Z) : Z := z `mod` 2 ^ 8.
Definition u16 (z : Z) : Z := z `mod` 2 ^ 16.
Definition u32 (z : Z) : Z := z `mod` 2 ^ 32.
Definition u64 (z : Z) : Z := z `mod` 2 ^ 64.

(** The cast from [uint64_t] to [int64_t], two's complement. *)
Definition to_i64 (z : Z) : Z := if decide (z < 2 ^ 63) then z else z - 2 ^ 64.

(** The cast to [int], which has 32 bits. *)
Definition to_int (z : Z) : Z := let u := u32 z in if u <? 2 ^ 31 then u else u - 2 ^ 32.

Definition UINT64_MAX : Z := 2 ^ 64 - 1.
Definition UINT32_MAX : Z := 2 ^ 32 - 1.

(** ** Bytes and byte strings

    [uint8_t *] buffers with their length and [std::string]s are lists of integers; [wf_bytes] says
    that every element is a byte. *)

Abbreviation bytes := (list Z).

Definition is_byte (b : Z) : Prop := 0 <= b < 256.
#[export] Instance is_byte_dec b : Decision (is_byte b).
Proof. unfold is_byte. apply _. Defined.

Abbreviation wf_bytes := (Forall is_byte).

(** A string literal of the source as its bytes. *)
Fixpoint bs (s : string) : bytes :=
  match s with
  | EmptyString => []
  | String c s' => Z.of_N (Ascii.N_of_ascii c) :: bs s'
  end.

(** [std::string::size] and [size_t] lengths. *)
Definition zlen {A} (l : list A) : Z := Z.of_nat (length l).

(** [memcmp] on the common length, then the shorter key first: the order of [std::string] and of
    keys inside a column family. *)
Fixpoint bytes_cmp (a b : bytes) : comparison :=
  match a, b with
  | [], [] => Eq
  | [], _ :: _ => Lt
  | _ :: _, [] => Gt
  | x :: a', y :: b' =>
      match x ?= y with
      | Eq => bytes_cmp a' b'
      | c => c
      end
  end.

Definition bytes_lt (a b : bytes) : Prop := bytes_cmp a b = Lt.
Definition bytes_le (a b : bytes) : Prop := bytes_cmp a b <> Gt.

#[export] Instance bytes_lt_dec a b : Decision (bytes_lt a b).
Proof. unfold bytes_lt. apply _. Defined.
#[export] Instance bytes_le_dec a b : Decision (bytes_le a b).
Proof. unfold bytes_le. apply _. Defined.

Infix "<b" := bytes_lt (at level 70) : tdb_scope.
Infix "<=b" := bytes_le (at level 70) : tdb_scope.
#[global] Open Scope tdb_scope.

(** An output pointer of the source: the functions that check it return early on [null].  What a
    function writes through it is part of the model's result. *)
Inductive ptr := null | nonnull.

#[export] Instance ptr_eq_dec : EqDecision ptr.
Proof. solve_decision. Defined.

(** ** Integer codecs shared by every on-disk format

    [be_store n v] is the loop [out[i] = (uint8_t)(v >> ((n - 1 - i) * 8))] and [be_load w] the loop
    [v = (v << 8) | in[i]] over a [w]-bit accumulator; [le_store]/[le_load] are the little-endian
    pair. *)
Definition be_store (n : nat) (v : Z) : bytes :=
  map (fun i => u8 (Z.shiftr v (Z.of_nat (n - 1 - i) * 8))) (seq 0 n).

Definition be_load (w : Z) (bs : bytes) : Z :=
  fold_left (fun v b => Z.lor (Z.shiftl v 8 `mod` 2 ^ w) b) bs 0.

Definition le_store (n : nat) (v : Z) : bytes :=
  map (fun i => u8 (Z.shiftr v (Z.of_nat i * 8))) (seq 0 n).

Fixpoint le_load_from (w : Z) (i : nat) (acc : Z) (bs : bytes) : Z :=
  match bs with
  | [] => acc
  | b :: bs' => le_load_from w (S i) (Z.lor acc (Z.shiftl b (Z.of_nat i * 8) `mod` 2 ^ w)) bs'
  end.
Definition le_load (w : Z) (bs : bytes) : Z := le_load_from w 0 0 bs.

(** The values the loops compute, as plain positional numerals: the reference the codec lemmas are
    proved against. *)
Definition be_val_from (acc : Z) (l : bytes) : Z := fold_left (fun v b => v * 256 + b) l acc.
Definition be_val (l : bytes) : Z := be_val_from 0 l.

Fixpoint le_val (l : bytes) : Z :=
  match l with [] => 0 | b :: l' => b + 256 * le_val l' end.

(** [std::to_string] of an unsigned 64-bit value: at most twenty decimal digits. *)
Fixpoint to_string_fuel (fuel : nat) (n : Z) : bytes :=
  match fuel with
  | O => []
  | S fuel => if n <? 10 then [48 + n] else to_string_fuel fuel (n / 10) ++ [48 + n `mod` 10]
  end.
Definition to_string (n : Z) : bytes := to_string_fuel 20 n.

(** ** Proof automation *)

Create HintDb tdb discriminated.
Create Rewrite HintDb tdb.

#[global] Arguments Z.pow : simpl never.
#[global] Arguments Z.shiftl : simpl never.
#[global] Arguments Z.shiftr : simpl never.
#[global] Arguments Z.lor : simpl never.
#[global] Arguments Z.land : simpl never.
#[global] Arguments Z.modulo : simpl never.
#[global] Arguments Z.div : simpl never.
#[global] Arguments Z.testbit : simpl never.
#[global] Arguments be_store : simpl never.
#[global] Arguments le_store : simpl never.
#[global] Arguments be_load : simpl never.
#[global] Arguments le_load : simpl never.
#[global] Arguments zlen : simpl never.

Ltac unfold_words := unfold u8, u16, u32, u64, is_byte, UINT64_MAX, UINT32_MAX in *.

(** Case analysis on a boolean test of the model, leaving the proposition it decides. *)
Ltac case_test :=
  match goal with
  | |- context [ ?x <? ?y ] => destruct (Z.ltb_spec x y)
  | |- context [ ?x <=? ?y ] => destruct (Z.leb_spec x y)
  | |- context [ ?x =? ?y ] => destruct (Z.eqb_spec x y)
  | |- context [ bool_decide ?P ] => destruct (bool_decide_reflect P)
  | |- context [ decide ?P ] => destruct (decide P)
  end.

Tactic Notation "inv" ident(H) := inversion H; simplify_eq/=; clear H.

(** ** Shared lemmas *)

Lemma u8_byte z : is_byte (u8 z).
Proof. unfold u8, is_byte. apply (Z.mod_pos_bound z 256). lia. Qed.

Lemma u8_id b : is_byte b -> u8 b = b.
Proof. unfold u8, is_byte. intros. apply Z.mod_small. lia. Qed.

#[export] Hint Resolve u8_byte : tdb.
#[export] Hint Rewrite u8_id using assumption : tdb.

Lemma to_i64_u64 z : - 2 ^ 63 <= z < 2 ^ 63 -> to_i64 (u64 z) = z.
Proof.
  intros Hz. unfold to_i64, u64. destruct (decide (0 <= z)).
  - rewrite Z.mod_small by lia. by rewrite decide_True by lia.
  - replace (z `mod` 2 ^ 64) with (z + 2 ^ 64); [rewrite decide_False; lia|].
    rewrite <- (Z_mod_plus_full z 1), Z.mod_small; lia.
Qed.

Lemma zlen_nonneg {A} (l : list A) : 0 <= zlen l.
Proof. unfold zlen. lia. Qed.

Lemma zlen_app {A} (l k : list A) : zlen (l ++ k) = zlen l + zlen k.
Proof. unfold zlen. rewrite length_app. lia. Qed.

(** *** The order of byte strings *)

Lemma bytes_cmp_refl a : bytes_cmp a a = Eq.
Proof. induction a as [|x a IH]; simpl; [done|]. by rewrite Z.compare_refl. Qed.

Lemma bytes_cmp_eq a b : bytes_cmp a b = Eq <-> a = b.
Proof.
  split; [|intros ->; apply bytes_cmp_refl].
  revert b; induction a as [|x a IH]; intros [|y b]; simpl; try done.
  destruct (Z.compare_spec x y); try done. intros ?%IH. congruence.
Qed.

Lemma bytes_cmp_antisym a b : bytes_cmp b a = CompOpp (bytes_cmp a b).
Proof.
  revert b; induction a as [|x a IH]; intros [|y b]; simpl; try done.
  rewrite (Z.compare_antisym x y). destruct (x ?= y); simpl; auto.
Qed.

Lemma bytes_lt_irrefl a : ~ a <b a.
Proof. unfold bytes_lt. by rewrite bytes_cmp_refl. Qed.

Lemma bytes_lt_trans a b c : a <b b -> b <b c -> a <b c.
Proof.
  unfold bytes_lt. revert b c; induction a as [|x a IH]; intros [|y b] [|z c]; simpl; try done.
  destruct (Z.compare_spec x y), (Z.compare_spec y z), (Z.compare_spec x z);
    subst; try done; try lia; eauto.
Qed.

Lemma bytes_le_lteq a b : a <=b b <-> a <b b \/ a = b.
Proof.
  unfold bytes_le, bytes_lt. rewrite <- bytes_cmp_eq.
  destruct (bytes_cmp a b); intuition congruence.
Qed.

Lemma bytes_le_refl a : a <=b a.
Proof. apply bytes_le_lteq. by right. Qed.

Lemma bytes_lt_trichotomy a b : a <b b \/ a = b \/ b <b a.
Proof.
  unfold bytes_lt. rewrite (bytes_cmp_antisym a b), <- bytes_cmp_eq.
  destruct (bytes_cmp a b); auto.
Qed.

Lemma bytes_not_lt a b : ~ a <b b <-> b <=b a.
Proof.
  unfold bytes_lt, bytes_le. rewrite (bytes_cmp_antisym a b).
  destruct (bytes_cmp a b); simpl; intuition congruence.
Qed.

Lemma bytes_le_lt_trans a b c : a <=b b -> b <b c -> a <b c.
Proof. rewrite bytes_le_lteq. intros [?| ->]; eauto using bytes_lt_trans. Qed.

Lemma bytes_lt_le_trans a b c : a <b b -> b <=b c -> a <b c.
Proof. rewrite bytes_le_lteq. intros ? [?| <-]; eauto using bytes_lt_trans. Qed.

Lemma bytes_le_trans a b c : a <=b b -> b <=b c -> a <=b c.
Proof.
  rewrite (bytes_le_lteq a b). intros [?| ->]; [|done].
  intros ?. apply bytes_le_lteq. left. eauto using bytes_lt_le_trans.
Qed.

#[export] Instance bytes_lt_strict : StrictOrder bytes_lt.
Proof. split; [exact bytes_lt_irrefl | exact bytes_lt_trans]. Qed.
#[export] Instance bytes_le_preorder : PreOrder bytes_le.
Proof. split; [exact bytes_le_refl | exact bytes_le_trans]. Qed.

Lemma bytes_cmp_app_same p a b : bytes_cmp (p ++ a) (p ++ b) = bytes_cmp a b.
Proof. induction p as [|x p IH]; simpl; [done|]. by rewrite Z.compare_refl. Qed.

(** Equal-length prefixes decide the comparison unless they agree: why fixed-width key parts can be
    concatenated and still compare part by part. *)
Lemma bytes_cmp_app a b c d :
  length a = length b ->
  bytes_cmp (a ++ c) (b ++ d) =
    match bytes_cmp a b with Eq => bytes_cmp c d | r => r end.
Proof.
  revert b; induction a as [|x a IH]; intros [|y b]; simpl; try done.
  intros [= Hl]. destruct (x ?= y); auto.
Qed.

Lemma bytes_le_app_r a b : a <=b a ++ b.
Proof.
  unfold bytes_le. rewrite <- (app_nil_r a) at 1. rewrite bytes_cmp_app_same.
  by destruct b.
Qed.

Lemma prefix_not_below (p k : bytes) : p `prefix_of` k -> ~ k <b p.
Proof. intros [m ->]. apply bytes_not_lt, bytes_le_app_r. Qed.

(** *** Codec lemmas *)

Lemma testbit_high k a i : 0 <= a < 2 ^ k -> 0 <= k <= i -> Z.testbit a i = false.
Proof.
  intros Ha Hi. rewrite <- (Z.mod_small a (2 ^ k)) by done.
  apply Z.mod_pow2_bits_high. lia.
Qed.

(** Or-ing a low part under a shifted high part is addition: the shape of every load loop. *)
Lemma lor_low_high k a b : 0 <= k -> 0 <= a < 2 ^ k -> Z.lor (b * 2 ^ k) a = b * 2 ^ k + a.
Proof.
  intros Hk Ha. rewrite <- Z.add_lor_land.
  replace (Z.land (b * 2 ^ k) a) with 0; [lia|]. symmetry.
  apply Z.bits_inj'. intros i Hi. rewrite Z.land_spec, Z.bits_0, <- Z.shiftl_mul_pow2 by lia.
  destruct (Z.ltb_spec i k).
  - by rewrite Z.shiftl_spec_low by lia.
  - rewrite (testbit_high k a i), andb_false_r by lia. done.
Qed.

Lemma lor_shiftl_byte a b : is_byte b -> Z.lor (a * 256) b = a * 256 + b.
Proof. intros Hb. apply (lor_low_high 8); [lia|exact Hb]. Qed.

Lemma be_store_S n v :
  be_store (S n) v = u8 (Z.shiftr v (Z.of_nat n * 8)) :: be_store n v.
Proof.
  unfold be_store. simpl seq. rewrite map_cons. f_equal.
  - do 2 f_equal. lia.
  - rewrite <- seq_shift, map_map. apply map_ext. intros i. do 3 f_equal. lia.
Qed.

Lemma length_be_store n v : length (be_store n v) = n.
Proof. unfold be_store. by rewrite length_map, length_seq. Qed.

Lemma be_store_wf n v : wf_bytes (be_store n v).
Proof. unfold be_store. apply Forall_map, Forall_true. intros. apply u8_byte. Qed.

Lemma length_le_store n v : length (le_store n v) = n.
Proof. unfold le_store. by rewrite length_map, length_seq. Qed.

Lemma le_store_wf n v : wf_bytes (le_store n v).
Proof. unfold le_store. apply Forall_map, Forall_true. intros. apply u8_byte. Qed.

#[export] Hint Resolve be_store_wf le_store_wf : tdb.
#[export] Hint Rewrite length_be_store length_le_store : tdb.

Lemma be_val_from_app acc l k : be_val_from acc (l ++ k) = be_val_from (be_val_from acc l) k.
Proof. apply fold_left_app. Qed.

Lemma be_val_from_cons acc b l : be_val_from acc (b :: l) = be_val_from (acc * 256 + b) l.
Proof. done. Qed.

Lemma zlen_cons {A} (x : A) l : zlen (x :: l) = zlen l + 1.
Proof. unfold zlen. rewrite length_cons. lia. Qed.

Lemma be_val_from_shift acc l :
  be_val_from acc l = acc * 256 ^ zlen l + be_val_from 0 l.
Proof.
  revert acc; induction l as [|b l IH]; intros acc.
  { unfold be_val_from, zlen. simpl. lia. }
  rewrite !be_val_from_cons, IH, (IH (0 * 256 + b)), zlen_cons.
  rewrite Z.pow_add_r by (try apply zlen_nonneg; lia). ring.
Qed.

Lemma be_val_cons b l : be_val (b :: l) = b * 256 ^ zlen l + be_val l.
Proof. unfold be_val. rewrite be_val_from_cons, be_val_from_shift. f_equal. Qed.

Lemma be_val_bound l : wf_bytes l -> 0 <= be_val l < 256 ^ zlen l.
Proof.
  induction 1 as [|b l Hb _ IH]; [unfold be_val, be_val_from, zlen; simpl; lia|].
  rewrite be_val_cons. rewrite zlen_cons.
  rewrite Z.pow_add_r by (try apply zlen_nonneg; lia). unfold is_byte in Hb. nia.
Qed.

Lemma be_val_store n v : 0 <= v -> be_val (be_store n v) = v `mod` 256 ^ Z.of_nat n.
Proof.
  intros Hv. induction n as [|n IH]; [by rewrite Z.mod_1_r|].
  rewrite be_store_S, be_val_cons, IH. unfold zlen. rewrite length_be_store.
  rewrite Z.shiftr_div_pow2 by lia. unfold u8. change (2 ^ 8) with 256.
  replace (2 ^ (Z.of_nat n * 8)) with (256 ^ Z.of_nat n).
  2:{ rewrite (Z.mul_comm _ 8), Z.pow_mul_r by lia. done. }
  rewrite Nat2Z.inj_succ, Z.pow_succ_r, (Z.mul_comm 256) by lia.
  rewrite Z.rem_mul_r by (try apply Z.pow_nonzero; lia). ring.
Qed.

Lemma be_load_from_val w acc l :
  wf_bytes l -> 0 <= acc -> acc * 256 ^ zlen l + 256 ^ zlen l <= 2 ^ w ->
  fold_left (fun v b => Z.lor (Z.shiftl v 8 `mod` 2 ^ w) b) l acc = be_val_from acc l.
Proof.
  intros Hl. revert acc. induction Hl as [|b l Hb _ IH]; intros acc Hacc Hw; [done|].
  simpl. rewrite zlen_cons in Hw.
  pose proof (zlen_nonneg l). rewrite Z.pow_add_r in Hw by lia.
  assert (0 < 256 ^ zlen l) by (apply Z.pow_pos_nonneg; lia).
  assert (acc * 256 + b < 2 ^ w) by (unfold is_byte in Hb; nia).
  rewrite Z.shiftl_mul_pow2, Z.mod_small, lor_shiftl_byte
    by (unfold is_byte in *; try done; change (2 ^ 8) with 256; lia).
  apply IH; unfold is_byte in *; nia.
Qed.

Lemma be_load_val w l : wf_bytes l -> 8 * zlen l <= w -> be_load w l = be_val l.
Proof.
  intros Hl Hw. apply be_load_from_val; [done|lia|]. pose proof (zlen_nonneg l).
  change 256 with (2 ^ 8). rewrite <- Z.pow_mul_r by lia.
  rewrite Z.mul_0_l, Z.add_0_l. apply Z.pow_le_mono_r; lia.
Qed.

Lemma pow256 n : 256 ^ Z.of_nat n = 2 ^ (8 * Z.of_nat n).
Proof. change 256 with (2 ^ 8). rewrite <- Z.pow_mul_r by lia. done. Qed.

(** A stored big-endian field reads back as the value, at any accumulator wide enough for it. *)
Lemma be_load_store w n v :
  8 * Z.of_nat n <= w -> 0 <= v < 2 ^ (8 * Z.of_nat n) -> be_load w (be_store n v) = v.
Proof.
  intros Hw Hv. rewrite be_load_val; [|apply be_store_wf|unfold zlen; rewrite length_be_store; lia].
  rewrite be_val_store by lia. apply Z.mod_small. by rewrite pow256.
Qed.

Lemma be_val_inj l k :
  wf_bytes l -> wf_bytes k -> length l = length k -> be_val l = be_val k -> l = k.
Proof.
  intros Hl. revert k. induction Hl as [|b l Hb Hl IH]; intros [|c k] Hk Hlen Hv; try done.
  apply Forall_cons in Hk as [Hc Hk]. simpl in Hlen. injection Hlen as Hlen.
  rewrite !be_val_cons in Hv. unfold zlen in Hv. rewrite Hlen in Hv.
  pose proof (be_val_bound l Hl) as Bl. pose proof (be_val_bound k Hk) as Bk.
  unfold zlen in *. rewrite Hlen in Bl. set (P := 256 ^ Z.of_nat (length k)) in *.
  assert (b = c) as -> by nia. f_equal. apply IH; [done|done|lia].
Qed.

(** ... and storing what was read gives the same bytes back. *)
Lemma be_store_load w l :
  wf_bytes l -> 8 * zlen l <= w -> be_store (length l) (be_load w l) = l.
Proof.
  intros Hl Hw. rewrite be_load_val by done. pose proof (be_val_bound l Hl).
  apply be_val_inj; [apply be_store_wf|done|apply length_be_store|].
  rewrite be_val_store by lia. by apply Z.mod_small.
Qed.

Lemma be_val_cmp l k :
  wf_bytes l -> wf_bytes k -> length l = length k ->
  bytes_cmp l k = (be_val l ?= be_val k).
Proof.
  intros Hl. revert k. induction Hl as [|b l Hb Hl IH]; intros [|c k] Hk Hlen; try done.
  apply Forall_cons in Hk as [Hc Hk]. simpl in Hlen. injection Hlen as Hlen.
  rewrite !be_val_cons. simpl. rewrite (IH k) by done. unfold zlen. rewrite Hlen.
  pose proof (be_val_bound l Hl) as Bl. pose proof (be_val_bound k Hk) as Bk.
  unfold zlen in *. rewrite Hlen in Bl. set (P := 256 ^ Z.of_nat (length k)) in *.
  destruct (Z.compare_spec b c) as [->|?|?].
  - destruct (Z.compare_spec (be_val l) (be_val k)), (Z.compare_spec (c * P + be_val l) (c * P + be_val k));
      done || lia.
  - symmetry. apply Z.compare_lt_iff. nia.
  - symmetry. apply Z.compare_gt_iff. nia.
Qed.

(** Big-endian fields compare under [memcmp] exactly as the numbers do. *)
Lemma be_store_cmp n a b :
  0 <= a < 2 ^ (8 * Z.of_nat n) -> 0 <= b < 2 ^ (8 * Z.of_nat n) ->
  bytes_cmp (be_store n a) (be_store n b) = (a ?= b).
Proof.
  intros Ha Hb. rewrite be_val_cmp by (try apply be_store_wf; by rewrite !length_be_store).
  rewrite !be_val_store, !Z.mod_small by (rewrite ?pow256; lia). done.
Qed.

Lemma le_store_S n v : le_store (S n) v = u8 v :: le_store n (Z.shiftr v 8).
Proof.
  unfold le_store. simpl seq. rewrite map_cons. f_equal.
  rewrite <- seq_shift, map_map. apply map_ext. intros i.
  rewrite Z.shiftr_shiftr by lia. do 2 f_equal. lia.
Qed.

Lemma le_val_bound l : wf_bytes l -> 0 <= le_val l < 256 ^ zlen l.
Proof.
  induction 1 as [|b l Hb _ IH]; [unfold zlen; simpl; lia|].
  rewrite zlen_cons, Z.pow_add_r by (try apply zlen_nonneg; lia).
  simpl. unfold is_byte in Hb. lia.
Qed.

Lemma le_val_store n v : 0 <= v -> le_val (le_store n v) = v `mod` 256 ^ Z.of_nat n.
Proof.
  revert v. induction n as [|n IH]; intros v Hv; [by rewrite Z.mod_1_r|].
  rewrite le_store_S. simpl le_val.
  rewrite IH by (apply Z.shiftr_nonneg; lia). rewrite Z.shiftr_div_pow2 by lia.
  unfold u8. change (2 ^ 8) with 256. rewrite Nat2Z.inj_succ, Z.pow_succ_r by lia.
  symmetry. apply Z.rem_mul_r; [lia|]. apply Z.pow_pos_nonneg; lia.
Qed.

Lemma le_load_from_val w i acc l :
  wf_bytes l -> 0 <= acc < 2 ^ (8 * Z.of_nat i) -> 8 * (Z.of_nat i + zlen l) <= w ->
  le_load_from w i acc l = acc + 2 ^ (8 * Z.of_nat i) * le_val l.
Proof.
  intros Hl. revert i acc. induction Hl as [|b l Hb Hl IH]; intros i acc Hacc Hw; simpl; [lia|].
  rewrite zlen_cons in Hw. pose proof (zlen_nonneg l). unfold is_byte in Hb.
  set (P := 2 ^ (8 * Z.of_nat i)) in *. assert (0 < P) by (apply Z.pow_pos_nonneg; lia).
  assert (P * 256 <= 2 ^ w) as HP.
  { unfold P. change 256 with (2 ^ 8). rewrite <- Z.pow_add_r by lia. apply Z.pow_le_mono_r; lia. }
  rewrite Z.shiftl_mul_pow2, (Z.mul_comm _ 8) by lia. fold P.
  rewrite Z.mod_small, Z.lor_comm by nia. unfold P at 1. rewrite lor_low_high by (fold P; lia). fold P.
  assert (2 ^ (8 * Z.of_nat (S i)) = P * 256) as HS.
  { unfold P. change 256 with (2 ^ 8). rewrite <- Z.pow_add_r by lia. f_equal. lia. }
  rewrite IH by (rewrite ?HS; nia). rewrite HS. ring.
Qed.

Lemma le_load_val w l : wf_bytes l -> 8 * zlen l <= w -> le_load w l = le_val l.
Proof. intros Hl Hw. unfold le_load. rewrite le_load_from_val; [lia|done|lia|lia]. Qed.

Lemma le_load_store w n v :
  8 * Z.of_nat n <= w -> 0 <= v < 2 ^ (8 * Z.of_nat n) -> le_load w (le_store n v) = v.
Proof.
  intros Hw Hv. rewrite le_load_val; [|apply le_store_wf|unfold zlen; rewrite length_le_store; lia].
  rewrite le_val_store by lia. apply Z.mod_small. by rewrite pow256.
Qed.

Lemma le_val_inj l k :
  wf_bytes l -> wf_bytes k -> length l = length k -> le_val l = le_val k -> l = k.
Proof.
  intros Hl. revert k. induction Hl as [|b l Hb Hl IH]; intros [|c k] Hk Hlen Hv; try done.
  apply Forall_cons in Hk as [Hc Hk]. injection Hlen as Hlen. simpl in Hv. unfold is_byte in *.
  assert (b = c) as -> by lia. f_equal. apply IH; [done|done|lia].
Qed.

Lemma le_store_load w l :
  wf_bytes l -> 8 * zlen l <= w -> le_store (length l) (le_load w l) = l.
Proof.
  intros Hl Hw. rewrite le_load_val by done. pose proof (le_val_bound l Hl).
  apply le_val_inj; [apply le_store_wf|done|apply length_le_store|].
  rewrite le_val_store by lia. by apply Z.mod_small.
Qed.

Lemma le_load_bound w l : wf_bytes l -> 8 * zlen l <= w -> 0 <= le_load w l < 2 ^ (8 * zlen l).
Proof. intros Hl Hw. rewrite le_load_val by done. unfold zlen. rewrite <- pow256. by apply le_val_bound. Qed.

Lemma be_load_bound w l : wf_bytes l -> 8 * zlen l <= w -> 0 <= be_load w l < 2 ^ (8 * zlen l).
Proof. intros Hl Hw. rewrite be_load_val by done. unfold zlen. rewrite <- pow256. by apply be_val_bound. Qed.

Lemma le_store_snoc n v :
  le_store (S n) v = le_store n v ++ [u8 (Z.shiftr v (Z.of_nat n * 8))].
Proof. unfold le_store. rewrite seq_S, map_app. done. Qed.

Lemma le_val_app l k : le_val (l ++ k) = le_val l + 256 ^ zlen l * le_val k.
Proof.
  induction l as [|b l IH]; simpl; [change (zlen []) with 0; lia|].
  rewrite IH, zlen_cons, Z.pow_add_r by (try apply zlen_nonneg; lia). ring.
Qed.

(** *** Slices *)

Lemma take_app_exact {A} (l k : list A) n : n = length l -> take n (l ++ k) = l.
Proof. intros ->. apply take_app_length. Qed.

Lemma drop_app_exact {A} (l k : list A) n : n = length l -> drop n (l ++ k) = k.
Proof. intros ->. apply drop_app_length. Qed.

(** Well-formedness of the byte strings the encoders build. *)
Ltac solve_wf :=
  repeat match goal with
  | H : ?P |- ?P => exact H
  | |- Forall _ (_ ++ _) => apply Forall_app; split
  | |- Forall _ (_ :: _) => apply Forall_cons; split
  | |- Forall _ [] => apply Forall_nil; exact I
  | |- Forall _ (be_store _ _) => apply be_store_wf
  | |- Forall _ (le_store _ _) => apply le_store_wf
  | |- Forall _ (take _ _) => apply Forall_take
  | |- Forall _ (drop _ _) => apply Forall_drop
  | |- is_byte (u8 _) => apply u8_byte
  | |- is_byte _ => unfold is_byte; split; (done || lia)
  end.
