(* ===== verification/RowFormat.v ===== *)
(** * The on-disk framing of keys and rows ([src/core/row_format])

    The row header that records the shape a row was written with, the big-endian hidden primary key
    and the key namespace byte.  The theorems: the header round-trips and a decoded header pins the
    first five bytes, hidden keys order as numbers do, and the metadata namespace sorts before every
    row. *)
From S2P Require Import Prelude.
#[local] Open Scope Z_scope.
#[local] Open Scope tdb_scope.

Module RowFormat.

Definition KEY_NS_META : Z := 0x00.
Definition KEY_NS_DATA : Z := 0x01.
Definition KEY_NAMESPACE_LEN : Z := 1.
Definition HIDDEN_PK_SIZE : nat := 8.
Definition ROW_HEADER_MAGIC : Z := 0xFE.
Definition ROW_HEADER_SIZE : Z := 5.

Record row_header := { null_bytes : Z; field_count : Z }.

Definition store_u16le (v : Z) : bytes := [u8 v; u8 (Z.shiftr v 8)].

Definition load_u16le (p : bytes) : Z := u16 (Z.lor (p !!! 0%nat) (Z.shiftl (p !!! 1%nat) 8)).

Definition encode_row_header (nb fc : Z) : bytes :=
  ROW_HEADER_MAGIC :: store_u16le nb ++ store_u16le fc.

Definition decode_row_header (data : bytes) : option row_header :=
  if (zlen data <? ROW_HEADER_SIZE) || negb (data !!! 0%nat =? ROW_HEADER_MAGIC) then None
  else Some {| null_bytes := load_u16le (drop 1 data); field_count := load_u16le (drop 3 data) |}.

Definition encode_be64 (id : Z) : bytes := be_store HIDDEN_PK_SIZE id.

Definition decode_be64 (inp : bytes) : Z := be_load 64 (take HIDDEN_PK_SIZE inp).

Definition build_data_key (pk : bytes) : bytes := KEY_NS_DATA :: pk.

Definition is_data_key (key : bytes) : bool :=
  (0 <? zlen key) && (key !!! 0%nat =? KEY_NS_DATA).

(** ** Lemmas *)

Lemma store_u16le_spec v : 0 <= v < 2 ^ 16 -> store_u16le v = le_store 2 v.
Proof. done. Qed.

Lemma load_u16le_spec p : wf_bytes p -> (2 <= length p)%nat -> load_u16le p = le_load 16 (take 2 p).
Proof.
  destruct p as [|a [|b p]]; simpl; [lia..|]. intros [Ha [Hb _]%Forall_cons_1]%Forall_cons_1 _. unfold load_u16le, le_load. simpl.
  change (Z.of_nat 1 * 8) with 8. rewrite Z.shiftl_0_r, Z.lor_0_l. unfold is_byte in *.
  rewrite (Z.mod_small a), (Z.mod_small (Z.shiftl b 8)) by (rewrite ?Z.shiftl_mul_pow2; lia).
  unfold u16. apply Z.mod_small. rewrite Z.shiftl_mul_pow2, Z.lor_comm, lor_low_high by lia. lia.
Qed.

Lemma load_store_u16le v rest : 0 <= v < 2 ^ 16 -> load_u16le (store_u16le v ++ rest) = v.
Proof.
  intros Hv. unfold load_u16le, store_u16le. simpl. unfold u8, u16.
  rewrite Z.shiftr_div_pow2, Z.shiftl_mul_pow2, Z.lor_comm, lor_low_high
    by (try apply Z.mod_pos_bound; lia).
  change (2 ^ 8) with 256. change (2 ^ 16) with 65536 in *.
  rewrite (Z.mod_small (v / 256)) by (split; [apply Z.div_pos|apply Z.div_lt_upper_bound]; lia).
  rewrite (Z.mul_comm (v / 256)), <- Z.div_mod by lia. by apply Z.mod_small.
Qed.

Lemma wf_encode_row_header nb fc : wf_bytes (encode_row_header nb fc).
Proof. unfold encode_row_header, store_u16le. solve_wf. Qed.

Lemma encode_row_header_length nb fc : length (encode_row_header nb fc) = 5%nat.
Proof. done. Qed.

Lemma encode_be64_length id : length (encode_be64 id) = 8%nat.
Proof. apply length_be_store. Qed.

Lemma decode_encode_row_header nb fc rest :
  0 <= nb < 2 ^ 16 -> 0 <= fc < 2 ^ 16 ->
  decode_row_header (encode_row_header nb fc ++ rest) =
    Some {| null_bytes := nb; field_count := fc |}.
Proof.
  intros Hnb Hfc. unfold decode_row_header.
  replace (zlen _ <? ROW_HEADER_SIZE) with false.
  2:{ symmetry. apply Z.ltb_ge. rewrite zlen_app. pose proof (zlen_nonneg rest).
      unfold zlen, ROW_HEADER_SIZE. rewrite encode_row_header_length. lia. }
  change (negb (_ =? _)) with false. simpl. do 2 f_equal.
  - by apply (load_store_u16le nb (store_u16le fc ++ rest)).
  - by apply (load_store_u16le fc rest).
Qed.

Lemma store_load_u16le a b : is_byte a -> is_byte b -> store_u16le (load_u16le [a; b]) = [a; b].
Proof.
  intros Ha Hb. rewrite load_u16le_spec by (solve_wf; simpl; lia).
  change (store_u16le ?v) with (le_store (length [a; b]) v).
  apply le_store_load; [solve_wf|]. unfold zlen. simpl. lia.
Qed.

(** A header that decodes is the five bytes the encoder writes for it: nothing else is accepted. *)
Lemma decode_row_header_inv data h :
  wf_bytes data -> decode_row_header data = Some h ->
  data = encode_row_header (null_bytes h) (field_count h) ++ drop 5 data.
Proof.
  intros Hwf. unfold decode_row_header.
  destruct (Z.ltb_spec (zlen data) ROW_HEADER_SIZE) as [|Hlen]; [done|].
  destruct data as [|m [|a [|b [|c [|d rest]]]]];
    try (unfold zlen, ROW_HEADER_SIZE in Hlen; simpl in Hlen; lia).
  simpl. destruct (Z.eqb_spec m ROW_HEADER_MAGIC) as [->|]; [|done].
  intros [= <-]. simpl. rewrite !Forall_cons in Hwf. destruct Hwf as (_ & Ha & Hb & Hc & Hd & _).
  unfold encode_row_header. simpl. f_equal.
  pose proof (store_load_u16le a b Ha Hb) as E1. pose proof (store_load_u16le c d Hc Hd) as E2.
  unfold load_u16le in *. simpl in *. rewrite drop_0. injection E1 as -> ->.
  injection E2 as -> ->. done.
Qed.

Lemma encode_be64_order a b :
  0 <= a < 2 ^ 64 -> 0 <= b < 2 ^ 64 -> bytes_cmp (encode_be64 a) (encode_be64 b) = (a ?= b).
Proof. intros. by apply be_store_cmp. Qed.

Lemma decode_encode_be64 id rest : 0 <= id < 2 ^ 64 -> decode_be64 (encode_be64 id ++ rest) = id.
Proof.
  intros Hid. unfold decode_be64, encode_be64. rewrite take_app_exact by (by rewrite length_be_store).
  apply be_load_store; [done|exact Hid].
Qed.

Lemma build_data_key_cmp a b : bytes_cmp (build_data_key a) (build_data_key b) = bytes_cmp a b.
Proof. apply (bytes_cmp_app_same [KEY_NS_DATA]). Qed.

Lemma is_data_key_build pk : is_data_key (build_data_key pk) = true.
Proof.
  unfold is_data_key, build_data_key. apply andb_true_iff. split; [|done].
  apply Z.ltb_lt. rewrite zlen_cons. pose proof (zlen_nonneg pk). lia.
Qed.

Lemma is_data_key_inv k : is_data_key k = true -> exists pk, k = build_data_key pk.
Proof.
  unfold is_data_key. destruct k as [|x k]; [done|]. intros [_ E]%andb_true_iff.
  apply Z.eqb_eq in E. simpl in E. subst. by exists k.
Qed.

(** ** Properties *)

(** Every row header decodes to the shape it was written with, whatever row bytes follow, and a
    buffer that decodes starts with exactly the header of the decoded shape. *)
Lemma row_header_roundtrip nb fc rest data h :
  0 <= nb < 2 ^ 16 -> 0 <= fc < 2 ^ 16 -> wf_bytes data ->
  decode_row_header (encode_row_header nb fc ++ rest) =
    Some {| null_bytes := nb; field_count := fc |} /\
  (decode_row_header data = Some h ->
   data = encode_row_header (null_bytes h) (field_count h) ++ drop 5 data).
Proof. eauto using decode_encode_row_header, decode_row_header_inv. Qed.

(** The hidden row id of a table without a primary key survives its key encoding, the data keys
    of two rows compare under the key order exactly as their row ids do, and every key of the
    metadata namespace sorts before every data key, so a scan seeking the data namespace (or the
    last row) never lands on metadata. *)
Lemma hidden_key_order a b rest meta pk :
  0 <= a < 2 ^ 64 -> 0 <= b < 2 ^ 64 ->
  decode_be64 (encode_be64 a ++ rest) = a /\
  bytes_cmp (build_data_key (encode_be64 a)) (build_data_key (encode_be64 b)) = (a ?= b) /\
  (KEY_NS_META :: meta) <b build_data_key pk /\
  is_data_key (KEY_NS_META :: meta) = false /\ is_data_key (build_data_key pk) = true.
Proof.
  intros Ha Hb. rewrite build_data_key_cmp. split_and!.
  - by apply decode_encode_be64.
  - by apply encode_be64_order.
  - reflexivity.
  - unfold is_data_key. apply andb_false_r.
  - apply is_data_key_build.
Qed.

End RowFormat.
