(* ===== verification/SortKey.v ===== *)
(** * Inverting a memory-comparable sort key ([src/core/sort_key])

    [decode_int], [decode_reverse] and [decode_part], with the native value they write into the
    record buffer as the result.  The encoder lives in the server ([Field::sort_string]); the two
    encodings the header of the module documents, the big-endian integer whose top byte has its sign
    bit flipped and the big-endian unsigned value, are [int_sort_key] and [be_store] here, and the
    decoder is proved to invert them at every width the server has. *)
From S2P Require Import Prelude.
#[local] Open Scope Z_scope.
#[local] Open Scope tdb_scope.

Module SortKey.

Definition INT_SIGN_FLIP_MASK : Z := 0x80.
Definition DATE_PACK_LEN : Z := 3.
Definition DATETIME_MAX_PACK_LEN : Z := 8.

Inductive kind := undecodable | integer | year | date | datetime | char_fixed.

Record field_sort_desc :=
  { k : kind; is_signed : bool; pack_length : Z; pad_byte : Z }.

(** The default member initialisers of the struct. *)
Definition default_desc : field_sort_desc :=
  {| k := undecodable; is_signed := false; pack_length := 0; pad_byte := 32 |}.

(** [for (i < sort_len) to[i] = src[sort_len - 1 - i]]. *)
Definition reverse_loop (src : bytes) (sort_len : Z) : bytes :=
  map (fun i => src !!! (Z.to_nat sort_len - 1 - i)%nat) (seq 0 (Z.to_nat sort_len)).

(** [to[i] ^= mask]. *)
Definition xor_at (i : nat) (mask : Z) (to : bytes) : bytes :=
  <[i := Z.lxor (to !!! i) mask]> to.

Definition decode_int (src : bytes) (sort_len : Z) (sgn : bool) : option bytes :=
  if (sort_len =? 0) || ((4 <? sort_len) && negb (sort_len =? 8)) then None
  else
    let to := reverse_loop src sort_len in
    Some (if sgn then xor_at (Z.to_nat sort_len - 1) INT_SIGN_FLIP_MASK to else to).

Definition decode_reverse (src : bytes) (sort_len : Z) : option bytes :=
  Some (reverse_loop src sort_len).

Definition decode_part (src : bytes) (sort_len : Z) (d : field_sort_desc) : option bytes :=
  match k d with
  | integer => decode_int src sort_len (is_signed d)
  | year => if sort_len <? 1 then None else Some [src !!! 0%nat]
  | date => if negb (sort_len =? DATE_PACK_LEN) then None else decode_reverse src sort_len
  | datetime =>
      if (sort_len =? 0) || (DATETIME_MAX_PACK_LEN <? sort_len) then None
      else decode_reverse src sort_len
  | char_fixed =>
      let copy := if sort_len <? pack_length d then sort_len else pack_length d in
      Some (take (Z.to_nat copy) src ++
            (if copy <? pack_length d
             then replicate (Z.to_nat (pack_length d - copy)) (pad_byte d) else []))
  | undecodable => None
  end.

(** ** Reference encodings *)

(** The sort key of an integer column of [w] bytes: big-endian, sign bit flipped when signed. *)
Definition int_sort_key (w : nat) (sgn : bool) (v : Z) : bytes :=
  be_store w (if sgn then v + 2 ^ (8 * Z.of_nat w - 1) else v).

(** The native little-endian image of the same value. *)
Definition int_native (w : nat) (v : Z) : bytes := le_store w (v `mod` 2 ^ (8 * Z.of_nat w)).

Definition int_in_range (w : nat) (sgn : bool) (v : Z) : Prop :=
  if sgn then - 2 ^ (8 * Z.of_nat w - 1) <= v < 2 ^ (8 * Z.of_nat w - 1)
  else 0 <= v < 2 ^ (8 * Z.of_nat w).

(** The integer widths of the server: tiny, short, int24, long, longlong. *)
Definition int_width (w : nat) : Prop := w ∈ [1; 2; 3; 4; 8]%nat.

(** The number of bytes [decode_part] may write for a descriptor and a part length. *)
Definition native_width (d : field_sort_desc) (sort_len : Z) : Z :=
  match k d with
  | year => 1
  | char_fixed => pack_length d
  | _ => sort_len
  end.

(** ** Lemmas *)

Lemma reverse_loop_rev src n : length src = n -> reverse_loop src (Z.of_nat n) = reverse src.
Proof.
  intros <-. unfold reverse_loop. rewrite Nat2Z.id.
  apply list_eq_same_length with (n := length src);
    [by rewrite length_reverse | by rewrite length_map, length_seq |].
  intros i x y Hi Hx Hy.
  rewrite list_lookup_fmap, lookup_seq_lt in Hx by lia. simpl in Hx. injection Hx as <-.
  apply reverse_lookup_Some in Hy as [Hy _].
  apply list_lookup_total_correct in Hy. rewrite <- Hy. f_equal. lia.
Qed.

Lemma reverse_be_store n v : reverse (be_store n v) = le_store n v.
Proof.
  induction n as [|n IH]; [done|]. rewrite be_store_S, reverse_cons, IH.
  by rewrite le_store_snoc.
Qed.

(** Flipping the top bit of the top byte is adding half the range. *)
Lemma u8_flip z : 0 <= z < 256 -> Z.lxor z INT_SIGN_FLIP_MASK = (z + 128) `mod` 256.
Proof.
  intros Hz. unfold INT_SIGN_FLIP_MASK.
  assert (Forall (fun z => Z.lxor z 0x80 = (z + 128) `mod` 256) (map Z.of_nat (seq 0 256))) as H.
  { apply (bool_decide_unpack _). vm_compute. exact I. }
  rewrite Forall_forall in H. apply H. apply list_elem_of_In, in_map_iff.
  exists (Z.to_nat z). rewrite in_seq. lia.
Qed.

Lemma xor_at_last l t m : xor_at (length l) m (l ++ [t]) = l ++ [Z.lxor t m].
Proof.
  unfold xor_at. rewrite insert_app_r_alt, Nat.sub_diag by lia. simpl.
  by rewrite (list_lookup_total_correct (l ++ [t]) (length l) t) by (by apply list_lookup_middle).
Qed.

Lemma flip_le_store n v :
  - (128 * 256 ^ Z.of_nat n) <= v < 128 * 256 ^ Z.of_nat n ->
  xor_at n INT_SIGN_FLIP_MASK (le_store (S n) (v + 128 * 256 ^ Z.of_nat n)) =
    le_store (S n) (v `mod` (256 * 256 ^ Z.of_nat n)).
Proof.
  intros Hv. set (Q := 256 ^ Z.of_nat n) in *.
  assert (0 < Q) by (apply Z.pow_pos_nonneg; lia).
  set (x := v + 128 * Q). assert (0 <= x < 256 * Q) as Hx by lia.
  rewrite le_store_snoc. rewrite <- (length_le_store n x) at 1. rewrite xor_at_last.
  rewrite Z.shiftr_div_pow2, (Z.mul_comm _ 8), <- pow256 by lia. fold Q.
  assert (0 <= x / Q < 256) as Ht by (split; [apply Z.div_pos|apply Z.div_lt_upper_bound]; lia).
  rewrite u8_id, u8_flip by done.
  apply le_val_inj; [solve_wf; apply Z.mod_pos_bound; lia|solve_wf| |].
  { rewrite length_app, !length_le_store. simpl. lia. }
  rewrite le_val_app, !le_val_store by (try apply Z.mod_pos_bound; lia).
  unfold zlen. rewrite length_le_store, Nat2Z.inj_succ, Z.pow_succ_r by lia. fold Q. simpl.
  rewrite Z.mod_mod by lia. pose proof (Z.div_mod x Q ltac:(lia)) as E.
  pose proof (Z.mod_pos_bound x Q ltac:(lia)).
  destruct (Z.ltb_spec v 0).
  - assert (x / Q < 128) by (apply Z.div_lt_upper_bound; lia).
    rewrite (Z.mod_small (x / Q + 128)) by lia.
    rewrite <- (Z.mod_unique v (256 * Q) (-1) (v + 256 * Q)) by lia. lia.
  - assert (128 <= x / Q) by (apply Z.div_le_lower_bound; lia).
    rewrite <- (Z.mod_unique (x / Q + 128) 256 1 (x / Q - 128)) by lia.
    rewrite (Z.mod_small v) by lia. lia.
Qed.

Lemma half_range n : 2 ^ (8 * Z.of_nat (S n) - 1) = 128 * 256 ^ Z.of_nat n.
Proof.
  rewrite pow256. change 128 with (2 ^ 7). rewrite <- Z.pow_add_r by lia. f_equal. lia.
Qed.

Lemma full_range n : 2 ^ (8 * Z.of_nat (S n)) = 256 * 256 ^ Z.of_nat n.
Proof. rewrite <- pow256, Nat2Z.inj_succ, Z.pow_succ_r by lia. done. Qed.

Lemma int_width_guard w :
  int_width w ->
  (Z.of_nat w =? 0) || ((4 <? Z.of_nat w) && negb (Z.of_nat w =? 8)) = false.
Proof. unfold int_width. rewrite !elem_of_cons, elem_of_nil. intros [->|[->|[->|[->|[->|[]]]]]]; done. Qed.

Lemma decode_int_spec w sgn v :
  int_width w -> int_in_range w sgn v ->
  decode_int (int_sort_key w sgn v) (Z.of_nat w) sgn = Some (int_native w v).
Proof.
  intros Hw Hv. unfold decode_int. rewrite int_width_guard by done.
  unfold int_sort_key, int_native.
  rewrite reverse_loop_rev by apply length_be_store. rewrite reverse_be_store, Nat2Z.id. f_equal.
  destruct sgn; simpl in Hv; [|by rewrite Z.mod_small].
  destruct w as [|n]; [by apply int_width_guard in Hw|].
  rewrite half_range in *. rewrite full_range.
  replace (S n - 1)%nat with n by lia. by apply flip_le_store.
Qed.

Lemma int_sort_key_cmp w sgn a b :
  (0 < w)%nat -> int_in_range w sgn a -> int_in_range w sgn b ->
  bytes_cmp (int_sort_key w sgn a) (int_sort_key w sgn b) = (a ?= b).
Proof.
  intros Hw Ha Hb. unfold int_sort_key.
  assert (2 ^ (8 * Z.of_nat w) = 2 * 2 ^ (8 * Z.of_nat w - 1)) as E.
  { rewrite <- Z.pow_succ_r by lia. f_equal. lia. }
  rewrite be_store_cmp by (destruct sgn; simpl in *; lia).
  destruct sgn; [|done]. rewrite !(Z.add_comm _ (2 ^ _)). apply Z.add_compare_mono_l.
Qed.

Lemma lookup_total_take (src src' : bytes) (n i : nat) :
  take n src = take n src' -> (i < n)%nat -> src !!! i = src' !!! i.
Proof.
  intros E Hi. rewrite !list_lookup_total_alt.
  rewrite <- (lookup_take_lt src n i), <- (lookup_take_lt src' n i) by done. by rewrite E.
Qed.

Lemma reverse_loop_reads src src' n :
  take (Z.to_nat n) src = take (Z.to_nat n) src' -> reverse_loop src n = reverse_loop src' n.
Proof.
  intros E. unfold reverse_loop. apply map_ext_in. intros i Hi%in_seq.
  apply (lookup_total_take _ _ (Z.to_nat n)); [done|lia].
Qed.

Lemma reverse_loop_length src n : length (reverse_loop src n) = Z.to_nat n.
Proof. unfold reverse_loop. by rewrite length_map, length_seq. Qed.

Lemma decode_part_reads src src' n d :
  0 <= n -> take (Z.to_nat n) src = take (Z.to_nat n) src' ->
  decode_part src n d = decode_part src' n d.
Proof.
  intros Hn E. unfold decode_part, decode_int, decode_reverse.
  rewrite (reverse_loop_reads src src' n E). destruct (k d); try done.
  - case_test; [done|]. do 2 f_equal. apply (lookup_total_take _ _ (Z.to_nat n)); [done|lia].
  - set (copy := if n <? pack_length d then n else pack_length d).
    do 2 f_equal. assert (copy <= n) by (unfold copy; case_test; lia).
    replace (Z.to_nat copy) with (Z.to_nat copy `min` Z.to_nat n)%nat by lia.
    rewrite <- !take_take. by rewrite E.
Qed.

(** ** Properties *)

(** For every server integer width and signedness, the sort key of an in-range value decodes to
    the native little-endian image of that value, and sort keys compare under [memcmp] exactly as
    the values do. *)
Lemma decode_int_inverts_sort_key w sgn a b :
  int_width w -> int_in_range w sgn a -> int_in_range w sgn b ->
  decode_int (int_sort_key w sgn a) (Z.of_nat w) sgn = Some (int_native w a) /\
  bytes_cmp (int_sort_key w sgn a) (int_sort_key w sgn b) = (a ?= b).
Proof.
  intros Hw Ha Hb. split; [by apply decode_int_spec|]. apply int_sort_key_cmp; try done.
  apply int_width_guard in Hw. destruct w; [done|lia].
Qed.

(** [decode_part] reads only the part's own bytes, and what it writes is exactly as wide as the
    field: two keys that agree on the part decode alike, and the result has the native width. *)
Lemma decode_part_in_bounds src src' n d out :
  0 <= n -> 0 <= pack_length d -> n <= zlen src ->
  take (Z.to_nat n) src = take (Z.to_nat n) src' ->
  decode_part src n d = Some out ->
  decode_part src' n d = Some out /\ zlen out = native_width d n.
Proof.
  intros Hn Hp Hlen E Hd. split; [by rewrite <- (decode_part_reads src src')|]. revert Hd.
  unfold decode_part, native_width, decode_int, decode_reverse, zlen in *.
  pose proof (reverse_loop_length src n) as HL. destruct (k d).
  - done.
  - destruct (_ || _); [done|]. intros [= <-].
    destruct (is_signed d); unfold xor_at; rewrite ?length_insert; lia.
  - case_test; [done|]. by intros [= <-].
  - destruct (negb _); [done|]. intros [= <-]. lia.
  - destruct (_ || _); [done|]. intros [= <-]. lia.
  - intros [= <-]. rewrite length_app, length_take.
    repeat case_test; rewrite ?length_replicate; simpl; lia.
Qed.

(** A fixed-width column read back from a prefix key is the stored value, for a latin1 char and
    for a binary column alike, as long as the bytes the prefix dropped are the column's own padding
    byte. *)
Lemma decode_char_restores_value v n d :
  k d = char_fixed -> zlen v = pack_length d -> 0 <= n <= pack_length d ->
  Forall (fun b => b = pad_byte d) (drop (Z.to_nat n) v) ->
  decode_part (take (Z.to_nat n) v) n d = Some v.
Proof.
  intros Hk Hl Hn Hpad. unfold decode_part. rewrite Hk. f_equal.
  set (copy := if n <? pack_length d then n else pack_length d).
  assert (copy = n) as -> by (unfold copy; case_test; lia).
  rewrite take_take, Nat.min_id. rewrite <- (take_drop (Z.to_nat n) v) at 2. f_equal.
  unfold zlen in Hl. case_test; [|rewrite drop_ge; [done|lia]].
  apply replicate_as_Forall. split; [rewrite length_drop; lia|].
  eapply Forall_impl; [exact Hpad|]. done.
Qed.

End SortKey.
