(* ===== verification/KeyEnc.v ===== *)
(** * The byte layouts of the key store ([src/core/crypto_keyenc])

    The namespaces of the reserved column family that holds the wrapped table keys, the store keys
    they are addressed by and the framing of a wrapped key.  A null output pointer is an argument of
    the encoders, as the source checks for one; the out parameters of [parse_wrapped_value] are
    threaded so that a rejected value leaves them untouched. *)
From S2P Require Import Prelude.
#[local] Open Scope Z_scope.
#[local] Open Scope tdb_scope.

Module KeyEnc.

Inductive ns := master_seq | wrapped | latest.

Definition ns_byte (n : ns) : Z :=
  match n with master_seq => 0x00 | wrapped => 0x01 | latest => 0x02 end.

Definition FIELD_LEN : nat := 4.
Definition KEY_MAX_LEN : nat := 1 + 2 * FIELD_LEN.
Definition WRAP_HEADER_LEN : nat := FIELD_LEN.
Definition GENERATION_NONE : Z := 0.
Definition GENERATION_FIRST : Z := 1.

Definition BE32_BYTE_MASK : Z := 0xFF.

Definition be32_encode (v : Z) (out : ptr) : bytes :=
  match out with
  | null => []
  | nonnull =>
      [u8 (Z.land (Z.shiftr v 24) BE32_BYTE_MASK);
       u8 (Z.land (Z.shiftr v 16) BE32_BYTE_MASK);
       u8 (Z.land (Z.shiftr v 8) BE32_BYTE_MASK);
       u8 (Z.land v BE32_BYTE_MASK)]
  end.

Definition be32_decode (inp : option bytes) : Z :=
  match inp with
  | None => 0
  | Some b =>
      Z.lor (Z.lor (Z.lor (u32 (Z.shiftl (b !!! 0%nat) 24)) (u32 (Z.shiftl (b !!! 1%nat) 16)))
                   (u32 (Z.shiftl (b !!! 2%nat) 8)))
            (b !!! 3%nat)
  end.

(** [encode_key]: the namespace byte, then at most two big-endian fields. *)
Fixpoint encode_fields (fields : list Z) (field_count : Z) (i : Z) : bytes :=
  match fields with
  | [] => []
  | f :: fs =>
      if (i <? field_count) && (i <? 2)
      then be32_encode f nonnull ++ encode_fields fs field_count (i + 1) else []
  end.

Definition encode_key (n : ns) (fields : list Z) (field_count : Z) (out : ptr) : bytes :=
  match out with
  | null => []
  | nonnull => u8 (ns_byte n) :: encode_fields fields field_count 0
  end.

Definition encode_master_seq_key (out : ptr) : bytes := encode_key master_seq [] 0 out.
Definition encode_latest_key (key_id : Z) (out : ptr) : bytes := encode_key latest [key_id] 1 out.
Definition encode_wrapped_key (key_id version : Z) (out : ptr) : bytes :=
  encode_key wrapped [key_id; version] 2 out.

Definition frame_wrapped_value (generation : Z) (wrapped_key : option bytes) (out : ptr) : bytes :=
  match out, wrapped_key with
  | nonnull, Some w =>
      if zlen w =? 0 then [] else be32_encode generation nonnull ++ w
  | _, _ => []
  end.

(** The out parameters: [None] is a null pointer, [Some v] a pointer to a cell holding [v]. *)
Record wrap_out := { generation_out : option Z; off_out : option Z; len_out : option Z }.

Definition parse_wrapped_value (stored : option bytes) (o : wrap_out) : bool * wrap_out :=
  match stored, generation_out o, off_out o, len_out o with
  | Some s, Some _, Some _, Some _ =>
      if zlen s <=? Z.of_nat WRAP_HEADER_LEN then (false, o)
      else (true, {| generation_out := Some (be32_decode (Some s));
                     off_out := Some (Z.of_nat WRAP_HEADER_LEN);
                     len_out := Some (zlen s - Z.of_nat WRAP_HEADER_LEN) |})
  | _, _, _, _ => (false, o)
  end.

(** ** Lemmas *)

Lemma land_byte_mask z : u8 (Z.land z BE32_BYTE_MASK) = u8 z.
Proof.
  unfold u8, BE32_BYTE_MASK. change 255 with (Z.ones 8). rewrite Z.land_ones by lia.
  by rewrite Z.mod_mod by lia.
Qed.

Lemma be32_encode_spec v : be32_encode v nonnull = be_store 4 v.
Proof.
  unfold be32_encode. rewrite !land_byte_mask, !be_store_S.
  change (be_store 0 v) with (@nil Z). rewrite Z.shiftr_0_r. done.
Qed.

Lemma be32_decode_spec a b c d rest :
  wf_bytes [a; b; c; d] ->
  be32_decode (Some (a :: b :: c :: d :: rest)) = be_load 32 [a; b; c; d].
Proof.
  intros Hwf. rewrite be_load_val by (done || (unfold zlen; simpl; lia)).
  rewrite !Forall_cons in Hwf. destruct Hwf as (Ha & Hb & Hc & Hd & _). unfold is_byte in *.
  simpl. unfold u32. rewrite !Z.shiftl_mul_pow2 by lia.
  rewrite !Z.mod_small by lia.
  rewrite (lor_low_high 24 (b * 2 ^ 16) a) by lia.
  replace (a * 2 ^ 24 + b * 2 ^ 16) with ((a * 2 ^ 8 + b) * 2 ^ 16) by lia.
  rewrite (lor_low_high 16 (c * 2 ^ 8)) by lia.
  replace ((a * 2 ^ 8 + b) * 2 ^ 16 + c * 2 ^ 8) with (((a * 2 ^ 8 + b) * 2 ^ 8 + c) * 2 ^ 8) by lia.
  rewrite (lor_low_high 8 d) by lia. unfold be_val, be_val_from. simpl. lia.
Qed.

Lemma be32_encode_length v : length (be32_encode v nonnull) = 4%nat.
Proof. done. Qed.

Lemma be32_decode_encode v rest :
  0 <= v < 2 ^ 32 -> be32_decode (Some (be32_encode v nonnull ++ rest)) = v.
Proof.
  intros Hv. rewrite be32_encode_spec.
  pose proof (be_store_wf 4 v) as Hwf. pose proof (length_be_store 4 v) as Hl.
  pose proof (be_load_store 32 4 v ltac:(lia) Hv) as E.
  destruct (be_store 4 v) as [|a [|b [|c [|d [|]]]]]; try discriminate Hl.
  simpl app. by rewrite be32_decode_spec.
Qed.

Lemma encode_wrapped_key_eq id ver :
  encode_wrapped_key id ver nonnull = 1 :: be_store 4 id ++ be_store 4 ver.
Proof.
  change (encode_wrapped_key id ver nonnull)
    with (1 :: be32_encode id nonnull ++ be32_encode ver nonnull ++ []).
  by rewrite app_nil_r, !be32_encode_spec.
Qed.

Lemma encode_latest_key_eq id : encode_latest_key id nonnull = 2 :: be_store 4 id.
Proof.
  change (encode_latest_key id nonnull) with (2 :: be32_encode id nonnull ++ []).
  by rewrite app_nil_r, be32_encode_spec.
Qed.

Lemma encode_master_seq_key_eq : encode_master_seq_key nonnull = [0].
Proof. done. Qed.

Lemma be32_inj a b : 0 <= a < 2 ^ 32 -> 0 <= b < 2 ^ 32 -> be_store 4 a = be_store 4 b -> a = b.
Proof.
  intros Ha Hb E. rewrite <- (be_load_store 32 4 a), <- (be_load_store 32 4 b) by (done || lia).
  by rewrite E.
Qed.

Lemma encode_wrapped_key_inj id ver id' ver' :
  0 <= id < 2 ^ 32 -> 0 <= ver < 2 ^ 32 -> 0 <= id' < 2 ^ 32 -> 0 <= ver' < 2 ^ 32 ->
  encode_wrapped_key id ver nonnull = encode_wrapped_key id' ver' nonnull -> id = id' /\ ver = ver'.
Proof.
  intros ???? E. rewrite !encode_wrapped_key_eq in E. apply (f_equal (drop 1)) in E.
  change (be_store 4 id ++ be_store 4 ver = be_store 4 id' ++ be_store 4 ver') in E.
  apply app_inj_1 in E as [? ?]; [|by rewrite !length_be_store].
  split; by apply be32_inj.
Qed.

Lemma encode_latest_key_inj id id' :
  0 <= id < 2 ^ 32 -> 0 <= id' < 2 ^ 32 ->
  encode_latest_key id nonnull = encode_latest_key id' nonnull -> id = id'.
Proof.
  intros ?? E. rewrite !encode_latest_key_eq in E. apply (f_equal (drop 1)) in E.
  by apply be32_inj.
Qed.

Lemma store_namespaces_disjoint id ver id' :
  encode_wrapped_key id ver nonnull <> encode_latest_key id' nonnull /\
  encode_wrapped_key id ver nonnull <> encode_master_seq_key nonnull /\
  encode_latest_key id' nonnull <> encode_master_seq_key nonnull.
Proof. rewrite encode_wrapped_key_eq, encode_latest_key_eq, encode_master_seq_key_eq. done. Qed.

Lemma parse_frame g w o1 o2 o3 :
  0 <= g < 2 ^ 32 -> w <> [] ->
  parse_wrapped_value (Some (frame_wrapped_value g (Some w) nonnull))
    {| generation_out := Some o1; off_out := Some o2; len_out := Some o3 |} =
  (true, {| generation_out := Some g; off_out := Some 4; len_out := Some (zlen w) |}).
Proof.
  intros Hg Hw. unfold frame_wrapped_value.
  assert (0 < zlen w) by (destruct w; [done|]; rewrite zlen_cons; pose proof (zlen_nonneg w); lia).
  destruct (Z.eqb_spec (zlen w) 0); [lia|]. unfold parse_wrapped_value. cbn [generation_out off_out len_out].
  assert (zlen (be32_encode g nonnull ++ w) = 4 + zlen w) as -> by by rewrite zlen_app.
  change (Z.of_nat WRAP_HEADER_LEN) with 4.
  case_test; [lia|]. rewrite be32_decode_encode by done.
  by replace (4 + zlen w - 4) with (zlen w) by lia.
Qed.

(** ** Properties *)

(** The store keys of the three namespaces never collide, distinct (key id, version) pairs have
    distinct keys, and the versions of one key id sort in sequence. *)
Lemma store_keys_distinct id ver id' ver' :
  0 <= id < 2 ^ 32 -> 0 <= ver < 2 ^ 32 -> 0 <= id' < 2 ^ 32 -> 0 <= ver' < 2 ^ 32 ->
  (encode_wrapped_key id ver nonnull = encode_wrapped_key id' ver' nonnull ->
     id = id' /\ ver = ver') /\
  (encode_latest_key id nonnull = encode_latest_key id' nonnull -> id = id') /\
  encode_wrapped_key id ver nonnull <> encode_latest_key id' nonnull /\
  encode_wrapped_key id ver nonnull <> encode_master_seq_key nonnull /\
  encode_latest_key id nonnull <> encode_master_seq_key nonnull /\
  bytes_cmp (encode_wrapped_key id ver nonnull) (encode_wrapped_key id ver' nonnull) = (ver ?= ver').
Proof.
  intros. destruct (store_namespaces_disjoint id ver id') as (? & ? & _).
  destruct (store_namespaces_disjoint id ver id) as (_ & _ & ?). split_and!; try done.
  - by apply encode_wrapped_key_inj.
  - by apply encode_latest_key_inj.
  - rewrite !encode_wrapped_key_eq.
    etrans; [exact (bytes_cmp_app_same (1 :: be_store 4 id) (be_store 4 ver) (be_store 4 ver'))|].
    by apply be_store_cmp.
Qed.

(** A framed wrapped key parses back to the generation that wrapped it and to the offset and
    length of the wrapped bytes, and a value too short to carry a wrapped byte is refused with every
    out parameter left as it was. *)
Lemma wrapped_value_roundtrip g w o1 o2 o3 short o :
  0 <= g < 2 ^ 32 -> w <> [] -> zlen short <= 4 ->
  (let stored := frame_wrapped_value g (Some w) nonnull in
   parse_wrapped_value (Some stored)
     {| generation_out := Some o1; off_out := Some o2; len_out := Some o3 |} =
     (true, {| generation_out := Some g; off_out := Some 4; len_out := Some (zlen w) |}) /\
   drop 4 stored = w) /\
  parse_wrapped_value (Some short) o = (false, o).
Proof.
  intros Hg Hw Hs. split; [split|].
  - by apply parse_frame.
  - unfold frame_wrapped_value. destruct (Z.eqb_spec (zlen w) 0) as [E|]; [|done].
    destruct w; [done|]. rewrite zlen_cons in E. pose proof (zlen_nonneg w). lia.
  - unfold parse_wrapped_value. destruct o as [[?|] [?|] [?|]]; simpl; try done.
    case_test; [done|]. unfold WRAP_HEADER_LEN, FIELD_LEN in *. lia.
Qed.

End KeyEnc.
