(* ===== verification/DdlLog.v ===== *)
(** * The pending schema-change record ([src/core/ddl_log_rec])

    The key and value layout of the reserved column family that remembers what a DDL statement asked
    the engine to do.  The cursor [p .. end) of the parser is the list of the bytes still unread;
    [get_str] returns the string and the rest.  The theorems: a record that encodes decodes to
    itself, a value that decodes is the encoding of the decoded record (plus trailing bytes), and
    keys carry their boot id and sort by run and sequence. *)
From S2P Require Import Prelude.
#[local] Open Scope Z_scope.
#[local] Open Scope tdb_scope.

Module DdlLog.

Inductive intent := drop_intent | create_intent.

#[export] Instance intent_eq_dec : EqDecision intent.
Proof. solve_decision. Defined.

Definition intent_byte (i : intent) : Z := match i with drop_intent => 1 | create_intent => 2 end.

Definition FORMAT_VERSION : Z := 1.
Definition KEY_LEN : Z := 16.
Definition LEN_PREFIX : nat := 4.
Definition MAX_FIELD_LEN : Z := 65535.

Record record := { what : intent; path : bytes; db : bytes; table : bytes }.

#[export] Instance record_eq_dec : EqDecision record.
Proof. solve_decision. Defined.

Definition put_u64 (v : Z) : bytes :=
  map (fun i => u8 (Z.land (Z.shiftr v (Z.of_nat (7 - i) * 8)) 0xFF)) (seq 0 8).

Definition get_u64 (inp : bytes) : Z := be_load 64 (take 8 inp).

Definition put_str (s : bytes) : bytes :=
  let n := u32 (zlen s) in
  map (fun i => u8 (Z.land (Z.shiftr n (Z.of_nat (3 - i) * 8)) 0xFF)) (seq 0 LEN_PREFIX) ++ s.

Definition get_str (p : bytes) : option (bytes * bytes) :=
  if zlen p <? Z.of_nat LEN_PREFIX then None
  else
    let n := be_load 32 (take LEN_PREFIX p) in
    let p := drop LEN_PREFIX p in
    if MAX_FIELD_LEN <? n then None
    else if zlen p <? n then None
    else Some (take (Z.to_nat n) p, drop (Z.to_nat n) p).

Definition encode_key (boot_id sequence : Z) (out : ptr) : bytes :=
  match out with
  | null => []
  | nonnull => put_u64 boot_id ++ put_u64 sequence
  end.

(** The result is the value written to [*out_boot_id] when the function returns true. *)
Definition decode_key_boot_id (key : option bytes) (out_boot_id : ptr) : option Z :=
  match key, out_boot_id with
  | Some k, nonnull => if negb (zlen k =? KEY_LEN) then None else Some (get_u64 k)
  | _, _ => None
  end.

(** The boolean result and the contents of [out], which is cleared first. *)
Definition encode_record (rec : record) : bool * bytes :=
  if (MAX_FIELD_LEN <? zlen (path rec)) || (MAX_FIELD_LEN <? zlen (db rec))
     || (MAX_FIELD_LEN <? zlen (table rec))
  then (false, [])
  else (true, FORMAT_VERSION :: intent_byte (what rec)
                :: put_str (path rec) ++ put_str (db rec) ++ put_str (table rec)).

Definition intent_of_byte (b : Z) : option intent :=
  if b =? intent_byte drop_intent then Some drop_intent
  else if b =? intent_byte create_intent then Some create_intent
  else None.

Definition decode_record (data : option bytes) (out : ptr) : option record :=
  match data, out with
  | Some d, nonnull =>
      if zlen d <? 2 then None
      else if negb (d !!! 0%nat =? FORMAT_VERSION) then None
      else
        match intent_of_byte (d !!! 1%nat) with
        | None => None
        | Some w =>
            match get_str (drop 2 d) with
            | None => None
            | Some (pa, p) =>
                match get_str p with
                | None => None
                | Some (dbn, p) =>
                    match get_str p with
                    | None => None
                    | Some (tb, _) =>
                        if zlen pa =? 0 then None
                        else Some {| what := w; path := pa; db := dbn; table := tb |}
                    end
                end
            end
        end
  | _, _ => None
  end.

(** The fields a record may carry, and the bytes [encode_record] accepts them as. *)
Definition fits (rec : record) : Prop :=
  zlen (path rec) <= MAX_FIELD_LEN /\ zlen (db rec) <= MAX_FIELD_LEN /\
  zlen (table rec) <= MAX_FIELD_LEN.

(** ** Lemmas *)

#[local] Arguments get_str : simpl never.
#[local] Arguments put_str : simpl never.

Lemma put_u64_eq v : put_u64 v = be_store 8 v.
Proof.
  unfold put_u64, be_store. apply map_ext. intros i.
  unfold u8. change 0xFF with (Z.ones 8). rewrite Z.land_ones by lia. by rewrite Z.mod_mod by lia.
Qed.

Lemma put_str_eq s : put_str s = be_store 4 (u32 (zlen s)) ++ s.
Proof.
  unfold put_str, be_store. f_equal. apply map_ext. intros i.
  unfold u8. change 0xFF with (Z.ones 8). rewrite Z.land_ones by lia. by rewrite Z.mod_mod by lia.
Qed.

Lemma get_put_str s rest :
  zlen s <= MAX_FIELD_LEN -> get_str (put_str s ++ rest) = Some (s, rest).
Proof.
  unfold MAX_FIELD_LEN. intros Hs. pose proof (zlen_nonneg s). rewrite put_str_eq, <- app_assoc.
  unfold get_str. rewrite take_app_exact, drop_app_exact by (by rewrite length_be_store).
  assert (u32 (zlen s) = zlen s) as -> by (apply Z.mod_small; lia).
  rewrite be_load_store by lia.
  replace (zlen (be_store 4 _ ++ _) <? _) with false.
  2:{ symmetry. apply Z.ltb_ge. rewrite !zlen_app. unfold zlen at 1. rewrite length_be_store.
      pose proof (zlen_nonneg s). pose proof (zlen_nonneg rest). unfold LEN_PREFIX. lia. }
  unfold MAX_FIELD_LEN. destruct (Z.ltb_spec 65535 (zlen s)); [lia|].
  rewrite zlen_app. pose proof (zlen_nonneg rest). case_test; [lia|].
  assert (Z.to_nat (zlen s) = length s) as E by (unfold zlen; lia).
  by rewrite take_app_exact, drop_app_exact.
Qed.

(** A string that parses was written by [put_str]: the parser accepts nothing else. *)
Lemma get_str_inv p s rest :
  wf_bytes p -> get_str p = Some (s, rest) ->
  p = put_str s ++ rest /\ zlen s <= MAX_FIELD_LEN /\ wf_bytes s /\ wf_bytes rest.
Proof.
  intros Hwf. unfold get_str, LEN_PREFIX. destruct (Z.ltb_spec (zlen p) (Z.of_nat 4)) as [|Hl]; [done|].
  assert (wf_bytes (take 4 p)) as Hw4 by (by apply Forall_take).
  assert (length (take 4 p) = 4%nat) as H4.
  { rewrite length_take. unfold zlen in *. lia. }
  set (n := be_load 32 (take 4 p)).
  destruct (Z.ltb_spec MAX_FIELD_LEN n) as [|Hn]; [done|].
  destruct (Z.ltb_spec (zlen (drop 4 p)) n) as [|Hd]; [done|]. intros [= <- <-].
  assert (0 <= n) by (apply be_load_bound; [done|]; unfold zlen; rewrite H4; lia).
  assert (zlen (take (Z.to_nat n) (drop 4 p)) = n) as En.
  { unfold zlen in *. rewrite length_take. lia. }
  split_and!; [|by rewrite En|solve_wf..].
  rewrite put_str_eq, En. rewrite <- app_assoc, take_drop.
  assert (u32 n = n) as -> by (apply Z.mod_small; unfold MAX_FIELD_LEN in *; lia).
  unfold n. rewrite <- H4 at 1. rewrite be_store_load, take_drop; [done|done|].
  unfold zlen. rewrite H4. lia.
Qed.

Lemma intent_of_byte_inv b w : intent_of_byte b = Some w <-> b = intent_byte w.
Proof. unfold intent_of_byte. repeat case_test; destruct w; simpl in *; naive_solver lia. Qed.

Lemma encode_record_fits rec :
  fits rec ->
  encode_record rec = (true, FORMAT_VERSION :: intent_byte (what rec)
    :: put_str (path rec) ++ put_str (db rec) ++ put_str (table rec)).
Proof.
  intros (H1 & H2 & H3). unfold encode_record.
  apply Z.ltb_ge in H1, H2, H3. by rewrite H1, H2, H3.
Qed.

Lemma encode_record_true rec out : encode_record rec = (true, out) -> fits rec.
Proof.
  unfold encode_record, fits. destruct (_ || _) eqn:E; [done|]. intros _.
  apply orb_false_iff in E as [[E1 E2]%orb_false_iff E3]. rewrite !Z.ltb_ge in *. done.
Qed.

Lemma encoding_app (v i : Z) (a b c rest : bytes) :
  (v :: i :: a ++ b ++ c) ++ rest = v :: i :: a ++ b ++ c ++ rest.
Proof. simpl. by rewrite <- !app_assoc. Qed.

Lemma decode_encode_record rec out rest :
  path rec <> [] -> encode_record rec = (true, out) ->
  decode_record (Some (out ++ rest)) nonnull = Some rec.
Proof.
  intros Hp Henc. pose proof (encode_record_true rec out Henc) as Hfit.
  rewrite (encode_record_fits rec Hfit) in Henc. apply (f_equal snd) in Henc.
  unfold snd in Henc. subst out.
  destruct Hfit as (H1 & H2 & H3). rewrite encoding_app. unfold decode_record.
  replace (zlen _ <? 2) with false.
  2:{ symmetry. apply Z.ltb_ge. rewrite !zlen_cons.
      match goal with |- context [zlen ?l] => pose proof (zlen_nonneg l) end. lia. }
  cbv [lookup_total list_lookup_total]. change (negb (FORMAT_VERSION =? FORMAT_VERSION)) with false.
  replace (intent_of_byte _) with (Some (what rec)) by (symmetry; by apply intent_of_byte_inv).
  change (drop 2 (?a :: ?b :: ?l)) with l. cbv iota beta.
  rewrite !get_put_str by done.
  destruct (Z.eqb_spec (zlen (path rec)) 0) as [E|]; [|by destruct rec].
  destruct (path rec); [done|]. rewrite zlen_cons in E. pose proof (zlen_nonneg l). lia.
Qed.

Lemma decode_record_inv d rec :
  wf_bytes d -> decode_record (Some d) nonnull = Some rec ->
  fits rec /\ path rec <> [] /\
  exists rest, d = FORMAT_VERSION :: intent_byte (what rec)
    :: put_str (path rec) ++ put_str (db rec) ++ put_str (table rec) ++ rest.
Proof.
  intros Hwf. unfold decode_record.
  destruct (Z.ltb_spec (zlen d) 2) as [|Hl]; [done|].
  destruct d as [|v [|b d]]; try (unfold zlen in Hl; simpl in Hl; lia).
  rewrite !Forall_cons in Hwf. destruct Hwf as (_ & _ & Hwf).
  change (drop 2 (v :: b :: d)) with d. cbv [lookup_total list_lookup_total].
  destruct (Z.eqb_spec v FORMAT_VERSION) as [->|]; [|done]. cbv [negb].
  destruct (intent_of_byte b) as [w|] eqn:Eb; [|done]. apply intent_of_byte_inv in Eb as ->.
  destruct (get_str d) as [[pa p1]|] eqn:E1; [|done].
  apply get_str_inv in E1 as (-> & ? & ? & Hw1); [|done].
  destruct (get_str p1) as [[dbn p2]|] eqn:E2; [|done].
  apply get_str_inv in E2 as (-> & ? & ? & Hw2); [|done].
  destruct (get_str p2) as [[tb p3]|] eqn:E3; [|done].
  apply get_str_inv in E3 as (-> & ? & ? & Hw3); [|done].
  destruct (Z.eqb_spec (zlen pa) 0) as [|Hne]; [done|]. intros [= <-]. unfold fits. cbn [path db table what].
  split; [done|]. split; [intros ->; by apply Hne|]. by exists p3.
Qed.

Lemma encode_key_cmp b s b' s' :
  0 <= b < 2 ^ 64 -> 0 <= s < 2 ^ 64 -> 0 <= b' < 2 ^ 64 -> 0 <= s' < 2 ^ 64 ->
  bytes_cmp (encode_key b s nonnull) (encode_key b' s' nonnull) =
    match b ?= b' with Eq => s ?= s' | c => c end.
Proof.
  intros. unfold encode_key. rewrite !put_u64_eq, bytes_cmp_app by (by rewrite !length_be_store).
  by rewrite !be_store_cmp by done.
Qed.

Lemma encode_key_inj b s b' s' :
  0 <= b < 2 ^ 64 -> 0 <= s < 2 ^ 64 -> 0 <= b' < 2 ^ 64 -> 0 <= s' < 2 ^ 64 ->
  encode_key b s nonnull = encode_key b' s' nonnull -> b = b' /\ s = s'.
Proof.
  intros ???? E. apply bytes_cmp_eq in E. rewrite encode_key_cmp in E by done.
  destruct (Z.compare_spec b b'); try done. by apply Z.compare_eq in E.
Qed.

Lemma decode_encode_key b s :
  0 <= b < 2 ^ 64 -> decode_key_boot_id (Some (encode_key b s nonnull)) nonnull = Some b.
Proof.
  intros Hb. unfold decode_key_boot_id, encode_key, KEY_LEN, get_u64. rewrite !put_u64_eq, zlen_app.
  unfold zlen. rewrite !length_be_store.
  change (negb (_ =? 16)) with false. cbv iota. rewrite take_app_exact by (by rewrite length_be_store).
  by rewrite be_load_store.
Qed.

(** ** Properties *)

(** A pending schema-change record that encodes, and names a path, decodes to itself; the
    encoder fails exactly when a field is longer than the layout's limit and then leaves nothing
    behind. *)
Lemma ddl_record_roundtrip rec rest :
  path rec <> [] ->
  (fits rec ->
   exists out, encode_record rec = (true, out) /\
     decode_record (Some (out ++ rest)) nonnull = Some rec) /\
  (~ fits rec -> encode_record rec = (false, [])).
Proof.
  intros Hp. split.
  - intros Hf. eexists. split; [by apply encode_record_fits|].
    apply decode_encode_record; [done|by apply encode_record_fits].
  - intros Hnf. destruct (encode_record rec) as [[] out] eqn:E.
    + by apply encode_record_true in E.
    + unfold encode_record in E. by destruct (_ || _); simplify_eq.
Qed.

(** A stored value that decodes is the encoding of the record it decodes to, with only trailing
    bytes after it, and the record names a path: a misread path can never be acted on. *)
Lemma ddl_record_decode_sound d rec :
  wf_bytes d -> decode_record (Some d) nonnull = Some rec ->
  path rec <> [] /\
  exists out rest, encode_record rec = (true, out) /\ d = out ++ rest.
Proof.
  intros Hwf Hd. destruct (decode_record_inv d rec Hwf Hd) as (Hf & Hp & rest & ->).
  split; [done|]. eexists _, rest. split; [by apply encode_record_fits|].
  by rewrite encoding_app.
Qed.

(** A record key carries the boot id it was written with, distinct (run, sequence) pairs have
    distinct keys, and keys sort by run first and by sequence within a run. *)
Lemma ddl_key_order b s b' s' :
  0 <= b < 2 ^ 64 -> 0 <= s < 2 ^ 64 -> 0 <= b' < 2 ^ 64 -> 0 <= s' < 2 ^ 64 ->
  decode_key_boot_id (Some (encode_key b s nonnull)) nonnull = Some b /\
  (encode_key b s nonnull = encode_key b' s' nonnull -> b = b' /\ s = s') /\
  bytes_cmp (encode_key b s nonnull) (encode_key b' s' nonnull) =
    match b ?= b' with Eq => s ?= s' | c => c end.
Proof.
  intros. split_and!; [by apply decode_encode_key|by apply encode_key_inj|by apply encode_key_cmp].
Qed.

End DdlLog.
