(* ===== verification/CfName.v ===== *)
(** * Column-family names ([src/core/cf_name], [tidesql_is_reserved_cf])

    A server table path becomes the name of the column family that stores the table.  Strings are
    byte lists; [std::string::rfind] is [rfind].  The theorems: paths split into their last two
    components whatever prefix they carry, a user table never takes the name of an engine-owned
    family, and names are injective on databases without an underscore -- a restriction that is
    needed, as [cf_name_collision] shows. *)
From S2P Require Import Prelude.
#[local] Open Scope Z_scope.
#[local] Open Scope tdb_scope.

Module CfName.

Definition REL_PATH_PREFIX : bytes := bs "./".
Definition REL_PATH_PREFIX_LEN : nat := 2.
Definition DB_TABLE_SEP : bytes := bs "__".
Definition TEMP_NAME_MARKER : Z := 35.
Definition TEMP_NAME_REPLACEMENT : Z := 95.
Definition SLASH : Z := 47.

Record table_path := { db : bytes; table : bytes; has_dir : bool }.

(** [p.rfind(c)]: the last index of [c], [None] for [npos]. *)
Fixpoint rfind (c : Z) (p : bytes) : option nat :=
  match p with
  | [] => None
  | x :: p' =>
      match rfind c p' with
      | Some i => Some (S i)
      | None => if x =? c then Some 0%nat else None
      end
  end.

(** [p.rfind(c, pos)]: the last index of [c] not after [pos]. *)
Definition rfind_upto (c : Z) (p : bytes) (pos : nat) : option nat := rfind c (take (S pos) p).

Definition strip_prefix (p : bytes) : bytes :=
  if (Z.of_nat REL_PATH_PREFIX_LEN <=? zlen p)
     && bool_decide (take REL_PATH_PREFIX_LEN p = REL_PATH_PREFIX)
  then drop REL_PATH_PREFIX_LEN p else p.

Definition split_table_path (path : bytes) : table_path :=
  let p := strip_prefix path in
  match rfind SLASH p with
  | None => {| db := []; table := p; has_dir := false |}
  | Some last_slash =>
      let tbl := drop (last_slash + 1) p in
      let prev_slash := if (0 <? last_slash)%nat then rfind_upto SLASH p (last_slash - 1) else None in
      let d :=
        match prev_slash with
        | None => take last_slash p
        | Some prev => take (last_slash - prev - 1) (drop (prev + 1) p)
        end in
      {| db := d; table := tbl; has_dir := true |}
  end.

Definition replace_marker (c : Z) : Z := if c =? TEMP_NAME_MARKER then TEMP_NAME_REPLACEMENT else c.

Definition to_cf_name (path : bytes) : bytes :=
  let tp := split_table_path path in
  if negb (has_dir tp) then table tp
  else map replace_marker (db tp ++ DB_TABLE_SEP ++ table tp).

Definition TIDESQL_RESERVED_CF_PREFIX : bytes := bs "__".

(** [strncmp(name, prefix, 2) == 0] on a possibly null name. *)
Definition tidesql_is_reserved_cf (name : option bytes) : bool :=
  match name with
  | None => false
  | Some n => bool_decide (take 2 n = TIDESQL_RESERVED_CF_PREFIX)
  end.

(** The families the engine keeps for itself: [TDB_DDL_CF_NAME], [TDB_CRYPTO_CF_NAME],
    [TDB_XA_TC_CF_NAME]. *)
Definition TDB_DDL_CF_NAME : bytes := bs "__tidesql_ddl".
Definition TDB_CRYPTO_CF_NAME : bytes := bs "__tidesql_crypto".
Definition TDB_XA_TC_CF_NAME : bytes := bs "__tidesql_xa_tc".
Definition reserved_cf_names : list bytes := [TDB_DDL_CF_NAME; TDB_CRYPTO_CF_NAME; TDB_XA_TC_CF_NAME].

(** The path the server hands a handler for table [t] of database [d]. *)
Definition user_path (d t : bytes) : bytes := REL_PATH_PREFIX ++ d ++ SLASH :: t.

(** Whether a name contains the separator. *)
Fixpoint has_sep (n : bytes) : bool :=
  match n with
  | x :: ((y :: _) as n') => ((x =? 95) && (y =? 95)) || has_sep n'
  | _ => false
  end.

(** ** Lemmas *)

Lemma has_sep_app l k : has_sep (l ++ DB_TABLE_SEP ++ k) = true.
Proof.
  induction l as [|x l IH]; [done|]. rewrite <- app_comm_cons.
  destruct (l ++ DB_TABLE_SEP ++ k) as [|z n] eqn:E; [by destruct l|].
  change (has_sep (x :: z :: n)) with (((x =? 95) && (z =? 95)) || has_sep (z :: n)). rewrite IH. apply orb_true_r.
Qed.


Lemma rfind_none c p : rfind c p = None <-> c ∉ p.
Proof.
  induction p as [|x p IH]; simpl; [set_solver|]. rewrite elem_of_cons.
  destruct (rfind c p) as [i|].
  - split; [done|]. intros Hn. destruct (decide (c ∈ p)) as [|Hc]; [tauto|]. by apply IH in Hc.
  - destruct (Z.eqb_spec x c); split; intuition congruence.
Qed.

Lemma rfind_last c p q : c ∉ q -> rfind c (p ++ c :: q) = Some (length p).
Proof.
  intros Hq. induction p as [|x p IH]; simpl.
  - rewrite (proj2 (rfind_none c q) Hq). by rewrite Z.eqb_refl.
  - by rewrite IH.
Qed.

Lemma take_middle_length {A} (p q : list A) (c : A) : take (S (length p)) (p ++ c :: q) = p ++ [c].
Proof. rewrite cons_middle, app_assoc, take_app_exact; [done|]. rewrite length_app. simpl. lia. Qed.

(** The components of a path that has a directory part. *)
Lemma split_stripped pre d t :
  SLASH ∉ d -> SLASH ∉ t ->
  forall p, p = pre ++ SLASH :: d ++ SLASH :: t ->
  rfind SLASH p = Some (length (pre ++ SLASH :: d)) /\
  rfind_upto SLASH p (length (pre ++ SLASH :: d) - 1) = Some (length pre) /\
  drop (length (pre ++ SLASH :: d) + 1) p = t /\
  take (length (pre ++ SLASH :: d) - length pre - 1) (drop (length pre + 1) p) = d.
Proof.
  intros Hd Ht p ->.
  assert (pre ++ SLASH :: d ++ SLASH :: t = (pre ++ SLASH :: d) ++ SLASH :: t) as E
    by (by rewrite <- app_assoc).
  split_and!.
  - rewrite E. by apply rfind_last.
  - unfold rfind_upto. rewrite E, take_app_exact; [by apply rfind_last|].
    rewrite length_app. simpl. lia.
  - rewrite E, (cons_middle SLASH (pre ++ _) t), app_assoc. apply drop_app_exact. rewrite !length_app. simpl. lia.
  - rewrite (cons_middle SLASH pre (d ++ SLASH :: t)), (app_assoc pre [SLASH]), drop_app_exact
      by (rewrite !length_app; simpl; lia).
    apply take_app_exact. rewrite !length_app. simpl. lia.
Qed.

Lemma strip_prefix_deep pre d t :
  exists pre', strip_prefix (pre ++ SLASH :: d ++ SLASH :: t) = pre' ++ SLASH :: d ++ SLASH :: t
    \/ strip_prefix (pre ++ SLASH :: d ++ SLASH :: t) = d ++ SLASH :: t.
Proof.
  unfold strip_prefix. destruct (_ && _) eqn:E; [|by exists pre; left].
  apply andb_true_iff in E as [_ E]. apply bool_decide_eq_true in E.
  destruct pre as [|a [|b pre]].
  - simpl in E. done.
  - exists []. right. done.
  - exists pre. left. done.
Qed.

Lemma split_shallow d t :
  SLASH ∉ d -> SLASH ∉ t ->
  rfind SLASH (d ++ SLASH :: t) = Some (length d) /\
  (if (0 <? length d)%nat then rfind_upto SLASH (d ++ SLASH :: t) (length d - 1) else None) = None /\
  drop (length d + 1) (d ++ SLASH :: t) = t /\ take (length d) (d ++ SLASH :: t) = d.
Proof.
  intros Hd Ht. split_and!.
  - by apply rfind_last.
  - destruct (Nat.ltb_spec 0 (length d)); [|done]. unfold rfind_upto.
    rewrite take_app_exact by lia. by apply rfind_none.
  - rewrite (cons_middle SLASH d t), app_assoc. apply drop_app_exact. rewrite length_app. simpl. lia.
  - by apply take_app_exact.
Qed.

Lemma split_of_stripped path d t :
  SLASH ∉ d -> SLASH ∉ t ->
  (strip_prefix path = d ++ SLASH :: t \/
   exists pre, strip_prefix path = pre ++ SLASH :: d ++ SLASH :: t) ->
  split_table_path path = {| db := d; table := t; has_dir := true |}.
Proof.
  intros Hd Ht Hs. unfold split_table_path. destruct Hs as [E|[pre E]].
  - rewrite E. destruct (split_shallow d t Hd Ht) as (-> & H2 & H3 & H4). by rewrite H2, H3, H4.
  - rewrite E. destruct (split_stripped pre d t Hd Ht _ eq_refl) as (-> & H2 & H3 & H4).
    destruct (Nat.ltb_spec 0 (length (pre ++ SLASH :: d))) as [_|Hl].
    + by rewrite H2, H3, H4.
    + rewrite length_app in Hl. simpl in Hl. lia.
Qed.

(** A path with a directory prefix, relative or absolute. *)
Lemma split_deep pre d t :
  SLASH ∉ d -> SLASH ∉ t ->
  split_table_path (pre ++ SLASH :: d ++ SLASH :: t) = {| db := d; table := t; has_dir := true |}.
Proof.
  intros Hd Ht. apply split_of_stripped; [done..|].
  destruct (strip_prefix_deep pre d t) as [pre' [E|E]]; eauto.
Qed.

(** The [./db/table] the server hands a handler. *)
Lemma split_relative d t :
  SLASH ∉ d -> SLASH ∉ t ->
  split_table_path (REL_PATH_PREFIX ++ d ++ SLASH :: t) = {| db := d; table := t; has_dir := true |}.
Proof. apply (split_deep [46]). Qed.

Lemma to_cf_name_user d t :
  SLASH ∉ d -> SLASH ∉ t ->
  to_cf_name (user_path d t) = map replace_marker d ++ DB_TABLE_SEP ++ map replace_marker t.
Proof. intros Hd Ht. unfold to_cf_name, user_path. rewrite split_relative by done. simpl. by rewrite !map_app. Qed.

Lemma replace_marker_inj d t :
  TEMP_NAME_MARKER ∉ d -> TEMP_NAME_MARKER ∉ t ->
  map replace_marker d = map replace_marker t -> d = t.
Proof.
  assert (forall l, TEMP_NAME_MARKER ∉ l -> map replace_marker l = l) as Hid.
  { induction l as [|x l IH]; [done|]. rewrite not_elem_of_cons. intros [Hx Hl]. simpl.
    rewrite IH by done. f_equal. unfold replace_marker. case_test; congruence. }
  intros Hd Ht. by rewrite !Hid.
Qed.

Lemma app_first_inj (c : Z) (d d' r r' : bytes) :
  c ∉ d -> c ∉ d' -> d ++ c :: r = d' ++ c :: r' -> d = d' /\ r = r'.
Proof.
  revert d'. induction d as [|x d IH]; intros [|y d'] Hd Hd' E; simplify_eq/=.
  - done.
  - rewrite not_elem_of_cons in Hd'. tauto.
  - rewrite not_elem_of_cons in Hd. tauto.
  - rewrite not_elem_of_cons in *. destruct (IH d') as [-> ->]; tauto.
Qed.

(** ** Properties *)

(** Whatever directory prefix a path carries (a relative [./], a datadir, or several levels),
    it splits into its last two components, and the family name joins them with the separator and
    the temporary-table marker substituted. *)
Lemma table_path_split pre d t :
  SLASH ∉ d -> SLASH ∉ t ->
  split_table_path (pre ++ SLASH :: d ++ SLASH :: t) = {| db := d; table := t; has_dir := true |} /\
  to_cf_name (pre ++ SLASH :: d ++ SLASH :: t) =
    map replace_marker d ++ DB_TABLE_SEP ++ map replace_marker t.
Proof.
  intros Hd Ht. split; [by apply split_deep|]. unfold to_cf_name. rewrite split_deep by done.
  simpl. by rewrite !map_app.
Qed.

(** A user table, whose database component is never empty, never takes the name of one of the
    engine's own column families. *)
Lemma user_table_not_reserved d t :
  d <> [] -> SLASH ∉ d -> SLASH ∉ t -> to_cf_name (user_path d t) ∉ reserved_cf_names.
Proof.
  intros Hne Hd Ht. rewrite to_cf_name_user by done. destruct d as [|x d]; [done|].
  intros Hin. assert (Forall (fun n => has_sep (drop 1 n) = false) reserved_cf_names) as Hno
    by (apply (bool_decide_unpack _); vm_compute; exact I).
  rewrite Forall_forall in Hno. apply Hno in Hin.
  change (has_sep (map replace_marker d ++ DB_TABLE_SEP ++ map replace_marker t) = false) in Hin.
  by rewrite has_sep_app in Hin.
Qed.

(** Two tables whose database names hold no underscore (and no temporary marker) never share a
    column family. *)
Lemma cf_name_injective d t d' t' :
  SLASH ∉ d -> SLASH ∉ t -> SLASH ∉ d' -> SLASH ∉ t' ->
  TEMP_NAME_REPLACEMENT ∉ d -> TEMP_NAME_REPLACEMENT ∉ d' ->
  TEMP_NAME_MARKER ∉ d ++ t -> TEMP_NAME_MARKER ∉ d' ++ t' ->
  to_cf_name (user_path d t) = to_cf_name (user_path d' t') -> d = d' /\ t = t'.
Proof.
  intros Hd Ht Hd' Ht' Hu Hu' Hm Hm' E. rewrite !to_cf_name_user in E by done.
  rewrite not_elem_of_app in Hm, Hm'. destruct Hm as [Hm1 Hm2], Hm' as [Hm1' Hm2'].
  assert (forall l k, TEMP_NAME_MARKER ∉ l -> TEMP_NAME_MARKER ∉ k ->
    map replace_marker l ++ DB_TABLE_SEP ++ map replace_marker k =
    map replace_marker (l ++ DB_TABLE_SEP ++ k)) as Hj by (intros; by rewrite !map_app).
  rewrite !Hj in E by done. apply replace_marker_inj in E.
  2,3: rewrite !not_elem_of_app; repeat split; try done; apply (bool_decide_unpack _); vm_compute; exact I.
  unfold DB_TABLE_SEP in E. simpl in E. change (Z.of_N _) with TEMP_NAME_REPLACEMENT in E.
  apply app_first_inj in E as [-> E]; [|done..]. by injection E as ->.
Qed.

(** Without that restriction the naming is not injective: tables [a__b.c] and [a.b__c] are
    given the same column family, and a user database whose name starts with the reserved prefix is
    classified as engine-internal. *)
Lemma cf_name_collision :
  to_cf_name (user_path (bs "a__b") (bs "c")) = to_cf_name (user_path (bs "a") (bs "b__c")) /\
  bs "a__b" <> bs "a" /\
  tidesql_is_reserved_cf (Some (to_cf_name (user_path (bs "__x") (bs "t")))) = true.
Proof. split_and!; vm_compute; done. Qed.

End CfName.
