(* ===== verification/TableOptions.v ===== *)
(** * Per-table storage options ([src/core/table_options])

    The reader and the writer of the JSON object a table's options travel in.  The cursor pair
    [p], [end] of the source is the list of the characters still unread.  [parse_attributes] updates
    its struct in place and reports a message on failure, so the model returns the boolean, the
    struct and the message; its [for (;;)] loop is a fuelled fixpoint, and [parse_loop_fuel] shows
    that the fuel the model gives it is always enough. *)
From S2P Require Import Prelude.
#[local] Open Scope Z_scope.
#[local] Open Scope tdb_scope.

Module TableOptions.

Record ha_table_option_struct := {
  btree_klog_block_size : Z;
  level_size_ratio : Z;
  min_levels : Z;
  dividing_level_offset : Z;
  bloom_fpr : Z;
  l1_file_count_trigger : Z;
  compression : Z;
  isolation_level : Z;
  bloom_filter : bool;
  keep_values_inline : bool;
  ttl : Z;
  encrypted : bool;
  encryption_key_id : Z;
  tombstone_density_trigger : Z;
  tombstone_density_min_entries : Z }.

(** The members an option may name: what [offsetof] selects in the source. *)
Inductive bool_field := F_keep_values_inline | F_bloom_filter | F_encrypted.
Inductive num_field :=
  | F_btree_klog_block_size | F_level_size_ratio | F_min_levels | F_dividing_level_offset
  | F_bloom_fpr | F_l1_file_count_trigger | F_tombstone_density_trigger
  | F_tombstone_density_min_entries | F_ttl | F_encryption_key_id.

(** A row of the option table: the kind, the member it writes and the accepted range. *)
Inductive kind :=
  | boolean (f : bool_field)
  | number (f : num_field) (low high : Z)
  | compression_kind
  | isolation_kind.

Record spec := { name : bytes; what : kind }.

Definition ULL_MAX : Z := UINT64_MAX.

Definition specs : list spec := [
  {| name := bs "keep_values_inline"; what := boolean F_keep_values_inline |};
  {| name := bs "bloom_filter"; what := boolean F_bloom_filter |};
  {| name := bs "encrypted"; what := boolean F_encrypted |};
  {| name := bs "btree_klog_block_size"; what := number F_btree_klog_block_size 512 ULL_MAX |};
  {| name := bs "level_size_ratio"; what := number F_level_size_ratio 2 100 |};
  {| name := bs "min_levels"; what := number F_min_levels 1 64 |};
  {| name := bs "dividing_level_offset"; what := number F_dividing_level_offset 0 64 |};
  {| name := bs "bloom_fpr"; what := number F_bloom_fpr 1 10000 |};
  {| name := bs "l1_file_count_trigger"; what := number F_l1_file_count_trigger 1 1024 |};
  {| name := bs "tombstone_density_trigger"; what := number F_tombstone_density_trigger 0 10000 |};
  {| name := bs "tombstone_density_min_entries";
     what := number F_tombstone_density_min_entries 0 ULL_MAX |};
  {| name := bs "ttl"; what := number F_ttl 0 ULL_MAX |};
  {| name := bs "encryption_key_id"; what := number F_encryption_key_id 1 255 |};
  {| name := bs "compression"; what := compression_kind |};
  {| name := bs "isolation_level"; what := isolation_kind |} ].

(** [*(T * )(base + offset) = v]. *)
Definition set_bool (f : bool_field) (b : bool) (o : ha_table_option_struct) : ha_table_option_struct :=
  let (a1, a2, a3, a4, a5, a6, a7, a8, bf, kv, a11, en, a13, a14, a15) := o in
  match f with
  | F_keep_values_inline => Build_ha_table_option_struct a1 a2 a3 a4 a5 a6 a7 a8 bf b a11 en a13 a14 a15
  | F_bloom_filter => Build_ha_table_option_struct a1 a2 a3 a4 a5 a6 a7 a8 b kv a11 en a13 a14 a15
  | F_encrypted => Build_ha_table_option_struct a1 a2 a3 a4 a5 a6 a7 a8 bf kv a11 b a13 a14 a15
  end.

Definition set_num (f : num_field) (n : Z) (o : ha_table_option_struct) : ha_table_option_struct :=
  let (a1, a2, a3, a4, a5, a6, a7, a8, a9, a10, a11, a12, a13, a14, a15) := o in
  match f with
  | F_btree_klog_block_size => Build_ha_table_option_struct n a2 a3 a4 a5 a6 a7 a8 a9 a10 a11 a12 a13 a14 a15
  | F_level_size_ratio => Build_ha_table_option_struct a1 n a3 a4 a5 a6 a7 a8 a9 a10 a11 a12 a13 a14 a15
  | F_min_levels => Build_ha_table_option_struct a1 a2 n a4 a5 a6 a7 a8 a9 a10 a11 a12 a13 a14 a15
  | F_dividing_level_offset => Build_ha_table_option_struct a1 a2 a3 n a5 a6 a7 a8 a9 a10 a11 a12 a13 a14 a15
  | F_bloom_fpr => Build_ha_table_option_struct a1 a2 a3 a4 n a6 a7 a8 a9 a10 a11 a12 a13 a14 a15
  | F_l1_file_count_trigger => Build_ha_table_option_struct a1 a2 a3 a4 a5 n a7 a8 a9 a10 a11 a12 a13 a14 a15
  | F_ttl => Build_ha_table_option_struct a1 a2 a3 a4 a5 a6 a7 a8 a9 a10 n a12 a13 a14 a15
  | F_encryption_key_id => Build_ha_table_option_struct a1 a2 a3 a4 a5 a6 a7 a8 a9 a10 a11 a12 n a14 a15
  | F_tombstone_density_trigger => Build_ha_table_option_struct a1 a2 a3 a4 a5 a6 a7 a8 a9 a10 a11 a12 a13 n a15
  | F_tombstone_density_min_entries => Build_ha_table_option_struct a1 a2 a3 a4 a5 a6 a7 a8 a9 a10 a11 a12 a13 a14 n
  end.

Definition set_compression (e : Z) (o : ha_table_option_struct) : ha_table_option_struct :=
  let (a1, a2, a3, a4, a5, a6, _, a8, a9, a10, a11, a12, a13, a14, a15) := o in
  Build_ha_table_option_struct a1 a2 a3 a4 a5 a6 e a8 a9 a10 a11 a12 a13 a14 a15.

Definition set_isolation (e : Z) (o : ha_table_option_struct) : ha_table_option_struct :=
  let (a1, a2, a3, a4, a5, a6, a7, _, a9, a10, a11, a12, a13, a14, a15) := o in
  Build_ha_table_option_struct a1 a2 a3 a4 a5 a6 a7 e a9 a10 a11 a12 a13 a14 a15.

(** [std::tolower] in the C locale. *)
Definition tolower (c : Z) : Z := if (65 <=? c) && (c <=? 90) then c + 32 else c.

Fixpoint eq_nocase (a b : bytes) : bool :=
  match a, b with
  | [], [] => true
  | x :: a', y :: b' => if tolower x =? tolower y then eq_nocase a' b' else false
  | _, _ => false
  end.

Definition is_space (c : Z) : bool := (c =? 32) || (c =? 9) || (c =? 10) || (c =? 13).

Fixpoint skip_space (p : bytes) : bytes :=
  match p with
  | c :: p' => if is_space c then skip_space p' else p
  | [] => []
  end.

Definition QUOTE : Z := 34.
Definition BACKSLASH : Z := 92.

(** The character an escape stands for; [None] is the [default: return false] branch. *)
Definition unescape (esc : Z) : option Z :=
  if (esc =? QUOTE) || (esc =? BACKSLASH) || (esc =? 47) then Some esc
  else if esc =? 98 then Some 8
  else if esc =? 102 then Some 12
  else if esc =? 110 then Some 10
  else if esc =? 114 then Some 13
  else if esc =? 116 then Some 9
  else None.

Fixpoint read_string_loop (p out : bytes) : option (bytes * bytes) :=
  match p with
  | [] => None
  | c :: p' =>
      if c =? QUOTE then Some (out, p')
      else if negb (c =? BACKSLASH) then read_string_loop p' (out ++ [c])
      else
        match p' with
        | [] => None
        | esc :: p'' =>
            match unescape esc with
            | Some x => read_string_loop p'' (out ++ [x])
            | None => None
            end
        end
  end.

Definition read_string (p : bytes) : option (bytes * bytes) :=
  match p with
  | c :: p' => if c =? QUOTE then read_string_loop p' [] else None
  | [] => None
  end.

Definition value_end (c : Z) : bool := (c =? 44) || (c =? 125) || is_space c.

(** The bare-value scan: [None] when it meets a nested value. *)
Fixpoint read_bare (p out : bytes) : option (bytes * bytes) :=
  match p with
  | [] => Some (out, [])
  | c :: p' =>
      if value_end c then Some (out, p)
      else if (c =? 123) || (c =? 91) then None
      else read_bare p' (out ++ [c])
  end.

Definition read_value (p : bytes) : option (bytes * bytes) :=
  match skip_space p with
  | [] => None
  | (c :: _) as p1 =>
      if c =? QUOTE then read_string p1
      else
        match read_bare p1 [] with
        | None => None
        | Some ([], _) => None
        | Some r => Some r
        end
  end.

Definition to_bool (v : bytes) : option bool :=
  if eq_nocase v (bs "true") || eq_nocase v (bs "yes") || eq_nocase v (bs "on")
     || bool_decide (v = bs "1") then Some true
  else if eq_nocase v (bs "false") || eq_nocase v (bs "no") || eq_nocase v (bs "off")
     || bool_decide (v = bs "0") then Some false
  else None.

Fixpoint to_number_loop (v : bytes) (n : Z) : option Z :=
  match v with
  | [] => Some n
  | c :: v' =>
      if (c <? 48) || (57 <? c) then None
      else
        let digit := c - 48 in
        if (ULL_MAX - digit) / 10 <? n then None
        else to_number_loop v' (n * 10 + digit)
  end.

Definition to_number (v : bytes) : option Z :=
  match v with [] => None | _ => to_number_loop v 0 end.

(** Index of the first name equal up to case. *)
Fixpoint find_name (v : bytes) (names : list bytes) (i : Z) : option Z :=
  match names with
  | [] => None
  | nm :: names' => if eq_nocase v nm then Some i else find_name v names' (i + 1)
  end.

Definition to_enum (v : bytes) (names : option (list bytes)) : option Z :=
  match names with
  | None => None
  | Some l =>
      match find_name v l 0 with
      | Some i => Some i
      | None =>
          match to_number v with
          | None => None
          | Some n => if zlen l <=? n then None else Some n
          end
      end
  end.

Definition quoted (s : bytes) : bytes := bs "'" ++ s ++ bs "'".

Definition find_spec (nm : bytes) : option spec :=
  List.find (fun s => eq_nocase nm (name s)) specs.

(** Store one value under the row found for its name; [inl] is the error message. *)
Definition apply_option (comp iso : option (list bytes)) (nm value : bytes) (s : spec)
    (o : ha_table_option_struct) : bytes + ha_table_option_struct :=
  match what s with
  | boolean f =>
      match to_bool value with
      | None => inl (quoted value ++ bs " is not a yes-or-no value for " ++ quoted nm)
      | Some b => inr (set_bool f b o)
      end
  | number f low high =>
      match to_number value with
      | None => inl (quoted value ++ bs " is not a number for " ++ quoted nm)
      | Some n =>
          if (n <? low) || (high <? n)
          then inl (quoted value ++ bs " is out of range for " ++ quoted nm)
          else inr (set_num f n o)
      end
  | compression_kind =>
      match to_enum value comp with
      | None => inl (quoted value ++ bs " is not a recognised value for " ++ quoted nm)
      | Some e => inr (set_compression e o)
      end
  | isolation_kind =>
      match to_enum value iso with
      | None => inl (quoted value ++ bs " is not a recognised value for " ++ quoted nm)
      | Some e => inr (set_isolation e o)
      end
  end.

(** What one round of the loop reads: an option name, a colon and a value. *)
Definition read_member (p : bytes) : bytes + bytes * bytes * bytes :=
  match read_string (skip_space p) with
  | None => inl (bs "expected an option name")
  | Some (nm, p) =>
      match skip_space p with
      | 58 :: p =>
          match read_value p with
          | None => inl (bs "expected a value for " ++ quoted nm)
          | Some (value, p) => inr (nm, value, p)
          end
      | _ => inl (bs "expected ':' after " ++ quoted nm)
      end
  end.

(** [Ok] is a true result; [Err] a false one with the message; [Refused] the false result of a null
    struct or message pointer. *)
Inductive outcome :=
  | Ok (o : ha_table_option_struct)
  | Err (msg : bytes) (o : ha_table_option_struct)
  | Refused.

(** After a member: a comma continues, a brace must end the text.  [inr p] continues at [p]. *)
Definition after_member (nm p : bytes) : (bytes + unit) + bytes :=
  match skip_space p with
  | 44 :: p => inr p
  | 125 :: p =>
      match skip_space p with
      | [] => inl (inr tt)
      | _ => inl (inl (bs "trailing text after the object"))
      end
  | _ => inl (inl (bs "expected ',' or '}' after " ++ quoted nm))
  end.

Fixpoint parse_loop (fuel : nat) (comp iso : option (list bytes)) (p : bytes)
    (o : ha_table_option_struct) : option outcome :=
  match fuel with
  | O => None
  | S fuel =>
      match read_member p with
      | inl msg => Some (Err msg o)
      | inr (nm, value, p) =>
          match find_spec nm with
          | None => Some (Err (bs "unknown option " ++ quoted nm) o)
          | Some s =>
              match apply_option comp iso nm value s o with
              | inl msg => Some (Err msg o)
              | inr o =>
                  match after_member nm p with
                  | inl (inl msg) => Some (Err msg o)
                  | inl (inr tt) => Some (Ok o)
                  | inr p => parse_loop fuel comp iso p o
                  end
              end
          end
      end
  end.

(** The reader on the text itself.  The struct is updated even on the failing paths, exactly as far
    as the loop got. *)
Definition parse_text (json : option bytes) (comp iso : option (list bytes))
    (inout : ha_table_option_struct) : option outcome :=
  match json with
  | None | Some [] => Some (Ok inout)
  | Some text =>
      match skip_space text with
      | [] => Some (Ok inout)
      | 123 :: p =>
          match skip_space p with
          | 125 :: _ => Some (Ok inout)
          | p => parse_loop (S (length p)) comp iso p inout
          end
      | _ => Some (Err (bs "the attribute must be a JSON object") inout)
      end
  end.

Definition parse_attributes (json : option bytes) (comp iso : option (list bytes))
    (inout : option ha_table_option_struct) (error : ptr) : option outcome :=
  match inout, error with
  | Some o, nonnull => parse_text json comp iso o
  | _, _ => Some Refused
  end.

Definition enum_name (names : option (list bytes)) (value : Z) : option bytes :=
  match names with
  | None => None
  | Some l => if value <? 0 then None else l !! Z.to_nat value
  end.

Definition member_head (nm : bytes) (first : bool) : bytes :=
  (if first then [] else bs ", ") ++ QUOTE :: nm ++ QUOTE :: bs ": ".

Definition append_number (out nm : bytes) (v : Z) (first : bool) : bytes :=
  out ++ member_head nm first ++ to_string v.

Definition append_bool (out nm : bytes) (v first : bool) : bytes :=
  out ++ member_head nm first ++ (if v then bs "true" else bs "false").

Definition append_enum (out nm : bytes) (v : Z) (names : option (list bytes)) (first : bool) : bytes :=
  out ++ member_head nm first ++
    match enum_name names v with
    | Some text => QUOTE :: text ++ [QUOTE]
    | None => to_string v
    end.

Definition serialize_attributes (opts : ha_table_option_struct) (comp iso : option (list bytes)) : bytes :=
  let out := bs "{" in
  let out := append_bool out (bs "keep_values_inline") (keep_values_inline opts) true in
  let out := append_bool out (bs "bloom_filter") (bloom_filter opts) false in
  let out := append_bool out (bs "encrypted") (encrypted opts) false in
  let out := append_number out (bs "btree_klog_block_size") (btree_klog_block_size opts) false in
  let out := append_number out (bs "level_size_ratio") (level_size_ratio opts) false in
  let out := append_number out (bs "min_levels") (min_levels opts) false in
  let out := append_number out (bs "dividing_level_offset") (dividing_level_offset opts) false in
  let out := append_number out (bs "bloom_fpr") (bloom_fpr opts) false in
  let out := append_number out (bs "l1_file_count_trigger") (l1_file_count_trigger opts) false in
  let out := append_number out (bs "tombstone_density_trigger") (tombstone_density_trigger opts) false in
  let out := append_number out (bs "tombstone_density_min_entries")
               (tombstone_density_min_entries opts) false in
  let out := append_number out (bs "ttl") (ttl opts) false in
  let out := append_number out (bs "encryption_key_id") (encryption_key_id opts) false in
  let out := append_enum out (bs "compression") (compression opts) comp false in
  let out := append_enum out (bs "isolation_level") (isolation_level opts) iso false in
  out ++ bs "}".

(** The per-column reader: its one option, and the flag it leaves behind. *)
Inductive column_outcome :=
  | ColOk (is_ttl_source : bool)
  | ColErr (msg : bytes) (is_ttl_source : bool)
  | ColRefused.

Fixpoint column_loop (fuel : nat) (p : bytes) (is_ttl : bool) : option column_outcome :=
  match fuel with
  | O => None
  | S fuel =>
      match read_member p with
      | inl msg => Some (ColErr msg is_ttl)
      | inr (nm, value, p) =>
          if negb (eq_nocase nm (bs "ttl"))
          then Some (ColErr (bs "unknown column option " ++ quoted nm) is_ttl)
          else
            match to_bool value with
            | None =>
                Some (ColErr (quoted value ++ bs " is not a yes-or-no value for " ++ quoted nm) is_ttl)
            | Some is_ttl =>
                match after_member nm p with
                | inl (inl msg) => Some (ColErr msg is_ttl)
                | inl (inr tt) => Some (ColOk is_ttl)
                | inr p => column_loop fuel p is_ttl
                end
            end
      end
  end.

Definition parse_column_attributes (json : option bytes) (is_ttl_source error : ptr)
    : option column_outcome :=
  match is_ttl_source, error with
  | nonnull, nonnull =>
      match json with
      | None | Some [] => Some (ColOk false)
      | Some text =>
          match skip_space text with
          | [] => Some (ColOk false)
          | 123 :: p =>
              match skip_space p with
              | 125 :: _ => Some (ColOk false)
              | p => column_loop (S (length p)) p false
              end
          | _ => Some (ColErr (bs "the attribute must be a JSON object") false)
          end
      end
  | _, _ => Some ColRefused
  end.

(** The names the engine publishes ([ha_tidesdb.cc]). *)
Definition compression_names : list bytes :=
  [bs "NONE"; bs "SNAPPY"; bs "LZ4"; bs "ZSTD"; bs "LZ4_FAST"].
Definition isolation_level_names : list bytes :=
  [bs "READ_UNCOMMITTED"; bs "READ_COMMITTED"; bs "REPEATABLE_READ"; bs "SNAPSHOT"; bs "SERIALIZABLE"].

(** ** What the theorems speak of *)

(** Every number lies in the range its row accepts, and the enumerations are named. *)
Definition in_range (comp iso : list bytes) (o : ha_table_option_struct) : Prop :=
  512 <= btree_klog_block_size o <= ULL_MAX /\ 2 <= level_size_ratio o <= 100 /\
  1 <= min_levels o <= 64 /\ 0 <= dividing_level_offset o <= 64 /\
  1 <= bloom_fpr o <= 10000 /\ 1 <= l1_file_count_trigger o <= 1024 /\
  0 <= tombstone_density_trigger o <= 10000 /\
  0 <= tombstone_density_min_entries o <= ULL_MAX /\ 0 <= ttl o <= ULL_MAX /\
  1 <= encryption_key_id o <= 255 /\
  0 <= compression o < zlen comp /\ 0 <= isolation_level o < zlen iso.

(** A name list the writer can quote and the reader can tell apart: no quote or backslash, and no
    two names equal up to case. *)
Definition name_ok (n : bytes) : Prop := (QUOTE ∉ n) /\ (BACKSLASH ∉ n).
Definition names_ok (l : list bytes) : Prop :=
  Forall name_ok l /\
  forall i j n m, l !! i = Some n -> l !! j = Some m -> eq_nocase n m = true -> i = j.

(** A character a bare value may hold. *)
Definition plain (c : Z) : bool := negb (value_end c || (c =? 123) || (c =? 91) || (c =? QUOTE)).

(** [vt] is the text of a value that reads back as [v], whatever delimiter follows. *)
Definition value_reads (vt v : bytes) : Prop :=
  forall c rest, value_end c = true -> read_value (32 :: vt ++ c :: rest) = Some (v, c :: rest).

(** One member as the writer prints it, and a list of them separated by commas. *)
Definition item (nm vt : bytes) : bytes := QUOTE :: nm ++ QUOTE :: 58 :: 32 :: vt.
Fixpoint join (l : list (bytes * bytes)) : bytes :=
  match l with
  | [] => []
  | [(nm, vt)] => item nm vt
  | (nm, vt) :: l => item nm vt ++ 44 :: 32 :: join l
  end.

(** The members [serialize_attributes] writes, in its order, with the text of their values. *)
Definition bool_text (b : bool) : bytes := if b then bs "true" else bs "false".
Definition enum_text (names : option (list bytes)) (v : Z) : bytes :=
  match enum_name names v with
  | Some text => QUOTE :: text ++ [QUOTE]
  | None => to_string v
  end.
Definition members (o : ha_table_option_struct) (comp iso : option (list bytes)) : list (bytes * bytes) := [
  (bs "keep_values_inline", bool_text (keep_values_inline o));
  (bs "bloom_filter", bool_text (bloom_filter o));
  (bs "encrypted", bool_text (encrypted o));
  (bs "btree_klog_block_size", to_string (btree_klog_block_size o));
  (bs "level_size_ratio", to_string (level_size_ratio o));
  (bs "min_levels", to_string (min_levels o));
  (bs "dividing_level_offset", to_string (dividing_level_offset o));
  (bs "bloom_fpr", to_string (bloom_fpr o));
  (bs "l1_file_count_trigger", to_string (l1_file_count_trigger o));
  (bs "tombstone_density_trigger", to_string (tombstone_density_trigger o));
  (bs "tombstone_density_min_entries", to_string (tombstone_density_min_entries o));
  (bs "ttl", to_string (ttl o));
  (bs "encryption_key_id", to_string (encryption_key_id o));
  (bs "compression", enum_text comp (compression o));
  (bs "isolation_level", enum_text iso (isolation_level o)) ].

(** The member [m] reads back and takes the struct [o] to [o']. *)
Definition entry_ok (comp iso : option (list bytes)) (m : bytes * bytes)
    (o o' : ha_table_option_struct) : Prop :=
  name_ok m.1 /\ exists v s, value_reads m.2 v /\ find_spec m.1 = Some s /\
    apply_option comp iso m.1 v s o = inr o'.

Inductive entries_ok (comp iso : option (list bytes)) :
    list (bytes * bytes) -> ha_table_option_struct -> ha_table_option_struct -> Prop :=
  | entries_one m o o' : entry_ok comp iso m o o' -> entries_ok comp iso [m] o o'
  | entries_cons m m' l o o1 o' :
      entry_ok comp iso m o o1 -> entries_ok comp iso (m' :: l) o1 o' ->
      entries_ok comp iso (m :: m' :: l) o o'.

(** ** Lemmas *)

Lemma skip_space_length p : (length (skip_space p) <= length p)%nat.
Proof. induction p as [|c p IH]; simpl; [lia|]. destruct (is_space c); simpl; lia. Qed.

Lemma read_string_loop_length n p out s p' :
  (length p <= n)%nat -> read_string_loop p out = Some (s, p') -> (length p' < length p)%nat.
Proof.
  revert p out. induction n as [|n IH]; intros [|c p] out Hn; simpl in *; try done; try lia.
  destruct (c =? QUOTE); [intros [= <- <-]; lia|]. destruct (negb _).
  - intros E. apply IH in E; lia.
  - destruct p as [|e p]; [done|]. destruct (unescape e); [|done].
    simpl in *. intros E. apply IH in E; lia.
Qed.

Lemma read_string_length p s p' : read_string p = Some (s, p') -> (length p' < length p)%nat.
Proof.
  destruct p as [|c p]; simpl; [done|]. destruct (c =? QUOTE); [|done].
  intros E. apply (read_string_loop_length (length p)) in E; lia.
Qed.

Lemma read_bare_length p out s p' : read_bare p out = Some (s, p') -> (length p' <= length p)%nat.
Proof.
  revert out. induction p as [|c p IH]; intros out; simpl; [by intros [= <- <-]|].
  destruct (value_end c); [intros [= <- <-]; simpl; lia|].
  destruct (_ || _); [done|]. intros E. apply IH in E. lia.
Qed.

Lemma read_value_length p s p' : read_value p = Some (s, p') -> (length p' <= length p)%nat.
Proof.
  unfold read_value. generalize (skip_space_length p). destruct (skip_space p) as [|c q]; [done|]. intros Hs.
  destruct (c =? QUOTE).
  - intros E. apply read_string_length in E. simpl in *. lia.
  - destruct (read_bare (c :: q) []) as [[[|x v] r]|] eqn:E; try done.
    intros [= <- <-]. apply read_bare_length in E. simpl in *. lia.
Qed.

Lemma read_member_length p nm v p' :
  read_member p = inr (nm, v, p') -> (length p' < length p)%nat.
Proof.
  unfold read_member. pose proof (skip_space_length p).
  destruct (read_string (skip_space p)) as [[n q]|] eqn:E; [|done]. apply read_string_length in E.
  generalize (skip_space_length q). destruct (skip_space q) as [|c r]; [done|]. intros Hs.
  destruct (decide (c = 58)) as [->|Hc].
  - destruct (read_value r) as [[val r']|] eqn:Er; [|done]. apply read_value_length in Er.
    intros [= <- <- <-]. simpl in *. lia.
  - intros Hm. exfalso. by repeat (case_match; try done).
Qed.

Lemma after_member_length nm p p' : after_member nm p = inr p' -> (length p' < length p)%nat.
Proof.
  unfold after_member. generalize (skip_space_length p). destruct (skip_space p) as [|c r]; [done|].
  simpl. intros Hs E. repeat (case_match; try done); simplify_eq; lia.
Qed.

(** One unread character per round is the measure that bounds both loops. *)
Lemma parse_loop_fuel fuel comp iso p o :
  (length p < fuel)%nat -> exists r, parse_loop fuel comp iso p o = Some r.
Proof.
  revert p o. induction fuel as [|fuel IH]; intros p o Hf; [lia|]. simpl.
  destruct (read_member p) as [msg|[[nm v] q]] eqn:Em; [eauto|]. apply read_member_length in Em.
  destruct (find_spec nm); [|eauto]. destruct (apply_option _ _ _ _ _ _) as [msg|o']; [eauto|].
  destruct (after_member nm q) as [[msg|[]]|q'] eqn:Ea; [eauto..|].
  apply after_member_length in Ea. apply IH. lia.
Qed.

Lemma column_loop_fuel fuel p b :
  (length p < fuel)%nat -> exists r, column_loop fuel p b = Some r.
Proof.
  revert p b. induction fuel as [|fuel IH]; intros p b Hf; [lia|]. simpl.
  destruct (read_member p) as [msg|[[nm v] q]] eqn:Em; [eauto|]. apply read_member_length in Em.
  destruct (negb _); [eauto|]. destruct (to_bool v); [|eauto].
  destruct (after_member nm q) as [[msg|[]]|q'] eqn:Ea; [eauto..|].
  apply after_member_length in Ea. apply IH. lia.
Qed.

(** *** Decimal numbers *)

Lemma to_number_loop_to_string f n rest :
  0 <= n <= ULL_MAX -> n < 10 ^ Z.of_nat f ->
  to_number_loop (to_string_fuel f n ++ rest) 0 = to_number_loop rest n.
Proof.
  revert n rest. induction f as [|f IH]; intros n rest Hn Hf.
  { change (10 ^ Z.of_nat 0) with 1 in Hf. replace n with 0 by lia. done. }
  simpl. destruct (Z.ltb_spec n 10) as [Hs|Hs].
  - simpl. destruct (Z.ltb_spec (48 + n) 48); [lia|]. destruct (Z.ltb_spec 57 (48 + n)); [lia|].
    simpl. replace (48 + n - 48) with n by lia.
    assert (0 <= (ULL_MAX - n) / 10) by (apply Z.div_pos; lia). case_test; [lia|]. done.
  - pose proof (Z.div_mod n 10 ltac:(lia)). pose proof (Z.mod_pos_bound n 10 ltac:(lia)).
    rewrite <- app_assoc, IH by
      (rewrite Nat2Z.inj_succ, Z.pow_succ_r in Hf by lia; split || idtac;
       try (split; [apply Z.div_pos; lia|]); try apply Z.div_lt_upper_bound; lia).
    simpl. set (d := n `mod` 10) in *.
    destruct (Z.ltb_spec (48 + d) 48); [lia|]. destruct (Z.ltb_spec 57 (48 + d)); [lia|].
    simpl. replace (48 + d - 48) with d by lia.
    assert (n / 10 <= (ULL_MAX - d) / 10) by (apply Z.div_le_lower_bound; lia).
    case_test; [lia|]. f_equal. lia.
Qed.

Lemma to_string_cons n : exists c l, to_string n = c :: l.
Proof.
  unfold to_string. generalize 19%nat. intros f. revert n. induction f as [|f IH]; intros n.
  { simpl. destruct (n <? 10); simpl; eauto. }
  remember (S f) as g. simpl. destruct (n <? 10); [eauto|]. subst g.
  destruct (IH (n / 10)) as (c & l & ->). simpl. eauto.
Qed.

Lemma to_number_to_string n : 0 <= n <= ULL_MAX -> to_number (to_string n) = Some n.
Proof.
  intros Hn. destruct (to_string_cons n) as (c & l & E). unfold to_number. rewrite E, <- E.
  rewrite <- (app_nil_r (to_string n)). unfold to_string. rewrite to_number_loop_to_string; [done|done|].
  unfold ULL_MAX, UINT64_MAX in Hn. lia.
Qed.

(** *** Reading back what the writer writes *)

Lemma to_string_plain n : 0 <= n -> Forall (fun c => plain c = true) (to_string n).
Proof.
  unfold to_string. generalize 20%nat. intros f. revert n. induction f as [|f IH]; intros n Hn; simpl.
  { constructor. }
  assert (forall d, 0 <= d < 10 -> plain (48 + d) = true) as Hd.
  { intros d Hd. unfold plain, value_end, is_space, QUOTE.
    repeat (case_test; [lia|]). done. }
  destruct (Z.ltb_spec n 10).
  - constructor; [apply Hd; lia|constructor].
  - apply Forall_app. split; [apply IH; apply Z.div_pos; lia|].
    constructor; [apply Hd, Z.mod_pos_bound; lia|constructor].
Qed.

Lemma read_bare_plain v rest c out :
  Forall (fun c => plain c = true) v -> value_end c = true ->
  read_bare (v ++ c :: rest) out = Some (out ++ v, c :: rest).
Proof.
  intros Hv Hc. revert out. induction Hv as [|x v Hx _ IH]; intros out; simpl.
  { by rewrite Hc, app_nil_r. }
  unfold plain in Hx. apply negb_true_iff in Hx.
  apply orb_false_iff in Hx as [[[H1 H2]%orb_false_iff H3]%orb_false_iff _].
  rewrite H1, H2, H3. simpl. rewrite IH. by rewrite <- app_assoc.
Qed.

Lemma read_string_loop_ok nm rest out :
  name_ok nm -> read_string_loop (nm ++ QUOTE :: rest) out = Some (out ++ nm, rest).
Proof.
  intros [Hq Hb]. revert out. induction nm as [|c nm IH]; intros out; simpl.
  { by rewrite app_nil_r. }
  rewrite not_elem_of_cons in Hq, Hb. destruct Hq as [Hq Hq'], Hb as [Hb Hb'].
  destruct (Z.eqb_spec c QUOTE); [congruence|]. destruct (Z.eqb_spec c BACKSLASH); [congruence|].
  simpl. rewrite IH by done. by rewrite <- app_assoc.
Qed.

Lemma value_reads_bare v :
  v <> [] -> Forall (fun c => plain c = true) v -> value_reads v v.
Proof.
  intros Hne Hv c rest Hc. unfold read_value. destruct v as [|x v]; [done|].
  assert (is_space x = false /\ (x =? QUOTE) = false) as [Hx Hq].
  { apply Forall_cons in Hv as [Hx _]. unfold plain, value_end in Hx. apply negb_true_iff in Hx.
    rewrite !orb_false_iff in Hx. tauto. }
  assert (skip_space (32 :: (x :: v) ++ c :: rest) = (x :: v) ++ c :: rest) as E
    by (simpl; by rewrite Hx).
  rewrite E. rewrite <- app_comm_cons, Hq, app_comm_cons. by rewrite read_bare_plain.
Qed.

Lemma value_reads_quoted v : name_ok v -> value_reads (QUOTE :: v ++ [QUOTE]) v.
Proof.
  intros Hv c rest Hc. unfold read_value, read_string. simpl.
  rewrite <- app_assoc. simpl. by rewrite read_string_loop_ok.
Qed.

Lemma read_member_item nm vt v c rest sp :
  name_ok nm -> value_reads vt v -> value_end c = true -> sp = [] \/ sp = [32] ->
  read_member (sp ++ item nm vt ++ c :: rest) = inr (nm, v, c :: rest).
Proof.
  intros Hn Hv Hc Hsp. unfold read_member.
  assert (skip_space (sp ++ item nm vt ++ c :: rest) = item nm vt ++ c :: rest) as ->
    by (destruct Hsp as [-> | ->]; done).
  unfold item, read_string. rewrite <- app_comm_cons, <- app_assoc, <- app_comm_cons.
  rewrite Z.eqb_refl, read_string_loop_ok by done.
  change (skip_space ((58 :: ?l) ++ ?r)) with (58 :: l ++ r). cbv iota.
  rewrite <- app_comm_cons. by rewrite (Hv c rest Hc).
Qed.

Lemma parse_loop_join comp iso l o o' fuel sp :
  entries_ok comp iso l o o' -> sp = [] \/ sp = [32] -> (length l <= fuel)%nat ->
  parse_loop fuel comp iso (sp ++ join l ++ bs "}") o = Some (Ok o').
Proof.
  intros He. revert fuel sp. induction He as [[nm vt] o o' E|[nm vt] m l o o1 o' E _ IH];
    intros [|fuel] sp Hsp Hf; try (simpl in Hf; lia);
    destruct E as (Hn & v & s & Hv & Hs & Ha); cbn [fst snd] in *.
  - change (join [(nm, vt)]) with (item nm vt). change (bs "}") with (125 :: (nil : bytes)).
    cbn [parse_loop]. by rewrite (read_member_item nm vt v), Hs, Ha by done.
  - change (join ((nm, vt) :: m :: l)) with (item nm vt ++ 44 :: 32 :: join (m :: l)).
    cbn [parse_loop]. rewrite <- app_assoc.
    change ((44 :: 32 :: join (m :: l)) ++ bs "}") with (44 :: [32] ++ join (m :: l) ++ bs "}").
    rewrite (read_member_item nm vt v), Hs, Ha by done.
    change (after_member nm (44 :: ?p)) with (inr p : (bytes + unit) + bytes). cbv iota.
    apply IH; [by right|]. simpl in Hf |- *. lia.
Qed.

Lemma bool_text_reads b : value_reads (bool_text b) (bool_text b).
Proof. apply value_reads_bare; destruct b; try done; by repeat constructor. Qed.

Lemma to_string_reads n : 0 <= n -> value_reads (to_string n) (to_string n).
Proof.
  intros Hn. apply value_reads_bare; [|by apply to_string_plain].
  by destruct (to_string_cons n) as (c & l & ->).
Qed.

Lemma bool_entry comp iso nm f b o :
  find_spec nm = Some {| name := nm; what := boolean f |} -> name_ok nm ->
  entry_ok comp iso (nm, bool_text b) o (set_bool f b o).
Proof.
  intros Hs Hn. split; [done|]. eexists _, _. split; [apply bool_text_reads|]. split; [exact Hs|].
  by destruct b.
Qed.

Lemma number_entry comp iso nm f low high n o :
  find_spec nm = Some {| name := nm; what := number f low high |} -> name_ok nm ->
  0 <= low -> high <= ULL_MAX -> low <= n <= high ->
  entry_ok comp iso (nm, to_string n) o (set_num f n o).
Proof.
  intros Hs Hn Hl Hh Hr. split; [done|]. eexists _, _.
  split; [apply to_string_reads; cbn [fst snd]; lia|]. split; [exact Hs|].
  unfold apply_option. cbn [fst snd what]. rewrite to_number_to_string by lia.
  destruct (Z.ltb_spec n low), (Z.ltb_spec high n); try lia. done.
Qed.

Lemma find_name_index l k i j n :
  l !! i = Some n -> (forall i' m, l !! i' = Some m -> eq_nocase n m = true -> i' = i) ->
  eq_nocase n n = true -> j = k + Z.of_nat i -> find_name n l k = Some j.
Proof.
  revert k i. induction l as [|x l IH]; intros k i Hl Hu Hr Hj; [done|]. simpl.
  destruct (eq_nocase n x) eqn:E.
  - specialize (Hu 0%nat x eq_refl E). subst. f_equal. lia.
  - destruct i as [|i]; simpl in Hl; [simplify_eq; congruence|].
    apply (IH _ i); [done| |done|lia]. intros i' m Hm Hq. specialize (Hu (S i') m Hm Hq). lia.
Qed.

Lemma eq_nocase_refl n : eq_nocase n n = true.
Proof. induction n; simpl; [done|]. by rewrite Z.eqb_refl. Qed.

Lemma enum_text_reads l v :
  names_ok l -> 0 <= v < zlen l ->
  exists t, value_reads (enum_text (Some l) v) t /\ to_enum t (Some l) = Some v.
Proof.
  intros [Hq Hu] Hv. unfold zlen in Hv.
  destruct (lookup_lt_is_Some_2 l (Z.to_nat v)) as [n Hn]; [lia|]. exists n.
  unfold enum_text, enum_name. destruct (Z.ltb_spec v 0); [lia|]. rewrite Hn.
  split; [apply value_reads_quoted; by eapply Forall_lookup_1|]. unfold to_enum.
  rewrite (find_name_index l 0 (Z.to_nat v) v n); [done|done| |apply eq_nocase_refl|lia].
  intros i m Hm Hnm. symmetry. by eapply Hu.
Qed.

Lemma serialize_members o comp iso :
  serialize_attributes o comp iso = 123 :: join (members o comp iso) ++ bs "}".
Proof.
  unfold serialize_attributes, append_bool, append_number, append_enum, member_head, members.
  fold (bool_text (keep_values_inline o)) (bool_text (bloom_filter o)) (bool_text (encrypted o)).
  fold (enum_text comp (compression o)) (enum_text iso (isolation_level o)).
  cbn [join]. unfold item. generalize (bool_text (keep_values_inline o)), (bool_text (bloom_filter o)).
  change (bs ": ") with [58; 32]. change (bs ", ") with [44; 32]. change (bs "{") with [123].
  intros. rewrite <- !app_assoc. cbn [app]. 
  repeat (rewrite <- ?app_assoc; cbn [app]). done.
Qed.

(** Whatever struct the reader starts from, the members written for [o] rebuild [o]: every member is
    written, so nothing of the starting struct is left. *)
Lemma members_ok comp iso o init :
  names_ok comp -> names_ok iso -> in_range comp iso o ->
  entries_ok (Some comp) (Some iso) (members o (Some comp) (Some iso)) init o.
Proof.
  intros Hc Hi (H1 & H2 & H3 & H4 & H5 & H6 & H7 & H8 & H9 & H10 & H11 & H12).
  destruct (enum_text_reads comp (compression o) Hc H11) as (tc & Rc & Ec).
  destruct (enum_text_reads iso (isolation_level o) Hi H12) as (ti & Ri & Ei).
  assert (forall nm, bool_decide (QUOTE ∉ nm) && bool_decide (BACKSLASH ∉ nm) = true -> name_ok nm) as Hn.
  { intros nm [Hq%bool_decide_eq_true Hb%bool_decide_eq_true]%andb_true_iff. by split. }
  do 3 (eapply entries_cons; [eapply bool_entry; [reflexivity|by apply Hn]|]).
  do 10 (eapply entries_cons;
    [eapply number_entry; [reflexivity|by apply Hn|done|done|assumption]|]).
  eapply entries_cons.
  { split; [by apply Hn|]. eexists tc, _. split; [exact Rc|]. split; [reflexivity|].
    unfold apply_option. cbn [what]. by rewrite Ec. }
  eapply entries_one. split; [by apply Hn|]. eexists ti, _. split; [exact Ri|].
  split; [reflexivity|]. unfold apply_option. cbn [what]. rewrite Ei. by destruct o, init.
Qed.

(** *** The reader keeps every option in its range *)

Lemma find_name_bound v l k i : find_name v l k = Some i -> k <= i < k + zlen l.
Proof.
  revert k. induction l as [|x l IH]; intros k; simpl; [done|]. unfold zlen in *. simpl.
  destruct (eq_nocase v x); [intros [= <-]; lia|]. intros E. apply IH in E. lia.
Qed.

Lemma to_number_loop_bound v n m : 0 <= n -> to_number_loop v n = Some m -> 0 <= m.
Proof.
  revert n. induction v as [|c v IH]; intros n Hn; simpl; [by intros [= <-]|].
  destruct (Z.ltb_spec c 48); [done|]. destruct (57 <? c); [done|]. simpl.
  destruct (_ <? n); [done|]. apply IH. lia.
Qed.

Lemma to_number_bound v m : to_number v = Some m -> 0 <= m.
Proof. destruct v; [done|]. by apply to_number_loop_bound. Qed.

Lemma to_enum_bound v l e : to_enum v (Some l) = Some e -> 0 <= e < zlen l.
Proof.
  unfold to_enum. destruct (find_name v l 0) eqn:E; [intros [= <-]; apply find_name_bound in E; lia|].
  destruct (to_number v) eqn:En; [|done]. apply to_number_bound in En.
  destruct (Z.leb_spec (zlen l) z); [done|]. intros [= <-]. lia.
Qed.

Lemma apply_option_in_range comp iso nm v s o o' :
  s ∈ specs -> in_range comp iso o ->
  apply_option (Some comp) (Some iso) nm v s o = inr o' -> in_range comp iso o'.
Proof.
  intros Hs Hr. unfold apply_option. destruct (what s) as [f|f low high| |] eqn:Ew.
  - destruct (to_bool v); [|done]. intros [= <-]. by destruct o, f.
  - destruct (to_number v) as [n|]; [|done].
    destruct (Z.ltb_spec n low), (Z.ltb_spec high n); try done. intros [= <-].
    unfold specs in Hs. repeat (apply elem_of_cons in Hs as [-> | Hs]; [|]); try by apply not_elem_of_nil in Hs.
    all: simpl in Ew; simplify_eq; destruct o; unfold in_range in *; simpl in *; intuition lia.
  - destruct (to_enum v _) eqn:E; [|done]. apply to_enum_bound in E. intros [= <-].
    destruct o; unfold in_range in *; simpl in *; intuition lia.
  - destruct (to_enum v _) eqn:E; [|done]. apply to_enum_bound in E. intros [= <-].
    destruct o; unfold in_range in *; simpl in *; intuition lia.
Qed.

Lemma parse_loop_in_range comp iso fuel p o r :
  in_range comp iso o -> parse_loop fuel (Some comp) (Some iso) p o = Some r ->
  match r with Ok o' | Err _ o' => in_range comp iso o' | Refused => False end.
Proof.
  revert p o. induction fuel as [|fuel IH]; intros p o Hr; simpl; [done|].
  destruct (read_member p) as [msg|[[nm v] q]]; [by intros [= <-]|].
  destruct (find_spec nm) as [s|] eqn:Es; [|by intros [= <-]].
  apply find_some in Es as [Es _]. apply list_elem_of_In in Es.
  destruct (apply_option _ _ _ _ _ _) as [msg|o1] eqn:Ea; [by intros [= <-]|].
  apply apply_option_in_range in Ea; [|done..].
  destruct (after_member nm q) as [[msg|[]]|q']; [by intros [= <-]..|]. by apply IH.
Qed.

(** ** Properties *)

(** A table's options survive the trip through their JSON text: for every option struct whose
    numbers lie in the ranges of the option table and whose enumerated values are named,
    [parse_attributes] of [serialize_attributes] succeeds and yields that very struct, whatever
    struct (session defaults) it is laid over. *)
Lemma options_roundtrip comp iso o init :
  names_ok comp -> names_ok iso -> in_range comp iso o ->
  parse_attributes (Some (serialize_attributes o (Some comp) (Some iso))) (Some comp) (Some iso)
    (Some init) nonnull = Some (Ok o).
Proof.
  intros Hc Hi Hr. unfold parse_attributes, parse_text. rewrite serialize_members.
  change (skip_space (123 :: ?l)) with (123 :: l). cbv iota.
  set (j := join (members o (Some comp) (Some iso)) ++ bs "}").
  assert (exists l, j = 34 :: l) as [l Hl] by (eexists; reflexivity). rewrite Hl.
  change (skip_space (34 :: l)) with (34 :: l). cbv iota. rewrite <- Hl.
  apply (parse_loop_join _ _ _ init o _ []); [by apply members_ok|by left|].
  unfold j. rewrite length_app. change (length (members _ _ _)) with 15%nat.
  simpl. lia.
Qed.

(** The option reader always returns, and on every path - success, and a failure with some
    options already stored - leaves a struct whose numbers lie in the ranges of the option table
    and whose enumerated values are positions of their name lists, if it started from one. *)
Lemma options_stay_in_range json comp iso init :
  in_range comp iso init ->
  exists r, parse_attributes json (Some comp) (Some iso) (Some init) nonnull = Some r /\
    match r with Ok o | Err _ o => in_range comp iso o | Refused => False end.
Proof.
  intros Hr. unfold parse_attributes, parse_text.
  destruct json as [[|x l]|]; [by eauto| |by eauto].
  destruct (skip_space (x :: l)) as [|c p]; [by eauto|].
  assert (exists r, parse_loop (S (length (skip_space p))) (Some comp) (Some iso) (skip_space p) init
            = Some r /\ match r with Ok o | Err _ o => in_range comp iso o | Refused => False end)
    as Hl.
  { destruct (parse_loop_fuel (S (length (skip_space p))) (Some comp) (Some iso) (skip_space p) init)
      as [r E]; [lia|]. exists r. split; [done|]. by eapply parse_loop_in_range. }
  repeat (case_match; try by eauto).
Qed.

(** An enumerated value the name list does not cover is written as its position, and the reader
    refuses that position: the comment above [append_enum] promises that it round-trips. *)
Lemma unnamed_enum_is_lost :
  let o := Build_ha_table_option_struct 4096 10 5 2 100 4 5 4 true false 3600 true 7 50 1000 in
  parse_attributes
    (Some (serialize_attributes o (Some compression_names) (Some isolation_level_names)))
    (Some compression_names) (Some isolation_level_names) (Some o) nonnull
  = Some (Err (bs "'5' is not a recognised value for 'compression'") o).
Proof. vm_compute. reflexivity. Qed.

End TableOptions.
