(* ===== verification/Effects.v ===== *)
(** * Effects: a state monad with crashes, and its program logic

    The engine's stateful code calls a storage library and server services that may fail or take the
    whole server down.  A computation maps a state to the state it leaves and a reply: a value, or
    [Crash] when the server died inside one of its calls.  [spec P m Q C] is the Hoare triple the
    components are verified with: from a state in [P], a run of [m] that returns [a] ends in [Q a],
    and a run that dies leaves a state in [C].  The state a crash leaves is what the next start of
    the server finds, so [C] is the recovery obligation. *)
From S2P Require Import Prelude.
#[local] Open Scope Z_scope.

Inductive reply (A : Type) := Ret (a : A) | Crash.
Arguments Ret {A} a.
Arguments Crash {A}.

Definition M (S A : Type) : Type := S -> S * reply A.

Definition ret {S A} (a : A) : M S A := fun s => (s, Ret a).

Definition bind {S A B} (m : M S A) (f : A -> M S B) : M S B := fun s =>
  match m s with
  | (s', Ret a) => f a s'
  | (s', Crash) => (s', Crash)
  end.

Definition gets {S A} (f : S -> A) : M S A := fun s => (s, Ret (f s)).
Definition modify {S} (f : S -> S) : M S unit := fun s => (f s, Ret tt).

Declare Scope eff_scope.
Delimit Scope eff_scope with eff.
Notation "x <-- m ; k" := (bind m (fun x => k))
  (at level 100, m at next level, k at level 200, right associativity,
   format "'[v' x  <--  m ; '/' k ']'") : eff_scope.
Notation "m ;; k" := (bind m (fun _ => k))
  (at level 100, k at level 200, right associativity) : eff_scope.

(** A component's operation on one part of a larger state. *)
Definition lift {S T A} (get : S -> T) (put : T -> S -> S) (m : M T A) : M S A := fun s =>
  match m (get s) with (t, r) => (put t s, r) end.

(** [for (x in l) body]: the body answers [Some r] to leave the enclosing function with [r]. *)
Fixpoint for_each {S A R} (l : list A) (body : A -> M S (option R)) : M S (option R) :=
  match l with
  | [] => ret None
  | x :: l => bind (body x) (fun r => match r with Some r => ret (Some r) | None => for_each l body end)
  end.

Definition spec {S A} (P : S -> Prop) (m : M S A) (Q : A -> S -> Prop) (C : S -> Prop) : Prop :=
  forall s, P s -> match m s with (s', Ret a) => Q a s' | (s', Crash) => C s' end.

(** ** Rules *)

Section rules.
Context {S A B : Type}.
Implicit Types (P C : S -> Prop) (m : M S A).

Lemma spec_ret P (Q : A -> S -> Prop) C a : (forall s, P s -> Q a s) -> spec P (ret a) Q C.
Proof. intros H s HP. by apply H. Qed.

Lemma spec_bind P m (R : A -> S -> Prop) (f : A -> M S B) (Q : B -> S -> Prop) C :
  spec P m R C -> (forall a, spec (R a) (f a) Q C) -> spec P (bind m f) Q C.
Proof.
  intros Hm Hf s HP. specialize (Hm s HP). unfold bind. destruct (m s) as [s' [a|]]; [|done].
  by apply Hf.
Qed.

Lemma spec_gets (f : S -> A) P (Q : A -> S -> Prop) C :
  (forall s, P s -> Q (f s) s) -> spec P (gets f) Q C.
Proof. intros H s HP. by apply H. Qed.

Lemma spec_modify (f : S -> S) P (Q : unit -> S -> Prop) C :
  (forall s, P s -> Q tt (f s)) -> spec P (modify f) Q C.
Proof. intros H s HP. by apply H. Qed.

Lemma spec_bind_gets P (f : S -> A) (k : A -> M S B) (Q : B -> S -> Prop) C :
  (forall a, spec (fun s => P s /\ f s = a) (k a) Q C) -> spec P (bind (gets f) k) Q C.
Proof. intros H s HP. by apply H. Qed.

(** The value read does not matter to the rest. *)
Lemma spec_bind_gets_any P (f : S -> A) (k : A -> M S B) (Q : B -> S -> Prop) C :
  (forall a, spec P (k a) Q C) -> spec P (bind (gets f) k) Q C.
Proof. intros H s HP. by apply H. Qed.

Lemma spec_weaken P P' m (Q Q' : A -> S -> Prop) C C' :
  spec P' m Q' C' -> (forall s, P s -> P' s) -> (forall a s, Q' a s -> Q a s) ->
  (forall s, C' s -> C s) -> spec P m Q C.
Proof.
  intros Hm HP HQ HC s Hs. specialize (Hm s (HP s Hs)). destruct (m s) as [s' [a|]]; auto.
Qed.

Lemma spec_pre P P' m (Q : A -> S -> Prop) C : spec P' m Q C -> (forall s, P s -> P' s) -> spec P m Q C.
Proof. intros Hm HP. by eapply spec_weaken. Qed.

Lemma spec_crash P m (Q : A -> S -> Prop) C C' :
  spec P m Q C' -> (forall s, C' s -> C s) -> spec P m Q C.
Proof. intros Hm HC. by eapply spec_weaken. Qed.

Lemma spec_conj P1 P2 m (Q1 Q2 : A -> S -> Prop) C1 C2 :
  spec P1 m Q1 C1 -> spec P2 m Q2 C2 ->
  spec (fun s => P1 s /\ P2 s) m (fun a s => Q1 a s /\ Q2 a s) (fun s => C1 s /\ C2 s).
Proof.
  intros H1 H2 s [HP1 HP2]. specialize (H1 s HP1). specialize (H2 s HP2).
  by destruct (m s) as [s' [a|]].
Qed.

Lemma spec_ext P m m' (Q : A -> S -> Prop) C : (forall s, m s = m' s) -> spec P m' Q C -> spec P m Q C.
Proof. intros E H s Hs. rewrite E. by apply H. Qed.

(** A pure fact the precondition gives may be used as a hypothesis. *)
Lemma spec_pure P (phi : Prop) m Q C :
  (forall s, P s -> phi) -> (phi -> spec P m Q C) -> spec P m Q C.
Proof. intros Hp Hm s Hs. by apply Hm; [eapply Hp|]. Qed.

Lemma spec_ex {X : Type} (P : X -> S -> Prop) m Q C :
  (forall x, spec (P x) m Q C) -> spec (fun s => exists x, P x s) m Q C.
Proof. intros H s [x Hx]. by apply (H x s). Qed.

(** A pure fact is kept. *)
Lemma spec_keeps_pure (phi : Prop) P m Q C :
  spec P m Q C -> spec (fun s => P s /\ phi) m (fun a s => Q a s /\ phi) C.
Proof. intros H s [Hs Hp]. specialize (H s Hs). by destruct (m s) as [s' [a|]]. Qed.

Lemma spec_at m P Q C : (forall s0, P s0 -> spec (fun s => s = s0) m Q C) -> spec P m Q C.
Proof. intros H s Hs. by apply (H s Hs s). Qed.

(** What a triple says of a run that returned. *)
Lemma spec_run P m (Q : A -> S -> Prop) C s a : spec P m Q C -> P s -> (m s).2 = Ret a -> Q a (m s).1.
Proof. intros Hm Hs Ha. specialize (Hm s Hs). destruct (m s) as [s' r]. simpl in Ha. by subst r. Qed.

End rules.

Lemma for_each_ext {S A R} (l : list A) (b b' : A -> M S (option R)) s :
  (forall x, b x = b' x) -> for_each l b s = for_each l b' s.
Proof.
  intros Hb. revert s. induction l as [|x l IH]; intros s; [done|]. simpl. unfold bind. rewrite Hb.
  destruct (b' x s) as [s' [[y|]|]]; [done|apply IH|done].
Qed.

Lemma spec_for_each {S A R} (I : S -> Prop) (l : list A) (body : A -> M S (option R))
    (Q : option R -> S -> Prop) C :
  (forall x, x ∈ l -> spec I (body x) (fun r s => match r with Some _ => Q r s | None => I s end) C) ->
  (forall s, I s -> Q None s) ->
  spec I (for_each l body) Q C.
Proof.
  intros Hb Hend. induction l as [|x l IH]; simpl; [by apply spec_ret|].
  eapply spec_bind; [apply Hb; constructor|]. intros [r|]; simpl.
  - by apply spec_ret.
  - apply IH. intros y Hy. apply Hb. by constructor.
Qed.

Lemma prefix_elem {A} (pre : list A) x l : (exists post, l = pre ++ x :: post) -> x ∈ l.
Proof. intros [post ->]. apply elem_of_app. right. left. Qed.

Lemma prefix_fresh {A} (pre : list A) x l : NoDup l -> (exists post, l = pre ++ x :: post) -> x ∉ pre.
Proof. intros Hl [post ->] Hx. apply NoDup_app in Hl as (_ & Hd & _). apply (Hd x Hx). left. Qed.

(** The same loop with an invariant of what it has done so far. *)
Lemma spec_for_each_pre {S A R} (I : list A -> S -> Prop) (l : list A) (body : A -> M S (option R))
    (Q : option R -> S -> Prop) C :
  (forall pre x, (exists post, l = pre ++ x :: post) ->
     spec (I pre) (body x) (fun r s => match r with Some _ => Q r s | None => I (pre ++ [x]) s end) C) ->
  (forall s, I l s -> Q None s) ->
  spec (I []) (for_each l body) Q C.
Proof.
  intros Hb Hend. assert (forall post pre, l = pre ++ post -> spec (I pre) (for_each post body) Q C) as H;
    [|by apply H].
  induction post as [|x post IH]; intros pre E; simpl.
  - apply spec_ret. intros s Hs. rewrite app_nil_r in E. subst l. auto.
  - eapply spec_bind; [apply Hb; by exists post|]. intros [r|]; simpl.
    + by apply spec_ret.
    + apply IH. by rewrite <- app_assoc.
Qed.

(** A second triple that holds under a condition. *)
Lemma spec_when {S A} (c : Prop) (P q : S -> Prop) (m : M S A) (Q R : A -> S -> Prop) C C' :
  spec P m Q C -> spec q m R C' ->
  spec (fun s => P s /\ (c -> q s)) m (fun a s => Q a s /\ (c -> R a s)) C.
Proof.
  intros H1 H2 s [HP Hq]. specialize (H1 s HP). specialize (H2 s).
  destruct (m s) as [s' [a|]]; [|done]. split; [done|]. intros Hc. by apply H2, Hq.
Qed.

Lemma spec_lift {S T A} (get : S -> T) (put : T -> S -> S) (m : M T A) P (Q : A -> S -> Prop) C :
  (forall s0, P s0 ->
     spec (fun t => t = get s0) m (fun a t => Q a (put t s0)) (fun t => C (put t s0))) ->
  spec P (lift get put m) Q C.
Proof.
  intros H s0 HP. specialize (H s0 HP (get s0) eq_refl). unfold lift.
  by destruct (m (get s0)) as [t [a|]].
Qed.

(** ** Frames: what a computation leaves as it found it, also when it dies *)

Definition keeps {S A B} (f : S -> B) (m : M S A) : Prop :=
  forall b, spec (fun s => f s = b) m (fun _ s => f s = b) (fun s => f s = b).

Lemma keeps_ret {S A B} (f : S -> B) (a : A) : keeps f (ret a).
Proof. intros b. by apply spec_ret. Qed.

Lemma keeps_gets {S A B} (f : S -> B) (g : S -> A) : keeps f (gets g).
Proof. intros b. by apply spec_gets. Qed.

Lemma keeps_bind {S A A' B} (f : S -> B) (m : M S A) (k : A -> M S A') :
  keeps f m -> (forall a, keeps f (k a)) -> keeps f (bind m k).
Proof. intros Hm Hk b. eapply spec_bind; [apply Hm|]. intros a. apply Hk. Qed.

Lemma keeps_for_each {S A R B} (f : S -> B) (l : list A) (body : A -> M S (option R)) :
  (forall x, keeps f (body x)) -> keeps f (for_each l body).
Proof.
  intros Hb b. apply (spec_for_each (fun s => f s = b)); [|done]. intros x _.
  apply (spec_weaken _ (fun s => f s = b) _ _ (fun _ s => f s = b) _ (fun s => f s = b)); [apply Hb|done| |done].
  by intros [r|] s Hs.
Qed.

(** A triple with the frame of what is left alone. *)
Lemma spec_keeps {S A B} (f : S -> B) b P (m : M S A) (Q : A -> S -> Prop) C :
  keeps f m -> spec P m Q C ->
  spec (fun s => P s /\ f s = b) m (fun a s => Q a s /\ f s = b) (fun s => C s /\ f s = b).
Proof. intros Hf Hm. apply spec_conj; [done|apply Hf]. Qed.

(** One step of a verification: split a bind, or finish a pure step. *)
Ltac spec_step :=
  lazymatch goal with
  | |- spec _ (bind _ _) _ _ => eapply spec_bind
  | |- spec _ (ret _) _ _ => apply spec_ret
  | |- spec _ (gets _) _ _ => apply spec_gets
  | |- spec _ (modify _) _ _ => apply spec_modify
  end.
