(* ===== verification/TidesDb.v ===== *)
(** * The storage library's transactional interface

    The TidesDB library is not part of this repository.  The engine's code calls it through the
    operations of [TidesDb], and is verified against the laws stated with them: what the library
    documents of a transaction's reads, writes and commit.  A call may answer with an error code or
    not return at all ([Crash]).  [committed] is the durable contents, a map of column families;
    [pending] is the write set of an open transaction. *)
From S2P Require Import Prelude Effects.
#[local] Open Scope Z_scope.
#[local] Open Scope tdb_scope.

(** The library's result codes the engine distinguishes. *)
Inductive tdb_rc :=
  | TDB_SUCCESS
  | TDB_ERR_NOT_FOUND
  | TDB_ERR_CONFLICT
  | TDB_ERR (code : Z).

#[export] Instance tdb_rc_eq_dec : EqDecision tdb_rc.
Proof. solve_decision. Defined.

Definition tdb_ok (rc : tdb_rc) : bool := bool_decide (rc = TDB_SUCCESS).

Inductive write := W_put (cf key value : bytes) | W_delete (cf key : bytes).

Abbreviation store := (gmap bytes (gmap bytes bytes)).

Definition apply_write (w : write) (d : store) : store :=
  match w with
  | W_put cf k v => alter (fun m => <[k := v]> m) cf d
  | W_delete cf k => alter (fun m => delete k m) cf d
  end.

Definition apply_writes (ws : list write) (d : store) : store :=
  fold_left (fun d w => apply_write w d) ws d.

Definition db_get (cf k : bytes) (d : store) : option bytes := d !! cf ≫= lookup k.

Class TidesDb (E txn : Type) := {
  committed : E -> store;
  pending : E -> txn -> list write;
  txn_begin : M E (tdb_rc + txn);
  txn_get : txn -> bytes -> bytes -> M E (tdb_rc + bytes);
  txn_put : txn -> bytes -> bytes -> bytes -> M E tdb_rc;
  txn_delete : txn -> bytes -> bytes -> M E tdb_rc;
  txn_commit : txn -> M E tdb_rc;
  txn_rollback : txn -> M E tdb_rc;

  txn_begin_law d :
    spec (fun e => committed e = d) txn_begin
      (fun r e => committed e = d /\
         match r with inr t => pending e t = [] | inl rc => rc <> TDB_SUCCESS end)
      (fun e => committed e = d);
  txn_get_law d ws t cf k :
    spec (fun e => committed e = d /\ pending e t = ws) (txn_get t cf k)
      (fun r e => (committed e = d /\ pending e t = ws) /\
         match r with
         | inr v => db_get cf k (apply_writes ws d) = Some v
         | inl TDB_ERR_NOT_FOUND => db_get cf k (apply_writes ws d) = None
         | inl rc => rc <> TDB_SUCCESS
         end)
      (fun e => committed e = d);
  txn_put_law d ws t cf k v :
    spec (fun e => committed e = d /\ pending e t = ws) (txn_put t cf k v)
      (fun rc e => committed e = d /\
         pending e t = match rc with TDB_SUCCESS => ws ++ [W_put cf k v] | _ => ws end)
      (fun e => committed e = d);
  txn_delete_law d ws t cf k :
    spec (fun e => committed e = d /\ pending e t = ws) (txn_delete t cf k)
      (fun rc e => committed e = d /\
         pending e t = match rc with TDB_SUCCESS => ws ++ [W_delete cf k] | _ => ws end)
      (fun e => committed e = d);
  (** A commit is atomic; its failure (other than a conflict) or a crash inside it leaves the old
      contents or the new ones. *)
  txn_commit_law d ws t :
    spec (fun e => committed e = d /\ pending e t = ws) (txn_commit t)
      (fun rc e =>
         match rc with
         | TDB_SUCCESS => committed e = apply_writes ws d
         | TDB_ERR_CONFLICT => committed e = d
         | _ => committed e = d \/ committed e = apply_writes ws d
         end)
      (fun e => committed e = d \/ committed e = apply_writes ws d);
  txn_rollback_law d t :
    spec (fun e => committed e = d) (txn_rollback t) (fun _ e => committed e = d)
      (fun e => committed e = d) }.

(** Column families and scans.  A scan stands for an iterator's whole walk of a family: for each
    entry, what a read of its key answers and what a read of its value answers. *)
Abbreviation answer := (sum tdb_rc bytes).
Definition whole (kv : bytes * bytes) : answer * answer := (inr kv.1, inr kv.2).

Class FamilyDb (E txn : Type) `{!TidesDb E txn} := {
  get_cf : bytes -> M E bool;
  create_cf : bytes -> M E tdb_rc;
  drop_cf : bytes -> M E tdb_rc;
  rename_cf : bytes -> bytes -> M E tdb_rc;
  list_cfs : M E (option (list bytes));
  scan : txn -> bytes -> M E (tdb_rc + list (answer * answer));

  get_cf_law d nm :
    spec (fun e => committed e = d) (get_cf nm)
      (fun r e => committed e = d /\ r = bool_decide (is_Some (d !! nm))) (fun e => committed e = d);
  get_cf_pending t ws nm :
    spec (fun e => pending e t = ws) (get_cf nm) (fun _ e => pending e t = ws) (fun _ => True);
  (** Whatever it answers, the creation of a family that exists changes nothing. *)
  create_cf_law d nm :
    spec (fun e => committed e = d) (create_cf nm)
      (fun rc e =>
         match rc with
         | TDB_SUCCESS => committed e = match d !! nm with None => <[nm := ∅]> d | Some _ => d end
         | _ => committed e = d \/ (d !! nm = None /\ committed e = <[nm := ∅]> d)
         end)
      (fun e => committed e = d \/ (d !! nm = None /\ committed e = <[nm := ∅]> d));
  drop_cf_law d nm :
    spec (fun e => committed e = d) (drop_cf nm)
      (fun rc e =>
         match rc with
         | TDB_SUCCESS => committed e = delete nm d
         | TDB_ERR_NOT_FOUND => committed e = d /\ d !! nm = None
         | _ => committed e = d \/ committed e = delete nm d
         end)
      (fun e => committed e = d \/ committed e = delete nm d);
  rename_cf_law d old new :
    spec (fun e => committed e = d) (rename_cf old new)
      (fun rc e =>
         match rc with
         | TDB_SUCCESS => exists m, d !! old = Some m /\ committed e = <[new := m]> (delete old d)
         | TDB_ERR_NOT_FOUND => committed e = d /\ d !! old = None
         | _ => committed e = d
         end)
      (fun e => committed e = d \/
         exists m, d !! old = Some m /\ committed e = <[new := m]> (delete old d));
  list_cfs_law d :
    spec (fun e => committed e = d) list_cfs
      (fun r e => committed e = d /\
         match r with Some l => forall nm, nm ∈ l <-> is_Some (d !! nm) | None => True end)
      (fun e => committed e = d);
  scan_law d ws t cf :
    spec (fun e => committed e = d /\ pending e t = ws) (scan t cf)
      (fun r e => (committed e = d /\ pending e t = ws) /\
         match r with
         | inr l => forall k v, whole (k, v) ∈ l -> db_get cf k (apply_writes ws d) = Some v
         | inl rc => rc <> TDB_SUCCESS
         end)
      (fun e => committed e = d) }.

(** States from which the library reports no failure: a transaction opens, a read finds its key or
    says it is absent, a write is taken and a commit goes through.  Crashes are still possible. *)
Class QuietDb (E txn : Type) `{!TidesDb E txn} := {
  quiet : E -> Prop;
  quiet_begin : spec quiet txn_begin (fun r e => quiet e /\ exists t, r = inr t) quiet;
  quiet_get t cf k :
    spec quiet (txn_get t cf k)
      (fun r e => quiet e /\ (r = inl TDB_ERR_NOT_FOUND \/ exists v, r = inr v)) quiet;
  quiet_put t cf k v : spec quiet (txn_put t cf k v) (fun rc e => quiet e /\ rc = TDB_SUCCESS) quiet;
  quiet_delete t cf k :
    spec quiet (txn_delete t cf k) (fun rc e => quiet e /\ rc = TDB_SUCCESS) quiet;
  quiet_commit t : spec quiet (txn_commit t) (fun rc e => quiet e /\ rc = TDB_SUCCESS) quiet;
  quiet_rollback t : spec quiet (txn_rollback t) (fun _ => quiet) quiet }.

(** The same for families: no spurious failure of a drop, of a listing or of the creation of a family
    that is not there, and a scan that reads every entry. *)
Class QuietFamilies (E txn : Type) `{!TidesDb E txn, !QuietDb E txn, !FamilyDb E txn} := {
  quiet_get_cf nm : spec quiet (get_cf nm) (fun _ => quiet) quiet;
  quiet_create_cf nm :
    spec (fun e => quiet e /\ committed e !! nm = None) (create_cf nm)
      (fun rc e => quiet e /\ rc = TDB_SUCCESS) quiet;
  quiet_create_keeps nm : spec quiet (create_cf nm) (fun _ => quiet) quiet;
  quiet_drop_cf nm :
    spec quiet (drop_cf nm)
      (fun rc e => quiet e /\ (rc = TDB_SUCCESS \/ rc = TDB_ERR_NOT_FOUND)) quiet;
  quiet_list_cfs : spec quiet list_cfs (fun r e => quiet e /\ is_Some r) quiet;
  quiet_scan d ws t cf :
    spec (fun e => quiet e /\ committed e = d /\ pending e t = ws) (scan t cf)
      (fun r e => quiet e /\ exists l, r = inr (map whole l) /\
         forall k v, (k, v) ∈ l <-> db_get cf k (apply_writes ws d) = Some v) quiet }.

(** ** A concrete library, for witnesses

    One open transaction at a time over a map, and a script that decides the fate of each call. *)
Inductive fate := works | fails | lost_reply | crash_before | crash_after.

Record mem_db := { mem : store; buf : list write; script : list fate }.

Definition next_fate (e : mem_db) : fate * mem_db :=
  match script e with
  | [] => (works, e)
  | f :: fs => (f, {| mem := mem e; buf := buf e; script := fs |})
  end.

Definition ERR_IO : tdb_rc := TDB_ERR (-1).

(** A call with no durable effect: [good] runs when the script lets it. *)
Definition soft {A} (bad : A) (good : M mem_db A) : M mem_db A := fun e =>
  match next_fate e with
  | (works, e) => good e
  | (fails, e) | (lost_reply, e) => (e, Ret bad)
  | (_, e) => (e, Crash)
  end.

Definition with_buf (ws : list write) (e : mem_db) : mem_db :=
  {| mem := mem e; buf := ws; script := script e |}.
Definition do_commit (e : mem_db) : mem_db :=
  {| mem := apply_writes (buf e) (mem e); buf := []; script := script e |}.

Definition mem_commit (t : unit) : M mem_db tdb_rc := fun e =>
  match next_fate e with
  | (works, e) => (do_commit e, Ret TDB_SUCCESS)
  | (fails, e) => (e, Ret TDB_ERR_CONFLICT)
  | (lost_reply, e) => (do_commit e, Ret ERR_IO)
  | (crash_before, e) => (e, Crash)
  | (crash_after, e) => (do_commit e, Crash)
  end.

#[export] Program Instance mem_tidesdb : TidesDb mem_db unit := {|
  committed := mem;
  pending e _ := buf e;
  txn_begin := soft (inl ERR_IO) (fun e => (with_buf [] e, Ret (inr tt)));
  txn_get _ cf k := soft (inl ERR_IO) (fun e =>
    (e, Ret (match db_get cf k (apply_writes (buf e) (mem e)) with
             | Some v => inr v
             | None => inl TDB_ERR_NOT_FOUND
             end)));
  txn_put _ cf k v := soft ERR_IO (fun e => (with_buf (buf e ++ [W_put cf k v]) e, Ret TDB_SUCCESS));
  txn_delete _ cf k := soft ERR_IO (fun e => (with_buf (buf e ++ [W_delete cf k]) e, Ret TDB_SUCCESS));
  txn_commit := mem_commit;
  txn_rollback _ := soft ERR_IO (fun e => (with_buf [] e, Ret TDB_SUCCESS)) |}.
Solve All Obligations with
  (intros; intros [m b [|[] sc]]; cbn; intros; destruct_and?; simplify_eq; auto;
   unfold db_get; repeat case_match; simplify_eq; auto).

(** A durable change of the families, under the script. *)
Definition hard (change : mem_db -> mem_db) : M mem_db tdb_rc := fun e =>
  match next_fate e with
  | (works, e) => (change e, Ret TDB_SUCCESS)
  | (fails, e) => (e, Ret ERR_IO)
  | (lost_reply, e) => (change e, Ret ERR_IO)
  | (crash_before, e) => (e, Crash)
  | (crash_after, e) => (change e, Crash)
  end.

Definition with_mem (d : store) (e : mem_db) : mem_db :=
  {| mem := d; buf := buf e; script := script e |}.

Definition mem_drop_cf (nm : bytes) : M mem_db tdb_rc := fun e =>
  match mem e !! nm with
  | None => (e, Ret TDB_ERR_NOT_FOUND)
  | Some _ => hard (fun e => with_mem (delete nm (mem e)) e) e
  end.

Definition mem_create_cf (nm : bytes) : M mem_db tdb_rc := fun e =>
  match mem e !! nm with
  | Some _ => (e, Ret ERR_IO)
  | None => hard (fun e => with_mem (<[nm := ∅]> (mem e)) e) e
  end.

Definition mem_rename_cf (old new : bytes) : M mem_db tdb_rc := fun e =>
  match mem e !! old with
  | None => (e, Ret TDB_ERR_NOT_FOUND)
  | Some m => soft ERR_IO (fun e => (with_mem (<[new := m]> (delete old (mem e))) e, Ret TDB_SUCCESS)) e
  end.

Definition mem_entries (cf : bytes) (d : store) : list (bytes * bytes) :=
  map_to_list (default ∅ (d !! cf)).

Lemma elem_of_mem_entries cf d k v : (k, v) ∈ mem_entries cf d <-> db_get cf k d = Some v.
Proof.
  unfold mem_entries, db_get. rewrite elem_of_map_to_list. destruct (d !! cf); simpl; [done|].
  by rewrite lookup_empty.
Qed.

#[export] Program Instance mem_families : FamilyDb mem_db unit := {|
  get_cf nm e := (e, Ret (bool_decide (is_Some (mem e !! nm))));
  create_cf := mem_create_cf;
  drop_cf := mem_drop_cf;
  rename_cf := mem_rename_cf;
  list_cfs := soft None (fun e => (e, Ret (Some (map fst (map_to_list (mem e))))));
  scan _ cf := soft (inl ERR_IO) (fun e =>
    (e, Ret (inr (map whole (mem_entries cf (apply_writes (buf e) (mem e))))))) |}.
Next Obligation. intros d nm e <-. done. Qed.
Next Obligation. intros t ws nm e <-. done. Qed.
Next Obligation.
  intros d nm [m b sc] <-. unfold mem_create_cf, hard. simpl.
  destruct (m !! nm) eqn:E; [by left|]. destruct sc as [|[] sc]; simpl; rewrite ?E; auto.
Qed.
Next Obligation.
  intros d nm [m b sc] <-. unfold mem_drop_cf, hard. simpl.
  destruct (m !! nm) eqn:E; [|done]. destruct sc as [|[] sc]; simpl; auto.
Qed.
Next Obligation.
  intros d old new [m b sc] <-. unfold mem_rename_cf, soft. simpl.
  destruct (m !! old) eqn:E; [|done]. destruct sc as [|[] sc]; simpl; eauto.
Qed.
Next Obligation.
  intros d [m b sc] <-. unfold soft. destruct sc as [|[] sc]; simpl; try done.
  all: split; [done|]; intros nm; rewrite list_elem_of_fmap; split;
    [intros ([k v] & -> & H%elem_of_map_to_list); eauto|
     intros [v H]; exists (nm, v); split; [done|by apply elem_of_map_to_list]].
Qed.
Next Obligation.
  intros d ws t cf [m b sc] [<- <-]. unfold soft. destruct sc as [|[] sc]; simpl; try done.
  all: split; [done|]; intros k v ([k' v'] & [= <- <-] & H)%list_elem_of_fmap; by apply elem_of_mem_entries.
Qed.

Definition dies_or_works (f : fate) : Prop := f = works \/ f = crash_before \/ f = crash_after.

#[export] Program Instance mem_quiet : QuietDb mem_db unit := {|
  quiet e := Forall dies_or_works (script e) |}.
Solve All Obligations with
  (intros; intros [m b [|f sc]]; cbn; intros Hq;
   [|apply Forall_cons in Hq as [[-> |[-> | ->]] Hq]; cbn];
   repeat case_match; eauto).

Lemma dies_or_works_cons f sc :
  Forall dies_or_works (f :: sc) ->
  Forall dies_or_works sc /\ (f = works \/ f = crash_before \/ f = crash_after).
Proof. by intros [H1 H2]%Forall_cons. Qed.

#[export] Program Instance mem_quiet_families : QuietFamilies mem_db unit.
Next Obligation. by intros nm e H. Qed.
Next Obligation.
  intros nm [m b sc] [Hq Hn]. change (create_cf nm) with (mem_create_cf nm). unfold mem_create_cf, hard. simpl in *.
  rewrite Hn. destruct sc as [|f sc]; [done|]. by apply dies_or_works_cons in Hq as [? [-> |[-> | ->]]].
Qed.
Next Obligation.
  intros nm [m b sc] Hq. change (create_cf nm) with (mem_create_cf nm). unfold mem_create_cf, hard. simpl in *.
  destruct (m !! nm); [done|]. destruct sc as [|f sc]; [done|].
  by apply dies_or_works_cons in Hq as [? [-> |[-> | ->]]].
Qed.
Next Obligation.
  intros nm [m b sc] Hq. change (drop_cf nm) with (mem_drop_cf nm). unfold mem_drop_cf, hard. simpl in *.
  destruct (m !! nm); [|split; [done|by right]]. destruct sc as [|f sc]; [split; [done|by left]|].
  apply dies_or_works_cons in Hq as [? [-> |[-> | ->]]]; try done. split; [done|by left].
Qed.
Next Obligation.
  intros [m b sc] Hq. unfold list_cfs, soft. simpl in *. destruct sc as [|f sc]; [by eauto|].
  apply dies_or_works_cons in Hq as [? [-> |[-> | ->]]]; simpl; eauto.
Qed.
Next Obligation.
  intros d ws t cf [m b sc] (Hq & <- & <-). unfold scan, soft. simpl in *.
  assert (exists l, inr (A := tdb_rc) (map whole (mem_entries cf (apply_writes b m)))
            = inr (A := tdb_rc) (map whole l) /\
          forall k v, (k, v) ∈ l <-> db_get cf k (apply_writes b m) = Some v)
    by (exists (mem_entries cf (apply_writes b m)); split; [done|apply elem_of_mem_entries]).
  destruct sc as [|f sc]; [done|]. by apply dies_or_works_cons in Hq as [? [-> |[-> | ->]]].
Qed.

(** ** Lemmas on the contents *)

Lemma db_get_put cf k v d :
  is_Some (d !! cf) -> db_get cf k (apply_write (W_put cf k v) d) = Some v.
Proof. intros [m Hm]. unfold db_get, apply_write. rewrite lookup_alter_eq, Hm. simpl. by rewrite lookup_insert_eq. Qed.

Lemma db_get_put_ne cf k v cf' k' d :
  cf <> cf' \/ k <> k' -> db_get cf' k' (apply_write (W_put cf k v) d) = db_get cf' k' d.
Proof.
  intros Hne. unfold db_get, apply_write. destruct (decide (cf = cf')) as [<-|Hcf].
  - rewrite lookup_alter_eq. destruct (d !! cf) as [m|]; simpl; [|done].
    rewrite lookup_insert_ne; [done|]. by destruct Hne.
  - by rewrite lookup_alter_ne.
Qed.

Lemma apply_write_family cf d w : is_Some (d !! cf) -> is_Some (apply_write w d !! cf).
Proof.
  intros [m Hm]. destruct w as [cf' k v|cf' k]; unfold apply_write;
    (destruct (decide (cf' = cf)) as [->|];
     [rewrite lookup_alter_eq, Hm; simpl; eauto|rewrite lookup_alter_ne by done; eauto]).
Qed.

Lemma apply_writes_app ws ws' d : apply_writes (ws ++ ws') d = apply_writes ws' (apply_writes ws d).
Proof. apply fold_left_app. Qed.

Lemma apply_writes_family cf ws d : is_Some (d !! cf) -> is_Some (apply_writes ws d !! cf).
Proof.
  revert d. induction ws as [|w ws IH]; intros d Hd; [done|]. simpl. by apply IH, apply_write_family.
Qed.

(** The family a write goes to; the others keep their contents. *)
Definition write_cf (w : write) : bytes := match w with W_put cf _ _ | W_delete cf _ => cf end.

Lemma apply_writes_other cf ws d :
  Forall (fun w => write_cf w <> cf) ws -> apply_writes ws d !! cf = d !! cf.
Proof.
  intros H. revert d. induction H as [|w ws Hw _ IH]; intros d; [done|]. simpl. rewrite IH.
  by destruct w; simpl in *; rewrite lookup_alter_ne.
Qed.

Lemma db_get_delete cf k k' d :
  db_get cf k (apply_write (W_delete cf k') d) = if decide (k = k') then None else db_get cf k d.
Proof.
  unfold db_get, apply_write. rewrite lookup_alter_eq. destruct (d !! cf) as [m|]; simpl.
  - case_decide; [subst; by rewrite lookup_delete_eq|by rewrite lookup_delete_ne].
  - by case_decide.
Qed.

Lemma db_get_deletes cf ks k d :
  db_get cf k (apply_writes (map (W_delete cf) ks) d) = if decide (k ∈ ks) then None else db_get cf k d.
Proof.
  revert d. induction ks as [|k' ks IH]; intros d; [by rewrite decide_False by apply not_elem_of_nil|].
  cbn [map]. change (apply_writes (?w :: ?ws) d) with (apply_writes ws (apply_write w d)).
  rewrite IH, db_get_delete. destruct (decide (k = k')) as [->|Hne].
  - rewrite (decide_True (P := k' ∈ k' :: ks)) by constructor. by destruct (decide (k' ∈ ks)).
  - destruct (decide (k ∈ ks)); [by rewrite decide_True by by constructor|].
    rewrite decide_False; [done|]. rewrite elem_of_cons. tauto.
Qed.

Abbreviation put_of cf := (fun kv : bytes * bytes => W_put cf kv.1 kv.2).

Lemma db_get_puts_notin cf kvs k d :
  k ∉ map fst kvs -> db_get cf k (apply_writes (map (put_of cf) kvs) d) = db_get cf k d.
Proof.
  revert d. induction kvs as [|[k' v'] kvs IH]; intros d Hk; [done|]. cbn [map] in *.
  apply not_elem_of_cons in Hk as [Hne Hk].
  change (apply_writes (?w :: ?ws) d) with (apply_writes ws (apply_write w d)).
  rewrite IH by done. apply db_get_put_ne. right. simpl in *. congruence.
Qed.

Lemma db_get_puts_in cf kvs k v d :
  is_Some (d !! cf) -> (k, v) ∈ kvs -> (forall v', (k, v') ∈ kvs -> v' = v) ->
  db_get cf k (apply_writes (map (put_of cf) kvs) d) = Some v.
Proof.
  revert d. induction kvs as [|[k' v'] kvs IH]; intros d Hd Hin Hu; [by apply not_elem_of_nil in Hin|].
  cbn [map]. change (apply_writes (?w :: ?ws) d) with (apply_writes ws (apply_write w d)).
  destruct (decide (k ∈ map fst kvs)) as [Hk|Hk].
  - apply list_elem_of_fmap in Hk as ([k1 v1] & -> & Hk). simpl in *.
    assert (v1 = v) as -> by (apply Hu; by constructor).
    apply IH; [by apply (apply_write_family cf d (W_put cf k' v'))|done|]. intros v2 H2. apply Hu. by constructor.
  - rewrite db_get_puts_notin by done. apply elem_of_cons in Hin as [[= -> ->]|Hin].
    + by apply db_get_put.
    + exfalso. apply Hk, list_elem_of_fmap. by exists (k, v).
Qed.
