(* ===== verification/Keyring.v ===== *)
(** * Key custody ([src/engine/ha_tidesdb_crypto_keyring.cc])

    Table keys are kept in a reserved column family, each wrapped under a generation of the master
    key, and the master keys live in the server's keyring.  The model follows the code call by call:
    the storage library and the keyring are the interfaces [TidesDb] and [KeyringSvc], every call of
    which may fail or take the server down, and the two AES primitives are parameters.  The mutex the
    public entry points hold makes each of them one uninterrupted computation of [M]. *)
From S2P Require Import Prelude Effects TidesDb KeyEnc CfName.
Import KeyEnc.
#[local] Open Scope Z_scope.
#[local] Open Scope tdb_scope.

(** The keyring component's services and the random generator.  [holds] is what the keyring stores;
    a reader object stands for the key it was opened on. *)
Class KeyringSvc (K R : Type) := {
  holds : K -> gmap bytes bytes;
  reader_data : R -> bytes;
  reader_init : bytes -> M K (option (option R));
  fetch_length : R -> M K (option (Z * Z));
  fetch : R -> Z -> M K (option bytes);
  deinit : R -> M K unit;
  generate : bytes -> Z -> M K bool;
  rand_buffer : Z -> M K (option bytes);

  reader_init_law h nm :
    spec (fun k => holds k = h) (reader_init nm)
      (fun r k => holds k = h /\
         match r with Some (Some rd) => h !! nm = Some (reader_data rd) | _ => True end)
      (fun k => holds k = h);
  fetch_length_law h rd :
    spec (fun k => holds k = h) (fetch_length rd) (fun _ k => holds k = h) (fun k => holds k = h);
  fetch_law h rd n :
    spec (fun k => holds k = h) (fetch rd n)
      (fun r k => holds k = h /\ match r with Some d => d = reader_data rd | None => True end)
      (fun k => holds k = h);
  deinit_law h rd :
    spec (fun k => holds k = h) (deinit rd) (fun _ k => holds k = h) (fun k => holds k = h);
  (** Generating a key never replaces one the keyring already holds. *)
  generate_law h nm len :
    spec (fun k => holds k = h) (generate nm len) (fun _ k => h ⊆ holds k) (fun k => h ⊆ holds k);
  rand_buffer_law h n :
    spec (fun k => holds k = h) (rand_buffer n)
      (fun r k => holds k = h /\ match r with Some b => zlen b = Z.max 0 n | None => True end)
      (fun k => holds k = h) }.

(** A keyring over a map, for witnesses: it never fails, mints distinct keys and its random bytes
    count up. *)
Record mem_keyring := { keys : gmap bytes bytes; minted : Z }.

#[export] Program Instance mem_keyring_svc : KeyringSvc mem_keyring bytes := {|
  holds := keys;
  reader_data d := d;
  reader_init nm k := (k, Ret (Some (keys k !! nm)));
  fetch_length d k := (k, Ret (Some (zlen d, 3)));
  fetch d _ k := (k, Ret (Some d));
  deinit _ k := (k, Ret tt);
  generate nm len k :=
    match keys k !! nm with
    | Some _ => (k, Ret true)
    | None => ({| keys := <[nm := replicate (Z.to_nat len) (minted k)]> (keys k);
                  minted := minted k + 1 |}, Ret false)
    end;
  rand_buffer n k :=
    ({| keys := keys k; minted := minted k + 1 |}, Ret (Some (replicate (Z.to_nat (Z.max 0 n)) (minted k)))) |}.
Next Obligation. intros h nm k <-. simpl. by destruct (keys k !! nm). Qed.
Next Obligation. by intros h d k <-. Qed.
Next Obligation. by intros h d n k <-. Qed.
Next Obligation. by intros h d k <-. Qed.
Next Obligation.
  intros h nm len k <-. simpl. destruct (keys k !! nm) eqn:Hk; simpl; [done|].
  by apply insert_subseteq.
Qed.
Next Obligation. intros h n k <-. simpl. split; [done|]. unfold zlen. rewrite length_replicate. lia. Qed.

Module Keyring.

Inductive opmode := my_aes_256_cbc | my_aes_256_ecb.

Definition TDB_CRYPTO_CF_NAME : bytes := CfName.TDB_CRYPTO_CF_NAME.
Definition TDB_CRYPTO_KEY_LEN : Z := 32.
Definition TDB_KEYRING_TYPE_BUF_LEN : Z := 32.
Definition TDB_ROW_CIPHER : opmode := my_aes_256_cbc.
Definition TDB_WRAP_CIPHER : opmode := my_aes_256_ecb.
Definition TDB_AES_FAILED : Z := 0.
Definition MY_AES_IV_SIZE : Z := 16.
Definition TDB_CRYPTO_KEY_VERSION_INVALID : Z := UINT32_MAX.
Definition TDB_CRYPTO_STATUS_OK : Z := 0.
Definition TDB_CRYPTO_STATUS_FAILED : Z := 1.
Definition TIDESDB_MAX_ENCRYPTION_KEY_ID : Z := 255.
Definition TIDESDB_MAX_ENCRYPTION_KEY_VERSIONS : Z := 4096.

(** The module state: the two services it drives, the cached master generation, the server uuid and
    which handles were acquired at start. *)
Record crypto (E K : Type) := {
  db : E;
  kr : K;
  tdb_master_generation : Z;
  tdb_server_uuid : bytes;
  tdb_global : bool;
  tdb_crypto_cf : bool;
  tdb_keyring_reader : bool;
  tdb_keyring_generator : bool }.
Arguments db {E K}.
Arguments kr {E K}.
Arguments tdb_master_generation {E K}.
Arguments tdb_server_uuid {E K}.
Arguments tdb_global {E K}.
Arguments tdb_crypto_cf {E K}.
Arguments tdb_keyring_reader {E K}.
Arguments tdb_keyring_generator {E K}.

Section code.
Context {E T K R : Type} `{!TidesDb E T} `{!KeyringSvc K R}.
(** [my_aes_encrypt] and [my_aes_decrypt]: source, key, mode, iv, padding; [None] is a negative
    length. *)
Context (my_aes_encrypt my_aes_decrypt : bytes -> bytes -> opmode -> option bytes -> bool -> option bytes).

Local Open Scope eff_scope.

Definition with_db (e : E) (s : crypto E K) : crypto E K :=
  {| db := e; kr := kr s; tdb_master_generation := tdb_master_generation s;
     tdb_server_uuid := tdb_server_uuid s; tdb_global := tdb_global s;
     tdb_crypto_cf := tdb_crypto_cf s; tdb_keyring_reader := tdb_keyring_reader s;
     tdb_keyring_generator := tdb_keyring_generator s |}.
Definition with_kr (k : K) (s : crypto E K) : crypto E K :=
  {| db := db s; kr := k; tdb_master_generation := tdb_master_generation s;
     tdb_server_uuid := tdb_server_uuid s; tdb_global := tdb_global s;
     tdb_crypto_cf := tdb_crypto_cf s; tdb_keyring_reader := tdb_keyring_reader s;
     tdb_keyring_generator := tdb_keyring_generator s |}.
Definition with_generation (g : Z) (s : crypto E K) : crypto E K :=
  {| db := db s; kr := kr s; tdb_master_generation := u32 g;
     tdb_server_uuid := tdb_server_uuid s; tdb_global := tdb_global s;
     tdb_crypto_cf := tdb_crypto_cf s; tdb_keyring_reader := tdb_keyring_reader s;
     tdb_keyring_generator := tdb_keyring_generator s |}.

Definition on_db {A} (m : M E A) : M (crypto E K) A := lift db with_db m.
Definition on_kr {A} (m : M K A) : M (crypto E K) A := lift kr with_kr m.

Definition tdb_master_key_name (uuid : bytes) (generation : Z) : bytes :=
  bs "TIDESQLKey" ++ bs "-" ++ uuid ++ bs "-" ++ to_string generation.

Definition tdb_store_get (key : bytes) : M (crypto E K) (option bytes) :=
  cf <-- gets tdb_crypto_cf; g <-- gets tdb_global;
  if negb cf || negb g || (zlen key =? 0) then ret None
  else
    t <-- on_db txn_begin;
    match t with
    | inl _ => ret None
    | inr t =>
        r <-- on_db (txn_get t TDB_CRYPTO_CF_NAME key);
        on_db (txn_rollback t);;
        ret (match r with
             | inr value => if 0 <? zlen value then Some value else None
             | inl _ => None
             end)
    end.

Definition tdb_store_put (key value : bytes) : M (crypto E K) bool :=
  cf <-- gets tdb_crypto_cf; g <-- gets tdb_global;
  if negb cf || negb g || (zlen key =? 0) || (zlen value =? 0) then ret false
  else
    t <-- on_db txn_begin;
    match t with
    | inl _ => ret false
    | inr t =>
        rc <-- on_db (txn_put t TDB_CRYPTO_CF_NAME key value);
        if tdb_ok rc then rc <-- on_db (txn_commit t); ret (tdb_ok rc)
        else on_db (txn_rollback t);; ret false
    end.

Definition tdb_keyring_fetch (name : bytes) : M (crypto E K) (option bytes) :=
  have <-- gets tdb_keyring_reader;
  if negb have then ret None
  else
    i <-- on_kr (reader_init name);
    match i with
    | None => ret None
    | Some None => ret None
    | Some (Some reader) =>
        l <-- on_kr (fetch_length reader);
        match l with
        | None => on_kr (deinit reader);; ret None
        | Some (data_len, type_len) =>
            if (data_len =? 0) || (TDB_KEYRING_TYPE_BUF_LEN <=? type_len)
            then on_kr (deinit reader);; ret None
            else
              d <-- on_kr (fetch reader data_len);
              on_kr (deinit reader);;
              ret (match d with
                   | Some data => if zlen data =? 0 then None else Some data
                   | None => None
                   end)
        end
    end.

Definition tdb_master_key_get (generation : Z) (mint : bool) : M (crypto E K) (option bytes) :=
  uuid <-- gets tdb_server_uuid;
  let name := tdb_master_key_name uuid generation in
  m <-- tdb_keyring_fetch name;
  match m with
  | Some out => ret (Some out)
  | None =>
      have <-- gets tdb_keyring_generator;
      if negb mint || negb have then ret None
      else
        failed <-- on_kr (generate name TDB_CRYPTO_KEY_LEN);
        if failed then ret None else tdb_keyring_fetch name
  end.

Definition tdb_master_generation_resolve : M (crypto E K) Z :=
  g <-- gets tdb_master_generation;
  if negb (g =? GENERATION_NONE) then ret g
  else
    let key := encode_master_seq_key nonnull in
    stored <-- tdb_store_get key;
    match stored with
    | Some v =>
        if zlen v =? Z.of_nat FIELD_LEN
        then modify (with_generation (be32_decode (Some v)));; gets tdb_master_generation
        else
          ok <-- tdb_store_put key (be32_encode GENERATION_FIRST nonnull);
          if ok then modify (with_generation GENERATION_FIRST);; gets tdb_master_generation
          else ret GENERATION_NONE
    | None =>
        ok <-- tdb_store_put key (be32_encode GENERATION_FIRST nonnull);
        if ok then modify (with_generation GENERATION_FIRST);; gets tdb_master_generation
        else ret GENERATION_NONE
    end.

(** The bytes [my_aes_decrypt] is handed: the offset and the 32-bit length. *)
Definition slice (off len : Z) (b : bytes) : bytes := take (Z.to_nat (u32 len)) (drop (Z.to_nat off) b).

Definition tdb_table_key_unwrap (stored : bytes) : M (crypto E K) (option bytes) :=
  match parse_wrapped_value (Some stored)
          {| generation_out := Some GENERATION_NONE; off_out := Some 0; len_out := Some 0 |} with
  | (true, {| generation_out := Some generation; off_out := Some off; len_out := Some len |}) =>
      m <-- tdb_master_key_get generation false;
      match m with
      | None => ret None
      | Some master =>
          ret (match my_aes_decrypt (slice off len stored) master TDB_WRAP_CIPHER None false with
               | Some out => if zlen out <=? TDB_AES_FAILED then None else Some out
               | None => None
               end)
      end
  | _ => ret None
  end.

Definition tdb_table_key_wrap (plain : bytes) (generation : Z) : M (crypto E K) (option bytes) :=
  m <-- tdb_master_key_get generation true;
  match m with
  | None => ret None
  | Some master =>
      ret (match my_aes_encrypt (slice 0 (zlen plain) plain) master TDB_WRAP_CIPHER None false with
           | Some wkey =>
               if zlen wkey <=? TDB_AES_FAILED then None
               else
                 let framed := frame_wrapped_value generation (Some wkey) nonnull in
                 if zlen framed =? 0 then None else Some framed
           | None => None
           end)
  end.

Definition tdb_crypto_random_bytes (len : Z) : M (crypto E K) (option bytes) :=
  if len =? 0 then ret None else on_kr (rand_buffer len).

(** The tail [tdb_table_key_mint] and [tdb_crypto_rotate_table_key] share: a fresh table key, wrapped
    and stored under its version first, the version pointer written last. *)
Definition store_table_key (key_id version generation failed done : Z) : M (crypto E K) Z :=
  k <-- tdb_crypto_random_bytes TDB_CRYPTO_KEY_LEN;
  match k with
  | None => ret failed
  | Some table_key =>
      w <-- tdb_table_key_wrap table_key generation;
      match w with
      | None => ret failed
      | Some wkey =>
          ok <-- tdb_store_put (encode_wrapped_key key_id version nonnull) wkey;
          if negb ok then ret failed
          else
            ok <-- tdb_store_put (encode_latest_key key_id nonnull) (be32_encode version nonnull);
            if negb ok then ret failed else ret done
      end
  end.

Definition tdb_table_key_mint (key_id : Z) : M (crypto E K) Z :=
  generation <-- tdb_master_generation_resolve;
  if generation =? GENERATION_NONE then ret TDB_CRYPTO_KEY_VERSION_INVALID
  else store_table_key key_id GENERATION_FIRST generation TDB_CRYPTO_KEY_VERSION_INVALID GENERATION_FIRST.

Definition tdb_crypto_available (s : crypto E K) : bool :=
  tdb_keyring_reader s && tdb_keyring_generator s && tdb_crypto_cf s
  && negb (zlen (tdb_server_uuid s) =? 0).

(** The stored pointer of a key id, when the read finds a whole one. *)
Definition read_latest (key_id : Z) : M (crypto E K) (option Z) :=
  stored <-- tdb_store_get (encode_latest_key key_id nonnull);
  ret (match stored with
       | Some v => if zlen v =? Z.of_nat FIELD_LEN then Some (be32_decode (Some v)) else None
       | None => None
       end).

Definition tdb_crypto_latest_key_version (key_id : Z) : M (crypto E K) Z :=
  a <-- gets tdb_crypto_available;
  if negb a then ret TDB_CRYPTO_KEY_VERSION_INVALID
  else
    l <-- read_latest key_id;
    match l with
    | Some v => ret v
    | None => tdb_table_key_mint key_id
    end.

(** [Some key] is status OK with the key copied out; [klen] is the caller's buffer. *)
Definition tdb_crypto_get_key (key_id key_version klen : Z) : M (crypto E K) (option bytes) :=
  a <-- gets tdb_crypto_available;
  if negb a then ret None
  else
    stored <-- tdb_store_get (encode_wrapped_key key_id key_version nonnull);
    match stored with
    | None => ret None
    | Some stored =>
        p <-- tdb_table_key_unwrap stored;
        ret (match p with
             | Some plain => if (zlen plain =? 0) || (klen <? zlen plain) then None else Some plain
             | None => None
             end)
    end.

Definition tdb_crypto_rotate_table_key (key_id : Z) : M (crypto E K) Z :=
  a <-- gets tdb_crypto_available;
  if negb a then ret TDB_CRYPTO_STATUS_FAILED
  else if (key_id <? 1) || (TIDESDB_MAX_ENCRYPTION_KEY_ID <? key_id) then ret TDB_CRYPTO_STATUS_FAILED
  else
    generation <-- tdb_master_generation_resolve;
    if generation =? GENERATION_NONE then ret TDB_CRYPTO_STATUS_FAILED
    else
      l <-- read_latest key_id;
      match l with
      | None =>
          v <-- tdb_table_key_mint key_id;
          ret (if v =? TDB_CRYPTO_KEY_VERSION_INVALID then TDB_CRYPTO_STATUS_FAILED
               else TDB_CRYPTO_STATUS_OK)
      | Some current =>
          if TIDESDB_MAX_ENCRYPTION_KEY_VERSIONS <=? current then ret TDB_CRYPTO_STATUS_FAILED
          else
            let next := u32 (current + 1) in
            store_table_key key_id next generation TDB_CRYPTO_STATUS_FAILED TDB_CRYPTO_STATUS_OK
      end.

(** One round of the inner loop of the master rotation: re-wrap one version of one key. *)
Definition rewrap_one (next key_id version : Z) : M (crypto E K) (option Z) :=
  let store_key := encode_wrapped_key key_id version nonnull in
  stored <-- tdb_store_get store_key;
  match stored with
  | None => ret None
  | Some stored =>
      p <-- tdb_table_key_unwrap stored;
      match p with
      | None => ret (Some TDB_CRYPTO_STATUS_FAILED)
      | Some plain =>
          w <-- tdb_table_key_wrap plain next;
          match w with
          | None => ret (Some TDB_CRYPTO_STATUS_FAILED)
          | Some rewrapped =>
              ok <-- tdb_store_put store_key rewrapped;
              ret (if negb ok then Some TDB_CRYPTO_STATUS_FAILED else None)
          end
      end
  end.

(** One round of the outer loop: every recorded version of one key id. *)
Definition rewrap_key (next key_id : Z) : M (crypto E K) (option Z) :=
  l <-- read_latest key_id;
  match l with
  | None => ret None
  | Some newest =>
      for_each (seqZ GENERATION_FIRST (Z.min newest TIDESDB_MAX_ENCRYPTION_KEY_VERSIONS))
        (rewrap_one next key_id)
  end.

Definition tdb_crypto_rotate_master_key : M (crypto E K) Z :=
  a <-- gets tdb_crypto_available;
  if negb a then ret TDB_CRYPTO_STATUS_FAILED
  else
    current <-- tdb_master_generation_resolve;
    if current =? GENERATION_NONE then ret TDB_CRYPTO_STATUS_FAILED
    else
      let next := u32 (current + 1) in
      m <-- tdb_master_key_get next true;
      match m with
      | None => ret TDB_CRYPTO_STATUS_FAILED
      | Some _ =>
          r <-- for_each (seqZ 1 TIDESDB_MAX_ENCRYPTION_KEY_ID) (rewrap_key next);
          match r with
          | Some status => ret status
          | None =>
              ok <-- tdb_store_put (encode_master_seq_key nonnull) (be32_encode next nonnull);
              if negb ok then ret TDB_CRYPTO_STATUS_FAILED
              else modify (with_generation next);; ret TDB_CRYPTO_STATUS_OK
          end
      end.

(** ** What the theorems speak of *)

(** A stored value unwraps to [p] with the keys [h] of the keyring. *)
Definition unwraps (h : gmap bytes bytes) (uuid stored p : bytes) : Prop :=
  4 < zlen stored /\
  exists master, h !! tdb_master_key_name uuid (be32_decode (Some stored)) = Some master /\
    my_aes_decrypt (slice 4 (zlen stored - 4) stored) master TDB_WRAP_CIPHER None false = Some p /\
    0 < zlen p.

Definition key_value (key : bytes) (s : crypto E K) : option bytes :=
  db_get TDB_CRYPTO_CF_NAME key (committed (db s)).

(** Version [ver] of table key [id] is recoverable and its plaintext is [p]. *)
Definition readable (id ver : Z) (p : bytes) (s : crypto E K) : Prop :=
  exists stored, key_value (encode_wrapped_key id ver nonnull) s = Some stored /\
    unwraps (holds (kr s)) (tdb_server_uuid s) stored p.

(** The state has grown from [s0] without losing anything but what [db] holds. *)
Definition later (s0 s : crypto E K) : Prop :=
  holds (kr s0) ⊆ holds (kr s) /\ tdb_server_uuid s = tdb_server_uuid s0 /\
  (tdb_crypto_cf s = tdb_crypto_cf s0 /\ tdb_global s = tdb_global s0) /\
  (0 <= tdb_master_generation s0 < 2 ^ 32 -> 0 <= tdb_master_generation s < 2 ^ 32).

(** Nothing durable has changed since [s0]. *)
Definition same_db (s0 s : crypto E K) : Prop := later s0 s /\ committed (db s) = committed (db s0).

(** Every recoverable key of [s0] is recoverable in [s], with the same plaintext. *)
Definition keys_kept (s0 s : crypto E K) : Prop :=
  forall id ver p, 0 <= id < 2 ^ 32 -> 0 <= ver < 2 ^ 32 -> readable id ver p s0 -> readable id ver p s.

Definition family_open (s : crypto E K) : Prop := is_Some (committed (db s) !! TDB_CRYPTO_CF_NAME).

(** The version pointer of [id] says [v]. *)
Definition published (id v : Z) (s : crypto E K) : Prop :=
  exists b, key_value (encode_latest_key id nonnull) s = Some b /\ zlen b = 4 /\
    be32_decode (Some b) = v.

(** Every version up to the pointer is recoverable: no pointer dangles. *)
Definition well_kept (s : crypto E K) : Prop :=
  family_open s /\
  forall id b, 0 <= id < 2 ^ 32 -> key_value (encode_latest_key id nonnull) s = Some b ->
    exists v, published id v s /\ 1 <= v <= TIDESDB_MAX_ENCRYPTION_KEY_VERSIONS /\
      forall ver, 1 <= ver <= v -> exists p, readable id ver p s.

(** What every operation promises of the published keys of [s0]. *)
Definition published_kept (s0 s : crypto E K) : Prop :=
  forall id v, 0 <= id < 2 ^ 32 -> published id v s0 ->
    exists v', published id v' s /\ v <= v' /\
      forall ver p, 1 <= ver <= v -> readable id ver p s0 -> readable id ver p s.

(** ** Lemmas *)

Lemma later_refl s : later s s.
Proof. done. Qed.

Lemma later_trans s1 s2 s3 : later s1 s2 -> later s2 s3 -> later s1 s3.
Proof.
  intros (H1 & H2 & [H3 H4] & H5) (H6 & H7 & [H8 H9] & H10).
  split_and!; [by etrans|congruence..|auto].
Qed.

Lemma same_db_refl s : same_db s s.
Proof. by split. Qed.

Lemma same_db_trans s1 s2 s3 : same_db s1 s2 -> same_db s2 s3 -> same_db s1 s3.
Proof. intros [H1 H2] [H3 H4]. split; [by eapply later_trans|congruence]. Qed.

(** Running a library call on the [db] component keeps what [later] says of the rest. *)
Lemma on_db_spec {A} (m : M E A) (s0 : crypto E K) (P : E -> Prop) (Q : A -> E -> Prop) (C : E -> Prop) :
  spec P m Q C ->
  spec (fun s => later s0 s /\ P (db s)) (on_db m) (fun a s => later s0 s /\ Q a (db s))
    (fun s => later s0 s /\ C (db s)).
Proof.
  intros H. apply spec_lift. intros s1 [Hl HP]. eapply spec_weaken; [exact H| |done|done].
  by intros s ->.
Qed.

(** A keyring call leaves the durable store alone; [Phi] is what its answer says of the keys. *)
Lemma on_kr_spec {A} (m : M K A) (s0 : crypto E K) (Phi : A -> gmap bytes bytes -> Prop) :
  (forall h, spec (fun k => holds k = h) m (fun a k => h ⊆ holds k /\ Phi a (holds k))
               (fun k => h ⊆ holds k)) ->
  spec (same_db s0) (on_kr m) (fun a s => same_db s0 s /\ Phi a (holds (kr s))) (same_db s0).
Proof.
  intros H. apply spec_lift. intros s1 [(H1 & H2 & H3 & H4) H5].
  eapply spec_weaken; [exact (H (holds (kr s1)))|by intros k ->|..]; simpl.
  - intros a k [Hs Hp]. split; [|done]. split; [|done]. by split; [etrans|].
  - intros k Hs. split; [|done]. by split; [etrans|].
Qed.

Lemma on_kr_keep {A} (m : M K A) (s0 : crypto E K) (Phi : A -> gmap bytes bytes -> Prop) :
  (forall h, spec (fun k => holds k = h) m (fun a k => holds k = h /\ Phi a h) (fun k => holds k = h)) ->
  spec (same_db s0) (on_kr m) (fun a s => same_db s0 s /\ Phi a (holds (kr s))) (same_db s0).
Proof.
  intros H. apply on_kr_spec. intros h. eapply spec_weaken; [exact (H h)|done|..]; simpl.
  - by intros a k [-> Hp].
  - by intros k ->.
Qed.

(** The library's laws seen from the module's state. *)
Lemma begin_spec (s0 : crypto E K) :
  spec (same_db s0) (on_db txn_begin)
    (fun r s => same_db s0 s /\ match r with inr t => pending (db s) t = [] | _ => True end)
    (same_db s0).
Proof.
  eapply spec_weaken; [apply (on_db_spec _ s0), (txn_begin_law (committed (db s0)))|done|..].
  - intros [rc|t] s (H1 & H2 & H3); by (split; [split|]).
  - done.
Qed.

Lemma get_spec (s0 : crypto E K) t key :
  spec (fun s => same_db s0 s /\ pending (db s) t = []) (on_db (txn_get t TDB_CRYPTO_CF_NAME key))
    (fun r s => same_db s0 s /\ match r with inr v => key_value key s0 = Some v | _ => True end)
    (same_db s0).
Proof.
  eapply spec_weaken; [apply (on_db_spec _ s0), (txn_get_law (committed (db s0)) [])|..].
  - intros s [[H1 H2] H3]. by (split; [|split]).
  - intros [rc|v] s (H1 & (H2 & _) & H3); by (split; [split|]).
  - done.
Qed.

Lemma put_spec (s0 : crypto E K) t key v :
  spec (fun s => same_db s0 s /\ pending (db s) t = []) (on_db (txn_put t TDB_CRYPTO_CF_NAME key v))
    (fun rc s => same_db s0 s /\
       (rc = TDB_SUCCESS -> pending (db s) t = [W_put TDB_CRYPTO_CF_NAME key v]))
    (same_db s0).
Proof.
  eapply spec_weaken; [apply (on_db_spec _ s0), (txn_put_law (committed (db s0)) [] t)|..].
  - intros s [[H1 H2] H3]. by (split; [|split]).
  - intros rc s (H1 & H2 & H3). split; [by split|]. by intros ->.
  - done.
Qed.

Lemma rollback_spec (s0 : crypto E K) t :
  spec (same_db s0) (on_db (txn_rollback t)) (fun _ s => same_db s0 s) (same_db s0).
Proof. eapply spec_weaken; [apply (on_db_spec _ s0), (txn_rollback_law (committed (db s0)))|done..]. Qed.

Lemma tdb_store_get_spec (s0 : crypto E K) key :
  spec (same_db s0) (tdb_store_get key)
    (fun r s => same_db s0 s /\
       match r with Some v => key_value key s0 = Some v /\ 0 < zlen v | None => True end)
    (same_db s0).
Proof.
  unfold tdb_store_get. apply spec_bind_gets_any. intros cf. apply spec_bind_gets_any. intros g.
  destruct (_ || _); [apply spec_ret; by auto|].
  eapply spec_bind; [apply begin_spec|]. intros [rc|t]; [apply spec_ret; by intros s [H _]|].
  eapply spec_bind; [apply get_spec|]. intros r.
  eapply (spec_bind _ _ (fun _ s => same_db s0 s /\
    match r with inr v => key_value key s0 = Some v | _ => True end)).
  { apply spec_at. intros s1 [H1 Hr]. eapply spec_weaken; [apply rollback_spec|by intros s ->| |done].
    intros a s H. exact (conj H Hr). }
  intros _. apply spec_ret. intros s [H1 Hr]. split; [done|].
  destruct r as [rc|v]; [done|]. by destruct (Z.ltb_spec 0 (zlen v)).
Qed.

(** A put writes its value at its key, or changes nothing; a failed one may have done either. *)
Definition after_put (key value : bytes) (s0 s : crypto E K) : Prop :=
  later s0 s /\ committed (db s) = apply_write (W_put TDB_CRYPTO_CF_NAME key value) (committed (db s0)).

Lemma commit_spec (s0 : crypto E K) t key value :
  spec (fun s => same_db s0 s /\ pending (db s) t = [W_put TDB_CRYPTO_CF_NAME key value])
    (on_db (txn_commit t))
    (fun rc s => if tdb_ok rc then after_put key value s0 s
                 else same_db s0 s \/ after_put key value s0 s)
    (fun s => same_db s0 s \/ after_put key value s0 s).
Proof.
  eapply spec_weaken; [apply (on_db_spec _ s0), (txn_commit_law (committed (db s0)) [W_put TDB_CRYPTO_CF_NAME key value] t)|..].
  - intros s [[H1 H2] H3]. by (split; [|split]).
  - intros rc s [H1 H2]. unfold tdb_ok, same_db, after_put. case_bool_decide; [by subst|].
    destruct rc; [done| | |]; try destruct H2 as [H2|H2]; auto.
  - intros s [H1 [H2|H2]]; [left|right]; by split.
Qed.

Lemma tdb_store_put_spec (s0 : crypto E K) key value :
  spec (same_db s0) (tdb_store_put key value)
    (fun ok s => if ok : bool then after_put key value s0 s
                 else same_db s0 s \/ after_put key value s0 s)
    (fun s => same_db s0 s \/ after_put key value s0 s).
Proof.
  unfold tdb_store_put. apply spec_bind_gets_any. intros cf. apply spec_bind_gets_any. intros g.
  destruct (_ || _); [apply spec_ret; by auto|]. eapply spec_bind.
  { eapply spec_crash; [apply begin_spec|by left]. }
  intros [rc|t]; [apply spec_ret; intros s [H _]; by left|]. eapply spec_bind.
  { eapply spec_crash; [apply put_spec|by left]. }
  intros rc. unfold tdb_ok. case_bool_decide as Hrc.
  - eapply spec_bind.
    + eapply spec_weaken; [apply (commit_spec s0 t key value)| |by intros a s H; exact H|done].
      intros s [H1 H2]. split; auto.
    + intros rc'. by apply spec_ret.
  - apply (spec_bind _ _ (fun _ => same_db s0)).
    + eapply spec_weaken; [apply (rollback_spec s0 t)|by intros s [H _]|done|by left].
    + intros _. apply spec_ret. by left.
Qed.

Lemma with_kr_same s0 s k : same_db s0 s -> holds k = holds (kr s) -> same_db s0 (with_kr k s).
Proof.
  intros [(H1 & H2 & H3 & H4) H5] E0. split; [|done]. split; [|done]. simpl. by rewrite E0.
Qed.

Lemma deinit_spec (s0 : crypto E K) rd Phi :
  spec (fun s => same_db s0 s /\ Phi (holds (kr s))) (on_kr (deinit rd))
    (fun _ s => same_db s0 s /\ Phi (holds (kr s))) (same_db s0).
Proof.
  apply spec_lift. intros s1 [H1 H2].
  eapply spec_weaken; [exact (deinit_law (holds (kr s1)) rd)|by intros k ->|..].
  - intros a k E0. split; [by apply with_kr_same|]. simpl. by rewrite E0.
  - intros k E0. by apply with_kr_same.
Qed.

(** A lookup that [Phi] describes stays true while the reader is closed. *)
Lemma tdb_keyring_fetch_spec (s0 : crypto E K) nm :
  spec (same_db s0) (tdb_keyring_fetch nm)
    (fun r s => same_db s0 s /\
       match r with Some d => holds (kr s) !! nm = Some d | None => True end)
    (same_db s0).
Proof.
  unfold tdb_keyring_fetch. apply spec_bind_gets_any. intros [|]; simpl; [|apply spec_ret; by auto].
  eapply spec_bind; [apply (on_kr_keep _ s0), (fun h => reader_init_law h nm)|].
  intros [[rd|]|]; [|apply spec_ret; by intros s [H _]..]. cbv beta iota.
  eapply (spec_bind _ _ (fun _ s => same_db s0 s /\ holds (kr s) !! nm = Some (reader_data rd))).
  { apply spec_at. intros s1 [H1 H2]. apply spec_lift. intros s2 ->.
    eapply spec_weaken; [exact (fetch_length_law (holds (kr s1)) rd)|by intros k ->|..].
    - intros a k E0. split; [by apply with_kr_same|]. simpl. by rewrite E0.
    - intros k E0. by apply with_kr_same. }
  assert (forall o : option bytes, (forall s, same_db s0 s /\ holds (kr s) !! nm = Some (reader_data rd) ->
     match o with Some d => holds (kr s) !! nm = Some d | None => True end) ->
     spec (fun s => same_db s0 s /\ holds (kr s) !! nm = Some (reader_data rd))
       (bind (on_kr (deinit rd)) (fun _ => ret o))
       (fun r s => same_db s0 s /\ match r with Some d => holds (kr s) !! nm = Some d | None => True end)
       (same_db s0)) as Hclose.
  { intros o Ho. eapply spec_bind.
    - apply (deinit_spec s0 rd (fun h => h !! nm = Some (reader_data rd))).
    - intros ?. apply spec_ret. intros s H. split; [apply H|]. by apply Ho. }
  intros [[dl tl]|]; [|by apply (Hclose None)].
  destruct (_ || _); [by apply (Hclose None)|].
  eapply (spec_bind _ _ (fun d s => (same_db s0 s /\ holds (kr s) !! nm = Some (reader_data rd)) /\
    match d with Some d => d = reader_data rd | None => True end)).
  { apply spec_at. intros s1 [H1 H2]. apply spec_lift. intros s2 ->.
    eapply spec_weaken; [exact (fetch_law (holds (kr s1)) rd dl)|by intros k ->|..].
    - intros a k [E0 Ha]. split; [|done]. split; [by apply with_kr_same|]. simpl. by rewrite E0.
    - intros k E0. by apply with_kr_same. }
  intros d. apply (spec_pure _ (match d with Some d => d = reader_data rd | None => True end));
    [by intros s [_ H]|]. intros Hd.
  eapply spec_weaken; [apply Hclose|by intros s [H _]|done|done].
  intros s [_ H]. destruct d as [d|]; [|done]. subst. by destruct (zlen _ =? 0).
Qed.

Lemma tdb_master_key_get_spec (s0 : crypto E K) g mint :
  spec (same_db s0) (tdb_master_key_get g mint)
    (fun r s => same_db s0 s /\
       match r with
       | Some m => holds (kr s) !! tdb_master_key_name (tdb_server_uuid s0) g = Some m
       | None => True
       end)
    (same_db s0).
Proof.
  unfold tdb_master_key_get. apply spec_bind_gets. intros u.
  apply (spec_pure _ (u = tdb_server_uuid s0)); [by intros s [[(_ & -> & _) _] <-]|]. intros ->.
  eapply spec_bind.
  { eapply spec_weaken; [apply tdb_keyring_fetch_spec|by intros s [H _]| |done]. intros a s H. exact H. }
  intros [m|]; [by apply spec_ret|]. apply spec_bind_gets_any. intros have.
  destruct (_ || _); [by apply spec_ret|]. eapply (spec_bind _ _ (fun _ => same_db s0)).
  { eapply spec_weaken; [apply (on_kr_spec _ s0 (fun _ _ => True))|by intros s [H _]|by intros a s [H _]|done].
    intros h. eapply spec_weaken; [apply (generate_law h)|done|by intros a k H|done]. }
  intros [|]; [by apply spec_ret|]. apply tdb_keyring_fetch_spec.
Qed.

(** *** Wrapping and unwrapping *)

Context (aes_roundtrip : forall p k c,
  my_aes_encrypt p k TDB_WRAP_CIPHER None false = Some c ->
  zlen c < 2 ^ 31 /\ my_aes_decrypt c k TDB_WRAP_CIPHER None false = Some p).
Context (aes_plain_bound : forall p k c,
  my_aes_decrypt c k TDB_WRAP_CIPHER None false = Some p -> zlen p < 2 ^ 31).

Lemma slice_all (b : bytes) : zlen b < 2 ^ 32 -> slice 0 (zlen b) b = b.
Proof.
  intros H. pose proof (zlen_nonneg b). unfold slice, u32. rewrite Z.mod_small by lia.
  change (Z.to_nat 0) with 0%nat. rewrite drop_0. apply take_ge. unfold zlen in *. lia.
Qed.

Lemma unwraps_later h h' u stored p : h ⊆ h' -> unwraps h u stored p -> unwraps h' u stored p.
Proof.
  intros Hs (Hl & m & Hm & Hp). split; [done|]. exists m. split; [by eapply lookup_weaken|done].
Qed.

Lemma unwraps_fun h u stored p p' : unwraps h u stored p -> unwraps h u stored p' -> p = p'.
Proof. intros (_ & m & Hm & Hp & _) (_ & m' & Hm' & Hp' & _). simplify_eq. congruence. Qed.

Lemma tdb_table_key_unwrap_spec (s0 : crypto E K) stored :
  spec (same_db s0) (tdb_table_key_unwrap stored)
    (fun r s => same_db s0 s /\
       match r with
       | Some p => unwraps (holds (kr s)) (tdb_server_uuid s0) stored p /\ zlen p < 2 ^ 31
       | None => True
       end)
    (same_db s0).
Proof.
  unfold tdb_table_key_unwrap, parse_wrapped_value. cbn [generation_out off_out len_out].
  change (Z.of_nat WRAP_HEADER_LEN) with 4.
  destruct (Z.leb_spec (zlen stored) 4) as [Hl|Hl]; [by apply spec_ret|].
  eapply spec_bind; [apply tdb_master_key_get_spec|]. intros [m|]; [|apply spec_ret; by intros s [H _]].
  apply spec_ret. intros s [H1 H2]. split; [done|].
  destruct (my_aes_decrypt _ _ _ _ _) as [p|] eqn:Ed; [|done]. unfold TDB_AES_FAILED.
  destruct (Z.leb_spec (zlen p) 0); [done|].
  split; [split; [done|]; by exists m|by eapply aes_plain_bound].
Qed.

(** A key wrapped under a generation unwraps again, and carries that generation. *)
Lemma tdb_table_key_wrap_spec (s0 : crypto E K) plain g :
  0 < zlen plain < 2 ^ 32 -> 0 <= g < 2 ^ 32 ->
  spec (same_db s0) (tdb_table_key_wrap plain g)
    (fun r s => same_db s0 s /\
       match r with
       | Some out => unwraps (holds (kr s)) (tdb_server_uuid s0) out plain /\
                     be32_decode (Some out) = g
       | None => True
       end)
    (same_db s0).
Proof.
  intros Hp Hg. unfold tdb_table_key_wrap. eapply spec_bind; [apply tdb_master_key_get_spec|].
  intros [m|]; [|apply spec_ret; by intros s [H _]].
  apply spec_ret. intros s [H1 H2]. split; [done|]. rewrite slice_all by lia.
  destruct (my_aes_encrypt _ _ _ _ _) as [c|] eqn:Ec; [|done].
  apply aes_roundtrip in Ec as [Hc Hd]. unfold TDB_AES_FAILED.
  destruct (Z.leb_spec (zlen c) 0); [done|]. unfold frame_wrapped_value.
  destruct (Z.eqb_spec (zlen c) 0); [lia|].
  assert (zlen (be32_encode g nonnull ++ c) = 4 + zlen c) as El by by rewrite zlen_app.
  destruct (Z.eqb_spec (zlen (be32_encode g nonnull ++ c)) 0); [lia|].
  rewrite be32_decode_encode by done. split; [|done]. split; [lia|]. exists m.
  rewrite be32_decode_encode by done. split; [done|].
  replace (slice 4 (zlen (be32_encode g nonnull ++ c) - 4) (be32_encode g nonnull ++ c)) with c;
    [split; [done|lia]|].
  unfold slice. change (Z.to_nat 4) with 4%nat.
  change (drop 4 (be32_encode g nonnull ++ c)) with c. rewrite El. unfold u32.
  rewrite Z.mod_small by lia. symmetry. apply take_ge. unfold zlen. lia.
Qed.

(** *** Keeping every key readable *)

(** [s] is [s0] some steps on: nothing acquired is lost, every key stays readable and no version
    pointer has moved. *)
Definition keeps (s0 s : crypto E K) : Prop :=
  later s0 s /\ keys_kept s0 s /\ (family_open s0 -> family_open s) /\
  forall id, key_value (encode_latest_key id nonnull) s = key_value (encode_latest_key id nonnull) s0.

Lemma keeps_refl s : keeps s s.
Proof. split_and!; [apply later_refl|by intros ?|done..]. Qed.

Lemma keeps_trans s1 s2 s3 : keeps s1 s2 -> keeps s2 s3 -> keeps s1 s3.
Proof.
  intros (L1 & K1 & F1 & P1) (L2 & K2 & F2 & P2).
  split_and!; [by eapply later_trans|intros id ver p Hi Hv Hr; auto|auto|congruence].
Qed.

Lemma same_db_keeps s0 s : same_db s0 s -> keeps s0 s.
Proof.
  intros [L D]. split_and!; [done| |unfold family_open; by rewrite D|intros id; unfold key_value; by rewrite D].
  intros id ver p _ _ (st & Hst & Hu). exists st. unfold key_value in *. rewrite D. split; [done|].
  destruct L as (Hh & -> & _). by eapply unwraps_later.
Qed.

(** A put outside the wrapped keys, or one that replaces a wrapped key by another wrapping of it. *)
Lemma after_put_keeps key value s0 s :
  family_open s0 -> (forall id, key <> encode_latest_key id nonnull) ->
  (forall id ver p, 0 <= id < 2 ^ 32 -> 0 <= ver < 2 ^ 32 -> key = encode_wrapped_key id ver nonnull ->
     readable id ver p s0 -> unwraps (holds (kr s)) (tdb_server_uuid s0) value p) ->
  after_put key value s0 s -> keeps s0 s.
Proof.
  intros Hf Hl Hk [L D]. split_and!; [done| | |].
  - intros id ver p Hi Hv Hr. destruct (decide (key = encode_wrapped_key id ver nonnull)) as [->|Hne].
    + exists value. unfold key_value. rewrite D, db_get_put by done. split; [done|].
      destruct L as (_ & -> & _). by apply (Hk id ver).
    + destruct Hr as (st & Hst & Hu). exists st. unfold key_value in *.
      rewrite D, db_get_put_ne by auto. split; [done|].
      destruct L as (Hh & -> & _). by eapply unwraps_later.
  - intros _. unfold family_open. rewrite D. by apply apply_write_family.
  - intros id. unfold key_value. rewrite D. apply db_get_put_ne. right. apply Hl.
Qed.

(** *** Invariants that the reads and the keyring calls cannot break *)

Definition stable (I : crypto E K -> Prop) : Prop := forall s1 s, I s1 -> same_db s1 s -> I s.

Lemma stable_step {A} (m : M (crypto E K) A) I (Q : crypto E K -> A -> crypto E K -> Prop) :
  stable I ->
  (forall s1, spec (same_db s1) m (Q s1) (same_db s1)) ->
  (forall s1 a s, Q s1 a s -> same_db s1 s) -> spec I m (fun _ => I) I.
Proof.
  intros HI Hm HQ s Hs. specialize (Hm s s (same_db_refl s)). destruct (m s) as [s' [a|]]; eauto.
Qed.

Lemma get_stable I key : stable I -> spec I (tdb_store_get key) (fun _ => I) I.
Proof. intros HI. eapply stable_step; [done|intros s1; apply tdb_store_get_spec|by intros s1 a s [H _]]. Qed.

Lemma master_key_get_stable I g mint :
  stable I -> spec I (tdb_master_key_get g mint) (fun _ => I) I.
Proof.
  intros HI. eapply stable_step; [done|intros s1; apply tdb_master_key_get_spec|by intros s1 a s [H _]].
Qed.

Lemma put_stable I key value :
  stable I -> (forall s1 s, I s1 -> after_put key value s1 s -> I s) ->
  spec I (tdb_store_put key value) (fun _ => I) I.
Proof.
  intros HI Hp. apply spec_at. intros s1 H1.
  eapply spec_weaken; [apply (tdb_store_put_spec s1 key value)|by intros s ->; apply same_db_refl|..].
  - intros [|] s H; [eauto|]. destruct H; eauto.
  - intros s [H|H]; eauto.
Qed.

Lemma with_generation_stable I g s : stable I -> I s -> I (with_generation g s).
Proof.
  intros HI Hs. eapply HI; [exact Hs|]. split; [|done]. split_and!; try done.
  intros _. apply Z.mod_pos_bound. lia.
Qed.

Lemma set_generation_stable I g :
  stable I ->
  spec I (bind (modify (with_generation g)) (fun _ => gets tdb_master_generation)) (fun _ => I) I.
Proof.
  intros HI. apply (spec_bind _ _ (fun _ => I)); intros; [apply spec_modify|by apply spec_gets].
  intros s Hs. by apply with_generation_stable.
Qed.

Lemma resolve_stable I :
  stable I ->
  (forall s1 s, I s1 -> after_put (encode_master_seq_key nonnull) (be32_encode GENERATION_FIRST nonnull) s1 s -> I s) ->
  spec I tdb_master_generation_resolve (fun _ => I) I.
Proof.
  intros HI Hp. unfold tdb_master_generation_resolve. apply spec_bind_gets_any. intros g.
  destruct (negb _); [by apply spec_ret|]. eapply spec_bind; [by apply get_stable|].
  assert (spec I
    (bind (tdb_store_put (encode_master_seq_key nonnull) (be32_encode GENERATION_FIRST nonnull))
      (fun ok : bool => if ok then bind (modify (with_generation GENERATION_FIRST))
                                     (fun _ => gets tdb_master_generation)
                        else ret GENERATION_NONE)) (fun _ => I) I) as Hseed.
  { eapply spec_bind; [by apply put_stable|].
    intros [|]; [by apply set_generation_stable|by apply spec_ret]. }
  intros [v|]; [|done]. destruct (_ =? _); [|done]. by apply set_generation_stable.
Qed.

Lemma keeps_stable s0 : stable (keeps s0).
Proof. intros s1 s H1 H2. eapply keeps_trans; [exact H1|by apply same_db_keeps]. Qed.

Lemma keeps_put_other s0 s1 s key value :
  family_open s0 -> (forall id ver, key <> encode_wrapped_key id ver nonnull) ->
  (forall id, key <> encode_latest_key id nonnull) -> keeps s0 s1 -> after_put key value s1 s -> keeps s0 s.
Proof.
  intros Ho Hk Hl H1 H. eapply keeps_trans; [exact H1|].
  eapply after_put_keeps; [by apply H1|done| |exact H]. intros id ver p _ _ E0. by apply Hk in E0.
Qed.

Lemma master_seq_not_wrapped id ver : encode_master_seq_key nonnull <> encode_wrapped_key id ver nonnull.
Proof. intros E0. symmetry in E0. by apply (store_namespaces_disjoint id ver 0) in E0. Qed.

Lemma master_seq_not_latest id : encode_master_seq_key nonnull <> encode_latest_key id nonnull.
Proof. intros E0. symmetry in E0. by apply (store_namespaces_disjoint 0 0 id) in E0. Qed.

Lemma u32_range z : 0 <= u32 z < 2 ^ 32.
Proof. apply Z.mod_pos_bound. lia. Qed.

(** Re-wrapping one key keeps them all: the replacement unwraps to the plaintext just recovered. *)
Lemma rewrap_one_keeps s0 n id ver :
  family_open s0 -> 0 <= n < 2 ^ 32 -> 0 <= id < 2 ^ 32 -> 0 <= ver < 2 ^ 32 ->
  spec (keeps s0) (rewrap_one n id ver) (fun _ => keeps s0) (keeps s0).
Proof.
  intros Ho Hn Hi Hv. apply spec_at. intros s1 H1. unfold rewrap_one.
  assert (forall s, same_db s1 s -> keeps s0 s) as Hs
    by (intros s H; eapply keeps_trans; [exact H1|by apply same_db_keeps]).
  eapply spec_bind; [eapply spec_weaken; [apply (tdb_store_get_spec s1)|by intros s ->; apply same_db_refl| |exact Hs]|].
  { intros r s H. exact H. }
  intros [st|]; [|apply spec_ret; intros s [H _]; auto].
  apply (spec_pure _ (key_value (encode_wrapped_key id ver nonnull) s1 = Some st));
    [by intros s [_ [H _]]|]. intros Hst.
  eapply spec_bind; [eapply spec_weaken; [apply (tdb_table_key_unwrap_spec s1 st)|by intros s [H _]| |exact Hs]|].
  { intros r s H. exact H. }
  intros [p|]; [|apply spec_ret; intros s [H _]; auto].
  apply (spec_at _ _ _ _). intros s2 (H2 & Hu & Hp).
  assert (0 < zlen p) as Hp0 by (destruct Hu as (_ & m & _ & _ & ?); done).
  assert (forall s, same_db s2 s -> same_db s1 s) as Hs2 by (intros; by eapply same_db_trans).
  eapply spec_bind; [eapply spec_weaken; [apply (tdb_table_key_wrap_spec s2 p n); lia|by intros s ->; apply same_db_refl| |eauto]|].
  { intros r s H. exact H. }
  intros [out|]; [|apply spec_ret; intros s [H _]; eauto].
  apply (spec_at _ _ _ _). intros s3 (H3 & Hw & _).
  assert (same_db s1 s3) as H13 by eauto.
  assert (forall s, same_db s3 s \/ after_put (encode_wrapped_key id ver nonnull) out s3 s -> keeps s0 s) as Hor.
  { intros s [H|H]; [apply Hs; by eapply same_db_trans|]. eapply keeps_trans; [apply Hs, H13|].
    eapply after_put_keeps; [by apply (Hs s3 H13)| | |exact H].
    { intros id' E0. by apply (store_namespaces_disjoint id ver id') in E0. }
    intros id' ver' p' Hi' Hv' E0 (st' & Hst' & Hu').
    apply encode_wrapped_key_inj in E0 as [<- <-]; [|done..].
    assert (st' = st) as ->.
    { unfold key_value in *. destruct H13 as [_ D]. rewrite D in Hst'. congruence. }
    destruct H2 as [(_ & U2 & _) _], H3 as [(S3 & U3 & _) _], H as [(S & _) _].
    rewrite U3, U2 in Hu' |- *. rewrite U2 in Hw.
    assert (p' = p) as -> by (eapply unwraps_fun; [exact Hu'|by eapply unwraps_later]).
    by eapply unwraps_later. }
  eapply spec_bind; [eapply spec_weaken; [apply (tdb_store_put_spec s3)|by intros s ->; apply same_db_refl| |exact Hor]|].
  { intros ok s H. exact H. }
  intros [|]; apply spec_ret; auto.
Qed.

Lemma read_latest_stable I id : stable I -> spec I (read_latest id) (fun _ => I) I.
Proof. intros HI. eapply spec_bind; [by apply get_stable|]. intros r. by apply spec_ret. Qed.

Lemma rewrap_key_keeps s0 n id :
  family_open s0 -> 0 <= n < 2 ^ 32 -> 0 <= id < 2 ^ 32 ->
  spec (keeps s0) (rewrap_key n id) (fun _ => keeps s0) (keeps s0).
Proof.
  intros Ho Hn Hi. eapply spec_bind; [apply read_latest_stable, keeps_stable|].
  intros [l|]; [|by apply spec_ret]. apply spec_for_each; [|done].
  intros ver Hv. apply elem_of_seqZ in Hv. unfold GENERATION_FIRST, TIDESDB_MAX_ENCRYPTION_KEY_VERSIONS in Hv.
  eapply spec_weaken; [apply (rewrap_one_keeps s0); lia || done|done|by intros [|]|done].
Qed.

Lemma rotate_master_keeps s0 :
  family_open s0 ->
  spec (fun s => s = s0) tdb_crypto_rotate_master_key (fun _ => keeps s0) (keeps s0).
Proof.
  intros Ho. eapply (spec_weaken _ (keeps s0) _ _ (fun _ => keeps s0) _ (keeps s0)); [|by intros s ->; apply keeps_refl|done..].
  unfold tdb_crypto_rotate_master_key. apply spec_bind_gets_any. intros a.
  destruct (negb _); [by apply spec_ret|]. eapply spec_bind.
  { apply resolve_stable; [apply keeps_stable|]. intros s1 s. eapply keeps_put_other;
      [done|apply master_seq_not_wrapped|apply master_seq_not_latest]. }
  intros cur. destruct (_ =? _); [by apply spec_ret|].
  eapply spec_bind; [apply master_key_get_stable, keeps_stable|].
  intros [m|]; [|by apply spec_ret].
  eapply (spec_bind _ _ (fun _ => keeps s0)).
  { apply spec_for_each; [|done]. intros id Hid. apply elem_of_seqZ in Hid.
    unfold TIDESDB_MAX_ENCRYPTION_KEY_ID in Hid. eapply spec_weaken;
      [apply (rewrap_key_keeps s0); [done|apply u32_range|lia]|done|by intros [|]|done]. }
  intros [st|]; [by apply spec_ret|].
  eapply spec_bind.
  { apply put_stable; [apply keeps_stable|]. intros s1 s. eapply keeps_put_other;
      [done|apply master_seq_not_wrapped|apply master_seq_not_latest]. }
  intros [|]; [|by apply spec_ret]. eapply (spec_bind _ _ (fun _ => keeps s0)).
  - apply spec_modify. intros s. apply with_generation_stable, keeps_stable.
  - intros ?. by apply spec_ret.
Qed.

(** *** The version pointers *)

(** No pointer has moved since [s0] and every published key is still readable. *)
Definition steady (s0 s : crypto E K) : Prop :=
  later s0 s /\ (family_open s0 -> family_open s) /\
  (forall id, key_value (encode_latest_key id nonnull) s = key_value (encode_latest_key id nonnull) s0) /\
  (forall id v ver p, 0 <= id < 2 ^ 32 -> published id v s0 -> 1 <= ver <= v -> ver < 2 ^ 32 ->
     readable id ver p s0 -> readable id ver p s).

Lemma published_steady s0 s id v : steady s0 s -> published id v s0 <-> published id v s.
Proof. intros (_ & _ & H & _). unfold published. by rewrite H. Qed.

Lemma published_fun id v v' s : published id v s -> published id v' s -> v = v'.
Proof. intros (b & H & _ & <-) (b' & H' & _ & <-). congruence. Qed.

Lemma steady_refl s : steady s s.
Proof. split_and!; [apply later_refl|done..]. Qed.

Lemma steady_trans s1 s2 s3 : steady s1 s2 -> steady s2 s3 -> steady s1 s3.
Proof.
  intros S1 S2. pose proof S1 as (L1 & F1 & E1 & K1). pose proof S2 as (L2 & F2 & E2 & K2).
  split_and!; [by eapply later_trans|auto|congruence|].
  intros id v ver p Hi Hp Hv Hv' Hr. eapply K2; eauto. by apply (published_steady s1 s2).
Qed.

Lemma same_db_steady s0 s : same_db s0 s -> steady s0 s.
Proof.
  intros H. pose proof (same_db_keeps _ _ H) as (L & Hk & F & _). destruct H as [_ D].
  split_and!; [done|done|intros id; unfold key_value; by rewrite D|].
  intros id v ver p Hi _ Hv Hv' Hr. apply Hk; [done|lia|done].
Qed.

(** A put that is not of a pointer, and that at a published version writes the same key. *)
Lemma after_put_steady key value s0 s :
  family_open s0 -> (forall id, key <> encode_latest_key id nonnull) ->
  (forall id v ver p, 0 <= id < 2 ^ 32 -> published id v s0 -> 1 <= ver <= v -> ver < 2 ^ 32 ->
     key = encode_wrapped_key id ver nonnull ->
     readable id ver p s0 -> unwraps (holds (kr s)) (tdb_server_uuid s0) value p) ->
  after_put key value s0 s -> steady s0 s.
Proof.
  intros Hf Hl Hk [L D]. split_and!; [done| | |].
  - intros _. unfold family_open. rewrite D. by apply apply_write_family.
  - intros id. unfold key_value. rewrite D. apply db_get_put_ne. right. apply Hl.
  - intros id v ver p Hi Hp Hv Hv' Hr.
    destruct (decide (key = encode_wrapped_key id ver nonnull)) as [->|Hne].
    + exists value. unfold key_value. rewrite D, db_get_put by done. split; [done|].
      destruct L as (_ & -> & _). by apply (Hk id v ver).
    + destruct Hr as (st & Hst & Hu). exists st. unfold key_value in *.
      rewrite D, db_get_put_ne by auto. split; [done|].
      destruct L as (Hh & -> & _). by eapply unwraps_later.
Qed.

Lemma steady_well_kept s0 s : well_kept s0 -> steady s0 s -> well_kept s /\ published_kept s0 s.
Proof.
  intros [Ho Hw] S. pose proof S as (L & F & E0 & Hk). split; [split; [auto|]|].
  - intros id b Hi Hb. rewrite E0 in Hb. destruct (Hw id b Hi Hb) as (v & Hp & Hv & Hr).
    exists v. split; [by apply (published_steady s0 s)|]. split; [done|]. intros ver Hver.
    destruct (Hr ver Hver) as [p Hpl]. exists p. unfold TIDESDB_MAX_ENCRYPTION_KEY_VERSIONS in Hv.
    eapply Hk; eauto. lia.
  - intros id v Hi Hp. exists v. split; [by apply (published_steady s0 s)|]. split; [lia|].
    intros ver p Hver Hr. destruct Hp as (b & Hb & Hlen & Hd).
    destruct (Hw id b Hi Hb) as (v' & Hp' & Hv' & _).
    assert (v = v') as <- by (eapply published_fun; [|exact Hp']; by exists b).
    unfold TIDESDB_MAX_ENCRYPTION_KEY_VERSIONS in Hv'. eapply Hk; eauto. lia.
Qed.

(** Moving one pointer up by one, to a version that is readable. *)
Lemma move_pointer s0 s id v p :
  well_kept s0 -> 0 <= id < 2 ^ 32 -> 1 <= v <= TIDESDB_MAX_ENCRYPTION_KEY_VERSIONS ->
  (forall v0, published id v0 s0 -> v = v0 + 1) ->
  ((forall v0, ~ published id v0 s0) -> v = 1) ->
  readable id v p s0 ->
  after_put (encode_latest_key id nonnull) (be32_encode v nonnull) s0 s ->
  well_kept s /\ published_kept s0 s.
Proof.
  intros [Ho Hw] Hi Hv Hnext Hfirst Hr [L D].
  unfold TIDESDB_MAX_ENCRYPTION_KEY_VERSIONS in *.
  assert (published id v s) as Hnew.
  { exists (be32_encode v nonnull). unfold key_value. rewrite D, db_get_put by done.
    split; [done|]. split; [done|]. rewrite <- (app_nil_r (be32_encode v nonnull)).
    by rewrite be32_decode_encode by lia. }
  assert (forall id', 0 <= id' < 2 ^ 32 -> id' <> id ->
    key_value (encode_latest_key id' nonnull) s = key_value (encode_latest_key id' nonnull) s0) as Hsame.
  { intros id' Hi' Hne. unfold key_value. rewrite D. apply db_get_put_ne. right. intros E0.
    by apply encode_latest_key_inj in E0; [subst|done..]. }
  assert (forall id' ver q, readable id' ver q s0 -> readable id' ver q s) as Hkeep.
  { intros id' ver q (st & Hst & Hu). exists st. unfold key_value in *.
    rewrite D, db_get_put_ne.
    - split; [done|]. destruct L as (Hh & -> & _). by eapply unwraps_later.
    - right. intros E0. symmetry in E0. by apply (store_namespaces_disjoint id' ver id) in E0. }
  assert (forall id' v', 0 <= id' < 2 ^ 32 -> id' <> id -> published id' v' s0 <-> published id' v' s)
    as Hpub by (intros id' v' Hi' Hne; unfold published; by rewrite Hsame).
  split; [split|].
  - unfold family_open. rewrite D. by apply apply_write_family.
  - intros id' b Hi' Hb. destruct (decide (id' = id)) as [->|Hne].
    + exists v. split; [done|]. split; [done|]. intros ver Hver.
      destruct (decide (ver = v)) as [->|]; [eauto|].
      destruct (key_value (encode_latest_key id nonnull) s0) as [b0|] eqn:Eb.
      * destruct (Hw id b0 Hi Eb) as (v0 & Hp0 & Hv0 & Hr0). specialize (Hnext _ Hp0).
        destruct (Hr0 ver ltac:(lia)) as [q Hq]. eauto.
      * assert (v = 1) by (apply Hfirst; intros v0 (b0 & Hb0 & _); congruence). lia.
    + rewrite Hsame in Hb by done. destruct (Hw id' b Hi' Hb) as (v0 & Hp0 & Hv0 & Hr0).
      exists v0. split; [by apply Hpub|]. split; [done|]. intros ver Hver.
      destruct (Hr0 ver Hver) as [q Hq]. eauto.
  - intros id' v' Hi' Hp'. destruct (decide (id' = id)) as [->|Hne].
    + exists v. split; [done|]. specialize (Hnext _ Hp'). split; [lia|]. eauto.
    + exists v'. split; [by apply Hpub|]. split; [lia|]. eauto.
Qed.

Lemma steady_stable s0 : stable (steady s0).
Proof. intros s1 s H1 H2. eapply steady_trans; [exact H1|by apply same_db_steady]. Qed.

Lemma steady_put_master s0 s1 s value :
  family_open s0 -> steady s0 s1 -> after_put (encode_master_seq_key nonnull) value s1 s -> steady s0 s.
Proof.
  intros Ho H1 H. eapply steady_trans; [exact H1|]. eapply after_put_steady; [by apply H1| | |exact H].
  - intros id. apply master_seq_not_latest.
  - intros id v ver p _ _ _ _ E0. by apply master_seq_not_wrapped in E0.
Qed.

Lemma resolve_steady s0 :
  family_open s0 -> spec (steady s0) tdb_master_generation_resolve (fun _ => steady s0) (steady s0).
Proof.
  intros Ho. apply resolve_stable; [apply steady_stable|]. intros s1 s. by apply steady_put_master.
Qed.

(** The promise every entry point is held to. *)
Definition custody (s0 s : crypto E K) : Prop := well_kept s /\ published_kept s0 s.

Lemma published_kept_trans s1 s2 s3 :
  published_kept s1 s2 -> published_kept s2 s3 -> published_kept s1 s3.
Proof.
  intros H1 H2 id v Hi Hp. destruct (H1 id v Hi Hp) as (v2 & Hp2 & Hv2 & Hr2).
  destruct (H2 id v2 Hi Hp2) as (v3 & Hp3 & Hv3 & Hr3). exists v3. split; [done|]. split; [lia|].
  intros ver p Hver Hr. apply Hr3; [lia|]. by apply Hr2.
Qed.

Lemma steady_custody s0 s : well_kept s0 -> steady s0 s -> custody s0 s.
Proof. apply steady_well_kept. Qed.

(** Storing the next version of a key, before its pointer moves. *)
Lemma put_new_wrapped s0 s1 id v out plain :
  well_kept s0 -> steady s0 s1 -> 0 <= id < 2 ^ 32 -> 0 <= v < 2 ^ 32 ->
  (forall v0, published id v0 s0 -> v0 < v) ->
  unwraps (holds (kr s1)) (tdb_server_uuid s1) out plain ->
  spec (fun s => s = s1) (tdb_store_put (encode_wrapped_key id v nonnull) out)
    (fun ok s => steady s0 s /\ (ok = true -> readable id v plain s)) (steady s0).
Proof.
  intros [Ho _] H1 Hi Hv Hnew Hu.
  assert (family_open s1) as Ho1 by (apply H1; exact Ho).
  assert (forall s, after_put (encode_wrapped_key id v nonnull) out s1 s ->
            steady s0 s /\ readable id v plain s) as Hp.
  { intros s H. split.
    - eapply steady_trans; [exact H1|]. eapply after_put_steady; [done| | |exact H].
      + intros id' E0. by apply (store_namespaces_disjoint id v id') in E0.
      + intros id' v' ver p Hi' Hp' Hver Hver' E0 _.
        apply encode_wrapped_key_inj in E0 as [<- <-]; [|done || lia..].
        apply (published_steady s0 s1) in Hp'; [|done]. apply Hnew in Hp'. lia.
    - destruct H as [(Hh & U & _) D]. exists out. unfold key_value. rewrite D, db_get_put by done.
      split; [done|]. rewrite U. by eapply unwraps_later. }
  eapply spec_weaken; [apply (tdb_store_put_spec s1)|by intros s ->; apply same_db_refl|..].
  - intros [|] s H; [destruct (Hp s H); by split|]. split; [|done].
    destruct H as [H|H]; [by eapply steady_stable|by apply Hp].
  - intros s [H|H]; [by eapply steady_stable|by apply Hp].
Qed.

Lemma put_pointer s0 s1 id v p :
  well_kept s0 -> steady s0 s1 -> 0 <= id < 2 ^ 32 -> 1 <= v <= TIDESDB_MAX_ENCRYPTION_KEY_VERSIONS ->
  (forall v0, published id v0 s0 -> v = v0 + 1) ->
  ((forall v0, ~ published id v0 s0) -> v = 1) -> readable id v p s1 ->
  spec (fun s => s = s1) (tdb_store_put (encode_latest_key id nonnull) (be32_encode v nonnull))
    (fun _ => custody s0) (custody s0).
Proof.
  intros Hw H1 Hi Hv Hn Hf Hr. destruct (steady_custody s0 s1 Hw H1) as [Hw1 Hk1].
  assert (forall s, same_db s1 s -> custody s0 s) as Ha
    by (intros s H; apply steady_custody; [done|by eapply steady_stable]).
  assert (forall s, after_put (encode_latest_key id nonnull) (be32_encode v nonnull) s1 s -> custody s0 s) as Hb.
  { intros s H. destruct (move_pointer s1 s id v p) as [A B]; try done.
    - intros v0 Hv0. apply Hn. by apply (published_steady s0 s1).
    - intros Hno. apply Hf. intros v0 Hv0. apply (Hno v0). by apply (published_steady s0 s1).
    - split; [done|]. by eapply published_kept_trans. }
  eapply spec_weaken; [apply (tdb_store_put_spec s1)|by intros s ->; apply same_db_refl|..].
  - intros [|] s H; [auto|]. destruct H; auto.
  - intros s [H|H]; auto.
Qed.

Lemma random_bytes_spec s0 :
  spec (steady s0) (tdb_crypto_random_bytes TDB_CRYPTO_KEY_LEN)
    (fun r s => steady s0 s /\ match r with Some b => zlen b = 32 | None => True end) (steady s0).
Proof.
  unfold tdb_crypto_random_bytes. change (TDB_CRYPTO_KEY_LEN =? 0) with false. cbv iota.
  intros s Hs. pose proof (on_kr_keep (rand_buffer TDB_CRYPTO_KEY_LEN) s
    (fun r _ => match r with Some b => zlen b = 32 | None => True end)
    (fun h => rand_buffer_law h TDB_CRYPTO_KEY_LEN) s (same_db_refl s)) as H.
  destruct (on_kr _ s) as [s' [r|]]; [|by eapply steady_stable].
  destruct H as [H1 H2]. split; [by eapply steady_stable|done].
Qed.

(** Wrapping a fresh key of 32 bytes. *)
Lemma wrap_steady s0 plain g :
  zlen plain = 32 -> 0 <= g < 2 ^ 32 ->
  spec (steady s0) (tdb_table_key_wrap plain g)
    (fun r s => steady s0 s /\
       match r with
       | Some out => unwraps (holds (kr s)) (tdb_server_uuid s) out plain
       | None => True
       end) (steady s0).
Proof.
  intros Hp Hg s Hs. pose proof (tdb_table_key_wrap_spec s plain g ltac:(lia) Hg s (same_db_refl s)) as H.
  destruct (tdb_table_key_wrap plain g s) as [s' [r|]]; [|by eapply steady_stable].
  destruct H as [H1 H2]. split; [by eapply steady_stable|]. destruct r; [|done].
  destruct H1 as [(_ & -> & _) _]. apply H2.
Qed.

(** The generation in force is a 32-bit value. *)
Lemma resolve_range s0 :
  0 <= tdb_master_generation s0 < 2 ^ 32 -> family_open s0 ->
  spec (steady s0) tdb_master_generation_resolve (fun g s => steady s0 s /\ 0 <= g < 2 ^ 32) (steady s0).
Proof.
  intros Hg Ho s Hs. pose proof (resolve_steady s0 Ho s Hs) as H.
  assert (forall s', steady s0 s' -> 0 <= tdb_master_generation s' < 2 ^ 32) as Hr
    by (intros s' (L & _); by apply L).
  destruct (tdb_master_generation_resolve s) as [s' [g|]] eqn:Er; [|done]. split; [done|].
  revert Er. unfold tdb_master_generation_resolve, bind, gets, modify, ret. specialize (Hr s Hs) as Hs'.
  destruct (negb _); [by intros [= <- <-]|].
  repeat (case_match; simplify_eq; try done); intros; simplify_eq;
    simpl; try apply u32_range; unfold GENERATION_NONE; lia.
Qed.

Lemma store_table_key_custody s0 id v g bad good :
  well_kept s0 -> 0 <= g < 2 ^ 32 -> 0 <= id < 2 ^ 32 -> 1 <= v <= TIDESDB_MAX_ENCRYPTION_KEY_VERSIONS ->
  (forall v0, published id v0 s0 -> v = v0 + 1) -> ((forall v0, ~ published id v0 s0) -> v = 1) ->
  spec (steady s0) (store_table_key id v g bad good) (fun _ => custody s0) (custody s0).
Proof.
  intros Hw Hg Hi Hv Hn Hf.
  assert (forall s, steady s0 s -> custody s0 s) as Hc by (intros s; by apply steady_custody).
  eapply spec_bind; [eapply spec_crash; [apply random_bytes_spec|done]|].
  intros [key|]; [|apply spec_ret; intros s [H _]; auto].
  apply (spec_pure _ (zlen key = 32)); [by intros s [_ H]|]. intros Hk.
  eapply spec_bind.
  { eapply spec_weaken; [apply (wrap_steady s0 key g); done|by intros s [H _]| |done]. intros a s H. exact H. }
  intros [out|]; [|apply spec_ret; intros s [H _]; auto].
  apply spec_at. intros s1 [H1 Hu]. eapply spec_bind; [eapply spec_crash; [|done]|].
  { apply (put_new_wrapped s0 s1 id v out key); try done.
    - unfold TIDESDB_MAX_ENCRYPTION_KEY_VERSIONS in Hv. lia.
    - intros v0 H. apply Hn in H. lia. }
  intros [|]; [|apply spec_ret; intros s [H _]; auto]. cbv beta iota.
  apply spec_at. intros s2 [H2 Hr]. eapply spec_bind.
  { apply (put_pointer s0 s2 id v key); try done. by apply Hr. }
  intros [|]; by apply spec_ret.
Qed.

Lemma mint_custody s0 id :
  well_kept s0 -> 0 <= tdb_master_generation s0 < 2 ^ 32 -> 0 <= id < 2 ^ 32 ->
  key_value (encode_latest_key id nonnull) s0 = None ->
  spec (steady s0) (tdb_table_key_mint id) (fun _ => custody s0) (custody s0).
Proof.
  intros Hw Hg Hi Hnone.
  assert (forall s, steady s0 s -> custody s0 s) as Hc by (intros s; by apply steady_custody).
  assert (forall v, ~ published id v s0) as Hno by (intros v (b & Hb & _); congruence).
  unfold tdb_table_key_mint.
  eapply spec_bind; [eapply spec_crash; [by apply resolve_range, Hw|done]|]. intros g.
  apply (spec_pure _ (0 <= g < 2 ^ 32)); [by intros s [_ H]|]. intros Hgr.
  destruct (_ =? _); [apply spec_ret; by intros s [H _]; auto|].
  eapply spec_weaken; [apply (store_table_key_custody s0)|by intros s [H _]|done|done]; try done.
  intros v0 H. by apply Hno in H.
Qed.

(** *** Quiet reads *)

Context `{!QuietDb E T}.

Definition calm (s : crypto E K) : Prop := quiet (db s).

Lemma on_db_calm {A} (m : M E A) (Q : A -> E -> Prop) :
  spec quiet m Q quiet -> spec calm (on_db m) (fun a s => Q a (db s)) calm.
Proof. intros H. apply spec_lift. intros s Hs. eapply spec_weaken; [exact H|by intros e ->|done|done]. Qed.

Lemma store_get_calm key : spec calm (tdb_store_get key) (fun _ => calm) calm.
Proof.
  unfold tdb_store_get. apply spec_bind_gets_any. intros cf. apply spec_bind_gets_any. intros g.
  destruct (_ || _); [by apply spec_ret|]. eapply spec_bind; [apply on_db_calm, quiet_begin|].
  intros [rc|t]; [apply spec_ret; by intros s [H _]|].
  eapply spec_bind; [eapply spec_weaken; [apply on_db_calm, quiet_get|by intros s [H _]| |done]|].
  { intros a s H. exact H. }
  intros r. apply (spec_bind _ _ (fun _ => calm)).
  - eapply spec_weaken; [apply on_db_calm, quiet_rollback|by intros s [H _]|done|done].
  - intros ?. by apply spec_ret.
Qed.

Lemma store_put_calm key value : spec calm (tdb_store_put key value) (fun _ => calm) calm.
Proof.
  unfold tdb_store_put. apply spec_bind_gets_any. intros cf. apply spec_bind_gets_any. intros g.
  destruct (_ || _); [by apply spec_ret|]. eapply spec_bind; [apply on_db_calm, quiet_begin|].
  intros [rc|t]; [apply spec_ret; by intros s [H _]|].
  apply (spec_bind _ _ (fun _ => calm)).
  { eapply spec_weaken; [apply on_db_calm, quiet_put|by intros s [H _]|by intros a s [H _]|done]. }
  intros rc. destruct (tdb_ok rc).
  - eapply spec_bind; [apply on_db_calm, quiet_commit|]. intros ?. apply spec_ret. by intros s [H _].
  - apply (spec_bind _ _ (fun _ => calm)); [apply on_db_calm, quiet_rollback|]. intros ?. by apply spec_ret.
Qed.

Lemma resolve_calm : spec calm tdb_master_generation_resolve (fun _ => calm) calm.
Proof.
  unfold tdb_master_generation_resolve. apply spec_bind_gets_any. intros g.
  destruct (negb _); [by apply spec_ret|]. eapply spec_bind; [apply store_get_calm|].
  assert (forall g, spec calm (bind (modify (with_generation g)) (fun _ => gets tdb_master_generation))
            (fun _ => calm) calm) as Hset.
  { intros g'. apply (spec_bind _ _ (fun _ => calm)); intros; [by apply spec_modify|by apply spec_gets]. }
  assert (spec calm
    (bind (tdb_store_put (encode_master_seq_key nonnull) (be32_encode GENERATION_FIRST nonnull))
      (fun ok : bool => if ok then bind (modify (with_generation GENERATION_FIRST))
                                     (fun _ => gets tdb_master_generation)
                        else ret GENERATION_NONE)) (fun _ => calm) calm) as Hseed.
  { eapply spec_bind; [apply store_put_calm|]. intros [|]; [apply Hset|by apply spec_ret]. }
  intros [v|]; [|done]. destruct (_ =? _); [apply Hset|done].
Qed.

(** With quiet reads, a value not found is a value not there. *)
Lemma tdb_store_get_quiet s1 key :
  calm s1 -> tdb_crypto_cf s1 = true -> tdb_global s1 = true -> zlen key <> 0 ->
  spec (fun s => s = s1) (tdb_store_get key)
    (fun r s => same_db s1 s /\
       match r with
       | Some v => key_value key s1 = Some v /\ 0 < zlen v
       | None => key_value key s1 = None \/ key_value key s1 = Some []
       end) (same_db s1).
Proof.
  intros Hq Hcf Hg Hk. unfold tdb_store_get.
  apply spec_bind_gets. intros cf. apply spec_bind_gets. intros g.
  apply (spec_pure _ (cf = true /\ g = true)); [by intros s [[-> <-] <-]|]. intros [-> ->].
  destruct (Z.eqb_spec (zlen key) 0); [done|]. simpl.
  eapply spec_bind.
  { eapply spec_weaken; [apply (spec_conj _ _ _ _ _ _ _ (begin_spec s1) (on_db_calm _ _ quiet_begin))| | |].
    - intros s [[-> _] _]. by split; [apply same_db_refl|].
    - intros a s H. exact H.
    - by intros s [H _]. }
  intros [rc|t].
  { intros s [_ [_ [t Ht]]]. done. }
  eapply (spec_bind _ _ (fun r s => same_db s1 s /\
    match r with inr v => key_value key s1 = Some v | inl _ => key_value key s1 = None end)).
  { intros s [[[L D] Hp] [Hc _]].
    pose proof (on_db_spec _ s1 _ _ _ (txn_get_law (committed (db s1)) [] t TDB_CRYPTO_CF_NAME key)) as H1.
    specialize (H1 s ltac:(by split; [|split])).
    pose proof (on_db_calm _ _ (quiet_get t TDB_CRYPTO_CF_NAME key) s Hc) as H2.
    destruct (on_db (txn_get t TDB_CRYPTO_CF_NAME key) s) as [s' [r|]]; [|done].
    destruct H1 as (L' & (D' & _) & Hr). split; [by split|].
    destruct H2 as [_ [-> |[v ->]]]; done. }
  intros r. apply (spec_bind _ _ (fun _ s => same_db s1 s /\
    match r with inr v => key_value key s1 = Some v | inl _ => key_value key s1 = None end)).
  { apply spec_at. intros s2 [H2 Hr].
    eapply spec_weaken; [apply (rollback_spec s1)|by intros s ->|by intros a s H; split|done]. }
  intros ?. apply spec_ret. intros s [H Hr]. split; [done|].
  destruct r as [rc|v]; [by left|]. destruct (Z.ltb_spec 0 (zlen v)); [done|].
  right. rewrite Hr. destruct v; [done|]. rewrite zlen_cons in *. pose proof (zlen_nonneg v). lia.
Qed.

Lemma read_latest_quiet s1 id :
  calm s1 -> tdb_crypto_cf s1 = true -> tdb_global s1 = true -> well_kept s1 -> 0 <= id < 2 ^ 32 ->
  spec (fun s => s = s1) (read_latest id)
    (fun r s => same_db s1 s /\
       match r with
       | Some v => published id v s1
       | None => key_value (encode_latest_key id nonnull) s1 = None
       end) (same_db s1).
Proof.
  intros Hq Hcf Hg [_ Hw] Hi. unfold read_latest.
  assert (forall b, key_value (encode_latest_key id nonnull) s1 = Some b -> zlen b = 4) as Hlen.
  { intros b Hb. destruct (Hw id b Hi Hb) as (v & (b' & Hb' & Hl & _) & _). congruence. }
  eapply spec_bind; [by apply tdb_store_get_quiet|]. intros r. apply spec_ret. intros s [H Hr].
  split; [done|]. destruct r as [v|].
  - destruct Hr as [Hr _]. pose proof (Hlen v Hr) as Hl. change (Z.of_nat FIELD_LEN) with 4.
    rewrite Hl. simpl. by exists v.
  - destruct Hr as [Hr|Hr]; [done|]. apply Hlen in Hr. done.
Qed.

Lemma keeps_steady s0 s : keeps s0 s -> steady s0 s.
Proof.
  intros (L & Hk & F & P). split_and!; [done..|]. intros id v ver p Hi _ Hv Hv' Hr. apply Hk; [done|lia|done].
Qed.

Lemma custody_from s0 s1 s : well_kept s0 -> steady s0 s1 -> custody s1 s -> custody s0 s.
Proof.
  intros Hw H1 [A B]. split; [done|]. eapply published_kept_trans; [|exact B].
  by apply steady_custody.
Qed.

Lemma available_cf (s : crypto E K) : tdb_crypto_available s = true -> tdb_crypto_cf s = true.
Proof.
  unfold tdb_crypto_available. intros H. by apply andb_true_iff in H as [[_ H]%andb_true_iff _].
Qed.

(** Advancing a key whose pointer has been read at [s1]. *)
Lemma advance_custody s1 id g r bad good :
  well_kept s1 -> 0 <= g < 2 ^ 32 -> 0 <= id < 2 ^ 32 ->
  published id r s1 -> r < TIDESDB_MAX_ENCRYPTION_KEY_VERSIONS ->
  spec (same_db s1) (store_table_key id (u32 (r + 1)) g bad good) (fun _ => custody s1) (custody s1).
Proof.
  unfold TIDESDB_MAX_ENCRYPTION_KEY_VERSIONS. intros Hw Hg Hi Hp Hr.
  assert (1 <= r) as Hr1.
  { pose proof Hp as (b & Hb & Hl & Hd). destruct (proj2 Hw id b Hi Hb) as (v & Hpv & Hv & _).
    assert (r = v) as -> by (by eapply published_fun). lia. }
  assert (u32 (r + 1) = r + 1) as -> by (apply Z.mod_small; lia).
  eapply spec_weaken; [apply (store_table_key_custody s1)|by apply same_db_steady|done|done]; try done.
  - unfold TIDESDB_MAX_ENCRYPTION_KEY_VERSIONS. lia.
  - intros v0 H. f_equal. by eapply published_fun.
  - intros H. exfalso. by eapply H.
Qed.

Lemma rotate_table_key_custody s0 id :
  well_kept s0 -> calm s0 -> tdb_global s0 = true -> 0 <= tdb_master_generation s0 < 2 ^ 32 ->
  spec (fun s => s = s0) (tdb_crypto_rotate_table_key id) (fun _ => custody s0) (custody s0).
Proof.
  intros Hw Hq Hg Hgen.
  assert (forall s, steady s0 s -> custody s0 s) as Hc by (intros s; by apply steady_custody).
  assert (custody s0 s0) as Hc0 by apply Hc, steady_refl.
  unfold tdb_crypto_rotate_table_key. apply spec_bind_gets. intros av.
  destruct av; simpl; [|apply spec_ret; by intros s [-> _]].
  apply (spec_pure _ (tdb_crypto_cf s0 = true)); [by intros s [-> Ha]; apply available_cf|].
  intros Hcf. unfold TIDESDB_MAX_ENCRYPTION_KEY_ID.
  destruct (Z.ltb_spec id 1), (Z.ltb_spec 255 id); simpl; try (apply spec_ret; by intros s [-> _]).
  eapply spec_bind.
  { eapply spec_weaken;
      [apply (spec_conj _ _ _ _ _ _ _ (resolve_range s0 Hgen (proj1 Hw)) resolve_calm)|..].
    - intros s [-> _]. split; [apply steady_refl|done].
    - intros a s H'. exact H'.
    - intros s [H' _]. auto. }
  intros g. apply (spec_pure _ (0 <= g < 2 ^ 32)); [by intros s [[_ H'] _]|]. intros Hgr.
  destruct (_ =? _); [apply spec_ret; intros s [[H' _] _]; auto|].
  apply spec_at. intros s1 [[H1 _] Hq1].
  assert (well_kept s1) as Hw1 by (by apply Hc).
  assert (later s0 s1) as (_ & _ & [Hcf1 Hg1] & Hgen1) by apply H1.
  eapply spec_bind; [eapply spec_crash; [apply (read_latest_quiet s1 id); try done; try congruence; lia|]|].
  { intros s H'. apply Hc. by eapply steady_stable. }
  assert (forall s, custody s1 s -> custody s0 s) as H10 by (intros s; by apply custody_from).
  intros [cur|].
  - destruct (Z.leb_spec TIDESDB_MAX_ENCRYPTION_KEY_VERSIONS cur).
    { apply spec_ret. intros s [H' _]. apply Hc. by eapply steady_stable. }
    apply (spec_pure _ (published id cur s1)); [by intros s [_ H']|]. intros Hpub.
    eapply spec_weaken; [by apply (advance_custody s1 id g cur); try lia|by intros s [H' _]|auto|auto].
  - apply (spec_pure _ (key_value (encode_latest_key id nonnull) s1 = None)); [by intros s [_ H']|].
    intros Hnone. apply (spec_bind _ _ (fun _ => custody s0)); [|intros v; by apply spec_ret].
    eapply spec_weaken; [apply (mint_custody s1 id); try done; try lia; auto| |auto|auto].
    intros s [H' _]. by apply same_db_steady.
Qed.

Lemma latest_key_version_custody s0 id :
  well_kept s0 -> calm s0 -> tdb_global s0 = true -> 0 <= tdb_master_generation s0 < 2 ^ 32 ->
  0 <= id < 2 ^ 32 ->
  spec (fun s => s = s0) (tdb_crypto_latest_key_version id)
    (fun v s => custody s0 s /\ (forall v0, published id v0 s0 -> tdb_crypto_available s0 = true -> v = v0))
    (custody s0).
Proof.
  intros Hw Hq Hg Hgen Hi.
  assert (forall s, same_db s0 s -> custody s0 s) as Hc
    by (intros s H; apply steady_custody; [done|by apply same_db_steady]).
  unfold tdb_crypto_latest_key_version. apply spec_bind_gets. intros av.
  destruct av; simpl.
  2: { apply spec_ret. intros s [-> Ha]. split; [apply Hc, same_db_refl|]. congruence. }
  apply (spec_pure _ (tdb_crypto_cf s0 = true)); [by intros s [-> Ha]; apply available_cf|]. intros Hcf.
  eapply spec_bind.
  { eapply spec_weaken; [apply (read_latest_quiet s0 id); done|by intros s [-> _]| |exact Hc].
    intros a s H. exact H. }
  intros [v|].
  - apply spec_ret. intros s [H Hp]. split; [auto|]. intros v0 Hv0 _. by eapply published_fun.
  - apply (spec_pure _ (key_value (encode_latest_key id nonnull) s0 = None)); [by intros s [_ H']|].
    intros Hnone. eapply spec_weaken; [apply (mint_custody s0 id); done|..].
    + intros s [H _]. by apply same_db_steady.
    + intros v s H. split; [done|]. intros v0 (b & Hb & _). congruence.
    + done.
Qed.

Lemma get_key_steady s0 id ver klen :
  spec (steady s0) (tdb_crypto_get_key id ver klen) (fun _ => steady s0) (steady s0).
Proof.
  unfold tdb_crypto_get_key. apply spec_bind_gets_any. intros [|]; simpl; [|by apply spec_ret].
  eapply spec_bind; [apply get_stable, steady_stable|]. intros [st|]; [|by apply spec_ret].
  apply (spec_bind _ _ (fun _ => steady s0)); [|intros; by apply spec_ret].
  eapply stable_step; [apply steady_stable|intros s1; apply (tdb_table_key_unwrap_spec s1 st)|by intros s1 a s [H _]].
Qed.

(** The module's entry points, as a client calls them. *)
Inductive call :=
  | LatestVersion (key_id : Z)
  | GetKey (key_id key_version klen : Z)
  | RotateTable (key_id : Z)
  | RotateMaster.

Definition run (c : call) : M (crypto E K) unit :=
  match c with
  | LatestVersion id => tdb_crypto_latest_key_version id;; ret tt
  | GetKey id ver klen => tdb_crypto_get_key id ver klen;; ret tt
  | RotateTable id => tdb_crypto_rotate_table_key id;; ret tt
  | RotateMaster => tdb_crypto_rotate_master_key;; ret tt
  end.

Definition call_ok (c : call) : Prop :=
  match c with LatestVersion id => 0 <= id < 2 ^ 32 | _ => True end.

Lemma run_custody s0 c :
  call_ok c -> well_kept s0 -> calm s0 -> tdb_global s0 = true ->
  0 <= tdb_master_generation s0 < 2 ^ 32 ->
  spec (fun s => s = s0) (run c) (fun _ => custody s0) (custody s0).
Proof.
  intros Hok Hw Hq Hg Hgen. destruct c; apply (spec_bind _ _ (fun _ => custody s0));
    try (intros; by apply spec_ret).
  - eapply spec_weaken; [by apply (latest_key_version_custody s0)|done|by intros a s [H _]|done].
  - eapply spec_weaken; [apply (get_key_steady s0)|intros s ->; apply steady_refl|..];
      intros; by apply steady_custody.
  - by apply rotate_table_key_custody.
  - eapply spec_weaken; [apply (rotate_master_keeps s0), Hw|done|..];
      intros; by apply steady_custody, keeps_steady.
Qed.

(** ** Properties *)

(** C11: Rotating the master key never costs a table key.  Whatever the storage library and the
    keyring do - answer, fail, or take the server down between any two calls - every version of
    every table key that could be recovered before the rotation is recovered afterwards, with the
    same plaintext; only AES decryption inverting encryption and the keyring not dropping keys are
    relied on. *)
Theorem master_rotation_keeps_keys s0 s r id ver p :
  family_open s0 -> 0 <= id < 2 ^ 32 -> 0 <= ver < 2 ^ 32 -> readable id ver p s0 ->
  tdb_crypto_rotate_master_key s0 = (s, r) -> readable id ver p s.
Proof.
  intros Ho Hi Hv Hr E0. pose proof (rotate_master_keeps s0 Ho s0 eq_refl) as H. rewrite E0 in H.
  destruct r; by apply H.
Qed.

(** C12: Version pointers never dangle and published keys are never lost.  From a store in which every
    version up to each key's pointer is recoverable, and with a library that reports no failure
    ([calm]; the server may still die inside a call), any entry point - reading the version, fetching a
    key, rotating a table key, rotating the master key - leaves such a store again, in which every
    published version is recoverable with the plaintext it had and no pointer has gone back; also when
    the server dies halfway.  With a read that fails it is not so: the code takes the failure for a
    missing key and mints a new one over it ([read_error_overwrites_key]). *)
Theorem published_keys_survive s0 s r c :
  call_ok c -> well_kept s0 -> calm s0 -> tdb_global s0 = true ->
  0 <= tdb_master_generation s0 < 2 ^ 32 -> run c s0 = (s, r) ->
  well_kept s /\ published_kept s0 s.
Proof.
  intros Hok Hw Hq Hg Hgen E0. pose proof (run_custody s0 c Hok Hw Hq Hg Hgen s0 eq_refl) as H.
  rewrite E0 in H. by destruct r.
Qed.
End code.

(** ** Witnesses *)

(** A toy cipher that meets the AES hypotheses: exclusive-or with the key's first byte. *)
Definition toy_cipher (src key : bytes) (m : opmode) (iv : option bytes) (padding : bool) : option bytes :=
  if zlen src <? 2 ^ 31 then Some (map (Z.lxor (hd 0 key)) src) else None.

Lemma toy_cipher_roundtrip p k c m iv pad :
  toy_cipher p k m iv pad = Some c -> zlen c < 2 ^ 31 /\ toy_cipher c k m iv pad = Some p.
Proof.
  unfold toy_cipher. destruct (Z.ltb_spec (zlen p) (2 ^ 31)) as [H|]; [|done]. intros [= <-].
  assert (zlen (map (Z.lxor (hd 0 k)) p) = zlen p) as El by (unfold zlen; by rewrite length_map).
  rewrite El. split; [done|]. destruct (Z.ltb_spec (zlen p) (2 ^ 31)); [|lia]. f_equal.
  rewrite map_map. rewrite <- (map_id p) at 2. apply map_ext. intros a.
  by rewrite <- Z.lxor_assoc, Z.lxor_nilpotent, Z.lxor_0_l.
Qed.

Lemma toy_cipher_bound p k c m iv pad : toy_cipher c k m iv pad = Some p -> zlen p < 2 ^ 31.
Proof. intros H. by apply toy_cipher_roundtrip in H as [H _]. Qed.

(** A server with an empty key store, and the same server once key 1 has its first version. *)
Definition fresh : crypto mem_db mem_keyring :=
  {| db := {| mem := {[ TDB_CRYPTO_CF_NAME := ∅ ]}; buf := []; script := [] |};
     kr := {| keys := ∅; minted := 7 |}; tdb_master_generation := 0;
     tdb_server_uuid := bs "u"; tdb_global := true; tdb_crypto_cf := true;
     tdb_keyring_reader := true; tdb_keyring_generator := true |}.
Definition with_script (fs : list fate) (s : crypto mem_db mem_keyring) : crypto mem_db mem_keyring :=
  with_db {| mem := mem (db s); buf := buf (db s); script := fs |} s.
Definition one_key : crypto mem_db mem_keyring :=
  (tdb_crypto_latest_key_version toy_cipher 1 fresh).1.
Definition key_one : bytes := replicate 32 7.

Lemma one_key_readable : readable toy_cipher 1 1 key_one one_key.
Proof.
  eexists. split; [vm_compute; reflexivity|]. split; [vm_compute; reflexivity|].
  eexists. split; [vm_compute; reflexivity|]. split; vm_compute; reflexivity.
Qed.

Lemma with_script_readable fs s id ver p :
  readable toy_cipher id ver p s -> readable toy_cipher id ver p (with_script fs s).
Proof. exact (fun H => H). Qed.

Lemma master_rotation_keeps_keys_witness :
  let s0 := with_script [works; works; works; works; works; works; crash_before] one_key in
  (tdb_crypto_rotate_master_key toy_cipher toy_cipher s0).2 = Crash /\
  readable toy_cipher 1 1 key_one (tdb_crypto_rotate_master_key toy_cipher toy_cipher s0).1.
Proof.
  intros s0. split; [vm_compute; reflexivity|].
  apply (master_rotation_keeps_keys toy_cipher toy_cipher
           (fun p k c => toy_cipher_roundtrip p k c _ _ _) (fun p k c => toy_cipher_bound p k c _ _ _)
           s0 _ (tdb_crypto_rotate_master_key toy_cipher toy_cipher s0).2 1 1 key_one).
  - exists (default ∅ (mem (db s0) !! TDB_CRYPTO_CF_NAME)). vm_compute. reflexivity.
  - lia.
  - lia.
  - apply with_script_readable, one_key_readable.
  - by destruct (tdb_crypto_rotate_master_key toy_cipher toy_cipher s0).
Defined.

Lemma fresh_well_kept : well_kept toy_cipher fresh.
Proof.
  split; [by exists ∅|]. intros id b _ Hb. unfold key_value, db_get in Hb. simpl in Hb.
  rewrite lookup_singleton_eq in Hb. simpl in Hb. by rewrite lookup_empty in Hb.
Qed.

Lemma with_script_well_kept fs s : well_kept toy_cipher s -> well_kept toy_cipher (with_script fs s).
Proof. exact (fun H => H). Qed.

Lemma one_key_well_kept fs : well_kept toy_cipher (with_script fs one_key).
Proof.
  apply with_script_well_kept.
  pose proof (latest_key_version_custody toy_cipher toy_cipher
    (fun p k c => toy_cipher_roundtrip p k c _ _ _) fresh 1 fresh_well_kept) as Hc.
  specialize (Hc ltac:(constructor) eq_refl ltac:(simpl; lia) ltac:(lia) fresh eq_refl).
  unfold one_key. destruct (tdb_crypto_latest_key_version toy_cipher 1 fresh) as [s [v|]]; simpl.
  - apply Hc.
  - apply Hc.
Qed.

Lemma published_keys_survive_witness :
  let s0 := with_script [works; works; works; works; works; works; crash_after] one_key in
  (run toy_cipher toy_cipher (RotateTable 1) s0).2 = Crash /\
  well_kept toy_cipher (run toy_cipher toy_cipher (RotateTable 1) s0).1 /\
  published_kept toy_cipher s0 (run toy_cipher toy_cipher (RotateTable 1) s0).1.
Proof.
  intros s0. split; [vm_compute; reflexivity|].
  apply (published_keys_survive toy_cipher toy_cipher
           (fun p k c => toy_cipher_roundtrip p k c _ _ _) (fun p k c => toy_cipher_bound p k c _ _ _)
           s0 _ (run toy_cipher toy_cipher (RotateTable 1) s0).2 (RotateTable 1)).
  - exact I.
  - apply one_key_well_kept.
  - change (Forall dies_or_works [works; works; works; works; works; works; crash_after]).
    repeat (apply Forall_cons; split; [unfold dies_or_works; auto|]). apply Forall_nil_2.
  - reflexivity.
  - vm_compute. split; [discriminate|reflexivity].
  - by destruct (run toy_cipher toy_cipher (RotateTable 1) s0).
Defined.

(** A read error is taken for an absent key.  When the library fails to open the transaction that
    reads key 1's version pointer, [tdb_crypto_latest_key_version] mints the key afresh over its
    stored version 1: the call succeeds, and the plaintext the table's rows were encrypted with can
    no longer be recovered. *)
Lemma read_error_overwrites_key :
  let s0 := with_script [fails] one_key in
  readable toy_cipher 1 1 key_one s0 /\
  (tdb_crypto_latest_key_version toy_cipher 1 s0).2 = Ret GENERATION_FIRST /\
  ~ readable toy_cipher 1 1 key_one (tdb_crypto_latest_key_version toy_cipher 1 s0).1.
Proof.
  intros s0. split; [apply with_script_readable, one_key_readable|]. split; [vm_compute; reflexivity|].
  set (s := (tdb_crypto_latest_key_version toy_cipher 1 s0).1). intros (st & Hst & _ & m & Hm & Hd & _).
  vm_compute in Hst. injection Hst as <-. vm_compute in Hm. injection Hm as <-.
  vm_compute in Hd. discriminate Hd.
Qed.
End Keyring.
