(* ===== verification/FkCatalog.v ===== *)
(** * The foreign-key catalog ([src/handler/ha_tidesdb_fk.cc])

    One internal column family holds every foreign-key constraint twice: under a key that starts with
    the referencing table's family and under one that starts with the referenced table's.  This file
    models the record format, the two keys, the index helpers, and the operations that write, purge and
    rename the catalog, against the storage interface.  Strings handed to C-string APIs hold no NUL. *)
From S2P Require Import Prelude Effects TidesDb CfName.
#[local] Open Scope Z_scope.
#[local] Open Scope tdb_scope.

Module FkCatalog.

Definition FK_CATALOG_CF : bytes := bs "__tidesdb_fk_catalog".
Definition FK_REC_CHILD : Z := 99.
Definition FK_REC_PARENT : Z := 112.
Definition FK_SER_VERSION : Z := 2.
Definition HA_ERR_GENERIC : Z := 168.

(** ** Record format *)

(** The two bytes of a [uint16], low first. *)
Definition put_u16 (n : Z) : bytes := [u8 (Z.land n 255); u8 (Z.land (Z.shiftr n 8) 255)].

Definition get_u16 (p : bytes) : option (Z * bytes) :=
  match p with
  | a :: b :: p => Some (u16 (Z.lor a (Z.shiftl b 8)), p)
  | _ => None
  end.

Definition fk_put_str (s : bytes) : bytes := put_u16 (u16 (zlen s)) ++ s.

Definition fk_get_str (p : bytes) : option (bytes * bytes) :=
  match get_u16 p with
  | None => None
  | Some (n, p) =>
      if zlen p <? n then None else Some (take (Z.to_nat n) p, drop (Z.to_nat n) p)
  end.

Definition fk_put_names (v : list bytes) : bytes :=
  put_u16 (u16 (zlen v)) ++ concat (map fk_put_str v).

Fixpoint get_names_loop (n : nat) (p : bytes) : option (list bytes * bytes) :=
  match n with
  | O => Some ([], p)
  | S n =>
      match fk_get_str p with
      | None => None
      | Some (s, p) =>
          match get_names_loop n p with
          | None => None
          | Some (v, p) => Some (s :: v, p)
          end
      end
  end.

Definition fk_get_names (p : bytes) : option (list bytes * bytes) :=
  match get_u16 p with
  | None => None
  | Some (n, p) => get_names_loop (Z.to_nat n) p
  end.

(** A length-prefixed run of flag bytes. *)
Definition put_flags (v : bytes) : bytes := put_u16 (u16 (zlen v)) ++ v.
Definition get_flags (p : bytes) : option (bytes * bytes) := fk_get_str p.

Record fk_catalog_entry := {
  name : bytes;
  child_cf : bytes;
  child_db : bytes;
  child_table : bytes;
  child_columns : list bytes;
  child_nullable : bytes;
  ref_db : bytes;
  ref_table : bytes;
  parent_cf : bytes;
  ref_columns : list bytes;
  child_index_name : bytes;
  parent_index_name : bytes;
  parent_nullable : bytes;
  parent_is_pk : Z;
  on_delete : Z;
  on_update : Z }.

Definition fk_serialize (e : fk_catalog_entry) : bytes :=
  [FK_SER_VERSION] ++ fk_put_str (name e) ++ fk_put_str (child_cf e) ++ fk_put_str (child_db e)
  ++ fk_put_str (child_table e) ++ fk_put_names (child_columns e) ++ fk_put_str (ref_db e)
  ++ fk_put_str (ref_table e) ++ fk_put_str (parent_cf e) ++ fk_put_names (ref_columns e)
  ++ fk_put_str (child_index_name e) ++ fk_put_str (parent_index_name e)
  ++ [u8 (parent_is_pk e); u8 (on_delete e); u8 (on_update e)]
  ++ put_flags (child_nullable e) ++ put_flags (parent_nullable e).

Definition obind {A B} (o : option A) (f : A -> option B) : option B :=
  match o with Some a => f a | None => None end.

Definition fk_deserialize (data : bytes) : option fk_catalog_entry :=
  match data with
  | [] => None
  | ver :: p =>
      if negb (ver =? FK_SER_VERSION) then None else
      obind (fk_get_str p) (fun '(nm, p) =>
      obind (fk_get_str p) (fun '(ccf, p) =>
      obind (fk_get_str p) (fun '(cdb, p) =>
      obind (fk_get_str p) (fun '(ctb, p) =>
      obind (fk_get_names p) (fun '(ccols, p) =>
      obind (fk_get_str p) (fun '(rdb, p) =>
      obind (fk_get_str p) (fun '(rtb, p) =>
      obind (fk_get_str p) (fun '(pcf, p) =>
      obind (fk_get_names p) (fun '(rcols, p) =>
      obind (fk_get_str p) (fun '(cidx, p) =>
      obind (fk_get_str p) (fun '(pidx, p) =>
      match p with
      | pk :: del :: upd :: p =>
          obind (get_flags p) (fun '(cn, p) =>
          obind (get_flags p) (fun '(pn, _) =>
          Some {| name := nm; child_cf := ccf; child_db := cdb; child_table := ctb;
                  child_columns := ccols; child_nullable := cn; ref_db := rdb; ref_table := rtb;
                  parent_cf := pcf; ref_columns := rcols; child_index_name := cidx;
                  parent_index_name := pidx; parent_nullable := pn; parent_is_pk := pk;
                  on_delete := del; on_update := upd |}))
      | _ => None
      end)))))))))))
  end.

(** ** Record keys *)

Definition fk_child_key (child_cf name : bytes) : bytes := FK_REC_CHILD :: child_cf ++ 0 :: name.

Definition fk_parent_key (parent_cf child_cf name : bytes) : bytes :=
  FK_REC_PARENT :: parent_cf ++ 0 :: child_cf ++ 0 :: name.

(** ** Helpers over the server's table definition *)

Record key_def := { key_name : bytes; key_parts : list bytes }.
Record table_def := { field_names : list bytes; table_keys : list key_def }.

Fixpoint leading (cols parts : list bytes) : bool :=
  match cols, parts with
  | [], _ => true
  | c :: cols, p :: parts => bool_decide (p = c) && leading cols parts
  | _ :: _, [] => false
  end.

Fixpoint index_from {A} (f : A -> bool) (l : list A) (i : Z) : Z :=
  match l with
  | [] => -1
  | x :: l => if f x then i else index_from f l (i + 1)
  end.

(** The index whose leading parts are exactly these columns in order, or -1. *)
Definition fk_find_covering_index (t : table_def) (cols : list bytes) : Z :=
  index_from (fun k => leading cols (key_parts k)) (table_keys t) 0.

Definition fk_field_index (t : table_def) (col : bytes) : Z :=
  index_from (fun n => bool_decide (n = col)) (field_names t) 0.

(** ** Operations on the catalog *)

Section code.
Context {E T : Type} `{!TidesDb E T} `{!FamilyDb E T}.
Local Open Scope eff_scope.

(** The catalog family, created on first use. *)
Definition fk_catalog_cf : M E bool :=
  cf <-- get_cf FK_CATALOG_CF;
  if cf then ret true
  else
    rc <-- create_cf FK_CATALOG_CF;
    if negb (tdb_ok rc) then get_cf FK_CATALOG_CF else get_cf FK_CATALOG_CF.

(** The entries an iterator's walk could read. *)
Definition walked (r : tdb_rc + list (answer * answer)) : list (bytes * bytes) :=
  match r with
  | inl _ => []
  | inr l => omap (fun x => match x with (inr k, inr v) => Some (k, v) | _ => None end) l
  end.

Definition names_cf (cfn : bytes) (e : fk_catalog_entry) : bool :=
  bool_decide (child_cf e = cfn) || bool_decide (parent_cf e = cfn).

Definition purge_keys (cfn : bytes) (l : list (bytes * bytes)) : list bytes :=
  omap (fun '(k, v) =>
    match fk_deserialize v with
    | Some e => if names_cf cfn e then Some k else None
    | None => None
    end) l.

(** The loops whose calls' answers the source does not look at. *)
Fixpoint delete_all (t : T) (ks : list bytes) : M E unit :=
  match ks with
  | [] => ret tt
  | k :: ks => txn_delete t FK_CATALOG_CF k;; delete_all t ks
  end.
Fixpoint put_all (t : T) (kvs : list (bytes * bytes)) : M E unit :=
  match kvs with
  | [] => ret tt
  | (k, v) :: kvs => txn_put t FK_CATALOG_CF k v;; put_all t kvs
  end.

Definition fk_purge_catalog (cfn : bytes) : M E Z :=
  cf <-- get_cf FK_CATALOG_CF;
  if negb cf then ret 0
  else
    t <-- txn_begin;
    match t with
    | inl _ => ret 0
    | inr t =>
        l <-- scan t FK_CATALOG_CF;
        delete_all t (purge_keys cfn (walked l));;
        rc <-- txn_commit t;
        if tdb_ok rc then ret 0 else txn_rollback t;; ret 0
    end.

(** A record after the rename: a self-reference names the table on both sides. *)
Definition rename_entry (old_cf new_cf new_db new_table : bytes) (e : fk_catalog_entry) : fk_catalog_entry :=
  let c := bool_decide (child_cf e = old_cf) in
  let p := bool_decide (parent_cf e = old_cf) in
  {| name := name e;
     child_cf := if c then new_cf else child_cf e;
     child_db := if c then new_db else child_db e;
     child_table := if c then new_table else child_table e;
     child_columns := child_columns e; child_nullable := child_nullable e;
     ref_db := if p then new_db else ref_db e;
     ref_table := if p then new_table else ref_table e;
     parent_cf := if p then new_cf else parent_cf e;
     ref_columns := ref_columns e; child_index_name := child_index_name e;
     parent_index_name := parent_index_name e; parent_nullable := parent_nullable e;
     parent_is_pk := parent_is_pk e; on_delete := on_delete e; on_update := on_update e |}.

(** The child-side records that name the table. *)
Definition moved_entries (old_cf : bytes) (l : list (bytes * bytes)) : list fk_catalog_entry :=
  omap (fun '(k, v) =>
    match k with
    | c :: _ =>
        if c =? FK_REC_CHILD then
          match fk_deserialize v with
          | Some e => if names_cf old_cf e then Some e else None
          | None => None
          end
        else None
    | [] => None
    end) l.

Definition both_keys (e : fk_catalog_entry) : list bytes :=
  [fk_child_key (child_cf e) (name e); fk_parent_key (parent_cf e) (child_cf e) (name e)].
Definition both_records (e : fk_catalog_entry) : list (bytes * bytes) :=
  map (fun k => (k, fk_serialize e)) (both_keys e).

(** [filename_to_tablename] belongs to the server. *)
Definition fk_rename_catalog (filename_to_tablename : bytes -> bytes) (from to : bytes) : M E Z :=
  let old_cf := CfName.to_cf_name from in
  let new_cf := CfName.to_cf_name to in
  if bool_decide (old_cf = new_cf) then ret 0
  else
    cf <-- get_cf FK_CATALOG_CF;
    if negb cf then ret 0
    else
      let dest := CfName.split_table_path to in
      let new_db := filename_to_tablename (CfName.db dest) in
      let new_table := filename_to_tablename (CfName.table dest) in
      t <-- txn_begin;
      match t with
      | inl _ => ret 0
      | inr t =>
          l <-- scan t FK_CATALOG_CF;
          let moved := moved_entries old_cf (walked l) in
          delete_all t (concat (map both_keys moved));;
          put_all t (concat (map (fun e => both_records (rename_entry old_cf new_cf new_db new_table e)) moved));;
          rc <-- txn_commit t;
          if tdb_ok rc then ret 0 else txn_rollback t;; ret HA_ERR_GENERIC
      end.

(** The end of [fk_persist_defs]: both records of every constraint, all or none. *)
Fixpoint put_checked (t : T) (kvs : list (bytes * bytes)) : M E bool :=
  match kvs with
  | [] => ret true
  | (k, v) :: kvs =>
      rc <-- txn_put t FK_CATALOG_CF k v;
      if tdb_ok rc then put_checked t kvs else txn_rollback t;; ret false
  end.

Definition fk_persist_records (entries : list fk_catalog_entry) : M E Z :=
  match concat (map both_records entries) with
  | [] => ret 0
  | records =>
      cf <-- fk_catalog_cf;
      if negb cf then ret HA_ERR_GENERIC
      else
        t <-- txn_begin;
        match t with
        | inl _ => ret HA_ERR_GENERIC
        | inr t =>
            ok <-- put_checked t records;
            if negb ok then ret HA_ERR_GENERIC
            else rc <-- txn_commit t; ret (if tdb_ok rc then 0 else HA_ERR_GENERIC)
        end
  end.

End code.

(** ** What the theorems speak of *)

(** A constraint the format can carry. *)
Definition str_fits (s : bytes) : Prop := zlen s < 2 ^ 16.
Definition byte_ok (b : Z) : Prop := 0 <= b < 256.
Definition fits (e : fk_catalog_entry) : Prop :=
  Forall str_fits [name e; child_cf e; child_db e; child_table e; ref_db e; ref_table e; parent_cf e;
                   child_index_name e; parent_index_name e; child_nullable e; parent_nullable e] /\
  (zlen (child_columns e) < 2 ^ 16 /\ Forall str_fits (child_columns e)) /\
  (zlen (ref_columns e) < 2 ^ 16 /\ Forall str_fits (ref_columns e)) /\
  byte_ok (parent_is_pk e) /\ byte_ok (on_delete e) /\ byte_ok (on_update e).

(** The catalog in [d] holds exactly the constraints [C], each under both of its keys. *)
Definition represents (C : list fk_catalog_entry) (d : store) : Prop :=
  Forall fits C /\ is_Some (d !! FK_CATALOG_CF) /\
  forall k v, db_get FK_CATALOG_CF k d = Some v <->
    exists e, e ∈ C /\ v = fk_serialize e /\ k ∈ both_keys e.

(** Names as the server gives them: no NUL, so that the record keys can be taken apart. *)
Definition no_nul (s : bytes) : Prop := 0 ∉ s.
Definition keyed (C : list fk_catalog_entry) : Prop :=
  Forall (fun e => no_nul (name e) /\ no_nul (child_cf e) /\ no_nul (parent_cf e)) C /\
  forall e e', e ∈ C -> e' ∈ C -> child_cf e = child_cf e' -> name e = name e' -> e = e'.

(** Every other family is as it was. *)
Definition others_same (cf : bytes) (d d' : store) : Prop := forall cf', cf' <> cf -> d' !! cf' = d !! cf'.

(** ** Lemmas *)

Lemma get_put_u16 n p : 0 <= n < 2 ^ 16 -> get_u16 (put_u16 n ++ p) = Some (n, p).
Proof.
  intros Hn. unfold put_u16, get_u16. cbn [app]. f_equal. f_equal.
  assert (forall z, u8 (Z.land z 255) = u8 z) as Hm.
  { intros z. unfold u8. change 255 with (Z.ones 8). rewrite Z.land_ones by lia. by rewrite Z.mod_mod by lia. }
  rewrite !Hm. unfold u8, u16. rewrite Z.shiftr_div_pow2, Z.shiftl_mul_pow2 by lia.
  pose proof (Z.mod_pos_bound n (2 ^ 8) ltac:(lia)).
  rewrite Z.lor_comm, (lor_low_high 8 (n `mod` 2 ^ 8)) by lia.
  rewrite (Z.mod_small (n / 2 ^ 8)) by (split; [apply Z.div_pos; lia|apply Z.div_lt_upper_bound; lia]).
  pose proof (Z.div_mod n (2 ^ 8) ltac:(lia)).
  rewrite Z.mod_small by lia. lia.
Qed.

Lemma u16_small n : 0 <= n < 2 ^ 16 -> u16 n = n.
Proof. intros. by apply Z.mod_small. Qed.

Lemma fk_get_put_str s p : str_fits s -> fk_get_str (fk_put_str s ++ p) = Some (s, p).
Proof.
  intros Hs. unfold str_fits in Hs. pose proof (zlen_nonneg s). unfold fk_put_str, fk_get_str.
  rewrite u16_small, <- app_assoc, get_put_u16 by lia. rewrite zlen_app.
  pose proof (zlen_nonneg p). case_test; [lia|]. unfold zlen. rewrite Nat2Z.id.
  by rewrite take_app_exact, drop_app_exact.
Qed.

Lemma get_names_loop_put v p :
  Forall str_fits v -> get_names_loop (length v) (concat (map fk_put_str v) ++ p) = Some (v, p).
Proof.
  induction 1 as [|s v Hs _ IH]; [done|]. cbn [length map concat get_names_loop].
  by rewrite <- app_assoc, fk_get_put_str, IH.
Qed.

Lemma get_put_names v p :
  zlen v < 2 ^ 16 -> Forall str_fits v -> fk_get_names (fk_put_names v ++ p) = Some (v, p).
Proof.
  intros Hl Hv. pose proof (zlen_nonneg v). unfold fk_put_names, fk_get_names.
  rewrite u16_small, <- app_assoc, get_put_u16 by lia. unfold zlen. rewrite Nat2Z.id.
  by apply get_names_loop_put.
Qed.

Lemma get_put_flags s p : str_fits s -> get_flags (put_flags s ++ p) = Some (s, p).
Proof. apply fk_get_put_str. Qed.

Lemma fk_deserialize_serialize e rest :
  fits e -> fk_deserialize (fk_serialize e ++ rest) = Some e.
Proof.
  intros (Hs & [Hc1 Hc2] & [Hr1 Hr2] & Hpk & Hd & Hu). rewrite !Forall_cons in Hs.
  destruct Hs as (H1 & H2 & H3 & H4 & H5 & H6 & H7 & H8 & H9 & H10 & H11 & _).
  unfold fk_serialize. rewrite <- !app_assoc.
  change ([FK_SER_VERSION] ++ ?l) with (FK_SER_VERSION :: l). unfold fk_deserialize.
  change (negb (FK_SER_VERSION =? FK_SER_VERSION)) with false. cbv iota.
  repeat (first [rewrite fk_get_put_str by done|rewrite get_put_names by done]; unfold obind; cbv beta iota).
  change ([u8 (parent_is_pk e); u8 (on_delete e); u8 (on_update e)] ++ ?l)
    with (u8 (parent_is_pk e) :: u8 (on_delete e) :: u8 (on_update e) :: l). cbv iota.
  rewrite get_put_flags by done. cbv beta iota. rewrite get_put_flags by done. cbv beta iota.
  rewrite !u8_id by done. by destruct e.
Qed.

Lemma fk_serialize_inj e e' : fits e -> fits e' -> fk_serialize e = fk_serialize e' -> e = e'.
Proof.
  intros He He' E0. pose proof (fk_deserialize_serialize e [] He) as H1.
  pose proof (fk_deserialize_serialize e' [] He') as H2. rewrite E0 in H1. congruence.
Qed.

(** *** The write loops *)

Section loops.
Context {E T : Type} `{!TidesDb E T} `{!FamilyDb E T} `{!QuietDb E T} `{!QuietFamilies E T}.

(** What the library promises of one transaction over contents [d] with write set [ws]. *)
Definition in_txn (d : store) (t : T) (ws : list write) (e : E) : Prop :=
  quiet e /\ committed e = d /\ pending e t = ws.

Lemma delete_quiet d t ws cf k :
  spec (in_txn d t ws) (txn_delete t cf k) (fun _ => in_txn d t (ws ++ [W_delete cf k]))
    (fun e => committed e = d).
Proof.
  eapply spec_weaken;
    [exact (spec_conj _ _ _ _ _ _ _ (quiet_delete t cf k) (txn_delete_law d ws t cf k))|done| |by intros e [_ H]].
  by intros rc e [[Hq ->] [H1 H2]].
Qed.

Lemma put_quiet d t ws cf k v :
  spec (in_txn d t ws) (txn_put t cf k v)
    (fun rc e => rc = TDB_SUCCESS /\ in_txn d t (ws ++ [W_put cf k v]) e) (fun e => committed e = d).
Proof.
  eapply spec_weaken;
    [exact (spec_conj _ _ _ _ _ _ _ (quiet_put t cf k v) (txn_put_law d ws t cf k v))|done| |by intros e [_ H]].
  by intros rc e [[Hq ->] [H1 H2]].
Qed.

Lemma commit_quiet d t ws :
  spec (in_txn d t ws) (txn_commit t)
    (fun rc e => rc = TDB_SUCCESS /\ quiet e /\ committed e = apply_writes ws d)
    (fun e => committed e = d \/ committed e = apply_writes ws d).
Proof.
  eapply spec_weaken;
    [exact (spec_conj _ _ _ _ _ _ _ (quiet_commit t) (txn_commit_law d ws t))|done| |by intros e [_ H]].
  by intros rc e [[Hq ->] H].
Qed.

Lemma begin_quiet d :
  spec (fun e => quiet e /\ committed e = d) txn_begin
    (fun r e => exists t, r = inr t /\ in_txn d t [] e) (fun e => committed e = d).
Proof.
  eapply spec_weaken;
    [exact (spec_conj _ _ _ _ _ _ _ quiet_begin (txn_begin_law d))|done| |by intros e [_ H]].
  intros r e [[Hq [t ->]] [H1 H2]]. by exists t.
Qed.

Lemma get_cf_quiet d nm :
  spec (fun e => quiet e /\ committed e = d) (get_cf nm)
    (fun r e => r = bool_decide (is_Some (d !! nm)) /\ quiet e /\ committed e = d)
    (fun e => committed e = d).
Proof.
  eapply spec_weaken;
    [exact (spec_conj _ _ _ _ _ _ _ (quiet_get_cf nm) (get_cf_law d nm))|done| |by intros e [_ H]].
  by intros r e [Hq [H1 H2]].
Qed.

Lemma walked_whole l : walked (inr (map whole l)) = l.
Proof. unfold walked. induction l as [|[k v] l IH]; [done|]. cbn. f_equal. exact IH. Qed.

Lemma elem_of_walked k v l : (k, v) ∈ walked (inr l) <-> whole (k, v) ∈ l.
Proof.
  simpl. rewrite list_elem_of_omap. split.
  - intros ([[?|?] [?|?]] & H & Ex); by simplify_eq.
  - intros H. by exists (whole (k, v)).
Qed.

Lemma scan_quiet d t ws cf :
  spec (in_txn d t ws) (scan t cf)
    (fun r e => in_txn d t ws e /\ forall k v, (k, v) ∈ walked r <-> db_get cf k (apply_writes ws d) = Some v)
    (fun e => committed e = d).
Proof.
  eapply spec_weaken;
    [exact (spec_conj _ _ _ _ _ _ _ (quiet_scan d ws t cf) (scan_law d ws t cf))| | |by intros e [_ H]].
  - intros e (H1 & H2 & H3). by repeat split.
  - intros r e [[Hq (l & -> & Hl)] [[H1 H2] _]]. split; [done|]. intros k v. rewrite <- Hl.
    by rewrite walked_whole.
Qed.

Lemma delete_all_quiet d t ws ks :
  spec (in_txn d t ws) (delete_all t ks)
    (fun _ => in_txn d t (ws ++ map (W_delete FK_CATALOG_CF) ks)) (fun e => committed e = d).
Proof.
  revert ws. induction ks as [|k ks IH]; intros ws; simpl.
  - apply spec_ret. by rewrite app_nil_r.
  - eapply spec_bind; [apply delete_quiet|]. intros ?. cbv beta.
    specialize (IH (ws ++ [W_delete FK_CATALOG_CF k])). by rewrite <- app_assoc in IH.
Qed.

Lemma put_all_quiet d t ws kvs :
  spec (in_txn d t ws) (put_all t kvs)
    (fun _ => in_txn d t (ws ++ map (put_of FK_CATALOG_CF) kvs)) (fun e => committed e = d).
Proof.
  revert ws. induction kvs as [|[k v] kvs IH]; intros ws; simpl.
  - apply spec_ret. by rewrite app_nil_r.
  - eapply spec_bind; [apply put_quiet|]. intros ?. cbv beta.
    specialize (IH (ws ++ [W_put FK_CATALOG_CF k v])). rewrite <- app_assoc in IH.
    eapply spec_weaken; [exact IH|by intros e [_ H]|done|done].
Qed.
End loops.

(** *** The catalog as a set of constraints *)

Lemma purge_keys_spec C d l cfn k :
  represents C d -> (forall k v, (k, v) ∈ l <-> db_get FK_CATALOG_CF k d = Some v) ->
  k ∈ purge_keys cfn l <-> exists e, e ∈ C /\ names_cf cfn e = true /\ k ∈ both_keys e.
Proof.
  intros (Hf & _ & Hr) Hl. unfold purge_keys. rewrite list_elem_of_omap. rewrite Forall_forall in Hf. split.
  - intros ([k' v] & Hin & Hk). apply Hl, Hr in Hin as (e & He & -> & Hke).
    pose proof (fk_deserialize_serialize e [] (Hf e He)) as Hd. rewrite app_nil_r in Hd.
    rewrite Hd in Hk. destruct (names_cf cfn e) eqn:En; [|done]. injection Hk as <-. eauto.
  - intros (e & He & En & Hk). exists (k, fk_serialize e). split.
    + apply Hl, Hr. eauto.
    + pose proof (fk_deserialize_serialize e [] (Hf e He)) as Hd. rewrite app_nil_r in Hd.
      by rewrite Hd, En.
Qed.

Lemma purge_represents C d l cfn :
  represents C d -> (forall k v, (k, v) ∈ l <-> db_get FK_CATALOG_CF k d = Some v) ->
  represents (filter (fun e => names_cf cfn e = false) C)
    (apply_writes (map (W_delete FK_CATALOG_CF) (purge_keys cfn l)) d).
Proof.
  intros R Hl. pose proof R as (Hf & Ho & Hr). split_and!.
  - rewrite Forall_forall in *. intros e [_ He]%list_elem_of_filter. auto.
  - by apply apply_writes_family.
  - intros k v. rewrite db_get_deletes. pose proof (purge_keys_spec C d l cfn k R Hl) as Hp.
    rewrite Forall_forall in Hf. destruct (decide (k ∈ purge_keys cfn l)) as [Hk|Hk].
    + split; [done|]. intros (e & [En He]%list_elem_of_filter & -> & Hke). exfalso.
      apply Hp in Hk as (e' & He' & En' & Hke').
      assert (db_get FK_CATALOG_CF k d = Some (fk_serialize e)) as H1 by (apply Hr; eauto).
      assert (db_get FK_CATALOG_CF k d = Some (fk_serialize e')) as H2 by (apply Hr; eauto).
      assert (e = e') as -> by (apply fk_serialize_inj; auto; congruence). congruence.
    + rewrite Hr. split; intros (e & He & -> & Hke).
      * exists e. split; [|done]. apply list_elem_of_filter. split; [|done].
        destruct (names_cf cfn e) eqn:En; [|done]. exfalso. apply Hk, Hp. eauto.
      * apply list_elem_of_filter in He as [_ He]. eauto.
Qed.

(** *** Renaming *)

Lemma both_keys_inj C e e' k :
  keyed C -> e ∈ C -> e' ∈ C -> k ∈ both_keys e -> k ∈ both_keys e' -> e = e'.
Proof.
  intros [Hn Hu] He He' Hk Hk'. rewrite Forall_forall in Hn.
  destruct (Hn e He) as (? & ? & ?), (Hn e' He') as (? & ? & ?).
  unfold both_keys in *. rewrite !elem_of_cons in Hk, Hk'. rewrite !elem_of_nil in Hk, Hk'.
  destruct Hk as [->|[->|[]]], Hk' as [Ek|[Ek|[]]]; try discriminate Ek.
  - injection Ek as Ek. apply CfName.app_first_inj in Ek as [? ?]; auto.
  - injection Ek as Ek. apply CfName.app_first_inj in Ek as [_ Ek]; auto.
    apply CfName.app_first_inj in Ek as [? ?]; auto.
Qed.

Section rename.
Context (old new ndb ntb : bytes).
Abbreviation ren := (rename_entry old new ndb ntb).

Lemma rename_id e : names_cf old e = false -> ren e = e.
Proof.
  unfold names_cf, rename_entry. intros [H1 H2]%orb_false_iff. rewrite H1, H2. by destruct e.
Qed.

Lemma rename_fits e : str_fits new -> str_fits ndb -> str_fits ntb -> fits e -> fits (ren e).
Proof.
  intros Hn Hd Ht (Hs & Hrest). rewrite !Forall_cons in Hs.
  destruct Hs as (H1 & H2 & H3 & H4 & H5 & H6 & H7 & H8 & H9 & H10 & H11 & _).
  split; [|exact Hrest]. unfold rename_entry. cbn.
  rewrite !Forall_cons. repeat split; repeat case_bool_decide; done || by constructor.
Qed.

(** The destination names no other constraint, so renaming keeps the constraints apart. *)
Lemma rename_keyed C :
  no_nul new -> Forall (fun e => names_cf new e = false) C -> keyed C -> keyed (map ren C).
Proof.
  intros Hnn Hfree [Hn Hu]. rewrite Forall_forall in Hfree, Hn. split.
  - rewrite Forall_forall. intros e' (e & -> & He)%list_elem_of_fmap.
    destruct (Hn e He) as (? & ? & ?). unfold rename_entry. cbn. repeat case_bool_decide; auto.
  - intros e1' e2' (e1 & -> & H1)%list_elem_of_fmap (e2 & -> & H2)%list_elem_of_fmap Ec En.
    f_equal. apply Hu; [done|done| |exact En].
    pose proof (Hfree e1 H1) as F1. pose proof (Hfree e2 H2) as F2. unfold names_cf in F1, F2.
    apply orb_false_iff in F1 as [F1%bool_decide_eq_false _], F2 as [F2%bool_decide_eq_false _].
    unfold rename_entry in Ec. cbn in Ec. repeat case_bool_decide; congruence.
Qed.

Lemma moved_entries_spec C d l e :
  represents C d -> (forall k v, (k, v) ∈ l <-> db_get FK_CATALOG_CF k d = Some v) ->
  e ∈ moved_entries old l <-> e ∈ C /\ names_cf old e = true.
Proof.
  intros (Hf & _ & Hr) Hl. unfold moved_entries. rewrite list_elem_of_omap. rewrite Forall_forall in Hf.
  assert (forall e, e ∈ C -> fk_deserialize (fk_serialize e) = Some e) as Hd.
  { intros e' He'. rewrite <- (app_nil_r (fk_serialize e')). by apply fk_deserialize_serialize, Hf. }
  split.
  - intros ([k v] & Hin & Hk). apply Hl, Hr in Hin as (e' & He & -> & _). rewrite (Hd e' He) in Hk.
    destruct k as [|c k]; [done|]. destruct (c =? FK_REC_CHILD); [|done].
    destruct (names_cf old e') eqn:En; [|done]. by injection Hk as <-.
  - intros [He En]. exists (fk_child_key (child_cf e) (name e), fk_serialize e). split.
    + apply Hl, Hr. exists e. split_and!; [done|done|]. apply elem_of_cons. by left.
    + unfold fk_child_key. by rewrite Z.eqb_refl, (Hd e He), En.
Qed.

Lemma in_concat_map {A B} (f : A -> list B) (l : list A) b :
  b ∈ concat (map f l) <-> exists a, a ∈ l /\ b ∈ f a.
Proof.
  rewrite list_elem_of_In, in_concat. setoid_rewrite in_map_iff. setoid_rewrite <- list_elem_of_In.
  split; [intros (x & (a & <- & Ha) & Hb); eauto|intros (a & Ha & Hb); eauto].
Qed.

Lemma rename_represents C d l :
  str_fits new -> str_fits ndb -> str_fits ntb -> no_nul new ->
  Forall (fun e => names_cf new e = false) C -> keyed C -> represents C d ->
  (forall k v, (k, v) ∈ l <-> db_get FK_CATALOG_CF k d = Some v) ->
  represents (map ren C)
    (apply_writes (map (W_delete FK_CATALOG_CF) (concat (map both_keys (moved_entries old l))) ++
                   map (put_of FK_CATALOG_CF)
                     (concat (map (fun e => both_records (ren e)) (moved_entries old l)))) d).
Proof.
  intros Hnew Hndb Hntb Hnn Hfree HK R Hl. pose proof R as (Hf & Ho & Hr).
  pose proof (rename_keyed C Hnn Hfree HK) as HK'.
  pose proof (moved_entries_spec C d l) as Hm.
  rewrite apply_writes_app. set (dels := concat (map both_keys (moved_entries old l))).
  set (puts := concat (map (fun e => both_records (ren e)) (moved_entries old l))).
  set (d1 := apply_writes (map (W_delete FK_CATALOG_CF) dels) d).
  assert (forall k v, (k, v) ∈ puts <->
    exists e, e ∈ C /\ names_cf old e = true /\ v = fk_serialize (ren e) /\ k ∈ both_keys (ren e)) as Hputs.
  { intros k v. unfold puts. rewrite in_concat_map. unfold both_records.
    setoid_rewrite list_elem_of_fmap. setoid_rewrite (fun e => Hm e R Hl). split.
    - intros (e & [He En] & k' & [= -> ->] & Hk). eauto.
    - intros (e & He & En & -> & Hk). exists e. split; [done|]. by exists k. }
  assert (forall k, k ∈ dels <-> exists e, e ∈ C /\ names_cf old e = true /\ k ∈ both_keys e) as Hdels.
  { intros k. unfold dels. rewrite in_concat_map. setoid_rewrite (fun e => Hm e R Hl). split.
    - intros (e & [He En] & Hk). eauto.
    - intros (e & He & En & Hk). eauto. }
  split_and!.
  - rewrite Forall_forall in *. intros e' (e & -> & He)%list_elem_of_fmap. by apply rename_fits, Hf.
  - by apply apply_writes_family, apply_writes_family.
  - intros k v. destruct (decide (k ∈ map fst puts)) as [Hk|Hk].
    + apply list_elem_of_fmap in Hk as ([k' v'] & -> & Hin). simpl.
      assert (forall e', e' ∈ map ren C -> k' ∈ both_keys e' -> v' = fk_serialize e') as Hsame.
      { apply Hputs in Hin as (e & He & En & -> & Hke). intros e' He' Hke'. f_equal.
        eapply (both_keys_inj (map ren C)); eauto. apply list_elem_of_fmap. eauto. }
      rewrite (db_get_puts_in _ _ k' v'); [|by apply apply_writes_family|done|].
      * apply Hputs in Hin as (e & He & En & -> & Hke). split.
        -- intros [= <-]. exists (ren e). split_and!; [apply list_elem_of_fmap; eauto|done|done].
        -- intros (e' & He' & -> & Hke'). f_equal. by apply Hsame.
      * intros v2 (e2 & He2 & _ & -> & Hk2)%Hputs. symmetry. apply Hsame; [|done].
        apply list_elem_of_fmap. eauto.
    + rewrite db_get_puts_notin by done. unfold d1. rewrite db_get_deletes.
      assert (forall e, e ∈ C -> k ∈ both_keys (ren e) -> names_cf old e = false) as Hunmoved.
      { intros e He Hke. destruct (names_cf old e) eqn:En; [|done]. exfalso. apply Hk, list_elem_of_fmap.
        exists (k, fk_serialize (ren e)). split; [done|]. apply Hputs. eauto. }
      destruct (decide (k ∈ dels)) as [Hdel|Hdel].
      * split; [done|]. intros (e' & (e & -> & He)%list_elem_of_fmap & -> & Hke). exfalso.
        pose proof (Hunmoved e He Hke) as En. rewrite (rename_id e En) in Hke.
        apply Hdels in Hdel as (e2 & He2 & En2 & Hk2).
        assert (e = e2) as -> by (by eapply (both_keys_inj C)). congruence.
      * rewrite Hr. split.
        -- intros (e & He & -> & Hke). assert (names_cf old e = false) as En.
           { destruct (names_cf old e) eqn:En; [|done]. exfalso. apply Hdel, Hdels. eauto. }
           exists e. split_and!; [|done|done]. apply list_elem_of_fmap. exists e.
           by rewrite (rename_id e En).
        -- intros (e' & (e & -> & He)%list_elem_of_fmap & -> & Hke).
           pose proof (Hunmoved e He Hke) as En. rewrite (rename_id e En) in *. eauto.
Qed.
End rename.

(** *** Adding constraints *)

Lemma in_both_records l k v :
  (k, v) ∈ concat (map both_records l) <-> exists e, e ∈ l /\ v = fk_serialize e /\ k ∈ both_keys e.
Proof.
  rewrite in_concat_map. unfold both_records. setoid_rewrite list_elem_of_fmap. split.
  - intros (e & He & k' & [= -> ->] & Hk). eauto.
  - intros (e & He & -> & Hk). exists e. split; [done|]. by exists k.
Qed.

Lemma persist_represents C d new :
  represents C d -> Forall fits new -> keyed (C ++ new) ->
  represents (C ++ new) (apply_writes (map (put_of FK_CATALOG_CF) (concat (map both_records new))) d).
Proof.
  intros (Hf & Ho & Hr) Hn HK. set (puts := concat (map both_records new)). split_and!.
  - by apply Forall_app.
  - by apply apply_writes_family.
  - assert (forall e, e ∈ new -> e ∈ C ++ new) as Hin by (intros; apply elem_of_app; by right).
    intros k v. destruct (decide (k ∈ map fst puts)) as [Hk|Hk].
    + apply list_elem_of_fmap in Hk as ([k' v'] & -> & (e & He & -> & Hke)%in_both_records). simpl.
      assert (forall e', e' ∈ C ++ new -> k' ∈ both_keys e' -> e' = e) as Hu
        by (intros; by eapply (both_keys_inj (C ++ new)); eauto).
      rewrite (db_get_puts_in _ _ k' (fk_serialize e)); [|done|apply in_both_records; eauto|].
      * split; [intros [= <-]; eauto|]. intros (e' & He' & -> & Hke'). by rewrite (Hu e').
      * intros v2 (e2 & He2 & -> & Hk2)%in_both_records. by rewrite (Hu e2) by auto.
    + rewrite db_get_puts_notin by done. rewrite Hr. split.
      * intros (e & He & -> & Hke). exists e. rewrite elem_of_app. auto.
      * intros (e & [He|He]%elem_of_app & -> & Hke); [eauto|]. exfalso. apply Hk, list_elem_of_fmap.
        exists (k, fk_serialize e). split; [done|]. apply in_both_records. eauto.
Qed.

(** *** The operations *)

Lemma others_same_writes ws d :
  Forall (fun w => write_cf w = FK_CATALOG_CF) ws -> others_same FK_CATALOG_CF d (apply_writes ws d).
Proof.
  intros H cf Hcf. apply apply_writes_other. eapply Forall_impl; [exact H|].
  intros w E0. simpl in *. congruence.
Qed.

Lemma deletes_cf ks : Forall (fun w => write_cf w = FK_CATALOG_CF) (map (W_delete FK_CATALOG_CF) ks).
Proof. apply Forall_forall. by intros w (k & -> & _)%list_elem_of_fmap. Qed.

Lemma puts_cf kvs : Forall (fun w => write_cf w = FK_CATALOG_CF) (map (put_of FK_CATALOG_CF) kvs).
Proof. apply Forall_forall. by intros w (k & -> & _)%list_elem_of_fmap. Qed.

(** In any environment, whatever fails: only the catalog family can change. *)
Section anyenv.
Context {E T : Type} `{!TidesDb E T} `{!FamilyDb E T}.

Definition writing (d : store) (t : T) (e : E) : Prop :=
  committed e = d /\ Forall (fun w => write_cf w = FK_CATALOG_CF) (pending e t).

Lemma delete_all_any d t ks :
  spec (writing d t) (delete_all t ks) (fun _ => writing d t) (fun e => committed e = d).
Proof.
  induction ks as [|k ks IH]; cbn [delete_all]; [by apply spec_ret|].
  apply (spec_bind _ _ (fun _ => writing d t)); [|intros ?; exact IH].
  apply spec_at. intros e [Hd Hw].
  eapply spec_weaken; [apply (txn_delete_law d (pending e t) t FK_CATALOG_CF k)|by intros e' ->| |done].
  intros rc e' [H1 H2]. split; [done|]. rewrite H2. destruct rc; [|done..].
  apply Forall_app. by split; [|constructor].
Qed.

Lemma fk_purge_any d cfn :
  spec (fun e => committed e = d) (fk_purge_catalog cfn)
    (fun _ e => others_same FK_CATALOG_CF d (committed e))
    (fun e => others_same FK_CATALOG_CF d (committed e)).
Proof.
  assert (forall e, committed e = d -> others_same FK_CATALOG_CF d (committed e)) as Hd by by intros e ->.
  eapply spec_bind; [eapply spec_crash; [apply get_cf_law|exact Hd]|]. intros cf.
  destruct cf; cbn [negb]; [|apply spec_ret; intros e (H & _); auto]. eapply spec_bind.
  { eapply spec_weaken; [apply (txn_begin_law d)|by intros e [H _]|by intros r e H; exact H|exact Hd]. }
  intros [rc|t]; [apply spec_ret; intros e [H _]; auto|]. eapply (spec_bind _ _ (fun _ => writing d t)).
  { eapply spec_weaken; [apply (scan_law d [] t FK_CATALOG_CF)|done| |exact Hd].
    intros r e [[H1 H2] _]. split; [done|]. by rewrite H2. }
  intros l. eapply (spec_bind _ _ (fun _ => writing d t)); [eapply spec_crash; [apply delete_all_any|exact Hd]|].
  intros ?. apply (spec_bind _ _ (fun _ e => others_same FK_CATALOG_CF d (committed e))).
  { apply spec_at. intros e [H1 Hw].
    pose proof (others_same_writes _ d Hw) as Ho.
    eapply spec_weaken; [apply (txn_commit_law d (pending e t) t)|by intros e' ->| |].
    - intros rc e' H. destruct rc; [by rewrite H| |by apply Hd|]; destruct H as [H|H]; rewrite H; done.
    - intros e' [H|H]; rewrite H; done. }
  intros rc. destruct (tdb_ok rc); [by apply spec_ret|].
  apply (spec_bind _ _ (fun _ e => others_same FK_CATALOG_CF d (committed e))); [|intros ?; by apply spec_ret].
  apply spec_at. intros e He. eapply spec_weaken; [apply (txn_rollback_law (committed e) t)|by intros e' ->|..].
  - intros ? e' ->. done.
  - intros e' ->. done.
Qed.
End anyenv.

Section theorems.
Context {E T : Type} `{!TidesDb E T} `{!FamilyDb E T} `{!QuietDb E T} `{!QuietFamilies E T}.

(** Only the catalog family changes, from the constraints [C] to [C']; a crash leaves one or the other. *)
Definition moves (d : store) (C C' : list fk_catalog_entry) (m : M E Z) : Prop :=
  spec (fun e => quiet e /\ committed e = d) m
    (fun r e => r = 0 /\ represents C' (committed e) /\ others_same FK_CATALOG_CF d (committed e))
    (fun e => (represents C (committed e) \/ represents C' (committed e)) /\
              others_same FK_CATALOG_CF d (committed e)).

(** The frame the two operations share: open the catalog, scan it in a transaction, write and commit. *)
Lemma catalog_update d C C' (m : M E Z) (writes : list (bytes * bytes) -> list write)
    (body : T -> list (bytes * bytes) -> M E unit) (failed : Z) :
  (forall e, m e = bind (get_cf FK_CATALOG_CF) (fun cf => if negb cf then ret 0 else
        bind txn_begin (fun t => match t with
          | inl _ => ret 0
          | inr t => bind (scan t FK_CATALOG_CF) (fun l => bind (body t (walked l)) (fun _ =>
              bind (txn_commit t) (fun rc => if tdb_ok rc then ret 0
                else bind (txn_rollback t) (fun _ => ret failed))))
          end)) e) ->
  represents C d ->
  (forall l, Forall (fun w => write_cf w = FK_CATALOG_CF) (writes l)) ->
  (forall l, (forall k v, (k, v) ∈ l <-> db_get FK_CATALOG_CF k d = Some v) ->
     represents C' (apply_writes (writes l) d)) ->
  (forall t l, spec (in_txn d t []) (body t l) (fun _ => in_txn d t (writes l)) (fun e => committed e = d)) ->
  moves d C C' m.
Proof.
  intros Em R Hcf Hw Hb. eapply spec_ext; [exact Em|].
  assert (forall e, committed e = d -> (represents C (committed e) \/ represents C' (committed e)) /\
            others_same FK_CATALOG_CF d (committed e)) as Hd by (intros e ->; split; [by left|done]).
  eapply spec_bind; [eapply spec_crash; [apply get_cf_quiet|exact Hd]|]. intros cf.
  apply (spec_pure _ (cf = true)).
  { intros e (-> & _). apply bool_decide_eq_true, R. }
  intros ->. cbn [negb]. eapply spec_bind.
  { eapply spec_weaken; [apply (begin_quiet d)|by intros e [_ H]| |exact Hd]. intros r e H. exact H. }
  intros r. apply (spec_pure _ (exists t, r = inr t)); [by intros e (t & -> & _); exists t|].
  intros [t ->]. eapply spec_bind.
  { eapply spec_weaken; [apply (scan_quiet d t [])| | |exact Hd].
    - by intros e (t' & [= ->] & H).
    - intros l e H. exact H. }
  intros l. apply (spec_pure _ (forall k v, (k, v) ∈ walked l <-> db_get FK_CATALOG_CF k d = Some v));
    [by intros e [_ H]|]. intros Hl. eapply spec_bind.
  { eapply spec_weaken; [apply (Hb t (walked l))|by intros e [H _]| |exact Hd]. intros a e H. exact H. }
  intros ?. eapply spec_bind.
  { eapply spec_weaken; [apply (commit_quiet d t (writes (walked l)))|done| |].
    - intros rc e H. exact H.
    - intros e [H|H]; [by apply Hd|]. rewrite H. split; [right; auto|by apply others_same_writes]. }
  intros rc. apply (spec_pure _ (rc = TDB_SUCCESS)); [by intros e [H _]|]. intros ->.
  apply spec_ret. intros e (_ & _ & ->). split_and!; [done|auto|by apply others_same_writes].
Qed.

Lemma put_checked_quiet d t ws kvs :
  spec (in_txn d t ws) (put_checked t kvs)
    (fun ok e => ok = true /\ in_txn d t (ws ++ map (put_of FK_CATALOG_CF) kvs) e)
    (fun e => committed e = d).
Proof.
  revert ws. induction kvs as [|[k v] kvs IH]; intros ws; simpl.
  - apply spec_ret. by rewrite app_nil_r.
  - eapply spec_bind; [apply put_quiet|]. intros rc.
    apply (spec_pure _ (rc = TDB_SUCCESS)); [by intros e [H _]|]. intros ->.
    specialize (IH (ws ++ [W_put FK_CATALOG_CF k v])). rewrite <- app_assoc in IH.
    eapply spec_weaken; [exact IH|by intros e [_ H]|done|done].
Qed.

Lemma fk_catalog_cf_quiet d :
  is_Some (d !! FK_CATALOG_CF) ->
  spec (fun e => quiet e /\ committed e = d) fk_catalog_cf
    (fun r e => r = true /\ quiet e /\ committed e = d) (fun e => committed e = d).
Proof.
  intros Ho. eapply spec_bind; [apply get_cf_quiet|]. intros r.
  apply (spec_pure _ (r = true)); [by intros e (-> & _); apply bool_decide_eq_true|]. intros ->.
  apply spec_ret. by intros e (_ & H).
Qed.

(** Whatever the catalog holds, a purge touches no other family. *)
Lemma fk_purge_frame d cfn :
  spec (fun e => quiet e /\ committed e = d) (fk_purge_catalog cfn)
    (fun _ e => quiet e /\ others_same FK_CATALOG_CF d (committed e))
    (fun e => others_same FK_CATALOG_CF d (committed e)).
Proof.
  assert (forall e, committed e = d -> others_same FK_CATALOG_CF d (committed e)) as Hd by by intros e ->.
  eapply spec_bind; [eapply spec_crash; [apply get_cf_quiet|exact Hd]|]. intros cf.
  destruct cf; cbn [negb]; [|apply spec_ret; intros e (_ & Hq & H); auto]. eapply spec_bind.
  { eapply spec_weaken; [apply (begin_quiet d)|by intros e [_ H]| |exact Hd]. intros r e H. exact H. }
  intros r. apply (spec_pure _ (exists t, r = inr t)); [by intros e (t & -> & _); exists t|].
  intros [t ->]. eapply spec_bind.
  { eapply spec_weaken; [apply (scan_quiet d t [])|by intros e (t' & [= ->] & H)| |exact Hd].
    intros l e H. exact H. }
  intros l. eapply spec_bind.
  { eapply spec_weaken; [apply (delete_all_quiet d t [])|by intros e [H _]| |exact Hd]. intros a e H. exact H. }
  intros ?. eapply spec_bind.
  { eapply spec_weaken; [apply (commit_quiet d t)|by intros e H; exact H|by intros rc e H; exact H|].
    intros e [H|H]; [by apply Hd|]. rewrite H. apply others_same_writes, deletes_cf. }
  intros rc. apply (spec_pure _ (rc = TDB_SUCCESS)); [by intros e [H _]|]. intros ->.
  apply spec_ret. intros e (_ & Hq & ->). split; [done|]. apply others_same_writes, deletes_cf.
Qed.

(** ** Properties *)

(** A constraint written to the catalog reads back exactly, whatever follows the record, and the
    two keys a record is stored under identify it: no two constraints of a catalog share a key. *)
Lemma fk_record_roundtrip e rest C e1 e2 k :
  fits e -> keyed C -> e1 ∈ C -> e2 ∈ C -> k ∈ both_keys e1 -> k ∈ both_keys e2 ->
  fk_deserialize (fk_serialize e ++ rest) = Some e /\ e1 = e2.
Proof.
  intros He HC H1 H2 Hk1 Hk2. split; [by apply fk_deserialize_serialize|]. by eapply both_keys_inj.
Qed.

(** Dropping a table purges the catalog of exactly the constraints that name it on either side:
    from a catalog of the constraints [C], [fk_purge_catalog] ends with the catalog of those of [C]
    that do not name it, touches no other family, and is atomic - a crash leaves the catalog as it
    was or already purged. *)
Lemma fk_purge_refines d C cfn :
  represents C d -> moves d C (filter (fun e => names_cf cfn e = false) C) (fk_purge_catalog cfn).
Proof.
  intros R. apply (catalog_update d C _ _ (fun l => map (W_delete FK_CATALOG_CF) (purge_keys cfn l))
    (fun t l => delete_all t (purge_keys cfn l)) 0); [done|done| | |].
  - intros l. apply deletes_cf.
  - intros l Hl. by apply purge_represents.
  - intros t l. apply delete_all_quiet.
Qed.


(** Whatever the catalog holds, and also when it does not exist yet, the records of a statement go to
    no other family. *)
Lemma fk_persist_frame d entries :
  spec (fun e => quiet e /\ committed e = d) (fk_persist_records entries)
    (fun r e => r = 0 /\ quiet e /\ others_same FK_CATALOG_CF d (committed e)) (fun _ => True).
Proof.
  unfold fk_persist_records. destruct (concat (map both_records entries)) as [|kv kvs] eqn:Er.
  { apply spec_ret. by intros e [? ->]. }
  clear Er. set (kvs' := kv :: kvs). clearbody kvs'. clear kv kvs.
  eapply (spec_bind _ _ (fun cf e => cf = true /\ exists d1, (quiet e /\ committed e = d1) /\ others_same FK_CATALOG_CF d d1)).
  - unfold fk_catalog_cf. eapply spec_bind; [eapply spec_crash; [apply get_cf_quiet|done]|]. intros cf.
    apply (spec_pure _ (cf = bool_decide (is_Some (d !! FK_CATALOG_CF)))); [by intros e [? _]|]. intros ->. case_bool_decide as Hs.
    { apply spec_ret. intros e (_ & ? & ?). split; [done|]. by exists d. }
    assert (d !! FK_CATALOG_CF = None) as Hn by (destruct (d !! FK_CATALOG_CF); [by destruct Hs|done]).
    set (d1 := <[FK_CATALOG_CF := ∅]> d). eapply (spec_bind _ _ (fun _ e => quiet e /\ committed e = d1)).
    + eapply spec_weaken; [apply spec_conj; [apply (quiet_create_cf FK_CATALOG_CF)|apply (create_cf_law d FK_CATALOG_CF)]| | |done].
      * intros e (_ & ? & ->). done.
      * intros rc e [[? ->] He]. rewrite Hn in He. done.
    + intros rc. assert (spec (fun e => quiet e /\ committed e = d1) (get_cf FK_CATALOG_CF) (fun cf e => cf = true /\
        exists d1, (quiet e /\ committed e = d1) /\ others_same FK_CATALOG_CF d d1) (fun _ => True)) as H.
      { eapply spec_weaken; [apply (get_cf_quiet d1)|done| |done]. intros cf e (-> & Hq & He). split.
        - apply bool_decide_true. unfold d1. by rewrite lookup_insert_eq.
        - exists d1. split; [done|]. intros cf' Hne. unfold d1. by rewrite lookup_insert_ne. }
      by destruct (negb (tdb_ok rc)).
  - intros cf. apply (spec_pure _ (cf = true)); [by intros e [? _]|]. intros ->. cbn [negb].
    eapply (spec_pre _ _); [|by intros e [_ H]; exact H]. apply spec_ex. intros d1.
    apply (spec_pure _ (others_same FK_CATALOG_CF d d1)); [by intros e [_ ?]|]. intros Ho. eapply spec_bind.
    { eapply spec_weaken; [apply (begin_quiet d1)|by intros e [? _]|intros r e H; exact H|done]. }
    intros r. apply (spec_pure _ (exists t, r = inr t)); [by intros e (t & -> & _); exists t|]. intros [t ->]. eapply spec_bind.
    { eapply spec_weaken; [apply (put_checked_quiet d1 t [])|by intros e (t' & [= ->] & H)|intros a e H; exact H|done]. }
    intros ok. apply (spec_pure _ (ok = true)); [by intros e [H _]|]. intros ->. cbn [negb]. eapply spec_bind.
    { eapply spec_weaken; [apply (commit_quiet d1 t)|by intros e [_ H]|by intros a e H; exact H|done]. }
    intros rc. apply spec_ret. intros e (-> & Hq & ->). split_and!; [done|done|]. intros cf' Hne.
    rewrite <- (Ho cf' Hne). by apply others_same_writes; [apply puts_cf|].
Qed.

(** Creating a table adds its constraints to the catalog all together or not at all: the catalog
    of [C] becomes the catalog of [C] and the new constraints, each under both of its keys, and a
    crash leaves one of the two. *)
Lemma fk_persist_refines d C new :
  represents C d -> Forall fits new -> keyed (C ++ new) -> new <> [] ->
  moves d C (C ++ new) (fk_persist_records new).
Proof.
  intros R Hn HK Hne. unfold fk_persist_records.
  assert (concat (map both_records new) <> []) as Hr by (by destruct new).
  destruct (concat (map both_records new)) as [|kv kvs] eqn:Er; [done|]. clear Hr. rewrite <- Er.
  assert (forall e, committed e = d -> (represents C (committed e) \/ represents (C ++ new) (committed e)) /\
            others_same FK_CATALOG_CF d (committed e)) as Hd by (intros e ->; split; [by left|done]).
  eapply spec_bind; [eapply spec_crash; [apply fk_catalog_cf_quiet, R|exact Hd]|]. intros cf.
  apply (spec_pure _ (cf = true)); [by intros e [H _]|]. intros ->. eapply spec_bind.
  { eapply spec_weaken; [apply (begin_quiet d)|by intros e [_ H]| |exact Hd]. intros r e H. exact H. }
  intros r. apply (spec_pure _ (exists t, r = inr t)); [by intros e (t & -> & _); exists t|].
  intros [t ->]. eapply spec_bind.
  { eapply spec_weaken; [apply (put_checked_quiet d t [])|by intros e (t' & [= ->] & H)| |exact Hd].
    intros a e H. exact H. }
  intros ok. apply (spec_pure _ (ok = true)); [by intros e [H _]|]. intros ->. eapply spec_bind.
  { eapply spec_weaken; [apply (commit_quiet d t)|by intros e [_ H]|by intros a e H; exact H|].
    intros e [H|H]; [by apply Hd|]. rewrite H.
    split; [right; by apply persist_represents|by apply others_same_writes, puts_cf]. }
  intros rc. apply spec_ret. intros e (-> & _ & ->).
  split_and!; [done|by apply persist_represents|by apply others_same_writes, puts_cf].
Qed.

End theorems.

(** ** Witnesses *)

Definition example_fk : fk_catalog_entry :=
  {| name := bs "fk1"; child_cf := bs "db__c"; child_db := bs "db"; child_table := bs "c";
     child_columns := [bs "a"; bs "b"]; child_nullable := [0; 1]; ref_db := bs "db";
     ref_table := bs "p"; parent_cf := bs "db__p"; ref_columns := [bs "x"; bs "y"];
     child_index_name := bs "ia"; parent_index_name := bs "PRIMARY"; parent_nullable := [];
     parent_is_pk := 1; on_delete := 2; on_update := 0 |}.

Lemma example_fits : fits example_fk.
Proof. unfold fits, byte_ok. cbn. rewrite !Forall_cons, !Forall_nil. unfold str_fits, zlen. cbn. lia. Qed.

Lemma example_keyed : keyed [example_fk].
Proof.
  split.
  - apply Forall_singleton. unfold no_nul. split_and!; apply (bool_decide_unpack _); vm_compute; exact I.
  - intros e e' ->%list_elem_of_singleton ->%list_elem_of_singleton. done.
Qed.

Definition empty_catalog : store := {[ FK_CATALOG_CF := ∅ ]}.
Definition example_catalog : store :=
  apply_writes (map (put_of FK_CATALOG_CF) (concat (map both_records [example_fk]))) empty_catalog.

Lemma empty_represents : represents [] empty_catalog.
Proof.
  split_and!; [constructor|by exists ∅|]. intros k v. unfold db_get, empty_catalog.
  rewrite lookup_singleton_eq. simpl. rewrite lookup_empty. split; [done|].
  by intros (e & He%not_elem_of_nil & _).
Qed.

Lemma example_represents : represents [example_fk] example_catalog.
Proof.
  apply (persist_represents [] empty_catalog [example_fk]);
    [apply empty_represents|apply Forall_singleton, example_fits|apply example_keyed].
Qed.


End FkCatalog.
