(* ===== verification/Lifecycle.v ===== *)
(** * Dropping tables and databases ([src/handler/ha_tidesdb_lifecycle.cc])

    What [DROP TABLE] and [DROP DATABASE] do to the column families.  The directory sweep
    [force_remove_cf_dir] runs after the library has dropped a family and only removes files the
    library no longer knows of, so it has no counterpart in the library's contents. *)
From S2P Require Import Prelude Effects TidesDb CfName FkCatalog.
#[local] Open Scope Z_scope.
#[local] Open Scope tdb_scope.

Module Lifecycle.
Import FkCatalog.

Definition CF_INDEX_INFIX : bytes := bs "__idx_".
Definition CF_DB_TABLE_SEP : bytes := bs "__".

(** [strncmp(name, prefix, prefix.size()) == 0]. *)
Fixpoint starts_with (prefix nm : bytes) : bool :=
  match prefix, nm with
  | [], _ => true
  | c :: prefix, c' :: nm => (c =? c') && starts_with prefix nm
  | _ :: _, [] => false
  end.

(** The final path component once trailing separators are stripped. *)
Definition is_sep (c : Z) : bool := c =? 47.
Fixpoint strip_seps (rev_path : bytes) : bytes :=
  match rev_path with
  | c :: r => if is_sep c then strip_seps r else rev_path
  | [] => []
  end.
Fixpoint until_sep (rev_path : bytes) : bytes :=
  match rev_path with
  | c :: r => if (c =? 47) || (c =? 92) then [] else c :: until_sep r
  | [] => []
  end.
Definition tidesdb_path_to_db_name (path : option bytes) : bytes :=
  match path with
  | None => []
  | Some p => rev (until_sep (strip_seps (rev p)))
  end.

Section code.
Context {E T : Type} `{!TidesDb E T} `{!FamilyDb E T}.
Local Open Scope eff_scope.

Definition listed (r : option (list bytes)) (prefix : bytes) : list bytes :=
  match r with
  | Some names => List.filter (starts_with prefix) names
  | None => []
  end.

(** [for (name : names) tidesdb_drop_column_family(name)], the answers unused. *)
Fixpoint drop_each (names : list bytes) : M E unit :=
  match names with
  | [] => ret tt
  | nm :: names => drop_cf nm;; drop_each names
  end.

(** Answers [TDB_SUCCESS] for the source's 0. *)
Definition tdb_ddl_drop_table_cfs_now (tdb_global : bool) (path : bytes) : M E tdb_rc :=
  if negb tdb_global then ret TDB_SUCCESS
  else
    let cf_name := CfName.to_cf_name path in
    fk_purge_catalog cf_name;;
    r <-- list_cfs;
    let idx_cf_names := listed r (cf_name ++ CF_INDEX_INFIX) in
    rc <-- drop_cf cf_name;
    match rc with
    | TDB_SUCCESS | TDB_ERR_NOT_FOUND => drop_each idx_cf_names;; ret TDB_SUCCESS
    | _ => ret rc
    end.

Definition tidesdb_hton_drop_database (tdb_global : bool) (path : option bytes) : M E unit :=
  if negb tdb_global then ret tt
  else
    match path with
    | None => ret tt
    | Some _ =>
        match tidesdb_path_to_db_name path with
        | [] => ret tt
        | db => r <-- list_cfs; drop_each (listed r (db ++ CF_DB_TABLE_SEP))
        end
    end.
End code.

(** ** What the theorems speak of *)

(** The families a drop of the table takes, which it finds by name: the data family, and every family
    whose name goes on with the index infix.  A table that was given such a name is among them. *)
Definition owned (cf_name f : bytes) : bool :=
  bool_decide (f = cf_name) || starts_with (cf_name ++ CF_INDEX_INFIX) f.

(** [d'] is [d] without the families [gone] selects; the catalog family's contents may differ. *)
Definition dropped (gone : bytes -> bool) (d d' : store) : Prop :=
  forall f, if gone f then d' !! f = None
            else if bool_decide (f = FK_CATALOG_CF) then True else d' !! f = d !! f.

(** ** Lemmas *)

Lemma starts_with_app p s : starts_with p (p ++ s) = true.
Proof. induction p; simpl; [done|]. by rewrite Z.eqb_refl. Qed.

Lemma starts_with_inv p nm : starts_with p nm = true -> exists s, nm = p ++ s.
Proof.
  revert nm. induction p as [|c p IH]; intros nm H; [by exists nm|].
  destruct nm as [|c' nm]; [done|]. simpl in H. apply andb_true_iff in H as [Hc%Z.eqb_eq H].
  destruct (IH nm H) as [s ->]. exists s. by subst.
Qed.

Lemma listed_spec (d : store) r p nm :
  (forall n, n ∈ r <-> is_Some (d !! n)) ->
  nm ∈ listed (Some r) p <-> is_Some (d !! nm) /\ starts_with p nm = true.
Proof. intros H. simpl. rewrite list_elem_of_In, filter_In, <- list_elem_of_In, H. done. Qed.

(** In any environment: an invariant of the contents that survives a change of the catalog and the
    loss of the table's families survives the whole drop, which answers success only once the
    table's data family is gone. *)
Section anyenv.
Context {E T : Type} `{!TidesDb E T} `{!FamilyDb E T}.

Lemma drop_cf_any (I : store -> Prop) nm :
  (forall d, I d -> I (delete nm d)) ->
  spec (fun e => I (committed e)) (drop_cf nm)
    (fun rc e => I (committed e) /\
       (rc = TDB_SUCCESS \/ rc = TDB_ERR_NOT_FOUND -> committed e !! nm = None))
    (fun e => I (committed e)).
Proof.
  intros HI. apply spec_at. intros e He.
  eapply spec_weaken; [apply (drop_cf_law (committed e) nm)|by intros e' ->|..].
  - intros rc e' H. destruct rc.
    + rewrite H. split; [auto|]. intros _. apply lookup_delete_eq.
    + destruct H as [-> H]. auto.
    + split; [destruct H as [-> | ->]; auto|]. intros [?|?]; done.
    + split; [destruct H as [-> | ->]; auto|]. intros [?|?]; done.
  - intros e' [-> | ->]; auto.
Qed.

Lemma drop_each_any (I : store -> Prop) names :
  (forall d nm, nm ∈ names -> I d -> I (delete nm d)) ->
  spec (fun e => I (committed e)) (drop_each names) (fun _ e => I (committed e)) (fun e => I (committed e)).
Proof.
  induction names as [|nm names IH]; intros HI; cbn [drop_each]; [by apply spec_ret|].
  eapply (spec_bind _ _ (fun _ e => I (committed e))).
  - eapply spec_weaken; [apply (drop_cf_any I nm)|done|by intros rc e [H _]|done].
    intros d. apply HI. constructor.
  - intros ?. apply IH. intros d nm' Hin. apply HI. by constructor.
Qed.

Lemma drop_table_any (I : store -> Prop) path :
  (forall d d', I d -> others_same FK_CATALOG_CF d d' -> I d') ->
  (forall d nm, owned (CfName.to_cf_name path) nm = true -> I d -> I (delete nm d)) ->
  spec (fun e => I (committed e)) (tdb_ddl_drop_table_cfs_now true path)
    (fun rc e => I (committed e) /\
       (rc = TDB_SUCCESS -> committed e !! CfName.to_cf_name path = None))
    (fun e => I (committed e)).
Proof.
  intros Hfk Hdel. unfold tdb_ddl_drop_table_cfs_now. cbn [negb]. set (cf := CfName.to_cf_name path) in *.
  eapply (spec_bind _ _ (fun _ e => I (committed e))).
  { apply spec_at. intros e He.
    eapply spec_weaken; [apply (fk_purge_any (committed e) cf)|by intros e' ->|..]; intros; by eapply Hfk. }
  intros ?. eapply (spec_bind _ _ (fun _ e => I (committed e))).
  { apply spec_at. intros e He.
    eapply spec_weaken; [apply (list_cfs_law (committed e))|by intros e' ->|..].
    - intros r e' [H _]. by rewrite H.
    - intros e' H. by rewrite H. }
  intros r. eapply spec_bind; [apply (drop_cf_any I cf)|].
  { intros d. apply Hdel. unfold owned. by rewrite bool_decide_true. }
  intros rc.
  assert (spec (fun e => I (committed e) /\ committed e !! cf = None)
    (bind (drop_each (listed r (cf ++ CF_INDEX_INFIX))) (fun _ => ret TDB_SUCCESS))
    (fun rc e => I (committed e) /\ (rc = TDB_SUCCESS -> committed e !! cf = None))
    (fun e => I (committed e))) as Hrest.
  { apply (spec_bind _ _ (fun _ e => I (committed e) /\ committed e !! cf = None));
      [|intros ?; by apply spec_ret; intros e [H1 H2]].
    eapply spec_weaken; [apply (drop_each_any (fun d => I d /\ d !! cf = None))|done|done|by intros e [H _]].
    intros d nm Hin [H1 H2]. split; [|by rewrite lookup_delete_None; auto].
    apply Hdel; [|done]. destruct r as [l|]; [|by apply not_elem_of_nil in Hin]. simpl in Hin.
    apply list_elem_of_In, filter_In in Hin as [_ Hin]. unfold owned. by rewrite Hin, orb_true_r. }
  destruct rc as [| | |code]; [| |apply spec_ret; by intros e [H _]..];
    (eapply spec_weaken; [exact Hrest| |by intros a0 e H; exact H|by intros e H; exact H]);
    intros e [H1 H2]; auto.
Qed.
End anyenv.

Section proofs.
Context {E T : Type} `{!TidesDb E T} `{!FamilyDb E T} `{!QuietDb E T} `{!QuietFamilies E T}.

Definition at_store (d : store) (e : E) : Prop := quiet e /\ committed e = d.

Lemma drop_cf_quiet d nm :
  spec (at_store d) (drop_cf nm)
    (fun rc e => (rc = TDB_SUCCESS \/ rc = TDB_ERR_NOT_FOUND) /\ at_store (delete nm d) e)
    (fun e => committed e = d \/ committed e = delete nm d).
Proof.
  eapply spec_weaken;
    [exact (spec_conj _ _ _ _ _ _ _ (quiet_drop_cf nm) (drop_cf_law d nm))|done| |by intros e [_ H]].
  intros rc e [[Hq [-> | ->]] H]; (split; [auto|]); split; try done.
  destruct H as [-> Hn]. by rewrite delete_id.
Qed.

(** A run of drops ends with the named families gone, and dies with some of them gone. *)
Definition between (names : list bytes) (d d' : store) : Prop :=
  forall f, d' !! f = d !! f \/ (f ∈ names /\ d' !! f = None).

Lemma drop_each_quiet d names :
  spec (at_store d) (drop_each names)
    (fun _ e => quiet e /\ forall f, committed e !! f = if decide (f ∈ names) then None else d !! f)
    (fun e => between names d (committed e)).
Proof.
  revert d. induction names as [|nm names IH]; intros d; cbn [drop_each].
  - apply spec_ret. intros e [Hq ->]. split; [done|]. intros f. rewrite decide_False; [done|].
    apply not_elem_of_nil.
  - eapply (spec_bind _ _ (fun _ => at_store (delete nm d))).
    + eapply spec_weaken; [apply (drop_cf_quiet d nm)|done|by intros rc e [_ H]|].
      intros e [-> | ->] f; [by left|]. destruct (decide (f = nm)) as [->|].
      * right. split; [constructor|]. apply lookup_delete_eq.
      * left. by apply lookup_delete_ne.
    + intros ?. eapply spec_weaken; [apply (IH (delete nm d))|done|..].
      * intros _ e [Hq H]. split; [done|]. intros f. rewrite H.
        destruct (decide (f = nm)) as [->|Hne].
        -- rewrite lookup_delete_eq. rewrite (decide_True (P := nm ∈ nm :: names)) by constructor.
           by destruct (decide (nm ∈ names)).
        -- rewrite lookup_delete_ne by done. destruct (decide (f ∈ names)).
           ++ by rewrite decide_True by by constructor.
           ++ rewrite decide_False; [done|]. rewrite elem_of_cons. tauto.
      * intros e H f. destruct (H f) as [Hf|[Hin Hf]]; [|right; split; [by constructor|done]].
        destruct (decide (f = nm)) as [->|].
        -- right. split; [constructor|]. rewrite Hf. apply lookup_delete_eq.
        -- left. rewrite Hf. by apply lookup_delete_ne.
Qed.

Lemma list_cfs_quiet d :
  spec (at_store d) list_cfs
    (fun r e => at_store d e /\ exists l, r = Some l /\ forall n, n ∈ l <-> is_Some (d !! n))
    (fun e => committed e = d).
Proof.
  eapply spec_weaken;
    [exact (spec_conj _ _ _ _ _ _ _ quiet_list_cfs (list_cfs_law d))|done| |by intros e [_ H]].
  intros r e [[Hq [l ->]] [H1 H2]]. split; [done|]. by exists l.
Qed.

(** Names that are not owned, the catalog among them, are left alone. *)
Lemma drop_names_spec d d1 l cf :
  others_same FK_CATALOG_CF d d1 -> owned cf FK_CATALOG_CF = false ->
  (forall n, n ∈ l <-> is_Some (d1 !! n)) ->
  forall d2, (forall f, d2 !! f = if decide (f ∈ listed (Some l) (cf ++ CF_INDEX_INFIX)) then None
                                  else delete cf d1 !! f) ->
    dropped (owned cf) d d2.
Proof.
  intros Hs Hn Hl d2 H2 f. rewrite H2.
  pose proof (listed_spec d1 l (cf ++ CF_INDEX_INFIX) f Hl) as Hf. unfold owned.
  destruct (decide (f ∈ listed (Some l) (cf ++ CF_INDEX_INFIX))) as [Hin|Hin].
  - apply Hf in Hin as [_ ->]. by rewrite orb_true_r.
  - destruct (decide (f = cf)) as [->|Hne].
    + rewrite bool_decide_true by done. simpl. apply lookup_delete_eq.
    + rewrite (bool_decide_false (f = cf)) by done. simpl. rewrite lookup_delete_ne by done.
      destruct (starts_with (cf ++ CF_INDEX_INFIX) f) eqn:Es.
      * destruct (d1 !! f) eqn:Ed; [|done]. exfalso. apply Hin, Hf. eauto.
      * case_bool_decide; [done|]. by apply Hs.
Qed.

Lemma drop_table_quiet d path :
  owned (CfName.to_cf_name path) FK_CATALOG_CF = false ->
  spec (at_store d) (tdb_ddl_drop_table_cfs_now true path)
    (fun rc e => rc = TDB_SUCCESS /\ quiet e /\ dropped (owned (CfName.to_cf_name path)) d (committed e))
    (fun e => forall f, owned (CfName.to_cf_name path) f = false -> f <> FK_CATALOG_CF ->
                committed e !! f = d !! f).
Proof.
  intros Hn. unfold tdb_ddl_drop_table_cfs_now. cbn [negb]. set (cf := CfName.to_cf_name path) in *.
  eapply spec_bind; [eapply spec_crash; [apply (fk_purge_frame d cf)|intros e H f _ Hf; by apply H]|].
  intros ?. apply spec_at. intros e1 [Hq1 Hs1]. set (d1 := committed e1) in *.
  eapply spec_bind.
  { eapply spec_weaken; [apply (list_cfs_quiet d1)|by intros e ->|by intros r e H; exact H|].
    intros e -> f _ Hf. by apply Hs1. }
  intros r. apply (spec_pure _ (exists l, r = Some l /\ forall n, n ∈ l <-> is_Some (d1 !! n)));
    [by intros e [_ H]|]. intros (l & -> & Hl).
  eapply spec_bind.
  { eapply spec_weaken; [apply (drop_cf_quiet d1 cf)|by intros e [H _]|by intros rc e H; exact H|].
    intros e [-> | ->] f Hf Hfk; [by apply Hs1|]. rewrite lookup_delete_ne; [by apply Hs1|].
    intros <-. unfold owned in Hf. by rewrite bool_decide_true in Hf. }
  intros rc. apply (spec_pure _ (rc = TDB_SUCCESS \/ rc = TDB_ERR_NOT_FOUND)); [by intros e [H _]|].
  intros Hrc. set (names := listed (Some l) (cf ++ CF_INDEX_INFIX)).
  assert (spec (at_store (delete cf d1)) (bind (drop_each names) (fun _ => ret TDB_SUCCESS))
    (fun rc e => rc = TDB_SUCCESS /\ quiet e /\ dropped (owned cf) d (committed e))
    (fun e => forall f, owned cf f = false -> f <> FK_CATALOG_CF -> committed e !! f = d !! f)) as Hrest.
  { eapply spec_bind; [eapply spec_crash; [apply (drop_each_quiet (delete cf d1) names)|]|].
    - intros e H f Hf Hfk. unfold owned in Hf. apply orb_false_iff in Hf as [Hc%bool_decide_eq_false Hp].
      destruct (H f) as [Hf|[Hin _]].
      + rewrite Hf, lookup_delete_ne by done. by apply Hs1.
      + apply (listed_spec d1 l) in Hin as [_ Hin]; [congruence|done].
    - intros ?. apply spec_ret. intros e [Hq H]. split_and!; [done..|].
      by apply (drop_names_spec d d1 l cf Hs1 Hn Hl). }
  eapply spec_weaken; [|intros e [_ H]; exact H|by intros rc0 e H; exact H|by intros e H; exact H].
  destruct Hrc as [-> | ->]; exact Hrest.
Qed.

(** ** Properties *)

(** Dropping a table removes its families and nothing else's: when the library reports no
    failure, [tdb_ddl_drop_table_cfs_now] succeeds and the families gone are exactly the table's data
    family and the families named after its indexes; every other family but the foreign-key catalog
    keeps its contents, and a crash halfway has touched none of them either. *)
Lemma drop_table_exact d path f :
  owned (CfName.to_cf_name path) FK_CATALOG_CF = false ->
  spec (at_store d) (tdb_ddl_drop_table_cfs_now true path)
    (fun rc e => rc = TDB_SUCCESS /\
       committed e !! f = if owned (CfName.to_cf_name path) f then None
                          else if bool_decide (f = FK_CATALOG_CF) then committed e !! f else d !! f)
    (fun e => owned (CfName.to_cf_name path) f = false -> f <> FK_CATALOG_CF ->
                committed e !! f = d !! f).
Proof.
  intros Hn. eapply spec_weaken; [apply (drop_table_quiet d path Hn)|done| |intros e H; apply H].
  intros rc e (Hrc & Hq & Hd). split; [done|]. specialize (Hd f).
  destruct (owned _ f); [done|]. by case_bool_decide.
Qed.

(** Dropping a database removes exactly the families whose names start with the database's name
    and the separator; the others keep their contents, also across a crash. *)
Lemma drop_database_exact d path f :
  tidesdb_path_to_db_name (Some path) <> [] ->
  let prefix := tidesdb_path_to_db_name (Some path) ++ CF_DB_TABLE_SEP in
  spec (at_store d) (tidesdb_hton_drop_database true (Some path))
    (fun _ e => committed e !! f = if starts_with prefix f then None else d !! f)
    (fun e => starts_with prefix f = false -> committed e !! f = d !! f).
Proof.
  intros Hne prefix. unfold tidesdb_hton_drop_database. cbn [negb].
  destruct (tidesdb_path_to_db_name (Some path)) as [|c db] eqn:Edb; [done|].
  eapply spec_bind; [eapply spec_crash; [apply (list_cfs_quiet d)|by intros e -> _]|]. intros r.
  apply (spec_pure _ (exists l, r = Some l /\ forall n, n ∈ l <-> is_Some (d !! n)));
    [by intros e [_ H]|]. intros (l & -> & Hl).
  pose proof (listed_spec d l prefix f Hl) as Hf.
  eapply spec_weaken; [apply (drop_each_quiet d (listed (Some l) prefix))|by intros e [H _]|..].
  - intros _ e [_ H]. rewrite H. destruct (decide _) as [Hin|Hin].
    + by apply Hf in Hin as [_ ->].
    + destruct (starts_with prefix f) eqn:Es; [|done]. destruct (d !! f) eqn:Ed; [|done].
      exfalso. apply Hin, Hf. eauto.
  - intros e H Hs. destruct (H f) as [E0|[Hin _]]; [done|]. apply Hf in Hin as [_ Hin]. congruence.
Qed.

End proofs.

(** ** Witnesses and consequences *)

(** Two databases and three tables: [a.t] with an index, [a.t__idx_k] and [a__b.t]. *)
Definition two_databases : store :=
  <[bs "a__t" := ∅]> (<[bs "a__t__idx_k" := ∅]> (<[bs "a__b__t" := {[ [1] := [2] ]}]>
    (<[FK_CATALOG_CF := ∅]> ∅))).

(** Family names do not keep tables apart from indexes or databases from databases: dropping
    table [a.t] also drops the data of table [a.t__idx_k], and dropping database [a] also drops the
    data of table [t] of database [a__b]. *)
Lemma drops_reach_other_tables :
  CfName.to_cf_name (CfName.user_path (bs "a") (bs "t__idx_k")) = bs "a__t__idx_k" /\
  committed (tdb_ddl_drop_table_cfs_now (E := mem_db) (T := unit) true (CfName.user_path (bs "a") (bs "t"))
    {| mem := two_databases; buf := []; script := [] |}).1 !! bs "a__t__idx_k" = None /\
  CfName.to_cf_name (CfName.user_path (bs "a__b") (bs "t")) = bs "a__b__t" /\
  committed (tidesdb_hton_drop_database (E := mem_db) (T := unit) true (Some (bs "./a/"))
    {| mem := two_databases; buf := []; script := [] |}).1 !! bs "a__b__t" = None.
Proof. vm_compute. repeat split. Qed.

End Lifecycle.
