(* ===== verification/DdlDeferred.v ===== *)
(** * Deferred DDL ([src/handler/ha_tidesdb_ddl_deferred.cc])

    A [CREATE] or [DROP] writes an intent record through the statement's own transaction; the
    post-DDL hook reads back whether the record reached storage and removes the table's families
    accordingly, and the first hook after a restart resolves the records an earlier run left.  The
    module's statics are a record threaded through the monad; [stmt_txn] is the transaction
    [tdb_stmt_txn_for_ddl] answers with for the running statement. *)
From S2P Require Import Prelude Effects TidesDb CfName DdlLog FkCatalog Lifecycle.
#[local] Open Scope Z_scope.
#[local] Open Scope tdb_scope.

Module DdlDeferred.
Import Lifecycle.

Definition TDB_DDL_CF_NAME : bytes := CfName.TDB_DDL_CF_NAME.
Definition HA_ERR_GENERIC : Z := 168.

Record ddl (E T : Type) := {
  db : E;
  tdb_global : bool;
  tdb_ddl_boot_id : Z;
  tdb_ddl_sequence : Z;
  tdb_ddl_cf : bool;
  tdb_ddl_recovered : bool;
  tdb_ddl_stmt_records : list (bytes * DdlLog.record);
  stmt_txn : option T }.
Arguments db {E T}.
Arguments tdb_global {E T}.
Arguments tdb_ddl_boot_id {E T}.
Arguments tdb_ddl_sequence {E T}.
Arguments tdb_ddl_cf {E T}.
Arguments tdb_ddl_recovered {E T}.
Arguments tdb_ddl_stmt_records {E T}.
Arguments stmt_txn {E T}.

Section code.
Context {E T : Type} `{!TidesDb E T} `{!FamilyDb E T}.
Local Open Scope eff_scope.

Definition set_db (e : E) (s : ddl E T) : ddl E T :=
  {| db := e; tdb_global := tdb_global s; tdb_ddl_boot_id := tdb_ddl_boot_id s;
     tdb_ddl_sequence := tdb_ddl_sequence s; tdb_ddl_cf := tdb_ddl_cf s;
     tdb_ddl_recovered := tdb_ddl_recovered s; tdb_ddl_stmt_records := tdb_ddl_stmt_records s;
     stmt_txn := stmt_txn s |}.
Definition set_cf (b : bool) (s : ddl E T) : ddl E T :=
  {| db := db s; tdb_global := tdb_global s; tdb_ddl_boot_id := tdb_ddl_boot_id s;
     tdb_ddl_sequence := tdb_ddl_sequence s; tdb_ddl_cf := b;
     tdb_ddl_recovered := tdb_ddl_recovered s; tdb_ddl_stmt_records := tdb_ddl_stmt_records s;
     stmt_txn := stmt_txn s |}.
Definition next_sequence (s : ddl E T) : ddl E T :=
  {| db := db s; tdb_global := tdb_global s; tdb_ddl_boot_id := tdb_ddl_boot_id s;
     tdb_ddl_sequence := u64 (tdb_ddl_sequence s + 1); tdb_ddl_cf := tdb_ddl_cf s;
     tdb_ddl_recovered := tdb_ddl_recovered s; tdb_ddl_stmt_records := tdb_ddl_stmt_records s;
     stmt_txn := stmt_txn s |}.
Definition set_records (l : list (bytes * DdlLog.record)) (s : ddl E T) : ddl E T :=
  {| db := db s; tdb_global := tdb_global s; tdb_ddl_boot_id := tdb_ddl_boot_id s;
     tdb_ddl_sequence := tdb_ddl_sequence s; tdb_ddl_cf := tdb_ddl_cf s;
     tdb_ddl_recovered := tdb_ddl_recovered s; tdb_ddl_stmt_records := l;
     stmt_txn := stmt_txn s |}.
Definition set_recovered (s : ddl E T) : ddl E T :=
  {| db := db s; tdb_global := tdb_global s; tdb_ddl_boot_id := tdb_ddl_boot_id s;
     tdb_ddl_sequence := tdb_ddl_sequence s; tdb_ddl_cf := tdb_ddl_cf s;
     tdb_ddl_recovered := true; tdb_ddl_stmt_records := tdb_ddl_stmt_records s;
     stmt_txn := stmt_txn s |}.

Definition on_db {A} (m : M E A) : M (ddl E T) A := lift db set_db m.

Definition tdb_ddl_split_path (path : option bytes) : option (bytes * bytes) :=
  match path with
  | None => None
  | Some p =>
      let parts := CfName.split_table_path p in
      if negb (CfName.has_dir parts) || (zlen (CfName.db parts) =? 0) || (zlen (CfName.table parts) =? 0)
      then None else Some (CfName.db parts, CfName.table parts)
  end.

Definition tdb_ddl_open_cf : M (ddl E T) bool :=
  cf <-- gets tdb_ddl_cf; g <-- gets tdb_global;
  if cf || negb g then ret cf
  else
    r <-- on_db (get_cf TDB_DDL_CF_NAME);
    modify (set_cf r);;
    (if r then ret tt
     else
       rc <-- on_db (create_cf TDB_DDL_CF_NAME);
       if tdb_ok rc then r <-- on_db (get_cf TDB_DDL_CF_NAME); modify (set_cf r) else ret tt);;
    gets tdb_ddl_cf.

Definition tdb_ddl_write (key value : bytes) : M (ddl E T) bool :=
  cf <-- tdb_ddl_open_cf; g <-- gets tdb_global;
  if negb cf || negb g then ret false
  else
    t <-- gets stmt_txn;
    match t with
    | None => ret false
    | Some t => rc <-- on_db (txn_put t TDB_DDL_CF_NAME key value); ret (tdb_ok rc)
    end.

Definition tdb_ddl_erase (key : bytes) : M (ddl E T) unit :=
  cf <-- tdb_ddl_open_cf; g <-- gets tdb_global;
  if negb cf || negb g then ret tt
  else
    t <-- on_db txn_begin;
    match t with
    | inl _ => ret tt
    | inr t =>
        rc <-- on_db (txn_delete t TDB_DDL_CF_NAME key);
        if tdb_ok rc then on_db (txn_commit t);; ret tt
        else on_db (txn_rollback t);; ret tt
    end.

Definition tdb_ddl_record (thd : ptr) (path : option bytes) (what : DdlLog.intent) : M (ddl E T) bool :=
  match thd, path, tdb_ddl_split_path path with
  | nonnull, Some p, Some (d, t) =>
      let rec := {| DdlLog.what := what; DdlLog.path := p; DdlLog.db := d; DdlLog.table := t |} in
      match DdlLog.encode_record rec with
      | (false, _) => ret false
      | (true, value) =>
          boot <-- gets tdb_ddl_boot_id; seq <-- gets tdb_ddl_sequence;
          modify next_sequence;;
          let key := DdlLog.encode_key boot seq nonnull in
          ok <-- tdb_ddl_write key value;
          if negb ok then ret false
          else
            l <-- gets tdb_ddl_stmt_records;
            modify (set_records (l ++ [(key, rec)]));; ret true
      end
  | _, _, _ => ret false
  end.

Definition tdb_ddl_record_survived (key : bytes) : M (ddl E T) bool :=
  cf <-- tdb_ddl_open_cf; g <-- gets tdb_global;
  if negb cf || negb g then ret false
  else
    t <-- on_db txn_begin;
    match t with
    | inl _ => ret false
    | inr t =>
        r <-- on_db (txn_get t TDB_DDL_CF_NAME key);
        on_db (txn_rollback t);;
        ret (match r with inr _ => true | inl _ => false end)
    end.

Definition is_drop (i : DdlLog.intent) : bool :=
  match i with DdlLog.drop_intent => true | DdlLog.create_intent => false end.

Definition remove_families (rec : DdlLog.record) (committed : bool) : bool :=
  Bool.eqb (is_drop (DdlLog.what rec)) committed.

Definition tdb_ddl_resolve (key : bytes) (rec : DdlLog.record) (committed : bool) : M (ddl E T) unit :=
  if remove_families rec committed then
    g <-- gets tdb_global;
    rc <-- on_db (tdb_ddl_drop_table_cfs_now g (DdlLog.path rec));
    if negb (tdb_ok rc) then ret tt else tdb_ddl_erase key
  else tdb_ddl_erase key.

(** What one step of the recovery walk collects. *)
Definition pending_record (boot_id : Z) (kv : bytes * bytes) : option (bytes * DdlLog.record) :=
  match DdlLog.decode_key_boot_id (Some kv.1) nonnull with
  | None => None
  | Some boot =>
      if boot =? boot_id then None
      else
        match DdlLog.decode_record (Some kv.2) nonnull with
        | None => None
        | Some rec => Some (kv.1, rec)
        end
  end.

Fixpoint resolve_all (l : list (bytes * DdlLog.record)) : M (ddl E T) unit :=
  match l with
  | [] => ret tt
  | (k, rec) :: l => tdb_ddl_resolve k rec true;; resolve_all l
  end.

Definition tdb_ddl_recover : M (ddl E T) unit :=
  cf <-- tdb_ddl_open_cf; g <-- gets tdb_global;
  if negb cf || negb g then ret tt
  else
    t <-- on_db txn_begin;
    match t with
    | inl _ => ret tt
    | inr t =>
        r <-- on_db (scan t TDB_DDL_CF_NAME);
        on_db (txn_rollback t);;
        match r with
        | inl _ => ret tt
        | inr _ =>
            boot <-- gets tdb_ddl_boot_id;
            resolve_all (omap (pending_record boot) (FkCatalog.walked r))
        end
    end.

Fixpoint resolve_mine (l : list (bytes * DdlLog.record)) : M (ddl E T) unit :=
  match l with
  | [] => ret tt
  | (k, rec) :: l => b <-- tdb_ddl_record_survived k; tdb_ddl_resolve k rec b;; resolve_mine l
  end.

Definition tdb_ddl_post_ddl (thd : ptr) : M (ddl E T) unit :=
  match thd with
  | null => ret tt
  | nonnull =>
      r <-- gets tdb_ddl_recovered;
      (if r then ret tt else modify set_recovered;; tdb_ddl_recover);;
      mine <-- gets tdb_ddl_stmt_records;
      modify (set_records []);;
      resolve_mine mine
  end.

(** 0 for success; a library code of an immediate removal is passed on as its own. *)
Definition tdb_ddl_drop_table (thd : ptr) (path : bytes) : M (ddl E T) (tdb_rc + Z) :=
  match thd, tdb_ddl_split_path (Some path) with
  | nonnull, Some _ =>
      ok <-- tdb_ddl_record thd (Some path) DdlLog.drop_intent;
      ret (inr (if negb ok then HA_ERR_GENERIC else 0))
  | _, _ => g <-- gets tdb_global; rc <-- on_db (tdb_ddl_drop_table_cfs_now g path); ret (inl rc)
  end.

Definition tdb_ddl_note_created (thd : ptr) (path : option bytes) : M (ddl E T) unit :=
  match thd, tdb_ddl_split_path path with
  | nonnull, Some _ => tdb_ddl_record thd path DdlLog.create_intent;; ret tt
  | _, _ => ret tt
  end.

(** One DDL statement: its table changes are noted, the server then commits or rolls back the
    statement's transaction, and the post-DDL hook runs. *)
Definition note (c : bytes * DdlLog.intent) : M (ddl E T) unit :=
  tdb_ddl_record nonnull (Some c.1) c.2;; ret tt.
Fixpoint note_all (cs : list (bytes * DdlLog.intent)) : M (ddl E T) unit :=
  match cs with [] => ret tt | c :: cs => note c;; note_all cs end.
Definition finish (commit : bool) : M (ddl E T) unit :=
  t <-- gets stmt_txn;
  match t with
  | None => ret tt
  | Some t => on_db (if commit then txn_commit t else txn_rollback t);; ret tt
  end.
Definition statement (cs : list (bytes * DdlLog.intent)) (commit : bool) : M (ddl E T) unit :=
  note_all cs;; finish commit;; tdb_ddl_post_ddl nonnull.

End code.

(** ** What the theorems speak of *)

(** Families whose contents the DDL module does not manage by name. *)
Definition managed (f : bytes) : Prop := f <> TDB_DDL_CF_NAME /\ f <> FkCatalog.FK_CATALOG_CF.

(** [d'] is [d] without the families [gone] selects and without the log records [keys]. *)
Definition resolved (gone : bytes -> bool) (keys : list bytes) (d d' : store) : Prop :=
  (forall f, managed f -> d' !! f = if gone f then None else d !! f) /\
  (forall k, db_get TDB_DDL_CF_NAME k d' =
             if decide (k ∈ keys) then None else db_get TDB_DDL_CF_NAME k d) /\
  (is_Some (d !! TDB_DDL_CF_NAME) -> is_Some (d' !! TDB_DDL_CF_NAME)).

(** A path whose families are neither the log nor the catalog. *)
Definition user_table (path : bytes) : Prop :=
  owned (CfName.to_cf_name path) TDB_DDL_CF_NAME = false /\
  owned (CfName.to_cf_name path) FkCatalog.FK_CATALOG_CF = false.

(** The families the records of a statement with this outcome remove. *)
Definition removes (l : list (bytes * DdlLog.record)) (b : bool) (f : bytes) : bool :=
  existsb (fun kr => remove_families kr.2 b && owned (CfName.to_cf_name (DdlLog.path kr.2)) f) l.

(** ** Lemmas *)

Lemma resolved_refl d : resolved (fun _ => false) [] d d.
Proof. split_and!; [done| |done]. intros k. by rewrite decide_False by apply not_elem_of_nil. Qed.

Lemma resolved_trans g1 g2 k1 k2 d1 d2 d3 :
  resolved g1 k1 d1 d2 -> resolved g2 k2 d2 d3 ->
  resolved (fun f => g1 f || g2 f) (k1 ++ k2) d1 d3.
Proof.
  intros (H1 & L1 & F1) (H2 & L2 & F2). split_and!; [| |auto].
  - intros f Hf. rewrite H2, H1 by done. destruct (g1 f), (g2 f); done.
  - intros k. rewrite L2, L1. destruct (decide (k ∈ k2)) as [H|H].
    + rewrite decide_True; [done|]. apply elem_of_app. by right.
    + destruct (decide (k ∈ k1)).
      * rewrite decide_True; [done|]. apply elem_of_app. by left.
      * rewrite decide_False; [done|]. rewrite elem_of_app. tauto.
Qed.

Lemma resolved_ext g g' ks d d' :
  (forall f, g f = g' f) -> resolved g ks d d' -> resolved g' ks d d'.
Proof. intros E0 (H1 & H2). split; [|done]. intros f Hf. rewrite <- E0. by apply H1. Qed.

Section proofs.
Context {E T : Type} `{!TidesDb E T} `{!FamilyDb E T} `{!QuietDb E T} `{!QuietFamilies E T}.

(** Only the library's state differs from [s0]. *)
Definition only_db (s0 s : ddl E T) : Prop := s = set_db (db s) s0.

Lemma ddl_on_db_spec {A} (m : M E A) (s0 : ddl E T) (P : E -> Prop) (Q : A -> E -> Prop) (C : E -> Prop) :
  spec P m Q C ->
  spec (fun s => only_db s0 s /\ P (db s)) (on_db m) (fun a s => only_db s0 s /\ Q a (db s))
    (fun s => C (db s)).
Proof.
  intros H. apply spec_lift. intros s1 [Hl HP]. eapply spec_weaken; [exact H| | |done].
  - by intros e ->.
  - intros a e He. split; [|done]. unfold only_db in *. by rewrite Hl.
Qed.

(** The module is up over contents [d]. *)
Definition up (s0 : ddl E T) (d : store) (s : ddl E T) : Prop := only_db s0 s /\ at_store d (db s).

Context (s0 : ddl E T) (Hglobal : tdb_global s0 = true) (Hcf : tdb_ddl_cf s0 = true).

Lemma open_cf_up d C : spec (up s0 d) tdb_ddl_open_cf (fun r s => r = true /\ up s0 d s) C.
Proof.
  unfold tdb_ddl_open_cf. apply spec_bind_gets. intros cf. apply spec_bind_gets_any. intros g.
  apply (spec_pure _ (cf = true)).
  { intros s [[Ho _] <-]. by rewrite Ho. }
  intros ->. apply spec_ret. by intros s [H _].
Qed.

Lemma global_up {A} d (k : bool -> M (ddl E T) A) Q C :
  spec (up s0 d) (k true) Q C -> spec (up s0 d) (bind (gets tdb_global) k) Q C.
Proof.
  intros H. apply spec_bind_gets. intros g. apply (spec_pure _ (g = true)).
  { intros s [[Ho _] <-]. by rewrite Ho. }
  intros ->. eapply spec_weaken; [exact H|by intros s [? _]|done|done].
Qed.

Lemma erase_up d key :
  spec (up s0 d) (tdb_ddl_erase key)
    (fun _ => up s0 (apply_write (W_delete TDB_DDL_CF_NAME key) d))
    (fun s => committed (db s) = d \/
              committed (db s) = apply_write (W_delete TDB_DDL_CF_NAME key) d).
Proof.
  unfold tdb_ddl_erase. eapply spec_bind; [apply open_cf_up|]. intros cf.
  apply (spec_pure _ (cf = true)); [by intros s [H _]|]. intros ->.
  eapply spec_weaken; [|by intros s [_ H]; exact H|by intros a s H; exact H|by intros s H; exact H].
  apply global_up. cbn [negb orb].
  eapply spec_bind.
  { eapply spec_crash; [apply (ddl_on_db_spec _ s0), (FkCatalog.begin_quiet d)|by left]. }
  intros r. apply (spec_pure _ (exists t, r = inr t)); [by intros s [_ (t & -> & _)]; exists t|].
  intros [t ->]. eapply spec_bind.
  { eapply spec_weaken; [apply (ddl_on_db_spec _ s0),
      (spec_conj _ _ _ _ _ _ _ (quiet_delete t TDB_DDL_CF_NAME key)
         (txn_delete_law d [] t TDB_DDL_CF_NAME key))| | |by intros s [_ H]; left].
    - intros s [H (t' & [= ->] & Hq & H1 & H2)]. by repeat split.
    - intros rc s H. exact H. }
  intros rc. apply (spec_pure _ (rc = TDB_SUCCESS)); [by intros s [_ [[_ H] _]]|]. intros ->.
  eapply (spec_bind _ _ (fun _ => up s0 (apply_write (W_delete TDB_DDL_CF_NAME key) d)));
    [|intros ?; by apply spec_ret].
  eapply spec_weaken; [apply (ddl_on_db_spec _ s0), (FkCatalog.commit_quiet d t [W_delete TDB_DDL_CF_NAME key])| | |by intros s H; exact H].
  - intros s [H [[Hq _] [H1 H2]]]. by repeat split.
  - intros rc s [H (_ & Hq & Hd)]. by repeat split.
Qed.

Lemma survived_up d key :
  spec (up s0 d) (tdb_ddl_record_survived key)
    (fun r s => r = bool_decide (is_Some (db_get TDB_DDL_CF_NAME key d)) /\ up s0 d s)
    (fun s => committed (db s) = d).
Proof.
  unfold tdb_ddl_record_survived. eapply spec_bind; [apply open_cf_up|]. intros cf.
  apply (spec_pure _ (cf = true)); [by intros s [H _]|]. intros ->.
  eapply spec_weaken; [|by intros s [_ H]; exact H|by intros a s H; exact H|by intros s H; exact H].
  apply global_up. cbn [negb orb].
  eapply spec_bind.
  { eapply spec_weaken; [apply (ddl_on_db_spec _ s0), (FkCatalog.begin_quiet d)|done|by intros a s H; exact H|done]. }
  intros r. apply (spec_pure _ (exists t, r = inr t)); [by intros s [_ (t & -> & _)]; exists t|].
  intros [t ->]. eapply spec_bind.
  { eapply spec_weaken; [apply (ddl_on_db_spec _ s0),
      (spec_conj _ _ _ _ _ _ _ (quiet_get t TDB_DDL_CF_NAME key)
         (txn_get_law d [] t TDB_DDL_CF_NAME key))| | |by intros s [_ H]].
    - intros s [H (t' & [= ->] & Hq & H1 & H2)]. by repeat split.
    - intros rc s H. exact H. }
  intros r. apply (spec_pure _ (match r with inr _ => true | inl _ => false end
      = bool_decide (is_Some (db_get TDB_DDL_CF_NAME key d)))).
  { intros s [_ [[_ [-> |[v ->]]] [_ H]]]; simpl in H; rewrite H; [by rewrite bool_decide_false|].
    by rewrite bool_decide_true. }
  intros Hr. eapply (spec_bind _ _ (fun _ => up s0 d)).
  - eapply spec_weaken; [apply (ddl_on_db_spec _ s0),
      (spec_conj _ _ _ _ _ _ _ (quiet_rollback t) (txn_rollback_law d t))| | |by intros s [_ H]].
    + intros s [H [[Hq _] [[H1 _] _]]]. by repeat split.
    + intros a s [H [Hq H1]]. by repeat split.
  - intros ?. apply spec_ret. by intros s H.
Qed.

(** Where one resolution may have got to when the server dies. *)
Definition partway (path : bytes) (d d' : store) : Prop :=
  forall f, managed f -> owned (CfName.to_cf_name path) f = false -> d' !! f = d !! f.

Lemma resolve_up d key rec b :
  user_table (DdlLog.path rec) ->
  spec (up s0 d) (tdb_ddl_resolve key rec b)
    (fun _ s => only_db s0 s /\ quiet (db s) /\
       resolved (fun f => remove_families rec b && owned (CfName.to_cf_name (DdlLog.path rec)) f) [key]
         d (committed (db s)))
    (fun s => partway (DdlLog.path rec) d (committed (db s))).
Proof.
  intros [Hlog Hfk]. set (path := DdlLog.path rec) in *.
  assert (forall (d1 : store) (g : bytes -> bool), (forall f, managed f -> d1 !! f = if g f then None else d !! f) ->
            d1 !! TDB_DDL_CF_NAME = d !! TDB_DDL_CF_NAME ->
            resolved g [key] d (apply_write (W_delete TDB_DDL_CF_NAME key) d1)) as Herase.
  { intros d1 g Hg Hl. split_and!.
    - intros f [Hf Hf']. unfold apply_write. rewrite lookup_alter_ne by done. by apply Hg.
    - intros k. rewrite db_get_delete. unfold db_get. rewrite Hl.
      destruct (decide (k = key)) as [->|]; [by rewrite decide_True by constructor|].
      rewrite decide_False; [done|]. rewrite list_elem_of_singleton. done.
    - intros Ho. apply apply_write_family. by rewrite Hl. }
  assert (forall d1 d2 : store, partway path d d1 -> (d2 = d1 \/ d2 = apply_write (W_delete TDB_DDL_CF_NAME key) d1) ->
            partway path d d2) as Hpart.
  { intros d1 d2 H [-> | ->] f [Hf Hf'] Ho; [by apply H|]. unfold apply_write.
    rewrite lookup_alter_ne by done. by apply H. }
  unfold tdb_ddl_resolve. destruct (remove_families rec b); cbn [andb].
  2: { eapply spec_weaken; [apply (erase_up d key)|done|..].
       - intros _ s (Ho & Hq & Hd). split_and!; [done..|]. rewrite Hd. by apply Herase.
       - intros s H. eapply Hpart; [|exact H]. done. }
  apply global_up. eapply spec_bind.
  { eapply spec_weaken; [apply (ddl_on_db_spec _ s0), (drop_table_quiet d path Hfk)|by intros s [H1 H2]|..].
    - intros rc s H. exact H.
    - intros s H f [Hf Hf'] Ho. by apply H. }
  intros rc. apply (spec_pure _ (rc = TDB_SUCCESS)); [by intros s [_ [H _]]|]. intros ->. cbn [negb].
  change (tdb_ok TDB_SUCCESS) with true. cbn [negb].
  apply spec_at. intros s1 (Ho1 & _ & Hq1 & Hd1). set (d1 := committed (db s1)) in *.
  assert (forall f, managed f -> d1 !! f = if owned (CfName.to_cf_name path) f then None else d !! f) as Hm.
  { intros f [Hf Hf']. specialize (Hd1 f). destruct (owned _ f); [done|].
    by rewrite bool_decide_false in Hd1. }
  assert (d1 !! TDB_DDL_CF_NAME = d !! TDB_DDL_CF_NAME) as Hl.
  { specialize (Hd1 TDB_DDL_CF_NAME). rewrite Hlog in Hd1. by rewrite bool_decide_false in Hd1. }
  eapply spec_weaken; [apply (erase_up d1 key)|by intros s ->|..].
  - intros _ s (Ho & Hq & Hd). split_and!; [done..|]. rewrite Hd. by apply Herase.
  - intros s H. eapply Hpart; [|exact H]. intros f Hf Hown. rewrite Hm by done. by rewrite Hown.
Qed.

(** No family outside the listed tables has changed. *)
Definition bystanders (paths : list bytes) (d d' : store) : Prop :=
  forall f, managed f -> Forall (fun p => owned (CfName.to_cf_name p) f = false) paths -> d' !! f = d !! f.

Lemma bystanders_resolved paths p g k d d1 d2 :
  (forall f, owned (CfName.to_cf_name p) f = false -> g f = false) ->
  resolved g k d d1 -> bystanders paths d1 d2 -> bystanders (p :: paths) d d2.
Proof.
  intros Hg (H1 & _) H2 f Hf Hall. apply Forall_cons in Hall as [Hp Hall].
  rewrite H2, H1 by done. by rewrite Hg.
Qed.

Lemma resolve_mine_up d l b :
  NoDup (map fst l) ->
  Forall (fun kr => user_table (DdlLog.path kr.2) /\
                    bool_decide (is_Some (db_get TDB_DDL_CF_NAME kr.1 d)) = b) l ->
  spec (up s0 d) (resolve_mine l)
    (fun _ s => only_db s0 s /\ quiet (db s) /\ resolved (removes l b) (map fst l) d (committed (db s)))
    (fun s => bystanders (map (fun kr => DdlLog.path kr.2) l) d (committed (db s))).
Proof.
  revert d. induction l as [|[k rec] l IH]; intros d Hnd Hall.
  - apply spec_ret. intros s (Ho & Hq & Hd). rewrite Hd. split_and!; [done..|]. apply resolved_refl.
  - apply Forall_cons in Hall as [[Hu Hb] Hall]. cbn [map fst] in Hnd. apply NoDup_cons in Hnd as [Hk Hnd].
    cbn [resolve_mine]. eapply spec_bind.
    { eapply spec_crash; [apply (survived_up d k)|]. intros s H f _ _. by rewrite H. }
    intros b'. apply (spec_pure _ (b' = b)); [intros s [-> _]; exact Hb|]. intros ->.
    eapply spec_bind.
    { eapply spec_weaken; [apply (resolve_up d k rec b Hu)|by intros s [_ H]|by intros a s H; exact H|].
      intros s H f Hf [Hown _]%Forall_cons. by apply H. }
    intros ?. apply spec_at. intros s1 (Ho1 & Hq1 & Hr1). set (d1 := committed (db s1)) in *.
    assert (Forall (fun kr => user_table (DdlLog.path kr.2) /\
              bool_decide (is_Some (db_get TDB_DDL_CF_NAME kr.1 d1)) = b) l) as Hall1.
    { rewrite Forall_forall in *. intros kr Hin. destruct (Hall kr Hin) as [Hu' Hb']. split; [done|].
      destruct Hr1 as (_ & HL & _). rewrite HL, decide_False; [done|].
      rewrite list_elem_of_singleton. intros <-. apply Hk, list_elem_of_fmap. eauto. }
    eapply spec_weaken; [apply (IH d1 Hnd Hall1)|by intros s ->|..].
    + intros ? s (Ho & Hq & Hr). split_and!; [done..|].
      exact (resolved_trans _ _ [k] (map fst l) _ _ _ Hr1 Hr).
    + intros s H. eapply bystanders_resolved; [|exact Hr1|exact H].
      intros f Hf. cbn [snd] in Hf. cbv beta. by rewrite Hf, andb_false_r.
Qed.
End proofs.

(** *** Recovery in any environment *)

Section anyenv.
Context {E T : Type} `{!TidesDb E T} `{!FamilyDb E T}.

(** The drop is still on record, or the table's data family is gone. *)
Definition owed (key v path : bytes) (d : store) : Prop :=
  db_get TDB_DDL_CF_NAME key d = Some v \/ d !! CfName.to_cf_name path = None.

Lemma owed_fk key v path d d' :
  user_table path -> owed key v path d -> FkCatalog.others_same FkCatalog.FK_CATALOG_CF d d' ->
  owed key v path d'.
Proof.
  intros [_ Hu] [H|H] Ho; [left|right].
  - unfold db_get in *. by rewrite Ho.
  - rewrite Ho; [done|]. intros Hf. unfold owned in Hu. by rewrite Hf, bool_decide_true in Hu.
Qed.

Lemma owed_delete key v path path' d nm :
  user_table path' -> owned (CfName.to_cf_name path') nm = true -> owed key v path d ->
  owed key v path (delete nm d).
Proof.
  intros [Hu _] Ho [H|H]; [left|right].
  - unfold db_get in *. rewrite lookup_delete_ne; [done|]. intros ->. congruence.
  - rewrite lookup_delete_None. by right.
Qed.

Lemma owed_erase key v path k d :
  user_table path -> owed key v path d -> (k = key -> d !! CfName.to_cf_name path = None) ->
  owed key v path (apply_write (W_delete TDB_DDL_CF_NAME k) d).
Proof.
  intros [Hu _] Ho Hk.
  assert (d !! CfName.to_cf_name path = None ->
          apply_write (W_delete TDB_DDL_CF_NAME k) d !! CfName.to_cf_name path = None) as Hn.
  { intros H. unfold apply_write. rewrite lookup_alter_ne; [done|]. intros Hf.
    unfold owned in Hu. by rewrite <- Hf, bool_decide_true in Hu. }
  destruct (decide (k = key)) as [->|Hne]; [right; auto|].
  destruct Ho as [H|H]; [left|right; auto]. rewrite db_get_delete. by rewrite decide_False by congruence.
Qed.

(** The module is open; [I] holds of the contents. *)
Definition holding (s0 : ddl E T) (I : store -> Prop) (s : ddl E T) : Prop :=
  only_db s0 s /\ I (committed (db s)).

Context (s0 : ddl E T) (Hglobal : tdb_global s0 = true) (Hcf : tdb_ddl_cf s0 = true).

Lemma open_cf_holding (I : store -> Prop) C :
  spec (holding s0 I) tdb_ddl_open_cf (fun r s => r = true /\ holding s0 I s) C.
Proof.
  unfold tdb_ddl_open_cf. apply spec_bind_gets. intros cf. apply spec_bind_gets_any. intros g.
  apply (spec_pure _ (cf = true)); [intros s [[Ho _] <-]; by rewrite Ho|].
  intros ->. apply spec_ret. by intros s [H _].
Qed.

Lemma global_holding {A : Type} (I : store -> Prop) (k : bool -> M (ddl E T) A) Q C :
  spec (holding s0 I) (k true) Q C -> spec (holding s0 I) (bind (gets tdb_global) k) Q C.
Proof.
  intros H. apply spec_bind_gets. intros g. apply (spec_pure _ (g = true)).
  { intros s [[Ho _] <-]. by rewrite Ho. }
  intros ->. eapply spec_weaken; [exact H|by intros s [? _]|done|done].
Qed.

Lemma on_db_same {A : Type} (m : M E A) (I : store -> Prop) (R : A -> E -> Prop) :
  (forall d, spec (fun e => committed e = d) m (fun a e => committed e = d /\ R a e) (fun e => committed e = d)) ->
  spec (holding s0 I) (on_db m) (fun a s => holding s0 I s /\ R a (db s)) (fun s => I (committed (db s))).
Proof.
  intros H. apply spec_at. intros s1 [Ho HI].
  eapply spec_weaken; [apply (ddl_on_db_spec _ s0), (H (committed (db s1)))|by intros s ->|..].
  - intros a s [H1 [H2 H3]]. split; [split; [done|by rewrite H2]|done].
  - intros s H1. by rewrite H1.
Qed.

Lemma begin_any d :
  spec (fun e => committed e = d) txn_begin
    (fun r e => committed e = d /\ match r with inr t => pending e t = [] | inl _ => True end)
    (fun e => committed e = d).
Proof. eapply spec_weaken; [apply (txn_begin_law d)|done| |done]. intros [rc|t] e [H1 H2]; done. Qed.

Lemma rollback_any t d :
  spec (fun e => committed e = d) (txn_rollback t) (fun _ e => committed e = d /\ True) (fun e => committed e = d).
Proof. eapply spec_weaken; [apply (txn_rollback_law d t)|done| |done]. by intros r e H. Qed.

Lemma erase_any (I : store -> Prop) key :
  (forall d, I d -> I (apply_write (W_delete TDB_DDL_CF_NAME key) d)) ->
  spec (holding s0 I) (tdb_ddl_erase key) (fun _ => holding s0 I) (fun s => I (committed (db s))).
Proof.
  intros HI. unfold tdb_ddl_erase. eapply spec_bind; [apply open_cf_holding|]. intros cf.
  apply (spec_pure _ (cf = true)); [by intros s [H _]|]. intros ->.
  eapply spec_weaken; [|by intros s [_ H]; exact H|by intros a s H; exact H|by intros s H; exact H].
  apply global_holding. cbn [negb orb].
  eapply spec_bind; [apply on_db_same; intros d; apply begin_any|].
  intros [rc|t]; [by apply spec_ret; intros s [H _]|].
  apply spec_at. intros s1 [[Ho1 H1] Hp1]. set (d := committed (db s1)) in *. eapply spec_bind.
  { eapply spec_weaken; [apply (ddl_on_db_spec _ s0), (txn_delete_law d [] t TDB_DDL_CF_NAME key)|by intros s ->|..].
    - intros rc s H. exact H.
    - intros s H. cbv beta in H. by rewrite H. }
  intros rc. unfold tdb_ok. case_bool_decide as Hrc.
  - subst. apply (spec_bind _ _ (fun _ => holding s0 I)); [|intros ?; by apply spec_ret].
    eapply spec_weaken; [apply (ddl_on_db_spec _ s0), (txn_commit_law d [W_delete TDB_DDL_CF_NAME key] t)|done|..].
    + intros rc s [H2 H3]. split; [done|]. destruct rc; [rewrite H3; by apply HI| |by rewrite H3|];
        (destruct H3 as [H3|H3]; rewrite H3; [done|by apply HI]).
    + intros s [H3|H3]; rewrite H3; [done|by apply HI].
  - apply (spec_bind _ _ (fun _ => holding s0 I)); [|intros ?; by apply spec_ret].
    eapply spec_weaken; [apply (on_db_same _ I (fun _ _ => True)), (rollback_any t)| | |done].
    + intros s [H2 [H3 _]]. split; [done|]. by rewrite H3.
    + by intros ? s [H _].
Qed.

(** Resolving any record keeps a drop owed, unless it is that drop and it was carried out. *)
Lemma resolve_owed key v path k rec :
  user_table path -> user_table (DdlLog.path rec) ->
  (k = key -> DdlLog.path rec = path /\ DdlLog.what rec = DdlLog.drop_intent) ->
  spec (holding s0 (owed key v path)) (tdb_ddl_resolve k rec true)
    (fun _ => holding s0 (owed key v path)) (fun s => owed key v path (committed (db s))).
Proof.
  intros Hu Hur Hk. unfold tdb_ddl_resolve. destruct (remove_families rec true) eqn:Er.
  2: { apply erase_any. intros d Hd. apply owed_erase; [done|done|]. intros ->.
       destruct (Hk eq_refl) as [_ Hw]. unfold remove_families in Er. by rewrite Hw in Er. }
  apply global_holding. eapply spec_bind.
  { eapply spec_weaken; [apply (ddl_on_db_spec _ s0), (drop_table_any (owed key v path) (DdlLog.path rec))|..].
    - intros d d'. by apply owed_fk.
    - intros d nm. by apply owed_delete.
    - intros s [H1 H2]. by split.
    - intros rc s H. exact H.
    - done. }
  intros rc. unfold tdb_ok. case_bool_decide as Hrc; cbn [negb].
  2: { apply spec_ret. intros s (H1 & H2 & _). by split. }
  eapply spec_weaken; [apply (erase_any (fun d => owed key v path d /\ d !! CfName.to_cf_name (DdlLog.path rec) = None))|..].
  - intros d [H1 H2]. split.
    + apply owed_erase; [done|done|]. intros ->. destruct (Hk eq_refl) as [<- _]. done.
    + unfold apply_write. rewrite lookup_alter_ne; [done|]. intros Hf. destruct Hur as [Hl _].
      unfold owned in Hl. by rewrite <- Hf, bool_decide_true in Hl.
  - intros s (H1 & H2 & H3). split; [done|]. split; [done|auto].
  - by intros ? s [H1 [H2 _]].
  - by intros s [H _].
Qed.

Lemma resolve_all_owed key v path l :
  user_table path ->
  Forall (fun kr => user_table (DdlLog.path kr.2) /\
    (kr.1 = key -> DdlLog.path kr.2 = path /\ DdlLog.what kr.2 = DdlLog.drop_intent)) l ->
  spec (holding s0 (owed key v path)) (resolve_all l)
    (fun _ => holding s0 (owed key v path)) (fun s => owed key v path (committed (db s))).
Proof.
  intros Hu. induction 1 as [|[k rec] l [H1 H2] _ IH]; cbn [resolve_all]; [by apply spec_ret|].
  apply (spec_bind _ _ (fun _ => holding s0 (owed key v path))); [by apply resolve_owed|intros ?; exact IH].
Qed.
End anyenv.

(** *** A whole statement *)

Definition record_of (c : bytes * DdlLog.intent) (dt : bytes * bytes) : DdlLog.record :=
  {| DdlLog.what := c.2; DdlLog.path := c.1; DdlLog.db := dt.1; DdlLog.table := dt.2 |}.

(** A change the module can note: a table path with both components, short enough to record. *)
Definition notable (c : bytes * DdlLog.intent) : Prop :=
  user_table c.1 /\ exists dt, tdb_ddl_split_path (Some c.1) = Some dt /\ DdlLog.fits (record_of c dt).

Section statements.
Context {E T : Type} `{!TidesDb E T} `{!FamilyDb E T} `{!QuietDb E T} `{!QuietFamilies E T}.

(** The statement is open on [t] over contents [d] and has noted [l] since [s0]. *)
Definition noted (s0 : ddl E T) (t : T) (d : store) (l : list (bytes * DdlLog.record)) (s : ddl E T) : Prop :=
  s = {| db := db s; tdb_global := true; tdb_ddl_boot_id := tdb_ddl_boot_id s0;
         tdb_ddl_sequence := tdb_ddl_sequence s0 + zlen l; tdb_ddl_cf := true;
         tdb_ddl_recovered := tdb_ddl_recovered s0;
         tdb_ddl_stmt_records := l; stmt_txn := Some t |} /\
  FkCatalog.in_txn d t
    (map (fun kr => W_put TDB_DDL_CF_NAME kr.1 (DdlLog.encode_record kr.2).2) l) (db s).

(** The keys the statement's records get. *)
Definition key_at (s0 : ddl E T) (i : nat) : bytes :=
  DdlLog.encode_key (tdb_ddl_boot_id s0) (tdb_ddl_sequence s0 + Z.of_nat i) nonnull.

Lemma record_noted s0 t d l c dt :
  tdb_ddl_split_path (Some c.1) = Some dt -> DdlLog.fits (record_of c dt) ->
  0 <= tdb_ddl_sequence s0 -> tdb_ddl_sequence s0 + zlen l + 1 < 2 ^ 64 ->
  spec (noted s0 t d l) (note c)
    (fun _ => noted s0 t d (l ++ [(key_at s0 (length l), record_of c dt)]))
    (fun s => committed (db s) = d).
Proof.
  intros Hs Hf Hseq Hlt. unfold note, tdb_ddl_record. destruct c as [p what], dt as [dbn tbn].
  cbn [fst snd] in *. rewrite Hs.
  assert (exists v, DdlLog.encode_record (record_of (p, what) (dbn, tbn)) = (true, v)) as [v Hv].
  { eexists. by apply DdlLog.encode_record_fits. }
  unfold record_of in Hv at 1. cbn [fst snd] in Hv. rewrite Hv.
  intros s [Hst Hin]. set (key := key_at s0 (length l)).
  pose proof (FkCatalog.put_quiet d t _ TDB_DDL_CF_NAME key v (db s) Hin) as Hput.
  rewrite Hst. clear Hst.
  cbv beta iota zeta delta [bind gets modify ret next_sequence tdb_ddl_write tdb_ddl_open_cf on_db lift
    set_records set_db db tdb_global tdb_ddl_boot_id tdb_ddl_sequence tdb_ddl_cf tdb_ddl_recovered
    tdb_ddl_stmt_records stmt_txn orb negb].
  fold (tdb_ddl_boot_id s0) (tdb_ddl_sequence s0) (db s) (tdb_ddl_recovered s0).
  change (DdlLog.encode_key (tdb_ddl_boot_id s0) (tdb_ddl_sequence s0 + zlen l) nonnull) with key.
  destruct (txn_put t TDB_DDL_CF_NAME key v (db s)) as [e' [rc|]]; [|exact Hput].
  destruct Hput as [-> Hput]. change (tdb_ok TDB_SUCCESS) with true. cbv iota. split.
  - cbn [db]. f_equal. unfold u64. rewrite zlen_app. change (zlen [_]) with 1.
    pose proof (zlen_nonneg l). rewrite Z.mod_small by lia. lia.
  - cbn [db]. rewrite map_app. cbn [map fst snd]. unfold record_of. cbn [fst snd]. rewrite Hv. exact Hput.
Qed.

(** The records of a list of changes, from the [i]th key on. *)
Inductive records_from (s0 : ddl E T) : nat -> list (bytes * DdlLog.intent) -> list (bytes * DdlLog.record) -> Prop :=
  | records_nil i : records_from s0 i [] []
  | records_cons i c cs dt l :
      records_from s0 (S i) cs l ->
      records_from s0 i (c :: cs) ((key_at s0 i, record_of c dt) :: l).

Lemma note_all_noted s0 t d cs l :
  Forall notable cs -> 0 <= tdb_ddl_sequence s0 ->
  tdb_ddl_sequence s0 + zlen l + zlen cs < 2 ^ 64 ->
  spec (noted s0 t d l) (note_all cs)
    (fun _ s => exists l', records_from s0 (length l) cs l' /\ noted s0 t d (l ++ l') s)
    (fun s => committed (db s) = d).
Proof.
  intros Hn Hseq. revert l. induction Hn as [|c cs (_ & dt & Hs & Hf) _ IH]; intros l Hlt; cbn [note_all].
  - apply spec_ret. intros s Hs. exists []. split; [constructor|]. by rewrite app_nil_r.
  - rewrite zlen_cons in Hlt. pose proof (zlen_nonneg cs).
    eapply spec_bind; [apply (record_noted s0 t d l c dt Hs Hf Hseq); lia|]. intros ?. cbv beta.
    eapply spec_weaken; [apply IH|done| |done].
    + rewrite zlen_app. change (zlen [_]) with 1. lia.
    + intros ? s (l' & Hl' & Hs'). rewrite length_app in Hl'. cbn in Hl'.
      rewrite Nat.add_1_r in Hl'. eexists. split; [by constructor|].
      by rewrite <- app_assoc in Hs'.
Qed.

Lemma records_from_keys s0 i cs l k :
  records_from s0 i cs l -> k ∈ map fst l -> exists j, (i <= j < i + length cs)%nat /\ k = key_at s0 j.
Proof.
  induction 1 as [|i c cs dt l _ IH]; cbn [map fst length]; [by intros ?%not_elem_of_nil|].
  intros [-> |Hk]%elem_of_cons; [exists i; split; [lia|done]|].
  destruct (IH Hk) as (j & Hj & ->). exists j. split; [lia|done].
Qed.

Lemma key_at_inj s0 i j :
  0 <= tdb_ddl_boot_id s0 < 2 ^ 64 -> 0 <= tdb_ddl_sequence s0 ->
  tdb_ddl_sequence s0 + Z.of_nat i < 2 ^ 64 -> tdb_ddl_sequence s0 + Z.of_nat j < 2 ^ 64 ->
  key_at s0 i = key_at s0 j -> i = j.
Proof. intros Hb Hs Hi Hj E0. apply DdlLog.encode_key_inj in E0 as [_ E0]; lia. Qed.

Lemma records_from_nodup s0 i cs l :
  0 <= tdb_ddl_boot_id s0 < 2 ^ 64 -> 0 <= tdb_ddl_sequence s0 ->
  tdb_ddl_sequence s0 + Z.of_nat i + zlen cs < 2 ^ 64 ->
  records_from s0 i cs l -> NoDup (map fst l).
Proof.
  intros Hb Hs Hlt H. revert Hlt. induction H as [|i c cs dt l Hl IH]; cbn [map fst]; intros Hlt; [constructor|].
  rewrite zlen_cons in Hlt. pose proof (zlen_nonneg cs). apply NoDup_cons. split; [|apply IH; lia].
  intros Hk. apply (records_from_keys s0 _ _ _ _ Hl) in Hk as (j & Hj & Hk).
  apply key_at_inj in Hk; unfold zlen in *; lia.
Qed.

Lemma records_from_paths s0 i cs l :
  records_from s0 i cs l -> map (fun kr => DdlLog.path kr.2) l = map fst cs.
Proof. induction 1; simpl; congruence. Qed.

Lemma records_from_removes s0 i cs l b f :
  records_from s0 i cs l ->
  removes l b f = existsb (fun c => Bool.eqb (is_drop c.2) b && owned (CfName.to_cf_name c.1) f) cs.
Proof.
  unfold removes. induction 1 as [|i c cs dt l _ IH]; [done|]. cbn [existsb]. by rewrite IH.
Qed.

(** The statement's records as the transaction writes them. *)
Definition log_puts (l : list (bytes * DdlLog.record)) : list write :=
  map (fun kr => W_put TDB_DDL_CF_NAME kr.1 (DdlLog.encode_record kr.2).2) l.

Lemma log_puts_eq l :
  log_puts l = map (put_of TDB_DDL_CF_NAME) (map (fun kr => (kr.1, (DdlLog.encode_record kr.2).2)) l).
Proof. unfold log_puts. by rewrite map_map. Qed.

Lemma log_puts_other l d f : f <> TDB_DDL_CF_NAME -> apply_writes (log_puts l) d !! f = d !! f.
Proof.
  intros Hf. apply apply_writes_other. apply Forall_forall. intros w (kr & -> & _)%list_elem_of_fmap. done.
Qed.

Lemma log_puts_get l d k :
  is_Some (d !! TDB_DDL_CF_NAME) -> NoDup (map fst l) ->
  (k ∈ map fst l -> is_Some (db_get TDB_DDL_CF_NAME k (apply_writes (log_puts l) d))) /\
  (k ∉ map fst l -> db_get TDB_DDL_CF_NAME k (apply_writes (log_puts l) d) = db_get TDB_DDL_CF_NAME k d).
Proof.
  intros Ho Hnd. rewrite log_puts_eq. split.
  - intros ([k' rec] & -> & Hin)%list_elem_of_fmap. cbn [fst]. eexists.
    apply (db_get_puts_in _ _ k' (DdlLog.encode_record rec).2); [done| |].
    + apply list_elem_of_fmap. by exists (k', rec).
    + intros v' ([k2 rec2] & [= -> ->] & Hin2)%list_elem_of_fmap. do 2 f_equal.
      apply list_elem_of_lookup in Hin as [i Hi], Hin2 as [j Hj].
      assert (i = j) as ->.
      { eapply NoDup_lookup; [exact Hnd|..]; rewrite list_lookup_fmap; [rewrite Hi|rewrite Hj]; done. }
      congruence.
  - intros Hk. apply db_get_puts_notin. by rewrite map_map.
Qed.

(** The hook, when the recovery pass has run and the statement's records share one fate. *)
Lemma post_ddl_up d l b s1 :
  tdb_ddl_recovered s1 = true -> tdb_global s1 = true -> tdb_ddl_cf s1 = true ->
  tdb_ddl_stmt_records s1 = l -> quiet (db s1) -> committed (db s1) = d ->
  NoDup (map fst l) ->
  Forall (fun kr => user_table (DdlLog.path kr.2) /\
                    bool_decide (is_Some (db_get TDB_DDL_CF_NAME kr.1 d)) = b) l ->
  spec (fun s => s = s1) (tdb_ddl_post_ddl nonnull)
    (fun _ s => tdb_ddl_stmt_records s = [] /\ resolved (removes l b) (map fst l) d (committed (db s)))
    (fun s => bystanders (map (fun kr => DdlLog.path kr.2) l) d (committed (db s))).
Proof.
  intros Hrec Hg Hcf Hl Hq Hd Hnd Hall s ->. unfold tdb_ddl_post_ddl, bind, gets, modify, ret.
  rewrite Hrec, Hl.
  pose proof (resolve_mine_up (set_records [] s1) Hg Hcf d l b Hnd Hall (set_records [] s1)) as H.
  specialize (H ltac:(by repeat split)).
  destruct (resolve_mine l (set_records [] s1)) as [s' [[]|]]; [|done].
  destruct H as (Ho & _ & Hr). split; [by rewrite Ho|done].
Qed.

(** What the server's commit or rollback leaves for the hook. *)
Definition finished (s0 : ddl E T) (t : T) (d1 : store) (l : list (bytes * DdlLog.record)) (s : ddl E T) : Prop :=
  tdb_ddl_recovered s = tdb_ddl_recovered s0 /\ tdb_global s = true /\ tdb_ddl_cf s = true /\
  tdb_ddl_stmt_records s = l /\ quiet (db s) /\ committed (db s) = d1.

Lemma finish_noted s0 t d l b :
  spec (noted s0 t d l) (finish b)
    (fun _ => finished s0 t (if b then apply_writes (log_puts l) d else d) l)
    (fun s => committed (db s) = d \/ committed (db s) = apply_writes (log_puts l) d).
Proof.
  intros s [Hst Hin]. unfold finish, bind, gets. rewrite Hst. cbn [stmt_txn].
  pose proof (FkCatalog.commit_quiet d t _ (db s) Hin) as Hc.
  pose proof (spec_conj _ _ _ _ _ _ _ (quiet_rollback t) (txn_rollback_law d t) (db s)) as Hr.
  destruct Hin as (Hq & Hd & _). specialize (Hr (conj Hq Hd)).
  unfold on_db, lift. cbn [db]. destruct b.
  - destruct (txn_commit t (db s)) as [e [rc|]]; [|exact Hc].
    destruct Hc as (_ & Hq' & Hd'). by repeat split.
  - destruct (txn_rollback t (db s)) as [e [rc|]]; [|left; by apply Hr].
    destruct Hr as [Hq' Hd']. by repeat split.
Qed.

Lemma bystanders_log cs d d' l :
  d' = d \/ d' = apply_writes (log_puts l) d -> bystanders cs d d'.
Proof. intros [-> | ->] f [Hf _] _; [done|]. by apply log_puts_other. Qed.

(** The records of a finished statement share its verdict. *)
Lemma verdict_uniform (s0 : ddl E T) (d : store) cs l (b : bool) :
  is_Some (d !! TDB_DDL_CF_NAME) -> Forall notable cs -> records_from s0 0 cs l -> NoDup (map fst l) ->
  (forall k, k ∈ map fst l -> db_get TDB_DDL_CF_NAME k d = None) ->
  Forall (fun kr => user_table (DdlLog.path kr.2) /\
    bool_decide (is_Some (db_get TDB_DDL_CF_NAME kr.1
      (if b then apply_writes (log_puts l) d else d))) = b) l.
Proof.
  intros Ho Hcs Hl Hnd Hnone. apply Forall_forall. intros kr Hkr. split.
  - assert (DdlLog.path kr.2 ∈ map fst cs) as (c & -> & Hc)%list_elem_of_fmap.
    { rewrite <- (records_from_paths s0 0 cs l Hl). apply list_elem_of_fmap. eauto. }
    rewrite Forall_forall in Hcs. by apply (Hcs c).
  - assert (kr.1 ∈ map fst l) as Hk by (apply list_elem_of_fmap; eauto). destruct b.
    + apply bool_decide_eq_true. by apply (log_puts_get l d kr.1 Ho Hnd).
    + by rewrite Hnone.
Qed.

Lemma finish_and_hook (s0 : ddl E T) (t : T) (d : store) cs l (b : bool) :
  tdb_ddl_recovered s0 = true -> is_Some (d !! TDB_DDL_CF_NAME) -> Forall notable cs ->
  0 <= tdb_ddl_boot_id s0 < 2 ^ 64 -> 0 <= tdb_ddl_sequence s0 -> tdb_ddl_sequence s0 + zlen cs < 2 ^ 64 ->
  (forall i, (i < length cs)%nat -> db_get TDB_DDL_CF_NAME (key_at s0 i) d = None) ->
  records_from s0 0 cs l ->
  spec (noted s0 t d l) (bind (finish b) (fun _ => tdb_ddl_post_ddl nonnull))
    (fun _ s => (forall f, managed f -> committed (db s) !! f =
          if existsb (fun c => Bool.eqb (is_drop c.2) b && owned (CfName.to_cf_name c.1) f) cs
          then None else d !! f) /\
       (forall k, db_get TDB_DDL_CF_NAME k (committed (db s)) = db_get TDB_DDL_CF_NAME k d) /\
       tdb_ddl_stmt_records s = [])
    (fun s => bystanders (map fst cs) d (committed (db s))).
Proof.
  intros Hrec Ho Hcs Hboot Hseq Hlt Hfresh Hl.
  pose proof (records_from_nodup s0 0 cs l Hboot Hseq ltac:(cbn; lia) Hl) as Hnd.
  assert (forall k, k ∈ map fst l -> db_get TDB_DDL_CF_NAME k d = None) as Hnone.
  { intros k Hk. apply (records_from_keys s0 0 cs l k Hl) in Hk as (i & Hi & ->). apply Hfresh. lia. }
  pose proof (verdict_uniform s0 d cs l b Ho Hcs Hl Hnd Hnone) as Hall.
  set (d1 := if b then apply_writes (log_puts l) d else d) in *.
  assert (forall f, f <> TDB_DDL_CF_NAME -> d1 !! f = d !! f) as Hother
    by (intros f Hf; unfold d1; destruct b; [by apply log_puts_other|done]).
  eapply spec_bind; [eapply spec_crash; [apply finish_noted|intros s; apply bystanders_log]|].
  intros ?. apply spec_at. intros s1 (Hr1 & Hg1 & Hc1 & Hl1 & Hq1 & Hd1).
  eapply spec_weaken; [apply (post_ddl_up d1 l b s1); try done; congruence|done|..].
  - intros ? s (Hsr & H1 & H2 & _). split_and!; [| |done].
    + intros f Hf. rewrite H1, (records_from_removes s0 0 cs l b f Hl) by done.
      by rewrite Hother by apply Hf.
    + intros k. rewrite H2. destruct (decide (k ∈ map fst l)) as [Hk|Hk]; [by rewrite Hnone|].
      unfold d1. destruct b; [by apply (log_puts_get l d k Ho Hnd)|done].
  - intros s H f Hf Hfs. rewrite <- (Hother f) by apply Hf.
    apply H; [done|]. by rewrite (records_from_paths s0 0 cs l Hl).
Qed.

(** ** Properties *)

(** C10: A DDL statement is atomic, on a library that reports no failure and once recovery has run
    ([tdb_ddl_recovered]).  However many tables it creates and drops, when the server has committed or
    rolled back the statement's transaction and the post-DDL hook has run, the families of the dropped
    tables are gone exactly if it committed, those of the created tables exactly if it did not, every
    other family is untouched, and the log holds what it held before; a crash before or inside the hook
    changes no family that is not one of theirs.  A family is a table's by its name ([owned]): the
    table's own name, or that name, the index infix and anything after it, which is how the code looks
    for them, so that a table whose name has that form counts with the indexes of the shorter one.
    Outside these conditions the hook can drop a table that should stay ([stale_drop_takes_new_table],
    [read_error_drops_created_table]). *)
Theorem ddl_statement_atomic s0 t d cs b :
  tdb_global s0 = true -> tdb_ddl_cf s0 = true -> tdb_ddl_recovered s0 = true ->
  tdb_ddl_stmt_records s0 = [] -> stmt_txn s0 = Some t -> is_Some (d !! TDB_DDL_CF_NAME) ->
  FkCatalog.in_txn d t [] (db s0) -> Forall notable cs ->
  0 <= tdb_ddl_boot_id s0 < 2 ^ 64 -> 0 <= tdb_ddl_sequence s0 ->
  tdb_ddl_sequence s0 + zlen cs < 2 ^ 64 ->
  (forall i, (i < length cs)%nat -> db_get TDB_DDL_CF_NAME (key_at s0 i) d = None) ->
  spec (fun s => s = s0) (statement cs b)
    (fun _ s =>
       (forall f, managed f -> committed (db s) !! f =
          if existsb (fun c => Bool.eqb (is_drop c.2) b && owned (CfName.to_cf_name c.1) f) cs
          then None else d !! f) /\
       (forall k, db_get TDB_DDL_CF_NAME k (committed (db s)) = db_get TDB_DDL_CF_NAME k d) /\
       tdb_ddl_stmt_records s = [])
    (fun s => bystanders (map fst cs) d (committed (db s))).
Proof.
  intros Hg Hcf Hrec Hnil Htxn Ho Hin Hcs Hboot Hseq Hlt Hfresh. unfold statement.
  eapply spec_bind.
  { eapply spec_weaken; [apply (note_all_noted s0 t d cs []); [done|done|change (zlen []) with 0; lia]| |by intros a s H; exact H|].
    - intros s ->. split; [|done]. destruct s0. cbn in *. subst. f_equal. unfold zlen. cbn. lia.
    - intros s -> f _ _. done. }
  intros ? s (l & Hl & Hs). by apply (finish_and_hook s0 t d cs l b).
Qed.
End statements.

Section recovery.
Context {E T : Type} `{!TidesDb E T} `{!FamilyDb E T}.

(** C13: A committed drop is never forgotten.  Whatever fails or crashes during the recovery pass, each
    drop an earlier run left on record is either still on record afterwards or the table's data family
    is gone: the record is erased only once the families are, so storage is not orphaned. *)
Theorem recover_never_forgets (s0 : ddl E T) (d : store) key v rec :
  tdb_global s0 = true -> tdb_ddl_cf s0 = true -> committed (db s0) = d ->
  db_get TDB_DDL_CF_NAME key d = Some v ->
  pending_record (tdb_ddl_boot_id s0) (key, v) = Some (key, rec) ->
  DdlLog.what rec = DdlLog.drop_intent ->
  (forall k v' r, db_get TDB_DDL_CF_NAME k d = Some v' ->
     pending_record (tdb_ddl_boot_id s0) (k, v') = Some (k, r) -> user_table (DdlLog.path r)) ->
  spec (fun s => s = s0) tdb_ddl_recover
    (fun _ s => owed key v (DdlLog.path rec) (committed (db s)))
    (fun s => owed key v (DdlLog.path rec) (committed (db s))).
Proof.
  intros Hg Hcf Hd Hkey Hrec Hdrop Husers. set (path := DdlLog.path rec).
  assert (owed key v path d) as Hd0 by (by left).
  assert (forall s, only_db s0 s /\ committed (db s) = d -> holding s0 (owed key v path) s) as Hhold.
  { intros s [H1 H2]. split; [done|]. by rewrite H2. }
  eapply (spec_weaken _ (holding s0 (fun d' => d' = d))); [|by intros s ->; split; [destruct s0|]| |].
  2: { intros ? s H. exact (proj2 (H : holding s0 (owed key v path) s)). }
  2: { intros s H. exact (H : owed key v path (committed (db s))). }
  unfold tdb_ddl_recover. eapply spec_bind; [apply open_cf_holding; done|]. intros cf.
  apply (spec_pure _ (cf = true)); [by intros s [H _]|]. intros ->.
  eapply spec_weaken; [|by intros s [_ H]; exact H|by intros a s H; exact H|by intros s H; exact H].
  apply global_holding; [done|]. cbn [negb orb]. eapply spec_bind.
  { eapply spec_crash; [apply on_db_same; intros d'; apply begin_any|]. by intros s ->. }
  intros [rc|t]; [apply spec_ret; intros s [H _]; by apply Hhold|]. eapply spec_bind.
  { eapply spec_weaken; [apply (ddl_on_db_spec _ s0), (scan_law d [] t TDB_DDL_CF_NAME)|..].
    - intros s [[H1 H2] H3]. by repeat split.
    - intros r s H. exact H.
    - intros s H. cbv beta in H. by rewrite H. }
  intros r. apply (spec_pure _ (forall k v', (k, v') ∈ FkCatalog.walked r -> db_get TDB_DDL_CF_NAME k d = Some v')).
  { intros s [_ [_ Hr]] k v' Hin. destruct r as [rc|l]; [by apply not_elem_of_nil in Hin|].
    by apply Hr, FkCatalog.elem_of_walked. }
  intros Hw. eapply (spec_bind _ _ (fun _ => holding s0 (fun d' => d' = d))).
  { eapply spec_weaken; [apply (on_db_same s0 _ (fun d' => d' = d) (fun _ _ => True)), (rollback_any t)| | |].
    - intros s (H1 & [H2 _] & _). by split.
    - by intros ? s [H _].
    - by intros s ->. }
  intros ?. destruct r as [rc|l]; [apply spec_ret; intros s H; by apply Hhold|].
  apply spec_bind_gets. intros boot.
  apply (spec_pure _ (boot = tdb_ddl_boot_id s0)); [intros s [[Ho _] <-]; by rewrite Ho|]. intros ->.
  eapply spec_weaken; [apply (resolve_all_owed s0 Hg Hcf key v path)|by intros s [H _]; apply Hhold|done|done].
  - by eapply Husers.
  - apply Forall_forall. intros [k r] ([k' v'] & Hin & Hp)%list_elem_of_omap.
    pose proof (Hw k' v' Hin) as Hget. unfold pending_record in Hp. cbn [fst snd] in *.
    assert (pending_record (tdb_ddl_boot_id s0) (k', v') = Some (k', r) /\ k = k') as [Hp' ->].
    { unfold pending_record. cbn [fst snd]. repeat case_match; simplify_eq; done. }
    split; [by eapply Husers|]. intros ->. assert (v' = v) as -> by congruence.
    rewrite Hrec in Hp'. by injection Hp' as <-.
Qed.
End recovery.


(** ** Witnesses and consequences *)

(** A log of an earlier run that dropped [a.t], and a store that holds [a.t] and [a.u]. *)
Definition old_drop : DdlLog.record :=
  {| DdlLog.what := DdlLog.drop_intent; DdlLog.path := bs "./a/t"; DdlLog.db := bs "a"; DdlLog.table := bs "t" |}.
Definition old_key : bytes := DdlLog.encode_key 1 0 nonnull.
Definition old_value : bytes := (DdlLog.encode_record old_drop).2.
Definition tables : store := <[bs "a__t" := {[ [1] := [2] ]}]> (<[bs "a__u" := ∅]> ∅).
Definition clean_store : store := <[TDB_DDL_CF_NAME := ∅]> tables.
Definition dirty_store : store := <[TDB_DDL_CF_NAME := {[ old_key := old_value ]}]> tables.

(** A server in its second run, with a statement open. *)
Definition server (d : store) (recovered : bool) (fs : list fate) : ddl mem_db unit :=
  {| db := {| mem := d; buf := []; script := fs |}; tdb_global := true; tdb_ddl_boot_id := 2;
     tdb_ddl_sequence := 0; tdb_ddl_cf := true; tdb_ddl_recovered := recovered;
     tdb_ddl_stmt_records := []; stmt_txn := Some tt |}.

Lemma example_notable i : notable (bs "./a/t", i).
Proof.
  split; [by split|]. exists (bs "a", bs "t"). split; [vm_compute; reflexivity|].
  unfold DdlLog.fits, DdlLog.MAX_FIELD_LEN, zlen. cbn. lia.
Qed.

Lemma ddl_statement_atomic_witness :
  spec (fun s => s = server clean_store true [works; works; crash_after])
    (statement [(bs "./a/t", DdlLog.drop_intent)] true)
    (fun _ s =>
       (forall f, managed f -> committed (db s) !! f =
          if existsb (fun c => Bool.eqb (is_drop c.2) true && owned (CfName.to_cf_name c.1) f)
               [(bs "./a/t", DdlLog.drop_intent)]
          then None else clean_store !! f) /\
       (forall k, db_get TDB_DDL_CF_NAME k (committed (db s)) = db_get TDB_DDL_CF_NAME k clean_store) /\
       tdb_ddl_stmt_records s = [])
    (fun s => bystanders [bs "./a/t"] clean_store (committed (db s))).
Proof.
  apply (ddl_statement_atomic (server clean_store true [works; works; crash_after]) tt clean_store
           [(bs "./a/t", DdlLog.drop_intent)] true); try reflexivity.
  - by eexists.
  - split; [|done]. repeat (apply Forall_cons; split; [unfold dies_or_works; auto|]). apply Forall_nil_2.
  - apply Forall_singleton, example_notable.
  - cbn. lia.
Defined.

Lemma recover_never_forgets_witness :
  spec (fun s => s = server dirty_store false [works; works; works; lost_reply; crash_before])
    tdb_ddl_recover (fun _ s => owed old_key old_value (bs "./a/t") (committed (db s)))
    (fun s => owed old_key old_value (bs "./a/t") (committed (db s))).
Proof.
  apply (recover_never_forgets (server dirty_store false [works; works; works; lost_reply; crash_before])
           dirty_store old_key old_value old_drop); try reflexivity.
  intros k v r Hk Hr. unfold db_get, dirty_store in Hk. rewrite lookup_insert_eq in Hk. cbn in Hk.
  apply lookup_singleton_Some in Hk as [<- <-]. vm_compute in Hr. injection Hr as <-. by split.
Defined.

(** A table created after a restart can lose its storage to a drop of the previous run.  The
    recovery pass runs only in the first post-DDL hook: when that hook belongs to a committed [CREATE
    TABLE] of a name the previous run dropped without resolving the drop, it carries out the old drop
    and removes the families the statement has just created. *)
Lemma stale_drop_takes_new_table :
  let s := statement [(bs "./a/t", DdlLog.create_intent)] true (server dirty_store false []) in
  s.2 = Ret tt /\ clean_store !! bs "a__t" = Some {[ [1] := [2] ]} /\
  committed (db s.1) !! bs "a__t" = None.
Proof. vm_compute. repeat split. Qed.

(** A read error in the hook is taken for a rollback: when the library cannot open the transaction
    that looks for the record of a committed [CREATE TABLE], the hook removes the new table's
    families. *)
Lemma read_error_drops_created_table :
  let s := statement [(bs "./a/t", DdlLog.create_intent)] true
             (server clean_store true [works; works; fails]) in
  s.2 = Ret tt /\ clean_store !! bs "a__t" = Some {[ [1] := [2] ]} /\
  committed (db s.1) !! bs "a__t" = None.
Proof. vm_compute. repeat split. Qed.

End DdlDeferred.
