(* ===== verification/Table.v ===== *)
(** * The server's table objects, as far as the engine uses them

    The codecs read and write MySQL [Field]s inside record buffers.  A record is modelled by its null
    bitmap, byte for byte, and by one slot of bytes per column: the server lays the columns out
    without overlap, so a write through one field's pointer changes no other slot.  A blob column's
    slot is the value its pointer leads to.  [move_field_offset] only says which record a field reads,
    so the record is an argument here.  What a [Field] computes itself ([make_sort_key], [val_str],
    [pack], [unpack]) belongs to the server and is a class the components take as a parameter. *)
From S2P Require Import Prelude.
#[local] Open Scope Z_scope.

Module Table.

Inductive enum_field_types :=
  | MYSQL_TYPE_DECIMAL | MYSQL_TYPE_TINY | MYSQL_TYPE_SHORT | MYSQL_TYPE_LONG | MYSQL_TYPE_FLOAT
  | MYSQL_TYPE_DOUBLE | MYSQL_TYPE_NULL | MYSQL_TYPE_TIMESTAMP | MYSQL_TYPE_LONGLONG
  | MYSQL_TYPE_INT24 | MYSQL_TYPE_DATE | MYSQL_TYPE_TIME | MYSQL_TYPE_DATETIME | MYSQL_TYPE_YEAR
  | MYSQL_TYPE_NEWDATE | MYSQL_TYPE_VARCHAR | MYSQL_TYPE_BIT | MYSQL_TYPE_TIMESTAMP2
  | MYSQL_TYPE_DATETIME2 | MYSQL_TYPE_TIME2 | MYSQL_TYPE_JSON | MYSQL_TYPE_NEWDECIMAL
  | MYSQL_TYPE_ENUM | MYSQL_TYPE_SET | MYSQL_TYPE_TINY_BLOB | MYSQL_TYPE_MEDIUM_BLOB
  | MYSQL_TYPE_LONG_BLOB | MYSQL_TYPE_BLOB | MYSQL_TYPE_VAR_STRING | MYSQL_TYPE_STRING
  | MYSQL_TYPE_GEOMETRY.

#[export] Instance enum_field_types_eq_dec : EqDecision enum_field_types.
Proof. solve_decision. Defined.

(** [my_charset_bin], [my_charset_latin1] and every other collation. *)
Inductive charset_info := my_charset_bin | my_charset_latin1 | other_charset.

#[export] Instance charset_info_eq_dec : EqDecision charset_info.
Proof. solve_decision. Defined.

(** A column: its position in the record, the byte and bit of its null flag if it is nullable, and
    what the codecs ask of it. *)
Record Field :=
  { field_index : nat; null_bit : option (nat * nat); type : enum_field_types;
    real_type : enum_field_types; is_unsigned : bool; decimals : Z; charset : charset_info;
    pack_length : Z; length_bytes : Z; blob_flag : bool; pack_length_no_ptr : Z }.

#[export] Instance Field_eq_dec : EqDecision Field.
Proof. solve_decision. Defined.

(** [Field::is_nullable]. *)
Definition is_nullable (f : Field) : bool := match null_bit f with Some _ => true | None => false end.

Record record := { nulls : bytes; slots : list bytes }.

(** [Field::is_null], [is_real_null], [set_null], [set_notnull] on a record. *)
Definition is_null (f : Field) (r : record) : bool :=
  match null_bit f with
  | None => false
  | Some (i, b) => Z.testbit (nulls r !!! i) (Z.of_nat b)
  end.

Definition set_null (f : Field) (r : record) : record :=
  match null_bit f with
  | None => r
  | Some (i, b) => {| nulls := alter (fun x => Z.setbit x (Z.of_nat b)) i (nulls r); slots := slots r |}
  end.

Definition set_notnull (f : Field) (r : record) : record :=
  match null_bit f with
  | None => r
  | Some (i, b) => {| nulls := alter (fun x => Z.clearbit x (Z.of_nat b)) i (nulls r); slots := slots r |}
  end.

(** The bytes at a field's pointer, and a write of [v] there. *)
Definition slot (f : Field) (r : record) : bytes := slots r !!! field_index f.

Definition write_slot (f : Field) (v : bytes) (r : record) : record :=
  {| nulls := nulls r; slots := alter (fun old => v ++ drop (length v) old) (field_index f) (slots r) |}.

Record KEY_PART_INFO :=
  { field : Field; kp_length : Z; reverse_sort : bool; store_length : Z }.

(** A [KEY]: its user-defined parts and whether it is a spatial index. *)
Record KEY := { key_part : list KEY_PART_INFO; is_spatial_index : bool }.

(** What the server's [Field] virtual methods compute.  [make_sort_key f v n] writes at most [n] bytes
    and is given as the bytes it writes. *)
Class ServerField :=
  { make_sort_key : Field -> bytes -> Z -> bytes;
    val_str : Field -> bytes -> bytes;
    make_sort_key_fits : forall f v n, 0 <= n -> zlen (make_sort_key f v n) <= n;
    make_sort_key_wf : forall f v n, wf_bytes v -> wf_bytes (make_sort_key f v n);
    val_str_wf : forall f v, wf_bytes v -> wf_bytes (val_str f v) }.

(** ** Records of a table *)

(** The layout of a table's records: every column has its own slot and its own null bit, inside the
    record. *)
Definition layout_ok (fields : list Field) : Prop :=
  forall f g, f ∈ fields -> g ∈ fields ->
    (field_index f = field_index g -> f = g) /\
    (null_bit f <> None -> null_bit f = null_bit g -> f = g).

Definition record_ok (fields : list Field) (r : record) : Prop :=
  Forall wf_bytes (slots r) /\
  forall f, f ∈ fields ->
    (field_index f < length (slots r))%nat /\
    (forall i b, null_bit f = Some (i, b) -> (i < length (nulls r))%nat).

(** Two records show the same column: both null, or the same value. *)
Definition same_column (f : Field) (r r' : record) : Prop :=
  is_null f r = is_null f r' /\ (is_null f r = false -> slot f r = slot f r').

(** ** Lemmas *)

Lemma slot_set_null f g r : slot g (set_null f r) = slot g r.
Proof. unfold set_null, slot. by destruct (null_bit f) as [[i b]|]. Qed.

Lemma slot_set_notnull f g r : slot g (set_notnull f r) = slot g r.
Proof. unfold set_notnull, slot. by destruct (null_bit f) as [[i b]|]. Qed.

Lemma is_null_write_slot f g v r : is_null g (write_slot f v r) = is_null g r.
Proof. done. Qed.

Lemma slot_write_same f v r :
  (field_index f < length (slots r))%nat -> length v = length (slot f r) ->
  slot f (write_slot f v r) = v.
Proof.
  intros Hi Hl. unfold slot, write_slot in *. simpl.
  rewrite list_lookup_total_alter_eq, drop_ge by (done || lia). apply app_nil_r.
Qed.

Lemma slot_write_other f g v r :
  field_index f <> field_index g -> slot g (write_slot f v r) = slot g r.
Proof.
  intros Hi. unfold slot, write_slot. simpl. by rewrite list_lookup_total_alter_ne.
Qed.

Lemma is_null_set_null f r :
  null_bit f <> None -> (forall i b, null_bit f = Some (i, b) -> (i < length (nulls r))%nat) ->
  is_null f (set_null f r) = true.
Proof.
  unfold is_null, set_null. destruct (null_bit f) as [[i b]|]; [|done]. intros _ Hb. simpl.
  rewrite list_lookup_total_alter_eq by eauto. apply Z.setbit_eq. lia.
Qed.

Lemma is_null_set_notnull f r :
  (forall i b, null_bit f = Some (i, b) -> (i < length (nulls r))%nat) ->
  is_null f (set_notnull f r) = false.
Proof.
  unfold is_null, set_notnull. destruct (null_bit f) as [[i b]|] eqn:Ef; [|by rewrite ?Ef].
  intros Hb. simpl. rewrite list_lookup_total_alter_eq by eauto. apply Z.clearbit_eq.
Qed.

Lemma bit_alter_other h i j b c (l : bytes) :
  (i, b) <> (j, c) -> (forall x, b <> c -> Z.testbit (h x) (Z.of_nat c) = Z.testbit x (Z.of_nat c)) ->
  Z.testbit (alter h i l !!! j) (Z.of_nat c) = Z.testbit (l !!! j) (Z.of_nat c).
Proof.
  intros Hne Hh. rewrite list_lookup_total_alter. case_decide as Hd; [|done].
  destruct Hd as [-> _]. apply Hh. congruence.
Qed.

Lemma is_null_set_null_other f g r :
  null_bit f <> null_bit g -> is_null g (set_null f r) = is_null g r.
Proof.
  unfold is_null, set_null. destruct (null_bit f) as [[i b]|]; [|done].
  destruct (null_bit g) as [[j c]|]; [|done]. intros Hne. simpl.
  apply (bit_alter_other _ i j b); [congruence|]. intros x Hb. apply Z.setbit_neq; lia.
Qed.

Lemma is_null_set_notnull_other f g r :
  null_bit f <> null_bit g -> is_null g (set_notnull f r) = is_null g r.
Proof.
  unfold is_null, set_notnull. destruct (null_bit f) as [[i b]|]; [|done].
  destruct (null_bit g) as [[j c]|]; [|done]. intros Hne. simpl.
  apply (bit_alter_other _ i j b); [congruence|]. intros x Hb. apply Z.clearbit_neq; lia.
Qed.

Lemma record_ok_set_null fields f r : record_ok fields r -> record_ok fields (set_null f r).
Proof.
  unfold record_ok, set_null. destruct (null_bit f) as [[i b]|]; [|done].
  simpl. intros [Hs H]. split; [done|]. intros g Hg. destruct (H g Hg) as [? Hb].
  split; [done|]. intros j c Hj. rewrite length_alter. eauto.
Qed.

Lemma record_ok_set_notnull fields f r : record_ok fields r -> record_ok fields (set_notnull f r).
Proof.
  unfold record_ok, set_notnull. destruct (null_bit f) as [[i b]|]; [|done].
  simpl. intros [Hs H]. split; [done|]. intros g Hg. destruct (H g Hg) as [? Hb].
  split; [done|]. intros j c Hj. rewrite length_alter. eauto.
Qed.

Lemma record_ok_write fields f v r :
  wf_bytes v -> record_ok fields r -> record_ok fields (write_slot f v r).
Proof.
  unfold record_ok, write_slot. simpl. intros Hv [Hs H]. rewrite length_alter. split; [|done].
  apply Forall_alter; [done|]. intros x _ Hx. apply Forall_app. split; [done|]. by apply Forall_drop.
Qed.

Lemma slot_wf fields f r : record_ok fields r -> wf_bytes (slot f r).
Proof.
  intros [Hs _]. unfold slot. rewrite list_lookup_total_alt.
  destruct (slots r !! field_index f) eqn:E; simpl; [|by apply Forall_nil].
  by eapply Forall_lookup_1.
Qed.

End Table.
