(* ===== verification/KeyCodec.v ===== *)
(** * Comparable keys and covering reads ([src/handler/ha_tidesdb_keycodec.cc])

    [make_comparable_key] builds the bytes an index entry is stored under: per key part a null
    indicator where the column is nullable, then the server's sort key, the whole span inverted for a
    descending part.  [keyread_decode_key_parts] and [icp_decode_key_parts] read columns back out of
    such a key, [try_keyread_from_index] and [icp_check_secondary] are the covering read and the
    pushed-condition check built on them, and [inplace_build_index_key]
    ([src/handler/ha_tidesdb_ddl.cc]) is the second encoder, used while an index is added in place.

    The output buffer is a parameter [out] that gives the bytes it held before the call: the encoder
    leaves some of them in the key. *)
From S2P Require Import Prelude SortKey Table.
#[local] Open Scope Z_scope.
#[local] Open Scope tdb_scope.
Export Table.

Module KeyCodec.

Definition SORT_KEY_NULL : Z := 0.
Definition SORT_KEY_NOT_NULL : Z := 1.
Definition SPATIAL_HILBERT_KEY_LEN : Z := 8.
Definition MAX_KEY : nat := 64.

(** The bytes a buffer held before the call, by offset. *)
Definition memory := nat -> Z.

Definition stale (out : memory) (from n : nat) : bytes := map out (seq from n).

Definition invert_key_part (p : bytes) : bytes := map (fun b => u8 (Z.lnot b)) p.

Definition zeros (n : Z) : bytes := replicate (Z.to_nat n) 0.

Section Encode.
Context `{ServerField}.

(** [TDB_FIELD_SORT_STRING]: the buffer is cleared, then the server writes its sort key. *)
Definition TDB_FIELD_SORT_STRING (f : Field) (r : record) (len : Z) : bytes :=
  let k := make_sort_key f (slot f r) len in k ++ zeros (len - zlen k).

Definition is_varbinary (f : Field) : bool :=
  bool_decide (type f = MYSQL_TYPE_VARCHAR) && bool_decide (charset f = my_charset_bin).

(** The span of a [VARBINARY] value: the data zero-padded, then its length; or, for a value that fills
    the space, the overflowing bytes over the start of the length area. *)
Definition varbinary_span (kp : KEY_PART_INFO) (r : record) (out : memory) (pos : nat) : bytes :=
  let f := field kp in
  let buf := val_str f (slot f r) in
  let data_len := u32 (zlen buf) in
  let len_bytes := length_bytes f in
  let data_space := u32 (kp_length kp - len_bytes) in
  let copy_len := Z.min data_len data_space in
  let head := take (Z.to_nat copy_len) buf ++ zeros (data_space - copy_len) in
  if data_space <? data_len then
    let overflow := Z.min (data_len - data_space) len_bytes in
    head ++ take (Z.to_nat overflow) (drop (Z.to_nat data_space) buf) ++
      stale out (pos + Z.to_nat (data_space + overflow)) (Z.to_nat (len_bytes - overflow))
  else if len_bytes =? 1 then head ++ [u8 data_len]
  else head ++ be_store 2 data_len.

(** The null indicator of part [p]; [None] when the column is null and the part is done. *)
Definition indicator (kp : KEY_PART_INFO) (p : nat) (r : record) (fk_ref_nullable : option (list Z)) :
    option bytes :=
  match fk_ref_nullable with
  | Some v => Some (match v !! p with Some b => if b =? 0 then [] else [SORT_KEY_NOT_NULL] | None => [] end)
  | None =>
      if is_nullable (field kp) then
        if is_null (field kp) r then None else Some [SORT_KEY_NOT_NULL]
      else Some []
  end.

(** One round of the loop: the bytes of the part, written from offset [pos]. *)
Definition comparable_part (kp : KEY_PART_INFO) (p pos : nat) (r : record) (out : memory)
    (fk_ref_nullable : option (list Z)) : bytes :=
  let span :=
    match indicator kp p r fk_ref_nullable with
    | None => SORT_KEY_NULL :: zeros (kp_length kp)
    | Some ind =>
        ind ++ (if is_varbinary (field kp) then varbinary_span kp r out (pos + length ind)
                else TDB_FIELD_SORT_STRING (field kp) r (kp_length kp))
    end in
  if reverse_sort kp then invert_key_part span else span.

Fixpoint comparable_parts (kps : list KEY_PART_INFO) (p pos : nat) (r : record) (out : memory)
    (fk_ref_nullable : option (list Z)) : bytes :=
  match kps with
  | [] => []
  | kp :: kps =>
      let span := comparable_part kp p pos r out fk_ref_nullable in
      span ++ comparable_parts kps (S p) (pos + length span) r out fk_ref_nullable
  end.

Definition make_comparable_key (key_info : KEY) (r : record) (num_parts : nat) (out : memory)
    (fk_ref_nullable : option (list Z)) : bytes :=
  comparable_parts (take num_parts (key_part key_info)) 0 0 r out fk_ref_nullable.

(** How many leading parts a search key of [key_len] bytes holds. *)
Fixpoint parts_within (kps : list KEY_PART_INFO) (len key_len : Z) : nat :=
  match kps with
  | [] => 0
  | kp :: kps =>
      if key_len <? len + store_length kp then 0
      else S (parts_within kps (len + store_length kp) key_len)
  end.

(** [key_copy_to_comparable]: [restored] is [record[1]] after the server's [key_restore]. *)
Definition key_copy_to_comparable (key_info : KEY) (restored : record) (key_len : Z) (out : memory) : bytes :=
  let parts := parts_within (key_part key_info) 0 key_len in
  let parts := if Nat.eqb parts 0 then 1%nat else parts in
  make_comparable_key key_info restored parts out None.

Definition comparable_key_length (ki : KEY) : Z :=
  if is_spatial_index ki then SPATIAL_HILBERT_KEY_LEN
  else fold_left (fun len kp => u32 (u32 (if is_nullable (field kp) then len + 1 else len) + kp_length kp))
         (key_part ki) 0.

(** The part of the share the key codec reads. *)
Record TidesDB_share :=
  { has_user_pk : bool; pk_index : nat; key_info : list KEY;
    idx_comp_key_len : list Z; idx_cover : list (list bool) }.

(** The columns a key stores, as flags by column number. *)
Definition mark_key (fields : nat) (cover : list bool) (ki : KEY) : list bool :=
  fold_left (fun c kp => if bool_decide (field_index (field kp) < fields)%nat
                         then <[field_index (field kp) := true]> c else c) (key_part ki) cover.

Definition open_build_index_meta (fields : nat) (has_pk : bool) (pk : nat) (keys : list KEY) :
    TidesDB_share :=
  {| has_user_pk := has_pk; pk_index := pk; key_info := keys;
     idx_comp_key_len := map comparable_key_length keys;
     idx_cover := imap (fun i ki =>
       let c := mark_key fields (replicate fields false) ki in
       if has_pk && negb (bool_decide (i = pk)) then
         match keys !! pk with Some pk_key => mark_key fields c pk_key | None => c end
       else c) keys |}.

Definition no_key : KEY := {| key_part := []; is_spatial_index := false |}.

Definition key_at (keys : list KEY) (i : nat) : KEY := default no_key (keys !! i).

Definition pk_from_record (s : TidesDB_share) (current_pk : bytes) (r : record) (out : memory) : bytes :=
  if has_user_pk s then
    let pk := key_at (key_info s) (pk_index s) in
    make_comparable_key pk r (length (key_part pk)) out None
  else current_pk.

Definition sec_idx_key (s : TidesDB_share) (current_pk : bytes) (idx : nat) (r : record) (out : memory) :
    bytes :=
  let ki := key_at (key_info s) idx in
  let k := make_comparable_key ki r (length (key_part ki)) out None in
  k ++ pk_from_record s current_pk r (fun i => out (length k + i)%nat).

(** ** The encoder of an index being added in place *)

Definition inplace_part (kp : KEY_PART_INFO) (r : record) : bytes * bool :=
  let finish span := if reverse_sort kp then invert_key_part span else span in
  if is_nullable (field kp) && is_null (field kp) r then
    (finish (SORT_KEY_NULL :: zeros (kp_length kp)), true)
  else
    let ind := if is_nullable (field kp) then [SORT_KEY_NOT_NULL] else [] in
    (finish (ind ++ TDB_FIELD_SORT_STRING (field kp) r (kp_length kp)), false).

(** The key and whether a part of it is null. *)
Definition inplace_build_index_key (ki : KEY) (r : record) : bytes * bool :=
  fold_left (fun '(ik, row_has_null) kp =>
    let '(span, is_nul) := inplace_part kp r in (ik ++ span, row_has_null || is_nul)) (key_part ki) ([], false).

End Encode.

(** ** Decoding *)

Definition is_keyread_decodable_type (f : Field) : bool :=
  match real_type f with
  | MYSQL_TYPE_TINY | MYSQL_TYPE_SHORT | MYSQL_TYPE_INT24 | MYSQL_TYPE_LONG | MYSQL_TYPE_LONGLONG
  | MYSQL_TYPE_YEAR | MYSQL_TYPE_DATE | MYSQL_TYPE_NEWDATE => true
  | MYSQL_TYPE_DATETIME | MYSQL_TYPE_DATETIME2 | MYSQL_TYPE_TIMESTAMP | MYSQL_TYPE_TIMESTAMP2 =>
      decimals f =? 0
  | MYSQL_TYPE_STRING =>
      bool_decide (charset f = my_charset_bin) || bool_decide (charset f = my_charset_latin1)
  | _ => false
  end.

(** [index_part_is_decodable]; [fieldnr] counts from 1. *)
Definition index_part_is_decodable (ts : option (list Field * list (list Z))) (keyno part : nat) : bool :=
  match ts with
  | None => false
  | Some (fields, keys) =>
      match keys !! keyno with
      | None => false
      | Some fieldnrs =>
          match fieldnrs !! part with
          | None => false
          | Some fnr =>
              if (fnr =? 0) || (zlen fields <=? fnr - 1) then false
              else match fields !! Z.to_nat (fnr - 1) with
                   | Some f => is_keyread_decodable_type f
                   | None => false
                   end
          end
      end
  end.

(** The descriptor a field is classified into, [None] where the decoder gives up. *)
Definition sort_desc (f : Field) : option SortKey.field_sort_desc :=
  let d := SortKey.default_desc in
  match real_type f with
  | MYSQL_TYPE_TINY | MYSQL_TYPE_SHORT | MYSQL_TYPE_INT24 | MYSQL_TYPE_LONG | MYSQL_TYPE_LONGLONG =>
      Some {| SortKey.k := SortKey.integer; SortKey.is_signed := negb (is_unsigned f);
              SortKey.pack_length := SortKey.pack_length d; SortKey.pad_byte := SortKey.pad_byte d |}
  | MYSQL_TYPE_YEAR =>
      Some {| SortKey.k := SortKey.year; SortKey.is_signed := SortKey.is_signed d;
              SortKey.pack_length := SortKey.pack_length d; SortKey.pad_byte := SortKey.pad_byte d |}
  | MYSQL_TYPE_DATE | MYSQL_TYPE_NEWDATE =>
      Some {| SortKey.k := SortKey.date; SortKey.is_signed := SortKey.is_signed d;
              SortKey.pack_length := SortKey.pack_length d; SortKey.pad_byte := SortKey.pad_byte d |}
  | MYSQL_TYPE_DATETIME | MYSQL_TYPE_DATETIME2 | MYSQL_TYPE_TIMESTAMP | MYSQL_TYPE_TIMESTAMP2 =>
      Some {| SortKey.k := SortKey.datetime; SortKey.is_signed := SortKey.is_signed d;
              SortKey.pack_length := SortKey.pack_length d; SortKey.pad_byte := SortKey.pad_byte d |}
  | MYSQL_TYPE_STRING =>
      match charset f with
      | my_charset_bin =>
          Some {| SortKey.k := SortKey.char_fixed; SortKey.is_signed := SortKey.is_signed d;
                  SortKey.pack_length := pack_length f; SortKey.pad_byte := 0 |}
      | my_charset_latin1 =>
          Some {| SortKey.k := SortKey.char_fixed; SortKey.is_signed := SortKey.is_signed d;
                  SortKey.pack_length := pack_length f; SortKey.pad_byte := 32 |}
      | other_charset => None
      end
  | _ => None
  end.

Definition decode_sort_key_part (src : bytes) (sort_len : Z) (f : Field) (buf : record) : option record :=
  match sort_desc f with
  | None => None
  | Some d =>
      match SortKey.decode_part src sort_len d with
      | None => None
      | Some to => Some (write_slot f to buf)
      end
  end.

(** The two decode loops differ in one test: a covering read decodes only the columns the statement
    reads.  [pos] is the rest of the key; the result says whether the part was decoded, and holds the
    rest of the key and the record as the loop leaves them either way. *)
Definition decode_value (wanted : bool) (kp : KEY_PART_INFO) (pos : bytes) (buf : record) :
    bool * bytes * record :=
  if zlen pos <? kp_length kp then (false, pos, buf)
  else
    let part := take (Z.to_nat (kp_length kp)) pos in
    let rest := drop (Z.to_nat (kp_length kp)) pos in
    if wanted then
      let dp := if reverse_sort kp then invert_key_part part else pos in
      match decode_sort_key_part dp (kp_length kp) (field kp) buf with
      | None => (false, pos, buf)
      | Some buf => (true, rest, buf)
      end
    else (true, rest, buf).

Definition decode_key_part (wanted : bool) (kp : KEY_PART_INFO) (pos : bytes) (buf : record) :
    bool * bytes * record :=
  let f := field kp in
  if is_nullable f then
    match pos with
    | [] => (false, pos, buf)
    | b :: pos =>
        let nb := if reverse_sort kp then u8 (Z.lnot b) else b in
        if nb =? 0 then
          if zlen pos <? kp_length kp then (false, pos, set_null f buf)
          else (true, drop (Z.to_nat (kp_length kp)) pos, set_null f buf)
        else decode_value wanted kp pos (set_notnull f buf)
    end
  else decode_value wanted kp pos buf.

Fixpoint decode_key_parts (wanted : Field -> bool) (kps : list KEY_PART_INFO) (pos : bytes) (buf : record) :
    bool * bytes * record :=
  match kps with
  | [] => (true, pos, buf)
  | kp :: kps =>
      match decode_key_part (wanted (field kp)) kp pos buf with
      | (false, pos, buf) => (false, pos, buf)
      | (true, pos, buf) => decode_key_parts wanted kps pos buf
      end
  end.

(** [table->read_set] as the list of its set bits. *)
Definition keyread_decode_key_parts (read_set : list nat) (key : KEY) (pos : bytes) (buf : record) :=
  decode_key_parts (fun f => bool_decide (field_index f ∈ read_set)) (key_part key) pos buf.

Definition icp_decode_key_parts (key : KEY) (pos : bytes) (buf : record) :=
  decode_key_parts (fun _ => true) (key_part key) pos buf.

(** The covering read: whether it succeeded, the record, and the current primary key. *)
Definition try_keyread_from_index (s : TidesDB_share) (read_set : list nat) (ik : bytes) (idx : nat)
    (buf : record) (current_pk : bytes) : bool * record * bytes :=
  if negb (has_user_pk s) then (false, buf, current_pk)
  else
    let pk_key := key_at (key_info s) (pk_index s) in
    let idx_key := key_at (key_info s) idx in
    let idx_col_len := default 0 (idx_comp_key_len s !! idx) in
    match idx_cover s !! idx with
    | None => (false, buf, current_pk)
    | Some cover =>
        if negb (forallb (fun c => default false (cover !! c)) read_set) then (false, buf, current_pk)
        else
          match keyread_decode_key_parts read_set idx_key ik buf with
          | (false, _, buf) => (false, buf, current_pk)
          | (true, _, buf) =>
              let pk_start := drop (Z.to_nat idx_col_len) ik in
              match keyread_decode_key_parts read_set pk_key pk_start buf with
              | (false, _, buf) => (false, buf, current_pk)
              | (true, _, buf) => (true, buf, pk_start)
              end
          end
    end.

Inductive icp_result := ICP_NO_MATCH | ICP_MATCH | ICP_OUT_OF_RANGE.

(** [icp_check_secondary]: [fetch_row_by_pk] returns the fetched record or fails, and [index_cond] is
    the server's evaluator of the pushed condition on the record it finds in the buffer. *)
Definition icp_check_secondary (s : TidesDB_share) (pushed : option nat)
    (fetch_row_by_pk : bytes -> record -> Z * record) (index_cond : record -> icp_result)
    (ik : bytes) (idx : nat) (buf : record) : icp_result * record :=
  if negb (bool_decide (pushed = Some idx)) then (ICP_MATCH, buf)
  else
    let idx_key := key_at (key_info s) idx in
    let idx_col_len := default 0 (idx_comp_key_len s !! idx) in
    let '(decode_ok, _, buf) := icp_decode_key_parts idx_key ik buf in
    let '(decode_ok, buf) :=
      if decode_ok && has_user_pk s then
        let '(ok, _, buf) := icp_decode_key_parts (key_at (key_info s) (pk_index s))
                               (drop (Z.to_nat idx_col_len) ik) buf in (ok, buf)
      else (decode_ok, buf) in
    if decode_ok then (index_cond buf, buf)
    else if idx_col_len <? zlen ik then
      let '(rc, buf) := fetch_row_by_pk (drop (Z.to_nat idx_col_len) ik) buf in
      if negb (rc =? 0) then (ICP_MATCH, buf) else (index_cond buf, buf)
    else (ICP_MATCH, buf).

(** ** Specification *)

Section Spec.
Context `{ServerField}.

(** A key part the server can build: a length in range, wide enough for a varbinary's length bytes. *)
Definition part_ok (kp : KEY_PART_INFO) : Prop :=
  0 <= kp_length kp < 2 ^ 32 /\
  (is_varbinary (field kp) = true ->
     1 <= length_bytes (field kp) <= 2 /\ length_bytes (field kp) <= kp_length kp).

(** A varbinary value that leaves room for its length in the part. *)
Definition value_fits (r : record) (kp : KEY_PART_INFO) : Prop :=
  is_varbinary (field kp) = true ->
  zlen (val_str (field kp) (slot (field kp) r)) + length_bytes (field kp) <= kp_length kp /\
  zlen (val_str (field kp) (slot (field kp) r)) < 256 ^ length_bytes (field kp).

(** The order an index promises: columns in turn, nulls before values, each reversed where the part
    is descending; a varbinary compares as its value, any other column as its server sort key. *)
Definition value_cmp (kp : KEY_PART_INFO) (r1 r2 : record) : comparison :=
  let f := field kp in
  if is_varbinary f then bytes_cmp (val_str f (slot f r1)) (val_str f (slot f r2))
  else bytes_cmp (TDB_FIELD_SORT_STRING f r1 (kp_length kp)) (TDB_FIELD_SORT_STRING f r2 (kp_length kp)).

Definition part_cmp (kp : KEY_PART_INFO) (r1 r2 : record) : comparison :=
  let c := match is_null (field kp) r1, is_null (field kp) r2 with
           | true, true => Eq
           | true, false => Lt
           | false, true => Gt
           | false, false => value_cmp kp r1 r2
           end in
  if reverse_sort kp then CompOpp c else c.

Fixpoint parts_cmp (kps : list KEY_PART_INFO) (r1 r2 : record) : comparison :=
  match kps with
  | [] => Eq
  | kp :: kps => match part_cmp kp r1 r2 with Eq => parts_cmp kps r1 r2 | c => c end
  end.

Definition part_width (kp : KEY_PART_INFO) : Z :=
  (if is_nullable (field kp) then 1 else 0) + kp_length kp.

(** ** Lemmas: the encoder *)

Lemma invert_length p : length (invert_key_part p) = length p.
Proof. apply length_map. Qed.

Lemma lnot_byte b : is_byte b -> u8 (Z.lnot b) = 255 - b.
Proof.
  unfold is_byte, u8. intros Hb. unfold Z.lnot.
  rewrite <- (Z.mod_unique (Z.pred (- b)) (2 ^ 8) (-1) (255 - b)); lia.
Qed.

Lemma invert_cmp a b :
  wf_bytes a -> wf_bytes b -> length a = length b ->
  bytes_cmp (invert_key_part a) (invert_key_part b) = CompOpp (bytes_cmp a b).
Proof.
  intros Ha. revert b. induction Ha as [|x a Hx _ IH]; intros [|y b] Hb Hl; try done.
  apply Forall_cons in Hb as [Hy Hb]. injection Hl as Hl. simpl. rewrite !lnot_byte by done.
  assert ((255 - x ?= 255 - y) = CompOpp (x ?= y)) as ->.
  { destruct (Z.compare_spec x y), (Z.compare_spec (255 - x) (255 - y)); simpl; (done || lia). }
  destruct (x ?= y); simpl; [by apply IH|done|done].
Qed.

Lemma invert_involutive p : wf_bytes p -> invert_key_part (invert_key_part p) = p.
Proof.
  induction 1 as [|b p Hb _ IH]; [done|]. simpl. rewrite IH. f_equal.
  rewrite (lnot_byte b) by done. rewrite lnot_byte; unfold is_byte in *; lia.
Qed.

Lemma invert_app p q : invert_key_part (p ++ q) = invert_key_part p ++ invert_key_part q.
Proof. apply map_app. Qed.

Lemma zeros_length n : length (zeros n) = Z.to_nat n.
Proof. apply length_replicate. Qed.

Lemma zeros_wf n : wf_bytes (zeros n).
Proof. apply Forall_replicate. unfold is_byte. lia. Qed.

Lemma sort_string_length f r n : 0 <= n -> length (TDB_FIELD_SORT_STRING f r n) = Z.to_nat n.
Proof.
  intros Hn. unfold TDB_FIELD_SORT_STRING. rewrite length_app, zeros_length.
  pose proof (make_sort_key_fits f (slot f r) n Hn). unfold zlen in *. lia.
Qed.

Lemma sort_string_wf fields f r n : record_ok fields r -> wf_bytes (TDB_FIELD_SORT_STRING f r n).
Proof.
  intros Hr. apply Forall_app. split; [|apply zeros_wf].
  eapply make_sort_key_wf, slot_wf. done.
Qed.

Lemma u32_small z : 0 <= z < 2 ^ 32 -> u32 z = z.
Proof. apply Z.mod_small. Qed.

Lemma varbinary_span_length kp r out pos :
  is_varbinary (field kp) = true -> part_ok kp ->
  length (varbinary_span kp r out pos) = Z.to_nat (kp_length kp).
Proof.
  intros Hv [Hl Hok]. destruct (Hok Hv) as [Hb Hle]. unfold varbinary_span.
  rewrite (u32_small (kp_length kp - _)) by lia.
  set (buf := val_str _ _). set (n := kp_length kp) in *. set (w := length_bytes _) in *.
  assert (0 <= u32 (zlen buf) <= zlen buf) as Hd.
  { split; [apply Z.mod_pos_bound; lia|]. apply Z.mod_le; [apply zlen_nonneg|lia]. }
  unfold stale, zlen in *. case_test; [|case_test];
    rewrite ?length_app, ?length_take, ?length_drop, ?length_map, ?length_seq, ?zeros_length,
      ?length_be_store; simpl; lia.
Qed.

Lemma comparable_part_length kp p pos r out :
  part_ok kp -> length (comparable_part kp p pos r out None) = Z.to_nat (part_width kp).
Proof.
  intros Hok. pose proof Hok as [Hl _]. unfold comparable_part, part_width.
  assert (forall x y, length x = y -> length (if reverse_sort kp then invert_key_part x else x) = y) as HI.
  { intros x y <-. destruct (reverse_sort kp); [apply invert_length|done]. }
  apply HI. simpl indicator. unfold indicator.
  assert (forall k, length (if is_varbinary (field kp) then varbinary_span kp r out k
           else TDB_FIELD_SORT_STRING (field kp) r (kp_length kp)) = Z.to_nat (kp_length kp)) as HV.
  { intros k. destruct (is_varbinary (field kp)) eqn:Ev;
      [by apply varbinary_span_length|apply sort_string_length; lia]. }
  destruct (is_nullable (field kp)); [destruct (is_null (field kp) r)|];
    rewrite ?length_app, ?HV; simpl; rewrite ?zeros_length; lia.
Qed.

Lemma comparable_parts_length kps p pos r out :
  Forall part_ok kps ->
  zlen (comparable_parts kps p pos r out None) = foldr (fun kp n => part_width kp + n) 0 kps.
Proof.
  intros Hok. revert p pos. induction Hok as [|kp kps Hkp _ IH]; intros p pos; [done|].
  simpl. rewrite zlen_app, IH. unfold zlen. rewrite comparable_part_length by done.
  destruct Hkp as [? _]. unfold part_width. destruct (is_nullable _); lia.
Qed.

Lemma comparable_parts_app kps kps' p pos r out fk :
  comparable_parts (kps ++ kps') p pos r out fk =
    comparable_parts kps p pos r out fk ++
    comparable_parts kps' (length kps + p) (pos + length (comparable_parts kps p pos r out fk)) r out fk.
Proof.
  revert p pos. induction kps as [|kp kps IH]; intros p pos; simpl; [by rewrite Nat.add_0_r|].
  rewrite IH, <- app_assoc, length_app, Nat.add_assoc. do 2 f_equal. by rewrite Nat.add_succ_r.
Qed.

(** Zero padding followed by the length keeps the order of byte strings. *)
Lemma pad_nil_lt (b la lb : bytes) (n : nat) :
  wf_bytes b -> (length b <= n)%nat -> bytes_cmp la lb = Lt ->
  bytes_cmp (replicate n 0 ++ la) (b ++ replicate (n - length b) 0 ++ lb) = Lt.
Proof.
  intros Hb. revert n. induction Hb as [|y b Hy _ IH]; intros n Hn Hl.
  { simpl. by rewrite Nat.sub_0_r, bytes_cmp_app_same. }
  simpl in Hn. destruct n as [|n]; [lia|]. cbn [replicate app length Nat.sub bytes_cmp].
  unfold is_byte in Hy.
  destruct (Z.compare_spec 0 y) as [<-|?|?]; [|done|lia]. apply IH; [lia|done].
Qed.

Lemma pad_cmp (a b la lb : bytes) (n : nat) :
  wf_bytes a -> wf_bytes b -> (length a <= n)%nat -> (length b <= n)%nat ->
  bytes_cmp la lb = (length a ?= length b)%nat ->
  bytes_cmp (a ++ replicate (n - length a) 0 ++ la) (b ++ replicate (n - length b) 0 ++ lb) =
    bytes_cmp a b.
Proof.
  intros Ha. revert b n. induction Ha as [|x a Hx Ha IH]; intros b n Hb Hna Hnb Hl.
  - destruct Hb as [|y b Hy Hb]; [by simpl; rewrite bytes_cmp_app_same, Hl|].
    simpl (length []). rewrite Nat.sub_0_r. simpl in Hl.
    apply (pad_nil_lt (y :: b)); [by apply Forall_cons|done|done].
  - destruct Hb as [|y b Hy Hb].
    { rewrite bytes_cmp_antisym. rewrite (bytes_cmp_antisym [] (x :: a)). f_equal.
      simpl (length []). rewrite Nat.sub_0_r. apply (pad_nil_lt (x :: a)); [by apply Forall_cons|done|].
      rewrite bytes_cmp_antisym, Hl. done. }
    simpl in *. destruct n as [|n]; [lia|]. simpl. destruct (x ?= y); [|done|done].
    apply (IH b n); [done|lia|lia|done].
Qed.

Lemma varbinary_fits_span kp r out pos :
  is_varbinary (field kp) = true -> part_ok kp -> value_fits r kp ->
  let v := val_str (field kp) (slot (field kp) r) in
  let w := Z.to_nat (length_bytes (field kp)) in
  varbinary_span kp r out pos =
    v ++ replicate (Z.to_nat (kp_length kp) - w - length v) 0 ++ be_store w (zlen v).
Proof.
  intros Hv [Hl Hok] Hf v w. destruct (Hok Hv) as [Hb Hle]. destruct (Hf Hv) as [Hs _]. fold v in Hs.
  unfold varbinary_span. fold v. pose proof (zlen_nonneg v).
  rewrite (u32_small (kp_length kp - _)), (u32_small (zlen v)) by lia.
  rewrite Z.min_l by lia. case_test; [lia|].
  rewrite take_ge by (unfold zlen; lia). unfold zeros, w.
  replace (Z.to_nat (kp_length kp - length_bytes (field kp) - zlen v)) with
    (Z.to_nat (kp_length kp) - Z.to_nat (length_bytes (field kp)) - length v)%nat by (unfold zlen; lia).
  destruct (Z.eqb_spec (length_bytes (field kp)) 1) as [->|]; rewrite <- ?app_assoc.
  - change (Z.to_nat 1) with 1%nat. by rewrite be_store_S.
  - replace (length_bytes (field kp)) with 2 by lia. done.
Qed.

Lemma varbinary_cmp fields kp r1 r2 o1 o2 p1 p2 :
  record_ok fields r1 -> record_ok fields r2 ->
  is_varbinary (field kp) = true -> part_ok kp -> value_fits r1 kp -> value_fits r2 kp ->
  bytes_cmp (varbinary_span kp r1 o1 p1) (varbinary_span kp r2 o2 p2) =
    bytes_cmp (val_str (field kp) (slot (field kp) r1)) (val_str (field kp) (slot (field kp) r2)).
Proof.
  intros R1 R2 Hv Hok F1 F2. rewrite !varbinary_fits_span by done.
  destruct (F1 Hv) as [L1 B1], (F2 Hv) as [L2 B2]. destruct Hok as [Hl Hok]. destruct (Hok Hv) as [Hb Hle].
  assert (2 ^ (8 * Z.of_nat (Z.to_nat (length_bytes (field kp)))) = 256 ^ length_bytes (field kp)) as EP.
  { rewrite <- pow256. f_equal. lia. }
  apply pad_cmp; try (by eapply val_str_wf, slot_wf); unfold zlen in *; try lia.
  rewrite be_store_cmp by (rewrite EP; lia). by rewrite Nat2Z.inj_compare.
Qed.

Lemma varbinary_span_wf fields kp r out pos :
  record_ok fields r -> is_varbinary (field kp) = true -> part_ok kp -> value_fits r kp ->
  wf_bytes (varbinary_span kp r out pos).
Proof.
  intros Hr Hv Hok Hf. rewrite varbinary_fits_span by done. repeat (apply Forall_app; split).
  - by eapply val_str_wf, slot_wf.
  - apply Forall_replicate. unfold is_byte. lia.
  - apply be_store_wf.
Qed.

(** The value bytes of a part, the same for both encodings. *)
Definition value_bytes (kp : KEY_PART_INFO) (r : record) (out : memory) (pos : nat) : bytes :=
  if is_varbinary (field kp) then varbinary_span kp r out pos
  else TDB_FIELD_SORT_STRING (field kp) r (kp_length kp).

Lemma value_bytes_length kp r out pos :
  part_ok kp -> length (value_bytes kp r out pos) = Z.to_nat (kp_length kp).
Proof.
  intros Hok. pose proof Hok as [? _]. unfold value_bytes. destruct (is_varbinary _) eqn:E.
  - by apply varbinary_span_length.
  - apply sort_string_length. lia.
Qed.

Lemma value_bytes_wf fields kp r out pos :
  record_ok fields r -> part_ok kp -> value_fits r kp -> wf_bytes (value_bytes kp r out pos).
Proof.
  intros. unfold value_bytes. destruct (is_varbinary _) eqn:E.
  - by eapply varbinary_span_wf.
  - by eapply sort_string_wf.
Qed.

Lemma value_bytes_cmp fields kp r1 r2 o1 o2 p1 p2 :
  record_ok fields r1 -> record_ok fields r2 -> part_ok kp -> value_fits r1 kp -> value_fits r2 kp ->
  bytes_cmp (value_bytes kp r1 o1 p1) (value_bytes kp r2 o2 p2) = value_cmp kp r1 r2.
Proof.
  intros. unfold value_bytes, value_cmp. destruct (is_varbinary _) eqn:E; [|done].
  by eapply varbinary_cmp.
Qed.

(** The span of a part before a descending part is inverted. *)
Definition plain_span (kp : KEY_PART_INFO) (r : record) (out : memory) (pos : nat) : bytes :=
  if is_nullable (field kp) then
    if is_null (field kp) r then SORT_KEY_NULL :: zeros (kp_length kp)
    else SORT_KEY_NOT_NULL :: value_bytes kp r out (S pos)
  else value_bytes kp r out pos.

Lemma comparable_part_plain kp p pos r out :
  comparable_part kp p pos r out None =
    if reverse_sort kp then invert_key_part (plain_span kp r out pos) else plain_span kp r out pos.
Proof.
  unfold comparable_part, plain_span, indicator, value_bytes.
  destruct (is_nullable _); [destruct (is_null _ _)|]; simpl; rewrite ?Nat.add_0_r, ?Nat.add_1_r; done.
Qed.

Lemma plain_span_wf fields kp r out pos :
  record_ok fields r -> part_ok kp -> value_fits r kp -> wf_bytes (plain_span kp r out pos).
Proof.
  intros. unfold plain_span. destruct (is_nullable _); [destruct (is_null _ _)|].
  - apply Forall_cons. split; [unfold is_byte, SORT_KEY_NULL; lia|apply zeros_wf].
  - apply Forall_cons. split; [unfold is_byte, SORT_KEY_NOT_NULL; lia|by eapply value_bytes_wf].
  - by eapply value_bytes_wf.
Qed.

Lemma plain_span_length kp r out pos :
  part_ok kp -> length (plain_span kp r out pos) = Z.to_nat (part_width kp).
Proof.
  intros Hok. rewrite <- (comparable_part_length kp 0 pos r out) by done.
  rewrite comparable_part_plain. destruct (reverse_sort kp); [|done]. symmetry. apply invert_length.
Qed.

Lemma not_nullable_not_null f r : is_nullable f = false -> is_null f r = false.
Proof. unfold is_nullable, is_null. by destruct (null_bit f). Qed.

Lemma part_order fields kp r1 r2 o1 o2 p1 p2 q1 q2 :
  record_ok fields r1 -> record_ok fields r2 -> part_ok kp -> value_fits r1 kp -> value_fits r2 kp ->
  bytes_cmp (comparable_part kp q1 p1 r1 o1 None) (comparable_part kp q2 p2 r2 o2 None) =
    part_cmp kp r1 r2.
Proof.
  intros R1 R2 Hok F1 F2. rewrite !comparable_part_plain. unfold part_cmp.
  rewrite <- (value_bytes_cmp fields kp r1 r2 o1 o2 (if is_nullable (field kp) then S p1 else p1)
                (if is_nullable (field kp) then S p2 else p2)) by done.
  assert (bytes_cmp (plain_span kp r1 o1 p1) (plain_span kp r2 o2 p2) =
          match is_null (field kp) r1, is_null (field kp) r2 with
          | true, true => Eq | true, false => Lt | false, true => Gt
          | false, false => bytes_cmp (value_bytes kp r1 o1 (if is_nullable (field kp) then S p1 else p1))
                              (value_bytes kp r2 o2 (if is_nullable (field kp) then S p2 else p2)) end) as E.
  { unfold plain_span. destruct (is_nullable (field kp)) eqn:En.
    - destruct (is_null _ r1), (is_null _ r2); simpl; try done. apply bytes_cmp_refl.
    - by rewrite !not_nullable_not_null by done. }
  destruct (reverse_sort kp); [|done]. rewrite <- E. apply invert_cmp.
  - by eapply plain_span_wf.
  - by eapply plain_span_wf.
  - by rewrite !plain_span_length.
Qed.

Lemma parts_order fields kps r1 r2 o1 o2 p1 p2 q1 q2 :
  record_ok fields r1 -> record_ok fields r2 -> Forall part_ok kps ->
  Forall (value_fits r1) kps -> Forall (value_fits r2) kps ->
  bytes_cmp (comparable_parts kps q1 p1 r1 o1 None) (comparable_parts kps q2 p2 r2 o2 None) =
    parts_cmp kps r1 r2.
Proof.
  intros R1 R2 Hok. revert p1 p2 q1 q2.
  induction Hok as [|kp kps Hkp Hok IH]; intros p1 p2 q1 q2 F1 F2; [done|].
  apply Forall_cons in F1 as [F1 G1], F2 as [F2 G2]. simpl.
  rewrite bytes_cmp_app by (by rewrite !comparable_part_length).
  erewrite part_order by done. destruct (part_cmp kp r1 r2); [|done|done]. by apply IH.
Qed.

Lemma parts_cmp_app k1 k2 r1 r2 :
  parts_cmp (k1 ++ k2) r1 r2 =
    match parts_cmp k1 r1 r2 with Eq => parts_cmp k2 r1 r2 | c => c end.
Proof. induction k1 as [|kp k1 IH]; simpl; [done|]. by destruct (part_cmp kp r1 r2). Qed.

Lemma comparable_key_length_fold kps acc :
  Forall part_ok kps -> 0 <= acc ->
  acc + foldr (fun kp n => part_width kp + n) 0 kps < 2 ^ 32 ->
  fold_left (fun len kp => u32 (u32 (if is_nullable (field kp) then len + 1 else len) + kp_length kp)) kps acc
    = acc + foldr (fun kp n => part_width kp + n) 0 kps.
Proof.
  intros Hok. revert acc. induction Hok as [|kp kps [Hl _] Hok IH]; intros acc Ha Hs; simpl in *; [lia|].
  assert (0 <= foldr (fun kp n => part_width kp + n) 0 kps).
  { clear -Hok. induction Hok as [|kp kps [? _] _ IH]; simpl; [lia|].
    unfold part_width at 1. destruct (is_nullable _); lia. }
  set (len := if is_nullable (field kp) then acc + 1 else acc).
  assert (acc <= len /\ len + kp_length kp = acc + part_width kp) as [? E]
    by (unfold len, part_width; destruct (is_nullable _); lia).
  rewrite (u32_small len), E, u32_small, IH by lia. lia.
Qed.

Lemma make_comparable_key_all ki r out :
  make_comparable_key ki r (length (key_part ki)) out None = comparable_parts (key_part ki) 0 0 r out None.
Proof. unfold make_comparable_key. by rewrite take_ge by lia. Qed.

End Spec.

(** ** Lemmas: the decoder *)

(** The server's sort keys, [Field::make_sort_key], of the types the decoder accepts: an integer is stored
    little-endian and sorts big-endian with its sign bit flipped; a date and the old eight- and four-byte times
    are stored little-endian and sort big-endian; a year, a [BINARY] string and the current [DATETIME] and
    [TIMESTAMP], which are stored big-endian, sort as they are stored.  [has_documented_key] leaves out [CHAR] of
    the latin1 charset: its default collation folds case. *)
Definition has_documented_key (f : Field) : bool :=
  match real_type f with
  | MYSQL_TYPE_TINY | MYSQL_TYPE_SHORT | MYSQL_TYPE_INT24 | MYSQL_TYPE_LONG | MYSQL_TYPE_LONGLONG
  | MYSQL_TYPE_YEAR | MYSQL_TYPE_DATE | MYSQL_TYPE_NEWDATE
  | MYSQL_TYPE_DATETIME | MYSQL_TYPE_DATETIME2 | MYSQL_TYPE_TIMESTAMP | MYSQL_TYPE_TIMESTAMP2 => true
  | MYSQL_TYPE_STRING => bool_decide (charset f = my_charset_bin)
  | _ => false
  end.

Definition documented_sort_key (f : Field) (v : bytes) : bytes :=
  match real_type f with
  | MYSQL_TYPE_TINY | MYSQL_TYPE_SHORT | MYSQL_TYPE_INT24 | MYSQL_TYPE_LONG | MYSQL_TYPE_LONGLONG =>
      match reverse v with
      | [] => []
      | t :: k => (if is_unsigned f then t else Z.lxor t SortKey.INT_SIGN_FLIP_MASK) :: k
      end
  | MYSQL_TYPE_STRING | MYSQL_TYPE_YEAR | MYSQL_TYPE_DATETIME2 | MYSQL_TYPE_TIMESTAMP2 => v
  | _ => reverse v
  end.

(** The types whose sort keys the decoder inverts: integers, years, dates, the old times and [BINARY]. *)
Definition restorable (f : Field) : bool :=
  is_keyread_decodable_type f && has_documented_key f &&
  match real_type f with MYSQL_TYPE_DATETIME2 | MYSQL_TYPE_TIMESTAMP2 => false | _ => true end.

Lemma restorable_types f : restorable f = true -> is_keyread_decodable_type f = true /\ has_documented_key f = true.
Proof. unfold restorable. by intros [[? ?]%andb_true_iff _]%andb_true_iff. Qed.

(** The native widths the server has for the decodable types; only a varchar's type is varchar. *)
Definition width_ok (f : Field) : Prop :=
  type f <> MYSQL_TYPE_VARCHAR /\
  match real_type f with
  | MYSQL_TYPE_TINY | MYSQL_TYPE_YEAR => pack_length f = 1
  | MYSQL_TYPE_SHORT => pack_length f = 2
  | MYSQL_TYPE_INT24 | MYSQL_TYPE_DATE | MYSQL_TYPE_NEWDATE => pack_length f = 3
  | MYSQL_TYPE_LONG => pack_length f = 4
  | MYSQL_TYPE_LONGLONG => pack_length f = 8
  | MYSQL_TYPE_STRING => 0 <= pack_length f < 2 ^ 32
  | _ => 1 <= pack_length f <= 8
  end.

Class DocumentedSortKeys `{ServerField} :=
  documented_keys : forall f v,
    has_documented_key f = true -> width_ok f -> zlen v = pack_length f -> wf_bytes v ->
    make_sort_key f v (pack_length f) = documented_sort_key f v.

Lemma lxor_twice t m : Z.lxor (Z.lxor t m) m = t.
Proof. by rewrite Z.lxor_assoc, Z.lxor_nilpotent, Z.lxor_0_r. Qed.

Lemma take_app_full {A} (a b : list A) n : length a = n -> take n (a ++ b) = take n a.
Proof. intros <-. by rewrite take_app_length, take_ge. Qed.

Lemma decode_int_documented (v : bytes) (uns : bool) :
  SortKey.int_width (length v) ->
  SortKey.decode_int
    (match reverse v with [] => [] | t :: k => (if uns then t else Z.lxor t SortKey.INT_SIGN_FLIP_MASK) :: k end)
    (zlen v) (negb uns) = Some v.
Proof.
  intros Hw. unfold SortKey.decode_int, zlen. rewrite SortKey.int_width_guard by done. f_equal.
  destruct v as [|t v' _] using rev_ind; [by destruct uns|]. rewrite reverse_snoc. cbv iota beta.
  rewrite SortKey.reverse_loop_rev by (simpl; rewrite length_app, length_reverse; simpl; lia).
  rewrite reverse_cons, reverse_involutive, Nat2Z.id, length_app.
  replace (length v' + length [t] - 1)%nat with (length v') by (simpl; lia).
  destruct uns; cbn [negb]; [done|]. by rewrite SortKey.xor_at_last, lxor_twice.
Qed.

Lemma decode_reverse_documented v : SortKey.decode_reverse (reverse v) (zlen v) = Some v.
Proof.
  unfold SortKey.decode_reverse, zlen. rewrite SortKey.reverse_loop_rev by apply length_reverse.
  by rewrite reverse_involutive.
Qed.

Lemma decode_year_documented (v : bytes) d :
  SortKey.k d = SortKey.year -> zlen v = 1 -> SortKey.decode_part v (zlen v) d = Some v.
Proof.
  intros Hk Hl. unfold SortKey.decode_part. rewrite Hk, Hl. unfold zlen in Hl.
  destruct v as [|x [|y v]]; simpl in Hl; (done || lia).
Qed.

Lemma decode_date_documented (v : bytes) d :
  SortKey.k d = SortKey.date -> zlen v = 3 -> SortKey.decode_part (reverse v) (zlen v) d = Some v.
Proof.
  intros Hk Hl. unfold SortKey.decode_part. rewrite Hk, decode_reverse_documented. by rewrite Hl.
Qed.

Lemma decode_datetime_documented (v : bytes) d :
  SortKey.k d = SortKey.datetime -> 1 <= zlen v <= 8 ->
  SortKey.decode_part (reverse v) (zlen v) d = Some v.
Proof.
  intros Hk Hl. unfold SortKey.decode_part, SortKey.DATETIME_MAX_PACK_LEN.
  rewrite Hk, decode_reverse_documented. repeat case_test; simpl; (done || lia).
Qed.

Lemma decode_char_documented (v : bytes) d :
  SortKey.k d = SortKey.char_fixed -> SortKey.pack_length d = zlen v ->
  SortKey.decode_part v (zlen v) d = Some v.
Proof.
  intros Hk Hl. unfold SortKey.decode_part. rewrite Hk, Hl, Z.ltb_irrefl, Z.ltb_irrefl.
  rewrite take_ge by (unfold zlen; lia). by rewrite app_nil_r.
Qed.

Lemma decode_documented f v d :
  restorable f = true -> width_ok f -> zlen v = pack_length f -> sort_desc f = Some d ->
  SortKey.decode_part (documented_sort_key f v) (pack_length f) d = Some v.
Proof.
  unfold restorable, is_keyread_decodable_type, has_documented_key, width_ok, sort_desc, documented_sort_key. intros Hk [_ Hw] Hl Hd.
  rewrite <- Hl in *. destruct (real_type f); rewrite ?andb_false_r in Hk; try done;
    first [ destruct (charset f); try done; injection Hd as <-; by apply decode_char_documented
          | injection Hd as <-;
            first [ by apply decode_year_documented | by apply decode_date_documented
                  | by apply decode_datetime_documented
                  | unfold SortKey.decode_part; cbn [SortKey.k SortKey.is_signed];
                    apply decode_int_documented;
                    unfold SortKey.int_width, zlen in *;
                    first [ replace (length v) with 1%nat by lia | replace (length v) with 2%nat by lia
                          | replace (length v) with 3%nat by lia | replace (length v) with 4%nat by lia
                          | replace (length v) with 8%nat by lia ];
                    by apply (bool_decide_unpack _) ] ].
Qed.

Lemma decodable_desc f : is_keyread_decodable_type f = true -> is_Some (sort_desc f).
Proof.
  unfold is_keyread_decodable_type, sort_desc. destruct (real_type f); try done; try eauto.
  destruct (charset f); eauto. rewrite !bool_decide_false by done. done.
Qed.

(** A key part a covering read restores: a restorable column of the table, stored at full width. *)
Definition readable_part (fields : list Field) (kp : KEY_PART_INFO) : Prop :=
  field kp ∈ fields /\ restorable (field kp) = true /\ width_ok (field kp) /\
  kp_length kp = pack_length (field kp).

(** Decodable columns have slots of their width. *)
Definition sized (fields : list Field) (r : record) : Prop :=
  forall f, f ∈ fields -> is_keyread_decodable_type f = true -> zlen (slot f r) = pack_length f.

Section Decode.
Context `{ServerField} `{!DocumentedSortKeys} (fields : list Field) (Hlay : layout_ok fields).

Lemma width_bounds f : width_ok f -> 0 <= pack_length f < 2 ^ 32.
Proof. unfold width_ok. intros [_ Hw]. destruct (real_type f); lia. Qed.

Lemma readable_not_varbinary kp : readable_part fields kp -> is_varbinary (field kp) = false.
Proof.
  intros (_ & _ & [Ht _] & _). unfold is_varbinary. by rewrite bool_decide_false.
Qed.

Lemma readable_part_ok kp : readable_part fields kp -> part_ok kp.
Proof.
  intros Hr. pose proof Hr as (_ & _ & Hw & Hl). split; [rewrite Hl; by apply width_bounds|].
  by rewrite readable_not_varbinary.
Qed.

Lemma documented_length f v : length (documented_sort_key f v) = length v.
Proof.
  unfold documented_sort_key. rewrite <- (length_reverse v).
  destruct (real_type f); rewrite ?length_reverse; try done;
    destruct (reverse v) eqn:E; simpl; rewrite <- (length_reverse v), E; done.
Qed.

Lemma value_bytes_documented kp r out pos :
  readable_part fields kp -> record_ok fields r -> sized fields r ->
  value_bytes kp r out pos = documented_sort_key (field kp) (slot (field kp) r).
Proof.
  intros Hr Hok Hs. pose proof Hr as (Hf & Hd & Hw & Hl). unfold value_bytes.
  rewrite readable_not_varbinary by done. unfold TDB_FIELD_SORT_STRING. rewrite Hl.
  destruct (restorable_types _ Hd) as [Hdec Hdoc].
  rewrite documented_keys by (done || (by apply Hs) || by eapply slot_wf).
  unfold zlen. rewrite documented_length. change (Z.of_nat (length (slot (field kp) r))) with (zlen (slot (field kp) r)).
  rewrite Hs, Z.sub_diag by done. apply app_nil_r.
Qed.

(** What decoding a part does to the record. *)
Definition step_record (wanted : bool) (f : Field) (r buf : record) : record :=
  if is_null f r then set_null f buf
  else if wanted then write_slot f (slot f r) (set_notnull f buf) else set_notnull f buf.

Lemma decode_documented_part f v src buf :
  restorable f = true -> width_ok f -> zlen v = pack_length f ->
  take (Z.to_nat (pack_length f)) src = documented_sort_key f v ->
  decode_sort_key_part src (pack_length f) f buf = Some (write_slot f v buf).
Proof.
  intros Hd Hw Hl Hs. unfold decode_sort_key_part. destruct (decodable_desc f (proj1 (restorable_types f Hd))) as [d Ed]. rewrite Ed.
  rewrite (SortKey.decode_part_reads _ (documented_sort_key f v)).
  - by rewrite decode_documented.
  - by apply width_bounds in Hw as [? _].
  - rewrite Hs. rewrite take_ge; [done|]. rewrite documented_length. unfold zlen in Hl. lia.
Qed.

Lemma short_false (z more : bytes) n : length z = Z.to_nat n -> (zlen (z ++ more) <? n) = false.
Proof. intros Hz. apply Z.ltb_ge. rewrite zlen_app. pose proof (zlen_nonneg more). unfold zlen at 1. lia. Qed.

Lemma decode_value_spec wanted kp r out pos more buf :
  readable_part fields kp -> record_ok fields r -> sized fields r ->
  let v := value_bytes kp r out pos in
  decode_value wanted kp ((if reverse_sort kp then invert_key_part v else v) ++ more) buf =
    (true, more, if wanted then write_slot (field kp) (slot (field kp) r) buf else buf).
Proof.
  intros Hr Hok Hs v. pose proof Hr as (Hf & Hd & Hw & Hl).
  assert (length v = Z.to_nat (kp_length kp)) as HL by (by apply value_bytes_length, readable_part_ok).
  assert (wf_bytes v) as Hv.
  { eapply value_bytes_wf; [done|by apply readable_part_ok|]. intros E. by rewrite readable_not_varbinary in E. }
  set (e := if reverse_sort kp then invert_key_part v else v).
  assert (length e = Z.to_nat (kp_length kp)) as He.
  { unfold e. destruct (reverse_sort kp); by rewrite ?invert_length. }
  unfold decode_value. rewrite short_false, drop_app_exact by done. destruct wanted; [|done].
  rewrite Hl in *. rewrite (decode_documented_part _ (slot (field kp) r)); try done;
    [by apply Hs; [|apply restorable_types]|].
  rewrite <- (value_bytes_documented kp r out pos) by done. fold v. unfold e in *.
  destruct (reverse_sort kp); rewrite take_app_exact by done; [|done].
  rewrite invert_involutive by done. apply take_ge. lia.
Qed.

Lemma decode_part_spec wanted kp p pos r out more buf :
  readable_part fields kp -> record_ok fields r -> sized fields r ->
  decode_key_part wanted kp (comparable_part kp p pos r out None ++ more) buf =
    (true, more, step_record wanted (field kp) r buf).
Proof.
  intros Hr Hok Hs. rewrite comparable_part_plain. unfold plain_span, decode_key_part, step_record.
  destruct (is_nullable (field kp)) eqn:En.
  - destruct (is_null (field kp) r) eqn:Enl.
    + set (z := zeros (kp_length kp)).
      assert (length z = Z.to_nat (kp_length kp)) as Hz by apply zeros_length.
      destruct (reverse_sort kp); cbn [invert_key_part map app].
      * change (u8 (Z.lnot (u8 (Z.lnot SORT_KEY_NULL))) =? 0) with true. cbn iota.
        by rewrite short_false, drop_app_exact by (by rewrite length_map).
      * change (SORT_KEY_NULL =? 0) with true. cbn iota. by rewrite short_false, drop_app_exact.
    + pose proof (decode_value_spec wanted kp r out (S pos) more (set_notnull (field kp) buf) Hr Hok Hs) as HV.
      simpl in HV. destruct (reverse_sort kp); cbn [invert_key_part map app].
      * change (u8 (Z.lnot (u8 (Z.lnot SORT_KEY_NOT_NULL))) =? 0) with false. exact HV.
      * change (SORT_KEY_NOT_NULL =? 0) with false. exact HV.
  - rewrite not_nullable_not_null by done.
    assert (set_notnull (field kp) buf = buf) as ->
      by (unfold set_notnull, is_nullable in *; by destruct (null_bit (field kp))).
    apply decode_value_spec; done.
Qed.

(** Decoding a column's part restores the column and disturbs no other. *)
Lemma step_record_ok wanted f r buf :
  record_ok fields r -> record_ok fields buf -> record_ok fields (step_record wanted f r buf).
Proof.
  intros Hr Hb. unfold step_record. destruct (is_null f r); [by apply record_ok_set_null|].
  destruct wanted; [apply record_ok_write; [by eapply slot_wf|]|]; by apply record_ok_set_notnull.
Qed.

Lemma step_record_slot wanted f g r buf :
  f ∈ fields -> g ∈ fields -> is_keyread_decodable_type f = true ->
  record_ok fields buf -> sized fields r -> sized fields buf ->
  slot g (step_record wanted f r buf) =
    if wanted && negb (is_null f r) && bool_decide (f = g) then slot g r else slot g buf.
Proof.
  intros Hf Hg Hd [_ Hok] Hsr Hsb. unfold step_record. destruct (is_null f r); [by rewrite andb_false_r, slot_set_null|].
  destruct wanted; [|by rewrite slot_set_notnull]. simpl. destruct (bool_decide_reflect (f = g)) as [->|Hne].
  - apply slot_write_same.
    + unfold set_notnull. destruct (null_bit g) as [[i b]|]; apply Hok; done.
    + rewrite slot_set_notnull. pose proof (Hsr g Hg Hd). pose proof (Hsb g Hg Hd). unfold zlen in *. lia.
  - rewrite slot_write_other, slot_set_notnull; [done|]. intros E.
    destruct (Hlay f g Hf Hg) as [Hi _]. by apply Hne, Hi.
Qed.

Lemma step_record_null wanted f g r buf :
  f ∈ fields -> g ∈ fields -> record_ok fields buf ->
  is_null g (step_record wanted f r buf) = if bool_decide (f = g) then is_null g r else is_null g buf.
Proof.
  intros Hf Hg [_ Hok]. unfold step_record.
  destruct (bool_decide_reflect (f = g)) as [->|Hne].
  - destruct (is_null g r) eqn:E.
    + apply is_null_set_null; [|apply Hok; done]. intros En. unfold is_null in E. by rewrite En in E.
    + destruct wanted; rewrite ?is_null_write_slot; apply is_null_set_notnull; by apply Hok.
  - destruct (decide (null_bit f = None)) as [En|En].
    + unfold set_null, set_notnull. rewrite En. by destruct (is_null f r), wanted.
    + assert (null_bit f <> null_bit g) as Hb
        by (intros Hb; destruct (Hlay f g Hf Hg) as [_ Hi]; by apply Hne, Hi).
      destruct (is_null f r); [by apply is_null_set_null_other|].
      destruct wanted; rewrite ?is_null_write_slot; by apply is_null_set_notnull_other.
Qed.

(** What decoding a list of parts leaves: each wanted column of them as in the source record, and no
    column disturbed that already was. *)
Definition restored (wanted : Field -> bool) (kps : list KEY_PART_INFO) (r buf buf' : record) : Prop :=
  record_ok fields buf' /\ sized fields buf' /\
  forall g, g ∈ fields ->
    (same_column g r buf -> same_column g r buf') /\
    (wanted g = true -> g ∈ map field kps -> same_column g r buf').

Lemma step_restored wanted kp r buf :
  readable_part fields kp -> record_ok fields r -> sized fields r -> record_ok fields buf -> sized fields buf ->
  restored wanted [kp] r buf (step_record (wanted (field kp)) (field kp) r buf).
Proof.
  intros (Hf & [Hd _]%restorable_types & _ & _) Hr Hsr Hb Hsb. split; [by apply step_record_ok|]. split.
  - intros g Hg Hgd. rewrite step_record_slot by done. destruct (_ && _); [by apply Hsr|by apply Hsb].
  - intros g Hg. unfold same_column. rewrite step_record_null, step_record_slot by done.
    destruct (bool_decide_reflect (field kp = g)) as [Heq|Hne].
    + rewrite Heq. destruct (is_null g r); [done|]. rewrite andb_true_r, andb_true_r. split.
      * intros [_ HS]. split; [done|]. intros _. destruct (wanted g); [done|by apply HS].
      * by intros ->.
    + rewrite andb_false_r. split; [done|]. intros _. simpl.
      intros [E|E]%elem_of_cons; [congruence|by apply elem_of_nil in E].
Qed.

Lemma decode_key_parts_spec wanted kps p pos r out more buf :
  Forall (readable_part fields) kps ->
  record_ok fields r -> sized fields r -> record_ok fields buf -> sized fields buf ->
  exists buf', decode_key_parts wanted kps (comparable_parts kps p pos r out None ++ more) buf = (true, more, buf')
    /\ restored wanted kps r buf buf'.
Proof.
  intros Hk Hr Hsr. revert p pos buf. induction Hk as [|kp kps Hkp _ IH]; intros p pos buf Hb Hsb.
  { exists buf. split; [done|]. split; [done|]. split; [done|]. intros g Hg. split; [done|].
    intros _ Hin. by apply elem_of_nil in Hin. }
  simpl. rewrite <- app_assoc, decode_part_spec by done.
  destruct (step_restored wanted kp r buf) as (Hb1 & Hsb1 & H1); try done.
  destruct (IH (S p) (pos + length (comparable_part kp p pos r out None))%nat _ Hb1 Hsb1)
    as (buf' & -> & Hb' & Hsb' & H').
  exists buf'. split; [done|]. split; [done|]. split; [done|]. intros g Hg.
  destruct (H1 g Hg) as [F1 W1], (H' g Hg) as [F' W']. split; [by auto|].
  intros Hw [E|E]%elem_of_cons; [|by auto]. apply F', W1; [done|]. by apply elem_of_cons; left.
Qed.

(** A part of a type the decoder refuses: decoding it fails unless it is null. *)
Definition refused_part (kp : KEY_PART_INFO) : Prop :=
  field kp ∈ fields /\ sort_desc (field kp) = None /\ is_keyread_decodable_type (field kp) = false /\ part_ok kp.

Lemma decode_refused kp p pos r out more buf pos' buf' :
  refused_part kp ->
  decode_key_part true kp (comparable_part kp p pos r out None ++ more) buf = (true, pos', buf') ->
  pos' = more /\ is_null (field kp) r = true /\ buf' = set_null (field kp) buf.
Proof.
  intros (_ & Hd & _ & Hok) Hdec. rewrite comparable_part_plain in Hdec.
  assert (forall q b, decode_value true kp q b <> (true, pos', buf')) as HV.
  { intros q b. unfold decode_value, decode_sort_key_part. rewrite Hd. by case_test. }
  revert Hdec. unfold plain_span, decode_key_part.
  destruct (is_nullable (field kp)); [|intros E; by apply HV in E].
  destruct (is_null (field kp) r).
  - set (z := zeros (kp_length kp)). assert (length z = Z.to_nat (kp_length kp)) as Hz by apply zeros_length.
    destruct (reverse_sort kp); cbn [invert_key_part map app].
    + change (u8 (Z.lnot (u8 (Z.lnot SORT_KEY_NULL))) =? 0) with true. cbn iota.
      rewrite short_false, drop_app_exact by (by rewrite length_map). by intros [= -> ->].
    + change (SORT_KEY_NULL =? 0) with true. cbn iota. rewrite short_false, drop_app_exact by done.
      by intros [= -> ->].
  - destruct (reverse_sort kp); cbn [invert_key_part map app].
    + change (u8 (Z.lnot (u8 (Z.lnot SORT_KEY_NOT_NULL))) =? 0) with false. intros E. by apply HV in E.
    + change (SORT_KEY_NOT_NULL =? 0) with false. intros E. by apply HV in E.
Qed.

Lemma refused_restored kp r buf :
  field kp ∈ fields -> is_null (field kp) r = true -> record_ok fields buf -> sized fields buf ->
  restored (fun _ => true) [kp] r buf (set_null (field kp) buf).
Proof.
  intros Hf Hn Hb Hsb. split; [by apply record_ok_set_null|]. split.
  { intros g Hg Hgd. rewrite slot_set_null. by apply Hsb. }
  intros g Hg. pose proof (step_record_null true (field kp) g r buf Hf Hg Hb) as HN.
  unfold step_record in HN. rewrite Hn in HN. unfold same_column. rewrite HN, slot_set_null.
  destruct (bool_decide_reflect (field kp = g)) as [<-|Hne]; [by rewrite Hn|].
  split; [done|]. intros _ [E|E]%elem_of_cons; [congruence|by apply elem_of_nil in E].
Qed.

Lemma restored_trans wanted k1 k2 r b0 b1 b2 :
  restored wanted k1 r b0 b1 -> restored wanted k2 r b1 b2 -> restored wanted (k1 ++ k2) r b0 b2.
Proof.
  intros (_ & _ & H1) (? & ? & H2). split; [done|]. split; [done|]. intros g Hg.
  destruct (H1 g Hg) as [F1 W1], (H2 g Hg) as [F2 W2]. split; [by auto|].
  intros Hw. rewrite map_app. intros [E|E]%elem_of_app; auto.
Qed.

(** Decoding a key all of whose parts are restorable or refused either restores them or fails. *)
Lemma decode_key_parts_mixed kps p pos r out more buf pos' buf' :
  Forall (fun kp => readable_part fields kp \/ refused_part kp) kps ->
  record_ok fields r -> sized fields r -> record_ok fields buf -> sized fields buf ->
  decode_key_parts (fun _ => true) kps (comparable_parts kps p pos r out None ++ more) buf = (true, pos', buf') ->
  pos' = more /\ restored (fun _ => true) kps r buf buf'.
Proof.
  intros Hk Hr Hsr. revert p pos buf. induction Hk as [|kp kps Hkp _ IH]; intros p pos buf Hb Hsb.
  { simpl. intros [= -> ->]. split; [done|]. split; [done|]. split; [done|]. intros g Hg.
    split; [done|]. intros _ Hin. by apply elem_of_nil in Hin. }
  simpl. rewrite <- app_assoc.
  assert (forall q b1, decode_key_part true kp (comparable_part kp p pos r out None ++ q) buf = (true, q, b1) ->
            restored (fun _ => true) [kp] r buf b1) as H1.
  { intros q b1 Hd. destruct Hkp as [Hkp|Hkp].
    - rewrite decode_part_spec in Hd by done. injection Hd as <-. by apply (step_restored (fun _ => true)).
    - pose proof Hkp as (Hf & _). apply decode_refused in Hd as (_ & Hn & ->); [|done].
      by apply refused_restored. }
  destruct (decode_key_part true kp _ buf) as [[ok q] b1] eqn:Ed. destruct ok; [|done].
  assert (q = comparable_parts kps (S p) (pos + length (comparable_part kp p pos r out None)) r out None ++ more) as ->.
  { destruct Hkp as [Hkp|Hkp]; [rewrite decode_part_spec in Ed by done; by injection Ed|].
    by apply decode_refused in Ed as (-> & _). }
  apply H1 in Ed. intros Hd. pose proof Ed as (Hb1 & Hsb1 & _).
  apply IH in Hd as [-> H2]; [|done|done]. split; [done|]. by eapply (restored_trans _ [kp]).
Qed.

End Decode.

(** ** Properties *)

Section Properties.
Context `{ServerField}.

Lemma part_cmp_refl kp r : part_cmp kp r r = Eq.
Proof.
  unfold part_cmp, value_cmp. destruct (is_null _ _); [by destruct (reverse_sort kp)|].
  destruct (is_varbinary _); rewrite bytes_cmp_refl; by destruct (reverse_sort kp).
Qed.

Lemma parts_cmp_refl kps r : parts_cmp kps r r = Eq.
Proof. induction kps as [|kp kps IH]; simpl; [done|]. by rewrite part_cmp_refl. Qed.

(** A key whose values fit does not depend on what its buffer held. *)
Lemma parts_stale fields kps r o1 o2 p1 p2 q1 q2 :
  record_ok fields r -> Forall part_ok kps -> Forall (value_fits r) kps ->
  comparable_parts kps q1 p1 r o1 None = comparable_parts kps q2 p2 r o2 None.
Proof. intros. apply bytes_cmp_eq. erewrite parts_order by done. apply parts_cmp_refl. Qed.

Lemma mark_key_lookup n cover ki c :
  length cover = n ->
  length (mark_key n cover ki) = n /\
  default false (mark_key n cover ki !! c) =
    default false (cover !! c) ||
    (bool_decide (c < n)%nat && existsb (fun kp => Nat.eqb (field_index (field kp)) c) (key_part ki)).
Proof.
  unfold mark_key. generalize (key_part ki) as kps. clear. intros kps. revert cover.
  induction kps as [|kp kps IH]; intros cover Hl; simpl.
  { by rewrite andb_false_r, orb_false_r. }
  set (i := field_index (field kp)). set (cover' := if bool_decide (i < n)%nat then <[i := true]> cover else cover).
  assert (length cover' = n) as Hl' by (unfold cover'; case_test; by rewrite ?length_insert).
  destruct (IH cover' Hl') as [L ->]. split; [done|].
  assert (default false (cover' !! c) =
          default false (cover !! c) || (bool_decide (c < n)%nat && Nat.eqb i c)) as ->.
  { unfold cover'. destruct (Nat.eqb_spec i c) as [->|Hne].
    - case_test; [|by rewrite andb_false_l, orb_false_r]. rewrite list_lookup_insert_eq by lia. by rewrite orb_true_r.
    - rewrite andb_false_r, orb_false_r. case_test; [|done]. by rewrite list_lookup_insert_ne. }
  destruct (default false (cover !! c)), (bool_decide (c < n)%nat), (Nat.eqb i c); done.
Qed.

Lemma comparable_parts_take n kps r out fk :
  exists X, comparable_parts kps 0 0 r out fk = comparable_parts (take n kps) 0 0 r out fk ++ X.
Proof.
  exists (comparable_parts (drop n kps) (length (take n kps) + 0)
            (0 + length (comparable_parts (take n kps) 0 0 r out fk)) r out fk).
  by rewrite <- comparable_parts_app, take_drop.
Qed.

(** C25: Index entries sort as the index promises.  With a user primary key, and as long as no [VARBINARY] value
    runs into the bytes its part keeps for the length ([value_fits]; beyond that see
    [varbinary_full_width_keys]), the entries of two rows compare under [memcmp] as the rows do column by column
    over the index columns and then the primary key: nulls first, values in the server's order, everything
    reversed on a descending part; and the bytes the output buffers held before the call play no role. *)
Theorem index_entry_order fields s idx r1 r2 c1 c2 o1 o2 :
  let kps := key_part (key_at (key_info s) idx) ++ key_part (key_at (key_info s) (pk_index s)) in
  has_user_pk s = true -> record_ok fields r1 -> record_ok fields r2 -> Forall part_ok kps ->
  Forall (value_fits r1) kps -> Forall (value_fits r2) kps ->
  bytes_cmp (sec_idx_key s c1 idx r1 o1) (sec_idx_key s c2 idx r2 o2) = parts_cmp kps r1 r2.
Proof.
  intros kps Hpk R1 R2 Hok F1 F2. unfold kps in *. apply Forall_app in Hok as [K1 K2], F1 as [F1 G1], F2 as [F2 G2].
  unfold sec_idx_key, pk_from_record. rewrite Hpk, !make_comparable_key_all, parts_cmp_app.
  rewrite bytes_cmp_app.
  - erewrite parts_order by done. destruct (parts_cmp _ r1 r2); [|done|done]. by eapply parts_order.
  - pose proof (comparable_parts_length _ 0 0 r1 o1 K1). pose proof (comparable_parts_length _ 0 0 r2 o2 K1).
    unfold zlen in *. lia.
Qed.

(** C26: A probe of an index finds exactly the rows it should.  A search key of some leading columns is
    a prefix of a row's index entry just if the row has those column values, so the range of entries
    that start with it is the set of matching rows; as long as no [VARBINARY] value of the row or of the search
    key runs into the bytes its part keeps for the length ([value_fits]). *)
Theorem index_probe_exact fields s idx cpk r rs key_len out out' :
  let ki := key_at (key_info s) idx in
  let n := parts_within (key_part ki) 0 key_len in
  let n := if Nat.eqb n 0 then 1%nat else n in
  record_ok fields r -> record_ok fields rs -> Forall part_ok (key_part ki) ->
  Forall (value_fits r) (key_part ki) -> Forall (value_fits rs) (key_part ki) ->
  key_copy_to_comparable ki rs key_len out `prefix_of` sec_idx_key s cpk idx r out' <->
    parts_cmp (take n (key_part ki)) rs r = Eq.
Proof.
  intros ki m n R RS Hok F FS. unfold key_copy_to_comparable, sec_idx_key. fold ki. fold m. fold n.
  rewrite make_comparable_key_all. unfold make_comparable_key.
  rewrite <- (take_drop n (key_part ki)) in Hok, F, FS.
  apply Forall_app in Hok as [Hok _], F as [F _], FS as [FS _].
  destruct (comparable_parts_take n (key_part ki) r out' None) as [X ->]. rewrite <- app_assoc.
  rewrite <- (parts_order fields (take n (key_part ki)) rs r out out' 0 0 0 0) by done.
  rewrite bytes_cmp_eq. split.
  - intros [k Hk]. apply app_inj_1 in Hk as [E _]; [done|].
    pose proof (comparable_parts_length _ 0 0 rs out Hok). pose proof (comparable_parts_length _ 0 0 r out' Hok).
    unfold zlen in *. lia.
  - intros ->. apply prefix_app_r. done.
Qed.

(** The share [open] builds for a table with a user primary key, and an index of it next to that key. *)
Record indexed (fields : list Field) (n pk idx : nat) (keys : list KEY) (ki pkk : KEY) : Prop :=
  { idx_key_at : keys !! idx = Some ki; pk_key_at : keys !! pk = Some pkk; idx_not_pk : idx <> pk;
    idx_not_spatial : is_spatial_index ki = false;
    idx_width : foldr (fun kp n => part_width kp + n) 0 (key_part ki) < 2 ^ 32;
    fields_counted : Forall (fun f => (field_index f < n)%nat) fields;
    layout_good : layout_ok fields }.

Definition columns (ki pkk : KEY) : list nat :=
  map (fun kp => field_index (field kp)) (key_part ki ++ key_part pkk).

Lemma comparable_key_length_ok ki r out :
  is_spatial_index ki = false -> Forall part_ok (key_part ki) ->
  foldr (fun kp n => part_width kp + n) 0 (key_part ki) < 2 ^ 32 ->
  zlen (comparable_parts (key_part ki) 0 0 r out None) = comparable_key_length ki.
Proof.
  intros Hs Hok Hw. rewrite comparable_parts_length by done. unfold comparable_key_length.
  rewrite Hs, comparable_key_length_fold by (done || lia). done.
Qed.

Lemma cover_exact fields n pk idx keys ki pkk c :
  indexed fields n pk idx keys ki pkk ->
  exists cover, idx_cover (open_build_index_meta n true pk keys) !! idx = Some cover /\
    default false (cover !! c) = bool_decide (c < n)%nat && bool_decide (c ∈ columns ki pkk).
Proof.
  intros [Hi Hp Hne _ _ _ _]. simpl. rewrite list_lookup_imap, Hi. simpl.
  rewrite bool_decide_false, Hp by done. simpl. eexists. split; [done|].
  destruct (mark_key_lookup n (replicate n false) ki c) as [L1 E1]; [apply length_replicate|].
  destruct (mark_key_lookup n (mark_key n (replicate n false) ki) pkk c L1) as [_ ->]. rewrite E1.
  assert (default false (replicate n false !! c) = false) as ->.
  { destruct (replicate n false !! c) as [b|] eqn:E; [|done]. by apply lookup_replicate in E as [-> _]. }
  rewrite orb_false_l, <- andb_orb_distrib_r, <- existsb_app. f_equal. unfold columns.
  apply eq_true_iff_eq. rewrite existsb_exists, bool_decide_eq_true, list_elem_of_In, in_map_iff.
  split; intros (kp & H1 & H2); exists kp; [apply Nat.eqb_eq in H2|rewrite Nat.eqb_eq]; done.
Qed.

Lemma readable_fits fields r kps :
  Forall (readable_part fields) kps -> Forall part_ok kps /\ Forall (value_fits r) kps.
Proof.
  intros Hk. split; (eapply Forall_impl; [exact Hk|]); intros kp Hkp.
  - by eapply readable_part_ok.
  - intros E. by erewrite readable_not_varbinary in E.
Qed.

Lemma share_keys fields n pk idx keys ki pkk :
  indexed fields n pk idx keys ki pkk ->
  let s := open_build_index_meta n true pk keys in
  key_at (key_info s) idx = ki /\ key_at (key_info s) (pk_index s) = pkk /\
  default 0 (idx_comp_key_len s !! idx) = comparable_key_length ki.
Proof.
  intros [Hi Hp _ _ _ _ _]. unfold key_at. simpl. rewrite Hi, Hp. by rewrite list_lookup_fmap, Hi.
Qed.

Lemma cover_forallb fields n pk idx keys ki pkk read_set :
  indexed fields n pk idx keys ki pkk ->
  exists cover, idx_cover (open_build_index_meta n true pk keys) !! idx = Some cover /\
    forallb (fun c => default false (cover !! c)) read_set =
      forallb (fun c => bool_decide (c < n)%nat && bool_decide (c ∈ columns ki pkk)) read_set.
Proof.
  intros Hidx. destruct (cover_exact fields n pk idx keys ki pkk 0 Hidx) as (cover & Hc & _).
  exists cover. split; [done|]. induction read_set as [|c cs IH]; [done|]. simpl. rewrite IH. f_equal.
  destruct (cover_exact fields n pk idx keys ki pkk c Hidx) as (cover' & Hc' & <-). congruence.
Qed.

(** An index entry is the index columns, [idx_comp_key_len] bytes of them, and the primary key. *)
Lemma entry_parts fields n pk idx keys ki pkk r cpk out out' :
  let s := open_build_index_meta n true pk keys in
  indexed fields n pk idx keys ki pkk -> record_ok fields r ->
  Forall part_ok (key_part ki ++ key_part pkk) -> Forall (value_fits r) (key_part ki ++ key_part pkk) ->
  let pkb := comparable_parts (key_part pkk) 0 0 r out' None in
  sec_idx_key s cpk idx r out = comparable_parts (key_part ki) 0 0 r out' None ++ pkb /\
  drop (Z.to_nat (comparable_key_length ki)) (sec_idx_key s cpk idx r out) = pkb /\
  pk_from_record s cpk r out' = pkb.
Proof.
  intros s Hidx Hr Hok Hf pkb. pose proof Hidx as [_ _ _ Hsp Hw _ _].
  destruct (share_keys _ _ _ _ _ _ _ Hidx) as (EK & EP & _). fold s in EK, EP.
  apply Forall_app in Hok as [O1 O2], Hf as [F1 F2].
  assert (sec_idx_key s cpk idx r out = comparable_parts (key_part ki) 0 0 r out' None ++ pkb) as E.
  { unfold sec_idx_key, pk_from_record. rewrite EK, EP, !make_comparable_key_all. change (has_user_pk s) with true.
    rewrite (parts_stale fields (key_part ki) r out out' 0 0 0 0) by done. f_equal. by apply (parts_stale fields). }
  split; [done|]. rewrite E. split.
  - rewrite drop_app_exact; [done|]. rewrite <- (comparable_key_length_ok ki r out') by done. unfold zlen. lia.
  - unfold pk_from_record. rewrite EP, make_comparable_key_all. done.
Qed.

Lemma key_column fields ki pkk f :
  layout_ok fields -> f ∈ fields ->
  Forall (fun kp => field kp ∈ fields) (key_part ki ++ key_part pkk) ->
  field_index f ∈ columns ki pkk -> f ∈ map field (key_part ki) \/ f ∈ map field (key_part pkk).
Proof.
  intros Hlay Hf Hk Hcol. unfold columns in Hcol. apply list_elem_of_In, in_map_iff in Hcol as (kp & Ekp & Hkp).
  apply list_elem_of_In in Hkp. rewrite Forall_forall in Hk. pose proof (Hk kp Hkp) as Hkf.
  destruct (Hlay (field kp) f Hkf Hf) as [Hx _]. rewrite <- (Hx Ekp).
  apply elem_of_app in Hkp as [Hkp|Hkp]; [left|right]; by apply list_elem_of_fmap_2.
Qed.

(** C22: A covering read returns the row, for an index and a primary key of [restorable] columns stored at full
    width: integers, years, dates and [BINARY] strings (a [DATETIME], a [TIMESTAMP] and a latin1 [CHAR] come out
    wrong, [covering_read_garbles]).  When every column the statement reads is in the index or
    the primary key, the record rebuilt from the row's index entry alone shows each of those columns
    as the row has it, null flags included, whatever the buffer held and in whatever order the parts
    sort, and the current primary key is the row's; otherwise the read declines and touches nothing. *)
Theorem covering_read_restores `{!DocumentedSortKeys} fields n pk idx keys ki pkk read_set r buf cpk out out' :
  let s := open_build_index_meta n true pk keys in
  indexed fields n pk idx keys ki pkk ->
  Forall (readable_part fields) (key_part ki ++ key_part pkk) ->
  record_ok fields r -> sized fields r -> record_ok fields buf -> sized fields buf ->
  let got := try_keyread_from_index s read_set (sec_idx_key s cpk idx r out) idx buf cpk in
  if forallb (fun c => bool_decide (c < n)%nat && bool_decide (c ∈ columns ki pkk)) read_set then
    got.1.1 = true /\ got.2 = pk_from_record s cpk r out' /\
    forall f, f ∈ fields -> field_index f ∈ read_set -> same_column f r got.1.2
  else got = (false, buf, cpk).
Proof.
  intros s Hidx Hk Hr Hsr Hb Hsb got. pose proof Hidx as [_ _ _ _ _ _ Hlay].
  destruct (share_keys _ _ _ _ _ _ _ Hidx) as (EK & EP & EL). fold s in EK, EP, EL.
  destruct (cover_forallb _ _ _ _ _ _ _ read_set Hidx) as (cover & Hc & Ecov). fold s in Hc.
  destruct (readable_fits fields r _ Hk) as [Ho Hf].
  destruct (entry_parts _ _ _ _ _ _ _ r cpk out out' Hidx Hr Ho Hf) as (Ee & Ed & Epk). fold s in Ee, Ed, Epk.
  unfold got, try_keyread_from_index. rewrite Hc, EK, EP, EL, Ecov, Ed.
  change (has_user_pk s) with true. cbn [negb].
  destruct (forallb (fun c => bool_decide (c < n)%nat && _) read_set) eqn:Eall; [|done].
  cbn [negb]. pose proof Hk as Hk'. apply Forall_app in Hk' as [K1 K2].
  unfold keyread_decode_key_parts. set (wanted := fun f => bool_decide (field_index f ∈ read_set)). rewrite Ee.
  edestruct (decode_key_parts_spec fields Hlay wanted (key_part ki)) as (b1 & -> & Hb1 & Hsb1 & R1); try done.
  destruct (decode_key_parts_spec fields Hlay wanted (key_part pkk) 0 0 r out' [] b1)
    as (b2 & E2 & Hb2 & Hsb2 & R2); try done.
  rewrite app_nil_r in E2. rewrite E2. split; [done|]. split; [done|].
  intros f Hff Hin. destruct (R1 f Hff) as [A1 W1], (R2 f Hff) as [A2 W2].
  assert (wanted f = true) as Hwf by (by apply bool_decide_eq_true).
  rewrite forallb_forall in Eall. pose proof (Eall (field_index f) ltac:(by apply list_elem_of_In)) as Hcol.
  apply andb_true_iff in Hcol as [_ Hcol%bool_decide_eq_true].
  destruct (key_column fields ki pkk f) as [Hm|Hm]; try done; [|by apply A2, W1|by apply W2].
  eapply Forall_impl; [exact Hk|]. by intros kp (? & _).
Qed.

(** C27: A pushed condition is judged on the row's own values.  For an index and a primary key whose parts are
    each [restorable] (integers, years, dates, [BINARY]) or of a type the decoder refuses (so not [DATETIME],
    [TIMESTAMP] or latin1 [CHAR], which it decodes wrong), values that fit their parts, and a condition that looks only at index and
    primary-key columns, the check gives the verdict the condition gives on the row itself, whether
    the columns came out of the entry or out of the row fetched by primary key. *)
Theorem icp_verdict_exact `{!DocumentedSortKeys} fields n pk idx keys ki pkk r r' buf cpk out
    (fetch_row_by_pk : bytes -> record -> Z * record) (index_cond : record -> icp_result) :
  let s := open_build_index_meta n true pk keys in
  let kps := key_part ki ++ key_part pkk in
  indexed fields n pk idx keys ki pkk ->
  Forall (fun kp => readable_part fields kp \/ refused_part fields kp) kps -> Forall (value_fits r) kps ->
  record_ok fields r -> sized fields r -> record_ok fields buf -> sized fields buf ->
  (forall b b', (forall f, f ∈ map field kps -> same_column f b b') -> index_cond b = index_cond b') ->
  (forall b, fetch_row_by_pk (pk_from_record s cpk r out) b = (0, r')) ->
  (forall f, f ∈ map field kps -> same_column f r r') ->
  0 < foldr (fun kp n => part_width kp + n) 0 (key_part pkk) ->
  (icp_check_secondary s (Some idx) fetch_row_by_pk index_cond (sec_idx_key s cpk idx r out) idx buf).1 =
    index_cond r.
Proof.
  intros s kps Hidx Hk Hf Hr Hsr Hb Hsb Hcond Hfetch Hr' Hpos. pose proof Hidx as [_ _ _ Hsp Hw _ Hlay].
  destruct (share_keys _ _ _ _ _ _ _ Hidx) as (EK & EP & EL). fold s in EK, EP, EL.
  assert (Forall part_ok kps) as Ho.
  { eapply Forall_impl; [exact Hk|]. intros kp [Hkp|(_ & _ & _ & Hkp)]; [by eapply readable_part_ok|done]. }
  destruct (entry_parts _ _ _ _ _ _ _ r cpk out out Hidx Hr Ho Hf) as (Ee & Ed & Epk). fold s in Ee, Ed, Epk.
  assert (forall b, (let '(rc, b') := fetch_row_by_pk (pk_from_record s cpk r out) b in
            if negb (rc =? 0) then (ICP_MATCH, b') else (index_cond b', b')).1 = index_cond r) as HF.
  { intros b. rewrite Hfetch. simpl. symmetry. by apply Hcond. }
  assert ((comparable_key_length ki <? zlen (sec_idx_key s cpk idx r out)) = true) as Hlong.
  { apply Z.ltb_lt. pose proof (Forall_app part_ok (key_part ki) (key_part pkk)) as [HA _].
    destruct (HA Ho) as [O1 O2]. rewrite Ee, zlen_app, <- (comparable_key_length_ok ki r out) by done.
    rewrite (comparable_parts_length (key_part pkk)) by done. lia. }
  unfold icp_check_secondary. rewrite bool_decide_true by done. cbn [negb]. rewrite EK, EP, EL, Hlong, Ed, <- Epk.
  unfold icp_decode_key_parts. apply Forall_app in Hk as [K1 K2].
  destruct (decode_key_parts _ (key_part ki) _ buf) as [[ok1 q1] b1] eqn:E1. destruct ok1; [|apply HF].
  rewrite Ee in E1. apply (decode_key_parts_mixed fields Hlay) in E1 as [_ (Hb1 & Hsb1 & R1)]; try done.
  change (has_user_pk s) with true. cbn [andb].
  destruct (decode_key_parts _ (key_part pkk) _ b1) as [[ok2 q2] b2] eqn:E2. destruct ok2; [|apply HF].
  rewrite Epk, <- (app_nil_r (comparable_parts _ _ _ _ _ _)) in E2.
  apply (decode_key_parts_mixed fields Hlay) in E2 as [_ (Hb2 & Hsb2 & R2)]; try done. simpl.
  symmetry. apply Hcond. intros f Hfk. assert (f ∈ fields) as Hff.
  { apply list_elem_of_In, in_map_iff in Hfk as (kp & <- & Hkp). apply list_elem_of_In in Hkp.
    assert (Forall (fun kp => readable_part fields kp \/ refused_part fields kp) kps) as Hk by by apply Forall_app.
    rewrite Forall_forall in Hk. by destruct (Hk kp Hkp) as [(? & _)|(? & _)]. }
  destruct (R1 f Hff) as [A1 W1], (R2 f Hff) as [A2 W2]. unfold kps in Hfk. rewrite map_app in Hfk.
  apply elem_of_app in Hfk as [Hm|Hm]; [by apply A2, W1|by apply W2].
Qed.

Lemma inplace_fold kps ik hn r :
  Forall (fun kp => is_varbinary (field kp) = false) kps ->
  fold_left (fun '(ik, row_has_null) kp =>
    let '(span, is_nul) := inplace_part kp r in (ik ++ span, row_has_null || is_nul)) kps (ik, hn) =
  (ik ++ comparable_parts kps 0 0 r (fun _ => 0) None, hn || existsb (fun kp => is_null (field kp) r) kps).
Proof.
  intros Hv. revert ik hn. generalize 0%nat at 1 as q. generalize 0%nat as pos.
  induction Hv as [|kp kps Hkp _ IH]; intros pos q ik hn; simpl; [by rewrite app_nil_r, orb_false_r|].
  assert (inplace_part kp r = (comparable_part kp q pos r (fun _ => 0) None, is_null (field kp) r)) as ->.
  { rewrite comparable_part_plain. unfold inplace_part, plain_span, value_bytes. rewrite Hkp.
    destruct (is_nullable (field kp)) eqn:En; [by destruct (is_null (field kp) r)|].
    simpl. by rewrite not_nullable_not_null. }
  rewrite (IH (pos + length (comparable_part kp q pos r (fun _ => 0%Z) None))%nat (S q)).
  by rewrite <- app_assoc, orb_assoc.
Qed.

(** An index built in place holds the keys later statements look for: over columns other than
    varbinary ones, [inplace_build_index_key] gives byte for byte what [make_comparable_key] gives for
    the row, and reports a null part exactly when there is one. *)
Lemma inplace_key_agrees fields ki r out :
  record_ok fields r -> Forall part_ok (key_part ki) ->
  Forall (fun kp => is_varbinary (field kp) = false) (key_part ki) ->
  inplace_build_index_key ki r =
    (make_comparable_key ki r (length (key_part ki)) out None, existsb (fun kp => is_null (field kp) r) (key_part ki)).
Proof.
  intros Hr Hok Hv. unfold inplace_build_index_key. rewrite inplace_fold by done.
  rewrite make_comparable_key_all. f_equal. apply (parts_stale fields); [done|done|].
  eapply Forall_impl; [exact Hv|]. intros kp E E'. congruence.
Qed.

End Properties.

(** ** A concrete server

    For the witnesses and the counterexamples: the documented sort keys as above, latin1 strings with the
    letters folded, a varbinary as the comment in [make_comparable_key] describes the server's encoding (data
    cut to leave the length its last bytes), anything else its own bytes. *)
Definition example_val_str (f : Field) (v : bytes) : bytes :=
  let n := Z.to_nat (length_bytes f) in take (Z.to_nat (le_val (take n v))) (drop n v).

Definition fold_letter (b : Z) : Z := if (97 <=? b) && (b <=? 122) then b - 32 else b.

Definition example_sort_key (f : Field) (v : bytes) (n : Z) : bytes :=
  take (Z.to_nat n)
    (if has_documented_key f then documented_sort_key f v
     else if bool_decide (charset f = my_charset_latin1) then map fold_letter v
     else if is_varbinary f then
       let d := example_val_str f v in
       let space := Z.to_nat (n - length_bytes f) in
       take space d ++ replicate (space - length d) 0 ++ be_store (Z.to_nat (length_bytes f)) (zlen d)
     else v).

Lemma example_val_str_wf f v : wf_bytes v -> wf_bytes (example_val_str f v).
Proof. intros. by apply Forall_take, Forall_drop. Qed.

Lemma documented_wf f v : wf_bytes v -> wf_bytes (documented_sort_key f v).
Proof.
  intros Hv. assert (wf_bytes (reverse v)) as Hr by (by apply Forall_reverse).
  assert (wf_bytes (match reverse v with [] => []
    | t :: k => (if is_unsigned f then t else Z.lxor t SortKey.INT_SIGN_FLIP_MASK) :: k end)) as Hi.
  { destruct Hr as [|t k Ht Hk]; [done|]. apply Forall_cons. split; [|done].
    destruct (is_unsigned f); [done|]. rewrite SortKey.u8_flip by done. apply (u8_byte (t + 128)). }
  unfold documented_sort_key. by destruct (real_type f).
Qed.

Lemma example_sort_key_wf f v n : wf_bytes v -> wf_bytes (example_sort_key f v n).
Proof.
  intros Hv. apply Forall_take. destruct (has_documented_key f); [by apply documented_wf|].
  destruct (bool_decide (charset f = my_charset_latin1)).
  { apply Forall_fmap. eapply Forall_impl; [exact Hv|]. intros b Hb. unfold is_byte, fold_letter in *. simpl.
    destruct (Z.leb_spec 97 b), (Z.leb_spec b 122); simpl; lia. }
  destruct (is_varbinary f); [|done]. repeat (apply Forall_app; split); [| |apply be_store_wf].
  - by apply Forall_take, example_val_str_wf.
  - apply Forall_replicate. unfold is_byte. lia.
Qed.

Lemma example_sort_key_fits f v n : 0 <= n -> zlen (example_sort_key f v n) <= n.
Proof. intros. unfold zlen, example_sort_key. rewrite length_take. lia. Qed.

#[export] Instance example_server : ServerField :=
  {| make_sort_key := example_sort_key; val_str := example_val_str;
     make_sort_key_fits := example_sort_key_fits; make_sort_key_wf := example_sort_key_wf;
     val_str_wf := example_val_str_wf |}.

#[export] Instance example_documented : @DocumentedSortKeys example_server.
Proof.
  intros f v Hd Hw Hl _. simpl. unfold example_sort_key. rewrite Hd. apply take_ge.
  rewrite documented_length. unfold zlen in Hl. lia.
Qed.

(** A table [(id INT NOT NULL PRIMARY KEY, a SMALLINT NULL, b VARBINARY(4) NOT NULL, t DATETIME(2))]
    with an index on [(a DESC)] and one on [(b)]. *)
Definition col (i : nat) (nb : option (nat * nat)) ty dec cs len lb : Field :=
  {| field_index := i; null_bit := nb; type := ty; real_type := ty; is_unsigned := false; decimals := dec;
     charset := cs; pack_length := len; length_bytes := lb; blob_flag := false; pack_length_no_ptr := 0 |}.
Definition col_id := col 0 None MYSQL_TYPE_LONG 0 my_charset_bin 4 0.
Definition col_a := col 1 (Some (0%nat, 0%nat)) MYSQL_TYPE_SHORT 0 my_charset_bin 2 0.
Definition col_b := col 2 None MYSQL_TYPE_VARCHAR 0 my_charset_bin 5 1.
Definition col_t := col 3 None MYSQL_TYPE_DATETIME2 2 my_charset_bin 6 0.
Definition ex_fields := [col_id; col_a; col_b; col_t].

Definition part f n d : KEY_PART_INFO := {| field := f; kp_length := n; reverse_sort := d; store_length := n |}.
Definition key_id : KEY := {| key_part := [part col_id 4 false]; is_spatial_index := false |}.
Definition key_a : KEY := {| key_part := [part col_a 2 true]; is_spatial_index := false |}.
Definition key_b : KEY := {| key_part := [part col_b 4 false]; is_spatial_index := false |}.
Definition ex_keys := [key_id; key_a; key_b].
Definition ex_share := open_build_index_meta 4 true 0 ex_keys.

(** Row [(id, a, b, t)]; [b] stored with its length byte. *)
Definition row (a_null : Z) (id a b t : bytes) : record := {| nulls := [a_null]; slots := [id; a; b; t] |}.
Definition row1 := row 0 [7; 0; 0; 0] [254; 255] [2; 120; 121; 0; 0] [0; 0; 0; 0; 0; 0].
Definition row2 := row 1 [8; 0; 0; 0] [0; 0] [1; 120; 0; 0; 0] [0; 0; 0; 0; 0; 0].
Definition blank := row 0 [1; 1; 1; 1] [1; 1] [0; 0; 0; 0; 0] [1; 1; 1; 1; 1; 1].

Ltac ex_forall := repeat first [ apply Forall_nil; exact I | apply Forall_cons; split ].

Lemma row_ok a_null id a b t :
  is_byte a_null -> Forall wf_bytes [id; a; b; t] -> record_ok ex_fields (row a_null id a b t).
Proof.
  intros _ Hs. split; [done|]. intros f Hf. unfold ex_fields in Hf.
  repeat (apply elem_of_cons in Hf as [->|Hf]); [..|by apply elem_of_nil in Hf];
    (split; [simpl; lia|]; intros i b' E; simpl in E; try discriminate; injection E as <- <-; simpl; lia).
Qed.

Lemma ex_layout : layout_ok ex_fields.
Proof.
  intros f g Hf Hg. unfold ex_fields in *.
  repeat (apply elem_of_cons in Hf as [->|Hf]); [..|by apply elem_of_nil in Hf];
    (repeat (apply elem_of_cons in Hg as [->|Hg]); [..|by apply elem_of_nil in Hg]); split; done.
Qed.

Lemma ex_sized a_null id a b t :
  length id = 4%nat -> length a = 2%nat -> sized ex_fields (row a_null id a b t).
Proof.
  intros Hi Ha f Hf Hd. unfold ex_fields in Hf.
  repeat (apply elem_of_cons in Hf as [->|Hf]); [..|by apply elem_of_nil in Hf];
    unfold zlen, slot; simpl in *; (done || lia).
Qed.

Ltac ex_row := apply row_ok; [unfold is_byte; lia|ex_forall; solve_wf].
Ltac ex_part := split; [simpl; lia|intros E; first [discriminate E | simpl; lia]].

Lemma index_entry_order_witness :
  bytes_cmp (sec_idx_key ex_share [] 2 row1 (fun _ => 0)) (sec_idx_key ex_share [] 2 row2 (fun _ => 9)) = Gt.
Proof.
  rewrite (index_entry_order ex_fields); [reflexivity|reflexivity|ex_row|ex_row|ex_forall; ex_part|ex_forall..];
    intros E; (discriminate E || (unfold zlen; simpl; lia)).
Defined.

Lemma index_probe_exact_witness :
  key_copy_to_comparable key_a row1 2 (fun _ => 0) `prefix_of` sec_idx_key ex_share [] 1 row1 (fun _ => 5).
Proof.
  apply (index_probe_exact ex_fields); [ex_row|ex_row|ex_forall; ex_part|ex_forall..|reflexivity];
    intros E; discriminate E.
Defined.

Lemma ex_indexed idx ki :
  (idx = 1%nat /\ ki = key_a) \/ (idx = 2%nat /\ ki = key_b) -> indexed ex_fields 4 0 idx ex_keys ki key_id.
Proof.
  intros Hi. destruct Hi as [[-> ->]|[-> ->]]; split; try done; try (unfold part_width; simpl; lia);
    try apply ex_layout; ex_forall; simpl; lia.
Qed.

Lemma ex_readable : Forall (readable_part ex_fields) (key_part key_a ++ key_part key_id).
Proof. ex_forall; (split; [unfold ex_fields; set_solver|]); repeat split; simpl; try done; lia. Qed.

Lemma covering_read_restores_witness :
  let got := try_keyread_from_index ex_share [0%nat; 1%nat] (sec_idx_key ex_share [] 1 row1 (fun _ => 3)) 1 blank [] in
  got.1.1 = true /\ got.2 = pk_from_record ex_share [] row1 (fun _ => 0) /\
  forall f, f ∈ ex_fields -> field_index f ∈ [0%nat; 1%nat] -> same_column f row1 got.1.2.
Proof.
  pose proof (covering_read_restores ex_fields 4 0 1 ex_keys key_a key_id [0%nat; 1%nat] row1 blank []
                (fun _ => 3) (fun _ => 0)) as HT.
  apply HT; [apply ex_indexed; auto|apply ex_readable|ex_row|by apply ex_sized|ex_row|by apply ex_sized].
Defined.

Lemma same_column_refl f r : same_column f r r.
Proof. done. Qed.

Lemma icp_verdict_exact_witness :
  (icp_check_secondary ex_share (Some 2%nat) (fun _ _ => (0, row1))
     (fun r => if bool_decide (slot col_b r = [2; 120; 121; 0; 0]) then ICP_MATCH else ICP_NO_MATCH)
     (sec_idx_key ex_share [] 2 row1 (fun _ => 3)) 2 blank).1 = ICP_MATCH.
Proof.
  rewrite (icp_verdict_exact ex_fields 4 0 2 ex_keys key_b key_id row1 row1); [reflexivity|..].
  - apply ex_indexed; auto.
  - apply Forall_cons. split; [right|apply Forall_cons; split; [left|apply Forall_nil; exact I]].
    + split; [unfold ex_fields; set_solver|]. split; [done|]. split; [done|]. ex_part.
    + pose proof ex_readable as HR. by apply Forall_app in HR as [_ [HR _]%Forall_cons].
  - ex_forall; intros E; (discriminate E || (unfold zlen; simpl; lia)).
  - ex_row.
  - by apply ex_sized.
  - ex_row.
  - by apply ex_sized.
  - intros b b' Hs. destruct (Hs col_b) as [_ Hb]; [set_solver|]. rewrite Hb by done. done.
  - done.
  - intros f _. apply same_column_refl.
  - unfold part_width. simpl. lia.
Defined.

(** A varbinary value that fills its part is not encoded faithfully.  The values 'xyz' and
    'xyz\003' of a [VARBINARY(4)] get one key, which a unique index takes for a duplicate; with two
    length bytes, a value one byte over the data space leaves a byte of the buffer's old contents in
    its key, so two encodings of one row differ; and the in-place build encodes such a value otherwise
    than the write path does, so its entry is not found again. *)
Lemma varbinary_full_width_keys :
  let short := row 0 [7; 0; 0; 0] [0; 0] [3; 120; 121; 122; 0] [] in
  let full := row 0 [8; 0; 0; 0] [0; 0] [4; 120; 121; 122; 3] [] in
  let wide := {| key_part := [part (col 2 None MYSQL_TYPE_VARCHAR 0 my_charset_bin 302 2) 300 false];
                 is_spatial_index := false |} in
  let v299 := {| nulls := [0]; slots := [[]; []; [43; 1] ++ replicate 299 97] |} in
  make_comparable_key key_b short 1 (fun _ => 0) None = make_comparable_key key_b full 1 (fun _ => 0) None /\
  make_comparable_key wide v299 1 (fun _ => 0) None <> make_comparable_key wide v299 1 (fun _ => 9) None /\
  (inplace_build_index_key key_b full).1 <> make_comparable_key key_b full 1 (fun _ => 0) None.
Proof. vm_compute. repeat split; discriminate. Qed.

(** The decoder garbles two of the types its list admits.  The sort key of a [DATETIME] is its stored bytes, which
    are big-endian already: the decoder reverses them.  The sort key of a latin1 [CHAR] is folded: the decoder
    takes 'a' for 'A'.  A covering read of either answers with the wrong value, and a pushed condition is judged
    on it. *)
Definition col_when := col 1 None MYSQL_TYPE_DATETIME2 0 my_charset_bin 5 0.
Definition col_letter := col 1 None MYSQL_TYPE_STRING 0 my_charset_latin1 1 0.

Lemma covering_read_garbles :
  let keys f n := [key_id; {| key_part := [part f n false]; is_spatial_index := false |}] in
  let read f n v :=
    let s := open_build_index_meta 2 true 0 (keys f n) in
    let r := {| nulls := [0]; slots := [[7; 0; 0; 0]; v] |} in
    let blank := {| nulls := [0]; slots := [[0; 0; 0; 0]; replicate (length v) 0] |} in
    let got := try_keyread_from_index s [0%nat; 1%nat] (sec_idx_key s [] 1 r (fun _ => 0)) 1 blank [] in
    (got.1.1, slot f got.1.2) in
  is_keyread_decodable_type col_when = true /\ read col_when 5 [153; 165; 66; 160; 0] = (true, [0; 160; 66; 165; 153]) /\
  is_keyread_decodable_type col_letter = true /\ read col_letter 1 [97] = (true, [65]).
Proof. vm_compute. done. Qed.

(** The decoder does not keep the promise made where its types are listed, that it refuses what
    [is_keyread_decodable_type] refuses: a [DATETIME(2)] part is decoded, by reversing all six of its
    bytes, fraction included. *)
Lemma fractional_seconds_are_decoded :
  is_keyread_decodable_type col_t = false /\
  decode_sort_key_part [1; 2; 3; 4; 5; 6] 6 col_t blank = Some (write_slot col_t [6; 5; 4; 3; 2; 1] blank).
Proof. vm_compute. done. Qed.

End KeyCodec.
