(* ===== verification/Row.v ===== *)
(** * Stored rows ([src/handler/ha_tidesdb_row.cc])

    [serialize_row] writes a record as a header (null-bitmap width and field count), the null bitmap
    and the packed non-null columns; [deserialize_row] rebuilds a record from bytes written under
    this or an earlier definition of the table, zeroing it when the bytes are no row.  The per-column
    plan is the one [open_build_field_plan] ([src/handler/ha_tidesdb_open.cc]) caches, and
    [check_if_supported_inplace_alter] ([src/handler/ha_tidesdb_ddl.cc]) decides which changes of
    definition keep the stored rows.  The encryption envelope is in [RowCrypt]. *)
From S2P Require Import Prelude RowFormat Table.
#[local] Open Scope Z_scope.
#[local] Open Scope tdb_scope.
Export Table.

(** What the server's [Field::pack] and [Field::unpack] compute: [pack f v] the packed form of the slot
    [v], [unpack f from] the bytes written at the slot's start and the unread rest, or a null return.
    [proper f v] says the server can produce the slot [v] and [same_value] that two slots denote one
    value; the laws are the documented round trip, the blob layout (length prefix, then the bytes) and
    the documented size bound of a packed column. *)
Class ServerPack := {
  pack : Field -> bytes -> bytes;
  unpack : Field -> bytes -> option (bytes * bytes);
  proper : Field -> bytes -> Prop;
  same_value : Field -> bytes -> bytes -> Prop;
  same_value_refl : forall f v, same_value f v v;
  pack_nonempty : forall f v, proper f v -> pack f v <> [];
  pack_blob : forall f v, blob_flag f = true -> proper f v ->
    pack f v = le_store (Z.to_nat (pack_length_no_ptr f)) (zlen v) ++ v;
  blob_bounds : forall f v, blob_flag f = true -> proper f v ->
    1 <= pack_length_no_ptr f <= 4 /\ zlen v < 256 ^ pack_length_no_ptr f /\ wf_bytes v;
  pack_size : forall f v, blob_flag f = false -> proper f v -> zlen (pack f v) <= pack_length f + 2;
  unpack_pack : forall f v rest, blob_flag f = false -> proper f v ->
    exists v', unpack f (pack f v ++ rest) = Some (v', rest) /\ zlen v' <= pack_length f /\
      forall old, zlen old = pack_length f -> same_value f v (v' ++ drop (length v') old) }.

Module Row.
Import RowFormat.

Definition FIELD_VARCHAR_LEN_PREFIX : Z := 2.

Record field_plan_t := { pack_len : Z; memcpy_ok : bool; is_blob : bool; maybe_null : bool }.

(** The part of the share the row codec reads; [table] pairs the open table's columns with the plan. *)
Record TidesDB_share :=
  { field_plan : list field_plan_t; null_bytes_cached : Z; fields_cached : Z; has_no_nullable : bool;
    has_blobs : bool }.

(** The open table: its columns in order, the sizes of its record and its default record. *)
Record TABLE :=
  { fields : list Field; s_null_bytes : Z; reclength : Z; default_values : record }.

Definition memcpy_type (t : enum_field_types) : bool :=
  match t with
  | MYSQL_TYPE_TINY | MYSQL_TYPE_SHORT | MYSQL_TYPE_INT24 | MYSQL_TYPE_LONG | MYSQL_TYPE_LONGLONG
  | MYSQL_TYPE_FLOAT | MYSQL_TYPE_DOUBLE | MYSQL_TYPE_DATE | MYSQL_TYPE_NEWDATE | MYSQL_TYPE_TIME
  | MYSQL_TYPE_TIME2 | MYSQL_TYPE_DATETIME | MYSQL_TYPE_DATETIME2 | MYSQL_TYPE_TIMESTAMP
  | MYSQL_TYPE_TIMESTAMP2 | MYSQL_TYPE_YEAR | MYSQL_TYPE_NEWDECIMAL => true
  | _ => false
  end.

Definition plan_of (f : Field) : field_plan_t :=
  {| pack_len := u16 (pack_length f); maybe_null := is_nullable f; is_blob := blob_flag f;
     memcpy_ok := if blob_flag f then false else memcpy_type (real_type f) |}.

(** [open_build_field_plan], with the blob flag [open] computes just before it. *)
Definition open_build_field_plan (t : TABLE) : TidesDB_share :=
  {| field_plan := map plan_of (fields t); null_bytes_cached := u8 (s_null_bytes t);
     fields_cached := u16 (zlen (fields t)); has_no_nullable := s_null_bytes t =? 0;
     has_blobs := existsb blob_flag (fields t) |}.

(** [memset(buf, 0, reclength)]: a zeroed blob slot is an empty value. *)
Definition zero_record (t : TABLE) (buf : record) : record :=
  {| nulls := replicate (length (nulls buf)) 0;
     slots := imap (fun i v => match fields t !! i with
                               | Some f => if blob_flag f then [] else replicate (length v) 0
                               | None => replicate (length v) 0
                               end) (slots buf) |}.

(** Writing a blob's length and pointer: the slot is the value pointed at. *)
Definition set_blob (f : Field) (v : bytes) (r : record) : record :=
  {| nulls := nulls r; slots := <[field_index f := v]> (slots r) |}.

Section Codec.
Context `{ServerPack}.

(** ** Writing *)

(** The upper bound the row buffer is sized with; 0 in [cached] means not computed yet. *)
Definition serialize_estimate_size (t : TABLE) (s : TidesDB_share) (cached : Z) (r : record) : Z * Z :=
  let '(est, cached) :=
    if cached =? 0 then
      let est := ROW_HEADER_SIZE + s_null_bytes t + reclength t + FIELD_VARCHAR_LEN_PREFIX * zlen (fields t) in
      (est, if has_blobs s then cached else est)
    else (cached, cached) in
  let blob_size := fold_right (fun f n => if blob_flag f && negb (is_null f r) then zlen (slot f r) + n else n) 0 (fields t) in
  ((if has_blobs s then est + blob_size else est), cached).

Definition skips (s : TidesDB_share) (f : Field) (fp : field_plan_t) (r : record) : bool :=
  negb (has_no_nullable s) && maybe_null fp && is_null f r.

Definition pack_field (s : TidesDB_share) (r : record) (p : Field * field_plan_t) : bytes :=
  let '(f, fp) := p in
  if skips s f fp r then []
  else if memcpy_ok fp then take (Z.to_nat (pack_len fp)) (slot f r)
  else pack f (slot f r).

Definition serialize_row (t : TABLE) (s : TidesDB_share) (r : record) : bytes :=
  let nb := null_bytes_cached s in
  let nf := fields_cached s in
  ROW_HEADER_MAGIC :: store_u16le nb ++ store_u16le nf ++ take (Z.to_nat nb) (nulls r) ++
  concat (map (pack_field s r) (take (Z.to_nat nf) (zip (fields t) (field_plan s)))).

(** ** Reading *)

Definition tdb_blob_point_at_row (f : Field) (from : bytes) (buf : record) : option (record * bytes) :=
  let packlength := pack_length_no_ptr f in
  if zlen from <? packlength then None
  else
    let length := le_load 32 (take (Z.to_nat packlength) from) in
    if zlen from <? packlength + length then None
    else Some (set_blob f (take (Z.to_nat length) (drop (Z.to_nat packlength) from)) buf,
               drop (Z.to_nat (packlength + length)) from).

(** The loop of [deserialize_unpack_fields]; every [break] leaves the record as it is. *)
Fixpoint deserialize_unpack_fields (s : TidesDB_share) (l : list (Field * field_plan_t)) (from : bytes)
    (buf : record) : record :=
  match l with
  | [] => buf
  | (f, fp) :: l =>
      if skips s f fp buf then deserialize_unpack_fields s l from buf
      else if zlen from =? 0 then buf
      else if memcpy_ok fp then
        if zlen from <? pack_len fp then buf
        else deserialize_unpack_fields s l (drop (Z.to_nat (pack_len fp)) from)
               (write_slot f (take (Z.to_nat (pack_len fp)) from) buf)
      else if is_blob fp then
        match tdb_blob_point_at_row f from buf with
        | None => buf
        | Some (buf, next) => deserialize_unpack_fields s l next buf
        end
      else
        match unpack f from with
        | None => buf
        | Some (v, next) => deserialize_unpack_fields s l next (write_slot f v buf)
        end
  end.

(** [memcpy(buf + off, default_values + off, pack_len)] for one added column. *)
Definition fill_default (t : TABLE) (buf : record) (p : Field * field_plan_t) : record :=
  let '(f, fp) := p in
  if is_blob fp then set_blob f (slot f (default_values t)) buf
  else write_slot f (take (Z.to_nat (pack_len fp)) (slot f (default_values t))) buf.

(** [memcpy(buf, nulls, n)] over the start of the null bitmap. *)
Definition copy_nulls (from : bytes) (n : nat) (buf : record) : record :=
  {| nulls := take n from ++ drop n (nulls buf); slots := slots buf |}.

Definition deserialize_row (t : TABLE) (s : TidesDB_share) (data : bytes) (buf : record) : record :=
  if (zlen data <? ROW_HEADER_SIZE) || negb (data !!! 0%nat =? ROW_HEADER_MAGIC) then zero_record t buf
  else
    let stored_null_bytes := load_u16le (drop 1 data) in
    let stored_fields := load_u16le (drop 3 data) in
    let from := drop 5 data in
    if zlen from <? stored_null_bytes then zero_record t buf
    else
      let cur_nb := null_bytes_cached s in
      let copy_nb := Z.min stored_null_bytes cur_nb in
      let buf := copy_nulls from (Z.to_nat copy_nb) buf in
      let buf :=
        if copy_nb <? cur_nb then
          {| nulls := take (Z.to_nat copy_nb) (nulls buf) ++
                      take (Z.to_nat (cur_nb - copy_nb)) (drop (Z.to_nat copy_nb) (nulls (default_values t))) ++
                      drop (Z.to_nat cur_nb) (nulls buf);
             slots := slots buf |}
        else buf in
      let from := drop (Z.to_nat stored_null_bytes) from in
      let cur_nf := fields_cached s in
      let unpack_count := Z.min stored_fields cur_nf in
      let cols := zip (fields t) (field_plan s) in
      let buf :=
        if stored_fields <? cur_nf then
          fold_left (fill_default t) (drop (Z.to_nat stored_fields) (take (Z.to_nat cur_nf) cols)) buf
        else buf in
      deserialize_unpack_fields s (take (Z.to_nat unpack_count) cols) from buf.

End Codec.

(** ** Which definition changes keep the stored rows *)

(** The server's [Alter_inplace_info] flags the engine names; [OTHER_ALTER] is any it does not. *)
Inductive alter_flag :=
  | ALTER_COLUMN_NAME | ALTER_COLUMN_DEFAULT | CHANGE_CREATE_OPTION | DROP_CHECK_CONSTRAINT
  | ALTER_VIRTUAL_GCOL_EXPR | ALTER_RENAME | RENAME_INDEX | CHANGE_INDEX_OPTION | ADD_COLUMN
  | DROP_COLUMN | ALTER_STORED_COLUMN_ORDER | ALTER_VIRTUAL_COLUMN_ORDER
  | ALTER_COLUMN_COLUMN_FORMAT | ALTER_COLUMN_STORAGE_TYPE | ADD_INDEX | DROP_INDEX
  | ADD_UNIQUE_INDEX | DROP_UNIQUE_INDEX | ADD_SPATIAL_INDEX | ADD_PK_INDEX | DROP_PK_INDEX
  | OTHER_ALTER.

#[export] Instance alter_flag_eq_dec : EqDecision alter_flag.
Proof. solve_decision. Defined.

Definition TDB_ALTER_INSTANT_SET : list alter_flag :=
  [ALTER_COLUMN_NAME; ALTER_COLUMN_DEFAULT; CHANGE_CREATE_OPTION; DROP_CHECK_CONSTRAINT;
   ALTER_VIRTUAL_GCOL_EXPR; ALTER_RENAME; RENAME_INDEX; CHANGE_INDEX_OPTION; ADD_COLUMN; DROP_COLUMN;
   ALTER_STORED_COLUMN_ORDER; ALTER_VIRTUAL_COLUMN_ORDER; ALTER_COLUMN_COLUMN_FORMAT;
   ALTER_COLUMN_STORAGE_TYPE].
Definition TDB_ALTER_INDEX_SET : list alter_flag :=
  [ADD_INDEX; DROP_INDEX; ADD_UNIQUE_INDEX; DROP_UNIQUE_INDEX; ADD_SPATIAL_INDEX].
Definition TDB_ALTER_PK_SET : list alter_flag := [ADD_PK_INDEX; DROP_PK_INDEX].

Inductive alter_inplace_result := NOT_SUPPORTED | INPLACE_NO_LOCK | INSTANT.

(** The kind of an index being added. *)
Inductive index_kind := btree_index | fts_index | spatial_index.

(** [pack_record] is [HA_OPTION_PACK_RECORD] of a table share. *)
Definition tdb_null_bit_base (pack_record : bool) : Z := if pack_record then 0 else 1.

Definition within (flags allowed : list alter_flag) : bool :=
  forallb (fun f => bool_decide (f ∈ allowed)) flags.

Definition check_if_supported_inplace_alter (old_packed new_packed : bool) (flags : list alter_flag)
    (index_add : list index_kind) : alter_inplace_result :=
  if negb (tdb_null_bit_base old_packed =? tdb_null_bit_base new_packed) then NOT_SUPPORTED
  else if within flags TDB_ALTER_INSTANT_SET then INSTANT
  else if within flags (TDB_ALTER_INSTANT_SET ++ TDB_ALTER_INDEX_SET) then
    if existsb (fun f => bool_decide (f ∈ TDB_ALTER_PK_SET)) flags then NOT_SUPPORTED
    else if existsb (fun k => match k with btree_index => false | _ => true end) index_add then NOT_SUPPORTED
    else INPLACE_NO_LOCK
  else NOT_SUPPORTED.

(** ** Specification *)

(** An open table: columns numbered in order, each with its own slot and null bit, the sizes within the
    widths the share caches them in. *)
Record table_ok (t : TABLE) : Prop := {
  table_layout : layout_ok (fields t);
  table_order : forall i f, fields t !! i = Some f -> field_index f = i;
  table_nulls : 0 <= s_null_bytes t < 2 ^ 8;
  table_fields : zlen (fields t) < 2 ^ 16;
  table_null_bits : forall f i b, f ∈ fields t -> null_bit f = Some (i, b) -> Z.of_nat i < s_null_bytes t;
  table_widths : forall f, f ∈ fields t -> 1 <= pack_length f < 2 ^ 16 }.

(** A record buffer of the table: its bitmap and one slot per column, fixed-width but for blobs. *)
Record shaped (t : TABLE) (r : record) : Prop := {
  shaped_nulls : zlen (nulls r) = s_null_bytes t;
  shaped_slots : length (slots r) = length (fields t);
  shaped_widths : forall f, f ∈ fields t -> blob_flag f = false -> zlen (slot f r) = pack_length f }.

Section Spec.
Context `{ServerPack}.

(** A record the server hands over: every value it shows is one the server produces. *)
Definition row_ok (t : TABLE) (r : record) : Prop :=
  shaped t r /\ forall f, f ∈ fields t -> is_null f r = false -> proper f (slot f r).

(** The column of [buf] shows what the row [r] has. *)
Definition shows (f : Field) (r buf : record) : Prop :=
  is_null f buf = is_null f r /\ (is_null f r = false -> same_value f (slot f r) (slot f buf)).

(** ** Lemmas *)

Definition planned (l : list Field) : list (Field * field_plan_t) := map (fun f => (f, plan_of f)) l.

Lemma zip_plan t : zip (fields t) (field_plan (open_build_field_plan t)) = planned (fields t).
Proof. unfold planned. simpl. induction (fields t) as [|f l IH]; [done|]. simpl. by rewrite IH. Qed.

Lemma skips_null t f r :
  table_ok t -> f ∈ fields t -> skips (open_build_field_plan t) f (plan_of f) r = is_null f r.
Proof.
  intros Ht Hf. unfold skips, plan_of. simpl. unfold is_nullable.
  destruct (null_bit f) as [[i b]|] eqn:Eb; [|unfold is_null; by rewrite Eb, andb_false_r].
  pose proof (table_null_bits t Ht f i b Hf Eb). pose proof (table_nulls t Ht).
  destruct (Z.eqb_spec (s_null_bytes t) 0); [lia|]. done.
Qed.

(** A write through one column: bitmap and shape stay, and so does every other column. *)
Definition only (f : Field) (v : bytes) (buf buf' : record) : Prop :=
  nulls buf' = nulls buf /\ length (slots buf') = length (slots buf) /\ slot f buf' = v /\
  forall g, field_index g <> field_index f -> slot g buf' = slot g buf.

Lemma field_slot t f r : table_ok t -> f ∈ fields t -> shaped t r -> (field_index f < length (slots r))%nat.
Proof.
  intros Ht Hf Hr. rewrite (shaped_slots t r Hr). apply list_elem_of_lookup in Hf as [i Hi].
  rewrite (table_order t Ht i f Hi). by eapply lookup_lt_Some.
Qed.

Lemma write_only f v buf :
  (field_index f < length (slots buf))%nat ->
  only f (v ++ drop (length v) (slot f buf)) buf (write_slot f v buf).
Proof.
  intros Hi. split; [done|]. split; [apply length_alter|]. split.
  - unfold slot, write_slot. simpl. by rewrite list_lookup_total_alter_eq.
  - intros g Hg. by apply slot_write_other.
Qed.

Lemma set_blob_only f v buf : (field_index f < length (slots buf))%nat -> only f v buf (set_blob f v buf).
Proof.
  intros Hi. split; [done|]. split; [apply length_insert|]. unfold slot, set_blob. simpl. split.
  - by apply list_lookup_total_insert_eq.
  - intros g Hg. by apply list_lookup_total_insert_ne.
Qed.

Lemma only_shaped t f v buf buf' :
  table_ok t -> f ∈ fields t -> shaped t buf -> only f v buf buf' ->
  (blob_flag f = false -> zlen v = pack_length f) -> shaped t buf'.
Proof.
  intros Ht Hf [H1 H2 H3] (N & L & S & O) Hv. split; [by rewrite N|by rewrite L|].
  intros g Hg Hb. destruct (decide (field_index g = field_index f)) as [E|E].
  - destruct (table_layout t Ht g f Hg Hf) as [Hx _]. rewrite (Hx E) in *. rewrite S. by apply Hv.
  - rewrite O by done. by apply H3.
Qed.

Lemma only_null f v buf buf' g : only f v buf buf' -> is_null g buf' = is_null g buf.
Proof. intros (N & _). unfold is_null. by rewrite N. Qed.

(** The blob reader finds what [pack] wrote. *)
Lemma blob_point f v rest buf :
  blob_flag f = true -> proper f v ->
  tdb_blob_point_at_row f (pack f v ++ rest) buf = Some (set_blob f v buf, rest).
Proof.
  intros Hb Hp. rewrite pack_blob by done. destruct (blob_bounds f v Hb Hp) as (Hl & Hv & _).
  set (n := Z.to_nat (pack_length_no_ptr f)). pose proof (zlen_nonneg v) as Hz.
  assert (Z.of_nat n = pack_length_no_ptr f) as En by lia.
  unfold tdb_blob_point_at_row. rewrite <- app_assoc.
  assert (zlen (le_store n (zlen v) ++ v ++ rest) = pack_length_no_ptr f + zlen v + zlen rest) as ->.
  { rewrite !zlen_app. unfold zlen at 1. rewrite length_le_store. lia. }
  pose proof (zlen_nonneg rest). destruct (Z.ltb_spec (pack_length_no_ptr f + zlen v + zlen rest) (pack_length_no_ptr f)); [lia|].
  fold n. rewrite take_app_exact, drop_app_exact by (by rewrite length_le_store).
  rewrite le_load_store by (rewrite <- ?pow256, ?En; lia).
  destruct (Z.ltb_spec (pack_length_no_ptr f + zlen v + zlen rest) (pack_length_no_ptr f + zlen v)); [lia|].
  rewrite take_app_exact by (unfold zlen; lia).
  rewrite app_assoc, drop_app_exact; [done|]. rewrite length_app, length_le_store. unfold zlen. lia.
Qed.

Lemma app_nonempty {A} (x y : list A) : x <> [] -> (zlen (x ++ y) =? 0) = false.
Proof.
  intros Hx. apply Z.eqb_neq. rewrite zlen_app. pose proof (zlen_nonneg y). unfold zlen at 1.
  destruct x; [done|]. simpl. lia.
Qed.

(** Reading one packed column back. *)
Lemma unpack_one t0 t f l rest (r buf : record) :
  table_ok t0 -> table_ok t -> f ∈ fields t0 -> f ∈ fields t -> row_ok t0 r -> shaped t buf ->
  is_null f buf = is_null f r -> is_null f r = false ->
  exists v buf', only f v buf buf' /\ same_value f (slot f r) v /\ (blob_flag f = false -> zlen v = pack_length f) /\
    deserialize_unpack_fields (open_build_field_plan t) ((f, plan_of f) :: l)
      (pack_field (open_build_field_plan t0) r (f, plan_of f) ++ rest) buf =
    deserialize_unpack_fields (open_build_field_plan t) l rest buf'.
Proof.
  intros Ht0 Ht Hf0 Hf [Hs Hp] Hb Hn Hv. pose proof (Hp f Hf0 Hv) as Hpr.
  pose proof (field_slot t f buf Ht Hf Hb) as Hi. pose proof (table_widths t Ht f Hf) as Hw.
  unfold pack_field. cbn [deserialize_unpack_fields]. rewrite !skips_null, Hn, Hv by done.
  assert (u16 (pack_length f) = pack_length f) as Hu by (apply Z.mod_small; lia).
  change (pack_len (plan_of f)) with (u16 (pack_length f)). rewrite Hu.
  change (is_blob (plan_of f)) with (blob_flag f).
  change (memcpy_ok (plan_of f)) with (if blob_flag f then false else memcpy_type (real_type f)).
  destruct (blob_flag f) eqn:Eb.
  { rewrite app_nonempty by (by apply pack_nonempty). rewrite blob_point by done.
    exists (slot f r), (set_blob f (slot f r) buf). split; [by apply set_blob_only|].
    split; [apply same_value_refl|done]. }
  pose proof (shaped_widths t0 r Hs f Hf0 Eb) as Hzr. pose proof (shaped_widths t buf Hb f Hf Eb) as Hzb.
  destruct (memcpy_type (real_type f)).
  - assert (take (Z.to_nat (pack_length f)) (slot f r) = slot f r) as -> by (apply take_ge; unfold zlen in *; lia).
    rewrite app_nonempty by (intros E; rewrite E in Hzr; change (zlen []) with 0 in Hzr; lia).
    destruct (Z.ltb_spec (zlen (slot f r ++ rest)) (pack_length f)) as [Hlt|_];
      [rewrite zlen_app in Hlt; pose proof (zlen_nonneg rest); lia|].
    rewrite take_app_exact, drop_app_exact by (unfold zlen in *; lia).
    exists (slot f r), (write_slot f (slot f r) buf). split; [|split; [apply same_value_refl|done]].
    pose proof (write_only f (slot f r) buf Hi) as HO. rewrite drop_ge, app_nil_r in HO by (unfold zlen in *; lia).
    exact HO.
  - rewrite app_nonempty by (by apply pack_nonempty).
    destruct (unpack_pack f (slot f r) rest Eb Hpr) as (v' & -> & Hfit & Hsv).
    eexists _, (write_slot f v' buf). split; [by apply write_only|]. split; [by apply Hsv|]. split; [|done].
    intros _. rewrite zlen_app. unfold zlen in *. rewrite length_drop. lia.
Qed.

(** Reading all the packed columns of [l] back, the rest of the row behind them. *)
Lemma unpack_all t0 t l rest (r buf : record) :
  table_ok t0 -> table_ok t -> l ⊆ fields t0 -> l ⊆ fields t -> NoDup l -> row_ok t0 r -> shaped t buf ->
  (forall f, f ∈ l -> is_null f buf = is_null f r) ->
  let buf' := deserialize_unpack_fields (open_build_field_plan t) (planned l)
    (concat (map (pack_field (open_build_field_plan t0) r) (planned l)) ++ rest) buf in
  nulls buf' = nulls buf /\ shaped t buf' /\
  (forall g, g ∈ fields t -> g ∉ l -> slot g buf' = slot g buf) /\
  (forall f, f ∈ l -> shows f r buf').
Proof.
  intros Ht0 Ht Hl0 Hl Hnd Hr. revert buf. induction l as [|f l IH]; intros buf Hb Hn.
  { split; [done|]. split; [done|]. split; [done|]. intros f Hf. by apply elem_of_nil in Hf. }
  change (planned (f :: l)) with ((f, plan_of f) :: planned l). rewrite map_cons. cbn [concat].
  apply NoDup_cons in Hnd as [Hfl Hnd].
  assert (f ∈ fields t0 /\ f ∈ fields t) as [Hf0 Hf] by (split; [apply Hl0|apply Hl]; by left).
  assert (l ⊆ fields t0 /\ l ⊆ fields t) as [Hm0 Hm] by (split; intros g Hg; [apply Hl0|apply Hl]; by right).
  assert (is_null f buf = is_null f r) as Hnf by (apply Hn; by left).
  destruct (is_null f r) eqn:Enr.
  - assert (pack_field (open_build_field_plan t0) r (f, plan_of f) = []) as ->.
    { unfold pack_field. by rewrite skips_null, Enr. }
    rewrite app_nil_l. cbn [deserialize_unpack_fields]. rewrite skips_null, Hnf by done.
    destruct (IH Hm0 Hm Hnd buf Hb) as (N & S & O & R); [intros g Hg; apply Hn; by right|].
    split; [done|]. split; [done|]. split.
    + intros g Hg Hgl. apply O; [done|]. intros ?. apply Hgl. by right.
    + intros g [->|Hg]%elem_of_cons; [|by apply R]. split; [|by rewrite Enr]. unfold is_null in *. by rewrite N, Hnf.
  - rewrite <- app_assoc.
    destruct (unpack_one t0 t f (planned l) (concat (map (pack_field (open_build_field_plan t0) r) (planned l)) ++ rest)
      r buf) as (v & b1 & HO & Hv & Hz & ->); try done; [by rewrite Hnf|].
    pose proof (only_shaped t f v buf b1 Ht Hf Hb HO Hz) as Hb1.
    destruct (IH Hm0 Hm Hnd b1 Hb1) as (N & S & O & R).
    { intros g Hg. rewrite (only_null _ _ _ _ g HO). apply Hn. by right. }
    pose proof HO as (N1 & _ & S1 & O1). split; [congruence|]. split; [done|]. split.
    + intros g Hg Hgl. rewrite O by (done || (intros ?; apply Hgl; by right)). apply O1. intros E.
      destruct (table_layout t Ht g f Hg Hf) as [Hx _]. rewrite (Hx E) in Hgl. apply Hgl. by left.
    + intros g [->|Hg]%elem_of_cons; [|by apply R]. split; [unfold is_null in *; by rewrite N, N1, Hnf, Enr|].
      intros _. rewrite O by done. by rewrite S1.
Qed.

Lemma planned_app l k : planned (l ++ k) = planned l ++ planned k.
Proof. apply map_app. Qed.

Lemma planned_take n l : take n (planned l) = planned (take n l).
Proof. apply firstn_map. Qed.

Lemma planned_drop n l : drop n (planned l) = planned (drop n l).
Proof. apply skipn_map. Qed.

(** The bytes of a stored row. *)
Lemma serialize_row_eq t r :
  table_ok t -> shaped t r ->
  serialize_row t (open_build_field_plan t) r =
    encode_row_header (s_null_bytes t) (zlen (fields t)) ++ nulls r ++
    concat (map (pack_field (open_build_field_plan t) r) (planned (fields t))).
Proof.
  intros Ht Hr. unfold serialize_row. rewrite zip_plan.
  change (null_bytes_cached (open_build_field_plan t)) with (u8 (s_null_bytes t)).
  change (fields_cached (open_build_field_plan t)) with (u16 (zlen (fields t))).
  pose proof (table_nulls t Ht). pose proof (table_fields t Ht). pose proof (zlen_nonneg (fields t)).
  replace (u8 (s_null_bytes t)) with (s_null_bytes t) by (symmetry; apply Z.mod_small; lia).
  replace (u16 (zlen (fields t))) with (zlen (fields t)) by (symmetry; apply Z.mod_small; lia).
  rewrite (take_ge (nulls r)) by (pose proof (shaped_nulls t r Hr); unfold zlen in *; lia).
  rewrite (take_ge (planned _)) by (unfold planned; rewrite length_map; unfold zlen; lia). done.
Qed.

(** Copying a stored bitmap of [nb0] bytes into a record of [nb]. *)
Lemma bitmap_bits (stored dflt cur : bytes) (nb0 nb i : nat) :
  length stored = nb0 -> length dflt = nb -> length cur = nb -> (i < nb)%nat ->
  let m := Nat.min nb0 nb in
  let b1 := take m stored ++ drop m cur in
  (if Nat.ltb m nb then take m b1 ++ take (nb - m) (drop m dflt) ++ drop nb b1 else b1) !!! i =
    if Nat.ltb i nb0 then stored !!! i else dflt !!! i.
Proof.
  intros H1 H2 H3 Hi m b1. unfold b1, m. rewrite !list_lookup_total_alt.
  assert (length (take (Nat.min nb0 nb) stored) = Nat.min nb0 nb) as HL by (rewrite length_take; lia).
  destruct (Nat.ltb_spec (Nat.min nb0 nb) nb).
  - rewrite take_app_exact by lia. destruct (Nat.ltb_spec i nb0).
    + rewrite lookup_app_l by lia. by rewrite lookup_take_lt by lia.
    + rewrite lookup_app_r by lia. rewrite lookup_app_l by (rewrite !length_take, ?length_drop; lia).
      rewrite lookup_take_lt, lookup_drop by lia. do 2 f_equal. lia.
  - destruct (Nat.ltb_spec i nb0); [|lia]. rewrite lookup_app_l by lia. by rewrite lookup_take_lt by lia.
Qed.

(** Filling added columns from the default record. *)
Lemma fill_defaults t l buf :
  table_ok t -> l ⊆ fields t -> NoDup l -> shaped t (default_values t) -> shaped t buf ->
  let buf' := fold_left (fill_default t) (planned l) buf in
  nulls buf' = nulls buf /\ shaped t buf' /\
  (forall g, g ∈ fields t -> g ∉ l -> slot g buf' = slot g buf) /\
  (forall f, f ∈ l -> slot f buf' = slot f (default_values t)).
Proof.
  intros Ht Hl Hnd Hd. revert buf. induction l as [|f l IH]; intros buf Hb.
  { split; [done|]. split; [done|]. split; [done|]. intros f Hf. by apply elem_of_nil in Hf. }
  apply NoDup_cons in Hnd as [Hfl Hnd].
  assert (f ∈ fields t) as Hf by (apply Hl; by left).
  assert (l ⊆ fields t) as Hm by (intros g Hg; apply Hl; by right).
  change (planned (f :: l)) with ((f, plan_of f) :: planned l). cbn [fold_left].
  pose proof (field_slot t f buf Ht Hf Hb) as Hi. pose proof (table_widths t Ht f Hf) as Hw.
  assert (only f (slot f (default_values t)) buf (fill_default t buf (f, plan_of f))) as HO.
  { unfold fill_default. change (is_blob (plan_of f)) with (blob_flag f).
    destruct (blob_flag f) eqn:Eb; [by apply set_blob_only|].
    change (pack_len (plan_of f)) with (u16 (pack_length f)).
    replace (u16 (pack_length f)) with (pack_length f) by (symmetry; apply Z.mod_small; lia).
    pose proof (shaped_widths t _ Hd f Hf Eb). pose proof (shaped_widths t _ Hb f Hf Eb).
    rewrite take_ge by (unfold zlen in *; lia).
    pose proof (write_only f (slot f (default_values t)) buf Hi) as HW.
    rewrite drop_ge, app_nil_r in HW by (unfold zlen in *; lia). exact HW. }
  assert (shaped t (fill_default t buf (f, plan_of f))) as Hb1.
  { eapply only_shaped; try done. by apply (shaped_widths t). }
  destruct (IH Hm Hnd _ Hb1) as (N & S & O & R). pose proof HO as (N1 & _ & S1 & O1).
  split; [congruence|]. split; [done|]. split.
  - intros g Hg Hgl. rewrite O by (done || (intros ?; apply Hgl; by right)). apply O1. intros E.
    destruct (table_layout t Ht g f Hg Hf) as [Hx _]. rewrite (Hx E) in Hgl. apply Hgl. by left.
  - intros g [->|Hg]%elem_of_cons; [|by apply R]. by rewrite O, S1.
Qed.

(** The bitmap a row stored with [N] gives a record of the table. *)
Definition merged_nulls (t : TABLE) (N cur : bytes) : bytes :=
  let nb := Z.to_nat (s_null_bytes t) in
  let m := Nat.min (length N) nb in
  let b1 := take m N ++ drop m cur in
  if Nat.ltb m nb then take m b1 ++ take (nb - m) (drop m (nulls (default_values t))) ++ drop nb b1 else b1.

Lemma merge_step t N P buf :
  0 <= s_null_bytes t ->
  let n := Z.min (zlen N) (s_null_bytes t) in
  let b := copy_nulls (N ++ P) (Z.to_nat n) buf in
  (if n <? s_null_bytes t then
     {| nulls := take (Z.to_nat n) (nulls b) ++
                 take (Z.to_nat (s_null_bytes t - n)) (drop (Z.to_nat n) (nulls (default_values t))) ++
                 drop (Z.to_nat (s_null_bytes t)) (nulls b);
        slots := slots b |}
   else b) = {| nulls := merged_nulls t N (nulls buf); slots := slots buf |}.
Proof.
  intros Hnb n b. unfold b, copy_nulls, merged_nulls. cbn [nulls slots].
  set (nb := Z.to_nat (s_null_bytes t)). set (m := Nat.min (length N) nb).
  assert (Z.to_nat n = m) as -> by (unfold n, m, nb, zlen; lia).
  assert (Z.to_nat (s_null_bytes t - n) = nb - m)%nat as -> by (unfold n, m, nb, zlen; lia).
  rewrite (take_app_le N P m) by (unfold m; lia).
  destruct (Z.ltb_spec n (s_null_bytes t)), (Nat.ltb_spec m nb); try done; unfold n, m, nb, zlen in *; lia.
Qed.

Lemma deserialize_row_eq t nf0 N P buf :
  table_ok t -> zlen N < 2 ^ 16 -> 0 <= nf0 < 2 ^ 16 ->
  deserialize_row t (open_build_field_plan t) (encode_row_header (zlen N) nf0 ++ N ++ P) buf =
    deserialize_unpack_fields (open_build_field_plan t) (planned (take (Z.to_nat nf0) (fields t))) P
      (fold_left (fill_default t) (planned (drop (Z.to_nat nf0) (fields t)))
        {| nulls := merged_nulls t N (nulls buf); slots := slots buf |}).
Proof.
  intros Ht HN Hnf. pose proof (zlen_nonneg N) as HN0. pose proof (table_nulls t Ht). pose proof (table_fields t Ht).
  pose proof (zlen_nonneg (fields t)).
  assert ((zlen (encode_row_header (zlen N) nf0 ++ N ++ P) <? ROW_HEADER_SIZE) = false) as H5.
  { apply Z.ltb_ge. rewrite zlen_app. pose proof (zlen_nonneg (N ++ P)). change (zlen (encode_row_header (zlen N) nf0)) with 5.
    unfold ROW_HEADER_SIZE. lia. }
  unfold deserialize_row. rewrite H5.
  change ((encode_row_header (zlen N) nf0 ++ N ++ P) !!! 0%nat) with ROW_HEADER_MAGIC. cbn [orb negb Z.eqb].
  rewrite Z.eqb_refl. cbn [negb].
  change (drop 1 (encode_row_header (zlen N) nf0 ++ N ++ P)) with (store_u16le (zlen N) ++ store_u16le nf0 ++ N ++ P).
  change (drop 3 (encode_row_header (zlen N) nf0 ++ N ++ P)) with (store_u16le nf0 ++ N ++ P).
  change (drop 5 (encode_row_header (zlen N) nf0 ++ N ++ P)) with (N ++ P).
  rewrite !load_store_u16le by lia.
  destruct (Z.ltb_spec (zlen (N ++ P)) (zlen N)) as [Hlt|_];
    [rewrite zlen_app in Hlt; pose proof (zlen_nonneg P); lia|].
  rewrite drop_app_exact by (unfold zlen; lia). rewrite zip_plan.
  change (null_bytes_cached (open_build_field_plan t)) with (u8 (s_null_bytes t)).
  change (fields_cached (open_build_field_plan t)) with (u16 (zlen (fields t))).
  replace (u8 (s_null_bytes t)) with (s_null_bytes t) by (symmetry; apply Z.mod_small; lia).
  replace (u16 (zlen (fields t))) with (zlen (fields t)) by (symmetry; apply Z.mod_small; lia).
  rewrite !planned_take, planned_drop.
  rewrite (take_ge (fields t) (Z.to_nat (zlen (fields t)))) by (unfold zlen; lia).
  assert (take (Z.to_nat (Z.min nf0 (zlen (fields t)))) (fields t) = take (Z.to_nat nf0) (fields t)) as ->.
  { destruct (Z.leb_spec nf0 (zlen (fields t))); [by rewrite Z.min_l by lia|].
    rewrite Z.min_r by lia. rewrite !take_ge; [done|unfold zlen in *; lia|unfold zlen in *; lia]. }
  cbv zeta. rewrite merge_step by lia. f_equal.
  destruct (Z.ltb_spec nf0 (zlen (fields t))); [done|].
  by rewrite (drop_ge (fields t)) by (unfold zlen in *; lia).
Qed.

Lemma table_nodup t : table_ok t -> NoDup (fields t).
Proof.
  intros Ht. apply NoDup_alt. intros i k f Hi Hk.
  rewrite <- (table_order t Ht i f Hi). by apply (table_order t Ht).
Qed.

Lemma merged_bit t0 t f i b (r buf : record) :
  table_ok t -> shaped t0 r -> shaped t buf -> shaped t (default_values t) -> f ∈ fields t ->
  0 <= s_null_bytes t0 -> null_bit f = Some (i, b) ->
  is_null f {| nulls := merged_nulls t (nulls r) (nulls buf); slots := slots buf |} =
    if Z.of_nat i <? s_null_bytes t0 then Z.testbit (nulls r !!! i) (Z.of_nat b) else is_null f (default_values t).
Proof.
  intros Ht Hr Hb Hd Hf H0 Eb. pose proof (table_null_bits t Ht f i b Hf Eb) as Hi. pose proof (table_nulls t Ht).
  pose proof (shaped_nulls t0 r Hr) as E0. pose proof (shaped_nulls t buf Hb) as E1.
  pose proof (shaped_nulls t _ Hd) as E2. unfold is_null. rewrite Eb. cbn [nulls].
  pose proof (bitmap_bits (nulls r) (nulls (default_values t)) (nulls buf) (Z.to_nat (s_null_bytes t0))
    (Z.to_nat (s_null_bytes t)) i) as HB. unfold zlen in *. unfold merged_nulls.
  replace (length (nulls r)) with (Z.to_nat (s_null_bytes t0)) by lia.
  cbv zeta in HB. rewrite HB by lia.
  destruct (Nat.ltb_spec i (Z.to_nat (s_null_bytes t0))), (Z.ltb_spec (Z.of_nat i) (s_null_bytes t0)); (done || lia).
Qed.

Lemma merged_shaped t (r buf : record) :
  table_ok t -> shaped t buf -> shaped t (default_values t) ->
  shaped t {| nulls := merged_nulls t (nulls r) (nulls buf); slots := slots buf |}.
Proof.
  intros Ht [B1 B2 B3] Hd. split; [|done|done]. unfold merged_nulls. cbn [nulls].
  pose proof (shaped_nulls t _ Hd) as Ed. pose proof (table_nulls t Ht). unfold zlen in *.
  destruct (Nat.ltb_spec (length (nulls r) `min` Z.to_nat (s_null_bytes t)) (Z.to_nat (s_null_bytes t)));
    repeat (rewrite ?length_app, ?length_take, ?length_drop); lia.
Qed.

(** A definition that differs from the row's only at its end splits where the row's columns end. *)
Lemma split_columns {A} (l0 l common dropped added : list A) :
  l0 = common ++ dropped -> l = common ++ added -> dropped = [] \/ added = [] ->
  take (Z.to_nat (zlen l0)) l = common /\ drop (Z.to_nat (zlen l0)) l = added.
Proof.
  intros -> -> Hor. unfold zlen. rewrite Nat2Z.id. destruct Hor as [->| ->]; rewrite ?app_nil_r.
  - by rewrite take_app_length, drop_app_length.
  - by rewrite take_ge, drop_ge by (rewrite length_app; lia).
Qed.

Lemma sub_l {A} (l k : list A) : l ⊆ l ++ k.
Proof. intros x Hx. apply elem_of_app. by left. Qed.

Lemma sub_r {A} (l k : list A) : k ⊆ l ++ k.
Proof. intros x Hx. apply elem_of_app. by right. Qed.

(** Reading a stored row back, the statement of [row_reads_back]. *)
Lemma read_stored_row t0 t common dropped added (r buf : record) :
  table_ok t0 -> table_ok t -> fields t0 = common ++ dropped -> fields t = common ++ added ->
  dropped = [] \/ added = [] -> row_ok t0 r -> shaped t buf -> shaped t (default_values t) ->
  let buf' := deserialize_row t (open_build_field_plan t) (serialize_row t0 (open_build_field_plan t0) r) buf in
  (forall f, f ∈ common -> shows f r buf') /\
  (forall f, f ∈ added -> slot f buf' = slot f (default_values t) /\
     forall i b, null_bit f = Some (i, b) ->
       is_null f buf' = if Z.of_nat i <? s_null_bytes t0 then Z.testbit (nulls r !!! i) (Z.of_nat b)
                        else is_null f (default_values t)).
Proof.
  intros Ht0 Ht E0 E1 Hor Hr Hb Hd buf'. pose proof Hr as [Hs Hp]. unfold buf'.
  pose proof (table_nulls t0 Ht0) as Hn0. pose proof (table_fields t0 Ht0) as Hf0.
  pose proof (zlen_nonneg (fields t0)) as Hz0. pose proof (shaped_nulls t0 r Hs) as En.
  pose proof (serialize_row_eq t0 r Ht0 Hs) as ES. rewrite <- En in ES. rewrite ES.
  rewrite deserialize_row_eq by (done || lia).
  destruct (split_columns (fields t0) (fields t) common dropped added E0 E1 Hor) as [-> ->].
  pose proof (table_nodup t Ht) as Hnd. rewrite E1 in Hnd. apply NoDup_app in Hnd as (Hn1 & Hx & Hn2).
  rewrite E0, planned_app, map_app, concat_app. pose proof (merged_shaped t r buf Ht Hb Hd) as Hb0.
  set (b0 := {| nulls := _; slots := _ |}) in *.
  destruct (fill_defaults t added b0 Ht) as (N1 & S1 & O1 & R1); [rewrite E1; apply sub_r|done..|].
  set (b1 := fold_left _ _ b0) in *.
  assert (forall f, f ∈ common -> is_null f b1 = is_null f r) as Hnull.
  { intros f Hf. assert (is_null f b1 = is_null f b0) as -> by (unfold is_null; by rewrite N1).
    destruct (null_bit f) as [[i b]|] eqn:Eb; [|unfold is_null; by rewrite Eb].
    unfold b0. rewrite (merged_bit t0 t f i b) by (done || lia || (rewrite E1; by apply sub_l)).
    pose proof (table_null_bits t0 Ht0 f i b ltac:(rewrite E0; by apply sub_l) Eb).
    destruct (Z.ltb_spec (Z.of_nat i) (s_null_bytes t0)); [|lia]. unfold is_null. by rewrite Eb. }
  destruct (unpack_all t0 t common (concat (map (pack_field (open_build_field_plan t0) r) (planned dropped))) r b1)
    as (N2 & S2 & O2 & R2); try done; [rewrite E0; apply sub_l|rewrite E1; apply sub_l|].
  split; [done|]. intros f Hf. assert (f ∈ fields t) as Hft by (rewrite E1; by apply sub_r).
  assert (f ∉ common) as Hfc by (intros Hc; by apply (Hx f)). split; [by rewrite O2, R1|].
  intros i b Eb. rewrite <- (merged_bit t0 t f i b r buf) by (done || lia). fold b0.
  unfold is_null. by rewrite N2, N1.
Qed.


(** The record is as wide as its bitmap and columns, a blob's slot holding at least its length. *)
Definition record_width (t : TABLE) : Prop :=
  s_null_bytes t + fold_right (fun f n => pack_length f + n) 0 (fields t) <= reclength t /\
  forall f, f ∈ fields t -> blob_flag f = true -> pack_length_no_ptr f <= pack_length f.

Definition blob_bytes (r : record) (l : list Field) : Z :=
  fold_right (fun f n => if blob_flag f && negb (is_null f r) then zlen (slot f r) + n else n) 0 l.

Lemma blob_bytes_nonneg r l : 0 <= blob_bytes r l.
Proof.
  induction l as [|f l IH]; simpl; [lia|]. pose proof (zlen_nonneg (slot f r)). destruct (_ && _); lia.
Qed.

Lemma packed_size t r l :
  table_ok t -> record_width t -> row_ok t r -> l ⊆ fields t ->
  zlen (concat (map (pack_field (open_build_field_plan t) r) (planned l))) <=
    fold_right (fun f n => pack_length f + n) 0 l + 2 * zlen l + blob_bytes r l.
Proof.
  intros Ht [_ Hbw] [Hs Hp] Hl. induction l as [|f l IH]; [done|].
  change (planned (f :: l)) with ((f, plan_of f) :: planned l). rewrite map_cons. cbn [concat].
  rewrite zlen_app, zlen_cons. unfold blob_bytes at 1. cbn [fold_right]. fold (blob_bytes r l).
  assert (f ∈ fields t) as Hf by (apply Hl; by left).
  assert (l ⊆ fields t) as Hm by (intros g Hg; apply Hl; by right). specialize (IH Hm).
  assert (zlen (pack_field (open_build_field_plan t) r (f, plan_of f)) <=
    pack_length f + 2 + (if blob_flag f && negb (is_null f r) then zlen (slot f r) else 0)) as H1.
  { unfold pack_field. rewrite skips_null by done. pose proof (table_widths t Ht f Hf) as Hw.
    destruct (is_null f r) eqn:En; [rewrite andb_false_r; change (zlen []) with 0; lia|]. rewrite andb_true_r.
    change (memcpy_ok (plan_of f)) with (if blob_flag f then false else memcpy_type (real_type f)).
    pose proof (Hp f Hf En) as Hpr. destruct (blob_flag f) eqn:Eb.
    - rewrite pack_blob, zlen_app by done. specialize (Hbw f Hf Eb). destruct (blob_bounds f _ Eb Hpr) as (? & _).
      unfold zlen at 1. rewrite length_le_store. lia.
    - destruct (memcpy_type (real_type f)); [|pose proof (pack_size f (slot f r) Eb Hpr); lia].
      pose proof (shaped_widths t r Hs f Hf Eb). unfold zlen in *. rewrite length_take. lia. }
  destruct (_ && _); lia.
Qed.

(** C30: The row buffer is large enough.  Sized by [serialize_estimate_size], computed afresh or taken
    from the cache an earlier row of the table left, it holds every byte [serialize_row] writes. *)
Theorem serialized_row_fits t r r0 cached :
  table_ok t -> record_width t -> row_ok t r ->
  let s := open_build_field_plan t in
  cached = 0 \/ cached = (serialize_estimate_size t s 0 r0).2 ->
  zlen (serialize_row t s r) <= (serialize_estimate_size t s cached r).1.
Proof.
  intros Ht Hrw Hr s Hc. pose proof Hr as [Hs _].
  pose proof (packed_size t r (fields t) Ht Hrw Hr ltac:(done)) as HP. destruct Hrw as [Hw _].
  assert (zlen (serialize_row t s r) <= ROW_HEADER_SIZE + s_null_bytes t + reclength t +
            FIELD_VARCHAR_LEN_PREFIX * zlen (fields t) + blob_bytes r (fields t)) as HB.
  { unfold s. rewrite serialize_row_eq, !zlen_app by done. rewrite (shaped_nulls t r Hs).
    change (zlen (encode_row_header (s_null_bytes t) (zlen (fields t)))) with 5.
    unfold ROW_HEADER_SIZE, FIELD_VARCHAR_LEN_PREFIX. pose proof (table_nulls t Ht). lia. }
  assert (has_blobs s = false -> blob_bytes r (fields t) = 0) as H0.
  { unfold s. simpl. intros He. clear -He. induction (fields t) as [|f l IH]; [done|]. simpl in *.
    apply orb_false_iff in He as [-> He]. by apply IH. }
  unfold serialize_estimate_size in *. fold (blob_bytes r (fields t)).
  set (est := ROW_HEADER_SIZE + s_null_bytes t + reclength t + FIELD_VARCHAR_LEN_PREFIX * zlen (fields t)) in *.
  rewrite Z.eqb_refl in Hc. destruct (has_blobs s) eqn:Eb; cbn [fst snd] in *.
  - destruct Hc as [->| ->]; rewrite Z.eqb_refl; cbn [fst]; lia.
  - rewrite H0 in HB by done. destruct (Z.eqb_spec cached 0); cbn [fst]; lia.
Qed.

End Spec.

(** ** A concrete server

    A blob packs as its length and bytes, any other column as one length byte and its slot. *)
Definition ex_pack (f : Field) (v : bytes) : bytes :=
  if blob_flag f then le_store (Z.to_nat (pack_length_no_ptr f)) (zlen v) ++ v else u8 (zlen v) :: v.

Definition ex_unpack (f : Field) (from : bytes) : option (bytes * bytes) :=
  match from with
  | [] => None
  | n :: from => if zlen from <? n then None else Some (take (Z.to_nat n) from, drop (Z.to_nat n) from)
  end.

Definition ex_proper (f : Field) (v : bytes) : Prop :=
  if blob_flag f then 1 <= pack_length_no_ptr f <= 4 /\ zlen v < 256 ^ pack_length_no_ptr f /\ wf_bytes v
  else zlen v = pack_length f /\ zlen v < 256.

#[export] Program Instance example_pack : ServerPack := {|
  pack := ex_pack; unpack := ex_unpack; proper := ex_proper; same_value f v v' := v = v' |}.
Next Obligation. done. Qed.
Next Obligation.
  intros f v Hp. unfold ex_pack, ex_proper in *. destruct (blob_flag f); [|done].
  destruct Hp as (Hn & _). replace (Z.to_nat (pack_length_no_ptr f)) with (S (Z.to_nat (pack_length_no_ptr f) - 1)) by lia.
  by rewrite le_store_S.
Qed.
Next Obligation. intros f v Hb _. unfold ex_pack. by rewrite Hb. Qed.
Next Obligation. intros f v Hb Hp. unfold ex_proper in Hp. by rewrite Hb in Hp. Qed.
Next Obligation.
  intros f v Hb Hp. unfold ex_pack, ex_proper in *. rewrite Hb in *. rewrite zlen_cons. lia.
Qed.
Next Obligation.
  intros f v rest Hb Hp. unfold ex_pack, ex_proper in *. rewrite Hb in *. destruct Hp as [Hl Hs]. exists v.
  cbn [ex_unpack app]. pose proof (zlen_nonneg v).
  replace (u8 (zlen v)) with (zlen v) by (symmetry; apply Z.mod_small; lia).
  destruct (Z.ltb_spec (zlen (v ++ rest)) (zlen v)) as [Hlt|_];
    [rewrite zlen_app in Hlt; pose proof (zlen_nonneg rest); lia|].
  rewrite take_app_exact, drop_app_exact by (unfold zlen; lia). split; [done|]. split; [lia|].
  intros old Ho. rewrite drop_ge, app_nil_r by (unfold zlen in *; lia). done.
Qed.

Definition col (i : nat) (nb : option (nat * nat)) ty len : Field :=
  {| field_index := i; null_bit := nb; type := ty; real_type := ty; is_unsigned := false; decimals := 0;
     charset := my_charset_bin; pack_length := len; length_bytes := 0; blob_flag := false; pack_length_no_ptr := 0 |}.
Definition blob_col (i : nat) nb : Field :=
  {| field_index := i; null_bit := nb; type := MYSQL_TYPE_BLOB; real_type := MYSQL_TYPE_BLOB; is_unsigned := false;
     decimals := 0; charset := my_charset_bin; pack_length := 10; length_bytes := 0; blob_flag := true;
     pack_length_no_ptr := 2 |}.

(** Table [(a TINYINT NULL, b CHAR(3), c BLOB NULL)], and the same with [d TINYINT NULL DEFAULT 5]. *)
Definition cols_abc := [col 0 (Some (0%nat, 0%nat)) MYSQL_TYPE_TINY 1; col 1 None MYSQL_TYPE_STRING 3;
                        blob_col 2 (Some (0%nat, 1%nat))].
Definition col_d := col 3 (Some (0%nat, 2%nat)) MYSQL_TYPE_TINY 1.
Definition t_abc : TABLE :=
  {| fields := cols_abc; s_null_bytes := 1; reclength := 15;
     default_values := {| nulls := [255]; slots := [[0]; [32; 32; 32]; []] |} |}.
Definition t_abcd : TABLE :=
  {| fields := cols_abc ++ [col_d]; s_null_bytes := 1; reclength := 16;
     default_values := {| nulls := [251]; slots := [[0]; [32; 32; 32]; []; [5]] |} |}.
Definition row_abc : record := {| nulls := [252]; slots := [[7]; [120; 121; 122]; [1; 2; 3; 4]] |}.
Definition old_abcd : record := {| nulls := [0]; slots := [[9]; [9; 9; 9]; [9]; [9]] |}.

Ltac ex_cols Hf := repeat (apply elem_of_cons in Hf as [->|Hf]); [..|by apply elem_of_nil in Hf].
Ltac ex_layout := intros f g Hf Hg; ex_cols Hf; ex_cols Hg; split; done.
Ltac ex_table :=
  split;
  [ ex_layout
  | intros i f Hi; repeat (destruct i as [|i]; [by injection Hi as <-|]); done
  | simpl; lia | unfold zlen; simpl; lia
  | intros f i b Hf Hb; ex_cols Hf; simpl in Hb; try discriminate Hb; injection Hb as <- <-; simpl; lia
  | intros f Hf; ex_cols Hf; simpl; lia ].
Ltac ex_shaped := split; [done|done|intros f Hf Hb; ex_cols Hf; (done || discriminate Hb)].

Lemma t_abc_ok : table_ok t_abc.
Proof. ex_table. Qed.

Lemma t_abcd_ok : table_ok t_abcd.
Proof. ex_table. Qed.

Lemma row_abc_ok : row_ok t_abc row_abc.
Proof.
  split; [ex_shaped|]. intros f Hf _. ex_cols Hf; unfold proper, example_pack, ex_proper; simpl.
  - done.
  - done.
  - split; [lia|]. split; [done|]. unfold slot. simpl. solve_wf.
Qed.


Lemma serialized_row_fits_witness :
  zlen (serialize_row t_abc (open_build_field_plan t_abc) row_abc) <=
    (serialize_estimate_size t_abc (open_build_field_plan t_abc) 0 row_abc).1.
Proof.
  apply (serialized_row_fits t_abc row_abc row_abc 0); [apply t_abc_ok| |apply row_abc_ok|by left].
  split; [simpl; lia|]. intros f Hf Hb. ex_cols Hf; (discriminate Hb || (simpl; lia)).
Defined.

(** Instant definition changes misread stored rows.  The engine calls any [DROP COLUMN] instant, but
    rows are read by position: of a row [(1, 2, 3)], dropping the middle column makes the last one
    read 2.  Likewise an added nullable column takes its null flag from the spare bit of the stored
    bitmap, which the server sets, so [DEFAULT 5] reads as null. *)
Lemma instant_alter_misreads :
  let t k := {| fields := map (fun i => col i None MYSQL_TYPE_TINY 1) (seq 0 k); s_null_bytes := 0;
                reclength := Z.of_nat k; default_values := {| nulls := []; slots := replicate k [0] |} |} in
  let old := {| nulls := []; slots := [[1]; [2]; [3]] |} in
  let new := deserialize_row (t 2%nat) (open_build_field_plan (t 2%nat))
               (serialize_row (t 3%nat) (open_build_field_plan (t 3%nat)) old) {| nulls := []; slots := [[0]; [0]] |} in
  let added := deserialize_row t_abcd (open_build_field_plan t_abcd)
                 (serialize_row t_abc (open_build_field_plan t_abc) row_abc) old_abcd in
  check_if_supported_inplace_alter true true [DROP_COLUMN] [] = INSTANT /\ slots new = [[1]; [2]] /\
  check_if_supported_inplace_alter true true [ADD_COLUMN] [] = INSTANT /\
  is_null col_d (default_values t_abcd) = false /\ is_null col_d added = true.
Proof. vm_compute. done. Qed.

(** A null bitmap of 256 bytes is not stored: its size is cached in eight bits, so the row carries
    none, and a null column reads as whatever the read buffer's old flags say. *)
Lemma wide_bitmap_not_stored :
  let f := col 0 (Some (255%nat, 7%nat)) MYSQL_TYPE_TINY 1 in
  let t := {| fields := [f]; s_null_bytes := 256; reclength := 257;
              default_values := {| nulls := replicate 256 255; slots := [[0]] |} |} in
  let row := {| nulls := replicate 256 255; slots := [[1]] |} in
  let buf := {| nulls := replicate 256 0; slots := [[9]] |} in
  let got := deserialize_row t (open_build_field_plan t) (serialize_row t (open_build_field_plan t) row) buf in
  is_null f row = true /\ is_null f got = false.
Proof. vm_compute. done. Qed.

End Row.
