(* ===== verification/RowCrypt.v ===== *)
(** * The encryption envelope of stored rows ([src/handler/ha_tidesdb_row.cc])

    An encrypted row is stored as the version of the table key it was encrypted under, the
    initialisation vector and the ciphertext; reading it fetches exactly that version of the key.
    [tidesdb_encrypt_row_into] and [tidesdb_decrypt_row] run on the key custody of [Keyring], and
    [serialize_encrypt_row] adds the per-statement cache of the version to write under. *)
From S2P Require Import Prelude Effects TidesDb KeyEnc Keyring Row.
Import KeyEnc Keyring.
#[local] Open Scope Z_scope.
#[local] Open Scope tdb_scope.

(** A keyring service that answers: it opens what it holds and returns it whole. *)
Class QuietKeyring (K R : Type) `{!KeyringSvc K R} := {
  kquiet : K -> Prop;
  kquiet_holds k nm d : kquiet k -> holds k !! nm = Some d -> 0 < zlen d;
  kquiet_init h nm :
    spec (fun k => kquiet k /\ holds k = h) (reader_init nm)
      (fun r k => (kquiet k /\ holds k = h) /\
         forall d, h !! nm = Some d -> exists rd, r = Some (Some rd) /\ reader_data rd = d) (fun _ => True);
  kquiet_length h rd :
    spec (fun k => kquiet k /\ holds k = h) (fetch_length rd)
      (fun r k => (kquiet k /\ holds k = h) /\ exists ty, r = Some (zlen (reader_data rd), ty) /\ ty < 32)
      (fun _ => True);
  kquiet_fetch h rd n :
    spec (fun k => kquiet k /\ holds k = h) (fetch rd n)
      (fun r k => (kquiet k /\ holds k = h) /\ r = Some (reader_data rd)) (fun _ => True);
  kquiet_deinit h rd :
    spec (fun k => kquiet k /\ holds k = h) (deinit rd) (fun _ k => kquiet k /\ holds k = h) (fun _ => True);
  kquiet_rand h n :
    spec (fun k => kquiet k /\ holds k = h) (rand_buffer n)
      (fun r k => (kquiet k /\ holds k = h) /\ exists b, r = Some b /\ zlen b = Z.max 0 n) (fun _ => True) }.

Module RowCrypt.

Definition TIDESDB_ENC_IV_LEN : Z := 16.
Definition TIDESDB_ENC_KEY_LEN : Z := 32.
Definition TIDESDB_ENC_VERSION_LEN : Z := 4.

(** The handler and share state the envelope adds to the key custody. *)
Record handler (E K : Type) := {
  custody_of : crypto E K;
  enc_key_ver_valid_ : bool;
  cached_enc_key_ver_ : Z;
  encryption_key_version : Z;
  encryption_key_id : Z }.
Arguments custody_of {E K}.
Arguments enc_key_ver_valid_ {E K}.
Arguments cached_enc_key_ver_ {E K}.
Arguments encryption_key_version {E K}.
Arguments encryption_key_id {E K}.

Section code.
Context {E T K R : Type} `{!TidesDb E T} `{!KeyringSvc K R}.
Context (my_aes_encrypt my_aes_decrypt : bytes -> bytes -> opmode -> option bytes -> bool -> option bytes).
Local Open Scope eff_scope.

(** [tdb_crypto_crypt]; the IV is always whole here. *)
Definition tdb_crypto_crypt (encrypt : bool) (src key iv : bytes) : option bytes :=
  if zlen iv <? MY_AES_IV_SIZE then None
  else if encrypt then my_aes_encrypt src key TDB_ROW_CIPHER (Some iv) true
  else my_aes_decrypt src key TDB_ROW_CIPHER (Some iv) true.

Definition tidesdb_encrypt_row_into (plain : bytes) (key_id key_version : Z) : M (crypto E K) (option bytes) :=
  k <-- tdb_crypto_get_key my_aes_decrypt key_id key_version TIDESDB_ENC_KEY_LEN;
  match k with
  | None => ret None
  | Some key =>
      i <-- tdb_crypto_random_bytes TIDESDB_ENC_IV_LEN;
      match i with
      | None => ret None
      | Some iv =>
          ret (match tdb_crypto_crypt true (slice 0 (zlen plain) plain) key iv with
               | None => None
               | Some c => Some (le_store 4 (u32 key_version) ++ iv ++ c)
               end)
      end
  end.

(** The empty string is the failure signal. *)
Definition tidesdb_decrypt_row (data : bytes) (key_id : Z) : M (crypto E K) bytes :=
  if zlen data <=? TIDESDB_ENC_VERSION_LEN + TIDESDB_ENC_IV_LEN then ret []
  else
    let key_version := le_load 32 (take 4 data) in
    k <-- tdb_crypto_get_key my_aes_decrypt key_id key_version TIDESDB_ENC_KEY_LEN;
    match k with
    | None => ret []
    | Some key =>
        let iv := take 16 (drop 4 data) in
        let src := slice 20 (zlen data - 20) data in
        ret (match tdb_crypto_crypt false src key iv with Some out => out | None => [] end)
    end.

Definition with_custody (c : crypto E K) (s : handler E K) : handler E K :=
  {| custody_of := c; enc_key_ver_valid_ := enc_key_ver_valid_ s; cached_enc_key_ver_ := cached_enc_key_ver_ s;
     encryption_key_version := encryption_key_version s; encryption_key_id := encryption_key_id s |}.

(** The version to write under, read once per statement. *)
Definition note_version (v : Z) (s : handler E K) : handler E K :=
  let found := negb (v =? TDB_CRYPTO_KEY_VERSION_INVALID) in
  {| custody_of := custody_of s; enc_key_ver_valid_ := true;
     cached_enc_key_ver_ := if found then v else encryption_key_version s;
     encryption_key_version := if found then v else encryption_key_version s;
     encryption_key_id := encryption_key_id s |}.

Definition serialize_encrypt_row (row_buf : bytes) : M (handler E K) bytes :=
  id <-- gets encryption_key_id;
  valid <-- gets enc_key_ver_valid_;
  (if negb valid then
     cur_ver <-- lift custody_of with_custody (tdb_crypto_latest_key_version my_aes_encrypt id);
     modify (note_version cur_ver)
   else ret tt);;
  ver <-- gets cached_enc_key_ver_;
  out <-- lift custody_of with_custody (tidesdb_encrypt_row_into row_buf id ver);
  ret (match out with Some out => out | None => [] end).

(** The two entry points for a table that may be encrypted. *)
Definition serialize_stored_row `{!ServerPack} (t : Row.TABLE) (sh : Row.TidesDB_share) (encrypted : bool)
    (r : record) : M (handler E K) bytes :=
  let row_buf := Row.serialize_row t sh r in
  if encrypted then serialize_encrypt_row row_buf else ret row_buf.

Definition deserialize_stored_row `{!ServerPack} (t : Row.TABLE) (sh : Row.TidesDB_share) (encrypted : bool)
    (row : bytes) (buf : record) : M (handler E K) record :=
  if encrypted then
    id <-- gets encryption_key_id;
    plain <-- lift custody_of with_custody (tidesdb_decrypt_row row id);
    ret (if zlen plain =? 0 then Row.zero_record t buf else Row.deserialize_row t sh plain buf)
  else ret (Row.deserialize_row t sh row buf).

(** ** Specification *)

Context `{!QuietDb E T} `{!QuietKeyring K R}.

(** The services are up: acquired, and answering without spurious failure (a crash stays possible). *)
Definition up (s : crypto E K) : Prop :=
  calm s /\ kquiet (kr s) /\ tdb_crypto_available s = true /\ tdb_global s = true.

(** Any number of attempts to rotate the master key, each completed, failed or cut short by a crash. *)
Inductive rotated : crypto E K -> crypto E K -> Prop :=
  | rotated_none s : rotated s s
  | rotated_once s s' s'' r :
      tdb_crypto_rotate_master_key my_aes_encrypt my_aes_decrypt s = (s', r) -> rotated s' s'' -> rotated s s''.

(** ** Lemmas *)

(** Only the library's part of the state has changed. *)
Definition db_only (s0 s : crypto E K) : Prop := exists e, s = with_db e s0.

Lemma db_only_trans s0 s1 s2 : db_only s0 s1 -> db_only s1 s2 -> db_only s0 s2.
Proof. intros [e ->] [e' ->]. by exists e'. Qed.

Lemma db_only_refl s : db_only s s.
Proof. exists (db s). by destruct s. Qed.

Lemma on_db_only {A} (m : M E A) s0 : spec (db_only s0) (on_db m) (fun _ => db_only s0) (db_only s0).
Proof. apply spec_lift. intros s1 [e ->]. intros e' ->. destruct (m _) as [e'' [a|]]; by exists e''. Qed.

Lemma store_get_db_only s0 key : spec (db_only s0) (tdb_store_get key) (fun _ => db_only s0) (db_only s0).
Proof.
  unfold tdb_store_get. apply spec_bind_gets_any. intros cf. apply spec_bind_gets_any. intros g.
  destruct (_ || _); [by apply spec_ret|]. eapply spec_bind; [apply on_db_only|].
  intros [rc|t]; [by apply spec_ret|]. eapply spec_bind; [apply on_db_only|]. intros r.
  eapply spec_bind; [apply on_db_only|]. intros ?. by apply spec_ret.
Qed.

(** The keyring's part of the state answers and holds [h]; the handles stay. *)
Definition served (s0 : crypto E K) (s : crypto E K) : Prop :=
  (kquiet (kr s) /\ holds (kr s) = holds (kr s0)) /\ tdb_server_uuid s = tdb_server_uuid s0 /\
  tdb_keyring_reader s = tdb_keyring_reader s0.

Lemma on_kr_served {A} (m : M K A) s0 (Q : A -> Prop) :
  spec (fun k => kquiet k /\ holds k = holds (kr s0)) m
    (fun a k => (kquiet k /\ holds k = holds (kr s0)) /\ Q a) (fun _ => True) ->
  spec (served s0) (on_kr m) (fun a s => served s0 s /\ Q a) (fun _ => True).
Proof.
  intros H. apply spec_lift. intros s1 (H1 & H2 & H3).
  eapply spec_weaken; [exact H|by intros k ->|..]; [|done].
  intros a k [Hk HQ]. done.
Qed.

Lemma deinit_served s0 rd : spec (served s0) (on_kr (deinit rd)) (fun _ => served s0) (fun _ => True).
Proof.
  eapply spec_weaken; [apply (on_kr_served _ s0 (fun _ => True))|done|by intros a s [H _]|done].
  eapply spec_weaken; [apply (kquiet_deinit (holds (kr s0)) rd)|done|by intros a k H|done].
Qed.

(** A master key the keyring holds is fetched. *)
Lemma fetch_served s0 nm d :
  holds (kr s0) !! nm = Some d -> tdb_keyring_reader s0 = true ->
  spec (served s0) (tdb_keyring_fetch nm) (fun r s => served s0 s /\ r = Some d) (fun _ => True).
Proof.
  intros Hd Hr. unfold tdb_keyring_fetch. apply spec_bind_gets. intros have.
  apply (spec_pure _ (have = true)); [by intros s [(_ & _ & E0) <-]; rewrite E0|]. intros ->. cbn [negb].
  eapply spec_bind.
  { eapply spec_weaken; [apply (on_kr_served _ s0 _ (kquiet_init (holds (kr s0)) nm))|by intros s [H _]| |done].
    intros a s H. exact H. }
  intros i. apply (spec_pure _ (exists rd, i = Some (Some rd) /\ reader_data rd = d)); [by intros s [_ Hx]; apply Hx|].
  intros (rd & -> & Erd). eapply spec_bind.
  { eapply spec_weaken; [apply (on_kr_served _ s0 _ (kquiet_length (holds (kr s0)) rd))|by intros s [H _]| |done].
    intros a s H. exact H. }
  intros l. apply (spec_pure _ (exists ty, l = Some (zlen d, ty) /\ ty < 32)); [by intros s [_ Hx]; rewrite <- Erd|].
  intros (ty & -> & Hty). apply (spec_pure _ (0 < zlen d)).
  { intros s [(Hs & _) _]. destruct Hs as [Hq Hh]. eapply kquiet_holds; [exact Hq|]. by rewrite Hh. }
  intros Hz. unfold TDB_KEYRING_TYPE_BUF_LEN. destruct (Z.eqb_spec (zlen d) 0); [lia|].
  destruct (Z.leb_spec 32 ty) as [|_]; [lia|]. cbn [orb]. eapply spec_bind.
  { eapply spec_weaken; [apply (on_kr_served _ s0 _ (kquiet_fetch (holds (kr s0)) rd (zlen d)))|by intros s [H _]| |done].
    intros a s H. exact H. }
  intros x. apply (spec_pure _ (x = Some d)); [by intros s [_ ->]; rewrite Erd|]. intros ->.
  apply (spec_bind _ _ (fun _ => served s0)).
  { eapply spec_weaken; [apply (deinit_served s0 rd)|by intros s [H _]|done|done]. }
  intros ?. apply spec_ret. intros s H. split; [done|]. destruct (Z.eqb_spec (zlen d) 0); [lia|done].
Qed.

Context (aes_roundtrip : forall p k c,
  my_aes_encrypt p k TDB_WRAP_CIPHER None false = Some c ->
  zlen c < 2 ^ 31 /\ my_aes_decrypt c k TDB_WRAP_CIPHER None false = Some p).
Context (aes_plain_bound : forall p k c,
  my_aes_decrypt c k TDB_WRAP_CIPHER None false = Some p -> zlen p < 2 ^ 31).

(** A recoverable key is recovered. *)
Lemma unwrap_served s0 stored p :
  unwraps my_aes_decrypt (holds (kr s0)) (tdb_server_uuid s0) stored p -> tdb_keyring_reader s0 = true ->
  spec (served s0) (tdb_table_key_unwrap my_aes_decrypt stored) (fun r s => served s0 s /\ r = Some p) (fun _ => True).
Proof.
  intros (Hl & m & Hm & Hd & Hp) Hr. unfold tdb_table_key_unwrap, parse_wrapped_value.
  cbn [generation_out off_out len_out]. change (Z.of_nat WRAP_HEADER_LEN) with 4.
  destruct (Z.leb_spec (zlen stored) 4); [lia|]. unfold tdb_master_key_get.
  apply (spec_bind _ _ (fun x s => served s0 s /\ x = Some m)).
  { apply spec_bind_gets. intros u.
    apply (spec_pure _ (u = tdb_server_uuid s0)); [by intros s [(_ & E0 & _) <-]|]. intros ->.
    eapply spec_bind.
    { eapply spec_weaken; [apply (fetch_served s0 _ m Hm Hr)|by intros s [H0 _]| |done]. intros a s H0. exact H0. }
    intros x. apply (spec_pure _ (x = Some m)); [by intros s [_ H0]|]. intros ->. apply spec_ret. by intros s [H0 _]. }
  intros x. apply (spec_pure _ (x = Some m)); [by intros s [_ H0]|]. intros ->. apply spec_ret. intros s [H0 _].
  split; [done|]. rewrite Hd. unfold TDB_AES_FAILED. destruct (Z.leb_spec (zlen p) 0); [lia|done].
Qed.

Lemma get_key_up s0 id ver p :
  up s0 -> readable my_aes_decrypt id ver p s0 -> zlen p <= TIDESDB_ENC_KEY_LEN ->
  spec (fun s => s = s0) (tdb_crypto_get_key my_aes_decrypt id ver TIDESDB_ENC_KEY_LEN)
    (fun r s => (same_db s0 s /\ kquiet (kr s)) /\ r = Some p) (fun _ => True).
Proof.
  intros (Hq & Hk & Ha & Hg) (stored & Hst & Hu) Hz. pose proof Hu as (Hl & _ & _ & _ & Hp).
  pose proof (available_cf _ Ha) as Hcf.
  assert (tdb_keyring_reader s0 = true) as Hr.
  { unfold tdb_crypto_available in Ha. by repeat (apply andb_true_iff in Ha as [Ha _]). }
  unfold tdb_crypto_get_key. apply spec_bind_gets. intros a.
  apply (spec_pure _ (a = true)); [by intros s [-> <-]|]. intros ->. cbn [negb].
  apply (spec_bind _ _ (fun r s => (same_db s0 s /\ db_only s0 s) /\ r = Some stored)).
  { eapply spec_weaken.
    - apply (spec_conj _ _ _ _ _ _ _
        (tdb_store_get_quiet s0 (encode_wrapped_key id ver nonnull) Hq Hcf Hg
           ltac:(rewrite encode_wrapped_key_eq, zlen_cons; pose proof (zlen_nonneg (be_store 4 id ++ be_store 4 ver)); lia))
        (store_get_db_only s0 (encode_wrapped_key id ver nonnull))).
    - intros s [-> _]. split; [done|apply db_only_refl].
    - intros r s [[Hd Hv] Ho]. split; [done|]. rewrite Hst in Hv.
      destruct r as [v|]; [by destruct Hv as [[= ->] _]|]. destruct Hv as [?|[= ->]]; [done|]. by vm_compute in Hl.
    - done. }
  intros r. apply (spec_pure _ (r = Some stored)); [by intros s [_ Hx]|]. intros ->.
  apply spec_at. intros s1 [[Hd [e ->]] _].
  apply (spec_bind _ _ (fun r s => (same_db s0 s /\ kquiet (kr s)) /\ r = Some p)).
  { eapply spec_weaken.
    - apply (spec_conj _ _ _ _ _ _ _ (tdb_table_key_unwrap_spec my_aes_decrypt aes_plain_bound s0 stored)
        (unwrap_served (with_db e s0) stored p Hu Hr)).
    - intros s ->. split; [done|]. split; [|done]. split; [exact Hk|done].
    - intros r s [[Hd' _] [(Hk' & _) ->]]. split; [split; [done|apply Hk']|done].
    - done. }
  intros r. apply (spec_pure _ (r = Some p)); [by intros s [_ Hx]|]. intros ->. apply spec_ret. intros s [Hx _].
  split; [done|]. destruct (Z.eqb_spec (zlen p) 0); [lia|].
  destruct (Z.ltb_spec TIDESDB_ENC_KEY_LEN (zlen p)); [lia|done].
Qed.

Lemma rotated_keeps s s' : family_open s -> rotated s s' -> keeps my_aes_decrypt s s'.
Proof.
  intros Ho Hr. revert Ho. induction Hr as [s|s s1 s2 r Hr _ IH]; intros Ho; [apply keeps_refl|].
  pose proof (rotate_master_keeps my_aes_encrypt my_aes_decrypt aes_roundtrip aes_plain_bound s Ho s eq_refl) as H.
  rewrite Hr in H. assert (keeps my_aes_decrypt s s1) as H1 by (by destruct r).
  eapply keeps_trans; [exact H1|]. apply IH. by apply H1.
Qed.

Lemma iv_up s0 s1 :
  same_db s0 s1 -> kquiet (kr s1) ->
  spec (fun s => s = s1) (tdb_crypto_random_bytes TIDESDB_ENC_IV_LEN)
    (fun r s => same_db s0 s /\ exists iv, r = Some iv /\ zlen iv = 16) (fun _ => True).
Proof.
  intros Hd Hk. unfold tdb_crypto_random_bytes. change (TIDESDB_ENC_IV_LEN =? 0) with false. cbv iota.
  apply spec_lift. intros s ->. eapply spec_weaken; [apply (kquiet_rand (holds (kr s1)) TIDESDB_ENC_IV_LEN)|by intros k ->| |done].
  intros r k [[_ Hh] (iv & -> & Hiv)]. split; [by apply with_kr_same|]. by exists iv.
Qed.

(** AES with padding, as the rows use it: encryption of a row under a key and IV succeeds, pads it by
    at most a block, and decryption inverts it. *)
Context (aes_row : forall plain key iv, zlen plain < 2 ^ 31 - 16 ->
  exists c, my_aes_encrypt plain key TDB_ROW_CIPHER (Some iv) true = Some c /\ 0 < zlen c < 2 ^ 31 /\
    my_aes_decrypt c key TDB_ROW_CIPHER (Some iv) true = Some plain).

(** The envelope opens to what it was closed over. *)
Lemma decrypt_envelope s2 id ver p plain iv c :
  up s2 -> readable my_aes_decrypt id ver p s2 -> zlen p <= TIDESDB_ENC_KEY_LEN -> 0 <= ver < 2 ^ 32 ->
  zlen iv = 16 -> 0 < zlen c < 2 ^ 31 ->
  my_aes_decrypt c p TDB_ROW_CIPHER (Some iv) true = Some plain ->
  spec (fun s => s = s2) (tidesdb_decrypt_row (le_store 4 ver ++ iv ++ c) id)
    (fun got s => got = plain) (fun _ => True).
Proof.
  intros Hu Hr Hz Hv Hiv Hc Hd. unfold tidesdb_decrypt_row.
  assert (zlen (le_store 4 ver ++ iv ++ c) = 20 + zlen c) as El.
  { rewrite !zlen_app, Hiv. unfold zlen at 1. rewrite length_le_store. lia. }
  unfold TIDESDB_ENC_VERSION_LEN, TIDESDB_ENC_IV_LEN. destruct (Z.leb_spec (zlen (le_store 4 ver ++ iv ++ c)) (4 + 16)); [lia|].
  rewrite take_app_exact, drop_app_exact by (by rewrite length_le_store).
  rewrite take_app_exact by (unfold zlen in Hiv; lia). rewrite le_load_store by (change (8 * Z.of_nat 4) with 32; lia).
  eapply spec_bind; [by apply (get_key_up s2)|]. intros r.
  apply (spec_pure _ (r = Some p)); [by intros s [_ Hx]|]. intros ->. apply spec_ret. intros s _.
  unfold tdb_crypto_crypt, MY_AES_IV_SIZE. destruct (Z.ltb_spec (zlen iv) 16); [lia|].
  replace (slice 20 (zlen (le_store 4 ver ++ iv ++ c) - 20) (le_store 4 ver ++ iv ++ c)) with c; [by rewrite Hd|].
  unfold slice. rewrite El. replace (20 + zlen c - 20) with (zlen c) by lia. unfold u32. rewrite Z.mod_small by lia.
  rewrite app_assoc, drop_app_exact by (rewrite length_app, length_le_store; unfold zlen in Hiv; lia).
  rewrite take_ge by (unfold zlen; lia). done.
Qed.

(** Encrypting a row succeeds, and the bytes decrypt to it under every later state of the keys. *)
Lemma encrypt_then_decrypt s0 id ver p plain :
  up s0 -> family_open s0 -> readable my_aes_decrypt id ver p s0 -> zlen p <= TIDESDB_ENC_KEY_LEN ->
  0 <= id < 2 ^ 32 -> 0 <= ver < 2 ^ 32 -> zlen plain < 2 ^ 31 - 16 ->
  spec (fun s => s = s0) (tidesdb_encrypt_row_into plain id ver)
    (fun r s1 => exists out, r = Some out /\
       forall s2, rotated s1 s2 -> up s2 ->
         spec (fun s => s = s2) (tidesdb_decrypt_row out id) (fun got s => got = plain) (fun _ => True))
    (fun _ => True).
Proof.
  intros Hu Ho Hr Hz Hi Hv Hl. unfold tidesdb_encrypt_row_into. eapply spec_bind; [by apply (get_key_up s0)|].
  intros r. apply (spec_pure _ (r = Some p)); [by intros s [_ Hx]|]. intros ->.
  apply spec_at. intros s1 [[Hd Hk] _]. eapply spec_bind; [by apply (iv_up s0 s1)|].
  intros x. apply (spec_pure _ (exists iv, x = Some iv /\ zlen iv = 16)); [by intros s [_ Hx]|].
  intros (iv & -> & Hiv). apply spec_ret. intros s [Hs _]. unfold tdb_crypto_crypt, MY_AES_IV_SIZE.
  destruct (Z.ltb_spec (zlen iv) 16); [lia|]. rewrite slice_all by lia.
  destruct (aes_row plain p iv Hl) as (c & -> & Hc & Hdec). eexists. split; [done|]. intros s2 Hrot Hu2.
  unfold u32. rewrite Z.mod_small by lia. apply (decrypt_envelope s2 id ver p); try done.
  pose proof (same_db_keeps my_aes_decrypt _ _ Hs) as K1. assert (family_open s) as Ho1 by (by apply K1).
  pose proof (rotated_keeps s s2 Ho1 Hrot) as K2. apply K2; [done|done|]. by apply K1.
Qed.

(** C24: An encrypted record survives rotation of the master key.  With the services up and a
    recoverable version of the table's key in the statement's cache, storing a record succeeds, and
    reading the stored bytes shows every column as it was, at once or after any number of master-key
    rotations, whether those completed, failed or died halfway. *)
Theorem encrypted_record_reads_back `{!ServerPack} (h0 : handler E K) p t (r buf : record) :
  let id := encryption_key_id h0 in
  let ver := cached_enc_key_ver_ h0 in
  let sh := Row.open_build_field_plan t in
  enc_key_ver_valid_ h0 = true -> up (custody_of h0) -> family_open (custody_of h0) ->
  readable my_aes_decrypt id ver p (custody_of h0) -> zlen p <= TIDESDB_ENC_KEY_LEN ->
  0 <= id < 2 ^ 32 -> 0 <= ver < 2 ^ 32 -> zlen (Row.serialize_row t sh r) < 2 ^ 31 - 16 ->
  Row.table_ok t -> Row.row_ok t r -> Row.shaped t buf -> Row.shaped t (Row.default_values t) ->
  spec (fun h => h = h0) (serialize_stored_row t sh true r)
    (fun out h1 => forall h2, rotated (custody_of h1) (custody_of h2) -> up (custody_of h2) ->
       encryption_key_id h2 = id ->
       spec (fun h => h = h2) (deserialize_stored_row t sh true out buf)
         (fun buf' _ => forall f, f ∈ Row.fields t -> Row.shows f r buf') (fun _ => True))
    (fun _ => True).
Proof.
  intros id ver sh Hval Hu Ho Hr Hz Hi Hv Hl Ht Hrow Hb Hd. unfold serialize_stored_row, serialize_encrypt_row.
  apply spec_bind_gets. intros i. apply spec_bind_gets. intros va.
  apply (spec_pure _ (i = id /\ va = true)); [by intros s [[-> <-] <-]|]. intros [-> ->]. cbn [negb].
  apply (spec_bind _ _ (fun _ h => h = h0)); [apply spec_ret; by intros s [[-> _] _]|]. intros _.
  apply spec_bind_gets. intros v. apply (spec_pure _ (v = ver)); [by intros s [-> <-]|]. intros ->.
  apply (spec_bind _ _ (fun o h1 => exists out, o = Some out /\ forall s2, rotated (custody_of h1) s2 -> up s2 ->
    spec (fun s => s = s2) (tidesdb_decrypt_row out id) (fun got s => got = Row.serialize_row t sh r) (fun _ => True))).
  { apply spec_lift. intros h [-> _].
    eapply spec_weaken; [apply (encrypt_then_decrypt (custody_of h0) id ver p (Row.serialize_row t sh r)); done|done| |done].
    intros a c Hx. exact Hx. }
  intros o. apply spec_ret. intros h1 (out & -> & Hdec) h2 Hrot Hup Eid. unfold deserialize_stored_row.
  apply spec_bind_gets. intros i2. apply (spec_pure _ (i2 = id)); [by intros s [-> <-]|]. intros ->.
  apply (spec_bind _ _ (fun got _ => got = Row.serialize_row t sh r)).
  { apply spec_lift. intros h [-> _]. eapply spec_weaken; [apply (Hdec (custody_of h2) Hrot Hup)|done| |done].
    intros a c Hx. exact Hx. }
  intros plain. apply spec_ret. intros h ->. cbv beta.
  assert ((zlen (Row.serialize_row t sh r) =? 0) = false) as ->.
  { unfold Row.serialize_row. rewrite zlen_cons. apply Z.eqb_neq.
    match goal with |- zlen ?x + 1 <> 0 => pose proof (zlen_nonneg x) end. lia. }
  apply (Row.read_stored_row t t (Row.fields t) [] []); try done; [by rewrite app_nil_r|by rewrite app_nil_r|by left].
Qed.

End code.

(** ** Witness *)

(** The in-memory keyring answers as long as no key in it is empty. *)
#[export] Program Instance mem_keyring_quiet : QuietKeyring mem_keyring bytes := {|
  kquiet k := forall nm d, keys k !! nm = Some d -> 0 < zlen d |}.
Next Obligation. intros k nm d Hk Hd. by apply (Hk nm). Qed.
Next Obligation. intros h nm k [Hk <-]. simpl. split; [done|]. intros d ->. by exists d. Qed.
Next Obligation. intros h rd k [Hk <-]. simpl. split; [done|]. exists 3. by split; [|lia]. Qed.
Next Obligation. intros h rd n k [Hk <-]. done. Qed.
Next Obligation. intros h rd k [Hk <-]. done. Qed.
Next Obligation.
  intros h n k [Hk <-]. simpl. split; [done|]. eexists. split; [done|].
  unfold zlen. rewrite length_replicate. lia.
Qed.

(** A cipher that meets the AES hypotheses: the toy cipher, and one byte of padding for a row. *)
Definition row_encrypt (src key : bytes) (m : opmode) (iv : option bytes) (padding : bool) : option bytes :=
  if padding then option_map (cons 0) (toy_cipher src key m iv padding) else toy_cipher src key m iv padding.
Definition row_decrypt (src key : bytes) (m : opmode) (iv : option bytes) (padding : bool) : option bytes :=
  if padding then match src with [] => None | _ :: c => toy_cipher c key m iv padding end
  else toy_cipher src key m iv padding.

Lemma row_cipher_roundtrip plain key iv :
  zlen plain < 2 ^ 31 - 16 ->
  exists c, row_encrypt plain key TDB_ROW_CIPHER (Some iv) true = Some c /\ 0 < zlen c < 2 ^ 31 /\
    row_decrypt c key TDB_ROW_CIPHER (Some iv) true = Some plain.
Proof.
  intros Hl. unfold row_encrypt, row_decrypt.
  destruct (toy_cipher plain key TDB_ROW_CIPHER (Some iv) true) as [c|] eqn:Ec.
  - exists (0 :: c). split; [done|]. apply toy_cipher_roundtrip in Ec as [Hc Hd].
    assert (zlen c = zlen plain) as El.
    { unfold toy_cipher in Hd. destruct (_ <? _); [|done]. injection Hd as <-. unfold zlen. by rewrite length_map. }
    rewrite zlen_cons. pose proof (zlen_nonneg c). split; [lia|]. done.
  - unfold toy_cipher in Ec. destruct (Z.ltb_spec (zlen plain) (2 ^ 31)); [done|lia].
Qed.

Definition ex_handler : handler mem_db mem_keyring :=
  {| custody_of := with_script [] one_key; enc_key_ver_valid_ := true; cached_enc_key_ver_ := 1;
     encryption_key_version := 1; encryption_key_id := 1 |}.

Lemma one_key_up : up (with_script [] one_key).
Proof.
  split; [by apply Forall_nil|]. split; [|vm_compute; done].
  intros nm d. change (keys (kr (with_script [] one_key))) with ({[ tdb_master_key_name (bs "u") 1 := replicate 32 8 ]} : gmap bytes bytes).
  intros [_ <-]%lookup_singleton_Some. done.
Qed.

#[local] Existing Instance Row.example_pack.

Lemma encrypted_record_reads_back_witness :
  let sh := Row.open_build_field_plan Row.t_abc in
  spec (fun h => h = ex_handler) (serialize_stored_row row_encrypt row_decrypt Row.t_abc sh true Row.row_abc)
    (fun out h1 => forall h2, rotated row_encrypt row_decrypt (custody_of h1) (custody_of h2) ->
       up (custody_of h2) -> encryption_key_id h2 = 1 ->
       spec (fun h => h = h2) (deserialize_stored_row row_encrypt row_decrypt Row.t_abc sh true out Row.row_abc)
         (fun buf' _ => forall f, f ∈ Row.fields Row.t_abc -> Row.shows f Row.row_abc buf') (fun _ => True))
    (fun _ => True).
Proof.
  apply (encrypted_record_reads_back row_encrypt row_decrypt
    (fun p k c => toy_cipher_roundtrip p k c _ _ _) (fun p k c => toy_cipher_bound p k c _ _ _)
    row_cipher_roundtrip ex_handler key_one).
  - reflexivity.
  - apply one_key_up.
  - exists (default ∅ (mem (db one_key) !! TDB_CRYPTO_CF_NAME)). vm_compute. reflexivity.
  - exact (with_script_readable [] one_key 1 1 key_one one_key_readable).
  - vm_compute. discriminate.
  - simpl. lia.
  - simpl. lia.
  - vm_compute. reflexivity.
  - apply Row.t_abc_ok.
  - apply Row.row_abc_ok.
  - apply Row.row_abc_ok.
  - split; [done|done|]. intros f Hf Hb. Row.ex_cols Hf; (done || discriminate Hb).
Defined.

End RowCrypt.
