(* ===== verification/TableMeta.v ===== *)
(** * What a table records about itself ([ha_tidesdb_table_options.cc], [ha_tidesdb_open.cc])

    Beside its rows the data family holds records under the namespace of meta keys: the storage
    options the table was created with, the shape of each index's keys and the first auto-increment
    value.  Each is written and read in a transaction of its own, and a failure is passed over in
    silence.  The names of the enumerated options are those the engine registers with the server. *)
From S2P Require Import Prelude Effects TidesDb RowFormat TableOptions Table.
Import Table.
#[local] Open Scope Z_scope.
#[local] Open Scope tdb_scope.

Module TableMeta.

Definition AUTOINC_META_KEY : bytes := RowFormat.KEY_NS_META :: bs "AINC".
Definition AUTOINC_META_VALUE_LEN : Z := 8.
Definition OPTIONS_META_KEY : bytes := RowFormat.KEY_NS_META :: bs "OPTS".
Definition KEYSHAPE_META_PREFIX : bytes := RowFormat.KEY_NS_META :: bs "KSHP".
Definition KEYSHAPE_VERSION : Z := 1.

(** The options of a struct cleared by [memset]. *)
Definition zeroed : TableOptions.ha_table_option_struct := TableOptions.Build_ha_table_option_struct 0 0 0 0 0 0 0 0 false false 0 false 0 0 0.

Section code.
Context {E txn : Type} `{!TidesDb E txn}.
Local Open Scope eff_scope.

(** The transaction around one put, which the functions that store a record share. *)
Definition put_alone (cf key val : bytes) : M E unit :=
  r <-- txn_begin;
  match r with
  | inl _ => ret tt
  | inr t =>
      rc <-- txn_put t cf key val;
      if tdb_ok rc then (txn_commit t;; ret tt) else (txn_rollback t;; ret tt)
  end.

(** The transaction around one get; [None] when nothing was read. *)
Definition get_alone (cf key : bytes) : M E (option bytes) :=
  r <-- txn_begin;
  match r with
  | inl _ => ret None
  | inr t =>
      v <-- txn_get t cf key;
      txn_rollback t;;
      ret (match v with inr x => Some x | inl _ => None end)
  end.

(** ** The shape of an index's keys *)

Definition tdb_key_shape_meta_key (index_name : bytes) : bytes := KEYSHAPE_META_PREFIX ++ index_name.

Definition nullable_flag (kp : KEY_PART_INFO) : Z := if is_nullable (field kp) then 1 else 0.

Definition key_shape (ki : KEY) : bytes :=
  let n := u16 (zlen (key_part ki)) in
  KEYSHAPE_VERSION :: Z.land n 0xff :: Z.land (Z.shiftr n 8) 0xff ::
    map nullable_flag (take (Z.to_nat n) (key_part ki)).

Definition tdb_key_shape_store (data_cf : option bytes) (index_name : bytes) (ki : KEY) : M E unit :=
  match data_cf with
  | None => ret tt
  | Some cf =>
      if bool_decide (index_name = []) then ret tt
      else put_alone cf (tdb_key_shape_meta_key index_name) (key_shape ki)
  end.

Definition read_key_shape (val : bytes) : option bytes :=
  match val with
  | version :: lo :: hi :: flags =>
      if version =? KEYSHAPE_VERSION then
        let n := Z.lor lo (Z.shiftl hi 8) in
        if n <=? zlen flags then Some (take (Z.to_nat n) flags) else None
      else None
  | _ => None
  end.

Definition tdb_key_shape_load (data_cf : option bytes) (index_name : bytes) : M E (option bytes) :=
  match data_cf with
  | None => ret None
  | Some cf =>
      if bool_decide (index_name = []) then ret None
      else v <-- get_alone cf (tdb_key_shape_meta_key index_name); ret (v ≫= read_key_shape)
  end.

(** ** The storage options *)

Definition tdb_table_options_store (cf : option bytes) (opts : option TableOptions.ha_table_option_struct) : M E unit :=
  match cf, opts with
  | Some cf, Some o =>
      put_alone cf OPTIONS_META_KEY (TableOptions.serialize_attributes o (Some TableOptions.compression_names) (Some TableOptions.isolation_level_names))
  | _, _ => ret tt
  end.

Definition read_options (val : bytes) : option TableOptions.ha_table_option_struct :=
  if bool_decide (val = []) then None
  else
    match TableOptions.parse_attributes (Some val) (Some TableOptions.compression_names) (Some TableOptions.isolation_level_names) (Some zeroed) nonnull with
    | Some (TableOptions.Ok parsed) => Some parsed
    | _ => None
    end.

Definition tdb_table_options_load (cf : option bytes) : M E (option TableOptions.ha_table_option_struct) :=
  match cf with
  | None => ret None
  | Some cf => v <-- get_alone cf OPTIONS_META_KEY; ret (v ≫= read_options)
  end.

(** ** The first auto-increment value *)

Definition write_auto_inc_meta (cf : option bytes) (next_value : Z) : M E unit :=
  match cf with
  | None => ret tt
  | Some cf => if next_value <=? 1 then ret tt else put_alone cf AUTOINC_META_KEY (RowFormat.encode_be64 next_value)
  end.

(** ** Lemmas *)

Lemma put_alone_spec d cf key val :
  spec (fun e => committed e = d) (put_alone cf key val)
    (fun _ e => committed e = d \/ committed e = apply_write (W_put cf key val) d)
    (fun e => committed e = d \/ committed e = apply_write (W_put cf key val) d).
Proof.
  unfold put_alone. eapply spec_bind; [eapply spec_crash; [apply (txn_begin_law d)|by left]|].
  intros [rc|t]; simpl; [by apply spec_ret; intros s [? _]; left|].
  eapply spec_bind; [eapply spec_crash; [apply (txn_put_law d [])|by left]|]. intros rc. simpl.
  destruct rc; simpl;
    [eapply spec_bind; [apply (txn_commit_law d [W_put cf key val])|];
     intros rc; apply spec_ret; intros s Hs; destruct rc; simpl in *; tauto|..];
    (eapply spec_bind; [eapply spec_weaken; [apply (txn_rollback_law d)|by intros s [? _]|intros a s Hs; exact Hs|by left]|];
     intros ?; apply spec_ret; intros s Hs; by left).
Qed.

Lemma get_alone_spec d cf key :
  spec (fun e => committed e = d) (get_alone cf key)
    (fun v e => committed e = d /\ forall x, v = Some x -> db_get cf key d = Some x) (fun e => committed e = d).
Proof.
  unfold get_alone. eapply spec_bind; [apply (txn_begin_law d)|].
  intros [rc|t]; simpl; [by apply spec_ret; intros s [? _]|].
  eapply spec_bind; [apply (txn_get_law d [])|]. intros v. simpl.
  apply (spec_pure _ (forall x, v = inr x -> db_get cf key d = Some x)); [by intros s [_ Hv] x ->|]. intros Hv.
  eapply spec_bind; [eapply spec_pre; [apply (txn_rollback_law d)|by intros s [[? _] _]]|].
  intros ?. apply spec_ret. intros s Hs. split; [done|]. destruct v as [rc|x]; intros y; [done|]. intros [= <-]. by apply Hv.
Qed.

End code.

Section quiet.
Context {E txn : Type} `{!TidesDb E txn, !QuietDb E txn}.
Local Open Scope eff_scope.

Lemma put_alone_quiet d cf key val :
  spec (fun e => committed e = d /\ quiet e) (put_alone cf key val)
    (fun _ e => committed e = apply_write (W_put cf key val) d /\ quiet e)
    (fun e => committed e = d \/ committed e = apply_write (W_put cf key val) d).
Proof.
  unfold put_alone.
  eapply spec_bind; [eapply spec_crash; [apply spec_conj; [apply (txn_begin_law d)|apply quiet_begin]|by intros s [? _]; left]|].
  intros r. apply (spec_pure _ (exists t, r = inr t)); [by intros s [_ [_ ?]]|]. intros [t ->].
  eapply spec_bind; [eapply spec_weaken; [apply spec_conj; [apply (txn_put_law d [])|apply quiet_put]|..]|].
  { by intros s [[? ?] [? _]]. } { intros a s Hs. exact Hs. } { by intros s [? _]; left. }
  intros rc. simpl. apply (spec_pure _ (rc = TDB_SUCCESS)); [by intros s [_ [_ ?]]|]. intros ->. simpl.
  eapply spec_bind; [eapply spec_weaken; [apply spec_conj; [apply (txn_commit_law d [W_put cf key val])|apply quiet_commit]|..]|].
  { by intros s [[? ?] [? _]]. } { intros a s Hs. exact Hs. } { by intros s [? _]. }
  intros rc. apply spec_ret. intros s [Hs [Hq ->]]. by split.
Qed.

Lemma get_alone_quiet d cf key :
  spec (fun e => committed e = d /\ quiet e) (get_alone cf key)
    (fun v e => v = db_get cf key d /\ committed e = d /\ quiet e) (fun e => committed e = d).
Proof.
  unfold get_alone.
  eapply spec_bind; [eapply spec_crash; [apply spec_conj; [apply (txn_begin_law d)|apply quiet_begin]|by intros s [? _]]|].
  intros r. apply (spec_pure _ (exists t, r = inr t)); [by intros s [_ [_ ?]]|]. intros [t ->].
  eapply spec_bind; [eapply spec_weaken; [apply spec_conj; [apply (txn_get_law d [])|apply quiet_get]|..]|].
  { by intros s [[? ?] [? _]]. } { intros a s Hs. exact Hs. } { by intros s [? _]. }
  intros v. simpl. apply (spec_pure _ (match v with inr x => Some x | inl _ => None end = db_get cf key d)).
  { intros s [[_ Hv] [_ [-> |[x ->]]]]; simpl in Hv; congruence. }
  intros Hv. eapply spec_bind; [eapply spec_weaken; [apply spec_conj; [apply (txn_rollback_law d)|apply quiet_rollback]|..]|].
  { by intros s [[[? _] _] [? _]]. } { intros a s Hs. exact Hs. } { by intros s [? _]. }
  intros ?. apply spec_ret. intros s [Hs Hq]. by rewrite Hv.
Qed.

(** A record stored and then read back. *)
Lemma put_get_alone d cf key val :
  is_Some (d !! cf) ->
  spec (fun e => committed e = d /\ quiet e) (put_alone cf key val;; get_alone cf key)
    (fun v e => v = Some val /\ committed e = apply_write (W_put cf key val) d /\ quiet e)
    (fun e => committed e = d \/ committed e = apply_write (W_put cf key val) d).
Proof.
  intros Hc. eapply spec_bind; [apply put_alone_quiet|]. intros [].
  eapply spec_weaken; [apply (get_alone_quiet (apply_write (W_put cf key val) d))|done| |by right]. intros v s [-> Hs]. by rewrite db_get_put.
Qed.

(** The functions below store with [put_alone] and decode what [get_alone] finds. *)
Lemma store_then_load {A : Type} d cf key val (decode : bytes -> option A) (a : A) :
  is_Some (d !! cf) -> decode val = Some a ->
  spec (fun e => committed e = d /\ quiet e) (put_alone cf key val;; v <-- get_alone cf key; ret (v ≫= decode))
    (fun r e => r = Some a /\ committed e = apply_write (W_put cf key val) d /\ quiet e)
    (fun e => committed e = d \/ committed e = apply_write (W_put cf key val) d).
Proof.
  intros Hc Ha. apply (spec_ext _ _ (v <-- (put_alone cf key val;; get_alone cf key); ret (v ≫= decode))).
  { intros s. unfold bind. by destruct (put_alone cf key val s) as [s' [[]|]]. }
  eapply spec_bind; [by apply put_get_alone|]. intros v. apply spec_ret. intros s [-> Hs]. by split.
Qed.

Lemma key_shape_reads ki : zlen (key_part ki) < 2 ^ 16 -> read_key_shape (key_shape ki) = Some (map nullable_flag (key_part ki)).
Proof.
  intros Hl. assert (0 <= zlen (key_part ki)) by (unfold zlen; lia). unfold key_shape, u16.
  rewrite Z.mod_small by lia. set (n := zlen (key_part ki)) in *. unfold read_key_shape. rewrite Z.eqb_refl.
  assert (Z.lor (Z.land n 0xff) (Z.shiftl (Z.land (Z.shiftr n 8) 0xff) 8) = n) as ->.
  { change 0xff with (Z.ones 8). rewrite !Z.land_ones, Z.shiftr_div_pow2, Z.shiftl_mul_pow2 by lia.
    rewrite (Z.mod_small (n / 2 ^ 8)) by (split; [apply Z.div_pos; lia|apply Z.div_lt_upper_bound; lia]).
    rewrite Z.lor_comm, lor_low_high by (try apply Z.mod_pos_bound; lia). pose proof (Z.div_mod n (2 ^ 8)); lia. }
  rewrite take_ge by (unfold n, zlen; lia).
  assert ((n <=? zlen (map nullable_flag (key_part ki))) = true) as -> by (unfold n, zlen; rewrite length_map; lia).
  rewrite take_ge by (rewrite length_map; unfold n, zlen; lia). done.
Qed.

(** ** Properties *)

(** The nullability of an index's columns as recorded at its creation is what a foreign key that refers
    to the index reads later. *)
Lemma stored_shape_loads d cf name ki :
  is_Some (d !! cf) -> name <> [] -> zlen (key_part ki) < 2 ^ 16 ->
  spec (fun e => committed e = d /\ quiet e)
    (tdb_key_shape_store (Some cf) name ki;; tdb_key_shape_load (Some cf) name)
    (fun r e => r = Some (map nullable_flag (key_part ki)) /\
       committed e = apply_write (W_put cf (tdb_key_shape_meta_key name) (key_shape ki)) d /\ quiet e)
    (fun e => committed e = d \/ committed e = apply_write (W_put cf (tdb_key_shape_meta_key name) (key_shape ki)) d).
Proof.
  intros Hc Hn Hl. unfold tdb_key_shape_store, tdb_key_shape_load. rewrite bool_decide_false by done.
  apply store_then_load; [done|by apply key_shape_reads].
Qed.

Lemma names_distinct l :
  bool_decide (Forall TableOptions.name_ok l) = true ->
  forallb (fun i => forallb (fun j => (i =? j)%nat || negb (TableOptions.eq_nocase (l !!! i) (l !!! j)))
             (seq 0 (length l))) (seq 0 (length l)) = true -> TableOptions.names_ok l.
Proof.
  intros H1%bool_decide_eq_true H2. split; [done|]. intros i j n m Hi Hj E'.
  rewrite forallb_forall in H2. specialize (H2 i). rewrite forallb_forall in H2.
  pose proof (lookup_lt_Some _ _ _ Hi). pose proof (lookup_lt_Some _ _ _ Hj).
  specialize (H2 ltac:(apply in_seq; lia) j ltac:(apply in_seq; lia)).
  rewrite (list_lookup_total_correct _ _ _ Hi), (list_lookup_total_correct _ _ _ Hj), E' in H2.
  by destruct (Nat.eqb_spec i j).
Qed.

Lemma options_read o :
  TableOptions.in_range TableOptions.compression_names TableOptions.isolation_level_names o ->
  read_options (TableOptions.serialize_attributes o (Some TableOptions.compression_names)
                  (Some TableOptions.isolation_level_names)) = Some o.
Proof.
  intros Ho. unfold read_options. rewrite bool_decide_false by (by rewrite TableOptions.serialize_members).
  rewrite TableOptions.options_roundtrip; [done| | |done]; apply names_distinct; vm_compute; reflexivity.
Qed.

(** The options a table was created with are the options every later open of it finds: stored and
    read back they are unchanged, whatever the session's defaults have become; a crash in between leaves
    the table with the options or without. *)
Lemma stored_options_load d cf o :
  is_Some (d !! cf) -> TableOptions.in_range TableOptions.compression_names TableOptions.isolation_level_names o ->
  let d' := apply_write (W_put cf OPTIONS_META_KEY (TableOptions.serialize_attributes o
              (Some TableOptions.compression_names) (Some TableOptions.isolation_level_names))) d in
  spec (fun e => committed e = d /\ quiet e)
    (tdb_table_options_store (Some cf) (Some o);; tdb_table_options_load (Some cf))
    (fun r e => r = Some o /\ committed e = d' /\ quiet e) (fun e => committed e = d \/ committed e = d').
Proof. intros Hc Ho. apply store_then_load; [done|by apply options_read]. Qed.

End quiet.

End TableMeta.
