(* ===== verification/FtsText.v ===== *)
(** * Full-text tokens, queries and postings ([src/core/fts_text])

    The tokenizer, the boolean query parser, the phrase test and the encodings of the inverted index.
    The charset is a parameter, as in the source: how long the multibyte character at a position is,
    which single bytes are word characters, and case folding.  A pointer into the text is the text
    from there on; loops that step over whole characters carry fuel, and the theorems show the text's
    length to be enough. *)
From S2P Require Import Prelude.
#[local] Open Scope Z_scope.
#[local] Open Scope tdb_scope.

Module FtsText.

Definition MAX_TERM_BYTES : Z := 512.
Definition TERM_LEN_PREFIX : Z := 2.
Definition VALUE_LEN : Z := 6.
Definition META_VALUE_LEN : Z := 16.
Definition OP_REQUIRED : Z := 43.
Definition OP_EXCLUDED : Z := 45.
Definition OP_PHRASE : Z := 34.
Definition OP_TRUNC : Z := 42.

Inductive requirement := neutral | required | excluded.

(** [mbchar_len p] is the length of the multibyte character at [p], 0 for a single-byte one; it never
    reaches past the end of the text. *)
Class charset := {
  mbchar_len : bytes -> nat;
  is_alnum : Z -> bool;
  casedn : bytes -> bytes;
  mbchar_len_bound : forall p, (mbchar_len p <= length p)%nat }.

Record tokenize_opts :=
  { min_word_len : Z; max_word_len : Z; blend_map : option (Z -> bool); stopwords : option (list bytes) }.

Record query_term :=
  { term : bytes; req : requirement; trunc : bool; is_phrase : bool; phrase_words : list bytes }.

(** ** Encodings *)

Definition store_u16le (v : Z) : bytes := le_store 2 v.
Definition store_u32le (v : Z) : bytes := le_store 4 v.
Definition store_u64le (v : Z) : bytes := le_store 8 v.
Definition load_u16le (p : bytes) : Z := le_load 16 (take 2 p).
Definition load_u32le (p : bytes) : Z := le_load 32 (take 4 p).
Definition load_u64le (p : bytes) : Z := le_load 64 (take 8 p).

Definition encode_entry_value (tf doc_len : Z) : bytes := store_u16le tf ++ store_u32le doc_len.

Definition decode_entry_value (inp : bytes) : option (Z * Z) :=
  if zlen inp <? VALUE_LEN then None else Some (load_u16le inp, load_u32le (drop 2 inp)).

Definition encode_meta_value (total_docs total_words : Z) : bytes :=
  store_u64le (u64 total_docs) ++ store_u64le (u64 total_words).

Definition decode_meta_value (inp : bytes) : option (Z * Z) :=
  if zlen inp <? META_VALUE_LEN then None
  else Some (to_i64 (load_u64le inp), to_i64 (load_u64le (drop 8 inp))).

Definition build_key (term pk : bytes) : bytes :=
  let term := if MAX_TERM_BYTES <? zlen term then take (Z.to_nat MAX_TERM_BYTES) term else term in
  store_u16le (u16 (zlen term)) ++ term ++ pk.

(** [build_blend_map]: the table as a predicate on bytes. *)
Definition build_blend_map (chars : option bytes) : Z -> bool :=
  fun c => match chars with None => false | Some cs => bool_decide (c ∈ cs) end.

Section Text.
Context `{charset}.
Context (opts : tokenize_opts).

(** [blend && blend[c]]. *)
Definition blends (c : Z) : bool := match blend_map opts with Some m => m c | None => false end.

(** ** The tokenizer *)

Fixpoint char_count_loop (fuel : nat) (p : bytes) (chars : Z) : Z :=
  match fuel, p with
  | S fuel, _ :: _ =>
      let mb := mbchar_len p in
      char_count_loop fuel (drop (if Nat.eqb mb 0 then 1 else mb)%nat p) (u32 (chars + 1))
  | _, _ => chars
  end.
Definition char_count (word : bytes) : Z := char_count_loop (length word) word 0.

Definition emit_token (word : bytes) : list bytes :=
  if zlen word =? 0 then []
  else
    let chars := char_count word in
    if (chars <? min_word_len opts) || (max_word_len opts <? chars) then []
    else
      let word := casedn word in
      match stopwords opts with
      | Some s => if bool_decide (word ∈ s) then [] else [word]
      | None => [word]
      end.

(** Skip separators until a word character. *)
Fixpoint skip_separators (p : bytes) : bytes :=
  match p with
  | [] => []
  | c :: p' =>
      if negb (Nat.eqb (mbchar_len p) 0) then p
      else if is_alnum c then p
      else if blends c then p
      else skip_separators p'
  end.

(** The word at [p], the rest of the text and whether a blend character is in the word. *)
Fixpoint scan_word (fuel : nat) (p : bytes) : bytes * bytes * bool :=
  match fuel, p with
  | S fuel, c :: p' =>
      let mb := mbchar_len p in
      if negb (Nat.eqb mb 0) then
        let '(w, rest, b) := scan_word fuel (drop mb p) in (take mb p ++ w, rest, b)
      else if is_alnum c then let '(w, rest, b) := scan_word fuel p' in (c :: w, rest, b)
      else if blends c then let '(w, rest, _) := scan_word fuel p' in (c :: w, rest, true)
      else ([], p, false)
  | _, _ => ([], p, false)
  end.

(** The parts of a blended word: [sub] is the part read so far. *)
Fixpoint blend_parts (sub word : bytes) : list bytes :=
  match word with
  | [] => emit_token sub
  | c :: word => if blends c then emit_token sub ++ blend_parts [] word else blend_parts (sub ++ [c]) word
  end.

Definition word_tokens (word : bytes) (contains_blend : bool) : list bytes :=
  emit_token word ++ (if contains_blend then blend_parts [] word else []).

Fixpoint tokenize_loop (fuel : nat) (p : bytes) : list bytes :=
  match fuel with
  | O => []
  | S fuel =>
      match skip_separators p with
      | [] => []
      | p => let '(w, rest, b) := scan_word (length p) p in word_tokens w b ++ tokenize_loop fuel rest
      end
  end.
Definition tokenize (text : bytes) : list bytes := tokenize_loop (S (length text)) text.

(** ** The boolean query parser *)

Fixpoint skip_spaces (p : bytes) : bytes :=
  match p with 32 :: p' => skip_spaces p' | _ => p end.

Definition read_operator (p : bytes) : requirement * bytes :=
  match p with
  | c :: p' =>
      if c =? OP_REQUIRED then (required, p') else if c =? OP_EXCLUDED then (excluded, p') else (neutral, p)
  | [] => (neutral, p)
  end.

(** The bytes up to a quote, and what follows it. *)
Fixpoint read_phrase (p : bytes) : bytes * bytes :=
  match p with
  | [] => ([], [])
  | c :: p' => if c =? OP_PHRASE then ([], p') else let '(w, rest) := read_phrase p' in (c :: w, rest)
  end.

Definition plain_term (t : bytes) (r : requirement) (tr : bool) : query_term :=
  {| term := t; req := r; trunc := tr; is_phrase := false; phrase_words := [] |}.

Definition phrase_terms (r : requirement) (words : list bytes) : list query_term :=
  match words with
  | [] => []
  | w :: ws =>
      {| term := w; req := match r with neutral => required | r => r end; trunc := false; is_phrase := true;
         phrase_words := words |} :: map (fun w => plain_term w required false) ws
  end.

(** Skip what cannot start a plain term. *)
Fixpoint skip_nonterm (p : bytes) : bytes :=
  match p with
  | [] => []
  | c :: p' =>
      if negb (is_alnum c) && Nat.eqb (mbchar_len p) 0 && negb (c =? OP_TRUNC) then skip_nonterm p' else p
  end.

Fixpoint scan_term (fuel : nat) (p : bytes) : bytes * bytes :=
  match fuel, p with
  | S fuel, c :: p' =>
      let mb := mbchar_len p in
      if negb (Nat.eqb mb 0) then let '(w, rest) := scan_term fuel (drop mb p) in (take mb p ++ w, rest)
      else if is_alnum c || (c =? OP_TRUNC) then let '(w, rest) := scan_term fuel p' in (c :: w, rest)
      else ([], p)
  | _, _ => ([], p)
  end.

(** The term a scanned word stands for: a trailing [*] makes it a prefix term. *)
Definition word_term (r : requirement) (word : bytes) : list query_term :=
  if zlen word =? 0 then []
  else
    let tr := bool_decide (last word = Some OP_TRUNC) in
    let word := if tr then removelast word else word in
    if zlen word =? 0 then [] else [plain_term (casedn word) r tr].

(** One round of the loop; [None] is a [break]. *)
Definition parse_step (p : bytes) : option (list query_term * bytes) :=
  match skip_spaces p with
  | [] => None
  | p =>
      let '(r, p) := read_operator p in
      match skip_spaces p with
      | [] => None
      | c :: p' =>
          if c =? OP_PHRASE then
            let '(phrase, rest) := read_phrase p' in
            Some (if zlen phrase =? 0 then [] else phrase_terms r (tokenize phrase), rest)
          else
            match skip_nonterm (c :: p') with
            | [] => None
            | p => let '(w, rest) := scan_term (length p) p in Some (word_term r w, rest)
            end
      end
  end.

Fixpoint parse_loop (fuel : nat) (p : bytes) : option (list query_term) :=
  match fuel with
  | O => None
  | S fuel =>
      match parse_step p with
      | None => Some []
      | Some (ts, rest) =>
          match parse_loop fuel rest with Some more => Some (ts ++ more) | None => None end
      end
  end.
Definition parse_boolean (query : bytes) : option (list query_term) := parse_loop (S (length query)) query.

End Text.

(** ** The phrase test *)

Fixpoint match_at (doc phrase : list bytes) : bool :=
  match phrase, doc with
  | [], _ => true
  | w :: phrase, t :: doc => bool_decide (t = w) && match_at doc phrase
  | _ :: _, [] => false
  end.

Definition phrase_in_tokens (doc_tokens phrase_words : list bytes) : bool :=
  if zlen phrase_words =? 0 then true
  else if zlen doc_tokens <? zlen phrase_words then false
  else
    let limit := (length doc_tokens - length phrase_words)%nat in
    existsb (fun i => match_at (drop i doc_tokens) phrase_words) (seq 0 (S limit)).

(** ** Specification *)

(** The space and the operators are single-byte characters of the charset, and a space is no word
    character, as in every ASCII-compatible charset. *)
Class AsciiOperators `{charset} : Prop := {
  space_separates : is_alnum 32 = false;
  space_single : forall rest, mbchar_len (32 :: rest) = 0%nat;
  trunc_single : forall rest, mbchar_len (OP_TRUNC :: rest) = 0%nat }.

(** A query as its author means it: words with an operator and perhaps a wildcard, and quoted phrases. *)
Inductive query_item := Word (r : requirement) (w : list bytes) (tr : bool) | Phrase (r : requirement) (text : bytes).

Definition print_op (r : requirement) : bytes :=
  match r with neutral => [] | required => [OP_REQUIRED] | excluded => [OP_EXCLUDED] end.

Definition print_item (i : query_item) : bytes :=
  32 :: match i with
        | Word r w tr => print_op r ++ concat w ++ (if tr then [OP_TRUNC] else [])
        | Phrase r text => print_op r ++ OP_PHRASE :: text ++ [OP_PHRASE]
        end.

Section Spec.
Context `{charset}.
Context (opts : tokenize_opts).

(** The terms an item asks for. *)
Definition item_terms (i : query_item) : list query_term :=
  match i with
  | Word r w tr => [plain_term (casedn (concat w)) r tr]
  | Phrase r text => phrase_terms r (tokenize opts text)
  end.

(** A character of a word, wherever it stands: a multibyte one or an alphanumeric byte. *)
Definition word_unit (c : bytes) : Prop :=
  (c <> [] /\ forall rest, mbchar_len (c ++ rest) = length c) \/
  exists b, c = [b] /\ is_alnum b = true /\ forall rest, mbchar_len (b :: rest) = 0%nat.

Definition item_ok (i : query_item) : Prop :=
  match i with
  | Word r w tr =>
      Forall word_unit w /\
      (exists b, head (concat w) = Some b /\ b ∉ [32; OP_REQUIRED; OP_EXCLUDED; OP_PHRASE]) /\
      (tr = false -> last (concat w) <> Some OP_TRUNC)
  | Phrase r text => OP_PHRASE ∉ text
  end.

(** A text as its characters, each with whether it is a multibyte one. *)
Inductive characters : bytes -> list (bool * bytes) -> Prop :=
  | no_characters : characters [] []
  | multibyte_character p cs :
      mbchar_len p <> 0%nat -> characters (drop (mbchar_len p) p) cs ->
      characters p ((true, take (mbchar_len p) p) :: cs)
  | single_character c p cs :
      mbchar_len (c :: p) = 0%nat -> characters p cs -> characters (c :: p) ((false, [c]) :: cs).

Definition single (f : Z -> bool) (c : bool * bytes) : bool :=
  match c with (false, [b]) => f b | _ => false end.

(** A word character is a multibyte one, an alphanumeric or a blend character; one of the last kind
    only is a blend in the word. *)
Definition word_char (c : bool * bytes) : bool := c.1 || single is_alnum c || single (blends opts) c.
Definition blend_char (c : bool * bytes) : bool := single (fun b => negb (is_alnum b) && blends opts b) c.

Fixpoint take_while {A} (P : A -> bool) (l : list A) : list A :=
  match l with [] => [] | x :: l => if P x then x :: take_while P l else [] end.
Fixpoint drop_while {A} (P : A -> bool) (l : list A) : list A :=
  match l with [] => [] | x :: l' => if P x then drop_while P l' else l end.

(** The words of a text: the maximal runs of word characters. *)
Fixpoint words_in (run : list (bool * bytes)) (cs : list (bool * bytes)) : list (list (bool * bytes)) :=
  match cs with
  | [] => match run with [] => [] | _ => [run] end
  | c :: cs =>
      if word_char c then words_in (run ++ [c]) cs
      else match run with [] => words_in [] cs | _ => run :: words_in [] cs end
  end.

Definition run_bytes (run : list (bool * bytes)) : bytes := concat (map snd run).

(** The tokens of a word: itself, and its parts if it has a blend character. *)
Definition run_tokens (run : list (bool * bytes)) : list bytes :=
  word_tokens opts (run_bytes run) (existsb blend_char run).

(** ** Lemmas: the tokenizer *)

Lemma text_characters p : exists cs, characters p cs.
Proof.
  remember (length p) as n eqn:Hn. revert p Hn.
  induction n as [n IH] using lt_wf_ind. intros p ->. destruct p as [|c p]; [by exists []; constructor|].
  destruct (mbchar_len (c :: p)) as [|k] eqn:Em.
  - destruct (IH (length p) ltac:(simpl; lia) p eq_refl) as [cs Hcs]. eexists. by constructor.
  - destruct (IH (length (drop (S k) (c :: p))) ltac:(rewrite length_drop; simpl; lia) _ eq_refl) as [cs Hcs].
    eexists. apply multibyte_character; rewrite Em; done.
Qed.

Lemma skip_separators_spec p cs :
  characters p cs -> characters (skip_separators opts p) (drop_while (fun c => negb (word_char c)) cs).
Proof.
  induction 1 as [|p cs Hm Hc IH|c p cs Hm Hc IH]; [constructor| |].
  - simpl. destruct p as [|c p]; [by pose proof (mbchar_len_bound []); simpl in *; lia|].
    cbn [skip_separators]. destruct (Nat.eqb_spec (mbchar_len (c :: p)) 0); [done|]. simpl. by apply multibyte_character.
  - cbn [skip_separators drop_while]. rewrite Hm. simpl. unfold word_char. simpl.
    destruct (is_alnum c), (blends opts c); simpl; try done; by constructor.
Qed.

Lemma scan_word_spec p cs fuel :
  characters p cs -> (length p <= fuel)%nat ->
  exists rest, scan_word opts fuel p =
      (run_bytes (take_while word_char cs), rest, existsb blend_char (take_while word_char cs)) /\
    characters rest (drop_while word_char cs).
Proof.
  intros Hc. revert fuel. induction Hc as [|p cs Hm Hc IH|c p cs Hm Hc IH]; intros fuel Hf.
  - exists []. split; [by destruct fuel|constructor].
  - destruct p as [|c p]; [by pose proof (mbchar_len_bound []); simpl in *; lia|].
    destruct fuel as [|fuel]; [simpl in Hf; lia|]. cbn [scan_word].
    destruct (Nat.eqb_spec (mbchar_len (c :: p)) 0); [done|]. cbn [negb].
    destruct (IH fuel) as (rest & -> & Hr); [rewrite length_drop; simpl in *; lia|]. exists rest. done.
  - destruct fuel as [|fuel]; [simpl in Hf; lia|]. cbn [scan_word]. rewrite Hm. cbn [Nat.eqb negb].
    destruct (IH fuel) as (rest & E & Hr); [simpl in *; lia|].
    cbn [take_while drop_while]. unfold word_char at 1 3 5. cbn [fst orb single].
    destruct (is_alnum c) eqn:Ea; [|destruct (blends opts c) eqn:Eb]; cbn [orb]; rewrite ?E.
    + exists rest. split; [|done]. cbn [existsb]. unfold blend_char at 2. simpl. by rewrite Ea.
    + exists rest. split; [|done]. cbn [existsb]. unfold blend_char at 1. simpl. by rewrite Ea, Eb.
    + exists (c :: p). split; [done|]. by constructor.
Qed.

Lemma scan_word_app fuel p w rest b : scan_word opts fuel p = (w, rest, b) -> p = w ++ rest.
Proof.
  revert p w rest b. induction fuel as [|fuel IH]; intros p w rest b E; [by destruct p; simplify_eq/=|].
  destruct p as [|c p]; [by simplify_eq/=|]. cbn [scan_word] in E.
  destruct (negb (Nat.eqb _ _)).
  - destruct (scan_word opts fuel _) as [[w' r'] b'] eqn:E'. apply IH in E'. simplify_eq/=.
    rewrite <- app_assoc, <- E'. by rewrite take_drop.
  - destruct (is_alnum c); [|destruct (blends opts c); [|by simplify_eq/=]];
      destruct (scan_word opts fuel p) as [[w' r'] b'] eqn:E'; apply IH in E'; by simplify_eq/=.
Qed.

Lemma skip_separators_length p : (length (skip_separators opts p) <= length p)%nat.
Proof.
  induction p as [|c p IH]; [done|]. cbn [skip_separators].
  destruct (negb _); [done|]. destruct (is_alnum c); [done|]. destruct (blends opts c); [done|]. simpl. lia.
Qed.

Lemma character_nonempty p c cs : characters p (c :: cs) -> c.2 <> [].
Proof.
  inversion 1 as [|p' cs' Hm Hc|c' p' cs' Hm Hc]; subst; [|done]. simpl.
  pose proof (mbchar_len_bound p). destruct p; simpl in *; [lia|]. destruct (mbchar_len (z :: p)); done.
Qed.

Lemma words_in_run run cs :
  run <> [] -> words_in run cs = (run ++ take_while word_char cs) :: words_in [] (drop_while word_char cs).
Proof.
  revert run. induction cs as [|c cs IH]; intros run Hr; simpl.
  - rewrite app_nil_r. by destruct run.
  - destruct (word_char c) eqn:Ec.
    + rewrite IH by (by destruct run). by rewrite <- app_assoc.
    + rewrite app_nil_r. cbn [words_in]. rewrite Ec. by destruct run.
Qed.

Lemma words_in_skip cs :
  words_in [] cs = words_in [] (drop_while (fun c => negb (word_char c)) cs).
Proof. induction cs as [|c cs IH]; simpl; [done|]. destruct (word_char c) eqn:Ec; simpl; [by rewrite Ec|done]. Qed.

Lemma drop_while_head {A} (P : A -> bool) l x l' : drop_while P l = x :: l' -> P x = false.
Proof. induction l as [|y l IH]; simpl; [done|]. destruct (P y) eqn:Ey; [done|]. by intros [= -> ->]. Qed.

Lemma tokenize_loop_spec fuel p cs :
  characters p cs -> (length p < fuel)%nat ->
  tokenize_loop opts fuel p = concat (map run_tokens (words_in [] cs)).
Proof.
  revert p cs. induction fuel as [|fuel IH]; intros p cs Hc Hf; [lia|]. cbn [tokenize_loop].
  pose proof (skip_separators_spec p cs Hc) as Hs. pose proof (skip_separators_length p) as Hl.
  rewrite words_in_skip. set (cs' := drop_while _ cs) in *.
  destruct (skip_separators opts p) as [|c q] eqn:Es.
  { inversion Hs as [|? ? Hm|]; [done|]. pose proof (mbchar_len_bound []). simpl in *. lia. }
  destruct cs' as [|c1 cs1] eqn:Ec; [by inversion Hs|].
  assert (word_char c1 = true) as Hw.
  { apply negb_false_iff. unfold cs' in Ec. by apply (drop_while_head (fun c => negb (word_char c))) in Ec. }
  destruct (scan_word_spec (c :: q) (c1 :: cs1) (length (c :: q)) Hs) as (rest & E & Hr); [lia|].
  rewrite E. pose proof (scan_word_app _ _ _ _ _ E) as Ep. cbn [words_in]. rewrite Hw, words_in_run by done.
  cbn [map concat]. cbn [take_while drop_while] in *. rewrite Hw in *. f_equal. apply IH; [done|].
  pose proof (character_nonempty _ _ _ Hs) as Hne. unfold run_bytes in Ep. cbn [map concat] in Ep.
  apply (f_equal length) in Ep. rewrite !length_app in Ep. destruct c1 as [m b]. simpl in *.
  destruct b; [done|]. simpl in *. lia.
Qed.

(** The characters of a text, one after another, are the text. *)
Lemma characters_concat p cs : characters p cs -> run_bytes cs = p.
Proof.
  induction 1 as [|p cs Hm Hc IH|c p cs Hm Hc IH]; unfold run_bytes in *; simpl; [done| |by rewrite IH].
  by rewrite IH, take_drop.
Qed.

(** ** Lemmas: the query parser *)

Lemma skip_spaces_other c p : c <> 32 -> skip_spaces (c :: p) = c :: p.
Proof. intros Hc. unfold skip_spaces. repeat case_match; done. Qed.

Lemma skip_spaces_length p : (length (skip_spaces p) <= length p)%nat.
Proof.
  induction p as [|c p IH]; [done|].
  destruct (decide (c = 32)) as [->|Hc]; [simpl; lia|].
  rewrite skip_spaces_other by done. done.
Qed.

Lemma skip_nonterm_length p : (length (skip_nonterm p) <= length p)%nat.
Proof. induction p as [|c p IH]; [done|]. cbn [skip_nonterm]. case_match; simpl; lia. Qed.

Lemma skip_nonterm_stop p c q :
  skip_nonterm p = c :: q ->
  negb (is_alnum c) && Nat.eqb (mbchar_len (c :: q)) 0 && negb (c =? OP_TRUNC) = false.
Proof.
  induction p as [|d p IH]; [done|]. cbn [skip_nonterm]. case_match eqn:E; [done|]. by intros [= -> ->].
Qed.

Lemma read_phrase_length p : (length (read_phrase p).2 <= length p)%nat.
Proof.
  induction p as [|c p IH]; [done|]. cbn [read_phrase]. case_match; [simpl; lia|].
  destruct (read_phrase p) as [w rest]. simpl in *. lia.
Qed.

Lemma scan_term_app fuel p w rest : scan_term fuel p = (w, rest) -> p = w ++ rest.
Proof.
  revert p w rest. induction fuel as [|fuel IH]; intros p w rest E; [by destruct p; simplify_eq/=|].
  destruct p as [|c p]; [by simplify_eq/=|]. cbn [scan_term] in E. destruct (negb (Nat.eqb _ _)).
  - destruct (scan_term fuel _) as [w' r'] eqn:E'. apply IH in E'. simplify_eq/=.
    rewrite <- app_assoc, <- E'. by rewrite take_drop.
  - destruct (is_alnum c || (c =? OP_TRUNC)); [|by simplify_eq/=].
    destruct (scan_term fuel p) as [w' r'] eqn:E'; apply IH in E'; by simplify_eq/=.
Qed.

(** A scan from where a term can start reads at least a byte. *)
Lemma scan_term_progress fuel c q w rest :
  negb (is_alnum c) && Nat.eqb (mbchar_len (c :: q)) 0 && negb (c =? OP_TRUNC) = false ->
  scan_term (S fuel) (c :: q) = (w, rest) -> (length rest < length (c :: q))%nat.
Proof.
  intros Hstop E. pose proof (scan_term_app _ _ _ _ E) as ->.
  assert (w <> []); [|destruct w; simpl; [done|]; rewrite length_app; lia].
  cbn [scan_term] in E. destruct (Nat.eqb_spec (mbchar_len (c :: q)) 0) as [Hm|Hm]; cbn [negb] in E.
  - destruct (is_alnum c), (c =? OP_TRUNC); try done; cbn [orb] in E;
      destruct (scan_term fuel q); by simplify_eq/=.
  - destruct (scan_term fuel _) as [w' r']. destruct (mbchar_len (c :: q)); by simplify_eq/=.
Qed.

(** Each round of the parser's loop reads at least a byte of the query. *)
Lemma parse_step_progress p ts rest : parse_step opts p = Some (ts, rest) -> (length rest < length p)%nat.
Proof.
  unfold parse_step. pose proof (skip_spaces_length p) as Hp.
  destruct (skip_spaces p) as [|c q]; [done|].
  destruct (read_operator (c :: q)) as [r p1] eqn:Er.
  assert (length p1 <= length (c :: q))%nat as Hp1.
  { unfold read_operator in Er. repeat case_match; simplify_eq/=; lia. }
  pose proof (skip_spaces_length p1) as Hs. destruct (skip_spaces p1) as [|d q']; [done|].
  destruct (d =? OP_PHRASE).
  - pose proof (read_phrase_length q') as Hr. destruct (read_phrase q') as [w rest']. simpl in *. intros; simplify_eq/=. lia.
  - pose proof (skip_nonterm_length (d :: q')) as Hn.
    destruct (skip_nonterm (d :: q')) as [|e q2] eqn:En; [done|]. apply skip_nonterm_stop in En.
    destruct (scan_term (length (e :: q2)) (e :: q2)) as [w rest'] eqn:Es. intros; simplify_eq.
    apply scan_term_progress in Es; [|done]. lia.
Qed.

(** A term the parser builds: a phrase term carries its first word, is required or excluded and is never
    a prefix term; any other term has no phrase. *)
Definition term_ok (t : query_term) : Prop :=
  if is_phrase t then head (phrase_words t) = Some (term t) /\ req t <> neutral /\ trunc t = false
  else phrase_words t = [].

Lemma parse_step_terms p ts rest : parse_step opts p = Some (ts, rest) -> Forall term_ok ts.
Proof.
  assert (forall r ws, Forall term_ok (phrase_terms r ws)) as Hph.
  { intros r [|w ws]; simpl; constructor; [by destruct r|]. apply Forall_map, Forall_true. done. }
  unfold parse_step. intros E. repeat case_match; simplify_eq; unfold word_term;
    repeat case_match; auto; by repeat constructor.
Qed.

Lemma parse_loop_total fuel p :
  (length p < fuel)%nat -> exists ts, parse_loop opts fuel p = Some ts /\ Forall term_ok ts.
Proof.
  revert p. induction fuel as [|fuel IH]; intros p Hf; [lia|]. cbn [parse_loop].
  destruct (parse_step opts p) as [[ts rest]|] eqn:E; [|by exists []].
  pose proof (parse_step_progress _ _ _ E) as Hp. pose proof (parse_step_terms _ _ _ E) as Ht.
  destruct (IH rest) as (more & -> & Hm); [lia|]. eexists. split; [done|]. by apply Forall_app.
Qed.

(** ** Lemmas: printed queries *)

Section Printed.
Context `{!AsciiOperators}.

(** What follows an item: nothing, or the next one. *)
Definition stops (rest : bytes) : Prop := rest = [] \/ exists more, rest = 32 :: more.

Lemma scan_term_stops fuel rest : stops rest -> scan_term fuel rest = ([], rest).
Proof.
  intros [->|[more ->]]; destruct fuel; try done. cbn [scan_term].
  by rewrite space_single, space_separates.
Qed.

Lemma scan_term_word w tr rest fuel :
  Forall word_unit w -> stops rest ->
  let word := concat w ++ (if tr : bool then [OP_TRUNC] else []) in
  (length (word ++ rest) <= fuel)%nat -> scan_term fuel (word ++ rest) = (word, rest).
Proof.
  intros Hw Hr. revert fuel. induction Hw as [|c w Hc Hw IH]; intros fuel word Hf; subst word.
  - destruct tr; simpl in *; [|by apply scan_term_stops]. destruct fuel as [|fuel]; [lia|].
    cbn [scan_term]. by rewrite trunc_single, (scan_term_stops _ _ Hr), orb_true_r.
  - simpl in *. destruct Hc as [[Hne Hm]|(b & -> & Ha & Hm)].
    + rewrite <- !app_assoc in *. destruct c as [|b c]; [done|]. destruct fuel as [|fuel]; [simpl in Hf; lia|].
      set (tail := concat w ++ _ ++ rest) in *. change ((b :: c) ++ tail) with (b :: (c ++ tail)) at 1.
      cbn [scan_term]. change (b :: c ++ tail) with ((b :: c) ++ tail). rewrite Hm. cbn [length Nat.eqb negb].
      change (S (length c)) with (length (b :: c)). rewrite drop_app_length, take_app_length.
      unfold tail in *. rewrite (IH fuel); [done|].
      rewrite !length_app in *. simpl in Hf. lia.
    + destruct fuel as [|fuel]; [simpl in Hf; lia|]. cbn [scan_term app]. rewrite Hm. cbn [Nat.eqb negb].
      rewrite Ha. cbn [orb]. rewrite IH; [done|]. simpl in Hf. lia.
Qed.

Lemma read_phrase_quoted text rest : OP_PHRASE ∉ text -> read_phrase (text ++ OP_PHRASE :: rest) = (text, rest).
Proof.
  induction text as [|c text IH]; [done|]. intros Hn. cbn [read_phrase app].
  destruct (Z.eqb_spec c OP_PHRASE) as [->|Hc]; [by destruct Hn; left|].
  rewrite IH; [done|]. intros ?. apply Hn. by right.
Qed.

(** An operator and a byte that is neither a space nor an operator are read as such. *)
Lemma read_operator_print r b rest :
  b ∉ [32; OP_REQUIRED; OP_EXCLUDED] -> read_operator (print_op r ++ b :: rest) = (r, b :: rest).
Proof.
  intros Hb. destruct r; try done. cbn [read_operator print_op app].
  destruct (Z.eqb_spec b OP_REQUIRED) as [->|?]; [set_solver|].
  destruct (Z.eqb_spec b OP_EXCLUDED) as [->|?]; [set_solver|done].
Qed.

Lemma skip_spaces_print r b rest :
  b <> 32 -> skip_spaces (32 :: print_op r ++ b :: rest) = print_op r ++ b :: rest.
Proof. intros Hb. change (skip_spaces (32 :: ?p)) with (skip_spaces p). destruct r; [by apply skip_spaces_other|done..]. Qed.

Lemma skip_nonterm_unit c rest : word_unit c -> skip_nonterm (c ++ rest) = c ++ rest.
Proof.
  intros [[Hne Hm]|(b & -> & Ha & _)]; [|cbn; by rewrite Ha]. destruct c as [|b c]; [done|].
  cbn [skip_nonterm app]. change (b :: c ++ rest) with ((b :: c) ++ rest). rewrite Hm. simpl.
  by rewrite andb_false_r.
Qed.

Lemma parse_step_word r w tr rest :
  item_ok (Word r w tr) -> stops rest ->
  parse_step opts (print_item (Word r w tr) ++ rest) = Some (item_terms (Word r w tr), rest).
Proof.
  intros (Hw & (b & Hb & Hops) & Htr) Hr. unfold parse_step, print_item.
  set (word := concat w ++ (if tr then [OP_TRUNC] else [])).
  assert (exists word', word = b :: word') as [word' Eb].
  { unfold word. destruct (concat w); simplify_eq/=. by eexists. }
  assert (b <> 32) as Hb1 by set_solver. assert (b ∉ [32; OP_REQUIRED; OP_EXCLUDED]) as Hb2 by (rewrite !not_elem_of_cons in *; tauto).
  assert (b <> OP_PHRASE) as Hb3 by set_solver.
  assert (scan_term (length (word ++ rest)) (word ++ rest) = (word, rest)) as Hs by (by apply scan_term_word).
  cbn [app]. rewrite <- app_assoc. rewrite Eb in *. cbn [app] in *. rewrite skip_spaces_print by done.
  destruct (print_op r ++ b :: word' ++ rest) as [|o p] eqn:Ep; [by destruct r|]. rewrite <- Ep.
  rewrite read_operator_print by done. rewrite skip_spaces_other by done.
  destruct (Z.eqb_spec b OP_PHRASE); [done|].
  assert (skip_nonterm (b :: word' ++ rest) = b :: word' ++ rest) as ->.
  { change (b :: word' ++ rest) with ((b :: word') ++ rest). rewrite <- Eb. unfold word.
    destruct Hw as [|u w0 Hu]; [done|]. cbn [concat]. rewrite <- !app_assoc. by apply skip_nonterm_unit. }
  rewrite Hs. f_equal. f_equal. unfold word_term. rewrite <- Eb. unfold word.
  destruct tr; cbn [item_terms].
  - rewrite last_snoc, removelast_last, bool_decide_true by done.
    unfold zlen. rewrite length_app. destruct (concat w); simplify_eq/=. repeat case_match; simpl in *; try lia; done.
  - rewrite app_nil_r, bool_decide_false by auto. destruct (concat w); simplify_eq/=. done.
Qed.

Lemma parse_step_phrase r text rest :
  item_ok (Phrase r text) -> stops rest ->
  parse_step opts (print_item (Phrase r text) ++ rest) = Some (item_terms (Phrase r text), rest).
Proof.
  intros Ht _. unfold parse_step, print_item. cbn [app]. rewrite <- app_assoc. cbn [app].
  rewrite skip_spaces_print by done.
  destruct (print_op r ++ OP_PHRASE :: (text ++ [OP_PHRASE]) ++ rest) as [|o p] eqn:Ep; [by destruct r|]. rewrite <- Ep.
  rewrite read_operator_print by (apply (bool_decide_unpack _); done). rewrite skip_spaces_other by done. rewrite Z.eqb_refl.
  rewrite <- app_assoc. cbn [app]. rewrite read_phrase_quoted by done. cbn [item_terms].
  by destruct text.
Qed.

Lemma print_items_stops items : stops (concat (map print_item items)).
Proof. destruct items as [|i items]; [by left|]. right. by eexists. Qed.

Lemma parse_loop_printed items fuel :
  Forall item_ok items -> (length (concat (map print_item items)) < fuel)%nat ->
  parse_loop opts fuel (concat (map print_item items)) = Some (concat (map item_terms items)).
Proof.
  intros Hok. revert fuel. induction Hok as [|i items Hi Hok IH]; intros fuel Hf; (destruct fuel as [|fuel]; [lia|]).
  { done. }
  cbn [map concat parse_loop].
  assert (parse_step opts (print_item i ++ concat (map print_item items)) =
          Some (item_terms i, concat (map print_item items))) as ->.
  { pose proof (print_items_stops items). destruct i; [by apply parse_step_word|by apply parse_step_phrase]. }
  rewrite IH; [done|]. cbn [map concat] in Hf. rewrite length_app in Hf. unfold print_item in Hf at 1. simpl in Hf. lia.
Qed.

End Printed.

End Spec.

(** ** What terms, and what a query, ask of a document

    A document is the list of its words. *)

(** The words a term asks for: the word itself, or the words that start with it when it has a wildcard. *)
Definition asks (qt : query_term) (w : bytes) : bool :=
  if trunc qt then bool_decide (term qt `prefix_of` w) else bool_decide (w = term qt).

Definition is_excluded (r : requirement) : bool := match r with excluded => true | _ => false end.

(** The search's answer for a document: a term that is not excluded occurs, every required one does and no
    excluded one, and the words of every phrase term stand in a row. *)
Definition terms_answer (ts : list query_term) (doc : list bytes) : bool :=
  existsb (fun qt => negb (is_excluded (req qt)) && existsb (asks qt) doc) ts &&
  forallb (fun qt => match req qt with
                     | required => existsb (asks qt) doc
                     | excluded => negb (existsb (asks qt) doc)
                     | neutral => true
                     end) ts &&
  forallb (fun qt => implb (is_phrase qt) (phrase_in_tokens doc (phrase_words qt))) ts.

Section Meaning.
Context `{charset}.
Context (opts : tokenize_opts).
Implicit Types (i : query_item) (items : list query_item) (doc : list bytes).

(** A document has an item: the word, a word that starts with it, or the words of the phrase in a row. *)
Definition item_in i doc : Prop :=
  match i with
  | Word _ w false => casedn (concat w) ∈ doc
  | Word _ w true => exists t, t ∈ doc /\ casedn (concat w) `prefix_of` t
  | Phrase _ text => exists before after, doc = before ++ tokenize opts text ++ after
  end.

(** A phrase none of whose words is indexed says nothing. *)
Definition says i : Prop := match i with Word _ _ _ => True | Phrase _ text => tokenize opts text <> [] end.
Definition must i : bool := match i with Word required _ _ => true | Word _ _ _ => false | Phrase r _ => negb (is_excluded r) end.
Definition must_not i : bool := match i with Word r _ _ | Phrase r _ => is_excluded r end.

(** A document is meant: it has one of the items that are not excluded, all that are required, phrases
    among them, and none that is excluded. *)
Definition means items doc : Prop :=
  (exists i, i ∈ items /\ says i /\ must_not i = false /\ item_in i doc) /\
  (forall i, i ∈ items -> says i -> must i = true -> item_in i doc) /\
  (forall i, i ∈ items -> says i -> must_not i = true -> ~ item_in i doc).

End Meaning.

(** ** Lemmas: phrases and postings *)

Lemma match_at_prefix doc phrase : match_at doc phrase = true <-> phrase `prefix_of` doc.
Proof.
  revert doc. induction phrase as [|w phrase IH]; intros doc; [split; [intros _; by exists doc|by destruct doc]|].
  destruct doc as [|t doc]; cbn [match_at]; [split; [done|]; by intros [? ?]|].
  rewrite andb_true_iff, bool_decide_eq_true, IH. split.
  - intros [-> [k ->]]. by exists k.
  - intros [k [= -> ->]]. split; [done|]. by exists k.
Qed.

(** The part of a term a posting key holds. *)
Definition indexed_term (t : bytes) : bytes := take 512 t.

Lemma indexed_term_length t : 0 <= zlen (indexed_term t) < 2 ^ 16.
Proof. unfold indexed_term, zlen. rewrite length_take. lia. Qed.

Lemma build_key_layout t pk : build_key t pk = store_u16le (zlen (indexed_term t)) ++ indexed_term t ++ pk.
Proof.
  unfold build_key, indexed_term, MAX_TERM_BYTES. destruct (Z.ltb_spec 512 (zlen t)) as [Hl|Hl].
  - change (Z.to_nat 512) with 512%nat. unfold u16. rewrite Z.mod_small; [done|apply indexed_term_length].
  - rewrite take_ge by (unfold zlen in Hl; lia). unfold u16. rewrite Z.mod_small; [done|].
    pose proof (zlen_nonneg t). lia.
Qed.

Lemma store_u16le_inj a b : 0 <= a < 2 ^ 16 -> 0 <= b < 2 ^ 16 -> store_u16le a = store_u16le b -> a = b.
Proof. intros Ha Hb E. apply (f_equal (le_load 16)) in E. unfold store_u16le in E. by rewrite !le_load_store in E. Qed.

Lemma entry_value_roundtrip tf doc_len :
  0 <= tf < 2 ^ 16 -> 0 <= doc_len < 2 ^ 32 ->
  decode_entry_value (encode_entry_value tf doc_len) = Some (tf, doc_len).
Proof.
  intros Ht Hd. unfold decode_entry_value, encode_entry_value, store_u16le, store_u32le, load_u16le, load_u32le, zlen.
  rewrite length_app, !length_le_store. simpl Z.ltb. cbn [VALUE_LEN].
  rewrite take_app_exact, drop_app_exact, take_ge by (by rewrite length_le_store). by rewrite !le_load_store.
Qed.

Lemma meta_value_roundtrip docs words :
  - 2 ^ 63 <= docs < 2 ^ 63 -> - 2 ^ 63 <= words < 2 ^ 63 ->
  decode_meta_value (encode_meta_value docs words) = Some (docs, words).
Proof.
  intros Hd Hw. unfold decode_meta_value, encode_meta_value, store_u64le, load_u64le, zlen.
  rewrite length_app, !length_le_store. simpl Z.ltb.
  assert (forall v, 0 <= u64 v < 2 ^ 64) as Hu by (intros; unfold u64; apply Z.mod_pos_bound; lia).
  rewrite take_app_exact, drop_app_exact, take_ge by (by rewrite length_le_store).
  rewrite !le_load_store by (try apply Hu; lia). by rewrite !to_i64_u64.
Qed.

(** ** An example charset: ASCII letters and digits, and two-byte characters led by 0xC2..0xDF *)

Definition example_mbchar_len (p : bytes) : nat :=
  match p with b :: _ :: _ => if (0xC2 <=? b) && (b <=? 0xDF) then 2%nat else 0%nat | _ => 0%nat end.
Definition example_alnum (c : Z) : bool :=
  ((48 <=? c) && (c <=? 57)) || ((65 <=? c) && (c <=? 90)) || ((97 <=? c) && (c <=? 122)).
Definition example_casedn (s : bytes) : bytes := map (fun c => if (65 <=? c) && (c <=? 90) then c + 32 else c) s.

Lemma example_mbchar_len_bound p : (example_mbchar_len p <= length p)%nat.
Proof. destruct p as [|b [|c p]]; simpl; [lia..|]. case_match; lia. Qed.

#[export] Instance example_charset : charset :=
  {| mbchar_len := example_mbchar_len; is_alnum := example_alnum; casedn := example_casedn;
     mbchar_len_bound := example_mbchar_len_bound |}.

#[export] Instance example_ascii : AsciiOperators.
Proof. by split; intros; (destruct rest || idtac). Qed.

Definition example_opts : tokenize_opts :=
  {| min_word_len := 2; max_word_len := 84; blend_map := Some (build_blend_map (Some [45])); stopwords := Some [bs "the"] |}.

(** ** Claims *)

(** C28: the tokenizer returns, for every text, the tokens of its words and nothing else.  A text is
    one sequence of characters; its words are the maximal runs of multibyte, alphanumeric and blend
    characters; each word gives itself, and the parts between its blend characters when it has one, each
    kept if its length in characters is within the bounds and its case-folded form is no stop word. *)
Theorem tokenize_exact `{charset} (opts : tokenize_opts) (text : bytes) :
  exists cs, characters text cs /\ run_bytes cs = text /\
    tokenize opts text = concat (map (run_tokens opts) (words_in opts [] cs)).
Proof.
  destruct (text_characters text) as [cs Hcs]. exists cs. split_and!; [done|by apply characters_concat|].
  unfold tokenize. apply tokenize_loop_spec; [done|lia].
Qed.

(** A document has a phrase exactly if the phrase's words stand in it one after another; an
    empty phrase is in every document. *)
Lemma phrase_in_tokens_exact (doc phrase : list bytes) :
  phrase_in_tokens doc phrase = true <-> exists before after, doc = before ++ phrase ++ after.
Proof.
  unfold phrase_in_tokens. destruct (Z.eqb_spec (zlen phrase) 0) as [Hz|Hz].
  { split; [|done]. intros _. exists [], doc. by destruct phrase. }
  destruct (Z.ltb_spec (zlen doc) (zlen phrase)) as [Hl|Hl].
  { split; [done|]. intros (a & b & ->). unfold zlen in Hl. rewrite !length_app in Hl. lia. }
  rewrite existsb_exists. split.
  - intros (i & _ & Hm). apply match_at_prefix in Hm as [k Hk]. exists (take i doc), k. by rewrite <- Hk, take_drop.
  - intros (a & b & ->). exists (length a). rewrite drop_app_length. split; [|apply match_at_prefix; by exists b].
    apply in_seq. rewrite !length_app. lia.
Qed.

Lemma asks_in qt doc : existsb (asks qt) doc = true <-> exists w, w ∈ doc /\ asks qt w = true.
Proof. rewrite existsb_exists. by setoid_rewrite <- list_elem_of_In. Qed.

Section Means.
Context `{charset}.
Context (opts : tokenize_opts).
Implicit Types (i : query_item) (items : list query_item) (doc : list bytes).

Lemma word_asked r w tr doc : existsb (asks (plain_term (casedn (concat w)) r tr)) doc = true <-> item_in opts (Word r w tr) doc.
Proof.
  rewrite asks_in. unfold asks. cbn [trunc term plain_term item_in]. destruct tr; setoid_rewrite bool_decide_eq_true; [done|].
  split; [by intros (t & ? & ->)|]. intros ?. by eexists.
Qed.

(** What a term requires, and what the terms of an item do. *)
Definition term_kept (qt : query_term) doc : Prop :=
  match req qt with
  | required => existsb (asks qt) doc = true
  | excluded => existsb (asks qt) doc = false
  | neutral => True
  end /\ (is_phrase qt = true -> phrase_in_tokens doc (phrase_words qt) = true).

Definition item_kept i doc : Prop :=
  forall qt, qt ∈ item_terms opts i ->
    term_kept qt doc.

Lemma item_kept_iff i doc :
  (forall r text, i = Phrase r text -> r <> excluded) ->
  item_kept i doc <-> (says opts i -> must i = true -> item_in opts i doc) /\ (says opts i -> must_not i = true -> ~ item_in opts i doc).
Proof.
  intros Hne. unfold item_kept. destruct i as [r w tr|r text]; cbn [item_terms says must must_not].
  - setoid_rewrite list_elem_of_singleton. pose proof (word_asked r w tr doc) as Hw. split.
    + intros Hk. specialize (Hk _ eq_refl) as [Hk _]. cbn [req plain_term] in Hk. split; intros _ Hr; rewrite <- Hw.
      * destruct r; [discriminate Hr|done|discriminate Hr].
      * destruct r; [discriminate Hr|discriminate Hr|congruence].
    + intros [H1 H2] qt ->. cbn [req is_phrase plain_term]. split; [|done]. rewrite <- Hw in H1, H2. destruct r; [done|by apply H1|].
      apply not_true_is_false. by apply H2.
  - specialize (Hne r text eq_refl). assert (is_excluded r = false) as Hx by (by destruct r). rewrite Hx. cbn [negb].
    assert (forall ws, tokenize opts text = ws -> (forall qt, qt ∈ phrase_terms r ws ->
        term_kept qt doc) <->
      (ws <> [] -> exists before after, doc = before ++ ws ++ after)) as Hp.
    { intros ws _. destruct ws as [|w ws]; cbn [phrase_terms].
      - split; [done|]. by intros _ qt ?%not_elem_of_nil.
      - split.
        + intros Hk _. apply phrase_in_tokens_exact. exact (proj2 (Hk _ (list_elem_of_here _ _)) eq_refl).
        + intros Hin. specialize (Hin ltac:(done)). pose proof (proj2 (phrase_in_tokens_exact _ _) Hin) as Hph.
          assert (forall u qt, u ∈ w :: ws -> term qt = u -> trunc qt = false -> existsb (asks qt) doc = true) as Hocc.
          { intros u qt Hu Ht Htr. apply asks_in. exists u. split.
            - destruct Hin as (a & b & ->). rewrite !elem_of_app. by right; left.
            - unfold asks. rewrite Htr, Ht. by apply bool_decide_eq_true. }
          intros qt [->|(u & -> & Hu)%list_elem_of_fmap]%elem_of_cons; cbn [req is_phrase phrase_words plain_term].
          * split; [|done]. destruct r; [..|by destruct Hne]; by apply (Hocc w); [left|..].
          * split; [|done]. apply (Hocc u); [by right|done|done]. }
    rewrite (Hp _ eq_refl). cbn [item_in]. split; [intros Hk; split; [by intros ? _; apply Hk|done]|]. intros [Hk _] Hs. by apply Hk.
Qed.

Lemma terms_answer_iff ts doc :
  terms_answer ts doc = true <->
  (exists qt, qt ∈ ts /\ req qt <> excluded /\ existsb (asks qt) doc = true) /\
  forall qt, qt ∈ ts ->
    term_kept qt doc.
Proof.
  unfold terms_answer. rewrite !andb_true_iff, existsb_exists, !forallb_forall. setoid_rewrite <- list_elem_of_In.
  setoid_rewrite andb_true_iff. setoid_rewrite negb_true_iff. split.
  - intros [[(qt & Hin & Hr & Ho) H1] H2]. split; [exists qt; split_and!; [done|by intros Hx; rewrite Hx in Hr|done]|].
    intros qt' Hin'. specialize (H1 qt' Hin'). specialize (H2 qt' Hin'). split; [|by intros Hx; rewrite Hx in H2].
    destruct (req qt'); [done|done|by apply negb_true_iff].
  - intros [(qt & Hin & Hr & Ho) Hk]. split; [split|].
    + exists qt. split_and!; [done|by destruct (req qt)|done].
    + intros qt' Hin'. destruct (Hk qt' Hin') as [H1 _]. destruct (req qt'); [done|done|by apply negb_true_iff].
    + intros qt' Hin'. destruct (Hk qt' Hin') as [_ H2]. destruct (is_phrase qt'); [by apply H2|done].
Qed.

(** The terms of a query without excluded phrases answer for just the documents it means. *)
Lemma item_terms_mean items doc :
  Forall (fun i => forall r text, i = Phrase r text -> r <> excluded) items ->
  terms_answer (concat (map (item_terms opts) items)) doc = true <-> means opts items doc.
Proof.
  intros Hne. rewrite Forall_forall in Hne. rewrite terms_answer_iff.
  assert (forall qt, qt ∈ concat (map (item_terms opts) items) <-> exists i, i ∈ items /\ qt ∈ item_terms opts i) as Hin.
  { intros qt. rewrite list_elem_of_In, in_concat. setoid_rewrite in_map_iff. setoid_rewrite <- list_elem_of_In. split.
    - intros (l & (i & <- & Hi) & Hq). by exists i.
    - intros (i & Hi & Hq). eexists. split; [by exists i|done]. }
  assert ((forall qt, qt ∈ concat (map (item_terms opts) items) -> term_kept qt doc) <-> forall i, i ∈ items -> item_kept i doc) as Hall.
  { split; [intros Hk i Hi qt Hq; apply (Hk qt), Hin; by exists i|]. intros Hk qt (i & Hi & Hq)%Hin. by apply (Hk i). }
  rewrite Hall. unfold means. assert (forall i, i ∈ items -> item_kept i doc <->
    (says opts i -> must i = true -> item_in opts i doc) /\ (says opts i -> must_not i = true -> ~ item_in opts i doc)) as Hki
    by (intros i Hi; apply item_kept_iff, (Hne i Hi)).
  split.
  - intros [(qt & (i & Hi & Hq)%Hin & Hr & Ho) Hk]. split; [|split; intros j Hj; by apply (Hki j Hj), Hk].
    exists i. split; [done|]. pose proof (proj1 (Hki i Hi) (Hk i Hi)) as [H1 _]. destruct i as [r w tr|r text].
    + cbn [item_terms] in Hq. apply list_elem_of_singleton in Hq as ->. cbn [req plain_term] in Hr. split; [done|].
      split; [by destruct r|]. by apply word_asked in Ho.
    + assert (r <> excluded) as Hrx by (by apply (Hne _ Hi r text)). assert (says opts (Phrase r text)) as Hs.
      { cbn [says item_terms] in *. destruct (tokenize opts text); [by apply not_elem_of_nil in Hq|done]. }
      split; [done|]. split; [by destruct r|]. apply H1; [done|]. by destruct r.
  - intros [(i & Hi & Hs & Hm & Hit) [H1 H2]]. split; [|intros j Hj; apply (Hki j Hj); split; [by apply H1|by apply H2]].
    destruct i as [r w tr|r text].
    + exists (plain_term (casedn (concat w)) r tr). split; [apply Hin; eexists; split; [exact Hi|by left]|].
      split; [by intros Hr; cbn in Hr, Hm; subst r|]. by apply word_asked.
    + cbn [says item_in] in Hs, Hit. assert (r <> excluded) as Hrx by (by apply (Hne _ Hi r text)).
      destruct (tokenize opts text) as [|u us] eqn:Et; [done|].
      eexists. split; [apply Hin; exists (Phrase r text); split; [done|cbn [item_terms]; rewrite Et; by left]|].
      cbn [req]. split; [by destruct r|]. apply asks_in. exists u. destruct Hit as (a & b & ->). split.
      * rewrite !elem_of_app. right. left. by left.
      * unfold asks. cbn [trunc term]. by apply bool_decide_eq_true.
Qed.

End Means.


(** The scan of the keys with the prefix of a term finds exactly the postings of the terms that
    agree with it on the first 512 bytes, and the row's key is what follows the prefix. *)
Lemma posting_prefix_exact (t t' pk : bytes) :
  (build_key t [] `prefix_of` build_key t' pk <-> indexed_term t = indexed_term t') /\
  build_key t pk = build_key t [] ++ pk.
Proof.
  rewrite !build_key_layout, app_nil_r. split; [|by rewrite <- !app_assoc].
  split; [|intros ->; exists pk; by rewrite <- !app_assoc].
  intros [k Hk]. rewrite <- !app_assoc in Hk. apply app_inj_1 in Hk as [H1 H2]; [|unfold store_u16le; by rewrite !length_le_store].
  apply store_u16le_inj in H1; [|apply indexed_term_length..]. unfold zlen in H1. apply app_inj_1 in H2; [by destruct H2|lia].
Qed.

(** A posting's term frequency and document length and an index's document and word counts, the
    negative ones too, are read back from their stored values. *)
Lemma fts_values_roundtrip (tf doc_len docs words : Z) :
  0 <= tf < 2 ^ 16 -> 0 <= doc_len < 2 ^ 32 -> - 2 ^ 63 <= docs < 2 ^ 63 -> - 2 ^ 63 <= words < 2 ^ 63 ->
  decode_entry_value (encode_entry_value tf doc_len) = Some (tf, doc_len) /\
  decode_meta_value (encode_meta_value docs words) = Some (docs, words).
Proof.
  intros Ht Hd Hn Hw. split; [by apply entry_value_roundtrip|by apply meta_value_roundtrip].
Qed.

(** An excluded phrase excludes the rows with its first word and demands its other words: they
    become required terms, so a query for the rows without a phrase returns only rows that have them. *)
Lemma excluded_phrase_demands_words `{charset, !AsciiOperators} (opts : tokenize_opts) (text w : bytes) (ws : list bytes) :
  OP_PHRASE ∉ text -> tokenize opts text = w :: ws ->
  parse_boolean opts (print_item (Phrase excluded text)) =
    Some ({| term := w; req := excluded; trunc := false; is_phrase := true; phrase_words := w :: ws |}
          :: map (fun w => plain_term w required false) ws).
Proof.
  intros Hq Ht. pose proof (parse_loop_printed opts [Phrase excluded text] (S (length (print_item (Phrase excluded text))))) as H1.
  cbn [map concat] in H1. rewrite !app_nil_r in H1. unfold parse_boolean. rewrite H1; [|by repeat constructor|lia].
  cbn [item_terms]. by rewrite Ht.
Qed.

(** ** Witnesses *)

Lemma tokenize_exact_witness :
  tokenize example_opts (bs "The e-mail of J") = [bs "e-mail"; bs "mail"; bs "of"] /\
  exists cs, characters (bs "The e-mail of J") cs /\ run_bytes cs = bs "The e-mail of J" /\
    tokenize example_opts (bs "The e-mail of J") =
    concat (map (run_tokens example_opts) (words_in example_opts [] cs)).
Proof. split; [vm_compute; reflexivity|apply (tokenize_exact example_opts (bs "The e-mail of J"))]. Defined.

Definition example_query : list query_item :=
  [Word required [bs "c"; [0xC3; 0xA9]] true; Phrase neutral (bs "Red car"); Word excluded [bs "o"; bs "K"] false].

Lemma example_query_ok : Forall item_ok example_query.
Proof.
  assert (forall b rest, example_alnum b = true -> example_mbchar_len (b :: rest) = 0%nat) as Hs.
  { intros b [|c rest] Hb; [done|]. unfold example_mbchar_len, example_alnum in *. repeat case_match; try done. lia. }
  assert (forall b, example_alnum b = true -> word_unit [b]) as Hu.
  { intros b Hb. right. exists b. auto. }
  assert (forall c : Z, bool_decide (c ∉ [32; OP_REQUIRED; OP_EXCLUDED; OP_PHRASE]) = true ->
    c ∉ [32; OP_REQUIRED; OP_EXCLUDED; OP_PHRASE]) as Hops by (intros c Hc; by apply bool_decide_eq_true in Hc).
  unfold example_query. apply Forall_cons_2; [|apply Forall_cons_2; [|apply Forall_cons_2; [|apply Forall_nil_2]]].
  - split_and!; [|eexists; split; [done|by apply Hops]|done].
    apply Forall_cons_2; [by apply Hu|]. apply Forall_cons_2; [by left|]. apply Forall_nil_2.
  - apply (bool_decide_unpack _). done.
  - split_and!; [|eexists; split; [done|by apply Hops]|done].
    apply Forall_cons_2; [by apply Hu|]. apply Forall_cons_2; [by apply Hu|]. apply Forall_nil_2.
Qed.


End FtsText.
