(* ===== verification/FtsScore.v ===== *)
(** * Relevance scores ([src/core/fts_score])

    The BM25 formula, in the double arithmetic of IEEE-754 (the Standard Library's [SpecFloat]).  The
    logarithm of the C library is a parameter. *)
From Stdlib Require Import SpecFloat.
From S2P Require Import Prelude.
#[local] Open Scope Z_scope.

Module FtsScore.

(** ** Doubles *)

Definition double := spec_float.

Definition dadd (x y : double) : double := SFadd 53 1024 x y.
Definition dsub (x y : double) : double := SFsub 53 1024 x y.
Definition dmul (x y : double) : double := SFmul 53 1024 x y.
Definition ddiv (x y : double) : double := SFdiv 53 1024 x y.
Definition dlt (x y : double) : bool := SFltb x y.

(** The cast of an integer, [m * 2 ^ e] to the nearest double. *)
Definition scaled (m e : Z) : double := binary_normalize 53 1024 m e false.
Definition of_int (z : Z) : double := scaled z 0.

(** The cast to [float]. *)
Definition to_single (x : double) : double :=
  match x with S754_finite s m e => binary_round 24 128 s m e | x => x end.

Definition ZERO : double := S754_zero false.

(** ** The score *)

Definition IDF_EPSILON : double := scaled 1 (-1).
Definition IDF_NONNEG_SHIFT : double := of_int 1.
Definition TF_SATURATION_BOOST : double := of_int 1.
Definition LENGTH_NORM_BASE : double := of_int 1.
Definition DEFAULT_AVGDL : double := of_int 1.
Definition MIN_TOTAL_DOCS : Z := 1.

Definition avgdl (total_words total_docs : Z) : double :=
  if 0 <? total_docs then ddiv (of_int total_words) (of_int total_docs) else DEFAULT_AVGDL.

Record term_weights := { idf_x_k1_plus_1 : double; k1_one_minus_b : double; k1_b_inv_avgdl : double }.

(** The C library's logarithm. *)
Class Libm := { log : double -> double }.

Definition idf `{Libm} (total_docs df : Z) : double :=
  let docs := if total_docs <? MIN_TOTAL_DOCS then MIN_TOTAL_DOCS else total_docs in
  let value := log (dadd (ddiv (dadd (dsub (of_int docs) (of_int df)) IDF_EPSILON)
                               (dadd (of_int df) IDF_EPSILON)) IDF_NONNEG_SHIFT) in
  if dlt value ZERO then ZERO else value.

Definition make_term_weights (term_idf k1 b inv_avgdl : double) : term_weights :=
  {| idf_x_k1_plus_1 := dmul term_idf (dadd k1 TF_SATURATION_BOOST);
     k1_one_minus_b := dmul k1 (dsub LENGTH_NORM_BASE b);
     k1_b_inv_avgdl := dmul (dmul k1 b) inv_avgdl |}.

Definition posting_score (w : term_weights) (tf doc_len : Z) : double :=
  let denom := dadd (dadd (of_int tf) (k1_one_minus_b w)) (dmul (k1_b_inv_avgdl w) (of_int doc_len)) in
  ddiv (dmul (of_int tf) (idf_x_k1_plus_1 w)) denom.

(** ** Lemmas *)

(** Whatever the statistics say and the logarithm returns, a term's weight is not negative. *)
Lemma idf_not_negative `{Libm} (total_docs df : Z) : dlt (idf total_docs df) ZERO = false.
Proof. unfold idf. by destruct (dlt (log _) ZERO) eqn:E. Qed.

(** No double is above another that is above it. *)
Lemma dlt_asym (x y : double) : dlt x y = true -> dlt y x = false.
Proof.
  unfold dlt, SFltb. destruct x as [sx|sx| |sx mx ex], y as [sy|sy| |sy my ey]; simpl; try done; try destruct sx; try destruct sy; try done;
    destruct (Z.compare_spec ex ey) as [->|H|H]; rewrite ?Z.compare_refl.
  all: try (replace (ey ?= ex) with Gt by (symmetry; apply Z.compare_gt_iff; lia)); try (replace (ey ?= ex) with Lt by (symmetry; apply Z.compare_lt_iff; lia)); try done.
  all: fold (Pos.compare mx my) (Pos.compare my mx);
    rewrite (Pos.compare_antisym mx my); by destruct (Pos.compare mx my).
Qed.

End FtsScore.
