(* ===== verification/Spatial.v ===== *)
(** * Spatial core ([src/core/spatial.cc])

    The Hilbert curve under the keys of a spatial index, the cover of a query box by ranges of the
    curve, the bounding rectangle of a stored geometry and the predicates on rectangles.  A [double]
    is its 64-bit pattern: coordinates are only stored, loaded and compared here, and the comparison
    of two patterns is IEEE-754's.  Buffers read at a cursor are the bytes still unread. *)
From Stdlib Require Import SpecFloat.
From stdpp Require Import sorting.
From S2P Require Import Prelude.
#[local] Open Scope Z_scope.

Module Spatial.

Definition HILBERT_ORDER : nat := 32.
Definition HILBERT_DIM : Z := 2.
Definition HILBERT_KEY_LEN : nat := 8.
Definition MBR_VALUE_LEN : nat := 32.
Definition RANGE_FULL_LO : Z := 0.
Definition RANGE_FULL_HI : Z := UINT64_MAX.
Definition IEEE754_DOUBLE_SIGN_MASK : Z := 2 ^ 63.
Definition DECOMP_BITS : nat := 8.
Definition DECOMP_N : Z := 2 ^ Z.of_nat DECOMP_BITS.
Definition DECOMP_FULL_SCAN_THRESHOLD : Z := DECOMP_N * 16.

(** ** Doubles as bit patterns *)

Definition double := Z.

Definition magnitude (v : double) : Z := v `mod` 2 ^ 63.
Definition negative (v : double) : bool := 2 ^ 63 <=? v.

(** Exponent all ones: an infinity, or a NaN when the fraction is not zero. *)
Definition DOUBLE_INF : Z := 0x7FF0000000000000.
Definition isfinite (v : double) : bool := magnitude v <? DOUBLE_INF.
Definition isnan (v : double) : bool := DOUBLE_INF <? magnitude v.
Definition DBL_MAX : double := 0x7FEFFFFFFFFFFFFF.
Definition minus_DBL_MAX : double := 2 ^ 63 + DBL_MAX.

(** Patterns of one sign are ordered by magnitude, and the two zeros are equal. *)
Definition rank (v : double) : Z := if negative v then - magnitude v else magnitude v.

Definition dlt (a b : double) : bool := negb (isnan a) && negb (isnan b) && (rank a <? rank b).
Definition dle (a b : double) : bool := negb (isnan a) && negb (isnan b) && (rank a <=? rank b).
Definition deq (a b : double) : bool := negb (isnan a) && negb (isnan b) && (rank a =? rank b).

Definition read_double (p : bytes) : double := le_load 64 (take 8 p).
Definition write_double (v : double) : bytes := le_store 8 v.

Definition double_to_lex_uint32 (bits : double) : Z :=
  let bits := if negb (Z.land bits IEEE754_DOUBLE_SIGN_MASK =? 0) then u64 (Z.lnot bits)
              else Z.lxor bits IEEE754_DOUBLE_SIGN_MASK in
  u32 (Z.shiftr bits 32).

(** A pattern and the number it stands for; the arithmetic of centroids is IEEE-754's. *)
Definition to_float (v : double) : spec_float :=
  let e := magnitude v / 2 ^ 52 in
  let f := magnitude v `mod` 2 ^ 52 in
  if e =? 0 then (if f =? 0 then S754_zero (negative v) else S754_finite (negative v) (Z.to_pos f) (-1074))
  else if e =? 2047 then (if f =? 0 then S754_infinity (negative v) else S754_nan)
  else S754_finite (negative v) (Z.to_pos (f + 2 ^ 52)) (e - 1075).

Definition of_float (x : spec_float) : double :=
  let sign (s : bool) (m : Z) := if s then 2 ^ 63 + m else m in
  match x with
  | S754_zero s => sign s 0
  | S754_infinity s => sign s DOUBLE_INF
  | S754_nan => DOUBLE_INF + 2 ^ 51
  | S754_finite s m e =>
      if Zpos m <? 2 ^ 52 then sign s (Zpos m) else sign s ((e + 1075) * 2 ^ 52 + (Zpos m - 2 ^ 52))
  end.

Definition MBR_CENTROID_DIV : double := 0x4000000000000000.

(** [(min + max) / MBR_CENTROID_DIV]. *)
Definition centroid (lo hi : double) : double :=
  of_float (SFdiv 53 1024 (SFadd 53 1024 (to_float lo) (to_float hi)) (to_float MBR_CENTROID_DIV)).

(** ** The Hilbert curve *)

Definition hilbert_rot (n x y rx ry : Z) : Z * Z :=
  if ry =? 0 then
    let '(x, y) := if rx =? 1 then (u32 (n - 1 - x), u32 (n - 1 - y)) else (x, y) in
    (y, x)
  else (x, y).

(** The loop with [s = 2^(k-1)] down to [1]. *)
Fixpoint hilbert_loop (k : nat) (x y d : Z) : Z :=
  match k with
  | O => d
  | S j =>
      let s := 2 ^ Z.of_nat j in
      let rx := if 0 <? Z.land x s then 1 else 0 in
      let ry := if 0 <? Z.land y s then 1 else 0 in
      let d := u64 (d + s * s * Z.lxor (3 * rx) ry) in
      let '(x, y) := hilbert_rot (u32 (Z.shiftl (u32 s) 1)) x y rx ry in
      hilbert_loop j x y d
  end.

Definition hilbert_xy2d_64 (x y : Z) : Z := hilbert_loop HILBERT_ORDER x y 0.

Definition encode_hilbert_be (h : Z) : bytes := be_store HILBERT_KEY_LEN h.
Definition decode_hilbert_be (p : bytes) : Z := be_load 64 (take HILBERT_KEY_LEN p).

Definition build_key (cx cy : double) (pk : bytes) : bytes :=
  encode_hilbert_be (hilbert_xy2d_64 (double_to_lex_uint32 cx) (double_to_lex_uint32 cy)) ++ pk.

(** ** Ranges of the curve that cover a box *)

Definition shift : Z := Z.of_nat (HILBERT_ORDER - DECOMP_BITS).
Definition cell_span : Z := 2 ^ (HILBERT_DIM * shift).

Definition cell_base (gx gy : Z) : Z :=
  hilbert_xy2d_64 (u32 (Z.shiftl gx shift)) (u32 (Z.shiftl gy shift)) / cell_span * cell_span.

(** [for (g = g0; g <= g1; g++)]. *)
Definition span (g0 g1 : Z) : list Z := map (fun i => g0 + Z.of_nat i) (seq 0 (Z.to_nat (g1 - g0 + 1))).

(** The loop that joins touching cells; [lo] and [hi] are the open range. *)
Fixpoint join_cells (lo hi : Z) (cells : list Z) : list (Z * Z) :=
  match cells with
  | [] => [(lo, hi)]
  | c :: cells =>
      let h := u64 (c + cell_span - 1) in
      if c <=? u64 (hi + 1) then join_cells lo (if hi <? h then h else hi) cells
      else (lo, hi) :: join_cells c h cells
  end.

Definition cells_of (gx0 gy0 gx1 gy1 : Z) : list Z :=
  gx ← span gx0 gx1; map (cell_base gx) (span gy0 gy1).

(** The ranges of a window of coarse cells. *)
Definition merged_ranges (gx0 gy0 gx1 gy1 : Z) : list (Z * Z) :=
  let cell_count := (gx1 - gx0 + 1) * (gy1 - gy0 + 1) in
  if DECOMP_FULL_SCAN_THRESHOLD <? cell_count then [(RANGE_FULL_LO, RANGE_FULL_HI)]
  else
    match merge_sort Z.le (cells_of gx0 gy0 gx1 gy1) with
    | [] => []
    | c :: cells => join_cells c (u64 (c + cell_span - 1)) cells
    end.

(** [None] when one of the two assertions fails. *)
Definition decompose_ranges (qx_min qy_min qx_max qy_max : Z) : option (list (Z * Z)) :=
  let gx0 := Z.shiftr qx_min shift in
  let gy0 := Z.shiftr qy_min shift in
  let gx1 := Z.shiftr qx_max shift in
  let gy1 := Z.shiftr qy_max shift in
  if ((gx0 <=? gx1) && (gy0 <=? gy1)) && ((gx1 <? DECOMP_N) && (gy1 <? DECOMP_N)) then Some (merged_ranges gx0 gy0 gx1 gy1)
  else None.

(** ** Rectangles *)

Record mbr_t := { xmin : double; ymin : double; xmax : double; ymax : double }.

Inductive predicate := intersect | contain | within | equal | disjoint | unsupported.

Definition build_value (m : mbr_t) : bytes :=
  write_double (xmin m) ++ write_double (ymin m) ++ write_double (xmax m) ++ write_double (ymax m).

(** The bytes of a stored value copied over an [mbr_t]. *)
Definition read_value (val : bytes) : mbr_t :=
  {| xmin := read_double val; ymin := read_double (drop 8 val); xmax := read_double (drop 16 val);
     ymax := read_double (drop 24 val) |}.

Definition parse_query_mbr (key : bytes) : mbr_t :=
  let x0 := read_double key in
  let x1 := read_double (drop 8 key) in
  let y0 := read_double (drop 16 key) in
  let y1 := read_double (drop 24 key) in
  let '(x0, x1) := if dlt x1 x0 then (x1, x0) else (x0, x1) in
  let '(y0, y1) := if dlt y1 y0 then (y1, y0) else (y0, y1) in
  {| xmin := x0; ymin := y0; xmax := x1; ymax := y1 |}.

Definition mbr_intersects (a b : mbr_t) : bool :=
  negb (dlt (xmax a) (xmin b) || dlt (xmax b) (xmin a) || dlt (ymax a) (ymin b) || dlt (ymax b) (ymin a)).
Definition mbr_within (a b : mbr_t) : bool :=
  dle (xmin b) (xmin a) && dle (xmax a) (xmax b) && dle (ymin b) (ymin a) && dle (ymax a) (ymax b).
Definition mbr_equals (a b : mbr_t) : bool :=
  deq (xmin a) (xmin b) && deq (xmax a) (xmax b) && deq (ymin a) (ymin b) && deq (ymax a) (ymax b).

Definition mbr_predicate (mode : predicate) (query entry : mbr_t) : bool :=
  match mode with
  | intersect => mbr_intersects entry query
  | contain => mbr_within entry query
  | within => mbr_within entry query
  | equal => mbr_equals entry query
  | disjoint => negb (mbr_intersects entry query)
  | unsupported => false
  end.

(** ** The bounding rectangle of a geometry *)

Definition WKB_POINT : Z := 1.
Definition WKB_LINESTRING : Z := 2.
Definition WKB_POLYGON : Z := 3.
Definition WKB_MULTIPOINT : Z := 4.
Definition WKB_GEOMETRYCOLLECTION : Z := 7.
Definition WKB_MAX_POINTS : Z := 1000000.
Definition WKB_MAX_RINGS : Z := 10000.
Definition WKB_MAX_GEOMS : Z := 100000.
Definition WKB_MAX_RECURSION_DEPTH : nat := 32.
Definition SRID_SIZE : nat := 4.
Definition WKB_HEADER_SIZE : nat := 5.
Definition WKB_COUNT_SIZE : nat := 4.
Definition POINT_DATA_SIZE : nat := 16.

Definition grow (m : mbr_t) (x y : double) : mbr_t :=
  if isfinite x && isfinite y then
    {| xmin := if dlt x (xmin m) then x else xmin m; ymin := if dlt y (ymin m) then y else ymin m;
       xmax := if dlt (xmax m) x then x else xmax m; ymax := if dlt (ymax m) y then y else ymax m |}
  else m.

(** A reader takes the unread bytes and the rectangle so far, and fails or leaves both advanced. *)
Definition reader := bytes -> mbr_t -> option (bytes * mbr_t).

Definition wkb_read_point : reader := fun p m =>
  if bool_decide (length p < POINT_DATA_SIZE)%nat then None
  else Some (drop POINT_DATA_SIZE p, grow m (read_double p) (read_double (drop 8 p))).

(** [for (i = 0; i < n; i++) if (!r(...)) return false]. *)
Fixpoint repeat_read (n : nat) (r : reader) : reader := fun p m =>
  match n with
  | O => Some (p, m)
  | S n => match r p m with Some (p, m) => repeat_read n r p m | None => None end
  end.

(** A count of at most [cap] and that many items. *)
Definition counted_read (cap : Z) (r : reader) : reader := fun p m =>
  if bool_decide (length p < WKB_COUNT_SIZE)%nat then None
  else
    let n := le_load 32 (take WKB_COUNT_SIZE p) in
    if cap <? n then None else repeat_read (Z.to_nat n) r (drop WKB_COUNT_SIZE p) m.

Definition wkb_read_point_sequence : reader := counted_read WKB_MAX_POINTS wkb_read_point.

(** [depth] counts down from the deepest level the source accepts. *)
Fixpoint wkb_parse_geometry (depth : nat) : reader := fun p m =>
  match depth with
  | O => None
  | S depth =>
      if bool_decide (length p < WKB_HEADER_SIZE)%nat then None
      else
        let gt := le_load 32 (take WKB_COUNT_SIZE (drop 1 p)) in
        let p := drop WKB_HEADER_SIZE p in
        if gt =? WKB_POINT then wkb_read_point p m
        else if gt =? WKB_LINESTRING then wkb_read_point_sequence p m
        else if gt =? WKB_POLYGON then counted_read WKB_MAX_RINGS wkb_read_point_sequence p m
        else if (WKB_MULTIPOINT <=? gt) && (gt <=? WKB_GEOMETRYCOLLECTION) then
          counted_read WKB_MAX_GEOMS (wkb_parse_geometry depth) p m
        else None
  end.

Definition no_points : mbr_t :=
  {| xmin := DBL_MAX; ymin := DBL_MAX; xmax := minus_DBL_MAX; ymax := minus_DBL_MAX |}.

Definition compute_mbr (data : bytes) : option mbr_t :=
  if bool_decide (length data < SRID_SIZE + WKB_HEADER_SIZE)%nat then None
  else
    match wkb_parse_geometry (S WKB_MAX_RECURSION_DEPTH) (drop SRID_SIZE data) no_points with
    | None => None
    | Some (_, m) => if dle (xmin m) (xmax m) && dle (ymin m) (ymax m) then Some m else None
    end.

(** ** The curve: lemmas *)

(** The distance without the reductions of the loop. *)
Definition digit (x y : Z) (j : nat) : Z :=
  Z.lxor (3 * Z.b2z (Z.testbit x (Z.of_nat j))) (Z.b2z (Z.testbit y (Z.of_nat j))).

Definition turn (x y : Z) (j : nat) : Z * Z :=
  hilbert_rot (u32 (2 ^ Z.of_nat (S j))) x y (Z.b2z (Z.testbit x (Z.of_nat j))) (Z.b2z (Z.testbit y (Z.of_nat j))).

Fixpoint dist (k : nat) (x y : Z) : Z :=
  match k with
  | O => 0
  | S j => 4 ^ Z.of_nat j * digit x y j + dist j (turn x y j).1 (turn x y j).2
  end.

Lemma digit_bound x y j : 0 <= digit x y j < 4.
Proof. unfold digit. destruct (Z.testbit x _), (Z.testbit y _); by vm_compute. Qed.

Lemma dist_bound k x y : 0 <= dist k x y < 4 ^ Z.of_nat k.
Proof.
  revert x y. induction k as [|j IH]; intros x y; cbn [dist]; [cbn; lia|].
  pose proof (digit_bound x y j). specialize (IH (turn x y j).1 (turn x y j).2).
  rewrite Nat2Z.inj_succ, Z.pow_succ_r by lia. set (q := 4 ^ Z.of_nat j) in *. nia.
Qed.

Lemma land_bit x j : (if 0 <? Z.land x (2 ^ Z.of_nat j) then 1 else 0) = Z.b2z (Z.testbit x (Z.of_nat j)).
Proof.
  assert (Z.land x (2 ^ Z.of_nat j) = Z.b2z (Z.testbit x (Z.of_nat j)) * 2 ^ Z.of_nat j) as ->.
  { apply Z.bits_inj_iff. intros i. destruct (Z.ltb_spec i 0); [by rewrite !Z.testbit_neg_r|].
    rewrite Z.land_spec, Z.pow2_bits_eqb by lia. destruct (Z.eqb_spec (Z.of_nat j) i) as [->|Hne].
    - rewrite andb_true_r. destruct (Z.testbit x i); cbn [Z.b2z].
      + by rewrite Z.mul_1_l, Z.pow2_bits_true.
      + by rewrite Z.mul_0_l, Z.bits_0.
    - rewrite andb_false_r. destruct (Z.testbit x _); cbn [Z.b2z].
      + by rewrite Z.mul_1_l, Z.pow2_bits_false by lia.
      + by rewrite Z.mul_0_l, Z.bits_0. }
  destruct (Z.testbit x _); cbn [Z.b2z]; [|done].
  rewrite Z.mul_1_l. destruct (Z.ltb_spec 0 (2 ^ Z.of_nat j)); [done|].
  pose proof (Z.pow_pos_nonneg 2 (Z.of_nat j)). lia.
Qed.

Lemma hilbert_loop_dist k x y d :
  (k <= 32)%nat -> 0 <= d -> d + 4 ^ Z.of_nat k <= 2 ^ 64 -> hilbert_loop k x y d = d + dist k x y.
Proof.
  revert x y d. induction k as [|j IH]; intros x y d Hk Hd Hb; cbn [hilbert_loop dist]; [lia|].
  rewrite !land_bit. fold (digit x y j). rewrite <- (Z.pow_mul_l 2 2). change (2 * 2) with 4.
  assert (u32 (Z.shiftl (u32 (2 ^ Z.of_nat j)) 1) = u32 (2 ^ Z.of_nat (S j))) as ->.
  { unfold u32. rewrite Z.shiftl_mul_pow2 by lia. rewrite Zmult_mod_idemp_l. f_equal.
    rewrite Nat2Z.inj_succ, Z.pow_succ_r by lia. lia. }
  fold (turn x y j). rewrite (surjective_pairing (turn x y j)) at 1.
  pose proof (digit_bound x y j). rewrite Nat2Z.inj_succ, Z.pow_succ_r in Hb by lia.
  assert (0 < 4 ^ Z.of_nat j) by (apply Z.pow_pos_nonneg; lia).
  assert (u64 (d + 4 ^ Z.of_nat j * digit x y j) = d + 4 ^ Z.of_nat j * digit x y j) as ->
    by (apply Z.mod_small; nia).
  rewrite IH by (lia || nia). lia.
Qed.

Lemma hilbert_dist x y : hilbert_xy2d_64 x y = dist 32 x y.
Proof. unfold hilbert_xy2d_64. by rewrite hilbert_loop_dist. Qed.

(** Two coordinates agree on the bits from [m] up to below [k]. *)
Definition agree (m k : nat) (x x' : Z) : Prop :=
  forall i, Z.of_nat m <= i < Z.of_nat k -> Z.testbit x i = Z.testbit x' i.

(** The reflection complements every bit that is still to be read. *)
Lemma reflect_bit j x i :
  (j < 32)%nat -> 0 <= i < Z.of_nat (S j) ->
  Z.testbit (u32 (u32 (2 ^ Z.of_nat (S j)) - 1 - x)) i = negb (Z.testbit x i).
Proof.
  intros Hj Hi. unfold u32. rewrite Z.mod_pow2_bits_low by lia.
  assert (forall a b n, 0 <= n -> i < n -> (a - b) `mod` 2 ^ n = 0 -> Z.testbit a i = Z.testbit b i) as Hcong.
  { intros a b n Hn Hin Hm. rewrite <- (Z.mod_pow2_bits_low a n i), <- (Z.mod_pow2_bits_low b n i) by lia.
    f_equal. rewrite <- (Z.sub_add b a). rewrite Zplus_mod, Hm, Z.add_0_l. by rewrite Zmod_mod. }
  rewrite <- Z.lnot_spec by lia. apply (Hcong _ _ (Z.of_nat (S j))); [lia..|].
  assert (2 ^ 32 = 2 ^ Z.of_nat (S j) * 2 ^ (32 - Z.of_nat (S j))) as E
    by (rewrite <- Z.pow_add_r by lia; f_equal; lia).
  replace (_ - Z.lnot x) with (2 ^ Z.of_nat (S j) `mod` 2 ^ 32) by (unfold Z.lnot; lia).
  rewrite E. rewrite Z.rem_mul_r by (try (apply Z.pow_nonzero; lia); apply Z.pow_pos_nonneg; lia).
  rewrite Z_mod_same_full, Z.add_0_l, Z.mul_comm. apply Z_mod_mult.
Qed.

Lemma turn_agree m j x y x' y' :
  (j < 32)%nat -> Z.testbit x (Z.of_nat j) = Z.testbit x' (Z.of_nat j) ->
  Z.testbit y (Z.of_nat j) = Z.testbit y' (Z.of_nat j) ->
  agree m j (turn x y j).1 (turn x' y' j).1 /\ agree m j (turn x y j).2 (turn x' y' j).2 <->
  agree m j x x' /\ agree m j y y'.
Proof.
  intros Hj Hx Hy. unfold turn, hilbert_rot. rewrite <- Hx, <- Hy.
  assert (forall a a', agree m j (u32 (u32 (2 ^ Z.of_nat (S j)) - 1 - a)) (u32 (u32 (2 ^ Z.of_nat (S j)) - 1 - a'))
            <-> agree m j a a') as Hr.
  { intros a a'. unfold agree. split; intros H i Hi; specialize (H i Hi);
      rewrite !reflect_bit in * by lia; [by destruct (Z.testbit a i), (Z.testbit a' i)|by rewrite H]. }
  destruct (Z.testbit x (Z.of_nat j)), (Z.testbit y (Z.of_nat j));
    cbn [Z.b2z Z.eqb Pos.eqb fst snd]; rewrite ?Hr; tauto.
Qed.

Lemma digit_inj x y x' y' j :
  digit x y j = digit x' y' j <->
  Z.testbit x (Z.of_nat j) = Z.testbit x' (Z.of_nat j) /\ Z.testbit y (Z.of_nat j) = Z.testbit y' (Z.of_nat j).
Proof.
  unfold digit. destruct (Z.testbit x _), (Z.testbit y _), (Z.testbit x' _), (Z.testbit y' _); cbn;
    split; try done; by intros [? ?].
Qed.

Lemma agree_S m j x x' :
  (m <= j)%nat -> agree m (S j) x x' <-> Z.testbit x (Z.of_nat j) = Z.testbit x' (Z.of_nat j) /\ agree m j x x'.
Proof.
  intros Hm. unfold agree. split.
  - intros H. split; [apply H; lia|]. intros i Hi. apply H. lia.
  - intros [Ht H] i Hi. destruct (decide (i = Z.of_nat j)) as [->|]; [done|]. apply H. lia.
Qed.

(** The prefix of a distance is its cell: it is given by the same bits of both coordinates. *)
Lemma dist_cell m k x y x' y' :
  (m <= k)%nat -> (k <= 32)%nat ->
  dist k x y / 4 ^ Z.of_nat m = dist k x' y' / 4 ^ Z.of_nat m <-> agree m k x x' /\ agree m k y y'.
Proof.
  intros Hm. revert x y x' y'. induction k as [|j IH]; intros x y x' y' Hk.
  - split; [|done]. intros _. split; intros i; lia.
  - destruct (decide (m = S j)) as [->|Hne].
    { rewrite !Z.div_small by apply dist_bound. split; [|done]. intros _. split; intros i; lia. }
    cbn [dist]. assert (4 ^ Z.of_nat j = 4 ^ (Z.of_nat j - Z.of_nat m) * 4 ^ Z.of_nat m) as E
      by (rewrite <- Z.pow_add_r by lia; f_equal; lia).
    assert (0 < 4 ^ Z.of_nat m) as Hp by (apply Z.pow_pos_nonneg; lia).
    assert (forall d r, (4 ^ Z.of_nat j * d + r) / 4 ^ Z.of_nat m = 4 ^ (Z.of_nat j - Z.of_nat m) * d + r / 4 ^ Z.of_nat m) as Hdiv.
    { intros d r. rewrite E. replace (_ * 4 ^ Z.of_nat m * d + r) with (r + 4 ^ (Z.of_nat j - Z.of_nat m) * d * 4 ^ Z.of_nat m) by lia.
      rewrite Z.div_add by lia. lia. }
    rewrite !Hdiv. rewrite !agree_S by lia.
    set (q := 4 ^ (Z.of_nat j - Z.of_nat m)).
    assert (forall a b, 0 <= dist j a b / 4 ^ Z.of_nat m < q) as Hq.
    { intros a b. pose proof (dist_bound j a b) as Hb. rewrite E in Hb. split; [apply Z.div_pos; lia|].
      apply Z.div_lt_upper_bound; [lia|]. fold q in Hb. lia. }
    pose proof (Hq (turn x y j).1 (turn x y j).2). pose proof (Hq (turn x' y' j).1 (turn x' y' j).2).
    split.
    + intros H12. assert (digit x y j = digit x' y' j) as Hd by nia.
      apply digit_inj in Hd as [Hx Hy]. rewrite (proj2 (digit_inj x y x' y' j)) in H12 by done.
      destruct (proj1 (turn_agree m j x y x' y' ltac:(lia) Hx Hy)); [|done]. apply IH; [lia|lia|]. lia.
    + intros [[Hx Hax] [Hy Hay]]. rewrite (proj2 (digit_inj x y x' y' j)) by done. f_equal.
      apply IH; [lia|lia|]. by apply turn_agree; [lia|..].
Qed.

Lemma agree_shiftr m k x x' :
  0 <= x < 2 ^ Z.of_nat k -> 0 <= x' < 2 ^ Z.of_nat k ->
  agree m k x x' <-> Z.shiftr x (Z.of_nat m) = Z.shiftr x' (Z.of_nat m).
Proof.
  intros Hx Hx'. split.
  - intros H. apply Z.bits_inj_iff. intros i. destruct (Z.ltb_spec i 0); [by rewrite !Z.testbit_neg_r|].
    rewrite !Z.shiftr_spec by lia. destruct (Z.ltb_spec (i + Z.of_nat m) (Z.of_nat k)); [apply H; lia|].
    by rewrite !(testbit_high (Z.of_nat k)) by lia.
  - intros H i Hi. replace i with (i - Z.of_nat m + Z.of_nat m) by lia.
    by rewrite <- !Z.shiftr_spec, H by lia.
Qed.

Definition is_u32 (z : Z) : Prop := 0 <= z < 2 ^ 32.

(** The cell a distance falls in is the cell of its point. *)
Lemma hilbert_cell x y x' y' :
  is_u32 x -> is_u32 y -> is_u32 x' -> is_u32 y' ->
  hilbert_xy2d_64 x y / cell_span = hilbert_xy2d_64 x' y' / cell_span <->
  Z.shiftr x shift = Z.shiftr x' shift /\ Z.shiftr y shift = Z.shiftr y' shift.
Proof.
  intros Hx Hy Hx' Hy'. rewrite !hilbert_dist. change cell_span with (4 ^ Z.of_nat 24).
  rewrite dist_cell by lia. change shift with (Z.of_nat 24). by rewrite !agree_shiftr by done.
Qed.

(** The curve visits every point of the grid at a distance of its own. *)
Lemma hilbert_injective x y x' y' :
  is_u32 x -> is_u32 y -> is_u32 x' -> is_u32 y' ->
  hilbert_xy2d_64 x y = hilbert_xy2d_64 x' y' -> x = x' /\ y = y'.
Proof.
  intros Hx Hy Hx' Hy'. rewrite !hilbert_dist. intros H.
  assert (agree 0 32 x x' /\ agree 0 32 y y') as [Ax Ay] by (apply (dist_cell 0 32); [lia|lia|by rewrite H]).
  apply (agree_shiftr 0 32) in Ax, Ay; [|done..]. by rewrite !Z.shiftr_0_r in *.
Qed.

(** ** The cover of a box *)

(** A distance lies in one of the inclusive ranges. *)
Definition covered (l : list (Z * Z)) (d : Z) : Prop := exists lo hi, (lo, hi) ∈ l /\ lo <= d <= hi.

Definition in_cell (c d : Z) : Prop := c <= d < c + cell_span.

Lemma covered_cons lo hi l d : covered ((lo, hi) :: l) d <-> lo <= d <= hi \/ covered l d.
Proof.
  unfold covered. split.
  - intros (lo' & hi' & [[= -> ->]|H]%elem_of_cons & Hd); eauto.
  - intros [Hd|(lo' & hi' & H & Hd)]; [exists lo, hi|exists lo', hi']; (split; [|done]); by constructor.
Qed.

Lemma covered_nil d : ~ covered [] d.
Proof. intros (lo & hi & H & _). by apply not_elem_of_nil in H. Qed.

Definition cell_ok (c : Z) : Prop := 0 <= c /\ c + cell_span <= 2 ^ 64.

Lemma exists_cons {A} (P : A -> Prop) x l : (exists y, y ∈ x :: l /\ P y) <-> P x \/ exists y, y ∈ l /\ P y.
Proof.
  split.
  - intros (y & [->|Hy]%elem_of_cons & HP); eauto.
  - intros [HP|(y & Hy & HP)]; [exists x|exists y]; (split; [by constructor|done]).
Qed.

Lemma join_cells_exact lo hi cells d :
  Forall cell_ok cells -> StronglySorted Z.le (lo :: cells) -> 0 <= lo /\ lo <= hi /\ hi < 2 ^ 64 ->
  covered (join_cells lo hi cells) d <-> lo <= d <= hi \/ exists c, c ∈ cells /\ in_cell c d.
Proof.
  revert lo hi. induction cells as [|c cells IH]; intros lo hi Hok Hs Hb; cbn [join_cells].
  - rewrite covered_cons. split; [intros [?|H]; [by left|by apply covered_nil in H]|].
    intros [?|(c & H & _)]; [by left|by apply not_elem_of_nil in H].
  - apply Forall_cons in Hok as [[Hc0 Hc1] Hok]. apply StronglySorted_inv in Hs as [Hs Hle].
    apply Forall_cons in Hle as [Hlc Hle]. rewrite exists_cons. unfold in_cell at 1.
    assert (0 < cell_span) by done.
    assert (u64 (c + cell_span - 1) = c + cell_span - 1) as -> by (apply Z.mod_small; lia).
    pose proof (Z.mod_pos_bound (hi + 1) (2 ^ 64)) as Hm. unfold u64.
    assert ((hi + 1) `mod` 2 ^ 64 <= hi + 1) as Hw by (apply Z.mod_le; lia).
    destruct (Z.leb_spec c ((hi + 1) `mod` 2 ^ 64)) as [Hj|Hj].
    + rewrite IH; [| |by constructor; [apply StronglySorted_inv in Hs as [? _]|]|]; [|done|].
      * assert (lo <= d <= (if hi <? c + cell_span - 1 then c + cell_span - 1 else hi) <->
          lo <= d <= hi \/ c <= d < c + cell_span) as -> by (destruct (Z.ltb_spec hi (c + cell_span - 1)); lia).
        tauto.
      * destruct (Z.ltb_spec hi (c + cell_span - 1)); lia.
    + rewrite covered_cons, IH by (done || lia). assert (c <= d <= c + cell_span - 1 <-> c <= d < c + cell_span) by lia. tauto.
Qed.

Lemma sorted_cover cells d :
  Forall cell_ok cells ->
  covered (match merge_sort Z.le cells with [] => [] | c :: l => join_cells c (u64 (c + cell_span - 1)) l end) d <->
  exists c, c ∈ cells /\ in_cell c d.
Proof.
  intros Hok. pose proof (merge_sort_Permutation Z.le cells) as Hp.
  pose proof (StronglySorted_merge_sort Z.le cells) as Hs.
  assert ((exists c, c ∈ cells /\ in_cell c d) <-> exists c, c ∈ merge_sort Z.le cells /\ in_cell c d) as ->.
  { split; intros (c & Hc & Hd); exists c; (split; [|done]); by rewrite Hp in *. }
  rewrite <- Hp in Hok. destruct (merge_sort Z.le cells) as [|c l].
  - split; [intros H; by apply covered_nil in H|]. intros (c & H & _). by apply not_elem_of_nil in H.
  - apply Forall_cons in Hok as [[H0 H1] Hok]. assert (0 < cell_span) by done.
    assert (u64 (c + cell_span - 1) = c + cell_span - 1) as -> by (apply Z.mod_small; lia).
    rewrite join_cells_exact, exists_cons by (done || lia). unfold in_cell at 2.
    assert (c <= d <= c + cell_span - 1 <-> c <= d < c + cell_span) as -> by lia. done.
Qed.

Lemma elem_of_span g g0 g1 : g ∈ span g0 g1 <-> g0 <= g <= g1.
Proof.
  unfold span. rewrite list_elem_of_fmap. split.
  - intros (i & -> & Hi%elem_of_seq). lia.
  - intros Hg. exists (Z.to_nat (g - g0)). split; [lia|]. apply elem_of_seq. lia.
Qed.

Lemma elem_of_cells c gx0 gy0 gx1 gy1 :
  c ∈ cells_of gx0 gy0 gx1 gy1 <-> exists gx gy, gx0 <= gx <= gx1 /\ gy0 <= gy <= gy1 /\ c = cell_base gx gy.
Proof.
  unfold cells_of. rewrite list_elem_of_bind. split.
  - intros (gx & (gy & -> & Hy%elem_of_span)%list_elem_of_fmap & Hx%elem_of_span). eauto.
  - intros (gx & gy & Hx & Hy & ->). exists gx. split; [|by apply elem_of_span].
    apply list_elem_of_fmap. exists gy. split; [done|]. by apply elem_of_span.
Qed.

Lemma hilbert_bound x y : 0 <= hilbert_xy2d_64 x y < 2 ^ 64.
Proof. rewrite hilbert_dist. apply (dist_bound 32). Qed.

Lemma cell_base_ok gx gy : cell_ok (cell_base gx gy).
Proof.
  unfold cell_ok, cell_base. pose proof (hilbert_bound (u32 (Z.shiftl gx shift)) (u32 (Z.shiftl gy shift))) as Hb.
  set (h := hilbert_xy2d_64 _ _) in *. change (2 ^ 64) with (2 ^ 16 * cell_span) in *.
  assert (0 < cell_span) by done.
  assert (0 <= h / cell_span) by (apply Z.div_pos; lia).
  assert (h / cell_span < 2 ^ 16) by (apply Z.div_lt_upper_bound; [done|]; lia). nia.
Qed.

Lemma shifted_back g : 0 <= g < 2 ^ 8 -> is_u32 (Z.shiftl g shift) /\ Z.shiftr (u32 (Z.shiftl g shift)) shift = g.
Proof.
  intros Hg. rewrite Z.shiftl_mul_pow2 by done. change (2 ^ shift) with (2 ^ 24).
  assert (is_u32 (g * 2 ^ 24)) by (unfold is_u32; lia). split; [done|].
  unfold u32. rewrite Z.mod_small by done. rewrite Z.shiftr_div_pow2 by done. by apply Z.div_mul.
Qed.

Lemma shiftr_cell x : is_u32 x -> 0 <= Z.shiftr x shift < 2 ^ 8.
Proof.
  intros Hx. rewrite Z.shiftr_div_pow2 by done. unfold is_u32 in Hx. change (2 ^ shift) with (2 ^ 24).
  split; [apply Z.div_pos; lia|apply Z.div_lt_upper_bound; lia].
Qed.

(** The distances in the cell of the curve that starts at the base of a coarse cell are those of the
    points of that cell. *)
Lemma in_cell_base gx gy x y :
  0 <= gx < 2 ^ 8 -> 0 <= gy < 2 ^ 8 -> is_u32 x -> is_u32 y ->
  in_cell (cell_base gx gy) (hilbert_xy2d_64 x y) <-> Z.shiftr x shift = gx /\ Z.shiftr y shift = gy.
Proof.
  intros Hgx Hgy Hx Hy. destruct (shifted_back gx Hgx) as [_ Ex], (shifted_back gy Hgy) as [_ Ey].
  assert (forall g, is_u32 (u32 (Z.shiftl g shift))) as Hu by (intros g; apply Z.mod_pos_bound; done).
  pose proof (hilbert_cell x y (u32 (Z.shiftl gx shift)) (u32 (Z.shiftl gy shift)) Hx Hy (Hu gx) (Hu gy)) as Hc.
  rewrite Ex, Ey in Hc. rewrite <- Hc. unfold in_cell, cell_base. assert (0 < cell_span) by done.
  set (h := hilbert_xy2d_64 x y). set (b := hilbert_xy2d_64 _ _). split.
  - intros Hd. symmetry. apply (Z.div_unique _ _ _ (h - b / cell_span * cell_span)); lia.
  - intros <-. pose proof (Z.mul_div_le h cell_span). pose proof (Z.mul_succ_div_gt h cell_span). lia.
Qed.

(** The ranges of the window of cells a box touches. *)
Definition box_ranges (qx_min qy_min qx_max qy_max : Z) : list (Z * Z) :=
  merged_ranges (Z.shiftr qx_min shift) (Z.shiftr qy_min shift) (Z.shiftr qx_max shift) (Z.shiftr qy_max shift).

Lemma ranges_exact qx_min qy_min qx_max qy_max x y :
  is_u32 qx_min -> is_u32 qy_min -> is_u32 qx_max -> is_u32 qy_max -> is_u32 x -> is_u32 y ->
  covered (box_ranges qx_min qy_min qx_max qy_max) (hilbert_xy2d_64 x y) <->
  DECOMP_FULL_SCAN_THRESHOLD < (Z.shiftr qx_max shift - Z.shiftr qx_min shift + 1) *
                               (Z.shiftr qy_max shift - Z.shiftr qy_min shift + 1) \/
  (Z.shiftr qx_min shift <= Z.shiftr x shift <= Z.shiftr qx_max shift /\
   Z.shiftr qy_min shift <= Z.shiftr y shift <= Z.shiftr qy_max shift).
Proof.
  intros Hx0 Hy0 Hx1 Hy1 Hx Hy. unfold box_ranges, merged_ranges. pose proof (hilbert_bound x y) as Hb.
  destruct (Z.ltb_spec DECOMP_FULL_SCAN_THRESHOLD
    ((Z.shiftr qx_max shift - Z.shiftr qx_min shift + 1) * (Z.shiftr qy_max shift - Z.shiftr qy_min shift + 1))) as [Hf|Hf].
  - rewrite covered_cons. unfold RANGE_FULL_LO, RANGE_FULL_HI, UINT64_MAX. split; [by left|]. intros _. left. lia.
  - set (cells := cells_of _ _ _ _).
    rewrite sorted_cover by (apply Forall_forall; intros c (gx & gy & _ & _ & ->)%elem_of_cells; apply cell_base_ok).
    assert (forall g q q', is_u32 q -> is_u32 q' -> Z.shiftr q shift <= g <= Z.shiftr q' shift -> 0 <= g < 2 ^ 8) as Hg.
    { intros g q q' Hq Hq' ?. pose proof (shiftr_cell q Hq). pose proof (shiftr_cell q' Hq'). lia. }
    split.
    + intros (c & (gx & gy & Hgx & Hgy & ->)%elem_of_cells & Hin). right.
      apply in_cell_base in Hin as [-> ->]; eauto.
    + intros [?|[Hgx Hgy]]; [lia|]. exists (cell_base (Z.shiftr x shift) (Z.shiftr y shift)).
      split; [apply elem_of_cells; eauto|]. by apply in_cell_base; eauto using shiftr_cell.
Qed.

(** Ranges in ascending order with a gap between them. *)
Definition gap (a b : Z * Z) : Prop := a.2 + 1 < b.1.

Lemma join_cells_gaps lo hi cells :
  Forall cell_ok cells -> lo <= hi -> hi < 2 ^ 64 -> 0 <= hi -> Forall (fun c => hi + 1 <= c) cells ->
  StronglySorted (fun a b => a + cell_span <= b) cells ->
  StronglySorted gap (join_cells lo hi cells) /\ Forall (fun r => lo <= r.1 <= r.2) (join_cells lo hi cells).
Proof.
  revert lo hi. induction cells as [|c cells IH]; intros lo hi Hok Hlh Hh H0 Hge Hs; cbn [join_cells].
  { split; [by repeat constructor|]. by apply Forall_singleton. }
  apply Forall_cons in Hok as [[Hc0 Hc1] Hok]. apply Forall_cons in Hge as [Hc Hge].
  apply StronglySorted_inv in Hs as [Hs Hcs]. assert (0 < cell_span) by done.
  assert (u64 (c + cell_span - 1) = c + cell_span - 1) as -> by (apply Z.mod_small; lia).
  assert (u64 (hi + 1) = hi + 1) as -> by (apply Z.mod_small; lia).
  assert (Forall (fun c' => c + cell_span - 1 + 1 <= c') cells) as Hn
    by (eapply Forall_impl; [exact Hcs|]; simpl; intros; lia).
  destruct (Z.leb_spec c (hi + 1)).
  - destruct (Z.ltb_spec hi (c + cell_span - 1)); [|lia]. apply IH; (done || lia).
  - destruct (IH c (c + cell_span - 1)) as [Hg Hb]; try (done || lia). split; constructor; try done.
    + eapply Forall_impl; [exact Hb|]. unfold gap. simpl. intros r Hr. lia.
    + eapply Forall_impl; [exact Hb|]. simpl. intros r Hr. lia.
Qed.

Lemma cell_base_inj gx gy gx' gy' :
  0 <= gx < 2 ^ 8 -> 0 <= gy < 2 ^ 8 -> 0 <= gx' < 2 ^ 8 -> 0 <= gy' < 2 ^ 8 ->
  cell_base gx gy = cell_base gx' gy' -> gx = gx' /\ gy = gy'.
Proof.
  intros H1 H2 H3 H4 E. destruct (shifted_back gx H1) as [Ux Ex], (shifted_back gy H2) as [Uy Ey].
  assert (in_cell (cell_base gx gy) (hilbert_xy2d_64 (u32 (Z.shiftl gx shift)) (u32 (Z.shiftl gy shift)))) as Hin
    by (apply in_cell_base; [done..|apply Z.mod_pos_bound; lia|apply Z.mod_pos_bound; lia|done]).
  rewrite E in Hin. apply in_cell_base in Hin as [<- <-]; [done..|apply Z.mod_pos_bound; lia|apply Z.mod_pos_bound; lia].
Qed.

Lemma span_nodup g0 g1 : NoDup (span g0 g1).
Proof. unfold span. apply NoDup_fmap_2_strong; [|apply NoDup_seq]. intros i j _ _ H. lia. Qed.

Lemma cells_nodup gx0 gy0 gx1 gy1 :
  0 <= gx0 -> gx1 < 2 ^ 8 -> 0 <= gy0 -> gy1 < 2 ^ 8 -> NoDup (cells_of gx0 gy0 gx1 gy1).
Proof.
  intros Hx0 Hx1 Hy0 Hy1. unfold cells_of. apply NoDup_bind; [| |apply span_nodup].
  - intros gx gx' c Hx%elem_of_span Hx'%elem_of_span (gy & -> & Hy%elem_of_span)%list_elem_of_fmap
      (gy' & E & Hy'%elem_of_span)%list_elem_of_fmap. apply cell_base_inj in E as [? _]; (done || lia).
  - intros gx Hx%elem_of_span. apply NoDup_fmap_2_strong; [|apply span_nodup].
    intros gy gy' Hy%elem_of_span Hy'%elem_of_span E. apply cell_base_inj in E as [_ ?]; (done || lia).
Qed.

Lemma multiples_apart w a b : 0 < w -> a `mod` w = 0 -> b `mod` w = 0 -> a < b -> a + w <= b.
Proof.
  intros Hw Ha%Z.mod_divide Hb%Z.mod_divide Hlt; [|lia..]. destruct Ha as [p ->], Hb as [q ->].
  assert (p < q) by (apply (Z.mul_lt_mono_pos_r w); lia). nia.
Qed.

(** Sorted multiples of the cell's span without repetition are at least a cell apart. *)
Lemma cells_apart l :
  Forall (fun c => c `mod` cell_span = 0) l -> NoDup l -> StronglySorted Z.le l ->
  StronglySorted (fun a b => a + cell_span <= b) l.
Proof.
  intros Hm Hd Hs. induction Hs as [|c l Hs IH Hle]; constructor;
    apply Forall_cons in Hm as [Hc Hm]; apply NoDup_cons in Hd as [Hn Hd]; [by apply IH|].
  rewrite Forall_forall in *. intros c' Hc'. specialize (Hle c' Hc'). specialize (Hm c' Hc'). simpl in *.
  assert (c <> c') by (by intros ->). apply multiples_apart; (done || lia).
Qed.

Lemma ranges_apart qx_min qy_min qx_max qy_max :
  is_u32 qx_min -> is_u32 qy_min -> is_u32 qx_max -> is_u32 qy_max ->
  StronglySorted gap (box_ranges qx_min qy_min qx_max qy_max).
Proof.
  intros Hx0 Hy0 Hx1 Hy1.
  unfold box_ranges, merged_ranges. case_match; [by repeat constructor|]. set (cells := cells_of _ _ _ _).
  pose proof (merge_sort_Permutation Z.le cells) as Hp. pose proof (StronglySorted_merge_sort Z.le cells) as Hs.
  assert (NoDup (merge_sort Z.le cells)) as Hd
    by (rewrite Hp; apply cells_nodup; by apply shiftr_cell).
  assert (Forall (fun c => cell_ok c /\ c `mod` cell_span = 0) (merge_sort Z.le cells)) as [Hok Hm]%Forall_and.
  { rewrite Hp. apply Forall_forall. intros c (gx & gy & _ & _ & ->)%elem_of_cells.
    split; [apply cell_base_ok|apply Z_mod_mult]. }
  pose proof (cells_apart _ Hm Hd Hs) as Ha.
  destruct (merge_sort Z.le cells) as [|c l]; [constructor|].
  apply Forall_cons in Hok as [[H0 H1] Hok]. apply StronglySorted_inv in Ha as [Ha Hc]. assert (0 < cell_span) by done.
  assert (u64 (c + cell_span - 1) = c + cell_span - 1) as -> by (apply Z.mod_small; lia).
  apply join_cells_gaps; try (done || lia). eapply Forall_impl; [exact Hc|]. simpl. intros. lia.
Qed.

(** The assertions of [decompose_ranges] hold just of a box whose corners are in order. *)
Lemma decompose_asserts qx_min qy_min qx_max qy_max :
  is_u32 qx_min -> is_u32 qy_min -> is_u32 qx_max -> is_u32 qy_max ->
  decompose_ranges qx_min qy_min qx_max qy_max =
  if (Z.shiftr qx_min shift <=? Z.shiftr qx_max shift) && (Z.shiftr qy_min shift <=? Z.shiftr qy_max shift)
  then Some (box_ranges qx_min qy_min qx_max qy_max) else None.
Proof.
  intros _ _ Hx Hy. unfold decompose_ranges, box_ranges. cbv zeta.
  assert (forall q, is_u32 q -> (Z.shiftr q shift <? DECOMP_N) = true) as Hn.
  { intros q [H0 H1]. apply Z.ltb_lt. rewrite Z.shiftr_div_pow2 by done. apply Z.div_lt_upper_bound; [done|].
    eapply Z.lt_le_trans; [exact H1|]. by vm_compute. }
  by rewrite !Hn, andb_true_r by done.
Qed.

(** C8: For a box whose corners are in order the ranges of the curve handed to a query are ascending and
    apart, and hold exactly the points of the coarse cells the box touches, or the whole curve when these
    are too many: a point of the box is never outside, and no distance is met twice.  For any other box
    an assertion fails, and only then. *)
Theorem decompose_exact qx_min qy_min qx_max qy_max :
  is_u32 qx_min -> is_u32 qy_min -> is_u32 qx_max -> is_u32 qy_max ->
  match decompose_ranges qx_min qy_min qx_max qy_max with
  | None => ~ (Z.shiftr qx_min shift <= Z.shiftr qx_max shift /\ Z.shiftr qy_min shift <= Z.shiftr qy_max shift)
  | Some ranges =>
      (Z.shiftr qx_min shift <= Z.shiftr qx_max shift /\ Z.shiftr qy_min shift <= Z.shiftr qy_max shift) /\
      StronglySorted gap ranges /\
      (forall x y, is_u32 x -> is_u32 y ->
        covered ranges (hilbert_xy2d_64 x y) <->
        DECOMP_FULL_SCAN_THRESHOLD < (Z.shiftr qx_max shift - Z.shiftr qx_min shift + 1) *
                                     (Z.shiftr qy_max shift - Z.shiftr qy_min shift + 1) \/
        (Z.shiftr qx_min shift <= Z.shiftr x shift <= Z.shiftr qx_max shift /\
         Z.shiftr qy_min shift <= Z.shiftr y shift <= Z.shiftr qy_max shift))
  end.
Proof.
  intros Hx0 Hy0 Hx1 Hy1. rewrite decompose_asserts by done.
  destruct (Z.leb_spec (Z.shiftr qx_min shift) (Z.shiftr qx_max shift)), (Z.leb_spec (Z.shiftr qy_min shift) (Z.shiftr qy_max shift));
    cbn [andb]; try lia. split; [done|]. split; [by apply ranges_apart|]. intros x y Hx Hy. by apply ranges_exact.
Qed.

(** The corner of a coarse cell need not be the base of its run of distances. *)
Lemma corner_above_base :
  hilbert_xy2d_64 (Z.shiftl 2 shift) 0 `mod` cell_span = 187649984473770 /\ cell_base 2 0 < hilbert_xy2d_64 (Z.shiftl 2 shift) 0.
Proof. split; by vm_compute. Qed.

(** ** Geometries *)

Definition point := (double * double)%type.

#[warnings="-register-all"]
Inductive geometry :=
  | Point (pt : point)
  | LineString (pts : list point)
  | Polygon (rings : list (list point))
  | Multi (tag : Z) (parts : list geometry).

(** Well-known binary as the server stores it: order marker, type, body. *)
Definition wkb_point (pt : point) : bytes := write_double pt.1 ++ write_double pt.2.
Definition wkb_list {A} (item : A -> bytes) (l : list A) : bytes := le_store 4 (zlen l) ++ concat (map item l).
Definition wkb_header (tag : Z) : bytes := 1 :: le_store 4 tag.

Fixpoint wkb (g : geometry) : bytes :=
  match g with
  | Point pt => wkb_header WKB_POINT ++ wkb_point pt
  | LineString pts => wkb_header WKB_LINESTRING ++ wkb_list wkb_point pts
  | Polygon rings => wkb_header WKB_POLYGON ++ wkb_list (wkb_list wkb_point) rings
  | Multi tag parts => wkb_header tag ++ wkb_list wkb parts
  end.

Fixpoint points (g : geometry) : list point :=
  match g with
  | Point pt => [pt]
  | LineString pts => pts
  | Polygon rings => concat rings
  | Multi _ parts => concat (map points parts)
  end.

Definition is_double (v : double) : Prop := 0 <= v < 2 ^ 64.
Definition point_ok (pt : point) : Prop := is_double pt.1 /\ is_double pt.2.
Definition line_ok (pts : list point) : Prop := Forall point_ok pts /\ zlen pts <= WKB_MAX_POINTS.

(** A geometry within the caps of the parser, nested [depth] levels at most. *)
Fixpoint geometry_ok (depth : nat) (g : geometry) : Prop :=
  match depth with
  | O => False
  | S depth =>
      match g with
      | Point pt => point_ok pt
      | LineString pts => line_ok pts
      | Polygon rings => Forall line_ok rings /\ zlen rings <= WKB_MAX_RINGS
      | Multi tag parts =>
          WKB_MULTIPOINT <= tag <= WKB_GEOMETRYCOLLECTION /\ zlen parts <= WKB_MAX_GEOMS /\
          Forall (geometry_ok depth) parts
      end
  end.

Definition grow_all (m : mbr_t) (pts : list point) : mbr_t := foldl (fun m pt => grow m pt.1 pt.2) m pts.

(** A reader consumes an encoding and grows the rectangle by its points. *)
Definition reads (r : reader) (enc : bytes) (pts : list point) : Prop :=
  forall p m, r (enc ++ p) m = Some (p, grow_all m pts).

Lemma read_write_double v p : is_double v -> read_double (write_double v ++ p) = v.
Proof.
  intros Hv. unfold read_double, write_double. rewrite take_app_length' by (by rewrite length_le_store).
  by apply le_load_store.
Qed.

Lemma drop_write_double v p : drop 8 (write_double v ++ p) = p.
Proof. unfold write_double. by rewrite drop_app_length' by (by rewrite length_le_store). Qed.

Lemma read_point_ok pt : point_ok pt -> reads wkb_read_point (wkb_point pt) [pt].
Proof.
  intros [Hx Hy] p m. unfold wkb_read_point, wkb_point. rewrite <- app_assoc.
  rewrite bool_decide_false by (rewrite !length_app; unfold write_double, POINT_DATA_SIZE; rewrite !length_le_store; lia).
  rewrite drop_write_double, !read_write_double by done. done.
Qed.

Lemma repeat_read_ok {A} (r : reader) (enc : A -> bytes) (pts : A -> list point) l :
  Forall (fun a => reads r (enc a) (pts a)) l ->
  reads (repeat_read (length l) r) (concat (map enc l)) (concat (map pts l)).
Proof.
  induction 1 as [|a l Ha Hl IH]; intros p m; [done|]. simpl. rewrite <- app_assoc, Ha, IH.
  unfold grow_all. by rewrite foldl_app.
Qed.

Lemma counted_read_ok {A} cap (r : reader) (enc : A -> bytes) (pts : A -> list point) l :
  Forall (fun a => reads r (enc a) (pts a)) l -> zlen l <= cap -> cap < 2 ^ 32 ->
  reads (counted_read cap r) (wkb_list enc l) (concat (map pts l)).
Proof.
  intros Hl Hc H32 p m. unfold counted_read, wkb_list. rewrite <- app_assoc.
  rewrite bool_decide_false by (rewrite length_app, length_le_store; unfold WKB_COUNT_SIZE; lia).
  rewrite take_app_length' by (by rewrite length_le_store). rewrite drop_app_length' by (by rewrite length_le_store).
  rewrite le_load_store by (unfold zlen in *; lia). destruct (Z.ltb_spec cap (zlen l)); [lia|].
  unfold zlen. rewrite Nat2Z.id. by apply repeat_read_ok.
Qed.

Lemma concat_map_id {A} (l : list (list A)) : concat (map (fun x => x) l) = concat l.
Proof. by rewrite map_id. Qed.

Lemma read_line_ok pts : line_ok pts -> reads wkb_read_point_sequence (wkb_list wkb_point pts) pts.
Proof.
  intros [Hp Hn]. assert (pts = concat (map (fun pt => [pt]) pts)) as E
    by (clear; induction pts; simpl; congruence).
  rewrite E at 2. apply (counted_read_ok WKB_MAX_POINTS wkb_read_point); [|done|done].
  eapply Forall_impl; [done|]. intros pt. apply read_point_ok.
Qed.

Lemma parse_geometry_ok depth g : geometry_ok depth g -> reads (wkb_parse_geometry depth) (wkb g) (points g).
Proof.
  revert g. induction depth as [|depth IH]; intros g Hg p m; [done|]. cbn [wkb_parse_geometry].
  assert (forall tag body, 0 <= tag < 2 ^ 32 -> take WKB_COUNT_SIZE (drop 1 ((wkb_header tag ++ body) ++ p)) = le_store 4 tag /\
            drop WKB_HEADER_SIZE ((wkb_header tag ++ body) ++ p) = body ++ p /\
            bool_decide (length ((wkb_header tag ++ body) ++ p) < WKB_HEADER_SIZE)%nat = false /\
            le_load 32 (le_store 4 tag) = tag) as Hh.
  { intros tag body Htag. pose proof (length_le_store 4 tag) as Hl. rewrite <- app_assoc.
    change (wkb_header tag ++ body ++ p) with (1 :: (le_store 4 tag ++ body ++ p)). split_and!.
    - apply (take_app_length' _ _ 4). done.
    - change (drop 4 (le_store 4 tag ++ (body ++ p)) = body ++ p). by apply drop_app_length'.
    - apply bool_decide_false. cbn [length]. rewrite length_app, Hl. unfold WKB_HEADER_SIZE. lia.
    - by apply le_load_store. }
  destruct g as [pt|pts|rings|tag parts]; cbn [wkb points] in *.
  - destruct (Hh WKB_POINT (wkb_point pt)) as (-> & -> & -> & ->); [done|]. by apply read_point_ok.
  - destruct (Hh WKB_LINESTRING (wkb_list wkb_point pts)) as (-> & -> & -> & ->); [done|]. by apply read_line_ok.
  - destruct (Hh WKB_POLYGON (wkb_list (wkb_list wkb_point) rings)) as (-> & -> & -> & ->); [done|].
    destruct Hg as [Hr Hn]. rewrite <- concat_map_id. apply counted_read_ok; [|done|done].
    eapply Forall_impl; [done|]. apply read_line_ok.
  - destruct Hg as (Ht & Hn & Hg). unfold WKB_MULTIPOINT, WKB_GEOMETRYCOLLECTION in Ht.
    destruct (Hh tag (wkb_list wkb parts)) as (-> & -> & -> & ->); [lia|].
    unfold WKB_POINT, WKB_LINESTRING, WKB_POLYGON, WKB_MULTIPOINT, WKB_GEOMETRYCOLLECTION.
    repeat (case_match; try lia). apply (counted_read_ok WKB_MAX_GEOMS); [|done|done].
    eapply Forall_impl; [done|]. apply IH.
Qed.

(** ** Growing a rectangle *)

Definition finite_point (pt : point) : bool := isfinite pt.1 && isfinite pt.2.

(** The least rectangle around the finite points, the two zeros being one. *)
Definition bounding (m : mbr_t) (pts : list point) : Prop :=
  (forall pt, pt ∈ pts -> finite_point pt = true ->
     rank (xmin m) <= rank pt.1 <= rank (xmax m) /\ rank (ymin m) <= rank pt.2 <= rank (ymax m)) /\
  (forall v, (v = rank (xmin m) \/ v = rank (xmax m)) -> exists pt, pt ∈ pts /\ finite_point pt = true /\ rank pt.1 = v) /\
  (forall v, (v = rank (ymin m) \/ v = rank (ymax m)) -> exists pt, pt ∈ pts /\ finite_point pt = true /\ rank pt.2 = v).

Definition least (v : double) (l : list double) : double := foldl (fun a x => if dlt x a then x else a) v l.
Definition greatest (v : double) (l : list double) : double := foldl (fun a x => if dlt a x then x else a) v l.

Definition finite_points (pts : list point) : list point := filter (fun pt => finite_point pt = true) pts.

Lemma grow_all_corners m pts :
  grow_all m pts =
  {| xmin := least (xmin m) (map fst (finite_points pts)); ymin := least (ymin m) (map snd (finite_points pts));
     xmax := greatest (xmax m) (map fst (finite_points pts)); ymax := greatest (ymax m) (map snd (finite_points pts)) |}.
Proof.
  revert m. induction pts as [|pt pts IH]; intros m; [by destruct m|].
  change (grow_all m (pt :: pts)) with (grow_all (grow m pt.1 pt.2) pts). rewrite IH.
  unfold finite_points, grow. rewrite filter_cons. fold (finite_point pt).
  destruct (finite_point pt); [rewrite decide_True by done|rewrite decide_False by done]; reflexivity.
Qed.

Lemma finite_not_nan v : isfinite v = true -> isnan v = false.
Proof. unfold isfinite, isnan, DOUBLE_INF. lia. Qed.

Lemma finite_rank v : isfinite v = true -> - DBL_MAX <= rank v <= DBL_MAX.
Proof.
  unfold isfinite, rank, DOUBLE_INF, DBL_MAX, magnitude. intros H%Z.ltb_lt.
  pose proof (Z.mod_pos_bound v (2 ^ 63)). destruct (negative v); lia.
Qed.

Lemma least_spec v l :
  isfinite v = true -> Forall (fun x => isfinite x = true) l ->
  isfinite (least v l) = true /\ (forall x, x = v \/ x ∈ l -> rank (least v l) <= rank x) /\ (least v l = v \/ least v l ∈ l).
Proof.
  intros Hv Hl. revert v Hv. induction Hl as [|x l Hx Hl IH]; intros v Hv; cbn [least foldl].
  { split_and!; [done| |by left]. intros x [->|H]; [done|by apply not_elem_of_nil in H]. }
  fold (least (if dlt x v then x else v) l). unfold dlt. rewrite !finite_not_nan by done. cbn [negb andb].
  destruct (Z.ltb_spec (rank x) (rank v)) as [Hlt|Hge].
  - destruct (IH x Hx) as (Hf & Hle & Hin). split_and!; [done| |].
    + intros y [->|[->|Hy]%elem_of_cons]; [etrans; [apply Hle; by left|lia]|apply Hle; by left|apply Hle; by right].
    + right. destruct Hin as [-> |Hin]; by constructor.
  - destruct (IH v Hv) as (Hf & Hle & Hin). split_and!; [done| |].
    + intros y [->|[->|Hy]%elem_of_cons]; [apply Hle; by left|etrans; [apply Hle; by left|lia]|apply Hle; by right].
    + destruct Hin as [Hin|Hin]; [by left|right; by constructor].
Qed.

Lemma greatest_spec v l :
  isfinite v = true -> Forall (fun x => isfinite x = true) l ->
  isfinite (greatest v l) = true /\ (forall x, x = v \/ x ∈ l -> rank x <= rank (greatest v l)) /\
  (greatest v l = v \/ greatest v l ∈ l).
Proof.
  intros Hv Hl. revert v Hv. induction Hl as [|x l Hx Hl IH]; intros v Hv; cbn [greatest foldl].
  { split_and!; [done| |by left]. intros x [->|H]; [done|by apply not_elem_of_nil in H]. }
  fold (greatest (if dlt v x then x else v) l). unfold dlt. rewrite !finite_not_nan by done. cbn [negb andb].
  destruct (Z.ltb_spec (rank v) (rank x)) as [Hlt|Hge].
  - destruct (IH x Hx) as (Hf & Hle & Hin). split_and!; [done| |].
    + intros y [->|[->|Hy]%elem_of_cons]; [etrans; [|apply Hle; by left]; lia|apply Hle; by left|apply Hle; by right].
    + right. destruct Hin as [-> |Hin]; by constructor.
  - destruct (IH v Hv) as (Hf & Hle & Hin). split_and!; [done| |].
    + intros y [->|[->|Hy]%elem_of_cons]; [apply Hle; by left|etrans; [|apply Hle; by left]; lia|apply Hle; by right].
    + destruct Hin as [Hin|Hin]; [by left|right; by constructor].
Qed.

(** The corners of one axis, started from the empty rectangle, are met by a point if there is one. *)
Lemma axis_spec l :
  Forall (fun x => isfinite x = true) l -> l <> [] ->
  let lo := least DBL_MAX l in let hi := greatest minus_DBL_MAX l in
  isfinite lo = true /\ isfinite hi = true /\ (forall x, x ∈ l -> rank lo <= rank x <= rank hi) /\
  (forall v, v = rank lo \/ v = rank hi -> exists x, x ∈ l /\ rank x = v).
Proof.
  intros Hl Hne lo hi. destruct (least_spec DBL_MAX l eq_refl Hl) as (Fl & Ll & Il).
  destruct (greatest_spec minus_DBL_MAX l eq_refl Hl) as (Fg & Lg & Ig). fold lo in Fl, Ll, Il. fold hi in Fg, Lg, Ig.
  destruct l as [|a l]; [done|]. assert (a ∈ a :: l) as Ha by constructor.
  pose proof (finite_rank a (Forall_inv Hl)). change (rank DBL_MAX) with DBL_MAX in *.
  split_and!; [done|done|intros x Hx; split; auto|]. intros v [-> | ->].
  - destruct Il as [E|Hin]; [|by exists lo]. exists a. split; [done|]. pose proof (Ll a (or_intror Ha)) as Hle.
    rewrite E in *. change (rank DBL_MAX) with DBL_MAX in *. lia.
  - destruct Ig as [E|Hin]; [|by exists hi]. exists a. split; [done|]. pose proof (Lg a (or_intror Ha)) as Hle.
    rewrite E in *. change (rank minus_DBL_MAX) with (- DBL_MAX) in *. lia.
Qed.

Lemma finite_points_in pts pt : pt ∈ finite_points pts <-> pt ∈ pts /\ finite_point pt = true.
Proof. unfold finite_points. rewrite list_elem_of_filter. tauto. Qed.

Lemma finite_axes pts :
  Forall (fun x => isfinite x = true) (map fst (finite_points pts)) /\
  Forall (fun y => isfinite y = true) (map snd (finite_points pts)).
Proof.
  split; apply Forall_map, Forall_forall; intros pt [_ H]%finite_points_in;
    apply andb_true_iff in H as [H1 H2]; done.
Qed.

Lemma grow_all_bounding pts :
  finite_points pts <> [] -> let m := grow_all no_points pts in
  bounding m pts /\ dle (xmin m) (xmax m) && dle (ymin m) (ymax m) = true.
Proof.
  intros Hne m. destruct (finite_axes pts) as [Hx Hy]. unfold m. rewrite grow_all_corners. cbn [xmin ymin xmax ymax no_points].
  destruct (axis_spec _ Hx) as (Fx0 & Fx1 & Bx & Ax); [by destruct (finite_points pts)|].
  destruct (axis_spec _ Hy) as (Fy0 & Fy1 & By & Ay); [by destruct (finite_points pts)|].
  split; [split_and!; cbn [xmin ymin xmax ymax]|].
  - intros pt Hpt Hf. split; [apply Bx|apply By]; apply list_elem_of_fmap; exists pt; (split; [done|]); by apply finite_points_in.
  - intros v (x & (pt & -> & [? ?]%finite_points_in)%list_elem_of_fmap & Hr)%Ax. eauto.
  - intros v (x & (pt & -> & [? ?]%finite_points_in)%list_elem_of_fmap & Hr)%Ay. eauto.
  - unfold dle. rewrite !finite_not_nan by done. cbn [negb andb].
    destruct (finite_points pts) as [|pt l]; [done|].
    specialize (Bx pt.1 ltac:(by left)). specialize (By pt.2 ltac:(by left)).
    apply andb_true_iff. split; apply Z.leb_le; lia.
Qed.

(** C9: The rectangle computed from a stored geometry is the least one around its finite points, and
    there is none exactly when the geometry has no finite point; for a geometry within the limits of
    the parser ([geometry_ok]): nested at most 33 levels deep, with at most [WKB_MAX_POINTS] points to a
    line, [WKB_MAX_RINGS] rings to a polygon and [WKB_MAX_GEOMS] parts to a collection.  Beyond them the
    parser gives up and there is no rectangle. *)
Theorem compute_mbr_exact srid g :
  length srid = SRID_SIZE -> geometry_ok (S WKB_MAX_RECURSION_DEPTH) g ->
  match compute_mbr (srid ++ wkb g) with
  | Some m => bounding m (points g)
  | None => forall pt, pt ∈ points g -> finite_point pt = false
  end.
Proof.
  intros Hs Hg. unfold compute_mbr.
  assert (bool_decide (length (srid ++ wkb g) < SRID_SIZE + WKB_HEADER_SIZE)%nat = false) as ->.
  { apply bool_decide_false. rewrite length_app, Hs. unfold WKB_HEADER_SIZE.
    destruct g; cbn [wkb]; rewrite length_app; unfold wkb_header; cbn [length]; rewrite length_le_store; lia. }
  rewrite drop_app_length' by done. pose proof (parse_geometry_ok _ g Hg [] no_points) as E.
  rewrite app_nil_r in E. rewrite E.
  destruct (decide (finite_points (points g) = [])) as [Hn|Hn].
  - rewrite grow_all_corners, Hn. intros pt Hpt. destruct (finite_point pt) eqn:F; [|done].
    assert (pt ∈ finite_points (points g)) as H by (by apply finite_points_in).
    rewrite Hn in H. by apply not_elem_of_nil in H.
  - destruct (grow_all_bounding (points g) Hn) as [Hb Ht]. by rewrite Ht.
Qed.

(** ** Queries *)

(** The order of the quantised coordinates: all doubles but the negative zero, which comes before the
    zero it is equal to. *)
Definition lex_key (v : double) : Z := if negative v then 2 ^ 64 - 1 - v else v + 2 ^ 63.

Lemma lex_key_eq v : is_double v -> double_to_lex_uint32 v = Z.shiftr (lex_key v) 32.
Proof.
  intros Hv. unfold double_to_lex_uint32, lex_key, negative, IEEE754_DOUBLE_SIGN_MASK, is_double in *.
  pose proof (land_bit v 63) as Hb. change (Z.of_nat 63) with 63 in Hb.
  assert (forall z, 0 <= z < 2 ^ 64 -> u32 (Z.shiftr z 32) = Z.shiftr z 32) as Hu.
  { intros z Hz. apply Z.mod_small. rewrite Z.shiftr_div_pow2 by lia. split; [apply Z.div_pos; lia|].
    apply Z.div_lt_upper_bound; lia. }
  assert (Z.testbit v 63 = (2 ^ 63 <=? v)) as Ht.
  { rewrite Z.testbit_eqb by lia. destruct (Z.leb_spec (2 ^ 63) v) as [H|H].
    - replace (v / 2 ^ 63) with 1; [done|]. apply (Z.div_unique v (2 ^ 63) 1 (v - 2 ^ 63)); lia.
    - by rewrite Z.div_small by lia. }
  assert (0 <= Z.land v (2 ^ 63)) by (apply Z.land_nonneg; lia).
  rewrite Ht in Hb. destruct (Z.leb_spec (2 ^ 63) v) as [H'|H']; cbn [Z.b2z] in Hb.
  - destruct (Z.eqb_spec (Z.land v (2 ^ 63)) 0) as [E|E]; [rewrite E in Hb; vm_compute in Hb; done|]. cbn [negb].
    assert (u64 (Z.lnot v) = 2 ^ 64 - 1 - v) as ->; [|apply Hu; lia].
    unfold u64, Z.lnot. symmetry. apply (Z.mod_unique _ _ (-1)); lia.
  - destruct (Z.eqb_spec (Z.land v (2 ^ 63)) 0) as [E|E];
      [|destruct (Z.ltb_spec 0 (Z.land v (2 ^ 63))); [done|lia]]. cbn [negb].
    rewrite <- (Z.add_nocarry_lxor v (2 ^ 63)) by done. apply Hu. lia.
Qed.

Lemma magnitude_cases v : 0 <= v < 2 ^ 64 -> v `mod` 2 ^ 63 = if 2 ^ 63 <=? v then v - 2 ^ 63 else v.
Proof.
  intros Hv. destruct (Z.leb_spec (2 ^ 63) v); [|apply Z.mod_small; lia].
  symmetry. apply (Z.mod_unique _ _ 1); lia.
Qed.

Lemma lex_monotone a b :
  is_double a -> is_double b -> isnan a = false -> isnan b = false -> rank a < rank b \/ a = b ->
  double_to_lex_uint32 a <= double_to_lex_uint32 b.
Proof.
  intros Ha Hb Na Nb H. rewrite !lex_key_eq by done. rewrite !Z.shiftr_div_pow2 by lia. apply Z.div_le_mono; [lia|].
  destruct H as [H| ->]; [|done]. unfold lex_key, rank, negative, magnitude, is_double in *.
  rewrite !magnitude_cases in H by done. destruct (Z.leb_spec (2 ^ 63) a), (Z.leb_spec (2 ^ 63) b); lia.
Qed.

Lemma lex_u32 v : is_u32 (double_to_lex_uint32 v).
Proof. apply Z.mod_pos_bound. done. Qed.

(** The ranges scanned for a query rectangle, and the distance a row is stored at. *)
Definition query_ranges (q : mbr_t) : option (list (Z * Z)) :=
  decompose_ranges (double_to_lex_uint32 (xmin q)) (double_to_lex_uint32 (ymin q))
    (double_to_lex_uint32 (xmax q)) (double_to_lex_uint32 (ymax q)).

Definition stored_at (m : mbr_t) : Z :=
  hilbert_xy2d_64 (double_to_lex_uint32 (centroid (xmin m) (xmax m))) (double_to_lex_uint32 (centroid (ymin m) (ymax m))).

Definition minus_zero : double := 2 ^ 63.

(** A number, and not the negative zero. *)
Definition plain (v : double) : Prop := is_double v /\ isnan v = false /\ v <> minus_zero.

Lemma rank_inj a b : plain a -> plain b -> rank a = rank b -> a = b.
Proof.
  unfold plain, is_double, rank, negative, magnitude, minus_zero. intros (Ha & _ & Za) (Hb & _ & Zb) H.
  rewrite !magnitude_cases in H by done. destruct (Z.leb_spec (2 ^ 63) a), (Z.leb_spec (2 ^ 63) b); lia.
Qed.

Lemma lex_le a b : plain a -> plain b -> rank a <= rank b -> double_to_lex_uint32 a <= double_to_lex_uint32 b.
Proof.
  intros Ha Hb H. apply lex_monotone; try apply Ha; try apply Hb.
  destruct (decide (rank a = rank b)); [right; by apply rank_inj|left; lia].
Qed.

(** [c] lies between the plain numbers [lo] and [hi]. *)
Definition between (lo c hi : double) : Prop :=
  plain lo /\ plain c /\ plain hi /\ rank lo <= rank c <= rank hi.

(** The query scans this distance. *)
Definition scanned (q : mbr_t) (h : Z) : Prop := exists l, query_ranges q = Some l /\ covered l h.

Lemma covers_box q cx cy :
  between (xmin q) cx (xmax q) -> between (ymin q) cy (ymax q) ->
  scanned q (hilbert_xy2d_64 (double_to_lex_uint32 cx) (double_to_lex_uint32 cy)).
Proof.
  intros (X0 & X & X1 & Hx) (Y0 & Y & Y1 & Hy). unfold scanned, query_ranges. rewrite decompose_asserts by apply lex_u32.
  assert (forall a b, plain a -> plain b -> rank a <= rank b ->
    Z.shiftr (double_to_lex_uint32 a) shift <= Z.shiftr (double_to_lex_uint32 b) shift) as Hle.
  { intros a b Ha Hb Hab. rewrite !Z.shiftr_div_pow2 by done. apply Z.div_le_mono; [done|by apply lex_le]. }
  rewrite (proj2 (Z.leb_le _ _) (Hle (xmin q) (xmax q) X0 X1 ltac:(lia))), (proj2 (Z.leb_le _ _) (Hle (ymin q) (ymax q) Y0 Y1 ltac:(lia))).
  cbn [andb]. eexists. split; [done|]. rewrite ranges_exact by apply lex_u32. right. split; split; apply Hle; (done || lia).
Qed.

(** A row whose rectangle lies in the query rectangle is stored at a distance the query scans, when
    its centroid lies between its corners: [within], [contain] and [equal] queries miss no row. *)
Lemma contained_rows_scanned mode q m :
  mode = within \/ mode = contain \/ mode = equal -> mbr_predicate mode q m = true ->
  plain (xmin q) -> plain (xmax q) -> plain (ymin q) -> plain (ymax q) ->
  between (xmin m) (centroid (xmin m) (xmax m)) (xmax m) ->
  between (ymin m) (centroid (ymin m) (ymax m)) (ymax m) ->
  scanned q (stored_at m).
Proof.
  intros Hmode Hp X0 X1 Y0 Y1 (_ & Cx & _ & Hx) (_ & Cy & _ & Hy).
  assert (rank (xmin q) <= rank (xmin m) /\ rank (xmax m) <= rank (xmax q) /\
          rank (ymin q) <= rank (ymin m) /\ rank (ymax m) <= rank (ymax q)) as (? & ? & ? & ?).
  { destruct Hmode as [-> |[-> | ->]]; cbn [mbr_predicate] in Hp;
      unfold mbr_within, mbr_equals, dle, deq in Hp; rewrite !andb_true_iff in Hp; lia. }
  unfold stored_at. apply covers_box; (do 3 (split; [assumption|])); lia.
Qed.

(** ** Where the scan misses rows *)

Definition num (z : positive) : double := of_float (binary_normalize 53 1024 (Zpos z) 0 false).

Definition square (lo hi : double) : mbr_t := {| xmin := lo; ymin := lo; xmax := hi; ymax := hi |}.

(** An [intersect] query misses a row: the square from 0 to 3 meets the square from 2 to 4, but
    the ranges come from the query square alone and the row is stored at its centroid (1.5, 1.5), below the cells of the query. *)
Lemma intersecting_row_not_scanned :
  let q := square (num 2) (num 4) in let m := square 0 (num 3) in
  mbr_predicate intersect q m = true /\ ~ scanned q (stored_at m) /\ is_Some (query_ranges q).
Proof.
  split; [by vm_compute|]. unfold scanned, query_ranges, stored_at. rewrite decompose_asserts by apply lex_u32.
  match goal with |- context [if ?b then _ else _] => assert (b = true) as -> by (by vm_compute) end.
  split; [|eexists; exact eq_refl]. intros (l & Hl & H). apply Some_inj in Hl. rewrite <- Hl in H. revert H.
  rewrite ranges_exact by apply lex_u32. vm_compute. intros [H|[[H _] _]]; [done|by apply H].
Qed.

(** The two zeros are one coordinate and two cells: the point (-0, -0) lies in the square from 0 to
    1 and is stored outside the ranges of that query. *)
Lemma negative_zero_not_scanned :
  let q := square 0 (num 1) in let m := square minus_zero minus_zero in
  mbr_predicate within q m = true /\ ~ scanned q (stored_at m) /\ is_Some (query_ranges q).
Proof.
  split; [by vm_compute|]. unfold scanned, query_ranges, stored_at. rewrite decompose_asserts by apply lex_u32.
  match goal with |- context [if ?b then _ else _] => assert (b = true) as -> by (by vm_compute) end.
  split; [|eexists; exact eq_refl]. intros (l & Hl & H). apply Some_inj in Hl. rewrite <- Hl in H. revert H.
  rewrite ranges_exact by apply lex_u32. vm_compute. intros [H|[[H _] _]]; [done|by apply H].
Qed.

(** ** Witnesses *)

Lemma decompose_exact_witness :
  exists l, decompose_ranges (2 ^ 31) 5 (2 ^ 31 + 2 ^ 25) (2 ^ 24) = Some l /\ covered l (hilbert_xy2d_64 (2 ^ 31 + 7) 6).
Proof.
  pose proof (decompose_exact (2 ^ 31) 5 (2 ^ 31 + 2 ^ 25) (2 ^ 24) ltac:(unfold is_u32; lia) ltac:(unfold is_u32; lia)
    ltac:(unfold is_u32; lia) ltac:(unfold is_u32; lia)) as H.
  destruct (decompose_ranges (2 ^ 31) 5 (2 ^ 31 + 2 ^ 25) (2 ^ 24)) as [l|].
  - exists l. split; [reflexivity|]. destruct H as (_ & _ & H).
    refine (proj2 (H (2 ^ 31 + 7) 6 _ _) _); [unfold is_u32; lia..|]. right. by vm_compute.
  - exfalso. apply H. by vm_compute.
Defined.

Definition ex_polygon : geometry :=
  Multi WKB_GEOMETRYCOLLECTION [Point (num 3, num 1); LineString [(num 5, DOUBLE_INF); (num 4, num 7)]].

Lemma compute_mbr_exact_witness :
  bounding {| xmin := num 3; ymin := num 1; xmax := num 4; ymax := num 7 |} (points ex_polygon).
Proof.
  assert (geometry_ok (S WKB_MAX_RECURSION_DEPTH) ex_polygon) as Hg.
  { simpl. unfold line_ok, point_ok, is_double. split; [done|]. split; [done|]. by repeat constructor. }
  exact (compute_mbr_exact [0; 0; 0; 0] ex_polygon eq_refl Hg).
Defined.

End Spatial.
