(* ===== verification/RowDb.v ===== *)
(** * The storage library's operations on rows

    What the row operations use of the library beside [TidesDb]: an existence test, a seek and a range
    walk over the keys a transaction sees, single and range deletes, and the reuse of a transaction
    after its commit.  Keys of a family are ordered by [memcmp].  An iterator's whole use is one
    operation here: the engine opens it, positions it, reads and frees it without a write in between. *)
From S2P Require Import Prelude Effects TidesDb.
#[local] Open Scope Z_scope.
#[local] Open Scope tdb_scope.

(** The levels a transaction can be opened at, weakest first. *)
Inductive tidesdb_isolation_level_t :=
  | TDB_ISOLATION_READ_UNCOMMITTED
  | TDB_ISOLATION_READ_COMMITTED
  | TDB_ISOLATION_REPEATABLE_READ
  | TDB_ISOLATION_SNAPSHOT
  | TDB_ISOLATION_SERIALIZABLE.

#[export] Instance isolation_eq_dec : EqDecision tidesdb_isolation_level_t.
Proof. solve_decision. Defined.

(** The half-open range [lo, hi). *)
Definition in_range (lo hi k : bytes) : bool :=
  negb (bool_decide (bytes_cmp k lo = Lt)) && bool_decide (bytes_cmp k hi = Lt).

(** A key the transaction sees in a family. *)
Definition live (v : store) (cf k : bytes) : Prop := is_Some (db_get cf k v).

(** [seek_spec v cf target r]: what a seek in the contents [v] may answer: no key at or after the
    target, the least such key, or a key that could not be read. *)
Definition seek_spec (v : store) (cf target : bytes) (r : option (tdb_rc + bytes)) : Prop :=
  match r with
  | None => forall k, live v cf k -> k <b target
  | Some (inl rc) => rc <> TDB_SUCCESS
  | Some (inr k) => live v cf k /\ ~ k <b target /\ forall k', live v cf k' -> ~ k' <b target -> ~ k' <b k
  end.

(** [walk_spec v cf lo hi l]: a walk of the range answers for each of its keys once, with the key or
    with an error. *)
Definition walk_spec (v : store) (cf lo hi : bytes) (l : list (tdb_rc + bytes)) : Prop :=
  exists ks, NoDup ks /\ (forall k, k ∈ ks <-> live v cf k /\ in_range lo hi k = true) /\
    Forall2 (fun o k => o = inr k \/ exists rc, rc <> TDB_SUCCESS /\ o = inl rc) l ks.

Class RowDb (E txn : Type) `{!TidesDb E txn} := {
  txn_contains : txn -> bytes -> bytes -> M E tdb_rc;
  iter_seek : txn -> bytes -> bytes -> M E (tdb_rc + option (tdb_rc + bytes));
  iter_range : txn -> bytes -> bytes -> bytes -> M E (tdb_rc + list (tdb_rc + bytes));
  txn_single_delete : txn -> bytes -> bytes -> M E tdb_rc;
  txn_delete_range : txn -> bytes -> bytes -> bytes -> M E tdb_rc;
  txn_reset : txn -> M E tdb_rc;

  txn_contains_law d ws t cf k :
    spec (fun e => committed e = d /\ pending e t = ws) (txn_contains t cf k)
      (fun rc e => (committed e = d /\ pending e t = ws) /\
         match rc with
         | TDB_SUCCESS => live (apply_writes ws d) cf k
         | TDB_ERR_NOT_FOUND => ~ live (apply_writes ws d) cf k
         | _ => True
         end)
      (fun e => committed e = d);
  iter_seek_law d ws t cf k :
    spec (fun e => committed e = d /\ pending e t = ws) (iter_seek t cf k)
      (fun r e => (committed e = d /\ pending e t = ws) /\
         match r with inl rc => rc <> TDB_SUCCESS | inr r => seek_spec (apply_writes ws d) cf k r end)
      (fun e => committed e = d);
  iter_range_law d ws t cf lo hi :
    spec (fun e => committed e = d /\ pending e t = ws) (iter_range t cf lo hi)
      (fun r e => (committed e = d /\ pending e t = ws) /\
         match r with inl rc => rc <> TDB_SUCCESS | inr l => walk_spec (apply_writes ws d) cf lo hi l end)
      (fun e => committed e = d);
  (** For reads a single delete is a delete. *)
  txn_single_delete_law d ws t cf k :
    spec (fun e => committed e = d /\ pending e t = ws) (txn_single_delete t cf k)
      (fun rc e => committed e = d /\
         pending e t = match rc with TDB_SUCCESS => ws ++ [W_delete cf k] | _ => ws end)
      (fun e => committed e = d);
  txn_delete_range_law d ws t cf lo hi :
    spec (fun e => committed e = d /\ pending e t = ws) (txn_delete_range t cf lo hi)
      (fun rc e => committed e = d /\
         match rc with
         | TDB_SUCCESS => exists ws', pending e t = ws ++ ws' /\
             forall cf' k, db_get cf' k (apply_writes (ws ++ ws') d) =
               if bool_decide (cf' = cf) && in_range lo hi k then None else db_get cf' k (apply_writes ws d)
         | _ => pending e t = ws
         end)
      (fun e => committed e = d);
  txn_reset_law d t :
    spec (fun e => committed e = d) (txn_reset t)
      (fun rc e => committed e = d /\ (rc = TDB_SUCCESS -> pending e t = [])) (fun e => committed e = d) }.

(** In a quiet state these calls do not fail either. *)
Class QuietRows (E txn : Type) `{!TidesDb E txn, !RowDb E txn, !QuietDb E txn} := {
  quiet_contains t cf k :
    spec quiet (txn_contains t cf k)
      (fun rc e => quiet e /\ (rc = TDB_SUCCESS \/ rc = TDB_ERR_NOT_FOUND)) (fun _ => True);
  quiet_seek t cf k :
    spec quiet (iter_seek t cf k)
      (fun r e => quiet e /\ exists o, r = inr o /\ forall rc, o <> Some (inl rc)) (fun _ => True);
  quiet_range t cf lo hi :
    spec quiet (iter_range t cf lo hi)
      (fun r e => quiet e /\ exists ks, r = inr (map inr ks)) (fun _ => True);
  quiet_single_delete t cf k :
    spec quiet (txn_single_delete t cf k) (fun rc e => quiet e /\ rc = TDB_SUCCESS) (fun _ => True);
  quiet_delete_range t cf lo hi :
    spec quiet (txn_delete_range t cf lo hi) (fun rc e => quiet e /\ rc = TDB_SUCCESS) (fun _ => True);
  quiet_reset t : spec quiet (txn_reset t) (fun rc e => quiet e /\ rc = TDB_SUCCESS) (fun _ => True) }.

(** ** The map library of the witnesses *)

Definition mem_keys (cf : bytes) (d : store) : list bytes := map fst (mem_entries cf d).

(** The least of the keys at or after the target. *)
Definition least_from (target : bytes) (ks : list bytes) : option bytes :=
  foldr (fun k best =>
    if bool_decide (bytes_cmp k target = Lt) then best
    else match best with
         | Some b => if bool_decide (bytes_cmp b k = Lt) then Some b else Some k
         | None => Some k
         end) None ks.

Lemma elem_of_mem_keys cf d k : k ∈ mem_keys cf d <-> live d cf k.
Proof.
  unfold mem_keys, live. rewrite list_elem_of_fmap. split.
  - intros ([k' v] & -> & H). apply elem_of_mem_entries in H. by eexists.
  - intros [v Hv]. exists (k, v). split; [done|]. by apply elem_of_mem_entries.
Qed.

Lemma mem_keys_nodup cf d : NoDup (mem_keys cf d).
Proof. apply NoDup_fst_map_to_list. Qed.

Lemma least_from_spec target ks :
  match least_from target ks with
  | None => forall k, k ∈ ks -> k <b target
  | Some k => k ∈ ks /\ ~ k <b target /\ forall k', k' ∈ ks -> ~ k' <b target -> ~ k' <b k
  end.
Proof.
  induction ks as [|k ks IH]; simpl; [intros k Hk; by apply not_elem_of_nil in Hk|].
  case_bool_decide as Hk.
  - destruct (least_from target ks) as [b|].
    + destruct IH as (H1 & H2 & H3). split_and!; [by right|done|].
      intros k' [->|Hk']%elem_of_cons Hn; [done|by apply H3].
    + intros k' [->|Hk']%elem_of_cons; [done|by apply IH].
  - destruct (least_from target ks) as [b|]; [case_bool_decide as Hb|].
    + destruct IH as (H1 & H2 & H3). split_and!; [by right|done|].
      intros k' [->|Hk']%elem_of_cons Hn; [|by apply H3]. apply bytes_not_lt, bytes_le_lteq. by left.
    + destruct IH as (H1 & H2 & H3). split_and!; [by left|done|].
      intros k' [->|Hk']%elem_of_cons Hn; [by apply bytes_lt_irrefl|]. intros Hlt.
      apply (H3 k' Hk' Hn). apply bytes_not_lt in Hb. by eapply bytes_lt_le_trans.
    + split_and!; [by left|done|]. intros k' [->|Hk']%elem_of_cons Hn; [by apply bytes_lt_irrefl|].
      by specialize (IH k' Hk').
Qed.

Definition range_keys (cf lo hi : bytes) (d : store) : list bytes :=
  filter (fun k => in_range lo hi k = true) (mem_keys cf d).

Definition mem_contains (cf k : bytes) : M mem_db tdb_rc :=
  soft ERR_IO (fun e =>
    (e, Ret (match db_get cf k (apply_writes (buf e) (mem e)) with
             | Some _ => TDB_SUCCESS | None => TDB_ERR_NOT_FOUND end))).

(** A lost reply is a key that cannot be read. *)
Definition unread_first (ks : list bytes) : list (tdb_rc + bytes) :=
  match map inr ks with [] => [] | _ :: l => inl ERR_IO :: l end.

Definition mem_seek (cf k : bytes) : M mem_db (tdb_rc + option (tdb_rc + bytes)) := fun e =>
  let found := least_from k (mem_keys cf (apply_writes (buf e) (mem e))) in
  match next_fate e with
  | (works, e) => (e, Ret (inr (inr <$> found)))
  | (fails, e) => (e, Ret (inl ERR_IO))
  | (lost_reply, e) => (e, Ret (inr (Some (inl ERR_IO))))
  | (_, e) => (e, Crash)
  end.

Definition mem_range (cf lo hi : bytes) : M mem_db (tdb_rc + list (tdb_rc + bytes)) := fun e =>
  let ks := range_keys cf lo hi (apply_writes (buf e) (mem e)) in
  match next_fate e with
  | (works, e) => (e, Ret (inr (map inr ks)))
  | (fails, e) => (e, Ret (inl ERR_IO))
  | (lost_reply, e) => (e, Ret (inr (unread_first ks)))
  | (_, e) => (e, Crash)
  end.

Lemma next_fate_contents e : let e' := (next_fate e).2 in mem e' = mem e /\ buf e' = buf e.
Proof. by destruct e as [m b [|f sc]]. Qed.

Lemma mem_walk cf lo hi v l :
  Forall2 (fun o k => o = inr k \/ exists rc, rc <> TDB_SUCCESS /\ o = inl rc) l (range_keys cf lo hi v) ->
  walk_spec v cf lo hi l.
Proof.
  intros Hl. exists (range_keys cf lo hi v). split_and!; [apply NoDup_filter, mem_keys_nodup| |done].
  intros k. unfold range_keys. rewrite list_elem_of_filter, elem_of_mem_keys. tauto.
Qed.

Lemma Forall2_read ks :
  Forall2 (fun (o : tdb_rc + bytes) k => o = inr k \/ exists rc, rc <> TDB_SUCCESS /\ o = inl rc) (map inr ks) ks.
Proof. induction ks; constructor; auto. Qed.

#[export] Program Instance mem_rows : RowDb mem_db unit := {|
  txn_contains _ := mem_contains;
  iter_seek _ := mem_seek;
  iter_range _ := mem_range;
  txn_single_delete _ cf k := soft ERR_IO (fun e => (with_buf (buf e ++ [W_delete cf k]) e, Ret TDB_SUCCESS));
  txn_delete_range _ cf lo hi := soft ERR_IO (fun e =>
    (with_buf (buf e ++ map (W_delete cf) (range_keys cf lo hi (apply_writes (buf e) (mem e)))) e,
     Ret TDB_SUCCESS));
  txn_reset _ := soft ERR_IO (fun e => (with_buf [] e, Ret TDB_SUCCESS)) |}.
Next Obligation.
  intros d ws t cf k [m b [|[] sc]]; cbn; intros [<- <-]; try done; (split; [done|]); unfold live;
    (destruct (db_get cf k _); [by eexists|by intros [? ?]]).
Qed.
Next Obligation.
  intros d ws t cf k e [<- <-]. unfold mem_seek. destruct (next_fate_contents e) as [Hm Hb].
  pose proof (least_from_spec k (mem_keys cf (apply_writes (buf e) (mem e)))) as Hl.
  set (v := apply_writes (buf e) (mem e)) in *.
  assert (seek_spec v cf k (inr <$> least_from k (mem_keys cf v))) as Hs.
  { destruct (least_from k (mem_keys cf v)); simpl in *; [|intros k' Hk'; by apply Hl, elem_of_mem_keys].
    destruct Hl as (H1 & H2 & H3). split_and!; [by apply elem_of_mem_keys|done|].
    intros k' Hk'. by apply H3, elem_of_mem_keys. }
  destruct (next_fate e) as [[] e']; simpl in *; done.
Qed.
Next Obligation.
  intros d ws t cf lo hi e [<- <-]. unfold mem_range. destruct (next_fate_contents e) as [Hm Hb].
  destruct (next_fate e) as [[] e']; simpl in *; try done; split; try done; apply mem_walk; [apply Forall2_read|].
  unfold unread_first. pose proof (Forall2_read (range_keys cf lo hi (apply_writes (buf e) (mem e)))) as H2.
  destruct (range_keys cf lo hi _) as [|k ks]; simpl in *; [done|]. inversion_clear H2. constructor; [|done].
  right. by exists ERR_IO.
Qed.
Next Obligation. intros d ws t cf k [m b [|[] sc]]; cbn; by intros [<- <-]. Qed.
Next Obligation.
  intros d ws t cf lo hi [m b [|[] sc]]; cbn; intros [<- <-]; try done; (split; [done|]); eexists; (split; [done|]);
    intros cf' k; rewrite apply_writes_app; (destruct (decide (cf' = cf)) as [->|Hcf];
      [rewrite db_get_deletes; unfold range_keys;
       destruct (in_range lo hi k) eqn:Er; rewrite (bool_decide_true (cf = cf)) by done; cbn [andb];
       [destruct (decide (k ∈ _)) as [|Hn]; [done|];
        destruct (db_get cf k (apply_writes b m)) eqn:Eg; [|done];
        destruct Hn; apply list_elem_of_filter; split; [done|]; apply elem_of_mem_keys; by eexists
       |rewrite decide_False; [done|]; rewrite list_elem_of_filter; intros [? ?]; congruence]
      |rewrite bool_decide_false by done; cbn [andb]; unfold db_get; rewrite apply_writes_other; [done|];
       apply Forall_map, Forall_true; simpl; congruence]).
Qed.
Next Obligation. intros d t [m b [|[] sc]]; cbn; by intros <-. Qed.

#[export] Program Instance mem_quiet_rows : QuietRows mem_db unit.
Next Obligation.
  intros t cf k [m b [|f sc]]; cbn; intros Hq; [|apply dies_or_works_cons in Hq as [Hq [-> |[-> | ->]]]; cbn];
    try done; (split; [done|]); case_match; auto.
Qed.
Next Obligation.
  intros t cf k [m b [|f sc]]; cbn; intros Hq; [|apply dies_or_works_cons in Hq as [Hq [-> |[-> | ->]]]; cbn];
    try done; (split; [done|]); eexists; (split; [done|]); intros rc; by destruct (least_from _ _).
Qed.
Next Obligation.
  intros t cf lo hi [m b [|f sc]]; cbn; intros Hq; [|apply dies_or_works_cons in Hq as [Hq [-> |[-> | ->]]]; cbn];
    try done; (split; [done|]); by eexists.
Qed.
Next Obligation.
  intros t cf k [m b [|f sc]]; cbn; intros Hq; [|apply dies_or_works_cons in Hq as [Hq [-> |[-> | ->]]]; cbn]; done.
Qed.
Next Obligation.
  intros t cf lo hi [m b [|f sc]]; cbn; intros Hq; [|apply dies_or_works_cons in Hq as [Hq [-> |[-> | ->]]]; cbn]; done.
Qed.
Next Obligation.
  intros t [m b [|f sc]]; cbn; intros Hq; [|apply dies_or_works_cons in Hq as [Hq [-> |[-> | ->]]]; cbn]; done.
Qed.
