(* ===== verification/Dml.v ===== *)
(** * Row operations ([src/handler/ha_tidesdb_dml.cc], [src/handler/ha_tidesdb_dml_update.cc])

    [write_row], [update_row] and [delete_row] with the checks of uniqueness, the maintenance of
    regular, full-text and spatial indexes, the mid-statement commit of bulk statements and the range
    tombstone of a bulk delete.  A computation runs on the handler object, whose library state is one
    of its fields.  A column family is its name; the uninitialised stack and member buffers keys are
    built in are the parameter [junk]; widening of the column maps has no counterpart, since a record
    is always readable here; a row's time to live is handed to the library, which the model of the
    contents leaves out. *)
From S2P Require Import Prelude Effects TidesDb RowDb RowFormat FtsText Table KeyCodec.
Import Table KeyCodec.
#[local] Open Scope Z_scope.
#[local] Open Scope tdb_scope.

(** What the row operations call outside this component: row serialisation ([Row], [RowCrypt]), the
    enforcement of foreign keys, the server's auto-increment, and the spatial codec.  The checks run
    in the statement's transaction. *)
Class RowServices (E txn : Type) := {
  serialize_row : record -> M E bytes;
  fk_check_child : txn -> record -> M E Z;
  fk_enforce_parent_delete : txn -> record -> M E Z;
  fk_enforce_parent_update : txn -> record -> record -> M E Z;
  open_stmt_txn : M E (option txn);
  next_number : record -> Z;
  update_auto_increment : record -> M E (Z * record);
  mbr : Type;
  spatial_compute_mbr : bytes -> option mbr;
  centroid_hilbert : mbr -> Z;
  spatial_build_value : mbr -> bytes }.

Module Dml.

Definition TIDESDB_BULK_INSERT_BATCH_OPS : Z := 500.
Definition TIDESDB_BULK_DELETE_DEFER_CAP : Z := 262144.
Definition TIDESDB_BULK_DELETE_MIN_RANGE : Z := 64.
Definition KEY_INF_HI_BYTE : Z := 0xFF.
Definition FTS_DOC_DELTA_ADD : Z := 1.
Definition FTS_DOC_DELTA_DEL : Z := -1.
Definition FTS_META_KEY_TAG : bytes := [70; 84; 83; 0].
Definition tdb_empty_val : bytes := [0].

(** The server's error codes, kept apart by where they come from: [HA_LIB rc] is [tdb_rc_to_ha] of a
    library failure and [HA_SERVER c] a code the server or a foreign-key check gave. *)
Inductive ha_code :=
  | HA_OK | HA_ERR_FOUND_DUPP_KEY | HA_ERR_OUT_OF_MEM | HA_ERR_GENERIC | HA_LIB (rc : tdb_rc) | HA_SERVER (c : Z).

#[export] Instance ha_code_eq_dec : EqDecision ha_code.
Proof. solve_decision. Defined.

Definition tdb_rc_to_ha (rc : tdb_rc) : ha_code := match rc with TDB_SUCCESS => HA_OK | rc => HA_LIB rc end.
Definition server_code (c : Z) : ha_code := if c =? 0 then HA_OK else HA_SERVER c.

Inductive index_kind := regular | fulltext | spatial.

#[export] Instance index_kind_eq_dec : EqDecision index_kind.
Proof. solve_decision. Defined.

(** The share and the table definition, as far as the row operations read them. *)
Record share := {
  codec : TidesDB_share;
  cf : bytes;
  idx_cfs : list (option bytes);
  idx_kind : list index_kind;
  nosame : list bool;
  encrypted : bool;
  ref_length : Z;
  has_next_number : bool;
  triggers : bool;
  table_name : bytes * bytes;
  fts_opts : FtsText.tokenize_opts }.

(** The per-statement caches of the session's variables and the statement's column map. *)
Record session := {
  cached_skip_unique_ : bool;
  cached_single_delete_primary_ : bool;
  cached_compact_after_range_delete_min_rows_ : Z;
  write_can_replace_ : bool;
  write_set : list nat }.

Record fts_meta_delta_t := { data_cf : bytes; keynr : nat; doc_delta : Z; word_delta : Z }.

Record tidesdb_trx_t (txn : Type) := {
  trx_txn : option txn;
  dirty : bool;
  fts_meta_pending : list fts_meta_delta_t;
  fts_meta_dirty : bool;
  stmt_savepoint_active : bool;
  stmt_fts_snapshot : list fts_meta_delta_t;
  txn_generation : Z;
  mod_tables : list (bytes * bytes);
  mod_tables_generation : Z;
  needs_reset : bool;
  isolation_level : tidesdb_isolation_level_t;
  stmt_fts_dirty_snapshot : bool;
  prepared_xid : bytes;
  prepared_mod_tables : list (bytes * bytes) }.
Arguments trx_txn {txn}.
Arguments dirty {txn}.
Arguments fts_meta_pending {txn}.
Arguments fts_meta_dirty {txn}.
Arguments stmt_savepoint_active {txn}.
Arguments stmt_fts_snapshot {txn}.
Arguments txn_generation {txn}.
Arguments mod_tables {txn}.
Arguments mod_tables_generation {txn}.
Arguments needs_reset {txn}.
Arguments isolation_level {txn}.
Arguments stmt_fts_dirty_snapshot {txn}.
Arguments prepared_xid {txn}.
Arguments prepared_mod_tables {txn}.

Record bulk := {
  in_bulk_insert_ : bool;
  in_bulk_update_ : bool;
  in_bulk_delete_ : bool;
  bulk_insert_ops_ : Z;
  bulk_delete_rows_ : Z;
  bulk_delete_min_pk_ : bytes;
  bulk_delete_max_pk_ : bytes;
  bulk_delete_defer_ : bool;
  bulk_delete_keys_ : list bytes }.

(** The handler object and the shared counters it bumps. *)
Record handler (E txn : Type) := {
  lib : E;
  stmt_txn : option txn;
  stmt_txn_dirty : bool;
  cached_trx_ : option (tidesdb_trx_t txn);
  scan_txn : option txn;
  scan_iter : bool;
  current_pk : bytes;
  dup_key_no_ : nat;
  dup_ref : bytes;
  mod_table_noted_generation_ : Z;
  next_row_id : Z;
  auto_inc_val : Z;
  bulk_of : bulk }.
Arguments lib {E txn}.
Arguments stmt_txn {E txn}.
Arguments stmt_txn_dirty {E txn}.
Arguments cached_trx_ {E txn}.
Arguments scan_txn {E txn}.
Arguments scan_iter {E txn}.
Arguments current_pk {E txn}.
Arguments dup_key_no_ {E txn}.
Arguments dup_ref {E txn}.
Arguments mod_table_noted_generation_ {E txn}.
Arguments next_row_id {E txn}.
Arguments auto_inc_val {E txn}.
Arguments bulk_of {E txn}.

Section code.
Context {E txn : Type} `{!TidesDb E txn, !RowDb E txn, !RowServices E txn} {SF : ServerField} {CS : FtsText.charset}.
Context (sh : share) (ses : session) (junk : memory).
Local Open Scope eff_scope.

#[local] Abbreviation hdl := (handler E txn).
#[local] Abbreviation trx_t := (tidesdb_trx_t txn).

(** ** Field updates *)

Definition set_lib (e : E) (h : hdl) : hdl :=
  {| lib := e; stmt_txn := stmt_txn h; stmt_txn_dirty := stmt_txn_dirty h; cached_trx_ := cached_trx_ h;
     scan_txn := scan_txn h; scan_iter := scan_iter h; current_pk := current_pk h; dup_key_no_ := dup_key_no_ h;
     dup_ref := dup_ref h; mod_table_noted_generation_ := mod_table_noted_generation_ h;
     next_row_id := next_row_id h; auto_inc_val := auto_inc_val h; bulk_of := bulk_of h |}.
Definition set_txn (t : option txn) (h : hdl) : hdl :=
  {| lib := lib h; stmt_txn := t; stmt_txn_dirty := stmt_txn_dirty h; cached_trx_ := cached_trx_ h;
     scan_txn := scan_txn h; scan_iter := scan_iter h; current_pk := current_pk h; dup_key_no_ := dup_key_no_ h;
     dup_ref := dup_ref h; mod_table_noted_generation_ := mod_table_noted_generation_ h;
     next_row_id := next_row_id h; auto_inc_val := auto_inc_val h; bulk_of := bulk_of h |}.
(** The statement writes: [stmt_txn_dirty] and [trx->dirty]. *)
Definition set_stmt_dirty (h : hdl) : hdl :=
  {| lib := lib h; stmt_txn := stmt_txn h; stmt_txn_dirty := true; cached_trx_ := cached_trx_ h;
     scan_txn := scan_txn h; scan_iter := scan_iter h; current_pk := current_pk h; dup_key_no_ := dup_key_no_ h;
     dup_ref := dup_ref h; mod_table_noted_generation_ := mod_table_noted_generation_ h;
     next_row_id := next_row_id h; auto_inc_val := auto_inc_val h; bulk_of := bulk_of h |}.
Definition set_trx (t : option trx_t) (h : hdl) : hdl :=
  {| lib := lib h; stmt_txn := stmt_txn h; stmt_txn_dirty := stmt_txn_dirty h; cached_trx_ := t;
     scan_txn := scan_txn h; scan_iter := scan_iter h; current_pk := current_pk h; dup_key_no_ := dup_key_no_ h;
     dup_ref := dup_ref h; mod_table_noted_generation_ := mod_table_noted_generation_ h;
     next_row_id := next_row_id h; auto_inc_val := auto_inc_val h; bulk_of := bulk_of h |}.
(** [stmt_txn = scan_txn = t] with the cached iterator freed. *)
Definition set_scan (t : option txn) (h : hdl) : hdl :=
  {| lib := lib h; stmt_txn := t; stmt_txn_dirty := stmt_txn_dirty h; cached_trx_ := cached_trx_ h;
     scan_txn := t; scan_iter := false; current_pk := current_pk h; dup_key_no_ := dup_key_no_ h;
     dup_ref := dup_ref h; mod_table_noted_generation_ := mod_table_noted_generation_ h;
     next_row_id := next_row_id h; auto_inc_val := auto_inc_val h; bulk_of := bulk_of h |}.
Definition set_pk (pk : bytes) (h : hdl) : hdl :=
  {| lib := lib h; stmt_txn := stmt_txn h; stmt_txn_dirty := stmt_txn_dirty h; cached_trx_ := cached_trx_ h;
     scan_txn := scan_txn h; scan_iter := scan_iter h; current_pk := pk; dup_key_no_ := dup_key_no_ h;
     dup_ref := dup_ref h; mod_table_noted_generation_ := mod_table_noted_generation_ h;
     next_row_id := next_row_id h; auto_inc_val := auto_inc_val h; bulk_of := bulk_of h |}.
(** [note_dup_key] and the copy into [dup_ref]. *)
Definition set_dup (i : nat) (ref : bytes) (h : hdl) : hdl :=
  {| lib := lib h; stmt_txn := stmt_txn h; stmt_txn_dirty := stmt_txn_dirty h; cached_trx_ := cached_trx_ h;
     scan_txn := scan_txn h; scan_iter := scan_iter h; current_pk := current_pk h; dup_key_no_ := i;
     dup_ref := ref; mod_table_noted_generation_ := mod_table_noted_generation_ h;
     next_row_id := next_row_id h; auto_inc_val := auto_inc_val h; bulk_of := bulk_of h |}.
Definition set_noted (g : Z) (h : hdl) : hdl :=
  {| lib := lib h; stmt_txn := stmt_txn h; stmt_txn_dirty := stmt_txn_dirty h; cached_trx_ := cached_trx_ h;
     scan_txn := scan_txn h; scan_iter := scan_iter h; current_pk := current_pk h; dup_key_no_ := dup_key_no_ h;
     dup_ref := dup_ref h; mod_table_noted_generation_ := g;
     next_row_id := next_row_id h; auto_inc_val := auto_inc_val h; bulk_of := bulk_of h |}.
Definition set_counters (row_id inc : Z) (h : hdl) : hdl :=
  {| lib := lib h; stmt_txn := stmt_txn h; stmt_txn_dirty := stmt_txn_dirty h; cached_trx_ := cached_trx_ h;
     scan_txn := scan_txn h; scan_iter := scan_iter h; current_pk := current_pk h; dup_key_no_ := dup_key_no_ h;
     dup_ref := dup_ref h; mod_table_noted_generation_ := mod_table_noted_generation_ h;
     next_row_id := row_id; auto_inc_val := inc; bulk_of := bulk_of h |}.
Definition set_bulk (b : bulk) (h : hdl) : hdl :=
  {| lib := lib h; stmt_txn := stmt_txn h; stmt_txn_dirty := stmt_txn_dirty h; cached_trx_ := cached_trx_ h;
     scan_txn := scan_txn h; scan_iter := scan_iter h; current_pk := current_pk h; dup_key_no_ := dup_key_no_ h;
     dup_ref := dup_ref h; mod_table_noted_generation_ := mod_table_noted_generation_ h;
     next_row_id := next_row_id h; auto_inc_val := auto_inc_val h; bulk_of := b |}.

Definition map_trx (f : trx_t -> trx_t) (h : hdl) : hdl := set_trx (f <$> cached_trx_ h) h.
Definition map_bulk (f : bulk -> bulk) (h : hdl) : hdl := set_bulk (f (bulk_of h)) h.

Definition on_lib {A} (m : M E A) : M hdl A := lift lib set_lib m.

(** ** Full-text statistics of the transaction ([ha_tidesdb_fts.cc]) *)

(** Every [int64_t] sum stays in range: the counts are bounded by the bytes stored. *)
Definition fold_meta (m : fts_meta_delta_t) (docs words : Z) : fts_meta_delta_t :=
  {| data_cf := data_cf m; keynr := keynr m; doc_delta := doc_delta m + docs; word_delta := word_delta m + words |}.

Fixpoint accumulate (l : list fts_meta_delta_t) (c : bytes) (k : nat) (docs words : Z) : list fts_meta_delta_t :=
  match l with
  | [] => [{| data_cf := c; keynr := k; doc_delta := docs; word_delta := words |}]
  | m :: l =>
      if bool_decide (data_cf m = c) && Nat.eqb (keynr m) k then fold_meta m docs words :: l
      else m :: accumulate l c k docs words
  end.

Definition set_meta (l : list fts_meta_delta_t) (d : bool) (t : trx_t) : trx_t :=
  {| trx_txn := trx_txn t; dirty := dirty t; fts_meta_pending := l; fts_meta_dirty := d;
     stmt_savepoint_active := stmt_savepoint_active t; stmt_fts_snapshot := stmt_fts_snapshot t;
     txn_generation := txn_generation t; mod_tables := mod_tables t; mod_tables_generation := mod_tables_generation t;
     needs_reset := needs_reset t; isolation_level := isolation_level t;
     stmt_fts_dirty_snapshot := stmt_fts_dirty_snapshot t; prepared_xid := prepared_xid t;
     prepared_mod_tables := prepared_mod_tables t |}.

Definition trx_fts_meta_accumulate (k : nat) (docs words : Z) : M hdl unit :=
  modify (map_trx (fun t => set_meta (accumulate (fts_meta_pending t) (cf sh) k docs words) true t)).

Definition fts_meta_key (k : nat) : bytes := RowFormat.KEY_NS_META :: FTS_META_KEY_TAG ++ [u8 (Z.of_nat k)].

Definition fts_load_meta (t : txn) (c : bytes) (k : nat) : M E (tdb_rc * (Z * Z)) :=
  r <-- txn_get t c (fts_meta_key k);
  ret (match r with
       | inr v => (TDB_SUCCESS, match FtsText.decode_meta_value v with Some p => p | None => (0, 0) end)
       | inl rc => (rc, (0, 0))
       end).

Definition fts_update_meta (t : txn) (m : fts_meta_delta_t) : M E tdb_rc :=
  r <-- fts_load_meta t (data_cf m) (keynr m);
  let '(rrc, (total_docs, total_words)) := r in
  if negb (tdb_ok rrc) && negb (bool_decide (rrc = TDB_ERR_NOT_FOUND)) then ret rrc
  else txn_put t (data_cf m) (fts_meta_key (keynr m))
         (FtsText.encode_meta_value (Z.max 0 (total_docs + doc_delta m)) (Z.max 0 (total_words + word_delta m))).

Definition clear_meta : M hdl unit := modify (map_trx (set_meta [] false)).

Definition flush_trx_fts_meta_pending : M hdl tdb_rc :=
  trx <-- gets cached_trx_;
  match trx with
  | None => ret TDB_SUCCESS
  | Some t =>
      match trx_txn t, fts_meta_pending t with
      | Some tx, (_ :: _) as pend =>
          if fts_meta_dirty t then
            r <-- for_each pend (fun m =>
              rc <-- on_lib (fts_update_meta tx m); ret (if tdb_ok rc then None else Some rc));
            clear_meta;; ret (default TDB_SUCCESS r)
          else clear_meta;; ret TDB_SUCCESS
      | _, _ => clear_meta;; ret TDB_SUCCESS
      end
  end.

(** ** Indexes *)

Definition key_info_of (i : nat) : KEY := key_at (key_info (codec sh)) i.
Definition num_keys : nat := length (key_info (codec sh)).
Definition kind_of (i : nat) : index_kind := default regular (idx_kind sh !! i).
Definition is_unique (i : nat) : bool := default false (nosame sh !! i).
Definition num_secondary_indexes : Z := zlen (omap id (idx_cfs sh)).

(** The family of secondary index [i]; [None] where the loops [continue]. *)
Definition secondary (i : nat) : option bytes :=
  if has_user_pk (codec sh) && Nat.eqb i (pk_index (codec sh)) then None else mjoin (idx_cfs sh !! i).

(** [fts_extract_and_tokenize]: the non-null columns, joined by a space unless the text so far is empty. *)
Definition fts_extract_and_tokenize (ki : KEY) (r : record) : list bytes :=
  let doc := fold_left (fun doc kp =>
    let f := field kp in
    if is_null f r then doc
    else (if zlen doc =? 0 then doc else doc ++ [32]) ++ val_str f (slot f r)) (key_part ki) [] in
  FtsText.tokenize (fts_opts sh) doc.

(** [tf_map[tok]++] over the tokens, in [uint16]. *)
Definition term_freqs (tokens : list bytes) : gmap bytes Z :=
  foldr (fun tok m => <[tok := u16 (default 0 (m !! tok) + 1)]> m) ∅ tokens.

Definition doc_words (tokens : list bytes) : Z := u32 (zlen tokens).

Definition spatial_entry (ki : KEY) (r : record) (pk : bytes) : option (bytes * bytes) :=
  match key_part ki with
  | [] => None
  | kp :: _ =>
      let geom := val_str (field kp) (slot (field kp) r) in
      if zlen geom <=? 0 then None
      else match spatial_compute_mbr geom with
           | Some m => Some (RowFormat.encode_be64 (centroid_hilbert m) ++ pk, spatial_build_value m)
           | None => None
           end
  end.

Definition put (t : txn) (c k v : bytes) : M hdl tdb_rc := on_lib (txn_put t c k v).

Definition tdb_txn_delete_cf_blocking (t : txn) (c k : bytes) (use_single_delete : bool) : M hdl tdb_rc :=
  on_lib (if use_single_delete then txn_single_delete t c k else txn_delete t c k).

Definition puts (t : txn) (c : bytes) (kvs : list (bytes * bytes)) : M hdl (option tdb_rc) :=
  for_each kvs (fun kv => rc <-- put t c kv.1 kv.2; ret (if tdb_ok rc then None else Some rc)).

(** Single deletes whose result is not looked at. *)
Definition unchecked_deletes (t : txn) (c : bytes) (ks : list bytes) : M hdl (option tdb_rc) :=
  for_each ks (fun k => rc <-- tdb_txn_delete_cf_blocking t c k true; ret None).

Definition postings (tf : gmap bytes Z) (words : Z) (pk : bytes) : list (bytes * bytes) :=
  map (fun '(term, n) => (FtsText.build_key term pk, FtsText.encode_entry_value n words)) (map_to_list tf).

(** ** Shared steps *)

Definition ensure_stmt_txn : M hdl ha_code :=
  t <-- gets stmt_txn;
  match t with
  | Some _ => ret HA_OK
  | None =>
      r <-- on_lib open_stmt_txn;
      match r with
      | None => ret HA_ERR_OUT_OF_MEM
      | Some t => modify (set_txn (Some t));; ret HA_OK
      end
  end.

Definition set_dirty (b : bool) (t : trx_t) : trx_t :=
  {| trx_txn := trx_txn t; dirty := b; fts_meta_pending := fts_meta_pending t; fts_meta_dirty := fts_meta_dirty t;
     stmt_savepoint_active := stmt_savepoint_active t; stmt_fts_snapshot := stmt_fts_snapshot t;
     txn_generation := txn_generation t; mod_tables := mod_tables t; mod_tables_generation := mod_tables_generation t;
     needs_reset := needs_reset t; isolation_level := isolation_level t;
     stmt_fts_dirty_snapshot := stmt_fts_dirty_snapshot t; prepared_xid := prepared_xid t;
     prepared_mod_tables := prepared_mod_tables t |}.

Definition set_mod_tables (l : list (bytes * bytes)) (t : trx_t) : trx_t :=
  {| trx_txn := trx_txn t; dirty := dirty t; fts_meta_pending := fts_meta_pending t;
     fts_meta_dirty := fts_meta_dirty t; stmt_savepoint_active := stmt_savepoint_active t;
     stmt_fts_snapshot := stmt_fts_snapshot t; txn_generation := txn_generation t; mod_tables := l;
     mod_tables_generation := txn_generation t;
     needs_reset := needs_reset t; isolation_level := isolation_level t;
     stmt_fts_dirty_snapshot := stmt_fts_dirty_snapshot t; prepared_xid := prepared_xid t;
     prepared_mod_tables := prepared_mod_tables t |}.

Definition note_modified_table : M hdl unit :=
  trx <-- gets cached_trx_;
  noted <-- gets mod_table_noted_generation_;
  match trx with
  | None => ret tt
  | Some t =>
      if noted =? txn_generation t then ret tt
      else
        modify (set_noted (txn_generation t));;
        let l := if mod_tables_generation t =? txn_generation t then mod_tables t else [] in
        let name := table_name sh in
        let l := if (zlen name.1 =? 0) || (zlen name.2 =? 0) || bool_decide (name ∈ l) then l else l ++ [name] in
        modify (map_trx (set_mod_tables l))
  end.

(** The statement is about to write. *)
Definition mark_dirty : M hdl unit :=
  modify set_stmt_dirty;; modify (map_trx (set_dirty true));; note_modified_table.

(** [probe_pk_exists]: [inl] is an error. *)
Definition probe_pk_exists (dk : bytes) : M hdl (tdb_rc + bool) :=
  st <-- gets stmt_txn;
  trx <-- gets cached_trx_;
  let probe_txn := match trx ≫= trx_txn with Some t => Some t | None => st end in
  match probe_txn with
  | None => ret (inl (TDB_ERR 0))
  | Some t =>
      g <-- on_lib (txn_contains t (cf sh) dk);
      ret (match g with TDB_SUCCESS => inr true | TDB_ERR_NOT_FOUND => inr false | rc => inl rc end)
  end.

(** [memcpy(dup_ref, ...)] over the bytes it held. *)
Definition dup (i : nat) (ref : bytes) : M hdl ha_code :=
  old <-- gets dup_ref; modify (set_dup i (ref ++ drop (length ref) old));; ret HA_ERR_FOUND_DUPP_KEY.

Definition any_null (ki : KEY) (r : record) : bool :=
  existsb (fun kp => is_nullable (field kp) && is_null (field kp) r) (key_part ki).

Definition full_key (i : nat) (r : record) : bytes :=
  make_comparable_key (key_info_of i) r (length (key_part (key_info_of i))) junk None.

(** The seek of the duplicate check: the suffix of the first entry under the prefix, if there is one. *)
Definition find_duplicate (t : txn) (c prefix : bytes) : M hdl (tdb_rc + option bytes) :=
  r <-- on_lib (iter_seek t c prefix);
  ret (match r with
       | inl rc => inl rc
       | inr (Some (inr fk)) =>
           inr (if bool_decide (prefix `prefix_of` fk) then Some (drop (length prefix) fk) else None)
       | inr _ => inr None
       end).

Definition dup_on_index (i : nat) (suffix : bytes) : M hdl ha_code :=
  if (0 <? zlen suffix) && (zlen suffix <=? ref_length sh) then dup i suffix else dup i [].

(** ** Mid-statement commits *)

Definition set_bulk_ops (n : Z) (b : bulk) : bulk :=
  {| in_bulk_insert_ := in_bulk_insert_ b; in_bulk_update_ := in_bulk_update_ b; in_bulk_delete_ := in_bulk_delete_ b;
     bulk_insert_ops_ := n; bulk_delete_rows_ := bulk_delete_rows_ b; bulk_delete_min_pk_ := bulk_delete_min_pk_ b;
     bulk_delete_max_pk_ := bulk_delete_max_pk_ b; bulk_delete_defer_ := bulk_delete_defer_ b;
     bulk_delete_keys_ := bulk_delete_keys_ b |}.

(** The transaction object a batch boundary leaves, with the statement savepoint disarmed. *)
Definition after_batch (tx : option txn) (d : bool) (bump : bool) (t : trx_t) : trx_t :=
  {| trx_txn := tx; dirty := d; fts_meta_pending := fts_meta_pending t; fts_meta_dirty := fts_meta_dirty t;
     stmt_savepoint_active := false; stmt_fts_snapshot := [];
     txn_generation := if bump then u64 (txn_generation t + 1) else txn_generation t;
     mod_tables := mod_tables t; mod_tables_generation := mod_tables_generation t;
     needs_reset := needs_reset t; isolation_level := isolation_level t;
     stmt_fts_dirty_snapshot := stmt_fts_dirty_snapshot t; prepared_xid := prepared_xid t;
     prepared_mod_tables := prepared_mod_tables t |}.

Definition set_trx_txn (tx : option txn) (t : trx_t) : trx_t :=
  {| trx_txn := tx; dirty := dirty t; fts_meta_pending := fts_meta_pending t; fts_meta_dirty := fts_meta_dirty t;
     stmt_savepoint_active := stmt_savepoint_active t; stmt_fts_snapshot := stmt_fts_snapshot t;
     txn_generation := txn_generation t; mod_tables := mod_tables t; mod_tables_generation := mod_tables_generation t;
     needs_reset := needs_reset t; isolation_level := isolation_level t;
     stmt_fts_dirty_snapshot := stmt_fts_dirty_snapshot t; prepared_xid := prepared_xid t;
     prepared_mod_tables := prepared_mod_tables t |}.

Definition maybe_bulk_commit : M hdl ha_code :=
  trx <-- gets cached_trx_;
  match trx ≫= trx_txn with
  | None => ret HA_OK
  | Some t =>
      frc <-- flush_trx_fts_meta_pending;
      if negb (tdb_ok frc) then ret (tdb_rc_to_ha frc)
      else
        crc <-- on_lib (txn_commit t);
        if negb (tdb_ok crc) then
          on_lib (txn_rollback t);;
          modify (map_trx (set_trx_txn None));;
          b <-- on_lib txn_begin;
          match b with
          | inl brc => ret (tdb_rc_to_ha brc)
          | inr t' =>
              d <-- gets (fun h => from_option dirty false (cached_trx_ h));
              modify (map_trx (after_batch (Some t') d true));;
              modify (set_scan (Some t'));;
              ret (tdb_rc_to_ha crc)
          end
        else
          rrc <-- on_lib (txn_reset t);
          next <-- (if tdb_ok rrc then ret (inr t)
                    else modify (map_trx (set_trx_txn None));; on_lib txn_begin);
          match next with
          | inl rc => ret (tdb_rc_to_ha rc)
          | inr t' =>
              modify (map_trx (after_batch (Some t') false true));;
              modify (set_scan (Some t'));;
              ret HA_OK
          end
  end.

Definition bulk_flush_if_threshold (weight : Z) : M hdl ha_code :=
  modify (map_bulk (fun b => set_bulk_ops (u64 (bulk_insert_ops_ b + weight)) b));;
  ops <-- gets (fun h => bulk_insert_ops_ (bulk_of h));
  if TIDESDB_BULK_INSERT_BATCH_OPS <=? ops then
    mrc <-- maybe_bulk_commit;
    if bool_decide (mrc = HA_OK) then modify (map_bulk (set_bulk_ops 0));; ret HA_OK else ret mrc
  else ret HA_OK.

(** ** INSERT *)

(** The record after the server's auto-increment, and whether the primary key was generated. *)
Definition write_row_auto_increment (buf : record) : M hdl (ha_code * record * bool) :=
  let generated := (next_number buf =? 0) && has_user_pk (codec sh) &&
    Nat.eqb (length (key_part (key_info_of (pk_index (codec sh))))) 1 in
  r <-- on_lib (update_auto_increment buf);
  let '(ai_err, buf) := r in
  if negb (ai_err =? 0) then ret (server_code ai_err, buf, generated)
  else
    modify (fun h => set_counters (next_row_id h) (Z.max (auto_inc_val h) (u64 (next_number buf))) h);;
    ret (HA_OK, buf, generated).

Definition write_build_pk (buf : record) : M hdl bytes :=
  if has_user_pk (codec sh) then cur <-- gets current_pk; ret (pk_from_record (codec sh) cur buf junk)
  else
    row_id <-- gets next_row_id;
    modify (fun h => set_counters (u64 (next_row_id h + 1)) (auto_inc_val h) h);;
    ret (RowFormat.encode_be64 row_id).

Definition write_check_pk_unique (dk pk : bytes) (skip_pk_unique : bool) : M hdl ha_code :=
  if negb (has_user_pk (codec sh)) || skip_pk_unique || (write_can_replace_ ses && (num_secondary_indexes =? 0))
  then ret HA_OK
  else
    ex <-- probe_pk_exists dk;
    match ex with
    | inl rc => ret (tdb_rc_to_ha rc)
    | inr true => dup (pk_index (codec sh)) pk
    | inr false => ret HA_OK
    end.

Definition write_check_secondary_unique (buf : record) (t : txn) : M hdl ha_code :=
  if negb ((0 <? num_secondary_indexes) && negb (cached_skip_unique_ ses)) then ret HA_OK
  else
    r <-- for_each (seq 0 num_keys) (fun i =>
      match secondary i with
      | None => ret None
      | Some c =>
          if negb (bool_decide (kind_of i = regular)) || negb (is_unique i) || any_null (key_info_of i) buf
          then ret None
          else
            d <-- find_duplicate t c (full_key i buf);
            match d with
            | inl rc => ret (Some (tdb_rc_to_ha rc))
            | inr None => ret None
            | inr (Some suffix) => rc <-- dup_on_index i suffix; ret (Some rc)
            end
      end);
    ret (default HA_OK r).

Definition write_fts_index (t : txn) (i : nat) (c pk : bytes) (buf : record) : M hdl (option tdb_rc) :=
  let fts_tokens := fts_extract_and_tokenize (key_info_of i) buf in
  let word_count := doc_words fts_tokens in
  r <-- puts t c (postings (term_freqs fts_tokens) word_count pk);
  match r with
  | Some rc => ret (Some rc)
  | None => trx_fts_meta_accumulate i FTS_DOC_DELTA_ADD word_count;; ret None
  end.

Definition write_maintain_indexes (buf : record) (t : txn) (pk : bytes) : M hdl tdb_rc :=
  if num_secondary_indexes =? 0 then ret TDB_SUCCESS
  else
    r <-- for_each (seq 0 num_keys) (fun i =>
      match secondary i with
      | None => ret None
      | Some c =>
          match kind_of i with
          | fulltext => write_fts_index t i c pk buf
          | spatial => puts t c (option_list (spatial_entry (key_info_of i) buf pk))
          | regular =>
              cur <-- gets current_pk;
              rc <-- put t c (sec_idx_key (codec sh) cur i buf junk) tdb_empty_val;
              ret (if tdb_ok rc then None else Some rc)
          end
      end);
    ret (default TDB_SUCCESS r).

(** From the transaction to the row's puts; [pk_auto_generated] is known. *)
Definition write_row_body (buf : record) (pk row_data : bytes) (pk_auto_generated : bool) (t : txn) : M hdl ha_code :=
  let dk := RowFormat.build_data_key pk in
  mark_dirty;;
  let skip_pk_unique := cached_skip_unique_ ses || pk_auto_generated in
  prc <-- write_check_pk_unique dk pk skip_pk_unique;
  if negb (bool_decide (prc = HA_OK)) then ret prc
  else
    src <-- write_check_secondary_unique buf t;
    if negb (bool_decide (src = HA_OK)) then ret src
    else
      frc <-- on_lib (fk_check_child t buf);
      if negb (frc =? 0) then ret (HA_SERVER frc)
      else
        rc <-- put t (cf sh) dk row_data;
        if negb (tdb_ok rc) then ret (tdb_rc_to_ha rc)
        else
          modify (set_pk pk);;
          rc <-- write_maintain_indexes buf t pk;
          if negb (tdb_ok rc) then ret (tdb_rc_to_ha rc)
          else
            bulk_insert <-- gets (fun h => in_bulk_insert_ (bulk_of h));
            if bulk_insert then bulk_flush_if_threshold (1 + num_secondary_indexes) else ret HA_OK.

(** [write_row]; [in_record0] says that the row is in [record[0]]. *)
Definition write_row (buf : record) (in_record0 : bool) : M hdl ha_code :=
  ai <-- (if has_next_number sh && in_record0 then write_row_auto_increment buf else ret (HA_OK, buf, false));
  let '(ai_err, buf, pk_auto_generated) := ai in
  if negb (bool_decide (ai_err = HA_OK)) then ret ai_err
  else
    pk <-- write_build_pk buf;
    row_data <-- on_lib (serialize_row buf);
    if encrypted sh && (zlen row_data =? 0) then ret HA_ERR_GENERIC
    else
      erc <-- ensure_stmt_txn;
      if negb (bool_decide (erc = HA_OK)) then ret erc
      else
        st <-- gets stmt_txn;
        match st with
        | None => ret HA_ERR_GENERIC
        | Some t => write_row_body buf pk row_data pk_auto_generated t
        end.

(** ** DELETE *)

Definition delete_maintain_indexes (buf : record) (t : txn) : M hdl tdb_rc :=
  if num_secondary_indexes =? 0 then ret TDB_SUCCESS
  else
    r <-- for_each (seq 0 num_keys) (fun i =>
      match secondary i with
      | None => ret None
      | Some c =>
          cur <-- gets current_pk;
          match kind_of i with
          | fulltext =>
              let fts_tokens := fts_extract_and_tokenize (key_info_of i) buf in
              let word_count := doc_words fts_tokens in
              r <-- unchecked_deletes t c (map fst (postings (term_freqs fts_tokens) word_count cur));
              trx_fts_meta_accumulate i FTS_DOC_DELTA_DEL (- word_count);; ret None
          | spatial => unchecked_deletes t c (map fst (option_list (spatial_entry (key_info_of i) buf cur)))
          | regular =>
              rc <-- tdb_txn_delete_cf_blocking t c (sec_idx_key (codec sh) cur i buf junk) true;
              ret (if tdb_ok rc then None else Some rc)
          end
      end);
    ret (default TDB_SUCCESS r).

Definition set_delete_state (rows : Z) (lo hi : bytes) (defer : bool) (ks : list bytes) (b : bulk) : bulk :=
  {| in_bulk_insert_ := in_bulk_insert_ b; in_bulk_update_ := in_bulk_update_ b; in_bulk_delete_ := in_bulk_delete_ b;
     bulk_insert_ops_ := bulk_insert_ops_ b; bulk_delete_rows_ := rows; bulk_delete_min_pk_ := lo;
     bulk_delete_max_pk_ := hi; bulk_delete_defer_ := defer; bulk_delete_keys_ := ks |}.

Definition set_keys (ks : list bytes) (b : bulk) : bulk :=
  set_delete_state (bulk_delete_rows_ b) (bulk_delete_min_pk_ b) (bulk_delete_max_pk_ b) (bulk_delete_defer_ b) ks b.
Definition stop_deferring (b : bulk) : bulk :=
  set_delete_state (bulk_delete_rows_ b) (bulk_delete_min_pk_ b) (bulk_delete_max_pk_ b) false (bulk_delete_keys_ b) b.

(** The range of data keys the bulk delete has touched. *)
Definition track_range (dk : bytes) (b : bulk) : bulk :=
  let first := bulk_delete_rows_ b =? 0 in
  let lo := if first || bool_decide (bytes_cmp dk (bulk_delete_min_pk_ b) = Lt) then dk else bulk_delete_min_pk_ b in
  let hi := if first || bool_decide (bytes_cmp (bulk_delete_max_pk_ b) dk = Lt) then dk else bulk_delete_max_pk_ b in
  set_delete_state (u64 (bulk_delete_rows_ b + 1)) lo hi (bulk_delete_defer_ b) (bulk_delete_keys_ b) b.

Definition bulk_delete_flush_buffered (t : txn) : M hdl ha_code :=
  ks <-- gets (fun h => bulk_delete_keys_ (bulk_of h));
  r <-- for_each ks (fun k =>
    rc <-- tdb_txn_delete_cf_blocking t (cf sh) k (cached_single_delete_primary_ ses);
    ret (if tdb_ok rc then None else Some (tdb_rc_to_ha rc)));
  match r with
  | Some code => ret code
  | None => modify (map_bulk (set_keys []));; ret HA_OK
  end.

(** The primary row: buffered by a deferring bulk delete, else deleted now. *)
Definition delete_primary (t : txn) (dk : bytes) : M hdl ha_code :=
  b <-- gets bulk_of;
  if bulk_delete_defer_ b then
    modify (map_bulk (set_keys (bulk_delete_keys_ b ++ [dk])));;
    if TIDESDB_BULK_DELETE_DEFER_CAP <=? zlen (bulk_delete_keys_ b ++ [dk]) then
      frc <-- bulk_delete_flush_buffered t;
      if bool_decide (frc = HA_OK) then modify (map_bulk stop_deferring);; ret HA_OK else ret frc
    else ret HA_OK
  else
    rc <-- tdb_txn_delete_cf_blocking t (cf sh) dk (cached_single_delete_primary_ ses);
    ret (tdb_rc_to_ha rc).

Definition delete_row (buf : record) : M hdl ha_code :=
  erc <-- ensure_stmt_txn;
  if negb (bool_decide (erc = HA_OK)) then ret erc
  else
    st <-- gets stmt_txn;
    match st with
    | None => ret HA_ERR_GENERIC
    | Some t =>
        mark_dirty;;
        frc <-- on_lib (fk_enforce_parent_delete t buf);
        if negb (frc =? 0) then ret (HA_SERVER frc)
        else
          cur <-- gets current_pk;
          let dk := RowFormat.build_data_key cur in
          b <-- gets bulk_of;
          (if in_bulk_delete_ b && (bulk_delete_defer_ b || (0 <? cached_compact_after_range_delete_min_rows_ ses))
           then modify (map_bulk (track_range dk)) else ret tt);;
          rc <-- delete_primary t dk;
          if negb (bool_decide (rc = HA_OK)) then ret rc
          else
            rc <-- delete_maintain_indexes buf t;
            if negb (tdb_ok rc) then ret (tdb_rc_to_ha rc)
            else
              b <-- gets bulk_of;
              if in_bulk_delete_ b && negb (bulk_delete_defer_ b)
              then bulk_flush_if_threshold (1 + num_secondary_indexes) else ret HA_OK
    end.

(** ** Bulk statements *)

Definition start_bulk_insert (b : bulk) : bulk :=
  {| in_bulk_insert_ := true; in_bulk_update_ := in_bulk_update_ b; in_bulk_delete_ := in_bulk_delete_ b;
     bulk_insert_ops_ := 0; bulk_delete_rows_ := bulk_delete_rows_ b; bulk_delete_min_pk_ := bulk_delete_min_pk_ b;
     bulk_delete_max_pk_ := bulk_delete_max_pk_ b; bulk_delete_defer_ := bulk_delete_defer_ b;
     bulk_delete_keys_ := bulk_delete_keys_ b |}.

Definition end_bulk_insert (b : bulk) : bulk :=
  {| in_bulk_insert_ := false; in_bulk_update_ := in_bulk_update_ b; in_bulk_delete_ := in_bulk_delete_ b;
     bulk_insert_ops_ := bulk_insert_ops_ b; bulk_delete_rows_ := bulk_delete_rows_ b;
     bulk_delete_min_pk_ := bulk_delete_min_pk_ b; bulk_delete_max_pk_ := bulk_delete_max_pk_ b;
     bulk_delete_defer_ := bulk_delete_defer_ b; bulk_delete_keys_ := bulk_delete_keys_ b |}.

Definition start_bulk_delete (b : bulk) : bulk :=
  {| in_bulk_insert_ := in_bulk_insert_ b; in_bulk_update_ := in_bulk_update_ b; in_bulk_delete_ := true;
     bulk_insert_ops_ := 0; bulk_delete_rows_ := 0; bulk_delete_min_pk_ := []; bulk_delete_max_pk_ := [];
     bulk_delete_defer_ := has_user_pk (codec sh) && negb (triggers sh); bulk_delete_keys_ := [] |}.

(** [data_key_successor]: the last byte below 0xFF is incremented and the rest dropped; [rev_in] is the
    key reversed, as the loop walks it from its end. *)
Fixpoint successor_rev (rev_in : bytes) : option bytes :=
  match rev_in with
  | [] => None
  | c :: more => if negb (c =? KEY_INF_HI_BYTE) then Some (u8 (c + 1) :: more) else successor_rev more
  end.
Definition data_key_successor (k : bytes) : option bytes := reverse <$> successor_rev (reverse k).

(** A key that cannot be read is not counted. *)
Definition counted (o : tdb_rc + bytes) : bool :=
  match o with inr k => RowFormat.is_data_key k | inl _ => false end.

Definition count_live_data_keys (t : txn) (c lo hi : bytes) : M E (tdb_rc + Z) :=
  r <-- iter_range t c lo hi;
  ret (match r with
       | inl rc => inl rc
       | inr l => inr (zlen (filter (fun o => counted o = true) l))
       end).

(** Whether the run was turned into one range tombstone. *)
Definition try_range_tombstone (t : txn) : M hdl bool :=
  b <-- gets bulk_of;
  let ks := bulk_delete_keys_ b in
  let lo := bulk_delete_min_pk_ b in
  if (TIDESDB_BULK_DELETE_MIN_RANGE <=? zlen ks) && negb (zlen lo =? 0) && negb (zlen (bulk_delete_max_pk_ b) =? 0) then
    match data_key_successor (bulk_delete_max_pk_ b) with
    | None => ret false
    | Some hi =>
        n <-- on_lib (count_live_data_keys t (cf sh) lo hi);
        match n with
        | inl _ => ret false
        | inr range_live =>
            if range_live =? zlen ks then
              rc <-- on_lib (txn_delete_range t (cf sh) lo hi);
              if tdb_ok rc then
                modify set_stmt_dirty;; modify (map_trx (set_dirty true));;
                modify (map_bulk (set_keys []));; ret true
              else ret false
            else ret false
        end
    end
  else ret false.

Definition leave_bulk_delete (b : bulk) : bulk :=
  {| in_bulk_insert_ := in_bulk_insert_ b; in_bulk_update_ := in_bulk_update_ b; in_bulk_delete_ := false;
     bulk_insert_ops_ := bulk_insert_ops_ b; bulk_delete_rows_ := bulk_delete_rows_ b;
     bulk_delete_min_pk_ := bulk_delete_min_pk_ b; bulk_delete_max_pk_ := bulk_delete_max_pk_ b;
     bulk_delete_defer_ := bulk_delete_defer_ b; bulk_delete_keys_ := bulk_delete_keys_ b |}.

(** [end_bulk_delete]; the compaction request at its end changes no contents. *)
Definition end_bulk_delete : M hdl ha_code :=
  modify (map_bulk leave_bulk_delete);;
  b <-- gets bulk_of;
  code <--
    (if bulk_delete_defer_ b && negb (zlen (bulk_delete_keys_ b) =? 0) then
       erc <-- ensure_stmt_txn;
       if negb (bool_decide (erc = HA_OK)) then ret erc
       else
         st <-- gets stmt_txn;
         match st with
         | None => ret HA_ERR_GENERIC
         | Some t => ranged <-- try_range_tombstone t; if ranged then ret HA_OK else bulk_delete_flush_buffered t
         end
     else ret HA_OK);
  if negb (bool_decide (code = HA_OK)) then ret code
  else modify (map_bulk (fun b => set_delete_state 0 [] [] false [] b));; ret HA_OK.

(** ** UPDATE *)

Definition update_check_unique (old_data new_data : record) (new_pk : bytes) (pk_changed : bool) (t : txn) :
    M hdl ha_code :=
  pk <-- (if pk_changed && has_user_pk (codec sh) then
            ex <-- probe_pk_exists (RowFormat.build_data_key new_pk);
            match ex with
            | inl rc => ret (tdb_rc_to_ha rc)
            | inr true => dup (pk_index (codec sh)) new_pk
            | inr false => ret HA_OK
            end
          else ret HA_OK);
  if negb (bool_decide (pk = HA_OK)) then ret pk
  else if num_secondary_indexes =? 0 then ret HA_OK
  else
    r <-- for_each (seq 0 num_keys) (fun i =>
      match secondary i with
      | None => ret None
      | Some c =>
          if negb (bool_decide (kind_of i = regular)) || negb (is_unique i) || any_null (key_info_of i) new_data ||
             bool_decide (full_key i old_data = full_key i new_data)
          then ret None
          else
            d <-- find_duplicate t c (full_key i new_data);
            match d with
            | inl rc => ret (Some (tdb_rc_to_ha rc))
            | inr None => ret None
            | inr (Some suffix) => rc <-- dup_on_index i suffix; ret (Some rc)
            end
      end);
    ret (default HA_OK r).

(** Whether a part of the key is among the columns the statement writes. *)
Definition key_written (ki : KEY) : bool :=
  existsb (fun kp => bool_decide (field_index (field kp) ∈ write_set ses)) (key_part ki).

Definition need_put (old_tf : gmap bytes Z) (doc_len_changed : bool) (tn : bytes * Z) : bool :=
  match old_tf !! tn.1 with None => true | Some old => doc_len_changed || negb (old =? tn.2) end.

(** The postings of an unchanged row: terms that went are deleted, those that are new or whose stored
    counts change are put. *)
Definition update_fts_index_diff (t : txn) (c : bytes) (old_tf new_tf : gmap bytes Z) (old_pk new_pk : bytes)
    (new_wc : Z) (doc_len_changed : bool) : M hdl (option tdb_rc) :=
  r <-- unchecked_deletes t c (map (fun '(term, _) => FtsText.build_key term old_pk)
          (filter (fun tn => new_tf !! tn.1 = None) (map_to_list old_tf)));
  puts t c (map (fun '(term, n) => (FtsText.build_key term new_pk, FtsText.encode_entry_value n new_wc))
    (filter (fun tn => need_put old_tf doc_len_changed tn = true) (map_to_list new_tf))).

Definition update_fts_index (t : txn) (i : nat) (c : bytes) (old_data new_data : record) (old_pk new_pk : bytes)
    (pk_changed : bool) : M hdl (option tdb_rc) :=
  if negb (key_written (key_info_of i)) then ret None
  else
    let old_tokens := fts_extract_and_tokenize (key_info_of i) old_data in
    let new_tokens := fts_extract_and_tokenize (key_info_of i) new_data in
    let old_wc := doc_words old_tokens in
    let new_wc := doc_words new_tokens in
    r <-- (if pk_changed then
             unchecked_deletes t c (map fst (postings (term_freqs old_tokens) old_wc old_pk));;
             puts t c (postings (term_freqs new_tokens) new_wc new_pk)
           else
             update_fts_index_diff t c (term_freqs old_tokens) (term_freqs new_tokens) old_pk new_pk new_wc
               (negb (old_wc =? new_wc)));
    match r with
    | Some rc => ret (Some rc)
    | None =>
        if new_wc - old_wc =? 0 then ret None
        else trx_fts_meta_accumulate i 0 (new_wc - old_wc);; ret None
    end.

Definition first_part_written (ki : KEY) : bool :=
  match key_part ki with kp :: _ => bool_decide (field_index (field kp) ∈ write_set ses) | [] => false end.

Definition update_spatial_index (t : txn) (i : nat) (c : bytes) (old_data new_data : record) (old_pk new_pk : bytes) :
    M hdl (option tdb_rc) :=
  if negb (first_part_written (key_info_of i)) then ret None
  else
    unchecked_deletes t c (map fst (option_list (spatial_entry (key_info_of i) old_data old_pk)));;
    puts t c (option_list (spatial_entry (key_info_of i) new_data new_pk)).

Definition update_regular_index (t : txn) (i : nat) (c : bytes) (old_data new_data : record) (old_pk new_pk : bytes)
    (pk_changed : bool) : M hdl (option tdb_rc) :=
  if negb pk_changed && negb (key_written (key_info_of i)) then ret None
  else
    let old_ik := full_key i old_data ++ old_pk in
    modify (set_pk new_pk);;
    let new_ik := sec_idx_key (codec sh) new_pk i new_data junk in
    if bool_decide (old_ik = new_ik) then ret None
    else
      rc <-- tdb_txn_delete_cf_blocking t c old_ik true;
      if negb (tdb_ok rc) then ret (Some rc)
      else rc <-- put t c new_ik tdb_empty_val; ret (if tdb_ok rc then None else Some rc).

Definition update_rewrite_primary (t : txn) (old_pk new_pk row : bytes) (pk_changed : bool) : M hdl tdb_rc :=
  rc <-- (if pk_changed then
            tdb_txn_delete_cf_blocking t (cf sh) (RowFormat.build_data_key old_pk) (cached_single_delete_primary_ ses)
          else ret TDB_SUCCESS);
  if negb (tdb_ok rc) then ret rc else put t (cf sh) (RowFormat.build_data_key new_pk) row.

Definition update_maintain_indexes (t : txn) (old_data new_data : record) (old_pk new_pk : bytes) (pk_changed : bool) :
    M hdl tdb_rc :=
  if num_secondary_indexes =? 0 then ret TDB_SUCCESS
  else
    r <-- for_each (seq 0 num_keys) (fun i =>
      match secondary i with
      | None => ret None
      | Some c =>
          match kind_of i with
          | fulltext => update_fts_index t i c old_data new_data old_pk new_pk pk_changed
          | spatial => update_spatial_index t i c old_data new_data old_pk new_pk
          | regular => update_regular_index t i c old_data new_data old_pk new_pk pk_changed
          end
      end);
    ret (default TDB_SUCCESS r).

Definition update_row_body (old_data new_data : record) (old_pk new_pk new_row : bytes) (t : txn) : M hdl ha_code :=
  mark_dirty;;
  let pk_changed := negb (bool_decide (old_pk = new_pk)) in
  uc <-- (if cached_skip_unique_ ses then ret HA_OK else update_check_unique old_data new_data new_pk pk_changed t);
  if negb (bool_decide (uc = HA_OK)) then ret uc
  else
    frc <-- on_lib (fk_check_child t new_data);
    if negb (frc =? 0) then ret (HA_SERVER frc)
    else
      frc <-- on_lib (fk_enforce_parent_update t old_data new_data);
      if negb (frc =? 0) then ret (HA_SERVER frc)
      else
        rc <-- update_rewrite_primary t old_pk new_pk new_row pk_changed;
        if negb (tdb_ok rc) then ret (tdb_rc_to_ha rc)
        else
          rc <-- update_maintain_indexes t old_data new_data old_pk new_pk pk_changed;
          if negb (tdb_ok rc) then ret (tdb_rc_to_ha rc)
          else
            modify (set_pk new_pk);;
            b <-- gets bulk_of;
            if in_bulk_update_ b then bulk_flush_if_threshold (1 + 2 * num_secondary_indexes) else ret HA_OK.

Definition update_row (old_data new_data : record) : M hdl ha_code :=
  old_pk <-- gets current_pk;
  let new_pk := pk_from_record (codec sh) old_pk new_data junk in
  new_row <-- on_lib (serialize_row new_data);
  if encrypted sh && (zlen new_row =? 0) then ret HA_ERR_GENERIC
  else
    erc <-- ensure_stmt_txn;
    if negb (bool_decide (erc = HA_OK)) then ret erc
    else
      st <-- gets stmt_txn;
      match st with
      | None => ret HA_ERR_GENERIC
      | Some t => update_row_body old_data new_data old_pk new_pk new_row t
      end.

(** [start_bulk_update] declines the server's batched path; the other hooks of that path buffer
    nothing.  [dup_key_found] is the count reported beside the result. *)
Definition start_bulk_update : bool := true.

Definition end_bulk_update (b : bulk) : bulk :=
  {| in_bulk_insert_ := in_bulk_insert_ b; in_bulk_update_ := false; in_bulk_delete_ := in_bulk_delete_ b;
     bulk_insert_ops_ := bulk_insert_ops_ b; bulk_delete_rows_ := bulk_delete_rows_ b;
     bulk_delete_min_pk_ := bulk_delete_min_pk_ b; bulk_delete_max_pk_ := bulk_delete_max_pk_ b;
     bulk_delete_defer_ := bulk_delete_defer_ b; bulk_delete_keys_ := bulk_delete_keys_ b |}.

Definition exec_bulk_update : M hdl (Z * ha_code) := ret (0, HA_OK).

Definition bulk_update_row (old_data new_data : record) : M hdl (Z * ha_code) :=
  rc <-- update_row old_data new_data; ret (0, rc).

End code.
End Dml.
