(* ===== verification/TableRep.v ===== *)
(** * The abstract table

    The abstract state of a table is a finite map from primary keys to records.  [table_rep] says that
    the contents a transaction sees represent it: the data family holds a serialised row for each
    record, and each index family holds exactly the entries of these records.  The lemmas say how puts
    and deletes of a row's entries move from one represented table to the next; [DmlSpec] uses them to
    verify the row operations. *)
From S2P Require Import Prelude Effects TidesDb RowDb RowFormat FtsText Table KeyCodec Dml.
Import Table KeyCodec Dml.
#[local] Open Scope Z_scope.
#[local] Open Scope tdb_scope.

(** ** Lemmas: entries of rows in a family *)

(** A family holds exactly the entries [ent] of the rows. *)
Definition holds_entries (c : bytes) (ent : record -> bytes -> list (bytes * bytes)) (rows : gmap bytes record)
    (v : store) : Prop :=
  forall k x, db_get c k v = Some x <-> exists pk r, rows !! pk = Some r /\ (k, x) ∈ ent r pk.

(** An entry's key names its row, and a row has one value for a key. *)
Definition owned (good : record -> Prop) (ent : record -> bytes -> list (bytes * bytes)) : Prop :=
  forall k r r' pk pk' x x', good r -> good r' -> (k, x) ∈ ent r pk -> (k, x') ∈ ent r' pk' ->
    pk = pk' /\ (r = r' -> x = x').

Section Entries.
Context (c : bytes) (good : record -> Prop) (ent : record -> bytes -> list (bytes * bytes)).
Context (Hown : owned good ent).
Implicit Types (rows : gmap bytes record) (v : store).

Definition all_good rows : Prop := forall pk r, rows !! pk = Some r -> good r.

Lemma all_good_insert rows pk r : all_good rows -> good r -> all_good (<[pk := r]> rows).
Proof. intros Ha Hr pk' r' [[<- <-]|[_ H]]%lookup_insert_Some; eauto. Qed.

Lemma all_good_delete rows pk : all_good rows -> all_good (delete pk rows).
Proof. intros Ha pk' r' [_ H]%lookup_delete_Some. eauto. Qed.

(** Adding a row's entries. *)
Lemma entries_added rows v pk r :
  is_Some (v !! c) -> all_good rows -> good r -> rows !! pk = None -> holds_entries c ent rows v ->
  holds_entries c ent (<[pk := r]> rows) (apply_writes (map (put_of c) (ent r pk)) v).
Proof.
  intros Hc Ha Hr Hn Hh k x. destruct (decide (k ∈ map fst (ent r pk))) as [Hk|Hk].
  - apply list_elem_of_fmap in Hk as ([k' y] & E & Hk). simpl in E. subst k'.
    rewrite (db_get_puts_in c (ent r pk) k y) by
      (done || intros z Hz; by apply (proj2 (Hown k r r pk pk z y Hr Hr Hz Hk))).
    split.
    + intros [= <-]. exists pk, r. by rewrite lookup_insert_eq.
    + intros (pk' & r' & [[<- <-]|[Hne Hr']]%lookup_insert_Some & Hx).
      * f_equal. by apply (proj2 (Hown k r r pk pk y x Hr Hr Hk Hx)).
      * by destruct Hne, (Hown k r r' pk pk' y x Hr (Ha _ _ Hr') Hk Hx) as [-> _].
  - rewrite db_get_puts_notin by done. rewrite (Hh k x). split.
    + intros (pk' & r' & Hr' & Hx). exists pk', r'. rewrite lookup_insert_ne; [done|congruence].
    + intros (pk' & r' & [[<- <-]|[Hne Hr']]%lookup_insert_Some & Hx); [|by exists pk', r'].
      destruct Hk. apply list_elem_of_fmap. by exists (k, x).
Qed.

(** Deleting a row's entries. *)
Lemma entries_removed rows v pk r :
  all_good rows -> rows !! pk = Some r -> holds_entries c ent rows v ->
  holds_entries c ent (delete pk rows) (apply_writes (map (W_delete c) (map fst (ent r pk))) v).
Proof.
  intros Ha Hr Hh k x. rewrite db_get_deletes. pose proof (Ha _ _ Hr) as Gr. split.
  - case_decide as Hk; [done|]. intros (pk' & r' & Hr' & Hx)%Hh. exists pk', r'. split; [|done].
    rewrite lookup_delete_ne; [done|]. intros <-. simplify_eq. destruct Hk. apply list_elem_of_fmap. by exists (k, x).
  - intros (pk' & r' & [Hne Hr']%lookup_delete_Some & Hx). rewrite decide_False; [apply Hh; eauto|].
    intros ([k' y] & E & Hy)%list_elem_of_fmap. simpl in E. subst k'.
    by destruct Hne, (Hown k r r' pk pk' y x Gr (Ha _ _ Hr') Hy Hx) as [-> _].
Qed.

(** A row that keeps its key and its entries. *)
Lemma entries_kept rows v pk old r :
  rows !! pk = Some old -> (forall kx, kx ∈ ent old pk <-> kx ∈ ent r pk) -> holds_entries c ent rows v ->
  holds_entries c ent (<[pk := r]> rows) v.
Proof.
  intros Ho He Hh k x. rewrite (Hh k x). split.
  - intros (pk' & r' & Hr' & Hx). destruct (decide (pk' = pk)) as [->|Hne].
    + simplify_eq. exists pk, r. rewrite lookup_insert_eq. split; [done|]. by apply He.
    + exists pk', r'. by rewrite lookup_insert_ne.
  - intros (pk' & r' & [[<- <-]|[Hne Hr']]%lookup_insert_Some & Hx); [|by exists pk', r'].
    exists pk, old. split; [done|]. by apply He.
Qed.

(** Replacing the entries of a row by diff: [gone] is deleted and [fresh] put. *)
Lemma entries_diffed rows v pk old r gone fresh :
  is_Some (v !! c) -> all_good rows -> good r -> rows !! pk = Some old -> holds_entries c ent rows v ->
  (forall k, k ∈ gone <-> k ∈ map fst (ent old pk) /\ k ∉ map fst (ent r pk)) ->
  (forall k x, (k, x) ∈ fresh -> (k, x) ∈ ent r pk) ->
  (forall k x, (k, x) ∈ ent r pk -> (k, x) ∈ fresh \/ (k, x) ∈ ent old pk) ->
  holds_entries c ent (<[pk := r]> rows)
    (apply_writes (map (put_of c) fresh) (apply_writes (map (W_delete c) gone) v)).
Proof.
  intros Hc Ha Hr Ho Hh Hg Hf Hk k x. pose proof (Ha _ _ Ho) as Go.
  assert (forall y, (k, y) ∈ ent r pk -> db_get c k (apply_writes (map (put_of c) fresh)
            (apply_writes (map (W_delete c) gone) v)) = Some y) as Hnew.
  { intros y Hy. destruct (decide (k ∈ map fst fresh)) as [Hin|Hin].
    - apply list_elem_of_fmap in Hin as ([k' z] & E & Hz). simpl in E. subst k'.
      assert (z = y) as -> by (by apply (proj2 (Hown k r r pk pk z y Hr Hr (Hf _ _ Hz) Hy))).
      apply db_get_puts_in; [by apply apply_writes_family|done|].
      intros z' Hz'. by apply (proj2 (Hown k r r pk pk z' y Hr Hr (Hf _ _ Hz') Hy)).
    - rewrite db_get_puts_notin, db_get_deletes by done. rewrite decide_False.
      + apply Hh. exists pk, old. split; [done|]. destruct (Hk _ _ Hy) as [Hz|Hz]; [|done].
        destruct Hin. apply list_elem_of_fmap. by exists (k, y).
      + rewrite Hg. intros [_ Hn]. apply Hn, list_elem_of_fmap. by exists (k, y). }
  split.
  - intros Hget. destruct (decide (k ∈ map fst (ent r pk))) as [Hin|Hin].
    + apply list_elem_of_fmap in Hin as ([k' y] & E & Hy). simpl in E. subst k'. rewrite (Hnew y Hy) in Hget.
      simplify_eq. exists pk, r. by rewrite lookup_insert_eq.
    + assert (k ∉ map fst fresh) as Hnf.
      { intros ([k' y] & E & Hy)%list_elem_of_fmap. simpl in E. subst k'.
        apply Hin, list_elem_of_fmap. exists (k, y). eauto. }
      rewrite db_get_puts_notin, db_get_deletes in Hget by done. case_decide as Hd; [done|].
      apply Hh in Hget as (pk' & r' & Hr' & Hx). exists pk', r'. rewrite lookup_insert_ne; [done|]. intros <-.
      simplify_eq. apply Hd, Hg. split; [|done]. apply list_elem_of_fmap. by exists (k, x).
  - intros (pk' & r' & [[<- <-]|[Hne Hr']]%lookup_insert_Some & Hx); [by apply Hnew|].
    assert (forall l, (forall y, (k, y) ∈ l -> (k, y) ∈ ent r pk \/ (k, y) ∈ ent old pk) -> k ∉ map fst l) as Hout.
    { intros l Hl ([k' y] & E & Hy)%list_elem_of_fmap. simpl in E. subst k'. apply Hl in Hy as [Hy|Hy].
      - by destruct Hne, (Hown k r r' pk pk' y x Hr (Ha _ _ Hr') Hy Hx) as [-> _].
      - by destruct Hne, (Hown k old r' pk pk' y x Go (Ha _ _ Hr') Hy Hx) as [-> _]. }
    rewrite db_get_puts_notin, db_get_deletes by (apply Hout; eauto). rewrite decide_False; [apply Hh; eauto|].
    rewrite Hg. intros [Hin _]. revert Hin. apply Hout. auto.
Qed.

End Entries.

Module TableRep.

Section Table.
Context {E txn : Type} `{!TidesDb E txn, !RowDb E txn, !RowServices E txn} {SF : ServerField} {CS : FtsText.charset}.
Context (sh : share) (ses : session) (junk : memory) (fields : list Field).

#[local] Abbreviation key_of i := (key_info_of sh i).

(** ** The abstract table *)

(** The key a row has in an index, whatever the buffer held. *)
Definition index_key (i : nat) (r : record) : bytes :=
  make_comparable_key (key_of i) r (length (key_part (key_of i))) (fun _ => 0) None.

Definition tokens_of (i : nat) (r : record) : list bytes := fts_extract_and_tokenize sh (key_of i) r.

(** The entries of a row in an index. *)
Definition entries (i : nat) (r : record) (pk : bytes) : list (bytes * bytes) :=
  match kind_of sh i with
  | regular => [(index_key i r ++ pk, tdb_empty_val)]
  | fulltext => postings (term_freqs (tokens_of i r)) (doc_words (tokens_of i r)) pk
  | spatial => option_list (spatial_entry (key_of i) r pk)
  end.

(** A record the engine stores faithfully: its varbinary values leave room for their length in every
    key, and its words are not longer than a posting key holds. *)
Definition good (r : record) : Prop :=
  record_ok fields r /\
  (forall i, Forall (value_fits r) (key_part (key_of i))) /\
  (forall i, kind_of sh i = fulltext -> Forall (fun tok => zlen tok <= FtsText.MAX_TERM_BYTES) (tokens_of i r)).

(** The table's definition: key parts in range, and one family per index, none of them the data family. *)
Definition table_ok : Prop :=
  (forall i, Forall part_ok (key_part (key_of i))) /\
  (forall i j c, secondary sh i = Some c -> secondary sh j = Some c -> i = j) /\
  (forall i, secondary sh i <> Some (cf sh)).

(** The primary key of a record; a table without one keys its rows by [pk]. *)
Definition pk_of (r : record) (pk : bytes) : bytes :=
  if has_user_pk (codec sh) then index_key (pk_index (codec sh)) r else pk.

(** Two records agree on the columns of an index. *)
Definition same_key (i : nat) (r r' : record) : Prop := parts_cmp (key_part (key_of i)) r r' = Eq.

Definition families_of : list bytes := cf sh :: omap id (idx_cfs sh).

(** ** Lemmas *)

Lemma index_key_length i r :
  table_ok -> zlen (index_key i r) = foldr (fun kp n => part_width kp + n) 0 (key_part (key_of i)).
Proof. intros (Hp & _). unfold index_key. rewrite make_comparable_key_all. by apply comparable_parts_length. Qed.

Lemma index_key_same_length i r r' : table_ok -> length (index_key i r) = length (index_key i r').
Proof.
  intros Ht. pose proof (index_key_length i r Ht). pose proof (index_key_length i r' Ht). unfold zlen in *. lia.
Qed.

(** The key the code builds does not depend on the buffer it builds it in. *)
Lemma full_key_eq i r : table_ok -> good r -> full_key sh junk i r = index_key i r.
Proof.
  intros (Hp & _) (Hr & Hf & _). unfold full_key, index_key. rewrite !make_comparable_key_all.
  by apply (parts_stale fields).
Qed.

Lemma pk_from_record_eq r cur out : table_ok -> good r -> pk_from_record (codec sh) cur r out = pk_of r cur.
Proof.
  intros (Hp & _) (Hr & Hf & _). unfold pk_from_record, pk_of. destruct (has_user_pk _); [|done].
  unfold index_key, key_info_of. rewrite !make_comparable_key_all. apply (parts_stale fields); [done|apply Hp|apply Hf].
Qed.

Lemma sec_idx_key_eq i r cur :
  table_ok -> good r -> sec_idx_key (codec sh) cur i r junk = index_key i r ++ pk_of r cur.
Proof.
  intros Ht Hr. unfold sec_idx_key. rewrite pk_from_record_eq by done. f_equal. by rewrite <- full_key_eq.
Qed.

Lemma same_key_iff i r r' : table_ok -> good r -> good r' -> same_key i r r' <-> index_key i r = index_key i r'.
Proof.
  intros (Hp & _) (Hr & Hf & _) (Hr' & Hf' & _). unfold same_key, index_key. rewrite !make_comparable_key_all.
  rewrite <- bytes_cmp_eq. by erewrite parts_order by done.
Qed.

Lemma elem_of_postings tf w pk k x :
  (k, x) ∈ postings tf w pk <->
  exists term n, tf !! term = Some n /\ k = FtsText.build_key term pk /\ x = FtsText.encode_entry_value n w.
Proof.
  unfold postings. rewrite list_elem_of_fmap. split.
  - intros ([term n] & [= -> ->] & H%elem_of_map_to_list). eauto.
  - intros (term & n & Hn & -> & ->). exists (term, n). split; [done|]. by apply elem_of_map_to_list.
Qed.

Lemma term_freqs_in tokens term n : term_freqs tokens !! term = Some n -> term ∈ tokens.
Proof.
  revert n. induction tokens as [|t tokens IH]; intros n; simpl; [by rewrite lookup_empty|].
  intros [[<- _]|[_ H]]%lookup_insert_Some; [by left|right; eauto].
Qed.

(** A posting key gives back its term and its row. *)
Lemma build_key_inj t t' pk pk' :
  zlen t <= FtsText.MAX_TERM_BYTES -> zlen t' <= FtsText.MAX_TERM_BYTES ->
  FtsText.build_key t pk = FtsText.build_key t' pk' -> t = t' /\ pk = pk'.
Proof.
  intros Ht Ht'. rewrite !FtsText.build_key_layout. unfold FtsText.MAX_TERM_BYTES, zlen in Ht, Ht'.
  assert (FtsText.indexed_term t = t) as Et by (unfold FtsText.indexed_term; apply take_ge; lia).
  assert (FtsText.indexed_term t' = t') as Et' by (unfold FtsText.indexed_term; apply take_ge; lia).
  pose proof (FtsText.indexed_term_length t) as L. pose proof (FtsText.indexed_term_length t') as L'.
  rewrite Et, Et' in *. intros H. apply app_inj_1 in H as [H1 H2]; [|unfold FtsText.store_u16le; by rewrite !length_le_store].
  apply FtsText.store_u16le_inj in H1; [|done..]. unfold zlen in H1. apply app_inj_1 in H2; [done|lia].
Qed.

Lemma posting_term i r pk k x :
  good r -> kind_of sh i = fulltext -> (k, x) ∈ entries i r pk ->
  exists term n, term_freqs (tokens_of i r) !! term = Some n /\ zlen term <= FtsText.MAX_TERM_BYTES /\
    k = FtsText.build_key term pk /\ x = FtsText.encode_entry_value n (doc_words (tokens_of i r)).
Proof.
  intros (_ & _ & Hg) Hk. unfold entries. rewrite Hk. intros (term & n & Hn & -> & ->)%elem_of_postings.
  exists term, n. split_and!; try done. pose proof (term_freqs_in _ _ _ Hn) as Hin.
  by apply (proj1 (Forall_forall _ _) (Hg i Hk)).
Qed.

Lemma spatial_entry_pk i r r' pk pk' k x x' :
  spatial_entry (key_of i) r pk = Some (k, x) -> spatial_entry (key_of i) r' pk' = Some (k, x') -> pk = pk'.
Proof.
  unfold spatial_entry. intros H1 H2. repeat case_match; try done.
  assert (forall m, length (RowFormat.encode_be64 (centroid_hilbert m)) = 8%nat) as Hl
    by (intros; apply length_be_store).
  match type of H1 with Some (?a ++ _, _) = _ =>
    match type of H2 with Some (?b ++ _, _) = _ => assert (a ++ pk = b ++ pk') as Ek by congruence end end.
  by apply app_inj_1 in Ek as [_ Ek]; [|by rewrite !Hl].
Qed.

Lemma entries_owned i : table_ok -> owned good (entries i).
Proof.
  intros Ht k r r' pk pk' x x' Hr Hr' Hx Hx'. destruct (kind_of sh i) eqn:Hk.
  - unfold entries in *. rewrite Hk in *. apply list_elem_of_singleton in Hx, Hx'. injection Hx as -> ->.
    injection Hx' as Ek ->. apply app_inj_1 in Ek as [_ ->]; [done|by apply index_key_same_length].
  - destruct (posting_term i r pk k x Hr Hk Hx) as (t & n & Hn & Hl & -> & ->).
    destruct (posting_term i r' pk' _ x' Hr' Hk Hx') as (t' & n' & Hn' & Hl' & Ek & ->).
    apply build_key_inj in Ek as [<- <-]; [|done..]. split; [done|]. intros <-. congruence.
  - unfold entries in *. rewrite Hk in *.
    destruct (spatial_entry (key_of i) r pk) as [e|] eqn:Ee; [|by apply not_elem_of_nil in Hx].
    destruct (spatial_entry (key_of i) r' pk') as [e'|] eqn:Ee'; [|by apply not_elem_of_nil in Hx'].
    apply list_elem_of_singleton in Hx, Hx'. subst e e'. split; [|intros <-].
    + by apply (spatial_entry_pk i r r' pk pk' k x x').
    + assert (pk = pk') as <- by (by apply (spatial_entry_pk i r r pk pk' k x x')). congruence.
Qed.

Lemma secondary_some i c : secondary sh i = Some c -> idx_cfs sh !! i = Some (Some c).
Proof.
  unfold secondary. destruct (_ && _); [done|]. destruct (idx_cfs sh !! i) as [[c'|]|]; simpl; congruence.
Qed.

Lemma secondary_num i c : secondary sh i = Some c -> 0 < num_secondary_indexes sh.
Proof.
  intros H%secondary_some. unfold num_secondary_indexes.
  assert (c ∈ omap id (idx_cfs sh)) as Hin by (apply list_elem_of_omap; exists (Some c); split; [by eapply list_elem_of_lookup_2|done]).
  destruct (omap id (idx_cfs sh)); [by apply not_elem_of_nil in Hin|]. unfold zlen. simpl. lia.
Qed.

Lemma secondary_family i c : secondary sh i = Some c -> c ∈ families_of.
Proof.
  intros H%secondary_some. right. apply list_elem_of_omap. exists (Some c). split; [by eapply list_elem_of_lookup_2|done].
Qed.

(** ** The representation *)

Context (stored : record -> bytes -> Prop) (covered : nat -> Prop).
Implicit Types (rows data : gmap bytes record) (v : store).

Definition data_rep rows v : Prop :=
  forall pk, match rows !! pk, db_get (cf sh) (RowFormat.build_data_key pk) v with
             | Some r, Some b => stored r b
             | None, None => True
             | _, _ => False
             end.

(** The families of the table exist and the data family holds the rows [data]; the indexes in [pre] hold
    the entries of [rows'] and the others those of [rows].  Only the [covered] indexes are spoken of. *)
Definition part_rep data (pre : list nat) rows rows' v : Prop :=
  is_Some (v !! cf sh) /\ data_rep data v /\
  (forall i c, secondary sh i = Some c -> is_Some (v !! c)) /\
  forall i c, (i < num_keys sh)%nat -> secondary sh i = Some c -> covered i ->
    holds_entries c (entries i) (if decide (i ∈ pre) then rows' else rows) v.

(** Rows are faithful and stored under their own primary key. *)
Definition rows_ok rows : Prop := forall pk r, rows !! pk = Some r -> good r /\ pk_of r pk = pk.

Definition table_rep rows v : Prop := rows_ok rows /\ part_rep rows [] rows rows v.

Lemma rows_ok_good rows : rows_ok rows -> all_good good rows.
Proof. intros H pk r Hr. by apply (H pk r). Qed.

Lemma rows_ok_insert rows pk r : rows_ok rows -> good r -> pk_of r pk = pk -> rows_ok (<[pk := r]> rows).
Proof. intros Ho Hg Hp pk' r' [[<- <-]|[_ Hr]]%lookup_insert_Some; eauto. Qed.

Lemma rows_ok_delete rows pk : rows_ok rows -> rows_ok (delete pk rows).
Proof. intros Ho pk' r' [_ Hr]%lookup_delete_Some. eauto. Qed.

Lemma part_rep_all data rows rows' v :
  part_rep data (seq 0 (num_keys sh)) rows rows' v -> part_rep data [] rows' rows' v.
Proof.
  intros (Hc & Hd & Hf & Hi). split_and!; [done..|]. intros i c Hlt Hs Hcov.
  specialize (Hi i c Hlt Hs Hcov). rewrite decide_True in Hi by (apply elem_of_seq; lia). by case_decide.
Qed.

Lemma family_neq i c : table_ok -> secondary sh i = Some c -> c <> cf sh.
Proof. intros (_ & _ & Hn) Hs ->. by apply (Hn i). Qed.

Lemma db_get_other c k ws v :
  Forall (fun w => write_cf w <> c) ws -> db_get c k (apply_writes ws v) = db_get c k v.
Proof. intros H. unfold db_get. by rewrite apply_writes_other. Qed.

Lemma holds_entries_other c ent rows ws v :
  Forall (fun w => write_cf w <> c) ws -> holds_entries c ent rows v -> holds_entries c ent rows (apply_writes ws v).
Proof. intros Hw Hh k x. rewrite db_get_other by done. apply Hh. Qed.

Lemma data_rep_other rows ws v :
  Forall (fun w => write_cf w <> cf sh) ws -> data_rep rows v -> data_rep rows (apply_writes ws v).
Proof. intros Hw Hd pk. rewrite db_get_other by done. apply Hd. Qed.

Lemma decide_snoc {B} (x y : nat) (pre : list nat) (a b : B) :
  x <> y -> (if decide (x ∈ pre ++ [y]) then a else b) = (if decide (x ∈ pre) then a else b).
Proof.
  intros Hne. destruct (decide (x ∈ pre)) as [H|H].
  - rewrite decide_True; [done|]. apply elem_of_app. by left.
  - rewrite decide_False; [done|]. rewrite elem_of_app, list_elem_of_singleton. tauto.
Qed.

(** Index [i] is brought up to date by writes to its own family. *)
Lemma part_rep_step data pre rows rows' v i c ws :
  table_ok -> secondary sh i = Some c -> Forall (fun w => write_cf w = c) ws ->
  ((i < num_keys sh)%nat -> covered i -> holds_entries c (entries i) rows' (apply_writes ws v)) ->
  part_rep data pre rows rows' v -> part_rep data (pre ++ [i]) rows rows' (apply_writes ws v).
Proof.
  intros Ht Hs Hw Hnew (Hc & Hd & Hf & Hi). pose proof (family_neq _ _ Ht Hs) as Hne.
  split_and!; [by apply apply_writes_family| | |].
  - apply data_rep_other; [|done]. eapply Forall_impl; [done|]. intros w ->. done.
  - intros j c' Hj. apply apply_writes_family. eauto.
  - intros j c' Hlt Hj Hcov. destruct (decide (j = i)) as [->|Hji].
    + assert (c' = c) as -> by congruence. rewrite decide_True by set_solver. eauto.
    + assert (c' <> c) by (intros ->; by destruct Hji, Ht as (_ & Hinj & _); eapply Hinj).
      apply holds_entries_other; [eapply Forall_impl; [done|]; intros w ->; done|].
      rewrite decide_snoc by done. eauto.
Qed.

Lemma part_rep_skip data pre rows rows' v i :
  secondary sh i = None -> part_rep data pre rows rows' v -> part_rep data (pre ++ [i]) rows rows' v.
Proof.
  intros Hs (Hc & Hd & Hf & Hi). split_and!; [done..|]. intros j c Hlt Hj Hcov.
  rewrite decide_snoc by congruence. eauto.
Qed.

Lemma data_key_inj pk pk' : RowFormat.build_data_key pk = RowFormat.build_data_key pk' -> pk = pk'.
Proof. by intros [= ->]. Qed.

(** The row itself is put, or deleted; the indexes are as they were. *)
Lemma data_step data data' pre rows rows' v w :
  table_ok -> write_cf w = cf sh -> data_rep data' (apply_write w v) ->
  part_rep data pre rows rows' v -> part_rep data' pre rows rows' (apply_write w v).
Proof.
  intros Ht Hw Hd' (Hc & Hd & Hf & Hi). split_and!; [by apply apply_write_family|done| |].
  - intros i c Hs. apply apply_write_family. eauto.
  - intros i c Hlt Hs Hcov. pose proof (family_neq _ _ Ht Hs).
    apply (holds_entries_other c _ _ [w]); [|by apply Hi]. apply Forall_singleton. congruence.
Qed.

Lemma data_put data pre rows rows' v pk r b :
  table_ok -> stored r b -> part_rep data pre rows rows' v ->
  part_rep (<[pk := r]> data) pre rows rows' (apply_write (W_put (cf sh) (RowFormat.build_data_key pk) b) v).
Proof.
  intros Ht Hst Hp. eapply data_step; [done|done| |done]. destruct Hp as (Hc & Hd & _). intros pk'.
  destruct (decide (pk' = pk)) as [->|Hne]; [by rewrite lookup_insert_eq, db_get_put|].
  rewrite lookup_insert_ne, db_get_put_ne by (done || right; intros ?%data_key_inj; congruence). apply Hd.
Qed.

Lemma data_delete data pre rows rows' v pk :
  table_ok -> part_rep data pre rows rows' v ->
  part_rep (delete pk data) pre rows rows' (apply_write (W_delete (cf sh) (RowFormat.build_data_key pk)) v).
Proof.
  intros Ht Hp. eapply data_step; [done|done| |done]. destruct Hp as (Hc & Hd & _). intros pk'.
  rewrite db_get_delete. destruct (decide (pk' = pk)) as [->|Hne].
  - rewrite lookup_delete_eq. by rewrite decide_True.
  - rewrite lookup_delete_ne, decide_False by (done || intros ?%data_key_inj; congruence). apply Hd.
Qed.

(** ** Duplicates *)

Lemma live_row rows v pk : data_rep rows v -> live v (cf sh) (RowFormat.build_data_key pk) <-> is_Some (rows !! pk).
Proof.
  intros Hd. specialize (Hd pk). unfold live. split; intros [x Hx]; rewrite Hx in Hd; repeat case_match; try done; by eexists.
Qed.

(** A row that agrees with the record on the columns of the unique index [i]. *)
Definition clashes rows (r : record) (i : nat) : Prop :=
  (i < num_keys sh)%nat /\ kind_of sh i = regular /\ is_unique sh i = true /\ any_null (key_of i) r = false /\
  is_Some (secondary sh i) /\ exists pk r', rows !! pk = Some r' /\ same_key i r r'.

Lemma live_entry rows v i c r :
  table_ok -> rows_ok rows -> good r -> kind_of sh i = regular -> holds_entries c (entries i) rows v ->
  (exists suffix, live v c (full_key sh junk i r ++ suffix)) <->
  exists pk r', rows !! pk = Some r' /\ same_key i r r'.
Proof.
  intros Ht Ho Hg Hk Hh. rewrite full_key_eq by done. unfold holds_entries, entries in Hh. rewrite Hk in Hh. split.
  - intros (suffix & x & (pk & r' & Hr & Hin)%Hh). apply list_elem_of_singleton in Hin.
    assert (index_key i r ++ suffix = index_key i r' ++ pk) as Ek by congruence.
    apply app_inj_1 in Ek as [Ek _]; [|by apply index_key_same_length]. exists pk, r'. split; [done|].
    apply same_key_iff; [done|done|by apply (Ho pk)|done].
  - intros (pk & r' & Hr & Hs). exists pk, tdb_empty_val. apply Hh. exists pk, r'. split; [done|].
    apply same_key_iff in Hs; [|done|done|by apply (Ho pk)]. rewrite Hs. by apply list_elem_of_singleton.
Qed.

(** ** Writes elsewhere *)

(** Writes that touch neither a data key nor an index of the table. *)
Definition elsewhere (w : write) : Prop :=
  (forall i, secondary sh i <> Some (write_cf w)) /\
  (write_cf w = cf sh -> exists k x, w = W_put (cf sh) k x /\ forall pk, k <> RowFormat.build_data_key pk).

Lemma elsewhere_families w : write_cf w ∉ families_of -> elsewhere w.
Proof.
  intros Hw. split; [intros i Hi; by apply Hw, (secondary_family i)|]. intros Hc. destruct Hw. unfold families_of. rewrite <- Hc. by left.
Qed.

Lemma data_rep_elsewhere rows v w : elsewhere w -> data_rep rows v -> data_rep rows (apply_write w v).
Proof.
  intros [_ Hc] Hd pk. specialize (Hd pk). destruct (decide (write_cf w = cf sh)) as [E'|E'].
  - destruct (Hc E') as (key & x & -> & Hk). by rewrite db_get_put_ne by (right; done).
  - change (apply_write w v) with (apply_writes [w] v). by rewrite db_get_other by (apply Forall_singleton; congruence).
Qed.

Lemma part_rep_elsewhere data pre rows rows' v ws :
  Forall elsewhere ws -> part_rep data pre rows rows' v -> part_rep data pre rows rows' (apply_writes ws v).
Proof.
  intros Hws. revert v. induction Hws as [|w ws Hw _ IH]; intros v Hp; [done|]. apply (IH (apply_write w v)).
  destruct Hp as (Hc & Hd & Hf & Hi).
  split_and!; [by apply apply_write_family|by apply data_rep_elsewhere|intros; by apply apply_write_family; eauto|].
  intros i c Hlt Hs Hcov. apply (holds_entries_other c _ _ [w]); [|by eauto].
  apply Forall_singleton. intros <-. by apply (proj1 Hw i).
Qed.

Lemma table_rep_elsewhere rows v ws : Forall elsewhere ws -> table_rep rows v -> table_rep rows (apply_writes ws v).
Proof. intros Hw [Ho Hp]. split; [done|]. by apply part_rep_elsewhere. Qed.

Lemma meta_elsewhere c kn x : (forall i, secondary sh i <> Some c) -> elsewhere (W_put c (fts_meta_key kn) x).
Proof. intros Hc. split; [done|]. simpl. intros ->. eexists _, _. split; [done|]. intros pk. unfold fts_meta_key. by intros [=]. Qed.

End Table.

End TableRep.
