(* ===== verification/DmlSpec.v ===== *)
(** * Row operations refine the abstract table

    [write_row], [delete_row], [update_row] and [end_bulk_delete] carry one represented table to the
    next, whatever library calls fail on the way; duplicate keys are reported exactly when there is
    one.  The proofs run against a transaction whose contents are known exactly ([inv]); [Q] stands for
    a library that does not fail, so that one proof covers both the errors and their absence.  The
    theorems at the end show where the code departs from its own account. *)
From S2P Require Import Prelude Effects TidesDb RowDb RowFormat FtsText Table KeyCodec Dml TableRep.
Import Table KeyCodec Dml TableRep.
#[local] Open Scope Z_scope.
#[local] Open Scope tdb_scope.

Module DmlSpec.

(** What the services promise to the row operations: a serialised row stands for its record, the
    foreign-key checks write to no family of this table, and the server's auto-increment only changes
    the record.  [stored r b] reads: [b] is a serialisation of [r]. *)
Class ServicesOk (E txn : Type) `{!TidesDb E txn, !QuietDb E txn, !RowServices E txn} (families : list bytes)
    (enc : bool) := {
  stored : record -> bytes -> Prop;
  numbered : record -> record -> Prop;
  serialize_law d ws t (Q : Prop) r :
    spec (fun e => (committed e = d /\ pending e t = ws) /\ (Q -> quiet e)) (serialize_row r)
      (fun b e => ((committed e = d /\ pending e t = ws) /\ (Q -> quiet e)) /\ ((b = [] /\ enc = true) \/ (b <> [] /\ stored r b)))
      (fun e => committed e = d);
  auto_increment_law d ws t (Q : Prop) r :
    spec (fun e => (committed e = d /\ pending e t = ws) /\ (Q -> quiet e)) (update_auto_increment r)
      (fun er e => ((committed e = d /\ pending e t = ws) /\ (Q -> quiet e)) /\ (er.1 = 0 -> numbered r er.2))
      (fun e => committed e = d);
  fk_laws (m : M E Z) t :
    (exists r, m = fk_check_child t r \/ m = fk_enforce_parent_delete t r \/
               exists r', m = fk_enforce_parent_update t r r') ->
    forall d ws (Q : Prop),
    spec (fun e => (committed e = d /\ pending e t = ws) /\ (Q -> quiet e)) m
      (fun _ e => (exists ws', (committed e = d /\ pending e t = ws ++ ws') /\
         Forall (fun w => write_cf w ∉ families) ws') /\ (Q -> quiet e))
      (fun e => committed e = d) }.


Section Ops.
Context {E txn : Type} `{!TidesDb E txn, !RowDb E txn, !QuietDb E txn, !QuietRows E txn, !RowServices E txn}
  {SF : ServerField} {CS : FtsText.charset}.
Context (sh : share) (ses : session) (junk : memory) (fields : list Field) (Q : Prop).
Context `{!ServicesOk E txn (families_of sh) (encrypted sh)} (Ht : table_ok sh).
Local Open Scope eff_scope.

#[local] Abbreviation hdl := (handler E txn).

Implicit Types (t : txn) (d v : store).

(** The fields of the handler the proofs follow. *)
Record core_t := Core
  { c_stmt : option txn; c_trx : option (option txn); c_pk : bytes; c_bulk : bulk; c_dup : nat; c_next : Z }.
Implicit Types (k : core_t).

Definition core (h : hdl) : core_t :=
  Core (stmt_txn h) (trx_txn <$> cached_trx_ h) (current_pk h) (bulk_of h) (dup_key_no_ h) (next_row_id h).

(** The statement runs in transaction [t]. *)
Definition runs_in t k : Prop := c_stmt k = Some t /\ (c_trx k = None \/ c_trx k = Some (Some t)).
Definition at_pk (pk : bytes) k : core_t := Core (c_stmt k) (c_trx k) pk (c_bulk k) (c_dup k) (c_next k).
Definition at_dup (i : nat) k : core_t := Core (c_stmt k) (c_trx k) (c_pk k) (c_bulk k) i (c_next k).
Definition at_bulk (b : bulk) k : core_t := Core (c_stmt k) (c_trx k) (c_pk k) b (c_dup k) (c_next k).

(** Pending full-text statistics belong to data families. *)
Definition meta_ok (h : hdl) : Prop :=
  match cached_trx_ h with
  | Some x => Forall (fun m => forall i, secondary sh i <> Some (data_cf m)) (fts_meta_pending x)
  | None => True
  end.

(** The transaction sees the contents [v] over the durable ones [d]. *)
Definition inv (k : core_t) (t : txn) (d v : store) (h : hdl) : Prop :=
  core h = k /\ meta_ok h /\ committed (lib h) = d /\ apply_writes (pending (lib h) t) d = v /\ (Q -> quiet (lib h)).

Definition durable (d : store) (h : hdl) : Prop := committed (lib h) = d.

Lemma core_set_lib e (h : hdl) : core (set_lib e h) = core h.
Proof. done. Qed.

(** A library call, from what it does to the transaction's write set. *)
Lemma inv_lib k t d v {A} (m : M E A) (R : A -> store -> Prop) :
  (forall ws, apply_writes ws d = v ->
     spec (fun e => (committed e = d /\ pending e t = ws) /\ (Q -> quiet e)) m
       (fun a e => (exists ws', (committed e = d /\ pending e t = ws') /\ R a (apply_writes ws' d)) /\ (Q -> quiet e))
       (fun e => committed e = d)) ->
  spec (inv k t d v) (on_lib m) (fun a h => exists v', R a v' /\ inv k t d v' h) (durable d).
Proof.
  intros H. apply spec_lift. intros h (Hk & Hm & Hd & Hv & Hq).
  specialize (H _ Hv). intros e ->. specialize (H (lib h)). destruct (m (lib h)) as [e' [a|]].
  - destruct H as [(ws' & [Hd' Hw'] & HR) Hq']; [done|]. exists (apply_writes ws' d). split; [done|].
    unfold inv, meta_ok in *. rewrite core_set_lib. split_and!; try done. simpl. by rewrite Hw'.
  - by apply H.
Qed.

(** A change of the handler's own fields. *)
Lemma inv_modify k k' t d v (f : hdl -> hdl) C :
  (forall h, core h = k -> core (f h) = k') -> (forall h, lib (f h) = lib h) -> (forall h, meta_ok h -> meta_ok (f h)) ->
  spec (inv k t d v) (modify f) (fun _ => inv k' t d v) C.
Proof. intros Hc Hl Hm. apply spec_modify. intros h (Hk & ? & ?). unfold inv. rewrite Hl. auto. Qed.

Definition fails {A} (ok : A) (a : A) : Prop := a <> ok /\ (Q -> False).

Lemma row_put_spec k t d v c key x :
  spec (inv k t d v) (put t c key x)
    (fun rc h => (rc = TDB_SUCCESS /\ inv k t d (apply_write (W_put c key x) v) h) \/ (fails TDB_SUCCESS rc /\ inv k t d v h))
    (durable d).
Proof.
  eapply spec_weaken; [apply (inv_lib k t d v (txn_put t c key x)
    (fun rc v' => (rc = TDB_SUCCESS /\ v' = apply_write (W_put c key x) v) \/ (fails TDB_SUCCESS rc /\ v' = v)))|done| |done].
  - intros ws Hws. eapply spec_weaken; [apply (spec_when Q _ _ _ _ _ _ _ (txn_put_law d ws t c key x) (quiet_put t c key x))|done| |done].
    intros rc e [[Hd Hp] Hq]. split; [|by intros q; destruct (Hq q)]. eexists. split; [done|]. unfold fails.
    destruct (decide (rc = TDB_SUCCESS)) as [->|Hne].
    + left. split; [done|]. by rewrite apply_writes_app, Hws.
    + right. split; [split; [done|by intros q; destruct (Hq q)]|]. by destruct rc.
  - intros rc h (v' & [[-> ->]|[? ->]] & Hi); auto.
Qed.

Lemma delete_spec k t d v c key single :
  spec (inv k t d v) (tdb_txn_delete_cf_blocking t c key single)
    (fun rc h => (rc = TDB_SUCCESS /\ inv k t d (apply_write (W_delete c key) v) h) \/ (fails TDB_SUCCESS rc /\ inv k t d v h))
    (durable d).
Proof.
  eapply spec_weaken; [apply (inv_lib k t d v _
    (fun rc v' => (rc = TDB_SUCCESS /\ v' = apply_write (W_delete c key) v) \/ (fails TDB_SUCCESS rc /\ v' = v)))|done| |done].
  - intros ws Hws.
    assert (spec (fun e => (committed e = d /\ pending e t = ws) /\ (Q -> quiet e))
      (if single then txn_single_delete t c key else txn_delete t c key)
      (fun rc e => (committed e = d /\ pending e t = match rc with TDB_SUCCESS => ws ++ [W_delete c key] | _ => ws end) /\
         (Q -> quiet e /\ rc = TDB_SUCCESS)) (fun e => committed e = d)) as H.
    { destruct single; eapply spec_when; [apply txn_single_delete_law|apply quiet_single_delete|
        apply txn_delete_law|apply quiet_delete]. }
    eapply spec_weaken; [exact H|done| |done]. intros rc e [[Hd Hp] Hq]. split; [|by intros q; destruct (Hq q)].
    eexists. split; [done|]. unfold fails. destruct (decide (rc = TDB_SUCCESS)) as [->|Hne].
    + left. split; [done|]. by rewrite apply_writes_app, Hws.
    + right. split; [split; [done|by intros q; destruct (Hq q)]|]. by destruct rc.
  - intros rc h (v' & [[-> ->]|[? ->]] & Hi); auto.
Qed.

(** A call that only reads. *)
Lemma read_spec k t d v {A} (m : M E A) (P : store -> A -> Prop) (R : A -> Prop) :
  (forall ws, spec (fun e => committed e = d /\ pending e t = ws) m
     (fun a e => (committed e = d /\ pending e t = ws) /\ P (apply_writes ws d) a) (fun e => committed e = d)) ->
  spec quiet m (fun a e => quiet e /\ R a) (fun _ => True) ->
  spec (inv k t d v) (on_lib m) (fun a h => inv k t d v h /\ P v a /\ (Q -> R a)) (durable d).
Proof.
  intros H1 H2. eapply spec_weaken; [apply (inv_lib k t d v m (fun a v' => v' = v /\ P v a /\ (Q -> R a)))|done| |done].
  - intros ws <-. eapply spec_weaken; [apply (spec_when Q _ _ _ _ _ _ _ (H1 ws) H2)|done| |done].
    intros a e [[[Hd Hw] HP] Hq]. split; [|by intros q; destruct (Hq q)]. exists ws. split_and!; try done.
    by intros q; destruct (Hq q).
  - intros a h (v' & (-> & ?) & ?). done.
Qed.

Lemma puts_spec k t d v c kvs :
  spec (inv k t d v) (puts t c kvs)
    (fun r h => match r with
                | None => inv k t d (apply_writes (map (put_of c) kvs) v) h
                | Some rc => fails TDB_SUCCESS rc /\ exists v', inv k t d v' h
                end) (durable d).
Proof.
  apply (spec_for_each_pre (fun pre => inv k t d (apply_writes (map (put_of c) pre) v))); [|done].
  intros pre [key x] _. eapply spec_bind; [apply row_put_spec|]. intros rc. apply spec_ret. intros h [[-> Hi]|[Hf Hi]].
  - simpl. by rewrite map_app, apply_writes_app.
  - unfold tdb_ok. rewrite bool_decide_false by apply Hf. eauto.
Qed.

(** Deletes whose results are ignored: without failures all of them happen. *)
Lemma unchecked_deletes_spec k t d v c ks :
  spec (inv k t d v) (unchecked_deletes t c ks)
    (fun r h => r = None /\ exists ws, inv k t d (apply_writes ws v) h /\ Forall (fun w => write_cf w = c) ws /\
       (Q -> ws = map (W_delete c) ks)) (durable d).
Proof.
  set (I pre h := exists ws, inv k t d (apply_writes ws v) h /\
    Forall (fun w => write_cf w = c) ws /\ (Q -> ws = map (W_delete c) pre)).
  eapply (spec_weaken _ (I [])); [apply (spec_for_each_pre I ks _ (fun r h => r = None /\ I ks h))| |done|done].
  - intros pre key _. apply spec_at. intros h0 (ws & Hi & Hw & Hq).
    eapply spec_bind; [eapply spec_weaken; [apply (delete_spec k t d (apply_writes ws v))|by intros ? ->|intros rc h Hrc; exact Hrc|done]|].
    intros rc. apply spec_ret. intros h [[-> Hi']|[[_ Hf] Hi']].
    + exists (ws ++ [W_delete c key]). rewrite apply_writes_app. split_and!; [done|by apply Forall_app; split; [|apply Forall_singleton]|].
      intros q. by rewrite (Hq q), map_app.
    + exists ws. split_and!; [done..|]. by intros q; destruct (Hf q).
  - by intros h Hh.
  - intros h Hh. by exists [].
Qed.

(** The seek of a duplicate check finds an entry under the prefix exactly if there is one. *)
Lemma prefix_between (p k k' : bytes) : p `prefix_of` k -> ~ k' <b p -> ~ k <b k' -> p `prefix_of` k'.
Proof.
  revert k k'. induction p as [|x p IH]; intros k k' [m ->] Hp Hk; [apply prefix_nil|].
  destruct k' as [|y k']; [by destruct Hp|]. unfold bytes_lt in *. simpl in *.
  destruct (y ?= x) eqn:E1; [|done|].
  - apply Z.compare_eq in E1 as ->. rewrite Z.compare_refl in Hk.
    destruct (IH (p ++ m) k') as [m' ->]; [by exists m|done|done|]. by exists m'.
  - destruct Hk. by rewrite Z.compare_antisym, E1.
Qed.

Lemma find_duplicate_spec k t d v c p :
  spec (inv k t d v) (find_duplicate t c p)
    (fun r h => inv k t d v h /\
       match r with
       | inl rc => fails TDB_SUCCESS rc
       | inr (Some suffix) => live v c (p ++ suffix)
       | inr None => Q -> forall suffix, ~ live v c (p ++ suffix)
       end) (durable d).
Proof.
  eapply spec_bind.
  { apply (read_spec k t d v (iter_seek t c p)
      (fun v r => match r with inl rc => rc <> TDB_SUCCESS | inr r => seek_spec v c p r end)
      (fun r => exists o, r = inr o /\ forall rc, o <> Some (inl rc))); [intros ws; apply iter_seek_law|apply quiet_seek]. }
  intros r. apply spec_ret. intros h (Hi & HP & HR). split; [done|].
  destruct r as [rc|[[rc|fk]|]]; simpl in *.
  - split; [done|]. intros q. by destruct (HR q) as (? & ? & _).
  - intros q. by destruct (HR q) as (o & [= <-] & Ho), (Ho rc).
  - destruct HP as (Hl & Hge & Hleast). case_bool_decide as Hp.
    + destruct Hp as [m ->]. by rewrite drop_app_length.
    + intros _ suffix Hs. apply Hp. apply (prefix_between p (p ++ suffix) fk); [by exists suffix|done|].
      apply Hleast; [done|]. unfold bytes_lt. rewrite <- (app_nil_r p) at 2. rewrite bytes_cmp_app_same. by destruct suffix.
  - intros _ suffix Hs. specialize (HP _ Hs). unfold bytes_lt in HP. rewrite <- (app_nil_r p) in HP at 2.
    rewrite bytes_cmp_app_same in HP. by destruct suffix.
Qed.

(** ** Steps on the handler's own fields *)

Lemma gets_spec {A} k t d v (f : hdl -> A) (g : core_t -> A) C :
  (forall h, f h = g (core h)) -> spec (inv k t d v) (gets f) (fun a h => a = g k /\ inv k t d v h) C.
Proof. intros Hf. apply spec_gets. intros h Hi. split; [|done]. rewrite Hf. by destruct Hi as [-> _]. Qed.

Lemma gets_any {A B} k t d v (f : hdl -> A) (m : A -> M hdl B) (R : B -> hdl -> Prop) C :
  (forall a, spec (inv k t d v) (m a) R C) -> spec (inv k t d v) (bind (gets f) m) R C.
Proof. apply spec_bind_gets_any. Qed.

Lemma map_trx_spec k t d v (f : tidesdb_trx_t txn -> tidesdb_trx_t txn) C :
  (forall x, trx_txn (f x) = trx_txn x) ->
  (forall x, Forall (fun m => forall i, secondary sh i <> Some (data_cf m)) (fts_meta_pending x) ->
     Forall (fun m => forall i, secondary sh i <> Some (data_cf m)) (fts_meta_pending (f x))) ->
  spec (inv k t d v) (modify (map_trx f)) (fun _ => inv k t d v) C.
Proof.
  intros Hf Hm. apply inv_modify; [| done|].
  - intros h <-. unfold core, map_trx. simpl. f_equal. destruct (cached_trx_ h); simpl; by rewrite ?Hf.
  - intros h. unfold meta_ok, map_trx. simpl. destruct (cached_trx_ h); simpl; auto.
Qed.

Lemma note_modified_table_spec k t d v :
  spec (inv k t d v) (note_modified_table sh) (fun _ => inv k t d v) (durable d).
Proof.
  unfold note_modified_table. apply gets_any. intros [x|]; apply gets_any; intros n; [|by apply spec_ret].
  case_match; [by apply spec_ret|].
  eapply (spec_bind _ _ (fun _ => inv k t d v)); [by apply inv_modify|]. intros _. by apply map_trx_spec.
Qed.

Lemma mark_dirty_spec k t d v : spec (inv k t d v) (mark_dirty sh) (fun _ => inv k t d v) (durable d).
Proof.
  eapply (spec_bind _ _ (fun _ => inv k t d v)); [by apply inv_modify|]. intros _.
  eapply (spec_bind _ _ (fun _ => inv k t d v)); [by apply map_trx_spec|]. intros _. apply note_modified_table_spec.
Qed.

Lemma accumulate_ok l kn docs words :
  Forall (fun m => forall i, secondary sh i <> Some (data_cf m)) l ->
  Forall (fun m => forall i, secondary sh i <> Some (data_cf m)) (accumulate l (cf sh) kn docs words).
Proof.
  destruct Ht as (_ & _ & Hcf). induction 1 as [|m l Hm Hl IH]; simpl; [by apply Forall_singleton|].
  case_match; by constructor.
Qed.

Lemma accumulate_spec k t d v i docs words :
  spec (inv k t d v) (trx_fts_meta_accumulate sh i docs words) (fun _ => inv k t d v) (durable d).
Proof. apply map_trx_spec; [done|]. intros x Hx. by apply accumulate_ok. Qed.

Lemma ensure_stmt_txn_spec k t d v :
  runs_in t k -> spec (inv k t d v) ensure_stmt_txn (fun code h => code = HA_OK /\ inv k t d v h) (durable d).
Proof.
  intros [Hs _]. eapply spec_bind; [by apply (gets_spec k t d v _ c_stmt)|]. intros [x|].
  - apply spec_ret. by intros h [_ ?].
  - intros h [? _]. congruence.
Qed.

(** The point lookup of a primary key. *)
Lemma probe_spec k t d v dk :
  runs_in t k ->
  spec (inv k t d v) (probe_pk_exists sh dk)
    (fun r h => inv k t d v h /\
       match r with inl rc => fails TDB_SUCCESS rc | inr true => live v (cf sh) dk | inr false => ~ live v (cf sh) dk end)
    (durable d).
Proof.
  intros [Hs Hx]. unfold probe_pk_exists. eapply spec_bind; [by apply (gets_spec k t d v _ c_stmt)|]. intros st.
  eapply spec_pure; [intros h [H _]; exact H|]. intros ->. rewrite Hs.
  apply spec_bind_gets. intros trx.
  apply (spec_pure _ (trx_txn <$> trx = c_trx k)); [by intros h [[_ [<- _]] <-]|]. intros Htrx.
  assert (match trx ≫= trx_txn with Some t => Some t | None => Some t end = Some t) as ->.
  { destruct trx as [x|]; simpl in *; [|done]. destruct Hx as [Hx|Hx]; rewrite Hx in Htrx; simplify_eq. by rewrite Htrx. }
  eapply spec_bind; [eapply spec_weaken; [apply (read_spec k t d v (txn_contains t (cf sh) dk)
    (fun v rc => match rc with TDB_SUCCESS => live v (cf sh) dk | TDB_ERR_NOT_FOUND => ~ live v (cf sh) dk | _ => True end)
    (fun rc => rc = TDB_SUCCESS \/ rc = TDB_ERR_NOT_FOUND)); [intros ws; apply txn_contains_law|apply quiet_contains]|
    by intros h [[_ ?] _]|intros rc h Hrc; exact Hrc|done]|].
  intros rc. apply spec_ret. intros h (Hi & HP & HR). split; [done|].
  destruct rc; try done; (split; [done|]); intros q; destruct (HR q); done.
Qed.

Lemma dup_spec k t d v i ref :
  spec (inv k t d v) (dup i ref) (fun code h => code = HA_ERR_FOUND_DUPP_KEY /\ inv (at_dup i k) t d v h) (durable d).
Proof.
  unfold dup. apply gets_any. intros old.
  eapply (spec_bind _ _ (fun _ => inv (at_dup i k) t d v)); [apply inv_modify; [by intros h <-|done|done]|].
  intros _. by apply spec_ret.
Qed.

Lemma dup_on_index_spec k t d v i suffix :
  spec (inv k t d v) (dup_on_index sh i suffix)
    (fun code h => code = HA_ERR_FOUND_DUPP_KEY /\ inv (at_dup i k) t d v h) (durable d).
Proof. unfold dup_on_index. case_match; apply dup_spec. Qed.

Lemma serialize_spec k t d v r :
  spec (inv k t d v) (on_lib (serialize_row r))
    (fun b h => inv k t d v h /\ ((b = [] /\ encrypted sh = true) \/ (b <> [] /\ stored r b))) (durable d).
Proof.
  eapply spec_weaken; [apply (inv_lib k t d v _ (fun b v' => v' = v /\
    ((b = [] /\ encrypted sh = true) \/ (b <> [] /\ stored r b))))|done| |done].
  - intros ws Hws. eapply spec_weaken; [apply (serialize_law d ws t Q r)|done| |done].
    intros b e [[He Hq] Hb]. split; [|done]. exists ws. by rewrite Hws.
  - intros b h (v' & [-> ?] & ?). done.
Qed.

(** ** Checks of uniqueness *)

(** What a check answers: [HA_OK] when [clear], a duplicate at an index that is [taken], or the
    library's failure.  It changes no contents. *)
Definition checked k t d v (clear : Prop) (taken : nat -> Prop) (code : ha_code) (h : hdl) : Prop :=
  match code with
  | HA_OK => inv k t d v h /\ clear
  | HA_ERR_FOUND_DUPP_KEY => exists i, taken i /\ inv (at_dup i k) t d v h
  | HA_LIB _ => (Q -> False) /\ inv k t d v h
  | _ => False
  end.

Lemma checked_lib k t d v clear taken rc (h : hdl) :
  fails TDB_SUCCESS rc -> inv k t d v h -> checked k t d v clear taken (tdb_rc_to_ha rc) h.
Proof. intros [Hn Hq] Hi. by destruct rc. Qed.

Lemma checked_weaken k t d v (c c' : Prop) (b b' : nat -> Prop) code (h : hdl) :
  checked k t d v c b code h -> (c -> c') -> (forall i, b i -> b' i) -> checked k t d v c' b' code h.
Proof. intros Hk Hc Hb. destruct code; try done; simpl in *; [destruct Hk; auto|]. destruct Hk as (i & ? & ?). eauto. Qed.

(** A check followed by the rest, which only runs when it is clear. *)
Lemma spec_checked {A} k t d v clear taken (m : M hdl ha_code) (rest : M hdl A) (f : ha_code -> A)
    (R : A -> hdl -> Prop) C :
  spec (inv k t d v) m (checked k t d v clear taken) C ->
  (clear -> spec (inv k t d v) rest R C) ->
  (forall code h, code <> HA_OK -> checked k t d v clear taken code h -> R (f code) h) ->
  spec (inv k t d v) (code <-- m; if negb (bool_decide (code = HA_OK)) then ret (f code) else rest)%eff R C.
Proof.
  intros Hm Hr Hf. eapply spec_bind; [exact Hm|]. intros code. destruct (decide (code = HA_OK)) as [->|Hne].
  - rewrite bool_decide_true by done. simpl. intros h [Hi Hc]. by apply (Hr Hc).
  - rewrite bool_decide_false by done. simpl. apply spec_ret. intros h Hk. by apply Hf.
Qed.

(** An existing row under the data key. *)
Lemma pk_check_spec k t d v dk i pk :
  runs_in t k ->
  spec (inv k t d v)
    (ex <-- probe_pk_exists sh dk;
     match ex with
     | inl rc => ret (tdb_rc_to_ha rc)
     | inr true => dup i pk
     | inr false => ret HA_OK
     end)%eff
    (checked k t d v (~ live v (cf sh) dk) (fun j => j = i /\ live v (cf sh) dk)) (durable d).
Proof.
  intros Hrun. eapply spec_bind; [by apply probe_spec|]. intros [rc|[]].
  - apply spec_ret. intros h [Hi Hf]. by apply checked_lib.
  - apply (spec_pure _ (live v (cf sh) dk)); [by intros h [_ ?]|]. intros Hl.
    eapply spec_weaken; [apply dup_spec|by intros h [? _]| |done]. intros code h [-> Hi]. simpl. eauto.
  - by apply spec_ret.
Qed.

(** An entry with the record's key in a unique index. *)
Definition entry_exists v (r : record) (i : nat) : Prop :=
  (i < num_keys sh)%nat /\ kind_of sh i = regular /\ is_unique sh i = true /\ any_null (key_info_of sh i) r = false /\
  exists c suffix, secondary sh i = Some c /\ live v c (full_key sh junk i r ++ suffix).

(** The loop both checks of secondary uniqueness run; [skip] is what else makes them pass an index by. *)
Lemma secondary_check_spec k t d v r (skip : nat -> bool) :
  spec (inv k t d v)
    (x <-- for_each (seq 0 (num_keys sh)) (fun i =>
       match secondary sh i with
       | None => ret None
       | Some c =>
           if negb (bool_decide (kind_of sh i = regular)) || negb (is_unique sh i) ||
              any_null (key_info_of sh i) r || skip i
           then ret None
           else
             e <-- find_duplicate t c (full_key sh junk i r);
             match e with
             | inl rc => ret (Some (tdb_rc_to_ha rc))
             | inr None => ret None
             | inr (Some suffix) => rc <-- dup_on_index sh i suffix; ret (Some rc)
             end
       end);
     ret (default HA_OK x))%eff
    (checked k t d v (Q -> forall i, skip i = false -> ~ entry_exists v r i)
       (fun i => entry_exists v r i /\ skip i = false)) (durable d).
Proof.
  set (post := checked k t d v (Q -> forall i, skip i = false -> ~ entry_exists v r i)
    (fun i => entry_exists v r i /\ skip i = false)).
  set (I (pre : list nat) (h : hdl) := inv k t d v h /\ (Q -> forall i, i ∈ pre -> skip i = false -> ~ entry_exists v r i)).
  apply (spec_bind _ _ (fun (x : option ha_code) h =>
    match x with Some code => code <> HA_OK /\ post code h | None => I (seq 0 (num_keys sh)) h end)).
  2: { intros [code|]; apply spec_ret; intros h; [by intros [_ ?]|]. intros [Hi Hc]. split; [done|].
       intros q i Hs Hex. apply (Hc q i); [|done..]. apply elem_of_seq. destruct Hex. lia. }
  eapply (spec_weaken _ (I [])); [apply spec_for_each_pre| |intros x h Hx; exact Hx|done].
  2: by intros h Hh.
  2: { intros h Hi. split; [done|]. intros _ i Hin. by apply not_elem_of_nil in Hin. }
  intros pre i Hi. apply prefix_elem, elem_of_seq in Hi.
  assert (forall h, I pre h -> (Q -> skip i = false -> ~ entry_exists v r i) -> I (pre ++ [i]) h) as Hsnoc.
  { intros h [Hh Hp] Hn. split; [done|]. intros q j [Hj| ->%list_elem_of_singleton]%elem_of_app; auto. }
  destruct (secondary sh i) as [c|] eqn:Hs.
  2: { apply spec_ret. intros h Hh. apply Hsnoc; [done|]. intros _ _ (_ & _ & _ & _ & c & ? & ? & _). congruence. }
  destruct (negb (bool_decide (kind_of sh i = regular)) || negb (is_unique sh i) ||
    any_null (key_info_of sh i) r || skip i) eqn:Hskip.
  { apply spec_ret. intros h Hh. apply Hsnoc; [done|]. intros _ Hsk (_ & Hk & Hu & Hn & _).
    rewrite Hk, Hu, Hn, Hsk, bool_decide_true in Hskip by done. done. }
  rewrite !orb_false_iff, !negb_false_iff, bool_decide_eq_true in Hskip. destruct Hskip as [[[Hk Hu] Hn] Hsk].
  apply spec_at. intros h0 [Hi0 Hp0].
  eapply spec_bind; [eapply spec_weaken; [apply (find_duplicate_spec k t d v c (full_key sh junk i r))|
    by intros ? ->|intros x h Hx; exact Hx|done]|].
  intros [rc|[suffix|]].
  - apply spec_ret. intros h [Hh Hf]. split; [|by apply checked_lib]. by destruct rc; try done; destruct Hf.
  - apply (spec_pure _ (live v c (full_key sh junk i r ++ suffix))); [by intros h [_ ?]|]. intros Hl.
    eapply spec_bind; [eapply spec_weaken; [apply dup_on_index_spec|by intros h [? _]|intros x h Hx; exact Hx|done]|].
    intros code. apply spec_ret. intros h [-> Hh]. split; [done|]. exists i. split; [|done]. split; [|done].
    split_and!; try done; [lia|]. by exists c, suffix.
  - apply spec_ret. intros h [Hh Hn']. apply Hsnoc; [by split|].
    intros q _ (_ & _ & _ & _ & c' & suffix & Hs' & Hl). simplify_eq. by apply (Hn' q suffix).
Qed.

(** ** Foreign keys and index maintenance *)

(** A foreign-key check leaves the table alone. *)
Lemma fk_spec k t d v (m : M E Z) :
  (exists r, m = fk_check_child t r \/ m = fk_enforce_parent_delete t r \/
             exists r', m = fk_enforce_parent_update t r r') ->
  spec (inv k t d v) (on_lib m)
    (fun _ h => exists ws, Forall (elsewhere sh) ws /\ inv k t d (apply_writes ws v) h) (durable d).
Proof.
  intros Hm. eapply spec_weaken; [apply (inv_lib k t d v m
    (fun _ v' => exists ws, Forall (elsewhere sh) ws /\ v' = apply_writes ws v))|done| |done].
  - intros ws Hws. eapply spec_weaken; [apply (fk_laws m t Hm d ws Q)|done| |done].
    intros c e [(ws' & He & Hw) Hq]. split; [|done]. exists (ws ++ ws'). split; [done|].
    exists ws'. rewrite apply_writes_app, Hws. split; [|done]. eapply Forall_impl; [exact Hw|]. apply elsewhere_families.
  - intros c h (v' & (ws & Hw & ->) & Hi). eauto.
Qed.

Context (covered : nat -> Prop).
#[local] Abbreviation part := (part_rep sh stored covered).
#[local] Abbreviation rep := (table_rep sh fields stored covered).

(** The loop over the indexes: each step brings its own index up to date or fails. *)
Lemma maintain_spec (K : core_t -> Prop) t d data rows rows' (body : nat -> bytes -> M hdl (option tdb_rc)) :
  (forall pre i c k v, (i < num_keys sh)%nat -> i ∉ pre -> secondary sh i = Some c -> K k -> part data pre rows rows' v ->
     spec (inv k t d v) (body i c)
       (fun r h => match r with
          | None => exists k' v', K k' /\ part data (pre ++ [i]) rows rows' v' /\ inv k' t d v' h
          | Some rc => fails TDB_SUCCESS rc /\ durable d h
          end) (durable d)) ->
  forall k v, K k -> part data [] rows rows' v ->
  spec (inv k t d v)
    (if num_secondary_indexes sh =? 0 then ret TDB_SUCCESS
     else r <-- for_each (seq 0 (num_keys sh)) (fun i =>
                  match secondary sh i with None => ret None | Some c => body i c end);
          ret (default TDB_SUCCESS r))%eff
    (fun rc h => match rc with
       | TDB_SUCCESS => exists k' v', K k' /\ part data [] rows' rows' v' /\ inv k' t d v' h
       | _ => (Q -> False) /\ durable d h
       end) (durable d).
Proof.
  intros Hb k v Hk Hp. destruct (Z.eqb_spec (num_secondary_indexes sh) 0) as [Hn|Hn].
  { apply spec_ret. intros h Hi. exists k, v. split_and!; [done| |done]. destruct Hp as (? & ? & ? & Hx).
    split_and!; [done..|]. intros i c Hlt Hs. apply secondary_num in Hs. lia. }
  set (I pre (h : hdl) := exists k v, K k /\ part data pre rows rows' v /\ inv k t d v h).
  apply (spec_bind _ _ (fun (r : option tdb_rc) h =>
    match r with Some rc => fails TDB_SUCCESS rc /\ durable d h | None => I (seq 0 (num_keys sh)) h end)).
  2: { intros [rc|]; apply spec_ret; intros h; simpl.
       - intros [[Hf Hq] Hd]. by destruct rc.
       - intros (k' & v' & ? & Hall%part_rep_all & ?). by exists k', v'. }
  eapply (spec_weaken _ (I [])); [apply spec_for_each_pre| |intros r h Hx; exact Hx|done].
  - intros pre i Hi. pose proof (prefix_fresh _ _ _ (NoDup_seq _ _) Hi) as Hfr.
    apply prefix_elem, elem_of_seq in Hi. destruct (secondary sh i) as [c|] eqn:Hs.
    + apply spec_at. intros h0 (k0 & v0 & ? & ? & ?). eapply spec_weaken; [apply (Hb pre i c k0 v0); [lia|done..]|by intros ? ->| |done].
      intros [rc|] h; simpl; [done|]. done.
    + apply spec_ret. intros h (k0 & v0 & ? & ? & ?). exists k0, v0. split_and!; [done|by apply part_rep_skip|done].
  - by intros h.
  - intros h Hi. by exists k, v.
Qed.

(** ** Mid-statement commits *)

Lemma fts_update_meta_spec k t d v (m : fts_meta_delta_t) :
  (forall i, secondary sh i <> Some (data_cf m)) ->
  spec (inv k t d v) (on_lib (fts_update_meta t m))
    (fun rc h => (rc = TDB_SUCCESS /\ exists w, elsewhere sh w /\ inv k t d (apply_write w v) h) \/
                 (fails TDB_SUCCESS rc /\ inv k t d v h)) (durable d).
Proof.
  intros Hm. eapply spec_weaken; [apply (inv_lib k t d v _ (fun rc v' =>
    (rc = TDB_SUCCESS /\ exists w, elsewhere sh w /\ v' = apply_write w v) \/ (fails TDB_SUCCESS rc /\ v' = v)))|done| |done].
  2: { intros rc h (v' & [[-> (w & ? & ->)]|[? ->]] & Hi); [left|right]; eauto. }
  intros ws Hws. unfold fts_update_meta, fts_load_meta.
  apply (spec_bind _ _ (fun r e => ((committed e = d /\ pending e t = ws) /\ (Q -> quiet e)) /\
    (r.1 = TDB_SUCCESS \/ r.1 = TDB_ERR_NOT_FOUND \/ fails TDB_SUCCESS r.1))).
  { eapply spec_bind; [eapply spec_when; [apply txn_get_law|apply quiet_get]|]. intros r. apply spec_ret.
    intros e [[[Hd Hw] Hr] Hq]. split_and!; [done..|by intros q; destruct (Hq q)|].
    destruct r as [rc|x]; simpl; [|by left]. right.
    destruct (decide (rc = TDB_ERR_NOT_FOUND)) as [->|Hne]; [by left|right]. split; [by destruct rc|].
    intros q. destruct (Hq q) as [_ [[= ->]|(x & [=])]]. done. }
  intros [rrc [docs words]]. simpl. destruct (negb (tdb_ok rrc) && negb (bool_decide (rrc = TDB_ERR_NOT_FOUND))) eqn:Ec.
  - apply spec_ret. intros e [[He Hq] Hr]. split; [|done]. exists ws. split; [done|]. right. split; [|done].
    apply andb_true_iff in Ec as [E1 E2]. rewrite negb_true_iff in E1, E2.
    apply bool_decide_eq_false in E1, E2. by destruct Hr as [?|[?|?]].
  - eapply spec_weaken; [apply (spec_when Q _ _ _ _ _ _ _ (txn_put_law d ws t (data_cf m) _ _) (quiet_put t (data_cf m) _ _))|
      by intros e [? _]| |done].
    intros rc e [[Hd Hw] Hq]. split; [|by intros q; destruct (Hq q)]. eexists. split; [done|].
    destruct (decide (rc = TDB_SUCCESS)) as [->|Hne].
    + left. split; [done|]. eexists. split; [by apply meta_elsewhere|]. by rewrite apply_writes_app, Hws.
    + right. split; [split; [done|by intros q; destruct (Hq q)]|]. by destruct rc.
Qed.

Lemma clear_meta_spec k t d v : spec (inv k t d v) clear_meta (fun _ => inv k t d v) (durable d).
Proof. apply map_trx_spec; [done|]. intros. by apply Forall_nil_2. Qed.

Lemma flush_meta_spec k t d v :
  runs_in t k ->
  spec (inv k t d v) flush_trx_fts_meta_pending
    (fun rc h => (rc = TDB_SUCCESS /\ exists ws, Forall (elsewhere sh) ws /\ inv k t d (apply_writes ws v) h) \/
                 (fails TDB_SUCCESS rc /\ durable d h)) (durable d).
Proof.
  intros [_ Hx].
  assert (forall v, spec (inv k t d v) (clear_meta;; ret TDB_SUCCESS)%eff
    (fun rc h => (rc = TDB_SUCCESS /\ exists ws, Forall (elsewhere sh) ws /\ inv k t d (apply_writes ws v) h) \/
                 (fails TDB_SUCCESS rc /\ durable d h)) (durable d)) as Hclear.
  { intros v0. eapply spec_bind; [apply clear_meta_spec|]. intros ?. apply spec_ret. intros h Hi. left.
    split; [done|]. by exists []. }
  unfold flush_trx_fts_meta_pending. apply spec_bind_gets. intros trx. apply spec_at. intros h0 [Hi0 Htrx].
  eapply (spec_weaken _ (inv k t d v)); [|by intros ? ->|intros rc h Hrc; exact Hrc|done].
  destruct trx as [x|]; [|apply spec_ret; intros h Hi; left; split; [done|by exists []]].
  destruct (trx_txn x) as [t'|] eqn:Et; [|done]. destruct (fts_meta_pending x) as [|m0 pend] eqn:Ep; [done|].
  assert (t' = t) as ->.
  { destruct Hi0 as [Hk _]. unfold core in Hk. rewrite Htrx in Hk. subst k. simpl in Hx. rewrite Et in Hx. destruct Hx; congruence. }
  assert (Forall (fun m => forall i, secondary sh i <> Some (data_cf m)) (m0 :: pend)) as Hpend.
  { destruct Hi0 as (_ & Hm & _). unfold meta_ok in Hm. by rewrite Htrx, Ep in Hm. }
  destruct (fts_meta_dirty x); [|done].
  set (I (pre : list fts_meta_delta_t) (h : hdl) := exists ws, Forall (elsewhere sh) ws /\ inv k t d (apply_writes ws v) h).
  apply (spec_bind _ _ (fun (r : option tdb_rc) h =>
    match r with Some rc => fails TDB_SUCCESS rc /\ exists v', inv k t d v' h | None => I [] h end)).
  - eapply (spec_weaken _ (I [])); [apply (spec_for_each_pre I)| |intros r h Hr; exact Hr|done].
    + intros pre m Hm%prefix_elem. apply spec_at. intros h1 (ws & Hws & Hi1).
      eapply spec_bind; [eapply spec_weaken; [apply (fts_update_meta_spec k t d (apply_writes ws v) m)|by intros ? ->|
        intros rc h Hrc; exact Hrc|done]|].
      { by apply (proj1 (Forall_forall _ _) Hpend). }
      intros rc. apply spec_ret. intros h [[-> (w & Hw & Hi)]|[Hf Hi]].
      * simpl. exists (ws ++ [w]). rewrite apply_writes_app. split; [by apply Forall_app; split; [|apply Forall_singleton]|done].
      * unfold tdb_ok. rewrite bool_decide_false by apply Hf. eauto.
    + by intros h Hh.
    + intros h Hi. by exists [].
  - intros [rc|].
    + apply spec_at. intros h1 [Hf (v1 & Hi1)].
      eapply spec_bind; [eapply spec_weaken; [apply (clear_meta_spec k t d v1)|by intros ? ->|intros u h Hu; exact Hu|done]|].
      intros ?. apply spec_ret. intros h (_ & _ & Hd & _). by right.
    + apply spec_at. intros h1 (ws & Hws & Hi1).
      eapply spec_bind; [eapply spec_weaken; [apply (clear_meta_spec k t d (apply_writes ws v))|by intros ? ->|intros u h Hu; exact Hu|done]|].
      intros ?. apply spec_ret. intros h Hi. left. eauto.
Qed.

(** What a crash or a failed batch leaves: the old durable contents, or those of the table. *)
Definition survives d rows (h : hdl) : Prop := durable d h \/ rep rows (committed (lib h)).

(** Between two transactions. *)
Definition settled k d (h : hdl) : Prop := core h = k /\ meta_ok h /\ committed (lib h) = d /\ (Q -> quiet (lib h)).

Lemma settled_lib {A} k d (m : M E A) (R : A -> E -> Prop) (C : E -> Prop) :
  spec (fun e => committed e = d /\ (Q -> quiet e)) m R C ->
  spec (settled k d) (on_lib m) (fun a h => (core h = k /\ meta_ok h) /\ R a (lib h)) (fun h => C (lib h)).
Proof.
  intros H. apply spec_lift. intros h (Hk & Hm & Hd & Hq). intros e ->. specialize (H (lib h) (conj Hd Hq)).
  by destruct (m (lib h)) as [e' [a|]].
Qed.

Definition moved t' k : core_t := Core (Some t') (Some (Some t')) (c_pk k) (c_bulk k) (c_dup k) (c_next k).

(** The fields of the handler a batch boundary does not touch. *)
Definition same_row k k' : Prop :=
  c_pk k' = c_pk k /\ set_bulk_ops 0 (c_bulk k') = set_bulk_ops 0 (c_bulk k) /\ c_dup k' = c_dup k /\ c_next k' = c_next k.

(** The table as the statement goes on to see it. *)
Definition goes_on k d rows (h : hdl) : Prop :=
  exists t' k' d' v', runs_in t' k' /\ same_row k k' /\ rep rows v' /\ inv k' t' d' v' h /\ survives d rows h.

Definition batch k d rows (code : ha_code) (h : hdl) : Prop :=
  match code with
  | HA_OK => goes_on k d rows h
  | HA_LIB _ => (Q -> False) /\ survives d rows h
  | _ => False
  end.

Lemma batch_lib k d rows rc (h : hdl) :
  fails TDB_SUCCESS rc -> survives d rows h -> batch k d rows (tdb_rc_to_ha rc) h.
Proof. intros [Hn Hq] Hs. by destruct rc. Qed.

(** The transaction a batch boundary installs. *)
Lemma install_spec k k0 t' d v rows (D : bool) :
  rep rows v -> is_Some (c_trx k0) -> same_row k k0 ->
  spec (fun h => (core h = k0 /\ meta_ok h) /\ (committed (lib h) = v /\ pending (lib h) t' = []) /\ (Q -> quiet (lib h)))
    (modify (map_trx (after_batch (Some t') D true));; modify (set_scan (Some t'));; ret HA_OK)%eff
    (batch k d rows) (survives d rows).
Proof.
  intros Hr [x Hx] Hs. unfold bind, modify, ret. intros h ((Hk & Hm) & (Hd & Hp) & Hq). simpl.
  exists t', (moved t' k0), v, v. subst k0. simpl in *.
  destruct (cached_trx_ h) as [y|] eqn:Ey; [|done]. split_and!.
  - split; [done|by right].
  - done.
  - done.
  - split_and!; try done.
    + unfold core, moved, map_trx. simpl. by rewrite Ey.
    + unfold meta_ok, map_trx in *. simpl. rewrite Ey in Hm. by rewrite Ey.
    + simpl. by rewrite Hp.
  - right. change (rep rows (committed (lib h))). by rewrite Hd.
Qed.

(** The batch's commit: its writes become durable together or not at all. *)
Lemma batch_commit_spec k t d v rows :
  rep rows v ->
  spec (inv k t d v) (on_lib (txn_commit t))
    (fun rc h => (rc = TDB_SUCCESS /\ settled k v h) \/
                 (fails TDB_SUCCESS rc /\ core h = k /\ meta_ok h /\ survives d rows h)) (survives d rows).
Proof.
  intros Hr. apply spec_lift. intros h (Hk & Hm & Hd & Hv & Hq) e ->.
  pose proof (txn_commit_law d _ t (lib h) (conj Hd eq_refl)) as H1. rewrite Hv in H1.
  assert (Q -> spec quiet (txn_commit t) (fun rc e => quiet e /\ rc = TDB_SUCCESS) quiet) as H2 by (intros _; apply quiet_commit).
  assert (Q -> match txn_commit t (lib h) with (e, Ret rc) => quiet e /\ rc = TDB_SUCCESS | (e, Crash) => quiet e end) as H3
    by (intros q; by apply (H2 q), Hq).
  unfold survives, durable. destruct (txn_commit t (lib h)) as [e' [rc|]]; simpl in *.
  - destruct (decide (rc = TDB_SUCCESS)) as [->|Hne].
    + left. split; [done|]. split_and!; try done. intros q. by apply (H3 q).
    + right. split; [split; [done|by intros q; destruct (H3 q)]|]. split_and!; [done..|].
      destruct rc; try done; [destruct H1 as [->| ->]; auto|by left|destruct H1 as [->| ->]; auto].
  - destruct H1 as [->| ->]; auto.
Qed.

(** A fresh transaction. *)
Lemma batch_begin_spec k d :
  spec (settled k d) (on_lib txn_begin)
    (fun r h => (core h = k /\ meta_ok h) /\
       match r with
       | inr t' => (committed (lib h) = d /\ pending (lib h) t' = []) /\ (Q -> quiet (lib h))
       | inl rc => fails TDB_SUCCESS rc /\ durable d h
       end) (durable d).
Proof.
  eapply spec_weaken; [apply (settled_lib k d _ _ _ (spec_when Q _ _ _ _ _ _ _ (txn_begin_law d) quiet_begin))|done| |done].
  intros r h [Hk [[Hd Hr] Hq]]. split; [done|]. destruct r as [rc|t'].
  - split; [|done]. split; [done|]. intros q. by destruct (Hq q) as [_ [? ?]].
  - split; [done|]. by intros q; destruct (Hq q).
Qed.

(** Calls that leave the durable contents alone. *)
Lemma survives_lib {A} d rows (m : M E A) (R : A -> Prop) :
  (forall d, spec (fun e => committed e = d) m (fun a e => committed e = d /\ R a) (fun e => committed e = d)) ->
  spec (survives d rows) (on_lib m) (fun a h => survives d rows h /\ R a) (survives d rows).
Proof.
  intros H. apply spec_lift. intros h Hs e ->. specialize (H (committed (lib h)) (lib h) eq_refl).
  unfold survives, durable in *. destruct (m (lib h)) as [e' [a|]]; simpl; [|by rewrite H].
  destruct H as [-> HR]. done.
Qed.

(** The batch boundary once the commit went through, and once it failed. *)
Lemma next_batch_spec k t d v rows :
  rep rows v -> is_Some (c_trx k) ->
  spec (settled k v)
    (rrc <-- on_lib (txn_reset t);
     next <-- (if tdb_ok rrc then ret (inr t) else modify (map_trx (set_trx_txn None));; on_lib txn_begin);
     match next with
     | inl rc => ret (tdb_rc_to_ha rc)
     | inr t' => modify (map_trx (after_batch (Some t') false true));; modify (set_scan (Some t'));; ret HA_OK
     end)%eff (batch k d rows) (survives d rows).
Proof.
  intros Hr Hk. assert (forall h, durable v h -> survives d rows h) as Hdur by (intros h Hd; right; by rewrite Hd).
  eapply spec_bind; [eapply spec_weaken; [apply (settled_lib k v _ _ _
    (spec_when Q _ _ _ _ _ _ _ (txn_reset_law v t) (quiet_reset t)))|done|intros rc h Hrc; exact Hrc|done]|].
  intros rrc. apply (spec_bind _ _ (fun next h => exists k0, (same_row k k0 /\ is_Some (c_trx k0)) /\ (core h = k0 /\ meta_ok h) /\
    match next with
    | inr t' => (committed (lib h) = v /\ pending (lib h) t' = []) /\ (Q -> quiet (lib h))
    | inl rc => fails TDB_SUCCESS rc /\ durable v h
    end)).
  - destruct (decide (rrc = TDB_SUCCESS)) as [->|Hne].
    + apply spec_ret. intros h [Hc [[Hd Hp] Hq]]. exists k. split_and!; try done; [apply Hc..|auto|].
      by intros q; destruct (Hq q).
    + unfold tdb_ok. rewrite bool_decide_false by done.
      set (k0 := Core (c_stmt k) (Some None) (c_pk k) (c_bulk k) (c_dup k) (c_next k)).
      eapply (spec_bind _ _ (fun _ => settled k0 v)).
      * apply spec_modify. intros h [[<- Hm] [[Hd _] Hq]]. destruct Hk as [x Hx].
        unfold settled, core, meta_ok, map_trx in *. simpl in *. destruct (cached_trx_ h); [|done].
        split_and!; try done. intros q. by destruct (Hq q).
      * intros _. eapply spec_weaken; [apply batch_begin_spec|done| |exact Hdur]. intros r h Hh. exists k0. split; [by split|]. done.
  - intros [rc|t'].
    + apply spec_ret. intros h (k0 & _ & _ & Hf & Hd). apply batch_lib; auto.
    + apply spec_at. intros h0 (k0 & [Hs Hk0] & Hh).
      eapply spec_weaken; [by apply (install_spec k k0 t' d v rows false)|by intros ? ->|intros code h Hb; exact Hb|done].
Qed.

Lemma failed_batch_spec k t d rows crc :
  fails TDB_SUCCESS crc ->
  spec (survives d rows)
    (on_lib (txn_rollback t);; modify (map_trx (set_trx_txn None));; b <-- on_lib txn_begin;
     match b with
     | inl brc => ret (tdb_rc_to_ha brc)
     | inr t' =>
         dt <-- gets (fun h => from_option dirty false (cached_trx_ h));
         modify (map_trx (after_batch (Some t') dt true));; modify (set_scan (Some t'));; ret (tdb_rc_to_ha crc)
     end)%eff (batch k d rows) (survives d rows).
Proof.
  intros Hf. eapply spec_bind; [apply (survives_lib d rows _ (fun _ => True)); intros d'|].
  { eapply spec_weaken; [apply (txn_rollback_law d')|done|intros a e He; by split|done]. }
  intros ?. eapply (spec_bind _ _ (fun _ => survives d rows)); [apply spec_modify; by intros h [? _]|]. intros _.
  eapply spec_bind; [apply (survives_lib d rows _ (fun r => match r with inl rc => rc <> TDB_SUCCESS | inr _ => True end)); intros d'|].
  { eapply spec_weaken; [apply (txn_begin_law d')|done| |done]. intros [rc|t'] e [? ?]; by split. }
  intros [brc|t'].
  - apply spec_ret. intros h [Hs Hne]. apply batch_lib; [|done]. split; [done|apply Hf].
  - apply spec_bind_gets_any. intros dt.
    eapply (spec_bind _ _ (fun _ => survives d rows)); [apply spec_modify; by intros h [? _]|]. intros _.
    eapply (spec_bind _ _ (fun _ => survives d rows)); [by apply spec_modify|]. intros _.
    apply spec_ret. intros h Hs. by apply batch_lib.
Qed.

Lemma maybe_bulk_commit_spec k t d v rows :
  runs_in t k -> rep rows v -> spec (inv k t d v) maybe_bulk_commit (batch k d rows) (survives d rows).
Proof.
  intros Hrun Hr. unfold maybe_bulk_commit. apply spec_bind_gets. intros trx.
  apply (spec_pure _ (trx_txn <$> trx = c_trx k)); [by intros h [[<- _] <-]|]. intros Htrx.
  assert (trx ≫= trx_txn = None \/ (trx ≫= trx_txn = Some t /\ is_Some (c_trx k))) as [Et|[Et Hk]].
  { destruct trx as [x|]; [|by left]. right. simpl in *. rewrite <- Htrx. destruct Hrun as [_ [Hx|Hx]];
      rewrite Hx in Htrx; simplify_eq. by eauto. }
  { rewrite Et. apply spec_ret. intros h [Hi _]. exists t, k, d, v. split_and!; try done. left. by destruct Hi as (_ & _ & ? & _). }
  rewrite Et. eapply spec_bind; [eapply spec_weaken; [by apply (flush_meta_spec k t d v)|by intros h [? _]|
    intros rc h Hrc; exact Hrc|by left]|].
  intros frc. destruct (decide (frc = TDB_SUCCESS)) as [->|Hne].
  2: { unfold tdb_ok. rewrite bool_decide_false by done. apply spec_ret.
       intros h [[? _]|[Hf Hd]]; [done|]. apply batch_lib; [done|by left]. }
  simpl. apply spec_at. intros h0 [[_ (ws & Hws & Hi0)]|[[? _] _]]; [|done].
  assert (rep rows (apply_writes ws v)) as Hr' by (by apply table_rep_elsewhere).
  eapply spec_bind; [eapply spec_weaken; [by apply (batch_commit_spec k t d (apply_writes ws v) rows)|by intros ? ->|
    intros rc h Hrc; exact Hrc|done]|].
  intros crc. destruct (decide (crc = TDB_SUCCESS)) as [->|Hne].
  - simpl. eapply spec_weaken; [by apply (next_batch_spec k t d (apply_writes ws v) rows)|intros h [[_ ?]|[[? _] _]]; done|done|done].
  - unfold tdb_ok. rewrite bool_decide_false by done. simpl.
    apply (spec_pure _ (fails TDB_SUCCESS crc)); [intros h [[? _]|[? _]]; done|]. intros Hf.
    eapply spec_weaken; [by apply (failed_batch_spec k t d rows crc)|intros h [[? _]|(_ & _ & _ & ?)]; done|done|done].
Qed.

Lemma goes_on_row k k' d rows (h : hdl) : same_row k k' -> goes_on k' d rows h -> goes_on k d rows h.
Proof.
  intros Hs (t1 & k1 & d1 & v1 & Hrun & Hs1 & Hr & Hi). exists t1, k1, d1, v1. split; [done|]. split; [|done].
  unfold same_row in *. destruct Hs as (? & ? & ? & ?), Hs1 as (? & ? & ? & ?). split_and!; congruence.
Qed.

Lemma batch_row k k' d rows code (h : hdl) : same_row k k' -> batch k' d rows code h -> batch k d rows code h.
Proof. intros Hs. destruct code; try done. by apply goes_on_row. Qed.

Lemma set_bulk_ops_goes_on k d rows n :
  spec (goes_on k d rows) (modify (map_bulk (set_bulk_ops n)))
    (fun _ => goes_on k d rows) (survives d rows).
Proof.
  apply spec_modify. intros h (t1 & k1 & d1 & v1 & Hrun & Hs1 & Hr & Hi & Hsv).
  exists t1, (at_bulk (set_bulk_ops n (c_bulk k1)) k1), d1, v1. split_and!; try done.
  destruct Hi as (<- & Hi). done.
Qed.

Lemma bulk_flush_spec k t d v rows w :
  runs_in t k -> rep rows v -> spec (inv k t d v) (bulk_flush_if_threshold w) (batch k d rows) (survives d rows).
Proof.
  intros Hrun Hr. unfold bulk_flush_if_threshold.
  set (k1 := at_bulk (set_bulk_ops (u64 (bulk_insert_ops_ (c_bulk k) + w)) (c_bulk k)) k).
  eapply (spec_bind _ _ (fun _ => inv k1 t d v)); [apply inv_modify; [by intros h <-|done|done]|]. intros _.
  apply gets_any. intros ops. case_match.
  - eapply spec_bind; [apply (maybe_bulk_commit_spec k1 t d v rows); done|]. intros code.
    destruct (decide (code = HA_OK)) as [->|Hne].
    + rewrite bool_decide_true by done. eapply spec_bind; [apply (set_bulk_ops_goes_on k1)|]. intros ?.
      apply spec_ret. intros h Hg. by apply (goes_on_row k k1).
    + rewrite bool_decide_false by done. apply spec_ret. intros h Hb. by apply (batch_row k k1).
  - apply spec_ret. intros h Hi. exists t, k1, d, v. split_and!; try done. left. by destruct Hi as (_ & _ & ? & _).
Qed.

(** The tail of the row operations: a batch boundary when the statement is a bulk one. *)
Lemma maybe_flush_spec k t d v rows (b : bulk -> bool) w :
  runs_in t k -> rep rows v ->
  spec (inv k t d v) (x <-- gets (fun h => b (bulk_of h)); if x then bulk_flush_if_threshold w else ret HA_OK)%eff
    (batch k d rows) (survives d rows).
Proof.
  intros Hrun Hr. apply gets_any. intros []; [by apply bulk_flush_spec|].
  apply spec_ret. intros h Hi. exists t, k, d, v. split_and!; try done. left. by destruct Hi as (_ & _ & ? & _).
Qed.

End Ops.

End DmlSpec.
