(* ===== verification/DmlInsert.v ===== *)
(** * INSERT refines the abstract table

    [write_row] carries a represented table to the one with the record added under its primary key; it
    reports a duplicate exactly when a row of the table has the record's primary key or its value in a
    unique index, and then changes nothing.  Section [Insert] proves it against the library's laws and
    [DmlSpec.ServicesOk]. *)
From S2P Require Import Prelude Effects TidesDb RowDb RowFormat FtsText Table KeyCodec Dml TableRep DmlSpec.
Import Table KeyCodec Dml TableRep DmlSpec.
#[local] Open Scope Z_scope.
#[local] Open Scope tdb_scope.

Module DmlInsert.

Section Insert.
Context {E txn : Type} `{!TidesDb E txn, !RowDb E txn, !QuietDb E txn, !QuietRows E txn, !RowServices E txn}
  {SF : ServerField} {CS : FtsText.charset}.
Context (sh : share) (ses : session) (junk : memory) (fields : list Field) (Q : Prop).
Context `{!ServicesOk E txn (families_of sh) (encrypted sh)} (Ht : table_ok sh).
Context (covered : nat -> Prop) (Hcov : forall i, kind_of sh i = regular -> covered i).
Local Open Scope eff_scope.

#[local] Abbreviation hdl := (handler E txn).
#[local] Abbreviation part := (part_rep sh stored covered).
#[local] Abbreviation rep := (table_rep sh fields stored covered).
Implicit Types (t : txn) (d v : store) (k : core_t (txn := txn)) (rows data : gmap bytes record).

(** ** Index entries *)

(** The entries of a new row are put into index [i]. *)
Lemma row_added data pre rows v i c pk r :
  rows_ok sh fields rows -> good sh fields r -> rows !! pk = None -> i ∉ pre -> secondary sh i = Some c ->
  part data pre rows (<[pk := r]> rows) v ->
  part data (pre ++ [i]) rows (<[pk := r]> rows) (apply_writes (map (put_of c) (entries sh i r pk)) v).
Proof.
  intros Ho Hg Hn Hi Hs Hp. apply (part_rep_step sh stored covered data pre rows _ v i c); try done.
  - apply Forall_map, Forall_true. done.
  - intros Hlt Hc. destruct Hp as (_ & _ & Hf & Hx). specialize (Hx i c Hlt Hs Hc). rewrite decide_False in Hx by done.
    apply (entries_added c (good sh fields)); try done; [by apply entries_owned|by eapply Hf|].
    by apply rows_ok_good.
Qed.

Lemma write_maintain_spec k t d v rows r pk :
  rows_ok sh fields rows -> good sh fields r -> pk_of sh r pk = pk -> c_pk k = pk ->
  rows !! pk = None \/ num_secondary_indexes sh = 0 ->
  part (<[pk := r]> rows) [] rows (<[pk := r]> rows) v ->
  spec (inv sh Q k t d v) (write_maintain_indexes sh junk r t pk)
    (fun rc h => match rc with
       | TDB_SUCCESS => exists v', part (<[pk := r]> rows) [] (<[pk := r]> rows) (<[pk := r]> rows) v' /\ inv sh Q k t d v' h
       | _ => (Q -> False) /\ durable d h
       end) (durable d).
Proof.
  intros Ho Hg Hpk Hcur Hn Hp.
  eapply spec_weaken; [apply (maintain_spec sh Q covered (fun k' => k' = k) t d (<[pk := r]> rows) rows (<[pk := r]> rows))|done| |done];
    [|done|exact Hp|].
  2: { intros [] h; try done. intros (k' & v' & -> & ? & ?). by exists v'. }
  intros pre i c k' v0 Hlt Hfr Hs -> Hp0.
  assert (rows !! pk = None) as Hnone by (destruct Hn; [done|]; apply secondary_num in Hs; lia).
  pose proof (row_added _ pre rows v0 i c pk r Ho Hg Hnone Hfr Hs Hp0) as Hadd.
  assert (spec (inv sh Q k t d v0) (puts t c (entries sh i r pk))
    (fun x h => match x with
       | None => exists k' v', k' = k /\ part (<[pk := r]> rows) (pre ++ [i]) rows (<[pk := r]> rows) v' /\ inv sh Q k' t d v' h
       | Some rc => fails Q TDB_SUCCESS rc /\ durable d h end) (durable d)) as Hputs.
  { eapply spec_weaken; [apply puts_spec|done| |done]. intros [rc|] h.
    - intros [Hf (v' & _ & _ & Hd & _)]. done.
    - intros Hi. eauto. }
  unfold entries in Hputs. destruct (kind_of sh i) eqn:Hk.
  - eapply spec_bind; [by apply (gets_spec sh Q k t d v0 _ c_pk)|]. intros cur.
    apply (spec_pure _ (cur = pk)); [intros h [-> _]; done|]. intros ->.
    rewrite (sec_idx_key_eq sh junk fields), Hpk by done. eapply spec_weaken; [|by intros h [_ ?]|intros x h Hx; exact Hx|done].
    eapply spec_ext; [|exact Hputs]. intros h. unfold puts, for_each, bind, ret. simpl.
    destruct (put _ _ _ _ h) as [h' [rc|]]; [|done]. by destruct (tdb_ok rc).
  - unfold write_fts_index. eapply spec_bind; [exact Hputs|]. intros [rc|].
    + by apply spec_ret.
    + apply spec_at. intros h0 (k' & v' & -> & Hp' & Hi').
      eapply spec_bind; [eapply spec_weaken; [by apply (accumulate_spec sh Q Ht k t d v')|by intros ? ->|intros u h Hu; exact Hu|done]|].
      intros ?. apply spec_ret. intros h Hi. by exists k, v'.
  - exact Hputs.
Qed.

(** ** Duplicates *)

(** The row the table has already: under the same primary key, or with the same value in index [i]. *)
Definition conflict rows (r : record) (pk : bytes) (i : nat) : Prop :=
  (has_user_pk (codec sh) = true /\ i = pk_index (codec sh) /\ is_Some (rows !! pk)) \/ clashes sh rows r i.

(** Whether the primary key is looked up before the insert. *)
Definition pk_checked (skip : bool) : bool :=
  negb (negb (has_user_pk (codec sh)) || skip || (write_can_replace_ ses && (num_secondary_indexes sh =? 0))).

Lemma rep_entry_exists rows v r i : rep rows v -> good sh fields r -> entry_exists sh junk v r i <-> clashes sh rows r i.
Proof.
  intros [Ho (_ & _ & _ & Hx)] Hg. split.
  - intros (Hlt & Hk & Hu & Hn & c & suffix & Hs & Hl). split_and!; try done.
    apply (live_entry sh junk fields rows v i c r); eauto.
  - intros (Hlt & Hk & Hu & Hn & [c Hs] & Hr). split_and!; try done.
    apply (live_entry sh junk fields rows v i c r) in Hr as [suffix Hl]; eauto.
Qed.

Lemma write_check_pk_spec k t d v rows pk skip :
  runs_in t k -> rep rows v ->
  spec (inv sh Q k t d v) (write_check_pk_unique sh ses (RowFormat.build_data_key pk) pk skip)
    (checked sh Q k t d v (pk_checked skip = true -> rows !! pk = None)
       (fun i => has_user_pk (codec sh) = true /\ i = pk_index (codec sh) /\ is_Some (rows !! pk))) (durable d).
Proof.
  intros Hrun [_ (_ & Hd & _)]. unfold write_check_pk_unique, pk_checked. destruct (_ || _) eqn:Ec.
  - by apply spec_ret.
  - eapply spec_weaken; [by apply (pk_check_spec sh Q k t d v)|done| |done].
    intros code h Hc. eapply checked_weaken; [exact Hc| |].
    + intros Hn _. apply eq_None_not_Some. by rewrite <- (live_row sh stored rows v pk Hd).
    + intros i [-> Hl]. apply (live_row sh stored rows v pk Hd) in Hl. split_and!; try done.
      by destruct (has_user_pk (codec sh)).
Qed.

Lemma write_check_secondary_spec k t d v rows r :
  rep rows v -> good sh fields r ->
  spec (inv sh Q k t d v) (write_check_secondary_unique sh ses junk r t)
    (checked sh Q k t d v (cached_skip_unique_ ses = false -> Q -> forall i, ~ clashes sh rows r i) (clashes sh rows r))
    (durable d).
Proof.
  intros Hr Hg. unfold write_check_secondary_unique.
  assert (forall i, clashes sh rows r i -> 0 < num_secondary_indexes sh) as Hnum.
  { intros i (_ & _ & _ & _ & [c Hs] & _). by apply secondary_num in Hs. }
  destruct (negb _) eqn:Ec.
  - apply spec_ret. intros h Hi. split; [done|]. intros Hs _ i Hx. apply Hnum in Hx. rewrite Hs in Ec.
    destruct (Z.ltb_spec 0 (num_secondary_indexes sh)); [done|lia].
  - eapply spec_weaken; [eapply spec_ext; [|apply (secondary_check_spec sh junk Q k t d v r (fun _ => false))]|done| |done].
    + intros h. unfold bind at 1 3. erewrite for_each_ext; [reflexivity|]. intros i. cbv beta. by rewrite orb_false_r.
    + intros code h Hc. eapply checked_weaken; [exact Hc| |].
      * intros Hn _ q i Hx. apply (Hn q i); [done|]. by apply (rep_entry_exists rows v).
      * intros i [Hx _]. by apply (rep_entry_exists rows v).
Qed.

(** ** The operation *)

(** What the insert of [r] under [pk] answers, and what it has done by then. *)
Definition inserted k t d v rows (r : record) (pk : bytes) (auto : bool) (code : ha_code) (h : hdl) : Prop :=
  match code with
  | HA_OK =>
      goes_on sh fields Q covered (at_pk pk k) d (<[pk := r]> rows) h /\
      (pk_checked (cached_skip_unique_ ses || auto) = true -> rows !! pk = None) /\
      (cached_skip_unique_ ses = false -> Q -> forall i, ~ clashes sh rows r i)
  | HA_ERR_FOUND_DUPP_KEY => exists i, conflict rows r pk i /\ inv sh Q (at_dup i k) t d v h
  | HA_LIB _ => (Q -> False) /\ survives sh fields covered d (<[pk := r]> rows) h
  | HA_SERVER _ | HA_ERR_GENERIC | HA_ERR_OUT_OF_MEM => durable d h
  end.

Lemma inserted_error k t d v rows r pk auto clear taken code (h : hdl) :
  code <> HA_OK -> checked sh Q k t d v clear taken code h -> (forall i, taken i -> conflict rows r pk i) ->
  inserted k t d v rows r pk auto code h.
Proof.
  intros Hne Hc Ht'. destruct code; try done; simpl in *.
  - destruct Hc as (i & Hi & ?). eauto.
  - destruct Hc as [Hq (_ & _ & Hd & _)]. split; [done|]. by left.
Qed.

Lemma inserted_lib k t d v rows r pk auto rc (h : hdl) :
  fails Q TDB_SUCCESS rc -> durable d h -> inserted k t d v rows r pk auto (tdb_rc_to_ha rc) h.
Proof. intros [Hn Hq] Hd. destruct rc; try done; (split; [done|by left]). Qed.

Lemma write_row_body_spec k t d v rows r pk b auto :
  runs_in t k -> rep rows v -> good sh fields r -> pk_of sh r pk = pk -> stored r b ->
  (pk_checked (cached_skip_unique_ ses || auto) = false -> rows !! pk = None \/ num_secondary_indexes sh = 0) ->
  spec (inv sh Q k t d v) (write_row_body sh ses junk r pk b auto t) (inserted k t d v rows r pk auto)
    (survives sh fields covered d (<[pk := r]> rows)).
Proof.
  intros Hrun Hr Hg Hpk Hb Hfree. unfold write_row_body.
  assert (forall h : hdl, durable d h -> survives sh fields covered d (<[pk := r]> rows) h) as Hdur by (by left).
  eapply spec_bind; [eapply spec_crash; [by apply (mark_dirty_spec sh Q k t d v)|exact Hdur]|]. intros ?.
  apply (spec_checked sh Q k t d v (pk_checked (cached_skip_unique_ ses || auto) = true -> rows !! pk = None)
    (fun i => has_user_pk (codec sh) = true /\ i = pk_index (codec sh) /\ is_Some (rows !! pk)) _ _ (fun c => c));
    [eapply spec_crash; [by apply write_check_pk_spec|exact Hdur]| |].
  2: { intros code h Hne Hc. eapply inserted_error; [done|exact Hc|]. by left. }
  intros Hfresh. apply (spec_checked sh Q k t d v
    (cached_skip_unique_ ses = false -> Q -> forall i, ~ clashes sh rows r i) (clashes sh rows r) _ _ (fun c => c));
    [eapply spec_crash; [by apply write_check_secondary_spec|exact Hdur]| |].
  2: { intros code h Hne Hc. eapply inserted_error; [done|exact Hc|]. by right. }
  intros Huniq. eapply spec_bind; [eapply spec_crash; [apply (fk_spec sh Q k t d v); exists r; by left|exact Hdur]|].
  intros frc. apply spec_at. intros h0 (ws & Hws & Hi0).
  apply (spec_pre _ (inv sh Q k t d (apply_writes ws v))); [|by intros ? ->]. destruct (Z.eqb_spec frc 0) as [->|Hne]; simpl.
  2: { apply spec_ret. intros h (_ & _ & ? & _). done. }
  assert (part rows [] rows (<[pk := r]> rows) (apply_writes ws v)) as Hp by (apply part_rep_elsewhere; [done|apply Hr]).
  eapply spec_bind; [eapply spec_crash; [apply row_put_spec|exact Hdur]|]. intros rc.
  destruct (decide (rc = TDB_SUCCESS)) as [->|Hrc]; unfold tdb_ok.
  2: { rewrite bool_decide_false by done. apply spec_ret. intros h [[? _]|[Hf (_ & _ & Hd & _)]]; [done|].
       by apply inserted_lib. }
  rewrite bool_decide_true by done. simpl.
  set (v1 := apply_write (W_put (cf sh) (RowFormat.build_data_key pk) b) (apply_writes ws v)).
  assert (part (<[pk := r]> rows) [] rows (<[pk := r]> rows) v1) as Hp1 by (by apply data_put).
  eapply (spec_bind _ _ (fun _ => inv sh Q (at_pk pk k) t d v1)).
  { eapply spec_pre; [apply (inv_modify sh Q k (at_pk pk k) t d v1); [by intros h <-|done|done]|].
    intros h [[_ Hi]|[[? _] _]]; done. }
  intros _. eapply spec_bind; [eapply spec_crash; [apply (write_maintain_spec (at_pk pk k) t d v1 rows r pk);
    [apply Hr|done|done|done| |done]|exact Hdur]|].
  { destruct (pk_checked _) eqn:Ec; auto. }
  intros rc. destruct (decide (rc = TDB_SUCCESS)) as [->|Hrc].
  2: { rewrite bool_decide_false by done. apply spec_ret. intros h Hx.
       assert ((Q -> False) /\ durable d h) as [? ?] by (by destruct rc). by apply inserted_lib. }
  simpl. apply spec_at. intros h1 (v2 & Hp2 & Hi2).
  eapply spec_weaken; [apply (maybe_flush_spec sh fields Q covered (at_pk pk k) t d v2 (<[pk := r]> rows) in_bulk_insert_)|
    by intros ? ->| |done].
  - done.
  - split; [|done]. apply rows_ok_insert; [apply Hr|done|done].
  - intros code h Hbt. by destruct code.
Qed.

(** The record the server's auto-increment turns [r] into, and whether it generated the primary key. *)
Definition numbered_as (r : record) (in_record0 : bool) (r' : record) (auto : bool) : Prop :=
  if has_next_number sh && in_record0 then
    numbered r r' /\ auto = (next_number r =? 0) && has_user_pk (codec sh) &&
      Nat.eqb (length (key_part (key_info_of sh (pk_index (codec sh))))) 1
  else r' = r /\ auto = false.

(** The key the row goes under: its own, or the next row id. *)
Definition new_pk k (r : record) : bytes := pk_of sh r (RowFormat.encode_be64 (c_next k)).

(** The row id is used up. *)
Definition bumped k : core_t :=
  if has_user_pk (codec sh) then k
  else Core (c_stmt k) (c_trx k) (c_pk k) (c_bulk k) (c_dup k) (u64 (c_next k + 1)).

Lemma bumped_runs_in t k : runs_in t k -> runs_in t (bumped k).
Proof. unfold bumped. by destruct (has_user_pk (codec sh)). Qed.

Lemma numbered_spec k t d v r in0 :
  spec (inv sh Q k t d v)
    (if has_next_number sh && in0 then write_row_auto_increment sh r else ret (HA_OK, r, false))
    (fun x h => inv sh Q k t d v h /\
       (if bool_decide (x.1.1 = HA_OK) then numbered_as r in0 x.1.2 x.2 else exists c, x.1.1 = HA_SERVER c)) (durable d).
Proof.
  unfold numbered_as. destruct (has_next_number sh && in0); [|by apply spec_ret].
  eapply spec_bind; [eapply spec_weaken; [apply (inv_lib sh Q k t d v _ (fun er v' => v' = v /\ (er.1 = 0 -> numbered r er.2)))|
    done|intros er h Hx; exact Hx|done]|].
  { intros ws Hws. eapply spec_weaken; [apply (auto_increment_law d ws t Q r)|done| |done].
    intros er e [[He Hq] Hn]. split; [|done]. exists ws. by rewrite Hws. }
  intros [ai_err r']. apply (spec_pre _ (fun h => inv sh Q k t d v h /\ (ai_err = 0 -> numbered r r'))).
  2: { intros h (v' & [-> ?] & ?). done. }
  apply (spec_pure _ (ai_err = 0 -> numbered r r')); [by intros h [_ ?]|]. intros Hn.
  destruct (Z.eqb_spec ai_err 0) as [->|Hne]; simpl.
  - eapply (spec_bind _ _ (fun _ => inv sh Q k t d v)).
    + eapply spec_pre; [by apply (inv_modify sh Q k k)|by intros h [? _]].
    + intros _. apply spec_ret. intros h Hi. simpl. auto.
  - apply spec_ret. intros h [Hi _]. split; [done|]. unfold server_code. destruct (Z.eqb_spec ai_err 0); [done|]. simpl. eauto.
Qed.

Lemma write_build_pk_spec k t d v r :
  good sh fields r ->
  spec (inv sh Q k t d v) (write_build_pk sh junk r) (fun pk h => pk = new_pk k r /\ inv sh Q (bumped k) t d v h) (durable d).
Proof.
  intros Hg. unfold write_build_pk, new_pk, bumped. destruct (has_user_pk (codec sh)) eqn:Hu.
  - apply gets_any. intros cur. apply spec_ret. intros h Hi. split; [|done].
    rewrite (pk_from_record_eq sh fields) by done. unfold pk_of. by rewrite Hu.
  - eapply spec_bind; [by apply (gets_spec sh Q k t d v _ c_next)|]. intros row_id.
    apply (spec_pure _ (row_id = c_next k)); [by intros h [? _]|]. intros ->.
    eapply (spec_bind _ _ (fun _ => inv sh Q (Core (c_stmt k) (c_trx k) (c_pk k) (c_bulk k) (c_dup k) (u64 (c_next k + 1))) t d v)).
    + eapply spec_pre; [apply (inv_modify sh Q k); [by intros h <-|done|done]|by intros h [_ ?]].
    + intros _. apply spec_ret. intros h Hi. split; [|done]. unfold pk_of. by rewrite Hu.
Qed.


(** What the whole insert answers: which record it stored, and as above. *)
Definition write_answer k t d v rows (r : record) (in0 : bool) (code : ha_code) (h : hdl) : Prop :=
  match code with
  | HA_SERVER _ | HA_ERR_GENERIC | HA_ERR_OUT_OF_MEM => durable d h
  | _ => exists r' auto, numbered_as r in0 r' auto /\ inserted (bumped k) t d v rows r' (new_pk k r') auto code h
  end.

Definition write_crash k d rows (r : record) (in0 : bool) (h : hdl) : Prop :=
  durable d h \/ exists r' auto, numbered_as r in0 r' auto /\ survives sh fields covered d (<[new_pk k r' := r']> rows) h.


End Insert.
End DmlInsert.
