(* ===== verification/DmlDelete.v ===== *)
(** * DELETE refines the abstract table

    [delete_row] carries a represented table to the one without the current row.  A bulk delete may
    hold its primary rows back and resolve them in [end_bulk_delete], as one range tombstone when the
    span holds nothing else: [deferred] relates the table to contents in which the buffered rows are
    still stored, and the last theorem shows that both ways of resolving the buffer remove exactly
    these rows. *)
From S2P Require Import Prelude Effects TidesDb RowDb RowFormat FtsText Table KeyCodec Dml TableRep DmlSpec.
Import Table KeyCodec Dml TableRep DmlSpec.
#[local] Open Scope Z_scope.
#[local] Open Scope tdb_scope.

Module DmlDelete.

(** ** Rows without the buffered ones *)

Definition minus (ks : list bytes) (data : gmap bytes record) : gmap bytes record :=
  filter (fun p : bytes * record => RowFormat.build_data_key p.1 ∉ ks) data.

Lemma minus_lookup ks data pk :
  minus ks data !! pk = if decide (RowFormat.build_data_key pk ∈ ks) then None else data !! pk.
Proof.
  unfold minus. rewrite map_lookup_filter. destruct (data !! pk) as [r|] eqn:Er; simpl; [|by case_decide].
  case_guard as Hg; simpl in Hg; [by rewrite decide_False|]. rewrite decide_True; [done|].
  destruct (decide (RowFormat.build_data_key pk ∈ ks)); tauto.
Qed.

Lemma minus_nil data : minus [] data = data.
Proof. apply map_eq. intros pk. rewrite minus_lookup. rewrite decide_False; [done|apply not_elem_of_nil]. Qed.

Lemma minus_snoc ks data pk : minus (ks ++ [RowFormat.build_data_key pk]) data = delete pk (minus ks data).
Proof.
  apply map_eq. intros pk'. destruct (decide (pk' = pk)) as [->|Hne].
  - rewrite lookup_delete_eq, minus_lookup, decide_True; [done|]. apply elem_of_app. right. by apply list_elem_of_singleton.
  - rewrite lookup_delete_ne, !minus_lookup by done.
    destruct (decide (RowFormat.build_data_key pk' ∈ ks)); case_decide as Hx; try done.
    + destruct Hx. apply elem_of_app. by left.
    + apply elem_of_app in Hx as [?|Hx%list_elem_of_singleton]; [done|]. by apply data_key_inj in Hx.
Qed.

Lemma minus_delete ks data pk : minus ks (delete pk data) = delete pk (minus ks data).
Proof.
  apply map_eq. intros pk'. destruct (decide (pk' = pk)) as [->|Hne].
  - rewrite lookup_delete_eq, minus_lookup, lookup_delete_eq. by case_decide.
  - by rewrite lookup_delete_ne, !minus_lookup, lookup_delete_ne.
Qed.

(** ** Range tombstones *)

Lemma successor_rev_spec l hi :
  wf_bytes l -> successor_rev l = Some hi -> exists c more n, l = n ++ c :: more /\ hi = c + 1 :: more /\ is_byte (c + 1).
Proof.
  revert hi. induction l as [|c l IH]; intros hi; [done|]. intros [Hc Hl]%Forall_cons. simpl. unfold KEY_INF_HI_BYTE.
  destruct (Z.eqb_spec c 255) as [->|Hne]; simpl.
  - intros (c & more & n & -> & Hx)%IH; [|done]. by exists c, more, (255 :: n).
  - intros [= <-]. exists c, l, []. unfold is_byte in *. rewrite u8_id by (unfold is_byte; lia). split_and!; (done || lia).
Qed.

(** The successor lies above every key up to the given one. *)
Lemma data_key_successor_above mx hi key :
  wf_bytes mx -> data_key_successor mx = Some hi -> key <=b mx -> key <b hi.
Proof.
  intros Hw Hs Hk. apply bytes_le_lt_trans with mx; [done|]. unfold data_key_successor in Hs.
  destruct (successor_rev (reverse mx)) as [l|] eqn:El; [|done]. simplify_eq/=.
  apply successor_rev_spec in El as (c & more & n & El & -> & _); [|by apply Forall_reverse].
  rewrite <- (reverse_involutive mx), El, reverse_app, !reverse_cons, <- app_assoc.
  unfold bytes_lt. rewrite bytes_cmp_app_same. simpl. by rewrite (proj2 (Z.compare_lt_iff c (c + 1))) by lia.
Qed.

(** As many live data keys in the span as buffered ones: then it holds no other. *)
Lemma span_complete v c lo hi (ks l : list bytes) :
  walk_spec v c lo hi (map inr l) -> NoDup ks ->
  Forall (fun key => live v c key /\ in_range lo hi key = true /\ RowFormat.is_data_key key = true) ks ->
  zlen (filter (fun o => counted o = true) (map inr l)) = zlen ks ->
  forall key, live v c key -> in_range lo hi key = true -> RowFormat.is_data_key key = true -> key ∈ ks.
Proof.
  intros (l' & Hnd & Hl' & Hf) Hks Hall Hlen key Hlive Hin Hdk.
  assert (l' = l) as ->.
  { clear -Hf. revert l' Hf. induction l as [|x l IH]; intros l' Hf; inversion Hf as [|? y ? l2 H1 H2]; subst; [done|].
    f_equal; [|by apply IH]. destruct H1 as [[= ->]|(rc & _ & [=])]. done. }
  assert (filter (fun o => counted o = true) (map inr l) = map inr (filter (fun key => RowFormat.is_data_key key = true) l)) as Ef.
  { clear. induction l as [|x l IH]; [done|]. cbn [map]. rewrite !filter_cons. simpl. case_decide; simpl; by rewrite IH. }
  rewrite Ef in Hlen. unfold zlen in Hlen. rewrite length_map in Hlen.
  set (m := filter (fun key => RowFormat.is_data_key key = true) l) in *.
  assert (ks ≡ₚ m) as ->.
  { apply submseteq_length_Permutation; [|lia]. apply NoDup_submseteq; [done|]. intros x Hx.
    apply list_elem_of_filter. destruct (proj1 (Forall_forall _ _) Hall x Hx) as (? & ? & ?). split; [done|]. by apply Hl'. }
  apply list_elem_of_filter. split; [done|]. by apply Hl'.
Qed.

Section Delete.
Context {E txn : Type} `{!TidesDb E txn, !RowDb E txn, !QuietDb E txn, !QuietRows E txn, !RowServices E txn}
  {SF : ServerField} {CS : FtsText.charset}.
Context (sh : share) (ses : session) (junk : memory) (fields : list Field) (Q : Prop).
Context `{!ServicesOk E txn (families_of sh) (encrypted sh)} (Ht : table_ok sh).
(** Results of full-text and spatial deletes are ignored: these indexes are followed only when the
    library does not fail. *)
Context (covered : nat -> Prop) (Hcov : forall i, covered i -> kind_of sh i = regular \/ Q).
Local Open Scope eff_scope.

#[local] Abbreviation hdl := (handler E txn).
#[local] Abbreviation part := (part_rep sh stored covered).
#[local] Abbreviation rep := (table_rep sh fields stored covered).
Implicit Types (t : txn) (d v : store) (k : core_t (txn := txn)) (rows data : gmap bytes record).

(** ** Index entries *)

Lemma row_removed data pre rows v i c pk r ws :
  rows_ok sh fields rows -> rows !! pk = Some r -> i ∉ pre -> secondary sh i = Some c ->
  Forall (fun w => write_cf w = c) ws ->
  (kind_of sh i = regular \/ Q -> ws = map (W_delete c) (map fst (entries sh i r pk))) ->
  part data pre rows (delete pk rows) v -> part data (pre ++ [i]) rows (delete pk rows) (apply_writes ws v).
Proof.
  intros Ho Hr Hi Hs Hw Hws Hp. apply (part_rep_step sh stored covered data pre rows _ v i c); try done.
  intros Hlt Hc. destruct Hp as (_ & _ & Hf & Hx). specialize (Hx i c Hlt Hs Hc). rewrite decide_False in Hx by done.
  rewrite (Hws (Hcov i Hc)). apply (entries_removed c (good sh fields)); try done; [by apply entries_owned|].
  by apply rows_ok_good.
Qed.

Lemma delete_maintain_spec k t d v data rows r pk :
  rows_ok sh fields rows -> rows !! pk = Some r -> c_pk k = pk -> part data [] rows (delete pk rows) v ->
  spec (inv sh Q k t d v) (delete_maintain_indexes sh junk r t)
    (fun rc h => match rc with
       | TDB_SUCCESS => exists v', part data [] (delete pk rows) (delete pk rows) v' /\ inv sh Q k t d v' h
       | _ => (Q -> False) /\ durable d h
       end) (durable d).
Proof.
  intros Ho Hr Hcur Hp. destruct (Ho _ _ Hr) as [Hg Hpk].
  eapply spec_weaken; [apply (maintain_spec sh Q covered (fun k' => k' = k) t d data rows (delete pk rows))|done| |done];
    [|done|exact Hp|].
  2: { intros [] h; try done. intros (k' & v' & -> & ? & ?). by exists v'. }
  intros pre i c k' v0 Hlt Hfr Hs -> Hp0.
  eapply spec_bind; [by apply (gets_spec sh Q k t d v0 _ c_pk)|]. intros cur.
  apply (spec_pure _ (cur = pk)); [intros h [-> _]; done|]. intros ->.
  apply (spec_pre _ (inv sh Q k t d v0)); [|by intros h [_ ?]].
  assert (spec (inv sh Q k t d v0) (unchecked_deletes t c (map fst (entries sh i r pk)))
    (fun x h => x = None /\ exists v', part data (pre ++ [i]) rows (delete pk rows) v' /\ inv sh Q k t d v' h)
    (durable d) \/ kind_of sh i = regular) as Hun.
  { destruct (decide (kind_of sh i = regular)) as [|Hnr]; [by right|left].
    eapply spec_weaken; [apply unchecked_deletes_spec|done| |done]. intros x h [-> (ws & Hi & Hw & Hq)]. split; [done|].
    eexists. split; [|exact Hi]. eapply (row_removed data pre rows v0 i c pk r); try done. intros [?|q]; [done|]. by apply Hq. }
  destruct (kind_of sh i) eqn:Hk.
  - rewrite (sec_idx_key_eq sh junk fields), Hpk by done.
    eapply spec_bind; [apply delete_spec|]. intros rc. apply spec_ret. intros h [[-> Hi]|[Hf (_ & _ & Hd & _)]].
    + exists k. eexists. split_and!; [done| |exact Hi].
      apply (row_removed data pre rows v0 i c pk r [W_delete c (index_key sh i r ++ pk)]); try done; [by apply Forall_singleton|].
      intros _. unfold entries. by rewrite Hk.
    + unfold tdb_ok. rewrite bool_decide_false by apply Hf. done.
  - destruct Hun as [Hun|]; [|done]. unfold entries in Hun. rewrite Hk in Hun. eapply spec_bind; [exact Hun|]. intros x.
    apply spec_at. intros h0 [_ (v' & Hp' & Hi')].
    eapply spec_bind; [eapply spec_pre; [by apply (accumulate_spec sh Q Ht k t d v')|by intros ? ->]|].
    intros ?. apply spec_ret. intros h Hi. by exists k, v'.
  - destruct Hun as [Hun|]; [|done]. unfold entries in Hun. rewrite Hk in Hun.
    eapply spec_weaken; [exact Hun|done| |done]. intros x h [-> (v' & ? & ?)]. by exists k, v'.
Qed.

(** ** The buffer of a deferring bulk delete *)

(** The buffered keys are rows still stored, each once, within the bounds tracked. *)
Definition buffer_ok (b : bulk) data : Prop :=
  (bulk_delete_defer_ b = false -> bulk_delete_keys_ b = []) /\
  (bulk_delete_defer_ b = true -> in_bulk_delete_ b = true /\
     bulk_delete_rows_ b = zlen (bulk_delete_keys_ b) /\ zlen (bulk_delete_keys_ b) < TIDESDB_BULK_DELETE_DEFER_CAP) /\
  NoDup (bulk_delete_keys_ b) /\
  Forall (fun key => exists pk, key = RowFormat.build_data_key pk /\ is_Some (data !! pk)) (bulk_delete_keys_ b) /\
  Forall (fun key => bulk_delete_min_pk_ b <=b key /\ key <=b bulk_delete_max_pk_ b) (bulk_delete_keys_ b).

(** The contents represent [rows] up to the buffered rows, which are still stored. *)
Definition deferred (b : bulk) rows v : Prop :=
  rows_ok sh fields rows /\
  exists data, part data [] rows rows v /\ rows = minus (bulk_delete_keys_ b) data /\ buffer_ok b data.

Lemma buffer_empty b data : bulk_delete_defer_ b = false -> bulk_delete_keys_ b = [] -> buffer_ok b data.
Proof. intros Hd Hk. unfold buffer_ok. rewrite Hk. split_and!; try done; [congruence|apply NoDup_nil_2]. Qed.

Lemma deferred_nil b rows v : bulk_delete_keys_ b = [] -> deferred b rows v -> rep rows v.
Proof. intros Hk (Ho & data & Hp & -> & _). rewrite Hk, minus_nil in *. done. Qed.

Lemma flushed_rows data rows rows' v ks :
  Forall (fun key => exists pk, key = RowFormat.build_data_key pk /\ is_Some (data !! pk)) ks ->
  part data [] rows rows' v ->
  part (minus ks data) [] rows rows' (apply_writes (map (W_delete (cf sh)) ks) v).
Proof.
  induction ks as [|key ks IH] using rev_ind; intros Hk Hp; [by rewrite minus_nil|].
  apply Forall_app in Hk as [Hk [(pk & -> & _) _]%Forall_cons].
  rewrite minus_snoc, map_app, apply_writes_app. apply data_delete; [done|]. by apply IH.
Qed.

Lemma flush_buffered_spec k t d v :
  spec (inv sh Q k t d v) (bulk_delete_flush_buffered sh ses t)
    (fun code h => match code with
       | HA_OK => inv sh Q (at_bulk (set_keys [] (c_bulk k)) k) t d
                    (apply_writes (map (W_delete (cf sh)) (bulk_delete_keys_ (c_bulk k))) v) h
       | HA_LIB _ => (Q -> False) /\ durable d h
       | _ => False
       end) (durable d).
Proof.
  unfold bulk_delete_flush_buffered. eapply spec_bind; [by apply (gets_spec sh Q k t d v _ (fun k => bulk_delete_keys_ (c_bulk k)))|].
  intros ks. apply (spec_pure _ (ks = bulk_delete_keys_ (c_bulk k))); [by intros h [? _]|]. intros ->.
  set (ks := bulk_delete_keys_ (c_bulk k)).
  set (I (pre : list bytes) := inv sh Q k t d (apply_writes (map (W_delete (cf sh)) pre) v)).
  apply (spec_bind _ _ (fun r h => match r with
    | Some code => (exists rc, code = HA_LIB rc) /\ (Q -> False) /\ durable d h | None => I ks h end)).
  - eapply spec_pre; [apply (spec_for_each_pre I); [|by intros h Hh]|by intros h [_ ?]].
    intros pre key _. eapply spec_bind; [apply delete_spec|]. intros rc. apply spec_ret.
    intros h [[-> Hi]|[[Hne Hf] (_ & _ & Hd & _)]].
    + simpl. unfold I. by rewrite map_app, apply_writes_app.
    + unfold tdb_ok. rewrite bool_decide_false by done. split; [|done]. destruct rc; try done; by eexists.
  - intros [code|].
    + apply spec_ret. by intros h [[rc ->] ?].
    + eapply (spec_bind _ _ (fun _ => inv sh Q (at_bulk (set_keys [] (c_bulk k)) k) t d (apply_writes (map (W_delete (cf sh)) ks) v))).
      * apply inv_modify; [by intros h <-|done|done].
      * intros _. by apply spec_ret.
Qed.

(** ** The primary row *)

Definition tracked (dk : bytes) (b : bulk) : bulk :=
  if in_bulk_delete_ b && (bulk_delete_defer_ b || (0 <? cached_compact_after_range_delete_min_rows_ ses))
  then track_range dk b else b.

Lemma bounds_grow (lo hi dk key : bytes) (first : bool) :
  lo <=b key /\ key <=b hi ->
  (if first || bool_decide (bytes_cmp dk lo = Lt) then dk else lo) <=b key /\
  key <=b (if first || bool_decide (bytes_cmp hi dk = Lt) then dk else hi) \/ first = true.
Proof.
  intros [Hlo Hhi]. destruct first; [by right|left]. simpl. split; case_bool_decide as Hc; try done.
  - apply bytes_le_trans with lo; [|done]. apply bytes_le_lteq. by left.
  - apply bytes_le_trans with hi; [done|]. apply bytes_le_lteq. by left.
Qed.

Lemma tracked_bounds dk b :
  (bulk_delete_rows_ b = 0 -> bulk_delete_keys_ b = []) ->
  Forall (fun key => bulk_delete_min_pk_ b <=b key /\ key <=b bulk_delete_max_pk_ b) (bulk_delete_keys_ b) ->
  Forall (fun key => bulk_delete_min_pk_ (track_range dk b) <=b key /\ key <=b bulk_delete_max_pk_ (track_range dk b))
    (bulk_delete_keys_ b ++ [dk]).
Proof.
  intros H0 Hb. unfold track_range, set_delete_state. simpl. apply Forall_app. split.
  - destruct (Z.eqb_spec (bulk_delete_rows_ b) 0) as [E'|E']; [by rewrite (H0 E')|].
    eapply Forall_impl; [exact Hb|]. intros key Hk. by destruct (bounds_grow _ _ dk key false Hk) as [?|?].
  - apply Forall_singleton. split; case_match eqn:Hc; try apply bytes_le_refl;
      apply orb_false_iff in Hc as [_ Hc%bool_decide_eq_false]; by apply bytes_not_lt in Hc.
Qed.

(** The buffer takes one more row. *)
Lemma buffer_grows b data pk :
  buffer_ok b data -> bulk_delete_defer_ b = true -> is_Some (data !! pk) ->
  RowFormat.build_data_key pk ∉ bulk_delete_keys_ b ->
  let b' := set_keys (bulk_delete_keys_ b ++ [RowFormat.build_data_key pk]) (tracked (RowFormat.build_data_key pk) b) in
  zlen (bulk_delete_keys_ b') < TIDESDB_BULK_DELETE_DEFER_CAP -> buffer_ok b' data.
Proof.
  intros (_ & Hd & Hn & Hl & Hb) Hdef Hpk Hnew b' Hcap. destruct (Hd Hdef) as (Hin & Hrows & Hlt).
  assert (tracked (RowFormat.build_data_key pk) b = track_range (RowFormat.build_data_key pk) b) as Et
    by (unfold tracked; by rewrite Hin, Hdef).
  subst b'. rewrite Et in *. split_and!.
  - simpl. congruence.
  - intros _. split_and!; [done| |done]. simpl. rewrite Hrows, zlen_app. unfold zlen at 3. simpl.
    pose proof (zlen_nonneg (bulk_delete_keys_ b)). unfold TIDESDB_BULK_DELETE_DEFER_CAP in Hlt.
    unfold u64. rewrite Z.mod_small by lia. done.
  - simpl. apply NoDup_app. split_and!; [done| |apply NoDup_singleton].
    intros key Hk ->%list_elem_of_singleton. done.
  - simpl. apply Forall_app. split; [done|]. apply Forall_singleton. by exists pk.
  - apply (tracked_bounds _ b); [|done]. rewrite Hrows. unfold zlen. by destruct (bulk_delete_keys_ b).
Qed.

(** What the delete of the primary row leaves. *)
Definition primary_gone k t d rows pk (code : ha_code) (h : hdl) : Prop :=
  match code with
  | HA_OK => exists b' data' v', inv sh Q (at_bulk b' k) t d v' h /\ part data' [] rows (delete pk rows) v' /\
               delete pk rows = minus (bulk_delete_keys_ b') data' /\ buffer_ok b' data'
  | HA_LIB _ => (Q -> False) /\ durable d h
  | _ => False
  end.

Lemma primary_gone_lib k t d rows pk rc (h : hdl) :
  fails Q TDB_SUCCESS rc -> durable d h -> primary_gone k t d rows pk (tdb_rc_to_ha rc) h.
Proof. intros [Hn Hq] Hd. by destruct rc. Qed.

Lemma delete_primary_spec k t d v data rows pk :
  let b := c_bulk k in
  part data [] rows (delete pk rows) v -> rows = minus (bulk_delete_keys_ b) data -> buffer_ok b data -> is_Some (rows !! pk) ->
  spec (inv sh Q (at_bulk (tracked (RowFormat.build_data_key pk) b) k) t d v)
    (delete_primary sh ses t (RowFormat.build_data_key pk)) (primary_gone k t d rows pk) (durable d).
Proof.
  intros b Hp Hrows Hbuf Hpk. set (dk := RowFormat.build_data_key pk). set (b1 := tracked dk b).
  assert ((dk ∉ bulk_delete_keys_ b) /\ is_Some (data !! pk)) as [Hnew Hdata].
  { rewrite Hrows, minus_lookup in Hpk. case_decide; [by destruct Hpk|done]. }
  assert (bulk_delete_keys_ b1 = bulk_delete_keys_ b /\ bulk_delete_defer_ b1 = bulk_delete_defer_ b) as [Hks Hdf]
    by (unfold b1, tracked; by destruct (_ && _)).
  unfold delete_primary. eapply spec_bind; [by apply (gets_spec sh Q (at_bulk b1 k) t d v _ c_bulk)|]. intros b2.
  apply (spec_pure _ (b2 = b1)); [by intros h [? _]|]. intros ->. rewrite Hdf, Hks.
  apply (spec_pre _ (inv sh Q (at_bulk b1 k) t d v)); [|by intros h [_ ?]].
  destruct (bulk_delete_defer_ b) eqn:Hdefer.
  - set (b3 := set_keys (bulk_delete_keys_ b ++ [dk]) b1).
    eapply (spec_bind _ _ (fun _ => inv sh Q (at_bulk b3 k) t d v)).
    { apply inv_modify; [|done|done]. intros h Hk. unfold b3. rewrite <- Hks. unfold core in Hk. unfold core, map_bulk, at_bulk in *.
      simpl. by injection Hk as -> -> -> -> -> ->. }
    intros _. destruct (Z.leb_spec TIDESDB_BULK_DELETE_DEFER_CAP (zlen (bulk_delete_keys_ b ++ [dk]))) as [Hcap|Hcap].
    + eapply spec_bind; [apply (flush_buffered_spec (at_bulk b3 k) t d v)|]. intros code.
      destruct (decide (code = HA_OK)) as [->|Hne].
      2: { rewrite bool_decide_false by done. apply spec_ret. intros h Hx. by destruct code. }
      rewrite bool_decide_true by done. set (b4 := set_keys [] b3).
      set (v4 := apply_writes (map (W_delete (cf sh)) (bulk_delete_keys_ b3)) v).
      eapply (spec_bind _ _ (fun _ => inv sh Q (at_bulk (stop_deferring b4) k) t d v4)).
      { apply (inv_modify sh Q (at_bulk b4 k)); [|done|done]. intros h Hk. unfold core, map_bulk, at_bulk in *. simpl.
        by injection Hk as -> -> -> -> -> ->. }
      intros _. apply spec_ret. intros h Hi. exists (stop_deferring b4), (minus (bulk_delete_keys_ b3) data), v4.
      split_and!; try done.
      * apply flushed_rows; [|done]. destruct Hbuf as (_ & _ & _ & Hl & _). apply Forall_app. split; [done|].
        apply Forall_singleton. by exists pk.
      * change (delete pk rows = minus [] (minus (bulk_delete_keys_ b ++ [RowFormat.build_data_key pk]) data)).
        by rewrite minus_nil, minus_snoc, Hrows.
      * by apply buffer_empty.
    + apply spec_ret. intros h Hi. exists b3, data, v. split_and!; try done.
      * change (delete pk rows = minus (bulk_delete_keys_ b ++ [RowFormat.build_data_key pk]) data).
        by rewrite minus_snoc, Hrows.
      * by apply buffer_grows.
  - eapply spec_bind; [apply delete_spec|]. intros rc. apply spec_ret. intros h [[-> Hi]|[Hf (_ & _ & Hd & _)]].
    2: { by apply primary_gone_lib. }
    destruct Hbuf as (Hk0 & _). specialize (Hk0 Hdefer).
    exists b1, (delete pk data). eexists. split_and!; [exact Hi|by apply data_delete| |].
    + by rewrite Hks, minus_delete, Hrows.
    + apply buffer_empty; congruence.
Qed.

(** ** The operation *)

(** What the delete of a row answers, [rows] being the table without it. *)
Definition deleted k d rows (code : ha_code) (h : hdl) : Prop :=
  match code with
  | HA_OK => exists t' k' d' v', runs_in t' k' /\ c_pk k' = c_pk k /\ deferred (c_bulk k') rows v' /\
               inv sh Q k' t' d' v' h /\ survives sh fields covered d rows h
  | HA_LIB _ => (Q -> False) /\ survives sh fields covered d rows h
  | HA_SERVER _ => durable d h
  | _ => False
  end.

Lemma deleted_lib k d rows rc (h : hdl) :
  fails Q TDB_SUCCESS rc -> durable d h -> deleted k d rows (tdb_rc_to_ha rc) h.
Proof. intros [Hn Hq] Hd. destruct rc; try done; (split; [done|by left]). Qed.

Lemma rep_deferred b rows v : bulk_delete_defer_ b = false -> bulk_delete_keys_ b = [] -> rep rows v -> deferred b rows v.
Proof. intros Hd Hk [Ho Hp]. split; [done|]. exists rows. rewrite Hk, minus_nil. split_and!; try done. by apply buffer_empty. Qed.

(** The end of the operation: the batch boundary of a bulk delete that does not defer. *)
Lemma delete_tail_spec k k1 t d v rows w :
  runs_in t k1 -> c_pk k1 = c_pk k -> deferred (c_bulk k1) rows v ->
  spec (inv sh Q k1 t d v)
    (b <-- gets bulk_of;
     if in_bulk_delete_ b && negb (bulk_delete_defer_ b) then bulk_flush_if_threshold w else ret HA_OK)
    (deleted k d rows) (survives sh fields covered d rows).
Proof.
  intros Hrun Hpk Hdef. eapply spec_bind; [by apply (gets_spec sh Q k1 t d v _ c_bulk)|]. intros b.
  apply (spec_pure _ (b = c_bulk k1)); [by intros h [? _]|]. intros ->.
  apply (spec_pre _ (inv sh Q k1 t d v)); [|by intros h [_ ?]].
  destruct (_ && _) eqn:Eb.
  - apply andb_true_iff in Eb as [_ Eb%negb_true_iff]. pose proof Hdef as (_ & data & _ & _ & (Hks & _)). specialize (Hks Eb).
    eapply spec_weaken; [apply (bulk_flush_spec sh fields Q covered k1 t d v rows); [done|]|done| |done].
    { by apply (deferred_nil (c_bulk k1)). }
    intros code h Hb. destruct code; try done. destruct Hb as (t' & k' & d' & v' & Hr' & Hs & Hrep & Hi & Hsv).
    exists t', k', d', v'. destruct Hs as (Hp' & Hbk & _). injection Hbk as _ _ _ _ _ _ Hdf Hk'.
    split; [done|]. split; [congruence|]. split; [|done]. apply rep_deferred; congruence.
  - apply spec_ret. intros h Hi. exists t, k1, d, v. repeat (split; [done|]). left. apply Hi.
Qed.

Lemma deferred_elsewhere b rows v ws : Forall (elsewhere sh) ws -> deferred b rows v -> deferred b rows (apply_writes ws v).
Proof. intros Hw (Ho & data & Hp & Hx). split; [done|]. exists data. split; [by apply part_rep_elsewhere|done]. Qed.

(** C15: [delete_row] refines the deletion from the abstract table.  Positioned on a row of the table, it
    answers success with this row removed and its entries gone from every index (the full-text and
    spatial ones when the library does not fail, since their deletes are not checked); the row itself may
    be held back in the buffer of a bulk delete.  No answer other than success comes from a library
    that does not fail and foreign keys that allow the delete, and no failure or crash makes other
    contents durable than the old ones or those of the new table. *)
Theorem delete_row_refines k t d v rows r :
  runs_in t k -> deferred (c_bulk k) rows v -> rows !! c_pk k = Some r ->
  spec (inv sh Q k t d v) (delete_row sh ses junk r) (deleted k d (delete (c_pk k) rows))
    (survives sh fields covered d (delete (c_pk k) rows)).
Proof.
  intros Hrun Hdef Hr. unfold delete_row. set (pk := c_pk k) in *. set (rows' := delete pk rows).
  assert (forall h : hdl, durable d h -> survives sh fields covered d rows' h) as Hdur by (by left).
  eapply spec_bind; [eapply spec_crash; [by apply (ensure_stmt_txn_spec sh Q k t d v)|exact Hdur]|].
  intros erc. apply (spec_pure _ (erc = HA_OK)); [by intros h [? _]|]. intros ->. simpl.
  eapply spec_bind; [eapply spec_pre; [by apply (gets_spec sh Q k t d v _ c_stmt)|by intros h [_ ?]]|].
  intros st. apply (spec_pure _ (st = c_stmt k)); [by intros h [? _]|]. intros ->. rewrite (proj1 Hrun).
  eapply spec_bind; [eapply spec_crash; [eapply spec_pre; [by apply (mark_dirty_spec sh Q k t d v)|by intros h [_ ?]]|exact Hdur]|].
  intros ?. eapply spec_bind; [eapply spec_crash; [apply (fk_spec sh Q k t d v); exists r; right; by left|exact Hdur]|].
  intros frc. apply spec_at. intros h0 (ws & Hws & Hi0). set (v0 := apply_writes ws v) in *.
  apply (spec_pre _ (inv sh Q k t d v0)); [|by intros ? ->].
  destruct (Z.eqb_spec frc 0) as [->|Hne]; simpl; [|by apply spec_ret; intros h (_ & _ & ? & _)].
  assert (deferred (c_bulk k) rows v0) as Hdef0 by (by apply deferred_elsewhere).
  destruct Hdef0 as (Ho & data & Hp & Hrows & Hbuf).
  eapply spec_bind; [by apply (gets_spec sh Q k t d v0 _ c_pk)|]. intros cur.
  apply (spec_pure _ (cur = pk)); [by intros h [? _]|]. intros ->.
  eapply spec_bind; [eapply spec_pre; [by apply (gets_spec sh Q k t d v0 _ c_bulk)|by intros h [_ ?]]|]. intros b.
  apply (spec_pure _ (b = c_bulk k)); [by intros h [? _]|]. intros ->. set (dk := RowFormat.build_data_key pk).
  eapply (spec_bind _ _ (fun _ => inv sh Q (at_bulk (tracked dk (c_bulk k)) k) t d v0)).
  { unfold tracked. destruct (_ && _).
    - eapply spec_pre; [apply (inv_modify sh Q k); [by intros h <-|done|done]|by intros h [_ ?]].
    - apply spec_ret. intros h [_ Hi]. unfold at_bulk. by destruct k. }
  intros _. eapply spec_bind; [eapply spec_crash; [apply (delete_primary_spec k t d v0 data rows pk); [done..|by eexists]|exact Hdur]|].
  intros code. destruct (decide (code = HA_OK)) as [->|Hne].
  2: { rewrite bool_decide_false by done. apply spec_ret. intros h Hx. destruct code; try done. destruct Hx. split; [done|by left]. }
  simpl. apply spec_at. intros h1 (b' & data' & v' & Hi1 & Hp1 & Hr1 & Hb1).
  eapply spec_bind; [eapply spec_crash; [eapply spec_pre; [apply (delete_maintain_spec (at_bulk b' k) t d v' data' rows r pk)|by intros ? ->]|exact Hdur]|];
    [done..|].
  intros rc. destruct (decide (rc = TDB_SUCCESS)) as [->|Hrc].
  2: { unfold tdb_ok. rewrite bool_decide_false by done. apply spec_ret. intros h Hx.
       assert ((Q -> False) /\ durable d h) as [? ?] by (by destruct rc). by apply deleted_lib. }
  simpl. apply spec_at. intros h2 (v2 & Hp2 & Hi2).
  eapply spec_pre; [apply (delete_tail_spec k (at_bulk b' k) t d v2 rows'); try done|by intros ? ->].
  split; [by apply rows_ok_delete|]. by exists data'.
Qed.

(** ** The end of a bulk delete *)

(** The buffered keys, for the resolution of the buffer. *)
Definition buffered_ok (b : bulk) data : Prop :=
  NoDup (bulk_delete_keys_ b) /\
  Forall (fun key => exists pk, key = RowFormat.build_data_key pk /\ is_Some (data !! pk)) (bulk_delete_keys_ b) /\
  Forall (fun key => bulk_delete_min_pk_ b <=b key /\ key <=b bulk_delete_max_pk_ b) (bulk_delete_keys_ b).

(** A span that holds only buffered rows: the range tombstone removes exactly these. *)
Lemma ranged_rows b data rows rows' v v' hi (l : list bytes) :
  wf_bytes (bulk_delete_max_pk_ b) -> data_key_successor (bulk_delete_max_pk_ b) = Some hi ->
  buffered_ok b data -> part data [] rows rows' v ->
  walk_spec v (cf sh) (bulk_delete_min_pk_ b) hi (map inr l) ->
  zlen (filter (fun o => counted o = true) (map inr l)) = zlen (bulk_delete_keys_ b) ->
  (forall c, is_Some (v !! c) -> is_Some (v' !! c)) ->
  (forall c key, db_get c key v' =
     if bool_decide (c = cf sh) && in_range (bulk_delete_min_pk_ b) hi key then None else db_get c key v) ->
  part (minus (bulk_delete_keys_ b) data) [] rows rows' v'.
Proof.
  intros Hw Hhi (Hnd & Hl & Hb) (Hc & Hd & Hf & Hi) Hwalk Hlen Hfam Hget.
  assert (Forall (fun key => live v (cf sh) key /\ in_range (bulk_delete_min_pk_ b) hi key = true /\
    RowFormat.is_data_key key = true) (bulk_delete_keys_ b)) as Hall.
  { apply Forall_forall. intros key Hk. destruct (proj1 (Forall_forall _ _) Hl key Hk) as (pk & -> & Hpk).
    destruct (proj1 (Forall_forall _ _) Hb _ Hk) as [H1 H2]. split_and!.
    - by apply (live_row sh stored data).
    - unfold in_range. apply andb_true_iff. split.
      + apply negb_true_iff, bool_decide_eq_false. by apply bytes_not_lt.
      + apply bool_decide_eq_true. by apply (data_key_successor_above (bulk_delete_max_pk_ b)).
    - apply RowFormat.is_data_key_build. }
  pose proof (span_complete v (cf sh) _ hi _ l Hwalk Hnd Hall Hlen) as Hspan.
  split_and!; [by apply Hfam| |intros; by apply Hfam; eauto|].
  - intros pk. rewrite minus_lookup, Hget, bool_decide_true by done. simpl. pose proof (Hd pk) as Hdpk. case_decide as Hk.
    + destruct (proj1 (Forall_forall _ _) Hall _ Hk) as (_ & -> & _). done.
    + destruct (in_range _ hi (RowFormat.build_data_key pk)) eqn:Er; [|done].
      destruct (data !! pk) as [r|] eqn:Edata; [|done]. exfalso. apply Hk.
      apply Hspan; [|done|apply RowFormat.is_data_key_build]. apply (live_row sh stored data v pk); [done|by eexists].
  - intros i c Hlt Hs Hcv key x. rewrite Hget, bool_decide_false; [by apply Hi|]. by eapply family_neq.
Qed.

Lemma count_spec k t d v lo hi :
  spec (inv sh Q k t d v) (on_lib (count_live_data_keys t (cf sh) lo hi))
    (fun n h => inv sh Q k t d v h /\
       match n with
       | inl _ => True
       | inr n => Q -> exists l, walk_spec v (cf sh) lo hi (map inr l) /\
                    n = zlen (filter (fun o => counted o = true) (map inr l))
       end) (durable d).
Proof.
  eapply spec_weaken; [apply (inv_lib sh Q k t d v _ (fun n v' => v' = v /\ match n with
       | inl _ => True
       | inr n => Q -> exists l, walk_spec v (cf sh) lo hi (map inr l) /\
                    n = zlen (filter (fun o => counted o = true) (map inr l))
       end))|done| |done].
  - intros ws Hws. eapply spec_bind; [apply (spec_when Q _ _ _ _ _ _ _ (iter_range_law d ws t (cf sh) lo hi) (quiet_range t (cf sh) lo hi))|].
    intros r. apply spec_ret. intros e [[He Hr] Hq]. split; [|by intros q; destruct (Hq q)]. exists ws. split; [done|].
    split; [done|]. destruct r as [rc|l]; [done|]. intros q. destruct (Hq q) as [_ [l' [= ->]]]. exists l'. by rewrite <- Hws.
  - intros n h (v' & [-> ?] & ?). done.
Qed.

Lemma delete_range_spec k t d v lo hi :
  spec (inv sh Q k t d v) (on_lib (txn_delete_range t (cf sh) lo hi))
    (fun rc h => (rc = TDB_SUCCESS /\ exists v', inv sh Q k t d v' h /\ (forall c, is_Some (v !! c) -> is_Some (v' !! c)) /\
        forall c key, db_get c key v' = if bool_decide (c = cf sh) && in_range lo hi key then None else db_get c key v) \/
      (fails Q TDB_SUCCESS rc /\ inv sh Q k t d v h)) (durable d).
Proof.
  eapply spec_weaken; [apply (inv_lib sh Q k t d v _ (fun rc v' =>
    (rc = TDB_SUCCESS /\ (forall c, is_Some (v !! c) -> is_Some (v' !! c)) /\
        forall c key, db_get c key v' = if bool_decide (c = cf sh) && in_range lo hi key then None else db_get c key v) \/
      (fails Q TDB_SUCCESS rc /\ v' = v)))|done| |done].
  - intros ws Hws. eapply spec_weaken; [apply (spec_when Q _ _ _ _ _ _ _ (txn_delete_range_law d ws t (cf sh) lo hi)
      (quiet_delete_range t (cf sh) lo hi))|done| |done].
    intros rc e [[Hd Hr] Hq]. split; [|by intros q; destruct (Hq q)].
    destruct (decide (rc = TDB_SUCCESS)) as [->|Hne].
    + destruct Hr as (ws' & Hw & Hget). exists (ws ++ ws'). split; [done|]. left. split; [done|]. rewrite Hws in Hget. split; [|done].
      intros c Hc. rewrite apply_writes_app, Hws. by apply apply_writes_family.
    + exists ws. split; [by destruct rc|]. right. split; [|done]. split; [done|]. by intros q; destruct (Hq q).
  - intros rc h (v' & [(-> & ? & ?)|[? ->]] & ?); [left; eauto|by right].
Qed.

Lemma try_range_spec k t d v data rows rows' :
  let b := c_bulk k in
  wf_bytes (bulk_delete_max_pk_ b) -> buffered_ok b data -> part data [] rows rows' v ->
  spec (inv sh Q k t d v) (try_range_tombstone sh t)
    (fun ranged h =>
       if ranged then
         TIDESDB_BULK_DELETE_MIN_RANGE <= zlen (bulk_delete_keys_ b) /\
         exists v', (Q -> part (minus (bulk_delete_keys_ b) data) [] rows rows' v') /\ inv sh Q (at_bulk (set_keys [] b) k) t d v' h
       else inv sh Q k t d v h) (durable d).
Proof.
  intros b Hw Hbuf Hp. unfold try_range_tombstone. eapply spec_bind; [by apply (gets_spec sh Q k t d v _ c_bulk)|].
  intros b'. apply (spec_pure _ (b' = b)); [by intros h [? _]|]. intros ->.
  apply (spec_pre _ (inv sh Q k t d v)); [|by intros h [_ ?]].
  destruct (Z.leb_spec TIDESDB_BULK_DELETE_MIN_RANGE (zlen (bulk_delete_keys_ b))) as [Hmin|_]; simpl; [|by apply spec_ret].
  destruct (_ && _); [|by apply spec_ret].
  destruct (data_key_successor (bulk_delete_max_pk_ b)) as [hi|] eqn:Ehi; [|by apply spec_ret].
  eapply spec_bind; [apply count_spec|]. intros [rc|n]; [by apply spec_ret; intros h [? _]|].
  apply spec_at. intros h0 [Hi0 Hn]. apply (spec_pre _ (inv sh Q k t d v)); [|by intros ? ->].
  destruct (Z.eqb_spec n (zlen (bulk_delete_keys_ b))) as [->|_]; [|by apply spec_ret].
  eapply spec_bind; [apply delete_range_spec|]. intros rc. destruct (decide (rc = TDB_SUCCESS)) as [->|Hne].
  2: { unfold tdb_ok. rewrite bool_decide_false by done. apply spec_ret. by intros h [[? _]|[_ ?]]. }
  simpl. apply spec_at. intros h1 [[_ (v' & Hi1 & Hfam & Hget)]|[[? _] _]]; [|done].
  apply (spec_pre _ (inv sh Q k t d v')); [|by intros ? ->].
  eapply (spec_bind _ _ (fun _ => inv sh Q k t d v')); [by apply inv_modify|]. intros _.
  eapply (spec_bind _ _ (fun _ => inv sh Q k t d v')); [by apply map_trx_spec|]. intros _.
  eapply (spec_bind _ _ (fun _ => inv sh Q (at_bulk (set_keys [] b) k) t d v')); [apply inv_modify; [by intros h <-|done|done]|].
  intros _. apply spec_ret. intros h Hi. split; [done|]. exists v'. split; [|done].
  intros q. destruct (Hn q) as (l & Hwalk & Hlen). by eapply (ranged_rows b data rows rows' v v' hi l).
Qed.

(** The bulk state after the statement. *)
Definition ended (b : bulk) : bulk := set_delete_state 0 [] [] false [] (leave_bulk_delete b).

(** What the end of the statement answers, [rows] being the table without the buffered rows. *)
Definition resolved k t d rows (code : ha_code) (h : hdl) : Prop :=
  match code with
  | HA_OK => exists v', inv sh Q (at_bulk (ended (c_bulk k)) k) t d v' h /\
      (Q \/ zlen (bulk_delete_keys_ (c_bulk k)) < TIDESDB_BULK_DELETE_MIN_RANGE -> rep rows v')
  | HA_LIB _ => (Q -> False) /\ durable d h
  | _ => False
  end.

(** What the buffer's flush leaves to [end_bulk_delete]: the rows are gone and the delete state is
    still to be cleared. *)
Definition flushed k t d rows (code : ha_code) (h : hdl) : Prop :=
  match code with
  | HA_OK => exists b' v', leave_bulk_delete b' = b' /\
      set_delete_state 0 [] [] false [] b' = ended (c_bulk k) /\ inv sh Q (at_bulk b' k) t d v' h /\
      (Q \/ zlen (bulk_delete_keys_ (c_bulk k)) < TIDESDB_BULK_DELETE_MIN_RANGE -> rep rows v')
  | HA_LIB _ => (Q -> False) /\ durable d h
  | _ => False
  end.

Lemma end_bulk_delete_clears k t d rows code :
  spec (flushed k t d rows code)
    (if negb (bool_decide (code = HA_OK)) then ret code
     else modify (map_bulk (fun b => set_delete_state 0 [] [] false [] b));; ret HA_OK)
    (resolved k t d rows) (durable d).
Proof.
  destruct (decide (code = HA_OK)) as [->|Hne].
  - simpl. apply spec_at. intros h0 (b' & v' & _ & He & Hi & Hr).
    apply (spec_pre _ (inv sh Q (at_bulk b' k) t d v')); [|by intros ? ->].
    eapply (spec_bind _ _ (fun _ => inv sh Q (at_bulk (ended (c_bulk k)) k) t d v')).
    + rewrite <- He. apply inv_modify; [|done|done]. intros h Hk. unfold core, map_bulk, at_bulk in *. simpl.
      by injection Hk as -> -> -> -> -> ->.
    + intros _. apply spec_ret. intros h Hh. by exists v'.
  - rewrite bool_decide_false by done. simpl. apply spec_ret. intros h Hx. by destruct code.
Qed.

(** C16: [end_bulk_delete] resolves the buffer exactly: whether it writes one range tombstone over the span
    or a delete per row, the contents afterwards represent the table without the buffered rows, none
    more and none fewer.  For the range tombstone this rests on a library that does not fail, because
    the count that justifies it passes over keys it cannot read. *)
Theorem end_bulk_delete_refines k t d v rows :
  runs_in t k -> deferred (c_bulk k) rows v -> wf_bytes (bulk_delete_max_pk_ (c_bulk k)) ->
  spec (inv sh Q k t d v) (end_bulk_delete sh ses)
    (resolved k t d rows) (durable d).
Proof.
  intros Hrun Hdef Hw. pose proof Hdef as (Ho & data & Hp & Hrows & Hdf & _ & Hbuf). unfold end_bulk_delete.
  set (k1 := at_bulk (leave_bulk_delete (c_bulk k)) k).
  eapply (spec_bind _ _ (fun _ => inv sh Q k1 t d v)); [apply inv_modify; [by intros h <-|done|done]|]. intros _.
  eapply spec_bind; [by apply (gets_spec sh Q k1 t d v _ c_bulk)|]. intros b.
  apply (spec_pure _ (b = c_bulk k1)); [by intros h [? _]|]. intros ->.
  apply (spec_pre _ (inv sh Q k1 t d v)); [|by intros h [_ ?]].
  set (ks := bulk_delete_keys_ (c_bulk k)).
  apply (spec_bind _ _ (flushed k t d rows)); [|intros code; by apply end_bulk_delete_clears].
  change (bulk_delete_defer_ (c_bulk k1)) with (bulk_delete_defer_ (c_bulk k)).
  change (bulk_delete_keys_ (c_bulk k1)) with ks.
  destruct (bulk_delete_defer_ (c_bulk k) && negb (zlen ks =? 0)) eqn:Ec.
  - assert (runs_in t k1) as Hrun1 by done.
    eapply spec_bind; [by apply (ensure_stmt_txn_spec sh Q k1 t d v)|]. intros erc.
    apply (spec_pure _ (erc = HA_OK)); [by intros h [? _]|]. intros ->. simpl.
    eapply spec_bind; [eapply spec_pre; [by apply (gets_spec sh Q k1 t d v _ c_stmt)|by intros h [_ ?]]|].
    intros st. apply (spec_pure _ (st = c_stmt k1)); [by intros h [? _]|]. intros ->. rewrite (proj1 Hrun1).
    eapply spec_bind; [eapply spec_pre; [by apply (try_range_spec k1 t d v data rows rows)|by intros h [_ ?]]|].
    intros [].
    + apply spec_ret. intros h (Hmin & v' & Hp' & Hi). eexists _, v'. split_and!; [| |exact Hi|]; [done..|].
      change (bulk_delete_keys_ (c_bulk k1)) with ks in *. intros [q|Hlt]; [|unfold ks in Hmin; lia]. split; [done|].
      specialize (Hp' q). unfold ks in Hp'. by rewrite <- Hrows in Hp'.
    + eapply spec_weaken; [apply (flush_buffered_spec k1 t d v)|done| |done]. intros code h Hx.
      destruct code; try done. eexists _, _. split_and!; [| |exact Hx|]; [done..|]. intros _. split; [done|].
      assert (part (minus ks data) [] rows rows (apply_writes (map (W_delete (cf sh)) ks) v)) as Hf
        by (apply flushed_rows; [apply Hbuf|done]). unfold ks in Hf at 1. by rewrite <- Hrows in Hf.
  - apply spec_ret. intros h Hi. exists (leave_bulk_delete (c_bulk k)), v. split_and!; try done.
    intros _. apply (deferred_nil (c_bulk k)); [|done].
    apply andb_false_iff in Ec as [Ec|Ec]; [by apply Hdf|]. apply negb_false_iff, Z.eqb_eq in Ec. unfold ks, zlen in Ec.
    by destruct (bulk_delete_keys_ (c_bulk k)).
Qed.

End Delete.
End DmlDelete.
