(* ===== verification/DmlUpdate.v ===== *)
(** * UPDATE refines the abstract table

    [update_row] carries a represented table to the one in which the current row is replaced by the new
    record, under its new primary key; it reports a duplicate exactly when another row has the new
    primary key or the new value of a unique index.  [honest] is what the server promises of the
    statement's column map; [moves_covered] is what the code needs beyond it, and the last section
    shows what happens to full-text and spatial entries when it does not hold. *)
From S2P Require Import Prelude Effects TidesDb RowDb RowFormat FtsText Table KeyCodec Dml TableRep DmlSpec.
Import Table KeyCodec Dml TableRep DmlSpec.
#[local] Open Scope Z_scope.
#[local] Open Scope tdb_scope.

Module DmlUpdate.

Section Update.
Context {E txn : Type} `{!TidesDb E txn, !RowDb E txn, !QuietDb E txn, !QuietRows E txn, !RowServices E txn}
  {SF : ServerField} {CS : FtsText.charset}.
Context (sh : share) (ses : session) (junk : memory) (fields : list Field) (Q : Prop).
Context `{!ServicesOk E txn (families_of sh) (encrypted sh)} (Ht : table_ok sh).
Context (covered : nat -> Prop) (Hcov : forall i, covered i -> kind_of sh i = regular \/ Q)
  (Hreg : forall i, kind_of sh i = regular -> covered i).
Local Open Scope eff_scope.

#[local] Abbreviation hdl := (handler E txn).
#[local] Abbreviation part := (part_rep sh stored covered).
#[local] Abbreviation rep := (table_rep sh fields stored covered).
Implicit Types (t : txn) (d v : store) (k : core_t (txn := txn)) (rows data : gmap bytes record).

(** ** The statement's column map *)

(** Whether the maintenance of index [i] looks only at the column map and passes the index by. *)
Definition unwritten (i : nat) : bool :=
  match kind_of sh i with
  | spatial => negb (first_part_written ses (key_info_of sh i))
  | _ => negb (key_written ses (key_info_of sh i))
  end.

(** An index whose columns the statement does not write has the same entries before and after. *)
Definition honest (old new : record) : Prop :=
  forall i c, secondary sh i = Some c -> unwritten i = true ->
    forall pk kx, kx ∈ entries sh i old pk <-> kx ∈ entries sh i new pk.

(** A statement that moves a row to another primary key writes the columns of every full-text and
    spatial index. *)
Definition moves_covered (pk pk' : bytes) : Prop :=
  pk <> pk' -> forall i c, secondary sh i = Some c -> kind_of sh i <> regular -> unwritten i = false.

(** ** Index entries *)

Section row.
Context (rows : gmap bytes record) (pk pk' : bytes) (old new : record).
Context (Ho : rows_ok sh fields rows) (Hold : rows !! pk = Some old) (Hnew : good sh fields new)
  (Hpk' : pk_of sh new pk' = pk') (Hfree : pk' = pk \/ rows !! pk' = None)
  (Hhonest : honest old new) (Hmoves : moves_covered pk pk').

(** The table after the update. *)
Definition updated : gmap bytes record := <[pk' := new]> (delete pk rows).

Lemma updated_same : pk' = pk -> updated = <[pk := new]> rows.
Proof. intros Hp. unfold updated. rewrite Hp. apply insert_delete_eq. Qed.

Lemma good_old : good sh fields old.
Proof. by apply (Ho pk). Qed.

Lemma rows_good : all_good (good sh fields) rows.
Proof. by apply rows_ok_good. Qed.

(** The old entries are deleted and the new ones put. *)
Lemma entries_replaced i c v :
  is_Some (v !! c) -> holds_entries c (entries sh i) rows v ->
  holds_entries c (entries sh i) updated
    (apply_writes (map (put_of c) (entries sh i new pk'))
      (apply_writes (map (W_delete c) (map fst (entries sh i old pk))) v)).
Proof.
  intros Hc Hh. apply (entries_added c (good sh fields)); try done.
  - by apply entries_owned.
  - by apply apply_writes_family.
  - apply all_good_delete, rows_good.
  - destruct (decide (pk' = pk)) as [Hp|Hp]; [rewrite Hp; apply lookup_delete_eq|].
    rewrite lookup_delete_ne by done. by destruct Hfree.
  - apply (entries_removed c (good sh fields)); try done; [by apply entries_owned|apply rows_good].
Qed.

Lemma entries_unchanged i c v :
  pk' = pk -> (forall kx, kx ∈ entries sh i old pk <-> kx ∈ entries sh i new pk) ->
  holds_entries c (entries sh i) rows v -> holds_entries c (entries sh i) updated v.
Proof. intros Hp He Hh. rewrite updated_same by done. by apply (entries_kept c (entries sh i) rows v pk old new). Qed.

(** The step to the next index, from the new contents of its family when they matter. *)
Lemma index_step data pre v i c ws :
  i ∉ pre -> secondary sh i = Some c -> Forall (fun w => write_cf w = c) ws ->
  (is_Some (v !! c) -> kind_of sh i = regular \/ Q -> holds_entries c (entries sh i) rows v ->
     holds_entries c (entries sh i) updated (apply_writes ws v)) ->
  part data pre rows updated v -> part data (pre ++ [i]) rows updated (apply_writes ws v).
Proof.
  intros Hi Hs Hw Hstep Hp. apply (part_rep_step sh stored covered data pre rows _ v i c); try done.
  intros Hlt Hc. destruct Hp as (_ & _ & Hf & Hx). specialize (Hx i c Hlt Hs Hc). rewrite decide_False in Hx by done.
  apply Hstep; [by eapply Hf|by apply Hcov|done].
Qed.

Lemma index_skip data pre v i c :
  i ∉ pre -> secondary sh i = Some c -> pk' = pk ->
  (forall kx, kx ∈ entries sh i old pk <-> kx ∈ entries sh i new pk) ->
  part data pre rows updated v -> part data (pre ++ [i]) rows updated v.
Proof.
  intros Hi Hs Hp He Hv. apply (index_step data pre v i c []); try done. intros _ _ Hh. by apply entries_unchanged.
Qed.

(** What the step of one index leaves. *)
Definition index_done (K : core_t -> Prop) t d data pre i (r : option tdb_rc) (h : hdl) : Prop :=
  match r with
  | None => exists k' v', K k' /\ part data (pre ++ [i]) rows updated v' /\ inv sh Q k' t d v' h
  | Some rc => fails Q TDB_SUCCESS rc /\ durable d h
  end.

(** Unchecked deletes of some entries, then checked puts. *)
Lemma delete_put_spec (K : core_t -> Prop) k t d v data pre i c gone fresh :
  K k -> i ∉ pre -> secondary sh i = Some c -> part data pre rows updated v -> kind_of sh i <> regular ->
  (is_Some (v !! c) -> holds_entries c (entries sh i) rows v ->
   holds_entries c (entries sh i) updated (apply_writes (map (put_of c) fresh) (apply_writes (map (W_delete c) gone) v))) ->
  spec (inv sh Q k t d v) (unchecked_deletes t c gone;; puts t c fresh) (index_done K t d data pre i) (durable d).
Proof.
  intros HK Hi Hs Hp Hk Hstep. eapply spec_bind; [apply unchecked_deletes_spec|]. intros x.
  apply spec_at. intros h0 [_ (ws & Hi0 & Hw & Hq)].
  eapply spec_weaken; [apply (puts_spec sh Q k t d (apply_writes ws v) c fresh)|by intros ? ->| |done].
  intros [rc|] h; [intros [Hf (v' & _ & _ & Hd & _)]; done|]. intros Hh. eexists k, _. split; [done|]. split; [|exact Hh].
  rewrite <- apply_writes_app. apply (index_step data pre v i c); try done.
  - apply Forall_app. split; [done|]. apply Forall_map, Forall_true. done.
  - intros Hc [?|q] Hent; [done|]. rewrite apply_writes_app, (Hq q). by apply Hstep.
Qed.

(** The term-level diff of a row that keeps its primary key. *)
Lemma fts_diff_holds i c v :
  let old_tf := term_freqs (tokens_of sh i old) in
  let new_tf := term_freqs (tokens_of sh i new) in
  let old_wc := doc_words (tokens_of sh i old) in
  let new_wc := doc_words (tokens_of sh i new) in
  kind_of sh i = fulltext -> pk' = pk -> is_Some (v !! c) -> holds_entries c (entries sh i) rows v ->
  holds_entries c (entries sh i) updated
    (apply_writes (map (put_of c) (map (fun '(term, n) => (FtsText.build_key term pk', FtsText.encode_entry_value n new_wc))
       (filter (fun tn => need_put old_tf (negb (old_wc =? new_wc)) tn = true) (map_to_list new_tf))))
     (apply_writes (map (W_delete c) (map (fun '(term, _) => FtsText.build_key term pk)
       (filter (fun tn => new_tf !! tn.1 = None) (map_to_list old_tf)))) v)).
Proof.
  intros old_tf new_tf old_wc new_wc Hk Hp Hc Hh. rewrite updated_same, Hp by done.
  assert (forall r, entries sh i r pk = postings (term_freqs (tokens_of sh i r)) (doc_words (tokens_of sh i r)) pk) as He
    by (intros r; unfold entries; by rewrite Hk).
  pose proof good_old as Hgo.
  assert (forall r term n, good sh fields r -> term_freqs (tokens_of sh i r) !! term = Some n ->
    zlen term <= FtsText.MAX_TERM_BYTES) as Hshort.
  { intros r term n (_ & _ & Hg) Hn%term_freqs_in. by apply (proj1 (Forall_forall _ _) (Hg i Hk)). }
  apply (entries_diffed c (good sh fields) (entries sh i) (entries_owned sh fields i Ht) rows v pk old new); try done.
  - apply rows_good.
  - intros key. rewrite !He, !list_elem_of_fmap. split.
    + intros ([term n] & -> & [Hno Hin%elem_of_map_to_list]%list_elem_of_filter). simpl in Hno. split.
      * eexists (_, _). split; [reflexivity|]. apply elem_of_postings. eauto.
      * intros ([key x] & Ek & (term' & n' & Hn' & -> & ->)%elem_of_postings). simpl in Ek.
        apply build_key_inj in Ek as [<- _]; [|by eapply (Hshort old)|by eapply (Hshort new)].
        unfold new_tf in Hno. congruence.
    + intros [([key' x] & -> & (term & n & Hn & -> & ->)%elem_of_postings) Hno]. exists (term, n). split; [done|].
      apply list_elem_of_filter. split; [|by apply elem_of_map_to_list]. simpl.
      destruct (new_tf !! term) as [n'|] eqn:En; [|done]. destruct Hno.
      exists (FtsText.build_key term pk, FtsText.encode_entry_value n' new_wc). split; [done|]. apply elem_of_postings. eauto.
  - intros key x. rewrite He, list_elem_of_fmap. intros ([term n] & [= -> ->] & [_ Hin%elem_of_map_to_list]%list_elem_of_filter).
    apply elem_of_postings. eauto.
  - intros key x. rewrite !He. intros (term & n & Hn & -> & ->)%elem_of_postings.
    destruct (need_put old_tf (negb (old_wc =? new_wc)) (term, n)) eqn:En.
    + left. apply list_elem_of_fmap. exists (term, n). split; [done|]. apply list_elem_of_filter.
      split; [done|]. by apply elem_of_map_to_list.
    + right. unfold need_put in En. simpl in En. destruct (old_tf !! term) as [m|] eqn:Em; [|done].
      apply orb_false_iff in En as [Ewc%negb_false_iff Emn%negb_false_iff]. apply Z.eqb_eq in Ewc, Emn. subst m.
      apply elem_of_postings. exists term, n. split_and!; [done..|]. by fold old_wc new_wc; rewrite Ewc.
Qed.

(** ** The three kinds of index *)

Lemma update_fts_spec (K : core_t -> Prop) k t d v data pre i c :
  K k -> i ∉ pre -> secondary sh i = Some c -> part data pre rows updated v -> kind_of sh i = fulltext ->
  spec (inv sh Q k t d v) (update_fts_index sh ses t i c old new pk pk' (negb (bool_decide (pk = pk'))))
    (index_done K t d data pre i) (durable d).
Proof.
  intros HK Hi Hs Hp Hk. unfold update_fts_index. destruct (negb (key_written _ _)) eqn:Ew.
  - assert (unwritten i = true) as Hu by (unfold unwritten; by rewrite Hk). apply spec_ret. intros h Hh. exists k, v.
    split_and!; [done| |done]. apply index_skip with (c := c); try done; [|by apply (Hhonest i c)].
    destruct (decide (pk = pk')) as [->|Hne]; [done|]. assert (unwritten i = false); [|congruence].
    apply (Hmoves Hne i c Hs). by rewrite Hk.
  - apply (spec_bind _ _ (index_done K t d data pre i)).
    + case_bool_decide as Hpk.
      * eapply spec_weaken; [eapply (delete_put_spec K k t d v data pre i c); try done; [by rewrite Hk|]|done|intros r h Hr; exact Hr|done].
        intros Hc Hh. by apply fts_diff_holds.
      * eapply (delete_put_spec K k t d v data pre i c); try done; [by rewrite Hk|]. intros Hc Hh.
        pose proof (entries_replaced i c v Hc Hh) as Hx. unfold entries in Hx at 2 3. by rewrite Hk in Hx.
    + intros [rc|]; [by apply spec_ret|]. case_match; [by apply spec_ret|].
      apply spec_at. intros h0 (k' & v' & HK' & Hp' & Hi').
      eapply spec_bind; [eapply spec_pre; [by apply (accumulate_spec sh Q Ht k' t d v')|by intros ? ->]|].
      intros ?. apply spec_ret. intros h Hh. by exists k', v'.
Qed.

Lemma update_spatial_spec (K : core_t -> Prop) k t d v data pre i c :
  K k -> i ∉ pre -> secondary sh i = Some c -> part data pre rows updated v -> kind_of sh i = spatial ->
  spec (inv sh Q k t d v) (update_spatial_index sh ses t i c old new pk pk') (index_done K t d data pre i) (durable d).
Proof.
  intros HK Hi Hs Hp Hk. unfold update_spatial_index. destruct (negb (first_part_written _ _)) eqn:Ew.
  - assert (unwritten i = true) as Hu by (unfold unwritten; by rewrite Hk). apply spec_ret. intros h Hh. exists k, v.
    split_and!; [done| |done]. apply index_skip with (c := c); try done; [|by apply (Hhonest i c)].
    destruct (decide (pk = pk')) as [->|Hne]; [done|]. assert (unwritten i = false); [|congruence].
    apply (Hmoves Hne i c Hs). by rewrite Hk.
  - eapply (delete_put_spec K k t d v data pre i c); try done; [by rewrite Hk|]. intros Hc Hh.
    pose proof (entries_replaced i c v Hc Hh) as Hx. unfold entries in Hx at 2 3. by rewrite Hk in Hx.
Qed.

Lemma regular_entries i r p : kind_of sh i = regular -> entries sh i r p = [(index_key sh i r ++ p, tdb_empty_val)].
Proof. intros Hk. unfold entries. by rewrite Hk. Qed.

Lemma update_regular_spec k0 k t d v data pre i c :
  (exists p, k = at_pk p k0) -> i ∉ pre -> secondary sh i = Some c -> part data pre rows updated v -> kind_of sh i = regular ->
  spec (inv sh Q k t d v) (update_regular_index sh ses junk t i c old new pk pk' (negb (bool_decide (pk = pk'))))
    (index_done (fun k => exists p, k = at_pk p k0) t d data pre i) (durable d).
Proof.
  intros HK Hi Hs Hp Hk. unfold update_regular_index. destruct (_ && _) eqn:Ew.
  - apply andb_true_iff in Ew as [Epk%negb_true_iff Ew]. apply negb_false_iff, bool_decide_eq_true in Epk.
    assert (unwritten i = true) as Hu by (unfold unwritten; by rewrite Hk).
    apply spec_ret. intros h Hh. exists k, v. split_and!; [done| |done].
    apply index_skip with (c := c); try done. by apply (Hhonest i c).
  - rewrite (full_key_eq sh junk fields) by (done || apply good_old).
    rewrite (sec_idx_key_eq sh junk fields), Hpk' by done.
    eapply (spec_bind _ _ (fun _ => inv sh Q (at_pk pk' k) t d v)); [apply inv_modify; [by intros h <-|done|done]|]. intros _.
    assert (exists p, at_pk pk' k = at_pk p k0) as HK' by (destruct HK as [p ->]; by exists pk').
    clear Ew. case_bool_decide as Hik.
    + apply app_inj_1 in Hik as [Hik Epk]; [|by apply index_key_same_length].
      apply spec_ret. intros h Hh. exists (at_pk pk' k), v. split_and!; [done| |done].
      apply index_skip with (c := c); try done. intros kx. by rewrite !regular_entries, Hik by done.
    + eapply spec_bind; [apply delete_spec|]. intros rc. destruct (decide (rc = TDB_SUCCESS)) as [->|Hne].
      2: { unfold tdb_ok. rewrite bool_decide_false by done. apply spec_ret. by intros h [[? _]|[Hf (_ & _ & Hd & _)]]. }
      simpl. set (v1 := apply_write (W_delete c (index_key sh i old ++ pk)) v).
      apply (spec_pre _ (inv sh Q (at_pk pk' k) t d v1)); [|by intros h [[_ ?]|[[? _] _]]].
      eapply spec_bind; [apply row_put_spec|]. intros rc. apply spec_ret. intros h [[-> Hh]|[[Hne Hf] (_ & _ & Hd & _)]].
      2: { unfold tdb_ok. by rewrite bool_decide_false. }
      eexists (at_pk pk' k), _. split; [done|]. split; [|exact Hh].
      apply (index_step data pre v i c [W_delete c (index_key sh i old ++ pk); W_put c (index_key sh i new ++ pk') tdb_empty_val]);
        try done; [by repeat constructor|].
      intros Hc _ Hent. pose proof (entries_replaced i c v Hc Hent) as Hx. rewrite !regular_entries in Hx by done. done.
Qed.

Lemma update_maintain_spec k t d v data :
  part data [] rows updated v ->
  spec (inv sh Q k t d v) (update_maintain_indexes sh ses junk t old new pk pk' (negb (bool_decide (pk = pk'))))
    (fun rc h => match rc with
       | TDB_SUCCESS => exists p v', part data [] updated updated v' /\ inv sh Q (at_pk p k) t d v' h
       | _ => (Q -> False) /\ durable d h
       end) (durable d).
Proof.
  intros Hp. eapply spec_weaken; [apply (maintain_spec sh Q covered (fun k' => exists p, k' = at_pk p k) t d data rows updated)|done| |done];
    [| |exact Hp|].
  3: { intros [] h; try done. intros (k' & v' & [p ->] & ? & ?). by exists p, v'. }
  - intros pre i c k' v0 Hlt Hfr Hs HK Hp0. destruct (kind_of sh i) eqn:Hk.
    + by apply update_regular_spec.
    + by apply update_fts_spec.
    + by apply update_spatial_spec.
  - exists (c_pk k). by destruct k.
Qed.

(** ** The primary row *)

Lemma update_primary_spec k t d v b :
  stored new b -> part rows [] rows updated v ->
  spec (inv sh Q k t d v) (update_rewrite_primary sh ses t pk pk' b (negb (bool_decide (pk = pk'))))
    (fun rc h => match rc with
       | TDB_SUCCESS => exists v', part updated [] rows updated v' /\ inv sh Q k t d v' h
       | _ => (Q -> False) /\ durable d h
       end) (durable d).
Proof.
  intros Hb Hp. unfold update_rewrite_primary.
  apply (spec_bind _ _ (fun rc h => (rc = TDB_SUCCESS /\ exists data v', <[pk' := new]> data = updated /\
      part data [] rows updated v' /\ inv sh Q k t d v' h) \/ (fails Q TDB_SUCCESS rc /\ durable d h))).
  - case_bool_decide as Hpk; simpl.
    + apply spec_ret. intros h Hi. left. split; [done|]. exists rows, v. split_and!; try done. rewrite updated_same by done.
      by rewrite Hpk.
    + eapply spec_weaken; [apply delete_spec|done| |done]. intros rc h [[-> Hi]|[Hf (_ & _ & Hd & _)]]; [left|by right].
      split; [done|]. eexists (delete pk rows), _. split; [done|]. split; [|exact Hi]. by apply data_delete.
  - intros rc. destruct (decide (rc = TDB_SUCCESS)) as [->|Hne].
    2: { unfold tdb_ok. rewrite bool_decide_false by done. apply spec_ret. intros h [[? _]|[[_ Hf] Hd]]; [done|]. by destruct rc. }
    simpl. apply spec_at. intros h0 [[_ (data & v' & Hdata & Hp' & Hi)]|[[? _] _]]; [|done].
    eapply spec_weaken; [apply (row_put_spec sh Q k t d v')|by intros ? ->| |done]. intros rc h [[-> Hh]|[[Hne Hf] (_ & _ & Hd & _)]].
    + eexists. split; [|exact Hh]. rewrite <- Hdata at 1. by apply data_put.
    + by destruct rc.
Qed.

(** ** Duplicates *)

(** Another row has the new primary key, or the new value of unique index [i]. *)
Definition update_conflict (i : nat) : Prop :=
  (has_user_pk (codec sh) = true /\ i = pk_index (codec sh) /\ pk <> pk' /\ is_Some (rows !! pk')) \/
  clashes sh (delete pk rows) new i.

(** The columns of the index get another value. *)
Definition rekeyed (i : nat) : Prop := index_key sh i old <> index_key sh i new.

Lemma rekeyed_entry i v :
  part rows [] rows rows v -> rekeyed i -> entry_exists sh junk v new i <-> clashes sh (delete pk rows) new i.
Proof.
  intros (_ & _ & _ & Hx) Hre. split.
  - intros (Hlt & Hk & Hu & Hn & c & suffix & Hs & Hl). split_and!; try done.
    destruct (proj1 (live_entry sh junk fields rows v i c new Ht Ho Hnew Hk (Hx i c Hlt Hs (Hreg i Hk)))) as (p & r & Hr & Hsame);
      [by exists suffix|]. exists p, r.
    split; [|done]. rewrite lookup_delete_ne; [done|]. intros <-. simplify_eq. apply Hre. symmetry.
    apply (same_key_iff sh fields i new old); try done. apply good_old.
  - intros (Hlt & Hk & Hu & Hn & [c Hs] & p & r & [_ Hr]%lookup_delete_Some & Hsame). split_and!; try done.
    destruct (proj2 (live_entry sh junk fields rows v i c new Ht Ho Hnew Hk (Hx i c Hlt Hs (Hreg i Hk)))) as [suffix Hl];
      eauto.
Qed.

Definition unique_clear : Prop :=
  (has_user_pk (codec sh) = true -> pk <> pk' -> rows !! pk' = None) /\
  (Q -> forall i, rekeyed i -> ~ clashes sh (delete pk rows) new i).

Lemma update_check_spec k t d v :
  runs_in t k -> part rows [] rows rows v ->
  spec (inv sh Q k t d v) (update_check_unique sh junk old new pk' (negb (bool_decide (pk = pk'))) t)
    (checked sh Q k t d v unique_clear update_conflict) (durable d).
Proof.
  intros Hrun Hp. unfold update_check_unique.
  apply (spec_checked sh Q k t d v (has_user_pk (codec sh) = true -> pk <> pk' -> rows !! pk' = None)
    (fun i => has_user_pk (codec sh) = true /\ i = pk_index (codec sh) /\ pk <> pk' /\ is_Some (rows !! pk')) _ _ (fun c => c)).
  - destruct (negb (bool_decide (pk = pk')) && has_user_pk (codec sh)) eqn:Ec.
    + apply andb_true_iff in Ec as [Epk%negb_true_iff%bool_decide_eq_false Hu].
      eapply spec_weaken; [by apply (pk_check_spec sh Q k t d v)|done| |done]. intros code h Hc.
      destruct Hp as (_ & Hd & _). eapply checked_weaken; [exact Hc| |].
      * intros Hn _ _. apply eq_None_not_Some. by rewrite <- (live_row sh stored rows v pk' Hd).
      * intros i [-> Hl]. apply (live_row sh stored rows v pk' Hd) in Hl. done.
    + apply spec_ret. intros h Hi. split; [done|]. intros Hu Hne. rewrite Hu, bool_decide_false in Ec by done. done.
  - intros Hclear. destruct (Z.eqb_spec (num_secondary_indexes sh) 0) as [Hn|Hn].
    + apply spec_ret. intros h Hi. split; [done|]. split; [done|]. intros _ i _ (_ & _ & _ & _ & [c Hs] & _).
      apply secondary_num in Hs. lia.
    + eapply spec_weaken; [apply (secondary_check_spec sh junk Q k t d v new
        (fun i => bool_decide (full_key sh junk i old = full_key sh junk i new)))|done| |done].
      assert (forall i, bool_decide (full_key sh junk i old = full_key sh junk i new) = false <-> rekeyed i) as Hkey.
      { intros i. rewrite bool_decide_eq_false, !(full_key_eq sh junk fields) by (done || apply good_old). done. }
      intros code h Hc. eapply checked_weaken; [exact Hc| |].
      * intros Hcl. split; [done|]. intros q i Hre Hcl'. apply (Hcl q i); [by apply Hkey|]. by apply rekeyed_entry.
      * intros i [Hx Hsk]. right. apply (rekeyed_entry i v); [done|by apply Hkey|done].
  - intros code h Hne Hc. destruct code; try done. destruct Hc as (i & Hi & Hh). exists i. split; [by left|done].
Qed.

End row.

(** ** The operation *)

(** What the update answers; the row moves from [pk] to [pk']. *)
Definition update_answer k t d v rows (pk pk' : bytes) (old new : record) (code : ha_code) (h : hdl) : Prop :=
  match code with
  | HA_OK => goes_on sh fields Q covered (at_pk pk' k) d (updated rows pk pk' new) h /\
      (cached_skip_unique_ ses = false -> unique_clear rows pk pk' old new)
  | HA_ERR_FOUND_DUPP_KEY => exists i, update_conflict rows pk pk' new i /\ inv sh Q (at_dup i k) t d v h
  | HA_LIB _ => (Q -> False) /\ survives sh fields covered d (updated rows pk pk' new) h
  | HA_SERVER _ | HA_ERR_GENERIC | HA_ERR_OUT_OF_MEM => durable d h
  end.

Lemma update_answer_lib k t d v rows pk pk' old new rc (h : hdl) :
  fails Q TDB_SUCCESS rc -> durable d h -> update_answer k t d v rows pk pk' old new (tdb_rc_to_ha rc) h.
Proof. intros [Hn Hq] Hd. destruct rc; try done; (split; [done|by left]). Qed.

Lemma updated_ok rows pk pk' new :
  rows_ok sh fields rows -> good sh fields new -> pk_of sh new pk' = pk' -> rows_ok sh fields (updated rows pk pk' new).
Proof. intros Ho Hg Hp. apply rows_ok_insert; [by apply rows_ok_delete|done|done]. Qed.

(** Two foreign-key checks in a row leave the table alone. *)
Lemma fk_step {A} k t d v (m : M E Z) (rest : M hdl A) (f : Z -> A) (R : A -> hdl -> Prop) (C : hdl -> Prop) :
  (exists r, m = fk_check_child t r \/ m = fk_enforce_parent_delete t r \/ exists r', m = fk_enforce_parent_update t r r') ->
  (forall h, durable d h -> C h) -> (forall c h, c <> 0 -> durable d h -> R (f c) h) ->
  (forall ws, Forall (elsewhere sh) ws -> spec (inv sh Q k t d (apply_writes ws v)) rest R C) ->
  spec (inv sh Q k t d v) (c <-- on_lib m; if negb (c =? 0) then ret (f c) else rest) R C.
Proof.
  intros Hm HC Hf Hrest. eapply spec_bind; [eapply spec_crash; [by apply (fk_spec sh Q k t d v)|exact HC]|].
  intros c. apply spec_at. intros h0 (ws & Hws & Hi). destruct (Z.eqb_spec c 0) as [->|Hne]; simpl.
  - eapply spec_pre; [by apply Hrest|]. by intros ? ->.
  - apply spec_ret. intros h ->. apply Hf; [done|]. by destruct Hi as (_ & _ & ? & _).
Qed.

Lemma update_row_body_spec k t d v rows pk pk' old new b :
  runs_in t k -> rep rows v -> rows !! pk = Some old -> good sh fields new -> pk_of sh new pk' = pk' ->
  (has_user_pk (codec sh) = true -> cached_skip_unique_ ses = true -> pk' = pk \/ rows !! pk' = None) ->
  (has_user_pk (codec sh) = false -> pk' = pk) ->
  honest old new -> moves_covered pk pk' -> stored new b ->
  spec (inv sh Q k t d v) (update_row_body sh ses junk old new pk pk' b t) (update_answer k t d v rows pk pk' old new)
    (survives sh fields covered d (updated rows pk pk' new)).
Proof.
  intros Hrun [Ho Hp] Hold Hg Hpk' Hskip Hhid Hhon Hmv Hb. unfold update_row_body.
  assert (forall h : hdl, durable d h -> survives sh fields covered d (updated rows pk pk' new) h) as Hdur by (by left).
  eapply spec_bind; [eapply spec_crash; [by apply (mark_dirty_spec sh Q k t d v)|exact Hdur]|]. intros ?.
  apply (spec_checked sh Q k t d v (cached_skip_unique_ ses = false -> unique_clear rows pk pk' old new)
    (update_conflict rows pk pk' new) _ _ (fun c => c)).
  { eapply spec_crash; [|exact Hdur]. destruct (cached_skip_unique_ ses); [by apply spec_ret|].
    eapply spec_weaken; [by apply update_check_spec|done| |done]. intros code h Hc. by eapply checked_weaken. }
  2: { intros code h Hne Hc. destruct code; try done. destruct Hc as [? (_ & _ & ? & _)]. split; [done|by left]. }
  intros Hclear.
  assert (pk' = pk \/ rows !! pk' = None) as Hfree.
  { destruct (has_user_pk (codec sh)) eqn:Hu; [|left; by apply Hhid]. destruct (decide (pk' = pk)) as [|Hne]; [by left|].
    destruct (cached_skip_unique_ ses); [by apply Hskip|]. right. apply Hclear; [done|done|congruence]. }
  apply fk_step; [exists new; by left|exact Hdur|done|]. intros ws1 Hws1.
  apply fk_step; [exists old; right; right; by exists new|exact Hdur|done|]. intros ws2 Hws2.
  assert (part rows [] rows rows (apply_writes ws2 (apply_writes ws1 v))) as Hp2 by (do 2 (apply part_rep_elsewhere; [done|]); done).
  eapply spec_bind; [eapply spec_crash; [apply (update_primary_spec rows pk pk' new); [done|exact Hp2]|exact Hdur]|]. intros rc.
  destruct (decide (rc = TDB_SUCCESS)) as [->|Hrc]; unfold tdb_ok.
  2: { rewrite bool_decide_false by done. apply spec_ret. intros h Hx.
       assert ((Q -> False) /\ durable d h) as [? ?] by (by destruct rc). by apply update_answer_lib. }
  simpl. apply spec_at. intros h0 (v1 & Hp1 & Hi1).
  eapply spec_bind; [eapply spec_crash; [eapply spec_pre; [by apply (update_maintain_spec rows pk pk' old new) with (k := k) (v := v1)|by intros ? ->]|exact Hdur]|].
  intros rc. destruct (decide (rc = TDB_SUCCESS)) as [->|Hrc].
  2: { rewrite bool_decide_false by done. apply spec_ret. intros h Hx.
       assert ((Q -> False) /\ durable d h) as [? ?] by (by destruct rc). by apply update_answer_lib. }
  simpl. apply spec_at. intros h1 (p & v2 & Hpt & Hi2). apply (spec_pre _ (inv sh Q (at_pk p k) t d v2)); [|by intros ? ->].
  eapply (spec_bind _ _ (fun _ => inv sh Q (at_pk pk' k) t d v2)).
  { apply inv_modify; [|done|done]. intros h Hk. unfold core, at_pk in *. simpl. by injection Hk as -> -> _ -> -> ->. }
  intros _. eapply spec_weaken; [apply (maybe_flush_spec sh fields Q covered (at_pk pk' k) t d v2 (updated rows pk pk' new) in_bulk_update_)|done| |done].
  - done.
  - split; [by apply updated_ok|done].
  - intros code h Hbt. by destruct code.
Qed.


End Update.
End DmlUpdate.
