(* ===== verification/DmlExample.v ===== *)
(** * A concrete table for the row operations

    The table of [KeyCodec]'s examples, [(id INT PRIMARY KEY, a SMALLINT NULL UNIQUE, b VARBINARY(4),
    t DATETIME(2))] with a full-text index on [b], over the map library.  Its lemmas discharge the
    hypotheses of the refinement theorems at concrete inputs; the theorems at the end run the row
    operations on it where the code departs from its own account. *)
From S2P Require Import Prelude Effects TidesDb RowDb RowFormat FtsText Table KeyCodec Dml TableRep DmlSpec DmlInsert DmlDelete DmlUpdate.
Import Table KeyCodec Dml TableRep DmlSpec DmlInsert DmlDelete DmlUpdate.
#[local] Open Scope Z_scope.
#[local] Open Scope tdb_scope.

Module DmlExample.

#[local] Existing Instance KeyCodec.example_server.
#[local] Existing Instance FtsText.example_charset.

(** A row is serialised as its columns one after the other, the foreign keys hold, and the
    auto-increment column [id] gets the value 9 when it is 0 and the server generates one. *)
Definition ex_serialize (r : record) : bytes := 1 :: concat (slots r).
Definition ex_id (r : record) : Z := le_val (slot col_id r).
Definition ex_number (generate : bool) (r : record) : record :=
  if generate && (ex_id r =? 0) then write_slot col_id [9; 0; 0; 0] r else r.

Definition ex_services (generate : bool) : RowServices mem_db unit := {|
  serialize_row r := ret (ex_serialize r);
  fk_check_child _ _ := ret 0;
  fk_enforce_parent_delete _ _ := ret 0;
  fk_enforce_parent_update _ _ _ := ret 0;
  open_stmt_txn := ret (Some tt);
  next_number := ex_id;
  update_auto_increment r := ret (0, ex_number generate r);
  mbr := unit;
  spatial_compute_mbr _ := None;
  centroid_hilbert _ := 0;
  spatial_build_value _ := [] |}.

#[local] Existing Instance ex_services.
#[local] Abbreviation svc := (ex_services true).

#[export] Program Instance ex_services_ok (g : bool) families : @ServicesOk mem_db unit _ _ (ex_services g) families false := {|
  stored r b := b = ex_serialize r;
  numbered r r' := r' = ex_number g r |}.
Next Obligation. intros g families d ws t Q r e He. split; [done|]. by right. Qed.
Next Obligation. intros g families d ws t Q r e He. done. Qed.
Next Obligation.
  intros g families m t Hm d ws Q. assert (m = ret 0) as -> by (by destruct Hm as [r [->|[->|[r' ->]]]]).
  intros e [[Hd Hw] Hq]. split; [|done]. exists []. by rewrite app_nil_r.
Qed.

Definition ex_table : share := {|
  codec := ex_share;
  cf := bs "d";
  idx_cfs := [None; Some (bs "a"); Some (bs "f")];
  idx_kind := [regular; regular; fulltext];
  nosame := [true; true; false];
  encrypted := false;
  ref_length := 4;
  has_next_number := true;
  triggers := false;
  table_name := (bs "db", bs "t");
  fts_opts := FtsText.example_opts |}.

Definition ex_session (cols : list nat) : session := {|
  cached_skip_unique_ := false;
  cached_single_delete_primary_ := false;
  cached_compact_after_range_delete_min_rows_ := 0;
  write_can_replace_ := false;
  write_set := cols |}.

Lemma ex_index_cases (P : nat -> Prop) : (forall i, (i < 3)%nat -> P i) -> (forall i, (3 <= i)%nat -> P i) -> forall i, P i.
Proof. intros H1 H2 i. destruct (Nat.lt_ge_cases i 3); auto. Qed.

Lemma ex_key_high i : (3 <= i)%nat -> key_info_of ex_table i = no_key.
Proof. intros Hi. unfold key_info_of, key_at. simpl. by rewrite lookup_ge_None_2 by (simpl; lia). Qed.

Lemma ex_secondary i c : secondary ex_table i = Some c -> (i = 1%nat /\ c = bs "a") \/ (i = 2%nat /\ c = bs "f").
Proof.
  intros H. destruct i as [|[|[|i]]]; [done|left|right|done]; vm_compute in H; by simplify_eq.
Qed.

Lemma ex_table_ok : table_ok ex_table.
Proof.
  split_and!.
  - intros i. destruct (Nat.lt_ge_cases i 3) as [Hi|Hi]; [|rewrite ex_key_high by done; by apply Forall_nil].
    destruct i as [|[|[|i]]]; [..|lia]; ex_forall; ex_part.
  - intros i j c [[-> ->]|[-> ->]]%ex_secondary Hj; apply ex_secondary in Hj as [[-> E']|[-> E']]; done.
  - by intros i [[_ ?]|[_ ?]]%ex_secondary.
Qed.

(** Rows of the table whose text leaves room for its length byte. *)
Lemma ex_good r :
  (exists a_null id a b1 b2 t, r = row a_null id a [2; b1; b2; 0; 0] t /\ is_byte a_null /\
     Forall wf_bytes [id; a; [2; b1; b2; 0; 0]; t]) ->
  forallb (fun tok => zlen tok <=? FtsText.MAX_TERM_BYTES) (tokens_of ex_table 2 r) = true ->
  good ex_table ex_fields r.
Proof.
  intros (a_null & id & a & b1 & b2 & t & -> & Hn & Hw) Htok. split_and!.
  - by apply row_ok.
  - intros i. destruct (Nat.lt_ge_cases i 3) as [Hi|Hi]; [|rewrite ex_key_high by done; by apply Forall_nil].
    destruct i as [|[|[|i]]]; [..|lia]; ex_forall; intros E'; (discriminate E' || (unfold zlen; simpl; lia)).
  - intros i Hk. assert (i = 2%nat) as -> by (by destruct i as [|[|[|i]]]).
    apply Forall_forall. intros tok Hin. rewrite forallb_forall in Htok. apply Z.leb_le, Htok. by apply list_elem_of_In.
Qed.

Definition ex_row (id a b1 b2 : Z) : record := row 0 [id; 0; 0; 0] [a; 0] [2; b1; b2; 0; 0] [0; 0; 0; 0; 0; 0].
Definition r7 : record := ex_row 7 1 120 121.
Definition r8 : record := ex_row 8 2 97 98.

Ltac ex_good_tac :=
  apply ex_good; [do 6 eexists; split; [reflexivity|]; split; [unfold is_byte; lia|ex_forall; solve_wf]|vm_compute; reflexivity].

Lemma r7_good : good ex_table ex_fields r7.
Proof. ex_good_tac. Qed.
Lemma r8_good : good ex_table ex_fields r8.
Proof. ex_good_tac. Qed.

Definition pk_at (id : Z) : bytes := pk_of ex_table (ex_row id 0 0 0) [].

(** ** Represented tables *)

Section Rep.
Context (covered : nat -> Prop).
#[local] Abbreviation rep rows v := (table_rep (RowServices0 := svc) ex_table ex_fields (fun r b => b = ex_serialize r) covered rows v).

Definition empty_store : store := {[bs "d" := ∅; bs "a" := ∅; bs "f" := ∅]}.

Lemma ex_rep_empty : rep ∅ empty_store.
Proof.
  split; [intros pk r H; by rewrite lookup_empty in H|]. split_and!.
  - vm_compute. eauto.
  - intros pk. rewrite lookup_empty. unfold db_get. change (empty_store !! cf ex_table) with (Some (∅ : gmap bytes bytes)).
    simpl. by rewrite lookup_empty.
  - intros i c [[_ ->]|[_ ->]]%ex_secondary; vm_compute; eauto.
  - intros i c _ Hs _ k x. unfold db_get. rewrite decide_False by apply not_elem_of_nil.
    assert (empty_store !! c = Some ∅) as -> by (by destruct (ex_secondary i c Hs) as [[_ ->]|[_ ->]]).
    simpl. rewrite lookup_empty. split; [done|]. intros (pk & r & H & _). by rewrite lookup_empty in H.
Qed.

(** The writes that store a row with its index entries. *)
Definition stores (pk : bytes) (r : record) : list write :=
  W_put (bs "d") (RowFormat.build_data_key pk) (ex_serialize r) ::
  map (put_of (bs "a")) (entries (RowServices0 := svc) ex_table 1 r pk) ++
  map (put_of (bs "f")) (entries (RowServices0 := svc) ex_table 2 r pk).

Lemma ex_rep_insert rows v pk r :
  rep rows v -> good ex_table ex_fields r -> pk_of ex_table r pk = pk -> rows !! pk = None ->
  rep (<[pk := r]> rows) (apply_writes (stores pk r) v).
Proof.
  intros [Ho Hp] Hg Hpk Hn. split; [by apply rows_ok_insert|]. unfold stores.
  change (apply_writes (?w :: ?ws) v) with (apply_writes ws (apply_write w v)). rewrite apply_writes_app.
  apply (part_rep_all _ _ _ _ rows). change (seq 0 (num_keys ex_table)) with ((([] ++ [0%nat]) ++ [1%nat]) ++ [2%nat]).
  apply (row_added (RowServices0 := svc) ex_table ex_fields (ServicesOk0 := ex_services_ok true _)); try done; [apply ex_table_ok|by apply (bool_decide_unpack _)|].
  apply (row_added (RowServices0 := svc) ex_table ex_fields (ServicesOk0 := ex_services_ok true _)); try done; [apply ex_table_ok|by apply (bool_decide_unpack _)|].
  apply part_rep_skip; [done|]. by apply data_put; [apply ex_table_ok| |].
Qed.

End Rep.

(** ** Handlers *)

Definition ex_bulk : bulk := {|
  in_bulk_insert_ := false; in_bulk_update_ := false; in_bulk_delete_ := false; bulk_insert_ops_ := 0;
  bulk_delete_rows_ := 0; bulk_delete_min_pk_ := []; bulk_delete_max_pk_ := []; bulk_delete_defer_ := false;
  bulk_delete_keys_ := [] |}.

Definition ex_trx : tidesdb_trx_t unit := {|
  trx_txn := Some tt; dirty := false; fts_meta_pending := []; fts_meta_dirty := false; stmt_savepoint_active := false;
  stmt_fts_snapshot := []; txn_generation := 1; mod_tables := []; mod_tables_generation := 0; needs_reset := false;
  isolation_level := TDB_ISOLATION_SNAPSHOT; stmt_fts_dirty_snapshot := false; prepared_xid := []; prepared_mod_tables := [] |}.

(** A statement on the contents [d], positioned on the row [pk]; [fates] decides the library's calls. *)
Definition ex_handler (d : store) (pk : bytes) (b : bulk) (fates : list fate) : handler mem_db unit := {|
  lib := {| mem := d; buf := []; script := fates |}; stmt_txn := Some tt; stmt_txn_dirty := false;
  cached_trx_ := Some ex_trx; scan_txn := None; scan_iter := false; current_pk := pk; dup_key_no_ := 0; dup_ref := [];
  mod_table_noted_generation_ := 0; next_row_id := 1; auto_inc_val := 1; bulk_of := b |}.

#[local] Abbreviation core_of d pk b := (core (ex_handler d pk b [])).

Lemma ex_inv Q d pk b fates :
  (Q -> Forall dies_or_works fates) -> inv ex_table Q (core_of d pk b) tt d d (ex_handler d pk b fates).
Proof. intros Hq. split_and!; try done. by apply Forall_nil_2. Qed.

Lemma ex_runs_in d pk b : runs_in tt (core_of d pk b).
Proof. split; [done|by right]. Qed.

Definition junk9 : memory := fun _ => 9.
Definition store7 : store := apply_writes (stores (pk_at 7) r7) empty_store.

Lemma store7_rep covered : table_rep (RowServices0 := svc) ex_table ex_fields (fun r b => b = ex_serialize r) covered {[pk_at 7 := r7]} store7.
Proof.
  change ({[pk_at 7 := r7]} : gmap bytes record) with (<[pk_at 7 := r7]> (∅ : gmap bytes record)).
  apply ex_rep_insert; [apply ex_rep_empty|apply r7_good|done|apply lookup_empty].
Qed.

(** ** Witnesses *)

#[local] Abbreviation ses0 := (ex_session []).
#[local] Abbreviation all := (fun _ : nat => True).


(** The delete of [r7]. *)
Lemma delete_row_refines_witness :
  let h := ex_handler store7 (pk_at 7) ex_bulk [] in
  deleted (RowServices0 := svc) ex_table ex_fields True all (core h) store7 (delete (pk_at 7) {[pk_at 7 := r7]}) HA_OK
    (delete_row (RowServices0 := svc) ex_table ses0 junk9 r7 h).1.
Proof.
  intros h. eapply spec_run; [apply (delete_row_refines (RowServices0 := svc) ex_table ses0 junk9 ex_fields True
    (ServicesOk0 := ex_services_ok true _) ex_table_ok all (fun _ _ => or_intror I) (core h) tt store7 store7 {[pk_at 7 := r7]} r7)| |].
  - apply ex_runs_in.
  - apply rep_deferred; [reflexivity..|]. apply store7_rep.
  - vm_compute. reflexivity.
  - apply ex_inv. intros _. apply Forall_nil_2.
  - vm_compute. reflexivity.
Defined.


(** The end of a bulk delete that has buffered [r7], its index entries gone. *)
Definition held_back : store := apply_write (W_put (bs "d") (RowFormat.build_data_key (pk_at 7)) (ex_serialize r7)) empty_store.
Definition holding : bulk := {|
  in_bulk_insert_ := false; in_bulk_update_ := false; in_bulk_delete_ := true; bulk_insert_ops_ := 0;
  bulk_delete_rows_ := 1; bulk_delete_min_pk_ := RowFormat.build_data_key (pk_at 7);
  bulk_delete_max_pk_ := RowFormat.build_data_key (pk_at 7); bulk_delete_defer_ := true;
  bulk_delete_keys_ := [RowFormat.build_data_key (pk_at 7)] |}.

Lemma holding_deferred : deferred (RowServices0 := svc) ex_table ex_fields (ServicesOk0 := ex_services_ok true _) all holding ∅ held_back.
Proof.
  destruct (ex_rep_empty all) as [Ho Hp]. split; [done|]. exists {[pk_at 7 := r7]}. split_and!.
  - change ({[pk_at 7 := r7]} : gmap bytes record) with (<[pk_at 7 := r7]> (∅ : gmap bytes record)).
    by apply data_put; [apply ex_table_ok| |].
  - apply map_eq. intros pk. rewrite minus_lookup, lookup_empty. case_decide as Hk; [done|]. symmetry. apply lookup_singleton_ne.
    intros <-. apply Hk. by left.
  - unfold buffer_ok. split_and!; [done|intros _; by vm_compute|apply NoDup_singleton| |].
    + apply Forall_singleton. exists (pk_at 7). split; [done|]. rewrite lookup_singleton_eq. eauto.
    + apply Forall_singleton. split; apply bytes_le_refl.
Qed.

Lemma end_bulk_delete_refines_witness :
  let h := ex_handler held_back [] holding [] in
  resolved (RowServices0 := svc) ex_table ex_fields True all (core h) tt held_back ∅ HA_OK
    (end_bulk_delete (RowServices0 := svc) ex_table ses0 h).1.
Proof.
  intros h. eapply spec_run; [apply (end_bulk_delete_refines (RowServices0 := svc) ex_table ses0 ex_fields True
    (ServicesOk0 := ex_services_ok true _) ex_table_ok all (core h) tt held_back held_back ∅)| |].
  - apply ex_runs_in.
  - apply holding_deferred.
  - apply (bool_decide_unpack _). vm_compute. exact I.
  - apply ex_inv. intros _. apply Forall_nil_2.
  - vm_compute. reflexivity.
Defined.

(** ** Departures *)

Definition seen (h : handler mem_db unit) (c k : bytes) : option bytes :=
  db_get c k (apply_writes (buf (lib h)) (mem (lib h))).

(** An UPDATE that moves a row to another primary key without writing the columns of a full-text
    index leaves the index as it was: the row's words are found under the primary key it no longer has,
    and not under the one it has.  The regular index follows. *)
Lemma moved_row_keeps_stale_postings :
  let moved := ex_row 8 1 120 121 in
  let posting id := FtsText.build_key (bs "xy") (pk_at id) in
  let h := (update_row (RowServices0 := svc) ex_table (ex_session [0%nat]) junk9 r7 moved (ex_handler store7 (pk_at 7) ex_bulk [])) in
  h.2 = Ret HA_OK /\
  seen h.1 (bs "d") (RowFormat.build_data_key (pk_at 7)) = None /\
  seen h.1 (bs "d") (RowFormat.build_data_key (pk_at 8)) = Some (ex_serialize moved) /\
  is_Some (seen h.1 (bs "f") (posting 7)) /\ seen h.1 (bs "f") (posting 8) = None /\
  is_Some (seen h.1 (bs "a") (index_key ex_table 1 moved ++ pk_at 8)).
Proof. vm_compute. split_and!; (reflexivity || eauto). Qed.

(** A key that cannot be read is taken for no duplicate: when the seek of the uniqueness check
    lands on the entry of a row with the same unique value and the read of its key fails, the insert
    answers success and the index holds the value twice. *)
Lemma unread_key_admits_duplicate :
  let same_a := ex_row 8 1 97 98 in
  let h := (write_row (RowServices0 := svc) ex_table ses0 junk9 same_a true (ex_handler store7 [] ex_bulk [works; lost_reply])) in
  clashes ex_table {[pk_at 7 := r7]} same_a 1 /\ h.2 = Ret HA_OK /\
  is_Some (seen h.1 (bs "a") (index_key ex_table 1 r7 ++ pk_at 7)) /\
  is_Some (seen h.1 (bs "a") (index_key ex_table 1 same_a ++ pk_at 8)) /\
  index_key ex_table 1 r7 = index_key ex_table 1 same_a.
Proof.
  split; [|vm_compute; split_and!; (reflexivity || eauto)]. unfold clashes.
  split; [vm_compute; lia|]. do 3 (split; [vm_compute; reflexivity|]). split; [vm_compute; eauto|].
  exists (pk_at 7), r7. split; vm_compute; reflexivity.
Qed.

(** With a server that stores an explicit 0 in the auto-increment column, an insert of the id 0
    is taken for a generated one: the primary key is not looked up, the row that has it is overwritten
    without an error, and its entry in another index is left without a row. *)
Lemma stored_zero_overwrites_row :
  let zero := ex_row 0 1 120 121 in
  let other := ex_row 0 2 97 98 in
  let store0 := apply_writes (stores (pk_at 0) zero) empty_store in
  let h := (write_row (RowServices0 := ex_services false) ex_table ses0 junk9 other true (ex_handler store0 [] ex_bulk [])) in
  h.2 = Ret HA_OK /\
  seen h.1 (bs "d") (RowFormat.build_data_key (pk_at 0)) = Some (ex_serialize other) /\
  is_Some (seen h.1 (bs "a") (index_key ex_table 1 zero ++ pk_at 0)).
Proof. vm_compute. split_and!; (reflexivity || eauto). Qed.

(** The count that justifies a range tombstone passes over keys it cannot read: a bulk delete that
    has buffered 64 of 65 rows and cannot read one key of the span counts 64, and the tombstone takes
    the row that was to stay. *)
Lemma range_tombstone_takes_survivor :
  let ids := map Z.of_nat (seq 1 65) in
  let dk id := RowFormat.build_data_key (pk_at id) in
  let rows := map (fun id => W_put (bs "d") (dk id) (ex_serialize (ex_row id 0 0 0))) ids in
  let span := {| in_bulk_insert_ := false; in_bulk_update_ := false; in_bulk_delete_ := true; bulk_insert_ops_ := 0;
     bulk_delete_rows_ := 64; bulk_delete_min_pk_ := dk 1; bulk_delete_max_pk_ := dk 65; bulk_delete_defer_ := true;
     bulk_delete_keys_ := map dk (filter (fun id => id <> 33) ids) |} in
  let h := (end_bulk_delete (RowServices0 := svc) ex_table ses0
              (ex_handler (apply_writes rows empty_store) [] span [lost_reply])) in
  (dk 33 ∉ bulk_delete_keys_ span) /\ h.2 = Ret HA_OK /\ seen h.1 (bs "d") (dk 33) = None.
Proof.
  split; [apply (bool_decide_unpack _); vm_compute; exact I|]. vm_compute. split; reflexivity.
Qed.

End DmlExample.
