(* ===== verification/Expiry.v ===== *)
(** * Expiry of rows ([compute_row_ttl] of [ha_tidesdb_read.cc])

    The lifetime a row is written with, and what becomes of the entries of a table when they are written with
    lifetimes.  The library turns the lifetime of a put into a deadline and hides an entry behind its deadline;
    [timed] is a library's contents with the deadlines and [visible] what a read at some time sees of them.  The
    row operations are those of [Dml]: their writes, with the lifetime the source passes to each put. *)
From S2P Require Import Prelude Effects TidesDb RowFormat Table KeyCodec FtsText RowDb Dml TableRep DmlExample.
Import Table KeyCodec Dml TableRep.
#[local] Open Scope Z_scope.
#[local] Open Scope tdb_scope.

Module Expiry.

Definition TIDESDB_TTL_NONE : Z := -1.

(** ** The lifetime of a row *)

(** [val_int] is the value of the expiry column in the row, [None] when the table has none or it is NULL; the two
    others are unsigned and become signed. *)
Definition compute_row_ttl (val_int : option Z) (cached_sess_ttl_ default_ttl : Z) : Z :=
  let ttl_seconds := default 0 val_int in
  let ttl_seconds :=
    if ttl_seconds <=? 0 then if 0 <? cached_sess_ttl_ then to_i64 cached_sess_ttl_ else ttl_seconds else ttl_seconds in
  let ttl_seconds := if (ttl_seconds <=? 0) && (0 <? default_ttl) then to_i64 default_ttl else ttl_seconds in
  if ttl_seconds <=? 0 then TIDESDB_TTL_NONE else ttl_seconds.

(** What a put of the row is given; [has_ttl] is the share's. *)
Definition row_ttl (has_ttl : bool) (val_int : option Z) (cached_sess_ttl_ default_ttl : Z) : Z :=
  if has_ttl || (0 <? cached_sess_ttl_) then compute_row_ttl val_int cached_sess_ttl_ default_ttl else TIDESDB_TTL_NONE.

(** The first of the three that is set. *)
Definition first_set (column session table : Z) : Z :=
  if 0 <? column then column else if 0 <? session then session else if 0 <? table then table else TIDESDB_TTL_NONE.

(** The row's own lifetime comes first, then the session's, then the table's; without any the row stays.  The
    session's and the table's are taken for what they are up to [2 ^ 63 - 1] seconds. *)
Lemma ttl_resolution has_ttl column session table :
  0 <= session < 2 ^ 63 -> 0 <= table < 2 ^ 63 -> (has_ttl = false -> column = None /\ table = 0) ->
  row_ttl has_ttl column session table = first_set (default 0 column) session table.
Proof.
  intros Hs Ht Hh. unfold row_ttl, compute_row_ttl, first_set, to_i64. rewrite !decide_True by lia.
  destruct has_ttl; cbn [orb].
  - destruct (Z.leb_spec (default 0 column) 0), (Z.ltb_spec 0 (default 0 column)), (Z.ltb_spec 0 session), (Z.ltb_spec 0 table);
      cbn [andb]; repeat case_match; try lia.
  - destruct Hh as [-> ->]; [done|]. simpl. destruct (Z.ltb_spec 0 session); simpl; [|done].
    destruct (Z.leb_spec session 0); [lia|]. cbn [andb]. destruct (Z.leb_spec session 0); lia.
Qed.

(** A session's lifetime of [2 ^ 63] seconds or more, which the variable accepts, counts for nothing, even where
    the table has one. *)
Lemma long_session_ttl_ignored column table :
  default 0 column <= 0 -> 0 <= table < 2 ^ 63 ->
  row_ttl true column (2 ^ 64 - 1) table = if 0 <? table then table else TIDESDB_TTL_NONE.
Proof.
  intros Hc Ht. unfold row_ttl, compute_row_ttl. cbn [orb]. destruct (Z.leb_spec (default 0 column) 0); [|lia].
  assert ((0 <? 2 ^ 64 - 1) = true) as -> by done. assert (to_i64 (2 ^ 64 - 1) = -1) as -> by done. cbn [andb Z.leb Z.compare].
  unfold to_i64. rewrite decide_True by lia. destruct (Z.ltb_spec 0 table); [|done]. destruct (Z.leb_spec table 0); lia.
Qed.

(** ** Contents with deadlines *)

Abbreviation timed := (gmap bytes (gmap bytes (bytes * option Z))).

(** [None] never expires. *)
Definition deadline (now ttl : Z) : option Z := if ttl <=? 0 then None else Some (now + ttl).

Definition timed_write (now ttl : Z) (w : write) (T : timed) : timed :=
  match w with
  | W_put cf k v => alter (fun m => <[k := (v, deadline now ttl)]> m) cf T
  | W_delete cf k => alter (fun m => delete k m) cf T
  end.
Definition timed_writes (now ttl : Z) (ws : list write) (T : timed) : timed := fold_left (fun T w => timed_write now ttl w T) ws T.

Definition alive (at_ : Z) (dl : option Z) : bool := match dl with None => true | Some x => at_ <? x end.
Definition shown (at_ : Z) (x : bytes * option Z) : option bytes := if alive at_ x.2 then Some x.1 else None.
Definition visible (at_ : Z) (T : timed) : store := fmap (M := gmap bytes) (fun m : gmap bytes (bytes * option Z) => omap (shown at_) m : gmap bytes bytes) T.

Lemma visible_alter at_ f g cf T :
  (forall m, omap (shown at_) (f m) = g (omap (shown at_) m)) -> visible at_ (alter f cf T) = alter g cf (visible at_ T).
Proof.
  intros Hfg. unfold visible. apply map_eq. intros c. rewrite lookup_fmap. destruct (decide (c = cf)) as [->|Hne].
  - rewrite !lookup_alter_eq, lookup_fmap. destruct (T !! cf) as [m|]; simpl; [|done]. by rewrite Hfg.
  - by rewrite !lookup_alter_ne, lookup_fmap.
Qed.

(** Before their deadline the writes are what they are without lifetimes. *)
Lemma visible_before at_ now ttl ws T :
  alive at_ (deadline now ttl) = true -> visible at_ (timed_writes now ttl ws T) = apply_writes ws (visible at_ T).
Proof.
  intros Ha. unfold timed_writes, apply_writes. revert T. induction ws as [|w ws IH]; intros T; cbn [fold_left]; [done|].
  rewrite IH. f_equal. destruct w as [cf k v|cf k]; cbn [timed_write apply_write]; apply visible_alter; intros m.
  - apply omap_insert_Some. unfold shown. cbn [fst snd]. by rewrite Ha.
  - apply omap_delete.
Qed.

(** The deletes of a batch and, once its puts have expired, those too. *)
Definition expired (w : write) : write := match w with W_put cf k _ => W_delete cf k | w => w end.

(** From their deadline on the puts are gone, and whatever they covered with them. *)
Lemma visible_after at_ now ttl ws T :
  alive at_ (deadline now ttl) = false -> visible at_ (timed_writes now ttl ws T) = apply_writes (map expired ws) (visible at_ T).
Proof.
  intros Ha. unfold timed_writes, apply_writes. revert T. induction ws as [|w ws IH]; intros T; cbn [map fold_left]; [done|].
  rewrite IH. f_equal. destruct w as [cf k v|cf k]; cbn [timed_write apply_write expired]; apply visible_alter; intros m.
  - apply omap_insert_None. unfold shown. cbn [fst snd]. by rewrite Ha.
  - apply omap_delete.
Qed.

(** ** An updated row outlives its index entries *)

#[local] Existing Instance KeyCodec.example_server.
#[local] Existing Instance FtsText.example_charset.
#[local] Abbreviation svc := (DmlExample.ex_services true).

(** The empty table of [DmlExample], and a statement at time [now] on what is visible then: the writes it leaves
    pending take effect with the lifetime [ttl]. *)
Definition no_rows : timed := {[bs "d" := ∅; bs "a" := ∅; bs "f" := ∅]}.
Definition statement (now ttl : Z) (pk : bytes) (m : M (handler mem_db unit) ha_code) (T : timed) : reply ha_code * timed :=
  let r := m (DmlExample.ex_handler (visible now T) pk DmlExample.ex_bulk []) in
  (r.2, timed_writes now ttl (buf (lib r.1)) T).

Definition insert7 : M (handler mem_db unit) ha_code :=
  write_row (RowServices0 := svc) DmlExample.ex_table (DmlExample.ex_session []) DmlExample.junk9 DmlExample.r7 true.
(** [UPDATE t SET b = 'zw' WHERE id = 7]: the column [a] of the second index is not written. *)
Definition r7' : record := DmlExample.ex_row 7 1 122 119.
Definition update7 : M (handler mem_db unit) ha_code :=
  update_row (RowServices0 := svc) DmlExample.ex_table (DmlExample.ex_session [2%nat]) DmlExample.junk9 DmlExample.r7 r7'.

Definition row_at (at_ : Z) (T : timed) : option bytes := db_get (bs "d") (RowFormat.build_data_key (DmlExample.pk_at 7)) (visible at_ T).
Definition entry_at (at_ : Z) (T : timed) : option bytes :=
  db_get (bs "a") (index_key DmlExample.ex_table 1 DmlExample.r7 ++ DmlExample.pk_at 7) (visible at_ T).

(** A row inserted at time 0 to live 100 seconds expires with its index entry.  If an UPDATE at time 60 gives it
    another 100 seconds, the row is there until 160, but the entry of an index whose columns the statement did
    not write keeps the old deadline: from 100 on the row is found by a scan of the table and not through the
    index. *)
Lemma refreshed_row_lost_to_index :
  let inserted := statement 0 100 [] insert7 no_rows in
  let updated := statement 60 100 (DmlExample.pk_at 7) update7 inserted.2 in
  inserted.1 = Ret HA_OK /\ updated.1 = Ret HA_OK /\
  (is_Some (row_at 99 inserted.2) /\ is_Some (entry_at 99 inserted.2)) /\
  (row_at 100 inserted.2 = None /\ entry_at 100 inserted.2 = None) /\
  row_at 120 updated.2 = Some (DmlExample.ex_serialize r7') /\ entry_at 120 updated.2 = None /\ row_at 160 updated.2 = None.
Proof. vm_compute. split_and!; (reflexivity || eauto). Qed.

End Expiry.
