(* ===== verification/CursorDb.v ===== *)
(** * The storage library's iterators

    What scans use of the library: an iterator over the keys a transaction sees in a family, in
    [memcmp] order.  The handler owns the iterator it holds, so an operation that moves it returns the
    moved one.  A move may lose its place, after which the iterator is not valid, and a read may fail.
    [iter_key] reads the key alone, [iter_read] the entry.  An iterator opened with bounds promises the keys between them and no more: it opens only the files
    that overlap the bounds. *)
From stdpp Require Import sorting.
From S2P Require Import Prelude Effects TidesDb RowDb.
#[local] Open Scope Z_scope.
#[local] Open Scope tdb_scope.

Definition entry := (bytes * bytes)%type.

Inductive iter_op := Seek (k : bytes) | Seek_for_prev (k : bytes) | Seek_to_first | Seek_to_last | Next | Prev.

Definition ltb (a b : bytes) : bool := bool_decide (a <b b).

(** Ascending in the key. *)
Definition ascending (l : list entry) : Prop := StronglySorted (fun a b => a.1 <b b.1) l.

(** The entries a move may stop at. *)
Definition admits (op : iter_op) (now : option entry) (k : bytes) : bool :=
  match op, now with
  | Seek t, _ => negb (ltb k t)
  | Seek_for_prev t, _ => negb (ltb t k)
  | Seek_to_first, _ | Seek_to_last, _ => true
  | Next, Some (c, _) => ltb c k
  | Prev, Some (c, _) => ltb k c
  | _, None => true
  end.

Definition forward (op : iter_op) : bool := match op with Seek _ | Seek_to_first | Next => true | _ => false end.

(** Where a move stops: the first of these entries, or the last when it moves back. *)
Definition target (op : iter_op) (l : list entry) (now : option entry) : option entry :=
  let l := filter (fun e => admits op now e.1 = true) l in
  if forward op then head l else last l.

(** A step needs a place to start from. *)
Definition can_move (op : iter_op) (now : option entry) : Prop :=
  match op with Next | Prev => is_Some now | _ => True end.

Definition between_bounds (b : option (bytes * bytes)) (k : bytes) : Prop :=
  match b with Some (lo, hi) => ~ k <b lo /\ ~ hi <b k | None => True end.

(** An iterator over a family of the contents [v], opened with bounds. *)
Definition opened (v : store) (cf : bytes) (b : option (bytes * bytes)) (l : list entry) : Prop :=
  ascending l /\ (forall k x, (k, x) ∈ l -> db_get cf k v = Some x) /\
  (forall k x, db_get cf k v = Some x -> between_bounds b k -> (k, x) ∈ l).

Class CursorDb (E txn : Type) `{!TidesDb E txn} := {
  iter : Type;
  walks : iter -> list entry;
  here : iter -> option entry;
  iter_new : txn -> bytes -> option (bytes * bytes) -> M E (tdb_rc + iter);
  iter_move : iter_op -> iter -> M E iter;
  iter_read : iter -> M E (tdb_rc + entry);
  iter_key : iter -> M E (tdb_rc + bytes);
  iter_free : iter -> M E unit;

  here_walks it e : here it = Some e -> e ∈ walks it;
  iter_new_law d ws t cf b :
    spec (fun e => committed e = d /\ pending e t = ws) (iter_new t cf b)
      (fun r e => (committed e = d /\ pending e t = ws) /\
         match r with inl rc => rc <> TDB_SUCCESS | inr it => opened (apply_writes ws d) cf b (walks it) end)
      (fun e => committed e = d);
  iter_move_law d ws t op it :
    spec (fun e => committed e = d /\ pending e t = ws) (iter_move op it)
      (fun it' e => (committed e = d /\ pending e t = ws) /\ walks it' = walks it /\
         (can_move op (here it) -> forall x, here it' = Some x -> admits op (here it) x.1 = true))
      (fun e => committed e = d);
  iter_read_law d ws t it :
    spec (fun e => committed e = d /\ pending e t = ws) (iter_read it)
      (fun r e => (committed e = d /\ pending e t = ws) /\ forall x, r = inr x -> here it = Some x)
      (fun e => committed e = d);
  iter_key_law d ws t it :
    spec (fun e => committed e = d /\ pending e t = ws) (iter_key it)
      (fun r e => (committed e = d /\ pending e t = ws) /\ forall k, r = inr k -> fst <$> here it = Some k)
      (fun e => committed e = d);
  iter_free_law d ws t it :
    spec (fun e => committed e = d /\ pending e t = ws) (iter_free it)
      (fun _ e => committed e = d /\ pending e t = ws) (fun e => committed e = d) }.
Arguments iter E {txn _ _}.

(** In a quiet state iterators open, stop where they should and read what they stop at. *)
Class QuietCursor (E txn : Type) `{!TidesDb E txn, !CursorDb E txn, !QuietDb E txn} := {
  quiet_iter_new t cf b :
    spec quiet (iter_new t cf b) (fun r e => quiet e /\ exists it, r = inr it) (fun _ => True);
  quiet_move op it :
    spec quiet (iter_move op it)
      (fun it' e => quiet e /\ (can_move op (here it) -> here it' = target op (walks it) (here it))) (fun _ => True);
  quiet_read it :
    spec quiet (iter_read it) (fun r e => quiet e /\ forall x, here it = Some x -> r = inr x) (fun _ => True);
  quiet_key it :
    spec quiet (iter_key it) (fun r e => quiet e /\ forall x, here it = Some x -> r = inr x.1) (fun _ => True);
  quiet_free it : spec quiet (iter_free it) (fun _ e => quiet e) (fun _ => True) }.

(** ** Entries in order *)

Lemma ascending_inj l a b : ascending l -> a ∈ l -> b ∈ l -> a.1 = b.1 -> a = b.
Proof.
  intros Hs Ha Hb E. induction Hs as [|c l Hs IH Hc]; [by apply not_elem_of_nil in Ha|].
  rewrite Forall_forall in Hc. apply elem_of_cons in Ha as [->|Ha], Hb as [->|Hb]; [done| | |by apply IH].
  - specialize (Hc b Hb). rewrite E in Hc. by apply bytes_lt_irrefl in Hc.
  - specialize (Hc a Ha). rewrite <- E in Hc. by apply bytes_lt_irrefl in Hc.
Qed.

Lemma ascending_filter (P : entry -> Prop) `{!forall x, Decision (P x)} l : ascending l -> ascending (filter P l).
Proof.
  induction 1 as [|c l Hs IH Hc]; [constructor|]. rewrite filter_cons. case_decide; [|done].
  constructor; [done|]. rewrite Forall_forall in *. intros x [_ Hx]%list_elem_of_filter. by apply Hc.
Qed.

Lemma ascending_app l k :
  ascending (l ++ k) <-> ascending l /\ ascending k /\ forall a b, a ∈ l -> b ∈ k -> a.1 <b b.1.
Proof.
  induction l as [|x l IH]; simpl.
  - split; [|tauto]. intros H. split; [constructor|]. split; [done|]. intros a b Ha. by apply not_elem_of_nil in Ha.
  - split.
    + intros [H1 H2]%StronglySorted_inv. apply IH in H1 as (A & B & C). rewrite Forall_app, !Forall_forall in H2.
      destruct H2 as [H2 H3]. split; [constructor; [done|by apply Forall_forall]|]. split; [done|].
      intros a b [->|Ha]%elem_of_cons Hb; [by apply H3|by apply C].
    + intros (A & B & C). apply StronglySorted_inv in A as [A1 A2]. constructor.
      * apply IH. split; [done|]. split; [done|]. intros a b Ha Hb. apply C; [by right|done].
      * apply Forall_app. split; [done|]. apply Forall_forall. intros b Hb. apply C; [by left|done].
Qed.

Lemma filter_none (P : entry -> Prop) `{!forall x, Decision (P x)} l : (forall e, e ∈ l -> ~ P e) -> filter P l = [].
Proof.
  induction l as [|e l IH]; intros Hn; [done|]. rewrite filter_cons, decide_False by (apply Hn; left).
  apply IH. intros e' He'. apply Hn. by right.
Qed.

Lemma filter_split (P : entry -> Prop) `{!forall x, Decision (P x)} pre rest :
  (forall e, e ∈ pre -> ~ P e) -> (forall e, e ∈ rest -> P e) -> filter P (pre ++ rest) = rest.
Proof.
  intros Hn Hy. rewrite filter_app, filter_none by done. simpl. induction rest as [|e rest IH]; [done|].
  rewrite filter_cons, decide_True by (apply Hy; left). f_equal. apply IH. intros e' He'. apply Hy. by right.
Qed.

(** An upward closed set of entries is the end of the list. *)
Lemma filter_suffix (P : entry -> Prop) `{!forall x, Decision (P x)} l :
  ascending l -> (forall a b : entry, a.1 <b b.1 -> P a -> P b) ->
  exists pre, l = pre ++ filter P l /\ forall e, e ∈ pre -> ~ P e.
Proof.
  intros Hs Hup. induction Hs as [|c l Hs (pre & E & Hpre) Hc]; [by exists []; split; [|intros e He; apply not_elem_of_nil in He]|].
  rewrite filter_cons. case_decide as Hp.
  - exists []. split; [|intros e He; by apply not_elem_of_nil in He]. simpl. f_equal.
    symmetry. apply (filter_split P [] l); [intros e He; by apply not_elem_of_nil in He|].
    rewrite Forall_forall in Hc. intros e He. apply (Hup c); [by apply Hc|done].
  - exists (c :: pre). split; [by simpl; f_equal|]. intros e [->|He]%elem_of_cons; [done|by apply Hpre].
Qed.

(** A forward step: the entries after the current one are still to come. *)
Lemma target_next pre e post :
  ascending (pre ++ e :: post) -> target Next (pre ++ e :: post) (Some e) = head post.
Proof.
  intros Hs. unfold target. cbn [forward]. apply ascending_app in Hs as (_ & Hs & Hpre).
  apply StronglySorted_inv in Hs as [_ Hpost]. rewrite Forall_forall in Hpost.
  replace (pre ++ e :: post) with ((pre ++ [e]) ++ post) by (by rewrite <- app_assoc).
  destruct e as [k x]. rewrite filter_split; [done| |].
  - intros e [He|He]%elem_of_app H%bool_decide_eq_true.
    + assert (e.1 <b k) as Hlt by (apply (Hpre e (k, x)); [done|by left]).
      by apply (bytes_lt_irrefl k), (bytes_lt_trans _ e.1).
    + apply list_elem_of_singleton in He as ->. by apply bytes_lt_irrefl in H.
  - intros e He. apply bool_decide_eq_true. by apply Hpost.
Qed.

Lemma filter_prefix (P : entry -> Prop) `{!forall x, Decision (P x)} pre rest :
  (forall e, e ∈ pre -> P e) -> (forall e, e ∈ rest -> ~ P e) -> filter P (pre ++ rest) = pre.
Proof.
  intros Hy Hn. induction pre as [|e pre IH].
  - by apply filter_none.
  - simpl. rewrite filter_cons, decide_True by (apply Hy; left). f_equal. apply IH. intros e' He'. apply Hy. by right.
Qed.

(** A step back. *)
Lemma target_prev pre e post :
  ascending (pre ++ e :: post) -> target Prev (pre ++ e :: post) (Some e) = last pre.
Proof.
  intros Hs. unfold target. cbn [forward]. apply ascending_app in Hs as (_ & Hs & Hpre).
  apply StronglySorted_inv in Hs as [_ Hpost]. rewrite Forall_forall in Hpost. destruct e as [k x].
  rewrite filter_prefix; [done| |].
  - intros e He. apply bool_decide_eq_true. apply (Hpre e (k, x)); [done|by left].
  - intros e [->|He]%elem_of_cons H%bool_decide_eq_true; [by apply bytes_lt_irrefl in H|].
    apply (bytes_lt_irrefl k), (bytes_lt_trans _ e.1); [by apply Hpost|done].
Qed.

Lemma target_all op l o : (forall now k, admits op now k = true) -> target op l o = if forward op then head l else last l.
Proof.
  intros H. unfold target. rewrite (filter_split _ [] l); [done|by intros e ?%not_elem_of_nil|]. intros e _. apply H.
Qed.

Lemma ltb_false a b : negb (ltb a b) = true <-> ~ a <b b.
Proof. unfold ltb. rewrite negb_true_iff. apply bool_decide_eq_false. Qed.

Lemma target_seek k l now :
  ascending l -> exists pre rest, l = pre ++ rest /\ target (Seek k) l now = head rest /\
    (forall e, e ∈ pre -> e.1 <b k) /\ (forall e, e ∈ rest -> ~ e.1 <b k).
Proof.
  intros Hs. unfold target. cbn [forward]. set (P := fun e : entry => admits (Seek k) now e.1 = true).
  destruct (filter_suffix P l Hs) as (pre & E & Hpre).
  - intros a b Hab. unfold P. cbn [admits]. rewrite !ltb_false. intros Ha Hb. by apply Ha, (bytes_lt_trans _ b.1).
  - exists pre, (filter P l). split; [done|]. split; [done|]. split.
    + intros e He. apply dec_stable. intros Hn. apply (Hpre e He). by apply ltb_false.
    + intros e [He _]%list_elem_of_filter. by apply ltb_false.
Qed.

(** A seek to a key that is there. *)
Lemma target_seek_at pre e post now :
  ascending (pre ++ e :: post) -> target (Seek e.1) (pre ++ e :: post) now = Some e.
Proof.
  intros Hs. unfold target. cbn [forward]. rewrite (filter_split _ pre (e :: post)); [done| |].
  - intros a Ha H%ltb_false. apply ascending_app in Hs as (_ & _ & Hb). apply H, (Hb a e Ha). by left.
  - intros a Ha. apply ltb_false. apply ascending_app in Hs as (_ & Hs & _). apply StronglySorted_inv in Hs as [_ Hp].
    rewrite Forall_forall in Hp. apply elem_of_cons in Ha as [->|Ha]; [apply bytes_lt_irrefl|].
    intros Hlt. by apply (bytes_lt_irrefl a.1), (bytes_lt_trans _ e.1), Hp.
Qed.

Lemma target_seek_for_prev k l now :
  ascending l -> exists front post, l = front ++ post /\ target (Seek_for_prev k) l now = last front /\
    (forall e, e ∈ front -> ~ k <b e.1) /\ (forall e, e ∈ post -> k <b e.1).
Proof.
  intros Hs. destruct (filter_suffix (fun e : entry => k <b e.1) l Hs) as (front & E & Hfront).
  { intros a b Hab Ha. by apply (bytes_lt_trans _ a.1). }
  exists front, (filter (fun e : entry => k <b e.1) l). split; [done|]. split; [|split; [done|by intros e [He _]%list_elem_of_filter]].
  unfold target. cbn [forward]. rewrite E at 1. rewrite filter_prefix; [done| |].
  - intros e He. apply ltb_false. by apply Hfront.
  - intros e [He _]%list_elem_of_filter H. by apply ltb_false in H.
Qed.

(** ** The map library of the witnesses *)

Definition key_le (a b : entry) : Prop := bytes_le a.1 b.1.

#[export] Instance key_le_dec a b : Decision (key_le a b) := bytes_le_dec a.1 b.1.
#[export] Instance key_le_total : Total key_le.
Proof.
  intros a b. unfold key_le. destruct (decide (a.1 <b b.1)) as [H|H]; [left; apply bytes_le_lteq; by left|].
  right. by apply bytes_not_lt.
Qed.
#[export] Instance key_le_trans : Transitive key_le.
Proof. intros a b c. apply bytes_le_trans. Qed.

Definition sorted_entries (cf : bytes) (d : store) : list entry := merge_sort key_le (mem_entries cf d).

Lemma sorted_entries_ascending cf d : ascending (sorted_entries cf d).
Proof.
  pose proof (StronglySorted_merge_sort key_le (mem_entries cf d)) as Hs.
  assert (NoDup (map fst (sorted_entries cf d))) as Hd.
  { unfold sorted_entries. rewrite (merge_sort_Permutation key_le). apply mem_keys_nodup. }
  unfold sorted_entries in *. induction Hs as [|a l Hs IH Ha]; [constructor|].
  apply NoDup_cons in Hd as [Hn Hd]. constructor; [by apply IH|]. rewrite Forall_forall in *. intros b Hb.
  specialize (Ha b Hb). apply bytes_le_lteq in Ha as [?|E]; [done|]. destruct Hn. rewrite E.
  apply list_elem_of_fmap. by exists b.
Qed.

Lemma elem_of_sorted_entries cf d k x : (k, x) ∈ sorted_entries cf d <-> db_get cf k d = Some x.
Proof. unfold sorted_entries. rewrite (merge_sort_Permutation key_le). apply elem_of_mem_entries. Qed.

Lemma sorted_opened cf d : opened d cf None (sorted_entries cf d).
Proof.
  split_and!; [apply sorted_entries_ascending|by intros k x ?%elem_of_sorted_entries|].
  intros k x H _. by apply elem_of_sorted_entries.
Qed.

(** The entries an iterator without bounds walks are determined by the contents. *)
Lemma opened_unique d cf l l' : opened d cf None l -> opened d cf None l' -> l = l'.
Proof.
  intros (Hs & Hg & Ha) (Hs' & Hg' & Ha'). set (R := fun a b : entry => a.1 <b b.1).
  assert (forall k, ascending k -> NoDup k) as Hd.
  { intros k Hk. induction Hk as [|a k Hk IH Hlt]; constructor; [|done]. intros Hin. rewrite Forall_forall in Hlt.
    by apply (bytes_lt_irrefl a.1), Hlt. }
  assert (AntiSymm (=) R) as Hanti.
  { intros a b H1 H2. destruct (bytes_lt_irrefl a.1). by apply (bytes_lt_trans _ b.1). }
  apply (StronglySorted_unique R); [exact Hs|exact Hs'|].
  apply NoDup_Permutation; [by apply Hd..|]. intros [k x].
  split; intros H; [apply Ha'; [by apply Hg|done]|apply Ha; [by apply Hg'|done]].
Qed.

Record mem_iter := { snapshot : list entry; place : option entry }.

#[export] Instance between_bounds_dec b k : Decision (between_bounds b k).
Proof. destruct b as [[lo hi]|]; simpl; apply _. Defined.

Definition mem_iter_new (cf : bytes) (b : option (bytes * bytes)) : M mem_db (tdb_rc + mem_iter) :=
  soft (inl ERR_IO) (fun e =>
    (e, Ret (inr {| snapshot := filter (fun x => between_bounds b x.1) (sorted_entries cf (apply_writes (buf e) (mem e)));
                    place := None |}))).

(** Only an entry of the snapshot is a place. *)
Definition mem_here (it : mem_iter) : option entry :=
  x ← place it; if decide (x ∈ snapshot it) then Some x else None.

Definition lost (it : mem_iter) : mem_iter := {| snapshot := snapshot it; place := None |}.

Definition mem_move (op : iter_op) (it : mem_iter) : M mem_db mem_iter :=
  soft (lost it) (fun e => (e, Ret {| snapshot := snapshot it; place := target op (snapshot it) (mem_here it) |})).

Definition mem_read (it : mem_iter) : M mem_db (tdb_rc + entry) :=
  soft (inl ERR_IO) (fun e => (e, Ret (match mem_here it with Some x => inr x | None => inl ERR_IO end))).

Definition mem_key (it : mem_iter) : M mem_db (tdb_rc + bytes) :=
  soft (inl ERR_IO) (fun e => (e, Ret (match mem_here it with Some x => inr x.1 | None => inl ERR_IO end))).

Lemma target_in op l now x : target op l now = Some x -> x ∈ l /\ admits op now x.1 = true.
Proof.
  unfold target. set (P := fun e : entry => admits op now e.1 = true). intros H.
  assert (x ∈ filter P l) as [? ?]%list_elem_of_filter; [|done].
  destruct (forward op); [by apply head_Some_elem_of|by apply last_Some_elem_of].
Qed.

Lemma mem_here_moved op it : mem_here {| snapshot := snapshot it; place := target op (snapshot it) (mem_here it) |} =
  target op (snapshot it) (mem_here it).
Proof.
  unfold mem_here at 1. simpl. destruct (target _ _ _) as [x|] eqn:E; [|done]. simpl.
  apply target_in in E as [? _]. by rewrite decide_True.
Qed.

#[export] Program Instance mem_cursor : CursorDb mem_db unit := {|
  iter := mem_iter;
  walks := snapshot;
  here := mem_here;
  iter_new _ := mem_iter_new;
  iter_move := mem_move;
  iter_read := mem_read;
  iter_key := mem_key;
  iter_free _ := ret tt |}.
Next Obligation. intros it e. unfold mem_here. destruct (place it); simpl; [|done]. case_decide; congruence. Qed.
Next Obligation.
  intros d ws t cf b [m bf [|[] sc]]; cbn; intros [<- <-]; try done; (split; [done|]);
    (split_and!; [apply ascending_filter, sorted_entries_ascending|
      intros k x [_ H]%list_elem_of_filter; by apply elem_of_sorted_entries|
      intros k x H Hb; apply list_elem_of_filter; split; [done|]; by apply elem_of_sorted_entries]).
Qed.
Next Obligation.
  intros d ws t op it [m bf [|[] sc]]; cbn; intros [<- <-]; try done; (split; [done|]); (split; [done|]);
    intros _ x Hx; try done; apply (target_in op (snapshot it) (mem_here it)); rewrite <- mem_here_moved; exact Hx.
Qed.
Next Obligation.
  intros d ws t it [m bf [|[] sc]]; cbn; intros [<- <-]; try done; (split; [done|]); intros x Hx; try done;
    destruct (mem_here it); congruence.
Qed.
Next Obligation.
  intros d ws t it [m bf [|[] sc]]; cbn; intros [<- <-]; try done; (split; [done|]); intros x Hx; try done;
    destruct (mem_here it); cbn; congruence.
Qed.
Next Obligation. intros d ws t it. apply spec_ret. done. Qed.

#[export] Program Instance mem_quiet_cursor : QuietCursor mem_db unit.
Next Obligation.
  intros t cf b [m bf [|f sc]]; cbn; intros Hq; [|apply dies_or_works_cons in Hq as [Hq [-> |[-> | ->]]]; cbn];
    try done; (split; [done|]); by eexists.
Qed.
Next Obligation.
  intros op it [m bf [|f sc]]; cbn; intros Hq; [|apply dies_or_works_cons in Hq as [Hq [-> |[-> | ->]]]; cbn];
    try done; (split; [done|]); intros _; apply mem_here_moved.
Qed.
Next Obligation.
  intros it [m bf [|f sc]]; cbn; intros Hq; [|apply dies_or_works_cons in Hq as [Hq [-> |[-> | ->]]]; cbn];
    try done; (split; [done|]); intros x Hx; by rewrite Hx.
Qed.
Next Obligation.
  intros it [m bf [|f sc]]; cbn; intros Hq; [|apply dies_or_works_cons in Hq as [Hq [-> |[-> | ->]]]; cbn];
    try done; (split; [done|]); intros x Hx; by rewrite Hx.
Qed.
Next Obligation. intros it. apply spec_ret. done. Qed.
