(* ===== verification/Quiet.v ===== *)
(** * Calls of a library that does not fail

    The laws of [TidesDb], [RowDb] and [CursorDb] joined with those of [QuietDb], [QuietRows] and
    [QuietCursor], in the form the components use them: [quiet_txn t d ws] says that the contents are
    [d], that the transaction [t] has written [ws] and that calls succeed.  A crash is still possible,
    and leaves the contents as they were unless a commit was under way. *)
From stdpp Require Import sorting.
From S2P Require Import Prelude Effects TidesDb RowDb CursorDb.
#[local] Open Scope Z_scope.
#[local] Open Scope tdb_scope.

Section Quiet.
Context {E txn : Type} `{!TidesDb E txn, !QuietDb E txn}.
Implicit Types (d v : store) (ws : list write) (t : txn) (e : E).

Definition quiet_at d e : Prop := committed e = d /\ quiet e.
Definition quiet_txn t d ws e : Prop := (committed e = d /\ pending e t = ws) /\ quiet e.

Lemma quiet_txn_at t d ws e : quiet_txn t d ws e -> quiet_at d e.
Proof. by intros [[? _] ?]. Qed.

Lemma q_begin d :
  spec (quiet_at d) txn_begin (fun r e => exists t, r = inr t /\ quiet_txn t d [] e) (fun e => committed e = d).
Proof.
  eapply spec_weaken; [apply spec_conj; [apply (txn_begin_law d)|apply quiet_begin]|done| |by intros s [? _]].
  intros r e [[Hd Hr] [Hq [t ->]]]. by exists t.
Qed.

Lemma q_get t d ws cf k :
  spec (quiet_txn t d ws) (txn_get t cf k)
    (fun r e => quiet_txn t d ws e /\
       r = match db_get cf k (apply_writes ws d) with Some x => inr x | None => inl TDB_ERR_NOT_FOUND end)
    (fun e => committed e = d).
Proof.
  eapply spec_weaken; [apply spec_conj; [apply (txn_get_law d ws)|apply quiet_get]|done| |by intros s [? _]].
  intros r e [[Hs Hr] [Hq Ho]]. split; [done|]. destruct Ho as [-> |[x ->]]; simpl in Hr; by rewrite Hr.
Qed.

(** Whatever the transaction has written. *)
Lemma q_get_any t d cf k :
  spec (quiet_at d) (txn_get t cf k) (fun _ => quiet_at d) (fun e => committed e = d).
Proof.
  apply spec_at. intros e0 [Hd Hq]. eapply spec_weaken; [apply (q_get t d (pending e0 t))|by intros e ->| |done].
  by intros r e [[[? _] ?] _].
Qed.

Lemma q_put t d ws cf k x :
  spec (quiet_txn t d ws) (txn_put t cf k x)
    (fun rc e => rc = TDB_SUCCESS /\ quiet_txn t d (ws ++ [W_put cf k x]) e) (fun e => committed e = d).
Proof.
  eapply spec_weaken; [apply spec_conj; [apply (txn_put_law d ws)|apply quiet_put]|done| |by intros s [? _]].
  by intros r e [[Hd Hr] [Hq ->]].
Qed.

Lemma q_delete t d ws cf k :
  spec (quiet_txn t d ws) (txn_delete t cf k)
    (fun rc e => rc = TDB_SUCCESS /\ quiet_txn t d (ws ++ [W_delete cf k]) e) (fun e => committed e = d).
Proof.
  eapply spec_weaken; [apply spec_conj; [apply (txn_delete_law d ws)|apply quiet_delete]|done| |by intros s [? _]].
  by intros r e [[Hd Hr] [Hq ->]].
Qed.

Lemma q_commit t d ws :
  spec (quiet_txn t d ws) (txn_commit t) (fun rc e => rc = TDB_SUCCESS /\ quiet_at (apply_writes ws d) e)
    (fun e => committed e = d \/ committed e = apply_writes ws d).
Proof.
  eapply spec_weaken; [apply spec_conj; [apply (txn_commit_law d ws)|apply quiet_commit]|done| |by intros s [? _]].
  by intros r e [Hd [Hq ->]].
Qed.

Lemma q_rollback t d : spec (quiet_at d) (txn_rollback t) (fun _ => quiet_at d) (fun e => committed e = d).
Proof.
  eapply spec_weaken; [apply spec_conj; [apply (txn_rollback_law d)|apply quiet_rollback]|done| |by intros s [? _]].
  by intros r e [? ?].
Qed.

Lemma q_reset `{!RowDb E txn, !QuietRows E txn} t d :
  spec (quiet_at d) (txn_reset t) (fun rc e => rc = TDB_SUCCESS /\ quiet_txn t d [] e) (fun e => committed e = d).
Proof.
  eapply spec_weaken; [apply spec_conj; [apply (txn_reset_law d)|apply quiet_reset]|done| |by intros s [? _]].
  intros r e [[Hd Hr] [Hq ->]]. split; [done|]. split; [|done]. split; [done|]. by apply Hr.
Qed.

Lemma q_contains `{!RowDb E txn, !QuietRows E txn} t d ws cf k :
  spec (quiet_txn t d ws) (txn_contains t cf k)
    (fun rc e => quiet_txn t d ws e /\
       rc = if decide (live (apply_writes ws d) cf k) then TDB_SUCCESS else TDB_ERR_NOT_FOUND)
    (fun e => committed e = d).
Proof.
  eapply spec_weaken; [apply spec_conj; [apply (txn_contains_law d ws)|apply quiet_contains]|done| |by intros s [? _]].
  intros r e [[Hs Hr] [Hq Ho]]. split; [done|]. destruct Ho as [-> | ->]; by case_decide.
Qed.

(** ** Iterators *)

Context `{!CursorDb E txn, !QuietCursor E txn}.

Lemma q_iter_new t d ws cf b :
  spec (quiet_txn t d ws) (iter_new t cf b)
    (fun r e => quiet_txn t d ws e /\ exists it, r = inr it /\ opened (apply_writes ws d) cf b (walks it))
    (fun e => committed e = d).
Proof.
  eapply spec_weaken; [apply spec_conj; [apply (iter_new_law d ws)|apply quiet_iter_new]|done| |by intros s [? _]].
  intros r e [[Hs Hr] [Hq [it ->]]]. split; [done|]. by exists it.
Qed.

Lemma q_move t d ws op it :
  spec (quiet_txn t d ws) (iter_move op it)
    (fun it' e => quiet_txn t d ws e /\ walks it' = walks it /\
       (can_move op (here it) -> here it' = target op (walks it) (here it))) (fun e => committed e = d).
Proof.
  eapply spec_weaken; [apply spec_conj; [apply (iter_move_law d ws t)|apply quiet_move]|done| |by intros s [? _]].
  by intros r e [(Hs & Hw & _) [Hq Hm]].
Qed.

Lemma q_read t d ws it x :
  here it = Some x ->
  spec (quiet_txn t d ws) (iter_read it) (fun r e => quiet_txn t d ws e /\ r = inr x) (fun e => committed e = d).
Proof.
  intros Hx. eapply spec_weaken; [apply spec_conj; [apply (iter_read_law d ws t)|apply quiet_read]|done| |by intros s [? _]].
  intros r e [[Hs _] [Hq Hr]]. split; [done|]. by apply Hr.
Qed.

Lemma q_key t d ws it x :
  here it = Some x ->
  spec (quiet_txn t d ws) (iter_key it) (fun r e => quiet_txn t d ws e /\ r = inr x.1) (fun e => committed e = d).
Proof.
  intros Hx. eapply spec_weaken; [apply spec_conj; [apply (iter_key_law d ws t)|apply quiet_key]|done| |by intros s [? _]].
  intros r e [[Hs _] [Hq Hr]]. split; [done|]. by apply Hr.
Qed.

Lemma q_free t d ws it :
  spec (quiet_txn t d ws) (iter_free it) (fun _ => quiet_txn t d ws) (fun e => committed e = d).
Proof.
  eapply spec_weaken; [apply spec_conj; [apply (iter_free_law d ws t)|apply quiet_free]|done| |by intros s [? _]].
  by intros r e [? ?].
Qed.

Lemma q_free_any t d it : spec (quiet_at d) (iter_free it) (fun _ => quiet_at d) (fun e => committed e = d).
Proof.
  apply spec_at. intros e0 [Hd Hq]. eapply spec_weaken; [apply (q_free t d (pending e0 t))|by intros e ->| |done].
  by intros r e [[? _] ?].
Qed.

End Quiet.

(** Take the facts a step gave out of the precondition. *)
Ltac q_fact H := apply (spec_pure _ _ _ _ _ (fun _ Hs => proj1 Hs)); intros H.
