(* ===== verification/FtsWords.v ===== *)
(** * The dictionaries of full-text search ([ha_tidesdb_fts.cc])

    The stop words and the blend characters, their callbacks and the options the tokenizer runs with.
    A C string is its bytes before the terminator; the locks around the two dictionaries have no
    counterpart, since each callback is one step. *)
From S2P Require Import Prelude Effects TidesDb RowFormat FtsText CfName Lifecycle Quiet.
#[local] Open Scope Z_scope.
#[local] Open Scope tdb_scope.

Module FtsWords.

Definition FIELD_VARCHAR_LEN_PREFIX : Z := 2.

Definition tdb_default_stopwords : list bytes := map bs
  ["a"; "about"; "an"; "are"; "as"; "at"; "be"; "by"; "com"; "de"; "en"; "for"; "from"; "how"; "i"; "in"; "is"; "it";
   "la"; "of"; "on"; "or"; "that"; "the"; "this"; "to"; "was"; "what"; "when"; "where"; "who"; "will"; "with"; "und";
   "the"; "www"]%string.

(** The module's globals. *)
Record fts_globals := {
  srv_fts_min_word_len : Z;
  srv_fts_max_word_len : Z;
  srv_fts_blend_chars : option bytes;
  tdb_blend_char_map : Z -> bool;
  srv_ft_stopword_table : option bytes;
  tdb_stopwords : gset bytes }.

Definition set_blend (chars : option bytes) (m : Z -> bool) (g : fts_globals) : fts_globals :=
  {| srv_fts_min_word_len := srv_fts_min_word_len g; srv_fts_max_word_len := srv_fts_max_word_len g;
     srv_fts_blend_chars := chars; tdb_blend_char_map := m; srv_ft_stopword_table := srv_ft_stopword_table g;
     tdb_stopwords := tdb_stopwords g |}.
Definition set_words (table : option bytes) (w : gset bytes) (g : fts_globals) : fts_globals :=
  {| srv_fts_min_word_len := srv_fts_min_word_len g; srv_fts_max_word_len := srv_fts_max_word_len g;
     srv_fts_blend_chars := srv_fts_blend_chars g; tdb_blend_char_map := tdb_blend_char_map g;
     srv_ft_stopword_table := table; tdb_stopwords := w |}.

(** ** Blend characters *)

(** The table is cleared and then set at each character. *)
Definition tdb_rebuild_blend_map (chars : option bytes) : Z -> bool :=
  match chars with
  | None => fun _ => false
  | Some cs => fold_left (fun m c => fun x => if x =? c then true else m x) cs (fun _ => false)
  end.

Definition tdb_fts_blend_chars_update (new_val : option bytes) (g : fts_globals) : fts_globals :=
  set_blend new_val (tdb_rebuild_blend_map new_val) g.

(** ** Stop words *)

Definition tdb_load_default_stopwords : gset bytes := fold_left (fun s w => {[w]} ∪ s) tdb_default_stopwords ∅.

(** [::tolower] in the C locale. *)
Definition tolower (c : Z) : Z := if (65 <=? c) && (c <=? 90) then c + 32 else c.

(** The word of a stored row of one packed VARCHAR, lowercased. *)
Definition stopword_of_row (val : bytes) : option bytes :=
  if (zlen val <=? RowFormat.ROW_HEADER_SIZE) || negb (val !!! 0%nat =? RowFormat.ROW_HEADER_MAGIC) then None
  else
    let stored_null_bytes := RowFormat.load_u16le (drop 1 val) in
    let off := RowFormat.ROW_HEADER_SIZE + stored_null_bytes in
    if zlen val <=? off then None
    else
      let data := drop (Z.to_nat off) val in
      let data_len := zlen data in
      let '(prefix, str_len) :=
        if (1 <=? data_len) && ((data !!! 0%nat) + 1 =? data_len) then (1, data !!! 0%nat)
        else if (FIELD_VARCHAR_LEN_PREFIX <=? data_len) &&
                (RowFormat.load_u16le data + FIELD_VARCHAR_LEN_PREFIX =? data_len)
        then (FIELD_VARCHAR_LEN_PREFIX, RowFormat.load_u16le data)
        else (0, 0) in
      if negb (prefix =? 0) && (0 <? str_len)
      then Some (map tolower (take (Z.to_nat str_len) (drop (Z.to_nat prefix) data))) else None.

Definition tdb_extract_stopword_from_row (val : bytes) (s : gset bytes) : gset bytes :=
  match stopword_of_row val with Some w => {[w]} ∪ s | None => s end.

(** [strchr(table_spec, '/')]: what stands before and after the first slash. *)
Fixpoint split_slash (s : bytes) : option (bytes * bytes) :=
  match s with
  | [] => None
  | c :: s => if c =? 47 then Some ([], s) else (fun p => (c :: p.1, p.2)) <$> split_slash s
  end.

Section code.
Context {E T : Type} `{!TidesDb E T} `{!FamilyDb E T}.
Local Open Scope eff_scope.

(** [None] is the source's [false]: the words in use stay. *)
Definition tdb_load_stopwords_from_table_spec (table_spec : bytes) : M E (option (gset bytes)) :=
  match split_slash table_spec with
  | None => ret None
  | Some (db_name, tbl_name) =>
      found <-- get_cf (db_name ++ Lifecycle.CF_DB_TABLE_SEP ++ tbl_name);
      if negb found then ret None
      else
        r <-- txn_begin;
        match r with
        | inl _ => ret None
        | inr t =>
            l <-- scan t (db_name ++ Lifecycle.CF_DB_TABLE_SEP ++ tbl_name);
            match l with
            | inl _ => txn_rollback t;; ret None
            | inr l =>
                let words := fold_left (fun s (o : answer * answer) =>
                  match o.2 with inr val => tdb_extract_stopword_from_row val s | inl _ => s end) l ∅ in
                txn_rollback t;; ret (Some words)
            end
        end
  end.

Definition tdb_ft_stopword_table_update (new_val : option bytes) (g : fts_globals) : M E fts_globals :=
  match new_val with
  | None | Some [] => ret (set_words new_val tdb_load_default_stopwords g)
  | Some spec =>
      r <-- tdb_load_stopwords_from_table_spec spec;
      ret (set_words new_val (default (tdb_stopwords g) r) g)
  end.

End code.

(** ** The tokenizer's options *)

Definition fts_snapshot_opts (g : fts_globals) : FtsText.tokenize_opts :=
  {| FtsText.min_word_len := u32 (srv_fts_min_word_len g); FtsText.max_word_len := u32 (srv_fts_max_word_len g);
     FtsText.blend_map := Some (tdb_blend_char_map g); FtsText.stopwords := Some (elements (tdb_stopwords g)) |}.

Definition fts_tokenize `{FtsText.charset} (g : fts_globals) (text : bytes) : list bytes :=
  FtsText.tokenize (fts_snapshot_opts g) text.

Definition fts_parse_boolean `{FtsText.charset} (g : fts_globals) (query : bytes) : option (list FtsText.query_term) :=
  FtsText.parse_boolean (fts_snapshot_opts g) query.

Definition fts_init (g : fts_globals) : fts_globals :=
  set_blend (srv_fts_blend_chars g) (tdb_rebuild_blend_map (srv_fts_blend_chars g))
    (set_words (srv_ft_stopword_table g) tdb_load_default_stopwords g).

Definition fts_deinit (g : fts_globals) : fts_globals := set_words (srv_ft_stopword_table g) ∅ g.

(** ** Lemmas *)

(** The two blend tables of the sources agree. *)
Lemma blend_map_agrees chars c : tdb_rebuild_blend_map chars c = FtsText.build_blend_map chars c.
Proof.
  destruct chars as [cs|]; [|done]. unfold tdb_rebuild_blend_map, FtsText.build_blend_map.
  assert (forall m, fold_left (fun m c => fun x => if x =? c then true else m x) cs m c = m c || bool_decide (c ∈ cs)) as H.
  { induction cs as [|d cs IH]; intros m; cbn [fold_left]; [by rewrite bool_decide_false, orb_false_r by apply not_elem_of_nil|].
    rewrite IH. destruct (Z.eqb_spec c d) as [->|Hne].
    - rewrite (bool_decide_true (d ∈ d :: cs)) by left. by rewrite orb_true_r.
    - f_equal. apply bool_decide_ext. rewrite elem_of_cons. split; [by right|by intros [?|?]]. }
  by rewrite H.
Qed.

(** A stored row of a word: the header, the null bitmap, the length in one or two bytes, the word. *)
Definition word_row (fields : Z) (bitmap : bytes) (wide : bool) (w : bytes) : bytes :=
  RowFormat.encode_row_header (zlen bitmap) fields ++ bitmap ++
  (if wide then RowFormat.store_u16le (zlen w) else [zlen w]) ++ w.

Definition word_fits (bitmap : bytes) (wide : bool) (w : bytes) : Prop :=
  w <> [] /\ zlen bitmap < 2 ^ 16 /\ zlen w < (if wide then 2 ^ 16 else 2 ^ 8).

(** The word of a row is read back whichever way its length is stored: the two widths are never
    confused. *)
Lemma stopword_reads_back fields bitmap wide w :
  word_fits bitmap wide w -> stopword_of_row (word_row fields bitmap wide w) = Some (map tolower w).
Proof.
  intros (Hne & Hb & Hw). pose proof (zlen_nonneg bitmap) as Hb0.
  assert (0 < zlen w) as Hw0 by (destruct w; [done|unfold zlen; simpl; lia]).
  set (lp := if wide then RowFormat.store_u16le (zlen w) else [zlen w]).
  assert (zlen lp = if wide then 2 else 1) as Hlp by (unfold lp; by destruct wide).
  assert (zlen (word_row fields bitmap wide w) = 5 + zlen bitmap + zlen lp + zlen w) as Hz
    by (unfold word_row; rewrite !zlen_app; fold lp; change (zlen (RowFormat.encode_row_header _ _)) with 5; lia).
  unfold stopword_of_row. rewrite Hz, Hlp. unfold RowFormat.ROW_HEADER_SIZE.
  rewrite (proj2 (Z.leb_gt _ _)) by (destruct wide; lia).
  change (word_row fields bitmap wide w !!! 0%nat) with RowFormat.ROW_HEADER_MAGIC. rewrite Z.eqb_refl. cbn [negb orb].
  assert (RowFormat.load_u16le (drop 1 (word_row fields bitmap wide w)) = zlen bitmap) as ->.
  { unfold word_row, RowFormat.encode_row_header. cbn [drop app]. rewrite <- !app_assoc. apply RowFormat.load_store_u16le. lia. }
  rewrite (proj2 (Z.leb_gt _ _)) by (destruct wide; lia).
  assert (drop (Z.to_nat (5 + zlen bitmap)) (word_row fields bitmap wide w) = lp ++ w) as ->.
  { replace (Z.to_nat (5 + zlen bitmap)) with (5 + length bitmap)%nat by (unfold zlen; lia). rewrite <- drop_drop.
    unfold word_row. change (drop 5 (RowFormat.encode_row_header _ _ ++ ?x)) with x. by rewrite drop_app_length. }
  rewrite zlen_app, Hlp. unfold lp, FIELD_VARCHAR_LEN_PREFIX. destruct wide.
  - assert ((RowFormat.store_u16le (zlen w) ++ w) !!! 0%nat = u8 (zlen w)) as -> by done.
    assert (u8 (zlen w) <= zlen w) as Hu by (unfold u8; apply Z.mod_le; lia).
    rewrite (proj2 (Z.eqb_neq (u8 (zlen w) + 1) _)) by lia. rewrite andb_false_r, RowFormat.load_store_u16le by lia.
    rewrite (proj2 (Z.leb_le 2 _)), Z.add_comm, Z.eqb_refl by lia. cbn [andb negb Z.eqb]. rewrite (proj2 (Z.ltb_lt 0 _)) by done.
    cbn [andb]. do 2 f_equal. change (drop (Z.to_nat 2) (RowFormat.store_u16le (zlen w) ++ w)) with w. apply take_ge. unfold zlen. lia.
  - assert (([zlen w] ++ w) !!! 0%nat = zlen w) as -> by done.
    rewrite (proj2 (Z.leb_le 1 _)), Z.add_comm, Z.eqb_refl by lia. cbn [andb negb Z.eqb]. rewrite (proj2 (Z.ltb_lt 0 _)) by done.
    cbn [andb]. do 2 f_equal. change (drop (Z.to_nat 1) ([zlen w] ++ w)) with w. apply take_ge. unfold zlen. lia.
Qed.

Section quiet.
Context {E T : Type} `{!TidesDb E T, !FamilyDb E T, !QuietDb E T, !QuietFamilies E T}.
Implicit Types (d : store) (g : fts_globals).

(** The words of a family whose values are rows of words. *)
Definition words_in d (cf : bytes) (w : bytes) : Prop := exists k val, db_get cf k d = Some val /\ stopword_of_row val = Some w.

Lemma extracted_words (l : list (bytes * bytes)) s w :
  w ∈ fold_left (fun s (o : answer * answer) =>
    match o.2 with inr val => tdb_extract_stopword_from_row val s | inl _ => s end) (map whole l) s <->
  w ∈ s \/ exists k val, (k, val) ∈ l /\ stopword_of_row val = Some w.
Proof.
  revert s. induction l as [|[k val] l IH]; intros s; cbn [map fold_left whole snd].
  - split; [by left|]. intros [?|(k & val & Hin & _)]; [done|]. by apply not_elem_of_nil in Hin.
  - rewrite IH. unfold tdb_extract_stopword_from_row. split.
    + intros [Hin|(k' & val' & Hin & Hw)]; [|right; exists k', val'; split; [by right|done]].
      destruct (stopword_of_row val) as [w'|] eqn:Ew; [|by left]. apply elem_of_union in Hin as [->%elem_of_singleton|?]; [|by left].
      right. exists k, val. split; [left|done].
    + intros [Hin|(k' & val' & [[= -> ->]|Hin]%elem_of_cons & Hw)].
      * left. destruct (stopword_of_row val); [|done]. apply elem_of_union. by right.
      * left. rewrite Hw. apply elem_of_union. left. by apply elem_of_singleton.
      * right. by exists k', val'.
Qed.

Lemma load_table_spec d db tbl :
  split_slash (db ++ 47 :: tbl) = Some (db, tbl) -> is_Some (d !! (db ++ Lifecycle.CF_DB_TABLE_SEP ++ tbl)) ->
  spec (quiet_at d) (tdb_load_stopwords_from_table_spec (db ++ 47 :: tbl))
    (fun r e => quiet_at d e /\ exists s, r = Some s /\ forall w, w ∈ s <-> words_in d (db ++ Lifecycle.CF_DB_TABLE_SEP ++ tbl) w)
    (fun e => committed e = d).
Proof.
  intros Hs Hcf. unfold tdb_load_stopwords_from_table_spec. rewrite Hs. set (cf := db ++ _ ++ tbl) in *.
  eapply spec_bind; [eapply spec_weaken; [apply spec_conj; [apply (get_cf_law d cf)|apply quiet_get_cf]|by intros e [? ?]|
    intros r e H; exact H|by intros e [? _]]|]. intros r.
  apply (spec_pure _ (r = true)); [intros e [[_ ->] _]; by apply bool_decide_eq_true|]. intros ->. cbn [negb].
  eapply spec_bind; [eapply spec_pre; [apply (q_begin d)|by intros e [[? _] ?]]|]. intros r.
  apply (spec_pure _ (exists t, r = inr t)); [intros e (t & -> & _); by exists t|]. intros [t ->].
  eapply (spec_pre _ (quiet_txn t d [])); [|intros e (t' & [= ->] & ?); done].
  eapply spec_bind; [eapply spec_weaken; [apply spec_conj; [apply (quiet_scan d [] t cf)|apply (scan_law d [] t cf)]| |
    intros r e H; exact H|by intros e [_ ?]]|]; [by intros e [[? ?] ?]|]. intros r.
  apply (spec_pure _ (exists l, r = inr (map whole l) /\ forall k x, (k, x) ∈ l <-> db_get cf k d = Some x));
    [by intros e [[_ ?] _]|]. intros (l & -> & Hl).
  eapply spec_bind; [eapply spec_pre; [apply (q_rollback t d)|by intros e [[? _] [[? _] _]]]|]. intros ?.
  apply spec_ret. intros e He. split; [done|]. eexists. split; [reflexivity|]. intros w. rewrite extracted_words. unfold words_in.
  split; [intros [?%not_elem_of_empty|(k & x & Hin & Hw)]; [done|exists k, x; split; [by apply Hl|done]]|].
  intros (k & x & Hin & Hw). right. exists k, x. split; [by apply Hl|done].
Qed.

End quiet.

(** Every token has passed the stop-word test. *)
Lemma emit_token_no_stopword `{FtsText.charset} g (w tok : bytes) :
  tok ∈ FtsText.emit_token (fts_snapshot_opts g) w -> tok ∉ tdb_stopwords g.
Proof.
  unfold FtsText.emit_token. cbn [FtsText.stopwords fts_snapshot_opts]. repeat case_match; try (by intros ?%not_elem_of_nil).
  intros ->%list_elem_of_singleton. match goal with H : bool_decide _ = false |- _ => apply bool_decide_eq_false in H; by rewrite elem_of_elements in H end.
Qed.

Lemma tokenize_no_stopword `{FtsText.charset} g (text tok : bytes) : tok ∈ fts_tokenize g text -> tok ∉ tdb_stopwords g.
Proof.
  assert (forall w sub, tok ∈ FtsText.blend_parts (fts_snapshot_opts g) sub w -> tok ∉ tdb_stopwords g) as Hparts.
  { induction w as [|c w IH]; intros sub; cbn [FtsText.blend_parts]; [apply emit_token_no_stopword|].
    case_match; [|apply IH]. intros [?|?]%elem_of_app; [by eapply emit_token_no_stopword|by eapply IH]. }
  unfold fts_tokenize, FtsText.tokenize. generalize (S (length text)) as n. intros n. revert text.
  induction n as [|n IH]; intros text; cbn [FtsText.tokenize_loop]; [by intros ?%not_elem_of_nil|].
  destruct (FtsText.skip_separators _ text) as [|c p] eqn:Es; [by intros ?%not_elem_of_nil|].
  destruct (FtsText.scan_word _ _ _) as [[w rest] bl]. unfold FtsText.word_tokens.
  intros [[?|Hb]%elem_of_app|?]%elem_of_app; [by eapply emit_token_no_stopword| |by eapply IH].
  destruct bl; [by eapply Hparts|by apply not_elem_of_nil in Hb].
Qed.

(** Once the stop-word table is set, the stop words are exactly the words in its rows, and no text
    gives one of them as a token: a word stored in a row, with its length in one byte or two, is never
    indexed in its lower-case form. *)
Lemma stopword_table_respected {E T : Type} `{!TidesDb E T, !FamilyDb E T, !QuietDb E T, !QuietFamilies E T} `{FtsText.charset}
    (d : store) (g : fts_globals) (db tbl : bytes) :
  split_slash (db ++ 47 :: tbl) = Some (db, tbl) -> is_Some (d !! (db ++ Lifecycle.CF_DB_TABLE_SEP ++ tbl)) ->
  spec (quiet_at d) (tdb_ft_stopword_table_update (Some (db ++ 47 :: tbl)) g)
    (fun g' e => quiet_at d e /\
       (forall w, w ∈ tdb_stopwords g' <-> words_in d (db ++ Lifecycle.CF_DB_TABLE_SEP ++ tbl) w) /\
       forall k fields bitmap wide w text, word_fits bitmap wide w ->
         db_get (db ++ Lifecycle.CF_DB_TABLE_SEP ++ tbl) k d = Some (word_row fields bitmap wide w) ->
         map tolower w ∉ fts_tokenize g' text)
    (fun e => committed e = d).
Proof.
  intros Hs Hcf. unfold tdb_ft_stopword_table_update.
  destruct (db ++ 47 :: tbl) as [|c spec0] eqn:Ed; [by destruct db|]. rewrite <- Ed in *.
  eapply spec_bind; [by apply (load_table_spec d db tbl)|]. intros r. apply spec_ret.
  intros e (He & s & -> & Hw). split; [done|]. cbn [tdb_stopwords set_words default]. split; [done|].
  intros k fields bitmap wide w text Hfit Hget Htok. apply tokenize_no_stopword in Htok. apply Htok. apply Hw.
  exists k, (word_row fields bitmap wide w). split; [done|]. by apply stopword_reads_back.
Qed.

(** ** A concrete table *)

Definition ex_globals : fts_globals := {|
  srv_fts_min_word_len := 3; srv_fts_max_word_len := 84; srv_fts_blend_chars := None; tdb_blend_char_map := fun _ => false;
  srv_ft_stopword_table := None; tdb_stopwords := tdb_load_default_stopwords |}.

Definition ex_words : store := {[bs "db__stop" := {[[1; 7] := word_row 1 [0] false (bs "Never")]}]}.

End FtsWords.
