(* ===== verification/FkRows.v ===== *)
(** * Foreign keys on rows ([ha_tidesdb_fk.cc])

    [fk_persist_defs] derives the catalog entries of a new table, [fk_load] fills the two lists of
    constraints a share keeps, those in which the table is the child and those in which it is the
    parent, and the row operations call [fk_check_child], [fk_enforce_parent_delete] and
    [fk_enforce_parent_update].  The handler of a child table that a cascade writes through is a record
    of operations: its state is part of [E].  [field_conv] is the server's conversion between columns. *)
From stdpp Require Import sorting.
From S2P Require Import Prelude Effects TidesDb RowFormat CfName FkCatalog Lifecycle Table KeyCodec TableMeta RowDb Dml CursorDb.
Import Table KeyCodec Dml.
#[local] Open Scope Z_scope.
#[local] Open Scope tdb_scope.

Module FkRows.

Definition FK_OPTION_CASCADE : Z := 2.
Definition FK_OPTION_SET_NULL : Z := 3.
Definition HA_ERR_UNSUPPORTED : Z := 138.
Definition HA_ERR_NO_REFERENCED_ROW : Z := 151.
Definition HA_ERR_ROW_IS_REFERENCED : Z := 152.
Definition TDB_PRIMARY_KEY_NAME : bytes := bs "PRIMARY".

Definition HA_ERR_KEY_NOT_FOUND_ : Z := 120.
Definition HA_ERR_END_OF_FILE_ : Z := 137.

Definition is_some {A} (o : option A) : bool := match o with Some _ => true | None => false end.

(** A constraint as the share keeps it. *)
Record tdb_fk_def := {
  name : bytes;
  child_cf : bytes;
  child_db : bytes;
  child_table : bytes;
  child_fields : list nat;
  child_nullable : bytes;
  ref_db : bytes;
  ref_table : bytes;
  parent_cf : bytes;
  parent_fields : list nat;
  ref_column_names : list bytes;
  child_index_name : bytes;
  parent_index_name : bytes;
  parent_nullable : bytes;
  on_delete : Z;
  on_update : Z;
  child_key_no : Z;
  parent_key_no : Z;
  parent_is_pk : bool }.

(** The server's table: the names, the columns and keys in the same order, and the primary key. *)
Record table_info := {
  names : FkCatalog.table_def;
  fields : list Field;
  keys : list KEY;
  primary_key : option nat }.

(** The lists a share keeps. *)
Record fk_share := { fk_loaded : bool; fk_child : list tdb_fk_def; fk_parent : list tdb_fk_def }.

(** ** Loading the constraints of a table *)

(** The columns found, in the constraint's order. *)
Definition resolve_columns (t : table_info) (cols : list bytes) : list nat :=
  omap (fun c => let fi := FkCatalog.fk_field_index (names t) c in if 0 <=? fi then Some (Z.to_nat fi) else None) cols.

Definition child_side (t : table_info) (e : FkCatalog.fk_catalog_entry) : tdb_fk_def := {|
  name := FkCatalog.name e; child_cf := FkCatalog.child_cf e; child_db := FkCatalog.child_db e;
  child_table := FkCatalog.child_table e; child_fields := resolve_columns t (FkCatalog.child_columns e);
  child_nullable := FkCatalog.child_nullable e; ref_db := FkCatalog.ref_db e; ref_table := FkCatalog.ref_table e;
  parent_cf := FkCatalog.parent_cf e; parent_fields := []; ref_column_names := FkCatalog.ref_columns e;
  child_index_name := FkCatalog.child_index_name e; parent_index_name := FkCatalog.parent_index_name e;
  parent_nullable := FkCatalog.parent_nullable e; on_delete := FkCatalog.on_delete e; on_update := FkCatalog.on_update e;
  child_key_no := FkCatalog.fk_find_covering_index (names t) (FkCatalog.child_columns e);
  parent_key_no := -1; parent_is_pk := negb (FkCatalog.parent_is_pk e =? 0) |}.

Definition parent_side (t : table_info) (e : FkCatalog.fk_catalog_entry) : tdb_fk_def :=
  let key_no := FkCatalog.fk_find_covering_index (names t) (FkCatalog.ref_columns e) in {|
  name := FkCatalog.name e; child_cf := FkCatalog.child_cf e; child_db := FkCatalog.child_db e;
  child_table := FkCatalog.child_table e; child_fields := [];
  child_nullable := FkCatalog.child_nullable e; ref_db := FkCatalog.ref_db e; ref_table := FkCatalog.ref_table e;
  parent_cf := FkCatalog.parent_cf e; parent_fields := resolve_columns t (FkCatalog.ref_columns e);
  ref_column_names := FkCatalog.ref_columns e; child_index_name := FkCatalog.child_index_name e; parent_index_name := [];
  parent_nullable := []; on_delete := FkCatalog.on_delete e; on_update := FkCatalog.on_update e; child_key_no := -1;
  parent_key_no := key_no;
  parent_is_pk := match primary_key t with Some pk => key_no =? Z.of_nat pk | None => false end |}.

(** The catalog entries the walk takes: the readable child-side records. *)
Definition catalog_entry (kv : bytes * bytes) : option FkCatalog.fk_catalog_entry :=
  match kv.1 with
  | c :: _ => if c =? FkCatalog.FK_REC_CHILD then FkCatalog.fk_deserialize kv.2 else None
  | [] => None
  end.

Definition load_entry (self : bytes) (t : table_info) (s : fk_share) (e : FkCatalog.fk_catalog_entry) : fk_share := {|
  fk_loaded := fk_loaded s;
  fk_child := fk_child s ++ (if bool_decide (FkCatalog.child_cf e = self) then [child_side t e] else []);
  fk_parent := fk_parent s ++ (if bool_decide (FkCatalog.parent_cf e = self) then [parent_side t e] else []) |}.

Section code.
Context {E txn : Type} `{!TidesDb E txn, !FamilyDb E txn, !RowDb E txn, !CursorDb E txn} {SF : ServerField}.
Local Open Scope eff_scope.

Definition fk_load (self : bytes) (t : table_info) (s : fk_share) : M E fk_share :=
  if fk_loaded s then ret s
  else
    let s := {| fk_loaded := true; fk_child := fk_child s; fk_parent := fk_parent s |} in
    cf <-- get_cf FkCatalog.FK_CATALOG_CF;
    if negb cf then ret s
    else
      r <-- txn_begin;
      match r with
      | inl _ => ret s
      | inr x =>
          r <-- scan x FkCatalog.FK_CATALOG_CF;
          txn_rollback x;;
          ret (fold_left (load_entry self t) (omap catalog_entry (FkCatalog.walked r)) s)
      end.

(** ** Deriving the entries of a new table *)

(** What the server says of one constraint of a statement. *)
Record tdb_fk_spec := {
  spec_name : bytes; spec_ref_db : bytes; spec_ref_table : bytes; spec_child_columns : list bytes;
  spec_ref_columns : list bytes; spec_parent_index_name : bytes; spec_on_delete : Z; spec_on_update : Z }.

Definition to_lower (c : Z) : Z := if (65 <=? c) && (c <=? 90) then c + 32 else c.

(** [native_strcasecmp(a, b) == 0]. *)
Definition same_nocase (a b : bytes) : bool := bool_decide (map to_lower a = map to_lower b).

(** [snprintf] into 64 bytes of an unnamed constraint's name. *)
Definition anonymous_name (table : bytes) (anon : Z) : bytes := take 63 (table ++ bs "_ibfk_" ++ to_string anon).

Definition tdb_fk_parent_key_shape (parent_cf parent_index_name : bytes) : M E bytes :=
  if bool_decide (parent_cf = []) || bool_decide (parent_index_name = []) then ret []
  else
    cf <-- get_cf parent_cf;
    if negb cf then ret []
    else r <-- TableMeta.tdb_key_shape_load (Some parent_cf) parent_index_name; ret (default [] r).

(** One round of the loop over the statement's constraints; [inl] is the error it returns with. *)
Definition entry_of_spec (path db table : bytes) (t : table_info) (anon : Z) (sp : tdb_fk_spec) :
    M E (Z + FkCatalog.fk_catalog_entry * Z) :=
  let anon' := if bool_decide (spec_name sp = []) then anon + 1 else anon in
  let nm := if bool_decide (spec_name sp = []) then anonymous_name table anon' else spec_name sp in
  let rdb := if bool_decide (spec_ref_db sp = []) then db else spec_ref_db sp in
  let nullable := map (fun c =>
    let fi := FkCatalog.fk_field_index (names t) c in
    if (0 <=? fi) && match fields t !! Z.to_nat fi with Some f => is_nullable f | None => false end then 1 else 0)
    (spec_child_columns sp) in
  let pcf := CfName.to_cf_name (bs "./" ++ rdb ++ bs "/" ++ spec_ref_table sp) in
  let cidx := FkCatalog.fk_find_covering_index (names t) (spec_child_columns sp) in
  if cidx <? 0 then ret (inl HA_ERR_UNSUPPORTED)
  else
    let ckey := key_at (keys t) (Z.to_nat cidx) in
    if existsb reverse_sort (take (length (spec_child_columns sp)) (key_part ckey)) then ret (inl HA_ERR_UNSUPPORTED)
    else
      let is_pk := bool_decide (spec_parent_index_name sp = []) ||
                   same_nocase (spec_parent_index_name sp) TDB_PRIMARY_KEY_NAME in
      shape <-- (if is_pk then ret [] else tdb_fk_parent_key_shape pcf (spec_parent_index_name sp));
      ret (inr ({|
        FkCatalog.name := nm; FkCatalog.child_cf := CfName.to_cf_name path; FkCatalog.child_db := db;
        FkCatalog.child_table := table; FkCatalog.child_columns := spec_child_columns sp;
        FkCatalog.child_nullable := nullable; FkCatalog.ref_db := rdb; FkCatalog.ref_table := spec_ref_table sp;
        FkCatalog.parent_cf := pcf; FkCatalog.ref_columns := spec_ref_columns sp;
        FkCatalog.child_index_name :=
          match FkCatalog.table_keys (names t) !! Z.to_nat cidx with Some k => FkCatalog.key_name k | None => [] end;
        FkCatalog.parent_index_name := spec_parent_index_name sp; FkCatalog.parent_nullable := shape;
        FkCatalog.parent_is_pk := if is_pk then 1 else 0; FkCatalog.on_delete := spec_on_delete sp;
        FkCatalog.on_update := spec_on_update sp |}, anon')).

Fixpoint entries_of_specs (path db table : bytes) (t : table_info) (anon : Z) (specs : list tdb_fk_spec) :
    M E (Z + list FkCatalog.fk_catalog_entry) :=
  match specs with
  | [] => ret (inr [])
  | sp :: specs =>
      r <-- entry_of_spec path db table t anon sp;
      match r with
      | inl c => ret (inl c)
      | inr (e, anon) =>
          r <-- entries_of_specs path db table t anon specs;
          ret (match r with inl c => inl c | inr l => inr (e :: l) end)
      end
  end.

Definition fk_persist_defs (path db table : bytes) (t : table_info) (specs : list tdb_fk_spec) : M E Z :=
  match specs with
  | [] => ret 0
  | _ =>
      r <-- entries_of_specs path db table t 0 specs;
      match r with inl c => ret c | inr l => FkCatalog.fk_persist_records l end
  end.

(** ** Looking for a key *)

(** The walk over the entries from [comp] on: does one of them begin with it?  A key that cannot be
    read is passed over. *)
Fixpoint find_prefix (fuel : nat) (comp : bytes) (it : iter E) : M E bool :=
  match fuel with
  | O => ret false
  | S fuel =>
      if bool_decide (here it = None) then ret false
      else
        r <-- iter_read it;
        if match r with inr (k, _) => bool_decide (comp `prefix_of` k) | inl _ => false end then ret true
        else it <-- iter_move Next it; find_prefix fuel comp it
  end.

Definition entry_under (t : txn) (cf comp : bytes) : M E bool :=
  r <-- iter_new t cf (Some (comp, comp ++ [KEY_INF_HI_BYTE]));
  match r with
  | inl _ => ret false
  | inr it =>
      it <-- iter_move (Seek comp) it;
      b <-- find_prefix (S (length (walks it))) comp it;
      iter_free it;; ret b
  end.

(** ** The child's side *)

Section child.
Context (t : table_info) (out : memory).

Definition key_no (n : Z) : KEY := key_at (keys t) (Z.to_nat n).

Definition any_null (cols : list nat) (r : record) : bool :=
  existsb (fun fi => match fields t !! fi with Some f => is_null f r | None => false end) cols.

(** One round of the loop; [None] goes on to the next constraint. *)
Definition check_one (d : tdb_fk_def) (x : txn) (new_row : record) : M E (option ha_code) :=
  if child_key_no d <? 0 then ret None
  else if any_null (child_fields d) new_row then ret None
  else
    let comp := make_comparable_key (key_no (child_key_no d)) new_row (length (child_fields d)) out (Some (parent_nullable d)) in
    let verdict (present : bool) : option ha_code := if present then None else Some (HA_SERVER HA_ERR_NO_REFERENCED_ROW) in
    if parent_is_pk d then
      cf <-- get_cf (parent_cf d);
      if negb cf then ret None
      else
        rc <-- txn_contains x (parent_cf d) (RowFormat.build_data_key comp);
        ret (match rc with
             | TDB_SUCCESS => verdict true
             | TDB_ERR_NOT_FOUND => verdict false
             | rc => Some (tdb_rc_to_ha rc)
             end)
    else
      let picf := parent_cf d ++ Lifecycle.CF_INDEX_INFIX ++ parent_index_name d in
      cf <-- get_cf picf;
      if negb cf then ret None else b <-- entry_under x picf comp; ret (verdict b).

Fixpoint check_all (ds : list tdb_fk_def) (x : txn) (new_row : record) : M E ha_code :=
  match ds with
  | [] => ret HA_OK
  | d :: ds => r <-- check_one d x new_row; match r with Some c => ret c | None => check_all ds x new_row end
  end.

Definition fk_check_child (s : fk_share) (fk_in_cascade_ checks_off : bool) (stmt_txn : option txn) (new_row : record) :
    M E ha_code :=
  if bool_decide (fk_child s = []) || fk_in_cascade_ || checks_off then ret HA_OK
  else match stmt_txn with None => ret HA_OK | Some x => check_all (fk_child s) x new_row end.

End child.

(** ** The parent's side *)

(** The bytes of one part; [p] is its position. *)
Definition child_prefix_part (child_nullable : bytes) (row : record) (p : nat) (kp : KEY_PART_INFO) : bytes :=
  match child_nullable !! p with Some b => if b =? 0 then [] else [SORT_KEY_NOT_NULL] | None => [] end ++
  TDB_FIELD_SORT_STRING (field kp) row (kp_length kp).

Definition fk_encode_child_prefix (key : KEY) (nparts : nat) (row : record) (child_nullable : bytes) : bytes :=
  concat (imap (child_prefix_part child_nullable row) (take nparts (key_part key))).

Section parent.
Context (t : table_info).

(** The source answers 0 or 1; it has no error to answer with. *)
Definition fk_child_ref_exists (d : tdb_fk_def) (stmt_txn : option txn) (old_row : record) : M E bool :=
  match stmt_txn with
  | None => ret false
  | Some x =>
      if parent_key_no d <? 0 then ret false
      else
        let comp := fk_encode_child_prefix (key_no t (parent_key_no d)) (length (parent_fields d)) old_row (child_nullable d) in
        let icf := child_cf d ++ Lifecycle.CF_INDEX_INFIX ++ child_index_name d in
        cf <-- get_cf icf;
        if negb cf then ret false else entry_under x icf comp
  end.

Definition restrict (d : tdb_fk_def) (stmt_txn : option txn) (old_row : record) : M E ha_code :=
  b <-- fk_child_ref_exists d stmt_txn old_row;
  ret (if b then HA_SERVER HA_ERR_ROW_IS_REFERENCED else HA_OK).

(** An open table a cascade may write through: codes are the server's, 0 for success. *)
Record child_handler := {
  db_of : bytes;
  table_of : bytes;
  writable : bool;
  key_names : list bytes;
  child_keys : list KEY;
  record0 : record;
  ha_index_init : nat -> M E Z;
  ha_index_read_map : record * Z -> M E (Z * record);
  ha_index_next_same : M E (Z * record);
  ha_index_end : M E unit;
  position : record -> M E bytes;
  ha_rnd_init : M E Z;
  ha_rnd_pos : bytes -> M E (Z * record);
  ha_rnd_end : M E unit;
  set_in_cascade : bool -> M E unit;
  cascade_delete_row : record -> M E Z;
  cascade_update_row : record -> record -> M E Z }.

(** The first open table of the statement with this name. *)
Definition fk_find_open_table (open : list child_handler) (db tbl : bytes) : option child_handler :=
  head (List.filter (fun c => bool_decide (db_of c = db) && bool_decide (table_of c = tbl)) open).

(** The walk over the referencing rows; [rounds] bounds it. *)
Fixpoint collect_refs (rounds : nat) (ct : child_handler) (rc : Z) (r : record) (refs : list bytes) : M E (Z * list bytes) :=
  match rounds with
  | O => ret (rc, refs)
  | S rounds =>
      if negb (rc =? 0) then ret (rc, refs)
      else
        ref <-- position ct r;
        x <-- ha_index_next_same ct;
        collect_refs rounds ct x.1 x.2 (refs ++ [ref])
  end.

Definition fk_collect_child_refs (rounds : nat) (ct : child_handler) (cidx : nat) (keybuf : record * Z) : M E (Z * list bytes) :=
  rc <-- ha_index_init ct cidx;
  x <-- (if rc =? 0 then
           y <-- ha_index_read_map ct keybuf;
           z <-- collect_refs rounds ct y.1 y.2 [];
           ha_index_end ct;; ret z
         else ret (rc, []));
  ret (if (x.1 =? HA_ERR_END_OF_FILE_) || (x.1 =? HA_ERR_KEY_NOT_FOUND_) then (0, x.2) else x).

(** Columns [i < nparts] of the child's key set from the parent's row, or to null. *)
Definition set_columns (field_conv : Field -> Field -> bytes -> bytes) (d : tdb_fk_def) (ckey : KEY) (nparts : nat)
    (from : option record) (r : record) : record :=
  fold_left (fun r p =>
      let cf := field p.1 in
      match from with
      | None => set_null cf r
      | Some row =>
          match fields t !! p.2 with
          | Some pf => write_slot cf (field_conv cf pf (slot pf row)) (set_notnull cf r)
          | None => r
          end
      end) (zip (take nparts (key_part ckey)) (parent_fields d)) r.

(** The loop over the referencing rows: a row that is gone is passed over and an error ends it. *)
Fixpoint cascade_rows (ct : child_handler) (rewrite : option (record -> record)) (refs : list bytes) : M E Z :=
  match refs with
  | [] => ret 0
  | ref :: refs =>
      x <-- ha_rnd_pos ct ref;
      if negb (x.1 =? 0) then cascade_rows ct rewrite refs
      else
        rc <-- match rewrite with
               | None => cascade_delete_row ct x.2
               | Some f => cascade_update_row ct x.2 (f x.2)
               end;
        if rc =? 0 then cascade_rows ct rewrite refs else ret rc
  end.

Definition fk_apply_cascade (ct : child_handler) (rewrite : option (record -> record)) (refs : list bytes) : M E Z :=
  set_in_cascade ct true;;
  result <-- (if bool_decide (refs = []) then ret 0
              else
                rc <-- ha_rnd_init ct;
                if rc =? 0 then x <-- cascade_rows ct rewrite refs; ha_rnd_end ct;; ret x else ret 0);
  set_in_cascade ct false;; ret result.

Section cascade.
Context (field_conv : Field -> Field -> bytes -> bytes) (open : list child_handler) (rounds : nat).

(** [new_row] is null for a delete. *)
Definition fk_cascade_children (d : tdb_fk_def) (stmt_txn : option txn) (old_row : record) (new_row : option record) :
    M E ha_code :=
  let act := match new_row with Some _ => on_update d | None => on_delete d end in
  let set_to_null := act =? FK_OPTION_SET_NULL in
  match List.filter writable (option_list (fk_find_open_table open (child_db d) (child_table d))) with
  | [] => restrict d stmt_txn old_row
  | ct :: _ =>
      let cidx := FkCatalog.index_from (fun n => bool_decide (n = child_index_name d)) (key_names ct) 0 in
      if cidx <? 0 then ret HA_OK
      else
        let ckey := key_at (child_keys ct) (Z.to_nat cidx) in
        let nparts := Nat.min (length (parent_fields d)) (length (key_part ckey)) in
        let key := set_columns field_conv d ckey nparts (Some old_row) (record0 ct) in
        let key_len := foldr (fun kp n => store_length kp + n) 0 (take nparts (key_part ckey)) in
        x <-- fk_collect_child_refs rounds ct (Z.to_nat cidx) (key, key_len);
        if negb (x.1 =? 0) then ret (server_code x.1)
        else
          let rewrite := match new_row with
                         | None => if set_to_null then Some (set_columns field_conv d ckey nparts None) else None
                         | Some row => Some (set_columns field_conv d ckey nparts (if set_to_null then None else Some row))
                         end in
          rc <-- fk_apply_cascade ct rewrite x.2;
          ret (server_code rc)
  end.

Definition cascades (act : Z) : bool := (act =? FK_OPTION_CASCADE) || (act =? FK_OPTION_SET_NULL).

Fixpoint delete_each (ds : list tdb_fk_def) (stmt_txn : option txn) (old_row : record) : M E ha_code :=
  match ds with
  | [] => ret HA_OK
  | d :: ds =>
      rc <-- (if parent_key_no d <? 0 then ret HA_OK
              else if cascades (on_delete d) then fk_cascade_children d stmt_txn old_row None
              else restrict d stmt_txn old_row);
      if bool_decide (rc = HA_OK) then delete_each ds stmt_txn old_row else ret rc
  end.

Definition fk_enforce_parent_delete (s : fk_share) (checks_off : bool) (stmt_txn : option txn) (old_row : record) : M E ha_code :=
  if bool_decide (fk_parent s = []) || checks_off || negb (is_some stmt_txn) then ret HA_OK
  else delete_each (fk_parent s) stmt_txn old_row.

Fixpoint update_each (ds : list tdb_fk_def) (stmt_txn : option txn) (old_row new_row : record) : M E ha_code :=
  match ds with
  | [] => ret HA_OK
  | d :: ds =>
      rc <-- (if parent_key_no d <? 0 then ret HA_OK
              else
                let enc r := fk_encode_child_prefix (key_no t (parent_key_no d)) (length (parent_fields d)) r (child_nullable d) in
                if bool_decide (enc old_row = enc new_row) then ret HA_OK
                else if cascades (on_update d) then fk_cascade_children d stmt_txn old_row (Some new_row)
                else restrict d stmt_txn old_row);
      if bool_decide (rc = HA_OK) then update_each ds stmt_txn old_row new_row else ret rc
  end.

Definition fk_enforce_parent_update (s : fk_share) (checks_off : bool) (stmt_txn : option txn) (old_row new_row : record) :
    M E ha_code :=
  if bool_decide (fk_parent s = []) || checks_off || negb (is_some stmt_txn) then ret HA_OK
  else update_each (fk_parent s) stmt_txn old_row new_row.

End cascade.
End parent.
End code.
Arguments child_handler E : clear implicits.
End FkRows.
