(* ===== verification/FkRowsSpec.v ===== *)
(** * Referential integrity

    What the checks of [FkRows] promise.  On a library that does not fail they answer exactly: a child row
    is refused when a referenced row is missing, a parent row is kept while a row refers to it.  Whatever
    the library does, they write only through the child tables they cascade into, which is what the row
    operations ask of them. *)
From stdpp Require Import sorting.
From S2P Require Import Prelude Effects TidesDb RowFormat CfName FkCatalog Lifecycle Table KeyCodec FtsText RowDb Dml TableRep DmlSpec CursorDb Quiet FkRows.
Import Table KeyCodec Dml TableRep FkRows.
#[local] Open Scope Z_scope.
#[local] Open Scope tdb_scope.

Module FkRowsSpec.

(** ** Encodings of the referring columns *)

Section Encoding.
Context {SF : ServerField}.
Implicit Types (r : record) (kps : list KEY_PART_INFO) (p pos : nat) (out : memory).

(** The columns the constraints speak of: ascending and not varbinary. *)
Definition plain_part (kp : KEY_PART_INFO) : Prop :=
  reverse_sort kp = false /\ is_varbinary (field kp) = false /\ 0 <= kp_length kp < 2 ^ 32.

Definition sort_value (kp : KEY_PART_INFO) r : bytes := TDB_FIELD_SORT_STRING (field kp) r (kp_length kp).

Definition flag_at (v : bytes) p : bytes :=
  match v !! p with Some b => if b =? 0 then [] else [SORT_KEY_NOT_NULL] | None => [] end.

Fixpoint flagged (v : bytes) kps p r : bytes :=
  match kps with [] => [] | kp :: kps => flag_at v p ++ sort_value kp r ++ flagged v kps (S p) r end.

Lemma comparable_flagged v kps p pos r out :
  Forall plain_part kps -> comparable_parts kps p pos r out (Some v) = flagged v kps p r.
Proof.
  intros Hp. revert p pos. induction Hp as [|kp kps (Hr & Hv & _) _ IH]; intros p pos; [done|]. cbn [comparable_parts flagged].
  rewrite IH, app_assoc. f_equal. unfold comparable_part, indicator. by rewrite Hr, Hv.
Qed.

Lemma prefix_flagged v kps p r : concat (imap (fun i => child_prefix_part v r (i + p)) kps) = flagged v kps p r.
Proof.
  revert p. induction kps as [|kp kps IH]; intros p; [done|]. cbn [imap concat flagged]. rewrite app_assoc. f_equal.
  rewrite <- IH. f_equal. apply imap_ext. intros i x _. simpl. f_equal. lia.
Qed.

(** The flags say which columns carry an indicator. *)
Fixpoint flags_match (v : bytes) kps p : Prop :=
  match kps with
  | [] => True
  | kp :: kps => flag_at v p = (if is_nullable (field kp) then [SORT_KEY_NOT_NULL] else []) /\ flags_match v kps (S p)
  end.

Definition paired (kcs kps : list KEY_PART_INFO) : Prop :=
  Forall2 (fun kc kp => plain_part kc /\ plain_part kp /\ kp_length kc = kp_length kp) kcs kps.

Lemma paired_sym kcs kps : paired kcs kps -> paired kps kcs.
Proof. intros H. apply Forall2_flip. eapply Forall2_impl; [exact H|]. simpl. intros ? ? (? & ? & ?). done. Qed.

Definition same_values kcs kps r r' : Prop := Forall2 (fun kc kp => sort_value kc r = sort_value kp r') kcs kps.

Lemma same_values_sym kcs kps r r' : same_values kcs kps r r' -> same_values kps kcs r' r.
Proof. intros H. apply Forall2_flip. eapply Forall2_impl; [exact H|]. simpl. intros ? ? ?. done. Qed.

Definition no_nulls kps r : Prop := Forall (fun kp => is_null (field kp) r = false) kps.

(** The bytes written with the other table's indicators are that table's key exactly when its columns are
    not null and have the same values. *)
Lemma encodings_meet v kcs kps p pos r r' out :
  paired kcs kps -> flags_match v kps p ->
  length (flagged v kcs p r) = length (comparable_parts kps p pos r' out None) /\
  (flagged v kcs p r = comparable_parts kps p pos r' out None <-> no_nulls kps r' /\ same_values kcs kps r r').
Proof.
  intros Hp. revert p pos. induction Hp as [|kc kp kcs kps (Hc & Hk & El) _ IH]; intros p pos Hf.
  { split; [done|]. split; [|done]. intros _. split; constructor. }
  destruct Hf as [Hf Hfs]. cbn [flagged comparable_parts].
  set (span := comparable_part kp p pos r' out None). destruct (IH (S p) (pos + length span)%nat Hfs) as [IL IE].
  destruct Hc as (_ & _ & [Hl _]), Hk as (Hr & Hv & [Hl' _]).
  assert (length (sort_value kc r) = Z.to_nat (kp_length kp)) as L1 by (rewrite <- El; by apply sort_string_length).
  assert (length (sort_value kp r') = Z.to_nat (kp_length kp)) as L2 by (by apply sort_string_length).
  assert (length (flag_at v p ++ sort_value kc r) = length span /\
    (flag_at v p ++ sort_value kc r = span <-> is_null (field kp) r' = false /\ sort_value kc r = sort_value kp r')) as [HL HE].
  { unfold span, comparable_part, indicator. rewrite Hr, Hf. destruct (is_nullable (field kp)) eqn:En.
    - destruct (is_null (field kp) r') eqn:Enull; rewrite ?Hv; cbn [app length].
      + rewrite zeros_length, L1. split; [done|]. split; [intros [= E _]; done|by intros [? _]].
      + fold (sort_value kp r'). rewrite L1, L2. split; [done|]. split; [by intros [= ->]|by intros [_ ->]].
    - rewrite Hv. cbn [app length]. fold (sort_value kp r'). rewrite L1, L2. split; [done|].
      rewrite (not_nullable_not_null _ r' En). split; [by intros ->|by intros [_ ->]]. }
  rewrite app_assoc. split; [by rewrite !(length_app _ (flagged _ _ _ _)), (length_app span), HL, IL|]. split.
  - intros [E1 E2]%app_inj_1; [|done]. apply HE in E1 as [Hn Hs]. apply IE in E2 as [Hns Hss]. split; by constructor.
  - intros [[Hn Hns]%Forall_cons [Hs Hss]%Forall2_cons]. f_equal; [by apply HE|by apply IE].
Qed.

(** Encodings of two rows agree exactly when the columns have the same values, nulls or not. *)
Lemma flagged_same v kps p r r' : Forall plain_part kps -> flagged v kps p r = flagged v kps p r' <-> same_values kps kps r r'.
Proof.
  intros Hp. revert p. induction Hp as [|kp kps (_ & _ & [Hl _]) _ IH]; intros p; cbn [flagged]; [by split; [constructor|]|].
  unfold same_values. rewrite Forall2_cons, <- (IH (S p)). split; [|by intros [-> ->]]. intros E%app_inv_head.
  apply app_inj_1 in E; [done|]. unfold sort_value. by rewrite !sort_string_length.
Qed.

End Encoding.

(** ** Looking for a key *)

Section Probe.
Context {E txn : Type} `{!TidesDb E txn, !FamilyDb E txn, !RowDb E txn, !CursorDb E txn, !QuietDb E txn, !QuietRows E txn,
  !QuietFamilies E txn, !QuietCursor E txn}.
Context {SF : ServerField}.
Local Open Scope eff_scope.

#[local] Abbreviation run P m Q := (spec P m Q (fun _ => True)).
Implicit Types (d v : store) (ws : list write) (x : txn) (comp k : bytes).

Definition under comp (l : list entry) : Prop := exists e, e ∈ l /\ comp `prefix_of` e.1.

Lemma find_prefix_spec x d ws comp L :
  ascending L -> forall rest pre fuel it, L = pre ++ rest -> (length rest < fuel)%nat -> walks it = L -> here it = head rest ->
  run (quiet_txn x d ws) (find_prefix fuel comp it)
    (fun b s => (b = true <-> under comp rest) /\ quiet_txn x d ws s).
Proof.
  intros Hs. induction rest as [|e rest IH]; intros pre fuel it HL Hf Hw Hh;
    (destruct fuel as [|fuel]; [simpl in Hf; lia|]); cbn [find_prefix]; rewrite Hh; cbn [head].
  { apply spec_ret. intros s Hq. split; [|done]. split; [done|]. by intros (e & He%not_elem_of_nil & _). }
  rewrite bool_decide_false by done. destruct e as [k y].
  eapply spec_bind; [by eapply spec_crash; [apply (q_read x d ws it (k, y))|]|]. intros r.
  apply (spec_pure _ (r = inr (k, y))); [by intros s [_ ?]|]. intros ->.
  case_bool_decide as Hk; [apply spec_ret; intros s [Hq _]; split; [|done]; split; [|done]; intros _; exists (k, y);
    (split; [by left|done])|].
  eapply spec_bind; [eapply spec_weaken; [apply (q_move x d ws Next it)|by intros s [? _]|intros a s Ha; exact Ha|done]|].
  intros it'. apply (spec_pure _ (walks it' = L /\ here it' = head rest)).
  { intros s (_ & Hw' & Hh'). split; [congruence|]. rewrite Hh' by (rewrite Hh; by eexists). rewrite Hw, Hh, HL.
    rewrite HL in Hs. by apply target_next. }
  intros [Hw' Hh'].
  eapply spec_weaken; [apply (IH (pre ++ [(k, y)]) fuel it'); [by rewrite <- app_assoc|simpl in Hf; lia|done|done]|
    by intros s [? _]| |done].
  intros b s [Hb Hq]. split; [|done]. rewrite Hb. split; intros (e & He & Hp).
  - exists e. split; [by right|done].
  - apply elem_of_cons in He as [->|He]; [done|]. by exists e.
Qed.

(** An entry that begins with [comp], and none that the upper bound leaves out. *)
Definition bounded comp k : Prop := ~ (comp ++ [KEY_INF_HI_BYTE]) <b k.

Lemma entry_under_spec x d ws cf comp :
  (forall k y, db_get cf k (apply_writes ws d) = Some y -> comp `prefix_of` k -> bounded comp k) ->
  run (quiet_txn x d ws) (entry_under x cf comp)
    (fun b s => quiet_txn x d ws s /\
       (b = true <-> exists k y, db_get cf k (apply_writes ws d) = Some y /\ comp `prefix_of` k)).
Proof.
  intros Hb. unfold entry_under. eapply spec_bind; [by eapply spec_crash; [apply (q_iter_new x d ws)|]|]. intros r.
  apply (spec_pure _ (exists it, r = inr it /\ opened (apply_writes ws d) cf (Some (comp, comp ++ [KEY_INF_HI_BYTE])) (walks it)));
    [by intros s [_ ?]|]. intros (it & -> & Hs & Hget & Hall).
  eapply spec_bind; [eapply spec_weaken; [apply (q_move x d ws (Seek comp) it)|by intros s [? _]|intros a s Ha; exact Ha|done]|].
  intros it'. destruct (target_seek comp (walks it) (here it) Hs) as (pre & rest & HL & Ht & Hpre & _).
  apply (spec_pure _ (walks it' = walks it /\ here it' = head rest)).
  { intros s (_ & Hw & Hh). split; [done|]. by rewrite Hh. }
  intros [Hw Hh]. eapply spec_bind.
  { eapply spec_pre; [apply (find_prefix_spec x d ws comp (walks it) Hs rest pre); try done; rewrite Hw, HL, length_app; lia|].
    by intros s [? _]. }
  intros b. apply (spec_pure _ (b = true <-> under comp rest)); [by intros s [? _]|]. intros Hx.
  eapply spec_bind; [eapply spec_weaken; [apply (q_free x d ws it')|by intros s [_ ?]|intros a s Ha; exact Ha|done]|].
  intros ?. apply spec_ret. intros s Hq. split; [done|]. rewrite Hx. split.
  - intros ([k y] & He & Hp). exists k, y. split; [apply Hget; rewrite HL; apply elem_of_app; by right|done].
  - intros (k & y & Hk & Hp). exists (k, y). split; [|done].
    assert ((k, y) ∈ walks it) as Hin by (apply Hall; [done|split; [by apply prefix_not_below|by eapply Hb]]).
    rewrite HL in Hin. apply elem_of_app in Hin as [Hin|Hin]; [|done]. by apply Hpre, prefix_not_below in Hin.
Qed.

Lemma get_cf_spec x d ws cf :
  run (quiet_txn x d ws) (get_cf cf) (fun b s => b = bool_decide (is_Some (d !! cf)) /\ quiet_txn x d ws s).
Proof.
  eapply spec_weaken; [apply spec_conj; [apply (get_cf_law d)|apply spec_conj; [apply (get_cf_pending x ws)|apply quiet_get_cf]]|..].
  - by intros s [[? ?] ?].
  - by intros b s ([? ?] & ? & ?).
  - done.
Qed.

(** ** The tables a constraint joins *)

Context `{!RowServices E txn} {CS : FtsText.charset}.
Context (columns : list Field) (stored : record -> bytes -> Prop).

(** The other table of a constraint: its share, the key the constraint uses there and its rows. *)
Record other := { o_share : share; o_key : nat; o_rows : gmap bytes record }.

Definition o_parts (n : nat) (o : other) : list KEY_PART_INFO := take n (key_part (key_info_of (o_share o) (o_key o))).

(** A row of the other table with the same values in its columns. *)
Definition meets (kcs : list KEY_PART_INFO) (n : nat) (o : other) (r : record) : Prop :=
  exists pk r', o_rows o !! pk = Some r' /\ no_nulls (o_parts n o) r' /\ same_values kcs (o_parts n o) r r'.

Lemma prefix_app_eq (a b c : bytes) : length a = length b -> a `prefix_of` b ++ c <-> a = b.
Proof.
  intros Hl. split; [|by intros ->; apply prefix_app_r]. intros [z E']. symmetry. by apply app_inj_1 in E' as [? _].
Qed.

Lemma key_meets fv kcs n o r r' pk :
  paired kcs (o_parts n o) -> flags_match fv (o_parts n o) 0 ->
  flagged fv kcs 0 r `prefix_of` index_key (o_share o) (o_key o) r' ++ pk <->
  no_nulls (o_parts n o) r' /\ same_values kcs (o_parts n o) r r'.
Proof.
  intros Hp Hf. unfold index_key. rewrite make_comparable_key_all.
  destruct (comparable_parts_take n (key_part (key_info_of (o_share o) (o_key o))) r' (fun _ => 0) None) as [X ->].
  destruct (encodings_meet fv kcs (o_parts n o) 0 0 r r' (fun _ => 0) Hp Hf) as [Hl He].
  rewrite <- app_assoc, prefix_app_eq by exact Hl. exact He.
Qed.

(** The index entries of the other table that the probe has to find. *)
Lemma index_meets v c fv kcs n o r :
  paired kcs (o_parts n o) -> flags_match fv (o_parts n o) 0 -> kind_of (o_share o) (o_key o) = regular ->
  holds_entries c (entries (o_share o) (o_key o)) (o_rows o) v ->
  (exists k y, db_get c k v = Some y /\ flagged fv kcs 0 r `prefix_of` k) <-> meets kcs n o r.
Proof.
  intros Hp Hf Hk Hh. assert (forall r' pk, entries (o_share o) (o_key o) r' pk =
    [(index_key (o_share o) (o_key o) r' ++ pk, tdb_empty_val)]) as Hent by (intros; unfold entries; by rewrite Hk).
  split.
  - intros (k & y & Hy & Hpre). apply Hh in Hy as (pk & r' & Hr & Hin). rewrite Hent in Hin.
    apply list_elem_of_singleton in Hin. injection Hin as -> ->. exists pk, r'. split; [done|]. by eapply key_meets.
  - intros (pk & r' & Hr & Hm). exists (index_key (o_share o) (o_key o) r' ++ pk), tdb_empty_val. split.
    + apply Hh. exists pk, r'. rewrite Hent. split; [done|by left].
    + by eapply (key_meets fv kcs n o).
Qed.

(** The rows of the other table under its primary key. *)
Lemma data_meets v fv kcs n o r :
  paired kcs (o_parts n o) -> flags_match fv (o_parts n o) 0 ->
  has_user_pk (codec (o_share o)) = true -> o_key o = pk_index (codec (o_share o)) ->
  (length (key_part (key_info_of (o_share o) (o_key o))) <= n)%nat ->
  rows_ok (o_share o) columns (o_rows o) -> data_rep (o_share o) stored (o_rows o) v ->
  live v (cf (o_share o)) (RowFormat.build_data_key (flagged fv kcs 0 r)) <-> meets kcs n o r.
Proof.
  intros Hp Hf Hpk Hj Hn Hrows Hd. assert (forall pk r', o_rows o !! pk = Some r' ->
    (flagged fv kcs 0 r = pk <-> no_nulls (o_parts n o) r' /\ same_values kcs (o_parts n o) r r')) as Hkey.
  { intros pk r' Hr. destruct (Hrows pk r' Hr) as [_ Epk]. unfold pk_of in Epk. rewrite Hpk, <- Hj in Epk.
    rewrite <- (key_meets fv kcs n o r r' []) by done. rewrite Epk, app_nil_r. rewrite <- Epk at 1. unfold index_key.
    rewrite make_comparable_key_all. destruct (encodings_meet fv kcs (o_parts n o) 0 0 r r' (fun _ => 0) Hp Hf) as [Hl _].
    unfold o_parts in Hl. rewrite take_ge in Hl by done. rewrite <- Epk. unfold index_key. rewrite make_comparable_key_all.
    rewrite <- (app_nil_r (comparable_parts _ _ _ _ _ _)) at 2. by rewrite prefix_app_eq. }
  unfold live. specialize (Hd (flagged fv kcs 0 r)) as Hx. split.
  - intros [b Hb]. rewrite Hb in Hx. destruct (o_rows o !! flagged fv kcs 0 r) as [r'|] eqn:Er; [|done].
    exists (flagged fv kcs 0 r), r'. split; [done|]. by apply (Hkey _ _ Er).
  - intros (pk & r' & Hr & Hm). apply (Hkey _ _ Hr) in Hm as <-. rewrite Hr in Hx. by destruct (db_get _ _ v).
Qed.

(** The bytes the probes look for have the width of the other table's columns. *)
Definition width (n : nat) (o : other) : nat := Z.to_nat (foldr (fun kp w => part_width kp + w) 0 (o_parts n o)).

Lemma flagged_width fv kcs n o r :
  paired kcs (o_parts n o) -> flags_match fv (o_parts n o) 0 -> length (flagged fv kcs 0 r) = width n o.
Proof.
  intros Hp Hf. destruct (encodings_meet fv kcs (o_parts n o) 0 0 r r (fun _ => 0) Hp Hf) as [-> _]. unfold width.
  rewrite <- (comparable_parts_length _ 0 0 r (fun _ => 0)); [unfold zlen; lia|].
  clear Hf. induction Hp as [|kc kp kcs' kps' (_ & (_ & Hv & Hl) & _) _ IH]; constructor; [|done].
  split; [done|]. by rewrite Hv.
Qed.

(** The upper bound of a probe is the value followed by [0xff]: an entry whose next byte is [0xff] would
    be left out. *)
Definition room (w : nat) (c : bytes) v : Prop := forall k y b, db_get c k v = Some y -> k !! w = Some b -> b < KEY_INF_HI_BYTE.

Lemma room_bounded w c v comp k y :
  room w c v -> length comp = w -> db_get c k v = Some y -> comp `prefix_of` k -> bounded comp k.
Proof.
  intros Hroom <- Hk [z ->]. unfold bounded, bytes_lt. rewrite bytes_cmp_app_same. destruct z as [|b z]; [done|].
  assert (b < KEY_INF_HI_BYTE) as Hb.
  { apply (Hroom _ _ _ Hk). rewrite lookup_app_r by done. by rewrite Nat.sub_diag. }
  cbn [bytes_cmp]. rewrite (proj2 (Z.compare_gt_iff _ _)) by lia. done.
Qed.

(** ** The child's side *)

Section Child.
Context (tc : table_info) (out : memory).

Definition c_count (c : tdb_fk_def) : nat := length (child_fields c).
Definition c_parts (c : tdb_fk_def) : list KEY_PART_INFO := take (c_count c) (key_part (key_no tc (child_key_no c))).

(** A constraint loaded for the child, with the parent's table as the library holds it. *)
Record child_ok d v (c : tdb_fk_def) (o : other) : Prop := {
  has_key : 0 <= child_key_no c;
  columns_of_key : Forall2 (fun fi kp => fields tc !! fi = Some (field kp)) (child_fields c) (c_parts c);
  child_pairs : paired (c_parts c) (o_parts (c_count c) o);
  child_flags : flags_match (parent_nullable c) (o_parts (c_count c) o) 0;
  parent_rows : rows_ok (o_share o) columns (o_rows o);
  parent_stored :
    if parent_is_pk c then
      is_Some (d !! parent_cf c) /\ parent_cf c = cf (o_share o) /\ has_user_pk (codec (o_share o)) = true /\
      o_key o = pk_index (codec (o_share o)) /\
      (length (key_part (key_info_of (o_share o) (o_key o))) <= c_count c)%nat /\ data_rep (o_share o) stored (o_rows o) v
    else
      let icf := parent_cf c ++ Lifecycle.CF_INDEX_INFIX ++ parent_index_name c in
      is_Some (d !! icf) /\ kind_of (o_share o) (o_key o) = regular /\
      holds_entries icf (entries (o_share o) (o_key o)) (o_rows o) v /\ room (width (c_count c) o) icf v }.

(** MATCH SIMPLE: a row with a null among the columns refers to nothing. *)
Definition satisfied (c : tdb_fk_def) (o : other) (r : record) : Prop :=
  no_nulls (c_parts c) r -> meets (c_parts c) (c_count c) o r.

Lemma any_null_iff d v c o r : child_ok d v c o -> any_null tc (child_fields c) r = false <-> no_nulls (c_parts c) r.
Proof.
  intros Hok. pose proof (columns_of_key _ _ _ _ Hok) as Hc. unfold any_null, no_nulls. clear Hok.
  induction Hc as [|fi kp fis kps Hf _ IH]; simpl; [done|]. rewrite Hf, orb_false_iff, Forall_cons. by rewrite IH.
Qed.

Lemma check_one_spec x d ws c o r :
  child_ok d (apply_writes ws d) c o ->
  run (quiet_txn x d ws) (check_one tc out c x r)
    (fun a s => quiet_txn x d ws s /\ (a = None <-> satisfied c o r) /\
       (a = None \/ a = Some (HA_SERVER HA_ERR_NO_REFERENCED_ROW))).
Proof.
  intros Hok. unfold check_one. rewrite (proj2 (Z.ltb_ge _ _)) by (by eapply has_key).
  destruct (any_null tc (child_fields c) r) eqn:En.
  { apply spec_ret. intros s Hq. split; [done|]. split; [|by left]. split; [|done]. intros _ Hno.
    apply (any_null_iff _ _ _ _ _ Hok) in Hno. congruence. }
  apply (any_null_iff _ _ _ _ _ Hok) in En.
  assert (satisfied c o r <-> meets (c_parts c) (c_count c) o r) as Hsat by (unfold satisfied; tauto).
  unfold make_comparable_key. fold (c_count c). fold (c_parts c).
  rewrite comparable_flagged by (eapply Forall2_Forall_l; [exact (child_pairs _ _ _ _ Hok)|]; apply Forall_true; by intros kp kc (? & _)).
  pose proof (child_pairs _ _ _ _ Hok) as Hp. pose proof (child_flags _ _ _ _ Hok) as Hf.
  pose proof (parent_stored _ _ _ _ Hok) as Hst. destruct (parent_is_pk c).
  - destruct Hst as (Hcf & Ecf & Hpk & Hj & Hn & Hd). rewrite Ecf in *.
    eapply spec_bind; [apply get_cf_spec|]. intros b. q_fact Hb. subst b. rewrite bool_decide_true by done. cbn [negb].
    eapply spec_bind; [eapply spec_weaken; [apply (q_contains x d ws)|by intros s [_ ?]|intros a s Ha; exact Ha|done]|].
    intros rc. apply spec_ret. intros s [Hq ->]. split; [done|]. rewrite Hsat.
    rewrite <- (data_meets (apply_writes ws d) (parent_nullable c)) by (done || by eapply parent_rows).
    case_decide; (split; [|by auto]); by split.
  - destruct Hst as (Hcf & Hk & Hh & Hroom).
    eapply spec_bind; [apply get_cf_spec|]. intros b. q_fact Hb. subst b. rewrite bool_decide_true by done. cbn [negb].
    eapply spec_bind; [eapply spec_pre; [apply (entry_under_spec x d ws)|by intros s [_ ?]]|].
    { intros k y Hy Hpre. eapply room_bounded; [exact Hroom|by apply flagged_width|done|done]. }
    intros b. apply spec_ret. intros s [Hq Hb]. split; [done|]. rewrite Hsat.
    rewrite (index_meets _ _ _ _ _ _ _ Hp Hf Hk Hh) in Hb. rewrite <- Hb. destruct b; (split; [|by auto]); by split.
Qed.

Lemma check_all_spec x d ws cs (par : tdb_fk_def -> other) r :
  (forall c, c ∈ cs -> child_ok d (apply_writes ws d) c (par c)) ->
  run (quiet_txn x d ws) (check_all tc out cs x r)
    (fun a s => quiet_txn x d ws s /\ (a = HA_OK <-> forall c, c ∈ cs -> satisfied c (par c) r) /\
       (a = HA_OK \/ a = HA_SERVER HA_ERR_NO_REFERENCED_ROW)).
Proof.
  induction cs as [|c cs IH]; intros Hok; cbn [check_all].
  { apply spec_ret. intros s Hq. split; [done|]. split; [|by left]. split; [|done]. by intros _ c ?%not_elem_of_nil. }
  eapply spec_bind; [apply (check_one_spec x d ws c (par c)), Hok; by left|]. intros a.
  apply (spec_pure _ _ _ _ _ (fun _ Hs => proj2 Hs)). intros [Ha Hor].
  eapply (spec_pre _ (quiet_txn x d ws)); [|by intros s [? _]]. destruct a as [a|].
  - apply spec_ret. intros s Hq. split; [done|]. destruct Hor as [|[= ->]]; [done|]. split; [|by right]. split; [done|].
    intros Hall. exfalso. assert (Some (HA_SERVER HA_ERR_NO_REFERENCED_ROW) = None :> option ha_code) by (apply Ha, Hall; by left). done.
  - eapply spec_weaken; [apply IH; intros c' Hc'; apply Hok; by right|done| |done]. intros a s (Hq & Hcs & Ho).
    split; [done|]. split; [|done]. rewrite Hcs. split.
    + intros Hall c' [->|Hc']%elem_of_cons; [by apply Ha|by apply Hall].
    + intros Hall c' Hc'. apply Hall. by right.
Qed.

End Child.

(** ** The parent's side *)

Section Parent.
Context (tp : table_info).

Definition p_count (c : tdb_fk_def) : nat := length (parent_fields c).
Definition p_parts (c : tdb_fk_def) : list KEY_PART_INFO := take (p_count c) (key_part (key_no tp (parent_key_no c))).

(** A constraint loaded for the parent, with the child's index as the library holds it. *)
Record parent_ok d v (c : tdb_fk_def) (o : other) : Prop := {
  has_parent_key : 0 <= parent_key_no c;
  parent_pairs : paired (p_parts c) (o_parts (p_count c) o);
  parent_flags : flags_match (child_nullable c) (o_parts (p_count c) o) 0;
  child_stored :
    let icf := child_cf c ++ Lifecycle.CF_INDEX_INFIX ++ child_index_name c in
    is_Some (d !! icf) /\ kind_of (o_share o) (o_key o) = regular /\
    holds_entries icf (entries (o_share o) (o_key o)) (o_rows o) v /\ room (width (p_count c) o) icf v }.

(** A row of the child refers to the row. *)
Definition referenced (c : tdb_fk_def) (o : other) (r : record) : Prop := meets (p_parts c) (p_count c) o r.

Lemma encoded_prefix c r :
  fk_encode_child_prefix (key_no tp (parent_key_no c)) (p_count c) r (child_nullable c) = flagged (child_nullable c) (p_parts c) 0 r.
Proof.
  unfold fk_encode_child_prefix. fold (p_parts c). rewrite <- prefix_flagged. f_equal. apply imap_ext. intros i kp _.
  by rewrite Nat.add_0_r.
Qed.

Lemma restrict_spec x d ws c o r :
  parent_ok d (apply_writes ws d) c o ->
  run (quiet_txn x d ws) (restrict tp c (Some x) r)
    (fun a s => quiet_txn x d ws s /\ (a = HA_OK <-> ~ referenced c o r) /\
       (a = HA_OK \/ a = HA_SERVER HA_ERR_ROW_IS_REFERENCED)).
Proof.
  intros [Hk Hp Hf (Hcf & Hkind & Hh & Hroom)]. unfold restrict, fk_child_ref_exists.
  rewrite (proj2 (Z.ltb_ge _ _)) by done. fold (p_count c). rewrite encoded_prefix.
  eapply spec_bind; [eapply spec_bind; [apply get_cf_spec|]|].
  { intros b. q_fact Hb. subst b. rewrite bool_decide_true by done. cbn [negb].
    eapply spec_pre; [apply (entry_under_spec x d ws)|by intros s [_ ?]].
    intros k y Hy Hpre. eapply room_bounded; [exact Hroom|by apply flagged_width|done|done]. }
  intros b. apply spec_ret. intros s [Hq Hb]. split; [done|]. rewrite (index_meets _ _ _ _ _ _ _ Hp Hf Hkind Hh) in Hb.
  fold (referenced c o r) in Hb. rewrite <- Hb. destruct b; (split; [|by auto]); by split.
Qed.

Lemma delete_each_spec field_conv open rounds x d ws cs (kid : tdb_fk_def -> other) r :
  (forall c, c ∈ cs -> parent_ok d (apply_writes ws d) c (kid c) /\ cascades (on_delete c) = false) ->
  run (quiet_txn x d ws) (delete_each tp field_conv open rounds cs (Some x) r)
    (fun a s => quiet_txn x d ws s /\ (a = HA_OK <-> forall c, c ∈ cs -> ~ referenced c (kid c) r) /\
       (a = HA_OK \/ a = HA_SERVER HA_ERR_ROW_IS_REFERENCED)).
Proof.
  induction cs as [|c cs IH]; intros Hok; cbn [delete_each].
  { apply spec_ret. intros s Hq. split; [done|]. split; [|by left]. split; [|done]. by intros _ c ?%not_elem_of_nil. }
  destruct (Hok c ltac:(by left)) as [Hc Hno]. rewrite (proj2 (Z.ltb_ge _ _)) by (by eapply has_parent_key). rewrite Hno.
  eapply spec_bind; [by apply (restrict_spec x d ws c (kid c))|]. intros a.
  apply (spec_pure _ _ _ _ _ (fun _ Hs => proj2 Hs)). intros [Ha Hor].
  eapply (spec_pre _ (quiet_txn x d ws)); [|by intros s [? _]]. case_bool_decide as Ea.
  - eapply spec_weaken; [apply IH; intros c' Hc'; apply Hok; by right|done| |done]. intros a' s (Hq & Hcs & Ho).
    split; [done|]. split; [|done]. rewrite Hcs. split.
    + intros Hall c' [->|Hc']%elem_of_cons; [by apply Ha|by apply Hall].
    + intros Hall c' Hc'. apply Hall. by right.
  - apply spec_ret. intros s Hq. split; [done|]. split; [|done]. split; [done|]. intros Hall. apply Ha, Hall. by left.
Qed.

(** The update leaves the columns of the constraint. *)
Definition keeps_columns (c : tdb_fk_def) r r' : Prop := same_values (p_parts c) (p_parts c) r r'.

Lemma same_encoding d v c o r r' : parent_ok d v c o ->
  let enc r := fk_encode_child_prefix (key_no tp (parent_key_no c)) (length (parent_fields c)) r (child_nullable c) in
  enc r = enc r' <-> keeps_columns c r r'.
Proof.
  intros Hc. simpl. fold (p_count c). rewrite !encoded_prefix. apply flagged_same. pose proof (parent_pairs _ _ _ _ Hc) as Hp.
  induction Hp as [|? ? ? ? (? & _) _ IH]; by constructor.
Qed.

Lemma update_each_spec field_conv open rounds x d ws cs (kid : tdb_fk_def -> other) r r' :
  (forall c, c ∈ cs -> parent_ok d (apply_writes ws d) c (kid c) /\ cascades (on_update c) = false) ->
  run (quiet_txn x d ws) (update_each tp field_conv open rounds cs (Some x) r r')
    (fun a s => quiet_txn x d ws s /\ (a = HA_OK <-> forall c, c ∈ cs -> keeps_columns c r r' \/ ~ referenced c (kid c) r) /\
       (a = HA_OK \/ a = HA_SERVER HA_ERR_ROW_IS_REFERENCED)).
Proof.
  induction cs as [|c cs IH]; intros Hok; cbn [update_each].
  { apply spec_ret. intros s Hq. split; [done|]. split; [|by left]. split; [|done]. by intros _ c ?%not_elem_of_nil. }
  destruct (Hok c ltac:(by left)) as [Hc Hno]. rewrite (proj2 (Z.ltb_ge _ _)) by (by eapply has_parent_key). rewrite Hno.
  eapply (spec_bind _ _ (fun a s => quiet_txn x d ws s /\ (a = HA_OK <-> keeps_columns c r r' \/ ~ referenced c (kid c) r) /\
    (a = HA_OK \/ a = HA_SERVER HA_ERR_ROW_IS_REFERENCED))).
  { case_bool_decide as Henc; [apply (same_encoding _ _ _ _ _ _ Hc) in Henc|rewrite (same_encoding _ _ _ _ _ _ Hc) in Henc].
    - apply spec_ret. intros s Hq. split; [done|]. split; [|by left]. split; [by left|done].
    - eapply spec_weaken; [by apply (restrict_spec x d ws c (kid c))|done| |done]. intros a s (Hq & Ha & Hor).
      split; [done|]. split; [|done]. rewrite Ha. split; [by right|]. by intros [?|?]. }
  intros a. apply (spec_pure _ _ _ _ _ (fun _ Hs => proj2 Hs)). intros [Ha Hor].
  eapply (spec_pre _ (quiet_txn x d ws)); [|by intros s [? _]]. case_bool_decide as Ea.
  - eapply spec_weaken; [apply IH; intros c' Hc'; apply Hok; by right|done| |done]. intros a' s (Hq & Hcs & Ho).
    split; [done|]. split; [|done]. rewrite Hcs. split.
    + intros Hall c' [->|Hc']%elem_of_cons; [by apply Ha|by apply Hall].
    + intros Hall c' Hc'. apply Hall. by right.
  - apply spec_ret. intros s Hq. split; [done|]. split; [|done]. split; [done|]. intros Hall. apply Ha, Hall. by left.
Qed.

End Parent.

(** ** Referential integrity *)

Context (tc tp : table_info) (out : memory).

(** C33: On a library that does not fail, and with the checks on, [fk_check_child] refuses a row exactly when
    one of the table's constraints is not met: all of the row's referring columns are set and no row of
    the parent has their values, under its primary key or in its index.  It changes nothing.  The
    conditions are in [child_ok]: the columns on both sides are ascending, not VARBINARY and compare alike,
    the parent's table and the family of its key exist, and no entry of the index that is probed goes on
    with the byte 0xff after the columns ([room]): such an entry lies above the probe's upper bound, and a
    child of its row is refused. *)
Theorem child_check_exact x d ws s (par : tdb_fk_def -> other) r :
  (forall c, c ∈ fk_child s -> child_ok tc d (apply_writes ws d) c (par c)) ->
  run (quiet_txn x d ws) (fk_check_child tc out s false false (Some x) r)
    (fun a e => quiet_txn x d ws e /\ (a = HA_OK <-> forall c, c ∈ fk_child s -> satisfied tc c (par c) r) /\
       (a = HA_OK \/ a = HA_SERVER HA_ERR_NO_REFERENCED_ROW)).
Proof.
  intros Hok. unfold fk_check_child. rewrite !orb_false_r. case_bool_decide as Hs; [|by apply check_all_spec].
  rewrite Hs. apply spec_ret. intros e Hq. split; [done|]. split; [|by left]. split; [|done]. by intros _ c ?%not_elem_of_nil.
Qed.

(** The same constraint as the two tables have loaded it: the columns on each side are the other side's
    columns seen from the first. *)
Record joined (cc cp : tdb_fk_def) (child parent : other) : Prop := {
  same_count : c_count cc = p_count cp;
  child_columns_agree : c_parts tc cc = o_parts (p_count cp) child;
  parent_columns_agree : p_parts tp cp = o_parts (c_count cc) parent }.

(** Every row of the child whose referring columns are set has its row in the parent. *)
Definition integrity (c : tdb_fk_def) (child parent : other) : Prop :=
  forall pk r, o_rows child !! pk = Some r -> satisfied tc c parent r.

Definition with_rows (rows : gmap bytes record) (o : other) : other :=
  {| o_share := o_share o; o_key := o_key o; o_rows := rows |}.

Lemma insert_keeps_integrity c child parent pk r :
  integrity c child parent -> satisfied tc c parent r -> integrity c (with_rows (<[pk := r]> (o_rows child)) child) parent.
Proof. intros Hi Hr pk' r' H. cbn in H. apply lookup_insert_Some in H as [[<- <-]|[_ H]]; [done|by eapply Hi]. Qed.

Lemma delete_keeps_integrity cc cp child parent pk r :
  joined cc cp child parent -> integrity cc child parent -> o_rows parent !! pk = Some r -> ~ referenced tp cp child r ->
  integrity cc child (with_rows (delete pk (o_rows parent)) parent).
Proof.
  intros [Hn Hc Hp] Hi Hr Hno pk' r' Hr' Hnn. destruct (Hi pk' r' Hr' Hnn) as (pk0 & r0 & Hr0 & Hn0 & Hv0).
  exists pk0, r0. split; [|done]. simpl. rewrite lookup_delete_ne; [done|]. intros <-.
  rewrite Hr in Hr0. injection Hr0 as <-. apply Hno. exists pk', r'. split; [done|]. split; [by rewrite <- Hc|].
  apply same_values_sym. by rewrite <- Hc, Hp.
Qed.

(** C34: A delete the engine accepts leaves no row behind that refers to the deleted one: when all the
    constraints on the parent restrict deletes (none cascades or sets null) and the library does not fail,
    [fk_enforce_parent_delete] accepts exactly the rows no child refers to, and referential integrity
    holds without the row.  The conditions are in [parent_ok]: the columns on both sides are ascending, not
    VARBINARY and compare alike, the child's index over them is a secondary index with a family of its
    own, not the child's primary key, and none of its entries goes on with the byte 0xff after the
    columns ([room]).  Without them a referenced row can be deleted ([FkExample.referenced_row_deleted]). *)
Theorem parent_delete_keeps_references field_conv open rounds x d ws s (kid : tdb_fk_def -> other) cc cp parent pk r :
  (forall c, c ∈ fk_parent s -> parent_ok tp d (apply_writes ws d) c (kid c) /\ cascades (on_delete c) = false) ->
  cp ∈ fk_parent s -> joined cc cp (kid cp) parent -> integrity cc (kid cp) parent -> o_rows parent !! pk = Some r ->
  run (quiet_txn x d ws) (fk_enforce_parent_delete tp field_conv open rounds s false (Some x) r)
    (fun a e => quiet_txn x d ws e /\ (a = HA_OK <-> forall c, c ∈ fk_parent s -> ~ referenced tp c (kid c) r) /\
       (a = HA_OK -> integrity cc (kid cp) (with_rows (delete pk (o_rows parent)) parent))).
Proof.
  intros Hok Hcp Hj Hi Hr. unfold fk_enforce_parent_delete. cbn [is_some negb]. rewrite !orb_false_r.
  rewrite bool_decide_false by (intros E'; rewrite E' in Hcp; by apply not_elem_of_nil in Hcp).
  eapply spec_weaken; [by apply (delete_each_spec tp field_conv open rounds x d ws (fk_parent s) kid)|done| |done].
  intros a e (Hq & Ha & _). split; [done|]. split; [done|]. intros E'. rewrite Ha in E'.
  by apply (delete_keeps_integrity cc cp _ _ pk r Hj Hi Hr), E'.
Qed.

Definition moved (pk pk' : bytes) (r' : record) (o : other) : other := with_rows (<[pk' := r']> (delete pk (o_rows o))) o.

Lemma same_values_trans ks kps qs r1 r2 r3 : same_values ks kps r1 r2 -> same_values kps qs r2 r3 -> same_values ks qs r1 r3.
Proof.
  intros H12. revert qs. induction H12 as [|k kp ks kps E1 _ IH]; intros qs H23; inversion H23; subst; constructor; [congruence|].
  by apply IH.
Qed.

Lemma update_keeps_integrity cc cp child parent pk pk' r r' :
  joined cc cp child parent -> integrity cc child parent -> o_rows parent !! pk = Some r ->
  (pk' = pk \/ o_rows parent !! pk' = None) -> no_nulls (p_parts tp cp) r' ->
  keeps_columns tp cp r r' \/ ~ referenced tp cp child r ->
  integrity cc child (moved pk pk' r' parent).
Proof.
  intros [Hn Hc Hp] Hi Hr Hfree Hnn' Hcase k rk Hk Hnn. destruct (Hi k rk Hk Hnn) as (pk0 & r0 & Hr0 & Hn0 & Hv0).
  destruct (decide (pk0 = pk)) as [->|Hne].
  - rewrite Hr in Hr0. injection Hr0 as <-. destruct Hcase as [Hkeep|Hno].
    + exists pk', r'. split; [apply lookup_insert_eq|].
      change (o_parts (c_count cc) (moved pk pk' r' parent)) with (o_parts (c_count cc) parent). rewrite <- Hp.
      split; [done|]. eapply same_values_trans; [exact Hv0|]. by rewrite <- Hp.
    + exfalso. apply Hno. exists k, rk. split; [done|]. split; [by rewrite <- Hc|]. apply same_values_sym. by rewrite <- Hc, Hp.
  - exists pk0, r0. split; [|done]. simpl. rewrite lookup_insert_ne, lookup_delete_ne; [done|done|].
    intros <-. destruct Hfree as [->|Hf]; [done|congruence].
Qed.

(** An update the engine accepts leaves no reference dangling, as long as the new row has no null among the columns
    referred to: when the constraints are restricting and the library does not fail, [fk_enforce_parent_update]
    accepts exactly the updates that leave the columns of each constraint or touch a row no child refers to. *)
Lemma parent_update_keeps_references field_conv open rounds x d ws s (kid : tdb_fk_def -> other) cc cp parent pk pk' r r' :
  (forall c, c ∈ fk_parent s -> parent_ok tp d (apply_writes ws d) c (kid c) /\ cascades (on_update c) = false) ->
  cp ∈ fk_parent s -> joined cc cp (kid cp) parent -> integrity cc (kid cp) parent -> o_rows parent !! pk = Some r ->
  (pk' = pk \/ o_rows parent !! pk' = None) -> no_nulls (p_parts tp cp) r' ->
  run (quiet_txn x d ws) (fk_enforce_parent_update tp field_conv open rounds s false (Some x) r r')
    (fun a e => quiet_txn x d ws e /\
       (a = HA_OK <-> forall c, c ∈ fk_parent s -> keeps_columns tp c r r' \/ ~ referenced tp c (kid c) r) /\
       (a = HA_OK -> integrity cc (kid cp) (moved pk pk' r' parent))).
Proof.
  intros Hok Hcp Hj Hi Hr Hfree Hnn. unfold fk_enforce_parent_update. cbn [is_some negb]. rewrite !orb_false_r.
  rewrite bool_decide_false by (intros E'; rewrite E' in Hcp; by apply not_elem_of_nil in Hcp).
  eapply spec_weaken; [by apply (update_each_spec tp field_conv open rounds x d ws (fk_parent s) kid)|done| |done].
  intros a e (Hq & Ha & _). split; [done|]. split; [done|]. intros E'. rewrite Ha in E'. by eapply update_keeps_integrity; eauto.
Qed.

(** The exception: a column that becomes NULL and keeps its bytes, as a number 0 does, is taken for unchanged.  The
    update is accepted although it takes away the only row a child refers to. *)
Lemma nulled_parent_leaves_orphan field_conv open rounds x d ws s (kid : tdb_fk_def -> other) cc cp parent pk r r' k rk :
  (forall c, c ∈ fk_parent s -> parent_ok tp d (apply_writes ws d) c (kid c) /\ cascades (on_update c) = false) ->
  (forall c, c ∈ fk_parent s -> keeps_columns tp c r r') -> joined cc cp (kid cp) parent -> ~ no_nulls (p_parts tp cp) r' ->
  o_rows (kid cp) !! k = Some rk -> no_nulls (c_parts tc cc) rk ->
  (forall pk0 r0, o_rows parent !! pk0 = Some r0 -> pk0 <> pk -> ~ same_values (c_parts tc cc) (p_parts tp cp) rk r0) ->
  run (quiet_txn x d ws) (fk_enforce_parent_update tp field_conv open rounds s false (Some x) r r') (fun a e => a = HA_OK) /\
  ~ integrity cc (kid cp) (moved pk pk r' parent).
Proof.
  intros Hok Hkeep [Hn Hc Hp] Hnull Hk Hnn Honly. split.
  - unfold fk_enforce_parent_update. case_bool_decide; [by apply spec_ret|]. cbn [is_some negb orb].
    eapply spec_weaken; [by apply (update_each_spec tp field_conv open rounds x d ws (fk_parent s) kid)|done| |done].
    intros a e (_ & Ha & _). apply Ha. intros c Hin. left. by apply Hkeep.
  - intros Hi. destruct (Hi k rk Hk Hnn) as (pk0 & r0 & Hr0 & Hn0 & Hv0).
    change (o_parts (c_count cc) (moved pk pk r' parent)) with (o_parts (c_count cc) parent) in Hn0, Hv0. rewrite <- Hp in Hn0, Hv0.
    simpl in Hr0. apply lookup_insert_Some in Hr0 as [[<- <-]|[Hne Hr0]]; [done|]. rewrite lookup_delete_ne in Hr0 by done.
    by apply (Honly pk0 r0 Hr0).
Qed.

End Probe.

(** ** The constraints a table loads *)

Section Load.
Context {E txn : Type} `{!TidesDb E txn, !FamilyDb E txn, !QuietDb E txn, !QuietFamilies E txn}.
Context (self : bytes) (t : table_info).
Local Open Scope eff_scope.

Lemma catalog_entry_spec C d k v e :
  FkCatalog.represents C d -> db_get FkCatalog.FK_CATALOG_CF k d = Some v ->
  catalog_entry (k, v) = Some e <-> e ∈ C /\ v = FkCatalog.fk_serialize e /\ k = FkCatalog.fk_child_key (FkCatalog.child_cf e) (FkCatalog.name e).
Proof.
  intros (Hf & _ & Hr) Hk. rewrite Forall_forall in Hf. pose proof (proj1 (Hr k v) Hk) as (e' & He' & -> & Hin).
  assert (FkCatalog.fk_deserialize (FkCatalog.fk_serialize e') = Some e') as Hd.
  { rewrite <- (app_nil_r (FkCatalog.fk_serialize e')). by apply FkCatalog.fk_deserialize_serialize, Hf. }
  unfold FkCatalog.both_keys in Hin. apply elem_of_cons in Hin as [->|Hin%list_elem_of_singleton]; unfold catalog_entry, FkCatalog.fk_child_key; cbn [fst snd].
  - change (FkCatalog.FK_REC_CHILD =? FkCatalog.FK_REC_CHILD) with true. cbn iota. rewrite Hd. split; [by intros [= <-]|]. intros (He & E' & _). f_equal. by apply FkCatalog.fk_serialize_inj; auto.
  - subst k. change (FkCatalog.FK_REC_PARENT =? FkCatalog.FK_REC_CHILD) with false. split; [done|].
    intros (_ & _ & E'). discriminate E'.
Qed.

Lemma load_fold es s :
  fold_left (load_entry self t) es s = {|
    fk_loaded := fk_loaded s;
    fk_child := fk_child s ++ map (child_side t) (List.filter (fun e => bool_decide (FkCatalog.child_cf e = self)) es);
    fk_parent := fk_parent s ++ map (parent_side t) (List.filter (fun e => bool_decide (FkCatalog.parent_cf e = self)) es) |}.
Proof.
  revert s. induction es as [|e es IH]; intros s; simpl; [rewrite !app_nil_r; by destruct s|]. rewrite IH. cbn [fk_loaded fk_child fk_parent load_entry].
  do 2 case_bool_decide; by rewrite <- ?app_assoc, ?app_nil_r.
Qed.

(** A table loads exactly the constraints the catalog holds for it: those whose child it is on one
    list and those whose parent it is on the other, resolved against its own columns and keys; a
    constraint of the table with itself is on both. *)
Lemma fk_load_exact C d :
  FkCatalog.represents C d ->
  spec (fun e => quiet e /\ committed e = d) (fk_load self t {| fk_loaded := false; fk_child := []; fk_parent := [] |})
    (fun s e => committed e = d /\ fk_loaded s = true /\
       (forall c, c ∈ fk_child s <-> exists e, e ∈ C /\ FkCatalog.child_cf e = self /\ c = child_side t e) /\
       (forall c, c ∈ fk_parent s <-> exists e, e ∈ C /\ FkCatalog.parent_cf e = self /\ c = parent_side t e))
    (fun e => committed e = d).
Proof.
  intros R. unfold fk_load. cbn [fk_loaded fk_child fk_parent].
  eapply spec_bind; [eapply spec_weaken; [apply (FkCatalog.get_cf_quiet d)|done|intros b e Hb; exact Hb|done]|].
  intros b. apply (spec_pure _ (b = true)); [intros e [Hb _]; rewrite Hb; by apply bool_decide_true, R|]. intros ->. cbn [negb].
  eapply spec_bind; [eapply spec_pre; [apply (FkCatalog.begin_quiet d)|by intros e [_ ?]]|].
  intros r. apply (spec_pure _ (exists x, r = inr x)); [by intros e (x & -> & _); exists x|]. intros [x ->].
  eapply spec_bind; [eapply spec_pre; [apply (FkCatalog.scan_quiet d x [])|by intros e (x' & [= ->] & ?)]|].
  intros r. apply (spec_pure _ (forall k v, (k, v) ∈ FkCatalog.walked r <-> db_get FkCatalog.FK_CATALOG_CF k d = Some v));
    [by intros e [_ ?]|]. intros Hw.
  eapply spec_bind; [eapply spec_weaken; [apply (txn_rollback_law d)|by intros e [(_ & ? & _) _]|intros a e He; exact He|done]|].
  intros ?. apply spec_ret. intros e He. rewrite load_fold. cbn [fk_loaded fk_child fk_parent app].
  assert (forall en, en ∈ omap catalog_entry (FkCatalog.walked r) <-> en ∈ C) as Hen.
  { intros en. rewrite list_elem_of_omap. split.
    - intros ([k v] & Hin & Hc). apply Hw in Hin. by apply (catalog_entry_spec C d k v en R Hin) in Hc as [? _].
    - intros Hin. assert (db_get FkCatalog.FK_CATALOG_CF (FkCatalog.fk_child_key (FkCatalog.child_cf en) (FkCatalog.name en)) d =
        Some (FkCatalog.fk_serialize en)) as Hk by (apply R; exists en; split_and!; [done..|by left]).
      eexists (_, _). split; [by apply Hw|]. by apply (catalog_entry_spec C d _ _ en R Hk). }
  assert (forall (side : FkCatalog.fk_catalog_entry -> tdb_fk_def) (key : FkCatalog.fk_catalog_entry -> bytes) c,
    c ∈ map side (List.filter (fun e => bool_decide (key e = self)) (omap catalog_entry (FkCatalog.walked r))) <->
    exists e, e ∈ C /\ key e = self /\ c = side e) as Hside.
  { intros side key c. rewrite list_elem_of_In, in_map_iff. setoid_rewrite filter_In. setoid_rewrite bool_decide_eq_true.
    setoid_rewrite <- list_elem_of_In. split; [intros (en & <- & Hin & Hk)|intros (en & Hin & Hk & ->)]; exists en;
      (split_and!; [..|done]); try done; by apply Hen. }
  split; [done|]. split; [done|]. split; [apply (Hside (child_side t) FkCatalog.child_cf)|apply (Hside (parent_side t) FkCatalog.parent_cf)].
Qed.

End Load.

(** ** What the row operations ask of the checks *)

Section Frame.
Context {E txn : Type} `{!TidesDb E txn, !FamilyDb E txn, !RowDb E txn, !CursorDb E txn, !QuietDb E txn, !QuietRows E txn,
  !QuietFamilies E txn, !QuietCursor E txn}.
Context {SF : ServerField} (families : list bytes) (x : txn).
Local Open Scope eff_scope.

(** The call leaves the contents alone and writes only outside the table, in the statement's transaction. *)
Definition frames {A} (m : M E A) : Prop := forall d ws (Q : Prop),
  spec (fun e => (committed e = d /\ pending e x = ws) /\ (Q -> quiet e)) m
    (fun _ e => (exists ws', (committed e = d /\ pending e x = ws ++ ws') /\
       Forall (fun w => write_cf w ∉ families) ws') /\ (Q -> quiet e))
    (fun e => committed e = d).

Lemma frames_ret {A : Type} (a : A) : frames (ret a).
Proof. intros d ws Q. apply spec_ret. intros e [Hd Hq]. split; [|done]. exists []. by rewrite app_nil_r. Qed.

Lemma frames_bind {A B : Type} (m : M E A) (f : A -> M E B) : frames m -> (forall a, frames (f a)) -> frames (bind m f).
Proof.
  intros Hm Hf d ws Q. eapply spec_bind; [apply Hm|]. intros a s [(ws1 & Hd & Hw) Hq].
  specialize (Hf a d (ws ++ ws1) Q s (conj Hd Hq)). destruct (f a s) as [s' [b|]]; [|done].
  destruct Hf as [(ws2 & Hd' & Hw') Hq']. split; [|done]. exists (ws1 ++ ws2). rewrite app_assoc. split; [done|]. by apply Forall_app.
Qed.

Lemma frames_read {A : Type} (m : M E A) (R : store -> list write -> A -> E -> Prop) (R' : A -> E -> Prop) C' :
  (forall d ws, spec (fun e => committed e = d /\ pending e x = ws) m
     (fun a e => (committed e = d /\ pending e x = ws) /\ R d ws a e) (fun e => committed e = d)) ->
  spec quiet m (fun a e => quiet e /\ R' a e) C' -> frames m.
Proof.
  intros H1 H2 d ws Q. eapply spec_weaken; [apply (spec_when Q _ _ _ _ _ _ _ (H1 d ws) H2)|done| |done].
  intros a e [[Hd _] Hq]. split; [|intros HQ; by apply Hq]. exists []. rewrite app_nil_r. by split.
Qed.

Lemma frames_get_cf cf : frames (get_cf cf).
Proof.
  apply (frames_read _ (fun d ws r e => r = bool_decide (is_Some (d !! cf))) (fun _ _ => True) quiet).
  - intros d ws. eapply spec_weaken; [apply spec_conj; [apply (get_cf_law d)|apply (get_cf_pending x ws)]|done| |by intros s [? _]].
    by intros r e [[? ?] ?].
  - eapply spec_weaken; [apply quiet_get_cf|done|by intros r e|done].
Qed.

Lemma frames_contains cf k : frames (txn_contains x cf k).
Proof. eapply frames_read; [intros d ws; apply txn_contains_law|apply quiet_contains]. Qed.

Lemma frames_iter_new cf b : frames (iter_new x cf b).
Proof. eapply frames_read; [intros d ws; apply iter_new_law|apply quiet_iter_new]. Qed.

Lemma frames_move op it : frames (iter_move op it).
Proof. eapply frames_read; [intros d ws; apply (iter_move_law d ws x)|apply quiet_move]. Qed.

Lemma frames_iter_read it : frames (iter_read it).
Proof. eapply frames_read; [intros d ws; apply (iter_read_law d ws x)|apply quiet_read]. Qed.

Lemma frames_free it : frames (iter_free it).
Proof.
  apply (frames_read _ (fun _ _ _ _ => True) (fun _ _ => True) (fun _ => True)).
  - intros d ws. eapply spec_weaken; [apply (iter_free_law d ws x)|done|by intros a e|done].
  - eapply spec_weaken; [apply quiet_free|done|by intros a e|done].
Qed.

End Frame.

Create HintDb frames.
#[export] Hint Resolve frames_ret frames_get_cf frames_contains frames_iter_new frames_move frames_iter_read frames_free : frames.

(** Through the sequencing and the branches of a definition. *)
Ltac frame_steps :=
  repeat first
    [ solve [auto with frames]
    | apply frames_bind; [|intros ?]
    | case_match ].

Section Enforce.
Context {E txn : Type} `{!TidesDb E txn, !FamilyDb E txn, !RowDb E txn, !CursorDb E txn, !QuietDb E txn, !QuietRows E txn,
  !QuietFamilies E txn, !QuietCursor E txn}.
Context {SF : ServerField} (families : list bytes).
Local Open Scope eff_scope.

Lemma frames_find_prefix x fuel comp : forall it, frames families x (find_prefix fuel comp it).
Proof. induction fuel as [|fuel IH]; intros it; cbn [find_prefix]; frame_steps. Qed.
#[local] Hint Resolve frames_find_prefix : frames.

Lemma frames_entry_under x cf comp : frames families x (entry_under x cf comp).
Proof. unfold entry_under. frame_steps. Qed.
#[local] Hint Resolve frames_entry_under : frames.

Lemma frames_check_child tc out s c off x r : frames families x (fk_check_child tc out s c off (Some x) r).
Proof.
  unfold fk_check_child. case_match; [auto with frames|]. generalize (fk_child s). intros cs. induction cs as [|d ds IH]; cbn [check_all]; [frame_steps|].
  apply frames_bind; [unfold check_one; frame_steps|]. intros a. frame_steps.
Qed.

Lemma frames_restrict tp d x r : frames families x (restrict tp d (Some x) r).
Proof. unfold restrict, fk_child_ref_exists. frame_steps. Qed.

(** The open tables a cascade may reach keep to their own families. *)
Record child_frames (x : txn) (ct : child_handler E) : Prop := {
  f_init i : frames families x (ha_index_init ct i);
  f_read k : frames families x (ha_index_read_map ct k);
  f_same : frames families x (ha_index_next_same ct);
  f_end : frames families x (ha_index_end ct);
  f_position r : frames families x (position ct r);
  f_rnd_init : frames families x (ha_rnd_init ct);
  f_rnd_pos p : frames families x (ha_rnd_pos ct p);
  f_rnd_end : frames families x (ha_rnd_end ct);
  f_flag b : frames families x (set_in_cascade ct b);
  f_delete r : frames families x (cascade_delete_row ct r);
  f_update r r' : frames families x (cascade_update_row ct r r') }.
#[local] Hint Resolve f_init f_read f_same f_end f_position f_rnd_init f_rnd_pos f_rnd_end f_flag f_delete f_update : frames.

Lemma frames_collect x ct rounds : child_frames x ct -> forall rc r refs, frames families x (collect_refs rounds ct rc r refs).
Proof. intros Hc. induction rounds as [|rounds IH]; intros rc r refs; cbn [collect_refs]; frame_steps. Qed.
#[local] Hint Resolve frames_collect : frames.

Lemma frames_rows x ct rewrite refs : child_frames x ct -> frames families x (cascade_rows ct rewrite refs).
Proof. intros Hc. induction refs as [|ref refs IH]; cbn [cascade_rows]; frame_steps. Qed.
#[local] Hint Resolve frames_rows : frames.

Context (tp : table_info) (field_conv : Field -> Field -> bytes -> bytes) (open : list (child_handler E)) (rounds : nat).

Lemma frames_cascade d x old new :
  Forall (child_frames x) open -> frames families x (fk_cascade_children tp field_conv open rounds d (Some x) old new).
Proof.
  intros Ho. unfold fk_cascade_children.
  destruct (List.filter writable (option_list (fk_find_open_table open (child_db d) (child_table d)))) as [|ct l] eqn:Ef;
    [apply frames_restrict|].
  assert (child_frames x ct) as Hc.
  { assert (In ct (ct :: l)) as Hin by (by left). rewrite <- Ef in Hin. apply filter_In in Hin as [Hin _].
    unfold fk_find_open_table in Hin. destruct (List.filter _ open) as [|c0 l0] eqn:Eo; [done|]. destruct Hin as [->|[]].
    assert (In ct (ct :: l0)) as Hin by (by left). rewrite <- Eo in Hin. apply filter_In in Hin as [Hin _].
    rewrite Forall_forall in Ho. by apply Ho, list_elem_of_In. }
  unfold fk_collect_child_refs, fk_apply_cascade. frame_steps.
Qed.

Lemma frames_parent_delete s off x old :
  Forall (child_frames x) open -> frames families x (fk_enforce_parent_delete tp field_conv open rounds s off (Some x) old).
Proof.
  intros Ho. unfold fk_enforce_parent_delete. case_match; [auto with frames|].
  generalize (fk_parent s). intros cs. induction cs as [|d ds IH]; cbn [delete_each]; [auto with frames|].
  apply frames_bind; [|intros a; frame_steps]. repeat case_match; auto using frames_ret, frames_cascade, frames_restrict.
Qed.

Lemma frames_parent_update s off x old new :
  Forall (child_frames x) open -> frames families x (fk_enforce_parent_update tp field_conv open rounds s off (Some x) old new).
Proof.
  intros Ho. unfold fk_enforce_parent_update. case_match; [auto with frames|].
  generalize (fk_parent s). intros cs. induction cs as [|d ds IH]; cbn [update_each]; [auto with frames|].
  apply frames_bind; [|intros a; frame_steps]. repeat case_match; auto using frames_ret, frames_cascade, frames_restrict.
Qed.

(** The services of a table with foreign keys: the checks of [FkRows] in place of the parameters.  [number]
    gives the server's number of a code. *)
Definition fk_services (base : RowServices E txn) (number : ha_code -> Z) (out : memory) (s : fk_share) (in_cascade off : bool) :
    RowServices E txn := {|
  serialize_row := serialize_row;
  Dml.fk_check_child x r := c <-- fk_check_child tp out s in_cascade off (Some x) r; ret (number c);
  Dml.fk_enforce_parent_delete x r := c <-- fk_enforce_parent_delete tp field_conv open rounds s off (Some x) r; ret (number c);
  Dml.fk_enforce_parent_update x r r' :=
    c <-- fk_enforce_parent_update tp field_conv open rounds s off (Some x) r r'; ret (number c);
  open_stmt_txn := open_stmt_txn;
  next_number := next_number;
  update_auto_increment := update_auto_increment;
  mbr := mbr;
  spatial_compute_mbr := spatial_compute_mbr;
  centroid_hilbert := centroid_hilbert;
  spatial_build_value := spatial_build_value |}.

(** The laws the row operations are proved against hold of it. *)
#[export] Program Instance fk_services_ok (base : RowServices E txn) enc `{!DmlSpec.ServicesOk E txn families enc} number out s in_cascade off
    (Hopen : forall x, Forall (child_frames x) open) :
    @DmlSpec.ServicesOk E txn _ _ (fk_services base number out s in_cascade off) families enc := {|
  DmlSpec.stored := DmlSpec.stored;
  DmlSpec.numbered := DmlSpec.numbered |}.
Next Obligation. intros base enc Hs number out s in_cascade off _ d ws t Q r. apply (DmlSpec.serialize_law (RowServices0 := base)). Qed.
Next Obligation. intros base enc Hs number out s in_cascade off _ d ws t Q r. apply (DmlSpec.auto_increment_law (RowServices0 := base)). Qed.
Next Obligation.
  intros base enc Hs number out s in_cascade off Hopen m x Hm d ws Q.
  assert (frames families x m) as Hf.
  { destruct Hm as (r & [->|[->|[r' ->]]]); (apply frames_bind; [|intros a; apply frames_ret]);
      auto using frames_check_child, frames_parent_delete, frames_parent_update. }
  apply Hf.
Qed.

End Enforce.
End FkRowsSpec.
