(* ===== verification/FkExample.v ===== *)
(** * Foreign keys between concrete tables

    The table of [DmlExample] as the parent and a table without a primary key that refers to its [id]
    through an index: witnesses of the theorems, and the deletes and updates that leave orphans. *)
From S2P Require Import Prelude Effects TidesDb RowFormat FkCatalog Lifecycle Table KeyCodec FtsText RowDb Dml TableRep DmlSpec DmlExample CursorDb Quiet FkRows FkRowsSpec.
Import Table KeyCodec Dml TableRep DmlExample FkRows FkRowsSpec.
#[local] Open Scope Z_scope.
#[local] Open Scope tdb_scope.

Module FkExample.

#[local] Existing Instance KeyCodec.example_server.
#[local] Existing Instance FtsText.example_charset.
#[local] Abbreviation svc := (ex_services true).

Definition kid_table : share := {|
  codec := open_build_index_meta 4 false 0 [key_id];
  cf := bs "c"; idx_cfs := [Some (bs "c__idx_k")]; idx_kind := [regular]; nosame := [false];
  encrypted := false; ref_length := 8; has_next_number := false; triggers := false; table_name := (bs "db", bs "c");
  fts_opts := FtsText.example_opts |}.

Definition info (key_name : bytes) (pk : option nat) : table_info := {|
  names := {| FkCatalog.field_names := [bs "id"; bs "a"; bs "b"; bs "t"];
              FkCatalog.table_keys := [{| FkCatalog.key_name := key_name; FkCatalog.key_parts := [bs "id"] |}] |};
  fields := ex_fields; keys := [key_id]; primary_key := pk |}.

(** The catalog's entry, and the constraint as each side loads it. *)
Definition fk_entry (index : bytes) : FkCatalog.fk_catalog_entry := {|
  FkCatalog.name := bs "fk"; FkCatalog.child_cf := bs "c"; FkCatalog.child_db := bs "db"; FkCatalog.child_table := bs "c";
  FkCatalog.child_columns := [bs "id"]; FkCatalog.child_nullable := [0]; FkCatalog.ref_db := bs "db";
  FkCatalog.ref_table := bs "t"; FkCatalog.parent_cf := bs "d"; FkCatalog.ref_columns := [bs "id"];
  FkCatalog.child_index_name := index; FkCatalog.parent_index_name := TDB_PRIMARY_KEY_NAME;
  FkCatalog.parent_nullable := []; FkCatalog.parent_is_pk := 1; FkCatalog.on_delete := 1; FkCatalog.on_update := 1 |}.

Definition kid_info : table_info := info (bs "k") None.
Definition top_info : table_info := info TDB_PRIMARY_KEY_NAME (Some 0%nat).
Definition kid_side : tdb_fk_def := child_side kid_info (fk_entry (bs "k")).
Definition top_side (index : bytes) : tdb_fk_def := parent_side top_info (fk_entry index).

(** The child holds one row that refers to the row 7 of the parent, under the row id 1. *)
Definition hid1 : bytes := RowFormat.encode_be64 1.
Definition family : store -> store := fun d =>
  <[bs "c" := {[RowFormat.build_data_key hid1 := ex_serialize r7]}]>
  (<[bs "c__idx_k" := {[index_key kid_table 0 r7 ++ hid1 := tdb_empty_val]}]> d).

Definition parent_at (rows : gmap bytes record) : other := {| o_share := ex_table; o_key := 0; o_rows := rows |}.
Definition kid : other := {| o_share := kid_table; o_key := 0; o_rows := {[hid1 := r7]} |}.

Definition rows78 : gmap bytes record := <[pk_at 8 := r8]> {[pk_at 7 := r7]}.
Definition store78 : store := apply_writes (stores (pk_at 8) r8) store7.
Definition ex_stored (r : record) (b : bytes) : Prop := b = ex_serialize r.

Lemma parent_held : rows_ok ex_table ex_fields rows78 /\ data_rep ex_table ex_stored rows78 (family store78).
Proof.
  destruct (ex_rep_insert (fun _ => True) {[pk_at 7 := r7]} store7 (pk_at 8) r8) as (Hro & _ & Hd & _);
    [apply store7_rep|apply r8_good|done|by vm_compute|].
  split; [done|]. intros pk. specialize (Hd pk). unfold db_get in *. unfold family.
  by rewrite !lookup_insert_ne by done.
Qed.

Definition lib (d : store) (fates : list fate) : mem_db := {| mem := d; buf := []; script := fates |}.

Definition insert (r : record) (d : store) : reply ha_code :=
  (fk_check_child (E := mem_db) kid_info junk9 {| fk_loaded := true; fk_child := [kid_side]; fk_parent := [] |} false false (Some tt) r
     (lib d [])).2.

Definition delete_parent (index : bytes) (r : record) (d : store) (fates : list fate) : reply ha_code :=
  (fk_enforce_parent_delete (E := mem_db) top_info (fun _ _ v => v) [] 0
     {| fk_loaded := true; fk_child := []; fk_parent := [top_side index] |} false (Some tt) r (lib d fates)).2.

Lemma answers :
  insert r8 (family store78) = Ret HA_OK /\ insert r8 (family store7) = Ret (HA_SERVER HA_ERR_NO_REFERENCED_ROW) /\
  delete_parent (bs "k") r8 (family store78) [] = Ret HA_OK /\
  delete_parent (bs "k") r7 (family store78) [] = Ret (HA_SERVER HA_ERR_ROW_IS_REFERENCED).
Proof. split_and!; vm_compute; reflexivity. Qed.

(** ** Deletes that leave orphans *)

(** The child's index entry for a row 7 whose own primary key is [pk]. *)
Definition kid_entry (pk : bytes) : store := {[bs "c__idx_k" := {[index_key kid_table 0 r7 ++ pk := tdb_empty_val]}]}.

(** The row 7 is deleted though a child row refers to it: when the index over the referring columns is
    the child's primary key, which has no family of its own; when the child row's key begins with the
    byte [0xff], above the probe's upper bound; and when the probe's iterator cannot be opened or its key
    cannot be read. *)
Lemma referenced_row_deleted :
  delete_parent TDB_PRIMARY_KEY_NAME r7 {[bs "c" := {[RowFormat.build_data_key (index_key ex_table 0 r7) := ex_serialize r7]}]} [] = Ret HA_OK /\
  delete_parent (bs "k") r7 (kid_entry [254; 0; 0; 1]) [] = Ret (HA_SERVER HA_ERR_ROW_IS_REFERENCED) /\
  delete_parent (bs "k") r7 (kid_entry [255; 0; 0; 1]) [] = Ret HA_OK /\
  delete_parent (bs "k") r7 (kid_entry [254; 0; 0; 1]) [fails] = Ret HA_OK /\
  delete_parent (bs "k") r7 (kid_entry [254; 0; 0; 1]) [works; works; fails] = Ret HA_OK.
Proof. split_and!; vm_compute; reflexivity. Qed.

(** ** An update that leaves an orphan *)

(** Now the reference goes to the nullable column [a], unique in the parent. *)
Definition key_up : KEY := {| key_part := [part col_a 2 false]; is_spatial_index := false |}.
Definition info_a : table_info := {|
  names := {| FkCatalog.field_names := [bs "id"; bs "a"; bs "b"; bs "t"];
              FkCatalog.table_keys := [{| FkCatalog.key_name := bs "a"; FkCatalog.key_parts := [bs "a"] |}] |};
  fields := ex_fields; keys := [key_up]; primary_key := None |}.
Definition fk_entry_a : FkCatalog.fk_catalog_entry := {|
  FkCatalog.name := bs "fk"; FkCatalog.child_cf := bs "c"; FkCatalog.child_db := bs "db"; FkCatalog.child_table := bs "c";
  FkCatalog.child_columns := [bs "a"]; FkCatalog.child_nullable := [1]; FkCatalog.ref_db := bs "db";
  FkCatalog.ref_table := bs "t"; FkCatalog.parent_cf := bs "d"; FkCatalog.ref_columns := [bs "a"];
  FkCatalog.child_index_name := bs "k"; FkCatalog.parent_index_name := bs "a";
  FkCatalog.parent_nullable := [1]; FkCatalog.parent_is_pk := 0; FkCatalog.on_delete := 1; FkCatalog.on_update := 1 |}.

(** A row whose [a] is 0, the same with 1, and with NULL: the server leaves a column's default bytes under a null. *)
Definition a_zero : record := ex_row 7 0 120 121.
Definition a_one : record := ex_row 7 1 120 121.
Definition a_null : record := {| nulls := [1]; slots := slots a_zero |}.
Definition refers_to_zero : store :=
  {[bs "c__idx_k" := {[make_comparable_key key_up a_zero 1 (fun _ => 0) None ++ hid1 := tdb_empty_val]}]}.

Definition update_parent (r r' : record) (d : store) : reply ha_code :=
  (fk_enforce_parent_update (E := mem_db) info_a (fun _ _ v => v) [] 0
     {| fk_loaded := true; fk_child := []; fk_parent := [parent_side info_a fk_entry_a] |} false (Some tt) r r' (lib d [])).2.

(** With a child row that refers to 0 the parent's row cannot be given another number, but it can be given NULL. *)
Lemma nulled_parent_accepted :
  update_parent a_zero a_one refers_to_zero = Ret (HA_SERVER HA_ERR_ROW_IS_REFERENCED) /\
  update_parent a_zero a_null refers_to_zero = Ret HA_OK /\
  is_null col_a a_null = true /\ update_parent a_zero a_one {[bs "c__idx_k" := ∅]} = Ret HA_OK.
Proof. split_and!; vm_compute; reflexivity. Qed.

(** ** Witnesses *)

Lemma key_id_plain : plain_part (part col_id 4 false).
Proof. by repeat split; vm_compute. Qed.

Lemma ids_paired : paired [part col_id 4 false] [part col_id 4 false].
Proof. constructor; [|constructor]. split; [apply key_id_plain|]. split; [apply key_id_plain|done]. Qed.

Lemma ex_child_ok : child_ok (RowServices0 := svc) ex_fields ex_stored kid_info (family store78) (family store78) kid_side (parent_at rows78).
Proof.
  destruct parent_held as [Hro Hd]. split.
  - vm_compute. discriminate.
  - constructor; [done|constructor].
  - apply ids_paired.
  - done.
  - exact Hro.
  - cbn. split_and!; [vm_compute; eauto|done|done|done|vm_compute; lia|exact Hd].
Qed.

Lemma child_check_exact_witness : satisfied kid_info kid_side (parent_at rows78) r8.
Proof.
  pose proof (child_check_exact (E := mem_db) (RowServices0 := svc) ex_fields ex_stored kid_info junk9 tt (family store78) []
    {| fk_loaded := true; fk_child := [kid_side]; fk_parent := [] |} (fun _ => parent_at rows78) r8) as H.
  assert (Hok : forall c, c ∈ [kid_side] -> child_ok (RowServices0 := svc) ex_fields ex_stored kid_info (family store78) (family store78) c (parent_at rows78)).
  { intros c ->%list_elem_of_singleton. apply ex_child_ok. }
  pose proof (spec_run _ _ _ _ (lib (family store78) []) HA_OK (H Hok)
    (conj (conj eq_refl eq_refl) (Forall_nil_2 _)) ltac:(vm_compute; reflexivity)) as (_ & Ha & _).
  apply (proj1 Ha eq_refl). by left.
Defined.

Lemma kid_entries : holds_entries (bs "c__idx_k") (entries (RowServices0 := svc) kid_table 0) {[hid1 := r7]} (family store78).
Proof.
  intros k x. unfold db_get, family. rewrite lookup_insert_ne by done. rewrite lookup_insert_eq. simpl.
  rewrite lookup_singleton_Some. split.
  - intros [<- <-]. exists hid1, r7. split; [apply lookup_singleton_eq|by left].
  - intros (pk & r & [<- <-]%lookup_singleton_Some & Hin). change (entries kid_table 0 r7 hid1) with
      [(index_key kid_table 0 r7 ++ hid1, tdb_empty_val)] in Hin. apply list_elem_of_singleton in Hin. by simplify_eq.
Qed.

Lemma ex_parent_ok : parent_ok (RowServices0 := svc) top_info (family store78) (family store78) (top_side (bs "k")) kid.
Proof.
  split.
  - vm_compute. discriminate.
  - apply ids_paired.
  - done.
  - cbn. split_and!; [vm_compute; eauto|done|apply kid_entries|].
    intros k y b. unfold db_get, family. rewrite lookup_insert_ne by done. rewrite lookup_insert_eq. simpl.
    intros [<- <-]%lookup_singleton_Some. vm_compute. intros [= <-]. done.
Qed.

Lemma ex_joined : joined kid_info top_info kid_side (top_side (bs "k")) kid (parent_at rows78).
Proof. split; reflexivity. Qed.

Lemma ex_integrity : integrity kid_info kid_side kid (parent_at rows78).
Proof.
  intros pk r Hr _. cbn [o_rows kid] in Hr. apply lookup_singleton_Some in Hr as [<- <-]. exists (pk_at 7), r7. split; [by vm_compute|]. split; [repeat constructor|].
  constructor; [done|constructor].
Qed.

Lemma parent_delete_keeps_references_witness :
  integrity kid_info kid_side kid (with_rows (delete (pk_at 8) rows78) (parent_at rows78)).
Proof.
  pose proof (parent_delete_keeps_references (E := mem_db) (RowServices0 := svc) kid_info top_info (fun _ _ v => v) [] 0 tt
    (family store78) [] {| fk_loaded := true; fk_child := []; fk_parent := [top_side (bs "k")] |} (fun _ => kid) kid_side
    (top_side (bs "k")) (parent_at rows78) (pk_at 8) r8) as H.
  assert (Hok : forall c, c ∈ [top_side (bs "k")] -> parent_ok (RowServices0 := svc) top_info (family store78) (family store78) c kid /\
    cascades (on_delete c) = false) by (intros c ->%list_elem_of_singleton; split; [apply ex_parent_ok|done]).
  assert (Hr : o_rows (parent_at rows78) !! pk_at 8 = Some r8) by (by vm_compute).
  pose proof (spec_run _ _ _ _ (lib (family store78) []) HA_OK (H Hok ltac:(by left) ex_joined ex_integrity Hr)
    (conj (conj eq_refl eq_refl) (Forall_nil_2 _)) ltac:(vm_compute; reflexivity)) as (_ & _ & Hi).
  exact (Hi eq_refl).
Defined.

End FkExample.
