(* ===== verification/FkSource.v ===== *)
(** * Foreign keys as the server describes them ([ha_tidesdb_fk_source_dd.cc])

    The translation of the dictionary's constraints into those the catalog is built from. *)
From S2P Require Import Prelude FkCatalog Table KeyCodec Dml CursorDb FkRows.
#[local] Open Scope Z_scope.

Module FkSource.

(** The dictionary's rules, in its order. *)
Inductive enum_rule := RULE_NO_ACTION | RULE_RESTRICT | RULE_CASCADE | RULE_SET_NULL | RULE_SET_DEFAULT.

(** The parser's numbers, which the catalog stores. *)
Definition FK_OPTION_RESTRICT : Z := 1.
Definition FK_OPTION_NO_ACTION : Z := 4.
Definition FK_OPTION_DEFAULT : Z := 5.

Definition tdb_rule_to_fk_option (r : enum_rule) : Z :=
  match r with
  | RULE_RESTRICT => FK_OPTION_RESTRICT
  | RULE_CASCADE => FkRows.FK_OPTION_CASCADE
  | RULE_SET_NULL => FkRows.FK_OPTION_SET_NULL
  | RULE_SET_DEFAULT => FK_OPTION_DEFAULT
  | RULE_NO_ACTION => FK_OPTION_NO_ACTION
  end.

(** A constraint of the dictionary; the column pairs are in its declared order. *)
Record foreign_key_info := {
  fk_name : bytes;
  delete_rule : enum_rule;
  update_rule : enum_rule;
  referenced_table_db : bytes;
  referenced_table_name : bytes;
  column_pairs : list (bytes * bytes);
  unique_constraint_name : bytes }.

Definition spec_of (fk : foreign_key_info) : FkRows.tdb_fk_spec := {|
  FkRows.spec_name := fk_name fk;
  FkRows.spec_ref_db := referenced_table_db fk;
  FkRows.spec_ref_table := referenced_table_name fk;
  FkRows.spec_child_columns := map fst (column_pairs fk);
  FkRows.spec_ref_columns := map snd (column_pairs fk);
  FkRows.spec_parent_index_name := unique_constraint_name fk;
  FkRows.spec_on_delete := tdb_rule_to_fk_option (delete_rule fk);
  FkRows.spec_on_update := tdb_rule_to_fk_option (update_rule fk) |}.

Definition tdb_fk_extract_specs (s : option (list foreign_key_info)) : list FkRows.tdb_fk_spec :=
  match s with None => [] | Some fks => map spec_of fks end.

(** A rule survives as the action the row operations act on: only CASCADE cascades, only SET NULL sets nulls,
    and no two rules are stored alike. *)
Lemma rule_actions r :
  (tdb_rule_to_fk_option r = FkRows.FK_OPTION_CASCADE <-> r = RULE_CASCADE) /\
  (tdb_rule_to_fk_option r = FkRows.FK_OPTION_SET_NULL <-> r = RULE_SET_NULL).
Proof. by destruct r. Qed.

Lemma rule_injective r r' : tdb_rule_to_fk_option r = tdb_rule_to_fk_option r' -> r = r'.
Proof. by destruct r, r'. Qed.

(** Child and parent columns stay paired. *)
Lemma extracted_columns_paired fk :
  zip (FkRows.spec_child_columns (spec_of fk)) (FkRows.spec_ref_columns (spec_of fk)) = column_pairs fk.
Proof. simpl. induction (column_pairs fk) as [|[c r] l IH]; simpl; [done|by rewrite IH]. Qed.

End FkSource.
