(* ===== verification/Scan.v ===== *)
(** * Reading rows ([ha_tidesdb_read.cc], [ha_tidesdb_scan.cc], [ha_tidesdb_index.cc])

    Point reads, the table scan, the ordered index scan in both directions, the spatial scan and the
    batch of point lookups.  A computation runs on the handler of [Dml] extended by the scan's own
    members; [scan_iter] of that handler says whether the cached iterator exists and [cached] which one
    it is.  A read returns its code and the record buffer it filled.  The copies that keep BLOB data
    alive have no counterpart, since a record here owns its values. *)
From stdpp Require Import sorting.
From S2P Require Import Prelude Effects TidesDb RowDb RowFormat FtsText Table KeyCodec Dml Spatial CursorDb.
Import Table KeyCodec Dml.
#[local] Open Scope Z_scope.
#[local] Open Scope tdb_scope.

(** What reads call outside this component: the row codec ([Row], [RowCrypt]), which fills a buffer
    from a stored row, and the server's evaluator of a pushed index condition. *)
Class RowReader (E : Type) := {
  deserialize_row : bytes -> record -> M E record;
  index_cond_check : record -> icp_result }.

Module Scan.

(** The codes of a read; [HA_CODE] carries the codes of [Dml]. *)
Inductive read_code :=
  | FOUND | HA_ERR_KEY_NOT_FOUND | HA_ERR_END_OF_FILE | HA_ERR_QUERY_INTERRUPTED | HA_CODE (c : ha_code).

#[export] Instance read_code_eq_dec : EqDecision read_code.
Proof. solve_decision. Defined.

Inductive ha_rkey_function :=
  | HA_READ_KEY_EXACT | HA_READ_KEY_OR_NEXT | HA_READ_KEY_OR_PREV | HA_READ_AFTER_KEY | HA_READ_BEFORE_KEY
  | HA_READ_PREFIX | HA_READ_PREFIX_LAST | HA_READ_PREFIX_LAST_OR_PREV | HA_READ_MBR_CONTAIN
  | HA_READ_MBR_INTERSECT | HA_READ_MBR_WITHIN | HA_READ_MBR_DISJOINT | HA_READ_MBR_EQUAL.

#[export] Instance find_flag_eq_dec : EqDecision ha_rkey_function.
Proof. solve_decision. Defined.

Inductive scan_dir_t := DIR_NONE | DIR_FORWARD | DIR_BACKWARD.

#[export] Instance scan_dir_eq_dec : EqDecision scan_dir_t.
Proof. solve_decision. Defined.

(** The cached iterator and what it was created for. *)
Record iter_cache (I txn : Type) := {
  cached : option I;
  scan_iter_cf_ : option bytes;
  scan_iter_txn_ : option txn;
  scan_iter_txn_gen_ : Z }.
Arguments cached {I txn}.
Arguments scan_iter_cf_ {I txn}.
Arguments scan_iter_txn_ {I txn}.
Arguments scan_iter_txn_gen_ {I txn}.

(** The index scan's position; the bounds of [scan_range_] are read only when they are valid. *)
Record scan_state (txn : Type) := {
  scan_cf_ : option bytes;
  scan_range_ : option (bytes * bytes);
  idx_pk_exact_done_ : bool;
  scan_dir_ : scan_dir_t;
  idx_search_comp_ : bytes;
  pk_partial_exact_active_ : bool;
  active_index : nat;
  is_pk_ : bool;
  scan_iter_last_err_ : option (ha_code * option bytes * option txn) }.
Arguments scan_cf_ {txn}.
Arguments scan_range_ {txn}.
Arguments idx_pk_exact_done_ {txn}.
Arguments scan_dir_ {txn}.
Arguments idx_search_comp_ {txn}.
Arguments pk_partial_exact_active_ {txn}.
Arguments active_index {txn}.
Arguments is_pk_ {txn}.
Arguments scan_iter_last_err_ {txn}.

Record spatial_state := {
  spatial_scan_active_ : bool;
  spatial_mode_ : ha_rkey_function;
  spatial_qmbr_ : Spatial.mbr_t;
  spatial_ranges_ : list (Z * Z);
  spatial_range_idx_ : nat }.

(** A range of the batch: its comparable key and the caller's tag. *)
Record mrr_state := {
  mrr_custom_active_ : bool;
  mrr_no_assoc_ : bool;
  mrr_keyno_ : nat;
  mrr_entries_ : list (bytes * Z);
  mrr_next_idx_ : nat }.

Record scanner (E txn I : Type) := {
  base : handler E txn;
  icache : iter_cache I txn;
  st : scan_state txn;
  spat : spatial_state;
  mrr : mrr_state;
  keyread_only_ : bool }.
Arguments base {E txn I}.
Arguments icache {E txn I}.
Arguments st {E txn I}.
Arguments spat {E txn I}.
Arguments mrr {E txn I}.
Arguments keyread_only_ {E txn I}.

(** What the statement fixes: the columns it reads, whether it was killed, the pushed index condition. *)
Record statement := { read_set : list nat; killed : bool; pushed_idx_cond_keyno : option nat }.

Section code.
Context {E txn : Type} `{!TidesDb E txn, !RowDb E txn, !RowServices E txn, !CursorDb E txn, !RowReader E}.
Context {SF : ServerField} `{!EqDecision txn}.
Context (sh : share) (stm : statement) (junk : memory).
Local Open Scope eff_scope.

#[local] Abbreviation hdl := (handler E txn).
#[local] Abbreviation sc := (scanner E txn (iter E)).

(** ** Field updates *)

Definition set_base (h : hdl) (s : sc) : sc :=
  {| base := h; icache := icache s; st := st s; spat := spat s; mrr := mrr s; keyread_only_ := keyread_only_ s |}.
Definition set_cache (c : iter_cache (iter E) txn) (s : sc) : sc :=
  {| base := base s; icache := c; st := st s; spat := spat s; mrr := mrr s; keyread_only_ := keyread_only_ s |}.
Definition set_st (x : scan_state txn) (s : sc) : sc :=
  {| base := base s; icache := icache s; st := x; spat := spat s; mrr := mrr s; keyread_only_ := keyread_only_ s |}.
Definition set_spat (x : spatial_state) (s : sc) : sc :=
  {| base := base s; icache := icache s; st := st s; spat := x; mrr := mrr s; keyread_only_ := keyread_only_ s |}.
Definition set_mrr (x : mrr_state) (s : sc) : sc :=
  {| base := base s; icache := icache s; st := st s; spat := spat s; mrr := x; keyread_only_ := keyread_only_ s |}.

Definition set_iter_flag (b : bool) (h : hdl) : hdl :=
  {| lib := lib h; stmt_txn := stmt_txn h; stmt_txn_dirty := stmt_txn_dirty h; cached_trx_ := cached_trx_ h;
     scan_txn := scan_txn h; scan_iter := b; current_pk := current_pk h; dup_key_no_ := dup_key_no_ h;
     dup_ref := dup_ref h; mod_table_noted_generation_ := mod_table_noted_generation_ h;
     next_row_id := next_row_id h; auto_inc_val := auto_inc_val h; bulk_of := bulk_of h |}.
Definition set_scan_txn (t : option txn) (h : hdl) : hdl :=
  {| lib := lib h; stmt_txn := stmt_txn h; stmt_txn_dirty := stmt_txn_dirty h; cached_trx_ := cached_trx_ h;
     scan_txn := t; scan_iter := scan_iter h; current_pk := current_pk h; dup_key_no_ := dup_key_no_ h;
     dup_ref := dup_ref h; mod_table_noted_generation_ := mod_table_noted_generation_ h;
     next_row_id := next_row_id h; auto_inc_val := auto_inc_val h; bulk_of := bulk_of h |}.

Definition on_base {A} (m : M hdl A) : M sc A := lift base set_base m.
Definition on_db {A} (m : M E A) : M sc A := on_base (on_lib m).

Definition set_dir (d : scan_dir_t) (x : scan_state txn) : scan_state txn :=
  {| scan_cf_ := scan_cf_ x; scan_range_ := scan_range_ x; idx_pk_exact_done_ := idx_pk_exact_done_ x; scan_dir_ := d;
     idx_search_comp_ := idx_search_comp_ x; pk_partial_exact_active_ := pk_partial_exact_active_ x;
     active_index := active_index x; is_pk_ := is_pk_ x; scan_iter_last_err_ := scan_iter_last_err_ x |}.
Definition set_range (r : option (bytes * bytes)) (x : scan_state txn) : scan_state txn :=
  {| scan_cf_ := scan_cf_ x; scan_range_ := r; idx_pk_exact_done_ := idx_pk_exact_done_ x; scan_dir_ := scan_dir_ x;
     idx_search_comp_ := idx_search_comp_ x; pk_partial_exact_active_ := pk_partial_exact_active_ x;
     active_index := active_index x; is_pk_ := is_pk_ x; scan_iter_last_err_ := scan_iter_last_err_ x |}.
Definition set_exact_done (b : bool) (x : scan_state txn) : scan_state txn :=
  {| scan_cf_ := scan_cf_ x; scan_range_ := scan_range_ x; idx_pk_exact_done_ := b; scan_dir_ := scan_dir_ x;
     idx_search_comp_ := idx_search_comp_ x; pk_partial_exact_active_ := pk_partial_exact_active_ x;
     active_index := active_index x; is_pk_ := is_pk_ x; scan_iter_last_err_ := scan_iter_last_err_ x |}.
Definition set_search (comp : bytes) (partial : bool) (x : scan_state txn) : scan_state txn :=
  {| scan_cf_ := scan_cf_ x; scan_range_ := scan_range_ x; idx_pk_exact_done_ := idx_pk_exact_done_ x;
     scan_dir_ := scan_dir_ x; idx_search_comp_ := comp; pk_partial_exact_active_ := partial;
     active_index := active_index x; is_pk_ := is_pk_ x; scan_iter_last_err_ := scan_iter_last_err_ x |}.
Definition set_scan_cf (c : option bytes) (x : scan_state txn) : scan_state txn :=
  {| scan_cf_ := c; scan_range_ := scan_range_ x; idx_pk_exact_done_ := idx_pk_exact_done_ x; scan_dir_ := scan_dir_ x;
     idx_search_comp_ := idx_search_comp_ x; pk_partial_exact_active_ := pk_partial_exact_active_ x;
     active_index := active_index x; is_pk_ := is_pk_ x; scan_iter_last_err_ := scan_iter_last_err_ x |}.
Definition set_last_err (e : option (ha_code * option bytes * option txn)) (x : scan_state txn) : scan_state txn :=
  {| scan_cf_ := scan_cf_ x; scan_range_ := scan_range_ x; idx_pk_exact_done_ := idx_pk_exact_done_ x;
     scan_dir_ := scan_dir_ x; idx_search_comp_ := idx_search_comp_ x;
     pk_partial_exact_active_ := pk_partial_exact_active_ x; active_index := active_index x; is_pk_ := is_pk_ x;
     scan_iter_last_err_ := e |}.
(** [index_init]: a scan of index [i] begins. *)
Definition begin_index (i : nat) (pk : bool) (x : scan_state txn) : scan_state txn :=
  {| scan_cf_ := scan_cf_ x; scan_range_ := None; idx_pk_exact_done_ := false; scan_dir_ := DIR_NONE;
     idx_search_comp_ := idx_search_comp_ x; pk_partial_exact_active_ := pk_partial_exact_active_ x;
     active_index := i; is_pk_ := pk; scan_iter_last_err_ := scan_iter_last_err_ x |}.
Definition end_index (x : scan_state txn) : scan_state txn :=
  {| scan_cf_ := scan_cf_ x; scan_range_ := None; idx_pk_exact_done_ := idx_pk_exact_done_ x; scan_dir_ := scan_dir_ x;
     idx_search_comp_ := idx_search_comp_ x; pk_partial_exact_active_ := false;
     active_index := MAX_KEY; is_pk_ := is_pk_ x; scan_iter_last_err_ := scan_iter_last_err_ x |}.

Definition map_st (f : scan_state txn -> scan_state txn) (s : sc) : sc := set_st (f (st s)) s.
Definition direct (d : scan_dir_t) : M sc unit := modify (map_st (set_dir d)).

Definition set_active (b : bool) (x : spatial_state) : spatial_state :=
  {| spatial_scan_active_ := b; spatial_mode_ := spatial_mode_ x; spatial_qmbr_ := spatial_qmbr_ x;
     spatial_ranges_ := spatial_ranges_ x; spatial_range_idx_ := spatial_range_idx_ x |}.
Definition set_range_idx (i : nat) (x : spatial_state) : spatial_state :=
  {| spatial_scan_active_ := spatial_scan_active_ x; spatial_mode_ := spatial_mode_ x; spatial_qmbr_ := spatial_qmbr_ x;
     spatial_ranges_ := spatial_ranges_ x; spatial_range_idx_ := i |}.

(** ** The cached iterator *)

Definition cur (s : sc) : option (iter E) := if scan_iter (base s) then cached (icache s) else None.
Definition cur_entry (s : sc) : option entry := it ← cur s; here it.

Definition generation (s : sc) : Z := from_option txn_generation 0 (cached_trx_ (base s)).

Definition put_iter (it : iter E) (s : sc) : sc :=
  set_cache {| cached := Some it; scan_iter_cf_ := scan_iter_cf_ (icache s); scan_iter_txn_ := scan_iter_txn_ (icache s);
               scan_iter_txn_gen_ := scan_iter_txn_gen_ (icache s) |} s.

(** A new iterator and what it is for. *)
Definition keep_iter (it : iter E) (c : option bytes) (s : sc) : sc :=
  set_base (set_iter_flag true (base s))
    (set_cache {| cached := Some it; scan_iter_cf_ := c; scan_iter_txn_ := scan_txn (base s);
                  scan_iter_txn_gen_ := generation s |} s).

(** [tidesdb_iter_free] and the reset of the cache. *)
Definition free_iter (forget : bool) : M sc unit :=
  it <-- gets cur;
  match it with
  | None => ret tt
  | Some it =>
      on_db (iter_free it);;
      modify (fun s =>
        set_base (set_iter_flag false (base s))
          (set_cache {| cached := None; scan_iter_cf_ := if forget then None else scan_iter_cf_ (icache s);
                        scan_iter_txn_ := if forget then None else scan_iter_txn_ (icache s);
                        scan_iter_txn_gen_ := scan_iter_txn_gen_ (icache s) |} s))
  end.

(** Another iterator than the one in the cache is needed: of another family, transaction or
    generation. *)
Definition stale_iter (target_cf : bytes) (s : sc) : bool :=
  bool_decide (is_Some (cur s)) &&
  (negb (bool_decide (scan_iter_cf_ (icache s) = Some target_cf)) ||
   negb (bool_decide (scan_iter_txn_ (icache s) = scan_txn (base s))) ||
   negb (scan_iter_txn_gen_ (icache s) =? generation s)).

Definition drop_stale_iter (target_cf : bytes) : M sc unit :=
  b <-- gets (stale_iter target_cf);
  if b : bool then free_iter true else ret tt.

Definition move (op : iter_op) : M sc unit :=
  it <-- gets cur;
  match it with
  | None => ret tt
  | Some it => it <-- on_db (iter_move op it); modify (put_iter it)
  end.

(** [tidesdb_iter_key] and [tidesdb_iter_value]. *)
Definition read_entry : M sc (option entry) :=
  it <-- gets cur;
  match it with
  | None => ret None
  | Some it => r <-- on_db (iter_read it); ret (match r with inr x => Some x | inl _ => None end)
  end.

(** [tidesdb_iter_key] alone. *)
Definition read_key : M sc (option bytes) :=
  it <-- gets cur;
  match it with
  | None => ret None
  | Some it => r <-- on_db (iter_key it); ret (match r with inr k => Some k | inl _ => None end)
  end.

(** The rounds a loop can make: each one leaves an entry behind. *)
Definition rounds (s : sc) : nat := S (from_option (fun it => length (walks it)) 0%nat (cur s)).

Definition new_iter : M sc ha_code :=
  s <-- gets id;
  let failed (e : ha_code) := modify (map_st (set_last_err (Some (e, scan_cf_ (st s), scan_txn (base s)))));; ret e in
  match scan_txn (base s), scan_cf_ (st s) with
  | Some t, Some c =>
      r <-- on_db (iter_new t c (scan_range_ (st s)));
      match r with
      | inr it => modify (keep_iter it (Some c));; modify (map_st (set_last_err None));; ret HA_OK
      | inl rc => failed (tdb_rc_to_ha rc)
      end
  | _, _ => failed HA_ERR_GENERIC
  end.

Definition ensure_scan_iter : M sc ha_code :=
  s <-- gets id;
  if bool_decide (is_Some (cur s)) then ret HA_OK
  else
    match scan_iter_last_err_ (st s) with
    | Some (e, c, t) =>
        if bool_decide (c = scan_cf_ (st s)) && bool_decide (t = scan_txn (base s)) then ret e else new_iter
    | None => new_iter
    end.

(** ** Materialising a row ([ha_tidesdb_read.cc]) *)

Definition ha (c : ha_code) (buf : record) : M sc (read_code * record) := ret (HA_CODE c, buf).

Definition fetch_row_by_pk (t : option txn) (pk : bytes) (buf : record) : M sc (read_code * record) :=
  match t with
  | None => ha HA_ERR_GENERIC buf
  | Some t =>
      r <-- on_db (txn_get t (cf sh) (RowFormat.build_data_key pk));
      match r with
      | inl TDB_ERR_NOT_FOUND => ret (HA_ERR_KEY_NOT_FOUND, buf)
      | inl rc => ha (tdb_rc_to_ha rc) buf
      | inr value =>
          buf <-- on_db (deserialize_row value buf);
          on_base (modify (set_pk pk));;
          ret (FOUND, buf)
      end
  end.

Fixpoint iter_read_loop (fuel : nat) (buf : record) : M sc (read_code * record) :=
  match fuel with
  | O => ret (HA_ERR_END_OF_FILE, buf)
  | S fuel =>
      v <-- gets cur_entry;
      if bool_decide (v = None) then ret (HA_ERR_END_OF_FILE, buf)
      else
        r <-- read_entry;
        match r with
        | None => ret (HA_ERR_END_OF_FILE, buf)
        | Some (key, value) =>
            if negb (RowFormat.is_data_key key) then move Next;; iter_read_loop fuel buf
            else
              on_base (modify (set_pk (drop (Z.to_nat RowFormat.KEY_NAMESPACE_LEN) key)));;
              buf <-- on_db (deserialize_row value buf);
              ret (FOUND, buf)
        end
  end.

Definition iter_read_current (buf : record) : M sc (read_code * record) :=
  n <-- gets rounds; iter_read_loop n buf.

(** [if (ret == 0) scan_dir_ = d; return ret]. *)
Definition then_direct (d : scan_dir_t) (m : M sc (read_code * record)) : M sc (read_code * record) :=
  r <-- m;
  (if bool_decide (r.1 = FOUND) then direct d else ret tt);; ret r.

(** ** The table scan ([ha_tidesdb_scan.cc]) *)

Definition reset_dir_range (x : scan_state txn) : scan_state txn := set_range None (set_dir DIR_NONE x).

Definition rnd_init : M sc ha_code :=
  on_base (modify (set_pk []));;
  modify (map_st reset_dir_range);;
  erc <-- on_base ensure_stmt_txn;
  if negb (bool_decide (erc = HA_OK)) then ret erc
  else
    on_base (modify (fun h => set_scan_txn (stmt_txn h) h));;
    drop_stale_iter (cf sh);;
    s <-- gets id;
    irc <-- (if bool_decide (is_Some (cur s)) then ret HA_OK
             else match scan_txn (base s) with
                  | None => ret HA_ERR_GENERIC
                  | Some t =>
                      r <-- on_db (iter_new t (cf sh) None);
                      match r with
                      | inl rc => on_base (modify (set_scan_txn None));; ret (tdb_rc_to_ha rc)
                      | inr it => modify (keep_iter it (Some (cf sh)));; ret HA_OK
                      end
                  end);
    if negb (bool_decide (irc = HA_OK)) then ret irc
    else move (Seek [RowFormat.KEY_NS_DATA]);; ret HA_OK.

Definition rnd_end : M sc ha_code := on_base (modify (set_scan_txn None));; ret HA_OK.

Definition rnd_next (buf : record) : M sc (read_code * record) :=
  if killed stm then ret (HA_ERR_QUERY_INTERRUPTED, buf)
  else
    d <-- gets (fun s => scan_dir_ (st s));
    (if bool_decide (d = DIR_NONE) then ret tt else move Next);;
    then_direct DIR_FORWARD (iter_read_current buf).

(** [position]: the row id of a record. *)
Definition position (r : record) (s : sc) : bytes :=
  if has_user_pk (codec sh)
  then make_comparable_key (key_info_of sh (pk_index (codec sh))) r
         (length (key_part (key_info_of sh (pk_index (codec sh))))) junk None
  else current_pk (base s).

Definition rnd_pos (buf : record) (pos : bytes) : M sc (read_code * record) :=
  erc <-- on_base ensure_stmt_txn;
  if negb (bool_decide (erc = HA_OK)) then ha erc buf
  else t <-- gets (fun s => stmt_txn (base s)); fetch_row_by_pk t pos buf.

(** ** Opening and closing an index scan *)

Definition index_init (idx : nat) : M sc ha_code :=
  let pk := has_user_pk (codec sh) && bool_decide (idx = pk_index (codec sh)) in
  modify (map_st (begin_index idx pk));;
  modify (fun s => set_spat (set_active false (spat s)) s);;
  erc <-- on_base ensure_stmt_txn;
  if negb (bool_decide (erc = HA_OK)) then ret erc
  else
    on_base (modify (fun h => set_scan_txn (stmt_txn h) h));;
    match (if pk then Some (cf sh) else secondary sh idx) with
    | None =>
        on_base (modify (set_scan_txn None));; modify (map_st (set_scan_cf None));; ret HA_ERR_GENERIC
    | Some target_cf => modify (map_st (set_scan_cf (Some target_cf)));; drop_stale_iter target_cf;; ret HA_OK
    end.

Definition index_end : M sc ha_code :=
  on_base (modify (set_scan_txn None));;
  modify (map_st end_index);;
  modify (fun s => set_spat (set_active false (spat s)) s);;
  ret HA_OK.

(** ** Bounds of a range ([rir_encode_bounds]) *)

Definition KEY_INF_LO_BYTE : Z := 0x00.
Definition DATA_KEY_BUF_LEN : Z := 3072 + 2.

(** A bound of the server: the record its key restores to and the key's length. *)
Definition key_range := (record * Z)%type.

Definition comparable (idx : nat) (k : key_range) : bytes := key_copy_to_comparable (key_info_of sh idx) k.1 k.2 junk.

Definition comp_len (idx : nat) : Z := default 0 (idx_comp_key_len (codec sh) !! idx).

Definition encode_bound (idx : nat) (is_pk : bool) (k : key_range) : bytes :=
  if is_pk then RowFormat.build_data_key (comparable idx k) else comparable idx k.

Definition rir_encode_bounds (idx : nat) (is_pk : bool) (min_key max_key : option key_range) : bytes * bytes :=
  (match min_key with
   | Some k => encode_bound idx is_pk k
   | None => [if is_pk then RowFormat.KEY_NS_DATA else KEY_INF_LO_BYTE]
   end,
   match max_key with
   | Some k => encode_bound idx is_pk k
   | None =>
       let hi_len := if is_pk then RowFormat.KEY_NAMESPACE_LEN + ref_length sh else comp_len idx + ref_length sh in
       replicate (Z.to_nat (Z.min hi_len DATA_KEY_BUF_LEN)) KEY_INF_HI_BYTE
   end).

(** The part of [read_range_first] before the server's own [handler::read_range_first], which calls
    [index_read_map] or [index_first]. *)
Definition read_range_first_setup (start_key end_key : option key_range) : M sc unit :=
  s <-- gets id;
  (if bool_decide (is_Some (cur s)) then free_iter false;; modify (map_st (set_last_err None)) else ret tt);;
  let '(lo, hi) := rir_encode_bounds (active_index (st s)) (is_pk_ (st s)) start_key end_key in
  modify (map_st (set_range (if (0 <? zlen lo) && (0 <? zlen hi) then Some (lo, hi) else None))).

(** ** Index conditions and covering reads on the cursor's entry *)

(** [icp_check_secondary] of [KeyCodec] with the row fetch of this handler. *)
Definition icp_check (ik : bytes) (idx : nat) (buf : record) : M sc (icp_result * record) :=
  if negb (bool_decide (pushed_idx_cond_keyno stm = Some idx)) then ret (ICP_MATCH, buf)
  else
    let idx_col_len := comp_len idx in
    let '(decode_ok, _, buf) := icp_decode_key_parts (key_info_of sh idx) ik buf in
    let '(decode_ok, buf) :=
      if decode_ok && has_user_pk (codec sh) then
        let '(ok, _, buf) := icp_decode_key_parts (key_info_of sh (pk_index (codec sh)))
                               (drop (Z.to_nat idx_col_len) ik) buf in (ok, buf)
      else (decode_ok, buf) in
    if decode_ok then ret (index_cond_check buf, buf)
    else if idx_col_len <? zlen ik then
      t <-- gets (fun s => scan_txn (base s));
      r <-- fetch_row_by_pk t (drop (Z.to_nat idx_col_len) ik) buf;
      ret (if bool_decide (r.1 = FOUND) then index_cond_check r.2 else ICP_MATCH, r.2)
    else ret (ICP_MATCH, buf).

(** The row of an entry, from the entry itself when the statement reads only its columns. *)
Definition row_of_entry (ik : bytes) (idx : nat) (buf : record) : M sc (read_code * record) :=
  s <-- gets id;
  let '(covered, buf', pk) :=
    if keyread_only_ s then try_keyread_from_index (codec sh) (read_set stm) ik idx buf (current_pk (base s))
    else (false, buf, current_pk (base s)) in
  if covered : bool then on_base (modify (set_pk pk));; ret (FOUND, buf')
  else fetch_row_by_pk (scan_txn (base s)) (drop (Z.to_nat (comp_len idx)) ik) buf'.

(** The loop of the secondary index reads.  [inside] is the caller's check of the entry's key,
    [missing] the code of a scan that ran out, [step] its direction and [note] what the caller does to
    [scan_dir_] with the row's code. *)
Fixpoint secondary_loop (fuel : nat) (inside : bytes -> bool) (missing : read_code) (step : iter_op)
    (note : read_code -> M sc unit) (buf : record) : M sc (read_code * record) :=
  match fuel with
  | O => ret (missing, buf)
  | S fuel =>
      v <-- gets cur_entry;
      if bool_decide (v = None) then ret (missing, buf)
      else
        r <-- read_entry;
        match r with
        | None => ret (missing, buf)
        | Some (ik, _) =>
            idx <-- gets (fun s => active_index (st s));
            if negb (inside ik) then ret (missing, buf)
            else if zlen ik <=? comp_len idx then ret (missing, buf)
            else
              icp <-- icp_check ik idx buf;
              match icp with
              | (ICP_NO_MATCH, buf) => move step;; secondary_loop fuel inside missing step note buf
              | (ICP_OUT_OF_RANGE, buf) => ret (HA_ERR_END_OF_FILE, buf)
              | (ICP_MATCH, buf) =>
                  if killed stm then ret (HA_ERR_QUERY_INTERRUPTED, buf)
                  else
                    r <-- row_of_entry ik idx buf;
                    if bool_decide (r.1 = HA_ERR_KEY_NOT_FOUND)
                    then move step;; secondary_loop fuel inside missing step note r.2
                    else note r.1;; ret r
              end
        end
  end.

Definition secondary_scan (inside : bytes -> bool) (missing : read_code) (step : iter_op)
    (note : read_code -> M sc unit) (buf : record) : M sc (read_code * record) :=
  n <-- gets rounds; secondary_loop n inside missing step note buf.

Definition note_found (d : scan_dir_t) (c : read_code) : M sc unit :=
  if bool_decide (c = FOUND) then direct d else ret tt.
Definition note_always (d : scan_dir_t) (c : read_code) : M sc unit := direct d.
Definition note_never (c : read_code) : M sc unit := ret tt.

(** ** Positioned reads ([ha_tidesdb_index.cc]) *)

Definition is_backward (f : ha_rkey_function) : bool :=
  match f with
  | HA_READ_KEY_OR_PREV | HA_READ_BEFORE_KEY | HA_READ_PREFIX_LAST | HA_READ_PREFIX_LAST_OR_PREV => true
  | _ => false
  end.

Definition skip_if (p : bytes -> bool) (op : iter_op) : M sc unit :=
  v <-- gets cur_entry;
  if bool_decide (v = None) then ret tt
  else r <-- read_entry; match r with Some (k, _) => if p k then move op else ret tt | None => ret tt end.

(** Run the rest once the iterator exists. *)
Definition with_iter (buf : record) (m : M sc (read_code * record)) : M sc (read_code * record) :=
  irc <-- ensure_scan_iter;
  if negb (bool_decide (irc = HA_OK)) then ha irc buf else m.

Definition index_read_pk (comp : bytes) (find_flag : ha_rkey_function) (buf : record) : M sc (read_code * record) :=
  let seek_key := RowFormat.build_data_key comp in
  if bool_decide (find_flag = HA_READ_KEY_EXACT) then
    if comp_len (pk_index (codec sh)) <=? zlen comp then
      t <-- gets (fun s => scan_txn (base s));
      r <-- fetch_row_by_pk t comp buf;
      (if bool_decide (r.1 = FOUND) then modify (map_st (set_exact_done true)) else ret tt);; ret r
    else
      with_iter buf
        (move (Seek seek_key);;
         modify (map_st (set_search comp true));;
         then_direct DIR_FORWARD (iter_read_current buf))
  else
    with_iter buf
      (if is_backward find_flag then
         move (Seek_for_prev seek_key);;
         (if bool_decide (find_flag = HA_READ_BEFORE_KEY)
          then skip_if (fun k => bool_decide (k = seek_key)) Prev else ret tt);;
         then_direct DIR_BACKWARD (iter_read_current buf)
       else
         move (Seek seek_key);;
         (if bool_decide (find_flag = HA_READ_AFTER_KEY)
          then skip_if (fun k => bool_decide (k = seek_key)) Next else ret tt);;
         then_direct DIR_FORWARD (iter_read_current buf)).

Definition is_prefix (p k : bytes) : bool := bool_decide (take (length p) k = p).

Definition after_group (comp : bytes) : bytes := comp ++ replicate (Z.to_nat (ref_length sh)) KEY_INF_HI_BYTE.

Definition index_seek_secondary (comp : bytes) (find_flag : ha_rkey_function) : M sc unit :=
  if bool_decide (find_flag = HA_READ_AFTER_KEY) then move (Seek (after_group comp));; skip_if (is_prefix comp) Next
  else if is_backward find_flag then move (Seek_for_prev (after_group comp))
  else move (Seek comp).

Definition index_read_secondary (comp : bytes) (find_flag : ha_rkey_function) (buf : record) :
    M sc (read_code * record) :=
  with_iter buf
    (index_seek_secondary comp find_flag;;
     secondary_scan
       (fun ik => if bool_decide (find_flag = HA_READ_KEY_EXACT) then is_prefix comp ik else true)
       HA_ERR_KEY_NOT_FOUND (if is_backward find_flag then Prev else Next)
       (note_found (if is_backward find_flag then DIR_BACKWARD else DIR_FORWARD)) buf).

(** ** The spatial scan *)

Definition spatial_mbr_predicate (mode : ha_rkey_function) (query entry : Spatial.mbr_t) : bool :=
  Spatial.mbr_predicate
    (match mode with
     | HA_READ_MBR_INTERSECT => Spatial.intersect
     | HA_READ_MBR_CONTAIN => Spatial.contain
     | HA_READ_MBR_WITHIN => Spatial.within
     | HA_READ_MBR_EQUAL => Spatial.equal
     | HA_READ_MBR_DISJOINT => Spatial.disjoint
     | _ => Spatial.unsupported
     end) query entry.

(** One round of the inner loop: leave the range, step over the entry, or answer. *)
Inductive spatial_round := next_range | next_entry (buf : record) | answer (c : read_code) (buf : record).

Definition spatial_look (cur_hi : Z) (buf : record) : M sc spatial_round :=
  v <-- gets cur_entry;
  if bool_decide (v = None) then ret next_range
  else if killed stm then ret (answer HA_ERR_QUERY_INTERRUPTED buf)
  else
    r <-- read_entry;
    match r with
    | None => ret next_range
    | Some (ik, _) =>
        if zlen ik <=? Z.of_nat Spatial.HILBERT_KEY_LEN then ret (next_entry buf)
        else if cur_hi <? Spatial.decode_hilbert_be ik then ret next_range
        else
          s <-- gets id;
          vr <-- read_entry;
          match vr with
          | None => ret (next_entry buf)
          | Some (_, val) =>
              if (zlen val <? Z.of_nat Spatial.MBR_VALUE_LEN) ||
                 negb (spatial_mbr_predicate (spatial_mode_ (spat s)) (spatial_qmbr_ (spat s)) (Spatial.read_value val))
              then ret (next_entry buf)
              else
                r <-- fetch_row_by_pk (scan_txn (base s)) (drop Spatial.HILBERT_KEY_LEN ik) buf;
                if bool_decide (r.1 = HA_ERR_KEY_NOT_FOUND) then ret (next_entry r.2)
                else if negb (bool_decide (r.1 = FOUND)) then ret (answer r.1 r.2)
                else direct DIR_FORWARD;; ret (answer FOUND r.2)
          end
    end.

(** The two nested loops: a round either consumes an entry or moves to the next range. *)
Fixpoint spatial_loop (fuel : nat) (buf : record) : M sc (read_code * record) :=
  match fuel with
  | O => ret (HA_ERR_END_OF_FILE, buf)
  | S fuel =>
      s <-- gets id;
      match spatial_ranges_ (spat s) !! spatial_range_idx_ (spat s) with
      | None => ret (HA_ERR_END_OF_FILE, buf)
      | Some (_, cur_hi) =>
          r <-- spatial_look cur_hi buf;
          match r with
          | answer c buf => ret (c, buf)
          | next_entry buf => move Next;; spatial_loop fuel buf
          | next_range =>
              let i := S (spatial_range_idx_ (spat s)) in
              modify (fun s => set_spat (set_range_idx i (spat s)) s);;
              match spatial_ranges_ (spat s) !! i with
              | Some (lo, _) => move (Seek (Spatial.encode_hilbert_be lo))
              | None => ret tt
              end;;
              spatial_loop fuel buf
          end
      end
  end.

(** A seek to a later range may revisit entries of an earlier one, so each range may cost a whole
    pass. *)
Definition spatial_scan_next (buf : record) : M sc (read_code * record) :=
  n <-- gets (fun s => S (S (length (spatial_ranges_ (spat s))) * rounds s)%nat);
  spatial_loop n buf.

(** An assertion that fails ends the server. *)
Definition failed_assertion {A : Type} : M sc A := fun s => (s, Crash).

Definition index_read_spatial (key : bytes) (find_flag : ha_rkey_function) (buf : record) :
    M sc (read_code * record) :=
  let q := Spatial.parse_query_mbr key in
  modify (fun s => set_spat {| spatial_scan_active_ := true; spatial_mode_ := find_flag; spatial_qmbr_ := q;
                               spatial_ranges_ := spatial_ranges_ (spat s);
                               spatial_range_idx_ := spatial_range_idx_ (spat s) |} s);;
  with_iter buf
    (ranges <-- (if bool_decide (find_flag = HA_READ_MBR_DISJOINT)
                 then ret [(Spatial.RANGE_FULL_LO, Spatial.RANGE_FULL_HI)]
                 else match Spatial.query_ranges q with Some l => ret l | None => failed_assertion end);
     modify (fun s => set_spat {| spatial_scan_active_ := true; spatial_mode_ := find_flag; spatial_qmbr_ := q;
                                  spatial_ranges_ := ranges; spatial_range_idx_ := 0 |} s);;
     match ranges with
     | (lo, _) :: _ => move (Seek (Spatial.encode_hilbert_be lo))
     | [] => ret tt
     end;;
     spatial_scan_next buf).

Definition is_mbr_flag (f : ha_rkey_function) : bool :=
  match f with
  | HA_READ_MBR_CONTAIN | HA_READ_MBR_INTERSECT | HA_READ_MBR_WITHIN | HA_READ_MBR_DISJOINT | HA_READ_MBR_EQUAL => true
  | _ => false
  end.

(** [index_read_map]: the search key as the server hands it ([raw]) and what it restores to. *)
Definition index_read_map (raw : bytes) (key : key_range) (find_flag : ha_rkey_function) (buf : record) :
    M sc (read_code * record) :=
  idx <-- gets (fun s => active_index (st s));
  let comp := comparable idx key in
  modify (map_st (set_search comp false));;
  pk <-- gets (fun s => is_pk_ (st s));
  if pk : bool then index_read_pk comp find_flag buf
  else if is_spatial_index (key_info_of sh idx) && is_mbr_flag find_flag then index_read_spatial raw find_flag buf
  else index_read_secondary comp find_flag buf.

(** ** Walking *)

Definition index_next (buf : record) : M sc (read_code * record) :=
  if killed stm then ret (HA_ERR_QUERY_INTERRUPTED, buf)
  else
    s <-- gets id;
    if spatial_scan_active_ (spat s) then
      with_iter buf
        ((if bool_decide (scan_dir_ (st s) = DIR_NONE) then ret tt else move Next);; spatial_scan_next buf)
    else
      let walk :=
        if is_pk_ (st s) then
          r <-- iter_read_current buf;
          s <-- gets id;
          if bool_decide (r.1 = FOUND) && pk_partial_exact_active_ (st s) && (0 <? zlen (idx_search_comp_ (st s))) &&
             negb (is_prefix (idx_search_comp_ (st s)) (current_pk (base s)))
          then ret (HA_ERR_END_OF_FILE, r.2)
          else direct DIR_FORWARD;; ret r
        else secondary_scan (fun _ => true) HA_ERR_END_OF_FILE Next (note_always DIR_FORWARD) buf in
      if idx_pk_exact_done_ (st s) then
        modify (map_st (set_exact_done false));;
        with_iter buf
          (pk <-- gets (fun s => current_pk (base s));
           move (Seek (RowFormat.build_data_key pk));;
           v <-- gets cur_entry;
           (if bool_decide (v = None) then ret tt else move Next);; walk)
      else
        with_iter buf ((if bool_decide (scan_dir_ (st s) = DIR_NONE) then ret tt else move Next);; walk).

(** Step back over the keys that are not rows: [true] when a read failed. *)
Fixpoint skip_meta_back (fuel : nat) : M sc bool :=
  match fuel with
  | O => ret false
  | S fuel =>
      v <-- gets cur_entry;
      if bool_decide (v = None) then ret false
      else
        r <-- read_entry;
        match r with
        | None => ret true
        | Some (k, _) => if RowFormat.is_data_key k then ret false else move Prev;; skip_meta_back fuel
        end
  end.

Definition read_back (buf : record) : M sc (read_code * record) :=
  n <-- gets rounds;
  bad <-- skip_meta_back n;
  if bad : bool then ret (HA_ERR_END_OF_FILE, buf)
  else direct DIR_BACKWARD;; iter_read_current buf.

Definition index_prev (buf : record) : M sc (read_code * record) :=
  if killed stm then ret (HA_ERR_QUERY_INTERRUPTED, buf)
  else
    s <-- gets id;
    let walk :=
      move Prev;;
      if is_pk_ (st s) then read_back buf
      else secondary_scan (fun _ => true) HA_ERR_END_OF_FILE Prev (note_always DIR_BACKWARD) buf in
    if idx_pk_exact_done_ (st s) then
      modify (map_st (set_exact_done false));;
      with_iter buf
        (pk <-- gets (fun s => current_pk (base s)); move (Seek (RowFormat.build_data_key pk));; walk)
    else with_iter buf walk.

Definition index_first (buf : record) : M sc (read_code * record) :=
  modify (map_st (set_exact_done false));;
  with_iter buf
    (pk <-- gets (fun s => is_pk_ (st s));
     if pk : bool then
       move (Seek [RowFormat.KEY_NS_DATA]);; then_direct DIR_FORWARD (iter_read_current buf)
     else move Seek_to_first;; direct DIR_NONE;; index_next buf).

Definition SEC_IDX_KEY_BUF_LEN : Z := 3072 * 2 + 2.

Definition sentinel (n cap : Z) : bytes := replicate (Z.to_nat (Z.min n cap)) KEY_INF_HI_BYTE.

(** The loop of [index_last] on a secondary index, without index condition or covering read. *)
Fixpoint last_loop (fuel : nat) (buf : record) : M sc (read_code * record) :=
  match fuel with
  | O => ret (HA_ERR_END_OF_FILE, buf)
  | S fuel =>
      v <-- gets cur_entry;
      if bool_decide (v = None) then ret (HA_ERR_END_OF_FILE, buf)
      else
        r <-- read_entry;
        match r with
        | None => ret (HA_ERR_END_OF_FILE, buf)
        | Some (ik, _) =>
            s <-- gets id;
            let idx_key_len := comp_len (active_index (st s)) in
            if zlen ik <=? idx_key_len then ret (HA_ERR_END_OF_FILE, buf)
            else
              r <-- fetch_row_by_pk (scan_txn (base s)) (drop (Z.to_nat idx_key_len) ik) buf;
              if negb (bool_decide (r.1 = HA_ERR_KEY_NOT_FOUND)) then note_found DIR_BACKWARD r.1;; ret r
              else move Prev;; last_loop fuel r.2
        end
  end.

Definition index_last (buf : record) : M sc (read_code * record) :=
  modify (map_st (set_exact_done false));;
  with_iter buf
    (s <-- gets id;
     if is_pk_ (st s) then
       move (Seek_for_prev (RowFormat.KEY_NS_DATA ::
         sentinel (ref_length sh) (DATA_KEY_BUF_LEN - RowFormat.KEY_NAMESPACE_LEN)));;
       read_back buf
     else
       move (Seek_for_prev (sentinel (comp_len (active_index (st s)) + ref_length sh) SEC_IDX_KEY_BUF_LEN));;
       n <-- gets rounds; last_loop n buf).

Definition index_next_same (buf : record) : M sc (read_code * record) :=
  if killed stm then ret (HA_ERR_QUERY_INTERRUPTED, buf)
  else
    s <-- gets id;
    let no_iter := bool_decide (cur s = None) in
    let comp := idx_search_comp_ (st s) in
    let eof := ret (HA_ERR_END_OF_FILE, buf) in
    if spatial_scan_active_ (spat s) then
      if no_iter then eof else move Next;; spatial_scan_next buf
    else if is_pk_ (st s) then
      if comp_len (pk_index (codec sh)) <=? zlen comp then eof
      else if no_iter then eof
      else
        move Next;;
        v <-- gets cur_entry;
        if bool_decide (v = None) then eof
        else
          r <-- read_entry;
          match r with
          | None => eof
          | Some (ik, _) =>
              if (zlen ik <? RowFormat.KEY_NAMESPACE_LEN + zlen comp) ||
                 negb (is_prefix comp (drop (Z.to_nat RowFormat.KEY_NAMESPACE_LEN) ik)) then eof
              else then_direct DIR_FORWARD (iter_read_current buf)
          end
    else if no_iter then eof
    else move Next;; secondary_scan (is_prefix comp) HA_ERR_END_OF_FILE Next note_never buf.

(** ** Batches of point lookups *)

Definition MRR_ACCEPT_MIN_RANGES : Z := 2.

Record mrr_range := { unique_range : bool; null_range : bool; eq_range : bool; start_key : key_range; ptr : Z }.

(** [multi_range_read_info_const]: whether the engine takes the batch over. *)
Definition mrr_accepted (partitioned : bool) (ranges : list mrr_range) : bool :=
  negb partitioned && forallb (fun r => unique_range r && negb (null_range r) && eq_range r) ranges &&
  (MRR_ACCEPT_MIN_RANGES <=? zlen ranges).

Definition mrr_le (a b : bytes * Z) : Prop := bytes_le a.1 b.1.
#[export] Instance mrr_le_dec a b : Decision (mrr_le a b) := bytes_le_dec a.1 b.1.

(** [multi_range_read_init] of an accepted batch; the source leaves the order of equal keys open. *)
Definition multi_range_read_init (no_assoc : bool) (ranges : list mrr_range) (s : sc) : sc :=
  set_mrr {| mrr_custom_active_ := true; mrr_no_assoc_ := no_assoc; mrr_keyno_ := active_index (st s);
             mrr_entries_ := merge_sort mrr_le (map (fun r => (comparable (active_index (st s)) (start_key r), ptr r)) ranges);
             mrr_next_idx_ := 0 |} s.

Definition advance_mrr (x : mrr_state) : mrr_state :=
  {| mrr_custom_active_ := mrr_custom_active_ x; mrr_no_assoc_ := mrr_no_assoc_ x; mrr_keyno_ := mrr_keyno_ x;
     mrr_entries_ := mrr_entries_ x; mrr_next_idx_ := S (mrr_next_idx_ x) |}.

Definition unless_missing (r : read_code * record) : option read_code * record :=
  (if bool_decide (r.1 = HA_ERR_KEY_NOT_FOUND) then None else Some r.1, r.2).

(** One point of a batch on a secondary index; no code when it names no row. *)
Definition mrr_secondary (keyno : nat) (comp : bytes) (buf : record) : M sc (option read_code * record) :=
  match secondary sh keyno with
  | None => ret (None, buf)
  | Some c =>
      modify (map_st (set_scan_cf (Some c)));;
      irc <-- ensure_scan_iter;
      if negb (bool_decide (irc = HA_OK)) then ret (Some (HA_CODE irc), buf)
      else
        move (Seek comp);;
        v <-- gets cur_entry;
        if bool_decide (v = None) then ret (None, buf)
        else
          r <-- read_entry;
          match r with
          | None => ret (None, buf)
          | Some (ik, _) =>
              if negb (is_prefix comp ik) || (zlen ik <=? comp_len keyno) then ret (None, buf)
              else r <-- row_of_entry ik keyno buf; ret (unless_missing r)
          end
  end.

(** [multi_range_read_next] over the entries that are left; the tag of the point answered comes with
    the row. *)
Fixpoint mrr_loop (todo : list (bytes * Z)) (buf : record) : M sc (read_code * record * option Z) :=
  match todo with
  | [] => ret (HA_ERR_END_OF_FILE, buf, None)
  | (comp, ptr) :: todo =>
      modify (fun s => set_mrr (advance_mrr (mrr s)) s);;
      s <-- gets id;
      let keyno := mrr_keyno_ (mrr s) in
      r <-- (if has_user_pk (codec sh) && bool_decide (keyno = pk_index (codec sh))
             then r <-- fetch_row_by_pk (scan_txn (base s)) comp buf; ret (unless_missing r)
             else mrr_secondary keyno comp buf);
      match r with
      | (None, buf) => mrr_loop todo buf
      | (Some c, buf) => ret (c, buf, if mrr_no_assoc_ (mrr s) then None else Some ptr)
      end
  end.

Definition multi_range_read_next (buf : record) : M sc (read_code * record * option Z) :=
  if killed stm then ret (HA_ERR_QUERY_INTERRUPTED, buf, None)
  else
    erc <-- on_base ensure_stmt_txn;
    if negb (bool_decide (erc = HA_OK)) then ret (HA_CODE erc, buf, None)
    else
      on_base (modify (fun h => if bool_decide (scan_txn h = None) then set_scan_txn (stmt_txn h) h else h));;
      s <-- gets id;
      mrr_loop (drop (mrr_next_idx_ (mrr s)) (mrr_entries_ (mrr s))) buf.

End code.
End Scan.
