(* ===== verification/ScanSpec.v ===== *)
(** * Scans read the abstract table

    [rnd_init] and [rnd_next] return the rows of the represented table, each once and in the order of
    their primary keys; an equality read of a secondary index and its continuations return exactly the
    rows that carry the key; a scan of an index returns every row in index order; a row id leads back
    to its row.  A library that does not fail is assumed, since the code reports a failed read as the
    end of the scan ([ScanExample]).  The proofs follow the handler's own members symbolically: [at_ s0]
    says that the state is [s0] but for what the library did to itself. *)
From stdpp Require Import sorting.
From S2P Require Import Prelude Effects TidesDb RowDb RowFormat FtsText Table KeyCodec Dml TableRep Spatial CursorDb Scan.
Import Table KeyCodec Dml TableRep Scan.
#[local] Open Scope Z_scope.
#[local] Open Scope tdb_scope.

Module ScanSpec.

(** What the row codec promises to reads: the buffer filled from a stored row shows the record. *)
Class ReaderOk (E txn : Type) `{!TidesDb E txn, !QuietDb E txn, !RowReader E} (stored : record -> bytes -> Prop) := {
  shows : record -> record -> Prop;
  deserialize_law d ws t r b buf : stored r b ->
    spec (fun e => (committed e = d /\ pending e t = ws) /\ quiet e) (deserialize_row b buf)
      (fun buf' e => ((committed e = d /\ pending e t = ws) /\ quiet e) /\ shows r buf') (fun _ => True) }.

(** The server's loop over a read function: the rows it returned and the code that ended it. *)
Fixpoint collect {S} (fuel : nat) (next : record -> M S (read_code * record)) (buf : record) :
    M S (list record * read_code) :=
  match fuel with
  | O => ret ([], FOUND)
  | S fuel =>
      bind (next buf) (fun r =>
        if bool_decide (r.1 = FOUND) then bind (collect fuel next r.2) (fun l => ret (r.2 :: l.1, l.2))
        else ret ([], r.1))
  end.

Lemma collect_exact {S A} (I : list A -> S -> Prop) (next : record -> M S (read_code * record))
    (shown : A -> record -> Prop) :
  (forall a rest buf, spec (I (a :: rest)) (next buf) (fun r s => r.1 = FOUND /\ shown a r.2 /\ I rest s) (fun _ => True)) ->
  (forall buf, spec (I []) (next buf) (fun r s => r.1 = HA_ERR_END_OF_FILE) (fun _ => True)) ->
  forall l n buf, (length l < n)%nat ->
  spec (I l) (collect n next buf) (fun r _ => Forall2 shown l r.1 /\ r.2 = HA_ERR_END_OF_FILE) (fun _ => True).
Proof.
  intros Hs He. induction l as [|a l IH]; intros n buf Hn; (destruct n as [|n]; [simpl in Hn; lia|]); simpl.
  - eapply spec_bind; [apply He|]. intros r. apply (spec_pure _ (r.1 = HA_ERR_END_OF_FILE)); [done|]. intros E.
    rewrite bool_decide_false by (by rewrite E). apply spec_ret. intros s _. by split; [constructor|].
  - eapply spec_bind; [apply Hs|]. intros r. apply (spec_pure _ (r.1 = FOUND /\ shown a r.2)); [by intros s (? & ? & _)|].
    intros [E Ha]. rewrite bool_decide_true by done.
    eapply spec_bind; [eapply spec_pre; [apply IH; simpl in Hn; lia|by intros s (_ & _ & ?)]|].
    intros [rows c]. apply spec_ret. intros s [Hl Hc]. by split; [constructor|].
Qed.

Section Scans.
Context {E txn : Type} `{!TidesDb E txn, !RowDb E txn, !RowServices E txn, !QuietDb E txn, !CursorDb E txn,
  !QuietCursor E txn, !RowReader E}.
Context {SF : ServerField} {CS : FtsText.charset} `{!EqDecision txn}.
Context (sh : share) (stm : statement) (junk : memory) (fields : list Field).
Context (stored : record -> bytes -> Prop) (covered : nat -> Prop) `{!ReaderOk E txn stored}.
Context (t : txn) (v : store).
Local Open Scope eff_scope.

#[local] Abbreviation hdl := (handler E txn).
#[local] Abbreviation sc := (scanner E txn (iter E)).
#[local] Abbreviation rep := (table_rep sh fields stored covered).

Implicit Types (s : sc) (it : iter E) (buf r : record) (rows : gmap bytes record).

Definition run {A : Type} (P : sc -> Prop) (m : M sc A) (R : A -> sc -> Prop) : Prop := spec P m R (fun _ => True).

(** ** The state up to the library *)

Definition with_lib (e : E) s : sc := set_base (set_lib e (base s)) s.

(** The transaction sees the contents [v] and no call fails. *)
Definition sees (e : E) : Prop := apply_writes (pending e t) (committed e) = v /\ quiet e.

Definition at_ (s0 s : sc) : Prop := exists e, s = with_lib e s0 /\ sees e.

Lemma at_gets {A B : Type} s0 (f : sc -> A) (k : A -> M sc B) R :
  (forall e, f (with_lib e s0) = f s0) -> run (at_ s0) (k (f s0)) R -> run (at_ s0) (bind (gets f) k) R.
Proof.
  intros Hf Hk s Hs. specialize (Hk s Hs). destruct Hs as (e & -> & _). unfold bind, gets. by rewrite Hf.
Qed.

Lemma at_gets_id {B : Type} s0 (k : sc -> M sc B) R :
  (forall e, run (at_ s0) (k (with_lib e s0)) R) -> run (at_ s0) (bind (gets id) k) R.
Proof. intros Hk s Hs. destruct (Hs) as (e & E1 & _). specialize (Hk e s Hs). by rewrite <- E1 in Hk. Qed.

Lemma at_modify {B : Type} s0 (f : sc -> sc) (k : M sc B) R :
  (forall e, f (with_lib e s0) = with_lib e (f s0)) -> run (at_ (f s0)) k R -> run (at_ s0) (bind (modify f) (fun _ => k)) R.
Proof.
  intros Hf Hk s (e & -> & He). unfold bind, modify. apply Hk. exists e. by split.
Qed.

Lemma at_modify_base {B : Type} s0 (f : hdl -> hdl) (k : M sc B) R :
  (forall e, f (set_lib e (base s0)) = set_lib e (f (base s0))) ->
  run (at_ (set_base (f (base s0)) s0)) k R -> run (at_ s0) (bind (on_base (modify f)) (fun _ => k)) R.
Proof.
  intros Hf Hk s (e & -> & He). unfold bind, on_base, lift, modify.
  apply Hk. exists e. split; [|done]. unfold with_lib. simpl. by rewrite Hf.
Qed.

(** A library call that only reads. *)
Lemma at_read {A B : Type} s0 (m : M E A) (P : store -> A -> Prop) (G : A -> Prop) (k : A -> M sc B) R :
  (forall d ws, spec (fun e => committed e = d /\ pending e t = ws) m
     (fun a e => (committed e = d /\ pending e t = ws) /\ P (apply_writes ws d) a) (fun e => committed e = d)) ->
  spec quiet m (fun a e => quiet e /\ G a) (fun _ => True) ->
  (forall a, P v a -> G a -> run (at_ s0) (k a) R) -> run (at_ s0) (bind (on_db m) k) R.
Proof.
  intros H1 H2 Hk s (e & -> & Hv & Hq). unfold bind, on_db, on_base, on_lib, lift.
  cbn [base set_base with_lib lib set_lib]. specialize (H1 _ _ e (conj eq_refl eq_refl)). specialize (H2 e Hq).
  destruct (m e) as [e' [a|]]; [|done]. destruct H1 as [[Hd Hp] HP], H2 as [Hq' HG].
  rewrite Hv in HP. apply (Hk a HP HG). exists e'. split; [done|]. split; [|done]. by rewrite Hd, Hp.
Qed.

Lemma at_deserialize {B : Type} s0 r b buf (k : record -> M sc B) R :
  stored r b -> (forall buf', shows r buf' -> run (at_ s0) (k buf') R) ->
  run (at_ s0) (bind (on_db (deserialize_row b buf)) k) R.
Proof.
  intros Hr Hk s (e & -> & Hv & Hq). unfold bind, on_db, on_base, on_lib, lift.
  cbn [base set_base with_lib lib set_lib]. pose proof (deserialize_law (committed e) (pending e t) t r b buf Hr e) as H.
  destruct (deserialize_row b buf e) as [e' [buf'|]]; [|done]. destruct H as [[[Hd Hp] Hq'] Hs]; [done|].
  apply (Hk buf' Hs). exists e'. split; [done|]. split; [|done]. by rewrite Hd, Hp.
Qed.

Lemma at_ret {A : Type} s0 (a : A) (R : A -> sc -> Prop) : (forall s, at_ s0 s -> R a s) -> run (at_ s0) (ret a) R.
Proof. intros H. by apply spec_ret. Qed.

(** ** Moving the cursor *)

Lemma run_assoc {A B C : Type} P (m : M sc A) (f : A -> M sc B) (k : B -> M sc C) R :
  run P (bind m (fun a => bind (f a) k)) R -> run P (bind (bind m f) k) R.
Proof. intros H s Hs. specialize (H s Hs). unfold bind in *. by destruct (m s) as [s' [a|]]. Qed.

Lemma at_move {B : Type} s0 it op (k : M sc B) R :
  cur s0 = Some it -> can_move op (here it) ->
  (forall it', walks it' = walks it -> here it' = target op (walks it) (here it) -> run (at_ (put_iter it' s0)) k R) ->
  run (at_ s0) (bind (move op) (fun _ => k)) R.
Proof.
  intros Hc Hm Hk. unfold move. apply run_assoc, at_gets; [done|]. rewrite Hc. apply run_assoc.
  apply (at_read s0 _ (fun _ it' => walks it' = walks it)
    (fun it' => can_move op (here it) -> here it' = target op (walks it) (here it))).
  - intros d ws. eapply spec_weaken; [apply (iter_move_law d ws t op it)|done| |done]. by intros it' e (? & ? & _).
  - apply quiet_move.
  - intros it' Hw Hh. apply at_modify; [done|]. by apply Hk; [|apply Hh].
Qed.

Lemma at_read_key {B : Type} s0 it x (k : option bytes -> M sc B) R :
  cur s0 = Some it -> here it = Some x -> run (at_ s0) (k (Some x.1)) R -> run (at_ s0) (bind read_key k) R.
Proof.
  intros Hc Hh Hk. unfold read_key. apply run_assoc, at_gets; [done|]. rewrite Hc. apply run_assoc.
  apply (at_read s0 _ (fun _ _ => True) (fun a : tdb_rc + bytes => forall x, here it = Some x -> a = inr x.1)).
  - intros d ws. eapply spec_weaken; [apply (iter_key_law d ws t it)|done| |done]. by intros a e (? & _).
  - apply quiet_key.
  - intros a _ Ha. by rewrite (Ha x Hh).
Qed.

Lemma at_read_entry {B : Type} s0 it x (k : option entry -> M sc B) R :
  cur s0 = Some it -> here it = Some x -> run (at_ s0) (k (Some x)) R -> run (at_ s0) (bind read_entry k) R.
Proof.
  intros Hc Hh Hk. unfold read_entry. apply run_assoc, at_gets; [done|]. rewrite Hc. apply run_assoc.
  apply (at_read s0 _ (fun _ _ => True) (fun a : tdb_rc + entry => forall x, here it = Some x -> a = inr x)).
  - intros d ws. eapply spec_weaken; [apply (iter_read_law d ws t it)|done| |done]. by intros a e (? & _).
  - apply quiet_read.
  - intros a _ Ha. by rewrite (Ha x Hh).
Qed.

(** ** Where the cursor stands *)

(** The members a scan does not change while it walks. *)
Record control := {
  k_txn : option txn; k_stmt : option txn; k_pk : bool; k_index : nat; k_search : bytes; k_partial : bool;
  k_exact : bool; k_spatial : bool; k_keyread : bool }.

Definition ctl s : control :=
  {| k_txn := scan_txn (base s); k_stmt := stmt_txn (base s); k_pk := is_pk_ (st s); k_index := active_index (st s);
     k_search := idx_search_comp_ (st s); k_partial := pk_partial_exact_active_ (st s);
     k_exact := idx_pk_exact_done_ (st s); k_spatial := spatial_scan_active_ (spat s); k_keyread := keyread_only_ s |}.

Implicit Types (c : control) (L more : list entry).

(** The cached iterator walks [L] and stands at [o]. *)
Definition stands c dir L (o : option entry) (s0 : sc) : Prop :=
  ctl s0 = c /\ scan_dir_ (st s0) = dir /\ exists it, cur s0 = Some it /\ walks it = L /\ here it = o.

Definition cursor c dir L o (s : sc) : Prop := exists s0, at_ s0 s /\ stands c dir L o s0.

Lemma run_cursor {A : Type} c dir L o (m : M sc A) R :
  (forall s0, stands c dir L o s0 -> run (at_ s0) m R) -> run (cursor c dir L o) m R.
Proof. intros H s (s0 & Hs & Hc). by apply (H s0). Qed.

Lemma cur_put_iter it it' s0 : cur s0 = Some it -> cur (put_iter it' s0) = Some it'.
Proof. unfold cur. simpl. by destruct (scan_iter (base s0)). Qed.

Lemma stands_move c dir L o it' s0 : stands c dir L o s0 -> walks it' = L ->
  stands c dir L (here it') (put_iter it' s0).
Proof.
  intros (Hc & Hd & it & Hi & Hw & Hh) Hw'. split_and!; [done..|]. exists it'.
  split; [by eapply cur_put_iter|done].
Qed.

Lemma cursor_move {B : Type} c dir L o op (k : M sc B) R :
  can_move op o -> run (cursor c dir L (target op L o)) k R -> run (cursor c dir L o) (bind (move op) (fun _ => k)) R.
Proof.
  intros Hm Hk. apply run_cursor. intros s0 Hs. destruct (Hs) as (_ & _ & it & Hi & <- & <-).
  apply (at_move s0 it); [done..|]. intros it' Hw Hh s Hs'. apply Hk. exists (put_iter it' s0). split; [done|].
  rewrite <- Hh. by apply (stands_move _ _ _ (here it)).
Qed.

Lemma cursor_next {B : Type} c dir L pre x post (k : M sc B) R :
  ascending L -> L = pre ++ x :: post -> run (cursor c dir L (head post)) k R ->
  run (cursor c dir L (Some x)) (bind (move Next) (fun _ => k)) R.
Proof. intros Hs -> Hk. apply cursor_move; [by eexists|]. by rewrite target_next. Qed.

Lemma direct_spec c dir L o d : run (cursor c dir L o) (direct d) (fun _ => cursor c d L o).
Proof.
  apply spec_modify. intros s (s0 & (e & -> & He) & Hc & Hd & Hi). exists (map_st (set_dir d) s0).
  split; [by exists e|]. by split_and!.
Qed.

Lemma cursor_direct {B : Type} c dir L o d (k : M sc B) R :
  run (cursor c d L o) k R -> run (cursor c dir L o) (bind (direct d) (fun _ => k)) R.
Proof. intros Hk. eapply spec_bind; [apply direct_spec|]. by intros []. Qed.

Lemma cursor_set_pk {B : Type} c dir L o pk (k : M sc B) R :
  run (fun s => cursor c dir L o s /\ current_pk (base s) = pk) k R ->
  run (cursor c dir L o) (bind (on_base (modify (set_pk pk))) (fun _ => k)) R.
Proof.
  intros Hk. apply run_cursor. intros s0 (Hc & Hd & Hi). apply at_modify_base; [done|].
  intros s Hs. apply Hk. destruct (Hs) as (e & -> & _). split; [|done]. eexists. split; [exact Hs|]. by split_and!.
Qed.

Lemma cursor_entry {B : Type} c dir L o (k : option entry -> M sc B) R :
  run (cursor c dir L o) (k o) R -> run (cursor c dir L o) (bind (gets cur_entry) k) R.
Proof.
  intros Hk s (s0 & Hs & Hst). destruct (Hst) as (_ & _ & it & Hi & _ & Hh).
  apply (at_gets s0); [done| |done]. replace (cur_entry s0) with o by (unfold cur_entry; by rewrite Hi).
  intros s' Hs'. apply Hk. by exists s0.
Qed.

Lemma cursor_read {B : Type} c dir L x (k : option entry -> M sc B) R :
  run (cursor c dir L (Some x)) (k (Some x)) R -> run (cursor c dir L (Some x)) (bind read_entry k) R.
Proof.
  intros Hk s (s0 & Hs & Hst). destruct (Hst) as (_ & _ & it & Hi & _ & Hh).
  apply (at_read_entry s0 it x); [done|done| |done]. intros s' Hs'. apply Hk. by exists s0.
Qed.

Lemma cursor_read_key {B : Type} c dir L x (k : option bytes -> M sc B) R :
  run (cursor c dir L (Some x)) (k (Some x.1)) R -> run (cursor c dir L (Some x)) (bind read_key k) R.
Proof.
  intros Hk s (s0 & Hs & Hst). destruct (Hst) as (_ & _ & it & Hi & _ & Hh).
  apply (at_read_key s0 it x); [done|done| |done]. intros s' Hs'. apply Hk. by exists s0.
Qed.

Lemma cursor_rounds {B : Type} c dir L o (k : nat -> M sc B) R :
  run (cursor c dir L o) (k (S (length L))) R -> run (cursor c dir L o) (bind (gets rounds) k) R.
Proof.
  intros Hk s (s0 & Hs & Hst). destruct (Hst) as (_ & _ & it & Hi & Hw & _).
  apply (at_gets s0); [done| |done]. replace (rounds s0) with (S (length L)) by (unfold rounds; by rewrite Hi, <- Hw).
  intros s' Hs'. apply Hk. by exists s0.
Qed.

Lemma cursor_deserialize {B : Type} P r b buf (k : record -> M sc B) R :
  (forall s, P s -> exists s0, at_ s0 s /\ forall s', at_ s0 s' -> P s') ->
  stored r b -> (forall buf', shows r buf' -> run P (k buf') R) ->
  run P (bind (on_db (deserialize_row b buf)) k) R.
Proof.
  intros HP Hb Hk s Hs. destruct (HP s Hs) as (s0 & Hs0 & Hback).
  apply (at_deserialize s0 r b); [done| |done]. intros buf' Hbuf s' Hs'. apply (Hk buf' Hbuf). by apply Hback.
Qed.

(** ** Reading the row under the cursor *)

Definition data_entry (e : entry) : bool := RowFormat.is_data_key e.1.

(** The cursor is on the row [pk], which the handler remembers. *)
Definition on_row c dir L (e : entry) pk (s : sc) : Prop := cursor c dir L (Some e) s /\ current_pk (base s) = pk.

Lemma read_found n c dir L pre metas pk b rest r buf :
  let e := (RowFormat.build_data_key pk, b) in
  ascending L -> L = pre ++ metas ++ e :: rest -> Forall (fun x => data_entry x = false) metas -> stored r b ->
  (length metas < n)%nat ->
  run (cursor c dir L (head (metas ++ e :: rest))) (iter_read_loop n buf)
    (fun res s => res.1 = FOUND /\ shows r res.2 /\ on_row c dir L e pk s).
Proof.
  intros e Hs. revert n pre buf. induction metas as [|x metas IH]; intros n pre buf HL Hm Hb Hn;
    (destruct n as [|n]; [simpl in Hn; lia|]); cbn [iter_read_loop app head]; apply cursor_entry.
  - rewrite bool_decide_false by done. apply cursor_read. cbn [e].
    rewrite RowFormat.is_data_key_build. cbn [negb]. apply cursor_set_pk.
    apply (cursor_deserialize _ r b); [|done|].
    + intros s [(s0 & Hs0 & Hst) Hp]. exists s0. split; [done|]. intros s' Hs'. split; [by exists s0|].
      destruct Hs0 as (? & -> & _), Hs' as (? & -> & _). exact Hp.
    + intros buf' Hsh. apply spec_ret. intros s [Hc Hp]. by split_and!.
  - apply Forall_cons in Hm as [Hx Hm]. rewrite bool_decide_false by done. apply cursor_read.
    destruct x as [k0 x0]. unfold data_entry in Hx. simpl in Hx. rewrite Hx. cbn [negb].
    apply (cursor_next _ _ _ pre (k0, x0) (metas ++ e :: rest)); [done|done|].
    apply (IH n (pre ++ [(k0, x0)])); [by rewrite <- app_assoc|done|done|simpl in Hn; lia].
Qed.

Lemma read_end n c dir L pre more buf :
  ascending L -> L = pre ++ more -> Forall (fun x => data_entry x = false) more ->
  run (cursor c dir L (head more)) (iter_read_loop n buf) (fun res s => res.1 = HA_ERR_END_OF_FILE).
Proof.
  intros Hs. revert n pre buf. induction more as [|x more IH]; intros n pre buf HL Hm;
    (destruct n as [|n]; [by apply spec_ret|]); cbn [iter_read_loop head]; apply cursor_entry.
  - rewrite bool_decide_true by done. by apply spec_ret.
  - apply Forall_cons in Hm as [Hx Hm]. rewrite bool_decide_false by done. apply cursor_read.
    destruct x as [k0 x0]. unfold data_entry in Hx. simpl in Hx. rewrite Hx. cbn [negb].
    apply (cursor_next _ _ _ pre (k0, x0) more); [done|done|].
    apply (IH n (pre ++ [(k0, x0)])); [by rewrite <- app_assoc|done].
Qed.

(** ** The entries of the data family and the rows they hold *)

(** [more] holds the rows [l], between keys that are not rows. *)
Definition holds_rows more (l : list (bytes * record)) : Prop :=
  Forall2 (fun (e : entry) p => e.1 = RowFormat.build_data_key p.1 /\ stored p.2 e.2)
    (filter (fun e => data_entry e = true) more) l.

Lemma holds_rows_cons more p l :
  holds_rows more (p :: l) ->
  exists metas b rest, more = metas ++ (RowFormat.build_data_key p.1, b) :: rest /\
    Forall (fun x => data_entry x = false) metas /\ stored p.2 b /\ holds_rows rest l.
Proof.
  unfold holds_rows. induction more as [|x more IH]; intros H; [by inversion H|].
  rewrite filter_cons in H. case_decide as Hx.
  - inversion H as [|? ? ? ? [Hk Hb] Hl]. subst. destruct x as [k b]. simpl in Hk. subst k. by exists [], b, more.
  - destruct (IH H) as (metas & b & rest & -> & Hm & Hb & Hl). exists (x :: metas), b, rest. split_and!; try done.
    constructor; [|done]. by destruct (data_entry x).
Qed.

Lemma holds_rows_nil more : holds_rows more [] -> Forall (fun x => data_entry x = false) more.
Proof.
  unfold holds_rows. intros H. apply Forall_forall. intros x Hx. destruct (data_entry x) eqn:Ex; [|done].
  assert (x ∈ filter (fun e => data_entry e = true) more) as Hin by (by apply list_elem_of_filter).
  inversion H as [E0|]. rewrite <- E0 in Hin. by apply not_elem_of_nil in Hin.
Qed.

(** ** The table scan *)

(** [rnd_next] is to return the rows [l]: the cursor is before them, or on the row returned last. *)
Definition scanning c L (l : list (bytes * record)) (s : sc) : Prop :=
  exists pre more, L = pre ++ more /\ holds_rows more l /\
    (cursor c DIR_NONE L (head more) s \/ exists pre' e, pre = pre' ++ [e] /\ cursor c DIR_FORWARD L (Some e) s).

Lemma run_fact {A : Type} (F : Prop) (P : sc -> Prop) (m : M sc A) R :
  (F -> run P m R) -> run (fun s => F /\ P s) m R.
Proof. intros H s [HF Hs]. by apply H. Qed.

Lemma run_at_ex {A : Type} (F : sc -> Prop) (m : M sc A) R :
  (forall s1, F s1 -> run (at_ s1) m R) -> run (fun s => exists s1, at_ s1 s /\ F s1) m R.
Proof. intros H s (s1 & Hs & HF). by apply (H s1). Qed.

Definition advance (dir : scan_dir_t) {B : Type} (k : M sc B) : M sc B :=
  bind (if bool_decide (dir = DIR_NONE) then ret tt else move Next) (fun _ => k).

(** The common head of the forward reads: step past the row returned last. *)
Lemma advance_spec {B : Type} c L l (k : M sc B) R :
  ascending L ->
  (forall dir pre more, L = pre ++ more -> holds_rows more l -> run (cursor c dir L (head more)) k R) ->
  forall dir, run (fun s => scanning c L l s /\ scan_dir_ (st s) = dir) (advance dir k) R.
Proof.
  intros Hs Hk dir s [(pre & more & HL & Hh & H) Hd].
  destruct H as [(s0 & Hs0 & Hst)|(pre' & e & -> & (s0 & Hs0 & Hst))];
    assert (scan_dir_ (st s) = scan_dir_ (st s0)) as E1 by (by destruct Hs0 as (? & -> & _));
    destruct (Hst) as (_ & E2 & _); rewrite E1, E2 in Hd; subst dir; unfold advance.
  - rewrite bool_decide_true by done. apply (Hk DIR_NONE pre more HL Hh). by exists s0.
  - rewrite bool_decide_false by done.
    rewrite <- app_assoc in HL. apply (cursor_next c DIR_FORWARD L pre' e more); [done|done| |by exists s0].
    apply (Hk _ (pre' ++ [e]) more); [|done]. by rewrite <- app_assoc.
Qed.

Lemma then_direct_spec c dir dir' L e pk r (m : M sc (read_code * record)) P :
  run P m (fun res s => res.1 = FOUND /\ shows r res.2 /\ on_row c dir L e pk s) ->
  run P (then_direct dir' m) (fun res s => res.1 = FOUND /\ shows r res.2 /\ cursor c dir' L (Some e) s).
Proof.
  intros Hm. unfold then_direct. eapply spec_bind; [apply Hm|]. intros res.
  apply run_fact. intros Hf. rewrite bool_decide_true by done.
  apply run_fact. intros Hsh. eapply spec_pre; [|by intros s [? _]].
  apply cursor_direct, spec_ret. intros s Hs. by split_and!.
Qed.

Lemma rnd_next_found c L p l buf :
  killed stm = false -> ascending L ->
  run (scanning c L (p :: l)) (rnd_next stm buf)
    (fun res s => res.1 = FOUND /\ shows p.2 res.2 /\ scanning c L l s).
Proof.
  intros Hk Hs. unfold rnd_next. rewrite Hk. intros s Hsc.
  refine (advance_spec c L (p :: l) (then_direct DIR_FORWARD (iter_read_current buf)) _ Hs _ (scan_dir_ (st s)) s (conj Hsc eq_refl)).
  clear s Hsc. intros dir pre' more' HL Hh. destruct (holds_rows_cons _ _ _ Hh) as (metas & b & rest & -> & Hm & Hb & Hl).
  eapply spec_weaken; [apply (then_direct_spec c dir DIR_FORWARD L (RowFormat.build_data_key p.1, b) p.1 p.2)|done| |done].
  - unfold iter_read_current. apply cursor_rounds. apply (read_found _ c dir L pre' metas p.1 b rest p.2); try done.
    rewrite HL, !length_app. simpl. lia.
  - intros res s (Hf & Hsh & Hc). split_and!; try done. exists (pre' ++ metas ++ [(RowFormat.build_data_key p.1, b)]), rest.
    split; [by rewrite HL, <- !app_assoc|]. split; [done|]. right. eexists (pre' ++ metas), _. split; [by rewrite <- app_assoc|done].
Qed.

Lemma rnd_next_end c L buf :
  killed stm = false -> ascending L ->
  run (scanning c L []) (rnd_next stm buf) (fun res s => res.1 = HA_ERR_END_OF_FILE).
Proof.
  intros Hk Hs. unfold rnd_next. rewrite Hk. intros s Hsc.
  refine (advance_spec c L [] (then_direct DIR_FORWARD (iter_read_current buf)) _ Hs _ (scan_dir_ (st s)) s (conj Hsc eq_refl)).
  clear s Hsc. intros dir pre more HL Hh. apply holds_rows_nil in Hh. unfold then_direct.
  eapply spec_bind.
  - unfold iter_read_current. apply cursor_rounds. by apply (read_end _ c dir L pre more).
  - intros res. apply (spec_pure _ (res.1 = HA_ERR_END_OF_FILE)); [done|]. intros Hres.
    rewrite bool_decide_false by (by rewrite Hres). by apply spec_ret.
Qed.

(** The rows of a table in the order of their keys. *)
Definition in_order (lt : bytes * record -> bytes * record -> Prop) rows (l : list (bytes * record)) : Prop :=
  StronglySorted lt l /\ forall pk r, (pk, r) ∈ l <-> rows !! pk = Some r.

Definition pk_lt (p q : bytes * record) : Prop := p.1 <b q.1.

Definition row_of rows (e : entry) : option (bytes * record) :=
  if data_entry e then (fun r => (tail e.1, r)) <$> rows !! tail e.1 else None.

Definition rows_in rows L : list (bytes * record) := omap (row_of rows) L.

Lemma data_entry_key (e : entry) : data_entry e = true -> e.1 = RowFormat.build_data_key (tail e.1).
Proof.
  unfold data_entry, RowFormat.is_data_key, RowFormat.build_data_key. destruct e as [[|b k] x]; [done|].
  simpl. intros H%Z.eqb_eq. by rewrite H.
Qed.

Lemma data_entry_rep rows k x :
  data_rep sh stored rows v -> db_get (cf sh) k v = Some x -> data_entry (k, x) = true ->
  exists r, rows !! tail k = Some r /\ stored r x.
Proof.
  intros Hd Hg He. specialize (Hd (tail k)). pose proof (data_entry_key (k, x) He) as Ek. cbn [fst] in Ek. rewrite <- Ek in Hd.
  rewrite Hg in Hd. destruct (rows !! tail k) as [r|]; [by exists r|done].
Qed.

Lemma holds_rows_in rows L :
  data_rep sh stored rows v -> (forall k x, (k, x) ∈ L -> db_get (cf sh) k v = Some x) -> holds_rows L (rows_in rows L).
Proof.
  intros Hd. unfold holds_rows. induction L as [|[k x] L IH]; intros Hg; [constructor|].
  rewrite filter_cons. unfold rows_in. cbn [omap list_omap]. unfold row_of at 1.
  assert (holds_rows L (rows_in rows L)) as IH' by (apply IH; intros k' x' H; apply Hg; by right).
  case_decide as He; [|destruct (data_entry (k, x)); [done|exact IH']].
  destruct (data_entry_rep rows k x Hd (Hg k x ltac:(by left)) He) as (r & Hr & Hst). rewrite He. simpl. rewrite Hr. simpl.
  constructor; [|exact IH']. split; [exact (data_entry_key (k, x) He)|done].
Qed.

Lemma elem_of_rows_in rows L pk r :
  (pk, r) ∈ rows_in rows L <-> rows !! pk = Some r /\ exists x, (RowFormat.build_data_key pk, x) ∈ L.
Proof.
  unfold rows_in. rewrite list_elem_of_omap. split.
  - intros (e & He & Hr). unfold row_of in Hr. destruct (data_entry e) eqn:De; [|done].
    apply fmap_Some in Hr as (r' & Hr' & [= -> ->]). split; [done|]. exists e.2.
    rewrite <- data_entry_key by done. by destruct e.
  - intros [Hr [x Hx]]. exists (RowFormat.build_data_key pk, x). split; [done|]. unfold row_of, data_entry. cbn [fst].
    rewrite RowFormat.is_data_key_build. cbn [RowFormat.build_data_key tail]. by rewrite Hr.
Qed.

Lemma build_data_key_lt a b : RowFormat.build_data_key a <b RowFormat.build_data_key b <-> a <b b.
Proof. unfold bytes_lt. by rewrite RowFormat.build_data_key_cmp. Qed.

Lemma rows_in_sorted rows L : ascending L -> StronglySorted pk_lt (rows_in rows L).
Proof.
  induction 1 as [|e L Hs IH Hc]; [constructor|]. unfold rows_in. cbn [omap list_omap]. fold (rows_in rows L).
  destruct (row_of rows e) as [[pk r]|] eqn:Er; [|done]. constructor; [done|]. apply Forall_forall. intros [pk' r'] H.
  apply elem_of_rows_in in H as [_ [x Hx]]. rewrite Forall_forall in Hc. specialize (Hc _ Hx). simpl in Hc.
  unfold row_of in Er. destruct (data_entry e) eqn:De; [|done]. apply fmap_Some in Er as (? & _ & [= -> ->]).
  unfold pk_lt. simpl. rewrite (data_entry_key e De) in Hc. by apply build_data_key_lt.
Qed.

Lemma rows_in_order rows L : data_rep sh stored rows v -> opened v (cf sh) None L -> in_order pk_lt rows (rows_in rows L).
Proof.
  intros Hd (Hs & _ & Hall). split; [by apply rows_in_sorted|]. intros pk r. rewrite elem_of_rows_in.
  split; [by intros [? _]|]. intros Hr. split; [done|]. specialize (Hd pk). rewrite Hr in Hd.
  destruct (db_get (cf sh) (RowFormat.build_data_key pk) v) as [x|] eqn:Eg; [|done]. exists x. by apply Hall.
Qed.

Lemma in_order_length rows l lt : (forall p q, lt p q -> p <> q) -> in_order lt rows l -> length l = size rows.
Proof.
  intros Hlt [Hs Hl]. rewrite <- length_map_to_list. apply Permutation_length, NoDup_Permutation; [|apply NoDup_map_to_list|].
  - clear Hl. induction Hs as [|p l Hs IH Hp]; [constructor|]. constructor; [|done]. rewrite Forall_forall in Hp.
    intros Hin. by apply (Hlt p p (Hp p Hin)).
  - intros [pk r]. by rewrite elem_of_map_to_list, Hl.
Qed.

Lemma pk_lt_ne p q : pk_lt p q -> p <> q.
Proof. intros H ->. by apply bytes_lt_irrefl in H. Qed.

(** ** Opening a scan *)

Lemma at_ensure {B : Type} s0 (k : ha_code -> M sc B) R :
  is_Some (stmt_txn (base s0)) -> run (at_ s0) (k HA_OK) R -> run (at_ s0) (bind (on_base ensure_stmt_txn) k) R.
Proof.
  intros [t' Ht'] Hk s Hs. specialize (Hk s Hs). destruct Hs as (e & -> & _).
  assert (on_base ensure_stmt_txn (with_lib e s0) = (with_lib e s0, Ret HA_OK)) as E1.
  { unfold on_base, lift, ensure_stmt_txn, bind, gets.
    change (stmt_txn (base (with_lib e s0))) with (stmt_txn (base s0)). by rewrite Ht'. }
  unfold bind at 1. rewrite E1. exact Hk.
Qed.

(** A cached iterator that the scan would take over was opened without bounds. *)
Definition cache_ok (target_cf : bytes) s : Prop :=
  forall it, cur s = Some it -> scan_iter_cf_ (icache s) = Some target_cf -> scan_iter_txn_ (icache s) = Some t ->
    scan_iter_txn_gen_ (icache s) = generation s -> opened v target_cf None (walks it).

Definition freed s : sc :=
  set_base (set_iter_flag false (base s))
    (set_cache {| cached := None; scan_iter_cf_ := None; scan_iter_txn_ := None;
                  scan_iter_txn_gen_ := scan_iter_txn_gen_ (icache s) |} s).

(** After stale iterators are dropped, the one that is left can be used. *)
Lemma at_drop_stale {B : Type} s0 target_cf (k : M sc B) R :
  scan_txn (base s0) = Some t -> cache_ok target_cf s0 ->
  (forall s1, ctl s1 = ctl s0 -> st s1 = st s0 -> spat s1 = spat s0 ->
     (cur s1 = None \/ exists it, cur s1 = Some it /\ opened v target_cf None (walks it)) -> run (at_ s1) k R) ->
  run (at_ s0) (bind (drop_stale_iter target_cf) (fun _ => k)) R.
Proof.
  intros Ht Hc Hk. unfold drop_stale_iter. apply run_assoc, at_gets; [done|]. unfold stale_iter. rewrite Ht.
  destruct (cur s0) as [it|] eqn:Ei; rewrite ?bool_decide_true, ?bool_decide_false by (done || by intros [? ?]);
    cbn [andb]; [|apply Hk; auto].
  case_bool_decide as E1; cbn [negb orb]; [case_bool_decide as E2; cbn [negb orb]; [destruct (Z.eqb_spec
    (scan_iter_txn_gen_ (icache s0)) (generation s0)) as [E3|]; cbn [negb]|]|].
  { apply Hk; [done..|]. right. exists it. split; [done|]. by apply Hc. }
  all: unfold free_iter; apply run_assoc, at_gets; [done|]; rewrite Ei; apply run_assoc;
    apply (at_read s0 _ (fun _ _ => True) (fun _ => True));
    [intros d ws; eapply spec_weaken; [apply (iter_free_law d ws t it)|done|by intros a e ?|done]
    |eapply spec_weaken; [apply (quiet_free it)|done|by intros a e ?|done]
    |intros _ _ _; apply at_modify; [done|]; apply (Hk (freed s0)); [done..|by left]].
Qed.

Lemma at_iter_new {B : Type} s0 target_cf b (k : tdb_rc + iter E -> M sc B) R :
  (forall it, opened v target_cf b (walks it) -> run (at_ s0) (k (inr it)) R) ->
  run (at_ s0) (bind (on_db (iter_new t target_cf b)) k) R.
Proof.
  intros Hk. apply (at_read s0 _ (fun v' a => match a with inr it => opened v' target_cf b (walks it) | inl _ => True end)
    (fun a : tdb_rc + iter E => exists it, a = inr it)).
  - intros d ws. eapply spec_weaken; [apply (iter_new_law d ws t target_cf b)|done| |done].
    intros [rc|it] e [? ?]; by split.
  - apply quiet_iter_new.
  - intros a Ho [it ->]. by apply Hk.
Qed.

(** A seek to the first data key puts the cursor before the table's rows. *)
Lemma before_rows rows L pre more :
  data_rep sh stored rows v -> opened v (cf sh) None L -> L = pre ++ more ->
  (forall e, e ∈ pre -> e.1 <b [RowFormat.KEY_NS_DATA]) -> holds_rows more (rows_in rows L).
Proof.
  intros Hd (Hs & Hg & _) -> Hpre.
  assert (forall e, e ∈ pre -> row_of rows e = None) as Hnone.
  { intros e He. unfold row_of. destruct (data_entry e) eqn:De; [|done]. specialize (Hpre e He).
    rewrite (data_entry_key e De) in Hpre. unfold bytes_lt in Hpre. simpl in Hpre. by destruct (tail e.1). }
  assert (rows_in rows pre = []) as E0.
  { clear - Hnone. unfold rows_in. induction pre as [|e pre IH]; [done|]. cbn [omap list_omap].
    rewrite Hnone by left. apply IH. intros e' He'. apply Hnone. by right. }
  unfold rows_in. rewrite omap_app. change (omap (row_of rows) pre) with (rows_in rows pre). rewrite E0.
  apply holds_rows_in; [done|]. intros k x Hk. apply Hg, elem_of_app. by right.
Qed.

Lemma seek_rows {B : Type} rows c L o (k : M sc B) R :
  data_rep sh stored rows v -> opened v (cf sh) None L ->
  run (scanning c L (rows_in rows L)) k R ->
  run (cursor c DIR_NONE L o) (bind (move (Seek [RowFormat.KEY_NS_DATA])) (fun _ => k)) R.
Proof.
  intros Hd Ho Hk. apply cursor_move; [done|].
  destruct (target_seek [RowFormat.KEY_NS_DATA] L o (proj1 Ho)) as (pre & more & E1 & -> & Hpre & _).
  intros s Hs. apply Hk. exists pre, more. split; [done|]. split; [by apply (before_rows rows L pre)|by left].
Qed.

Lemma rnd_init_spec rows s0 :
  stmt_txn (base s0) = Some t -> cache_ok (cf sh) s0 -> data_rep sh stored rows v ->
  run (at_ s0) (rnd_init sh)
    (fun rc s => rc = HA_OK /\ exists c L, opened v (cf sh) None L /\ scanning c L (rows_in rows L) s).
Proof.
  intros Ht Hc Hd. unfold rnd_init. apply at_modify_base; [done|]. apply at_modify; [done|].
  apply at_ensure; [by exists t|]. rewrite bool_decide_true by done. cbn [negb].
  apply at_modify_base; [done|]. apply at_drop_stale; [done|exact Hc|].
  intros s1 Hctl Hst _ Hcur. apply at_gets_id. intros e.
  assert (forall L o s2, opened v (cf sh) None L -> stands (ctl s2) DIR_NONE L o s2 ->
    run (at_ s2) (bind (move (Seek [RowFormat.KEY_NS_DATA])) (fun _ => ret HA_OK))
      (fun rc s => rc = HA_OK /\ exists c L, opened v (cf sh) None L /\ scanning c L (rows_in rows L) s)) as Hseek.
  { intros L o s2 Ho Hs2 s Hs. apply (seek_rows rows (ctl s2) L o _ _ Hd Ho); [|by exists s2].
    apply spec_ret. intros s' Hs'. split; [done|]. by exists (ctl s2), L. }
  assert (k_txn (ctl s1) = Some t) as Htx by (rewrite Hctl; exact Ht).
  assert (scan_dir_ (st s1) = DIR_NONE) as Hdir by (by rewrite Hst).
  change (cur (with_lib e s1)) with (cur s1). destruct Hcur as [Hcur|(it & Hcur & Ho)]; rewrite Hcur.
  - rewrite bool_decide_false by (by intros [? ?]).
    change (scan_txn (base (with_lib e s1))) with (k_txn (ctl s1)). rewrite Htx.
    apply run_assoc, at_iter_new. intros it Ho. apply run_assoc, at_modify; [done|].
    apply (Hseek (walks it) (here it)); [done|]. split_and!; [done|done|by exists it].
  - rewrite bool_decide_true by (by eexists). apply (Hseek (walks it) (here it)); [done|].
    split_and!; [done|done|by exists it].
Qed.

(** C5: In a statement that is not killed and on a library that does not fail, a table scan returns every
    row of the table once, in the order of their primary keys, and then the end of the file: from
    [rnd_init], however the statement left its cached iterator, as long as a cached iterator of this
    family and transaction was opened without bounds ([cache_ok]).  The code does not see to that: a scan
    that takes over the iterator of an earlier range read returns only the range
    ([ScanExample.bounded_iterator_reused]). *)
Theorem table_scan_exact rows s0 n buf :
  rep rows v -> stmt_txn (base s0) = Some t -> cache_ok (cf sh) s0 -> killed stm = false -> (size rows < n)%nat ->
  run (at_ s0) (bind (rnd_init sh) (fun _ => collect n (rnd_next stm) buf))
    (fun out _ => exists l, in_order pk_lt rows l /\ Forall2 (fun p b => shows p.2 b) l out.1 /\
       out.2 = HA_ERR_END_OF_FILE).
Proof.
  intros [_ (_ & Hd & _)] Ht Hc Hk Hn. eapply spec_bind; [by apply (rnd_init_spec rows)|]. intros rc.
  apply run_fact. intros _. intros s (c & L & Ho & Hs).
  pose proof (rows_in_order rows L Hd Ho) as Hl.
  pose proof (in_order_length rows _ _ pk_lt_ne Hl) as Hlen.
  pose proof (collect_exact (scanning c L) (rnd_next stm) (fun p b => shows p.2 b)
    (fun p l buf => rnd_next_found c L p l buf Hk (proj1 Ho)) (fun buf => rnd_next_end c L buf Hk (proj1 Ho))
    (rows_in rows L) n buf ltac:(lia) s Hs) as H.
  destruct (collect n (rnd_next stm) buf s) as [s' [out|]]; [|done]. destruct H as [H1 H2]. by exists (rows_in rows L).
Qed.

End Scans.
End ScanSpec.
