(* ===== verification/ScanIndex.v ===== *)
(** * Reads through a secondary index

    An equality read of a regular index and its continuations return exactly the rows that carry the
    key, and a scan of the index returns every row of the table, both in the order of the index. *)
From stdpp Require Import sorting.
From S2P Require Import Prelude Effects TidesDb RowDb RowFormat FtsText Table KeyCodec Dml TableRep DmlSpec Spatial CursorDb Scan ScanSpec.
Import Table KeyCodec Dml TableRep Scan ScanSpec.
#[local] Open Scope Z_scope.
#[local] Open Scope tdb_scope.

Module ScanIndex.

Section Index.
Context {E txn : Type} `{!TidesDb E txn, !RowDb E txn, !RowServices E txn, !QuietDb E txn, !CursorDb E txn,
  !QuietCursor E txn, !RowReader E}.
Context {SF : ServerField} {CS : FtsText.charset} `{!EqDecision txn}.
Context (sh : share) (stm : statement) (junk : memory) (fields : list Field).
Context (stored : record -> bytes -> Prop) (covered : nat -> Prop) `{!ReaderOk E txn stored}.
Context (t : txn) (v : store).
Local Open Scope eff_scope.

#[local] Abbreviation sc := (scanner E txn (iter E)).
#[local] Abbreviation rep := (table_rep sh fields stored covered).
#[local] Abbreviation at_ := (at_ t v).
#[local] Abbreviation cursor := (cursor t v).
#[local] Abbreviation ikey := (index_key sh).

Implicit Types (s : sc) (it : iter E) (buf r : record) (rows : gmap bytes record) (c : control (txn := txn))
  (L : list entry).

(** A regular index of the table whose metadata agree with its definition. *)
Record regular_index (i : nat) (ci : bytes) : Prop := {
  in_table : (i < num_keys sh)%nat;
  has_family : secondary sh i = Some ci;
  is_covered : covered i;
  is_regular : kind_of sh i = regular;
  not_pk : has_user_pk (codec sh) && bool_decide (i = pk_index (codec sh)) = false;
  not_spatial : is_spatial_index (key_info_of sh i) = false;
  metadata : comp_len sh i = foldr (fun kp n => part_width kp + n) 0 (key_part (key_info_of sh i)) }.

(** The statement reads whole rows and nothing interrupts it. *)
Definition plain_statement (i : nat) : Prop := killed stm = false /\ pushed_idx_cond_keyno stm <> Some i.

(** The members while index [i] is scanned. *)
Definition scans (i : nat) c : Prop :=
  k_txn c = Some t /\ k_index c = i /\ k_pk c = false /\ k_spatial c = false /\ k_keyread c = false /\ k_exact c = false.

(** ** Steps on the members *)

Lemma cursor_ctl {A B : Type} c dir L o (f : sc -> A) (g : control -> A) (k : A -> M sc B) R :
  (forall s, f s = g (ctl s)) -> run (cursor c dir L o) (k (g c)) R -> run (cursor c dir L o) (bind (gets f) k) R.
Proof.
  intros Hf Hk s (s0 & Hs & Hst). pose proof Hst as (Hc & _). apply (at_gets t v s0); [|  |done].
  - intros e. by rewrite !Hf.
  - rewrite Hf, Hc. intros s' Hs'. apply Hk. by exists s0.
Qed.

Lemma at_fetch rows s0 pk r buf :
  data_rep sh stored rows v -> rows !! pk = Some r ->
  run (at_ s0) (fetch_row_by_pk sh (Some t) pk buf)
    (fun res s => res.1 = FOUND /\ shows r res.2 /\ at_ (set_base (set_pk pk (base s0)) s0) s).
Proof.
  intros Hd Hr. unfold fetch_row_by_pk. specialize (Hd pk). rewrite Hr in Hd.
  apply (at_read t v s0 _ (fun v' a => match a with
      | inr x => db_get (cf sh) (RowFormat.build_data_key pk) v' = Some x
      | inl TDB_ERR_NOT_FOUND => db_get (cf sh) (RowFormat.build_data_key pk) v' = None
      | inl _ => True end)
    (fun a : tdb_rc + bytes => a = inl TDB_ERR_NOT_FOUND \/ exists x, a = inr x)).
  - intros d ws. eapply spec_weaken; [apply (txn_get_law d ws t (cf sh) (RowFormat.build_data_key pk))|done| |done].
    intros [[]|x] e [? ?]; by split.
  - eapply spec_crash; [apply quiet_get|done].
  - intros a Ha [->|[x ->]]; rewrite Ha in Hd; [done|].
    apply (at_deserialize stored t v s0 r x); [done|]. intros buf' Hsh. apply at_modify_base; [done|].
    apply spec_ret. intros s' Hs'. by split_and!.
Qed.

Lemma row_of_entry_spec rows i c dir L o ik pk r buf :
  scans i c -> data_rep sh stored rows v -> rows !! pk = Some r -> drop (Z.to_nat (comp_len sh i)) ik = pk ->
  run (cursor c dir L o) (row_of_entry sh stm ik i buf)
    (fun res s => res.1 = FOUND /\ shows r res.2 /\ cursor c dir L o s).
Proof.
  intros (Ht & _ & _ & _ & Hkr & _) Hd Hr Hpk. apply run_cursor. intros s0 (Hc & Hdir & Hit). unfold row_of_entry.
  apply at_gets_id. intros e. change (keyread_only_ (with_lib e s0)) with (k_keyread (ctl s0)).
  change (scan_txn (base (with_lib e s0))) with (k_txn (ctl s0)). rewrite Hc, Hkr, Ht, Hpk.
  eapply spec_weaken; [by apply (at_fetch rows s0 pk r buf)|done| |done].
  intros res s (Hf & Hsh & Hs). split_and!; [done..|]. eexists. split; [exact Hs|]. by split_and!.
Qed.

(** ** One row of the index *)

(** An entry of the index stands for a row. *)
Definition stands_for rows (i : nat) (e : entry) (p : bytes * record) : Prop :=
  e.1 = ikey i p.2 ++ p.1 /\ rows !! p.1 = Some p.2 /\ p.1 <> [].

Lemma index_entry_parts rows i ci e p :
  table_ok sh -> regular_index i ci -> stands_for rows i e p ->
  drop (Z.to_nat (comp_len sh i)) e.1 = p.1 /\ (zlen e.1 <=? comp_len sh i) = false.
Proof.
  intros Hok Hi (Hk & Hr & Hne). rewrite Hk. pose proof (index_key_length sh i p.2 Hok) as Hl.
  rewrite <- (metadata _ _ Hi) in Hl. split.
  - apply drop_app_length'. unfold zlen in Hl. lia.
  - apply Z.leb_gt. rewrite zlen_app. destruct p.1; [done|]. unfold zlen in *. simpl. lia.
Qed.

(** The loop returns the row under the cursor when the caller's check lets it in. *)
Lemma secondary_found rows i ci n c dir dir' L e p inside missing step note buf :
  table_ok sh -> regular_index i ci -> plain_statement i -> scans i c -> data_rep sh stored rows v ->
  stands_for rows i e p -> inside e.1 = true ->
  (forall o, run (cursor c dir L o) (note FOUND) (fun _ => cursor c dir' L o)) ->
  run (cursor c dir L (Some e)) (secondary_loop sh stm (S n) inside missing step note buf)
    (fun res s => res.1 = FOUND /\ shows p.2 res.2 /\ cursor c dir' L (Some e) s).
Proof.
  intros Hok Hi [Hk Hp] Hc Hd He Hin Hnote. pose proof Hc as (_ & Hidx & _).
  destruct (index_entry_parts rows i ci e p Hok Hi He) as [Hdrop Hlen]. pose proof He as (_ & Hr & _).
  cbn [secondary_loop]. apply cursor_entry. rewrite bool_decide_false by done. apply cursor_read. destruct e as [ik x].
  apply (cursor_ctl _ _ _ _ _ k_index); [done|]. rewrite Hidx. cbn [fst] in *. rewrite Hin. cbn [negb]. rewrite Hlen.
  unfold icp_check. rewrite bool_decide_false by done. cbn [negb].
  eapply spec_bind; [apply (spec_ret _ (fun a s => a = (ICP_MATCH, buf) /\ cursor c dir L (Some (ik, x)) s)); by intros s Hs|].
  intros a. apply run_fact. intros ->. rewrite Hk.
  eapply spec_bind; [by apply (row_of_entry_spec rows i c dir L (Some (ik, x)) ik p.1 p.2)|]. intros res.
  apply run_fact. intros Hf. apply run_fact. intros Hsh. rewrite Hf.
  rewrite bool_decide_false by done. eapply spec_bind; [apply Hnote|]. intros ?. apply spec_ret. intros s Hs. by split_and!.
Qed.

(** The loop ends at a key the caller's check turns away, and at the end of the index. *)
Lemma secondary_missing n c dir L o inside missing step note buf :
  (forall e, o = Some e -> inside e.1 = false) ->
  run (cursor c dir L o) (secondary_loop sh stm n inside missing step note buf) (fun res s => res.1 = missing).
Proof.
  intros Ho. destruct n as [|n]; [by apply spec_ret|]. cbn [secondary_loop]. apply cursor_entry.
  destruct o as [[ik x]|]; [|by apply spec_ret]. rewrite bool_decide_false by done. apply cursor_read.
  apply (cursor_ctl _ _ _ _ _ k_index); [done|].
  pose proof (Ho (ik, x) eq_refl) as Hx. cbn [fst] in Hx. rewrite Hx. by apply spec_ret.
Qed.

(** ** The entries that carry a key *)

Lemma is_prefix_iff (p k : bytes) : is_prefix p k = true <-> p `prefix_of` k.
Proof.
  unfold is_prefix. rewrite bool_decide_eq_true. split.
  - intros <-. apply prefix_take.
  - intros [m ->]. by apply take_app_length'.
Qed.

(** The entries under a prefix stand together, at the place a seek to the prefix finds. *)
Lemma group_split comp L o :
  ascending L -> exists pre g others, L = pre ++ g ++ others /\ target (Seek comp) L o = head (g ++ others) /\
    (forall e, e ∈ pre -> is_prefix comp e.1 = false) /\ (forall e, e ∈ g -> is_prefix comp e.1 = true) /\
    (forall e, e ∈ others -> is_prefix comp e.1 = false).
Proof.
  intros Hs. destruct (target_seek comp L o Hs) as (pre & more & HL & Ht & Hpre & Hmore).
  pose proof Hs as Hs'. rewrite HL in Hs'. apply ascending_app in Hs' as (_ & Hm & _).
  destruct (filter_suffix (fun e : entry => is_prefix comp e.1 = false /\ ~ e.1 <b comp) more Hm) as (g & E1 & Hg).
  { intros a b Hab [Ha Hac]. split; [|intros H; by apply Hac, (bytes_lt_trans _ b.1)].
    destruct (is_prefix comp b.1) eqn:Eb; [|done]. apply is_prefix_iff in Eb.
    assert (is_prefix comp a.1 = true) as Hpa; [|congruence]. apply is_prefix_iff.
    apply (DmlSpec.prefix_between comp b.1 a.1); [done|done|]. intros H.
    by apply (bytes_lt_irrefl b.1), (bytes_lt_trans _ a.1). }
  set (others := filter _ more) in E1. exists pre, g, others. split_and!.
  - rewrite HL. f_equal. exact E1.
  - rewrite Ht. f_equal. exact E1.
  - intros e He. destruct (is_prefix comp e.1) eqn:Ee; [|done]. apply is_prefix_iff, prefix_not_below in Ee.
    destruct Ee. by apply Hpre.
  - intros e He. destruct (is_prefix comp e.1) eqn:Ee; [done|]. destruct (Hg e He). split; [done|].
    apply Hmore. rewrite E1. apply elem_of_app. by left.
  - intros e He. unfold others in He. by apply list_elem_of_filter in He as [[? _] _].
Qed.

(** [index_next_same] is to return the rows [l] after the one under the cursor. *)
Definition grouping rows (i : nat) comp c L (l : list (bytes * record)) s : Prop :=
  exists dir pre e g others, L = pre ++ e :: g ++ others /\ Forall2 (stands_for rows i) g l /\
    (forall x, x ∈ g -> is_prefix comp x.1 = true) /\ (forall x, x ∈ others -> is_prefix comp x.1 = false) /\
    cursor c dir L (Some e) s.

Lemma next_same_enter {R} i c dir L x buf :
  plain_statement i -> scans i c ->
  run (cursor c dir L (Some x))
    (bind (move Next) (fun _ => secondary_scan sh stm (is_prefix (k_search c)) HA_ERR_END_OF_FILE Next note_never buf)) R ->
  run (cursor c dir L (Some x)) (index_next_same sh stm buf) R.
Proof.
  intros [Hk _] (_ & _ & Hpk & Hsp & _) H. unfold index_next_same. rewrite Hk. apply run_cursor. intros s0 Hst.
  pose proof Hst as (Hc & _ & it & Hi & _). apply at_gets_id. intros e.
  change (spatial_scan_active_ (spat (with_lib e s0))) with (k_spatial (ctl s0)).
  change (is_pk_ (st (with_lib e s0))) with (k_pk (ctl s0)). change (cur (with_lib e s0)) with (cur s0).
  change (idx_search_comp_ (st (with_lib e s0))) with (k_search (ctl s0)). rewrite Hc, Hsp, Hpk, Hi.
  rewrite bool_decide_false by done. intros s Hs. apply H. by exists s0.
Qed.

Lemma next_same_found rows i ci c L p l buf :
  table_ok sh -> regular_index i ci -> plain_statement i -> scans i c -> data_rep sh stored rows v -> ascending L ->
  run (grouping rows i (k_search c) c L (p :: l)) (index_next_same sh stm buf)
    (fun res s => res.1 = FOUND /\ shows p.2 res.2 /\ grouping rows i (k_search c) c L l s).
Proof.
  intros Hok Hi Hst Hc Hd Hs s (dir & pre & e & g & others & HL & Hg & Hpre & Hoth & Hcur).
  apply Forall2_cons_inv_r in Hg as (e' & g' & He & Hg' & ->). refine (_ s Hcur).
  apply (next_same_enter i); [done|done|].
  apply (cursor_next _ _ _ _ _ pre e ((e' :: g') ++ others)); [done|done|].
  unfold secondary_scan. apply cursor_rounds. cbn [app head].
  eapply spec_weaken; [apply (secondary_found rows i ci _ c dir dir L e' p)|done| |done]; try done.
  - apply Hpre. by left.
  - intros o. by apply spec_ret.
  - intros res s' (Hf & Hsh & Hs'). split_and!; [done..|]. exists dir, (pre ++ [e]), e', g', others.
    split_and!; [by rewrite HL, <- app_assoc|done|intros x Hx; apply Hpre; by right|done|done].
Qed.

Lemma next_same_end rows i c L buf :
  plain_statement i -> scans i c -> ascending L ->
  run (grouping rows i (k_search c) c L []) (index_next_same sh stm buf) (fun res s => res.1 = HA_ERR_END_OF_FILE).
Proof.
  intros Hst Hc Hs s (dir & pre & e & g & others & HL & Hg & Hpre & Hoth & Hcur). inversion Hg. subst g.
  refine (_ s Hcur). apply (next_same_enter i); [done|done|].
  apply (cursor_next _ _ _ _ _ pre e others); [done|done|]. unfold secondary_scan. apply cursor_rounds.
  apply secondary_missing. intros x Hx. apply Hoth. by apply head_Some_elem_of.
Qed.

(** ** Opening the index *)

(** The index is open and its iterator is missing or fit for use. *)
Definition ready (i : nat) (ci : bytes) s : Prop :=
  scans i (ctl s) /\ scan_cf_ (st s) = Some ci /\ scan_range_ (st s) = None /\ scan_iter_last_err_ (st s) = None /\
  scan_dir_ (st s) = DIR_NONE /\ (cur s = None \/ exists it, cur s = Some it /\ opened v ci None (walks it)).

(** The handler before [index_init]: a transaction runs, no failed attempt to open an iterator is
    remembered, and a cached iterator of this index was opened without bounds. *)
Definition can_open (ci : bytes) s : Prop :=
  stmt_txn (base s) = Some t /\ scan_iter_last_err_ (st s) = None /\ keyread_only_ s = false /\ cache_ok t v ci s.

Lemma index_init_spec i ci s0 :
  regular_index i ci -> can_open ci s0 ->
  run (at_ s0) (index_init sh i) (fun rc s => rc = HA_OK /\ exists s1, at_ s1 s /\ ready i ci s1).
Proof.
  intros Hi (Ht & Herr & Hkr & Hc). unfold index_init. rewrite (not_pk _ _ Hi).
  apply at_modify; [done|]. apply at_modify; [done|]. apply at_ensure; [by exists t|].
  rewrite bool_decide_true by done. cbn [negb]. apply at_modify_base; [done|]. rewrite (has_family _ _ Hi).
  apply at_modify; [done|]. apply at_drop_stale; [exact Ht|exact Hc|]. intros s1 Hctl Hst Hsp Hcur.
  apply spec_ret. intros s Hs. split; [done|]. exists s1. split; [done|].
  unfold ready. rewrite Hctl, Hst. split_and!; try done.
Qed.

Lemma at_with_iter i ci s1 buf (m : M sc (read_code * record)) R :
  ready i ci s1 ->
  (forall L o, opened v ci None L -> run (cursor (ctl s1) DIR_NONE L o) m R) -> run (at_ s1) (with_iter buf m) R.
Proof.
  intros (Hc & Hcf & Hr & Herr & Hd & Hcur) Hm. unfold with_iter, ensure_scan_iter. apply run_assoc, at_gets_id. intros e.
  change (cur (with_lib e s1)) with (cur s1). destruct Hcur as [Hcur|(it & Hcur & Ho)]; rewrite Hcur.
  - rewrite bool_decide_false by (by intros [? ?]). change (st (with_lib e s1)) with (st s1). rewrite Herr.
    unfold new_iter. apply run_assoc, at_gets_id. intros e'.
    change (scan_txn (base (with_lib e' s1))) with (k_txn (ctl s1)). change (st (with_lib e' s1)) with (st s1).
    rewrite (proj1 Hc), Hcf, Hr. apply run_assoc, at_iter_new. intros it Ho.
    apply run_assoc, at_modify; [done|]. apply run_assoc, at_modify; [done|].
    intros s Hs. apply (Hm (walks it) (here it) Ho). eexists. split; [exact Hs|]. split_and!; [done|done|by exists it].
  - rewrite bool_decide_true by (by eexists). intros s Hs. apply (Hm (walks it) (here it) Ho). exists s1.
    split; [done|]. split_and!; [done|done|by exists it].
Qed.

(** ** Rows in index order *)

Definition index_lt (i : nat) (p q : bytes * record) : Prop := (ikey i p.2 ++ p.1) <b (ikey i q.2 ++ q.1).

Definition entry_row rows (i : nat) (e : entry) : option (bytes * record) :=
  let pk := drop (Z.to_nat (comp_len sh i)) e.1 in (fun r => (pk, r)) <$> rows !! pk.

Definition index_rows rows (i : nat) (L : list entry) : list (bytes * record) := omap (entry_row rows i) L.

Definition pks_ok rows : Prop := forall pk r, rows !! pk = Some r -> pk <> [].

Lemma entry_stands rows i ci e :
  table_ok sh -> regular_index i ci -> rep rows v -> pks_ok rows -> db_get ci e.1 v = Some e.2 ->
  exists p, stands_for rows i e p /\ entry_row rows i e = Some p.
Proof.
  intros Hok Hi [_ (_ & _ & _ & He)] Hpk Hg.
  specialize (He i ci (in_table _ _ Hi) (has_family _ _ Hi) (is_covered _ _ Hi)).
  rewrite decide_False in He by apply not_elem_of_nil. apply He in Hg as (pk & r & Hr & Hin).
  unfold entries in Hin. rewrite (is_regular _ _ Hi) in Hin. apply list_elem_of_singleton in Hin as [= Hk _].
  assert (stands_for rows i e (pk, r)) as Hs by (split; [done|]; split; [done|by apply (Hpk pk r)]).
  exists (pk, r). split; [done|]. unfold entry_row.
  destruct (index_entry_parts rows i ci e (pk, r) Hok Hi Hs) as [-> _]. cbn [fst]. by rewrite Hr.
Qed.

Lemma index_rows_stand rows i ci L :
  table_ok sh -> regular_index i ci -> rep rows v -> pks_ok rows ->
  (forall k x, (k, x) ∈ L -> db_get ci k v = Some x) -> Forall2 (stands_for rows i) L (index_rows rows i L).
Proof.
  intros Hok Hi Hrep Hpk. induction L as [|e L IH]; intros Hg; [constructor|]. unfold index_rows. cbn [omap list_omap].
  destruct (entry_stands rows i ci e Hok Hi Hrep Hpk) as (p & Hp & ->); [destruct e; apply Hg; left|].
  constructor; [done|]. apply IH. intros k x H. apply Hg. by right.
Qed.

(** The rows a part of the index stands for, chosen by what their keys look like. *)
Lemma index_rows_order rows i ci L g (P : bytes -> Prop) `{!forall k, Decision (P k)} :
  table_ok sh -> regular_index i ci -> rep rows v -> pks_ok rows -> opened v ci None L -> ascending g ->
  (forall e, e ∈ g <-> e ∈ L /\ P e.1) ->
  in_order (index_lt i) (filter (fun p => P (ikey i p.2 ++ p.1)) rows) (index_rows rows i g).
Proof.
  intros Hok Hi Hrep Hpk (_ & Hg & Hall) Hasc Hmem.
  assert (Forall2 (stands_for rows i) g (index_rows rows i g)) as H2.
  { apply (index_rows_stand rows i ci); try done. intros k x Hx. by apply Hg, Hmem. }
  split.
  - clear Hmem Hg. induction H2 as [|e p g l He H2 IH]; [constructor|]. apply StronglySorted_inv in Hasc as [Hasc Hlt].
    constructor; [by apply IH|]. apply Forall_forall. intros q Hq. apply list_elem_of_lookup in Hq as [n Hn].
    destruct (Forall2_lookup_r _ _ _ _ _ H2 Hn) as (e' & He' & Hs). rewrite Forall_forall in Hlt.
    specialize (Hlt e' (list_elem_of_lookup_2 _ _ _ He')). unfold index_lt.
    by rewrite <- (proj1 He), <- (proj1 Hs).
  - intros pk r. rewrite map_lookup_filter_Some. split.
    + intros Hin. apply list_elem_of_lookup in Hin as [n Hn].
      destruct (Forall2_lookup_r _ _ _ _ _ H2 Hn) as (e & He & (Hk & Hr & _)). split; [done|]. cbn [fst snd] in *.
      rewrite <- Hk. by apply (Hmem e), (list_elem_of_lookup_2 _ n).
    + intros [Hr HP]. cbn [fst snd] in HP. pose proof Hrep as [_ (_ & _ & _ & He)].
      specialize (He i ci (in_table _ _ Hi) (has_family _ _ Hi) (is_covered _ _ Hi)).
      rewrite decide_False in He by apply not_elem_of_nil.
      assert (db_get ci (ikey i r ++ pk) v = Some tdb_empty_val) as Hget.
      { apply He. exists pk, r. split; [done|]. unfold entries. rewrite (is_regular _ _ Hi). by left. }
      assert ((ikey i r ++ pk, tdb_empty_val) ∈ g) as Hin by (apply Hmem; split; [by apply Hall|done]).
      apply list_elem_of_lookup in Hin as [n Hn]. destruct (Forall2_lookup_l _ _ _ _ _ H2 Hn) as ([pk' r'] & Hp & Hs).
      destruct (index_entry_parts rows i ci _ _ Hok Hi Hs) as [Hdrop _]. cbn [fst] in Hdrop.
      assert (stands_for rows i (ikey i r ++ pk, tdb_empty_val) (pk, r)) as Hs'
        by (split; [done|]; split; [done|by apply (Hpk pk r)]).
      destruct (index_entry_parts rows i ci _ _ Hok Hi Hs') as [Hdrop' _]. cbn [fst] in Hdrop'.
      assert (pk' = pk) as -> by congruence. destruct Hs as (_ & Hr' & _). cbn [fst snd] in Hr'.
      assert (r' = r) as -> by congruence. by apply list_elem_of_lookup_2 in Hp.
Qed.

Lemma index_lt_ne i p q : index_lt i p q -> p <> q.
Proof. intros H ->. by apply bytes_lt_irrefl in H. Qed.

(** ** Equality reads *)

(** The server's loop: a positioned read, then its continuations. *)
Definition read_then (n : nat) (first next : record -> M sc (read_code * record)) buf : M sc (list record * read_code) :=
  res <-- first buf;
  if bool_decide (res.1 = FOUND) then l <-- collect n next res.2; ret (res.2 :: l.1, l.2) else ret ([], res.1).

Lemma read_then_exact {A : Type} (I : list A -> sc -> Prop) (shown : A -> record -> Prop) P
    (first next : record -> M sc (read_code * record)) l n buf missing :
  (forall a rest buf, run (I (a :: rest)) (next buf) (fun res s => res.1 = FOUND /\ shown a res.2 /\ I rest s)) ->
  (forall buf, run (I []) (next buf) (fun res s => res.1 = HA_ERR_END_OF_FILE)) -> (length l <= n)%nat -> missing <> FOUND ->
  run P (first buf) (fun res s => match l with
                                 | [] => res.1 = missing
                                 | a :: rest => res.1 = FOUND /\ shown a res.2 /\ I rest s end) ->
  run P (read_then n first next buf)
    (fun out _ => Forall2 shown l out.1 /\ out.2 = match l with [] => missing | _ => HA_ERR_END_OF_FILE end).
Proof.
  intros Hs He Hn Hmiss Hf. unfold read_then. eapply spec_bind; [apply Hf|]. intros res. destruct l as [|a l].
  - apply (spec_pure _ (res.1 = missing)); [done|]. intros Hm. rewrite bool_decide_false by congruence.
    apply spec_ret. intros s _. by split; [constructor|].
  - apply run_fact. intros HF. apply run_fact. intros Ha. rewrite bool_decide_true by done.
    eapply spec_bind; [apply (collect_exact I next shown Hs He l n); simpl in Hn; lia|]. intros out.
    apply spec_ret. intros s [H1 H2]. by split; [constructor|].
Qed.

Definition search (i : nat) comp s : sc := map_st (set_search comp false) s.

Lemma ready_search i ci comp s : ready i ci s -> ready i ci (search i comp s).
Proof. intros (Hc & H). by split. Qed.

Lemma index_read_map_enter i ci raw key flag buf s1 R :
  regular_index i ci -> ready i ci s1 ->
  run (at_ (search i (comparable sh junk i key) s1))
    (index_read_secondary sh stm (comparable sh junk i key) flag buf) R ->
  run (at_ s1) (index_read_map sh stm junk raw key flag buf) R.
Proof.
  intros Hi (Hc & _) Hk. unfold index_read_map. apply at_gets; [done|].
  change (active_index (st s1)) with (k_index (ctl s1)). pose proof Hc as (_ & -> & _).
  apply at_modify; [done|]. apply at_gets; [done|].
  change (is_pk_ (st (map_st _ s1))) with (k_pk (ctl s1)). pose proof Hc as (_ & _ & -> & _).
  rewrite (not_spatial _ _ Hi). exact Hk.
Qed.

(** The first read of an equality lookup: the first row of the group, or none. *)
Lemma equality_first rows i ci comp s1 buf :
  table_ok sh -> regular_index i ci -> plain_statement i -> rep rows v -> pks_ok rows -> ready i ci s1 ->
  run (at_ (search i comp s1)) (index_read_secondary sh stm comp HA_READ_KEY_EXACT buf)
    (fun res s => exists L, opened v ci None L /\
       match index_rows rows i (filter (fun e => is_prefix comp e.1 = true) L) with
       | [] => res.1 = HA_ERR_KEY_NOT_FOUND
       | p :: l => res.1 = FOUND /\ shows p.2 res.2 /\ grouping rows i comp (ctl (search i comp s1)) L l s
       end).
Proof.
  intros Hok Hi Hst Hrep Hpk Hr. unfold index_read_secondary.
  apply (at_with_iter i ci); [by apply ready_search|]. intros L o Ho. pose proof Ho as (Hs & Hg & _).
  unfold index_seek_secondary. cbn [is_backward]. rewrite bool_decide_false by done. apply cursor_move; [done|].
  destruct (group_split comp L o Hs) as (pre & g & others & HL & -> & Hpre & Hin & Hout).
  assert (filter (fun e => is_prefix comp e.1 = true) L = g) as Hf.
  { rewrite HL, filter_app, filter_none by (intros e He; by rewrite (Hpre e He)).
    apply filter_prefix; [done|]. intros e He. by rewrite (Hout e He). }
  assert (Forall2 (stands_for rows i) g (index_rows rows i g)) as H2.
  { apply (index_rows_stand rows i ci); try done. intros k x Hx. apply Hg. rewrite HL. apply elem_of_app. right.
    apply elem_of_app. by left. }
  unfold secondary_scan. apply cursor_rounds. rewrite bool_decide_true by done.
  eapply spec_weaken with (Q' := fun res s => match index_rows rows i g with
    | [] => res.1 = HA_ERR_KEY_NOT_FOUND
    | p :: l => res.1 = FOUND /\ shows p.2 res.2 /\ grouping rows i comp (ctl (search i comp s1)) L l s end);
    [|done| |done].
  2: { intros res s Hres. exists L. split; [done|]. by rewrite Hf. }
  destruct H2 as [|e p g l He H2].
  - eapply spec_weaken; [apply secondary_missing|done|done|done]. intros e He. apply Hout. by apply head_Some_elem_of.
  - cbn [app head]. eapply spec_weaken; [apply (secondary_found rows i ci _ (ctl (search i comp s1)) DIR_NONE DIR_FORWARD L e p)|done| |done]; try done.
    + by destruct Hr as (? & _).
    + by destruct Hrep as [_ (_ & ? & _)].
    + apply Hin. by left.
    + intros o'. unfold note_found. rewrite bool_decide_true by done. apply direct_spec.
    + intros res s (HF & Hsh & Hcur). split_and!; [done..|]. exists DIR_FORWARD, pre, e, g, others.
      split_and!; [done|done|intros x Hx; apply Hin; by right|done|done].
Qed.

Lemma in_order_filter lt rows l (P P' : bytes * record -> Prop) `{!forall p, Decision (P p), !forall p, Decision (P' p)} :
  (forall pk r, rows !! pk = Some r -> P (pk, r) <-> P' (pk, r)) ->
  in_order lt (filter P rows) l -> in_order lt (filter P' rows) l.
Proof.
  intros HP [Hs Hl]. split; [done|]. intros pk r. rewrite Hl, !map_lookup_filter_Some.
  split; intros [Hr Hp]; (split; [done|]); by apply (HP pk r).
Qed.

(** A search key no longer than the index's columns is compared with these alone. *)
Lemma prefix_of_key i ci comp pk r :
  table_ok sh -> regular_index i ci -> zlen comp <= comp_len sh i ->
  is_prefix comp (ikey i r ++ pk) = true <-> comp `prefix_of` ikey i r.
Proof.
  intros Hok Hi Hlen. rewrite is_prefix_iff. split.
  - intros [m Hm]. rewrite (metadata _ _ Hi), <- (index_key_length sh i r Hok) in Hlen.
    assert (comp = take (length comp) (ikey i r)) as ->; [|apply prefix_take].
    rewrite <- (take_app_le (ikey i r) pk) by (unfold zlen in Hlen; lia). rewrite Hm. by rewrite take_app_length.
  - intros H. by apply prefix_app_r.
Qed.

(** C6: An equality read of a regular secondary index and its continuations return exactly the rows whose key
    starts with the search key, each once and in index order; when there is none, the first read says so.
    This is for whole-row reads ([can_open]: no covering read) without a pushed index condition and without
    a kill ([plain_statement]), a search key no longer than the index's key, a library that does not fail,
    and a handler whose cached iterator, if the read takes it over, was opened without bounds ([cache_ok]).
    With the bounds of a range the same read can miss rows ([ScanExample.range_bounds_exclude_upper_value]). *)
Theorem index_lookup_exact rows i ci s0 raw key n buf :
  table_ok sh -> regular_index i ci -> plain_statement i -> rep rows v -> pks_ok rows -> can_open ci s0 ->
  (size rows <= n)%nat -> zlen (comparable sh junk i key) <= comp_len sh i ->
  run (at_ s0)
    (index_init sh i;; read_then n (index_read_map sh stm junk raw key HA_READ_KEY_EXACT) (index_next_same sh stm) buf)
    (fun out _ => exists l,
       in_order (index_lt i) (filter (fun p => comparable sh junk i key `prefix_of` ikey i p.2) rows) l /\
       Forall2 (fun p b => shows p.2 b) l out.1 /\
       out.2 = match l with [] => HA_ERR_KEY_NOT_FOUND | _ => HA_ERR_END_OF_FILE end).
Proof.
  intros Hok Hi Hst Hrep Hpk Hop Hn Hlen. eapply spec_bind; [by apply (index_init_spec i ci)|]. intros rc.
  apply run_fact. intros _. apply run_at_ex. intros s1 Hr. set (comp := comparable sh junk i key) in *.
  set (L := sorted_entries ci v). pose proof (sorted_opened ci v) as Ho. fold L in Ho.
  set (g := filter (fun e : entry => is_prefix comp e.1 = true) L). set (l := index_rows rows i g).
  assert (in_order (index_lt i) (filter (fun p => comp `prefix_of` ikey i p.2) rows) l) as Hord.
  { assert (forall e, e ∈ g <-> e ∈ L /\ is_prefix comp e.1 = true) as Hmem
      by (intros e; unfold g; rewrite list_elem_of_filter; tauto).
    pose proof (index_rows_order rows i ci L g (fun k => is_prefix comp k = true) Hok Hi Hrep Hpk Ho
      (ascending_filter _ L (proj1 Ho)) Hmem) as Hord.
    eapply in_order_filter; [|exact Hord]. intros pk r _. by apply (prefix_of_key i ci). }
  pose proof (in_order_length _ _ _ (index_lt_ne i) Hord) as Hl.
  pose proof (map_size_filter (fun p : bytes * record => comp `prefix_of` ikey i p.2) rows) as Hle.
  assert (data_rep sh stored rows v) as Hd by (by destruct Hrep as [_ (_ & ? & _)]).
  assert (scans i (ctl (search i comp s1))) as Hc by (by destruct Hr).
  eapply spec_weaken; [|done| |done].
  - apply (read_then_exact (grouping rows i comp (ctl (search i comp s1)) L) (fun p b => shows p.2 b)
      (at_ s1) _ _ l n buf HA_ERR_KEY_NOT_FOUND).
    + intros p rest buf'. by apply (next_same_found rows i ci (ctl (search i comp s1)) L p rest buf' Hok Hi Hst Hc Hd (proj1 Ho)).
    + intros buf'. by apply (next_same_end rows i (ctl (search i comp s1)) L buf' Hst Hc (proj1 Ho)).
    + lia.
    + done.
    + apply (index_read_map_enter i ci); [done|done|]. fold comp.
      eapply spec_weaken; [by apply (equality_first rows i ci)|done| |done].
      intros res s' (L' & Ho' & Hres). rewrite (opened_unique v ci L' L Ho' Ho) in Hres. exact Hres.
  - intros out s' [H1 H2]. by exists l.
Qed.


(** ** The whole index *)

Lemma cursor_with_iter c dir L o buf (m : M sc (read_code * record)) R :
  run (cursor c dir L o) m R -> run (cursor c dir L o) (with_iter buf m) R.
Proof.
  intros Hm. apply run_cursor. intros s0 Hst. pose proof Hst as (_ & _ & it & Hi & _). unfold with_iter, ensure_scan_iter.
  apply run_assoc, at_gets_id. intros e. change (cur (with_lib e s0)) with (cur s0). rewrite Hi.
  rewrite bool_decide_true by (by eexists). intros s Hs. apply Hm. by exists s0.
Qed.

(** [index_next] is to return the rows [l]: the cursor is before them, or on the row returned last. *)
Definition walking rows (i : nat) c L (l : list (bytes * record)) s : Prop :=
  exists pre more, L = pre ++ more /\ Forall2 (stands_for rows i) more l /\
    (cursor c DIR_NONE L (head more) s \/ exists pre' e, pre = pre' ++ [e] /\ cursor c DIR_FORWARD L (Some e) s).

Definition index_walk buf : M sc (read_code * record) :=
  secondary_scan sh stm (fun _ => true) HA_ERR_END_OF_FILE Next (note_always DIR_FORWARD) buf.

(** [index_next] steps past the row returned last and reads on. *)
Lemma index_next_enter rows i c L l buf R :
  plain_statement i -> scans i c -> ascending L ->
  (forall dir pre more, L = pre ++ more -> Forall2 (stands_for rows i) more l ->
     run (cursor c dir L (head more)) (index_walk buf) R) ->
  run (walking rows i c L l) (index_next sh stm buf) R.
Proof.
  intros [Hk _] (_ & _ & Hpk & Hsp & _ & Hex) Hs Hw s (pre & more & HL & Hm & Hcur).
  assert (forall dir o, run (cursor c dir L o)
    (bind (if bool_decide (dir = DIR_NONE) then ret tt else move Next) (fun _ => index_walk buf)) R ->
    run (cursor c dir L o) (index_next sh stm buf) R) as Henter.
  { intros dir o H. unfold index_next. rewrite Hk. apply run_cursor. intros s0 Hst. pose proof Hst as (Hc & Hd & _).
    apply at_gets_id. intros e. change (spatial_scan_active_ (spat (with_lib e s0))) with (k_spatial (ctl s0)).
    change (is_pk_ (st (with_lib e s0))) with (k_pk (ctl s0)).
    change (idx_pk_exact_done_ (st (with_lib e s0))) with (k_exact (ctl s0)).
    change (scan_dir_ (st (with_lib e s0))) with (scan_dir_ (st s0)). rewrite Hc, Hsp, Hpk, Hex, Hd.
    intros s' Hs'. apply (cursor_with_iter c dir L o buf _ R H). by exists s0. }
  destruct Hcur as [Hcur|(pre' & e & -> & Hcur)].
  - refine (Henter DIR_NONE (head more) _ s Hcur). rewrite bool_decide_true by done. by apply (Hw DIR_NONE pre).
  - refine (Henter DIR_FORWARD (Some e) _ s Hcur). rewrite bool_decide_false by done. rewrite <- app_assoc in HL.
    apply (cursor_next t v c DIR_FORWARD L pre' e more); [done|done|]. apply (Hw _ (pre' ++ [e])); [by rewrite <- app_assoc|done].
Qed.

Lemma index_next_found rows i ci c L p l buf :
  table_ok sh -> regular_index i ci -> plain_statement i -> scans i c -> data_rep sh stored rows v -> ascending L ->
  run (walking rows i c L (p :: l)) (index_next sh stm buf)
    (fun res s => res.1 = FOUND /\ shows p.2 res.2 /\ walking rows i c L l s).
Proof.
  intros Hok Hi Hst Hc Hd Hs. apply (index_next_enter rows i); [done..|]. intros dir pre more HL Hm.
  apply Forall2_cons_inv_r in Hm as (e & more' & He & Hm & ->). unfold index_walk, secondary_scan. apply cursor_rounds.
  cbn [head]. eapply spec_weaken; [apply (secondary_found rows i ci _ c dir DIR_FORWARD L e p)|done| |done]; try done.
  - intros o. apply direct_spec.
  - intros res s (HF & Hsh & Hcur). split_and!; [done..|]. exists (pre ++ [e]), more'.
    split_and!; [by rewrite HL, <- app_assoc|done|]. right. by exists pre, e.
Qed.

Lemma index_next_end rows i c L buf :
  plain_statement i -> scans i c -> ascending L ->
  run (walking rows i c L []) (index_next sh stm buf) (fun res s => res.1 = HA_ERR_END_OF_FILE).
Proof.
  intros Hst Hc Hs. apply (index_next_enter rows i); [done..|]. intros dir pre more HL Hm. inversion Hm.
  unfold index_walk, secondary_scan. apply cursor_rounds. by apply secondary_missing.
Qed.

(** A scan of an index from [index_first] returns every row of the table once, in the order of its
    key in the index and, among equal keys, of its primary key. *)
Lemma index_scan_exact rows i ci s0 n buf :
  table_ok sh -> regular_index i ci -> plain_statement i -> rep rows v -> pks_ok rows -> can_open ci s0 ->
  (size rows <= n)%nat ->
  run (at_ s0) (index_init sh i;; read_then n (index_first sh stm) (index_next sh stm) buf)
    (fun out _ => exists l, in_order (index_lt i) rows l /\ Forall2 (fun p b => shows p.2 b) l out.1 /\
       out.2 = HA_ERR_END_OF_FILE).
Proof.
  intros Hok Hi Hst Hrep Hpk Hop Hn. eapply spec_bind; [by apply (index_init_spec i ci)|]. intros rc.
  apply run_fact. intros _. apply run_at_ex. intros s1 Hr. pose proof (proj1 Hr) as Hc.
  set (L := sorted_entries ci v). pose proof (sorted_opened ci v) as Ho. fold L in Ho. pose proof Ho as (Hs & Hg & _).
  assert (data_rep sh stored rows v) as Hd by (by destruct Hrep as [_ (_ & ? & _)]).
  pose proof (index_rows_order rows i ci L L (fun _ => True) Hok Hi Hrep Hpk Ho Hs ltac:(intros e; tauto)) as Hord.
  rewrite map_filter_id in Hord by done. pose proof (in_order_length _ _ _ (index_lt_ne i) Hord) as Hl.
  pose proof (index_rows_stand rows i ci L Hok Hi Hrep Hpk Hg) as H2.
  set (s2 := map_st (set_exact_done false) s1).
  assert (scans i (ctl s2)) as Hc2 by (destruct Hc as (? & ? & ? & ? & ? & ?); by repeat split).
  assert (ready i ci s2) as Hr2 by (destruct Hr as (_ & Hr); by split).
  eapply spec_weaken; [|done| |done].
  - apply (read_then_exact (walking rows i (ctl s2) L) (fun p b => shows p.2 b) (at_ s1) _ _
      (index_rows rows i L) n buf HA_ERR_END_OF_FILE); [|by intros buf'; apply (index_next_end rows i)|lia|done|].
    { intros p rest buf'. by apply (index_next_found rows i ci). }
    unfold index_first. apply at_modify; [done|]. apply (at_with_iter i ci); [done|].
    intros L' o Ho'. rewrite (opened_unique v ci L' L Ho' Ho).
    apply (cursor_ctl _ _ _ _ _ k_pk); [done|]. fold s2. rewrite (proj1 (proj2 (proj2 Hc2))).
    apply cursor_move; [done|]. rewrite target_all by done. cbn [forward]. apply cursor_direct.
    eapply (spec_pre _ (walking rows i (ctl s2) L (index_rows rows i L)));
      [|intros s Hcur; exists [], L; split_and!; [done|done|by left]].
    destruct (index_rows rows i L) as [|p l]; [by apply (index_next_end rows i)|by apply (index_next_found rows i ci)].
  - intros out s' [H1 ->]. exists (index_rows rows i L). split_and!; [done..|]. by destruct (index_rows rows i L).
Qed.

End Index.
End ScanIndex.
