(* ===== verification/ScanExample.v ===== *)
(** * Scans of a concrete table

    The table of [DmlExample] read over the map library: witnesses of the scan theorems, and the reads
    on which the code departs from what it means to do.  The table [pair_table] has the primary key
    [(id, a)]. *)
From S2P Require Import Prelude Effects TidesDb RowDb RowFormat FtsText Table KeyCodec Dml TableRep DmlSpec DmlExample Spatial CursorDb Scan ScanSpec ScanIndex.
Import Table KeyCodec Dml TableRep DmlExample Scan ScanSpec ScanIndex.
#[local] Open Scope Z_scope.
#[local] Open Scope tdb_scope.

Module ScanExample.

#[local] Existing Instance KeyCodec.example_server.
#[local] Existing Instance FtsText.example_charset.
#[local] Existing Instance ex_services.
#[local] Abbreviation svc := (ex_services true).
#[local] Open Scope eff_scope.

(** The columns of a stored row, cut where they end. *)
Definition ex_deserialize (b : bytes) : record :=
  let x := drop 1 b in
  {| nulls := [0]; slots := [take 4 x; take 2 (drop 4 x); take 5 (drop 6 x); drop 11 x] |}.

#[export] Instance ex_reader : RowReader mem_db := {|
  deserialize_row b _ := ret (ex_deserialize b);
  index_cond_check _ := ICP_MATCH |}.

Definition ex_stored (r : record) (b : bytes) : Prop := b = ex_serialize r.

Lemma cut_columns (x : bytes) : take 4 x ++ take 2 (drop 4 x) ++ take 5 (drop 6 x) ++ drop 11 x = x.
Proof.
  assert (forall n m, take n (drop m x) ++ drop (m + n) x = drop m x) as H
    by (intros n m; rewrite <- drop_drop; apply take_drop).
  change (take 4 x ++ take 2 (drop 4 x) ++ take 5 (drop (4 + 2) x) ++ drop ((4 + 2) + 5) x = x).
  rewrite !H. apply take_drop.
Qed.

#[export] Program Instance ex_reader_ok : ReaderOk mem_db unit ex_stored := {|
  shows r buf := concat (slots buf) = concat (slots r) /\ buf = ex_deserialize (ex_serialize r) |}.
Next Obligation.
  intros d ws t r b buf -> e He. split; [done|]. split; [|done]. unfold ex_deserialize, ex_serialize. cbn [slots concat drop].
  rewrite app_nil_r. apply cut_columns.
Qed.

#[local] Abbreviation scr := (scanner mem_db unit mem_iter).

Definition no_scan : scan_state unit := {|
  scan_cf_ := None; scan_range_ := None; idx_pk_exact_done_ := false; scan_dir_ := DIR_NONE; idx_search_comp_ := [];
  pk_partial_exact_active_ := false; active_index := MAX_KEY; is_pk_ := false; scan_iter_last_err_ := None |}.

(** A statement about to read the contents [d]. *)
Definition ex_scanner (d : store) (fates : list fate) : scr := {|
  base := ex_handler d [] ex_bulk fates;
  icache := {| cached := None; scan_iter_cf_ := None; scan_iter_txn_ := None; scan_iter_txn_gen_ := 0 |};
  st := no_scan;
  spat := {| spatial_scan_active_ := false; spatial_mode_ := HA_READ_KEY_EXACT; spatial_qmbr_ := Spatial.no_points;
             spatial_ranges_ := []; spatial_range_idx_ := 0 |};
  mrr := {| mrr_custom_active_ := false; mrr_no_assoc_ := false; mrr_keyno_ := 0; mrr_entries_ := []; mrr_next_idx_ := 0 |};
  keyread_only_ := false |}.

Definition ex_statement : statement := {| read_set := []; killed := false; pushed_idx_cond_keyno := None |}.

Definition store78 : store := apply_writes (stores (pk_at 8) r8) store7.
Definition rows78 : gmap bytes record := <[pk_at 8 := r8]> {[pk_at 7 := r7]}.

#[local] Abbreviation all := (fun _ : nat => True).

Lemma store78_rep : table_rep (RowServices0 := svc) ex_table ex_fields ex_stored all rows78 store78.
Proof. apply ex_rep_insert; [apply store7_rep|apply r8_good|done|by vm_compute]. Qed.

Lemma ex_at d fates : Forall dies_or_works fates -> ScanSpec.at_ tt d (ex_scanner d fates) (ex_scanner d fates).
Proof. intros Hf. exists (lib (base (ex_scanner d fates))). split; [done|]. by split. Qed.

(** The rows [r7] and [r8] as a scan shows them. *)
Definition shown (l : list Z) : list record := map (fun i => ex_deserialize (ex_serialize (if i =? 7 then r7 else r8))) l.

Definition scan_all (s : scr) := bind (rnd_init (RowServices0 := svc) ex_table) (fun _ => collect 3 (rnd_next ex_statement) r7) s.

Lemma ex_scan_all : (scan_all (ex_scanner store78 [])).2 = Ret (shown [7; 8], HA_ERR_END_OF_FILE).
Proof. vm_compute. reflexivity. Qed.

(** ** Departures *)

Definition pair_key : KEY := {| key_part := [part col_id 4 false; part col_a 2 false]; is_spatial_index := false |}.

Definition pair_table : share := {|
  codec := open_build_index_meta 4 true 0 [pair_key];
  cf := bs "d";
  idx_cfs := [None];
  idx_kind := [regular];
  nosame := [true];
  encrypted := false;
  ref_length := comparable_key_length pair_key;
  has_next_number := false;
  triggers := false;
  table_name := (bs "db", bs "t");
  fts_opts := FtsText.example_opts |}.

Definition pair_put (r : record) : write :=
  W_put (bs "d") (RowFormat.build_data_key (pk_of pair_table r [])) (ex_serialize r).

Definition pair_store : store := apply_writes [pair_put r7; pair_put r8] {[bs "d" := ∅]}.

(** The search key [id = n], four bytes of the key's six. *)
Definition id_is (n : Z) : key_range := (ex_row n 0 0 0, 4).

Definition ids (rows : list record) : list Z := map ex_id rows.

(** The answer of a read of the primary key, as the code and the id of the row. *)
Definition pk_read (sh : share) (d : store) (key : key_range) (flag : ha_rkey_function) : reply (read_code * Z) :=
  match (bind (index_init (RowServices0 := svc) sh 0) (fun _ =>
           index_read_map sh ex_statement junk9 [] key flag r7) (ex_scanner d [])).2 with
  | Ret (c, buf) => Ret (c, ex_id buf)
  | Crash => Crash
  end.

(** An equality read on the first columns of a composite primary key answers with another row when
    no row has the values: the seek finds the next greater key, and the prefix is compared only by the
    continuations.  Here [id = 5] finds the row 7. *)
Lemma partial_key_reads_other_row :
  pk_read pair_table pair_store (id_is 5) HA_READ_KEY_EXACT = Ret (FOUND, 7).
Proof. vm_compute. reflexivity. Qed.

(** The last row under a prefix of the primary key is looked for before the prefix, where every key under
    it is greater: with [id = 8] the answer is the row 7.  A read strictly after the prefix answers with
    a row under it. *)
Lemma prefix_bounds_ignore_suffixes :
  pk_read pair_table pair_store (id_is 8) HA_READ_PREFIX_LAST = Ret (FOUND, 7) /\
  pk_read pair_table pair_store (id_is 7) HA_READ_AFTER_KEY = Ret (FOUND, 7).
Proof. split; vm_compute; reflexivity. Qed.

(** A read at or before a key of a table that keeps full-text statistics: when no row is that small, the
    seek back stops at the statistics, and the read goes forward from there. *)
Lemma read_before_first_row_goes_forward :
  let stats := W_put (bs "d") (RowFormat.KEY_NS_META :: FTS_META_KEY_TAG ++ [2]) [0] in
  pk_read ex_table (apply_write stats store78) (id_is 3) HA_READ_KEY_OR_PREV = Ret (FOUND, 7) /\
  pk_read ex_table store78 (id_is 3) HA_READ_KEY_OR_PREV = Ret (HA_ERR_END_OF_FILE, 7).
Proof. split; vm_compute; reflexivity. Qed.

(** The index on [a], a range of it and what a read answers. *)
Definition a_is (n : Z) : key_range := (ex_row 0 n 0 0, 2).

Definition range_read (d : store) (lo hi : option key_range) (key : key_range) (flag : ha_rkey_function) :
    reply (list Z * read_code) :=
  match (bind (index_init (RowServices0 := svc) ex_table 1) (fun _ =>
           bind (read_range_first_setup ex_table junk9 lo hi) (fun _ =>
             read_then 3 (index_read_map ex_table ex_statement junk9 [] key flag) (index_next_same ex_table ex_statement) r7))
           (ex_scanner d [])).2 with
  | Ret (rows, c) => Ret (ids rows, c)
  | Crash => Crash
  end.

(** The bounds of a range end at the upper value itself, and every entry of that value is longer:
    with an iterator that keeps to its bounds, the read of the range from [a = 1] to [a = 1] finds
    nothing, while the same read without bounds finds the row 7. *)
Lemma range_bounds_exclude_upper_value :
  range_read store78 (Some (a_is 1)) (Some (a_is 1)) (a_is 1) HA_READ_KEY_EXACT = Ret ([], HA_ERR_KEY_NOT_FOUND) /\
  range_read store78 None None (a_is 1) HA_READ_KEY_EXACT = Ret ([7], HA_ERR_END_OF_FILE).
Proof. split; vm_compute; reflexivity. Qed.

(** A read strictly before a key of a secondary index answers with a row that has the key: the seek goes
    to the end of the key's group, as for a read at or before it. *)
Lemma secondary_read_before_finds_key :
  match (bind (index_init (RowServices0 := svc) ex_table 1) (fun _ =>
           index_read_map ex_table ex_statement junk9 [] (a_is 1) HA_READ_BEFORE_KEY r8) (ex_scanner store78 [])).2 with
  | Ret (c, buf) => (c, slot col_a buf)
  | Crash => (HA_ERR_END_OF_FILE, [])
  end = (FOUND, slot col_a r7).
Proof. vm_compute. reflexivity. Qed.

(** A table scan that follows a range read of the primary key on the same handler takes over the
    range's iterator, which is of the same family and transaction, and with it the bounds: of the rows
    7 and 8 only 8, the row of the range, is returned. *)
Lemma bounded_iterator_reused :
  (bind (index_init (RowServices0 := svc) ex_table 0) (fun _ =>
     bind (read_range_first_setup ex_table junk9 (Some (id_is 8)) (Some (id_is 8))) (fun _ =>
       bind (index_read_map ex_table ex_statement junk9 [] (id_is 8) HA_READ_KEY_OR_NEXT r7) (fun _ =>
         bind (index_end) (fun _ => scan_all)))) (ex_scanner store78 [])).2 = Ret (shown [8], HA_ERR_END_OF_FILE) /\
  (scan_all (ex_scanner store78 [])).2 = Ret (shown [7; 8], HA_ERR_END_OF_FILE).
Proof. split; vm_compute; reflexivity. Qed.

(** A read that fails is the end of the scan: the statement succeeds on part of the table. *)
Lemma failed_read_ends_scan :
  (scan_all (ex_scanner store78 [works; works; works; works; fails])).2 = Ret (shown [7], HA_ERR_END_OF_FILE).
Proof. vm_compute. reflexivity. Qed.

(** ** Witnesses *)

Lemma table_scan_exact_witness :
  exists l, in_order pk_lt rows78 l /\
    Forall2 (fun p b => shows (ReaderOk := ex_reader_ok) p.2 b) l (shown [7; 8]) /\ HA_ERR_END_OF_FILE = HA_ERR_END_OF_FILE.
Proof.
  refine (spec_run _ _ (fun out _ => exists l, in_order pk_lt rows78 l /\
      Forall2 (fun p b => shows (ReaderOk := ex_reader_ok) p.2 b) l out.1 /\ out.2 = HA_ERR_END_OF_FILE) _
    (ex_scanner store78 []) (shown [7; 8], HA_ERR_END_OF_FILE)
    (table_scan_exact (RowServices0 := svc) ex_table ex_statement ex_fields ex_stored all tt store78 rows78
      (ex_scanner store78 []) 3 r7 store78_rep _ _ _ _) _ _).
  - reflexivity.
  - intros it Hit. discriminate Hit.
  - reflexivity.
  - vm_compute. lia.
  - apply ex_at, Forall_nil_2.
  - vm_compute. reflexivity.
Defined.

Lemma ex_index_a : regular_index ex_table all 1 (bs "a").
Proof. split; try exact I; vm_compute; try reflexivity; lia. Defined.

Lemma ex_pks78 : pks_ok rows78.
Proof. apply (map_Forall_to_list (fun pk _ => pk <> [])). vm_compute. repeat constructor; discriminate. Qed.

Lemma ex_can_open ci : can_open tt store78 ci (ex_scanner store78 []).
Proof. split_and!; [reflexivity..|]. intros it Hit. discriminate Hit. Qed.

Lemma index_lookup_exact_witness :
  exists l, in_order (index_lt ex_table 1)
      (filter (fun p => comparable ex_table junk9 1 (a_is 1) `prefix_of` index_key ex_table 1 p.2) rows78) l /\
    Forall2 (fun p b => shows (ReaderOk := ex_reader_ok) p.2 b) l (shown [7]) /\
    HA_ERR_END_OF_FILE = match l with [] => HA_ERR_KEY_NOT_FOUND | _ => HA_ERR_END_OF_FILE end.
Proof.
  refine (spec_run _ _ (fun out _ => exists l, in_order (index_lt ex_table 1)
      (filter (fun p => comparable ex_table junk9 1 (a_is 1) `prefix_of` index_key ex_table 1 p.2) rows78) l /\
      Forall2 (fun p b => shows (ReaderOk := ex_reader_ok) p.2 b) l out.1 /\
      out.2 = match l with [] => HA_ERR_KEY_NOT_FOUND | _ => HA_ERR_END_OF_FILE end) _
    (ex_scanner store78 []) (shown [7], HA_ERR_END_OF_FILE)
    (index_lookup_exact (RowServices0 := svc) ex_table ex_statement junk9 ex_fields ex_stored all tt store78 rows78
      1 (bs "a") (ex_scanner store78 []) [] (a_is 1) 3 r7 ex_table_ok ex_index_a _ store78_rep ex_pks78 (ex_can_open _) _ _) _ _).
  - split; [reflexivity|discriminate].
  - vm_compute. lia.
  - vm_compute. discriminate.
  - apply ex_at, Forall_nil_2.
  - vm_compute. reflexivity.
Defined.

End ScanExample.
