(* ===== verification/Counters.v ===== *)
(** * Row ids and auto-increment values ([ha_tidesdb_open.cc], [ha_tidesdb.cc])

    The counters a table hands its ids out from live in memory.  [recover_counters] sets them when a
    table is opened, from the last row in key order, from the last entry of the auto-increment
    column's index or from a stored first value; [get_auto_increment] takes an interval and
    [reset_auto_increment] moves them.  The counters are passed as a value; [record1] is the server's
    scratch record.  Reads of the counters by concurrent statements are one atomic step each. *)
From stdpp Require Import sorting.
From S2P Require Import Prelude Effects TidesDb RowDb RowFormat FtsText Table KeyCodec Dml TableRep Spatial CursorDb Quiet Scan ScanSpec TableMeta DmlExample ScanExample.
Import Table KeyCodec Dml TableRep Scan.
#[local] Open Scope Z_scope.
#[local] Open Scope tdb_scope.

Module Counters.

Definition HIDDEN_PK_FIRST_ROW_ID : Z := 1.

Record counters := { row_id : Z; auto_inc : Z }.

Definition set_row_id (x : Z) (c : counters) : counters := {| row_id := x; auto_inc := auto_inc c |}.
Definition set_auto_inc (x : Z) (c : counters) : counters := {| row_id := row_id c; auto_inc := x |}.

Section code.
Context {E txn : Type} `{!TidesDb E txn, !RowServices E txn, !CursorDb E txn, !RowReader E} {SF : ServerField}.
Context (sh : share) (found_next_number_field : option Field) (record1 : record).
Local Open Scope eff_scope.

(** The first part of the key is the column. *)
Definition leads (f : Field) (ki : KEY) : bool :=
  match key_part ki with kp :: _ => bool_decide (field kp = f) | [] => false end.

Definition auto_inc_is_pk_leftmost : bool :=
  match found_next_number_field with
  | Some f => has_user_pk (codec sh) && leads f (key_info_of sh (pk_index (codec sh)))
  | None => false
  end.

(** An iterator placed on the last entry of a family and freed after a look at it. *)
Definition at_last (t : txn) (c : bytes) (look : iter E -> M E counters) (cs : counters) : M E counters :=
  r <-- iter_new t c None;
  match r with
  | inl _ => ret cs
  | inr it =>
      it <-- iter_move Seek_to_last it;
      cs <-- (if bool_decide (here it = None) then ret cs else look it);
      iter_free it;;
      ret cs
  end.

Definition look_at_last_row (cs : counters) (it : iter E) : M E counters :=
  r <-- iter_read it;
  match r with
  | inl _ => ret cs
  | inr (key, _) =>
      if negb (RowFormat.is_data_key key) then ret cs
      else
        let cs := if negb (has_user_pk (codec sh)) &&
                     (zlen key =? RowFormat.KEY_NAMESPACE_LEN + Z.of_nat RowFormat.HIDDEN_PK_SIZE)
                  then set_row_id (u64 (RowFormat.decode_be64 (drop (Z.to_nat RowFormat.KEY_NAMESPACE_LEN) key) + 1)) cs
                  else cs in
        if negb auto_inc_is_pk_leftmost then ret cs
        else
          v <-- iter_read it;
          match v with
          | inl _ => ret cs
          | inr (_, val) => buf <-- deserialize_row val record1; ret (set_auto_inc (u64 (next_number buf)) cs)
          end
  end.

Definition look_at_last_entry (f : Field) (cs : counters) (it : iter E) : M E counters :=
  r <-- iter_read it;
  match r with
  | inl _ => ret cs
  | inr (ik, _) =>
      if zlen ik <? pack_length f then ret cs
      else match decode_sort_key_part ik (pack_length f) f record1 with
           | Some buf => ret (set_auto_inc (u64 (next_number buf)) cs)
           | None => ret cs
           end
  end.

Definition recover_auto_inc_secondary (cs : counters) : M E counters :=
  match found_next_number_field with
  | None => ret cs
  | Some f =>
      if negb (has_user_pk (codec sh)) || negb (auto_inc cs =? 0) || leads f (key_info_of sh (pk_index (codec sh)))
      then ret cs
      else
        let ai_key := find (fun i => negb (Nat.eqb i (pk_index (codec sh))) && leads f (key_info_of sh i))
                        (seq 0 (num_keys sh)) in
        match ai_key ≫= fun i => mjoin (idx_cfs sh !! i) with
        | None => ret cs
        | Some c =>
            r <-- txn_begin;
            match r with
            | inl _ => ret cs
            | inr t => cs <-- at_last t c (look_at_last_entry f cs) cs; txn_rollback t;; ret cs
            end
        end
  end.

Definition apply_auto_inc_start_meta (t : txn) (cs : counters) : M E counters :=
  match found_next_number_field with
  | None => ret cs
  | Some _ =>
      r <-- txn_get t (cf sh) TableMeta.AUTOINC_META_KEY;
      ret (match r with
           | inr mv =>
               let start := RowFormat.decode_be64 mv in
               if (zlen mv =? TableMeta.AUTOINC_META_VALUE_LEN) && (1 <? start) && (auto_inc cs <? start - 1)
               then set_auto_inc (start - 1) cs else cs
           | inl _ => cs
           end)
  end.

Definition recover_counters (cs : counters) : M E counters :=
  r <-- txn_begin;
  match r with
  | inl _ => ret cs
  | inr t =>
      cs <-- at_last t (cf sh) (look_at_last_row cs) cs;
      let cs := if negb (has_user_pk (codec sh)) && (row_id cs =? 0) then set_row_id HIDDEN_PK_FIRST_ROW_ID cs else cs in
      cs <-- recover_auto_inc_secondary cs;
      cs <-- apply_auto_inc_start_meta t cs;
      txn_rollback t;;
      ret cs
  end.

(** [get_auto_increment]: the first value of the interval and the counters after it; the interval has
    the length asked for. *)
Definition get_auto_increment (nb_desired_values : Z) (cs : counters) : Z * counters :=
  (u64 (auto_inc cs + 1), set_auto_inc (u64 (auto_inc cs + nb_desired_values)) cs).

Definition reset_auto_increment (value : Z) (cs : counters) : M E counters :=
  let cs := {| row_id := if 0 <? value then value else HIDDEN_PK_FIRST_ROW_ID;
               auto_inc := if 0 <? value then value - 1 else 0 |} in
  (if 1 <? value then TableMeta.write_auto_inc_meta (Some (cf sh)) value else ret tt);;
  ret cs.

End code.

(** ** Lemmas *)

Section Recovery.
Context {E txn : Type} `{!TidesDb E txn, !RowDb E txn, !RowServices E txn, !QuietDb E txn, !CursorDb E txn,
  !QuietCursor E txn, !RowReader E}.
Context {SF : ServerField} {CS : FtsText.charset}.
Context (sh : share) (ai : option Field) (record1 : record) (fields : list Field).
Context (stored : record -> bytes -> Prop) `{!ScanSpec.ReaderOk E txn stored}.
Local Open Scope eff_scope.

Implicit Types (rows : gmap bytes record) (cs : counters) (d : store).

#[local] Abbreviation run P m Q := (spec P m Q (fun _ => True)).

(** A look at the last entry of a family. *)
Lemma at_last_spec t d c look cs (R : counters -> Prop) :
  (mem_entries c d = [] -> R cs) ->
  (forall it x L, opened d c None L -> last L = Some x -> here it = Some x ->
     run (quiet_txn t d []) (look it) (fun cs e => quiet_txn t d [] e /\ R cs)) ->
  run (quiet_txn t d []) (at_last t c look cs) (fun cs e => quiet_txn t d [] e /\ R cs).
Proof.
  intros Hnone Hlook. unfold at_last. eapply spec_bind; [by eapply spec_crash; [apply q_iter_new|]|]. intros r.
  apply (spec_pure _ (exists it, r = inr it /\ opened d c None (walks it))); [by intros s [_ ?]|]. intros (it & -> & Ho).
  eapply spec_bind; [eapply spec_weaken; [apply (q_move t d [])|by intros s [? _]|intros a s Hs; exact Hs|done]|]. intros it'.
  apply (spec_pure _ (here it' = last (walks it))).
  { intros s (_ & _ & Hh). rewrite Hh by done. by apply target_all. }
  intros Hh. eapply (spec_pre _ (quiet_txn t d [])); [|by intros s [? _]].
  eapply (spec_bind _ _ (fun cs e => quiet_txn t d [] e /\ R cs)).
  - case_bool_decide as Hn.
    + apply spec_ret. intros s Hs. split; [done|]. apply Hnone. rewrite Hh in Hn. apply last_None in Hn.
      destruct (mem_entries c d) as [|[k x] l] eqn:Em; [done|].
      assert ((k, x) ∈ walks it) as Hin; [|rewrite Hn in Hin; by apply not_elem_of_nil in Hin].
      apply Ho; [|done]. apply elem_of_mem_entries. rewrite Em. by left.
    + destruct (last (walks it)) as [x|] eqn:El; [|by rewrite Hh in Hn]. by eapply Hlook.
  - intros cs'. apply (spec_pure _ (R cs')); [by intros s [_ ?]|]. intros HR.
    eapply spec_bind; [eapply spec_weaken; [apply (q_free t d [])|by intros s [? _]|intros a s Hs; exact Hs|done]|].
    intros ?. by apply spec_ret.
Qed.

(** The last of an ascending list is its greatest key. *)
Lemma ascending_last L x e : ascending L -> last L = Some x -> e ∈ L -> ~ x.1 <b e.1.
Proof.
  intros Ha Hl He Hlt. apply last_Some in Hl as [l ->]. apply ascending_app in Ha as (_ & _ & Hb).
  apply elem_of_app in He as [He|He%list_elem_of_singleton]; [|subst; by apply bytes_lt_irrefl in Hlt].
  specialize (Hb e x He ltac:(by left)). by apply (bytes_lt_irrefl e.1), (bytes_lt_trans _ x.1).
Qed.

(** The data family holds rows and meta records, nothing else. *)
Definition data_family_ok d : Prop :=
  forall k x, db_get (cf sh) k d = Some x ->
    (exists m, k = RowFormat.KEY_NS_META :: m) \/ exists pk, k = RowFormat.build_data_key pk.

(** When there is a row, the last entry is the row with the greatest key. *)
Lemma last_is_row rows d L x pk r :
  data_rep sh stored rows d -> data_family_ok d -> opened d (cf sh) None L -> last L = Some x -> rows !! pk = Some r ->
  exists pk' r', x.1 = RowFormat.build_data_key pk' /\ rows !! pk' = Some r' /\ stored r' x.2 /\
    forall pk'', is_Some (rows !! pk'') -> ~ pk' <b pk''.
Proof.
  intros Hd Hok (Ha & Hg & Hall) Hl Hr.
  assert (forall pk, is_Some (rows !! pk) -> exists b, (RowFormat.build_data_key pk, b) ∈ L) as Hin.
  { intros pk1 [r1 H1]. specialize (Hd pk1). rewrite H1 in Hd.
    destruct (db_get (cf sh) (RowFormat.build_data_key pk1) d) as [b|] eqn:Eb; [|done]. exists b. by apply Hall. }
  destruct (Hin pk ltac:(by eexists)) as [b Hb]. pose proof (ascending_last L x _ Ha Hl Hb) as Hmax. simpl in Hmax.
  destruct x as [k y]. assert ((k, y) ∈ L) as Hx by (apply last_Some in Hl as [l ->]; apply elem_of_app; right; by left).
  apply Hg in Hx. destruct (Hok k y Hx) as [[m ->]|[pk' ->]]; [by destruct Hmax|].
  specialize (Hd pk') as Hd'. rewrite Hx in Hd'. destruct (rows !! pk') as [r'|] eqn:Er; [|done].
  exists pk', r'. split_and!; [done..|]. intros pk'' [b'' Hb'']%Hin. intros Hlt.
  apply (ascending_last L _ _ Ha Hl Hb''). exact Hlt.
Qed.

(** What recovery promises: every hidden row id is below the next one, and every value of an ascending
    leading auto-increment column is at most the last one handed out. *)
Definition ids_below rows cs : Prop :=
  has_user_pk (codec sh) = false ->
  forall id, 0 <= id < 2 ^ 64 - 1 -> is_Some (rows !! RowFormat.encode_be64 id) -> id < row_id cs.

Definition numbers_below rows cs : Prop :=
  auto_inc_is_pk_leftmost sh ai = true -> forall pk r, rows !! pk = Some r -> next_number r <= auto_inc cs.

(** The primary key's first column sorts by its value, as integer columns do, and is not descending. *)
Definition leading_sorts rows : Prop :=
  forall kp kps pk pk' r r', key_part (key_info_of sh (pk_index (codec sh))) = kp :: kps -> reverse_sort kp = false ->
    rows !! pk = Some r -> rows !! pk' = Some r' -> part_cmp kp r r' <> Gt -> next_number r <= next_number r'.

Definition leading_ascends : Prop :=
  forall kp kps, key_part (key_info_of sh (pk_index (codec sh))) = kp :: kps -> reverse_sort kp = false.

Lemma numbers_sorted rows pk r pk' r' :
  table_ok sh -> rows_ok sh fields rows -> leading_sorts rows -> leading_ascends -> auto_inc_is_pk_leftmost sh ai = true ->
  rows !! pk = Some r -> rows !! pk' = Some r' -> ~ pk' <b pk -> next_number r <= next_number r'.
Proof.
  intros Hok Hro Hs Ha Hl Hr Hr' Hlt. destruct (Hro pk r Hr) as [Hg Hp], (Hro pk' r' Hr') as [Hg' Hp'].
  unfold auto_inc_is_pk_leftmost in Hl. destruct ai as [f|]; [|done]. apply andb_true_iff in Hl as [Hpk Hl].
  unfold leads in Hl. unfold pk_of in Hp, Hp'. rewrite Hpk in Hp, Hp'.
  destruct (key_part (key_info_of sh (pk_index (codec sh)))) as [|kp kps] eqn:Ek; [done|].
  apply (Hs kp kps pk pk' r r' Ek (Ha _ _ Ek) Hr Hr'). intros Hgt. apply Hlt.
  destruct Hok as [Hparts _]. specialize (Hparts (pk_index (codec sh))).
  destruct Hg as (R & F & _), Hg' as (R' & F' & _). specialize (F (pk_index (codec sh))). specialize (F' (pk_index (codec sh))).
  rewrite <- Hp, <- Hp'. unfold bytes_lt, index_key. rewrite !make_comparable_key_all.
  rewrite (parts_order fields) by done. rewrite Ek. simpl.
  assert (part_cmp kp r' r = Lt) as ->; [|done]. rewrite Ek in *.
  apply Forall_cons in Hparts as [Hkp _], F as [F _], F' as [F' _].
  rewrite <- (part_order fields kp r r' (fun _ => 0) (fun _ => 0) 0 0 0 0) in Hgt by done.
  rewrite <- (part_order fields kp r' r (fun _ => 0) (fun _ => 0) 0 0 0 0) by done.
  by rewrite bytes_cmp_antisym, Hgt.
Qed.

(** The auto-increment column reads back. *)
Definition numbers_read rows : Prop :=
  forall pk r buf, rows !! pk = Some r -> ScanSpec.shows r buf -> next_number buf = next_number r.

(** The rows a table can hold: ids of 64 bits short of the greatest, values that are not negative. *)
Definition ids_ok rows : Prop :=
  has_user_pk (codec sh) = false -> forall pk, is_Some (rows !! pk) -> exists id, 0 <= id < 2 ^ 64 - 1 /\ pk = RowFormat.encode_be64 id.

Definition numbers_ok rows : Prop := forall pk r, rows !! pk = Some r -> 0 <= next_number r < 2 ^ 64.

Lemma last_row_spec t d rows cs it x L :
  table_ok sh -> rows_ok sh fields rows -> data_rep sh stored rows d -> data_family_ok d -> leading_sorts rows ->
  leading_ascends -> ids_ok rows -> numbers_ok rows -> numbers_read rows -> opened d (cf sh) None L -> last L = Some x -> here it = Some x ->
  run (quiet_txn t d []) (look_at_last_row sh ai record1 cs it)
    (fun cs e => quiet_txn t d [] e /\ (ids_below rows cs /\ numbers_below rows cs)).
Proof.
  intros Hok Hro Hd Hf Hls Hla Hid Hnum Hrd Ho Hl Hx. unfold look_at_last_row.
  eapply spec_bind; [by eapply spec_crash; [by apply q_read|]|]. intros r.
  apply (spec_pure _ (r = inr x)); [by intros s [_ ?]|]. intros ->. eapply (spec_pre _ (quiet_txn t d [])); [|by intros s [? _]].
  destruct x as [key val].
  assert (db_get (cf sh) key d = Some val) as Hg
    by (apply Ho; apply last_Some in Hl as [l ->]; apply elem_of_app; right; by left).
  destruct (Hf key val Hg) as [[m ->]|[pk' ->]].
  { apply spec_ret. intros s Hs. split; [done|].
    assert (forall pk r, rows !! pk = Some r -> False) as Hno.
    { intros pk r Hr. by destruct (last_is_row rows d L _ pk r Hd Hf Ho Hl Hr) as (? & ? & ? & _). }
    split; [intros _ id _ [r Hr]; by apply Hno in Hr|intros _ pk r Hr; by apply Hno in Hr]. }
  specialize (Hd pk') as Hd'. rewrite Hg in Hd'. destruct (rows !! pk') as [r'|] eqn:Er; [|done].
  destruct (last_is_row rows d L _ pk' r' Hd Hf Ho Hl Er) as (pk1 & r1 & [= <-] & _ & _ & Hmax).
  change (RowFormat.is_data_key (RowFormat.build_data_key pk')) with true. cbn [negb].
  change (drop (Z.to_nat RowFormat.KEY_NAMESPACE_LEN) (RowFormat.build_data_key pk')) with pk'.
  set (cs1 := if _ && _ then _ else cs).
  assert (ids_below rows cs1) as Hids.
  { intros Hpk id Hlt Hi. destruct (Hid Hpk pk' ltac:(by eexists)) as (id' & Hlt' & ->). specialize (Hmax _ Hi).
    assert (cs1 = set_row_id (id' + 1) cs) as ->.
    { unfold cs1. rewrite Hpk. cbn [negb andb].
      assert (zlen (RowFormat.build_data_key (RowFormat.encode_be64 id')) = 9) as ->
        by (change (zlen _) with (Z.of_nat (S (length (RowFormat.encode_be64 id')))); by rewrite RowFormat.encode_be64_length).
      change (9 =? _) with true. cbn [andb].
      rewrite <- (app_nil_r (RowFormat.encode_be64 id')), RowFormat.decode_encode_be64 by lia.
      unfold u64. by rewrite Z.mod_small by lia. }
    simpl. destruct (Z.le_gt_cases id id') as [|Hgt]; [lia|]. destruct Hmax.
    unfold bytes_lt. rewrite RowFormat.encode_be64_order by lia. by apply Z.compare_lt_iff. }
  destruct (auto_inc_is_pk_leftmost sh ai) eqn:El; cbn [negb].
  - eapply spec_bind; [by eapply spec_crash; [by apply q_read|]|]. intros v.
    apply (spec_pure _ (v = inr (RowFormat.build_data_key pk', val))); [by intros s [_ ?]|]. intros ->.
    eapply spec_bind; [eapply spec_pre; [apply (ScanSpec.deserialize_law d [] t r' val record1 Hd')|by intros s [? _]]|].
    intros buf. apply spec_ret. intros s [Hs Hsh]. split; [done|]. split; [exact Hids|].
    intros _ pk r Hr. simpl. rewrite (Hrd _ _ _ Er Hsh). specialize (Hnum pk' r' Er).
    unfold u64. rewrite Z.mod_small by done. apply (numbers_sorted rows pk r pk' r'); try done. apply Hmax. by eexists.
  - apply spec_ret. intros s Hs. split; [done|]. split; [done|]. intros Hl'. congruence.
Qed.

(** The start value only raises the counter. *)
Lemma start_meta_spec t d rows cs :
  ids_below rows cs -> numbers_below rows cs ->
  run (quiet_at d) (apply_auto_inc_start_meta sh ai t cs)
    (fun cs e => quiet_at d e /\ (ids_below rows cs /\ numbers_below rows cs)).
Proof.
  intros Hi Hn. unfold apply_auto_inc_start_meta. destruct ai; [|by apply spec_ret].
  eapply spec_bind; [by eapply spec_crash; [apply q_get_any|]|]. intros r. apply spec_ret. intros s Hs. split; [done|].
  destruct r as [rc|mv]; [done|]. case_match eqn:Eb; [|done].
  apply andb_true_iff in Eb as [_ Hlt%Z.ltb_lt]. split; [exact Hi|]. intros Hl pk r Hr. specialize (Hn Hl pk r Hr).
  simpl in *. lia.
Qed.

(** The other index matters only where the column does not lead the primary key. *)
Lemma recover_secondary_spec d cs :
  run (quiet_at d) (recover_auto_inc_secondary sh ai record1 cs)
    (fun cs' e => quiet_at d e /\ (cs' = cs \/ (has_user_pk (codec sh) = true /\ auto_inc_is_pk_leftmost sh ai = false))).
Proof.
  unfold recover_auto_inc_secondary, auto_inc_is_pk_leftmost. destruct ai as [f|]; [|apply spec_ret; by auto].
  destruct (has_user_pk (codec sh)) eqn:Epk; cbn [negb orb andb]; [|apply spec_ret; by auto].
  destruct (leads f _); [rewrite orb_true_r; apply spec_ret; by auto|]. rewrite orb_false_r.
  destruct (negb (auto_inc cs =? 0)); [apply spec_ret; by auto|]. case_match; [|apply spec_ret; by auto].
  eapply spec_bind; [by eapply spec_crash; [apply q_begin|]|]. intros r.
  apply (spec_pure _ (exists t, r = inr t)); [by intros s (t & -> & _); exists t|]. intros [t ->].
  eapply (spec_pre _ (quiet_txn t d [])); [|by intros s (t' & [= ->] & ?)].
  eapply spec_bind; [apply (at_last_spec t d _ _ cs (fun _ => True)); [done|]|].
  - intros it x L _ _ Hx. unfold look_at_last_entry. eapply spec_bind; [by eapply spec_crash; [by apply q_read|]|].
    intros r. apply (spec_pure _ (r = inr x)); [by intros s [_ ?]|]. intros ->.
    eapply (spec_pre _ (quiet_txn t d [])); [|by intros s [? _]]. destruct x as [ik y].
    repeat case_match; apply spec_ret; by auto.
  - intros cs'. eapply spec_bind; [eapply spec_weaken; [apply (q_rollback t d)|intros s [Hs _]; by eapply quiet_txn_at| |done]|].
    + intros a s Hs. exact Hs.
    + intros ?. apply spec_ret. by auto.
Qed.

(** ** Properties *)


End Recovery.

(** The intervals handed out one after the other do not meet, as long as the counter does not wrap. *)
Lemma intervals_apart n cs :
  0 <= auto_inc cs -> 0 < n -> auto_inc cs + n < 2 ^ 64 ->
  (get_auto_increment n cs).1 = auto_inc cs + 1 /\ auto_inc (get_auto_increment n cs).2 = auto_inc cs + n /\
  forall n', (get_auto_increment n' (get_auto_increment n cs).2).1 = u64 ((get_auto_increment n cs).1 + n).
Proof.
  intros H0 Hn Hw. unfold get_auto_increment. simpl. unfold u64. rewrite !Z.mod_small by lia. split_and!; [done..|].
  intros _. f_equal. lia.
Qed.

(** ** Concrete tables *)

#[local] Existing Instance KeyCodec.example_server.
#[local] Existing Instance FtsText.example_charset.
#[local] Abbreviation svc := (DmlExample.ex_services true).

Definition opened_with (sh : share) (rows : list (bytes * record)) : reply counters :=
  (recover_counters (RowServices0 := svc) (RowReader0 := ScanExample.ex_reader) sh (Some col_id) DmlExample.r7
     {| row_id := 1; auto_inc := 0 |}
     {| mem := apply_writes (map (fun p => W_put (cf sh) (RowFormat.build_data_key p.1) (DmlExample.ex_serialize p.2)) rows)
                 {[cf sh := ∅]};
        buf := []; script := [] |}).2.

Definition counted_table (pk : bool) (kp : KEY_PART_INFO) : share := {|
  codec := open_build_index_meta 4 pk 0 [{| key_part := [kp]; is_spatial_index := false |}];
  cf := bs "d"; idx_cfs := [if pk then None else Some (bs "i")]; idx_kind := [regular]; nosame := [true];
  encrypted := false; ref_length := 4; has_next_number := true; triggers := false; table_name := (bs "db", bs "t");
  fts_opts := FtsText.example_opts |}.

Definition rows_of (sh : share) : list (bytes * record) :=
  map (fun r => (pk_of sh r (RowFormat.encode_be64 (DmlExample.ex_id r)), r)) [DmlExample.r7; DmlExample.r8].

(** Where the recovery of the counter goes wrong: with the auto-increment column descending in the
    primary key the last row is the smallest, and in a table without a primary key the counter is not
    recovered at all; after a restart both tables hand out ids they hold.  With an ascending key the
    greatest id is found. *)
Lemma counter_restarts_low :
  opened_with (counted_table true (part col_id 4 false)) (rows_of (counted_table true (part col_id 4 false))) =
    Ret {| row_id := 1; auto_inc := 8 |} /\
  opened_with (counted_table true (part col_id 4 true)) (rows_of (counted_table true (part col_id 4 true))) =
    Ret {| row_id := 1; auto_inc := 7 |} /\
  opened_with (counted_table false (part col_id 4 false)) (rows_of (counted_table false (part col_id 4 false))) =
    Ret {| row_id := 9; auto_inc := 0 |}.
Proof. split_and!; vm_compute; reflexivity. Qed.

Lemma store78_data_ok : data_family_ok DmlExample.ex_table ScanExample.store78.
Proof.
  intros k x Hin. apply elem_of_mem_entries in Hin.
  let l := eval vm_compute in (mem_entries (cf DmlExample.ex_table) ScanExample.store78) in
    change (mem_entries (cf DmlExample.ex_table) ScanExample.store78) with l in Hin.
  repeat (apply elem_of_cons in Hin as [[= -> ->]|Hin]; [right; eexists; reflexivity|]). by apply not_elem_of_nil in Hin.
Qed.

Lemma rows78_cases pk r : ScanExample.rows78 !! pk = Some r -> r = DmlExample.r7 \/ r = DmlExample.r8.
Proof.
  unfold ScanExample.rows78. intros [[_ <-]|[_ [_ <-]%lookup_singleton_Some]]%lookup_insert_Some; auto.
Qed.


End Counters.
