(* ===== verification/Sampling.v ===== *)
(** * Row samples and the emptiness test ([ha_tidesdb_sampling.cc])

    The server draws a sample of a table through the table scan.  [sample_next] rolls the dice on the
    key of a row and reads the row only when it is kept; the theorem shows that it returns the rows the
    server's own loop keeps, which reads every row.  The caller's generator and the distribution over it
    are parameters: a draw gives a number and the generator's next state. *)
From Stdlib Require Import SpecFloat.
From stdpp Require Import sorting.
From S2P Require Import Prelude Effects TidesDb RowDb RowFormat FtsText FtsScore Table KeyCodec Dml TableRep DmlSpec DmlExample Spatial CursorDb Quiet Scan ScanSpec ScanExample.
Import Table KeyCodec Dml TableRep Scan ScanSpec.
#[local] Open Scope Z_scope.
#[local] Open Scope tdb_scope.

Module Sampling.
Import FtsScore (double).

Section code.
Context {E txn : Type} `{!TidesDb E txn, !RowDb E txn, !RowServices E txn, !CursorDb E txn, !RowReader E}.
Context {SF : ServerField} `{!EqDecision txn}.
Context (sh : share) (stm : statement).
Context {rng : Type} (dice : rng -> double * rng).
Local Open Scope eff_scope.

#[local] Abbreviation sc := (scanner E txn (iter E)).

(** The loop; a round leaves an entry behind. *)
Fixpoint sample_loop (fuel : nat) (keep_fraction : double) (g : rng) (buf : record) : M sc (read_code * record * rng) :=
  match fuel with
  | O => ret (HA_ERR_END_OF_FILE, buf, g)
  | S fuel =>
      if killed stm then ret (HA_ERR_QUERY_INTERRUPTED, buf, g)
      else
        it <-- gets cur;
        if bool_decide (it = None) then ret (HA_ERR_END_OF_FILE, buf, g)
        else
          d <-- gets (fun s => scan_dir_ (st s));
          (if bool_decide (d = DIR_NONE) then ret tt else move Next);;
          direct DIR_FORWARD;;
          v <-- gets cur_entry;
          if bool_decide (v = None) then ret (HA_ERR_END_OF_FILE, buf, g)
          else
            r <-- read_key;
            match r with
            | None => ret (HA_ERR_END_OF_FILE, buf, g)
            | Some key =>
                if negb (RowFormat.is_data_key key) then sample_loop fuel keep_fraction g buf
                else
                  let '(x, g) := dice g in
                  if FtsScore.dlt keep_fraction x then sample_loop fuel keep_fraction g buf
                  else r <-- iter_read_current buf; ret (r, g)
            end
  end.

(** [m_sampling_percentage / 100.0]. *)
Definition fraction (percentage : double) : double := FtsScore.ddiv percentage (FtsScore.of_int 100).
Definition capped (keep_fraction : double) : double :=
  if FtsScore.dlt (FtsScore.of_int 1) keep_fraction then FtsScore.of_int 1 else keep_fraction.

Definition sample_next (engine : option rng) (percentage : double) (buf : record) :
    M sc (read_code * record * option rng) :=
  match engine with
  | None => r <-- rnd_next stm buf; ret (r, None)
  | Some g =>
      if SFleb (fraction percentage) FtsScore.ZERO then ret (HA_ERR_END_OF_FILE, buf, Some g)
      else
        n <-- gets rounds;
        r <-- sample_loop n (capped (fraction percentage)) g buf;
        ret (r.1, Some r.2)
  end.

(** ** Emptiness *)

Definition is_table_empty : M E bool :=
  r <-- txn_begin;
  match r with
  | inl _ => ret false
  | inr t =>
      i <-- iter_new t (cf sh) None;
      empty <-- (match i with
                 | inl _ => ret false
                 | inr it =>
                     it <-- iter_move (Seek [RowFormat.KEY_NS_DATA]) it;
                     empty <-- (match here it with
                                | None => ret true
                                | Some _ =>
                                    x <-- iter_key it;
                                    ret (match x with inr key => negb (RowFormat.is_data_key key) | inl _ => true end)
                                end);
                     iter_free it;; ret empty
                 end);
      txn_rollback t;; ret empty
  end.

(** ** The sample *)

(** The rows of a scan the dice keep, one draw for each row. *)
Fixpoint sampled (keep : double) (l : list (bytes * record)) (g : rng) : list (bytes * record) :=
  match l with
  | [] => []
  | p :: l => let '(x, g) := dice g in if FtsScore.dlt keep x then sampled keep l g else p :: sampled keep l g
  end.

(** The server's loop over the sample. *)
Fixpoint sample_rows (n : nat) (engine : option rng) (percentage : double) (buf : record) : M sc (list record * read_code) :=
  match n with
  | O => ret ([], FOUND)
  | S n =>
      r <-- sample_next engine percentage buf;
      if bool_decide (r.1.1 = FOUND) then l <-- sample_rows n r.2 percentage r.1.2; ret (r.1.2 :: l.1, l.2)
      else ret ([], r.1.1)
  end.

End code.

Section Spec.
Context {E txn : Type} `{!TidesDb E txn, !RowDb E txn, !RowServices E txn, !QuietDb E txn, !CursorDb E txn,
  !QuietCursor E txn, !RowReader E}.
Context {SF : ServerField} {CS : FtsText.charset} `{!EqDecision txn}.
Context (sh : share) (stm : statement) (fields : list Field).
Context (stored : record -> bytes -> Prop) (covered : nat -> Prop) `{!ReaderOk E txn stored}.
Context {rng : Type} (dice : rng -> double * rng).
Context (t : txn) (v : store).
Local Open Scope eff_scope.

#[local] Abbreviation sc := (scanner E txn (iter E)).
#[local] Abbreviation rep := (table_rep sh fields stored covered).
#[local] Abbreviation at_ := (at_ t v).
#[local] Abbreviation cursor := (cursor t v).
Implicit Types (s : sc) (buf r : record) (rows : gmap bytes record) (c : control (txn := txn)) (L more : list entry) (g : rng)
  (l : list (bytes * record)).

(** The entries [more] are still to come and hold the rows [l]. *)
Definition coming c L more l s : Prop :=
  exists pre, L = pre ++ more /\ holds_rows stored more l /\
    (cursor c DIR_NONE L (head more) s \/ exists pre' e, pre = pre' ++ [e] /\ cursor c DIR_FORWARD L (Some e) s).

Lemma coming_step {B : Type} c L more l (k : M sc B) R :
  ascending L -> (forall pre, L = pre ++ more -> run (cursor c DIR_FORWARD L (head more)) k R) ->
  run (coming c L more l)
    (bind (gets (fun s => scan_dir_ (st s))) (fun d =>
       bind (if bool_decide (d = DIR_NONE) then ret tt else move Next) (fun _ => bind (direct DIR_FORWARD) (fun _ => k)))) R.
Proof.
  intros Hs Hk s (pre & HL & _ & [Hc|(pre' & e & -> & Hc)]).
  - revert s Hc. apply run_cursor. intros s0 Hst. apply at_gets; [done|]. pose proof Hst as (_ & -> & _).
    rewrite bool_decide_true by done. intros s Hs'. apply (cursor_direct t v c DIR_NONE L (head more) DIR_FORWARD k R); [by apply (Hk pre)|].
    by exists s0.
  - revert s Hc. apply run_cursor. intros s0 Hst. apply at_gets; [done|]. pose proof Hst as (_ & -> & _).
    rewrite bool_decide_false by done. intros s Hs'. rewrite <- app_assoc in HL.
    apply (cursor_next t v c DIR_FORWARD L pre' e more); [done|done| |by exists s0].
    apply cursor_direct. apply (Hk (pre' ++ [e])). by rewrite <- app_assoc.
Qed.

Lemma coming_cur {B : Type} c L more l (k : option (iter E) -> M sc B) R :
  (forall it, run (coming c L more l) (k (Some it)) R) -> run (coming c L more l) (bind (gets cur) k) R.
Proof.
  intros Hk s Hs. pose proof Hs as (pre & HL & Hh & Hc).
  assert (exists it, cur s = Some it) as [it Hit].
  { destruct Hc as [(s0 & (e & -> & _) & _ & _ & it & Hi & _)|(pre' & e' & _ & (s0 & (e & -> & _) & _ & _ & it & Hi & _))]; by exists it. }
  unfold bind, gets. rewrite Hit. by apply (Hk it).
Qed.

(** One call: the rows the dice reject are passed over, the first one kept is read. *)
Fixpoint next_kept (keep : double) l g : option (bytes * record * list (bytes * record)) * rng :=
  match l with
  | [] => (None, g)
  | p :: l => let '(x, g) := dice g in if FtsScore.dlt keep x then next_kept keep l g else (Some (p, l), g)
  end.

Lemma sampled_next keep l g :
  sampled dice keep l g =
  match next_kept keep l g with (Some (p, l'), g') => p :: sampled dice keep l' g' | (None, _) => [] end.
Proof.
  revert g. induction l as [|p l IH]; intros g; simpl; [done|]. destruct (dice g) as [x g']. destruct (FtsScore.dlt keep x); [apply IH|done].
Qed.

Lemma sample_loop_spec c L keep fuel : forall more l g buf,
  ascending L -> killed stm = false -> (length more < fuel)%nat ->
  run (coming c L more l) (sample_loop stm dice fuel keep g buf)
    (fun res s => match next_kept keep l g with
                  | (Some (p, l'), g') => res.1.1 = FOUND /\ shows p.2 res.1.2 /\ res.2 = g' /\ scanning stored t v c L l' s
                  | (None, _) => res.1.1 = HA_ERR_END_OF_FILE
                  end).
Proof.
  induction fuel as [|fuel IH]; intros more l g buf Hs Hk Hf; [lia|]. cbn [sample_loop]. rewrite Hk.
  intros s Hcom. pose proof Hcom as (pre0 & HL0 & Hh & _). revert s Hcom.
  apply coming_cur. intros it. rewrite bool_decide_false by done. apply coming_step; [done|]. intros pre HL. apply cursor_entry.
  destruct more as [|[k x] more]; cbn [head].
  - rewrite bool_decide_true by done. apply spec_ret. intros s _. by inversion Hh.
  - rewrite bool_decide_false by done. apply cursor_read_key. cbn [fst]. unfold holds_rows in Hh. rewrite filter_cons in Hh.
    assert (forall l', holds_rows stored more l' -> forall s, cursor c DIR_FORWARD L (Some (k, x)) s -> coming c L more l' s) as Hgo.
    { intros l' Hl' s Hcs. exists (pre ++ [(k, x)]). split; [by rewrite HL, <- app_assoc|]. split; [done|]. right. by exists pre, (k, x). }
    unfold data_entry in Hh. cbn [fst] in Hh. destruct (RowFormat.is_data_key k) eqn:Ek; cbn [negb].
    + rewrite decide_True in Hh by done. inversion Hh as [|? p ? l' [Hkey Hst] Hl' E1 E2]. subst l. cbn [fst snd] in Hkey, Hst.
      cbn [next_kept]. destruct (dice g) as [y g']. destruct (FtsScore.dlt keep y).
      * eapply spec_pre; [apply (IH more l' g' buf); [done|done|simpl in Hf; lia]|by apply Hgo].
      * subst k. eapply spec_bind.
        -- unfold iter_read_current. apply cursor_rounds.
           apply (read_found stored t v _ c DIR_FORWARD L pre [] p.1 x more p.2 buf); [done|done|constructor|done|simpl; lia].
        -- intros res. apply spec_ret. intros s (Hfd & Hsh & Hrow & _). cbn [fst snd]. split_and!; [done..|].
           destruct (Hgo l' Hl' s Hrow) as (pre1 & ? & ? & ?). by exists pre1, more.
    + rewrite decide_False in Hh by done. eapply spec_pre; [apply (IH more l g buf); [done|done|simpl in Hf; lia]|by apply Hgo].
Qed.

Lemma next_kept_shorter keep l g p l' g' : next_kept keep l g = (Some (p, l'), g') -> (length l' < length l)%nat.
Proof.
  revert g. induction l as [|q l IH]; intros g; simpl; [done|]. destruct (dice g) as [x g1].
  destruct (FtsScore.dlt keep x); [intros H%IH; lia|]. intros [= _ -> _]. lia.
Qed.

Lemma sample_next_spec c L l g percentage buf :
  ascending L -> killed stm = false -> SFleb (fraction percentage) FtsScore.ZERO = false ->
  run (scanning stored t v c L l) (sample_next stm dice (Some g) percentage buf)
    (fun res s => match next_kept (capped (fraction percentage)) l g with
                  | (Some (p, l'), g') => res.1.1 = FOUND /\ shows p.2 res.1.2 /\ res.2 = Some g' /\ scanning stored t v c L l' s
                  | (None, _) => res.1.1 = HA_ERR_END_OF_FILE
                  end).
Proof.
  intros Hs Hk Hf. unfold sample_next. rewrite Hf. intros s Hsc. pose proof Hsc as (pre & more & HL & Hh & Hc).
  assert (rounds s = S (length L)) as Hr.
  { destruct Hc as [(s0 & (e & -> & _) & _ & _ & it & Hi & Hw & _)|(pre' & e' & _ & (s0 & (e & -> & _) & _ & _ & it & Hi & Hw & _))];
      unfold rounds; change (cur (with_lib e s0)) with (cur s0); by rewrite Hi, <- Hw. }
  unfold bind at 1, gets. rewrite Hr.
  assert (coming c L more l s) as Hcom by (exists pre; by split_and!). revert s Hsc Hc Hr Hcom.
  intros s _ _ _. revert s. eapply spec_bind.
  - apply (sample_loop_spec c L (capped (fraction percentage)) (S (length L)) more l g buf Hs Hk). rewrite HL, length_app. lia.
  - intros res. apply spec_ret. intros s Hres. cbn [fst snd]. destruct (next_kept _ l g) as [[[p l']|] g']; [|done].
    destruct Hres as (? & ? & -> & ?). done.
Qed.

Lemma sample_rows_spec c L percentage n : forall l g buf,
  ascending L -> killed stm = false -> SFleb (fraction percentage) FtsScore.ZERO = false -> (length l < n)%nat ->
  run (scanning stored t v c L l) (sample_rows stm dice n (Some g) percentage buf)
    (fun out _ => Forall2 (fun p b => shows p.2 b) (sampled dice (capped (fraction percentage)) l g) out.1 /\ out.2 = HA_ERR_END_OF_FILE).
Proof.
  induction n as [|n IH]; intros l g buf Hs Hk Hf Hn; [lia|]. cbn [sample_rows]. rewrite sampled_next.
  eapply spec_bind; [by apply sample_next_spec|]. intros res. destruct (next_kept _ l g) as [[[p l']|] g'] eqn:En.
  - apply run_fact. intros Hfd. apply run_fact. intros Hsh. apply run_fact. intros Hg. rewrite bool_decide_true by done. rewrite Hg.
    apply next_kept_shorter in En. eapply spec_bind; [apply (IH l' g'); [done..|lia]|]. intros out. apply spec_ret.
    intros s [H1 H2]. cbn [fst snd]. split; [by constructor|done].
  - apply (spec_pure _ (res.1.1 = HA_ERR_END_OF_FILE)); [done|]. intros He. rewrite bool_decide_false by congruence.
    apply spec_ret. intros s _. split; [constructor|done].
Qed.

(** C38: A sample of a positive percentage, in a statement that is not killed, on a handler that keeps no
    iterator of another snapshot or with bounds ([cache_ok]) and on a library that does not fail, is what the
    server's own loop would keep: the rows of the table scan, in the order of their primary keys, for which
    the draw of the caller's generator falls within the sampling fraction, with one draw for every row and
    none for the engine's own records, and then the end of the file. *)
Theorem sample_exact rows s0 n g percentage buf :
  rep rows v -> stmt_txn (base s0) = Some t -> cache_ok t v (cf sh) s0 -> killed stm = false ->
  SFleb (fraction percentage) FtsScore.ZERO = false -> (size rows < n)%nat ->
  run (at_ s0) (bind (rnd_init sh) (fun _ => sample_rows stm dice n (Some g) percentage buf))
    (fun out _ => exists l, in_order pk_lt rows l /\
       Forall2 (fun p b => shows p.2 b) (sampled dice (capped (fraction percentage)) l g) out.1 /\ out.2 = HA_ERR_END_OF_FILE).
Proof.
  intros [_ (_ & Hd & _)] Ht Hc Hk Hf Hn. eapply spec_bind; [by apply (rnd_init_spec sh stored t v rows)|]. intros rc.
  apply run_fact. intros _. intros s (c & L & Ho & Hs).
  pose proof (rows_in_order sh stored v rows L Hd Ho) as Hl. pose proof (in_order_length rows _ _ pk_lt_ne Hl) as Hlen.
  pose proof (sample_rows_spec c L percentage n (rows_in rows L) g buf (proj1 Ho) Hk Hf ltac:(lia) s Hs) as H.
  destruct (sample_rows stm dice n (Some g) percentage buf s) as [s' [out|]]; [|done]. destruct H as [H1 H2]. by exists (rows_in rows L).
Qed.

(** A seek to the data namespace stops at a row just if there is one. *)
Lemma first_data_key rows L o :
  data_rep sh stored rows v -> opened v (cf sh) None L ->
  (forall e : entry, target (Seek [RowFormat.KEY_NS_DATA]) L o = Some e -> RowFormat.is_data_key e.1 = true -> rows <> ∅) /\
  (rows <> ∅ -> exists e : entry, target (Seek [RowFormat.KEY_NS_DATA]) L o = Some e /\ RowFormat.is_data_key e.1 = true).
Proof.
  intros Hd Ho. pose proof Ho as (Hs & Hg & Hall).
  destruct (target_seek [RowFormat.KEY_NS_DATA] L o Hs) as (pre & more & HL & -> & Hpre & Hmore). split.
  - intros [k x] Hx Hk ->. assert ((k, x) ∈ L) as Hin by (rewrite HL; apply elem_of_app; right; by apply head_Some_elem_of).
    apply Hg in Hin. destruct (data_entry_rep sh stored v ∅ k x Hd Hin Hk) as (r & Hr & _). by rewrite lookup_empty in Hr.
  - intros (pk & r & Hr)%map_choose. specialize (Hd pk). rewrite Hr in Hd.
    destruct (db_get (cf sh) (RowFormat.build_data_key pk) v) as [x|] eqn:Ex; [|done].
    assert ([RowFormat.KEY_NS_DATA] `prefix_of` RowFormat.build_data_key pk) as Hp by (by exists pk).
    assert ((RowFormat.build_data_key pk, x) ∈ more) as Hin.
    { assert ((RowFormat.build_data_key pk, x) ∈ L) as Hin by (by apply Hall). rewrite HL in Hin.
      apply elem_of_app in Hin as [Hin|?]; [|done]. destruct (prefix_not_below _ _ Hp). by apply (Hpre _ Hin). }
    destruct more as [|e more]; [by apply not_elem_of_nil in Hin|]. exists e. split; [done|].
    assert ([RowFormat.KEY_NS_DATA] `prefix_of` e.1) as [m ->]; [|done].
    apply (DmlSpec.prefix_between _ (RowFormat.build_data_key pk)); [done|apply Hmore; left|]. intros Hlt.
    rewrite HL in Hs. apply ascending_app in Hs as (_ & Hs & _). apply StronglySorted_inv in Hs as [_ Hlts].
    apply elem_of_cons in Hin as [<-|Hin]; [by apply bytes_lt_irrefl in Hlt|]. rewrite Forall_forall in Hlts.
    apply (bytes_lt_irrefl e.1), (bytes_lt_trans _ (RowFormat.build_data_key pk)); [exact (Hlts _ Hin)|done].
Qed.

End Spec.

Section Empty.
Context {E txn : Type} `{!TidesDb E txn, !RowDb E txn, !RowServices E txn, !QuietDb E txn, !CursorDb E txn, !QuietCursor E txn}.
Context {SF : ServerField} {CS : FtsText.charset}.
Context (sh : share) (fields : list Field) (stored : record -> bytes -> Prop) (covered : nat -> Prop).

(** The emptiness test is right: a table that holds only the engine's own records is empty. *)
Lemma is_table_empty_exact rows d :
  table_rep sh fields stored covered rows d ->
  spec (quiet_at d) (is_table_empty sh) (fun b e => quiet_at d e /\ b = bool_decide (rows = ∅)) (fun e => committed e = d).
Proof.
  intros [_ (_ & Hd & _)]. unfold is_table_empty. eapply spec_bind; [apply q_begin|]. intros r.
  apply (spec_pure _ (exists t, r = inr t)); [intros e (t & -> & _); by exists t|]. intros [t ->].
  eapply (spec_pre _ (quiet_txn t d [])); [|intros e (t' & [= ->] & ?); done].
  eapply spec_bind; [apply q_iter_new|]. intros i.
  apply (spec_pure _ (exists it, i = inr it /\ opened d (cf sh) None (walks it))); [by intros e [_ ?]|]. intros (it & -> & Ho).
  eapply (spec_pre _ (quiet_txn t d [])); [|by intros e [? _]].
  assert (spec (quiet_txn t d []) (bind (iter_move (Seek [RowFormat.KEY_NS_DATA]) it) (fun it =>
      bind (match here it with
            | None => ret true
            | Some _ => bind (iter_key it) (fun x =>
                ret (match x with inr key => negb (RowFormat.is_data_key key) | inl _ => true end))
            end) (fun empty => bind (iter_free it) (fun _ => ret empty))))
    (fun b e => quiet_txn t d [] e /\ b = bool_decide (rows = ∅)) (fun e => committed e = d)) as Hlook.
  { eapply spec_bind; [apply (q_move t d [])|]. intros it'.
    apply (spec_pure _ (here it' = target (Seek [RowFormat.KEY_NS_DATA]) (walks it) (here it))); [by intros e (_ & _ & H); apply H|].
    intros Hh. eapply (spec_pre _ (quiet_txn t d [])); [|by intros e (? & _)].
    destruct (first_data_key sh stored d rows (walks it) (here it) Hd Ho) as [H1 H2]. rewrite <- Hh in H1, H2.
    eapply (spec_bind _ _ (fun b e => quiet_txn t d [] e /\ b = bool_decide (rows = ∅))).
    - destruct (here it') as [[k x]|] eqn:Eh.
      + eapply spec_bind; [by apply (q_key t d [] it' (k, x))|]. intros y. apply spec_ret. intros e [He ->]. cbn [fst]. split; [done|].
        destruct (RowFormat.is_data_key k) eqn:Ek; cbn [negb]; symmetry.
        * apply bool_decide_false. by apply (H1 (k, x)).
        * apply bool_decide_true. apply dec_stable. intros Hne. destruct (H2 Hne) as (e' & [= <-] & Hk'). cbn [fst] in Hk'. congruence.
      + apply spec_ret. intros e He. split; [done|]. symmetry. apply bool_decide_true. apply dec_stable. intros Hne.
        by destruct (H2 Hne) as (e' & ? & _).
    - intros b. apply (spec_pure _ (b = bool_decide (rows = ∅))); [by intros e [_ ?]|]. intros ->.
      eapply spec_bind; [eapply spec_pre; [apply (q_free t d [])|by intros e [? _]]|]. intros ?. apply spec_ret. by intros e He. }
  eapply spec_bind; [exact Hlook|]. intros b. apply (spec_pure _ (b = bool_decide (rows = ∅))); [by intros e [_ ?]|]. intros ->.
  eapply spec_bind; [eapply spec_pre; [apply (q_rollback t d)|intros e [H _]; by eapply quiet_txn_at]|]. intros ?. apply spec_ret. by intros e He.
Qed.

End Empty.

(** ** A concrete sample *)

#[local] Existing Instance KeyCodec.example_server.
#[local] Existing Instance FtsText.example_charset.
#[local] Existing Instance DmlExample.ex_services.
#[local] Abbreviation svc := (DmlExample.ex_services true).

(** Draws from a list of hundredths. *)
Definition ex_dice (g : list Z) : double * list Z :=
  match g with [] => (FtsScore.ZERO, []) | x :: g => (FtsScore.ddiv (FtsScore.of_int x) (FtsScore.of_int 100), g) end.

Lemma sample_exact_witness :
  exists l, in_order pk_lt ScanExample.rows78 l /\
    Forall2 (fun p b => shows (ReaderOk := ScanExample.ex_reader_ok) p.2 b)
      (sampled ex_dice (capped (fraction (FtsScore.of_int 40))) l [70; 30]) (ScanExample.shown [8]).
Proof.
  pose proof (sample_exact (RowServices0 := svc) (RowReader0 := ScanExample.ex_reader) DmlExample.ex_table ScanExample.ex_statement
    ex_fields ScanExample.ex_stored (fun _ => True) (ReaderOk0 := ScanExample.ex_reader_ok) ex_dice tt ScanExample.store78
    ScanExample.rows78 (ScanExample.ex_scanner ScanExample.store78 []) 3 [70; 30] (FtsScore.of_int 40) DmlExample.r7 ScanExample.store78_rep
    eq_refl ltac:(intros it Hit; discriminate Hit) eq_refl ltac:(vm_compute; reflexivity) ltac:(vm_compute; lia)) as H.
  pose proof (spec_run _ _ _ _ (ScanExample.ex_scanner ScanExample.store78 []) (ScanExample.shown [8], HA_ERR_END_OF_FILE) H
    (ScanExample.ex_at _ _ (Forall_nil_2 _)) ltac:(vm_compute; reflexivity)) as (l & H1 & H2 & _).
  exists l. split; [exact H1|exact H2].
Defined.

End Sampling.
