(* ===== verification/Stats.v ===== *)
(** * Statistics, estimates and table maintenance ([ha_tidesdb_admin.cc], [ha_tidesdb_optimizer.cc])

    The row counts and cardinalities the optimizer reads, how they are refreshed and sampled, the
    estimate of the rows in a range, the costs of the access paths and the maintenance statements.  The
    library's own statistics and its compaction are parameters ([StatsDb]); so are the clock and the C
    library's [pow].  The statistics of the share are atomics read and written one at a time; here a call
    is one step.  Notes to the client and log messages have no counterpart. *)
From Stdlib Require Import SpecFloat.
From stdpp Require Import sorting.
From S2P Require Import Prelude Effects TidesDb RowDb RowFormat FtsText FtsScore Table KeyCodec Dml TableRep DmlSpec DmlDelete Spatial CursorDb Quiet Scan.
Import Table KeyCodec Dml Scan.
#[local] Open Scope Z_scope.
#[local] Open Scope tdb_scope.

Import FtsScore (double, dadd, dsub, dmul, ddiv, dlt, of_int, scaled, ZERO).

(** What the library reports of a family; the fields the engine computes with. *)
Record tidesdb_cf_stats_t := {
  total_keys : Z;
  unflushed_key_count : Z;
  total_data_size : Z;
  avg_key_size : double;
  avg_value_size : double;
  lib_read_amp : double }.

Record tidesdb_range_stats_t := { estimated_keys : Z; sstables_overlapping : Z }.

(** The reports do not change the contents, and neither does a compaction. *)
Class StatsDb (E txn : Type) `{!TidesDb E txn} := {
  get_cf_stats : bytes -> M E (tdb_rc + tidesdb_cf_stats_t);
  range_stats : bytes -> bytes -> bytes -> M E (tdb_rc + tidesdb_range_stats_t);
  compact : bytes -> M E tdb_rc;
  get_cf_stats_law d ws t c :
    spec (fun e => committed e = d /\ pending e t = ws) (get_cf_stats c)
      (fun _ e => committed e = d /\ pending e t = ws) (fun e => committed e = d);
  range_stats_law d ws t c lo hi :
    spec (fun e => committed e = d /\ pending e t = ws) (range_stats c lo hi)
      (fun _ e => committed e = d /\ pending e t = ws) (fun e => committed e = d);
  compact_law d ws t c :
    spec (fun e => committed e = d /\ pending e t = ws) (compact c)
      (fun _ e => committed e = d /\ pending e t = ws) (fun e => committed e = d) }.

(** The C library's power function. *)
Class Pow := { pow : double -> double -> double }.

Module Stats.

Definition TIDESDB_STATS_REFRESH_US : Z := 2000000.
Definition TIDESDB_MIN_STATS_RECORDS : Z := 2.
Definition TIDESDB_RIR_DEFAULT_EST : Z := 10.
Definition REC_PER_KEY_UNIQUE : Z := 1.
Definition REC_PER_KEY_FLOOR : Z := 1.
Definition UNKNOWN_DENOM : Z := 4.
Definition STATS_REC_PER_KEY_FALLBACK_DIVISOR : Z := 10.
Definition STATS_AUTO_SAMPLE_MIN_ROWS : Z := 1024.
Definition ANALYZE_SAMPLE_LIMIT : nat := Z.to_nat 100000.
Definition READ_AMP_NONE : double := of_int 1.

(** The cast of a double to an unsigned 64-bit integer, towards zero; the source leaves the others
    undefined. *)
Definition to_uint (x : double) : Z :=
  match x with
  | S754_finite false m e => u64 (Z.shiftl (Zpos m) e)
  | _ => 0
  end.

(** ** The estimates of [src/core/rir] *)

Definition unknown_fallback (total : Z) : Z := total / UNKNOWN_DENOM + REC_PER_KEY_FLOOR.

Definition point_estimate (rpk total : Z) : Z :=
  let est := if 0 <? rpk then rpk else REC_PER_KEY_FLOOR in
  if total <? est then total else est.

(** The statistics of the share. *)
Record cached := {
  cached_records : Z;
  cached_data_size : Z;
  cached_idx_data_size : Z;
  cached_mean_rec_len : Z;
  stats_refresh_us : Z;
  cached_read_amp : double;
  cached_rec_per_key : list Z;
  idx_stats_sampled : bool;
  idx_stats_sampling : bool;
  cached_scan_cost : double;
  scan_cost_time : Z }.

Definition set_refresh (now : Z) (c : cached) : cached :=
  {| cached_records := cached_records c; cached_data_size := cached_data_size c; cached_idx_data_size := cached_idx_data_size c;
     cached_mean_rec_len := cached_mean_rec_len c; stats_refresh_us := now; cached_read_amp := cached_read_amp c;
     cached_rec_per_key := cached_rec_per_key c; idx_stats_sampled := idx_stats_sampled c;
     idx_stats_sampling := idx_stats_sampling c; cached_scan_cost := cached_scan_cost c; scan_cost_time := scan_cost_time c |}.
Definition set_sizes (rows data mrl : Z) (amp : double) (idx : Z) (c : cached) : cached :=
  {| cached_records := rows; cached_data_size := data; cached_idx_data_size := idx;
     cached_mean_rec_len := mrl; stats_refresh_us := stats_refresh_us c; cached_read_amp := amp;
     cached_rec_per_key := cached_rec_per_key c; idx_stats_sampled := idx_stats_sampled c;
     idx_stats_sampling := idx_stats_sampling c; cached_scan_cost := cached_scan_cost c; scan_cost_time := scan_cost_time c |}.
Definition set_rec_per_key (i : nat) (n : Z) (c : cached) : cached :=
  {| cached_records := cached_records c; cached_data_size := cached_data_size c; cached_idx_data_size := cached_idx_data_size c;
     cached_mean_rec_len := cached_mean_rec_len c; stats_refresh_us := stats_refresh_us c; cached_read_amp := cached_read_amp c;
     cached_rec_per_key := <[i := n]> (cached_rec_per_key c); idx_stats_sampled := idx_stats_sampled c;
     idx_stats_sampling := idx_stats_sampling c; cached_scan_cost := cached_scan_cost c; scan_cost_time := scan_cost_time c |}.
Definition set_sampled (b : bool) (c : cached) : cached :=
  {| cached_records := cached_records c; cached_data_size := cached_data_size c; cached_idx_data_size := cached_idx_data_size c;
     cached_mean_rec_len := cached_mean_rec_len c; stats_refresh_us := stats_refresh_us c; cached_read_amp := cached_read_amp c;
     cached_rec_per_key := cached_rec_per_key c; idx_stats_sampled := b;
     idx_stats_sampling := idx_stats_sampling c; cached_scan_cost := cached_scan_cost c; scan_cost_time := scan_cost_time c |}.
Definition set_sampling (b : bool) (c : cached) : cached :=
  {| cached_records := cached_records c; cached_data_size := cached_data_size c; cached_idx_data_size := cached_idx_data_size c;
     cached_mean_rec_len := cached_mean_rec_len c; stats_refresh_us := stats_refresh_us c; cached_read_amp := cached_read_amp c;
     cached_rec_per_key := cached_rec_per_key c; idx_stats_sampled := idx_stats_sampled c;
     idx_stats_sampling := b; cached_scan_cost := cached_scan_cost c; scan_cost_time := scan_cost_time c |}.
Definition set_scan_cost (x : double) (now : Z) (c : cached) : cached :=
  {| cached_records := cached_records c; cached_data_size := cached_data_size c; cached_idx_data_size := cached_idx_data_size c;
     cached_mean_rec_len := cached_mean_rec_len c; stats_refresh_us := stats_refresh_us c; cached_read_amp := cached_read_amp c;
     cached_rec_per_key := cached_rec_per_key c; idx_stats_sampled := idx_stats_sampled c;
     idx_stats_sampling := idx_stats_sampling c; cached_scan_cost := x; scan_cost_time := now |}.

(** [cached_rec_per_key[i]], an array of [MAX_KEY] entries. *)
Definition sampled_rec_per_key (c : cached) (i : nat) : Z := if Nat.ltb i MAX_KEY then default 0 (cached_rec_per_key c !! i) else 0.

Section code.
Context {E txn : Type} `{!TidesDb E txn, !RowDb E txn, !RowServices E txn, !CursorDb E txn, !StatsDb E txn, !Pow}.
Context {SF : ServerField} {CS : FtsText.charset}.
Context (sh : share) (junk : memory) (reclength : Z).
Local Open Scope eff_scope.

(** ** Row counts *)

(** The keys of the meta namespace, up to the first key that is none. *)
Fixpoint count_meta (fuel : nat) (it : iter E) (count : Z) : M E (iter E * Z) :=
  match fuel with
  | O => ret (it, count)
  | S fuel =>
      match here it with
      | None => ret (it, count)
      | Some _ =>
          r <-- iter_read it;
          match r with
          | inr (c :: k, _) =>
              if c =? RowFormat.KEY_NS_META then it <-- iter_move Next it; count_meta fuel it (u64 (count + 1))
              else ret (it, count)
          | _ => ret (it, count)
          end
      end
  end.

Definition tdb_meta_key_count (c : bytes) : M E Z :=
  r <-- txn_begin;
  match r with
  | inl _ => ret 0
  | inr t =>
      i <-- iter_new t c (Some ([RowFormat.KEY_NS_META], [RowFormat.KEY_NS_DATA]));
      n <-- (match i with
             | inl _ => ret 0
             | inr it =>
                 it <-- iter_move Seek_to_first it;
                 r <-- count_meta (S (length (walks it))) it 0;
                 iter_free r.1;; ret r.2
             end);
      txn_rollback t;; ret n
  end.

(** The size of an index family, estimated when nothing is flushed. *)
Definition index_size (ist : tidesdb_cf_stats_t) : Z :=
  let ikeys := u64 (total_keys ist + unflushed_key_count ist) in
  if (total_data_size ist =? 0) && (0 <? ikeys) then
    let iavg := dadd (avg_key_size ist) (avg_value_size ist) in
    let iavg := if SFleb iavg ZERO then of_int (ref_length sh) else iavg in
    to_uint (dmul (of_int ikeys) iavg)
  else total_data_size ist.

Fixpoint index_sizes (cfs : list (option bytes)) (idx_total : Z) : M E Z :=
  match cfs with
  | [] => ret idx_total
  | None :: cfs => index_sizes cfs idx_total
  | Some c :: cfs =>
      r <-- get_cf_stats c;
      index_sizes cfs (match r with inr ist => u64 (idx_total + index_size ist) | inl _ => idx_total end)
  end.

(** [now] is the clock and [exchanged] the outcome of the exchange that claims the refresh. *)
Definition info_refresh_cf_stats (now : Z) (exchanged : bool) (c : cached) : M E cached :=
  if (now - stats_refresh_us c <=? TIDESDB_STATS_REFRESH_US) || negb exchanged then ret c
  else
    let c := set_refresh now c in
    r <-- get_cf_stats (cf sh);
    match r with
    | inl _ => ret c
    | inr st =>
        let rows := u64 (total_keys st + unflushed_key_count st) in
        meta <-- tdb_meta_key_count (cf sh);
        let rows := if meta <? rows then rows - meta else 0 in
        let avg := dadd (avg_key_size st) (avg_value_size st) in
        let data_sz :=
          if (total_data_size st =? 0) && (0 <? rows)
          then to_uint (dmul (of_int rows) (if SFleb avg ZERO then of_int reclength else avg))
          else total_data_size st in
        let mrl := u32 (to_uint avg) in
        let mrl := if mrl =? 0 then reclength else mrl in
        let amp := if dlt ZERO (lib_read_amp st) then lib_read_amp st else READ_AMP_NONE in
        idx_total <-- index_sizes (idx_cfs sh) 0;
        ret (set_sizes rows data_sz mrl amp idx_total c)
    end.

(** ** Cardinality samples *)

(** The loop over the index's entries: how many were looked at, and how many differ from the one before
    in the index's columns. *)
Fixpoint sample_loop (fuel : nat) (prefix_len : Z) (it : iter E) (prev : option bytes) (sampled distinct : Z) :
    M E (iter E * (Z * Z)) :=
  match fuel with
  | O => ret (it, (sampled, distinct))
  | S fuel =>
      match here it with
      | None => ret (it, (sampled, distinct))
      | Some _ =>
          r <-- iter_read it;
          match r with
          | inl _ => ret (it, (sampled, distinct))
          | inr (ik, _) =>
              let cur := take (Z.to_nat prefix_len) ik in
              let fresh := negb (bool_decide (prev = Some cur)) in
              it <-- iter_move Next it;
              sample_loop fuel prefix_len it (Some cur) (sampled + 1) (if fresh then distinct + 1 else distinct)
          end
      end
  end.

(** [rec_per_key] from the sample: extrapolated when the index holds more than was looked at. *)
Definition rec_per_key_of (total sampled distinct : Z) : Z :=
  if sampled <? total then
    let ratio := ddiv (of_int total) (of_int sampled) in
    let est_distinct := to_uint (dmul (of_int distinct) ratio) in
    let est_distinct := if est_distinct =? 0 then 1 else est_distinct in
    let rpk := total / est_distinct in
    if rpk =? 0 then REC_PER_KEY_FLOOR else rpk
  else
    let rpk := sampled / distinct in
    if rpk =? 0 then REC_PER_KEY_FLOOR else rpk.

Definition sample_index (t : txn) (i : nat) (c : bytes) (k : cached) : M E cached :=
  r <-- get_cf_stats c;
  let idx_total_keys := match r with inr ist => u64 (total_keys ist + unflushed_key_count ist) | inl _ => 0 end in
  if is_unique sh i then ret (set_rec_per_key i REC_PER_KEY_UNIQUE k)
  else
    let idx_prefix_len := comp_len sh i in
    if idx_prefix_len =? 0 then ret k
    else
      x <-- iter_new t c None;
      match x with
      | inl _ => ret k
      | inr it =>
          it <-- iter_move Seek_to_first it;
          r <-- sample_loop ANALYZE_SAMPLE_LIMIT idx_prefix_len it None 0 0;
          iter_free r.1;;
          let '(sampled, distinct) := r.2 in
          if distinct =? 0 then ret k
          else
            let total := if 0 <? idx_total_keys then idx_total_keys else sampled in
            ret (set_rec_per_key i (rec_per_key_of total sampled distinct) k)
      end.

Fixpoint sample_each (t : txn) (l : list nat) (k : cached) : M E cached :=
  match l with
  | [] => ret k
  | i :: l =>
      k <-- (match secondary sh i with Some c => sample_index t i c k | None => ret k end);
      sample_each t l k
  end.

Definition analyze_sample_indexes (t : txn) (k : cached) : M E cached := sample_each t (seq 0 (num_keys sh)) k.

(** [claimed] is the outcome of the exchange that claims the sampling; the library's calls on the private
    transaction are arguments. *)
Definition auto_sample_index_stats (begin_with_isolation : M E (tdb_rc + txn)) (free : txn -> M E unit) (records : Z) (claimed : bool) (k : cached) :
    M E cached :=
  if idx_stats_sampled k then ret k
  else if num_secondary_indexes sh =? 0 then ret k
  else if records <? STATS_AUTO_SAMPLE_MIN_ROWS then ret k
  else if negb claimed then ret k
  else
    r <-- begin_with_isolation;
    match r with
    | inl _ => ret (set_sampling false (set_sampling true k))
    | inr t =>
        k <-- analyze_sample_indexes t (set_sampling true k);
        free t;;
        ret (set_sampling false (set_sampled true k))
    end.

(** ** What the server is told *)

(** The flags of [info] and the statistics it fills; [rec_per_key] holds a list for each index. *)
Record status_flags := { ST_ERRKEY : bool; ST_VARIABLE : bool; ST_CONST : bool; ST_TIME : bool; ST_AUTO : bool }.

Record ha_statistics := {
  records : Z;
  data_file_length : Z;
  index_file_length : Z;
  mean_rec_length : Z;
  delete_length : Z;
  mrr_length_per_rec : Z;
  auto_increment_value : Z;
  rec_per_key : list (list Z) }.

(** [(ulong)rpk] within a floor. *)
Definition floored (n : Z) : Z := Z.max n REC_PER_KEY_FLOOR.

(** One entry of [rec_per_key]: part [j] of an index with [N] columns. *)
Definition rec_per_key_entry (i j N : nat) (unique : bool) (cached_rpk recs : Z) : Z :=
  if unique then
    if Nat.leb N (S j) then REC_PER_KEY_UNIQUE
    else floored (to_uint (pow (of_int recs) (ddiv (of_int (Z.of_nat N - Z.of_nat j - 1)) (of_int (Z.of_nat N)))))
  else if Nat.eqb (S j) N then
    if 0 <? cached_rpk then cached_rpk else floored (recs / STATS_REC_PER_KEY_FALLBACK_DIVISOR + 1)
  else
    let last_rpk := if 0 <? cached_rpk then cached_rpk else recs / STATS_REC_PER_KEY_FALLBACK_DIVISOR + 1 in
    let base := if 0 <? last_rpk then ddiv (of_int recs) (of_int last_rpk) else of_int recs in
    let rpk := ddiv (of_int recs) (pow base (ddiv (of_int (Z.of_nat (S j))) (of_int (Z.of_nat N)))) in
    floored (Z.min (to_uint rpk) recs).

(** [ext_parts i] is [TDB_KEY_EXT_PARTS] of index [i]. *)
Definition info_fill_rec_per_key (ext_parts : nat -> nat) (k : cached) (recs : Z) : list (list Z) :=
  map (fun i =>
    let is_pk := has_user_pk (codec sh) && Nat.eqb i (pk_index (codec sh)) in
    let N := length (key_part (key_info_of sh i)) in
    map (fun j => rec_per_key_entry i j N (is_pk || is_unique sh i) (sampled_rec_per_key k i) recs) (seq 0 (ext_parts i)))
    (seq 0 (num_keys sh)).

(** The inputs of [info] that are not its own: the clock, the two exchanges, the private transaction. *)
Record surroundings := {
  clock : Z;
  refresh_claimed : bool;
  sampling_claimed : bool;
  read_committed : M E (tdb_rc + txn);
  free_txn : txn -> M E unit;
  ext_parts_of : nat -> nat;
  auto_inc_val : Z;
  found_next_number_field : bool }.

Definition set_variable (k : cached) (x : ha_statistics) : ha_statistics :=
  {| records := if cached_records k =? 0 then TIDESDB_MIN_STATS_RECORDS else cached_records k;
     data_file_length := cached_data_size k; index_file_length := cached_idx_data_size k;
     mean_rec_length := cached_mean_rec_len k; delete_length := 0; mrr_length_per_rec := ref_length sh + 8;
     auto_increment_value := auto_increment_value x; rec_per_key := rec_per_key x |}.
Definition set_const (l : list (list Z)) (x : ha_statistics) : ha_statistics :=
  {| records := records x; data_file_length := data_file_length x; index_file_length := index_file_length x;
     mean_rec_length := mean_rec_length x; delete_length := delete_length x; mrr_length_per_rec := mrr_length_per_rec x;
     auto_increment_value := auto_increment_value x; rec_per_key := l |}.
Definition set_auto (n : Z) (x : ha_statistics) : ha_statistics :=
  {| records := records x; data_file_length := data_file_length x; index_file_length := index_file_length x;
     mean_rec_length := mean_rec_length x; delete_length := delete_length x; mrr_length_per_rec := mrr_length_per_rec x;
     auto_increment_value := n; rec_per_key := rec_per_key x |}.

(** [errkey] is the caller's member; the table's times have no counterpart. *)
Definition info (w : surroundings) (flag : status_flags) (dup_key_no errkey : nat) (k : cached) (x : ha_statistics) :
    M E (nat * cached * ha_statistics) :=
  let errkey := if ST_ERRKEY flag then dup_key_no else errkey in
  kx <-- (if ST_VARIABLE flag || ST_CONST flag then
            k <-- info_refresh_cf_stats (clock w) (refresh_claimed w) k; ret (k, set_variable k x)
          else ret (k, x));
  let '(k, x) := kx in
  kx <-- (if ST_CONST flag then
            k <-- auto_sample_index_stats (read_committed w) (free_txn w) (records x) (sampling_claimed w) k;
            ret (k, set_const (info_fill_rec_per_key (ext_parts_of w) k (records x)) x)
          else ret (k, x));
  let '(k, x) := kx in
  ret (errkey, k, if ST_AUTO flag && found_next_number_field w then set_auto (u64 (auto_inc_val w + 1)) x else x).

(** [used_auto] says that the statement named AUTO_INCREMENT itself. *)
Definition update_create_info (w : surroundings) (used_auto : bool) (create_value : Z) (dup_key_no errkey : nat) (k : cached)
    (x : ha_statistics) : M E (Z * ha_statistics) :=
  if used_auto then ret (create_value, x)
  else if negb (found_next_number_field w) then ret (create_value, x)
  else
    r <-- info w {| ST_ERRKEY := false; ST_VARIABLE := false; ST_CONST := false; ST_TIME := false; ST_AUTO := true |}
            dup_key_no errkey k x;
    ret (auto_increment_value r.2, r.2).

(** ** Maintenance statements *)

Inductive admin_code := HA_ADMIN_OK | HA_ADMIN_FAILED | HA_ADMIN_CORRUPT | HA_ADMIN_TRY_ALTER.

(** [stmt] is the answer of [ensure_stmt_txn]. *)
Definition analyze (w : surroundings) (stmt : M E (option txn)) (k : cached) (x : ha_statistics) :
    M E (admin_code * cached * ha_statistics) :=
  let k := set_refresh 0 k in
  r <-- info w {| ST_ERRKEY := false; ST_VARIABLE := true; ST_CONST := true; ST_TIME := false; ST_AUTO := false |} 0 0 k x;
  let '(_, k, x) := r in
  st <-- get_cf_stats (cf sh);
  match st with
  | inl _ => ret (HA_ADMIN_OK, k, x)
  | inr _ =>
      t <-- stmt;
      match t with
      | None => ret (HA_ADMIN_OK, k, x)
      | Some t =>
          k <-- analyze_sample_indexes t k;
          let k := set_sampled true k in
          r <-- info w {| ST_ERRKEY := false; ST_VARIABLE := false; ST_CONST := true; ST_TIME := false; ST_AUTO := false |} 0 0 k x;
          ret (HA_ADMIN_OK, r.1.2, r.2)
      end
  end.

(** Compact each family; the answer says whether a compaction was under way. *)
Fixpoint compact_each (locked : tdb_rc) (l : list bytes) (any_locked : bool) : M E bool :=
  match l with
  | [] => ret any_locked
  | c :: l => rc <-- compact c; compact_each locked l (any_locked || bool_decide (rc = locked))
  end.

(** The families of the table: the data family, then those of the indexes. *)
Definition index_families : list bytes := omap id (idx_cfs sh).

Definition optimize (locked : tdb_rc) (k : cached) : M E (admin_code * cached) :=
  any_locked <-- compact_each locked (cf sh :: index_families) false;
  ret (if any_locked : bool then HA_ADMIN_TRY_ALTER else HA_ADMIN_OK, set_refresh 0 k).

Fixpoint check_each (l : list bytes) : M E admin_code :=
  match l with
  | [] => ret HA_ADMIN_OK
  | c :: l => r <-- get_cf_stats c; match r with inl _ => ret HA_ADMIN_CORRUPT | inr _ => check_each l end
  end.

Definition check : M E admin_code := check_each (cf sh :: index_families).

Definition repair (locked : tdb_rc) (k : cached) : M E (admin_code * cached) :=
  rc <-- compact (cf sh);
  if negb (tdb_ok rc) then ret (HA_ADMIN_FAILED, k)
  else compact_each locked index_families false;; ret (HA_ADMIN_OK, set_refresh 0 k).

(** ** The optimizer's questions *)

Definition read_amp (k : cached) : double := cached_read_amp k.

Definition scan_overlap (now_us : Z) (k : cached) : M E (double * cached) :=
  let stale := (scan_cost_time k =? 0) || (TIDESDB_STATS_REFRESH_US <? now_us - scan_cost_time k) in
  if negb stale then ret (cached_scan_cost k, k)
  else
    let hi_len := Z.min (RowFormat.KEY_NAMESPACE_LEN + ref_length sh) DATA_KEY_BUF_LEN in
    r <-- range_stats (cf sh) [RowFormat.KEY_NS_DATA] (replicate (Z.to_nat hi_len) KEY_INF_HI_BYTE);
    ret (match r with
         | inr rs => let overlap := of_int (sstables_overlapping rs) in (overlap, set_scan_cost overlap now_us k)
         | inl _ => (cached_scan_cost k, k)
         end).

Definition rir_prefix_successor (k : bytes) : option bytes :=
  if zlen k =? 0 then None else reverse <$> successor_rev (reverse k).

(** A count held to at least one row and, when [total] is known, to at most that. *)
Definition clamp (est total : Z) : Z :=
  let est := if est <? 1 then 1 else est in
  if (0 <? total) && (total <? est) then total else est.

(** [rpk] is the index's [rec_per_key] for the columns of the bound. *)
Definition records_in_range (idx : nat) (min_key max_key : option key_range) (rpk : Z) (k : cached) : M E Z :=
  let total := if cached_records k =? 0 then TIDESDB_MIN_STATS_RECORDS else cached_records k in
  let is_pk := has_user_pk (codec sh) && Nat.eqb idx (pk_index (codec sh)) in
  match (if is_pk then Some (cf sh) else mjoin (idx_cfs sh !! idx)) with
  | None => ret (unknown_fallback total)
  | Some c =>
      let '(lo, hi) := rir_encode_bounds sh junk idx is_pk min_key max_key in
      if bool_decide (is_Some min_key) && bool_decide (is_Some max_key) && (0 <? zlen lo) && (0 <? zlen hi) && bool_decide (lo = hi) then
        probe <-- (if negb is_pk && negb (is_unique sh idx) && (sampled_rec_per_key k idx =? 0) then
                     match rir_prefix_successor lo with
                     | None => ret None
                     | Some succ =>
                         r <-- range_stats c lo succ;
                         ret (match r with inr rs => Some (clamp (estimated_keys rs) total) | inl _ => None end)
                     end
                   else ret None);
        ret (default (point_estimate rpk total) probe)
      else
        r <-- range_stats c lo hi;
        ret (match r with
             | inl _ => unknown_fallback total
             | inr rs => clamp (estimated_keys rs) (cached_records k)
             end)
  end.

Inductive index_flag :=
  | HA_READ_NEXT | HA_READ_PREV | HA_READ_ORDER | HA_READ_RANGE | HA_DO_INDEX_COND_PUSHDOWN | CLUSTERED | HA_KEYREAD_ONLY.

(** [primary_key] is the server's number of the primary key, [decodable] the verdict of
    [index_part_is_decodable] on the part. *)
Definition index_flags (idx : nat) (primary_key : option nat) (decodable : bool) : list index_flag :=
  match kind_of sh idx with
  | fulltext => []
  | spatial => [HA_READ_NEXT; HA_READ_RANGE]
  | regular =>
      [HA_READ_NEXT; HA_READ_PREV; HA_READ_ORDER; HA_READ_RANGE; HA_DO_INDEX_COND_PUSHDOWN] ++
      (if bool_decide (primary_key = Some idx) then [CLUSTERED] else if decodable then [HA_KEYREAD_ONLY] else [])
  end.

Definition index_type (idx : nat) : bytes :=
  match kind_of sh idx with fulltext => bs "FULLTEXT" | spatial => bs "RTREE" | regular => bs "BTREE" end.

End code.
End Stats.
