(* ===== verification/StatsSpec.v ===== *)
(** * What the statistics say of the table

    The estimate of a range is never zero and never above the table; for one value of an index without
    statistics it is what the library reports for the range of keys that holds exactly the entries of the
    rows with the value.  The library's reports are estimates: it takes long ranges from its metadata and
    counts superseded versions.  Where it has none of these and counts exactly ([CountingStats]), the
    estimate is the number of rows with the value, and the cardinality sampled from an index is the
    average number of rows for a key. *)
From Stdlib Require Import SpecFloat.
From stdpp Require Import sorting.
From S2P Require Import Prelude Effects TidesDb RowDb RowFormat FtsText FtsScore Table KeyCodec Dml TableRep DmlSpec DmlDelete DmlExample Spatial CursorDb Quiet Scan ScanSpec ScanIndex ScanExample Stats.
Import Table KeyCodec Dml TableRep Scan ScanSpec ScanIndex Stats.
#[local] Open Scope Z_scope.
#[local] Open Scope tdb_scope.

(** An ideal case: reports that are exact, as for families without superseded versions whose ranges are short.
    The properties of the engine do not rest on it; the lemmas below it say what the estimates come to there. *)
Class CountingStats (E txn : Type) `{!TidesDb E txn, !QuietDb E txn, !StatsDb E txn} := {
  counted_keys d c :
    spec (quiet_at d) (get_cf_stats c)
      (fun r e => quiet_at d e /\ exists st, r = inr st /\
         u64 (total_keys st + unflushed_key_count st) = u64 (zlen (sorted_entries c d)))
      (fun e => committed e = d);
  counted_range d c lo hi :
    spec (quiet_at d) (range_stats c lo hi)
      (fun r e => quiet_at d e /\ exists rs, r = inr rs /\
         estimated_keys rs = u64 (zlen (filter (fun x : entry => in_range lo hi x.1 = true) (sorted_entries c d))))
      (fun e => committed e = d) }.

Module StatsSpec.

(** ** The successor of a prefix *)

Lemma successor_rev_parts l hi :
  wf_bytes l -> successor_rev l = Some hi ->
  exists c more n, l = replicate n KEY_INF_HI_BYTE ++ c :: more /\ hi = c + 1 :: more.
Proof.
  revert hi. induction l as [|c l IH]; intros hi; [done|]. intros [Hc Hl]%Forall_cons. simpl. unfold KEY_INF_HI_BYTE.
  destruct (Z.eqb_spec c 255) as [->|Hne]; simpl.
  - intros (c & more & n & -> & Hx)%IH; [|done]. by exists c, more, (S n).
  - intros [= <-]. exists c, l, 0%nat. unfold is_byte in *. by rewrite u8_id by (unfold is_byte; lia).
Qed.

(** Nothing but its extensions lies at or above a string of the largest byte. *)
Lemma above_highest n k :
  wf_bytes (take n k) -> ~ k <b replicate n KEY_INF_HI_BYTE -> replicate n KEY_INF_HI_BYTE `prefix_of` k.
Proof.
  revert k. induction n as [|n IH]; intros k Hw Hk; [apply prefix_nil|]. destruct k as [|y k]; [by destruct Hk|].
  simpl in Hw. apply Forall_cons in Hw as [Hy Hw]. unfold bytes_lt in *. simpl in Hk |- *. unfold KEY_INF_HI_BYTE in *.
  unfold is_byte in Hy. destruct (y ?= 255) eqn:Ec; [|done|apply Z.compare_gt_iff in Ec; lia].
  apply Z.compare_eq in Ec as ->. apply prefix_cons, IH; [done|exact Hk].
Qed.

Lemma between_is_prefix q c n k :
  wf_bytes (take (length (q ++ c :: replicate n KEY_INF_HI_BYTE)) k) ->
  ~ k <b (q ++ c :: replicate n KEY_INF_HI_BYTE) -> k <b (q ++ [c + 1]) -> q ++ c :: replicate n KEY_INF_HI_BYTE `prefix_of` k.
Proof.
  revert k. induction q as [|x q IH]; intros [|y k] Hw Hlo Hhi; try (by destruct Hlo).
  - simpl in Hw. apply Forall_cons in Hw as [_ Hw]. rewrite length_replicate in Hw. unfold bytes_lt in *.
    cbn [app bytes_cmp] in Hlo, Hhi |- *.
    destruct (y ?= c) eqn:Ec; [|done|].
    + apply Z.compare_eq in Ec as ->. apply prefix_cons. by apply above_highest.
    + apply Z.compare_gt_iff in Ec. destruct (y ?= c + 1) eqn:E2; [by destruct k|rewrite Z.compare_lt_iff in E2; lia|done].
  - simpl in Hw. apply Forall_cons in Hw as [_ Hw]. unfold bytes_lt in *. cbn [app bytes_cmp] in Hlo, Hhi |- *.
    destruct (y ?= x) eqn:Ec; [|done|done]. apply Z.compare_eq in Ec as ->. apply prefix_cons. by apply IH.
Qed.

(** The keys from a prefix up to its successor are those that begin with it. *)
Lemma successor_bounds_prefix p s k :
  wf_bytes p -> wf_bytes (take (length p) k) -> rir_prefix_successor p = Some s -> in_range p s k = true <-> p `prefix_of` k.
Proof.
  intros Hp Hk. unfold rir_prefix_successor. destruct (zlen p =? 0); [done|].
  destruct (successor_rev (reverse p)) as [hi|] eqn:Es; [|done]. intros [= <-].
  apply successor_rev_parts in Es as (c & more & n & Ep & ->); [|by apply Forall_reverse].
  assert (p = reverse more ++ c :: replicate n KEY_INF_HI_BYTE) as ->.
  { rewrite <- (reverse_involutive p), Ep, reverse_app, reverse_cons, <- app_assoc, reverse_replicate. done. }
  rewrite reverse_cons. unfold in_range. rewrite andb_true_iff, negb_true_iff, bool_decide_eq_false, bool_decide_eq_true. split.
  - intros [Hlo Hhi]. by apply between_is_prefix.
  - intros [m ->]. rewrite <- app_assoc. split.
    + rewrite app_assoc. change (~ ((reverse more ++ c :: replicate n KEY_INF_HI_BYTE) ++ m) <b (reverse more ++ c :: replicate n KEY_INF_HI_BYTE)).
      apply bytes_not_lt, bytes_le_app_r.
    + rewrite bytes_cmp_app_same. simpl. by rewrite (proj2 (Z.compare_lt_iff c (c + 1))) by lia.
Qed.

(** ** Estimates of a range *)

Section Range.
Context {E txn : Type} `{!TidesDb E txn, !RowDb E txn, !RowServices E txn, !CursorDb E txn, !StatsDb E txn}.
Context {SF : ServerField} {CS : FtsText.charset}.
Context (sh : share) (junk : memory) (fields : list Field) (stored : record -> bytes -> Prop) (covered : nat -> Prop).
Implicit Types (k : cached) (rows : gmap bytes record).

(** An estimate the planner can use: at least one row, and no more than the table is known to hold. *)
Definition usable (total r : Z) : Prop := 1 <= r /\ (0 < total -> r <= total).

Lemma clamp_usable est total : usable total (clamp est total).
Proof. unfold usable, clamp. destruct (Z.ltb_spec est 1), (Z.ltb_spec 0 total); simpl; try case_match; lia. Qed.

Lemma fallback_usable total : 0 < total -> usable total (unknown_fallback total).
Proof.
  intros Ht. unfold usable, unknown_fallback, UNKNOWN_DENOM, REC_PER_KEY_FLOOR.
  pose proof (Z.div_pos total 4). pose proof (Z.mul_div_le total 4). lia.
Qed.

Lemma point_usable rpk total : 0 < total -> usable total (point_estimate rpk total).
Proof. intros Ht. unfold usable, point_estimate, REC_PER_KEY_FLOOR. destruct (Z.ltb_spec 0 rpk); case_match; lia. Qed.

Lemma usable_total k r :
  0 <= cached_records k -> usable (if cached_records k =? 0 then TIDESDB_MIN_STATS_RECORDS else cached_records k) r ->
  usable (cached_records k) r.
Proof. intros Hk. destruct (Z.eqb_spec (cached_records k) 0) as [->|]; unfold usable; [lia|done]. Qed.

(** Whatever the library answers, and when it fails, the estimate of the rows in a range is at least one
    row and, once the table's row count is known, not above it; the estimate reads no row and changes
    nothing. *)
Lemma range_estimate_usable idx min_key max_key rpk k d ws t :
  0 <= cached_records k ->
  spec (fun e => committed e = d /\ pending e t = ws) (records_in_range sh junk idx min_key max_key rpk k)
    (fun r e => (committed e = d /\ pending e t = ws) /\ usable (cached_records k) r) (fun e => committed e = d).
Proof.
  intros Hk. unfold records_in_range. set (total := if cached_records k =? 0 then _ else _).
  assert (0 < total) as Ht by (unfold total, TIDESDB_MIN_STATS_RECORDS; destruct (Z.eqb_spec (cached_records k) 0); lia).
  assert (forall r, usable total r -> usable (cached_records k) r) as Hu by (intros r; by apply usable_total).
  pose proof (Hu _ (fallback_usable total Ht)) as Hf.
  destruct (if _ && _ then Some (cf sh) else _) as [c|]; [|by apply spec_ret].
  destruct (rir_encode_bounds sh junk idx _ min_key max_key) as [lo hi]. case_match.
  - eapply (spec_bind _ _ (fun o e => (committed e = d /\ pending e t = ws) /\ forall n, o = Some n -> usable total n)).
    + case_match; [|by apply spec_ret]. destruct (rir_prefix_successor lo) as [s|]; [|by apply spec_ret].
      eapply spec_bind; [apply range_stats_law|]. intros r. apply spec_ret. intros e He. split; [done|].
      destruct r as [|rs]; [done|]. intros n [= <-]. apply clamp_usable.
    + intros o. apply spec_ret. intros e [He Ho]. split; [done|]. apply Hu.
      destruct o as [n|]; [by apply Ho|by apply point_usable].
  - eapply spec_bind; [apply range_stats_law|]. intros [rc|rs]; apply spec_ret; intros e He; (split; [done|]); [done|].
    apply clamp_usable.
Qed.

(** ** The rows with a value *)

Lemma index_key_wf i r : table_ok sh -> good sh fields r -> wf_bytes (index_key sh i r).
Proof.
  intros (Hp & _) (Hr & Hf & _). unfold index_key. rewrite make_comparable_key_all. specialize (Hp i). specialize (Hf i).
  assert (forall q pos, wf_bytes (comparable_parts (key_part (key_info_of sh i)) q pos r (fun _ => 0) None)) as H; [|apply H].
  induction Hp as [|kp kps Hkp Hp IH]; intros q pos; [constructor|].
  apply Forall_cons in Hf as [Hfk Hf]. simpl. apply Forall_app. split; [|by apply IH].
  rewrite comparable_part_plain. pose proof (plain_span_wf fields kp r (fun _ => 0) pos Hr Hkp Hfk) as Hw.
  destruct (reverse_sort kp); [|done]. apply Forall_map, Forall_true. intros b. apply u8_byte.
Qed.

Context `{!QuietDb E txn}.
#[local] Abbreviation rep := (table_rep sh fields stored covered).

(** The rows whose key in index [i] begins with [comp]. *)
Definition rows_with (rows : gmap bytes record) (i : nat) (comp : bytes) : gmap bytes record :=
  filter (fun p : bytes * record => comp `prefix_of` index_key sh i p.2) rows.

(** The entries between a search key and its successor are those of the rows with the key. *)
Lemma in_range_iff rows d i ci comp s pk r :
  table_ok sh -> regular_index sh covered i ci -> rep rows d -> wf_bytes comp -> zlen comp <= comp_len sh i ->
  rir_prefix_successor comp = Some s -> rows !! pk = Some r ->
  in_range comp s (index_key sh i r ++ pk) = true <-> comp `prefix_of` index_key sh i r.
Proof.
  intros Hok Hi Hrep Hw Hlen Hs Hr. rewrite <- (prefix_of_key sh covered i ci comp pk r Hok Hi Hlen), is_prefix_iff.
  apply successor_bounds_prefix; [done| |done].
  rewrite (metadata _ _ _ _ Hi), <- (index_key_length sh i r Hok) in Hlen. unfold zlen in Hlen.
  rewrite take_app_le by lia. apply Forall_take, index_key_wf; [done|]. by apply (proj1 Hrep pk r).
Qed.

(** The library's count between a search key and its successor is the number of rows with the key. *)
Lemma prefix_count rows d i ci comp s :
  table_ok sh -> regular_index sh covered i ci -> rep rows d -> pks_ok rows -> wf_bytes comp -> zlen comp <= comp_len sh i ->
  rir_prefix_successor comp = Some s ->
  length (filter (fun x : entry => in_range comp s x.1 = true) (sorted_entries ci d)) =
    size (filter (fun p : bytes * record => comp `prefix_of` index_key sh i p.2) rows).
Proof.
  intros Hok Hi Hrep Hpk Hw Hlen Hs. pose proof (sorted_opened ci d) as Ho. set (L := sorted_entries ci d) in *.
  set (g := filter _ L).
  assert (forall e, e ∈ g <-> e ∈ L /\ in_range comp s e.1 = true) as Hmem by (intros e; unfold g; rewrite list_elem_of_filter; tauto).
  pose proof (index_rows_order sh fields stored covered d rows i ci L g (fun x => in_range comp s x = true) Hok Hi Hrep Hpk Ho
    (ascending_filter _ L (proj1 Ho)) Hmem) as Hord.
  assert (forall pk r, rows !! pk = Some r -> in_range comp s (index_key sh i r ++ pk) = true <-> comp `prefix_of` index_key sh i r) as Hiff
    by (intros pk r; by apply (in_range_iff rows d i ci)).
  apply (in_order_filter _ rows _ _ (fun p : bytes * record => comp `prefix_of` index_key sh i p.2)) in Hord; [|exact Hiff].
  rewrite <- (in_order_length _ _ _ (index_lt_ne sh i) Hord). symmetry.
  apply (Forall2_length (fun p e => stands_for sh rows i e p)), Forall2_flip.
  apply (index_rows_stand sh fields stored covered d rows i ci); try done. intros x y Hx. apply (proj1 (proj2 Ho)). by apply Hmem in Hx as [? _].
Qed.

(** What the table is taken to hold. *)
Definition known_total k : Z := if cached_records k =? 0 then TIDESDB_MIN_STATS_RECORDS else cached_records k.

(** The probe of a point estimate. *)
Definition probe ci (comp s : bytes) (rpk : Z) k : M E Z :=
  bind (range_stats ci comp s) (fun r => ret (match r with
    | inr rs => clamp (estimated_keys rs) (known_total k)
    | inl _ => point_estimate rpk (known_total k)
    end)).

Lemma records_in_range_probes i ci key rpk k s :
  regular_index sh covered i ci -> is_unique sh i = false -> sampled_rec_per_key k i = 0 ->
  rir_prefix_successor (comparable sh junk i key) = Some s ->
  forall e, records_in_range sh junk i (Some key) (Some key) rpk k e = probe ci (comparable sh junk i key) s rpk k e.
Proof.
  intros Hi Hu Hk Hs e. set (comp := comparable sh junk i key) in *. unfold records_in_range, probe, known_total.
  pose proof (not_pk _ _ _ _ Hi) as Hp. pose proof (has_family _ _ _ _ Hi) as Hc. unfold secondary in Hc.
  assert (has_user_pk (codec sh) && Nat.eqb i (pk_index (codec sh)) = false) as Hp'.
  { rewrite <- Hp. f_equal. symmetry. destruct (Nat.eqb_spec i (pk_index (codec sh))); [by apply bool_decide_true|by apply bool_decide_false]. }
  rewrite Hp' in Hc |- *. rewrite Hc. unfold rir_encode_bounds, encode_bound. fold comp.
  assert (0 < zlen comp) as Hpos by (unfold rir_prefix_successor in Hs; destruct (Z.eqb_spec (zlen comp) 0); [done|unfold zlen in *; lia]).
  rewrite (proj2 (Z.ltb_lt 0 (zlen comp)) Hpos), !bool_decide_true by (by eauto). cbn [andb negb]. rewrite Hu, Hk, Hs. cbn [andb negb Z.eqb].
  unfold bind, ret. destruct (range_stats ci comp s e) as [e' [[rc|rs]|]]; done.
Qed.

(** C39: The estimate for one value of a regular index that is not unique and has no sampled statistics is what
    the library reports for the keys from the value up to its successor, held between one and the table's
    row count, or the guess from the server's figure when it reports nothing; and these keys are exactly those of the
    entries of the rows that carry the value, as many as there are such rows.  The search key is not longer
    than the index's key and has a successor (it is not all 0xff).  What the library reports for the range
    is its own estimate. *)
Theorem point_probe_exact rows i ci key rpk k d s :
  table_ok sh -> regular_index sh covered i ci -> rep rows d -> pks_ok rows ->
  is_unique sh i = false -> sampled_rec_per_key k i = 0 -> wf_bytes (comparable sh junk i key) ->
  zlen (comparable sh junk i key) <= comp_len sh i -> rir_prefix_successor (comparable sh junk i key) = Some s ->
  (forall e, records_in_range sh junk i (Some key) (Some key) rpk k e =
     bind (range_stats ci (comparable sh junk i key) s) (fun r => ret (match r with
       | inr rs => clamp (estimated_keys rs) (known_total k)
       | inl _ => point_estimate rpk (known_total k)
       end)) e) /\
  (forall est, usable (known_total k) (clamp est (known_total k))) /\
  (forall pk r, rows !! pk = Some r -> in_range (comparable sh junk i key) s (index_key sh i r ++ pk) = true <->
     comparable sh junk i key `prefix_of` index_key sh i r) /\
  length (filter (fun x : entry => in_range (comparable sh junk i key) s x.1 = true) (sorted_entries ci d)) =
    size (rows_with rows i (comparable sh junk i key)).
Proof.
  intros Hok Hi Hrep Hpk Hu Hk Hw Hlen Hs. split; [by apply records_in_range_probes|].
  split; [intros est; apply clamp_usable|]. split; [|by apply prefix_count].
  intros pk r Hr. by apply (in_range_iff rows d i ci).
Qed.

Context `{!CountingStats E txn}.

(** Where the library counts exactly, a point estimate of an index without statistics is the number of rows
    with the value, held between one and the table's row count. *)
Lemma point_estimate_counts_rows rows i ci key rpk k d s :
  table_ok sh -> regular_index sh covered i ci -> rep rows d -> pks_ok rows ->
  is_unique sh i = false -> sampled_rec_per_key k i = 0 -> wf_bytes (comparable sh junk i key) ->
  zlen (comparable sh junk i key) <= comp_len sh i -> rir_prefix_successor (comparable sh junk i key) = Some s ->
  Z.of_nat (size rows) < 2 ^ 64 ->
  spec (quiet_at d) (records_in_range sh junk i (Some key) (Some key) rpk k)
    (fun r e => quiet_at d e /\
       r = clamp (Z.of_nat (size (rows_with rows i (comparable sh junk i key))))
             (if cached_records k =? 0 then TIDESDB_MIN_STATS_RECORDS else cached_records k))
    (fun e => committed e = d).
Proof.
  intros Hok Hi Hrep Hpk Hu Hk Hw Hlen Hs Hn. set (comp := comparable sh junk i key) in *.
  eapply spec_ext; [by apply (records_in_range_probes i ci key rpk k s)|]. fold comp. unfold probe.
  eapply spec_bind; [apply counted_range|]. intros r. apply spec_ret. intros e (He & rs & -> & Hest). split; [done|].
  rewrite Hest. unfold zlen, rows_with. rewrite (prefix_count rows d i ci comp s) by done. unfold rows_with, u64. rewrite Z.mod_small; [done|].
  pose proof (map_size_filter (fun p : bytes * record => comp `prefix_of` index_key sh i p.2) rows). lia.
Qed.

End Range.

(** ** Counting the keys of an index *)

(** How often the string changes along a list. *)
Fixpoint runs (prev : option bytes) (l : list bytes) : nat :=
  match l with
  | [] => 0
  | x :: l => ((if bool_decide (prev = Some x) then 0 else 1) + runs (Some x) l)%nat
  end.

Lemma runs_after p l :
  StronglySorted bytes_le (p :: l) -> runs (Some p) l = size ((list_to_set l : gset bytes) ∖ {[p]}).
Proof.
  revert p. induction l as [|x l IH]; intros p Hs; cbn [runs list_to_set].
  { symmetry. rewrite size_empty_iff. intros y. rewrite elem_of_difference, elem_of_empty. tauto. }
  apply StronglySorted_inv in Hs as [Hs Hp]. rewrite (IH x Hs). case_bool_decide as Hpx.
  - injection Hpx as ->. simpl. f_equal. apply set_eq. intros y.
    rewrite !elem_of_difference, elem_of_union, elem_of_singleton. tauto.
  - apply Forall_cons in Hp as [Hpx' Hp]. rewrite <- (size_singleton (C := gset bytes) x), <- size_union.
    2: { intros y Hy [_ Hn]%elem_of_difference. done. }
    assert (p ∉ (list_to_set l : gset bytes)) as Hn.
    { intros Hin%elem_of_list_to_set. apply StronglySorted_inv in Hs as [_ Hx]. rewrite Forall_forall in Hx.
      specialize (Hx p Hin). apply Hpx. f_equal. apply bytes_le_lteq in Hpx' as [Hlt|]; [|done].
      destruct (proj2 (bytes_not_lt p x) Hx Hlt). }
    f_equal. apply set_eq. intros y. rewrite !elem_of_union, !elem_of_difference, elem_of_union, !elem_of_singleton.
    destruct (decide (y = x)) as [->|]; [|destruct (decide (y = p)) as [->|]]; split; try tauto.
    intros _. split; [tauto|congruence].
Qed.

(** In a sorted list the changes count the distinct strings. *)
Lemma runs_distinct l : StronglySorted bytes_le l -> runs None l = size (list_to_set l : gset bytes).
Proof.
  destruct l as [|x l]; [done|]. intros Hs. cbn [runs list_to_set]. rewrite (runs_after x l Hs), bool_decide_false by done.
  rewrite (size_union_alt ({[x]} : gset bytes) (list_to_set l)), (size_singleton (C := gset bytes) x). done.
Qed.

Lemma take_mono n (a b : bytes) : a <b b -> bytes_le (take n a) (take n b).
Proof.
  revert a b. induction n as [|n IH]; intros [|x a] [|y b] H; try done. unfold bytes_lt, bytes_le in *. simpl in *.
  destruct (x ?= y); [by apply IH|done|done].
Qed.

Section Sample.
Context {E txn : Type} `{!TidesDb E txn, !RowDb E txn, !RowServices E txn, !QuietDb E txn, !CursorDb E txn, !QuietCursor E txn,
  !StatsDb E txn, !CountingStats E txn}.
Context {SF : ServerField} {CS : FtsText.charset}.
Context (sh : share) (fields : list Field) (stored : record -> bytes -> Prop) (covered : nat -> Prop).
Context (t : txn) (d : store).
#[local] Abbreviation rep := (table_rep sh fields stored covered).
#[local] Abbreviation steady := (quiet_txn t d []).
Implicit Types (k : cached) (rows : gmap bytes record) (it : iter E) (i : nat).

Lemma q_cf_stats c :
  spec steady (get_cf_stats c)
    (fun r e => steady e /\ exists st, r = inr st /\
       u64 (total_keys st + unflushed_key_count st) = u64 (zlen (sorted_entries c d))) (fun e => committed e = d).
Proof.
  eapply spec_weaken; [apply spec_conj; [apply (get_cf_stats_law d [] t c)|apply (counted_keys d c)]| | |by intros e [? _]].
  - intros e [[? ?] ?]. by split.
  - intros r e [H [[_ Hq] Hr]]. by split.
Qed.

(** Every entry is looked at, up to the limit. *)
Lemma sample_loop_exact n fuel : forall it pre more prev sampled distinct,
  ascending (walks it) -> walks it = pre ++ more -> here it = head more -> (length more <= fuel)%nat ->
  spec steady (sample_loop fuel n it prev sampled distinct)
    (fun r e => steady e /\
       r.2 = (sampled + zlen more, distinct + Z.of_nat (runs prev (map (fun x : entry => take (Z.to_nat n) x.1) more))))
    (fun e => committed e = d).
Proof.
  induction fuel as [|fuel IH]; intros it pre more prev sampled distinct Hs HL Hh Hf; destruct more as [|x more]; simpl in Hf; try lia.
  - apply spec_ret. intros e He. cbn. by rewrite !Z.add_0_r.
  - cbn [sample_loop]. rewrite Hh. apply spec_ret. intros e He. cbn. by rewrite !Z.add_0_r.
  - cbn [sample_loop]. rewrite Hh. cbn [head]. eapply spec_bind; [by apply (q_read t d [] it x)|]. intros r.
    apply (spec_pure _ (r = inr x)); [by intros e [_ ?]|]. intros ->. destruct x as [ik y].
    eapply spec_bind; [eapply spec_pre; [apply (q_move t d [] Next it)|by intros e [? _]]|]. intros it'.
    apply (spec_pure _ (walks it' = walks it /\ here it' = head more)).
    { intros e (_ & Hw & Hm). split; [done|]. rewrite Hm by (rewrite Hh; by eexists). rewrite Hh, HL. cbn [head].
      apply target_next. by rewrite <- HL. }
    intros [Hw Hh']. eapply spec_pre; [|by intros e (He & _); exact He].
    eapply spec_weaken; [apply (IH it' (pre ++ [(ik, y)]) more)|done| |done].
    + by rewrite Hw.
    + by rewrite Hw, HL, <- app_assoc.
    + done.
    + lia.
    + intros r e [He ->]. split; [done|]. cbn [map runs fst]. unfold zlen. simpl length.
      f_equal; [lia|]. destruct (bool_decide _); simpl negb; cbv iota; lia.
Qed.

(** The keys the rows have in an index. *)
Definition keys_in i rows : gset bytes := list_to_set (map (fun p => index_key sh i p.2) (map_to_list rows)).

Lemma entries_of_rows i ci rows :
  table_ok sh -> regular_index sh covered i ci -> rep rows d -> pks_ok rows ->
  length (sorted_entries ci d) = size rows /\
  runs None (map (fun x : entry => take (Z.to_nat (comp_len sh i)) x.1) (sorted_entries ci d)) = size (keys_in i rows).
Proof.
  intros Hok Hi Hrep Hpk. pose proof (sorted_opened ci d) as Ho. set (L := sorted_entries ci d) in *. pose proof Ho as (Hs & Hg & _).
  pose proof (index_rows_order sh fields stored covered d rows i ci L L (fun _ => True) Hok Hi Hrep Hpk Ho Hs ltac:(intros e; tauto)) as Hord.
  rewrite map_filter_id in Hord by done. pose proof (in_order_length _ _ _ (index_lt_ne sh i) Hord) as Hl.
  pose proof (index_rows_stand sh fields stored covered d rows i ci L Hok Hi Hrep Hpk Hg) as H2.
  set (l := index_rows sh rows i L) in *. split; [by rewrite <- Hl; apply (Forall2_length _ _ _ H2)|].
  rewrite runs_distinct.
  - f_equal. assert (map (fun x : entry => take (Z.to_nat (comp_len sh i)) x.1) L = map (fun p => index_key sh i p.2) l) as ->.
    { clear -H2 Hok Hi. induction H2 as [|e p L l (He & _) H2 IH]; [done|]. simpl. rewrite IH, He. f_equal.
      pose proof (index_key_length sh i p.2 Hok) as Hk. rewrite <- (metadata _ _ _ _ Hi) in Hk. unfold zlen in Hk.
      by rewrite take_app_length' by lia. }
    unfold keys_in. apply set_eq. intros x. rewrite !elem_of_list_to_set, !list_elem_of_fmap. destruct Hord as [_ Hin].
    split; intros ([pk r] & -> & H); exists (pk, r); (split; [done|]).
    + by apply elem_of_map_to_list, Hin.
    + by apply Hin, elem_of_map_to_list.
  - clear -Hs. induction Hs as [|e L Hs IH He]; [constructor|]. simpl. constructor; [done|]. apply Forall_map.
    eapply Forall_impl; [exact He|]. intros b Hb. by apply take_mono.
Qed.

Lemma keys_in_bound i rows : rows <> ∅ -> (0 < size (keys_in i rows) <= size rows)%nat.
Proof.
  intros Hne. split.
  - assert (size (keys_in i rows) <> 0%nat); [|lia]. intros H%size_empty_inv. apply map_choose in Hne as (pk & r & Hr).
    apply (not_elem_of_empty (C := gset bytes) (index_key sh i r)), H, elem_of_list_to_set, list_elem_of_fmap. exists (pk, r). split; [done|]. by apply elem_of_map_to_list.
  - unfold keys_in. rewrite <- length_map_to_list.
    generalize (map_to_list rows) as l. induction l as [|p l IH]; [done|]. cbn [map list_to_set length].
    rewrite (size_union_alt ({[index_key sh i p.2]} : gset bytes)), (size_singleton (C := gset bytes)).
    etransitivity; [|apply le_n_S, IH]. simpl. apply le_n_S. apply subseteq_size. intros y [? _]%elem_of_difference. done.
Qed.

(** One index: the average number of rows for a key. *)
Lemma sample_index_exact i ci rows k :
  table_ok sh -> regular_index sh covered i ci -> rep rows d -> pks_ok rows ->
  is_unique sh i = false -> comp_len sh i <> 0 -> rows <> ∅ -> (size rows <= ANALYZE_SAMPLE_LIMIT)%nat ->
  spec steady (sample_index sh t i ci k)
    (fun k' e => steady e /\ k' = set_rec_per_key i (Z.of_nat (size rows) / Z.of_nat (size (keys_in i rows))) k)
    (fun e => committed e = d).
Proof.
  intros Hok Hi Hrep Hpk Hu Hc Hne Hn. unfold sample_index. destruct (entries_of_rows i ci rows Hok Hi Hrep Hpk) as [Hlen Hruns].
  eapply spec_bind; [apply q_cf_stats|]. intros r.
  apply (spec_pure _ (exists st, r = inr st /\ u64 (total_keys st + unflushed_key_count st) = Z.of_nat (size rows))).
  { intros e (_ & st & -> & Hst). exists st. split; [done|]. rewrite Hst. unfold zlen. rewrite Hlen. apply Z.mod_small.
    unfold ANALYZE_SAMPLE_LIMIT in Hn. lia. }
  intros (st & -> & Hst). rewrite Hst, Hu. destruct (Z.eqb_spec (comp_len sh i) 0) as [?|_]; [done|].
  eapply spec_bind; [eapply spec_pre; [apply (q_iter_new t d [] ci None)|by intros e [? _]]|]. intros x.
  apply (spec_pure _ (exists it, x = inr it /\ opened d ci None (walks it))); [by intros e [_ ?]|]. intros (it & -> & Ho).
  pose proof (opened_unique d ci _ _ Ho (sorted_opened ci d)) as Hw.
  eapply spec_bind; [eapply spec_pre; [apply (q_move t d [] Seek_to_first it)|by intros e [? _]]|]. intros it'.
  apply (spec_pure _ (walks it' = sorted_entries ci d /\ here it' = head (sorted_entries ci d))).
  { intros e (_ & Hw' & Hm). rewrite Hw', Hm by done. rewrite target_all by done. by rewrite Hw. }
  intros [Hw' Hh]. eapply spec_pre; [|by intros e (He & _); exact He].
  eapply spec_bind; [apply (sample_loop_exact (comp_len sh i) ANALYZE_SAMPLE_LIMIT it' [] (sorted_entries ci d) None 0 0)|].
  { rewrite Hw'. apply sorted_entries_ascending. }
  { done. }
  { done. }
  { by rewrite Hlen. }
  intros [it2 sd]. apply (spec_pure _ (sd = (Z.of_nat (size rows), Z.of_nat (size (keys_in i rows))))).
  { intros e [_ Hr]. cbn [snd] in Hr. rewrite Hr, Hruns. unfold zlen. by rewrite Hlen. }
  intros ->. eapply spec_bind; [eapply spec_pre; [apply (q_free t d [] it2)|by intros e [? _]]|]. intros ?. cbn [snd].
  pose proof (keys_in_bound i rows Hne) as Hb.
  destruct (Z.eqb_spec (Z.of_nat (size (keys_in i rows))) 0); [lia|]. rewrite (proj2 (Z.ltb_lt _ _)) by lia.
  apply spec_ret. intros e He. split; [done|]. f_equal. unfold rec_per_key_of. rewrite Z.ltb_irrefl.
  assert (1 <= Z.of_nat (size rows) / Z.of_nat (size (keys_in i rows))) by (apply Z.div_le_lower_bound; lia).
  destruct (Z.eqb_spec (Z.of_nat (size rows) / Z.of_nat (size (keys_in i rows))) 0); [lia|done].
Qed.

(** Sampling an index changes nothing but its own entry. *)
Definition only_entry i k k' : Prop :=
  length (cached_rec_per_key k') = length (cached_rec_per_key k) /\
  forall j, j <> i -> cached_rec_per_key k' !! j = cached_rec_per_key k !! j.

Lemma only_entry_refl i k : only_entry i k k.
Proof. by split. Qed.

Lemma only_entry_set i n k : only_entry i k (set_rec_per_key i n k).
Proof. split; [apply length_insert|]. intros j Hj. by apply list_lookup_insert_ne. Qed.

Lemma sample_loop_quiet n fuel : forall it prev sampled distinct,
  spec steady (sample_loop fuel n it prev sampled distinct) (fun _ => steady) (fun e => committed e = d).
Proof.
  induction fuel as [|fuel IH]; intros it prev sampled distinct; cbn [sample_loop]; [by apply spec_ret|].
  destruct (here it) as [x|] eqn:Hh; [|by apply spec_ret].
  eapply spec_bind; [by apply (q_read t d [] it x)|]. intros r.
  apply (spec_pure _ (r = inr x)); [by intros e [_ ?]|]. intros ->. destruct x as [ik y].
  eapply spec_bind; [eapply spec_pre; [apply (q_move t d [] Next it)|by intros e [? _]]|]. intros it'.
  eapply spec_pre; [apply IH|]. by intros e (He & _).
Qed.

Lemma sample_index_frame i c k :
  spec steady (sample_index sh t i c k) (fun k' e => steady e /\ only_entry i k k') (fun e => committed e = d).
Proof.
  pose proof (only_entry_refl i k) as H0. unfold sample_index. eapply spec_bind; [apply q_cf_stats|]. intros r.
  eapply (spec_pre _ steady); [|by intros e [? _]].
  case_match; [apply spec_ret; intros e He; split; [done|apply only_entry_set]|]. case_match; [by apply spec_ret|].
  eapply spec_bind; [apply (q_iter_new t d [] c None)|]. intros [rc|it]; [apply spec_ret; by intros e [? _]|].
  eapply spec_bind; [eapply spec_pre; [apply (q_move t d [] Seek_to_first it)|by intros e [? _]]|]. intros it'.
  eapply spec_bind; [eapply spec_pre; [apply sample_loop_quiet|by intros e [? _]]|]. intros [it2 [sampled distinct]].
  eapply spec_bind; [apply (q_free t d [] it2)|]. intros ?. cbn [snd].
  case_match; apply spec_ret; intros e He; (split; [done|]); [done|apply only_entry_set].
Qed.

(** What is to hold of an index after the statistics are sampled. *)
Definition index_sampled rows k i : Prop :=
  forall ci, regular_index sh covered i ci -> is_unique sh i = false -> comp_len sh i <> 0 -> (i < MAX_KEY)%nat ->
    sampled_rec_per_key k i = Z.of_nat (size rows) / Z.of_nat (size (keys_in i rows)).

Lemma sample_each_spec rows l : forall k,
  table_ok sh -> rep rows d -> pks_ok rows -> rows <> ∅ -> (size rows <= ANALYZE_SAMPLE_LIMIT)%nat ->
  length (cached_rec_per_key k) = MAX_KEY -> NoDup l ->
  spec steady (sample_each sh t l k)
    (fun k' e => steady e /\ length (cached_rec_per_key k') = MAX_KEY /\ (forall i, i ∈ l -> index_sampled rows k' i) /\
       (forall i, i ∉ l -> cached_rec_per_key k' !! i = cached_rec_per_key k !! i))
    (fun e => committed e = d).
Proof.
  induction l as [|i l IH]; intros k Hok Hrep Hpk Hne Hn Hlen Hd; cbn [sample_each].
  { apply spec_ret. intros e He. split_and!; [done..|by intros i ?%not_elem_of_nil|done]. }
  apply NoDup_cons in Hd as [Hi Hd].
  eapply (spec_bind _ _ (fun k' e => steady e /\ only_entry i k k' /\ index_sampled rows k' i)).
  - destruct (secondary sh i) as [c|] eqn:Ec.
    + intros e He. pose proof (sample_index_frame i c k e He) as Hf.
      assert (forall ci, regular_index sh covered i ci -> is_unique sh i = false -> comp_len sh i <> 0 ->
        match sample_index sh t i c k e with
        | (_, Ret k') => k' = set_rec_per_key i (Z.of_nat (size rows) / Z.of_nat (size (keys_in i rows))) k
        | _ => True end) as Hx.
      { intros ci Hci Hu Hc. pose proof (has_family _ _ _ _ Hci) as Hfam. rewrite Ec in Hfam. injection Hfam as <-.
        pose proof (sample_index_exact i c rows k Hok Hci Hrep Hpk Hu Hc Hne Hn e He) as H.
        destruct (sample_index sh t i c k e) as [e' [k'|]]; [|done]. by destruct H. }
      destruct (sample_index sh t i c k e) as [e' [k'|]]; [|done]. destruct Hf as [He' Ho]. split_and!; [done..|].
      intros ci Hci Hu Hc Hm. rewrite (Hx ci Hci Hu Hc). unfold sampled_rec_per_key. rewrite (proj2 (Nat.ltb_lt _ _) Hm).
      cbn [set_rec_per_key cached_rec_per_key]. rewrite list_lookup_insert_eq by lia. done.
    + apply spec_ret. intros e He. split_and!; [done|apply only_entry_refl|]. intros ci Hci.
      pose proof (has_family _ _ _ _ Hci) as Hfam. congruence.
  - intros k1. apply (spec_pure _ (only_entry i k k1 /\ index_sampled rows k1 i)); [by intros e (_ & ? & ?)|].
    intros [[Hl1 Ho] Hs]. eapply (spec_pre _ steady); [|by intros e [? _]].
    eapply spec_weaken; [apply (IH k1); try done; congruence|done| |done].
    intros k' e (He & Hl & Hin & Hout). split_and!; [done..| |].
    + intros j [->|Hj]%elem_of_cons; [|by apply Hin]. intros ci Hci Hu Hc Hm. rewrite <- (Hs ci Hci Hu Hc Hm).
      unfold sampled_rec_per_key. by rewrite (Hout i Hi).
    + intros j [Hj Hjl]%not_elem_of_cons. rewrite (Hout j Hjl). by apply Ho.
Qed.

(** The cardinality sampled from a regular index that is not unique is the average number of rows for a key:
    the rows of the table divided by the number of different keys they have in the index.  The sample
    looks at every entry of a table of up to a hundred thousand rows, and the statistics of one index do
    not disturb another's. *)
Lemma sampled_cardinality_exact rows k :
  table_ok sh -> rep rows d -> pks_ok rows -> rows <> ∅ -> (size rows <= ANALYZE_SAMPLE_LIMIT)%nat ->
  length (cached_rec_per_key k) = MAX_KEY ->
  spec steady (analyze_sample_indexes sh t k)
    (fun k' e => steady e /\ forall i, (i < num_keys sh)%nat -> index_sampled rows k' i) (fun e => committed e = d).
Proof.
  intros Hok Hrep Hpk Hne Hn Hlen. unfold analyze_sample_indexes.
  eapply spec_weaken; [apply (sample_each_spec rows); try done; apply NoDup_seq|done| |done].
  intros k' e (He & _ & Hin & _). split; [done|]. intros i Hi. apply Hin. apply elem_of_seq. lia.
Qed.

End Sample.
(** ** The row count *)

Section Count.
Context {E txn : Type} `{!TidesDb E txn, !RowDb E txn, !RowServices E txn, !QuietDb E txn, !CursorDb E txn, !QuietCursor E txn,
  !StatsDb E txn, !CountingStats E txn}.
Context {SF : ServerField} {CS : FtsText.charset}.
Context (sh : share) (reclength : Z) (fields : list Field) (stored : record -> bytes -> Prop) (covered : nat -> Prop) (d : store).
#[local] Abbreviation rep := (table_rep sh fields stored covered).
Implicit Types (k : cached) (rows : gmap bytes record) (it : iter E) (L : list entry).

(** An entry of the engine's own. *)
Definition meta_entry (e : entry) : bool := match e.1 with b :: _ => b =? RowFormat.KEY_NS_META | [] => false end.

(** The data family holds rows and the engine's own records, and nothing else. *)
Definition two_namespaces L : Prop := forall e, e ∈ L -> meta_entry e = true \/ data_entry e = true.

Lemma meta_not_data (e : entry) : meta_entry e = true -> data_entry e = false.
Proof. unfold meta_entry, data_entry, RowFormat.is_data_key. destruct e as [[|b k] x]; [done|]. cbn. by intros ->%Z.eqb_eq. Qed.

Lemma meta_below_data (e e' : entry) : meta_entry e = true -> data_entry e' = true -> e.1 <b e'.1.
Proof.
  unfold meta_entry. intros He He'%data_entry_key. rewrite He'. destruct e as [[|b k] x]; [done|]. apply Z.eqb_eq in He as ->. done.
Qed.

(** The records come first. *)
Lemma namespaces_split L :
  ascending L -> two_namespaces L ->
  exists metas rest, L = metas ++ rest /\ (forall e, e ∈ metas -> meta_entry e = true) /\ (forall e, e ∈ rest -> data_entry e = true).
Proof.
  induction 1 as [|e L Hs IH He]; intros Hn.
  { exists [], []. split; [done|]. split; intros e ?%not_elem_of_nil; done. }
  destruct IH as (metas & rest & -> & Hm & Hr); [intros x Hx; apply Hn; by right|].
  destruct (Hn e ltac:(left)) as [He1|He1].
  - exists (e :: metas), rest. split; [done|]. split; [|done]. intros x [->|Hx]%elem_of_cons; [done|by apply Hm].
  - destruct metas as [|m metas]; [exists [], (e :: rest); split; [done|]; split; [done|]; intros x [->|Hx]%elem_of_cons; [done|by apply Hr]|].
    apply Forall_cons in He as [He _]. destruct (bytes_lt_irrefl e.1). apply (bytes_lt_trans _ m.1); [done|].
    apply meta_below_data; [apply Hm; left|done].
Qed.

Lemma count_meta_exact t fuel : forall it pre more rest n,
  ascending (walks it) -> walks it = pre ++ more ++ rest -> here it = head (more ++ rest) ->
  (forall e, e ∈ more -> meta_entry e = true) -> (forall e, e ∈ rest -> data_entry e = true) -> (length more < fuel)%nat ->
  0 <= n -> n + zlen more < 2 ^ 64 ->
  spec (quiet_txn t d []) (count_meta fuel it n) (fun r e => quiet_txn t d [] e /\ r.2 = n + zlen more) (fun e => committed e = d).
Proof.
  induction fuel as [|fuel IH]; intros it pre more rest n Hs HL Hh Hm Hr Hf Hn Hlt; [lia|]. cbn [count_meta]. rewrite Hh.
  destruct more as [|x more]; cbn [app].
  - destruct rest as [|x rest]; [apply spec_ret; intros e He; cbn; by rewrite Z.add_0_r|]. cbn [head].
    eapply spec_bind; [by apply (q_read t d [] it x)|]. intros r. apply (spec_pure _ (r = inr x)); [by intros e [_ ?]|]. intros ->.
    destruct x as [[|c k] y]; (eapply spec_pre; [|by intros e [He _]; exact He]); [apply spec_ret; intros e He; cbn; by rewrite Z.add_0_r|].
    assert ((c =? RowFormat.KEY_NS_META) = false) as ->.
    { pose proof (Hr (c :: k, y) ltac:(left)) as Hd%data_entry_key. by injection Hd as ->. }
    apply spec_ret; intros e He; cbn; by rewrite Z.add_0_r.
  - cbn [head]. eapply spec_bind; [by apply (q_read t d [] it x)|]. intros r. apply (spec_pure _ (r = inr x)); [by intros e [_ ?]|]. intros ->.
    pose proof (Hm x ltac:(left)) as Hx. destruct x as [[|c k] y]; [done|]. unfold meta_entry in Hx. cbn [fst] in Hx. rewrite Hx.
    eapply spec_bind; [eapply spec_pre; [apply (q_move t d [] Next it)|by intros e [? _]]|]. intros it'.
    apply (spec_pure _ (walks it' = walks it /\ here it' = head (more ++ rest))).
    { intros e (_ & Hw & Hmv). split; [done|]. rewrite Hmv by (rewrite Hh; by eexists). rewrite Hh, HL. cbn [app head].
      apply target_next. by rewrite HL in Hs. }
    intros [Hw Hh']. rewrite zlen_cons in Hlt. simpl in Hf. unfold u64. rewrite Z.mod_small by (pose proof (zlen_nonneg more); lia).
    eapply spec_weaken; [apply (IH it' (pre ++ [(c :: k, y)]) more rest (n + 1))| | |done].
    + by rewrite Hw.
    + by rewrite Hw, HL, <- app_assoc.
    + done.
    + intros e He. apply Hm. by right.
    + done.
    + lia.
    + lia.
    + lia.
    + by intros e (He & _).
    + intros r e [He ->]. split; [done|]. rewrite zlen_cons. lia.
Qed.

Lemma ascending_nodup L : ascending L -> NoDup L.
Proof.
  induction 1 as [|e L Hs IH He]; constructor; [|done]. intros Hin. rewrite Forall_forall in He.
  by apply (bytes_lt_irrefl e.1), He.
Qed.

(** The entries of the meta namespace are those an iterator over its bounds starts with. *)
Lemma metas_counted L metas rest metas' rest' :
  opened d (cf sh) None (metas ++ rest) -> opened d (cf sh) (Some ([RowFormat.KEY_NS_META], [RowFormat.KEY_NS_DATA])) L ->
  L = metas' ++ rest' ->
  (forall e, e ∈ metas -> meta_entry e = true) -> (forall e, e ∈ rest -> data_entry e = true) ->
  (forall e, e ∈ metas' -> meta_entry e = true) -> (forall e, e ∈ rest' -> data_entry e = true) ->
  length metas' = length metas.
Proof.
  intros (Hs & Hg & Hall) (Hs' & Hg' & Hall') -> Hm Hr Hm' Hr'. apply Permutation_length, NoDup_Permutation.
  - apply ascending_app in Hs' as [? _]. by apply ascending_nodup.
  - apply ascending_app in Hs as [? _]. by apply ascending_nodup.
  - assert (forall (e : entry) l1 l2, e ∈ l1 ++ l2 -> meta_entry e = true -> (forall x, x ∈ l2 -> data_entry x = true) -> e ∈ l1) as Hin.
    { intros e l1 l2 [?|He]%elem_of_app Hx H2; [done|]. specialize (H2 e He). by rewrite (meta_not_data e Hx) in H2. }
    intros [key x]. split; intros He.
    + pose proof (Hm' _ He) as Hx. apply (Hin (key, x) metas rest); [|done|done]. apply Hall; [|done]. apply Hg', elem_of_app. by left.
    + pose proof (Hm _ He) as Hx. apply (Hin (key, x) metas' rest'); [|done|done]. apply Hall'; [apply Hg, elem_of_app; by left|].
      unfold meta_entry in Hx. cbn [fst] in Hx. destruct key as [|b key]; [done|]. apply Z.eqb_eq in Hx as ->.
      cbn [between_bounds]. unfold bytes_lt. cbn [bytes_cmp]. split; [by destruct key|done].
Qed.

Lemma meta_count_exact metas rest :
  sorted_entries (cf sh) d = metas ++ rest ->
  (forall e, e ∈ metas -> meta_entry e = true) -> (forall e, e ∈ rest -> data_entry e = true) -> zlen metas < 2 ^ 64 ->
  spec (quiet_at d) (tdb_meta_key_count (cf sh)) (fun n e => quiet_at d e /\ n = zlen metas) (fun e => committed e = d).
Proof.
  intros HL Hm Hr Hn. unfold tdb_meta_key_count. eapply spec_bind; [apply q_begin|]. intros r.
  apply (spec_pure _ (exists t, r = inr t)); [intros e (t & -> & _); by exists t|]. intros [t ->].
  eapply (spec_pre _ (quiet_txn t d [])); [|intros e (t' & [= ->] & ?); done].
  eapply spec_bind; [apply q_iter_new|]. intros i.
  apply (spec_pure _ (exists it, i = inr it /\ opened d (cf sh) (Some ([RowFormat.KEY_NS_META], [RowFormat.KEY_NS_DATA])) (walks it)));
    [by intros e [_ ?]|]. intros (it & -> & Ho). pose proof (sorted_opened (cf sh) d) as Hall. rewrite HL in Hall.
  assert (two_namespaces (walks it)) as Htwo.
  { intros [key x] Hx. apply (proj1 (proj2 Ho)) in Hx. apply (proj2 (proj2 Hall)) in Hx; [|done].
    apply elem_of_app in Hx as [Hx|Hx]; [left; by apply Hm|right; by apply Hr]. }
  destruct (namespaces_split (walks it) (proj1 Ho) Htwo) as (metas' & rest' & Hw & Hm' & Hr').
  pose proof (metas_counted _ _ _ _ _ Hall Ho Hw Hm Hr Hm' Hr') as Hlen.
  eapply (spec_bind _ _ (fun n e => quiet_at d e /\ n = zlen metas)).
  - eapply spec_bind; [eapply spec_pre; [apply (q_move t d [] Seek_to_first it)|by intros e [? _]]|]. intros it'.
    apply (spec_pure _ (walks it' = walks it /\ here it' = head (walks it))).
    { intros e (_ & Hw' & Hmv). split; [done|]. rewrite Hmv by done. by rewrite target_all. }
    intros [Hw' Hh']. eapply (spec_pre _ (quiet_txn t d [])); [|by intros e (? & _)].
    eapply spec_bind; [apply (count_meta_exact t _ it' [] metas' rest' 0); try done|].
    + rewrite Hw'. apply (proj1 Ho).
    + by rewrite Hw'.
    + by rewrite Hh', Hw.
    + rewrite Hw', Hw, length_app. lia.
    + unfold zlen in *. lia.
    + intros r. apply (spec_pure _ (r.2 = zlen metas)); [intros e [_ ->]; unfold zlen; lia|]. intros Hr2.
      eapply spec_bind; [eapply spec_pre; [apply (q_free t d [] r.1)|by intros e [? _]]|]. intros ?. apply spec_ret.
      intros e He. split; [by eapply quiet_txn_at|done].
  - intros n. apply (spec_pure _ (n = zlen metas)); [by intros e [_ ?]|]. intros ->.
    eapply spec_bind; [eapply spec_pre; [apply (q_rollback t d)|by intros e [? _]]|]. intros ?. apply spec_ret. by intros e He.
Qed.

Lemma index_sizes_quiet cfs : forall n,
  spec (quiet_at d) (index_sizes sh cfs n) (fun _ => quiet_at d) (fun e => committed e = d).
Proof.
  induction cfs as [|[c|] cfs IH]; intros n; cbn [index_sizes]; [by apply spec_ret| |apply IH].
  eapply spec_bind; [apply (counted_keys d c)|]. intros r. eapply spec_pre; [apply IH|]. by intros e [? _].
Qed.

(** A refresh of a stale row count sets it to the number of rows of the table: the engine's own records in
    the data family, which the library counts with them, are counted apart and taken off. *)
Lemma refreshed_row_count_exact rows k now :
  rep rows d -> two_namespaces (sorted_entries (cf sh) d) -> zlen (sorted_entries (cf sh) d) < 2 ^ 64 ->
  TIDESDB_STATS_REFRESH_US < now - stats_refresh_us k ->
  spec (quiet_at d) (info_refresh_cf_stats sh reclength now true k)
    (fun k' e => quiet_at d e /\ cached_records k' = Z.of_nat (size rows)) (fun e => committed e = d).
Proof.
  intros [_ (_ & Hd & _)] Htwo Hn Hnow. unfold info_refresh_cf_stats. rewrite (proj2 (Z.leb_gt _ _) Hnow). cbn [orb negb].
  pose proof (sorted_opened (cf sh) d) as Ho.
  destruct (namespaces_split _ (proj1 Ho) Htwo) as (metas & rest & HL & Hm & Hr).
  assert (length rest = size rows) as Hrows.
  { rewrite <- (in_order_length rows _ pk_lt pk_lt_ne (rows_in_order sh stored d rows _ Hd Ho)).
    pose proof (holds_rows_in sh stored d rows _ Hd (proj1 (proj2 Ho))) as H. apply Forall2_length in H. rewrite <- H, HL.
    rewrite filter_split; [done| |done]. intros e He. by rewrite (meta_not_data e (Hm e He)). }
  assert (zlen (sorted_entries (cf sh) d) = zlen metas + Z.of_nat (size rows)) as Hz by (rewrite HL, zlen_app; unfold zlen; lia).
  pose proof (zlen_nonneg metas) as H0.
  eapply spec_bind; [apply (counted_keys d (cf sh))|]. intros r.
  apply (spec_pure _ (exists st, r = inr st /\ u64 (total_keys st + unflushed_key_count st) = zlen metas + Z.of_nat (size rows))).
  { intros e (_ & st & -> & Hst). exists st. split; [done|]. rewrite Hst, Hz. apply Z.mod_small. lia. }
  intros (st & -> & Hst). rewrite Hst.
  eapply spec_bind; [eapply spec_pre; [apply (meta_count_exact metas rest HL Hm Hr); lia|by intros e [? _]]|]. intros n.
  apply (spec_pure _ (n = zlen metas)); [by intros e [_ ?]|]. intros ->.
  eapply spec_bind; [eapply spec_pre; [apply index_sizes_quiet|by intros e [? _]]|]. intros idx. apply spec_ret. intros e He.
  split; [done|]. cbn [set_sizes cached_records].
  destruct (Z.ltb_spec (zlen metas) (zlen metas + Z.of_nat (size rows))); lia.
Qed.

End Count.
End StatsSpec.
