(* ===== verification/StatsExample.v ===== *)
(** * Statistics of a concrete table

    The map library as a library that counts, and the table of [DmlExample] with its index on [a] made
    not unique: witnesses of the theorems on statistics and a refresh of its row count. *)
From S2P Require Import Prelude Effects TidesDb RowDb RowFormat FtsText FtsScore Table KeyCodec Dml TableRep DmlSpec DmlExample Spatial CursorDb Quiet Scan ScanSpec ScanIndex ScanExample Stats StatsSpec.
Import Table KeyCodec Dml TableRep DmlExample Scan ScanSpec ScanIndex ScanExample Stats StatsSpec.
#[local] Open Scope Z_scope.
#[local] Open Scope tdb_scope.

(** ** The map library *)

Definition mem_cf_stats (c : bytes) : M mem_db (tdb_rc + tidesdb_cf_stats_t) :=
  soft (inl ERR_IO) (fun e =>
    (e, Ret (inr {| total_keys := zlen (sorted_entries c (mem e)); unflushed_key_count := 0; total_data_size := 0;
                    avg_key_size := FtsScore.ZERO; avg_value_size := FtsScore.ZERO; lib_read_amp := FtsScore.of_int 1 |}))).

Definition mem_range_stats (c lo hi : bytes) : M mem_db (tdb_rc + tidesdb_range_stats_t) :=
  soft (inl ERR_IO) (fun e =>
    (e, Ret (inr {| estimated_keys := u64 (zlen (filter (fun x : entry => in_range lo hi x.1 = true) (sorted_entries c (mem e))));
                    sstables_overlapping := 1 |}))).

#[export] Program Instance mem_stats : StatsDb mem_db unit := {|
  get_cf_stats := mem_cf_stats;
  range_stats := mem_range_stats;
  compact _ := soft ERR_IO (ret TDB_SUCCESS) |}.
Next Obligation. by intros d ws t c [m bf [|[] sc]]; cbn; intros [<- <-]. Qed.
Next Obligation. by intros d ws t c lo hi [m bf [|[] sc]]; cbn; intros [<- <-]. Qed.
Next Obligation. by intros d ws t c [m bf [|[] sc]]; cbn; intros [<- <-]. Qed.

#[export] Program Instance mem_counting : CountingStats mem_db unit.
Next Obligation.
  intros d c [m bf [|f sc]]; cbn; intros [Hd Hq]; [|apply dies_or_works_cons in Hq as [Hq [-> |[-> | ->]]]; cbn];
    try done; (split; [done|]); eexists; (split; [done|]); cbn [total_keys unflushed_key_count]; rewrite Z.add_0_r; by subst.
Qed.
Next Obligation.
  intros d c lo hi [m bf [|f sc]]; cbn; intros [Hd Hq]; [|apply dies_or_works_cons in Hq as [Hq [-> |[-> | ->]]]; cbn];
    try done; (split; [done|]); eexists; (split; [done|]); by subst.
Qed.

Module StatsExample.

#[local] Existing Instance KeyCodec.example_server.
#[local] Existing Instance FtsText.example_charset.
#[local] Existing Instance ex_services.
#[local] Abbreviation svc := (ex_services true).
#[local] Abbreviation all := (fun _ : nat => True).

(** The index on [a] is not unique; four rows, three of them with [a = 1]. *)
Definition loose_table : share := {|
  codec := codec ex_table; cf := cf ex_table; idx_cfs := idx_cfs ex_table; idx_kind := idx_kind ex_table;
  nosame := [true; false; false]; encrypted := encrypted ex_table; ref_length := ref_length ex_table;
  has_next_number := has_next_number ex_table; triggers := triggers ex_table; table_name := table_name ex_table;
  fts_opts := fts_opts ex_table |}.

Definition r9 : record := ex_row 9 1 99 100.
Definition r10 : record := ex_row 10 1 101 102.
Definition store4 : store := apply_writes (stores (pk_at 10) r10) (apply_writes (stores (pk_at 9) r9) store78).
Definition rows4 : gmap bytes record := <[pk_at 10 := r10]> (<[pk_at 9 := r9]> rows78).

Lemma store4_rep : table_rep (RowServices0 := svc) loose_table ex_fields ex_stored all rows4 store4.
Proof.
  change (table_rep (RowServices0 := svc) ex_table ex_fields ex_stored all rows4 store4).
  apply ex_rep_insert; [|ex_good_tac|done|by vm_compute].
  apply ex_rep_insert; [apply store78_rep|ex_good_tac|done|by vm_compute].
Qed.

Lemma loose_ok : table_ok loose_table.
Proof. exact ex_table_ok. Qed.

Lemma loose_index : regular_index loose_table all 1 (bs "a").
Proof. split; try exact I; vm_compute; try reflexivity; lia. Defined.

Lemma pks4 : pks_ok rows4.
Proof. apply (map_Forall_to_list (fun pk _ => pk <> [])). vm_compute. repeat constructor; discriminate. Qed.

(** Nothing sampled yet; the table is known to hold four rows. *)
Definition unsampled : cached := {|
  cached_records := 4; cached_data_size := 0; cached_idx_data_size := 0; cached_mean_rec_len := 0; stats_refresh_us := 0;
  cached_read_amp := READ_AMP_NONE; cached_rec_per_key := replicate MAX_KEY 0; idx_stats_sampled := false;
  idx_stats_sampling := false; cached_scan_cost := FtsScore.ZERO; scan_cost_time := 0 |}.

Definition db4 (fates : list fate) : mem_db := {| mem := store4; buf := []; script := fates |}.

Lemma rows4_small : (size rows4 <= ANALYZE_SAMPLE_LIMIT)%nat.
Proof. assert (size rows4 = 4%nat) as -> by (vm_compute; reflexivity). unfold ANALYZE_SAMPLE_LIMIT. lia. Qed.

Lemma db4_quiet : quiet_txn (E := mem_db) tt store4 [] (db4 []).
Proof. repeat split. apply Forall_nil_2. Qed.

(** A probe that fails leaves the guess for an unknown range. *)
Lemma failed_probe_estimate : usable 4 2.
Proof.
  pose proof (range_estimate_usable loose_table junk9 1 None (Some (a_is 1)) 0 unsampled store4 [] tt ltac:(vm_compute; discriminate)) as H.
  exact (proj2 (spec_run _ _ _ _ (db4 [fails]) 2 H (conj eq_refl eq_refl) ltac:(vm_compute; reflexivity))).
Qed.

Lemma point_probe_exact_witness :
  length (filter (fun x : entry => in_range (comparable loose_table junk9 1 (a_is 1)) [254; 127; 255] x.1 = true)
    (sorted_entries (bs "a") store4)) = size (rows_with loose_table rows4 1 (comparable loose_table junk9 1 (a_is 1))).
Proof.
  exact (proj2 (proj2 (proj2 (point_probe_exact (RowServices0 := svc) loose_table junk9 ex_fields ex_stored all rows4 1 (bs "a") (a_is 1) 0
    unsampled store4 _ loose_ok loose_index store4_rep pks4 eq_refl ltac:(vm_compute; reflexivity)
    ltac:(apply (bool_decide_unpack _); vm_compute; exact I) ltac:(vm_compute; discriminate) ltac:(vm_compute; reflexivity))))).
Defined.

Lemma counted_point_estimate :
  3 = clamp (Z.of_nat (size (filter (fun p : bytes * record =>
        comparable loose_table junk9 1 (a_is 1) `prefix_of` index_key loose_table 1 p.2) rows4))) 4.
Proof.
  pose proof (point_estimate_counts_rows (RowServices0 := svc) loose_table junk9 ex_fields ex_stored all rows4 1 (bs "a") (a_is 1) 0
    unsampled store4 _ loose_ok loose_index store4_rep pks4 eq_refl ltac:(vm_compute; reflexivity)
    ltac:(apply (bool_decide_unpack _); vm_compute; exact I) ltac:(vm_compute; discriminate) ltac:(vm_compute; reflexivity) ltac:(vm_compute; reflexivity)) as H.
  exact (proj2 (spec_run _ _ _ _ (db4 []) 3 H (quiet_txn_at _ _ _ _ db4_quiet) ltac:(vm_compute; reflexivity))).
Defined.

Lemma sampled_cardinality_exact_witness :
  2 = Z.of_nat (size rows4) / Z.of_nat (size (keys_in loose_table 1 rows4)).
Proof.
  pose proof (sampled_cardinality_exact (RowServices0 := svc) loose_table ex_fields ex_stored all tt store4 rows4 unsampled loose_ok
    store4_rep pks4 ltac:(apply (bool_decide_unpack _); vm_compute; exact I) rows4_small eq_refl) as H.
  pose proof (spec_run _ _ _ _ (db4 []) (set_rec_per_key 2 1 (set_rec_per_key 1 2 unsampled)) H db4_quiet ltac:(vm_compute; reflexivity)) as [_ Hs].
  exact (Hs 1%nat ltac:(vm_compute; lia) (bs "a") loose_index eq_refl ltac:(vm_compute; discriminate) ltac:(vm_compute; lia)).
Defined.

(** A sampling pass that could open no iterator counts as one that measured the index: nothing is sampled, and
    no later pass will be made. *)
Lemma failed_pass_is_final :
  (auto_sample_index_stats loose_table (ret (inr tt)) (fun _ => ret tt) 5000 true unsampled (db4 [works; fails; works; fails])).2 =
    Ret (set_sampled true unsampled).
Proof. vm_compute. reflexivity. Qed.

(** A range is counted up to its last value, and every entry of that value is longer: the index is descending,
    all four rows lie in its range from [a = 2] to [a = 1], and the estimate is the one row with [a = 2]. *)
Lemma last_value_not_counted :
  (records_in_range loose_table junk9 1 None (Some (a_is 1)) 0 unsampled (db4 [])).2 = Ret 1 /\
  (records_in_range loose_table junk9 1 (Some (a_is 2)) (Some (a_is 1)) 0 unsampled (db4 [])).2 = Ret 1.
Proof. split; vm_compute; reflexivity. Qed.

(** The four rows beside the statistics of the full-text index, a record of the engine's own. *)
Definition store4m : store := apply_write (W_put (bs "d") (fts_meta_key 2) [0]) store4.

Lemma store4m_rep : table_rep (RowServices0 := svc) loose_table ex_fields ex_stored all rows4 store4m.
Proof.
  apply (table_rep_elsewhere (RowServices0 := svc) loose_table ex_fields ex_stored all rows4 store4
    [W_put (bs "d") (fts_meta_key 2) [0]]); [|apply store4_rep].
  apply Forall_singleton, meta_elsewhere. intros i. apply (proj2 (proj2 loose_ok) i).
Qed.

Lemma store4m_namespaces : two_namespaces (sorted_entries (bs "d") store4m).
Proof.
  assert (forallb (fun e => meta_entry e || data_entry e) (sorted_entries (bs "d") store4m) = true) as H by (vm_compute; reflexivity).
  intros e He. apply orb_true_iff. apply (proj1 (forallb_forall _ _) H e). by apply list_elem_of_In.
Qed.

Definition rows_counted : cached :=
  set_sizes 4 (Stats.to_uint (FtsScore.of_int 20)) 5 READ_AMP_NONE 32 (set_refresh 9000000 unsampled).

Lemma refreshed_row_count_ex : cached_records rows_counted = Z.of_nat (size rows4).
Proof.
  pose proof (refreshed_row_count_exact (RowServices0 := svc) loose_table 5 ex_fields ex_stored all store4m rows4 unsampled 9000000
    store4m_rep store4m_namespaces ltac:(vm_compute; reflexivity) ltac:(vm_compute; reflexivity)) as H.
  pose proof (spec_run _ _ _ _ {| mem := store4m; buf := []; script := [] |} rows_counted H) as Hr.
  exact (proj2 (Hr (conj eq_refl (Forall_nil_2 _)) ltac:(vm_compute; reflexivity))).
Qed.

End StatsExample.
