(* ===== verification/Cost.v ===== *)
(** * The cost of an access path ([src/core/cost_model], [src/engine/ha_tidesdb_cost_double.cc])

    IEEE-754 arithmetic on the doubles of [FtsScore].  The server's own estimate of a scan is an
    argument.  No row count, overlap or read amplification, not a number included, makes a cost negative. *)
From Stdlib Require Import SpecFloat.
From S2P Require Import Prelude Effects TidesDb RowDb FtsText FtsScore Table KeyCodec Dml CursorDb Scan Stats.
Import Dml.
#[local] Open Scope Z_scope.
#[local] Open Scope tdb_scope.

Create HintDb tdb_cost.

Module Cost.
Import FtsScore (double, dadd, dmul, ddiv, dlt, of_int, ZERO).

(** ** [src/core/cost_model] *)

Definition non_negative (v : double) : double := if dlt ZERO v then v else ZERO.
Definition at_least_one (v : double) : double := if dlt (of_int 1) v then v else of_int 1.

Definition key_read_cost (rows ranges read_amp per_row per_range : double) : double :=
  dadd (dmul (dmul (non_negative rows) per_row) (at_least_one read_amp)) (dmul (non_negative ranges) per_range).
Definition row_read_cost (rows read_amp per_row : double) : double :=
  dmul (dmul (non_negative rows) per_row) (at_least_one read_amp).
Definition scan_surcharge_io (overlap weight : double) : double := dmul (non_negative overlap) weight.
Definition scan_surcharge_cpu (overlap weight : double) : double := dmul (non_negative overlap) weight.
Definition combine (io cpu : double) : double := dadd io cpu.

(** ** The adapter *)

(** A decimal constant: the double nearest to [n / d]. *)
Definition decimal (n d : Z) : double := ddiv (of_int n) (of_int d).

Definition TIDESDB_COST_SEQ_READ : double := decimal 5 100000.
Definition TIDESDB_COST_KEY_READ : double := decimal 3 100000.
Definition TIDESDB_COST_RANGE_SETUP : double := decimal 1 10000.
Definition TIDESDB_SCAN_IO_WEIGHT : double := decimal 9 10.
Definition TIDESDB_SCAN_CPU_WEIGHT : double := decimal 1 10.

Section code.
Context {E txn : Type} `{!TidesDb E txn, !StatsDb E txn}.
Context (sh : share).
Local Open Scope eff_scope.

(** [base] is [handler::scan_time()]. *)
Definition scan_time (base : double) (now_us : Z) (k : Stats.cached) : M E (double * Stats.cached) :=
  o <-- Stats.scan_overlap sh now_us k;
  ret (dadd base (combine (scan_surcharge_io o.1 TIDESDB_SCAN_IO_WEIGHT) (scan_surcharge_cpu o.1 TIDESDB_SCAN_CPU_WEIGHT)), o.2).

Definition read_time (ranges rows : Z) (k : Stats.cached) : double :=
  let amp := Stats.read_amp k in
  let keys := key_read_cost (of_int rows) (of_int ranges) amp TIDESDB_COST_KEY_READ TIDESDB_COST_RANGE_SETUP in
  let fetch := row_read_cost (of_int rows) amp TIDESDB_COST_SEQ_READ in
  combine ZERO (dadd keys fetch).

Definition index_only_read_time (records : double) (k : Stats.cached) : double :=
  combine ZERO (key_read_cost records (of_int 1) (Stats.read_amp k) TIDESDB_COST_KEY_READ TIDESDB_COST_RANGE_SETUP).

End code.

(** ** No cost is negative *)

(** Not a number, or without a minus sign. *)
Definition unsigned (x : double) : Prop :=
  match x with S754_zero s | S754_infinity s | S754_finite s _ _ => s = false | S754_nan => True end.

Lemma unsigned_not_below x : unsigned x -> dlt x ZERO = false.
Proof. by destruct x as [[]|[]| |[] m e]. Qed.

Lemma round_unsigned m e l : unsigned (binary_round_aux 53 1024 false m e l).
Proof.
  unfold binary_round_aux. destruct (shr_fexp _ _ m e l) as [mrs e'].
  destruct (shr_fexp _ _ (round_nearest_even _ _) e' loc_Exact) as [mrs' e''].
  destruct (shr_m mrs') as [|p|p]; [done| |done]. by destruct (e'' <=? _).
Qed.

Lemma normalize_unsigned m e : 0 <= m -> unsigned (binary_normalize 53 1024 m e false).
Proof.
  intros Hm. destruct m as [|p|p]; [done| |lia]. cbn [binary_normalize]. unfold binary_round.
  destruct (shl_align p e _) as [mz ez]. apply round_unsigned.
Qed.

Lemma dmul_unsigned x y : unsigned x -> unsigned y -> unsigned (dmul x y).
Proof.
  destruct x as [sx|sx| |sx mx ex], y as [sy|sy| |sy my ey]; cbn [unsigned]; intros; subst; try done. apply round_unsigned.
Qed.

Lemma dadd_unsigned x y : unsigned x -> unsigned y -> unsigned (dadd x y).
Proof.
  destruct x as [sx|sx| |sx mx ex], y as [sy|sy| |sy my ey]; cbn [unsigned]; intros; subst; try done.
  apply normalize_unsigned. cbn [cond_Zopp]. lia.
Qed.

Lemma non_negative_unsigned v : unsigned (non_negative v).
Proof. unfold non_negative. destruct v as [[]|[]| |[] m e]; done. Qed.

Lemma at_least_one_unsigned v : unsigned (at_least_one v).
Proof.
  unfold at_least_one. destruct v as [[]|[]| |[] m e]; try done. by destruct (dlt _ _).
Qed.

#[local] Hint Resolve dmul_unsigned dadd_unsigned non_negative_unsigned at_least_one_unsigned : tdb_cost.

Lemma key_read_cost_unsigned rows ranges amp per_row per_range :
  unsigned per_row -> unsigned per_range -> unsigned (key_read_cost rows ranges amp per_row per_range).
Proof. intros. unfold key_read_cost. auto 8 with tdb_cost. Qed.

Lemma row_read_cost_unsigned rows amp per_row : unsigned per_row -> unsigned (row_read_cost rows amp per_row).
Proof. intros. unfold row_read_cost. auto with tdb_cost. Qed.

(** An index read is never free because of a bad estimate, with or without the rows. *)
Lemma read_cost_not_negative ranges rows records k :
  dlt (read_time ranges rows k) ZERO = false /\ dlt (index_only_read_time records k) ZERO = false.
Proof.
  split; apply unsigned_not_below, dadd_unsigned; try done.
  - apply dadd_unsigned; [by apply key_read_cost_unsigned|by apply row_read_cost_unsigned].
  - by apply key_read_cost_unsigned.
Qed.

(** A scan costs no less than nothing, whatever the library says of the runs it would merge. *)
Lemma scan_cost_not_negative {E txn : Type} `{!TidesDb E txn, !StatsDb E txn} (sh : share) base now_us k :
  unsigned base ->
  spec (fun _ => True) (scan_time sh base now_us k) (fun r _ => dlt r.1 ZERO = false) (fun _ => True).
Proof.
  intros Hb. unfold scan_time. eapply (spec_bind _ _ (fun _ _ => True)).
  - intros e _. destruct (Stats.scan_overlap sh now_us k e) as [e' [a|]]; done.
  - intros o. apply spec_ret. intros e _. cbn [fst]. apply unsigned_not_below, dadd_unsigned; [done|].
    apply dadd_unsigned; apply dmul_unsigned; try done; apply non_negative_unsigned.
Qed.

End Cost.
