(* ===== verification/FtsSearch.v ===== *)
(** * Full-text search ([ha_tidesdb_fts_search.cc])

    [MATCH ... AGAINST]: the query's terms, their postings in the index, the scores of the documents
    and the ranked result that [ft_read] streams.  The result handle ([tdb_ft_info_t]) is passed to and
    returned by the operations.  The hash maps of the source are finite maps, so the order among
    documents of one rank is the map's; the source leaves it open.  A failed allocation of a result's
    key has no counterpart. *)
From Stdlib Require Import SpecFloat.
From stdpp Require Import sorting.
From S2P Require Import Prelude Effects TidesDb RowDb RowFormat FtsText FtsScore Table KeyCodec Dml Spatial CursorDb Scan.
Import Table KeyCodec Dml Scan.
#[local] Open Scope Z_scope.
#[local] Open Scope tdb_scope.

Module FtsSearch.

Import FtsText (query_term, term, req, trunc, is_phrase, phrase_words, required, excluded, neutral).
Import FtsScore (double, Libm).

Definition BM25_MIN_TOTAL_DOCS : Z := 1.

Record tdb_fts_result_t := { r_pk : bytes; rank : double }.

Record tdb_ft_info_t := {
  ft_keynr : nat;
  results : list tdb_fts_result_t;
  current_idx : nat;
  current_rank : double;
  match_count : Z }.

Record fts_posting_t := { p_pk : bytes; p_tf : Z; p_doc_len : Z }.

(** ** The handle *)

Definition ft_new_info (inx : nat) : tdb_ft_info_t :=
  {| ft_keynr := inx; results := []; current_idx := 0; current_rank := FtsScore.ZERO; match_count := 0 |}.

Definition set_results (l : list tdb_fts_result_t) (n : Z) (i : tdb_ft_info_t) : tdb_ft_info_t :=
  {| ft_keynr := ft_keynr i; results := l; current_idx := current_idx i; current_rank := current_rank i;
     match_count := n |}.
Definition set_place (n : nat) (r : double) (i : tdb_ft_info_t) : tdb_ft_info_t :=
  {| ft_keynr := ft_keynr i; results := results i; current_idx := n; current_rank := r; match_count := match_count i |}.

Definition tdb_fts_get_docid (i : tdb_ft_info_t) : Z :=
  if (0 <? Z.of_nat (current_idx i)) && (Z.of_nat (current_idx i) <=? zlen (results i))
  then Z.of_nat (current_idx i) else 0.

Definition tdb_fts_count_matches (i : tdb_ft_info_t) : Z := match_count i.
Definition tdb_fts_find_relevance (i : tdb_ft_info_t) : double := current_rank i.
Definition tdb_fts_get_relevance (i : tdb_ft_info_t) : double := current_rank i.

(** Both set [current_idx] alone. *)
Definition tdb_fts_reinit_search (i : tdb_ft_info_t) : tdb_ft_info_t := set_place 0 (current_rank i) i.
Definition ft_init (h : option tdb_ft_info_t) : option tdb_ft_info_t :=
  (fun i => set_place 0 (current_rank i) i) <$> h.

(** ** The query *)

Definition ft_parse_query `{FtsText.charset} (opts : FtsText.tokenize_opts) (ft_bool : bool) (query : bytes) :
    option (list query_term) :=
  if ft_bool then FtsText.parse_boolean opts query
  else Some (map (fun tok => FtsText.plain_term tok neutral false) (FtsText.tokenize opts query)).

(** ** Scores of documents *)

Record scores := {
  doc_scores : gmap bytes double;
  doc_required_hits : gmap bytes Z;
  excluded_pks : gset bytes;
  num_required : Z }.

Definition no_scores : scores :=
  {| doc_scores := ∅; doc_required_hits := ∅; excluded_pks := ∅; num_required := 0 |}.

(** [if (qt.req == required) num_required++]. *)
Definition count_required (qt : query_term) (s : scores) : scores :=
  match req qt with
  | required => {| doc_scores := doc_scores s; doc_required_hits := doc_required_hits s;
                   excluded_pks := excluded_pks s; num_required := u32 (num_required s + 1) |}
  | _ => s
  end.

Definition add_posting (qt : query_term) (w : FtsScore.term_weights) (s : scores) (p : fts_posting_t) : scores :=
  let pk := p_pk p in
  match req qt with
  | excluded => {| doc_scores := doc_scores s; doc_required_hits := doc_required_hits s;
                   excluded_pks := {[pk]} ∪ excluded_pks s; num_required := num_required s |}
  | r =>
      let score := FtsScore.posting_score w (p_tf p) (p_doc_len p) in
      {| doc_scores := <[pk := FtsScore.dadd (default FtsScore.ZERO (doc_scores s !! pk)) score]> (doc_scores s);
         doc_required_hits :=
           match r with
           | required => <[pk := u32 (default 0 (doc_required_hits s !! pk) + 1)]> (doc_required_hits s)
           | _ => doc_required_hits s
           end;
         excluded_pks := excluded_pks s; num_required := num_required s |}
  end.

(** [doc_scores.erase] and [doc_required_hits.erase] over the excluded documents. *)
Definition apply_exclusions (s : scores) : scores :=
  let out (pk : bytes) := bool_decide (pk ∈ excluded_pks s) in
  {| doc_scores := filter (fun kv => out kv.1 = false) (doc_scores s);
     doc_required_hits := filter (fun kv => out kv.1 = false) (doc_required_hits s);
     excluded_pks := excluded_pks s; num_required := num_required s |}.

(** The documents that miss a required term. *)
Definition require_hits (s : scores) : gmap bytes double :=
  if 0 <? num_required s
  then filter (fun kv => match doc_required_hits s !! kv.1 with
                         | Some n => negb (n <? num_required s) | None => false end = true) (doc_scores s)
  else doc_scores s.

Definition ft_fill_results (m : gmap bytes double) : list tdb_fts_result_t :=
  map (fun '(pk, score) => {| r_pk := pk; rank := FtsScore.to_single score |}) (map_to_list m).

(** [std::sort] with the comparator [a.rank > b.rank]: no result is outranked by the next. *)
Definition not_outranked (a b : tdb_fts_result_t) : Prop := FtsScore.dlt (rank a) (rank b) = false.

#[export] Instance not_outranked_dec a b : Decision (not_outranked a b).
Proof. unfold not_outranked. apply _. Defined.

Section code.
Context {E txn : Type} `{!TidesDb E txn, !RowDb E txn, !RowServices E txn, !CursorDb E txn, !RowReader E}.
Context {SF : ServerField} {CS : FtsText.charset} `{!Libm}.
Context (sh : share) (stm : statement).
Context (srv_fts_bm25_k1 srv_fts_bm25_b : double).
Local Open Scope eff_scope.

#[local] Abbreviation sc := (scanner E txn (iter E)).

(** ** Postings *)

(** The posting of an entry whose value is long enough. *)
Definition posting_at (pk value : bytes) : list fts_posting_t :=
  match FtsText.decode_entry_value value with
  | Some (tf, doc_len) => [{| p_pk := pk; p_tf := tf; p_doc_len := doc_len |}]
  | None => []
  end.

(** What the loop does with an entry: leave the loop, or take the postings and go on. *)
Fixpoint posting_loop (fuel : nat) (look : entry -> option (list fts_posting_t)) (it : iter E) :
    M sc (iter E * list fts_posting_t) :=
  match fuel with
  | O => ret (it, [])
  | S fuel =>
      match here it with
      | None => ret (it, [])
      | Some _ =>
          r <-- on_db (iter_read it);
          match r with
          | inl _ => ret (it, [])
          | inr x =>
              match look x with
              | None => ret (it, [])
              | Some l =>
                  it <-- on_db (iter_move Next it);
                  r <-- posting_loop fuel look it;
                  ret (r.1, l ++ r.2)
              end
          end
      end
  end.

Definition bucket_look (q : bytes) (tlen : Z) (x : entry) : option (list fts_posting_t) :=
  let '(ik, iv) := x in
  if zlen ik <? FtsText.TERM_LEN_PREFIX then None
  else
    let stored_len := FtsText.load_u16le ik in
    if negb (stored_len =? tlen) then None
    else if zlen ik <? FtsText.TERM_LEN_PREFIX + stored_len then None
    else if negb (bool_decide (take (length q) (drop 2 ik) = q)) then None
    else
      let pk_off := FtsText.TERM_LEN_PREFIX + stored_len in
      Some (if zlen ik <=? pk_off then [] else posting_at (drop (Z.to_nat pk_off) ik) iv).

Definition exact_look (prefix : bytes) (x : entry) : option (list fts_posting_t) :=
  let '(ik, iv) := x in
  if (zlen ik <? zlen prefix) || negb (bool_decide (take (length prefix) ik = prefix)) then None
  else Some (posting_at (drop (length prefix) ik) iv).

(** The longest term a wildcard looks for. *)
Definition max_len : Z :=
  let m := u32 (FtsText.max_word_len (fts_opts sh)) in
  if FtsText.MAX_TERM_BYTES <? m then FtsText.MAX_TERM_BYTES else m.

Definition buckets (q : bytes) : list Z :=
  map (fun i => zlen q + Z.of_nat i) (seq 0 (Z.to_nat (max_len - zlen q + 1))).

Definition seek_loop (key : bytes) (look : entry -> option (list fts_posting_t)) (it : iter E) :
    M sc (iter E * list fts_posting_t) :=
  it <-- on_db (iter_move (Seek key) it);
  posting_loop (S (length (walks it))) look it.

Fixpoint bucket_loop (lens : list Z) (q : bytes) (it : iter E) : M sc (iter E * list fts_posting_t) :=
  match lens with
  | [] => ret (it, [])
  | tlen :: lens =>
      r <-- seek_loop (FtsText.store_u16le (u16 tlen) ++ q) (bucket_look q tlen) it;
      rest <-- bucket_loop lens q r.1;
      ret (rest.1, r.2 ++ rest.2)
  end.

Definition ft_gather_postings (it : iter E) (qt : query_term) (qlen : nat) : M sc (iter E * list fts_posting_t) :=
  let q := take qlen (term qt) in
  if trunc qt then bucket_loop (buckets q) q it
  else
    let prefix := FtsText.store_u16le (u16 (zlen q)) ++ q in
    seek_loop prefix (exact_look prefix) it.

(** [qt.term.size()] capped at the longest indexed term. *)
Definition query_len (qt : query_term) : nat := Nat.min (length (term qt)) (Z.to_nat FtsText.MAX_TERM_BYTES).

Definition score_postings (qt : query_term) (total_docs : Z) (inv_avgdl : double) (l : list fts_posting_t) (s : scores) :
    scores :=
  let df := u32 (zlen l) in
  let w := FtsScore.make_term_weights (FtsScore.idf total_docs df) srv_fts_bm25_k1 srv_fts_bm25_b inv_avgdl in
  fold_left (add_posting qt w) l s.

Fixpoint score_loop (terms : list query_term) (total_docs : Z) (inv_avgdl : double) (it : option (iter E)) (s : scores) :
    M sc (option (iter E) * scores) :=
  match terms with
  | [] => ret (it, s)
  | qt :: terms =>
      let s := count_required qt s in
      match it with
      | None => score_loop terms total_docs inv_avgdl None s
      | Some it =>
          r <-- ft_gather_postings it qt (query_len qt);
          score_loop terms total_docs inv_avgdl (Some r.1) (score_postings qt total_docs inv_avgdl r.2 s)
      end
  end.

Definition ft_score_terms (t : txn) (fts_cf : bytes) (terms : list query_term) (total_docs : Z) (inv_avgdl : double) :
    M sc (gmap bytes double) :=
  r <-- on_db (iter_new t fts_cf None);
  let it := match r with inr it => Some it | inl _ => None end in
  r <-- score_loop terms total_docs inv_avgdl it no_scores;
  (match r.1 with Some it => on_db (iter_free it) | None => ret tt end);;
  ret (require_hits (apply_exclusions r.2)).

(** ** The search *)

Definition ft_doc_matches_phrases (inx : nat) (phrases : list query_term) (record0 : record) : bool :=
  let doc_tokens := fts_extract_and_tokenize sh (key_info_of sh inx) record0 in
  forallb (fun ph => FtsText.phrase_in_tokens doc_tokens (phrase_words ph)) phrases.

(** The results whose row holds the phrases; the row is read into [record[0]]. *)
Fixpoint verify_phrases (inx : nat) (phrases : list query_term) (l : list tdb_fts_result_t) (record0 : record) :
    M sc (list tdb_fts_result_t * record) :=
  match l with
  | [] => ret ([], record0)
  | r :: l =>
      t <-- gets (fun s => stmt_txn (base s));
      f <-- fetch_row_by_pk sh t (r_pk r) record0;
      rest <-- verify_phrases inx phrases l f.2;
      ret (if bool_decide (f.1 = FOUND) && ft_doc_matches_phrases inx phrases f.2 then r :: rest.1 else rest.1, rest.2)
  end.

Definition rank_results (inx : nat) (l : list tdb_fts_result_t) : tdb_ft_info_t :=
  set_results (merge_sort not_outranked l) (zlen l) (ft_new_info inx).

(** [None] is a null handle. *)
Definition ft_init_ext (ft_bool : bool) (inx : nat) (query : bytes) (record0 : record) :
    M sc (option tdb_ft_info_t * record) :=
  match mjoin (idx_cfs sh !! inx) with
  | None => ret (None, record0)
  | Some fts_cf =>
      if negb (bool_decide (kind_of sh inx = fulltext)) then ret (None, record0)
      else
        erc <-- on_base ensure_stmt_txn;
        if negb (bool_decide (erc = HA_OK)) then ret (None, record0)
        else
          let query_terms := default [] (ft_parse_query (fts_opts sh) ft_bool query) in
          if zlen query_terms =? 0 then ret (Some (ft_new_info inx), record0)
          else
            t <-- gets (fun s => stmt_txn (base s));
            match t with
            | None => ret (None, record0)
            | Some t =>
                m <-- on_db (fts_load_meta t (cf sh) inx);
                let '(_, (total_docs, total_words)) := m in
                let avgdl := FtsScore.avgdl total_words total_docs in
                let total_docs := if total_docs =? 0 then BM25_MIN_TOTAL_DOCS else total_docs in
                let inv_avgdl := FtsScore.ddiv (FtsScore.of_int 1) avgdl in
                doc_scores <-- ft_score_terms t fts_cf query_terms total_docs inv_avgdl;
                let found := ft_fill_results doc_scores in
                let phrases := filter (fun qt => is_phrase qt = true) query_terms in
                v <-- (if negb (zlen phrases =? 0) && negb (zlen found =? 0)
                       then verify_phrases inx phrases found record0 else ret (found, record0));
                ret (Some (rank_results inx v.1), v.2)
            end
  end.

(** Streaming the ranked rows; the loop steps over at least one result a round. *)
Fixpoint ft_read_loop (fuel : nat) (info : tdb_ft_info_t) (buf : record) : M sc (read_code * record * tdb_ft_info_t) :=
  match fuel with
  | O => ret (HA_ERR_END_OF_FILE, buf, info)
  | S fuel =>
      match results info !! current_idx info with
      | None => ret (HA_ERR_END_OF_FILE, buf, info)
      | Some r =>
          let here := set_place (current_idx info) (rank r) info in
          let past := set_place (S (current_idx info)) (rank r) info in
          t <-- gets (fun s => stmt_txn (base s));
          f <-- fetch_row_by_pk sh t (r_pk r) buf;
          match f.1 with
          | FOUND => ret (FOUND, f.2, past)
          | HA_ERR_KEY_NOT_FOUND => ft_read_loop fuel past f.2
          | err => ret (err, f.2, here)
          end
      end
  end.

Definition ft_read (ft_handler : option tdb_ft_info_t) (buf : record) : M sc (read_code * record * option tdb_ft_info_t) :=
  if killed stm then ret (HA_ERR_QUERY_INTERRUPTED, buf, ft_handler)
  else
    match ft_handler with
    | None => ret (HA_ERR_END_OF_FILE, buf, None)
    | Some info =>
        erc <-- on_base ensure_stmt_txn;
        if negb (bool_decide (erc = HA_OK)) then ret (HA_CODE erc, buf, Some info)
        else
          r <-- ft_read_loop (S (length (results info))) info buf;
          ret (r.1, Some r.2)
    end.

End code.
End FtsSearch.
