(* ===== verification/FtsMatch.v ===== *)
(** * What a full-text query asks of a document

    The reference the search is verified against: which words a term asks for, the occurrences of a
    term in the represented table in the order of the index, the relevance of a document as the sum of
    its occurrences' scores, and when a document answers a boolean query.  The lemmas connect the
    bookkeeping of [FtsSearch.scores] with it. *)
From Stdlib Require Import SpecFloat.
From stdpp Require Import sorting.
From S2P Require Import Prelude Effects TidesDb RowDb RowFormat FtsText FtsScore Table KeyCodec Dml TableRep Spatial CursorDb Scan FtsSearch.
Import Table KeyCodec Dml TableRep Scan FtsSearch.
#[local] Open Scope Z_scope.
#[local] Open Scope tdb_scope.

Module FtsMatch.

Import FtsText (query_term, term, req, trunc, is_phrase, phrase_words, asks, required, excluded, neutral).
Import FtsScore (double, Libm).

#[export] Instance requirement_eq_dec : EqDecision FtsText.requirement.
Proof. solve_decision. Defined.

(** ** The order of the index *)

(** A word and its posting. *)
Definition occurrence := (bytes * fts_posting_t)%type.

Definition place (o : occurrence) : bytes := o.1 ++ p_pk o.2.

(** By the length of the word, then by word and document. *)
Definition before (a b : occurrence) : Prop :=
  zlen a.1 < zlen b.1 \/ zlen a.1 = zlen b.1 /\ bytes_le (place a) (place b).

#[export] Instance before_dec a b : Decision (before a b).
Proof. unfold before. apply _. Defined.

#[export] Instance before_total : Total before.
Proof.
  intros a b. unfold before. destruct (Z.lt_trichotomy (zlen a.1) (zlen b.1)) as [H|[H|H]]; [by left; left| |by right; left].
  destruct (decide (place a <b place b)) as [Hp|Hp].
  - left. right. split; [done|]. apply bytes_le_lteq. by left.
  - right. right. split; [done|]. by apply bytes_not_lt.
Qed.

#[export] Instance before_trans : Transitive before.
Proof.
  unfold before. intros a b c [H|[H1 H2]] [H'|[H1' H2']]; [left; lia..|]. right. split; [lia|]. by eapply bytes_le_trans.
Qed.

(** Strictly. *)
Definition ahead (a b : occurrence) : Prop :=
  zlen a.1 < zlen b.1 \/ zlen a.1 = zlen b.1 /\ place a <b place b.

Lemma ahead_before a b : ahead a b -> before a b.
Proof. intros [?|[? ?]]; [by left|]. right. split; [done|]. apply bytes_le_lteq. by left. Qed.

Lemma ahead_irrefl a : ~ ahead a a.
Proof. intros [?|[_ H]]; [lia|]. by apply bytes_lt_irrefl in H. Qed.

Lemma before_both a b : before a b -> before b a -> a.1 = b.1 /\ p_pk a.2 = p_pk b.2.
Proof.
  intros [?|[Hl H1]] [?|[? H2]]; [lia..|]. assert (place a = place b) as Hp.
  { apply bytes_le_lteq in H1 as [H1|H1]; [|done]. apply bytes_le_lteq in H2 as [H2|H2]; [|done].
    destruct (bytes_lt_irrefl (place a)). by apply (bytes_lt_trans _ (place b)). }
  unfold place in Hp. apply app_inj_1 in Hp; [done|]. unfold zlen in Hl. lia.
Qed.

Lemma ahead_nodup l : StronglySorted ahead l -> NoDup l.
Proof.
  induction 1 as [|a l _ IH Ha]; constructor; [|done]. intros Hin. rewrite Forall_forall in Ha.
  by apply (ahead_irrefl a), Ha.
Qed.

(** A list in index order is determined by its occurrences when word and document determine them. *)
Lemma in_index_order l l' :
  StronglySorted ahead l -> NoDup l' -> (forall o, o ∈ l <-> o ∈ l') ->
  (forall a b, a ∈ l -> b ∈ l -> a.1 = b.1 -> p_pk a.2 = p_pk b.2 -> a = b) -> l = merge_sort before l'.
Proof.
  intros Hs Hn He Hf. apply (StronglySorted_unique_strong before).
  - intros a b Ha Hb H1 H2. rewrite (merge_sort_Permutation before) in Hb. apply He in Hb.
    destruct (before_both a b H1 H2). by apply Hf.
  - clear - Hs. induction Hs as [|a l _ IH Ha]; constructor; [done|]. eapply Forall_impl; [exact Ha|apply ahead_before].
  - apply StronglySorted_merge_sort; apply _.
  - rewrite (merge_sort_Permutation before). apply NoDup_Permutation; [by apply ahead_nodup|done|done].
Qed.

Lemma all_same_short {A} (l : list A) : NoDup l -> (forall a b, a ∈ l -> b ∈ l -> a = b) -> (length l <= 1)%nat.
Proof.
  intros Hn He. destruct l as [|a [|b l]]; [simpl; lia..|]. apply NoDup_cons in Hn as [Hn _]. destruct Hn.
  rewrite (He a b); [left|left|right; left].
Qed.

Lemma filter_map_of {A B} (f : A -> B) (P : B -> Prop) `{!forall b, Decision (P b)} (l : list A) :
  filter P (map f l) = map f (filter (fun a => P (f a)) l).
Proof. induction l as [|a l IH]; [done|]. cbn [map]. rewrite !filter_cons. case_decide; cbn [map]; by rewrite IH. Qed.

Section Match.
Context {E txn : Type} `{!TidesDb E txn, !RowDb E txn, !RowServices E txn} {SF : ServerField} {CS : FtsText.charset}.
Context (sh : share) (i : nat).
Implicit Types (rows : gmap bytes record) (r : record) (qt : query_term) (terms : list query_term) (pk w : bytes).

#[local] Abbreviation tokens r := (tokens_of sh i r).

(** ** Terms and documents *)

(** The look-up can reach all the words a term asks for: the term is no longer than the code's buffer for it, and no word a
    wildcard could ask for is longer than the limit on words, which the wildcard look-up counts in bytes. *)
Definition in_reach rows qt : Prop :=
  zlen (term qt) <= FtsText.MAX_TERM_BYTES /\
  (trunc qt = true -> forall pk r w, rows !! pk = Some r -> w ∈ tokens r -> zlen w <= max_len sh).

Definition occurs qt r : bool := existsb (asks qt) (tokens r).

(** A document answers a query: it holds a term that is not excluded, all required ones and no
    excluded one, and the words of every phrase in a row. *)
Definition selects terms r : bool :=
  existsb (fun qt => negb (bool_decide (req qt = excluded)) && occurs qt r) terms &&
  forallb (fun qt => match req qt with required => occurs qt r | excluded => negb (occurs qt r) | neutral => true end) terms.

Definition phrases_hold terms r : bool :=
  forallb (fun qt => implb (is_phrase qt) (FtsText.phrase_in_tokens (tokens r) (phrase_words qt))) terms.

Definition answers terms r : bool := selects terms r && phrases_hold terms r.

(** These are the answers the meaning of a query is given by ([FtsText.parse_printed_query]). *)
Lemma answers_doc terms r : answers terms r = FtsText.terms_answer terms (tokens r).
Proof.
  unfold answers, selects, phrases_hold, occurs, FtsText.terms_answer. f_equal. f_equal.
  induction terms as [|qt terms IH]; [done|]. cbn [existsb]. rewrite IH. by destruct (req qt).
Qed.

(** ** Occurrences in the table *)

Definition posting_of pk r (n : Z) : fts_posting_t := {| p_pk := pk; p_tf := n; p_doc_len := doc_words (tokens r) |}.

Definition all_occurrences rows : list occurrence :=
  flat_map (fun '(pk, r) => map (fun '(w, n) => (w, posting_of pk r n)) (map_to_list (term_freqs (tokens r)))) (map_to_list rows).

Definition occurrences qt rows : list occurrence := filter (fun o => asks qt o.1 = true) (all_occurrences rows).

Definition found_postings qt rows : list fts_posting_t := map snd (merge_sort before (occurrences qt rows)).

Lemma elem_of_all rows w p :
  (w, p) ∈ all_occurrences rows <->
  exists r n, rows !! p_pk p = Some r /\ term_freqs (tokens r) !! w = Some n /\ p = posting_of (p_pk p) r n.
Proof.
  unfold all_occurrences. rewrite list_elem_of_In, in_flat_map. setoid_rewrite <- list_elem_of_In. split.
  - intros ([pk r] & Hr%elem_of_map_to_list & ([w' n] & [= -> ->] & Hn%elem_of_map_to_list)%list_elem_of_fmap). by exists r, n.
  - intros (r & n & Hr & Hn & Hp). exists (p_pk p, r). split; [by apply elem_of_map_to_list|].
    apply list_elem_of_fmap. exists (w, n). rewrite <- Hp. split; [done|]. by apply elem_of_map_to_list.
Qed.

Lemma occurrence_unique rows a b :
  a ∈ all_occurrences rows -> b ∈ all_occurrences rows -> a.1 = b.1 -> p_pk a.2 = p_pk b.2 -> a = b.
Proof.
  destruct a as [w p], b as [w' p']. simpl. intros (r & n & Hr & Hn & Hp)%elem_of_all (r' & n' & Hr' & Hn' & Hp')%elem_of_all <- E1.
  rewrite E1 in Hr, Hp. congruence.
Qed.

Lemma all_nodup rows : NoDup (all_occurrences rows).
Proof.
  unfold all_occurrences. pose proof (NoDup_fst_map_to_list rows) as Hk. induction (map_to_list rows) as [|[pk r] l IH]; [constructor|].
  simpl in *. apply NoDup_cons in Hk as [Hn Hk]. apply NoDup_app. split; [|split; [|by apply IH]].
  - apply NoDup_fmap_2_strong; [|apply NoDup_map_to_list]. intros [w n] [w' n'] _ _ [= -> ->]. done.
  - intros [w p] ([w' n] & [= -> ->] & _)%list_elem_of_fmap Hin. apply Hn.
    rewrite list_elem_of_In, in_flat_map in Hin. destruct Hin as ([pk' r'] & Hin & Ho).
    apply list_elem_of_In in Hin, Ho. apply list_elem_of_fmap in Ho as ([w'' n'] & Ho & _).
    apply (f_equal (fun o : occurrence => p_pk o.2)) in Ho. simpl in Ho. subst pk'.
    apply list_elem_of_fmap. by exists (pk, r').
Qed.

Lemma occurrences_nodup qt rows : NoDup (occurrences qt rows).
Proof. apply NoDup_filter, all_nodup. Qed.

(** A token has a frequency, and only a token. *)
Lemma term_freqs_has (toks : list bytes) w : is_Some (term_freqs toks !! w) <-> w ∈ toks.
Proof.
  split; [intros [n Hn]; by eapply term_freqs_in|]. induction toks as [|t toks IH]; intros Hin; [by apply not_elem_of_nil in Hin|].
  simpl. destruct (decide (t = w)) as [->|Hne]; [by rewrite lookup_insert_eq|]. rewrite lookup_insert_ne by done.
  apply elem_of_cons in Hin as [->|?]; [done|by apply IH].
Qed.

(** The postings of a term are those of the documents it occurs in. *)
Lemma found_iff qt rows pk :
  (exists p, p ∈ found_postings qt rows /\ p_pk p = pk) <-> exists r, rows !! pk = Some r /\ occurs qt r = true.
Proof.
  unfold found_postings. setoid_rewrite list_elem_of_fmap. setoid_rewrite (merge_sort_Permutation before).
  unfold occurs. setoid_rewrite existsb_exists. setoid_rewrite <- list_elem_of_In. split.
  - intros (p & ([w p'] & -> & [Ha Hin]%list_elem_of_filter) & Hpk). simpl in *. apply elem_of_all in Hin as (r & n & Hr & Hn & _).
    rewrite Hpk in Hr. exists r. split; [done|]. exists w. split; [|done]. apply term_freqs_has. by eexists.
  - intros (r & Hr & w & Hw & Ha). apply term_freqs_has in Hw as [n Hn]. exists (posting_of pk r n). split; [|done].
    exists (w, posting_of pk r n). split; [done|]. apply list_elem_of_filter. split; [done|]. apply elem_of_all. by exists r, n.
Qed.

Definition of_doc pk (l : list fts_posting_t) : list fts_posting_t := filter (fun p => p_pk p = pk) l.

Lemma of_doc_nil pk l : of_doc pk l = [] <-> ~ exists p, p ∈ l /\ p_pk p = pk.
Proof.
  unfold of_doc. split.
  - intros He (p & Hp & Hpk). assert (p ∈ filter (fun p => p_pk p = pk) l) as Hin by (by apply list_elem_of_filter).
    rewrite He in Hin. by apply not_elem_of_nil in Hin.
  - intros Hn. induction l as [|p l IH]; [done|]. rewrite filter_cons, decide_False.
    + apply IH. intros (q & ? & ?). apply Hn. exists q. split; [by right|done].
    + intros Hp. apply Hn. exists p. split; [by left|done].
Qed.

(** Without a wildcard a document has at most one posting of a term. *)
Lemma one_posting qt rows pk : trunc qt = false -> (length (of_doc pk (found_postings qt rows)) <= 1)%nat.
Proof.
  intros Ht. unfold found_postings, of_doc. rewrite filter_map_of, length_map. apply all_same_short.
  - apply NoDup_filter. rewrite (merge_sort_Permutation before). apply occurrences_nodup.
  - intros a b. rewrite !list_elem_of_filter, !(merge_sort_Permutation before). unfold occurrences.
    rewrite !list_elem_of_filter. unfold asks. rewrite Ht, !bool_decide_eq_true. intros (Ha & Hwa & Hia) (Hb & Hwb & Hib).
    apply (occurrence_unique rows); [done|done|congruence|simpl in *; congruence].
Qed.

(** ** Scores *)

Context `{!Libm} (k1 b : double) (total_docs : Z) (inv_avgdl : double) (rows : gmap bytes record).

Definition term_weight qt : FtsScore.term_weights :=
  FtsScore.make_term_weights (FtsScore.idf total_docs (u32 (zlen (found_postings qt rows)))) k1 b inv_avgdl.

Definition score_of (w : FtsScore.term_weights) (p : fts_posting_t) : double := FtsScore.posting_score w (p_tf p) (p_doc_len p).

Definition bump (o : option double) (x : double) : option double := Some (FtsScore.dadd (default FtsScore.ZERO o) x).

(** The scores of a document for a term, one for each of its postings. *)
Definition term_scores pk qt : list double :=
  if decide (req qt = excluded) then [] else map (score_of (term_weight qt)) (of_doc pk (found_postings qt rows)).

(** The sum of a document's scores, term by term in the order of the query; [None] without a match. *)
Definition relevance terms pk : option double := fold_left bump (flat_map (term_scores pk) terms) None.

(** The required postings of a document. *)
Definition term_hits pk qt : list fts_posting_t :=
  if decide (req qt = required) then of_doc pk (found_postings qt rows) else [].

(** What the loop over the terms computes. *)
Definition score_term (s : scores) qt : scores :=
  score_postings k1 b qt total_docs inv_avgdl (found_postings qt rows) (count_required qt s).

Definition hits (s : scores) pk : Z := default 0 (doc_required_hits s !! pk).

Implicit Types (s : scores) (tw : FtsScore.term_weights) (l : list fts_posting_t).

Lemma of_doc_cons pk p l : of_doc pk (p :: l) = if decide (p_pk p = pk) then p :: of_doc pk l else of_doc pk l.
Proof. unfold of_doc. by rewrite filter_cons. Qed.

Lemma add_number qt tw l s : num_required (fold_left (add_posting qt tw) l s) = num_required s.
Proof. revert s. induction l as [|p l IH]; intros s; simpl; [done|]. rewrite IH. unfold add_posting. by destruct (req qt). Qed.

Lemma add_scores qt tw l s pk :
  doc_scores (fold_left (add_posting qt tw) l s) !! pk =
  fold_left bump (if decide (req qt = excluded) then [] else map (score_of tw) (of_doc pk l)) (doc_scores s !! pk).
Proof.
  revert s. induction l as [|p l IH]; intros s; [by simpl; destruct (decide _)|]. cbn [fold_left]. rewrite IH, of_doc_cons.
  unfold add_posting. destruct (decide (p_pk p = pk)) as [<-|Hp], (req qt); cbn [doc_scores]; try done;
    by rewrite ?lookup_insert_eq, ?lookup_insert_ne.
Qed.

Lemma add_hit qt tw s p pk :
  hits (add_posting qt tw s p) pk =
  if decide (req qt = required /\ p_pk p = pk) then u32 (hits s pk + 1) else hits s pk.
Proof.
  unfold hits, add_posting. destruct (req qt); cbn [doc_required_hits]; try (by rewrite decide_False by (by intros [? _])).
  destruct (decide (p_pk p = pk)) as [<-|Hp]; [by rewrite lookup_insert_eq, decide_True|].
  by rewrite lookup_insert_ne, decide_False by (done || by intros [_ ?]).
Qed.

Lemma add_hits qt tw l s pk :
  0 <= hits s pk < 2 ^ 32 ->
  hits (fold_left (add_posting qt tw) l s) pk =
  u32 (hits s pk + zlen (if decide (req qt = required) then of_doc pk l else [])).
Proof.
  revert s. induction l as [|p l IH]; intros s Hs; cbn [fold_left].
  - change (of_doc pk []) with ([] : list fts_posting_t). replace (if decide _ then _ else _) with ([] : list fts_posting_t) by (by destruct (decide _)).
    unfold u32, zlen. simpl. rewrite Z.mod_small; lia.
  - rewrite IH, add_hit, of_doc_cons by (rewrite add_hit; destruct (decide (_ /\ _)); [unfold u32; apply Z.mod_pos_bound|]; lia).
    destruct (decide (req qt = required)) as [Er|Er], (decide (p_pk p = pk)) as [Hp|Hp];
      rewrite ?decide_True, ?decide_False by (tauto || done); try done.
    unfold u32, zlen. rewrite Zplus_mod_idemp_l. f_equal. simpl. lia.
Qed.

Lemma add_excluded qt tw l s pk :
  pk ∈ excluded_pks (fold_left (add_posting qt tw) l s) <->
  pk ∈ excluded_pks s \/ req qt = excluded /\ of_doc pk l <> [].
Proof.
  revert s. induction l as [|p l IH]; intros s; simpl; [split; [by left|by intros [?|[_ ?]]]|]. rewrite IH, of_doc_cons.
  unfold add_posting. destruct (req qt) eqn:Er; cbn [excluded_pks]; try (split; (intros [?|[? _]]; [by left|done])).
  rewrite elem_of_union, elem_of_singleton. destruct (decide (p_pk p = pk)) as [->|Hp].
  - split; [intros _; right; by split|intros _; left; by left].
  - split; [intros [[->|?]|[_ ?]]; [done|by left|by right]|intros [?|[_ ?]]; [left; by right|by right]].
Qed.

(** ** The terms one after the other *)

Lemma count_required_keeps qt s :
  doc_scores (count_required qt s) = doc_scores s /\ doc_required_hits (count_required qt s) = doc_required_hits s /\
  excluded_pks (count_required qt s) = excluded_pks s.
Proof. unfold count_required. by destruct (req qt). Qed.

Lemma terms_scores terms s pk :
  doc_scores (fold_left score_term terms s) !! pk = fold_left bump (flat_map (term_scores pk) terms) (doc_scores s !! pk).
Proof.
  revert s. induction terms as [|qt terms IH]; intros s; [done|]. cbn [fold_left flat_map]. rewrite IH, fold_left_app. f_equal.
  unfold score_term, score_postings. rewrite add_scores. by destruct (count_required_keeps qt s) as (-> & _).
Qed.

Lemma terms_hits terms s pk :
  0 <= hits s pk < 2 ^ 32 ->
  hits (fold_left score_term terms s) pk = u32 (hits s pk + zlen (flat_map (term_hits pk) terms)).
Proof.
  revert s. induction terms as [|qt terms IH]; intros s Hs.
  - cbn. unfold u32, zlen. rewrite Z.mod_small; simpl; lia.
  - cbn [fold_left flat_map]. assert (hits (score_term s qt) pk = u32 (hits s pk + zlen (term_hits pk qt))) as E1.
    { unfold score_term, score_postings. destruct (count_required_keeps qt s) as (_ & E1 & _).
      rewrite add_hits; unfold hits in *; rewrite E1; done. }
    rewrite IH, E1, zlen_app by (rewrite E1; unfold u32; apply Z.mod_pos_bound; lia). unfold u32.
    rewrite Zplus_mod_idemp_l. f_equal. lia.
Qed.

Lemma terms_number terms s :
  0 <= num_required s < 2 ^ 32 ->
  num_required (fold_left score_term terms s) = u32 (num_required s + zlen (filter (fun qt => req qt = required) terms)).
Proof.
  revert s. induction terms as [|qt terms IH]; intros s Hs.
  - cbn. unfold u32, zlen. rewrite Z.mod_small; simpl; lia.
  - cbn [fold_left]. assert (num_required (score_term s qt) = u32 (num_required s + if decide (req qt = required) then 1 else 0)) as E1.
    { unfold score_term, score_postings. rewrite add_number. unfold count_required.
      destruct (req qt); cbn [num_required]; try done; cbn; unfold u32; rewrite Z.add_0_r, Z.mod_small; done. }
    rewrite IH, E1, filter_cons by (rewrite E1; unfold u32; apply Z.mod_pos_bound; lia). unfold u32.
    rewrite Zplus_mod_idemp_l. f_equal. destruct (decide _); unfold zlen; simpl; lia.
Qed.

Lemma terms_excluded terms s pk :
  pk ∈ excluded_pks (fold_left score_term terms s) <->
  pk ∈ excluded_pks s \/ exists qt, qt ∈ terms /\ req qt = excluded /\ of_doc pk (found_postings qt rows) <> [].
Proof.
  revert s. induction terms as [|qt terms IH]; intros s; cbn [fold_left].
  - split; [by left|]. intros [?|(qt & Hq & _)]; [done|]. by apply not_elem_of_nil in Hq.
  - rewrite IH. unfold score_term, score_postings. rewrite add_excluded. destruct (count_required_keeps qt s) as (_ & _ & ->). split.
    + intros [[?|[? ?]]|(q & Hq & ?)]; [by left|right; exists qt; split; [left|done]|right; exists q; split; [by right|done]].
    + intros [?|(q & [->|Hq]%elem_of_cons & ?)]; [by left; left|by left; right|right; by exists q].
Qed.

Definition scores_of terms : scores := fold_left score_term terms no_scores.

(** The documents the search keeps. *)
Definition kept terms : gmap bytes double := require_hits (apply_exclusions (scores_of terms)).

Lemma occurs_iff qt pk r : rows !! pk = Some r -> occurs qt r = true <-> of_doc pk (found_postings qt rows) <> [].
Proof.
  intros Hr. rewrite of_doc_nil, found_iff. split.
  - intros Ho Hn. apply Hn. by exists r.
  - intros Hn. apply dec_stable. intros Ho. apply Hn. intros (r' & Hr' & Ho'). congruence.
Qed.

Lemma fold_bump (l : list double) o : is_Some (fold_left bump l o) <-> l <> [] \/ is_Some o.
Proof.
  revert o. induction l as [|x l IH]; intros o; simpl; [by split; [right|intros [?|?]]|]. rewrite IH.
  split; [by left|]. intros _. right. by eexists.
Qed.

Lemma relevance_some terms pk :
  is_Some (relevance terms pk) <-> exists qt, qt ∈ terms /\ req qt <> excluded /\ of_doc pk (found_postings qt rows) <> [].
Proof.
  unfold relevance. rewrite fold_bump. split.
  - intros [Hn|[? ?]]; [|done]. induction terms as [|qt terms IH]; [done|]. cbn [flat_map] in Hn.
    destruct (decide (term_scores pk qt = [])) as [E1|E1].
    + rewrite E1 in Hn. destruct (IH Hn) as (q & ? & ?). exists q. split; [by right|done].
    + exists qt. split; [left|]. unfold term_scores in E1. destruct (decide _) as [|Hq]; [done|]. split; [done|].
      intros E2. by rewrite E2 in E1.
  - intros (qt & Hin & Hq & Hd). left. induction terms as [|q terms IH]; [by apply not_elem_of_nil in Hin|]. cbn [flat_map].
    apply elem_of_cons in Hin as [<-|Hin]; [|intros [_ ?]%app_nil; by apply IH].
    unfold term_scores at 1. rewrite decide_False by done. by destruct (of_doc pk _).
Qed.

(** No required term has a wildcard. *)
Definition plain_requirements terms : Prop := Forall (fun qt => req qt = required -> trunc qt = false) terms.

Lemma hits_bound terms pk :
  plain_requirements terms -> (length (flat_map (term_hits pk) terms) <= length (filter (fun qt => req qt = required) terms))%nat.
Proof.
  induction 1 as [|qt terms Hq _ IH]; [done|]. cbn [flat_map]. rewrite length_app, filter_cons. unfold term_hits at 1.
  destruct (decide (req qt = required)) as [Hr|Hr]; [|done]. pose proof (one_posting qt rows pk (Hq Hr)). simpl. lia.
Qed.

(** As many hits as required terms: each of them is hit. *)
Lemma hits_all terms pk :
  plain_requirements terms ->
  (length (filter (fun qt => req qt = required) terms) <= length (flat_map (term_hits pk) terms))%nat <->
  forall qt, qt ∈ terms -> req qt = required -> of_doc pk (found_postings qt rows) <> [].
Proof.
  induction 1 as [|qt terms Hq Hp IH]; [by split; [intros _ q Hq%not_elem_of_nil|intros _; simpl; lia]|].
  pose proof (hits_bound terms pk Hp) as Hb. cbn [flat_map]. rewrite length_app, filter_cons. unfold term_hits at 1.
  destruct (decide (req qt = required)) as [Hr|Hr]; cycle 1.
  - cbn [length]. rewrite Nat.add_0_l, IH. split; intros H' q Hin; [apply elem_of_cons in Hin as [->|Hin]; [done|by apply H']|].
    apply H'. by right.
  - pose proof (one_posting qt rows pk (Hq Hr)) as H1. cbn [length]. split.
    + intros Hl. assert (of_doc pk (found_postings qt rows) <> []) as Hne
        by (intros E1; rewrite E1 in Hl; cbn [length] in Hl; lia).
      intros q [->|Hin]%elem_of_cons; [done|]. apply IH; [lia|done].
    + intros Hall. assert (of_doc pk (found_postings qt rows) <> []) as Hne by (apply Hall; [left|done]).
      assert (length (filter (fun q => req q = required) terms) <= length (flat_map (term_hits pk) terms))%nat as Hl
        by (apply IH; intros q Hin; apply Hall; by right).
      destruct (of_doc pk (found_postings qt rows)); [done|]. cbn [length]. lia.
Qed.

Lemma selects_iff terms pk r :
  rows !! pk = Some r ->
  selects terms r = true <->
  (exists qt, qt ∈ terms /\ req qt <> excluded /\ of_doc pk (found_postings qt rows) <> []) /\
  (forall qt, qt ∈ terms -> req qt = required -> of_doc pk (found_postings qt rows) <> []) /\
  (forall qt, qt ∈ terms -> req qt = excluded -> of_doc pk (found_postings qt rows) = []).
Proof.
  intros Hr. unfold selects. rewrite andb_true_iff, existsb_exists, forallb_forall. setoid_rewrite <- list_elem_of_In.
  setoid_rewrite andb_true_iff. setoid_rewrite negb_true_iff. setoid_rewrite bool_decide_eq_false.
  setoid_rewrite (occurs_iff _ pk r Hr). split.
  - intros [Hex Hall]. split; [done|]. split; intros qt Hin Hq; specialize (Hall qt Hin); rewrite Hq in Hall.
    + by apply (occurs_iff qt pk r Hr).
    + apply negb_true_iff in Hall. apply dec_stable. intros Hn. apply (occurs_iff qt pk r Hr) in Hn. congruence.
  - intros (Hex & Hreq & Hexc). split; [done|]. intros qt Hin. destruct (req qt) eqn:Hq; [done| |].
    + apply (occurs_iff qt pk r Hr). by apply Hreq.
    + apply negb_true_iff, not_true_is_false. intros Ho%(occurs_iff qt pk r Hr). by apply Ho, Hexc.
Qed.

(** The two passes over the maps. *)
Lemma passes_exact s pk x :
  require_hits (apply_exclusions s) !! pk = Some x <->
  doc_scores s !! pk = Some x /\ (pk ∉ excluded_pks s) /\ (0 < num_required s -> num_required s <= hits s pk).
Proof.
  unfold require_hits, apply_exclusions, hits. cbn [num_required doc_scores doc_required_hits].
  assert (forall y, filter (fun kv : bytes * double => bool_decide (kv.1 ∈ excluded_pks s) = false) (doc_scores s) !! pk = Some y <->
    doc_scores s !! pk = Some y /\ (pk ∉ excluded_pks s)) as H1
    by (intros y; rewrite map_lookup_filter_Some; cbn [fst]; by rewrite bool_decide_eq_false).
  destruct (Z.ltb_spec 0 (num_required s)) as [Hpos|Hpos].
  - rewrite map_lookup_filter_Some, H1. cbn [fst]. split.
    + intros [[? ?] Hm]. split_and!; [done..|]. intros _.
      destruct (filter _ (doc_required_hits s) !! pk) as [n|] eqn:En; [|done].
      apply map_lookup_filter_Some in En as [-> _]. cbn [default]. apply negb_true_iff, Z.ltb_ge in Hm. done.
    + intros (Hd & Hx & Hle). split; [done|]. specialize (Hle Hpos).
      destruct (doc_required_hits s !! pk) as [n|] eqn:En; cbn [default] in Hle; [|lia].
      rewrite (proj2 (map_lookup_filter_Some _ _ pk n)); [apply negb_true_iff, Z.ltb_ge; done|]. split; [done|]. cbn [fst].
      by apply bool_decide_eq_false.
  - rewrite H1. split; [intros [? ?]; split_and!; [done..|lia]|by intros (? & ? & _)].
Qed.

(** A document is kept with its relevance just if its row is selected. *)
Lemma kept_exact terms pk x :
  plain_requirements terms -> zlen terms < 2 ^ 32 ->
  kept terms !! pk = Some x <->
  (exists r, rows !! pk = Some r /\ selects terms r = true) /\ relevance terms pk = Some x.
Proof.
  intros Hp Hlen. unfold kept. rewrite passes_exact. unfold scores_of. rewrite terms_scores, terms_excluded.
  assert (hits no_scores pk = 0) as H0 by (unfold hits; cbn [doc_required_hits no_scores]; by rewrite lookup_empty).
  rewrite terms_number by (cbn; lia). rewrite terms_hits by (rewrite H0; lia). rewrite H0.
  cbn [doc_scores no_scores num_required excluded_pks]. rewrite lookup_empty. fold (relevance terms pk).
  pose proof (hits_bound terms pk Hp) as Hb. pose proof (length_filter (fun qt => req qt = required) terms) as Hf.
  pose proof (hits_all terms pk Hp) as Hall. unfold zlen, u32 in *. rewrite !Z.add_0_l, !Z.mod_small by lia. split.
  - intros (Hrel & Hx & Hn). split; [|done]. destruct (proj1 (relevance_some terms pk) ltac:(by eexists)) as (qt & Hin & Hq & Hd).
    pose proof Hd as Hd'. rewrite of_doc_nil, found_iff in Hd'. destruct (rows !! pk) as [r|] eqn:Hr; [|exfalso; apply Hd'; by intros (? & ? & _)].
    exists r. split; [done|]. apply (selects_iff terms pk r Hr). split; [by exists qt|]. split; [apply Hall; lia|].
    intros q Hq' Ht. apply dec_stable. intros Hne. apply Hx. right. by exists q.
  - intros [(r & Hr & (Hex & Hreq & Hexc)%(selects_iff terms pk r Hr)) Hrel]. split_and!; [done| |intros _; apply Hall in Hreq; lia].
    intros [?%not_elem_of_empty|(q & Hin & Hq & Hd)]; [done|]. by apply Hd, Hexc.
Qed.

End Match.
End FtsMatch.
