(* ===== verification/FtsSearchSpec.v ===== *)
(** * Full-text search is exact

    [ft_init_ext] and [ft_read] against the represented table: the postings gathered for a term are
    its occurrences in index order, the results are the documents that answer the query with their
    relevance, and the rows come out ranked.  A library that does not fail is assumed: the code answers
    a failed read with fewer results. *)
From Stdlib Require Import SpecFloat.
From stdpp Require Import sorting.
From S2P Require Import Prelude Effects TidesDb RowDb RowFormat FtsText FtsScore Table KeyCodec Dml TableRep Spatial CursorDb Scan ScanSpec ScanIndex FtsSearch FtsMatch.
Import Table KeyCodec Dml TableRep Scan ScanSpec ScanIndex FtsSearch FtsMatch.
#[local] Open Scope Z_scope.
#[local] Open Scope tdb_scope.

Module FtsSearchSpec.

Import FtsText (query_term, term, req, trunc, is_phrase, phrase_words, required, excluded, neutral).
Import FtsScore (double, Libm).

(** ** Entries of the index *)

(** The word and the posting an entry of the index stands for. *)
Definition entry_of (o : occurrence) : entry :=
  (FtsText.build_key o.1 (p_pk o.2), FtsText.encode_entry_value (p_tf o.2) (p_doc_len o.2)).

Record occ_ok (o : occurrence) : Prop := {
  word_len : zlen o.1 <= FtsText.MAX_TERM_BYTES;
  tf_ok : 0 <= p_tf o.2 < 2 ^ 16;
  len_ok : 0 <= p_doc_len o.2 < 2 ^ 32;
  pk_ok : p_pk o.2 <> [] }.

Definition key_of (tlen : Z) (q : bytes) : bytes := FtsText.store_u16le (u16 tlen) ++ q.

Lemma build_key_short w pk : zlen w <= FtsText.MAX_TERM_BYTES -> FtsText.build_key w pk = key_of (zlen w) (w ++ pk).
Proof.
  intros Hw. rewrite FtsText.build_key_layout. unfold FtsText.indexed_term, key_of, FtsText.MAX_TERM_BYTES, zlen, u16 in *.
  rewrite take_ge by lia. by rewrite Z.mod_small by lia.
Qed.

Lemma posting_at_value o : occ_ok o -> posting_at (p_pk o.2) (entry_of o).2 = [o.2].
Proof.
  intros Ho. unfold posting_at, entry_of. cbn [snd].
  rewrite (proj1 (FtsText.fts_values_roundtrip (p_tf o.2) (p_doc_len o.2) 0 0 (tf_ok _ Ho) (len_ok _ Ho) ltac:(lia) ltac:(lia))).
  by destruct o as [w []].
Qed.

Lemma key_of_prefix tlen q tlen' k :
  0 <= tlen < 2 ^ 16 -> 0 <= tlen' < 2 ^ 16 -> is_prefix (key_of tlen q) (key_of tlen' k) = true <-> tlen = tlen' /\ q `prefix_of` k.
Proof.
  intros Ht Ht'. rewrite is_prefix_iff. unfold key_of. unfold u16. rewrite !Z.mod_small by done. split.
  - intros [m Hm]. rewrite <- app_assoc in Hm. apply app_inj_1 in Hm as [H1 H2]; [|unfold FtsText.store_u16le; by rewrite !length_le_store].
    apply FtsText.store_u16le_inj in H1; [|done..]. split; [done|]. by exists m.
  - intros [<- [m ->]]. exists m. by rewrite app_assoc.
Qed.

(** The length stored in a key. *)
Lemma stored_len tlen k : 0 <= tlen < 2 ^ 16 -> FtsText.load_u16le (key_of tlen k) = tlen /\ drop 2 (key_of tlen k) = k.
Proof.
  intros Ht. unfold key_of, FtsText.load_u16le, FtsText.store_u16le, u16. rewrite Z.mod_small by done.
  rewrite take_app_length' by (by rewrite length_le_store). rewrite drop_app_length' by (by rewrite length_le_store).
  by rewrite le_load_store.
Qed.

Lemma entry_key o : occ_ok o -> (entry_of o).1 = key_of (zlen o.1) (place o).
Proof. intros Ho. unfold entry_of, place. cbn [fst]. apply build_key_short, Ho. Qed.

Lemma word_width o : occ_ok o -> 0 <= zlen o.1 < 2 ^ 16.
Proof. intros Ho. pose proof (word_len _ Ho) as H. unfold FtsText.MAX_TERM_BYTES, zlen in *. lia. Qed.

(** The text of a term in the first bytes of a word and its document: in the word, if it fits. *)
Lemma prefix_of_word (q w pk : bytes) : zlen q <= zlen w -> q `prefix_of` w ++ pk <-> q `prefix_of` w.
Proof.
  unfold zlen. intros Hl. split.
  - intros [m Hm]. pose proof (f_equal (take (length w)) Hm) as Ht.
    rewrite take_app_length, take_app_ge in Ht by lia. by eexists.
  - intros [m ->]. exists (m ++ pk). by rewrite <- app_assoc.
Qed.

(** Both loops leave at the first key without their prefix. *)
Lemma exact_look_entry q o :
  occ_ok o -> zlen q <= FtsText.MAX_TERM_BYTES ->
  exact_look (key_of (zlen q) q) (entry_of o) =
  if is_prefix (key_of (zlen q) q) (entry_of o).1 then Some [o.2] else None.
Proof.
  intros Ho Hq. pose proof (zlen_nonneg q) as Hq0. unfold FtsText.MAX_TERM_BYTES in Hq.
  unfold exact_look. destruct (entry_of o) as [ik iv] eqn:Ee. cbn [fst].
  destruct (is_prefix (key_of (zlen q) q) ik) eqn:Hp; cycle 1.
  - unfold is_prefix in Hp. rewrite Hp. cbn [negb]. by rewrite orb_true_r.
  - unfold is_prefix in Hp. rewrite Hp. cbn [negb orb]. apply bool_decide_eq_true in Hp.
    rewrite (proj2 (Z.ltb_ge _ _)) by (unfold zlen; rewrite <- Hp at 1; rewrite length_take; lia). cbn [orb]. f_equal.
    assert (is_prefix (key_of (zlen q) q) ik = true) as Hp' by (by apply bool_decide_eq_true).
    pose proof (entry_key o Ho) as Hk. rewrite Ee in Hk. cbn [fst] in Hk. subst ik.
    apply key_of_prefix in Hp' as [Hl Hpre]; [|lia|by apply word_width]. rewrite <- (posting_at_value o Ho), Ee. cbn [snd]. f_equal.
    assert (q = o.1) as -> by (apply prefix_of_word, prefix_length_eq in Hpre; [done|unfold zlen in Hl; lia|lia]).
    unfold key_of, place. rewrite app_assoc. by rewrite drop_app_length.
Qed.

Lemma bucket_look_entry q tlen o :
  occ_ok o -> zlen q <= tlen <= FtsText.MAX_TERM_BYTES ->
  bucket_look q tlen (entry_of o) = if is_prefix (key_of tlen q) (entry_of o).1 then Some [o.2] else None.
Proof.
  intros Ho [Hq Ht]. pose proof (zlen_nonneg q) as Hq0. unfold FtsText.MAX_TERM_BYTES in Ht. pose proof (word_width o Ho) as Hw.
  pose proof (posting_at_value o Ho) as Hv. unfold bucket_look. destruct (entry_of o) as [ik iv] eqn:Ee. cbn [fst snd] in *.
  pose proof (entry_key o Ho) as Hk. rewrite Ee in Hk. cbn [fst] in Hk. subst ik.
  destruct (stored_len (zlen o.1) (place o) Hw) as [Hl Hd]. rewrite Hl, Hd.
  assert (zlen (key_of (zlen o.1) (place o)) = 2 + zlen (place o)) as Hz
    by (unfold key_of, zlen; rewrite length_app; unfold FtsText.store_u16le; rewrite length_le_store; lia).
  assert (zlen (place o) = zlen o.1 + zlen (p_pk o.2)) as Hpl by (unfold place; apply zlen_app).
  assert (0 < zlen (p_pk o.2)) as Hpk by (pose proof (pk_ok _ Ho); unfold zlen; destruct (p_pk o.2); [done|simpl; lia]).
  rewrite Hz. unfold FtsText.TERM_LEN_PREFIX. rewrite (proj2 (Z.ltb_ge _ _)) by lia.
  destruct (is_prefix (key_of tlen q) (key_of (zlen o.1) (place o))) eqn:Hp.
  - apply key_of_prefix in Hp as [-> [m Hm]]; [|lia|done]. rewrite Z.eqb_refl. cbn [negb].
    rewrite (proj2 (Z.ltb_ge _ _)) by lia. rewrite bool_decide_true by (rewrite Hm; apply take_app_length). cbn [negb].
    rewrite (proj2 (Z.leb_gt _ _)) by lia. f_equal. rewrite <- Hv. f_equal.
    replace (Z.to_nat (2 + zlen o.1)) with (2 + length o.1)%nat by (unfold zlen; lia). rewrite <- drop_drop, Hd.
    unfold place. apply drop_app_length.
  - destruct (Z.eqb_spec (zlen o.1) tlen) as [<-|Hne]; [|done]. cbn [negb]. rewrite (proj2 (Z.ltb_ge _ _)) by lia.
    rewrite bool_decide_false; [done|]. intros Htk. assert (is_prefix (key_of (zlen o.1) q) (key_of (zlen o.1) (place o)) = true); [|congruence].
    apply key_of_prefix; [lia|done|]. split; [done|]. exists (drop (length q) (place o)). rewrite <- Htk at 1. symmetry. apply take_drop.
Qed.

Lemma filter_all {A} (P : A -> Prop) `{!forall x, Decision (P x)} (l : list A) : (forall x, x ∈ l -> P x) -> filter P l = l.
Proof.
  induction l as [|x l IH]; intros Hl; [done|]. rewrite filter_cons, decide_True by (apply Hl; left). f_equal.
  apply IH. intros y Hy. apply Hl. by right.
Qed.

Lemma NoDup_map_filter {A B} (f : A -> B) (P : A -> Prop) `{!forall x, Decision (P x)} (l : list A) :
  NoDup (map f l) -> NoDup (map f (filter P l)).
Proof.
  induction l as [|x l IH]; [done|]. cbn [map]. intros [Hn Hd]%NoDup_cons. rewrite filter_cons. case_decide; [|by apply IH].
  cbn [map]. constructor; [|by apply IH]. intros (y & Hy & [_ Hin]%list_elem_of_filter)%list_elem_of_fmap. apply Hn.
  apply list_elem_of_fmap. by exists y.
Qed.

Lemma Sorted_mapped {A B C} (f : A -> B) (g : A -> C) (R : B -> B -> Prop) (R' : C -> C -> Prop) (l : list A) :
  Sorted R (map f l) -> (forall x y, x ∈ l -> y ∈ l -> R (f x) (f y) -> R' (g x) (g y)) -> Sorted R' (map g l).
Proof.
  induction l as [|x l IH]; intros Hs Hr; [constructor|]. cbn [map] in *. apply Sorted_inv in Hs as [Hs Hh]. constructor.
  - apply IH; [done|]. intros y z Hy Hz. apply Hr; by right.
  - destruct l as [|y l]; constructor. apply HdRel_inv in Hh. apply Hr; [left|right; left|done].
Qed.

(** Distinct keys of a map are no more than its entries. *)
Lemma keys_bound {V} (m : gmap bytes V) (l : list bytes) :
  NoDup l -> (forall k, k ∈ l -> is_Some (m !! k)) -> (length l <= size m)%nat.
Proof.
  intros Hn Hl. rewrite <- size_dom, <- (size_list_to_set (C := gset bytes) l Hn). apply subseteq_size.
  intros k Hk%elem_of_list_to_set. by apply elem_of_dom, Hl.
Qed.

Section Search.
Context {E txn : Type} `{!TidesDb E txn, !RowDb E txn, !RowServices E txn, !QuietDb E txn, !CursorDb E txn,
  !QuietCursor E txn, !RowReader E}.
Context {SF : ServerField} {CS : FtsText.charset} `{!EqDecision txn} `{!Libm}.
Context (sh : share) (stm : statement) (k1 b : double) (fields : list Field).
Context (stored : record -> bytes -> Prop) (covered : nat -> Prop) `{!ReaderOk E txn stored}.
Context (t : txn) (v : store).
Local Open Scope eff_scope.

#[local] Abbreviation sc := (scanner E txn (iter E)).
#[local] Abbreviation rep := (table_rep sh fields stored covered).
#[local] Abbreviation at_ := (at_ t v).

Implicit Types (s : sc) (it : iter E) (buf r : record) (rows : gmap bytes record) (L : list entry) (os : list occurrence).

(** ** One seek *)

Lemma at_step {B : Type} s0 op it (k : iter E -> M sc B) R :
  can_move op (here it) ->
  (forall it', walks it' = walks it -> here it' = target op (walks it) (here it) -> run (at_ s0) (k it') R) ->
  run (at_ s0) (bind (on_db (iter_move op it)) k) R.
Proof.
  intros Hm Hk. apply (at_read t v s0 _ (fun _ it' => walks it' = walks it)
    (fun it' => can_move op (here it) -> here it' = target op (walks it) (here it))).
  - intros d ws. eapply spec_weaken; [apply (iter_move_law d ws t op it)|done| |done]. by intros it' e (? & ? & _).
  - apply quiet_move.
  - intros it' Hw Hh. apply Hk; [done|by apply Hh].
Qed.

Lemma at_look {B : Type} s0 it x (k : tdb_rc + entry -> M sc B) R :
  here it = Some x -> run (at_ s0) (k (inr x)) R -> run (at_ s0) (bind (on_db (iter_read it)) k) R.
Proof.
  intros Hh Hk. apply (at_read t v s0 _ (fun _ _ => True) (fun a : tdb_rc + entry => forall x, here it = Some x -> a = inr x)).
  - intros d ws. eapply spec_weaken; [apply (iter_read_law d ws t it)|done| |done]. by intros a e (? & _).
  - apply quiet_read.
  - intros a _ Ha. by rewrite (Ha x Hh).
Qed.

(** The loop takes the entries of the group and leaves at the next. *)
Lemma posting_loop_spec s0 look L (f : entry -> list fts_posting_t) others g fuel pre it :
  ascending L -> walks it = L -> L = pre ++ g ++ others -> here it = head (g ++ others) -> (length g < fuel)%nat ->
  (forall x, x ∈ g -> look x = Some (f x)) -> (forall x, x ∈ others -> look x = None) ->
  run (at_ s0) (posting_loop fuel look it) (fun res s => at_ s0 s /\ walks res.1 = L /\ res.2 = flat_map f g).
Proof.
  intros Hs. revert fuel pre it. induction g as [|x g IH]; intros fuel pre it Hw HL Hh Hf Hg Ho;
    (destruct fuel as [|fuel]; [simpl in Hf; lia|]); cbn [posting_loop]; rewrite Hh.
  - cbn [app]. destruct others as [|y others]; cbn [head]; [apply spec_ret; by intros s Hst|].
    apply (at_look s0 it y); [done|]. rewrite Ho by left. apply spec_ret. by intros s Hst.
  - cbn [app head]. apply (at_look s0 it x); [done|]. rewrite Hg by left.
    apply at_step; [rewrite Hh; by eexists|]. intros it' Hw' Hh'.
    rewrite Hh, Hw, HL in Hh'. cbn [app head] in Hh'. rewrite target_next in Hh' by (rewrite HL in Hs; exact Hs).
    eapply spec_bind.
    + apply (IH fuel (pre ++ [x]) it'); [congruence|rewrite HL, <- app_assoc; done|done|simpl in Hf; lia| |done].
      intros y Hy. apply Hg. by right.
    + intros res. apply spec_ret. intros s (Hst & Hwr & Hr). split_and!; [done|done|]. cbn [flat_map snd]. by rewrite Hr.
Qed.

(** The entries of the index as occurrences. *)
Definition bucket key os : list occurrence := filter (fun o => is_prefix key (entry_of o).1 = true) os.

Lemma filter_entries key os :
  filter (fun e : entry => is_prefix key e.1 = true) (map entry_of os) = map entry_of (bucket key os).
Proof. apply (filter_map_of entry_of). Qed.

Lemma seek_loop_spec s0 key look os it :
  ascending (walks it) -> walks it = map entry_of os ->
  (forall o, o ∈ os -> look (entry_of o) = if is_prefix key (entry_of o).1 then Some [o.2] else None) ->
  run (at_ s0) (seek_loop key look it)
    (fun res s => at_ s0 s /\ walks res.1 = walks it /\ res.2 = map snd (bucket key os)).
Proof.
  intros Hs Hw Hl. unfold seek_loop. apply at_step; [done|]. intros it' Hw' Hh'.
  destruct (group_split key (walks it) (here it) Hs) as (pre & g & others & HL & Ht & Hpre & Hin & Hout).
  rewrite Ht in Hh'.
  assert (map entry_of (bucket key os) = g) as Hg.
  { rewrite <- filter_entries, <- Hw, HL, filter_app, filter_none by (intros e He; by rewrite (Hpre e He)).
    apply filter_prefix; [done|]. intros e He. by rewrite (Hout e He). }
  set (f := fun e => default [] (look e)).
  eapply spec_weaken; [apply (posting_loop_spec s0 look (walks it) f others g _ pre it')|done| |done]; try done.
  - rewrite Hw', HL, !length_app. lia.
  - intros x Hx. pose proof (Hin x Hx) as Hp. rewrite <- Hg in Hx. apply list_elem_of_fmap in Hx as (o & -> & [_ Ho]%list_elem_of_filter).
    unfold f. by rewrite (Hl o Ho), Hp.
  - intros x Hx. pose proof (Hout x Hx) as Hp. assert (x ∈ walks it) as Hx' by (rewrite HL; do 2 (apply elem_of_app; right); done).
    rewrite Hw in Hx'. apply list_elem_of_fmap in Hx' as (o & -> & Ho). by rewrite (Hl o Ho), Hp.
  - intros res s (Hst & Hwr & ->). split_and!; [done|done|]. rewrite <- Hg.
    assert (forall o, o ∈ bucket key os -> f (entry_of o) = [o.2]) as Hf.
    { intros o [Hp Ho]%list_elem_of_filter. unfold f. by rewrite (Hl o Ho), Hp. }
    clear - Hf. induction (bucket key os) as [|o l IH]; [done|]. cbn [map flat_map]. rewrite Hf by left. cbn [app]. f_equal.
    apply IH. intros o' Ho'. apply Hf. by right.
Qed.

(** ** The postings of a term *)

(** A full-text index of the table. *)
Record fulltext_index (i : nat) (ci : bytes) : Prop := {
  ft_in_table : (i < num_keys sh)%nat;
  ft_family : secondary sh i = Some ci;
  ft_covered : covered i;
  ft_kind : kind_of sh i = fulltext }.

Lemma term_freqs_bound (toks : list bytes) w n : term_freqs toks !! w = Some n -> 0 <= n < 2 ^ 16.
Proof.
  revert n. induction toks as [|x toks IH]; intros n; simpl; [by rewrite lookup_empty|].
  intros [[_ <-]|[_ ?]]%lookup_insert_Some; [apply Z.mod_pos_bound; lia|by apply IH].
Qed.

Lemma occurrence_ok rows i ci o :
  fulltext_index i ci -> rows_ok sh fields rows -> pks_ok rows -> o ∈ all_occurrences sh i rows -> occ_ok o.
Proof.
  destruct o as [w p]. intros Hi Hro Hpk (r & n & Hr & Hn & Hp)%elem_of_all. destruct (Hro _ _ Hr) as [(_ & _ & Hg) _].
  split; cbn [fst snd].
  - apply (proj1 (Forall_forall _ _) (Hg i (ft_kind _ _ Hi))). by eapply term_freqs_in.
  - rewrite Hp. cbn [p_tf posting_of]. by eapply term_freqs_bound.
  - rewrite Hp. cbn [p_doc_len posting_of]. unfold doc_words, u32. apply Z.mod_pos_bound. lia.
  - by apply (Hpk (p_pk p) r).
Qed.

Lemma entry_of_inj rows i ci a c :
  fulltext_index i ci -> rows_ok sh fields rows -> pks_ok rows -> a ∈ all_occurrences sh i rows -> c ∈ all_occurrences sh i rows ->
  entry_of a = entry_of c -> a = c.
Proof.
  intros Hi Hro Hpk Ha Hc Hk%(f_equal fst). cbn [fst entry_of] in Hk. pose proof (occurrence_ok rows i ci a Hi Hro Hpk Ha) as Hoa.
  pose proof (occurrence_ok rows i ci c Hi Hro Hpk Hc) as Hoc.
  apply build_key_inj in Hk as [? ?]; [|apply Hoa|apply Hoc]. by apply (occurrence_unique sh i rows).
Qed.

(** The iterator walks the occurrences of the table's words. *)
Lemma index_occurrences rows i ci L :
  fulltext_index i ci -> rep rows v -> pks_ok rows -> opened v ci None L ->
  exists os, L = map entry_of os /\ forall o, o ∈ os <-> o ∈ all_occurrences sh i rows.
Proof.
  intros Hi [Hro (_ & _ & _ & He)] Hpk (_ & Hg & Hall).
  specialize (He i ci (ft_in_table _ _ Hi) (ft_family _ _ Hi) (ft_covered _ _ Hi)).
  rewrite decide_False in He by apply not_elem_of_nil.
  assert (forall e : entry, db_get ci e.1 v = Some e.2 <-> exists o, o ∈ all_occurrences sh i rows /\ entry_of o = e) as Hiff.
  { intros [k x]. cbn [fst snd]. rewrite (He k x). unfold entries. rewrite (ft_kind _ _ Hi). setoid_rewrite elem_of_postings. split.
    - intros (pk & r & Hr & w & n & Hn & -> & ->). exists (w, posting_of sh i pk r n). split; [|done]. apply elem_of_all. by exists r, n.
    - intros ([w p] & (r & n & Hr & Hn & Hp)%elem_of_all & Ee). exists (p_pk p), r. split; [done|]. exists w, n.
      split; [done|]. pose proof (f_equal fst Ee) as E1. pose proof (f_equal snd Ee) as E2. cbn [fst snd entry_of] in E1, E2.
      split; [done|]. rewrite <- E2, Hp. done. }
  assert (exists os, L = map entry_of os /\ forall o, o ∈ os -> o ∈ all_occurrences sh i rows) as (os & HL & Hos).
  { assert (forall e, e ∈ L -> exists o, o ∈ all_occurrences sh i rows /\ entry_of o = e) as Hex
      by (intros [k x] Hin; apply Hiff; by apply Hg).
    clear - Hex. induction L as [|e L IH]; [by exists []; split; [|intros o Ho%not_elem_of_nil]|].
    destruct IH as (os & -> & Hos); [intros e' He'; apply Hex; by right|]. destruct (Hex e) as (o & Ho & <-); [left|].
    exists (o :: os). split; [done|]. intros o' [->|Ho']%elem_of_cons; [done|by apply Hos]. }
  exists os. split; [done|]. intros o. split; [apply Hos|]. intros Ho.
  assert (entry_of o ∈ L) as Hin.
  { rewrite (surjective_pairing (entry_of o)). apply Hall; [|done]. apply Hiff. by exists o. }
  rewrite HL in Hin. apply list_elem_of_fmap in Hin as (o' & Heq & Ho').
  by rewrite (entry_of_inj rows i ci o o' Hi Hro Hpk Ho (Hos _ Ho') Heq).
Qed.

(** Entries with one length follow one another by word and document. *)
Lemma bucket_sorted tlen q os :
  ascending (map entry_of os) -> (forall o, o ∈ os -> occ_ok o) -> 0 <= tlen < 2 ^ 16 -> StronglySorted ahead (bucket (key_of tlen q) os).
Proof.
  intros Hs Hok Ht. unfold bucket. induction os as [|o os IH]; [constructor|]. cbn [map] in Hs.
  apply StronglySorted_inv in Hs as [Hs Hlt]. rewrite filter_cons. case_decide as Hp; [|apply IH; [done|intros; apply Hok; by right]].
  constructor; [apply IH; [done|intros; apply Hok; by right]|]. apply Forall_forall. intros o' [Hp' Ho']%list_elem_of_filter.
  pose proof (Hok o ltac:(left)) as Ho. pose proof (Hok o' ltac:(by right)) as Hoo.
  rewrite Forall_forall in Hlt. specialize (Hlt (entry_of o') (list_elem_of_fmap_2 _ _ _ Ho')).
  rewrite (entry_key o Ho) in Hp, Hlt. rewrite (entry_key o' Hoo) in Hp', Hlt.
  apply key_of_prefix in Hp as [Hl _]; [|done|by apply word_width].
  apply key_of_prefix in Hp' as [Hl' _]; [|done|by apply word_width]. right. split; [lia|]. rewrite <- Hl, <- Hl' in Hlt.
  unfold key_of, bytes_lt in Hlt. by rewrite bytes_cmp_app_same in Hlt.
Qed.

Lemma bucket_loop_spec s0 q os lens it :
  ascending (walks it) -> walks it = map entry_of os -> (forall o, o ∈ os -> occ_ok o) ->
  (forall tlen, tlen ∈ lens -> zlen q <= tlen <= FtsText.MAX_TERM_BYTES) ->
  run (at_ s0) (bucket_loop lens q it)
    (fun res s => at_ s0 s /\ walks res.1 = walks it /\ res.2 = map snd (flat_map (fun tlen => bucket (key_of tlen q) os) lens)).
Proof.
  intros Hs Hw Hok. revert it Hs Hw. induction lens as [|tlen lens IH]; intros it Hs Hw Hl; cbn [bucket_loop].
  - apply spec_ret. by intros s Hst.
  - eapply spec_bind; [apply (seek_loop_spec s0 _ _ os it Hs Hw)|].
    + intros o Ho. apply bucket_look_entry; [by apply Hok|]. apply Hl. left.
    + intros res. apply (spec_pure _ (walks res.1 = walks it /\ res.2 = map snd (bucket (key_of tlen q) os)));
        [by intros s (_ & ? & ?)|]. intros [Hwr Hr].
      eapply spec_bind; [eapply spec_pre; [apply (IH res.1)|by intros s (? & _)]|].
      * congruence.
      * congruence.
      * intros x Hx. apply Hl. by right.
      * intros rest. apply spec_ret. intros s (Hst & Hw2 & Hr2). cbn [fst snd flat_map]. split_and!; [done|by rewrite Hw2|].
        by rewrite map_app, Hr, Hr2.
Qed.

Lemma buckets_sorted q os lens :
  ascending (map entry_of os) -> (forall o, o ∈ os -> occ_ok o) -> StronglySorted Z.lt lens ->
  (forall tlen, tlen ∈ lens -> 0 <= tlen < 2 ^ 16) ->
  StronglySorted ahead (flat_map (fun tlen => bucket (key_of tlen q) os) lens).
Proof.
  intros Hs Hok Hl. induction Hl as [|tlen lens Hl IH Hlt]; intros Hb; [constructor|]. cbn [flat_map].
  assert (0 <= tlen < 2 ^ 16) as Htl by (apply Hb; left).
  assert (forall tlen' o, 0 <= tlen' < 2 ^ 16 -> o ∈ bucket (key_of tlen' q) os -> zlen o.1 = tlen') as Hlen.
  { intros tlen' o Ht' [Hp Ho]%list_elem_of_filter. rewrite entry_key in Hp by (by apply Hok).
    apply key_of_prefix in Hp as [-> _]; [done|done|]. apply word_width. by apply Hok. }
  apply StronglySorted_app_2; [|by apply bucket_sorted|apply IH; intros x Hx; apply Hb; by right].
  intros x y Hx Hy. rewrite list_elem_of_In, in_flat_map in Hy.
  destruct Hy as (tlen' & Hin%list_elem_of_In & Hy%list_elem_of_In). left.
  rewrite (Hlen tlen x Htl Hx), (Hlen tlen' y ltac:(apply Hb; by right) Hy). rewrite Forall_forall in Hlt. by apply Hlt.
Qed.

(** The text a term is looked up by. *)
Definition query_text qt : bytes := take (query_len qt) (term qt).

Lemma query_text_term qt : zlen (term qt) <= FtsText.MAX_TERM_BYTES -> query_text qt = term qt.
Proof. intros H'. apply take_ge. unfold query_len, zlen, FtsText.MAX_TERM_BYTES in *. lia. Qed.

Lemma query_text_len qt : zlen (query_text qt) <= FtsText.MAX_TERM_BYTES.
Proof. unfold query_text, query_len, zlen. rewrite length_take. unfold FtsText.MAX_TERM_BYTES. lia. Qed.

Lemma max_len_bound : max_len sh <= FtsText.MAX_TERM_BYTES.
Proof. unfold max_len. case_match eqn:E1; [lia|]. apply Z.ltb_ge in E1. lia. Qed.

Lemma elem_of_buckets q tlen : tlen ∈ buckets sh q <-> zlen q <= tlen <= max_len sh.
Proof.
  unfold buckets. rewrite list_elem_of_fmap. setoid_rewrite elem_of_seq. split.
  - intros (n & -> & Hn). lia.
  - intros Ht. exists (Z.to_nat (tlen - zlen q)). lia.
Qed.

Lemma buckets_ascend q : StronglySorted Z.lt (buckets sh q).
Proof.
  unfold buckets. generalize (Z.to_nat (max_len sh - zlen q + 1)) as n. intros n. generalize 0%nat as a.
  induction n as [|n IH]; intros a; cbn [seq map]; [constructor|]. constructor; [apply IH|].
  apply Forall_forall. intros x (m & -> & Hm%elem_of_seq)%list_elem_of_fmap. lia.
Qed.

(** The occurrences the code looks up for a term. *)
Definition looked_up qt os : list occurrence :=
  let q := query_text qt in
  if trunc qt then flat_map (fun tlen => bucket (key_of tlen q) os) (buckets sh q) else bucket (key_of (zlen q) q) os.

Lemma looked_up_asked qt os o :
  (forall x, x ∈ os -> occ_ok x) -> zlen (term qt) <= FtsText.MAX_TERM_BYTES ->
  (trunc qt = true -> forall x, x ∈ os -> zlen x.1 <= max_len sh) ->
  o ∈ looked_up qt os <-> FtsText.asks qt o.1 = true /\ o ∈ os.
Proof.
  intros Hok Hterm Hreach. pose proof (query_text_len qt) as Hq. pose proof max_len_bound as Hm. pose proof (zlen_nonneg (query_text qt)) as Hq0.
  unfold looked_up, FtsText.asks. rewrite <- (query_text_term qt Hterm). clear Hterm. unfold FtsText.MAX_TERM_BYTES in *.
  assert (forall tlen x, 0 <= tlen < 2 ^ 16 -> x ∈ os -> zlen (query_text qt) <= tlen ->
    is_prefix (key_of tlen (query_text qt)) (entry_of x).1 = true <-> zlen x.1 = tlen /\ query_text qt `prefix_of` x.1) as Hk.
  { intros tlen x Ht Hx Hl. rewrite entry_key by (by apply Hok). rewrite key_of_prefix by (done || by apply word_width, Hok).
    unfold place. split.
    - intros [-> Hp]. split; [done|]. by apply prefix_of_word in Hp.
    - intros [<- Hp]. split; [done|]. by apply prefix_of_word. }
  destruct (trunc qt).
  - rewrite list_elem_of_In, in_flat_map, bool_decide_eq_true. split.
    + intros (tlen & Ht%list_elem_of_In%elem_of_buckets & [Hp Ho]%list_elem_of_In%list_elem_of_filter).
      apply Hk in Hp as [<- Hp]; [|lia|done|lia]. done.
    + intros [Hp Ho]. pose proof (Hreach eq_refl o Ho) as Hl. pose proof (prefix_length _ _ Hp) as Hpl. exists (zlen o.1).
      assert (zlen (query_text qt) <= zlen o.1) as Hql by (unfold zlen; lia).
      split; apply list_elem_of_In; [by apply elem_of_buckets|]. apply list_elem_of_filter. split; [|done]. apply Hk; [lia|done|done|done].
  - rewrite bool_decide_eq_true. unfold bucket. rewrite list_elem_of_filter. split.
    + intros [Hp Ho]. apply Hk in Hp as [Hl Hp]; [|lia|done|lia]. split; [|done]. symmetry.
      apply prefix_length_eq; [done|]. unfold zlen in Hl. lia.
    + intros [Heq Ho]. split; [|done]. apply Hk; [lia|done|lia|]. by rewrite Heq.
Qed.

Lemma gather_spec rows i ci s0 it qt :
  fulltext_index i ci -> rep rows v -> pks_ok rows -> in_reach sh i rows qt -> opened v ci None (walks it) ->
  run (at_ s0) (ft_gather_postings sh it qt (query_len qt))
    (fun res s => at_ s0 s /\ walks res.1 = walks it /\ res.2 = found_postings sh i qt rows).
Proof.
  intros Hi Hrep Hpk [Hterm Hrc] Ho. destruct (index_occurrences rows i ci (walks it) Hi Hrep Hpk Ho) as (os & HL & Hos).
  assert (trunc qt = true -> forall o, o ∈ os -> zlen o.1 <= max_len sh) as Hreach.
  { intros Htr [w p] (r & c & Hr & Hc & _)%Hos%elem_of_all. by apply (Hrc Htr (p_pk p) r), (term_freqs_in _ _ c). }
  assert (forall o, o ∈ os -> occ_ok o) as Hok.
  { intros o Hin. destruct Hrep as [Hro _]. by apply (occurrence_ok rows i ci); [..|apply Hos]. }
  pose proof (query_text_len qt) as Hq. pose proof max_len_bound as Hm. pose proof (zlen_nonneg (query_text qt)) as Hq0.
  pose proof (proj1 Ho) as Hasc. assert (ascending (map entry_of os)) as Hasc' by (by rewrite <- HL).
  assert (run (at_ s0) (ft_gather_postings sh it qt (query_len qt))
    (fun res s => at_ s0 s /\ walks res.1 = walks it /\ res.2 = map snd (looked_up qt os))) as Hrun.
  { unfold ft_gather_postings, looked_up. fold (query_text qt). destruct (trunc qt).
    - apply bucket_loop_spec; [done|done|done|]. intros tlen Ht%elem_of_buckets. lia.
    - apply seek_loop_spec; [done|done|]. intros o Hin. apply exact_look_entry; [by apply Hok|done]. }
  eapply spec_weaken; [exact Hrun|done| |done]. intros res s (Hst & Hw & ->). split_and!; [done|done|].
  unfold found_postings. f_equal. apply in_index_order.
  - unfold looked_up. unfold FtsText.MAX_TERM_BYTES in *. destruct (trunc qt); [|apply bucket_sorted; [done|done|lia]].
    apply buckets_sorted; [done|done|apply buckets_ascend|]. intros tlen Ht%elem_of_buckets. lia.
  - apply occurrences_nodup.
  - intros o. rewrite (looked_up_asked qt os o Hok Hterm Hreach). unfold occurrences. rewrite list_elem_of_filter. by rewrite Hos.
  - intros x y [_ Hx]%(looked_up_asked qt os x Hok Hterm Hreach) [_ Hy]%(looked_up_asked qt os y Hok Hterm Hreach).
    apply (occurrence_unique sh i rows); by apply Hos.
Qed.

(** ** Scores *)

#[local] Abbreviation score_term_of i docs inv rows := (score_term sh i k1 b docs inv rows).

Lemma score_loop_spec rows i ci s0 docs inv terms it sc0 :
  fulltext_index i ci -> rep rows v -> pks_ok rows -> Forall (in_reach sh i rows) terms -> opened v ci None (walks it) ->
  run (at_ s0) (score_loop sh k1 b terms docs inv (Some it) sc0)
    (fun res s => at_ s0 s /\ res.2 = fold_left (score_term_of i docs inv rows) terms sc0).
Proof.
  intros Hi Hrep Hpk Hall. revert it sc0. induction Hall as [|qt terms Hqt Hall IH]; intros it sc0 Ho; cbn [score_loop].
  - apply spec_ret. by intros s Hst.
  - eapply spec_bind; [by apply (gather_spec rows i ci s0 it qt)|]. intros res.
    apply (spec_pure _ (walks res.1 = walks it /\ res.2 = found_postings sh i qt rows)); [by intros s (_ & ? & ?)|]. intros [Hw Hr].
    eapply spec_pre; [|by intros s (? & _)]. cbn [fold_left]. unfold score_term at 1. rewrite Hr. apply IH. by rewrite Hw.
Qed.

Lemma score_terms_spec rows i ci s0 docs inv terms :
  fulltext_index i ci -> rep rows v -> pks_ok rows -> Forall (in_reach sh i rows) terms ->
  run (at_ s0) (ft_score_terms sh k1 b t ci terms docs inv)
    (fun m s => at_ s0 s /\ m = kept sh i k1 b docs inv rows terms).
Proof.
  intros Hi Hrep Hpk Hall. unfold ft_score_terms. apply at_iter_new. intros it Ho.
  eapply spec_bind; [by apply (score_loop_spec rows i ci s0)|]. intros res.
  apply (spec_pure _ (res.2 = fold_left (score_term_of i docs inv rows) terms no_scores)); [by intros s (_ & ?)|]. intros Hr.
  eapply spec_pre; [|by intros s (? & _)]. rewrite Hr. destruct res.1 as [it'|].
  - apply (at_read t v s0 _ (fun _ _ => True) (fun _ => True)).
    + intros d ws. eapply spec_weaken; [apply (iter_free_law d ws t it')|done|by intros a e ?|done].
    + eapply spec_weaken; [apply (quiet_free it')|done|by intros a e ?|done].
    + intros _ _ _. apply spec_ret. by intros s Hst.
  - eapply spec_bind; [by apply (spec_ret _ (fun _ => at_ s0))|]. intros ?. apply spec_ret. by intros s Hst.
Qed.

(** ** Phrases *)

(** The statement's transaction runs; the row last read is of no matter. *)
Definition searching s : Prop := exists s1, at_ s1 s /\ stmt_txn (base s1) = Some t.

Lemma run_searching {A : Type} (m : M sc A) R :
  (forall s1, stmt_txn (base s1) = Some t -> run (at_ s1) m R) -> run searching m R.
Proof. intros H' s (s1 & Hs & Ht). by apply (H' s1 Ht). Qed.

Lemma fetch_found rows pk r buf :
  data_rep sh stored rows v -> rows !! pk = Some r ->
  run searching (fetch_row_by_pk sh (Some t) pk buf) (fun res s => res.1 = FOUND /\ shows r res.2 /\ searching s).
Proof.
  intros Hd Hr. apply run_searching. intros s1 Ht.
  eapply spec_weaken; [apply (at_fetch sh stored t v rows s1 pk r buf Hd Hr)|done| |done].
  intros res s (Hf & Hsh & Hs). split_and!; [done..|]. by eexists.
Qed.

Lemma searching_txn {B : Type} (k : option txn -> M sc B) R :
  run searching (k (Some t)) R -> run searching (bind (gets (fun s => stmt_txn (base s))) k) R.
Proof.
  intros Hk s (s1 & Hs & Ht). apply (at_gets t v s1); [done| |done]. rewrite Ht.
  intros s' Hs'. apply Hk. by exists s1.
Qed.

(** A row read back shows the words that were indexed. *)
Definition tokens_read (i : nat) rows : Prop :=
  forall pk r buf, rows !! pk = Some r -> shows r buf -> tokens_of sh i buf = tokens_of sh i r.

(** The rows of the results, and whether they hold the phrases. *)
Definition verified i rows terms (x : tdb_fts_result_t) : bool :=
  match rows !! r_pk x with Some r => phrases_hold sh i terms r | None => false end.

Lemma phrases_checked i terms r buf :
  tokens_of sh i buf = tokens_of sh i r ->
  ft_doc_matches_phrases sh i (filter (fun qt => is_phrase qt = true) terms) buf = phrases_hold sh i terms r.
Proof.
  intros Ht. unfold ft_doc_matches_phrases, phrases_hold. fold (tokens_of sh i buf). rewrite Ht.
  induction terms as [|qt terms IH]; [done|]. rewrite filter_cons. cbn [forallb]. destruct (is_phrase qt).
  - rewrite decide_True by done. cbn [forallb implb]. by rewrite IH.
  - rewrite decide_False by done. cbn [implb]. by rewrite IH.
Qed.

Lemma verify_phrases_spec rows i terms l record0 :
  data_rep sh stored rows v -> tokens_read i rows -> (forall x, x ∈ l -> is_Some (rows !! r_pk x)) ->
  run searching (verify_phrases sh i (filter (fun qt => is_phrase qt = true) terms) l record0)
    (fun res s => searching s /\ res.1 = filter (fun x => verified i rows terms x = true) l).
Proof.
  intros Hd Htok. revert record0. induction l as [|x l IH]; intros record0 Hl; cbn [verify_phrases].
  - apply spec_ret. by intros s Hst.
  - apply searching_txn. destruct (Hl x ltac:(left)) as [r Hr].
    eapply spec_bind; [by apply (fetch_found rows (r_pk x) r)|]. intros f.
    apply (spec_pure _ (f.1 = FOUND /\ shows r f.2)); [by intros s (? & ? & _)|]. intros [Hf Hsh].
    eapply spec_pre; [|by intros s (_ & _ & ?)]. eapply spec_bind; [apply IH; intros y Hy; apply Hl; by right|]. intros rest.
    apply spec_ret. intros s [Hst Hrest]. split; [done|]. cbn [fst]. rewrite Hf, bool_decide_true by done. cbn [andb].
    rewrite (phrases_checked i terms r f.2) by (by apply (Htok (r_pk x))). rewrite filter_cons, Hrest.
    assert (verified i rows terms x = phrases_hold sh i terms r) as Hv by (unfold verified; by rewrite Hr). rewrite <- Hv.
    by destruct (verified i rows terms x).
Qed.

Lemma phrases_none i terms r : filter (fun qt => is_phrase qt = true) terms = [] -> phrases_hold sh i terms r = true.
Proof. intros Hf. rewrite <- (phrases_checked i terms r r) by done. by rewrite Hf. Qed.

(** ** The ranked results *)

(** The statistics the index keeps in the data family. *)
Definition stats (i : nat) : Z * Z :=
  default (0, 0) (db_get (cf sh) (fts_meta_key i) v ≫= FtsText.decode_meta_value).

Definition docs_of (i : nat) : Z := if (stats i).1 =? 0 then BM25_MIN_TOTAL_DOCS else (stats i).1.
Definition inv_avgdl_of (i : nat) : double :=
  FtsScore.ddiv (FtsScore.of_int 1) (FtsScore.avgdl (stats i).2 (stats i).1).

(** The relevance of a document, and the rank its row is delivered with. *)
Definition relevance_of i rows terms pk : option double := relevance sh i k1 b (docs_of i) (inv_avgdl_of i) rows terms pk.
Definition rank_of i rows terms pk : double := FtsScore.to_single (default FtsScore.ZERO (relevance_of i rows terms pk)).

Definition ranked i rows terms (info : tdb_ft_info_t) : Prop :=
  current_idx info = 0%nat /\ match_count info = zlen (results info) /\ Sorted not_outranked (results info) /\
  NoDup (map r_pk (results info)) /\
  forall x, x ∈ results info <->
    rank x = rank_of i rows terms (r_pk x) /\ exists r, rows !! r_pk x = Some r /\ answers sh i terms r = true.

#[export] Instance not_outranked_total : Total not_outranked.
Proof.
  intros x y. unfold not_outranked. destruct (FtsScore.dlt (rank x) (rank y)) eqn:E1; [right|by left]. by apply FtsScore.dlt_asym.
Qed.

Lemma selected_relevance i rows terms pk r :
  rows !! pk = Some r -> selects sh i terms r = true -> is_Some (relevance_of i rows terms pk).
Proof.
  intros Hr (Hex & _)%(selects_iff sh i rows terms pk r Hr).
  exact (proj2 (relevance_some sh i k1 b (docs_of i) (inv_avgdl_of i) rows terms pk) Hex).
Qed.

Lemma filled_exact i rows terms :
  plain_requirements terms -> zlen terms < 2 ^ 32 ->
  let l := ft_fill_results (kept sh i k1 b (docs_of i) (inv_avgdl_of i) rows terms) in
  NoDup (map r_pk l) /\
  forall x, x ∈ l <-> rank x = rank_of i rows terms (r_pk x) /\ exists r, rows !! r_pk x = Some r /\ selects sh i terms r = true.
Proof.
  intros Hp Hz. cbv zeta. unfold ft_fill_results. split.
  - rewrite map_map. replace (map _ _) with (map fst (map_to_list (kept sh i k1 b (docs_of i) (inv_avgdl_of i) rows terms)))
      by (apply map_ext; by intros [pk x]). apply NoDup_fst_map_to_list.
  - intros x. rewrite list_elem_of_fmap. split.
    + intros ([pk y] & -> & [Hr Hrel]%elem_of_map_to_list%kept_exact); [|done|done]. cbn [r_pk rank]. split; [|done].
      unfold rank_of, relevance_of. by rewrite Hrel.
    + intros [Hrk (r & Hr & Hs)]. destruct (selected_relevance i rows terms _ r Hr Hs) as [y Hy]. exists (r_pk x, y). split.
      * destruct x as [pk rk]. cbn [r_pk rank] in *. f_equal. rewrite Hrk. unfold rank_of. by rewrite Hy.
      * apply elem_of_map_to_list, kept_exact; [done|done|]. split; [by exists r|done].
Qed.

Lemma ranked_results i rows terms l :
  NoDup (map r_pk l) ->
  (forall x, x ∈ l <-> rank x = rank_of i rows terms (r_pk x) /\ exists r, rows !! r_pk x = Some r /\ answers sh i terms r = true) ->
  ranked i rows terms (rank_results i l).
Proof.
  intros Hn Hl. unfold rank_results, ranked. cbn [set_results current_idx match_count results ft_new_info]. split_and!.
  - done.
  - unfold zlen. by rewrite (merge_sort_Permutation not_outranked).
  - apply Sorted_merge_sort. apply _.
  - by rewrite (merge_sort_Permutation not_outranked).
  - intros x. by rewrite (merge_sort_Permutation not_outranked).
Qed.

(** ** The search *)

Lemma ft_init_ext_spec rows i ci ft_bool query terms s0 record0 :
  fulltext_index i ci -> rep rows v -> pks_ok rows -> tokens_read i rows -> stmt_txn (base s0) = Some t ->
  default [] (ft_parse_query (fts_opts sh) ft_bool query) = terms -> plain_requirements terms -> Forall (in_reach sh i rows) terms -> zlen terms < 2 ^ 32 ->
  run (at_ s0) (ft_init_ext sh k1 b ft_bool i query record0)
    (fun res s => searching s /\ exists info, res.1 = Some info /\ ranked i rows terms info).
Proof.
  intros Hi Hrep Hpk Htok Ht Hq Hp Hall Hz. pose proof Hrep as [_ (_ & Hd & _)]. unfold ft_init_ext.
  rewrite (secondary_some sh i ci (ft_family _ _ Hi)). cbn [mjoin option_join].
  rewrite (ft_kind _ _ Hi), bool_decide_true by done. cbn [negb]. apply at_ensure; [by exists t|].
  rewrite bool_decide_true by done. cbn [negb]. cbv zeta. rewrite Hq. destruct (Z.eqb_spec (zlen terms) 0) as [Hz0|Hz0].
  { destruct terms; [|unfold zlen in Hz0; simpl in Hz0; lia]. apply spec_ret. intros s Hs. split; [by exists s0|].
    exists (ft_new_info i). split; [done|]. split_and!; [done|done|constructor|constructor|]. intros x. cbn. split; [by intros ?%not_elem_of_nil|].
    by intros (_ & r & _ & ?). }
  apply at_gets; [done|]. rewrite Ht.
  apply (at_read t v s0 _ (fun v' a => a.1 = TDB_SUCCESS \/ a.1 = TDB_ERR_NOT_FOUND ->
     a.2 = default (0, 0) (db_get (cf sh) (fts_meta_key i) v' ≫= FtsText.decode_meta_value))
    (fun a : tdb_rc * (Z * Z) => a.1 = TDB_SUCCESS \/ a.1 = TDB_ERR_NOT_FOUND)).
  { intros d ws. unfold fts_load_meta. eapply spec_bind; [apply (txn_get_law d ws t)|]. intros r. apply spec_ret. intros e [Hs Hg].
    split; [done|]. intros Hc. destruct r as [rc|x]; cbn [fst snd] in *.
    - destruct Hc as [->| ->]; [|by rewrite Hg]. exfalso. revert Hg. cbn. tauto.
    - rewrite Hg. cbn. by destruct (FtsText.decode_meta_value x). }
  { unfold fts_load_meta. eapply spec_bind; [by eapply spec_crash; [apply quiet_get|]|]. intros r. apply spec_ret. intros e [Hs [-> |[x ->]]]; (split; [done|]); auto. }
  intros [rc [docs words]] Hst Hrc. specialize (Hst Hrc). cbn [snd] in Hst. fold (stats i) in Hst.
  assert (docs = (stats i).1) as -> by (by rewrite <- Hst). assert (words = (stats i).2) as -> by (by rewrite <- Hst).
  fold (docs_of i) (inv_avgdl_of i). eapply spec_bind; [by apply (score_terms_spec rows i ci s0)|]. intros m.
  apply (spec_pure _ (m = kept sh i k1 b (docs_of i) (inv_avgdl_of i) rows terms)); [by intros s [_ ?]|]. intros ->.
  destruct (filled_exact i rows terms Hp Hz) as [Hn Hl]. set (found := ft_fill_results _) in *.
  apply (spec_pre _ searching); [|intros s [Hs _]; by exists s0].
  eapply (spec_bind _ _ (fun w s => searching s /\ w.1 = filter (fun x => verified i rows terms x = true) found)).
  - assert (forall x, x ∈ found -> is_Some (rows !! r_pk x)) as Hin by (intros x Hx; apply Hl in Hx as (_ & r & Hr & _); by eexists).
    case_match eqn:Ec; [by apply verify_phrases_spec|]. apply spec_ret. intros s Hs. split; [done|]. cbn [fst].
    apply andb_false_iff in Ec as [Ec|Ec]; apply negb_false_iff, Z.eqb_eq in Ec.
    + symmetry. apply filter_all. intros x Hx. destruct (Hin x Hx) as [r Hr]. unfold verified. rewrite Hr.
      apply phrases_none. unfold zlen in Ec. destruct (filter _ terms); [done|simpl in Ec; lia].
    + destruct found; [done|unfold zlen in Ec; simpl in Ec; lia].
  - intros w. apply spec_ret. intros s [Hs Hw]. split; [done|]. eexists. split; [done|]. rewrite Hw. apply ranked_results.
    + by apply NoDup_map_filter.
    + intros x. rewrite list_elem_of_filter, Hl. unfold verified, answers. split.
      * intros [Hv (Hrk & r & Hr & Hs')]. split; [done|]. exists r. rewrite Hr in Hv. split; [done|]. by rewrite Hs', Hv.
      * intros (Hrk & r & Hr & [Hs' Hv]%andb_true_iff). rewrite Hr. split; [done|]. split; [done|]. by exists r.
Qed.

(** ** The rows *)

(** The server's loop over [ft_read]. *)
Fixpoint ft_rows (fuel : nat) (h : option tdb_ft_info_t) buf : M sc (list record * read_code) :=
  match fuel with
  | O => ret ([], FOUND)
  | S fuel =>
      r <-- ft_read sh stm h buf;
      if bool_decide (r.1.1 = FOUND) then l <-- ft_rows fuel r.2 r.1.2; ret (r.1.2 :: l.1, l.2) else ret ([], r.1.1)
  end.

(** A [MATCH ... AGAINST] from the search to the last row. *)
Definition ft_search (n : nat) (ft_bool : bool) (i : nat) (query : bytes) (record0 : record) : M sc (list record * read_code) :=
  r <-- ft_init_ext sh k1 b ft_bool i query record0;
  ft_rows n (ft_init r.1) r.2.

Lemma searching_ensure {B : Type} (k : ha_code -> M sc B) R :
  run searching (k HA_OK) R -> run searching (bind (on_base ensure_stmt_txn) k) R.
Proof.
  intros Hk. apply run_searching. intros s1 Ht. apply at_ensure; [by exists t|]. intros s Hs. apply Hk. by exists s1.
Qed.

Lemma ft_read_row rows info x r buf :
  data_rep sh stored rows v -> killed stm = false -> results info !! current_idx info = Some x -> rows !! r_pk x = Some r ->
  run searching (ft_read sh stm (Some info) buf)
    (fun res s => searching s /\ res.1.1 = FOUND /\ shows r res.1.2 /\ res.2 = Some (set_place (S (current_idx info)) (rank x) info)).
Proof.
  intros Hd Hk Hx Hr. unfold ft_read. rewrite Hk. apply searching_ensure. rewrite bool_decide_true by done. cbn [negb ft_read_loop].
  rewrite Hx. apply run_assoc, searching_txn, run_assoc. eapply spec_bind; [by apply (fetch_found rows (r_pk x) r)|]. intros f.
  apply (spec_pure _ (f.1 = FOUND /\ shows r f.2)); [by intros s (? & ? & _)|]. intros [Hf Hsh]. rewrite Hf.
  eapply spec_bind; [apply (spec_ret _ (fun a s => a = (FOUND, f.2, set_place (S (current_idx info)) (rank x) info) /\ searching s))|].
  - by intros s (_ & _ & ?).
  - intros a. apply (spec_pure _ (a = (FOUND, f.2, set_place (S (current_idx info)) (rank x) info))); [by intros s [? _]|].
    intros ->. apply spec_ret. by intros s [_ ?].
Qed.

Lemma ft_rows_spec rows n l : forall info buf,
  data_rep sh stored rows v -> killed stm = false -> drop (current_idx info) (results info) = map fst l ->
  (forall x r, (x, r) ∈ l -> rows !! r_pk x = Some r) -> (length l < n)%nat ->
  run searching (ft_rows n (Some info) buf)
    (fun out _ => Forall2 (fun p c => shows p.2 c) l out.1 /\ out.2 = HA_ERR_END_OF_FILE).
Proof.
  revert n. induction l as [|[x r] l IH]; intros n info buf Hd Hk Hl Hr Hn; (destruct n as [|n]; [simpl in Hn; lia|]); cbn [ft_rows].
  - assert (results info !! current_idx info = None) as Hnone.
    { apply lookup_ge_None_2. apply (f_equal length) in Hl. rewrite length_drop in Hl. simpl in Hl. lia. }
    unfold ft_read. rewrite Hk. apply run_assoc, searching_ensure. rewrite bool_decide_true by done. cbn [negb ft_read_loop].
    rewrite Hnone. apply spec_ret. intros s _. split; [constructor|done].
  - assert (results info !! current_idx info = Some x) as Hx.
    { rewrite <- (Nat.add_0_r (current_idx info)), <- lookup_drop, Hl. done. }
    eapply spec_bind; [apply (ft_read_row rows info x r buf Hd Hk Hx); apply Hr; left|]. intros res.
    apply (spec_pure _ (res.1.1 = FOUND /\ shows r res.1.2 /\ res.2 = Some (set_place (S (current_idx info)) (rank x) info)));
      [by intros s (_ & ? & ? & ?)|]. intros (Hf & Hsh & Hres). rewrite bool_decide_true by done. rewrite Hres.
    eapply spec_bind.
    + eapply spec_pre; [apply IH|by intros s (? & _)]; [done|done| |intros y r' Hy; apply Hr; by right|simpl in Hn; lia].
      cbn [results current_idx set_place]. rewrite <- Nat.add_1_r, <- drop_drop, Hl. done.
    + intros out. apply spec_ret. intros s [H1 H2]. cbn [fst snd]. split; [by constructor|done].
Qed.

(** The results joined with their rows. *)
Lemma results_rows i rows terms info :
  ranked i rows terms info ->
  exists l, results info = map fst l /\ forall x r, (x, r) ∈ l -> rows !! r_pk x = Some r /\ answers sh i terms r = true.
Proof.
  intros (_ & _ & _ & _ & Hx). assert (forall x, x ∈ results info -> exists r, rows !! r_pk x = Some r /\ answers sh i terms r = true) as H'
    by (intros x Hin; by apply Hx in Hin as [_ ?]). clear Hx.
  induction (results info) as [|x l IH]; [by exists []; split; [|intros x r Hin%not_elem_of_nil]|].
  destruct IH as (l' & -> & Hl'); [intros y Hy; apply H'; by right|]. destruct (H' x) as [r Hr]; [left|].
  exists ((x, r) :: l'). split; [done|]. intros y r' [[= -> ->]|Hy]%elem_of_cons; [done|by apply Hl'].
Qed.

Definition delivered (p : tdb_fts_result_t * record) : bytes * record := (r_pk p.1, p.2).

Lemma delivered_rows i rows terms info l :
  ranked i rows terms info -> results info = map fst l ->
  (forall x r, (x, r) ∈ l -> rows !! r_pk x = Some r /\ answers sh i terms r = true) ->
  NoDup (map fst (map delivered l)) /\
  (forall pk r, (pk, r) ∈ map delivered l <-> rows !! pk = Some r /\ answers sh i terms r = true) /\
  Sorted (fun p q => FtsScore.dlt (rank_of i rows terms p.1) (rank_of i rows terms q.1) = false) (map delivered l) /\
  (length l <= size rows)%nat.
Proof.
  intros (_ & _ & Hs & Hn & Hx) Hl Hrows. assert (map fst (map delivered l) = map r_pk (results info)) as Hm
    by (by rewrite Hl, !map_map).
  rewrite Hm. split_and!; [done| | |].
  - intros pk r. rewrite list_elem_of_fmap. split; [by intros ([x r'] & [= -> ->] & Hin); apply Hrows|]. intros [Hr Ha].
    assert ({| r_pk := pk; rank := rank_of i rows terms pk |} ∈ results info) as Hin by (apply Hx; split; [done|by exists r]).
    rewrite Hl in Hin. apply list_elem_of_fmap in Hin as ([x r'] & Heq & Hin). cbn [fst] in Heq. subst x.
    destruct (Hrows _ _ Hin) as [Hr' _]. cbn [r_pk] in Hr'. eexists. split; [|exact Hin]. unfold delivered. cbn. congruence.
  - rewrite Hl in Hs. eapply Sorted_mapped; [exact Hs|]. intros [x rx] [y ry] Hinx Hiny. unfold not_outranked, delivered. cbn [fst snd].
    assert (forall z rz, (z, rz) ∈ l -> rank z = rank_of i rows terms (r_pk z)) as Hz.
    { intros z rz Hz. apply Hx. rewrite Hl. apply list_elem_of_fmap. by exists (z, rz). }
    by rewrite (Hz x rx Hinx), (Hz y ry Hiny).
  - apply (f_equal length) in Hl. rewrite length_map in Hl. rewrite <- Hl, <- (length_map r_pk). apply keys_bound; [done|].
    intros pk (x & -> & Hin)%list_elem_of_fmap. apply Hx in Hin as (_ & r & Hr & _). by eexists.
Qed.

(** C7: A full-text search returns exactly the rows that answer the query: those that hold a term that
    is not excluded, every required term, no excluded one and every phrase, each row once, ordered so that
    none is outranked by the next by the BM25 score of its own occurrences, and then the end of the file.
    A term asks for the word it is, or for all words that start with it.  The conditions: no required term
    carries a wildcard ([plain_requirements]; the code counts every word such a term matches,
    [FtsExample.required_wildcard_counts_words]); the terms fit the code's buffer and, when there is a
    wildcard, no indexed word has more bytes than the limit on words ([in_reach];
    [FtsExample.wildcard_misses_multibyte] otherwise); the library does not fail and the statement is not killed. *)
Theorem fulltext_search_exact rows i ci ft_bool query terms s0 n record0 :
  fulltext_index i ci -> rep rows v -> pks_ok rows -> tokens_read i rows -> stmt_txn (base s0) = Some t -> killed stm = false ->
  default [] (ft_parse_query (fts_opts sh) ft_bool query) = terms -> plain_requirements terms -> Forall (in_reach sh i rows) terms -> zlen terms < 2 ^ 32 ->
  (size rows < n)%nat ->
  run (at_ s0) (ft_search n ft_bool i query record0)
    (fun out _ => exists l : list (bytes * record),
       NoDup (map fst l) /\ (forall pk r, (pk, r) ∈ l <-> rows !! pk = Some r /\ answers sh i terms r = true) /\
       Sorted (fun p q => FtsScore.dlt (rank_of i rows terms p.1) (rank_of i rows terms q.1) = false) l /\
       Forall2 (fun p c => shows p.2 c) l out.1 /\ out.2 = HA_ERR_END_OF_FILE).
Proof.
  intros Hi Hrep Hpk Htok Ht Hk Hq Hp Hall Hz Hn. pose proof Hrep as [_ (_ & Hd & _)]. unfold ft_search.
  eapply spec_bind; [by apply (ft_init_ext_spec rows i ci ft_bool query terms)|]. intros res.
  apply (spec_pure _ (exists info, res.1 = Some info /\ ranked i rows terms info)); [by intros s [_ ?]|].
  intros (info & -> & Hrk). destruct (results_rows i rows terms info Hrk) as (l & Hl & Hrows).
  destruct (delivered_rows i rows terms info l Hrk Hl Hrows) as (Hnd & Hmem & Hsort & Hlen).
  eapply spec_weaken; [apply (ft_rows_spec rows n l (set_place 0 (current_rank info) info) res.2)|by intros s [? _]| |done];
    [done|done|done|intros x r Hin; by apply Hrows|lia|].
  intros out s [Hout Hend]. exists (map delivered l). split_and!; [done..| |done].
  clear - Hout. induction Hout as [|[x r] c l cs Hc _ IH]; cbn [map]; constructor; [exact Hc|exact IH].
Qed.

End Search.

End FtsSearchSpec.
