(* ===== verification/FtsExample.v ===== *)
(** * Full-text searches of a concrete table

    The table of [DmlExample] with its full-text index, searched over the map library: the witness of
    the search theorem and the queries on which the code departs from what it means to do. *)
From Stdlib Require Import SpecFloat.
From S2P Require Import Prelude Effects TidesDb RowDb RowFormat FtsText FtsScore Table KeyCodec Dml TableRep DmlExample Spatial CursorDb Scan ScanSpec ScanIndex ScanExample Counters FtsSearch FtsMatch FtsSearchSpec.
Import Table KeyCodec Dml TableRep DmlExample Scan ScanSpec ScanIndex ScanExample FtsSearch FtsMatch FtsSearchSpec.
#[local] Open Scope Z_scope.
#[local] Open Scope tdb_scope.

Module FtsExample.

#[local] Existing Instance KeyCodec.example_server.
#[local] Existing Instance FtsText.example_charset.
#[local] Existing Instance ex_services.
#[local] Abbreviation svc := (ex_services true).
#[local] Abbreviation all := (fun _ : nat => True).

(** Any function will do for the logarithm. *)
#[export] Instance ex_libm : FtsScore.Libm := {| FtsScore.log x := x |}.

(** The defaults of the two tunables, 1.2 and 0.75. *)
Definition k1 : FtsScore.double := FtsScore.scaled 5404319552844595 (-52).
Definition b : FtsScore.double := FtsScore.scaled 3 (-2).

(** The ids of the rows a boolean query finds, in the order they are delivered. *)
Definition finds (sh : share) (d : store) (query : bytes) (fates : list fate) : reply (list Z * read_code) :=
  match (ft_search (RowServices0 := svc) (E := mem_db) sh ex_statement k1 b 4 true 2 query r7 (ex_scanner d fates)).2 with
  | Ret (l, c) => Ret (map ex_id l, c)
  | Crash => Crash
  end.

Lemma ex_finds :
  finds ex_table store78 (bs "ab xy") [] = Ret ([7; 8], HA_ERR_END_OF_FILE) /\
  finds ex_table store78 (bs "xy -ab") [] = Ret ([7], HA_ERR_END_OF_FILE) /\
  finds ex_table store78 (bs "+a* -x*") [] = Ret ([8], HA_ERR_END_OF_FILE).
Proof. vm_compute. split_and!; reflexivity. Qed.

(** ** Departures *)

(** A row whose text is one blended word, so that it holds the words ab-a and ab. *)
Definition r9 : record := row 0 [9; 0; 0; 0] [3; 0] [4; 97; 98; 45; 97] [0; 0; 0; 0; 0; 0].

Definition holding (sh : share) (r : record) : store :=
  apply_writes (W_put (bs "d") (RowFormat.build_data_key (pk_of sh r [])) (ex_serialize r) ::
    map (put_of (bs "f")) (entries (RowServices0 := svc) sh 2 r (pk_of sh r []))) empty_store.

(** A required term with a wildcard counts once for every word it reaches, so a document with two such
    words passes for one that holds another required term too: the query [+ab* +zz] finds the row with
    ab-a and ab, which has no zz. *)
Lemma required_wildcard_counts_words :
  tokens_of ex_table 2 r9 = [bs "ab-a"; bs "ab"] /\
  finds ex_table (holding ex_table r9) (bs "+ab* +zz") [] = Ret ([9], HA_ERR_END_OF_FILE) /\
  answers ex_table 2 (default [] (ft_parse_query FtsText.example_opts true (bs "+ab* +zz"))) r9 = false.
Proof. vm_compute. split_and!; reflexivity. Qed.

(** The table with words of at most two characters. *)
Definition short_words : share := {|
  codec := codec ex_table; cf := cf ex_table; idx_cfs := idx_cfs ex_table; idx_kind := idx_kind ex_table;
  nosame := nosame ex_table; encrypted := false; ref_length := 4; has_next_number := true; triggers := false;
  table_name := table_name ex_table;
  fts_opts := {| FtsText.min_word_len := 1; FtsText.max_word_len := 2; FtsText.blend_map := None; FtsText.stopwords := None |} |}.

(** A row whose text is one word of two characters, four bytes. *)
Definition r10 : record := row 0 [10; 0; 0; 0] [4; 0] [4; 195; 169; 195; 169] [0; 0; 0; 0; 0; 0].

(** A wildcard looks for words of up to the maximal length in bytes, while words are indexed up to that
    length in characters: a word of two characters is found by itself and not by its first character and a
    wildcard. *)
Lemma wildcard_misses_multibyte :
  finds short_words (holding short_words r10) [195; 169; 195; 169] [] = Ret ([10], HA_ERR_END_OF_FILE) /\
  finds short_words (holding short_words r10) ([195; 169] ++ bs "*") [] = Ret ([], HA_ERR_END_OF_FILE).
Proof. vm_compute. split; reflexivity. Qed.

(** A failed attempt to open the iterator is an empty answer, not an error. *)
Lemma failed_search_is_empty :
  finds ex_table store78 (bs "ab xy") [works; fails] = Ret ([], HA_ERR_END_OF_FILE).
Proof. vm_compute. reflexivity. Qed.

(** ** Witness *)

Lemma ex_index_f : fulltext_index ex_table all 2 (bs "f").
Proof. split; try exact I; vm_compute; try reflexivity; lia. Defined.

Lemma ex_tokens_read : tokens_read (RowReader0 := ex_reader) ex_table ex_stored (ReaderOk0 := ex_reader_ok) 2 rows78.
Proof. intros pk r buf [-> | ->]%Counters.rows78_cases [_ ->]; vm_compute; reflexivity. Qed.

Definition query_terms : list FtsText.query_term := default [] (ft_parse_query FtsText.example_opts true (bs "xy -ab")).

Lemma fulltext_search_exact_witness :
  exists l : list (bytes * record),
    NoDup (map fst l) /\ (forall pk r, (pk, r) ∈ l <-> rows78 !! pk = Some r /\ answers ex_table 2 query_terms r = true) /\
    Forall2 (fun p c => shows (ReaderOk := ex_reader_ok) p.2 c) l (shown [7]).
Proof.
  pose proof (fulltext_search_exact (RowServices0 := svc) (RowReader0 := ex_reader) ex_table ex_statement k1 b ex_fields ex_stored all
    tt store78 rows78 2 (bs "f") true (bs "xy -ab") query_terms (ex_scanner store78 []) 4 r7 ex_index_f store78_rep ex_pks78
    ex_tokens_read eq_refl eq_refl eq_refl) as H.
  assert (Hp : plain_requirements query_terms) by (apply Forall_forall; intros qt Hin Hq;
    apply list_elem_of_In in Hin; vm_compute in Hin; destruct Hin as [<-|[<-|[]]]; reflexivity).
  assert (Hr : Forall (in_reach ex_table 2 rows78) query_terms) by (apply Forall_forall; intros qt Hin;
    apply list_elem_of_In in Hin; vm_compute in Hin; destruct Hin as [<-|[<-|[]]]; (split; [by vm_compute|intros Htr; discriminate Htr])).
  specialize (H Hp Hr ltac:(vm_compute; reflexivity) ltac:(vm_compute; lia)).
  pose proof (spec_run _ _ _ _ (ex_scanner store78 []) (shown [7], HA_ERR_END_OF_FILE) H
    (ex_at _ _ (Forall_nil_2 _)) ltac:(vm_compute; reflexivity)) as (l & H1 & H2 & _ & H3 & _).
  exists l. split_and!; [exact H1|exact H2|exact H3].
Defined.

End FtsExample.
