(* ===== verification/Inplace.v ===== *)
(** * Adding an index in place ([ha_tidesdb_ddl.cc])

    [inplace_alter_table] fills the families of the indexes an ALTER TABLE adds: it walks the data
    family, decodes each row, writes an entry per new index and commits every
    [TIDESDB_INDEX_BUILD_BATCH] rows, after which it opens a new iterator and seeks back to the row it
    was at.  [sh] is the table as altered: the key numbers of the context are positions in its keys.
    A transaction's isolation level and the release of transactions have no counterpart.  The result
    code of the seek after a batch and an iterator it leaves invalid have the same effect, the end of
    the walk, and are one case here. *)
From stdpp Require Import sorting.
From S2P Require Import Prelude Effects TidesDb RowDb RowFormat FtsText Table KeyCodec Dml TableRep Spatial CursorDb Quiet Scan ScanSpec.
Import Table KeyCodec Dml TableRep.
#[local] Open Scope Z_scope.
#[local] Open Scope tdb_scope.

Module Inplace.

Definition TIDESDB_INDEX_BUILD_BATCH : Z := 100.

(** An index being added: its number in the altered table and its family. *)
Abbreviation added := (nat * bytes)%type.

Inductive row_result := row_done | row_duplicate (key_num : nat) | row_put_failed (key_num : nat).

#[export] Instance row_result_eq_dec : EqDecision row_result.
Proof. solve_decision. Defined.

Section code.
Context {E txn : Type} `{!TidesDb E txn, !RowDb E txn, !CursorDb E txn, !RowReader E} {SF : ServerField}.
Context (sh : share) (killed : Z -> bool).
Local Open Scope eff_scope.

(** ** One row *)

(** The body of the loop over the new indexes; [seen] holds the keys of the rows before. *)
Definition add_entry (a : added) (seen : gset bytes) (r : record) (pk : bytes) (t : txn) :
    M E (row_result * gset bytes) :=
  if negb (bool_decide (kind_of sh a.1 = regular)) then ret (row_done, seen)
  else
    let '(ik, row_has_null) := inplace_build_index_key (key_info_of sh a.1) r in
    let checked := is_unique sh a.1 && negb row_has_null in
    if checked && bool_decide (ik ∈ seen) then ret (row_duplicate a.1, seen)
    else
      rc <-- txn_put t a.2 (ik ++ pk) tdb_empty_val;
      ret (if tdb_ok rc then row_done else row_put_failed a.1, if checked then {[ik]} ∪ seen else seen).

Fixpoint add_entries (adds : list added) (idx_seen : list (gset bytes)) (r : record) (pk : bytes) (t : txn) :
    M E (row_result * list (gset bytes)) :=
  match adds, idx_seen with
  | a :: adds, seen :: idx_seen =>
      x <-- add_entry a seen r pk t;
      if bool_decide (x.1 = row_done) then
        y <-- add_entries adds idx_seen r pk t;
        ret (y.1, x.2 :: y.2)
      else ret (x.1, x.2 :: idx_seen)
  | _, _ => ret (row_done, idx_seen)
  end.

(** The row is decoded into [record[0]], here [buf]. *)
Definition inplace_add_row_entries (adds : list added) (key val : bytes) (t : txn) (idx_seen : list (gset bytes))
    (buf : record) : M E (row_result * list (gset bytes) * record) :=
  buf <-- deserialize_row val buf;
  x <-- add_entries adds idx_seen buf (drop (Z.to_nat RowFormat.KEY_NAMESPACE_LEN) key) t;
  ret (x, buf).

(** ** The end of a batch *)

(** What the caller goes on with, or has to release. *)
Inductive batch_result := batch_go (t : txn) (it : iter E) | batch_failed (t : option txn) (it : option (iter E)).

Definition inplace_batch_commit_reseek (t : txn) (it : iter E) (last_data_key : bytes) : M E batch_result :=
  crc <-- txn_commit t;
  if negb (tdb_ok crc) then ret (batch_failed (Some t) (Some it))
  else
    iter_free it;;
    rrc <-- txn_reset t;
    t <-- (if tdb_ok rrc then ret (Some t)
           else r <-- txn_begin; ret (match r with inr t => Some t | inl _ => None end));
    match t with
    | None => ret (batch_failed None None)
    | Some t =>
        r <-- iter_new t (cf sh) None;
        match r with
        | inl _ => ret (batch_failed None None)
        | inr it =>
            it <-- iter_move (Seek last_data_key) it;
            it <-- (if bool_decide (here it = None) then ret it else iter_move Next it);
            ret (batch_go t it)
        end
    end.

(** ** The walk *)

Definition inplace_abort_build (t : option txn) (it : option (iter E)) : M E bool :=
  match it with Some it => iter_free it | None => ret tt end;;
  match t with Some t => txn_rollback t;; ret true | None => ret true end.

Definition finish_build (t : txn) (it : iter E) : M E bool :=
  iter_free it;;
  rc <-- txn_commit t;
  if tdb_ok rc then ret false else txn_rollback t;; ret true.

(** The loop of [inplace_scan_and_build]; [true] is a failed ALTER. *)
Fixpoint build_loop (fuel : nat) (adds : list added) (t : txn) (it : iter E) (idx_seen : list (gset bytes))
    (rows_processed : Z) (last_data_key : bytes) (buf : record) : M E bool :=
  match fuel with
  | O => inplace_abort_build (Some t) (Some it)
  | S fuel =>
      if bool_decide (here it = None) then finish_build t it
      else
        r <-- iter_read it;
        match r with
        | inl _ => it <-- iter_move Next it; build_loop fuel adds t it idx_seen rows_processed last_data_key buf
        | inr (key, val) =>
            if negb (RowFormat.is_data_key key)
            then it <-- iter_move Next it; build_loop fuel adds t it idx_seen rows_processed last_data_key buf
            else
              let last_data_key := if zlen key <=? Scan.DATA_KEY_BUF_LEN then key else last_data_key in
              x <-- inplace_add_row_entries adds key val t idx_seen buf;
              let '(prc, idx_seen, buf) := x in
              if negb (bool_decide (prc = row_done)) then inplace_abort_build (Some t) (Some it)
              else
                let rows_processed := rows_processed + 1 in
                if rows_processed `mod` TIDESDB_INDEX_BUILD_BATCH =? 0 then
                  if killed rows_processed then inplace_abort_build (Some t) (Some it)
                  else
                    b <-- inplace_batch_commit_reseek t it last_data_key;
                    match b with
                    | batch_failed t it => inplace_abort_build t it
                    | batch_go t it => build_loop fuel adds t it idx_seen rows_processed last_data_key buf
                    end
                else it <-- iter_move Next it; build_loop fuel adds t it idx_seen rows_processed last_data_key buf
        end
  end.

Definition inplace_scan_and_build (adds : list added) (t : txn) (it : iter E) (buf : record) : M E bool :=
  build_loop (S (length (walks it))) adds t it (replicate (length adds) ∅) 0 [] buf.

Definition inplace_alter_table (adds : list added) (buf : record) : M E bool :=
  match adds with
  | [] => ret false
  | _ =>
      r <-- txn_begin;
      match r with
      | inl _ => ret true
      | inr t =>
          r <-- iter_new t (cf sh) None;
          match r with
          | inl _ => ret true
          | inr it => it <-- iter_move Seek_to_first it; inplace_scan_and_build adds t it buf
          end
      end
  end.

End code.
Arguments batch_result E txn {_ _}.
End Inplace.
