(* ===== verification/InplaceSpec.v ===== *)
(** * An index added in place holds every row

    On a library that does not fail, [inplace_alter_table] fails exactly when two rows share a key of a
    unique index, and otherwise leaves contents that represent the same rows under the altered table.
    The invariant of the walk says that the new families hold the entries of the rows before the
    iterator, across the batches it commits. *)
From stdpp Require Import sorting.
From S2P Require Import Prelude Effects TidesDb RowDb RowFormat FtsText Table KeyCodec Dml TableRep Spatial CursorDb Quiet Scan ScanSpec Inplace.
Import Table KeyCodec Dml TableRep Inplace.
#[local] Open Scope Z_scope.
#[local] Open Scope tdb_scope.

Module InplaceSpec.

Section Build.
Context {E txn : Type} `{!TidesDb E txn, !RowDb E txn, !RowServices E txn, !QuietDb E txn, !QuietRows E txn,
  !CursorDb E txn, !QuietCursor E txn, !RowReader E}.
Context {SF : ServerField} {CS : FtsText.charset}.
Context (sh : share) (killed : Z -> bool) (fields : list Field).
Context (stored : record -> bytes -> Prop) (covered : nat -> Prop) {RO : ScanSpec.ReaderOk E txn stored}.
Context (adds : list added) (rows : gmap bytes record) (d : store).
Local Open Scope eff_scope.

#[local] Abbreviation run P m Q := (spec P m Q (fun _ => True)).
#[local] Abbreviation ikey := (index_key sh).
#[local] Abbreviation ent := (entries sh).

Implicit Types (past : gmap bytes record) (v : store) (ws : list write) (r buf : record) (pk : bytes) (t : txn).

Definition has_null (i : nat) r : bool := existsb (fun kp => is_null (field kp) r) (key_part (key_info_of sh i)).

(** The indexes of the statement: their columns are not varbinary and are read back from the stored rows,
    and the keys of the rows fit the buffer of the walk. *)
Record build_ok : Prop := {
  distinct : NoDup (map fst adds);
  family : forall i c, (i, c) ∈ adds -> (i < num_keys sh)%nat /\ secondary sh i = Some c;
  plain_columns : forall i c, (i, c) ∈ adds -> kind_of sh i = regular ->
    Forall (fun kp => is_varbinary (field kp) = false) (key_part (key_info_of sh i));
  short_keys : forall pk r, rows !! pk = Some r -> zlen (RowFormat.build_data_key pk) <= Scan.DATA_KEY_BUF_LEN;
  columns_read : forall i c pk r buf, (i, c) ∈ adds -> rows !! pk = Some r -> ScanSpec.shows r buf ->
    inplace_build_index_key (key_info_of sh i) buf = inplace_build_index_key (key_info_of sh i) r }.

(** Their families are new. *)
Definition new_families : Prop := forall i c, (i, c) ∈ adds -> d !! c = Some ∅ /\ ~ covered i.

(** Two rows with the same key in a unique index, none of its columns null. *)
Definition duplicate (i : nat) past : Prop :=
  kind_of sh i = regular /\ is_unique sh i = true /\
  exists pk pk' r r', pk <> pk' /\ past !! pk = Some r /\ past !! pk' = Some r' /\
    has_null i r = false /\ has_null i r' = false /\ ikey i r = ikey i r'.

(** ** One row *)

Definition seen_ok (i : nat) past (seen : gset bytes) : Prop :=
  kind_of sh i = regular -> is_unique sh i = true ->
  forall k, k ∈ seen <-> exists pk r, past !! pk = Some r /\ has_null i r = false /\ k = ikey i r.

Definition built (l : list added) past v : Prop :=
  Forall (fun a => kind_of sh a.1 = regular -> holds_entries a.2 (ent a.1) past v) l.

Lemma built_one i c past v : built [(i, c)] past v <-> (kind_of sh i = regular -> holds_entries c (ent i) past v).
Proof. unfold built. by rewrite Forall_singleton. Qed.

Definition writes_to (l : list added) ws : Prop := Forall (fun w => write_cf w ∈ map snd l) ws.

Lemma inplace_key i c r :
  table_ok sh -> build_ok -> (i, c) ∈ adds -> kind_of sh i = regular -> good sh fields r ->
  inplace_build_index_key (key_info_of sh i) r = (ikey i r, has_null i r).
Proof. intros (Hp & _) Hb Hi Hk (Hr & _). apply (inplace_key_agrees fields); [done|apply Hp|by eapply plain_columns]. Qed.

Lemma seen_insert i past seen pk r :
  past !! pk = None -> seen_ok i past seen ->
  seen_ok i (<[pk := r]> past) (if is_unique sh i && negb (has_null i r) then {[ikey i r]} ∪ seen else seen).
Proof.
  intros Hn Hs Hk Hu k. rewrite Hu. cbn [andb]. specialize (Hs Hk Hu k).
  destruct (has_null i r) eqn:Eh; cbn [negb]; rewrite ?elem_of_union, ?elem_of_singleton, Hs; split.
  - intros (pk' & r' & Hr & ? & ?). exists pk', r'. rewrite lookup_insert_ne; [done|congruence].
  - intros (pk' & r' & [[<- <-]|[_ Hr]]%lookup_insert_Some & ? & ?); [congruence|]. eauto.
  - intros [-> |(pk' & r' & Hr & ? & ?)]; [exists pk, r; by rewrite lookup_insert_eq|].
    exists pk', r'. rewrite lookup_insert_ne; [done|congruence].
  - intros (pk' & r' & [[<- <-]|[_ Hr]]%lookup_insert_Some & ? & ->); [by left|]. right. eauto.
Qed.

Lemma add_entry_spec t d1 ws past pk r buf i c seen :
  table_ok sh -> build_ok -> (i, c) ∈ adds -> all_good (good sh fields) past -> good sh fields r ->
  inplace_build_index_key (key_info_of sh i) buf = inplace_build_index_key (key_info_of sh i) r ->
  past !! pk = None -> is_Some (apply_writes ws d1 !! c) -> built [(i, c)] past (apply_writes ws d1) -> seen_ok i past seen ->
  run (quiet_txn t d1 ws) (add_entry sh (i, c) seen buf pk t)
    (fun x e => exists ws', quiet_txn t d1 (ws ++ ws') e /\ writes_to [(i, c)] ws' /\
       match x.1 with
       | row_done => built [(i, c)] (<[pk := r]> past) (apply_writes (ws ++ ws') d1) /\ seen_ok i (<[pk := r]> past) x.2 /\
           (duplicate i (<[pk := r]> past) -> duplicate i past)
       | row_duplicate _ => duplicate i (<[pk := r]> past)
       | row_put_failed _ => False
       end).
Proof.
  intros Hok Hb Hi Hg Hr Hread Hn Hc Hh Hs. unfold add_entry. cbn [fst snd].
  destruct (decide (kind_of sh i = regular)) as [Hk|Hk].
  2:{ rewrite bool_decide_false by done. cbn [negb]. apply spec_ret. intros e He. exists []. rewrite app_nil_r.
      split; [done|]. split; [by constructor|]. cbn [fst snd].
      split; [by apply built_one|]. split; [done|]. by intros (? & _). }
  rewrite bool_decide_true by done. cbn [negb].
  rewrite Hread, (inplace_key i c r) by done. rewrite built_one in Hh. specialize (Hh Hk).
  destruct (is_unique sh i && negb (has_null i r) && bool_decide (ikey i r ∈ seen)) eqn:Ed.
  { apply spec_ret. intros e He. exists []. rewrite app_nil_r. split; [done|]. split; [by constructor|].
    apply andb_true_iff in Ed as [[Hu Hnn%negb_true_iff]%andb_true_iff Hin%bool_decide_eq_true].
    apply (Hs Hk Hu) in Hin as (pk' & r' & Hr' & Hn' & Ek). split_and!; [done..|].
    exists pk, pk', r, r'. split_and!; [congruence|by rewrite lookup_insert_eq|rewrite lookup_insert_ne; congruence|done..]. }
  eapply spec_bind; [by eapply spec_crash; [apply q_put|]|]. intros rc.
  apply (spec_pure _ (rc = TDB_SUCCESS)); [by intros s [? _]|]. intros ->. apply spec_ret. intros e [_ He].
  exists [W_put c (ikey i r ++ pk) tdb_empty_val]. split; [done|]. split; [by apply Forall_singleton, list_elem_of_singleton|].
  cbn [fst snd tdb_ok]. change (tdb_ok TDB_SUCCESS) with true. split_and!.
  - apply built_one. intros _. rewrite apply_writes_app.
    pose proof (entries_added c (good sh fields) (ent i) (entries_owned sh fields i Hok) past _ pk r Hc Hg Hr Hn Hh) as Ha.
    unfold entries in Ha at 2. rewrite Hk in Ha. exact Ha.
  - by apply seen_insert.
  - assert (forall pk' r', pk' <> pk -> <[pk := r]> past !! pk' = Some r' -> is_unique sh i = true ->
              has_null i r = false -> has_null i r' = false -> ikey i r = ikey i r' -> False) as Hno.
    { intros pk' r' Hne Hr' Hu H1 H2 Ek. rewrite lookup_insert_ne in Hr' by congruence. rewrite Hu, H1 in Ed.
      apply bool_decide_eq_false in Ed. apply Ed, (Hs Hk Hu). by exists pk', r'. }
    intros (_ & Hu & pk1 & pk2 & r1 & r2 & Hne & H1 & H2 & Hn1 & Hn2 & Ek).
    destruct (decide (pk1 = pk)) as [->|N1]; [|destruct (decide (pk2 = pk)) as [->|N2]].
    + rewrite lookup_insert_eq in H1. injection H1 as <-. by destruct (Hno pk2 r2).
    + rewrite lookup_insert_eq in H2. injection H2 as <-. by destruct (Hno pk1 r1).
    + rewrite lookup_insert_ne in H1, H2 by congruence. split_and!; [done..|]. by exists pk1, pk2, r1, r2.
Qed.

Lemma built_other l l' past v ws :
  (forall c, c ∈ map snd l -> c ∉ map snd l') -> writes_to l' ws -> built l past v -> built l past (apply_writes ws v).
Proof.
  intros Hdis Hw Hb. unfold built in *. rewrite Forall_forall in *. intros a Ha Hk.
  apply holds_entries_other; [|by apply Hb]. eapply Forall_impl; [exact Hw|]. intros w Hin E'. simpl in Hin.
  apply (Hdis a.2); [apply list_elem_of_fmap; by exists a|by rewrite <- E'].
Qed.

Lemma add_entries_spec t d1 past pk r buf l :
  table_ok sh -> build_ok -> (forall a, a ∈ l -> a ∈ adds) -> NoDup (map snd l) -> all_good (good sh fields) past ->
  good sh fields r ->
  (forall a, a ∈ l -> inplace_build_index_key (key_info_of sh a.1) buf = inplace_build_index_key (key_info_of sh a.1) r) ->
  past !! pk = None -> forall ws seens, (forall a, a ∈ l -> is_Some (apply_writes ws d1 !! a.2)) ->
  built l past (apply_writes ws d1) -> Forall2 (fun a seen => seen_ok a.1 past seen) l seens ->
  run (quiet_txn t d1 ws) (add_entries sh l seens buf pk t)
    (fun x e => exists ws', quiet_txn t d1 (ws ++ ws') e /\ writes_to l ws' /\
       match x.1 with
       | row_done => built l (<[pk := r]> past) (apply_writes (ws ++ ws') d1) /\
           Forall2 (fun a seen => seen_ok a.1 (<[pk := r]> past) seen) l x.2 /\
           (forall a, a ∈ l -> duplicate a.1 (<[pk := r]> past) -> duplicate a.1 past)
       | row_duplicate _ => exists a, a ∈ l /\ duplicate a.1 (<[pk := r]> past)
       | row_put_failed _ => False
       end).
Proof.
  intros Hok Hb. induction l as [|[i c] l IH]; intros Hsub Hnd Hg Hr Hread Hn ws seens Hfam Hh Hs.
  { apply Forall2_nil_inv_l in Hs as ->. apply spec_ret. intros e He. exists []. rewrite app_nil_r.
    split; [done|]. split; [by constructor|]. split; [by constructor|]. split; [by constructor|].
    by intros a ?%not_elem_of_nil. }
  apply Forall2_cons_inv_l in Hs as (seen & seens' & Hseen & Hs & ->). cbn [add_entries].
  apply NoDup_cons in Hnd as [Hc Hnd]. apply Forall_cons in Hh as [Hh1 Hh].
  eapply spec_bind; [apply (add_entry_spec t d1 ws past pk r buf i c seen); try done|].
  { apply Hsub. by left. } { apply (Hread (i, c)). by left. } { apply (Hfam (i, c)). by left. } { by apply built_one. }
  intros x. destruct x as [res seen']. cbn [fst snd]. case_bool_decide as Hres; [subst res|].
  2:{ apply spec_ret. intros e (ws' & He & Hw & Hx). exists ws'. split; [done|]. split.
      { eapply Forall_impl; [exact Hw|]. intros w. cbn [map]. rewrite list_elem_of_singleton. intros ->. by left. }
      cbn [fst snd]. destruct res; [done| |done]. exists (i, c). split; [by left|done]. }
  apply spec_ex. intros ws1. apply (spec_pure _ _ _ _ _ (fun _ Hs => proj2 Hs)). intros (Hw1 & Hb1 & Hs1 & Hd1).
  eapply (spec_pre _ (quiet_txn t d1 (ws ++ ws1))); [|by intros e [? _]].
  assert (forall c', c' ∈ map snd l -> c' ∉ map snd [(i, c)]) as Hdis.
  { intros c' Hc' Hin. change (c' ∈ [c]) in Hin. apply list_elem_of_singleton in Hin as ->. by apply Hc. }
  eapply spec_bind; [apply (IH ltac:(intros a Ha; apply Hsub; by right) Hnd Hg Hr ltac:(intros a Ha; apply Hread; by right) Hn
    (ws ++ ws1) seens')|].
  - intros a Ha. rewrite apply_writes_app. apply apply_writes_family, Hfam. by right.
  - rewrite apply_writes_app. by apply (built_other l [(i, c)]).
  - done.
  - intros [res2 seens2]. apply spec_ret. intros e (ws2 & He & Hw2 & Hx). exists (ws1 ++ ws2).
    rewrite app_assoc. split; [done|]. split.
    { apply Forall_app. split; (eapply Forall_impl; [done|]); intros w; cbn [map snd];
        [rewrite list_elem_of_singleton; intros ->; by left|by right]. }
    cbn [fst snd] in *. destruct res2 as [|j|j]; [|destruct Hx as (a & Ha & Hdup); exists a; split; [by right|done]|done].
    destruct Hx as (Hb2 & Hs2 & Hd2). split; [|split].
    + apply Forall_cons. split; [|done]. apply built_one. rewrite apply_writes_app.
      apply (built_other [(i, c)] l); [|done|done]. intros c' Hc'. change (c' ∈ [c]) in Hc'. by apply list_elem_of_singleton in Hc' as ->.
    + by constructor.
    + intros a [->|Ha]%elem_of_cons; [done|by apply Hd2].
Qed.

(** ** The walk *)

(** The rows whose data keys are among the entries. *)
Definition past_of (pre : list entry) : gmap bytes record :=
  filter (fun p : bytes * record => RowFormat.build_data_key p.1 ∈ map fst pre) rows.

Lemma past_of_lookup pre pk r :
  past_of pre !! pk = Some r <-> rows !! pk = Some r /\ RowFormat.build_data_key pk ∈ map fst pre.
Proof. unfold past_of. by rewrite map_lookup_filter_Some. Qed.

Lemma past_of_skip pre e : RowFormat.is_data_key e.1 = false -> past_of (pre ++ [e]) = past_of pre.
Proof.
  intros He. apply map_eq_iff. intros pk. apply option_eq. intros r. rewrite !past_of_lookup, map_app, elem_of_app.
  split; intros [Hr Hin]; (split; [done|]); [|by left]. destruct Hin as [|Hin]; [done|].
  apply list_elem_of_singleton in Hin. by rewrite <- Hin in He.
Qed.

Lemma past_of_row (pre : list entry) (pk b : bytes) r :
  rows !! pk = Some r -> past_of (pre ++ [(RowFormat.build_data_key pk, b)]) = <[pk := r]> (past_of pre).
Proof.
  intros Hr. apply map_eq_iff. intros pk'. apply option_eq. intros r'. rewrite past_of_lookup, map_app, elem_of_app.
  rewrite lookup_insert_Some, past_of_lookup. split.
  - intros [Hr' Hin]. destruct (decide (pk = pk')) as [<-|Hne]; [left; split; [done|congruence]|right].
    split_and!; [done..|]. destruct Hin as [|Hin]; [done|]. apply list_elem_of_singleton in Hin. by apply data_key_inj in Hin.
  - intros [[<- <-]|(Hne & Hr' & Hin)]; (split; [done|]); [right; by left|by left].
Qed.

Lemma past_of_new (pre : list entry) (pk b : bytes) post :
  ascending (pre ++ (RowFormat.build_data_key pk, b) :: post) -> past_of pre !! pk = None.
Proof.
  intros Hs. apply eq_None_not_Some. intros [r Hr]. apply past_of_lookup in Hr as [_ ([k x] & Ek & Hin)%list_elem_of_fmap].
  apply ascending_app in Hs as (_ & _ & Hb). specialize (Hb (k, x) _ Hin ltac:(by left)). simpl in *. subst k.
  by apply bytes_lt_irrefl in Hb.
Qed.

Lemma past_of_all v L : data_rep sh stored rows v -> opened v (cf sh) None L -> past_of L = rows.
Proof.
  intros Hd (_ & _ & Ho). apply map_eq_iff. intros pk. apply option_eq. intros r. rewrite past_of_lookup.
  split; [by intros [? _]|]. intros Hr. split; [done|]. specialize (Hd pk). rewrite Hr in Hd.
  destruct (db_get (cf sh) (RowFormat.build_data_key pk) v) as [b|] eqn:Eb; [|done].
  apply list_elem_of_fmap. exists (RowFormat.build_data_key pk, b). split; [done|]. by apply Ho.
Qed.

Lemma duplicate_mono i past past' : past ⊆ past' -> duplicate i past -> duplicate i past'.
Proof.
  intros Hsub (Hk & Hu & pk & pk' & r & r' & Hne & Hr & Hr' & Hrest). split_and!; [done..|]. exists pk, pk', r, r'.
  split_and!; try apply Hrest; [done|..]; by eapply lookup_weaken.
Qed.

Lemma past_of_sub pre : past_of pre ⊆ rows.
Proof. apply map_filter_subseteq. Qed.

(** Only the new families have changed. *)
Definition kept v : Prop :=
  (forall c, c ∉ map snd adds -> v !! c = d !! c) /\ forall a, a ∈ adds -> is_Some (v !! a.2).

Lemma kept_writes v ws : kept v -> writes_to adds ws -> kept (apply_writes ws v).
Proof.
  intros [Hk Hf] Hw. split; [|intros a Ha; by apply apply_writes_family, Hf].
  intros c Hc. rewrite apply_writes_other; [by apply Hk|]. eapply Forall_impl; [exact Hw|]. intros w Hin E'. simpl in Hin. apply Hc.
  by rewrite <- E'.
Qed.

Lemma data_not_added : table_ok sh -> build_ok -> cf sh ∉ map snd adds.
Proof.
  intros (_ & _ & Hn) Hb ([i c] & Ec & Hin)%list_elem_of_fmap. simpl in Ec. apply (Hn i). rewrite Ec. by eapply family.
Qed.

Lemma kept_opened v L : table_ok sh -> build_ok -> kept v -> opened d (cf sh) None L -> opened v (cf sh) None L.
Proof.
  intros Hok Hb [Hk _] (Hs & Hg & Ha). pose proof (data_not_added Hok Hb) as Hn.
  assert (forall k, db_get (cf sh) k v = db_get (cf sh) k d) as E' by (intros k; unfold db_get; by rewrite Hk).
  split_and!; [done|intros k x; rewrite E'; apply Hg|intros k x; rewrite E'; apply Ha].
Qed.

(** What is true when the walk is between [pre] and [rest]. *)
Definition stands_at (L rest : list entry) (it : iter E) : Prop := walks it = L /\ here it = head rest.

Record reached (pre rest L : list entry) (seens : list (gset bytes)) (dc : store) ws : Prop := {
  split_at : L = pre ++ rest;
  base_kept : kept dc;
  own_writes : writes_to adds ws;
  so_far : built adds (past_of pre) (apply_writes ws dc);
  seen_so_far : Forall2 (fun a seen => seen_ok a.1 (past_of pre) seen) adds seens;
  no_duplicate : forall a, a ∈ adds -> ~ duplicate a.1 (past_of pre) }.

Definition result (failed : bool) (e : E) : Prop :=
  exists d', quiet_at d' e /\ kept d' /\ (failed = true <-> exists a, a ∈ adds /\ duplicate a.1 rows) /\
    (failed = false -> built adds rows d').

Lemma abort_spec t dc ws it :
  kept dc -> (exists a, a ∈ adds /\ duplicate a.1 rows) ->
  run (quiet_txn t dc ws) (inplace_abort_build (Some t) (Some it)) result.
Proof.
  intros Hk Hdup. unfold inplace_abort_build. eapply spec_bind; [by eapply spec_crash; [apply (q_free t dc ws)|]|]. intros ?.
  eapply spec_bind; [eapply spec_weaken; [apply (q_rollback t dc)|by intros e ?%quiet_txn_at|intros x e He; exact He|done]|].
  intros ?. apply spec_ret. intros e He. by exists dc.
Qed.

Lemma finish_spec t dc ws it L seens :
  data_rep sh stored rows d -> opened d (cf sh) None L -> reached L [] L seens dc ws ->
  run (quiet_txn t dc ws) (finish_build t it) result.
Proof.
  intros Hd Ho Hr. unfold finish_build. eapply spec_bind; [by eapply spec_crash; [apply (q_free t dc ws)|]|]. intros ?.
  eapply spec_bind; [by eapply spec_crash; [apply (q_commit t dc ws)|]|]. intros rc.
  apply (spec_pure _ (rc = TDB_SUCCESS)); [by intros e [? _]|]. intros ->. apply spec_ret. intros e [_ He].
  exists (apply_writes ws dc). pose proof (so_far _ _ _ _ _ _ Hr) as Hb. pose proof (no_duplicate _ _ _ _ _ _ Hr) as Hn.
  rewrite (past_of_all d L Hd Ho) in Hb, Hn. split; [done|]. split; [apply kept_writes; by destruct Hr|]. split; [|done].
  split; [done|]. intros (x & Hx & Hdup). by destruct (Hn x Hx).
Qed.

Lemma batch_spec t dc ws it L pre e post seens :
  table_ok sh -> build_ok -> opened d (cf sh) None L -> reached (pre ++ [e]) post L seens dc ws ->
  run (quiet_txn t dc ws) (inplace_batch_commit_reseek sh t it e.1)
    (fun b s => exists t' it', b = batch_go t' it' /\ quiet_txn t' (apply_writes ws dc) [] s /\
       stands_at L post it' /\ reached (pre ++ [e]) post L seens (apply_writes ws dc) []).
Proof.
  intros Hok Hb Ho Hr. set (v := apply_writes ws dc).
  assert (kept v) as Hkv by (apply kept_writes; by destruct Hr). pose proof (kept_opened v L Hok Hb Hkv Ho) as Hov.
  assert (L = pre ++ e :: post) as HL by (rewrite (split_at _ _ _ _ _ _ Hr), <- app_assoc; done).
  unfold inplace_batch_commit_reseek. eapply spec_bind; [by eapply spec_crash; [apply (q_commit t dc ws)|]|]. intros rc.
  apply (spec_pure _ (rc = TDB_SUCCESS)); [by intros s [? _]|]. intros ->. change (negb (tdb_ok TDB_SUCCESS)) with false.
  eapply spec_bind; [eapply spec_weaken; [apply (q_free_any t v)|by intros s [_ ?]|intros x s Hs; exact Hs|done]|]. intros ?.
  eapply spec_bind; [by eapply spec_crash; [apply (q_reset t v)|]|]. intros rrc.
  apply (spec_pure _ (rrc = TDB_SUCCESS)); [by intros s [? _]|]. intros ->. change (tdb_ok TDB_SUCCESS) with true.
  eapply spec_bind; [apply (spec_ret _ (fun o s => o = Some t /\ quiet_txn t v [] s)); by intros s [_ ?]|]. intros o.
  apply (spec_pure _ (o = Some t)); [by intros s [? _]|]. intros ->.
  eapply spec_bind; [eapply spec_weaken; [apply (q_iter_new t v [])|by intros s [_ ?]|intros x s Hs; exact Hs|done]|]. intros r.
  apply (spec_pure _ (exists it, r = inr it /\ opened v (cf sh) None (walks it))); [by intros s [_ ?]|]. intros (it1 & -> & Ho1).
  pose proof (opened_unique v (cf sh) _ _ Ho1 Hov) as W1. pose proof (proj1 Hov) as Hs. rewrite HL in Hs.
  eapply spec_bind; [eapply spec_weaken; [apply (q_move t v [] (Seek e.1) it1)|by intros s [? _]|intros x s Hx; exact Hx|done]|].
  intros it2. apply (spec_pure _ (walks it2 = L /\ here it2 = Some e)).
  { intros s (_ & Hw & Hh). rewrite Hw, Hh, W1 by done. split; [done|]. rewrite HL. by apply target_seek_at. }
  intros [W2 H2]. rewrite H2. rewrite bool_decide_false by done.
  eapply spec_bind; [eapply spec_weaken; [apply (q_move t v [] Next it2)|by intros s [? _]|intros x s Hx; exact Hx|done]|].
  intros it3. apply spec_ret. intros s (Hq & Hw & Hh). exists t, it3. split; [done|]. split; [done|].
  split; [split; [by rewrite Hw|rewrite Hh by (rewrite H2; by eexists); rewrite W2, H2, HL; by apply target_next]|].
  constructor; try (by destruct Hr). by constructor.
Qed.

(** The walk goes on to the next entry. *)
Lemma next_spec t dc ws it L pre e post :
  L = pre ++ e :: post -> ascending L -> stands_at L (e :: post) it ->
  run (quiet_txn t dc ws) (iter_move Next it) (fun it' s => stands_at L post it' /\ quiet_txn t dc ws s).
Proof.
  intros HL Hs [Hw Hh]. eapply spec_weaken; [apply (q_move t dc ws Next it)|done| |done].
  intros it' s (Hq & Hw' & Hh'). split; [|done]. split; [congruence|]. rewrite Hh' by (rewrite Hh; by eexists).
  rewrite Hw, Hh, HL. rewrite HL in Hs. by apply target_next.
Qed.

(** A key of another namespace adds nothing. *)
Lemma reached_skip pre e post L seens dc ws :
  RowFormat.is_data_key e.1 = false -> reached pre (e :: post) L seens dc ws -> reached (pre ++ [e]) post L seens dc ws.
Proof.
  intros He []. constructor; rewrite ?past_of_skip; try done. by rewrite <- app_assoc.
Qed.

(** An entry of the data namespace is a row's. *)
Lemma data_entry v k b :
  data_rep sh stored rows v -> db_get (cf sh) k v = Some b -> RowFormat.is_data_key k = true ->
  exists pk r, k = RowFormat.build_data_key pk /\ rows !! pk = Some r /\ stored r b.
Proof.
  intros Hd Hk [pk ->]%RowFormat.is_data_key_inv. specialize (Hd pk). rewrite Hk in Hd. destruct (rows !! pk) as [r|] eqn:Er; [|done].
  by exists pk, r.
Qed.

Lemma families_distinct : table_ok sh -> build_ok -> NoDup (map snd adds).
Proof.
  intros (_ & Hinj & _) Hb. pose proof (distinct Hb) as Hd.
  assert (forall i c, (i, c) ∈ adds -> secondary sh i = Some c) as Hf by (intros i c Hi; by eapply family).
  clear Hb. induction adds as [|[i c] l IH]; [constructor|]. apply NoDup_cons in Hd as [Hi Hd]. apply NoDup_cons. split.
  - intros ([j c'] & Ec & Hj)%list_elem_of_fmap. simpl in Ec. subst c'. apply Hi, list_elem_of_fmap. exists (j, c).
    split; [|done]. simpl. apply (Hinj i j c); apply Hf; [by left|by right].
  - apply IH; [done|]. intros j c' Hj. apply Hf. by right.
Qed.

(** One row of the walk: a duplicate is one of the table, and otherwise the new entries are the row's. *)
Lemma row_spec t dc ws (pre : list entry) pk r (b : bytes) post L seens buf :
  table_ok sh -> build_ok -> rows_ok sh fields rows -> ascending L -> rows !! pk = Some r -> stored r b ->
  reached pre ((RowFormat.build_data_key pk, b) :: post) L seens dc ws ->
  run (quiet_txn t dc ws) (inplace_add_row_entries sh adds (RowFormat.build_data_key pk) b t seens buf)
    (fun x s => exists ws', quiet_txn t dc ws' s /\
       match x.1.1 with
       | row_done => reached (pre ++ [(RowFormat.build_data_key pk, b)]) post L x.1.2 dc ws'
       | _ => exists a, a ∈ adds /\ duplicate a.1 rows
       end).
Proof.
  intros Hok Hb Hrows Hs Hr Hst H. pose proof H as [HL [Hk Hf] Hw Hh Hseen Hdup].
  assert (past_of pre !! pk = None) as Hn by (apply (past_of_new pre pk b post); rewrite HL in Hs; exact Hs).
  unfold inplace_add_row_entries. eapply spec_bind; [apply (ScanSpec.deserialize_law dc ws t r b buf Hst)|]. intros buf'.
  apply (spec_pure _ (ScanSpec.shows r buf')); [by intros s [_ ?]|]. intros Hshow.
  change (drop (Z.to_nat RowFormat.KEY_NAMESPACE_LEN) (RowFormat.build_data_key pk)) with pk.
  eapply spec_bind.
  { eapply spec_pre; [|intros s [Hq _]; exact Hq].
    apply (add_entries_spec t dc (past_of pre) pk r buf' adds Hok Hb); [done|by apply families_distinct| | |..]; try done.
    - intros pk' r' [Hr' _]%past_of_lookup. by eapply rows_ok_good.
    - by eapply rows_ok_good.
    - intros [i c] Hi. by eapply columns_read.
    - intros a Ha. by apply apply_writes_family, Hf. }
  intros [prc seens']. apply spec_ret. intros s (ws' & Hq & Hw' & Hx). exists (ws ++ ws'). split; [done|].
  cbn [fst snd] in *. destruct prc; [|destruct Hx as (a & Ha & Hx); exists a; split; [done|]|done].
  - destruct Hx as (Hb' & Hs' & Hd'). constructor; rewrite ?(past_of_row pre pk b r Hr); try done.
    all: [> by rewrite <- app_assoc|by apply Forall_app|idtac..].
    intros a Ha Hd. by apply (Hdup a Ha), Hd'.
  - eapply duplicate_mono; [|exact Hx]. rewrite <- (past_of_row pre pk b r Hr). apply past_of_sub.
Qed.

Lemma loop_spec L :
  table_ok sh -> build_ok -> rows_ok sh fields rows -> data_rep sh stored rows d -> opened d (cf sh) None L ->
  (forall n, killed n = false) ->
  forall rest pre fuel t it seens dc ws n last buf, (length rest < fuel)%nat -> stands_at L rest it ->
  reached pre rest L seens dc ws ->
  run (quiet_txn t dc ws) (build_loop sh killed fuel adds t it seens n last buf) result.
Proof.
  intros Hok Hb Hrows Hd Ho Hkill. induction rest as [|[k b] rest IH]; intros pre fuel t it seens dc ws n last buf Hfuel Hst H;
    (destruct fuel as [|fuel]; [simpl in Hfuel; lia|]); cbn [build_loop]; pose proof Hst as [Hw Hh]; rewrite Hh; cbn [head].
  { pose proof (split_at _ _ _ _ _ _ H) as HL. rewrite app_nil_r in HL. subst pre. by eapply finish_spec. }
  pose proof (split_at _ _ _ _ _ _ H) as HL. pose proof Ho as (Hs & Hget & _). simpl in Hfuel.
  assert (db_get (cf sh) k d = Some b) as Hkb by (apply Hget; rewrite HL; apply elem_of_app; right; by left).
  eapply spec_bind; [by eapply spec_crash; [apply (q_read t dc ws it (k, b))|]|]. intros x.
  apply (spec_pure _ (x = inr (k, b))); [by intros s [_ ?]|]. intros ->.
  eapply (spec_pre _ (quiet_txn t dc ws)); [|by intros s [? _]].
  destruct (RowFormat.is_data_key k) eqn:Ek; cbn [negb].
  2:{ eapply spec_bind; [by apply (next_spec t dc ws it L pre (k, b) rest)|]. intros it'. q_fact Hst'.
      eapply spec_pre; [apply (IH (pre ++ [(k, b)])); [lia|done|by apply reached_skip]|by intros s [_ ?]]. }
  destruct (data_entry d k b Hd Hkb Ek) as (pk & r & -> & Hr & Hsr).
  rewrite (proj2 (Z.leb_le _ _)) by (by eapply short_keys).
  eapply spec_bind; [by apply (row_spec t dc ws pre pk r b rest L seens buf)|]. intros [[prc seens'] buf'].
  cbn [fst snd]. apply spec_ex. intros ws'. apply (spec_pure _ _ _ _ _ (fun _ Hs => proj2 Hs)). intros Hx.
  eapply (spec_pre _ (quiet_txn t dc ws')); [|by intros s [? _]].
  destruct prc; [rewrite bool_decide_true by done|apply abort_spec; by destruct H..]. cbn [negb].
  case_match; [rewrite Hkill|].
  - eapply spec_bind; [by apply (batch_spec t dc ws' it L pre (RowFormat.build_data_key pk, b) rest seens')|]. intros bt.
    apply spec_ex. intros t'. apply spec_ex. intros it'. q_fact Hbt. subst bt.
    eapply (spec_pre _ (fun s => (stands_at L rest it' /\ reached (pre ++ [(RowFormat.build_data_key pk, b)]) rest L seens' (apply_writes ws' dc) []) /\ quiet_txn t' (apply_writes ws' dc) [] s)); [|by intros s (_ & ? & ?)].
    q_fact Hs2. destruct Hs2 as [Hst2 H2]. eapply spec_pre; [eapply IH; [lia|done|exact H2]|by intros s [_ ?]].
  - eapply spec_bind; [by apply (next_spec t dc ws' it L pre (RowFormat.build_data_key pk, b) rest)|]. intros it'. q_fact Hst'.
    eapply spec_pre; [eapply IH; [lia|done|exact Hx]|by intros s [_ ?]].
Qed.

(** The altered table: the rows are the same and the regular indexes among the new ones are complete. *)
Definition now_covered (i : nat) : Prop := covered i \/ (kind_of sh i = regular /\ i ∈ map fst adds).

Lemma kept_rep v (cov : nat -> Prop) :
  table_ok sh -> build_ok -> kept v -> table_rep sh fields stored covered rows d ->
  (forall i, cov i -> covered i \/ i ∈ map fst adds) ->
  (forall i c, cov i -> (i, c) ∈ adds -> holds_entries c (ent i) rows v) -> table_rep sh fields stored cov rows v.
Proof.
  intros Hok Hb [Hk Hf] (Hrows & Hcf & Hd & Hfam & Hidx) Hcov Hnew. pose proof (data_not_added Hok Hb) as Hn.
  split; [done|]. split; [by rewrite Hk|]. split; [|split].
  - intros pk. specialize (Hd pk). unfold db_get in *. by rewrite Hk.
  - intros i c Hc. destruct (decide (c ∈ map snd adds)) as [(a & -> & Ha)%list_elem_of_fmap|Hc']; [by apply Hf|].
    rewrite Hk by done. by eapply Hfam.
  - intros i c Hi Hc Hci. rewrite decide_False by apply not_elem_of_nil.
    destruct (decide (i ∈ map fst adds)) as [([j c'] & Ej & Ha)%list_elem_of_fmap|Hni].
    + simpl in Ej. subst j. destruct (family Hb i c' Ha) as [_ Hc']. assert (c' = c) as -> by congruence. by apply Hnew.
    + assert (covered i) as Hold by (by destruct (Hcov i Hci)).
      assert (c ∉ map snd adds) as Hc'.
      { intros ([j c'] & Ec & Ha)%list_elem_of_fmap. simpl in Ec. subst c'. destruct (family Hb j c Ha) as [_ Hj].
        destruct Hok as (_ & Hinj & _). assert (i = j) as -> by (by eapply Hinj). apply Hni, list_elem_of_fmap. by exists (j, c). }
      specialize (Hidx i c Hi Hc Hold). rewrite decide_False in Hidx by apply not_elem_of_nil.
      intros k x. unfold db_get. rewrite Hk by done. apply Hidx.
Qed.

(** The walk starts with empty families. *)
Lemma reached_start L :
  new_families -> reached [] L L (replicate (length adds) ∅) d [].
Proof.
  intros Hfresh. assert (past_of [] = ∅) as Ep.
  { apply map_empty. intros pk. apply eq_None_not_Some. intros [r [_ H]%past_of_lookup]. by apply not_elem_of_nil in H. }
  constructor; rewrite ?Ep; [done| |by constructor| | |].
  - split; [done|]. intros [i c] Ha. cbn [snd]. rewrite (proj1 (Hfresh i c Ha)). by eexists.
  - apply Forall_forall. intros [i c] Ha _ k x. unfold db_get. simpl. rewrite (proj1 (Hfresh i c Ha)). simpl. rewrite lookup_empty.
    split; [done|]. intros (pk & r & Hr & _). by rewrite lookup_empty in Hr.
  - apply Forall2_same_length_lookup_2; [by rewrite length_replicate|]. intros j a seen Ha [-> _]%lookup_replicate _ _ k.
    split; [by intros ?%not_elem_of_empty|]. intros (pk & r & Hr & _). by rewrite lookup_empty in Hr.
  - intros a Ha (_ & _ & pk & pk' & r & r' & _ & Hr & _). by rewrite lookup_empty in Hr.
Qed.

(** On a library that does not fail and with no kill, [inplace_alter_table] fails exactly when two rows
    share a key without nulls of a unique index it adds; it never changes what the table and its other
    indexes hold, and when it succeeds every regular index it adds holds exactly the entries of the rows,
    across the batches it commits on the way. *)
Lemma inplace_build_exact buf :
  table_ok sh -> build_ok -> new_families -> table_rep sh fields stored covered rows d -> (forall n, killed n = false) ->
  run (quiet_at d) (inplace_alter_table sh killed adds buf)
    (fun failed e => exists d', quiet_at d' e /\ kept d' /\ table_rep sh fields stored covered rows d' /\
       (failed = true <-> exists a, a ∈ adds /\ duplicate a.1 rows) /\
       (failed = false -> table_rep sh fields stored now_covered rows d')).
Proof.
  intros Hok Hb Hfresh Hrep Hkill. assert (run (quiet_at d) (inplace_alter_table sh killed adds buf) result) as Hmain.
  { unfold inplace_alter_table. destruct adds as [|a0 l] eqn:Ea.
    { assert (forall a, a ∉ adds) as Hno by (rewrite Ea; apply not_elem_of_nil). apply spec_ret. intros e He. exists d.
      split; [done|]. split; [by split; [|intros a Ha; by apply Hno in Ha]|]. split; [|intros _; unfold built; by rewrite Ea].
      split; [done|]. by intros (a & ?%Hno & _). }
    rewrite <- Ea. eapply spec_bind; [by eapply spec_crash; [apply (q_begin d)|]|]. intros r. apply spec_ex. intros t. q_fact Hr.
    subst r. eapply spec_bind; [eapply spec_weaken; [apply (q_iter_new t d [])|by intros s [_ ?]|intros x s Hs; exact Hs|done]|].
    intros r. apply (spec_pure _ (exists it, r = inr it /\ opened d (cf sh) None (walks it))); [by intros s [_ ?]|].
    intros (it & -> & Ho).
    eapply spec_bind; [eapply spec_weaken; [apply (q_move t d [] Seek_to_first it)|by intros s [? _]|intros x s Hx; exact Hx|done]|].
    intros it'. apply (spec_pure _ (stands_at (walks it) (walks it) it')).
    { intros s (_ & Hw & Hh). split; [done|]. rewrite Hh by done. by apply target_all. }
    intros Hst. unfold inplace_scan_and_build. rewrite (proj1 Hst). pose proof Hrep as (Hrows & _ & Hd & _).
    eapply spec_pre; [eapply (loop_spec (walks it)); try done; [lia|by apply reached_start]|by intros s [? _]]. }
  eapply spec_weaken; [exact Hmain|done| |done]. intros failed e (d' & Hq & Hk & Hf & Hbuilt). exists d'. split; [done|]. split; [done|].
  split; [|split; [done|]].
  - apply (kept_rep d' covered Hok Hb Hk Hrep); [by left|]. intros i c Hc Ha. by destruct (Hfresh i c Ha).
  - intros Hf0. apply (kept_rep d' now_covered Hok Hb Hk Hrep).
    + intros i [Hc|[_ Hi]]; [by left|by right].
    + intros i c [Hc|[Hr _]] Ha; [by destruct (Hfresh i c Ha)|]. specialize (Hbuilt Hf0). unfold built in Hbuilt.
      rewrite Forall_forall in Hbuilt. by apply (Hbuilt (i, c)).
Qed.

End Build.
End InplaceSpec.
