(* ===== verification/InplaceExample.v ===== *)
(** * Adding an index to a concrete table

    The table of [DmlExample] before its index on [a] is built, and the runs on which the build leaves
    rows out. *)
From S2P Require Import Prelude Effects TidesDb RowDb RowFormat FtsText Table KeyCodec Dml TableRep DmlSpec DmlExample Spatial CursorDb Quiet Scan ScanSpec ScanExample Counters Inplace InplaceSpec.
Import Table KeyCodec Dml TableRep DmlExample ScanExample Inplace InplaceSpec.
#[local] Open Scope Z_scope.
#[local] Open Scope tdb_scope.

Module InplaceExample.

#[local] Existing Instance KeyCodec.example_server.
#[local] Existing Instance FtsText.example_charset.
#[local] Abbreviation svc := (ex_services true).

(** The index on [a] is new; the full-text index is not. *)
Definition new_a : list added := [(1%nat, bs "a")].
Definition unbuilt (d : store) : store := <[bs "a" := ∅]> d.

Lemma ex_build_ok : build_ok (txn := unit) ex_table ex_stored (RO := ex_reader_ok) new_a rows78.
Proof.
  assert (forall i c, (i, c) ∈ new_a -> i = 1%nat /\ c = bs "a") as Hi
    by (intros i c H%list_elem_of_singleton; by simplify_eq).
  split.
  - repeat constructor. apply not_elem_of_nil.
  - intros i c [-> ->]%Hi. split; [vm_compute; lia|done].
  - intros i c [-> ->]%Hi _. by repeat constructor.
  - apply (map_Forall_to_list (fun pk _ => zlen (RowFormat.build_data_key pk) <= Scan.DATA_KEY_BUF_LEN)).
    vm_compute. repeat constructor; discriminate.
  - intros i c pk r buf [-> ->]%Hi [-> | ->]%Counters.rows78_cases [_ ->]; vm_compute; reflexivity.
Qed.

Definition alter (d : store) (fates : list fate) : mem_db * reply bool :=
  inplace_alter_table (RowReader0 := ex_reader) ex_table (fun _ => false) new_a r7 {| mem := d; buf := []; script := fates |}.

(** The keys of the index on [a]. *)
Definition index_a (d : store) : list bytes := map fst (sorted_entries (bs "a") d).

(** ** Departures *)

(** Elsewhere the build fails rather than leave a partial index, but a row whose read fails is passed
    over, and when the first seek fails the walk is over at once: the statement succeeds with an index
    that lacks a row, or all of them. *)
Lemma unread_rows_left_out :
  let run fates := let r := alter (unbuilt store78) fates in (length (index_a (mem r.1)), r.2) in
  run [] = (2%nat, Ret false) /\
  run [works; works; works; fails] = (1%nat, Ret false) /\
  run [works; works; fails] = (0%nat, Ret false).
Proof. split_and!; vm_compute; reflexivity. Qed.

(** The table as other statements have it until the ALTER commits: no index on [a]. *)
Definition old_table : share := {|
  codec := open_build_index_meta 4 true 0 [key_id; key_b];
  cf := bs "d"; idx_cfs := [None; Some (bs "f")]; idx_kind := [regular; fulltext]; nosame := [true; false];
  encrypted := false; ref_length := 4; has_next_number := true; triggers := false; table_name := (bs "db", bs "t");
  fts_opts := FtsText.example_opts |}.

Definition r9 : record := ex_row 9 3 99 100.

(** The build runs without a lock on the table and other statements write the index only once the
    ALTER has committed: a row inserted after the walk has passed is in the table and not in the new
    index. *)
Lemma concurrent_insert_unindexed :
  let built := mem (alter (unbuilt store78) []).1 in
  let h := write_row (RowServices0 := svc) old_table (ex_session []) junk9 r9 true (ex_handler built [] ex_bulk []) in
  let d := apply_writes (buf (lib h.1)) (mem (lib h.1)) in
  h.2 = Ret HA_OK /\ db_get (bs "d") (RowFormat.build_data_key (pk_at 9)) d = Some (ex_serialize r9) /\
  db_get (bs "a") (index_key ex_table 1 r9 ++ pk_at 9) d = None /\ index_a d = index_a built.
Proof. split_and!; vm_compute; reflexivity. Qed.

End InplaceExample.
