(* ===== verification/TableDdl.v ===== *)
(** * Statements that define tables ([ha_tidesdb_open.cc], [ha_tidesdb_lifecycle.cc], [ha_tidesdb_ddl.cc])

    [create], [rename_table], [truncate] and the phases of an in-place ALTER around the build of
    [Inplace]: what each does to the column families and, where it changes it, to the share.  A key is
    given with its name.  The configuration of a family and the release of iterators have no counterpart;
    [to_table_name] is the server's [filename_to_tablename]. *)
From S2P Require Import Prelude Effects TidesDb RowFormat CfName FkCatalog Lifecycle DdlLog DdlDeferred TableOptions Table KeyCodec TableMeta FtsText RowDb Dml Spatial CursorDb FkRows Counters Inplace.
Import Table KeyCodec Dml.
#[local] Open Scope Z_scope.
#[local] Open Scope tdb_scope.

Module TableDdl.

Definition HA_WRONG_CREATE_OPTION : Z := 140.

Abbreviation named_key := (bytes * KEY)%type.

Definition index_cf_name (table_cf key_name : bytes) : bytes := table_cf ++ Lifecycle.CF_INDEX_INFIX ++ key_name.

Section code.
Context {E T : Type} `{!TidesDb E T, !FamilyDb E T}.
Local Open Scope eff_scope.

(** A family's handle, by its name. *)
Definition handle (nm : bytes) : M E (option bytes) := b <-- get_cf nm; ret (if b then Some nm else None).

Definition resolve_idx_cf (table_cf key_name : bytes) : M E (option bytes * bytes) :=
  h <-- handle (index_cf_name table_cf key_name); ret (h, index_cf_name table_cf key_name).

(** ** CREATE TABLE *)

Definition create_index (cf_name : bytes) (k : named_key) : M E tdb_rc :=
  let idx_cf := index_cf_name cf_name k.1 in
  h <-- handle idx_cf;
  if bool_decide (is_Some h) then ret TDB_SUCCESS
  else
    rc <-- create_cf idx_cf;
    if negb (tdb_ok rc) then ret rc
    else d <-- handle cf_name; TableMeta.tdb_key_shape_store d k.1 k.2;; ret TDB_SUCCESS.

(** The loop over the keys; the primary key has no family. *)
Fixpoint create_indexes (cf_name : bytes) (primary_key : option nat) (i : nat) (keys : list named_key) : M E tdb_rc :=
  match keys with
  | [] => ret TDB_SUCCESS
  | k :: keys =>
      rc <-- (if bool_decide (primary_key = Some i) then ret TDB_SUCCESS else create_index cf_name k);
      if tdb_ok rc then create_indexes cf_name primary_key (S i) keys else ret rc
  end.

(** [create] up to the note of the created families; [options_ok] is the verdict on the statement's
    options and [persist_fks] the call of [fk_persist_defs]. *)
Definition create_families (name : bytes) (options_ok : bool) (opts : TableOptions.ha_table_option_struct)
    (primary_key : option nat) (keys : list named_key) (auto_increment_value : Z) (persist_fks : M E Z) : M E ha_code :=
  let cf_name := CfName.to_cf_name name in
  if negb options_ok then ret (HA_SERVER HA_WRONG_CREATE_OPTION)
  else
    h <-- handle cf_name;
    rc <-- (if bool_decide (is_Some h) then ret TDB_SUCCESS else create_cf cf_name);
    if negb (tdb_ok rc) then ret (tdb_rc_to_ha rc)
    else
      d <-- handle cf_name; TableMeta.tdb_table_options_store d (Some opts);;
      rc <-- create_indexes cf_name primary_key 0 keys;
      if negb (tdb_ok rc) then ret (tdb_rc_to_ha rc)
      else
        (if 1 <? auto_increment_value then d <-- handle cf_name; TableMeta.write_auto_inc_meta d auto_increment_value else ret tt);;
        frc <-- persist_fks;
        ret (server_code frc).

Definition create (thd : ptr) (name : bytes) (options_ok : bool) (opts : TableOptions.ha_table_option_struct)
    (primary_key : option nat) (keys : list named_key) (auto_increment_value : Z) (persist_fks : M E Z) :
    M (DdlDeferred.ddl E T) ha_code :=
  rc <-- DdlDeferred.on_db (create_families name options_ok opts primary_key keys auto_increment_value persist_fks);
  if bool_decide (rc = HA_OK) then DdlDeferred.tdb_ddl_note_created thd (Some name);; ret HA_OK else ret rc.

(** ** RENAME TABLE *)

Definition renamed_ok (rc : tdb_rc) : bool := match rc with TDB_SUCCESS | TDB_ERR_NOT_FOUND => true | _ => false end.

(** The loop over the families of the old name; a failed rename is only logged. *)
Fixpoint rename_indexes (old_cf new_cf : bytes) (names : list bytes) : M E unit :=
  match names with
  | [] => ret tt
  | nm :: names =>
      (if Lifecycle.starts_with (old_cf ++ Lifecycle.CF_INDEX_INFIX) nm then
         let new_idx := index_cf_name new_cf (drop (length (old_cf ++ Lifecycle.CF_INDEX_INFIX)) nm) in
         drop_cf new_idx;; rename_cf nm new_idx;; ret tt
       else ret tt);;
      rename_indexes old_cf new_cf names
  end.

Definition rename_table (to_table_name : bytes -> bytes) (from to : bytes) : M E ha_code :=
  let old_cf := CfName.to_cf_name from in
  let new_cf := CfName.to_cf_name to in
  drop_cf new_cf;;
  rc <-- rename_cf old_cf new_cf;
  if negb (renamed_ok rc) then ret (tdb_rc_to_ha rc)
  else
    names <-- list_cfs;
    rename_indexes old_cf new_cf (default [] names);;
    frc <-- FkCatalog.fk_rename_catalog to_table_name from to;
    ret (server_code frc).

(** ** TRUNCATE *)

(** The families of a table as its share has them: the data family and, per key, the family and its name. *)
Record families := { data : bytes; indexes : list (option bytes * bytes) }.

Definition empty_index (i : option bytes * bytes) : M E (option bytes * bytes) :=
  match i.1 with
  | None => ret i
  | Some _ =>
      drop_cf i.2;;
      rc <-- create_cf i.2;
      if negb (tdb_ok rc) then ret (None, i.2) else h <-- handle i.2; ret (h, i.2)
  end.

Fixpoint empty_indexes (l : list (option bytes * bytes)) : M E (list (option bytes * bytes)) :=
  match l with
  | [] => ret []
  | i :: l => i <-- empty_index i; l <-- empty_indexes l; ret (i :: l)
  end.

(** [delete_all_rows] once the statement's transaction is gone. *)
Definition empty_families (opts : TableOptions.ha_table_option_struct) (f : families) : M E (ha_code * families) :=
  rc <-- drop_cf (data f);
  if negb (renamed_ok rc) then ret (tdb_rc_to_ha rc, f)
  else
    rc <-- create_cf (data f);
    if negb (tdb_ok rc) then ret (tdb_rc_to_ha rc, f)
    else
      h <-- handle (data f);
      match h with
      | None => ret (HA_ERR_GENERIC, f)
      | Some c =>
          TableMeta.tdb_table_options_store (Some c) (Some opts);;
          l <-- empty_indexes (indexes f);
          ret (HA_OK, {| data := data f; indexes := l |})
      end.

#[local] Abbreviation hdl := (handler E T).

(** The handler lets go of its iterator and of the statement's transaction. *)
Definition let_go (h : hdl) : hdl :=
  {| lib := lib h; Dml.stmt_txn := None; stmt_txn_dirty := false; cached_trx_ := cached_trx_ h; scan_txn := scan_txn h;
     scan_iter := false; current_pk := current_pk h; dup_key_no_ := dup_key_no_ h; dup_ref := dup_ref h;
     mod_table_noted_generation_ := mod_table_noted_generation_ h; next_row_id := next_row_id h;
     auto_inc_val := auto_inc_val h; bulk_of := bulk_of h |}.

Definition trx_dropped (t : tidesdb_trx_t T) : tidesdb_trx_t T := set_meta [] false (set_dirty false (set_trx_txn None t)).

(** [ha_data] is the connection's transaction object, which the function asks the server for and leaves
    changed; the handler's own pointer, when it is set, points at the same object. *)
Definition delete_all_rows (ha_data : option (tidesdb_trx_t T)) (opts : TableOptions.ha_table_option_struct) (f : families) :
    M hdl (option (tidesdb_trx_t T) * (ha_code * families)) :=
  ha_data <-- match ha_data with
    | Some t =>
        match trx_txn t with
        | Some x => on_lib (txn_rollback x);; modify (map_trx trx_dropped);; ret (Some (trx_dropped t))
        | None => ret (Some t)
        end
    | None => ret None
    end;
  modify let_go;;
  r <-- on_lib (empty_families opts f);
  if bool_decide (r.1 = HA_OK) then
    h <-- gets id; modify (set_counters Counters.HIDDEN_PK_FIRST_ROW_ID (auto_inc_val h));; ret (ha_data, r)
  else ret (ha_data, r).

(** [reset_auto_increment(0)] stores nothing. *)
Definition truncate (ha_data : option (tidesdb_trx_t T)) (sh : share) (opts : TableOptions.ha_table_option_struct) (f : families) :
    M hdl (option (tidesdb_trx_t T) * (ha_code * families)) :=
  r <-- delete_all_rows ha_data opts f;
  if bool_decide (r.2.1 = HA_OK) then
    h <-- gets id;
    cs <-- on_lib (Counters.reset_auto_increment sh 0 {| Counters.row_id := next_row_id h; Counters.auto_inc := auto_inc_val h |});
    modify (set_counters (Counters.row_id cs) (Counters.auto_inc cs));; ret r
  else ret r.

(** ** The phases of an in-place ALTER *)

(** What the phases pass on. *)
Record inplace_ctx := { add_cfs : list bytes; add_cf_names : list bytes; add_key_nums : list nat; drop_cf_names : list bytes }.

(** A key of the altered table: its name, whether it is unique, and its parts. *)
Record altered_key := { ak_name : bytes; ak_nosame : bool; ak_key : KEY }.

(** One round of the loop over the added indexes: the context after it, or [None] for a failure. *)
Definition prepare_add (base_cf : bytes) (primary_key : option nat) (keys : list altered_key) (key_num : nat)
    (ctx : inplace_ctx) : M E (option inplace_ctx) :=
  match keys !! key_num with
  | None => ret None
  | Some k =>
      if ak_nosame k && bool_decide (primary_key = Some key_num) then ret (Some ctx)
      else
        let idx_cf := index_cf_name base_cf (ak_name k) in
        drop_cf idx_cf;;
        rc <-- create_cf idx_cf;
        if negb (tdb_ok rc) then ret None
        else
          h <-- handle idx_cf;
          match h with
          | None => ret None
          | Some icf =>
              d <-- handle base_cf; TableMeta.tdb_key_shape_store d (ak_name k) (ak_key k);;
              ret (Some {| add_cfs := add_cfs ctx ++ [icf]; add_cf_names := add_cf_names ctx ++ [idx_cf];
                           add_key_nums := add_key_nums ctx ++ [key_num]; drop_cf_names := drop_cf_names ctx |})
          end
  end.

(** The answer is whether a round failed, with the context as far as it was filled. *)
Fixpoint prepare_adds (base_cf : bytes) (primary_key : option nat) (keys : list altered_key) (adds : list nat)
    (ctx : inplace_ctx) : M E (bool * inplace_ctx) :=
  match adds with
  | [] => ret (false, ctx)
  | a :: adds =>
      r <-- prepare_add base_cf primary_key keys a ctx;
      match r with None => ret (true, ctx) | Some ctx => prepare_adds base_cf primary_key keys adds ctx end
  end.

(** The families of the dropped indexes, by their numbers in the old table. *)
Definition dropped_names (idx_cf_names : list bytes) (drops : list nat) : list bytes :=
  omap (fun i => match idx_cf_names !! i with Some nm => if bool_decide (nm = []) then None else Some nm | None => None end) drops.

Definition prepare_inplace_alter_table (options_ok : bool) (base_cf : bytes) (primary_key : option nat)
    (keys : list altered_key) (adds : list nat) (idx_cf_names : list bytes) (drops : list nat) : M E (bool * inplace_ctx) :=
  let ctx := {| add_cfs := []; add_cf_names := []; add_key_nums := []; drop_cf_names := [] |} in
  if negb options_ok then ret (true, ctx)
  else
    r <-- prepare_adds base_cf primary_key keys adds ctx;
    if r.1 then ret r
    else ret (false, {| add_cfs := add_cfs r.2; add_cf_names := add_cf_names r.2; add_key_nums := add_key_nums r.2;
                        drop_cf_names := drop_cf_names r.2 ++ dropped_names idx_cf_names drops |}).

(** The indexes [Inplace.inplace_alter_table] builds. *)
Definition to_build (ctx : inplace_ctx) : list Inplace.added := zip (add_key_nums ctx) (add_cfs ctx).

(** The families of a table's keys, as [open] and the commit of an ALTER look them up. *)
Fixpoint index_families (base_cf : bytes) (primary_key : option nat) (i : nat) (key_names : list bytes) :
    M E (list (option bytes * bytes)) :=
  match key_names with
  | [] => ret []
  | k :: ks =>
      f <-- (if bool_decide (primary_key = Some i) then ret (None, []) else resolve_idx_cf base_cf k);
      fs <-- index_families base_cf primary_key (S i) ks;
      ret (f :: fs)
  end.

(** The share's index metadata: the families, how many there are, and what the key codec reads. *)
Record index_meta := { meta_families : list (option bytes * bytes); num_secondary_indexes : Z; meta_codec : TidesDB_share }.

Definition commit_rebuild_index_meta (base_cf : bytes) (fields : nat) (primary_key : option nat) (keys : list altered_key) : M E index_meta :=
  fs <-- index_families base_cf primary_key 0 (map ak_name keys);
  ret {| meta_families := fs; num_secondary_indexes := zlen (List.filter (fun f => bool_decide (is_Some f.1)) fs);
         meta_codec := open_build_index_meta fields (bool_decide (is_Some primary_key)) (default MAX_KEY primary_key) (map ak_key keys) |}.

(** [None] is a share left as it was. *)
Definition commit_inplace_alter_table (ctx : option inplace_ctx) (commit : bool) (base_cf : bytes) (fields : nat)
    (primary_key : option nat) (keys : list altered_key) : M E (option index_meta) :=
  match ctx with
  | None => ret None
  | Some ctx =>
      if negb commit then Lifecycle.drop_each (add_cf_names ctx);; ret None
      else
        Lifecycle.drop_each (drop_cf_names ctx);;
        m <-- commit_rebuild_index_meta base_cf fields primary_key keys;
        ret (Some m)
  end.

(** ** The options an ALTER changes *)

Definition tdb_isolation_map : list tidesdb_isolation_level_t :=
  [TDB_ISOLATION_READ_UNCOMMITTED; TDB_ISOLATION_READ_COMMITTED; TDB_ISOLATION_REPEATABLE_READ; TDB_ISOLATION_SNAPSHOT;
   TDB_ISOLATION_SERIALIZABLE].

(** What the share keeps of a table's options. *)
Record share_options := {
  so_options : TableOptions.ha_table_option_struct; so_isolation : tidesdb_isolation_level_t; so_default_ttl : Z; so_ttl_field_idx : Z;
  so_has_ttl : bool; so_encrypted : bool; so_encryption_key_id : Z }.

(** The counter is raised and the options are taken over and recorded; the library's reconfiguration of
    the families has no counterpart. *)
Definition commit_apply_runtime_config (data_cf : option bytes) (auto_increment_value : option Z)
    (a_opts : option TableOptions.ha_table_option_struct) (cs : Counters.counters) (o : share_options) :
    M E (Counters.counters * share_options) :=
  cs <-- match auto_increment_value with
         | Some n =>
             if 1 <? n then
               TableMeta.write_auto_inc_meta data_cf n;;
               ret (if Counters.auto_inc cs <? n - 1 then Counters.set_auto_inc (n - 1) cs else cs)
             else ret cs
         | None => ret cs
         end;
  match a_opts with
  | None => ret (cs, o)
  | Some a =>
      TableMeta.tdb_table_options_store data_cf (Some a);;
      ret (cs, {|
        so_options := a;
        so_isolation := default (so_isolation o) (tdb_isolation_map !! Z.to_nat (TableOptions.isolation_level a));
        so_default_ttl := TableOptions.ttl a;
        so_ttl_field_idx := so_ttl_field_idx o;
        so_has_ttl := (0 <? TableOptions.ttl a) || (0 <=? so_ttl_field_idx o);
        so_encrypted := TableOptions.encrypted a;
        so_encryption_key_id := if TableOptions.encrypted a then TableOptions.encryption_key_id a else so_encryption_key_id o |})
  end.

End code.
End TableDdl.
