(* ===== verification/TableDdlSpec.v ===== *)
(** * What the statements that define tables leave behind

    On a library that does not fail: a created table is an empty table, a truncated table is the same
    table without its rows, a renamed table has its families under the new name, and the index metadata
    after an ALTER is what opening the altered table gives. *)
From S2P Require Import Prelude Effects TidesDb RowFormat CfName FkCatalog Lifecycle TableOptions Table KeyCodec TableMeta FtsText RowDb Dml TableRep Spatial CursorDb Quiet FkRows Counters Inplace TableDdl.
Import Table KeyCodec Dml TableRep TableDdl.
#[local] Open Scope Z_scope.
#[local] Open Scope tdb_scope.

Module TableDdlSpec.

Section Families.
Context {E T : Type} `{!TidesDb E T, !FamilyDb E T, !QuietDb E T, !QuietFamilies E T}.
Local Open Scope eff_scope.

#[local] Abbreviation run P m Q := (spec P m Q (fun _ => True)).
#[local] Abbreviation at_ := Lifecycle.at_store.
Implicit Types (d : store) (nm cf_name : bytes).

(** ** Calls of a library that does not fail *)

Lemma create_quiet d nm :
  d !! nm = None -> run (at_ d) (create_cf nm) (fun rc e => rc = TDB_SUCCESS /\ at_ (<[nm := ∅]> d) e).
Proof.
  intros Hn. eapply spec_weaken; [apply (spec_conj _ _ _ _ _ _ _ (quiet_create_cf nm) (create_cf_law d nm))| | |done].
  - intros e [Hq Hd]. by rewrite Hd.
  - intros rc e [[Hq ->] Hd]. by rewrite Hn in Hd.
Qed.

Lemma drop_quiet d nm : run (at_ d) (drop_cf nm) (fun rc e => renamed_ok rc = true /\ at_ (delete nm d) e).
Proof.
  eapply spec_weaken; [apply (Lifecycle.drop_cf_quiet d nm)|done| |done]. intros rc e [[-> | ->] He]; done.
Qed.

Lemma handle_quiet d nm :
  run (at_ d) (handle nm) (fun h e => h = (if decide (is_Some (d !! nm)) then Some nm else None) /\ at_ d e).
Proof.
  unfold handle. eapply spec_bind.
  - eapply spec_weaken; [apply (spec_conj _ _ _ _ _ _ _ (quiet_get_cf nm) (get_cf_law d nm))|done|intros b e H; exact H|done].
  - intros b. apply spec_ret. intros e [Hq [Hd ->]]. split; [|done]. by case_decide; [rewrite bool_decide_true|rewrite bool_decide_false].
Qed.

Lemma meta_put_quiet d c k x :
  run (at_ d) (TableMeta.put_alone c k x) (fun _ e => at_ (apply_write (W_put c k x) d) e).
Proof. eapply spec_weaken; [apply (TableMeta.put_alone_quiet d c k x)|by intros e [? ?]|by intros ? e [? ?]|done]. Qed.

(** ** A new table *)

(** The records a family holds beside rows. *)
Definition only_meta (m : gmap bytes bytes) : Prop := forall k x, m !! k = Some x -> exists k', k = RowFormat.KEY_NS_META :: k'.

(** The families [made] exist and are empty, the data family holds no row, and the others are as in [d0]. *)
Record growing (cf_name : bytes) d0 (made : list bytes) d : Prop := {
  data_made : exists m, d !! cf_name = Some m /\ only_meta m;
  index_made : forall nm, nm ∈ made -> d !! nm = Some ∅;
  others_kept : forall nm, nm <> cf_name -> nm ∉ made -> d !! nm = d0 !! nm }.

Lemma growing_put cf_name d0 made d k x :
  cf_name ∉ made -> growing cf_name d0 made d ->
  growing cf_name d0 made (apply_write (W_put cf_name (RowFormat.KEY_NS_META :: k) x) d).
Proof.
  intros Hn [(m & Hm & Ho) Hi Hk]. cbn [apply_write]. split.
  - exists (<[RowFormat.KEY_NS_META :: k := x]> m). rewrite lookup_alter_eq, Hm. split; [done|].
    intros k0 x0 [[<- _]|[_ H]]%lookup_insert_Some; [by eexists|by eapply Ho].
  - intros nm Hin. rewrite lookup_alter_ne by (intros <-; done). by apply Hi.
  - intros nm Hne Hin. rewrite lookup_alter_ne by done. by apply Hk.
Qed.

Lemma growing_create cf_name d0 made d nm :
  nm <> cf_name -> growing cf_name d0 made d -> growing cf_name d0 (made ++ [nm]) (<[nm := ∅]> d).
Proof.
  intros Hne [(m & Hm & Ho) Hi Hk]. split.
  - exists m. by rewrite lookup_insert_ne.
  - intros nm' [Hin|Hin%list_elem_of_singleton]%elem_of_app; [|subst nm'; apply lookup_insert_eq].
    destruct (decide (nm = nm')) as [<-|]; [apply lookup_insert_eq|]. rewrite lookup_insert_ne by done. by apply Hi.
  - intros nm' Hne' Hin. rewrite elem_of_app, list_elem_of_singleton in Hin. rewrite lookup_insert_ne by (intros <-; tauto). apply Hk; tauto.
Qed.

Lemma index_name_ne cf_name k : index_cf_name cf_name k <> cf_name.
Proof.
  unfold index_cf_name. intros H%(f_equal length). rewrite !length_app in H. assert (0 < length Lifecycle.CF_INDEX_INFIX)%nat by (vm_compute; lia).
  lia.
Qed.

Lemma index_name_inj cf_name k k' : index_cf_name cf_name k = index_cf_name cf_name k' -> k = k'.
Proof. unfold index_cf_name. by intros H%app_inv_head%app_inv_head. Qed.

Lemma handle_made cf_name d0 made d : growing cf_name d0 made d -> (if decide (is_Some (d !! cf_name)) then Some cf_name else None) = Some cf_name.
Proof. intros [(m & Hm & _) _ _]. rewrite decide_True; [done|]. by rewrite Hm. Qed.

Lemma create_index_spec cf_name d0 made d k :
  growing cf_name d0 made d -> index_cf_name cf_name k.1 ∉ made -> d0 !! index_cf_name cf_name k.1 = None -> cf_name ∉ made ->
  run (at_ d) (create_index cf_name k)
    (fun rc e => rc = TDB_SUCCESS /\ exists d', at_ d' e /\ growing cf_name d0 (made ++ [index_cf_name cf_name k.1]) d').
Proof.
  intros Hg Hn H0 Hcf. unfold create_index. set (nm := index_cf_name cf_name k.1) in *.
  assert (nm <> cf_name) as Hne by apply index_name_ne.
  eapply spec_bind; [apply (handle_quiet d nm)|]. intros h. q_fact Hh. rewrite (others_kept _ _ _ _ Hg nm Hne Hn), H0, decide_False in Hh by (by intros [? ?]).
  subst h. rewrite bool_decide_false by (by intros [? ?]).
  eapply spec_bind; [eapply spec_pre; [apply (create_quiet d nm); by rewrite (others_kept _ _ _ _ Hg nm Hne Hn)|by intros e [_ ?]]|]. intros rc. q_fact Hrc. subst rc. cbn [tdb_ok negb].
  change (negb (tdb_ok TDB_SUCCESS)) with false. cbn iota.
  pose proof (growing_create cf_name d0 made d nm Hne Hg) as Hg'.
  eapply spec_bind; [eapply spec_pre; [apply (handle_quiet (<[nm := ∅]> d) cf_name)|by intros e [_ ?]]|]. intros h. q_fact Hh.
  rewrite (handle_made _ _ _ _ Hg') in Hh. subst h. unfold TableMeta.tdb_key_shape_store.
  assert (cf_name ∉ made ++ [nm]) as Hcf' by (rewrite elem_of_app, list_elem_of_singleton; intros [?|?]; [done|congruence]).
  case_bool_decide.
  - eapply spec_bind; [apply (spec_ret _ (fun _ => at_ (<[nm := ∅]> d))); by intros e [_ ?]|]. intros ?.
    apply spec_ret. intros e He. split; [done|]. by eexists.
  - eapply spec_bind; [eapply spec_pre; [apply meta_put_quiet|by intros e [_ ?]]|]. intros ?.
    apply spec_ret. intros e He. split; [done|]. eexists. split; [exact He|]. by apply growing_put.
Qed.

(** The families of the keys that have one. *)
Fixpoint index_names (cf_name : bytes) (pk : option nat) (i : nat) (names : list bytes) : list bytes :=
  match names with
  | [] => []
  | k :: ks => (if decide (pk = Some i) then [] else [index_cf_name cf_name k]) ++ index_names cf_name pk (S i) ks
  end.

Lemma elem_of_index_names cf_name pk i names nm :
  nm ∈ index_names cf_name pk i names <-> exists j k, names !! j = Some k /\ pk <> Some (i + j)%nat /\ nm = index_cf_name cf_name k.
Proof.
  revert i. induction names as [|k ks IH]; intros i; cbn [index_names].
  - split; [by intros ?%not_elem_of_nil|]. intros (j & k & Hj & _). by rewrite lookup_nil in Hj.
  - rewrite elem_of_app, IH. split.
    + intros [Hin|(j & k' & Hj & Hp & ->)].
      * case_decide as Hp; [by apply not_elem_of_nil in Hin|]. apply list_elem_of_singleton in Hin as ->. exists 0%nat, k.
        by rewrite Nat.add_0_r.
      * exists (S j), k'. by rewrite <- Nat.add_succ_comm.
    + intros ([|j] & k' & Hj & Hp & ->).
      * left. simpl in Hj. injection Hj as ->. rewrite Nat.add_0_r in Hp. rewrite decide_False by done. by left.
      * right. exists j, k'. by rewrite Nat.add_succ_comm.
Qed.

Lemma index_names_fresh cf_name pk i names : NoDup names -> NoDup (index_names cf_name pk i names).
Proof.
  intros Hd. revert i. induction Hd as [|k ks Hk Hd IH]; intros i; cbn [index_names]; [constructor|].
  case_decide; [apply IH|]. apply NoDup_cons. split; [|apply IH].
  intros (j & k' & Hj & _ & E')%elem_of_index_names. apply index_name_inj in E' as ->. by apply Hk, (list_elem_of_lookup_2 _ j).
Qed.

Lemma create_indexes_spec cf_name pk d0 keys : forall i made d,
  growing cf_name d0 made d -> cf_name ∉ made -> NoDup (made ++ index_names cf_name pk i (map fst keys)) ->
  (forall nm, nm ∈ index_names cf_name pk i (map fst keys) -> d0 !! nm = None) ->
  run (at_ d) (create_indexes cf_name pk i keys)
    (fun rc e => rc = TDB_SUCCESS /\ exists d', at_ d' e /\ growing cf_name d0 (made ++ index_names cf_name pk i (map fst keys)) d').
Proof.
  induction keys as [|k keys IH]; intros i made d Hg Hcf Hnd Hnew; cbn [create_indexes map index_names] in *.
  { rewrite app_nil_r. apply spec_ret. intros e He. split; [done|]. by eexists. }
  destruct (decide (pk = Some i)) as [Hp|Hp].
  - rewrite bool_decide_true by done. eapply spec_bind; [apply (spec_ret _ (fun rc e => rc = TDB_SUCCESS /\ at_ d e)); by intros e He|].
    intros rc. q_fact Hrc. subst rc. eapply spec_pre; [by apply (IH (S i) made d)|by intros e [_ ?]].
  - rewrite bool_decide_false by done. cbn [app] in *. set (nm := index_cf_name cf_name k.1) in *.
    eapply spec_bind; [apply (create_index_spec cf_name d0 made d k Hg); try done|].
    + intros Hin. apply NoDup_app in Hnd as (_ & Hdis & _). apply (Hdis nm Hin). by left.
    + apply Hnew. by left.
    + intros rc. q_fact Hrc. subst rc. eapply (spec_pre _ _); [|intros e [_ He]; exact He]. apply spec_ex. intros d1.
      apply (spec_pure _ _ _ _ _ (fun _ Hs => proj2 Hs)). intros Hg1. eapply spec_weaken; [apply (IH (S i) (made ++ [nm]) d1 Hg1)|by intros e [? _]| |done].
      * rewrite elem_of_app, list_elem_of_singleton. intros [?|E']; [done|]. by apply (index_name_ne cf_name k.1).
      * by rewrite <- app_assoc.
      * intros nm' Hin. apply Hnew. by right.
      * intros rc e. by rewrite <- app_assoc.
Qed.

Lemma index_families_spec d cf_name pk names : forall i,
  run (at_ d) (index_families cf_name pk i names)
    (fun fs e => at_ d e /\ fs = imap (fun j k =>
       if decide (pk = Some (i + j)%nat) then (None, [])
       else (if decide (is_Some (d !! index_cf_name cf_name k)) then Some (index_cf_name cf_name k) else None,
             index_cf_name cf_name k)) names).
Proof.
  induction names as [|k ks IH]; intros i; cbn [index_families imap]; [by apply spec_ret|].
  eapply (spec_bind _ _ (fun f e => f = (if decide (pk = Some (i + 0)%nat) then (None, [])
    else (if decide (is_Some (d !! index_cf_name cf_name k)) then Some (index_cf_name cf_name k) else None,
          index_cf_name cf_name k)) /\ at_ d e)).
  - rewrite Nat.add_0_r. case_decide as Hp; [rewrite bool_decide_true by done; by apply spec_ret|].
    rewrite bool_decide_false by done. unfold resolve_idx_cf. eapply spec_bind; [apply handle_quiet|]. intros h.
    apply spec_ret. by intros e [-> He].
  - intros f. q_fact Hf. subst f. eapply spec_bind; [eapply spec_pre; [apply (IH (S i))|by intros e [_ ?]]|]. intros fs.
    apply spec_ret. intros e [He ->]. split; [done|]. f_equal. apply imap_ext. intros j k' _. simpl. by rewrite Nat.add_succ_r.
Qed.

(** *** The foreign keys of the statement *)

(** A constraint whose columns no key of the table leads with, or only a descending one. *)
Definition spec_refused (info : FkRows.table_info) (sp : FkRows.tdb_fk_spec) : bool :=
  let cidx := FkCatalog.fk_find_covering_index (FkRows.names info) (FkRows.spec_child_columns sp) in
  (cidx <? 0) || existsb reverse_sort (take (length (FkRows.spec_child_columns sp))
    (key_part (key_at (FkRows.keys info) (Z.to_nat cidx)))).

Lemma shape_load_quiet d c nm : run (at_ d) (TableMeta.tdb_key_shape_load c nm) (fun _ => at_ d).
Proof.
  unfold TableMeta.tdb_key_shape_load. destruct c as [c|]; [|by apply spec_ret]. case_bool_decide; [by apply spec_ret|].
  eapply spec_bind; [eapply spec_weaken; [apply (TableMeta.get_alone_quiet d c)|by intros e [? ?]|intros v e Hx; exact Hx|done]|].
  intros v. apply spec_ret. by intros e (_ & ? & ?).
Qed.

Lemma entry_of_spec_quiet path db table info anon sp d :
  run (at_ d) (FkRows.entry_of_spec path db table info anon sp)
    (fun r e => at_ d e /\ if spec_refused info sp then r = inl FkRows.HA_ERR_UNSUPPORTED else exists x, r = inr x).
Proof.
  unfold FkRows.entry_of_spec, spec_refused. cbv zeta.
  destruct (FkCatalog.fk_find_covering_index _ _ <? 0); [by apply spec_ret|]. cbn [orb].
  destruct (existsb reverse_sort _); [by apply spec_ret|].
  eapply (spec_bind _ _ (fun _ => at_ d)); [|intros shape; apply spec_ret; intros e He; split; [done|by eexists]].
  destruct (_ || _); [by apply spec_ret|]. unfold FkRows.tdb_fk_parent_key_shape. destruct (_ || _); [by apply spec_ret|].
  eapply (spec_bind _ _ (fun _ => at_ d)).
  - eapply spec_weaken; [apply (FkCatalog.get_cf_quiet d)|by intros e [? ?]|by intros b e (_ & ? & ?)|done].
  - intros b. destruct b; cbn [negb]; [|by apply spec_ret]. eapply spec_bind; [apply shape_load_quiet|]. intros r. by apply spec_ret.
Qed.

Lemma entries_of_specs_quiet path db table info d specs : forall anon,
  run (at_ d) (FkRows.entries_of_specs path db table info anon specs)
    (fun r e => at_ d e /\ if existsb (spec_refused info) specs then r = inl FkRows.HA_ERR_UNSUPPORTED else exists l, r = inr l).
Proof.
  induction specs as [|sp specs IH]; intros anon; cbn [FkRows.entries_of_specs existsb].
  { apply spec_ret. intros e He. split; [done|by eexists]. }
  eapply spec_bind; [apply entry_of_spec_quiet|]. intros r. destruct (spec_refused info sp); cbn [orb].
  - apply (spec_pure _ _ _ _ _ (fun _ Hs => proj2 Hs)). intros ->. apply spec_ret. by intros e [? _].
  - apply (spec_pure _ _ _ _ _ (fun _ Hs => proj2 Hs)). intros [[x anon'] ->].
    eapply spec_bind; [eapply spec_pre; [apply (IH anon')|by intros e [? _]]|]. intros r. apply spec_ret. intros e [He Hr]. split; [done|].
    destruct (existsb _ _); [by subst r|]. destruct Hr as [l ->]. by eexists.
Qed.

(** The constraints of a statement go to the catalog and nowhere else. *)
Lemma fk_persist_defs_quiet path db table info specs d :
  run (at_ d) (FkRows.fk_persist_defs path db table info specs)
    (fun r e => r = (if existsb (spec_refused info) specs then FkRows.HA_ERR_UNSUPPORTED else 0) /\
       exists d', at_ d' e /\ FkCatalog.others_same FkCatalog.FK_CATALOG_CF d d').
Proof.
  unfold FkRows.fk_persist_defs. destruct specs as [|sp specs]; [apply spec_ret; intros e He; split; [done|by exists d]|].
  eapply spec_bind; [apply entries_of_specs_quiet|]. intros r. apply (spec_pure _ _ _ _ _ (fun _ Hs => proj2 Hs)).
  destruct (existsb _ _).
  - intros ->. apply spec_ret. intros e [He _]. split; [done|by exists d].
  - intros [l ->]. eapply spec_weaken; [apply (FkCatalog.fk_persist_frame d l)|by intros e [[? ?] _]| |done].
    intros r e (-> & Hq & Ho). split; [done|]. by exists (committed e).
Qed.

(** The new families stand while the catalog, which is none of them, changes. *)
Lemma growing_catalog cf_name d0 made d d' :
  cf_name <> FkCatalog.FK_CATALOG_CF -> FkCatalog.FK_CATALOG_CF ∉ made -> growing cf_name d0 made d ->
  FkCatalog.others_same FkCatalog.FK_CATALOG_CF d d' ->
  growing cf_name (match d' !! FkCatalog.FK_CATALOG_CF with
                   | Some m => <[FkCatalog.FK_CATALOG_CF := m]> d0
                   | None => delete FkCatalog.FK_CATALOG_CF d0
                   end) made d'.
Proof.
  intros Hc Hm [(m & Hd & Ho) Hi Hk] Hs. split.
  - exists m. by rewrite (Hs cf_name Hc).
  - intros nm Hin. rewrite Hs; [by apply Hi|]. by intros ->.
  - intros nm Hne Hin. destruct (decide (nm = FkCatalog.FK_CATALOG_CF)) as [->|Hnm].
    + destruct (d' !! FkCatalog.FK_CATALOG_CF) eqn:El; [by rewrite lookup_insert_eq|by rewrite lookup_delete_eq].
    + rewrite Hs by done. rewrite (Hk nm Hne Hin). by destruct (d' !! FkCatalog.FK_CATALOG_CF); [rewrite lookup_insert_ne|rewrite lookup_delete_ne].
Qed.

Lemma create_families_spec name opts pk keys auto_inc db table info specs d :
  let cf_name := CfName.to_cf_name name in
  d !! cf_name = None -> (forall k, k ∈ keys -> d !! index_cf_name cf_name k.1 = None) -> NoDup (map fst keys) ->
  run (at_ d) (create_families name true opts pk keys auto_inc (FkRows.fk_persist_defs name db table info specs))
    (fun rc e => rc = (if existsb (spec_refused info) specs then server_code FkRows.HA_ERR_UNSUPPORTED else HA_OK) /\
       exists d1 d', at_ d' e /\ growing cf_name d (index_names cf_name pk 0 (map fst keys)) d1 /\
         FkCatalog.others_same FkCatalog.FK_CATALOG_CF d1 d').
Proof.
  intros cf_name Hcf Hidx Hnd. unfold create_families. cbn [negb]. fold cf_name.
  assert (cf_name ∉ index_names cf_name pk 0 (map fst keys)) as Hni.
  { intros (j & k & _ & _ & E')%elem_of_index_names. by apply (index_name_ne cf_name k). }
  eapply spec_bind; [apply (handle_quiet d cf_name)|]. intros h. q_fact Hh. rewrite Hcf, decide_False in Hh by (by intros [? ?]). subst h.
  rewrite bool_decide_false by (by intros [? ?]).
  eapply spec_bind; [eapply spec_pre; [by apply (create_quiet d cf_name)|by intros e [_ ?]]|]. intros rc. q_fact Hrc. subst rc.
  change (negb (tdb_ok TDB_SUCCESS)) with false. cbn iota.
  assert (growing cf_name d [] (<[cf_name := ∅]> d)) as Hg.
  { split; [exists ∅; split; [apply lookup_insert_eq|by intros k x H; rewrite lookup_empty in H]|by intros nm ?%not_elem_of_nil|].
    intros nm Hne _. by rewrite lookup_insert_ne. }
  eapply spec_bind; [eapply spec_pre; [apply (handle_quiet (<[cf_name := ∅]> d) cf_name)|by intros e [_ ?]]|]. intros h. q_fact Hh.
  rewrite (handle_made _ _ _ _ Hg) in Hh. subst h. unfold TableMeta.tdb_table_options_store.
  eapply spec_bind; [eapply spec_pre; [apply meta_put_quiet|by intros e [_ ?]]|]. intros ?.
  eapply spec_bind; [eapply (create_indexes_spec cf_name pk d keys 0 [])|].
  { by apply (growing_put cf_name d [] _ (bs "OPTS")); [apply not_elem_of_nil|]. }
  { apply not_elem_of_nil. } { by apply index_names_fresh. }
  { intros nm (j & k & (kk & -> & Hj%list_elem_of_lookup_2)%list_lookup_fmap_Some & _ & ->)%elem_of_index_names. by apply Hidx. }
  intros rc. q_fact Hrc. subst rc. change (negb (tdb_ok TDB_SUCCESS)) with false. cbn iota.
  eapply (spec_pre _ _); [|intros e [_ He]; exact He]. apply spec_ex. intros d1. apply (spec_pure _ _ _ _ _ (fun _ Hs => proj2 Hs)). intros Hg1.
  eapply (spec_bind _ _ (fun _ e => exists d', at_ d' e /\ growing cf_name d (index_names cf_name pk 0 (map fst keys)) d')).
  - destruct (1 <? auto_inc) eqn:Ea; [|apply spec_ret; intros e [He _]; by eexists].
    eapply spec_bind; [eapply spec_pre; [apply (handle_quiet d1 cf_name)|by intros e [? _]]|]. intros h. q_fact Hh.
    rewrite (handle_made _ _ _ _ Hg1) in Hh. subst h. unfold TableMeta.write_auto_inc_meta.
    rewrite (proj2 (Z.leb_gt _ _)) by (by apply Z.ltb_lt in Ea).
    eapply spec_weaken; [apply meta_put_quiet|by intros e [_ ?]| |done]. intros ? e He. eexists. split; [exact He|]. by apply (growing_put _ _ _ _ (bs "AINC")).
  - intros ?. apply spec_ex. intros d2. apply (spec_pure _ _ _ _ _ (fun _ Hs => proj2 Hs)). intros Hg2.
    eapply spec_bind; [eapply spec_pre; [apply (fk_persist_defs_quiet name db table info specs d2)|by intros e [? _]]|].
    intros f. q_fact Hf. subst f. apply spec_ret. intros e (_ & d' & He & Ho). split; [by destruct (existsb _ _)|]. by exists d2, d'.
Qed.

(** ** Tables without rows *)

Context `{!RowServices E T} {SF : ServerField} {CS : FtsText.charset}.

(** What the look-up finds when every key but the primary key has its family. *)
Definition key_families cf_name (pk : option nat) (names : list bytes) : list (option bytes * bytes) :=
  imap (fun i k => if decide (pk = Some i) then (None, []) else (Some (index_cf_name cf_name k), index_cf_name cf_name k)) names.

Lemma no_rows_rep sh fields stored covered d :
  (exists m, d !! cf sh = Some m /\ only_meta m) -> (forall i c, secondary sh i = Some c -> d !! c = Some ∅) ->
  table_rep sh fields stored covered ∅ d.
Proof.
  intros (m & Hm & Ho) Hi. split; [by intros pk r H; rewrite lookup_empty in H|]. split; [by rewrite Hm|]. split; [|split].
  - intros pk. rewrite lookup_empty. unfold db_get. rewrite Hm. simpl. destruct (m !! RowFormat.build_data_key pk) as [x|] eqn:Ex; [|done].
    by destruct (Ho _ _ Ex) as [k' ?].
  - intros i c Hc. rewrite (Hi i c Hc). by eexists.
  - intros i c _ Hc _ k x. rewrite decide_False by apply not_elem_of_nil. unfold db_get. rewrite (Hi i c Hc). simpl.
    rewrite lookup_empty. split; [done|]. intros (pk & r & Hr & _). by rewrite lookup_empty in Hr.
Qed.


(** ** TRUNCATE *)

Definition index_ok (i : option bytes * bytes) : Prop := i.1 = None \/ i.1 = Some i.2.

Definition live_names (l : list (option bytes * bytes)) : list bytes := omap fst l.

Lemma empty_index_spec d i :
  index_ok i ->
  run (at_ d) (empty_index i)
    (fun i' e => i' = i /\ at_ (match i.1 with Some nm => <[nm := ∅]> d | None => d end) e).
Proof.
  intros Hi. unfold empty_index. destruct i as [[nm|] nm']; cbn [fst snd]; [|by apply spec_ret].
  destruct Hi as [|[= ->]]; [done|].
  eapply spec_bind; [apply (drop_quiet d nm')|]. intros ?.
  eapply spec_bind; [eapply spec_pre; [apply (create_quiet (delete nm' d) nm'), lookup_delete_eq|by intros e [_ ?]]|]. intros rc. q_fact Hrc. subst rc.
  change (negb (tdb_ok TDB_SUCCESS)) with false. cbn iota. rewrite insert_delete_eq.
  eapply spec_bind; [eapply spec_pre; [apply (handle_quiet (<[nm' := ∅]> d) nm')|by intros e [_ ?]]|]. intros h. q_fact Hh.
  rewrite lookup_insert_eq, decide_True in Hh by (by eexists). subst h. apply spec_ret. by intros e [_ He].
Qed.

Lemma empty_indexes_spec l : forall d, Forall index_ok l ->
  run (at_ d) (empty_indexes l)
    (fun l' e => l' = l /\ exists d', at_ d' e /\ (forall nm, nm ∈ live_names l -> d' !! nm = Some ∅) /\
       (forall nm, nm ∉ live_names l -> d' !! nm = d !! nm)).
Proof.
  induction l as [|i l IH]; intros d Hl; cbn [empty_indexes].
  { apply spec_ret. intros e He. split; [done|]. exists d. split; [done|]. split; [by intros nm ?%not_elem_of_nil|done]. }
  apply Forall_cons in Hl as [Hi Hl]. eapply spec_bind; [by apply empty_index_spec|]. intros i'. q_fact Hi'. subst i'.
  eapply spec_bind; [eapply spec_pre; [by apply IH|by intros e [_ ?]]|]. intros l'. apply spec_ret. intros e (-> & d' & He & Hmade & Hkept).
  split; [done|]. exists d'. split; [done|].
  assert (live_names (i :: l) = match i.1 with Some nm => nm :: live_names l | None => live_names l end) as ->
    by (by destruct i as [[nm|] nm']). destruct i.1 as [nm|]; [|done]. split.
  - intros nm' [->|Hin]%elem_of_cons; [|by apply Hmade]. destruct (decide (nm ∈ live_names l)); [by apply Hmade|].
    rewrite Hkept by done. apply lookup_insert_eq.
  - intros nm' Hin. rewrite elem_of_cons in Hin. rewrite Hkept by tauto. rewrite lookup_insert_ne; [done|]. intros <-. tauto.
Qed.

Definition stored_options (o : TableOptions.ha_table_option_struct) : bytes :=
  TableOptions.serialize_attributes o (Some TableOptions.compression_names) (Some TableOptions.isolation_level_names).

Lemma empty_families_spec d opts f :
  Forall index_ok (indexes f) -> data f ∉ live_names (indexes f) ->
  run (at_ d) (empty_families opts f)
    (fun r e => r = (HA_OK, f) /\ exists d', at_ d' e /\ growing (data f) d (live_names (indexes f)) d' /\
       d' !! data f = Some {[TableMeta.OPTIONS_META_KEY := stored_options opts]}).
Proof.
  intros Hok Hn. unfold empty_families. eapply spec_bind; [apply (drop_quiet d (data f))|]. intros rc. q_fact Hrc. rewrite Hrc. cbn [negb].
  eapply spec_bind; [eapply spec_pre; [apply (create_quiet (delete (data f) d) (data f)), lookup_delete_eq|by intros e [_ ?]]|]. intros rc'. q_fact Hrc'. subst rc'.
  change (negb (tdb_ok TDB_SUCCESS)) with false. cbn iota. rewrite insert_delete_eq.
  eapply spec_bind; [eapply spec_pre; [apply (handle_quiet (<[data f := ∅]> d) (data f))|by intros e [_ ?]]|]. intros h. q_fact Hh.
  rewrite lookup_insert_eq, decide_True in Hh by (by eexists). subst h.
  assert (growing (data f) d [] (<[data f := ∅]> d)) as Hg.
  { split; [exists ∅; split; [apply lookup_insert_eq|by intros k x H; rewrite lookup_empty in H]|by intros nm ?%not_elem_of_nil|].
    intros nm Hne _. by rewrite lookup_insert_ne. }
  unfold TableMeta.tdb_table_options_store. eapply spec_bind; [eapply spec_pre; [apply meta_put_quiet|by intros e [_ ?]]|]. intros ?.
  pose proof (growing_put (data f) d [] _ (bs "OPTS") (TableOptions.serialize_attributes opts (Some TableOptions.compression_names)
    (Some TableOptions.isolation_level_names)) (not_elem_of_nil _) Hg) as [(m & Hm & Ho) _ Hk].
  eapply spec_bind; [by apply empty_indexes_spec|]. intros l. apply spec_ret. intros e (-> & d' & He & Hmade & Hkept).
  split; [by destruct f|]. exists d'. split; [done|]. split; [split; [|done|]|].
  - exists m. split; [|done]. rewrite Hkept by done. exact Hm.
  - intros nm Hne Hin. rewrite Hkept by done. apply Hk; [done|apply not_elem_of_nil].
  - rewrite Hkept by done. cbn [apply_write]. by rewrite lookup_alter_eq, lookup_insert_eq.
Qed.

(** The connection's transaction object after its uncommitted work was thrown away. *)
Definition work_dropped (x : option (tidesdb_trx_t T)) : option (tidesdb_trx_t T) :=
  (fun t => match trx_txn t with Some _ => trx_dropped t | None => t end) <$> x.

Lemma drop_work_spec d (ha_data : option (tidesdb_trx_t T)) (s0 : handler E T) :
  run (fun s => s = s0 /\ at_ d (lib s))
    (match ha_data with
     | Some t =>
         match trx_txn t with
         | Some x => on_lib (txn_rollback x);; modify (map_trx trx_dropped);; ret (Some (trx_dropped t))
         | None => ret (Some t)
         end
     | None => ret None
     end)
    (fun x s => x = work_dropped ha_data /\ at_ d (lib s)).
Proof.
  destruct ha_data as [t|]; [|apply spec_ret; by intros s [_ ?]]. unfold work_dropped. cbn [fmap option_fmap option_map].
  destruct (trx_txn t) as [x|]; [|apply spec_ret; by intros s [_ ?]].
  eapply (spec_bind _ _ (fun _ s => at_ d (lib s))).
  - apply spec_lift. intros s [-> Hd]. eapply spec_weaken; [apply (spec_conj _ _ _ _ _ _ _ (txn_rollback_law d x) (quiet_rollback x))| | |done].
    + intros e ->. by destruct Hd.
    + by intros a e [? ?].
  - intros ?. eapply (spec_bind _ _ (fun _ s => at_ d (lib s))); [by apply spec_modify|]. intros ?. by apply spec_ret.
Qed.

(** C36: On a library that does not fail, TRUNCATE empties the families of the table: whatever they held,
    afterwards they represent the empty set of rows, the data family holds the record of the table's
    options and nothing else (so the shapes of the keys are gone with the rows, [DdlExample.truncate_forgets_key_shapes]),
    and no other family has changed.  The connection's transaction is gone with its uncommitted writes and
    full-text statistics, whether or not the handler had a pointer to it, the handler lets go of the
    transaction and of its iterator, and the counters start again. *)
Theorem truncated_table_is_empty sh fields stored covered opts fs d ha_data (s0 : handler E T) :
  idx_cfs sh = map fst fs -> Forall index_ok fs -> cf sh ∉ live_names fs ->
  run (fun s => s = s0 /\ at_ d (lib s)) (truncate ha_data sh opts {| data := cf sh; indexes := fs |})
    (fun r s => r.2 = (HA_OK, {| data := cf sh; indexes := fs |}) /\
       (forall t, ha_data = Some t -> exists t', r.1 = Some t' /\ trx_txn t' = None /\
          (is_Some (trx_txn t) -> dirty t' = false /\ fts_meta_pending t' = [] /\ fts_meta_dirty t' = false)) /\
       Dml.stmt_txn s = None /\ stmt_txn_dirty s = false /\ scan_iter s = false /\
       next_row_id s = Counters.HIDDEN_PK_FIRST_ROW_ID /\ auto_inc_val s = 0 /\
       exists d', at_ d' (lib s) /\ table_rep sh fields stored covered ∅ d' /\
         d' !! cf sh = Some {[TableMeta.OPTIONS_META_KEY := stored_options opts]} /\
         forall nm, nm <> cf sh -> nm ∉ live_names fs -> d' !! nm = d !! nm).
Proof.
  intros Hi Hok Hn. set (f := {| data := cf sh; indexes := fs |}). unfold truncate, delete_all_rows.
  set (gone (s : handler E T) := Dml.stmt_txn s = None /\ stmt_txn_dirty s = false /\ scan_iter s = false).
  set (emptied (d' : store) := growing (cf sh) d (live_names fs) d' /\ d' !! cf sh = Some {[TableMeta.OPTIONS_META_KEY := stored_options opts]}).
  eapply (spec_bind _ _ (fun r s => r = (work_dropped ha_data, (HA_OK, f)) /\ gone s /\ exists d', at_ d' (lib s) /\ emptied d')).
  - eapply spec_bind; [apply drop_work_spec|]. intros x. q_fact Hx. subst x.
    eapply (spec_bind _ _ (fun _ s => at_ d (lib s) /\ gone s)); [apply spec_modify; by intros s [_ ?]|]. intros ?.
    eapply (spec_bind _ _ (fun r s => r = (HA_OK, f) /\ gone s /\ exists d', at_ d' (lib s) /\ emptied d')).
    + apply spec_lift. intros s [Hd Hg]. eapply spec_weaken; [apply (empty_families_spec d opts f); done|by intros e ->| |done].
      intros r e (-> & d' & He & Hgr & Ho). split; [done|]. split; [done|]. by exists d'.
    + intros r. q_fact Hr. subst r. rewrite bool_decide_true by done. apply spec_bind_gets_any. intros h.
      eapply (spec_bind _ _ (fun _ s => gone s /\ exists d', at_ d' (lib s) /\ emptied d')); [apply spec_modify; by intros s [_ ?]|].
      intros ?. by apply spec_ret.
  - intros r. q_fact Hr. subst r. cbn [snd fst]. rewrite bool_decide_true by done. apply spec_bind_gets_any. intros h.
    intros s [_ ((H1 & H2 & H3) & d' & He & Hg & Ho)]. cbn. split; [done|]. split.
    { intros t ->. unfold work_dropped. cbn. destruct (trx_txn t) eqn:Et; eexists; (split; [done|]); [done|].
      split; [done|]. by intros [? ?]. }
    split_and!; [done..|]. exists d'. split; [done|]. split; [|split; [done|intros nm Hne Hin; by apply (others_kept _ _ _ _ Hg)]].
    apply no_rows_rep; [by apply (data_made _ _ _ _ Hg)|]. intros i c Hs. apply (index_made _ _ _ _ Hg).
    unfold secondary in Hs. case_match; [done|]. rewrite Hi, list_lookup_fmap in Hs. destruct (fs !! i) as [[o nm]|] eqn:Ei; [|done].
    cbn in Hs. subst o. apply list_elem_of_omap. exists (Some c, nm). split; [by eapply list_elem_of_lookup_2|done].
Qed.

End Families.
End TableDdlSpec.
