(* ===== verification/Alter.v ===== *)
(** * ALTER TABLE in place, from the first phase to the last

    The server's drive of the three phases: [prepare_inplace_alter_table] creates the families of the new
    indexes, [Inplace.inplace_alter_table] fills them, and [commit_inplace_alter_table] drops those of the
    removed indexes and rebuilds the share's index metadata, or drops the new ones again when a phase
    failed. *)
From S2P Require Import Prelude Effects TidesDb RowFormat CfName FkCatalog Lifecycle TableOptions Table KeyCodec TableMeta FtsText RowDb Dml TableRep Spatial CursorDb Quiet Scan ScanSpec Counters Inplace InplaceSpec TableDdl TableDdlSpec.
Import Table KeyCodec Dml TableRep TableDdl TableDdlSpec.
#[local] Open Scope Z_scope.
#[local] Open Scope tdb_scope.

Module Alter.

Section Phases.
Context {E T : Type} `{!TidesDb E T, !FamilyDb E T, !RowDb E T, !CursorDb E T, !RowReader E}.
Context {SF : ServerField}.
Local Open Scope eff_scope.

(** [sh] is the altered table, [drops] and [idx_cf_names] speak of the old one.  The answer is whether the
    statement failed and the metadata the share is given. *)
Definition alter_table (sh : share) (killed : Z -> bool) (buf : record) (options_ok : bool) (fields : nat)
    (primary_key : option nat) (keys : list altered_key) (adds : list nat) (idx_cf_names : list bytes) (drops : list nat) :
    M E (bool * option index_meta) :=
  p <-- prepare_inplace_alter_table options_ok (cf sh) primary_key keys adds idx_cf_names drops;
  failed <-- (if p.1 then ret true else Inplace.inplace_alter_table sh killed (to_build p.2) buf);
  m <-- commit_inplace_alter_table (Some p.2) (negb failed) (cf sh) fields primary_key keys;
  ret (failed, m).

End Phases.

Section Spec.
Context {E T : Type} `{!TidesDb E T, !FamilyDb E T, !RowDb E T, !RowServices E T, !QuietDb E T, !QuietRows E T, !QuietFamilies E T,
  !CursorDb E T, !QuietCursor E T, !RowReader E}.
Context {SF : ServerField} {CS : FtsText.charset}.
Context (sh : share) (primary_key : option nat) (keys : list altered_key).
Local Open Scope eff_scope.

#[local] Abbreviation run P m Q := (spec P m Q (fun _ => True)).
#[local] Abbreviation at_ := Lifecycle.at_store.
Implicit Types (d : store) (nm : bytes).

Definition name_of (i : nat) : bytes := default [] (ak_name <$> keys !! i).
Definition family_of (i : nat) : bytes := index_cf_name (cf sh) (name_of i).

(** The rows of the data family are those of [d0], the families [made] are empty, the others are as in [d0]. *)
Record grown d0 (made : list bytes) d : Prop := {
  data_there : is_Some (d !! cf sh);
  rows_there : forall pk, db_get (cf sh) (RowFormat.build_data_key pk) d = db_get (cf sh) (RowFormat.build_data_key pk) d0;
  made_empty : forall nm, nm ∈ made -> d !! nm = Some ∅;
  rest_there : forall nm, nm <> cf sh -> nm ∉ made -> d !! nm = d0 !! nm }.

Lemma grown_put d0 made d k x :
  cf sh ∉ made -> grown d0 made d -> grown d0 made (apply_write (W_put (cf sh) (RowFormat.KEY_NS_META :: k) x) d).
Proof.
  intros Hn [[m Hm] Hr He Ho]. cbn [apply_write]. split.
  - rewrite lookup_alter_eq, Hm. by eexists.
  - intros pk. rewrite <- Hr. unfold db_get. rewrite lookup_alter_eq, Hm. simpl. by rewrite lookup_insert_ne.
  - intros nm Hin. rewrite lookup_alter_ne by (intros <-; done). by apply He.
  - intros nm Hne Hin. rewrite lookup_alter_ne by done. by apply Ho.
Qed.

Lemma grown_make d0 made d nm : nm <> cf sh -> grown d0 made d -> grown d0 (made ++ [nm]) (<[nm := ∅]> d).
Proof.
  intros Hne [[m Hm] Hr He Ho]. split.
  - rewrite lookup_insert_ne by done. by eexists.
  - intros pk. rewrite <- Hr. unfold db_get. by rewrite lookup_insert_ne.
  - intros nm' Hin. destruct (decide (nm = nm')) as [<-|Hn]; [apply lookup_insert_eq|]. rewrite lookup_insert_ne by done. apply He.
    apply elem_of_app in Hin as [?|?%list_elem_of_singleton]; [done|congruence].
  - intros nm' Hne' Hin. rewrite elem_of_app, list_elem_of_singleton in Hin. rewrite lookup_insert_ne by (intros <-; tauto). apply Ho; tauto.
Qed.

Lemma prepare_add_spec d0 made d i ctx :
  grown d0 made d -> cf sh ∉ made -> is_Some (keys !! i) -> primary_key <> Some i ->
  run (at_ d) (prepare_add (cf sh) primary_key keys i ctx)
    (fun r e => r = Some {| add_cfs := add_cfs ctx ++ [family_of i]; add_cf_names := add_cf_names ctx ++ [family_of i];
                            add_key_nums := add_key_nums ctx ++ [i]; drop_cf_names := drop_cf_names ctx |} /\
       exists d', at_ d' e /\ grown d0 (made ++ [family_of i]) d').
Proof.
  intros Hg Hn [k Hk] Hpk. unfold prepare_add, family_of, name_of. rewrite Hk. cbn. set (nm := index_cf_name (cf sh) (ak_name k)).
  assert (nm <> cf sh) as Hne by apply index_name_ne. rewrite bool_decide_false, andb_false_r by done.
  eapply spec_bind; [apply (drop_quiet d nm)|]. intros ?.
  eapply spec_bind; [eapply spec_pre; [apply (create_quiet (delete nm d) nm), lookup_delete_eq|by intros e [_ ?]]|]. intros rc. q_fact Hrc. subst rc.
  change (negb (tdb_ok TDB_SUCCESS)) with false. cbn iota. rewrite insert_delete_eq.
  eapply spec_bind; [eapply spec_pre; [apply (handle_quiet (<[nm := ∅]> d) nm)|by intros e [_ ?]]|]. intros h. q_fact Hh.
  rewrite lookup_insert_eq, decide_True in Hh by (by eexists). subst h.
  pose proof (grown_make d0 made d nm Hne Hg) as Hg'.
  eapply spec_bind; [eapply spec_pre; [apply (handle_quiet (<[nm := ∅]> d) (cf sh))|by intros e [_ ?]]|]. intros h. q_fact Hh.
  rewrite decide_True in Hh by apply Hg'. subst h. unfold TableMeta.tdb_key_shape_store.
  assert (cf sh ∉ made ++ [nm]) as Hn' by (rewrite elem_of_app, list_elem_of_singleton; intros [?|?]; [done|congruence]).
  case_bool_decide.
  - eapply spec_bind; [apply (spec_ret _ (fun _ => at_ (<[nm := ∅]> d))); by intros e [_ ?]|]. intros ?.
    apply spec_ret. intros e He. split; [done|]. by eexists.
  - eapply spec_bind; [eapply spec_pre; [apply meta_put_quiet|by intros e [_ ?]]|]. intros ?.
    apply spec_ret. intros e He. split; [done|]. eexists. split; [exact He|]. by apply grown_put.
Qed.

Lemma prepare_adds_spec d0 adds : forall made d ctx,
  grown d0 made d -> cf sh ∉ made -> (forall i, i ∈ adds -> is_Some (keys !! i) /\ primary_key <> Some i) ->
  run (at_ d) (prepare_adds (cf sh) primary_key keys adds ctx)
    (fun r e => r = (false, {| add_cfs := add_cfs ctx ++ map family_of adds; add_cf_names := add_cf_names ctx ++ map family_of adds;
                               add_key_nums := add_key_nums ctx ++ adds; drop_cf_names := drop_cf_names ctx |}) /\
       exists d', at_ d' e /\ grown d0 (made ++ map family_of adds) d').
Proof.
  induction adds as [|i adds IH]; intros made d ctx Hg Hn Hok; cbn [prepare_adds map].
  { rewrite !app_nil_r. apply spec_ret. intros e He. split; [by destruct ctx|]. by eexists. }
  destruct (Hok i ltac:(by left)) as [Hk Hp]. eapply spec_bind; [by apply (prepare_add_spec d0 made d i ctx)|]. intros r. q_fact Hr. subst r.
  eapply (spec_pre _ _); [|intros e [_ He]; exact He]. apply spec_ex. intros d1. apply (spec_pure _ _ _ _ _ (fun _ Hs => proj2 Hs)). intros Hg1.
  eapply spec_weaken; [apply (IH (made ++ [family_of i]) d1); [done| |intros j Hj; apply Hok; by right]|by intros e [? _]| |done].
  - rewrite elem_of_app, list_elem_of_singleton. intros [?|E']; [done|]. by apply (index_name_ne (cf sh) (name_of i)).
  - intros r e. cbn. by rewrite <- !app_assoc.
Qed.

(** ** The statement *)

Context (killed : Z -> bool) (fields : list Field) (stored : record -> bytes -> Prop) (covered : nat -> Prop).
Context {RO : ScanSpec.ReaderOk E T stored} (rows : gmap bytes record).

Definition added_indexes (adds : list nat) : list Inplace.added := map (fun i => (i, family_of i)) adds.

(** The statement fits the table: [sh] has a family for every key but the primary key, named after it;
    [adds] are new regular keys; the other keys' families hold what they held in the old table; and no
    family of a dropped index, [gone], is one of the altered table's. *)
Record alters d (adds : list nat) (gone : list bytes) : Prop := {
  families_named : forall i, secondary sh i =
    if decide (is_Some (keys !! i) /\ primary_key <> Some i) then Some (family_of i) else None;
  adds_distinct : NoDup adds;
  adds_new : forall i, i ∈ adds -> is_Some (keys !! i) /\ primary_key <> Some i /\ kind_of sh i = regular /\ ~ covered i;
  old_rows : rows_ok sh fields rows /\ is_Some (d !! cf sh) /\ data_rep sh stored rows d;
  old_indexes : forall i c, secondary sh i = Some c -> i ∉ adds ->
    is_Some (d !! c) /\ ((i < num_keys sh)%nat -> covered i -> holds_entries c (entries sh i) rows d);
  gone_old : forall nm, nm ∈ gone -> nm <> cf sh /\ forall i, secondary sh i <> Some nm }.

Lemma elem_of_added adds i c : (i, c) ∈ added_indexes adds <-> i ∈ adds /\ c = family_of i.
Proof.
  unfold added_indexes. rewrite list_elem_of_fmap. split; [intros (j & [= -> ->] & Hj); done|]. intros [Hi ->]. by exists i.
Qed.

Lemma build_list adds : zip adds (map family_of adds) = added_indexes adds.
Proof. unfold added_indexes. induction adds as [|i adds IH]; [done|]. simpl. by rewrite IH. Qed.

Lemma family_used adds d gone i : alters d adds gone -> i ∈ adds -> secondary sh i = Some (family_of i).
Proof.
  intros Ha Hi. destruct (adds_new _ _ _ Ha i Hi) as (Hk & Hp & _). by rewrite (families_named _ _ _ Ha), decide_True.
Qed.

Lemma prepared_rep d adds gone d1 :
  table_ok sh -> alters d adds gone -> grown d (map family_of adds) d1 ->
  table_rep sh fields stored covered rows d1 /\ InplaceSpec.new_families covered (added_indexes adds) d1.
Proof.
  intros (_ & Hinj & Hcf) Ha [Hdt Hrt Hme Hro]. destruct (old_rows _ _ _ Ha) as (Hrows & _ & Hd).
  assert (forall i c, secondary sh i = Some c -> i ∉ adds -> d1 !! c = d !! c) as Hsame.
  { intros i c Hc Hi. apply Hro; [intros ->; by apply (Hcf i)|]. intros (j & -> & Hj)%list_elem_of_fmap.
    assert (i = j) as -> by (by eapply Hinj; [|eapply family_used]). done. }
  split.
  - split; [done|]. split; [done|]. split; [intros pk; rewrite Hrt; apply Hd|]. split.
    + intros i c Hc. destruct (decide (i ∈ adds)) as [Hi|Hi]; [|rewrite (Hsame i c Hc Hi); by apply (old_indexes _ _ _ Ha i c)].
      rewrite (family_used adds d gone i Ha Hi) in Hc. injection Hc as <-. rewrite Hme; [by eexists|]. apply list_elem_of_fmap. by exists i.
    + intros i c Hin Hc Hcov. rewrite decide_False by apply not_elem_of_nil.
      assert (i ∉ adds) as Hi by (intros Hi; by destruct (adds_new _ _ _ Ha i Hi) as (_ & _ & _ & ?)).
      pose proof (proj2 (old_indexes _ _ _ Ha i c Hc Hi) Hin Hcov) as Hh. intros k x. unfold db_get. rewrite (Hsame i c Hc Hi). apply Hh.
  - intros i c [Hi ->]%elem_of_added. split; [|by destruct (adds_new _ _ _ Ha i Hi) as (_ & _ & _ & ?)].
    apply Hme, list_elem_of_fmap. by exists i.
Qed.

(** Only the table's own families matter. *)
Lemma rep_same cov d d' :
  d' !! cf sh = d !! cf sh -> (forall i c, secondary sh i = Some c -> d' !! c = d !! c) ->
  table_rep sh fields stored cov rows d -> table_rep sh fields stored cov rows d'.
Proof.
  intros Hc Hs (Hrows & Hcf & Hd & Hf & Hi). split; [done|]. split; [by rewrite Hc|]. split; [|split].
  - intros pk. specialize (Hd pk). unfold db_get in *. by rewrite Hc.
  - intros i c Hic. rewrite (Hs i c Hic). by eapply Hf.
  - intros i c Hn Hic Hcov k x. specialize (Hi i c Hn Hic Hcov k x). unfold db_get in *. by rewrite (Hs i c Hic).
Qed.

(** The metadata [open] would build. *)
Definition opened_meta (count : nat) : index_meta :=
  let fs := imap (fun i k => if decide (primary_key = Some i) then (None, [])
                             else (Some (index_cf_name (cf sh) (ak_name k)), index_cf_name (cf sh) (ak_name k))) keys in
  {| meta_families := fs; num_secondary_indexes := zlen (List.filter (fun f => bool_decide (is_Some f.1)) fs);
     meta_codec := open_build_index_meta count (bool_decide (is_Some primary_key)) (default MAX_KEY primary_key) (map ak_key keys) |}.

Lemma rebuild_spec count d :
  (forall i k, keys !! i = Some k -> primary_key <> Some i -> is_Some (d !! index_cf_name (cf sh) (ak_name k))) ->
  run (at_ d) (commit_rebuild_index_meta (cf sh) count primary_key keys) (fun m e => m = opened_meta count /\ at_ d e).
Proof.
  intros Hall. unfold commit_rebuild_index_meta. eapply spec_bind; [apply (index_families_spec d)|]. intros fs. apply spec_ret.
  intros e [He ->]. split; [|done]. unfold opened_meta.
  assert (imap (fun j k => if decide (primary_key = Some (0 + j)%nat) then (None, [])
      else (if decide (is_Some (d !! index_cf_name (cf sh) k)) then Some (index_cf_name (cf sh) k) else None, index_cf_name (cf sh) k))
      (map ak_name keys) =
    imap (fun i k => if decide (primary_key = Some i) then (None, [])
      else (Some (index_cf_name (cf sh) (ak_name k)), index_cf_name (cf sh) (ak_name k))) keys) as ->; [|done].
  rewrite imap_fmap. apply imap_ext. intros i k Hk. simpl. case_decide as Hp; [done|]. by rewrite decide_True by (by eapply Hall).
Qed.

Definition ctx_of (adds : list nat) (gone : list bytes) : inplace_ctx :=
  {| add_cfs := map family_of adds; add_cf_names := map family_of adds; add_key_nums := adds; drop_cf_names := gone |}.

(** The last phase of a statement that failed, and of one that did not. *)
Lemma abandoned_spec count adds gone d :
  run (at_ d) (commit_inplace_alter_table (Some (ctx_of adds gone)) false (cf sh) count primary_key keys)
    (fun m e => m = None /\ quiet e /\ forall f, committed e !! f = if decide (f ∈ map family_of adds) then None else d !! f).
Proof.
  cbn [commit_inplace_alter_table negb].
  eapply spec_bind; [eapply spec_weaken; [apply (Lifecycle.drop_each_quiet d)|done|intros a e He; exact He|done]|]. intros ?. by apply spec_ret.
Qed.

Lemma committed_spec count adds gone d d2 cov :
  alters d adds gone -> table_rep sh fields stored cov rows d2 ->
  run (at_ d2) (commit_inplace_alter_table (Some (ctx_of adds gone)) true (cf sh) count primary_key keys)
    (fun m e => m = Some (opened_meta count) /\ quiet e /\ table_rep sh fields stored cov rows (committed e) /\
       forall f, committed e !! f = if decide (f ∈ gone) then None else d2 !! f).
Proof.
  intros Ha Hrep. cbn [commit_inplace_alter_table negb].
  eapply spec_bind; [eapply spec_weaken; [apply (Lifecycle.drop_each_quiet d2)|done|intros a e He; exact He|done]|].
  intros ?. apply spec_at. intros e0 [Hq Hf].
  assert (forall i c, secondary sh i = Some c -> committed e0 !! c = d2 !! c) as Hsec.
  { intros i c Hc. rewrite Hf, decide_False; [done|]. intros Hin. by apply (proj2 (gone_old _ _ _ Ha c Hin) i). }
  assert (committed e0 !! cf sh = d2 !! cf sh) as Hcf by (rewrite Hf, decide_False; [done|]; intros Hin; by apply (gone_old _ _ _ Ha) in Hin as [? _]).
  pose proof (rep_same _ d2 (committed e0) Hcf Hsec Hrep) as Hrep3.
  eapply spec_bind; [eapply spec_pre; [apply (rebuild_spec count (committed e0))|by intros e ->]|].
  - intros i k Hk Hpk. destruct Hrep3 as (_ & _ & _ & Hfam & _). apply (Hfam i). rewrite (families_named _ _ _ Ha), decide_True by (by rewrite Hk).
    unfold family_of, name_of. by rewrite Hk.
  - intros m. apply spec_ret. intros e [-> [Hq' He]]. by rewrite He.
Qed.

(** C32: An in-place ALTER that adds and drops indexes does what it says.  On a library that does not fail
    and with no kill it fails exactly when two rows share a key without nulls of a unique index it adds;
    then the families it created are gone again.  Otherwise the contents represent the same rows under
    the altered table with the new indexes complete, the families of the dropped indexes are gone, and
    the share has the metadata that opening the altered table gives.  Families of other tables are never
    touched.  The statement neither drops and adds an index of the same name nor renames one ([alters];
    such a statement succeeds and loses the index, [DdlExample.altered_index_lost]), no column of an added index
    is a VARBINARY ([build_ok]), and no other connection writes the table meanwhile. *)
Theorem alter_exact buf count adds idx_cf_names drops d :
  let gone := dropped_names idx_cf_names drops in
  table_ok sh -> alters d adds gone -> InplaceSpec.build_ok sh stored (added_indexes adds) rows -> (forall n, killed n = false) ->
  run (at_ d) (alter_table sh killed buf true count primary_key keys adds idx_cf_names drops)
    (fun r e => exists d', at_ d' e /\
       (r.1 = true <-> exists i, i ∈ adds /\ InplaceSpec.duplicate sh i rows) /\
       (r.1 = true -> forall i, i ∈ adds -> d' !! family_of i = None) /\
       (r.1 = false -> r.2 = Some (opened_meta count) /\ (forall nm, nm ∈ gone -> d' !! nm = None) /\
          table_rep sh fields stored (InplaceSpec.now_covered sh covered (added_indexes adds)) rows d') /\
       forall nm, nm <> cf sh -> nm ∉ map family_of adds -> nm ∉ gone -> d' !! nm = d !! nm).
Proof.
  intros gone Hok Ha Hb Hkill. unfold alter_table, prepare_inplace_alter_table. cbn [negb].
  assert (grown d [] d) as Hg0 by (split; [by apply (old_rows _ _ _ Ha)|done|by intros nm ?%not_elem_of_nil|done]).
  eapply spec_bind.
  { eapply spec_bind; [apply (prepare_adds_spec d adds [] d); [done|apply not_elem_of_nil|intros i Hi; by destruct (adds_new _ _ _ Ha i Hi) as (? & ? & _)]|].
    intros r. q_fact Hr. subst r. cbn [fst snd app add_cfs add_cf_names add_key_nums drop_cf_names].
    apply (spec_ret _ (fun p e => p = (false, ctx_of adds gone) /\ exists d1, at_ d1 e /\ grown d (map family_of adds) d1)). by intros e [_ He]. }
  intros p. q_fact Hp. subst p. cbn [fst snd]. unfold to_build. cbn [ctx_of add_key_nums add_cfs]. rewrite build_list.
  eapply (spec_pre _ _); [|intros e [_ He]; exact He]. apply spec_ex. intros d1. apply (spec_pure _ _ _ _ _ (fun _ Hs => proj2 Hs)). intros Hg.
  destruct (prepared_rep d adds gone d1 Hok Ha Hg) as [Hrep Hnew].
  eapply spec_bind; [eapply spec_pre; [by apply (InplaceSpec.inplace_build_exact sh killed fields stored covered (added_indexes adds) rows d1 buf)|by intros e [[? ?] _]]|].
  intros failed. apply spec_ex. intros d2. apply (spec_pure _ _ _ _ _ (fun _ Hs => proj2 Hs)). intros (Hkept & Hrep2 & Hdup & Hcov).
  assert (forall nm, nm ∈ map snd (added_indexes adds) <-> nm ∈ map family_of adds) as Hsnd by (intros nm; unfold added_indexes; by rewrite map_map).
  assert (forall nm, nm <> cf sh -> nm ∉ map family_of adds -> d2 !! nm = d !! nm) as Hother.
  { intros nm Hne Hin. rewrite (proj1 Hkept) by (by rewrite Hsnd). by apply (rest_there _ _ _ Hg). }
  assert (failed = true <-> exists i, i ∈ adds /\ InplaceSpec.duplicate sh i rows) as Hdup'.
  { rewrite Hdup. split; [intros ([i c] & [Hi _]%elem_of_added & Hd); by exists i|]. intros (i & Hi & Hd). exists (i, family_of i).
    split; [by apply elem_of_added|done]. }
  destruct failed; cbn [negb].
  - eapply spec_bind; [eapply spec_pre; [apply (abandoned_spec count adds gone d2)|by intros e [[? ?] _]]|].
    intros m. apply spec_ret. intros e (-> & Hq & Hf). exists (committed e). split; [done|]. cbn [fst snd]. split; [done|]. split; [|split; [done|]].
    + intros _ i Hi. rewrite Hf, decide_True; [done|]. apply list_elem_of_fmap. by exists i.
    + intros nm Hne Hin _. rewrite Hf, decide_False by done. by apply Hother.
  - eapply spec_bind; [eapply spec_pre; [by apply (committed_spec count adds gone d d2 _ Ha (Hcov eq_refl))|by intros e [[? ?] _]]|].
    intros m. apply spec_ret. intros e (-> & Hq & Hrep3 & Hf). exists (committed e). split; [done|]. cbn [fst snd]. split; [done|].
    split; [done|]. split; [|intros nm Hne Hin Hgo; rewrite Hf, decide_False by done; by apply Hother].
    intros _. split; [done|]. split; [|done]. intros nm Hin. by rewrite Hf, decide_True.
Qed.

End Spec.
End Alter.
