(* ===== verification/DdlExample.v ===== *)
(** * Tables defined, altered and emptied over the map library

    Witnesses of the theorems of [TableDdlSpec] and [Alter], and the ALTERs that lose an index. *)
From S2P Require Import Prelude Effects TidesDb RowFormat CfName FkCatalog Lifecycle TableOptions Table KeyCodec TableMeta FtsText RowDb Dml TableRep DmlSpec DmlExample Spatial CursorDb Quiet Scan ScanSpec ScanExample Counters Inplace InplaceSpec FkRows TableDdl TableDdlSpec Alter.
Import Table KeyCodec Dml TableRep DmlExample ScanExample TableDdl TableDdlSpec Alter.
#[local] Open Scope Z_scope.
#[local] Open Scope tdb_scope.

Module DdlExample.

#[local] Existing Instance KeyCodec.example_server.
#[local] Existing Instance FtsText.example_charset.
#[local] Abbreviation svc := (ex_services true).
#[local] Abbreviation all := (fun _ : nat => True).
#[local] Open Scope eff_scope.

Definition library (d : store) : mem_db := {| mem := d; buf := []; script := [] |}.

Definition opts : TableOptions.ha_table_option_struct := TableMeta.zeroed.

(** The table of [DmlExample] with its index on [a] alone, under the name the engine gives its family. *)
Definition alt_table : share := {|
  codec := open_build_index_meta 4 true 0 [key_id; key_a];
  cf := bs "d"; idx_cfs := [None; Some (bs "d__idx_i")]; idx_kind := [regular; regular]; nosame := [true; true];
  encrypted := false; ref_length := 4; has_next_number := true; triggers := false; table_name := (bs "db", bs "t");
  fts_opts := FtsText.example_opts |}.

Definition primary : altered_key := {| ak_name := bs "PRIMARY"; ak_nosame := true; ak_key := key_id |}.
Definition on_a (nm : bytes) : altered_key := {| ak_name := nm; ak_nosame := true; ak_key := key_a |}.

(** The rows 7 and 8 and no index. *)
Definition plain_store : store := {[bs "d" := default ∅ (store78 !! bs "d")]}.

Definition alter (keys : list altered_key) (adds : list nat) (idx_cf_names : list bytes) (drops : list nat) (d : store) :
    mem_db * reply (bool * option index_meta) :=
  alter_table (RowReader0 := ex_reader) alt_table (fun _ => false) r7 true 4 (Some 0%nat) keys adds idx_cf_names drops (library d).

(** ** Lost indexes *)

Definition indexed_store : store := mem (alter [primary; on_a (bs "i")] [1%nat] [] [] plain_store).1.

(** What the share has for key 1 after a statement, and how many entries the family [nm] holds. *)
Definition key1_after (r : mem_db * reply (bool * option index_meta)) : option (bool * option (option bytes)) :=
  match r.2 with
  | Ret (failed, Some m) => Some (failed, fst <$> meta_families m !! 1%nat)
  | _ => None
  end.
Definition size_after (nm : bytes) (r : mem_db * reply (bool * option index_meta)) : option nat :=
  (fun m => length (map_to_list m)) <$> mem r.1 !! nm.

(** ALTERs that succeed and lose an index.  An index that is dropped and added again under its name
    is built and then dropped with the old one, whose family has the same name; and a renamed index is
    looked up under its new name, which no family has, while its entries stay under the old one. *)
Lemma altered_index_lost :
  size_after (bs "d__idx_i") (library indexed_store, Crash) = Some 2%nat /\
  (let r := alter [primary; on_a (bs "i")] [1%nat] [[]; bs "d__idx_i"] [1%nat] indexed_store in
   key1_after r = Some (false, Some None) /\ size_after (bs "d__idx_i") r = None) /\
  (let r := alter [primary; on_a (bs "j")] [] [[]; bs "d__idx_i"] [] indexed_store in
   key1_after r = Some (false, Some None) /\ size_after (bs "d__idx_j") r = None /\ size_after (bs "d__idx_i") r = Some 2%nat).
Proof. cbv zeta. split_and!; vm_compute; reflexivity. Qed.

(** TRUNCATE writes the options of the table again into the new data family and not the shapes of its
    keys, which a foreign key created later would need. *)
Definition shape_store : store :=
  mem (create_families (E := mem_db) (bs "./db/t") true opts (Some 0%nat) [(bs "PRIMARY", key_id); (bs "i", key_a)] 1 (ret 0) (library ∅)).1.

Definition truncated (sh : share) (fs : list (option bytes * bytes)) (d : store) : handler mem_db unit * reply (option (tidesdb_trx_t unit) * (ha_code * families)) :=
  truncate (Some ex_trx) sh opts {| data := cf sh; indexes := fs |} (ex_handler d [] ex_bulk []).

Definition shape_of (d : store) : reply (option bytes) := (TableMeta.tdb_key_shape_load (Some (bs "db__t")) (bs "i") (library d)).2.

Definition db_t : share := {|
  codec := codec alt_table; cf := bs "db__t"; idx_cfs := [None; Some (bs "db__t__idx_i")]; idx_kind := idx_kind alt_table;
  nosame := nosame alt_table; encrypted := false; ref_length := 4; has_next_number := true; triggers := false;
  table_name := (bs "db", bs "t"); fts_opts := FtsText.example_opts |}.

Lemma truncate_forgets_key_shapes :
  shape_of shape_store = Ret (Some [1]) /\
  shape_of (mem (lib (truncated db_t [(None, []); (Some (bs "db__t__idx_i"), bs "db__t__idx_i")] shape_store).1)) = Ret None.
Proof. split; vm_compute; reflexivity. Qed.

(** ** Witnesses *)

(** A constraint of the new table: its column [id], which the primary key leads, refers to another table. *)
Definition t_info : FkRows.table_info := {|
  FkRows.names := {| FkCatalog.field_names := [bs "id"; bs "a"; bs "b"; bs "t"];
                     FkCatalog.table_keys := [{| FkCatalog.key_name := bs "PRIMARY"; FkCatalog.key_parts := [bs "id"] |};
                                              {| FkCatalog.key_name := bs "i"; FkCatalog.key_parts := [bs "a"] |}] |};
  FkRows.fields := ex_fields; FkRows.keys := [key_id; key_a]; FkRows.primary_key := Some 0%nat |}.
Definition t_refers : FkRows.tdb_fk_spec := {|
  FkRows.spec_name := []; FkRows.spec_ref_db := []; FkRows.spec_ref_table := bs "p"; FkRows.spec_child_columns := [bs "id"];
  FkRows.spec_ref_columns := [bs "x"]; FkRows.spec_parent_index_name := []; FkRows.spec_on_delete := 0; FkRows.spec_on_update := 0 |}.


Lemma truncated_table_is_empty_witness :
  let s := truncated ex_table [(None, []); (Some (bs "a"), bs "a"); (Some (bs "f"), bs "f")] store78 in
  exists d', committed (lib s.1) = d' /\ table_rep (RowServices0 := svc) ex_table ex_fields ex_stored all ∅ d' /\
    d' !! cf ex_table = Some {[TableMeta.OPTIONS_META_KEY := stored_options opts]}.
Proof.
  intros s.
  pose proof (truncated_table_is_empty (E := mem_db) (RowServices0 := svc) ex_table ex_fields ex_stored all opts
    [(None, []); (Some (bs "a"), bs "a"); (Some (bs "f"), bs "f")] store78 (Some ex_trx) (ex_handler store78 [] ex_bulk []) eq_refl) as H.
  assert (H1 : Forall index_ok [(None, []); (Some (bs "a"), bs "a"); (Some (bs "f"), bs "f")])
    by (repeat constructor; (by left) || (by right)).
  assert (H2 : cf ex_table ∉ live_names [(None, []); (Some (bs "a"), bs "a"); (Some (bs "f"), bs "f")])
    by (apply (bool_decide_unpack _); by vm_compute).
  pose proof (spec_run _ _ _ _ (ex_handler store78 [] ex_bulk [])
    (Some (trx_dropped ex_trx), (HA_OK, {| data := cf ex_table; indexes := [(None, []); (Some (bs "a"), bs "a"); (Some (bs "f"), bs "f")] |}))
    (H H1 H2) (conj eq_refl (conj (Forall_nil_2 _) eq_refl)) ltac:(vm_compute; reflexivity)) as (_ & _ & _ & _ & _ & _ & _ & d' & [_ Hd] & Hrep & Ho & _).
  exists d'. split; [exact Hd|]. split; [exact Hrep|exact Ho].
Defined.

(** The statement that adds the index [i] to a table with only its primary key. *)
Definition keys_i : list altered_key := [primary; on_a (bs "i")].

Lemma alt_secondary i c : secondary alt_table i = Some c -> i = 1%nat /\ c = bs "d__idx_i".
Proof. intros H. destruct i as [|[|i]]; [done|vm_compute in H; by simplify_eq|done]. Qed.

Lemma alt_high i : (2 <= i)%nat -> key_info_of alt_table i = no_key.
Proof. intros Hi. unfold key_info_of, key_at. simpl. by rewrite lookup_ge_None_2 by (simpl; lia). Qed.

Lemma alt_ok : table_ok alt_table.
Proof.
  split_and!.
  - intros i. destruct (Nat.lt_ge_cases i 2) as [Hi|Hi]; [|rewrite alt_high by done; by apply Forall_nil].
    destruct i as [|[|i]]; [..|lia]; ex_forall; ex_part.
  - intros i j c [-> _]%alt_secondary [-> _]%alt_secondary. done.
  - by intros i [_ ?]%alt_secondary.
Qed.

Lemma alt_rows : rows_ok alt_table ex_fields rows78.
Proof.
  intros pk r Hr. destruct (store78_rep) as [Hro _]. destruct (Hro pk r Hr) as [(Hrec & _ & _) Hpk]. split; [|exact Hpk].
  split; [done|]. split.
  - intros i. destruct (Nat.lt_ge_cases i 2) as [Hi|Hi]; [|rewrite alt_high by done; by apply Forall_nil].
    destruct i as [|[|i]]; [..|lia]; ex_forall; intros E'; discriminate E'.
  - intros i Hk. destruct i as [|[|i]]; done.
Qed.

Lemma alt_alters : alters (RowServices0 := svc) (E := mem_db) alt_table (Some 0%nat) keys_i ex_fields ex_stored (fun _ => False) rows78 plain_store [1%nat] [].
Proof.
  split.
  - intros i. destruct i as [|[|i]].
    + rewrite decide_False; [done|]. by intros [_ ?].
    + rewrite decide_True; [by vm_compute|]. split; [by eexists|done].
    + rewrite decide_False; [done|]. intros [[k Hk] _]. discriminate Hk.
  - repeat constructor. apply not_elem_of_nil.
  - intros i ->%list_elem_of_singleton. split_and!; [by eexists|done|done|tauto].
  - split; [apply alt_rows|]. split; [vm_compute; eauto|]. destruct store78_rep as (_ & _ & Hd & _). intros pk. specialize (Hd pk).
    unfold db_get in *. change (store78 !! cf ex_table) with (plain_store !! cf alt_table) in Hd. exact Hd.
  - intros i c [-> _]%alt_secondary Hi. destruct Hi. by left.
  - by intros nm ?%not_elem_of_nil.
Qed.

Lemma alt_build_ok : InplaceSpec.build_ok (txn := unit) alt_table ex_stored (RO := ex_reader_ok) (added_indexes alt_table keys_i [1%nat]) rows78.
Proof.
  assert (forall i c, (i, c) ∈ added_indexes alt_table keys_i [1%nat] -> i = 1%nat /\ c = bs "d__idx_i") as Hi
    by (intros i c H%list_elem_of_singleton; by simplify_eq).
  split.
  - repeat constructor. apply not_elem_of_nil.
  - intros i c [-> ->]%Hi. split; [vm_compute; lia|done].
  - intros i c [-> ->]%Hi _. by repeat constructor.
  - apply (map_Forall_to_list (fun pk _ => zlen (RowFormat.build_data_key pk) <= Scan.DATA_KEY_BUF_LEN)).
    vm_compute. repeat constructor; discriminate.
  - intros i c pk r buf [-> ->]%Hi [-> | ->]%Counters.rows78_cases [_ ->]; vm_compute; reflexivity.
Qed.

Lemma alter_exact_witness :
  exists d', table_rep (RowServices0 := svc) alt_table ex_fields ex_stored
    (InplaceSpec.now_covered alt_table (fun _ => False) (added_indexes alt_table keys_i [1%nat])) rows78 d'.
Proof.
  pose proof (alter_exact (RowServices0 := svc) (RowReader0 := ex_reader) (E := mem_db) alt_table (Some 0%nat) keys_i (fun _ => false)
    ex_fields ex_stored (fun _ => False) (RO := ex_reader_ok) rows78 r7 4 [1%nat] [] [] plain_store alt_ok alt_alters alt_build_ok
    (fun _ => eq_refl)) as H.
  pose proof (spec_run _ _ _ _ (library plain_store) (false, Some (opened_meta alt_table (Some 0%nat) keys_i 4)) H
    (conj (Forall_nil_2 _) eq_refl) ltac:(vm_compute; reflexivity)) as (d' & _ & _ & _ & Hok & _).
  exists d'. apply (Hok eq_refl).
Defined.

End DdlExample.
