(* ===== verification/Open.v ===== *)
(** * Opening a table ([ha_tidesdb_open.cc], [ha_tidesdb_table_options.cc], [ha_tidesdb_config.cc])

    The options of a table from the session's defaults and its attribute, the configuration they give a
    column family, and the first open of a table, which fills the share all handlers of the table use.
    The session's variables are a record; the server's table object is its keys, columns and attributes.
    Warnings, the file's creation time and the pointers into the record buffer have no counterpart. *)
From S2P Require Import Prelude Effects TidesDb RowFormat CfName FkCatalog Lifecycle TableOptions Table KeyCodec Row TableMeta FtsText FtsScore RowDb Dml KeyEnc Keyring CursorDb FkRows Spatial Scan Counters Stats TableDdl TableDdlSpec.
Import Table KeyCodec Dml.
#[local] Open Scope Z_scope.
#[local] Open Scope tdb_scope.

Module Open.

Abbreviation options := TableOptions.ha_table_option_struct.

Definition TIDESDB_DEFAULT_ENCRYPTION_KEY_ID : Z := 1.
Definition TIDESDB_TTL_FIELD_NONE : Z := -1.
Definition HA_ERR_NO_SUCH_TABLE : Z := 155.

(** ** Options *)

(** The session variables [tidesdb_default_*]. *)
Record session_defaults := {
  default_keep_values_inline : bool;
  default_btree_klog_block_size : Z;
  default_level_size_ratio : Z;
  default_min_levels : Z;
  default_dividing_level_offset : Z;
  default_bloom_fpr : Z;
  default_l1_file_count_trigger : Z;
  default_compression : Z;
  default_isolation_level : Z;
  default_bloom_filter : bool;
  default_tombstone_density_trigger : Z;
  default_tombstone_density_min_entries : Z }.

Definition ULONGLONG_MAX : Z := 2 ^ 64 - 1.

(** The values the server lets a session give them: the bounds of their declarations, and an index into the names
    of the two enumerations. *)
Definition session_bounds (v : session_defaults) : bool :=
  let within (lo hi x : Z) := (lo <=? x) && (x <=? hi) in
  within 512 ULONGLONG_MAX (default_btree_klog_block_size v) && within 2 100 (default_level_size_ratio v) &&
  within 1 64 (default_min_levels v) && within 0 64 (default_dividing_level_offset v) &&
  within 1 10000 (default_bloom_fpr v) && within 1 1024 (default_l1_file_count_trigger v) &&
  within 0 (zlen TableOptions.compression_names - 1) (default_compression v) &&
  within 0 (zlen TableOptions.isolation_level_names - 1) (default_isolation_level v) &&
  within 0 10000 (default_tombstone_density_trigger v) && within 0 ULONGLONG_MAX (default_tombstone_density_min_entries v).

(** The values a server starts with. *)
Definition shipped_defaults : session_defaults := {|
  default_keep_values_inline := false;
  default_btree_klog_block_size := 4096;
  default_level_size_ratio := 10;
  default_min_levels := 1;
  default_dividing_level_offset := 1;
  default_bloom_fpr := 100;
  default_l1_file_count_trigger := 4;
  default_compression := 2;
  default_isolation_level := 2;
  default_bloom_filter := true;
  default_tombstone_density_trigger := 0;
  default_tombstone_density_min_entries := 1024 |}.

Definition tdb_table_option_defaults (v : session_defaults) : options := {|
  TableOptions.keep_values_inline := default_keep_values_inline v;
  TableOptions.btree_klog_block_size := default_btree_klog_block_size v;
  TableOptions.level_size_ratio := default_level_size_ratio v;
  TableOptions.min_levels := default_min_levels v;
  TableOptions.dividing_level_offset := default_dividing_level_offset v;
  TableOptions.bloom_fpr := default_bloom_fpr v;
  TableOptions.l1_file_count_trigger := default_l1_file_count_trigger v;
  TableOptions.compression := default_compression v;
  TableOptions.isolation_level := default_isolation_level v;
  TableOptions.bloom_filter := default_bloom_filter v;
  TableOptions.tombstone_density_trigger := default_tombstone_density_trigger v;
  TableOptions.tombstone_density_min_entries := default_tombstone_density_min_entries v;
  TableOptions.ttl := 0;
  TableOptions.encrypted := false;
  TableOptions.encryption_key_id := TIDESDB_DEFAULT_ENCRYPTION_KEY_ID |}.

(** What the server records of a table: its attribute, and for each column its name and attribute. *)
Record attributes := { engine_attribute : option bytes; columns : list (bytes * option bytes) }.

Definition named (a : option bytes) : bool := match a with Some (_ :: _) => true | _ => false end.

(** [inl] is the message of a refused attribute, with the options as far as they were read. *)
Definition tdb_read_attribute (v : session_defaults) (tbl : option attributes) : (bytes * options) + options :=
  let out := tdb_table_option_defaults v in
  match tbl with
  | None => inr out
  | Some t =>
      if negb (named (engine_attribute t)) then inr out
      else
        match TableOptions.parse_attributes (engine_attribute t) (Some TableOptions.compression_names)
                (Some TableOptions.isolation_level_names) (Some out) nonnull with
        | Some (TableOptions.Ok o) => inr o
        | Some (TableOptions.Err msg o) => inl (msg, o)
        | _ => inl ([], out)
        end
  end.

Definition tdb_table_options (v : session_defaults) (tbl : option attributes) : options :=
  match tdb_read_attribute v tbl with inr o => o | inl _ => tdb_table_option_defaults v end.

(** [None] accepts the table. *)
Definition tdb_table_options_error (v : session_defaults) (tbl : option attributes) : option bytes :=
  match tdb_read_attribute v tbl with inr _ => None | inl (why, _) => Some why end.

(** The reading of one column's attribute: whether the column holds the row's expiry, or a message. *)
Definition read_column (attr : option bytes) : bytes + bool :=
  if negb (named attr) then inr false
  else
    match TableOptions.parse_column_attributes attr nonnull nonnull with
    | Some (TableOptions.ColOk is_ttl) => inr is_ttl
    | Some (TableOptions.ColErr why _) => inl why
    | _ => inl []
    end.

Definition tdb_field_is_ttl_source (tbl : attributes) (field_index : nat) : bool :=
  match columns tbl !! field_index with
  | None => false
  | Some (_, attr) => match read_column attr with inr is_ttl => is_ttl | inl _ => false end
  end.

(** The loop over the columns: a message, or how many claim to hold the expiry. *)
Fixpoint count_ttl (cols : list (bytes * option bytes)) (ttl_columns : nat) : bytes + nat :=
  match cols with
  | [] => inr ttl_columns
  | (nm, attr) :: cols =>
      match read_column attr with
      | inl why => inl (bs "column '" ++ nm ++ bs "': " ++ why)
      | inr is_ttl => count_ttl cols (if is_ttl : bool then S ttl_columns else ttl_columns)
      end
  end.

Definition tdb_column_options_error (tbl : attributes) : option bytes :=
  match count_ttl (columns tbl) 0 with
  | inl why => Some why
  | inr n => if Nat.ltb 1 n then Some (bs "more than one column is named as the row expiry source") else None
  end.

(** ** The configuration of a family *)

Inductive codec := TDB_COMPRESS_NONE | TDB_COMPRESS_SNAPPY | TDB_COMPRESS_LZ4 | TDB_COMPRESS_ZSTD | TDB_COMPRESS_LZ4_FAST.

Definition tdb_compression_map : list codec :=
  [TDB_COMPRESS_NONE; TDB_COMPRESS_SNAPPY; TDB_COMPRESS_LZ4; TDB_COMPRESS_ZSTD; TDB_COMPRESS_LZ4_FAST].

Definition TIDESDB_BLOOM_FPR_DIVISOR : Z := 10000.
Definition TIDESDB_TOMBSTONE_DENSITY_DIVISOR : Z := 10000.

(** The members the engine sets; the encoding pipeline is the list of its stages. *)
Record cf_config := {
  enable_bloom_filter : bool;
  bloom_fpr_ : FtsScore.double;
  keep_values_inline_ : bool;
  btree_klog_block_size_ : Z;
  default_isolation_level_ : tidesdb_isolation_level_t;
  level_size_ratio_ : Z;
  min_levels_ : Z;
  dividing_level_offset_ : Z;
  l1_file_count_trigger_ : Z;
  tombstone_density_trigger_ : FtsScore.double;
  tombstone_density_min_entries_ : Z;
  encoding_pipeline : list codec }.

Definition fraction_of (n d : Z) : FtsScore.double := FtsScore.ddiv (FtsScore.of_int n) (FtsScore.of_int d).

(** [None] is a read past the end of one of the two maps; [library] is the library's default. *)
Definition build_cf_config (library : cf_config) (opts : option options) : option cf_config :=
  match opts with
  | None => Some library
  | Some o =>
      iso ← TableDdl.tdb_isolation_map !! Z.to_nat (TableOptions.isolation_level o);
      comp ← tdb_compression_map !! Z.to_nat (TableOptions.compression o);
      Some {| enable_bloom_filter := TableOptions.bloom_filter o;
              bloom_fpr_ := fraction_of (TableOptions.bloom_fpr o) TIDESDB_BLOOM_FPR_DIVISOR;
              keep_values_inline_ := TableOptions.keep_values_inline o;
              btree_klog_block_size_ := TableOptions.btree_klog_block_size o;
              default_isolation_level_ := iso;
              level_size_ratio_ := TableOptions.level_size_ratio o;
              min_levels_ := to_int (TableOptions.min_levels o);
              dividing_level_offset_ := to_int (TableOptions.dividing_level_offset o);
              l1_file_count_trigger_ := to_int (TableOptions.l1_file_count_trigger o);
              tombstone_density_trigger_ :=
                fraction_of (TableOptions.tombstone_density_trigger o) TIDESDB_TOMBSTONE_DENSITY_DIVISOR;
              tombstone_density_min_entries_ := TableOptions.tombstone_density_min_entries o;
              encoding_pipeline := match comp with TDB_COMPRESS_NONE => [] | c => [c] end |}
  end.

Definition data_cf_config (cfg : cf_config) (encrypted : bool) : cf_config :=
  {| enable_bloom_filter := enable_bloom_filter cfg; bloom_fpr_ := bloom_fpr_ cfg; keep_values_inline_ := keep_values_inline_ cfg;
     btree_klog_block_size_ := btree_klog_block_size_ cfg; default_isolation_level_ := default_isolation_level_ cfg;
     level_size_ratio_ := level_size_ratio_ cfg; min_levels_ := min_levels_ cfg; dividing_level_offset_ := dividing_level_offset_ cfg;
     l1_file_count_trigger_ := l1_file_count_trigger_ cfg; tombstone_density_trigger_ := tombstone_density_trigger_ cfg;
     tombstone_density_min_entries_ := tombstone_density_min_entries_ cfg;
     encoding_pipeline := if encrypted then [] else encoding_pipeline cfg |}.

(** ** The share *)

(** What the server says of a table. *)
Record table_def := {
  td_attributes : attributes;
  td_row : Row.TABLE;
  td_record1 : record;
  td_keys : list TableDdl.named_key;
  td_kinds : list index_kind;
  td_nosame : list bool;
  td_primary_key : option nat;
  td_columns : FkRows.table_info;
  td_next_number : option Field;
  td_triggers : bool;
  td_name : bytes * bytes;
  td_fts : FtsText.tokenize_opts }.

Record share_state := {
  found_cf : option bytes;
  cf_name : bytes;
  user_pk : option nat;
  pk_key_len : Z;
  opts : TableDdl.share_options;
  encryption_key_version : Z;
  blob_field_indices : list Z;
  fks : FkRows.fk_share;
  plan : Row.TidesDB_share;
  indexes : TableDdl.index_meta;
  ctrs : Counters.counters;
  stats : Stats.cached }.

(** A share no handler has opened yet; [options()] is zero-initialised. *)
Definition new_share : share_state := {|
  found_cf := None; cf_name := []; user_pk := None; pk_key_len := 0;
  opts := {| TableDdl.so_options := TableMeta.zeroed; TableDdl.so_isolation := TDB_ISOLATION_REPEATABLE_READ; TableDdl.so_default_ttl := 0;
             TableDdl.so_ttl_field_idx := TIDESDB_TTL_FIELD_NONE; TableDdl.so_has_ttl := false; TableDdl.so_encrypted := false;
             TableDdl.so_encryption_key_id := TIDESDB_DEFAULT_ENCRYPTION_KEY_ID |};
  encryption_key_version := 0; blob_field_indices := [];
  fks := {| FkRows.fk_loaded := false; FkRows.fk_child := []; FkRows.fk_parent := [] |};
  plan := {| Row.field_plan := []; Row.null_bytes_cached := 0; Row.fields_cached := 0; Row.has_no_nullable := false; Row.has_blobs := false |};
  indexes := {| TableDdl.meta_families := []; TableDdl.num_secondary_indexes := 0;
                TableDdl.meta_codec := {| has_user_pk := false; pk_index := 0; key_info := []; idx_comp_key_len := []; idx_cover := [] |} |};
  ctrs := {| Counters.row_id := 1; Counters.auto_inc := 0 |};
  stats := {| Stats.cached_records := 0; Stats.cached_data_size := 0; Stats.cached_idx_data_size := 0; Stats.cached_mean_rec_len := 0;
              Stats.stats_refresh_us := 0; Stats.cached_read_amp := Stats.READ_AMP_NONE; Stats.cached_rec_per_key := replicate MAX_KEY 0;
              Stats.idx_stats_sampled := false; Stats.idx_stats_sampling := false; Stats.cached_scan_cost := FtsScore.ZERO;
              Stats.scan_cost_time := 0 |} |}.

Definition set_family (c : option bytes) (nm : bytes) (s : share_state) : share_state :=
  {| found_cf := c; cf_name := nm; user_pk := user_pk s; pk_key_len := pk_key_len s; opts := opts s;
     encryption_key_version := encryption_key_version s; blob_field_indices := blob_field_indices s; fks := fks s; plan := plan s;
     indexes := indexes s; ctrs := ctrs s; stats := stats s |}.
Definition set_pk (pk : option nat) (len : Z) (s : share_state) : share_state :=
  {| found_cf := found_cf s; cf_name := cf_name s; user_pk := pk; pk_key_len := len; opts := opts s;
     encryption_key_version := encryption_key_version s; blob_field_indices := blob_field_indices s; fks := fks s; plan := plan s;
     indexes := indexes s; ctrs := ctrs s; stats := stats s |}.
Definition set_opts (o : TableDdl.share_options) (ver : Z) (s : share_state) : share_state :=
  {| found_cf := found_cf s; cf_name := cf_name s; user_pk := user_pk s; pk_key_len := pk_key_len s; opts := o;
     encryption_key_version := ver; blob_field_indices := blob_field_indices s; fks := fks s; plan := plan s;
     indexes := indexes s; ctrs := ctrs s; stats := stats s |}.
Definition set_columns (blobs : list Z) (f : FkRows.fk_share) (s : share_state) : share_state :=
  {| found_cf := found_cf s; cf_name := cf_name s; user_pk := user_pk s; pk_key_len := pk_key_len s; opts := opts s;
     encryption_key_version := encryption_key_version s; blob_field_indices := blobs; fks := f; plan := plan s;
     indexes := indexes s; ctrs := ctrs s; stats := stats s |}.
Definition set_indexes (p : Row.TidesDB_share) (m : TableDdl.index_meta) (s : share_state) : share_state :=
  {| found_cf := found_cf s; cf_name := cf_name s; user_pk := user_pk s; pk_key_len := pk_key_len s; opts := opts s;
     encryption_key_version := encryption_key_version s; blob_field_indices := blob_field_indices s; fks := fks s; plan := p;
     indexes := m; ctrs := ctrs s; stats := stats s |}.
Definition set_counts (cs : Counters.counters) (k : Stats.cached) (s : share_state) : share_state :=
  {| found_cf := found_cf s; cf_name := cf_name s; user_pk := user_pk s; pk_key_len := pk_key_len s; opts := opts s;
     encryption_key_version := encryption_key_version s; blob_field_indices := blob_field_indices s; fks := fks s; plan := plan s;
     indexes := indexes s; ctrs := cs; stats := k |}.

(** The share as the row operations see it. *)
Definition as_share (td : table_def) (s : share_state) : share := {|
  Dml.codec := TableDdl.meta_codec (indexes s); cf := cf_name s; idx_cfs := map fst (TableDdl.meta_families (indexes s));
  idx_kind := td_kinds td; nosame := td_nosame td; encrypted := TableDdl.so_encrypted (opts s); ref_length := pk_key_len s;
  has_next_number := bool_decide (is_Some (td_next_number td)); triggers := td_triggers td; table_name := td_name td; fts_opts := td_fts td |}.

(** The first column whose attribute names it as the expiry. *)
Definition first_ttl_field (tbl : attributes) : Z :=
  match list_find (fun i => tdb_field_is_ttl_source tbl i = true) (seq 0 (length (columns tbl))) with
  | Some (_, i) => Z.of_nat i
  | None => TIDESDB_TTL_FIELD_NONE
  end.

Definition blob_fields (t : Row.TABLE) : list Z :=
  omap (fun p => if blob_flag p.2 then Some (u16 (Z.of_nat p.1)) else None) (zip (seq 0 (length (Row.fields t))) (Row.fields t)).

Definition resolved_options (o : options) (s : share_state) : TableDdl.share_options := {|
  TableDdl.so_options := o;
  TableDdl.so_isolation := default (TableDdl.so_isolation (opts s)) (TableDdl.tdb_isolation_map !! Z.to_nat (TableOptions.isolation_level o));
  TableDdl.so_default_ttl := TableOptions.ttl o;
  TableDdl.so_ttl_field_idx := TableDdl.so_ttl_field_idx (opts s);
  TableDdl.so_has_ttl := TableDdl.so_has_ttl (opts s);
  TableDdl.so_encrypted := TableOptions.encrypted o;
  TableDdl.so_encryption_key_id := if TableOptions.encrypted o then u32 (TableOptions.encryption_key_id o) else TIDESDB_DEFAULT_ENCRYPTION_KEY_ID |}.

Definition with_ttl_field (i : Z) (o : TableDdl.share_options) : TableDdl.share_options := {|
  TableDdl.so_options := TableDdl.so_options o; TableDdl.so_isolation := TableDdl.so_isolation o;
  TableDdl.so_default_ttl := TableDdl.so_default_ttl o; TableDdl.so_ttl_field_idx := i;
  TableDdl.so_has_ttl := (0 <? TableDdl.so_default_ttl o) || (0 <=? i);
  TableDdl.so_encrypted := TableDdl.so_encrypted o; TableDdl.so_encryption_key_id := TableDdl.so_encryption_key_id o |}.

Section code.
Context {E txn K R : Type} `{!TidesDb E txn, !FamilyDb E txn, !RowDb E txn, !RowServices E txn, !CursorDb E txn, !Scan.RowReader E,
  !StatsDb E txn, !Pow, !KeyringSvc K R} {SF : ServerField}.
Context (my_aes_encrypt : bytes -> bytes -> Keyring.opmode -> option bytes -> bool -> option bytes).
Local Open Scope eff_scope.

#[local] Abbreviation st := (Keyring.crypto E K).

Definition open_init_share_columns (v : session_defaults) (td : table_def) (name : bytes) (s : share_state) :
    M st (ha_code * share_state) :=
  let nm := CfName.to_cf_name name in
  h <-- Keyring.on_db (TableDdl.handle nm);
  let s := set_family h nm s in
  match h with
  | None => ret (HA_SERVER HA_ERR_NO_SUCH_TABLE, s)
  | Some c =>
      let s := match td_primary_key td with
               | Some pk => set_pk (Some pk) (comparable_key_length (key_at (map snd (td_keys td)) pk)) s
               | None => set_pk None (Z.of_nat RowFormat.HIDDEN_PK_SIZE) s
               end in
      o <-- Keyring.on_db (TableMeta.tdb_table_options_load (Some c));
      let ro := resolved_options (default (tdb_table_options v (Some (td_attributes td))) o) s in
      let s := set_opts ro 0 s in
      ver <-- (if TableDdl.so_encrypted ro then Keyring.tdb_crypto_latest_key_version my_aes_encrypt (TableDdl.so_encryption_key_id ro)
               else ret 0);
      if TableDdl.so_encrypted ro && (ver =? Keyring.TDB_CRYPTO_KEY_VERSION_INVALID) then ret (HA_SERVER HA_ERR_NO_SUCH_TABLE, s)
      else
        let s := set_opts (with_ttl_field (first_ttl_field (td_attributes td)) ro) ver s in
        f <-- Keyring.on_db (FkRows.fk_load nm (td_columns td) (fks s));
        ret (HA_OK, set_columns (blob_fields (td_row td)) f s)
  end.

Definition open_indexes (td : table_def) (s : share_state) : M st share_state :=
  fs <-- Keyring.on_db (TableDdl.index_families (cf_name s) (user_pk s) 0 (map fst (td_keys td)));
  let m := {| TableDdl.meta_families := fs;
              TableDdl.num_secondary_indexes := zlen (List.filter (fun f => bool_decide (is_Some f.1)) fs);
              TableDdl.meta_codec := open_build_index_meta (length (Row.fields (td_row td))) (bool_decide (is_Some (user_pk s)))
                (default MAX_KEY (user_pk s)) (map snd (td_keys td)) |} in
  let s := set_indexes (Row.open_build_field_plan (td_row td)) m s in
  cs <-- Keyring.on_db (Counters.recover_counters (as_share td s) (td_next_number td) (td_record1 td) (ctrs s));
  ret (set_counts cs (stats s) s).

(** The first open of a table fills its share; a later one finds it filled.  The answer is the share and the
    statistics the handler shows. *)
Definition open (v : session_defaults) (td : table_def) (w : Stats.surroundings) (name : bytes) (x : Stats.ha_statistics)
    (s : share_state) : M st (ha_code * share_state * Stats.ha_statistics) :=
  r <-- (if bool_decide (is_Some (found_cf s)) then ret (HA_OK, s)
         else
           r <-- open_init_share_columns v td name s;
           if bool_decide (r.1 = HA_OK) then s <-- open_indexes td r.2; ret (HA_OK, s) else ret r);
  if bool_decide (r.1 = HA_OK) then
    let s := r.2 in
    i <-- Keyring.on_db (Stats.info (as_share td s) (Row.reclength (td_row td)) w
            {| Stats.ST_ERRKEY := false; Stats.ST_VARIABLE := true; Stats.ST_CONST := true; Stats.ST_TIME := false; Stats.ST_AUTO := false |}
            0 0 (stats s) x);
    ret (HA_OK, set_counts (ctrs s) (Stats.set_refresh 0 i.1.2) s, i.2)
  else ret (r.1, r.2, x).

(** ** Closing a handler *)

#[local] Abbreviation sc := (Scan.scanner E txn (iter E)).

Definition let_go (h : handler E txn) : handler E txn :=
  {| lib := lib h; stmt_txn := None; stmt_txn_dirty := false; cached_trx_ := cached_trx_ h;
     scan_txn := scan_txn h; scan_iter := scan_iter h; current_pk := current_pk h; dup_key_no_ := dup_key_no_ h;
     dup_ref := dup_ref h; mod_table_noted_generation_ := mod_table_noted_generation_ h;
     next_row_id := next_row_id h; auto_inc_val := auto_inc_val h; bulk_of := bulk_of h |}.

Definition close : M sc ha_code :=
  Scan.free_iter true;;
  modify (fun x : sc => Scan.set_base (let_go (Scan.base x)) x);;
  ret HA_OK.

(** A handler that is closed gives its iterator back and leaves the connection's transaction open, with what it
    wrote: the transaction is the connection's, not the handler's. *)
Lemma close_keeps_transaction d ws y (x0 : sc) :
  spec (fun x => x = x0 /\ committed (lib (Scan.base x)) = d /\ pending (lib (Scan.base x)) y = ws) close
    (fun rc x => rc = HA_OK /\ Scan.cur x = None /\ stmt_txn (Scan.base x) = None /\
       cached_trx_ (Scan.base x) = cached_trx_ (Scan.base x0) /\
       committed (lib (Scan.base x)) = d /\ pending (lib (Scan.base x)) y = ws)
    (fun x => committed (lib (Scan.base x)) = d).
Proof.
  intros x (-> & Hd & Hw). unfold close, Scan.free_iter, bind, gets, modify, ret.
  destruct (Scan.cur x0) as [it|] eqn:Ec; [|by split_and!].
  unfold Scan.on_db, Scan.on_base, on_lib, lift. pose proof (iter_free_law d ws y it _ (conj Hd Hw)) as Hf.
  destruct (iter_free it _) as [e' [[]|]]; [destruct Hf; by split_and!|done].
Qed.

End code.

(** ** Lemmas: options *)

#[local] Abbreviation in_range := (TableOptions.in_range TableOptions.compression_names TableOptions.isolation_level_names).

(** Whatever a table's attribute says, its options stay in their ranges if the session's defaults are. *)
Lemma table_options_in_range v tbl : in_range (tdb_table_option_defaults v) -> in_range (tdb_table_options v tbl).
Proof.
  intros Hd. unfold tdb_table_options, tdb_read_attribute. destruct tbl as [t|]; [|done]. destruct (negb _); [done|].
  destruct (TableOptions.options_stay_in_range (engine_attribute t) _ _ _ Hd) as (r & -> & Hr). by destruct r.
Qed.

Lemma session_bounds_in_range v : session_bounds v = true -> in_range (tdb_table_option_defaults v).
Proof.
  unfold session_bounds, TableOptions.in_range. rewrite !andb_true_iff, !Z.leb_le.
  assert (ULONGLONG_MAX = TableOptions.ULL_MAX) as -> by done. assert (0 <= TableOptions.ULL_MAX) by done.
  assert (zlen TableOptions.compression_names = 5) as -> by done. assert (zlen TableOptions.isolation_level_names = 5) as -> by done.
  unfold tdb_table_option_defaults, TIDESDB_DEFAULT_ENCRYPTION_KEY_ID. cbn [TableOptions.btree_klog_block_size TableOptions.level_size_ratio
    TableOptions.min_levels TableOptions.dividing_level_offset TableOptions.bloom_fpr TableOptions.l1_file_count_trigger
    TableOptions.tombstone_density_trigger TableOptions.tombstone_density_min_entries TableOptions.ttl TableOptions.encryption_key_id
    TableOptions.compression TableOptions.isolation_level]. lia.
Qed.

Lemma to_int_small z : 0 <= z < 2 ^ 31 -> to_int z = z.
Proof. intros Hz. unfold to_int, u32. rewrite Z.mod_small by lia. destruct (Z.ltb_spec z (2 ^ 31)); lia. Qed.

(** Options in their ranges configure a family: neither map is read past its end. *)
Lemma config_defined library o : in_range o -> is_Some (build_cf_config library (Some o)).
Proof.
  intros (_ & _ & _ & _ & _ & _ & _ & _ & _ & _ & Hc & Hi). unfold build_cf_config.
  assert (forall (A : Type) (l : list A) (z : Z), 0 <= z < zlen l -> is_Some (l !! Z.to_nat z)) as Hl.
  { intros A l z Hz. apply lookup_lt_is_Some_2. unfold zlen in Hz. lia. }
  destruct (Hl _ TableDdl.tdb_isolation_map (TableOptions.isolation_level o)) as [iso ->]; [exact Hi|].
  destruct (Hl _ tdb_compression_map (TableOptions.compression o)) as [comp ->]; [exact Hc|]. by eexists.
Qed.

(** The options a table gets are those of the session and its attribute, and every number reaches the family as
    it was written. *)
Definition configures (o : options) (cfg : cf_config) : Prop :=
  min_levels_ cfg = TableOptions.min_levels o /\ dividing_level_offset_ cfg = TableOptions.dividing_level_offset o /\
  l1_file_count_trigger_ cfg = TableOptions.l1_file_count_trigger o /\
  level_size_ratio_ cfg = TableOptions.level_size_ratio o /\
  TableDdl.tdb_isolation_map !! Z.to_nat (TableOptions.isolation_level o) = Some (default_isolation_level_ cfg) /\
  (length (encoding_pipeline cfg) <= 1)%nat /\
  (encoding_pipeline cfg = [] <-> TableOptions.compression o = 0).

Lemma config_configures library o cfg : in_range o -> build_cf_config library (Some o) = Some cfg -> configures o cfg.
Proof.
  intros (_ & _ & Hm & Hd & _ & Hl & _ & _ & _ & _ & Hc & _). unfold build_cf_config.
  destruct (TableDdl.tdb_isolation_map !! _) as [iso|] eqn:Ei; [|done].
  destruct (tdb_compression_map !! Z.to_nat _) as [comp|] eqn:Ec; [|done]. simpl. intros [= <-].
  unfold configures. simpl. rewrite !to_int_small by lia. do 5 (split; [done|]). split; [destruct comp; simpl; lia|].
  destruct (Z.to_nat (TableOptions.compression o)) as [|[|[|[|[|n]]]]] eqn:En; simpl in Ec; simplify_eq; split; try done; lia.
Qed.

(** C31: the storage configuration of every table is well formed: whatever the session's variables are within their
    declared bounds and whatever the table's attribute says, readable or not, the options stay in their ranges, the
    family's configuration exists (neither name map is read past its end), no narrowing loses part of a number,
    and compression is on exactly when the options name an algorithm. *)
Theorem table_configuration_well_formed v tbl library :
  session_bounds v = true ->
  exists cfg, build_cf_config library (Some (tdb_table_options v tbl)) = Some cfg /\
    in_range (tdb_table_options v tbl) /\ configures (tdb_table_options v tbl) cfg.
Proof.
  intros Hv%session_bounds_in_range. apply (table_options_in_range v tbl) in Hv.
  destruct (config_defined library _ Hv) as [cfg Hc]. exists cfg. split_and!; [done..|by apply (config_configures library)].
Qed.

(** A library's default and the attribute that asks for ZSTD. *)
Definition library_config : cf_config := {|
  enable_bloom_filter := true; bloom_fpr_ := fraction_of 1 100; keep_values_inline_ := false; btree_klog_block_size_ := 4096;
  default_isolation_level_ := TDB_ISOLATION_SNAPSHOT; level_size_ratio_ := 10; min_levels_ := 1; dividing_level_offset_ := 1;
  l1_file_count_trigger_ := 4; tombstone_density_trigger_ := FtsScore.ZERO; tombstone_density_min_entries_ := 1024;
  encoding_pipeline := [TDB_COMPRESS_LZ4] |}.
Definition zstd_attribute : bytes :=
  123 :: TableOptions.item (bs "compression") (TableOptions.QUOTE :: bs "ZSTD" ++ [TableOptions.QUOTE]) ++ [125].
Definition zstd_table : attributes := {| engine_attribute := Some zstd_attribute; columns := [] |}.

Lemma table_configuration_well_formed_witness :
  exists cfg, build_cf_config library_config (Some (tdb_table_options shipped_defaults (Some zstd_table))) = Some cfg /\
    encoding_pipeline cfg = [TDB_COMPRESS_ZSTD] /\ in_range (tdb_table_options shipped_defaults (Some zstd_table)).
Proof.
  destruct (table_configuration_well_formed shipped_defaults (Some zstd_table) library_config) as (cfg & Hc & Hr & _); [reflexivity|].
  exists cfg. split; [exact Hc|]. split; [|exact Hr]. vm_compute in Hc. by injection Hc as <-.
Defined.

(** An encrypted table's rows are not compressed and its other settings are the table's. *)
Lemma encrypted_rows_not_compressed cfg : encoding_pipeline (data_cf_config cfg true) = [] /\ data_cf_config cfg false = cfg.
Proof. by destruct cfg. Qed.

(** ** Lemmas: the expiry column *)

Definition reads_ttl (c : bytes * option bytes) : bool := match read_column c.2 with inr b => b | inl _ => false end.

Lemma count_ttl_exact cols : forall n m, count_ttl cols n = inr m -> m = (n + length (List.filter reads_ttl cols))%nat.
Proof.
  induction cols as [|[nm attr] cols IH]; intros n m; simpl; [intros [= ->]; lia|].
  unfold reads_ttl at 1. cbn [snd]. destruct (read_column attr) as [why|[]]; [done| |]; intros ->%IH; simpl; lia.
Qed.

Lemma ttl_source_reads tbl i : tdb_field_is_ttl_source tbl i = true <-> exists c, columns tbl !! i = Some c /\ reads_ttl c = true.
Proof.
  unfold tdb_field_is_ttl_source, reads_ttl. destruct (columns tbl !! i) as [[nm attr]|]; [|split; [done|by intros (? & ? & _)]].
  split; [intros H; by exists (nm, attr)|by intros (? & [= <-] & H)].
Qed.

Lemma filter_two {A} (f : A -> bool) (l : list A) i j a b :
  (i < j)%nat -> l !! i = Some a -> l !! j = Some b -> f a = true -> f b = true -> (1 < length (List.filter f l))%nat.
Proof.
  revert i j. induction l as [|x l IH]; intros i j Hij Hi Hj Ha Hb; [done|]. simpl.
  destruct i as [|i], j as [|j]; try lia; simpl in Hi, Hj.
  - injection Hi as ->. rewrite Ha. simpl. assert (In b (List.filter f l)) as Hin.
    { apply filter_In. split; [|done]. by eapply list_elem_of_In, list_elem_of_lookup_2. }
    destruct (List.filter f l); [done|simpl; lia].
  - assert (1 < length (List.filter f l))%nat by (apply (IH i j); [lia|done..]). destruct (f x); simpl; lia.
Qed.

(** A table whose column attributes were accepted has one expiry column at most, and it is the one an open of the
    table takes. *)
Lemma accepted_ttl_column tbl i :
  tdb_column_options_error tbl = None -> tdb_field_is_ttl_source tbl i = true <-> first_ttl_field tbl = Z.of_nat i.
Proof.
  unfold tdb_column_options_error. destruct (count_ttl (columns tbl) 0) as [?|n] eqn:Ec; [done|].
  apply count_ttl_exact in Ec. simpl in Ec. destruct (Nat.ltb_spec 1 n) as [|Hn]; [done|]. intros _.
  assert (forall j k, tdb_field_is_ttl_source tbl j = true -> tdb_field_is_ttl_source tbl k = true -> ~ (j < k)%nat) as Huniq.
  { intros j k (a & Ha & Ra)%ttl_source_reads (b & Hb & Rb)%ttl_source_reads Hjk.
    pose proof (filter_two reads_ttl (columns tbl) j k a b Hjk Ha Hb Ra Rb). lia. }
  unfold first_ttl_field. destruct (list_find _ _) as [[p j]|] eqn:Ef.
  - apply list_find_Some in Ef as (_ & Hj & _). split.
    + intros Hi. pose proof (Huniq i j Hi Hj). pose proof (Huniq j i Hj Hi). lia.
    + intros H. apply Nat2Z.inj in H as ->. done.
  - split; [|unfold TIDESDB_TTL_FIELD_NONE; lia]. intros Hi.
    apply list_find_None in Ef. rewrite Forall_forall in Ef. destruct (Ef i); [|done].
    apply ttl_source_reads in Hi as (c & Hc & _). apply elem_of_seq. apply lookup_lt_Some in Hc. lia.
Qed.

(** ** Lemmas: the share *)

Lemma spec_any {S A : Type} (P : S -> Prop) (m : M S A) : spec P m (fun _ _ => True) (fun _ => True).
Proof. intros s _. by destruct (m s) as [s' [a|]]. Qed.

Section Opened.
Context {E txn K R : Type} `{!TidesDb E txn, !FamilyDb E txn, !QuietDb E txn, !QuietFamilies E txn, !RowDb E txn, !RowServices E txn,
  !CursorDb E txn, !Scan.RowReader E, !StatsDb E txn, !Pow, !KeyringSvc K R} {SF : ServerField}.
Context (my_aes_encrypt : bytes -> bytes -> Keyring.opmode -> option bytes -> bool -> option bytes).
Context (v : session_defaults) (td : table_def) (name : bytes).
Local Open Scope eff_scope.

#[local] Abbreviation st := (Keyring.crypto E K).
#[local] Abbreviation run P m Q := (spec P m Q (fun _ => True)).
#[local] Abbreviation nm := (CfName.to_cf_name name).

(** The library holds [d] and does not fail; the keyring is as [Z] says. *)
Definition calm (Z : st -> Prop) (d : store) (c : st) : Prop := Lifecycle.at_store d (Keyring.db c) /\ Z c.

Definition of_keyring (Z : st -> Prop) : Prop := forall e c, Z c -> Z (Keyring.with_db e c).

Lemma on_db_run {A : Type} Z (P : E -> Prop) (m : M E A) (Q : A -> E -> Prop) :
  of_keyring Z -> run P m Q -> run (fun c => P (Keyring.db c) /\ Z c) (Keyring.on_db m) (fun a c => Q a (Keyring.db c) /\ Z c).
Proof.
  intros HZ Hm. apply spec_lift. intros c [HP Hc] e ->. specialize (Hm _ HP).
  destruct (m (Keyring.db c)) as [e' [a|]]; [|done]. split; [done|by apply HZ].
Qed.

(** The options recorded with the table, read back; the session has no say. *)
Definition recorded (o : options) (d : store) : Prop :=
  db_get nm TableMeta.OPTIONS_META_KEY d =
    Some (TableOptions.serialize_attributes o (Some TableOptions.compression_names) (Some TableOptions.isolation_level_names)) /\
  in_range o.

Lemma recorded_family o d : recorded o d -> is_Some (d !! nm).
Proof. intros [Hg _]. unfold db_get in Hg. destruct (d !! nm); [by eexists|done]. Qed.

Lemma load_recorded Z o d :
  of_keyring Z -> recorded o d ->
  run (calm Z d) (Keyring.on_db (TableMeta.tdb_table_options_load (Some nm))) (fun r c => r = Some o /\ calm Z d c).
Proof.
  intros HZ [Hg Ho]. eapply spec_weaken; [apply (on_db_run Z (Lifecycle.at_store d) _ (fun r e => r = Some o /\ Lifecycle.at_store d e) HZ)|done| |done].
  - unfold TableMeta.tdb_table_options_load. eapply spec_bind.
    + eapply spec_weaken; [apply (TableMeta.get_alone_quiet d nm TableMeta.OPTIONS_META_KEY)|by intros e [? ?]|intros x e Hx; exact Hx|done].
    + intros x. apply spec_ret. intros e (-> & Hd & Hq). rewrite Hg. cbn [mbind option_bind]. split; [by apply TableMeta.options_read|by split].
  - intros r c [[-> H1] H2]. by split.
Qed.

(** The members of a new share before its encryption is looked at. *)
Definition based (o : options) : share_state :=
  let s := set_family (Some nm) nm new_share in
  let s := match td_primary_key td with
           | Some pk => set_pk (Some pk) (comparable_key_length (key_at (map snd (td_keys td)) pk)) s
           | None => set_pk None (Z.of_nat RowFormat.HIDDEN_PK_SIZE) s
           end in
  set_opts (resolved_options o s) 0 s.

Lemma resolved_based o : opts (based o) = resolved_options o new_share.
Proof. unfold based. by destruct (td_primary_key td). Qed.

Lemma init_reaches_encryption Z o d Q :
  of_keyring Z -> recorded o d ->
  run (calm Z d) (let ro := resolved_options o new_share in
      ver <-- (if TableDdl.so_encrypted ro then Keyring.tdb_crypto_latest_key_version my_aes_encrypt (TableDdl.so_encryption_key_id ro)
               else ret 0);
      if TableDdl.so_encrypted ro && (ver =? Keyring.TDB_CRYPTO_KEY_VERSION_INVALID) then ret (HA_SERVER HA_ERR_NO_SUCH_TABLE, based o)
      else
        let s := set_opts (with_ttl_field (first_ttl_field (td_attributes td)) ro) ver (based o) in
        f <-- Keyring.on_db (FkRows.fk_load nm (td_columns td) (fks s));
        ret (HA_OK, set_columns (blob_fields (td_row td)) f s)) Q ->
  run (calm Z d) (open_init_share_columns my_aes_encrypt v td name new_share) Q.
Proof.
  intros HZ Hr Hrest. unfold open_init_share_columns.
  eapply (spec_bind _ _ (fun h c => h = Some nm /\ calm Z d c)).
  { eapply spec_weaken; [apply (on_db_run Z _ _ _ HZ (TableDdlSpec.handle_quiet d nm))|done| |done].
    intros h c [[-> H1] H2]. rewrite decide_True by (by apply (recorded_family o)). by split. }
  intros h. apply (spec_pure _ (h = Some nm)); [by intros c [? _]|]. intros ->.
  eapply spec_bind; [eapply spec_pre; [by apply (load_recorded Z o d)|by intros c [_ ?]]|]. intros r.
  apply (spec_pure _ (r = Some o)); [by intros c [? _]|]. intros ->. cbn [default].
  eapply (spec_pre _ (calm Z d)); [|by intros c [_ ?]].
  unfold based in Hrest. destruct (td_primary_key td); exact Hrest.
Qed.

(** The first open of a table takes the options its creation recorded, whatever the session's defaults and the
    table's attribute are now, and knows the primary key and the expiry column. *)
Lemma first_open_takes_recorded o d :
  recorded o d -> TableOptions.encrypted o = false ->
  run (calm (fun _ => True) d) (open_init_share_columns my_aes_encrypt v td name new_share)
    (fun r _ => r.1 = HA_OK /\ found_cf r.2 = Some nm /\ user_pk r.2 = td_primary_key td /\
       opts r.2 = with_ttl_field (first_ttl_field (td_attributes td)) (resolved_options o new_share)).
Proof.
  intros Hr He. apply (init_reaches_encryption _ o d); [done|done|].
  assert (TableDdl.so_encrypted (resolved_options o new_share) = false) as E1 by done. cbv zeta. rewrite E1. cbn [andb].
  eapply (spec_bind _ _ (fun _ _ => True)); [apply spec_any|]. intros ver. eapply (spec_bind _ _ (fun _ _ => True)); [apply spec_any|].
  intros f. apply spec_ret. intros c _. cbn [fst snd]. unfold based. by destruct (td_primary_key td).
Qed.

(** An open that finds the share's family takes the share as it is. *)
Lemma later_open_skips w x s :
  is_Some (found_cf s) ->
  run (fun _ => True) (open my_aes_encrypt v td w name x s)
    (fun r _ => r.1.1 = HA_OK /\ indexes r.1.2 = indexes s /\ plan r.1.2 = plan s /\ opts r.1.2 = opts s).
Proof.
  intros Hs. unfold open. rewrite bool_decide_true by done.
  eapply (spec_bind _ _ (fun r _ => r = (HA_OK, s))); [by apply spec_ret|]. intros r. apply (spec_pure _ (r = (HA_OK, s))); [done|]. intros ->.
  cbn [fst snd]. rewrite bool_decide_true by done. eapply (spec_bind _ _ (fun _ _ => True)); [apply spec_any|].
  intros i. by apply spec_ret.
Qed.

(** While the key of an encrypted table is not to be had, the first open fails, and every later one succeeds on
    a share without a field plan and without its indexes: the failed open left the family in the share,
    which is what an open takes for a share that is filled. *)
Lemma second_open_of_unreadable_table o d w x :
  recorded o d -> TableOptions.encrypted o = true ->
  run (calm (fun c => Keyring.tdb_crypto_available c = false) d)
    (r <-- open my_aes_encrypt v td w name x new_share;
     r2 <-- open my_aes_encrypt v td w name x r.1.2;
     ret (r.1.1, r2.1.1, r2.1.2))
    (fun a _ => a.1.1 = HA_SERVER HA_ERR_NO_SUCH_TABLE /\ a.1.2 = HA_OK /\ TableDdl.meta_families (indexes a.2) = [] /\
       Row.field_plan (plan a.2) = [] /\ TableDdl.so_encrypted (opts a.2) = true).
Proof.
  intros Hr He. set (Z := fun c : st => Keyring.tdb_crypto_available c = false). assert (of_keyring Z) as HZ by (intros e c Hc; exact Hc).
  eapply (spec_bind _ _ (fun r _ => r.1 = (HA_SERVER HA_ERR_NO_SUCH_TABLE, based o))).
  - unfold open. rewrite bool_decide_false by (by intros [? ?]).
    eapply (spec_bind _ _ (fun r _ => r = (HA_SERVER HA_ERR_NO_SUCH_TABLE, based o))).
    + eapply (spec_bind _ _ (fun r _ => r = (HA_SERVER HA_ERR_NO_SUCH_TABLE, based o))).
      * apply (init_reaches_encryption Z o d _ HZ Hr).
        assert (TableDdl.so_encrypted (resolved_options o new_share) = true) as E1 by done. cbv zeta. rewrite E1. cbn [andb].
        eapply (spec_bind _ _ (fun ver _ => ver = Keyring.TDB_CRYPTO_KEY_VERSION_INVALID)).
        -- unfold Keyring.tdb_crypto_latest_key_version. apply spec_bind_gets. intros a. apply (spec_pure _ (a = false)); [by intros c [[_ Hc] <-]|].
           intros ->. by apply spec_ret.
        -- intros ver. apply (spec_pure _ (ver = Keyring.TDB_CRYPTO_KEY_VERSION_INVALID)); [done|]. intros ->. by apply spec_ret.
      * intros r. apply (spec_pure _ (r = (HA_SERVER HA_ERR_NO_SUCH_TABLE, based o))); [done|]. intros ->. by apply spec_ret.
    + intros r. apply (spec_pure _ (r = (HA_SERVER HA_ERR_NO_SUCH_TABLE, based o))); [done|]. intros ->. by apply spec_ret.
  - intros r. apply (spec_pure _ (r.1 = (HA_SERVER HA_ERR_NO_SUCH_TABLE, based o))); [done|]. intros ->. cbn [fst snd].
    assert (is_Some (found_cf (based o)) /\ TableDdl.meta_families (indexes (based o)) = [] /\ Row.field_plan (plan (based o)) = []) as (H1 & H2 & H3)
      by (unfold based; destruct (td_primary_key td); by eauto).
    eapply spec_bind; [eapply spec_pre; [by apply (later_open_skips w x (based o))|done]|]. intros r2.
    apply spec_ret. intros c (Hc & Hi & Hp & Ho). cbn [fst snd]. rewrite Hi, Hp, Ho, resolved_based. by split_and!.
Qed.

End Opened.
End Open.
