(* ===== verification/TxnDb.v ===== *)
(** * The storage library's savepoints and prepared transactions

    What the transaction layer uses of the library beside [TidesDb] and [RowDb].  A savepoint remembers
    the write set of its transaction; a prepare makes the write set durable under a name, where it stays
    in doubt until it is committed or rolled back under that name, also across restarts. *)
From S2P Require Import Prelude Effects TidesDb RowDb.
#[local] Open Scope Z_scope.
#[local] Open Scope tdb_scope.

Inductive tidesdb_txn_state_t := TDB_TXN_STATE_ACTIVE | TDB_TXN_STATE_PREPARED.

#[export] Instance txn_state_eq_dec : EqDecision tidesdb_txn_state_t.
Proof. solve_decision. Defined.

(** Savepoints of a transaction, newest first, with the write set each of them remembers. *)
Abbreviation saves := (list (bytes * list write)).

(** The newest savepoint of a name, and the ones older than it. *)
Fixpoint find_save (name : bytes) (sp : saves) : option (list write * saves) :=
  match sp with
  | [] => None
  | (n, ws) :: sp => if bool_decide (n = name) then Some (ws, sp) else find_save name sp
  end.

Definition drop_save (name : bytes) (sp : saves) : saves := filter (fun s => s.1 <> name) sp.

Class SavepointDb (E txn : Type) `{!TidesDb E txn, !RowDb E txn} := {
  savepoints : E -> txn -> saves;
  txn_savepoint : txn -> bytes -> M E tdb_rc;
  txn_rollback_to_savepoint : txn -> bytes -> M E tdb_rc;
  txn_release_savepoint : txn -> bytes -> M E tdb_rc;
  txn_begin_with_isolation : tidesdb_isolation_level_t -> M E (tdb_rc + txn);
  txn_reset_with : txn -> tidesdb_isolation_level_t -> M E tdb_rc;
  txn_free : txn -> M E unit;

  txn_savepoint_law d ws sp t name :
    spec (fun e => committed e = d /\ pending e t = ws /\ savepoints e t = sp) (txn_savepoint t name)
      (fun rc e => committed e = d /\ pending e t = ws /\
         savepoints e t = match rc with TDB_SUCCESS => (name, ws) :: sp | _ => sp end)
      (fun e => committed e = d);
  (** The rollback may drop the savepoint it returns to. *)
  txn_rollback_to_savepoint_law d ws sp t name :
    spec (fun e => committed e = d /\ pending e t = ws /\ savepoints e t = sp) (txn_rollback_to_savepoint t name)
      (fun rc e => committed e = d /\
         match rc with
         | TDB_SUCCESS => exists ws0 older, find_save name sp = Some (ws0, older) /\ pending e t = ws0 /\
             (savepoints e t = older \/ savepoints e t = (name, ws0) :: older)
         | _ => pending e t = ws /\ savepoints e t = sp /\ (rc = TDB_ERR_NOT_FOUND -> find_save name sp = None)
         end)
      (fun e => committed e = d);
  txn_release_savepoint_law d ws sp t name :
    spec (fun e => committed e = d /\ pending e t = ws /\ savepoints e t = sp) (txn_release_savepoint t name)
      (fun rc e => committed e = d /\ pending e t = ws /\
         match rc with
         | TDB_SUCCESS => savepoints e t = drop_save name sp
         | _ => savepoints e t = sp /\ (rc = TDB_ERR_NOT_FOUND -> find_save name sp = None)
         end)
      (fun e => committed e = d);
  txn_begin_with_isolation_law d iso :
    spec (fun e => committed e = d) (txn_begin_with_isolation iso)
      (fun r e => committed e = d /\
         match r with inr t => pending e t = [] /\ savepoints e t = [] | inl rc => rc <> TDB_SUCCESS end)
      (fun e => committed e = d);
  txn_reset_with_law d t iso :
    spec (fun e => committed e = d) (txn_reset_with t iso)
      (fun rc e => committed e = d /\ (rc = TDB_SUCCESS -> pending e t = [] /\ savepoints e t = []))
      (fun e => committed e = d);
  txn_free_law d t : spec (fun e => committed e = d) (txn_free t) (fun _ e => committed e = d) (fun e => committed e = d);

  (** Reads and writes of rows leave every transaction's savepoints alone. *)
  get_keeps_saves t t' cf k : keeps (fun e => savepoints e t) (txn_get t' cf k);
  put_keeps_saves t t' cf k v : keeps (fun e => savepoints e t) (txn_put t' cf k v);
  delete_keeps_saves t t' cf k : keeps (fun e => savepoints e t) (txn_delete t' cf k);
  single_delete_keeps_saves t t' cf k : keeps (fun e => savepoints e t) (txn_single_delete t' cf k);
  delete_range_keeps_saves t t' cf lo hi : keeps (fun e => savepoints e t) (txn_delete_range t' cf lo hi);
  contains_keeps_saves t t' cf k : keeps (fun e => savepoints e t) (txn_contains t' cf k);
  seek_keeps_saves t t' cf k : keeps (fun e => savepoints e t) (iter_seek t' cf k);
  range_keeps_saves t t' cf lo hi : keeps (fun e => savepoints e t) (iter_range t' cf lo hi) }.

(** ** Two-phase commit *)

(** [in_doubt]: the durable batches waiting for a decision, by name; [prepared_as]: the name a transaction
    object was prepared under. *)
Class XaDb (E txn : Type) `{!TidesDb E txn, !RowDb E txn, !SavepointDb E txn, !FamilyDb E txn} := {
  in_doubt : E -> gmap bytes (list write);
  prepared_as : E -> txn -> option bytes;
  txn_state : txn -> M E tidesdb_txn_state_t;
  txn_prepare : txn -> bytes -> M E tdb_rc;
  txn_commit_prepared : txn -> M E tdb_rc;
  txn_rollback_prepared : txn -> M E tdb_rc;
  (** [tidesdb_recover_prepared] without a buffer, and with one of the given length. *)
  recover_prepared_count : M E (tdb_rc + Z);
  recover_prepared : Z -> M E (tdb_rc + list (bytes * txn));

  txn_state_law t e0 :
    spec (fun e => e = e0) (txn_state t)
      (fun st e => e = e0 /\ st = match prepared_as e0 t with Some _ => TDB_TXN_STATE_PREPARED | None => TDB_TXN_STATE_ACTIVE end)
      (fun e => e = e0);
  txn_prepare_law d ws D P t xid :
    spec (fun e => committed e = d /\ pending e t = ws /\ in_doubt e = D /\ prepared_as e = P) (txn_prepare t xid)
      (fun rc e => committed e = d /\
         match rc with
         | TDB_SUCCESS => in_doubt e = <[xid := ws]> D /\ prepared_as e t = Some xid /\
             forall t', t' <> t -> prepared_as e t' = P t'
         | _ => in_doubt e = D /\ prepared_as e = P
         end)
      (fun e => committed e = d /\ (in_doubt e = D \/ in_doubt e = <[xid := ws]> D));
  (** A decision is carried out whole or, when it fails, leaves the transaction prepared. *)
  txn_commit_prepared_law d ws D P t xid :
    P t = Some xid -> D !! xid = Some ws ->
    spec (fun e => committed e = d /\ in_doubt e = D /\ prepared_as e = P) (txn_commit_prepared t)
      (fun rc e =>
         match rc with
         | TDB_SUCCESS => committed e = apply_writes ws d /\ in_doubt e = delete xid D /\
             forall t', t' <> t -> prepared_as e t' = P t'
         | _ => committed e = d /\ in_doubt e = D /\ prepared_as e = P
         end)
      (fun e => (committed e = d /\ in_doubt e = D) \/ (committed e = apply_writes ws d /\ in_doubt e = delete xid D));
  txn_rollback_prepared_law d D P t xid :
    P t = Some xid ->
    spec (fun e => committed e = d /\ in_doubt e = D /\ prepared_as e = P) (txn_rollback_prepared t)
      (fun rc e => committed e = d /\
         match rc with
         | TDB_SUCCESS => in_doubt e = delete xid D /\ forall t', t' <> t -> prepared_as e t' = P t'
         | _ => in_doubt e = D /\ prepared_as e = P
         end)
      (fun e => committed e = d /\ (in_doubt e = D \/ in_doubt e = delete xid D));
  recover_count_law d D P :
    spec (fun e => committed e = d /\ in_doubt e = D /\ prepared_as e = P) recover_prepared_count
      (fun r e => (committed e = d /\ in_doubt e = D /\ prepared_as e = P) /\
         match r with inr n => n = Z.of_nat (size D) | inl rc => rc <> TDB_SUCCESS end)
      (fun e => committed e = d /\ in_doubt e = D);
  (** A buffer that is long enough gets every transaction in doubt, each under its name. *)
  recover_prepared_law d D P n :
    Z.of_nat (size D) <= n ->
    spec (fun e => committed e = d /\ in_doubt e = D /\ prepared_as e = P) (recover_prepared n)
      (fun r e => committed e = d /\ in_doubt e = D /\
         match r with
         | inr l => NoDup l.*1 /\ (forall xid, xid ∈ l.*1 <-> is_Some (D !! xid)) /\
             (forall xid t, (xid, t) ∈ l -> prepared_as e t = Some xid) /\
             forall t xid, P t = Some xid -> prepared_as e t = Some xid
         | inl rc => rc <> TDB_SUCCESS /\ prepared_as e = P
         end)
      (fun e => committed e = d /\ in_doubt e = D);

  (** Everything else leaves the transactions in doubt alone. *)
  get_cf_keeps_doubt nm : keeps (fun e => (in_doubt e, prepared_as e)) (get_cf nm);
  create_cf_keeps_doubt nm : keeps (fun e => (in_doubt e, prepared_as e)) (create_cf nm);
  scan_keeps_doubt t cf : keeps (fun e => (in_doubt e, prepared_as e)) (scan t cf);
  put_keeps_doubt t cf k v : keeps (fun e => (in_doubt e, prepared_as e)) (txn_put t cf k v);
  get_keeps_doubt t cf k : keeps (fun e => (in_doubt e, prepared_as e)) (txn_get t cf k);
  delete_keeps_doubt t cf k : keeps (fun e => (in_doubt e, prepared_as e)) (txn_delete t cf k);
  commit_keeps_doubt t : keeps (fun e => (in_doubt e, prepared_as e)) (txn_commit t);
  rollback_keeps_doubt t : keeps (fun e => (in_doubt e, prepared_as e)) (txn_rollback t);
  savepoint_keeps_doubt t nm : keeps (fun e => (in_doubt e, prepared_as e)) (txn_savepoint t nm);
  rollback_to_keeps_doubt t nm : keeps (fun e => (in_doubt e, prepared_as e)) (txn_rollback_to_savepoint t nm);
  release_keeps_doubt t nm : keeps (fun e => (in_doubt e, prepared_as e)) (txn_release_savepoint t nm);
  single_delete_keeps_doubt t cf k : keeps (fun e => (in_doubt e, prepared_as e)) (txn_single_delete t cf k);
  delete_range_keeps_doubt t cf lo hi : keeps (fun e => (in_doubt e, prepared_as e)) (txn_delete_range t cf lo hi);
  contains_keeps_doubt t cf k : keeps (fun e => (in_doubt e, prepared_as e)) (txn_contains t cf k);
  seek_keeps_doubt t cf k : keeps (fun e => (in_doubt e, prepared_as e)) (iter_seek t cf k);
  range_keeps_doubt t cf lo hi : keeps (fun e => (in_doubt e, prepared_as e)) (iter_range t cf lo hi);
  row_reset_keeps_doubt D P t :
    P t = None ->
    spec (fun e => in_doubt e = D /\ prepared_as e = P) (txn_reset t)
      (fun _ e => in_doubt e = D /\ prepared_as e = P) (fun e => in_doubt e = D);
  (** A transaction object just made is not prepared, and the handle was not in use. *)
  begin_keeps_doubt D P :
    spec (fun e => in_doubt e = D /\ prepared_as e = P) txn_begin
      (fun r e => in_doubt e = D /\ prepared_as e = P /\ match r with inr t => P t = None | inl _ => True end)
      (fun e => in_doubt e = D);
  begin_with_isolation_keeps_doubt D P iso :
    spec (fun e => in_doubt e = D /\ prepared_as e = P) (txn_begin_with_isolation iso)
      (fun r e => in_doubt e = D /\ prepared_as e = P /\ match r with inr t => P t = None | inl _ => True end)
      (fun e => in_doubt e = D);
  reset_keeps_doubt D P t iso :
    P t = None ->
    spec (fun e => in_doubt e = D /\ prepared_as e = P) (txn_reset_with t iso)
      (fun _ e => in_doubt e = D /\ prepared_as e = P) (fun e => in_doubt e = D);
  free_keeps_doubt D P t :
    spec (fun e => in_doubt e = D /\ prepared_as e = P) (txn_free t)
      (fun _ e => in_doubt e = D /\ forall t', t' <> t -> prepared_as e t' = P t') (fun e => in_doubt e = D) }.
