(* ===== verification/SrvDb.v ===== *)
(** * A concrete library with many transactions, for witnesses

    The map library of [TidesDb] and [RowDb] with any number of open transactions: a call on one of them is
    the call of the map library on its write set ([focus]), so its laws are that library's laws.  Savepoints and
    prepared batches are maps of their own. *)
From S2P Require Import Prelude Effects TidesDb RowDb TxnDb.
#[local] Open Scope Z_scope.
#[local] Open Scope tdb_scope.

Record srv_db := {
  s_mem : store;
  s_script : list fate;
  s_writes : gmap nat (list write);
  s_saves : gmap nat saves;
  s_xids : gmap nat bytes;
  s_doubt : gmap bytes (list write) }.

Definition writes_of (e : srv_db) (t : nat) : list write := default [] (s_writes e !! t).
Definition saves_of (e : srv_db) (t : nat) : saves := default [] (s_saves e !! t).

Definition view (t : nat) (e : srv_db) : mem_db :=
  {| mem := s_mem e; buf := writes_of e t; script := s_script e |}.
Definition unview (t : nat) (b : mem_db) (e : srv_db) : srv_db :=
  {| s_mem := mem b; s_script := script b; s_writes := <[t := buf b]> (s_writes e); s_saves := s_saves e;
     s_xids := s_xids e; s_doubt := s_doubt e |}.

Definition focus {A} (t : nat) (m : M mem_db A) : M srv_db A := lift (view t) (unview t) m.

Lemma writes_of_unview (t : nat) b e : writes_of (unview t b e) t = buf b.
Proof. unfold writes_of. simpl. by rewrite lookup_insert_eq. Qed.

(** A law of the map library holds of the transaction in focus. *)
Lemma focus_spec {A : Type} (t : nat) (m : M mem_db A) P Q C (P' : srv_db -> Prop) (Q' : A -> srv_db -> Prop) (C' : srv_db -> Prop) :
  spec P m Q C ->
  (forall e, P' e -> P (view t e)) -> (forall a b e, Q a b -> Q' a (unview t b e)) -> (forall b e, C b -> C' (unview t b e)) ->
  spec P' (focus t m) Q' C'.
Proof.
  intros H HP HQ HC. apply spec_lift. intros e He b ->. specialize (H (view t e) (HP e He)).
  destruct (m (view t e)) as [b' [a|]]; auto.
Qed.

(** The law [law] of the map library, read at the transaction in focus. *)
Ltac by_focus law :=
  eapply focus_spec; [apply law|intros e He; exact He|
    intros a b e Hb; cbn; rewrite ?writes_of_unview; exact Hb|intros b e Hb; exact Hb].

Lemma focus_keeps {A B : Type} (t : nat) (f : srv_db -> B) (m : M mem_db A) : (forall b e, f (unview t b e) = f e) -> keeps f (focus t m).
Proof. intros Hf b e <-. unfold focus, lift. destruct (m (view t e)) as [b' [a|]]; by rewrite Hf. Qed.

Definition set_script (fs : list fate) (e : srv_db) : srv_db :=
  {| s_mem := s_mem e; s_script := fs; s_writes := s_writes e; s_saves := s_saves e; s_xids := s_xids e; s_doubt := s_doubt e |}.
Definition set_saves (m : gmap nat saves) (e : srv_db) : srv_db :=
  {| s_mem := s_mem e; s_script := s_script e; s_writes := s_writes e; s_saves := m; s_xids := s_xids e; s_doubt := s_doubt e |}.
Definition set_writes (m : gmap nat (list write)) (e : srv_db) : srv_db :=
  {| s_mem := s_mem e; s_script := s_script e; s_writes := m; s_saves := s_saves e; s_xids := s_xids e; s_doubt := s_doubt e |}.
Definition set_doubt (xs : gmap nat bytes) (D : gmap bytes (list write)) (e : srv_db) : srv_db :=
  {| s_mem := s_mem e; s_script := s_script e; s_writes := s_writes e; s_saves := s_saves e; s_xids := xs; s_doubt := D |}.
Definition set_store (d : store) (e : srv_db) : srv_db :=
  {| s_mem := d; s_script := s_script e; s_writes := s_writes e; s_saves := s_saves e; s_xids := s_xids e; s_doubt := s_doubt e |}.

(** A call under the script: [good] runs when the script lets it, and [bad] is what a failure answers. *)
Definition call {A} (bad : A) (good : M srv_db A) : M srv_db A := fun e =>
  match s_script e with
  | [] | works :: _ => good (set_script (tail (s_script e)) e)
  | fails :: fs | lost_reply :: fs => (set_script fs e, Ret bad)
  | crash_before :: fs => (set_script fs e, Crash)
  | crash_after :: fs => ((good (set_script fs e)).1, Crash)
  end.

Lemma call_spec {A : Type} (bad : A) (good : M srv_db A) (P : srv_db -> Prop) Q (C : srv_db -> Prop) :
  (forall fs e, P e -> P (set_script fs e)) -> (forall e, P e -> Q bad e) -> (forall e, P e -> C e) ->
  (forall e, P e -> match good e with (e', Ret a) => Q a e' /\ C e' | (e', Crash) => C e' end) ->
  spec P (call bad good) Q C.
Proof.
  intros Hs Hb Hc Hg e He. unfold call.
  pose proof (fun fs => Hg _ (Hs fs e He)) as Hg'.
  destruct (s_script e) as [|[] fs]; simpl; auto.
  - specialize (Hg' []). destruct (good (set_script [] e)) as [e' [a|]]; [apply Hg'|done].
  - specialize (Hg' fs). destruct (good (set_script fs e)) as [e' [a|]]; [apply Hg'|done].
  - specialize (Hg' fs). destruct (good (set_script fs e)) as [e' [a|]]; [apply Hg'|done].
Qed.

Definition fresh_txn (e : srv_db) : nat := fresh (dom (s_writes e) ∪ dom (s_saves e) ∪ dom (s_xids e)).

Lemma fresh_txn_unused e :
  s_writes e !! fresh_txn e = None /\ s_saves e !! fresh_txn e = None /\ s_xids e !! fresh_txn e = None.
Proof.
  pose proof (is_fresh (dom (s_writes e) ∪ dom (s_saves e) ∪ dom (s_xids e))) as H. fold (fresh_txn e) in H.
  rewrite !not_elem_of_union, !not_elem_of_dom in H. tauto.
Qed.

Definition srv_begin : M srv_db (tdb_rc + nat) := call (inl ERR_IO) (fun e =>
  (set_writes (<[fresh_txn e := []]> (s_writes e)) e, Ret (inr (fresh_txn e)))).

Lemma srv_begin_spec (d : store) D (P : nat -> option bytes) :
  spec (fun e => s_mem e = d /\ s_doubt e = D /\ (fun t => s_xids e !! t) = P) srv_begin
    (fun r e => (s_mem e = d /\ s_doubt e = D /\ (fun t => s_xids e !! t) = P) /\
       match r with inl rc => rc <> TDB_SUCCESS | inr t => writes_of e t = [] /\ saves_of e t = [] /\ P t = None end)
    (fun e => s_mem e = d /\ s_doubt e = D).
Proof.
  apply call_spec; [done|by intros e He|by intros e (? & ? & ?)|].
  intros e (<- & <- & <-). destruct (fresh_txn_unused e) as (Hw & Hs & Hx). simpl. split; [|done]. split; [done|].
  unfold writes_of, saves_of. simpl. by rewrite lookup_insert_eq, Hs, Hx.
Qed.

#[export] Program Instance srv_tidesdb : TidesDb srv_db nat := {|
  committed := s_mem;
  pending := writes_of;
  txn_begin := srv_begin;
  txn_get t cf k := focus t (txn_get tt cf k);
  txn_put t cf k v := focus t (txn_put tt cf k v);
  txn_delete t cf k := focus t (txn_delete tt cf k);
  txn_commit t := focus t (txn_commit tt);
  txn_rollback t := focus t (txn_rollback tt) |}.
Next Obligation.
  intros d e He. pose proof (srv_begin_spec d _ _ e (conj He (conj eq_refl eq_refl))) as H.
  destruct (srv_begin e) as [e' [[rc|t]|]]; [by destruct H as [[? _] ?]|by destruct H as [[? _] [? _]]|by destruct H].
Qed.
Next Obligation. intros d ws t cf k. by_focus (txn_get_law d ws tt cf k). Qed.
Next Obligation. intros d ws t cf k v. by_focus (txn_put_law d ws tt cf k v). Qed.
Next Obligation. intros d ws t cf k. by_focus (txn_delete_law d ws tt cf k). Qed.
Next Obligation. intros d ws t. by_focus (txn_commit_law d ws tt). Qed.
Next Obligation. intros d t. by_focus (txn_rollback_law d tt). Qed.

#[export] Program Instance srv_families : FamilyDb srv_db nat := {|
  get_cf nm := focus 0 (get_cf nm);
  create_cf nm := focus 0 (create_cf nm);
  drop_cf nm := focus 0 (drop_cf nm);
  rename_cf old new := focus 0 (rename_cf old new);
  list_cfs := focus 0 list_cfs;
  scan t cf := focus t (scan tt cf) |}.
Next Obligation. intros d nm. by_focus (get_cf_law d nm). Qed.
Next Obligation.
  intros t ws nm e He. unfold focus, lift. simpl. unfold writes_of in *. simpl.
  destruct (decide (t = 0%nat)) as [->|Hne]; [by rewrite lookup_insert_eq|by rewrite lookup_insert_ne].
Qed.
Next Obligation. intros d nm. by_focus (create_cf_law d nm). Qed.
Next Obligation. intros d nm. by_focus (drop_cf_law d nm). Qed.
Next Obligation. intros d old new. by_focus (rename_cf_law d old new). Qed.
Next Obligation. intros d. by_focus (list_cfs_law d). Qed.
Next Obligation. intros d ws t cf. by_focus (scan_law d ws tt cf). Qed.

#[export] Program Instance srv_rows : RowDb srv_db nat := {|
  txn_contains t cf k := focus t (txn_contains tt cf k);
  iter_seek t cf k := focus t (iter_seek tt cf k);
  iter_range t cf lo hi := focus t (iter_range tt cf lo hi);
  txn_single_delete t cf k := focus t (txn_single_delete tt cf k);
  txn_delete_range t cf lo hi := focus t (txn_delete_range tt cf lo hi);
  txn_reset t := focus t (txn_reset tt) |}.
Next Obligation. intros d ws t cf k. by_focus (txn_contains_law d ws tt cf k). Qed.
Next Obligation. intros d ws t cf k. by_focus (iter_seek_law d ws tt cf k). Qed.
Next Obligation. intros d ws t cf lo hi. by_focus (iter_range_law d ws tt cf lo hi). Qed.
Next Obligation. intros d ws t cf k. by_focus (txn_single_delete_law d ws tt cf k). Qed.
Next Obligation. intros d ws t cf lo hi. by_focus (txn_delete_range_law d ws tt cf lo hi). Qed.
Next Obligation. intros d t. by_focus (txn_reset_law d tt). Qed.

(** ** Savepoints *)

Definition put_saves (t : nat) (sp : saves) (e : srv_db) : srv_db := set_saves (<[t := sp]> (s_saves e)) e.
Definition put_writes (t : nat) (ws : list write) (e : srv_db) : srv_db := set_writes (<[t := ws]> (s_writes e)) e.

Lemma saves_of_put t sp e : saves_of (put_saves t sp e) t = sp.
Proof. unfold saves_of. simpl. by rewrite lookup_insert_eq. Qed.
Lemma writes_of_put t ws e : writes_of (put_writes t ws e) t = ws.
Proof. unfold writes_of. simpl. by rewrite lookup_insert_eq. Qed.

Definition srv_savepoint (t : nat) (name : bytes) : M srv_db tdb_rc := call ERR_IO (fun e =>
  (put_saves t ((name, writes_of e t) :: saves_of e t) e, Ret TDB_SUCCESS)).

Definition srv_rollback_to (t : nat) (name : bytes) : M srv_db tdb_rc := call ERR_IO (fun e =>
  match find_save name (saves_of e t) with
  | None => (e, Ret TDB_ERR_NOT_FOUND)
  | Some (ws, older) => (put_saves t older (put_writes t ws e), Ret TDB_SUCCESS)
  end).

Definition srv_release (t : nat) (name : bytes) : M srv_db tdb_rc := call ERR_IO (fun e =>
  match find_save name (saves_of e t) with
  | None => (e, Ret TDB_ERR_NOT_FOUND)
  | Some _ => (put_saves t (drop_save name (saves_of e t)) e, Ret TDB_SUCCESS)
  end).

Definition srv_reset (t : nat) : M srv_db tdb_rc := call ERR_IO (fun e =>
  (put_saves t [] (put_writes t [] e), Ret TDB_SUCCESS)).

Definition srv_free (t : nat) : M srv_db unit := modify (fun e =>
  {| s_mem := s_mem e; s_script := s_script e; s_writes := delete t (s_writes e); s_saves := delete t (s_saves e);
     s_xids := delete t (s_xids e); s_doubt := s_doubt e |}).

#[export] Program Instance srv_savepoints : SavepointDb srv_db nat := {|
  savepoints := saves_of;
  txn_savepoint := srv_savepoint;
  txn_rollback_to_savepoint := srv_rollback_to;
  txn_release_savepoint := srv_release;
  txn_begin_with_isolation _ := srv_begin;
  txn_reset_with t _ := srv_reset t;
  txn_free := srv_free |}.
Next Obligation.
  intros d ws sp t name. apply call_spec; [done|done|by intros e (? & _)|]. intros e (<- & <- & <-). split; [|done].
  split_and!; [done..|]. by rewrite saves_of_put.
Qed.
Next Obligation.
  intros d ws sp t name. apply call_spec; [done|by intros e (? & ? & ?)|by intros e (? & _)|].
  intros e (<- & <- & <-). destruct (find_save name (saves_of e t)) as [[ws0 older]|] eqn:Ef; (split; [|done]); (split; [done|]).
  - exists ws0, older. split_and!; [done|apply (writes_of_put t ws0 e)|]. left. by rewrite saves_of_put.
  - done.
Qed.
Next Obligation.
  intros d ws sp t name. apply call_spec; [done|by intros e (? & ? & ?)|by intros e (? & _)|].
  intros e (<- & <- & <-). destruct (find_save name (saves_of e t)) eqn:Ef; (split; [|done]); (split_and!; [done..|]); [|done].
  by rewrite saves_of_put.
Qed.
Next Obligation.
  intros d iso e He. pose proof (srv_begin_spec d _ _ e (conj He (conj eq_refl eq_refl))) as H.
  destruct (srv_begin e) as [e' [[rc|t]|]]; [by destruct H as [[? _] ?]|by destruct H as [[? _] (? & ? & _)]|by destruct H].
Qed.
Next Obligation.
  intros d t iso. apply call_spec; [done|done|done|]. intros e <-. split; [|done]. split; [done|]. intros _.
  split; [apply (writes_of_put t [] e)|apply saves_of_put].
Qed.
Next Obligation. intros d t. by apply spec_modify. Qed.
Next Obligation. intros t t' cf k. by apply focus_keeps. Qed.
Next Obligation. intros t t' cf k v. by apply focus_keeps. Qed.
Next Obligation. intros t t' cf k. by apply focus_keeps. Qed.
Next Obligation. intros t t' cf k. by apply focus_keeps. Qed.
Next Obligation. intros t t' cf lo hi. by apply focus_keeps. Qed.
Next Obligation. intros t t' cf k. by apply focus_keeps. Qed.
Next Obligation. intros t t' cf k. by apply focus_keeps. Qed.
Next Obligation. intros t t' cf lo hi. by apply focus_keeps. Qed.

(** ** Prepared transactions *)

Definition srv_prepare (t : nat) (xid : bytes) : M srv_db tdb_rc := call ERR_IO (fun e =>
  (set_doubt (<[t := xid]> (s_xids e)) (<[xid := writes_of e t]> (s_doubt e)) e, Ret TDB_SUCCESS)).

(** [keep] is false for a rollback. *)
Definition srv_decide (keep : bool) (t : nat) : M srv_db tdb_rc := call ERR_IO (fun e =>
  match s_xids e !! t with
  | None => (e, Ret (TDB_ERR (-2)))
  | Some xid =>
      let d := if keep then apply_writes (default [] (s_doubt e !! xid)) (s_mem e) else s_mem e in
      (set_store d (set_doubt (delete t (s_xids e)) (delete xid (s_doubt e)) e), Ret TDB_SUCCESS)
  end).

(** Transaction objects for the batches of [l]. *)
Fixpoint reopen (l : list (bytes * list write)) (e : srv_db) : srv_db * list (bytes * nat) :=
  match l with
  | [] => (e, [])
  | (xid, ws) :: l =>
      let t := fresh_txn e in
      let (e, ts) := reopen l (set_doubt (<[t := xid]> (s_xids e)) (s_doubt e) (put_writes t ws e)) in
      (e, (xid, t) :: ts)
  end.

Lemma reopen_spec l e :
  let r := reopen l e in
  s_mem r.1 = s_mem e /\ s_doubt r.1 = s_doubt e /\ r.2.*1 = l.*1 /\
  (forall xid t, (xid, t) ∈ r.2 -> s_xids r.1 !! t = Some xid) /\
  (forall xid t, s_xids e !! t = Some xid -> s_xids r.1 !! t = Some xid).
Proof.
  revert e. induction l as [|[xid ws] l IH]; intros e; simpl.
  - split_and!; try done. intros xid t H. by apply not_elem_of_nil in H.
  - set (t := fresh_txn e). set (e1 := set_doubt _ _ _). specialize (IH e1).
    destruct (reopen l e1) as [e2 ts]. simpl in *. destruct IH as (Hm & Hd & Hl & Hnew & Hold).
    destruct (fresh_txn_unused e) as (_ & _ & Hx). fold t in Hx. split_and!; [by rewrite Hm|by rewrite Hd|by f_equal| |].
    + intros xid' t' [[= -> ->]|H]%elem_of_cons; [apply Hold; simpl; by rewrite lookup_insert_eq|by apply Hnew].
    + intros xid' t' H. apply Hold. simpl. rewrite lookup_insert_ne; [done|]. intros <-. congruence.
Qed.

Definition srv_state (t : nat) : M srv_db tidesdb_txn_state_t :=
  gets (fun e => match s_xids e !! t with Some _ => TDB_TXN_STATE_PREPARED | None => TDB_TXN_STATE_ACTIVE end).

Definition srv_recover (n : Z) : M srv_db (tdb_rc + list (bytes * nat)) := call (inl ERR_IO) (fun e =>
  let r := reopen (take (Z.to_nat n) (map_to_list (s_doubt e))) e in (r.1, Ret (inr r.2))).

#[export] Program Instance srv_xa : XaDb srv_db nat := {|
  in_doubt := s_doubt;
  prepared_as e t := s_xids e !! t;
  txn_state := srv_state;
  txn_prepare := srv_prepare;
  txn_commit_prepared := srv_decide true;
  txn_rollback_prepared := srv_decide false;
  recover_prepared_count := call (inl ERR_IO) (fun e => (e, Ret (inr (Z.of_nat (size (s_doubt e))))));
  recover_prepared := srv_recover |}.
Next Obligation. intros t e0. apply spec_gets. by intros e ->. Qed.
Next Obligation.
  intros d ws D P t xid. apply call_spec; [done|by intros e (? & _ & ? & ?)|intros e (? & _ & ? & _); auto|].
  intros e (<- & <- & <- & <-). simpl. split; [|auto]. split_and!; [done..|by rewrite lookup_insert_eq|].
  intros t' Hne. by rewrite lookup_insert_ne.
Qed.
Next Obligation.
  intros d ws D P t xid HP HD. apply call_spec; [done|by intros e|intros e (? & ? & _); auto|].
  intros e (<- & <- & <-). rewrite HP. simpl. rewrite HD. simpl. split; [|auto]. split_and!; [done..|].
  intros t' Hne. by rewrite lookup_delete_ne.
Qed.
Next Obligation.
  intros d D P t xid HP. apply call_spec; [done|by intros e|intros e (? & ? & _); auto|].
  intros e (<- & <- & <-). rewrite HP. simpl. split; [|auto]. split_and!; [done..|].
  intros t' Hne. by rewrite lookup_delete_ne.
Qed.
Next Obligation.
  intros d D P. apply call_spec; [done|by intros e|by intros e (? & ? & _)|]. by intros e (<- & <- & <-).
Qed.
Next Obligation.
  intros d D P n Hn. apply call_spec; [done|by intros e (? & ? & ?)|by intros e (? & ? & _)|]. intros e (<- & <- & <-).
  assert (take (Z.to_nat n) (map_to_list (s_doubt e)) = map_to_list (s_doubt e)) as ->.
  { apply take_ge. rewrite length_map_to_list. lia. }
  pose proof (reopen_spec (map_to_list (s_doubt e)) e) as H. cbv zeta. destruct (reopen _ e) as [e' l]. simpl in H |- *.
  destruct H as (Hm & Hd & Hl & Hnew & Hold). split; [|done]. split_and!; [done..| | | |].
  - rewrite Hl. apply NoDup_fst_map_to_list.
  - intros xid. rewrite Hl, list_elem_of_fmap. split.
    + intros ([x ws] & -> & H%elem_of_map_to_list). eauto.
    + intros [ws H]. exists (xid, ws). split; [done|]. by apply elem_of_map_to_list.
  - done.
  - intros t xid. apply Hold.
Qed.
Next Obligation. intros nm. by apply focus_keeps. Qed.
Next Obligation. intros nm. by apply focus_keeps. Qed.
Next Obligation. intros t cf. by apply focus_keeps. Qed.
Next Obligation. intros t cf k v. by apply focus_keeps. Qed.
Next Obligation. intros t cf k. by apply focus_keeps. Qed.
Next Obligation. intros t cf k. by apply focus_keeps. Qed.
Next Obligation. intros t. by apply focus_keeps. Qed.
Next Obligation. intros t. by apply focus_keeps. Qed.
Next Obligation. intros t nm b. by apply call_spec. Qed.
Next Obligation.
  intros t nm b. apply call_spec; try done. intros e He. by destruct (find_save nm (saves_of e t)) as [[ws older]|].
Qed.
Next Obligation.
  intros t nm b. apply call_spec; try done. intros e He. by destruct (find_save nm (saves_of e t)).
Qed.
Next Obligation. intros t cf k. by apply focus_keeps. Qed.
Next Obligation. intros t cf lo hi. by apply focus_keeps. Qed.
Next Obligation. intros t cf k. by apply focus_keeps. Qed.
Next Obligation. intros t cf k. by apply focus_keeps. Qed.
Next Obligation. intros t cf lo hi. by apply focus_keeps. Qed.
Next Obligation.
  intros D P t _ e [<- <-]. pose proof (focus_keeps t (fun e => (s_doubt e, (fun t => s_xids e !! t))) (txn_reset tt) (fun _ _ => eq_refl) _ e eq_refl) as H.
  change (txn_reset t e) with (focus t (txn_reset tt) e). destruct (focus t (txn_reset tt) e) as [e' [a|]]; by injection H.
Qed.
Next Obligation.
  intros D P e [HD HP]. pose proof (srv_begin_spec _ _ _ e (conj eq_refl (conj HD HP))) as H.
  change (txn_begin e) with (srv_begin e). destruct (srv_begin e) as [e' [[rc|t]|]].
  - by destruct H as [(_ & ? & ?) _].
  - by destruct H as [(_ & ? & ?) (_ & _ & ?)].
  - by destruct H.
Qed.
Next Obligation.
  intros D P iso e [HD HP]. pose proof (srv_begin_spec _ _ _ e (conj eq_refl (conj HD HP))) as H.
  change (txn_begin_with_isolation iso e) with (srv_begin e). destruct (srv_begin e) as [e' [[rc|t]|]].
  - by destruct H as [(_ & ? & ?) _].
  - by destruct H as [(_ & ? & ?) (_ & _ & ?)].
  - by destruct H.
Qed.
Next Obligation. intros D P t iso HP. apply call_spec; [done|done|by intros e [? _]|]. by intros e [<- <-]. Qed.
Next Obligation.
  intros D P t. apply spec_modify. intros e [<- <-]. split; [done|]. intros t' Hne. simpl. by rewrite lookup_delete_ne.
Qed.
