(* ===== verification/XaCodec.v ===== *)
(** * The keys and records of prepared transactions ([src/handler/ha_tidesdb_txn.cc])

    A transaction the user prepared is known to the engine by the serialised form of its XID, and the
    tables it wrote to are kept in a record of the reserved family.  Both are read back after a
    restart. *)
From S2P Require Import Prelude.
#[local] Open Scope Z_scope.

Module XaCodec.

Definition TDB_XID_HDR_LEN : nat := 16.
Definition XIDDATASIZE : Z := 128.
Definition TDB_XA_TC_FORMAT_VERSION : Z := 1.
Definition TDB_XA_TC_MAX_NAME : Z := 4096.

(** The server's [XID]: the fields and the data buffer of [XIDDATASIZE] bytes, of which the first
    [gtrid_length + bqual_length] carry the identifiers. *)
Record XID := { formatID : Z; gtrid_length : Z; bqual_length : Z; data : bytes }.

(** [XID()]. *)
Definition null_xid : XID :=
  {| formatID := -1; gtrid_length := 0; bqual_length := 0; data := replicate (Z.to_nat XIDDATASIZE) 0 |}.

(** [XID::set], over the bytes the buffer held. *)
Definition xid_set (x : XID) (f : Z) (g : bytes) (gl : Z) (b : bytes) (bl : Z) : XID :=
  {| formatID := f; gtrid_length := gl; bqual_length := bl;
     data := take (Z.to_nat gl) g ++ take (Z.to_nat bl) b ++ drop (Z.to_nat (gl + bl)) (data x) |}.

Definition tdb_put_u64_be (v : Z) : bytes := be_store 8 v.
Definition tdb_put_u32_be (v : Z) : bytes := be_store 4 v.
Definition tdb_get_u64_be (inp : bytes) : Z := be_load 64 (take 8 inp).
Definition tdb_get_u32_be (inp : bytes) : Z := be_load 32 (take 4 inp).

Definition tdb_xid_key (x : XID) : bytes :=
  let gl := gtrid_length x in
  let bl := bqual_length x in
  let n := (if 0 <? gl then gl else 0) + (if 0 <? bl then bl else 0) in
  tdb_put_u64_be (u64 (formatID x)) ++ tdb_put_u32_be (u32 gl) ++ tdb_put_u32_be (u32 bl) ++
  take (Z.to_nat n) (data x).

Definition tdb_xid_from_key (key : bytes) : option XID :=
  if zlen key <? Z.of_nat TDB_XID_HDR_LEN then None
  else
    let fmt := to_i64 (tdb_get_u64_be key) in
    let gl := tdb_get_u32_be (drop 8 key) in
    let bl := tdb_get_u32_be (drop 12 key) in
    if (XIDDATASIZE <? gl) || (XIDDATASIZE <? bl) || (XIDDATASIZE <? gl + bl) then None
    else if negb (zlen key =? Z.of_nat TDB_XID_HDR_LEN + gl + bl) then None
    else
      let d := drop TDB_XID_HDR_LEN key in
      Some (xid_set null_xid fmt d gl (drop (Z.to_nat gl) d) bl).

Abbreviation tdb_table_names_t := (list (bytes * bytes)).

Definition tc_string (s : bytes) : bytes := tdb_put_u32_be (u32 (zlen s)) ++ s.

Definition tdb_xa_tc_encode (tables : tdb_table_names_t) : bytes :=
  TDB_XA_TC_FORMAT_VERSION :: tdb_put_u32_be (u32 (zlen tables)) ++
  concat (map (fun t => tc_string t.1 ++ tc_string t.2) tables).

(** One half of a name: the string and the bytes after it. *)
Definition tc_read (p : bytes) : option (bytes * bytes) :=
  if zlen p <? 4 then None
  else
    let n := tdb_get_u32_be p in
    let p := drop 4 p in
    if (TDB_XA_TC_MAX_NAME <? n) || (zlen p <? n) then None
    else Some (take (Z.to_nat n) p, drop (Z.to_nat n) p).

(** The loop over [count] names; the names read before a bad one are kept, as in the output argument
    of the source. *)
Fixpoint tc_names (count : nat) (p : bytes) (out : tdb_table_names_t) : bool * tdb_table_names_t :=
  match count with
  | O => (true, out)
  | S count =>
      match tc_read p with
      | None => (false, out)
      | Some (db, p) =>
          match tc_read p with
          | None => (false, out)
          | Some (tbl, p) => tc_names count p (out ++ [(db, tbl)])
          end
      end
  end.

Definition tdb_xa_tc_decode (rec : bytes) : bool * tdb_table_names_t :=
  match rec with
  | v :: p =>
      if (zlen rec <? 5) || negb (v =? TDB_XA_TC_FORMAT_VERSION) then (false, [])
      else tc_names (Z.to_nat (tdb_get_u32_be p)) (drop 4 p) []
  | [] => (false, [])
  end.

(** ** XIDs *)

(** An XID the server can hold, and the server's equality ([XID::eq]), which reads the identifiers and not
    the rest of the buffer. *)
Definition xid_ok (x : XID) : Prop :=
  - 2 ^ 63 <= formatID x < 2 ^ 63 /\ 0 <= gtrid_length x /\ 0 <= bqual_length x /\
  gtrid_length x + bqual_length x <= XIDDATASIZE /\ zlen (data x) = XIDDATASIZE /\ wf_bytes (data x).

Definition identifiers (x : XID) : bytes := take (Z.to_nat (gtrid_length x + bqual_length x)) (data x).

Definition same_xid (x y : XID) : Prop :=
  formatID x = formatID y /\ gtrid_length x = gtrid_length y /\ bqual_length x = bqual_length y /\
  identifiers x = identifiers y.

#[export] Instance same_xid_equiv : Equivalence same_xid.
Proof.
  split; [by intros x|by intros x y (?&?&?&?)|].
  intros x y z (?&?&?&?) (?&?&?&?). unfold same_xid. split_and!; congruence.
Qed.

Lemma u64_to_i64 z : 0 <= z < 2 ^ 64 -> u64 (to_i64 z) = z /\ - 2 ^ 63 <= to_i64 z < 2 ^ 63.
Proof.
  intros Hz. unfold to_i64, u64. destruct (decide (z < 2 ^ 63)).
  - rewrite Z.mod_small by lia. lia.
  - rewrite <- (Z_mod_plus_full _ 1), Z.mod_small by lia. lia.
Qed.

Lemma get_put_u32 v rest : 0 <= v < 2 ^ 32 -> tdb_get_u32_be (tdb_put_u32_be v ++ rest) = v.
Proof.
  intros Hv. unfold tdb_get_u32_be, tdb_put_u32_be. rewrite take_app_exact by (by rewrite length_be_store).
  rewrite be_load_store; [|lia..]. done.
Qed.

Lemma get_put_u64 v rest : 0 <= v < 2 ^ 64 -> tdb_get_u64_be (tdb_put_u64_be v ++ rest) = v.
Proof.
  intros Hv. unfold tdb_get_u64_be, tdb_put_u64_be. rewrite take_app_exact by (by rewrite length_be_store).
  rewrite be_load_store; [|lia..]. done.
Qed.

Lemma put_get_u32 p : wf_bytes p -> 4 <= zlen p -> tdb_put_u32_be (tdb_get_u32_be p) = take 4 p /\ 0 <= tdb_get_u32_be p < 2 ^ 32.
Proof.
  intros Hw Hl. assert (length (take 4 p) = 4%nat) as H4 by (rewrite length_take; unfold zlen in Hl; lia).
  assert (wf_bytes (take 4 p)) as Hw4 by by apply Forall_take.
  unfold tdb_put_u32_be, tdb_get_u32_be. rewrite <- H4 at 1. split.
  - apply be_store_load; [done|]. unfold zlen. lia.
  - pose proof (be_load_bound 32 (take 4 p) Hw4). unfold zlen in *. rewrite H4 in *. lia.
Qed.

Lemma put_get_u64 p : wf_bytes p -> 8 <= zlen p -> tdb_put_u64_be (tdb_get_u64_be p) = take 8 p /\ 0 <= tdb_get_u64_be p < 2 ^ 64.
Proof.
  intros Hw Hl. assert (length (take 8 p) = 8%nat) as H8 by (rewrite length_take; unfold zlen in Hl; lia).
  assert (wf_bytes (take 8 p)) as Hw8 by by apply Forall_take.
  unfold tdb_put_u64_be, tdb_get_u64_be. rewrite <- H8 at 1. split.
  - apply be_store_load; [done|]. unfold zlen. lia.
  - pose proof (be_load_bound 64 (take 8 p) Hw8). unfold zlen in *. rewrite H8 in *. lia.
Qed.

Lemma header_parts f g b rest :
  let key := tdb_put_u64_be f ++ tdb_put_u32_be g ++ tdb_put_u32_be b ++ rest in
  drop 8 key = tdb_put_u32_be g ++ tdb_put_u32_be b ++ rest /\ drop 12 key = tdb_put_u32_be b ++ rest /\
  drop TDB_XID_HDR_LEN key = rest /\ zlen key = 16 + zlen rest.
Proof.
  intros key. assert (length (tdb_put_u64_be f) = 8%nat) as L8 by apply length_be_store.
  assert (forall v, length (tdb_put_u32_be v) = 4%nat) as L4 by (intros; apply length_be_store).
  unfold key. split_and!.
  - by apply drop_app_exact.
  - change 12%nat with (8 + 4)%nat. rewrite <- drop_drop, (drop_app_exact (tdb_put_u64_be f)) by done. by apply drop_app_exact.
  - change TDB_XID_HDR_LEN with (8 + (4 + 4))%nat. rewrite <- !drop_drop, (drop_app_exact (tdb_put_u64_be f)) by done.
    rewrite (drop_app_exact (tdb_put_u32_be g)) by done. by apply drop_app_exact.
  - rewrite !zlen_app. unfold zlen. rewrite L8, !L4. lia.
Qed.

(** The buffer [xid_set] leaves starts with the two identifiers. *)
Lemma set_identifiers f d gl bl :
  0 <= gl -> 0 <= bl -> zlen d = gl + bl -> identifiers (xid_set null_xid f d gl (drop (Z.to_nat gl) d) bl) = d.
Proof.
  intros Hg Hb Hd. unfold identifiers, xid_set. simpl. unfold zlen in Hd. rewrite app_assoc.
  assert (take (Z.to_nat gl) d ++ take (Z.to_nat bl) (drop (Z.to_nat gl) d) = d) as ->; [|by apply take_app_exact; lia].
  rewrite (firstn_all2 (n := Z.to_nat bl)) by (rewrite length_drop; lia). apply take_drop.
Qed.

Lemma set_ok f d gl bl :
  - 2 ^ 63 <= f < 2 ^ 63 -> 0 <= gl -> 0 <= bl -> gl + bl <= XIDDATASIZE -> zlen d = gl + bl -> wf_bytes d ->
  xid_ok (xid_set null_xid f d gl (drop (Z.to_nat gl) d) bl).
Proof.
  intros Hf Hg Hb Hm Hd Hw. split_and!; simpl; try done; try lia.
  - unfold zlen, XIDDATASIZE in *. rewrite !length_app, !length_take, !length_drop. simpl. lia.
  - apply Forall_app. split; [by apply Forall_take|]. apply Forall_app. split; [by apply Forall_take, Forall_drop|].
    apply Forall_drop, (Forall_replicate is_byte 128 0). unfold is_byte. lia.
Qed.

Lemma key_shape x : xid_ok x ->
  tdb_xid_key x = tdb_put_u64_be (u64 (formatID x)) ++ tdb_put_u32_be (gtrid_length x) ++
    tdb_put_u32_be (bqual_length x) ++ identifiers x.
Proof.
  intros (_ & Hg & Hb & Hm & _). unfold tdb_xid_key, identifiers, u32. unfold XIDDATASIZE in Hm.
  rewrite !Z.mod_small by lia. do 3 f_equal. f_equal. do 2 case_test; lia.
Qed.

Lemma xid_reads_back x : xid_ok x -> exists y, tdb_xid_from_key (tdb_xid_key x) = Some y /\ same_xid x y.
Proof.
  intros Hx. pose proof Hx as (Hf & Hg & Hb & Hm & Hl & Hw). rewrite key_shape by done.
  destruct (header_parts (u64 (formatID x)) (gtrid_length x) (bqual_length x) (identifiers x)) as (D8 & D12 & D16 & HL).
  unfold tdb_xid_from_key. rewrite D8, D12, D16, HL. unfold XIDDATASIZE in *.
  rewrite get_put_u64 by (apply Z.mod_pos_bound; lia). rewrite !get_put_u32 by lia. rewrite to_i64_u64 by done.
  assert (zlen (identifiers x) = gtrid_length x + bqual_length x) as HI.
  { unfold identifiers, zlen in *. rewrite length_take. lia. }
  change (Z.of_nat TDB_XID_HDR_LEN) with 16. repeat (case_test; try lia). simpl.
  eexists. split; [done|]. split_and!; try done. by rewrite set_identifiers.
Qed.

Lemma xid_from_key_sound k x : wf_bytes k -> tdb_xid_from_key k = Some x -> tdb_xid_key x = k /\ xid_ok x.
Proof.
  intros Hw. unfold tdb_xid_from_key. change (Z.of_nat TDB_XID_HDR_LEN) with 16. case_test; [done|].
  set (gl := tdb_get_u32_be (drop 8 k)). set (bl := tdb_get_u32_be (drop 12 k)). repeat (case_test; [done|]). simpl. case_test; [|done]. simpl.
  intros [= <-]. assert (wf_bytes (drop 8 k) /\ wf_bytes (drop 12 k)) as [W8 W12] by (split; by apply Forall_drop).
  assert (forall n, zlen (drop n k) = Z.max 0 (zlen k - Z.of_nat n)) as HD by (intros; unfold zlen; rewrite length_drop; lia).
  destruct (put_get_u64 k) as [P8 B8]; [done|lia|].
  destruct (put_get_u32 (drop 8 k)) as [PG BG]; [done|rewrite HD; lia|].
  destruct (put_get_u32 (drop 12 k)) as [PB BB]; [done|rewrite HD; lia|]. fold gl in PG, BG. fold bl in PB, BB.
  destruct (u64_to_i64 (tdb_get_u64_be k) B8) as [U F].
  set (x := xid_set null_xid (to_i64 (tdb_get_u64_be k)) (drop TDB_XID_HDR_LEN k) gl (drop (Z.to_nat gl) (drop TDB_XID_HDR_LEN k)) bl).
  assert (zlen (drop TDB_XID_HDR_LEN k) = gl + bl) as HL by (rewrite HD; unfold TDB_XID_HDR_LEN; lia).
  assert (xid_ok x) as Hx by (apply set_ok; try done; try lia; by apply Forall_drop).
  assert (tdb_xid_key x = k) as Hk.
  { rewrite key_shape by done. unfold x. rewrite set_identifiers by lia.
    cbn [formatID gtrid_length bqual_length xid_set]. rewrite U, P8, PG, PB.
    etransitivity; [|apply (take_drop 8 k)]. f_equal. change (drop 12 k) with (drop (8 + 4) k).
    change (drop TDB_XID_HDR_LEN k) with (drop (8 + (4 + 4)) k). rewrite <- !drop_drop. by rewrite !take_drop. }
  done.
Qed.

(** A stored key stands for one transaction.  A key that parses is the key of just the XIDs the
    server takes to be equal to the one it parses to, so a recovered transaction answers to the name the
    user gave it and to no other; a key that does not parse is the key of no XID. *)
Lemma xid_key_names_transaction k :
  wf_bytes k ->
  match tdb_xid_from_key k with
  | Some x => xid_ok x /\ forall y, xid_ok y -> tdb_xid_key y = k <-> same_xid x y
  | None => forall y, xid_ok y -> tdb_xid_key y <> k
  end.
Proof.
  intros Hw. destruct (tdb_xid_from_key k) as [x|] eqn:E.
  - destruct (xid_from_key_sound k x Hw E) as [Hk Hx]. split; [done|]. intros y Hy. split.
    + intros Ey. destruct (xid_reads_back y Hy) as (y' & E' & Hs). rewrite Ey, E in E'. injection E' as ->. by symmetry.
    + intros (Hf & Hg & Hb & Hi). rewrite <- Hk, !key_shape by done. by rewrite Hf, Hg, Hb, Hi.
  - intros y Hy Ey. destruct (xid_reads_back y Hy) as (y' & E' & _). congruence.
Qed.

(** ** Records of the coordinator's state *)

Definition name_ok (s : bytes) : Prop := wf_bytes s /\ zlen s <= TDB_XA_TC_MAX_NAME.

Lemma tc_read_string s rest : zlen s <= TDB_XA_TC_MAX_NAME -> tc_read (tc_string s ++ rest) = Some (s, rest).
Proof.
  intros Hs. unfold TDB_XA_TC_MAX_NAME in Hs. pose proof (zlen_nonneg s). unfold tc_read, tc_string, u32.
  rewrite Z.mod_small by lia. rewrite <- app_assoc, get_put_u32 by lia.
  assert (length (tdb_put_u32_be (zlen s)) = 4%nat) as L4 by apply length_be_store.
  rewrite drop_app_exact by done. rewrite !zlen_app. pose proof (zlen_nonneg rest). unfold TDB_XA_TC_MAX_NAME.
  unfold zlen at 1. rewrite L4. repeat (case_test; [lia|]). simpl. unfold zlen. rewrite Nat2Z.id.
  by rewrite take_app_exact, drop_app_exact.
Qed.

Lemma tc_names_encoded tables rest out :
  Forall (fun t => zlen t.1 <= TDB_XA_TC_MAX_NAME /\ zlen t.2 <= TDB_XA_TC_MAX_NAME) tables ->
  tc_names (length tables) (concat (map (fun t => tc_string t.1 ++ tc_string t.2) tables) ++ rest) out = (true, out ++ tables).
Proof.
  intros Ht. revert out. induction Ht as [|[a b] tables [Ha Hb] _ IH]; intros out; [by rewrite app_nil_r|].
  cbn [length tc_names map concat fst snd]. simpl in Ha, Hb. rewrite <- !app_assoc, tc_read_string by done. rewrite tc_read_string by done. rewrite IH. by rewrite <- app_assoc.
Qed.

(** What one read consumed. *)
Lemma tc_read_inv p s rest : wf_bytes p -> tc_read p = Some (s, rest) -> p = tc_string s ++ rest /\ zlen s <= TDB_XA_TC_MAX_NAME.
Proof.
  intros Hw. unfold tc_read. repeat (case_test; [done|]). cbn [orb]. intros [= <- <-].
  destruct (put_get_u32 p) as [P4 B4]; [done|lia|]. set (n := tdb_get_u32_be p) in *.
  assert (zlen (take (Z.to_nat n) (drop 4 p)) = n) as Hn by (unfold zlen in *; rewrite length_take; lia).
  split; [|lia]. unfold tc_string, u32. rewrite Hn, Z.mod_small, P4 by lia. rewrite <- app_assoc, take_drop. by rewrite take_drop.
Qed.

Lemma tc_names_inv count p out names :
  wf_bytes p -> tc_names count p out = (true, names) ->
  exists tables rest, names = out ++ tables /\ length tables = count /\
    p = concat (map (fun t => tc_string t.1 ++ tc_string t.2) tables) ++ rest.
Proof.
  revert p out. induction count as [|count IH]; intros p out Hw; simpl.
  - intros [= <-]. exists [], p. by rewrite app_nil_r.
  - destruct (tc_read p) as [[a p1]|] eqn:Ea; [|done]. destruct (tc_read p1) as [[b p2]|] eqn:Eb; [|done].
    apply tc_read_inv in Ea as [-> _]; [|done]. apply Forall_app in Hw as [_ Hw].
    apply tc_read_inv in Eb as [-> _]; [|done]. apply Forall_app in Hw as [_ Hw].
    intros H. apply IH in H as (tables & rest & -> & Hl & ->); [|done].
    exists ((a, b) :: tables), rest. split_and!; [by rewrite <- app_assoc|simpl; lia|]. simpl. by rewrite <- !app_assoc.
Qed.

(** The tables a prepared transaction wrote to come back from its record, and a record that is
    accepted is one the encoder writes, followed at most by bytes it did not need. *)
Lemma xa_tc_record_exact tables rec :
  Forall (fun t => zlen t.1 <= TDB_XA_TC_MAX_NAME /\ zlen t.2 <= TDB_XA_TC_MAX_NAME) tables ->
  zlen tables < 2 ^ 32 -> wf_bytes rec ->
  tdb_xa_tc_decode (tdb_xa_tc_encode tables) = (true, tables) /\
  forall names, tdb_xa_tc_decode rec = (true, names) -> tdb_xa_tc_encode names `prefix_of` rec.
Proof.
  intros Ht Hc Hw. split.
  - pose proof (zlen_nonneg tables). unfold tdb_xa_tc_encode, u32. rewrite Z.mod_small by lia. unfold tdb_xa_tc_decode.
    assert (length (tdb_put_u32_be (zlen tables)) = 4%nat) as L4 by apply length_be_store.
    rewrite get_put_u32 by lia. rewrite drop_app_exact by done. unfold zlen at 3. rewrite Nat2Z.id.
    set (names := concat _). rewrite zlen_cons, zlen_app. unfold zlen at 1. rewrite L4. pose proof (zlen_nonneg names).
    case_test; [lia|]. simpl. rewrite <- (app_nil_r names). by apply (tc_names_encoded tables [] []).
  - intros names. unfold tdb_xa_tc_decode. destruct rec as [|v p]; [done|]. repeat (case_test; [done|]). cbn [orb]. case_test; [|done]. cbn [negb].
    apply Forall_cons in Hw as [_ Hw]. rewrite zlen_cons in *. destruct (put_get_u32 p) as [P4 B4]; [done|lia|].
    intros Hr. apply tc_names_inv in Hr as (l & rest & -> & Hl & Hp); [|by apply Forall_drop]. cbn [app].
    exists rest. unfold tdb_xa_tc_encode, u32. assert (zlen l = tdb_get_u32_be p) as -> by (unfold zlen; lia).
    rewrite Z.mod_small, P4 by lia. assert (v = TDB_XA_TC_FORMAT_VERSION) as -> by lia. rewrite <- app_comm_cons. f_equal.
    rewrite <- app_assoc, <- Hp. by rewrite take_drop.
Qed.

(** A record cut short does not yield no names: the ones before the cut are handed on. *)
Lemma cut_record_yields_names :
  tdb_xa_tc_decode (removelast (tdb_xa_tc_encode [(bs "db", bs "t"); (bs "db", bs "u")])) = (false, [(bs "db", bs "t")]).
Proof. vm_compute. reflexivity. Qed.

End XaCodec.
