(* ===== verification/Txn.v ===== *)
(** * Transactions, savepoints and two-phase commit ([src/handler/ha_tidesdb_txn.cc])

    The handlerton callbacks and the statement hooks of the handler, over one connection: the handler it
    has open (which carries the library), its transaction object, and the maps of prepared transactions all
    connections share.  [cached_trx_] of the handler points at the connection's transaction object, so a
    row operation runs on that object and leaves it changed ([on_handler]).  What a callback reads of its
    [THD] is an argument.  Registration with the server is recorded; log messages are not. *)
From S2P Require Import Prelude Effects TidesDb RowDb TxnDb XaCodec Dml.
Import XaCodec Dml.
#[local] Open Scope Z_scope.
#[local] Open Scope tdb_scope.

Module Txn.

Inductive sqlcom :=
  | SQLCOM_ALTER_TABLE | SQLCOM_CREATE_INDEX | SQLCOM_DROP_INDEX | SQLCOM_TRUNCATE | SQLCOM_OPTIMIZE
  | SQLCOM_CREATE_TABLE | SQLCOM_DROP_TABLE | SQLCOM_XA_PREPARE | SQLCOM_OTHER (n : Z).

#[export] Instance sqlcom_eq_dec : EqDecision sqlcom.
Proof. solve_decision. Defined.

(** [multi] is [thd_test_options(thd, OPTION_NOT_AUTOCOMMIT | OPTION_BEGIN)]. *)
Record THD := { sql_command : sqlcom; multi : bool; tx_isolation : Z; thd_xid : XID }.

(** What a callback answers: [R_LIB rc] is [tdb_rc_to_ha] of a library failure. *)
Inductive hton_rc := R_OK | R_NO_SAVEPOINT | R_INTERNAL_ERROR | R_FAILED | R_LIB (rc : tdb_rc).
Inductive xa_rc := XA_OK | XAER_RMERR.

Definition rc_to_ha (rc : tdb_rc) : hton_rc := match rc with TDB_SUCCESS => R_OK | rc => R_LIB rc end.

Definition TIDESDB_STMT_SAVEPOINT : bytes := bs "stmt".
Definition TDB_XA_TC_CF_NAME : bytes := bs "__tidesql_xa_tc".
Definition TDB_XA_PREPARE_DETACHES : bool := true.

Definition iso_rank (i : tidesdb_isolation_level_t) : Z :=
  match i with
  | TDB_ISOLATION_READ_UNCOMMITTED => 0
  | TDB_ISOLATION_READ_COMMITTED => 1
  | TDB_ISOLATION_REPEATABLE_READ => 2
  | TDB_ISOLATION_SNAPSHOT => 3
  | TDB_ISOLATION_SERIALIZABLE => 4
  end.

Definition resolve_effective_isolation (thd : THD) (table_iso : tidesdb_isolation_level_t) : tidesdb_isolation_level_t :=
  if tx_isolation thd =? 0 then TDB_ISOLATION_READ_UNCOMMITTED
  else if tx_isolation thd =? 1 then TDB_ISOLATION_READ_COMMITTED
  else if tx_isolation thd =? 2 then
    if bool_decide (table_iso = TDB_ISOLATION_REPEATABLE_READ) then TDB_ISOLATION_SNAPSHOT else table_iso
  else if tx_isolation thd =? 3 then TDB_ISOLATION_SERIALIZABLE
  else TDB_ISOLATION_READ_COMMITTED.

Definition is_ddl (c : sqlcom) : bool :=
  match c with SQLCOM_XA_PREPARE | SQLCOM_OTHER _ => false | _ => true end.

(** The maps every connection shares. *)
Record globals (txn : Type) := {
  prepared_txns : gmap bytes txn;
  recovery_xids : list bytes;
  recovery_pos : nat;
  recovery_loaded : bool;
  recovery_mod_tables : gmap bytes tdb_table_names_t }.
Arguments prepared_txns {txn}.
Arguments recovery_xids {txn}.
Arguments recovery_pos {txn}.
Arguments recovery_loaded {txn}.
Arguments recovery_mod_tables {txn}.

(** The state after the server starts. *)
Definition started {txn} : globals txn :=
  {| prepared_txns := ∅; recovery_xids := []; recovery_pos := 0; recovery_loaded := false; recovery_mod_tables := ∅ |}.

(** [cached] says that the handler's [cached_trx_] points at [ha_data]; [shape] is the statement's cached
    command and autocommit flag while [cached_stmt_shape_valid_]; [registered] the levels the engine has
    registered at with the server, statement first. *)
Record conn (E txn : Type) := {
  hd : handler E txn;
  cached : bool;
  shape : option (sqlcom * bool);
  ha_data : option (tidesdb_trx_t txn);
  glob : globals txn;
  registered : bool * bool }.
Arguments hd {E txn}.
Arguments cached {E txn}.
Arguments shape {E txn}.
Arguments ha_data {E txn}.
Arguments glob {E txn}.
Arguments registered {E txn}.

Section code.
Context {E txn : Type} `{!TidesDb E txn, !RowDb E txn, !SavepointDb E txn, !FamilyDb E txn, !XaDb E txn}.
Context (share_isolation : option tidesdb_isolation_level_t).
Local Open Scope eff_scope.

#[local] Abbreviation hdl := (handler E txn).
#[local] Abbreviation trx_t := (tidesdb_trx_t txn).
#[local] Abbreviation cn := (conn E txn).

(** ** Fields *)

Definition set_hd (h : hdl) (c : cn) : cn :=
  {| hd := h; cached := cached c; shape := shape c; ha_data := ha_data c; glob := glob c; registered := registered c |}.
Definition set_data (x : option trx_t) (c : cn) : cn :=
  {| hd := hd c; cached := cached c; shape := shape c; ha_data := x; glob := glob c; registered := registered c |}.
Definition set_glob (g : globals txn) (c : cn) : cn :=
  {| hd := hd c; cached := cached c; shape := shape c; ha_data := ha_data c; glob := g; registered := registered c |}.
Definition set_cached (b : bool) (s : option (sqlcom * bool)) (c : cn) : cn :=
  {| hd := hd c; cached := b; shape := s; ha_data := ha_data c; glob := glob c; registered := registered c |}.

(** [trans_register_ha(thd, all, ...)]. *)
Definition trans_register_ha (all : bool) : M cn unit := modify (fun c =>
  {| hd := hd c; cached := cached c; shape := shape c; ha_data := ha_data c; glob := glob c;
     registered := if all then ((registered c).1, true) else (true, (registered c).2) |}).

Definition set_life (tx : option txn) (d nr : bool) (t : trx_t) : trx_t :=
  {| trx_txn := tx; dirty := d; fts_meta_pending := fts_meta_pending t; fts_meta_dirty := fts_meta_dirty t;
     stmt_savepoint_active := stmt_savepoint_active t; stmt_fts_snapshot := stmt_fts_snapshot t;
     txn_generation := txn_generation t; mod_tables := mod_tables t; mod_tables_generation := mod_tables_generation t;
     needs_reset := nr; isolation_level := isolation_level t; stmt_fts_dirty_snapshot := stmt_fts_dirty_snapshot t;
     prepared_xid := prepared_xid t; prepared_mod_tables := prepared_mod_tables t |}.
Definition bump (t : trx_t) : trx_t :=
  {| trx_txn := trx_txn t; dirty := dirty t; fts_meta_pending := fts_meta_pending t; fts_meta_dirty := fts_meta_dirty t;
     stmt_savepoint_active := stmt_savepoint_active t; stmt_fts_snapshot := stmt_fts_snapshot t;
     txn_generation := u64 (txn_generation t + 1); mod_tables := mod_tables t;
     mod_tables_generation := mod_tables_generation t; needs_reset := needs_reset t; isolation_level := isolation_level t;
     stmt_fts_dirty_snapshot := stmt_fts_dirty_snapshot t; prepared_xid := prepared_xid t;
     prepared_mod_tables := prepared_mod_tables t |}.
Definition set_iso (iso : tidesdb_isolation_level_t) (t : trx_t) : trx_t :=
  {| trx_txn := trx_txn t; dirty := dirty t; fts_meta_pending := fts_meta_pending t; fts_meta_dirty := fts_meta_dirty t;
     stmt_savepoint_active := stmt_savepoint_active t; stmt_fts_snapshot := stmt_fts_snapshot t;
     txn_generation := txn_generation t; mod_tables := mod_tables t; mod_tables_generation := mod_tables_generation t;
     needs_reset := needs_reset t; isolation_level := iso; stmt_fts_dirty_snapshot := stmt_fts_dirty_snapshot t;
     prepared_xid := prepared_xid t; prepared_mod_tables := prepared_mod_tables t |}.
Definition set_save (active : bool) (snap : list fts_meta_delta_t) (dsnap : bool) (t : trx_t) : trx_t :=
  {| trx_txn := trx_txn t; dirty := dirty t; fts_meta_pending := fts_meta_pending t; fts_meta_dirty := fts_meta_dirty t;
     stmt_savepoint_active := active; stmt_fts_snapshot := snap;
     txn_generation := txn_generation t; mod_tables := mod_tables t; mod_tables_generation := mod_tables_generation t;
     needs_reset := needs_reset t; isolation_level := isolation_level t; stmt_fts_dirty_snapshot := dsnap;
     prepared_xid := prepared_xid t; prepared_mod_tables := prepared_mod_tables t |}.
Definition set_prepared (xid : bytes) (tabs moved : tdb_table_names_t) (t : trx_t) : trx_t :=
  {| trx_txn := trx_txn t; dirty := dirty t; fts_meta_pending := fts_meta_pending t; fts_meta_dirty := fts_meta_dirty t;
     stmt_savepoint_active := stmt_savepoint_active t; stmt_fts_snapshot := stmt_fts_snapshot t;
     txn_generation := txn_generation t; mod_tables := tabs; mod_tables_generation := mod_tables_generation t;
     needs_reset := needs_reset t; isolation_level := isolation_level t;
     stmt_fts_dirty_snapshot := stmt_fts_dirty_snapshot t; prepared_xid := xid; prepared_mod_tables := moved |}.

(** Assignments to one member. *)
Definition set_txn_ptr (tx : option txn) (t : trx_t) : trx_t := set_life tx (dirty t) (needs_reset t) t.
Definition set_clean (t : trx_t) : trx_t := set_life (trx_txn t) false (needs_reset t) t.
Definition set_needs_reset (b : bool) (t : trx_t) : trx_t := set_life (trx_txn t) (dirty t) b t.
Definition set_active (b : bool) (t : trx_t) : trx_t := set_save b (stmt_fts_snapshot t) (stmt_fts_dirty_snapshot t) t.
Definition clear_snapshot (t : trx_t) : trx_t := set_save (stmt_savepoint_active t) [] (stmt_fts_dirty_snapshot t) t.
Definition set_xid (x : bytes) (t : trx_t) : trx_t := set_prepared x (mod_tables t) (prepared_mod_tables t) t.

Definition upd (f : trx_t -> trx_t) : M cn unit := modify (fun c => set_data (f <$> ha_data c) c).

Definition on_db {A} (m : M E A) : M cn A := lift (fun c => lib (hd c)) (fun e c => set_hd (set_lib e (hd c)) c) m.

(** A function of the row operations that is handed the connection's transaction object. *)
Definition with_trx {A} (m : M hdl A) : M cn A :=
  lift (fun c => set_trx (ha_data c) (hd c)) (fun h c => set_data (cached_trx_ h) (set_hd h c)) m.

(** A row operation of the open handler, which reaches the transaction object through [cached_trx_]. *)
Definition on_handler {A} (m : M hdl A) : M cn A :=
  lift (fun c => set_trx (if cached c then ha_data c else None) (hd c))
    (fun h c => if cached c then set_data (cached_trx_ h) (set_hd h c) else set_hd h c) m.

Definition set_registry (f : gmap bytes txn -> gmap bytes txn) : M cn unit := modify (fun c =>
  let g := glob c in
  set_glob {| prepared_txns := f (prepared_txns g); recovery_xids := recovery_xids g; recovery_pos := recovery_pos g;
              recovery_loaded := recovery_loaded g; recovery_mod_tables := recovery_mod_tables g |} c).

(** ** Transactions honouring their two-phase state *)

Definition tdb_txn_commit_stateful (t : txn) : M E tdb_rc :=
  st <-- txn_state t;
  match st with TDB_TXN_STATE_PREPARED => txn_commit_prepared t | TDB_TXN_STATE_ACTIVE => txn_commit t end.

Definition tdb_txn_rollback_stateful (t : txn) : M E tdb_rc :=
  st <-- txn_state t;
  match st with TDB_TXN_STATE_PREPARED => txn_rollback_prepared t | TDB_TXN_STATE_ACTIVE => txn_rollback t end.

Definition tdb_drop_prepared_entry : M cn unit :=
  trx <-- gets ha_data;
  match trx with
  | None => ret tt
  | Some x =>
      if bool_decide (prepared_xid x = []) then ret tt
      else set_registry (delete (prepared_xid x));; upd (set_xid [])
  end.

(** ** The statement savepoint *)

Definition stmt_savepoint_arm (t : txn) : M cn unit :=
  on_db (txn_release_savepoint t TIDESDB_STMT_SAVEPOINT);;
  rc <-- on_db (txn_savepoint t TIDESDB_STMT_SAVEPOINT);
  if tdb_ok rc then upd (fun x => set_save true (fts_meta_pending x) (fts_meta_dirty x) x) else ret tt.

Definition stmt_savepoint_disarm (t : txn) : M cn unit :=
  act <-- gets (fun c => from_option stmt_savepoint_active false (ha_data c));
  if negb act then ret tt
  else
    on_db (txn_release_savepoint t TIDESDB_STMT_SAVEPOINT);;
    upd (fun x => clear_snapshot (set_active false x)).

Definition stmt_savepoint_rollback (t : txn) : M cn bool :=
  act <-- gets (fun c => from_option stmt_savepoint_active false (ha_data c));
  if negb act then ret false
  else
    rc <-- on_db (txn_rollback_to_savepoint t TIDESDB_STMT_SAVEPOINT);
    if negb (tdb_ok rc) then upd (fun x => clear_snapshot (set_active false x));; ret false
    else
      upd (fun x => clear_snapshot (set_meta (stmt_fts_snapshot x) (stmt_fts_dirty_snapshot x) x));;
      upd (fun x => set_active false (bump x));;
      ret true.

(** ** The connection's transaction *)

Definition new_trx (t : txn) (iso : tidesdb_isolation_level_t) : trx_t :=
  {| trx_txn := Some t; dirty := false; fts_meta_pending := []; fts_meta_dirty := false; stmt_savepoint_active := false;
     stmt_fts_snapshot := []; txn_generation := 1; mod_tables := []; mod_tables_generation := 0; needs_reset := false;
     isolation_level := iso; stmt_fts_dirty_snapshot := false; prepared_xid := []; prepared_mod_tables := [] |}.

(** Answers [false] for [NULL]. *)
Definition get_or_create_trx (iso : tidesdb_isolation_level_t) : M cn bool :=
  trx <-- gets ha_data;
  match trx with
  | Some x =>
      match trx_txn x with
      | None =>
          r <-- on_db (txn_begin_with_isolation iso);
          match r with
          | inl _ => ret false
          | inr t => upd (fun x => bump (set_iso iso (set_clean (set_txn_ptr (Some t) x))));; ret true
          end
      | Some t =>
          if needs_reset x then
            rrc <-- on_db (txn_reset_with t iso);
            next <-- (if tdb_ok rrc then ret (inr t)
                      else on_db (txn_free t);; upd (set_txn_ptr None);; on_db (txn_begin_with_isolation iso));
            match next with
            | inl _ => ret false
            | inr t => upd (fun x => bump (set_iso iso (set_needs_reset false (set_txn_ptr (Some t) x))));; ret true
            end
          else ret true
      end
  | None =>
      r <-- on_db (txn_begin_with_isolation iso);
      match r with
      | inl _ => ret false
      | inr t => modify (set_data (Some (new_trx t iso)));; ret true
      end
  end.

(** ** SQL savepoints; the name is synthesised from the server's slot *)

Definition conn_txn (c : cn) : option txn := ha_data c ≫= trx_txn.

Definition tidesdb_savepoint_set (name : bytes) : M cn hton_rc :=
  t <-- gets conn_txn;
  match t with
  | None => ret R_OK
  | Some t => rc <-- on_db (txn_savepoint t name); ret (rc_to_ha rc)
  end.

Definition tidesdb_savepoint_rollback (name : bytes) : M cn hton_rc :=
  t <-- gets conn_txn;
  match t with
  | None => ret R_OK
  | Some t =>
      rc <-- on_db (txn_rollback_to_savepoint t name);
      match rc with
      | TDB_SUCCESS => on_db (txn_savepoint t name);; ret R_OK
      | TDB_ERR_NOT_FOUND => ret R_NO_SAVEPOINT
      | rc => ret (rc_to_ha rc)
      end
  end.

Definition tidesdb_savepoint_release (name : bytes) : M cn hton_rc :=
  t <-- gets conn_txn;
  match t with
  | None => ret R_OK
  | Some t =>
      rc <-- on_db (txn_release_savepoint t name);
      match rc with TDB_ERR_NOT_FOUND => ret R_NO_SAVEPOINT | rc => ret (rc_to_ha rc) end
  end.

(** ** Commit and rollback *)

(** The transaction object after its library transaction was freed. *)
Definition torn_down (x : trx_t) : trx_t := set_active false (set_clean (bump (set_txn_ptr None x))).

Definition tdb_finalize_commit (t : txn) : M cn hton_rc :=
  stmt_savepoint_disarm t;;
  tdb_drop_prepared_entry;;
  d <-- gets (fun c => from_option dirty false (ha_data c));
  if d then
    frc <-- with_trx flush_trx_fts_meta_pending;
    if negb (tdb_ok frc) then
      on_db (txn_rollback t);; on_db (txn_free t);; upd torn_down;; ret (rc_to_ha frc)
    else
      rc <-- on_db (tdb_txn_commit_stateful t);
      if negb (tdb_ok rc) then
        on_db (tdb_txn_rollback_stateful t);; on_db (txn_free t);; upd torn_down;; ret (rc_to_ha rc)
      else
        upd (fun x => set_needs_reset true (bump x));;
        upd (fun x => set_active false (set_clean x));; ret R_OK
  else
    upd (set_meta [] false);;
    on_db (txn_rollback t);;
    upd (fun x => set_needs_reset true (bump x));;
    upd (fun x => set_active false (set_clean x));; ret R_OK.

Definition tidesdb_commit (thd : THD) (all : bool) : M cn hton_rc :=
  t <-- gets conn_txn;
  match t with
  | None => ret R_OK
  | Some t =>
      if all || negb (multi thd) then tdb_finalize_commit t
      else stmt_savepoint_disarm t;; ret R_OK
  end.

Definition full_rollback (t : txn) : M cn hton_rc :=
  act <-- gets (fun c => from_option stmt_savepoint_active false (ha_data c));
  (if act then on_db (txn_release_savepoint t TIDESDB_STMT_SAVEPOINT);; upd (set_active false) else ret tt);;
  tdb_drop_prepared_entry;;
  upd (fun x => clear_snapshot (set_meta [] false x));;
  on_db (tdb_txn_rollback_stateful t);;
  upd (fun x => set_active false (set_clean (set_needs_reset true (bump x))));;
  ret R_OK.

Definition tidesdb_rollback (thd : THD) (all : bool) : M cn hton_rc :=
  t <-- gets conn_txn;
  match t with
  | None => ret R_OK
  | Some t =>
      undone <-- (if all || negb (multi thd) then ret false else stmt_savepoint_rollback t);
      if undone : bool then ret R_OK else full_rollback t
  end.

Definition tidesdb_close_connection : M cn hton_rc :=
  trx <-- gets ha_data;
  match trx with
  | None => ret R_OK
  | Some x =>
      (if negb (bool_decide (prepared_xid x = [])) then ret tt
       else match trx_txn x with
            | Some t => on_db (txn_rollback t);; on_db (txn_free t)
            | None => ret tt
            end);;
      modify (set_data None);; ret R_OK
  end.

Definition tidesdb_start_consistent_snapshot (thd : THD) : M cn hton_rc :=
  let iso := resolve_effective_isolation thd TDB_ISOLATION_REPEATABLE_READ in
  let iso := if iso_rank iso <? iso_rank TDB_ISOLATION_SNAPSHOT then TDB_ISOLATION_SNAPSHOT else iso in
  ok <-- get_or_create_trx iso;
  if negb ok then ret R_FAILED
  else trans_register_ha false;; trans_register_ha true;; ret R_OK.

Definition tdb_stmt_txn_for_ddl (thd : THD) : M cn (option txn) :=
  ok <-- get_or_create_trx (resolve_effective_isolation thd TDB_ISOLATION_READ_COMMITTED);
  t <-- gets conn_txn;
  match ok, t with
  | true, Some t =>
      trans_register_ha false;; trans_register_ha true;;
      upd (set_dirty true);; ret (Some t)
  | _, _ => ret None
  end.

(** ** Statement hooks of the handler *)

Definition effective_iso (thd : THD) (cmd : sqlcom) : tidesdb_isolation_level_t :=
  if is_ddl cmd then TDB_ISOLATION_READ_COMMITTED
  else resolve_effective_isolation thd (default TDB_ISOLATION_SNAPSHOT share_isolation).

Definition ensure_stmt_txn (thd : THD) : M cn ha_code :=
  st <-- gets (fun c => stmt_txn (hd c));
  match st with
  | Some _ => ret HA_OK
  | None =>
      sh <-- gets shape;
      let cmd := match sh with Some (cmd, _) => cmd | None => sql_command thd end in
      ok <-- get_or_create_trx (effective_iso thd cmd);
      if negb ok then ret HA_ERR_OUT_OF_MEM
      else modify (fun c => set_hd (set_txn (conn_txn c) (hd c)) c);; ret HA_OK
  end.

(** [stmt_txn] of the handler with [stmt_txn_dirty] cleared. *)
Definition open_stmt (t : option txn) (h : hdl) : hdl :=
  {| lib := lib h; stmt_txn := t; stmt_txn_dirty := false; cached_trx_ := cached_trx_ h; scan_txn := scan_txn h;
     scan_iter := scan_iter h; current_pk := current_pk h; dup_key_no_ := dup_key_no_ h; dup_ref := dup_ref h;
     mod_table_noted_generation_ := mod_table_noted_generation_ h; next_row_id := next_row_id h;
     auto_inc_val := auto_inc_val h; bulk_of := bulk_of h |}.
Definition free_scan_iter (h : hdl) : hdl :=
  {| lib := lib h; stmt_txn := stmt_txn h; stmt_txn_dirty := stmt_txn_dirty h; cached_trx_ := cached_trx_ h;
     scan_txn := scan_txn h; scan_iter := false; current_pk := current_pk h; dup_key_no_ := dup_key_no_ h;
     dup_ref := dup_ref h; mod_table_noted_generation_ := mod_table_noted_generation_ h; next_row_id := next_row_id h;
     auto_inc_val := auto_inc_val h; bulk_of := bulk_of h |}.

Definition external_lock_acquire (thd : THD) : M cn ha_code :=
  let cmd := sql_command thd in
  let is_autocommit := negb (multi thd) in
  modify (fun c => set_cached (cached c) (Some (cmd, is_autocommit)) c);;
  ok <-- get_or_create_trx (effective_iso thd cmd);
  if negb ok then ret HA_ERR_OUT_OF_MEM
  else
    modify (fun c => set_hd (open_stmt (conn_txn c) (hd c)) c);;
    modify (fun c => set_cached true (shape c) c);;
    trans_register_ha false;;
    (if negb is_autocommit then trans_register_ha true else ret tt);;
    t <-- gets conn_txn;
    act <-- gets (fun c => from_option stmt_savepoint_active false (ha_data c));
    match t with
    | Some t => (if negb is_autocommit && negb (is_ddl cmd) && negb act then stmt_savepoint_arm t else ret tt);; ret HA_OK
    | None => ret HA_OK
    end.

Definition start_stmt (thd : THD) : M cn ha_code := external_lock_acquire thd.

Definition external_lock_release (thd : THD) : M cn unit :=
  modify (fun c =>
    let in_multi_stmt := match shape c with Some (_, autocommit) => negb autocommit | None => multi thd end in
    let h := if negb in_multi_stmt || stmt_txn_dirty (hd c) then free_scan_iter (hd c) else hd c in
    set_cached false None (set_hd (open_stmt None h) c)).

Definition external_lock (thd : THD) (unlock : bool) : M cn ha_code :=
  if negb unlock then external_lock_acquire thd else external_lock_release thd;; ret HA_OK.

End code.
End Txn.
