(* ===== verification/Xa.v ===== *)
(** * Two-phase commit and recovery ([src/handler/ha_tidesdb_txn.cc])

    Prepare, the resolvers by XID, the recovery of transactions in doubt after a restart, and the reserved
    family that records which of them the coordinator had prepared. *)
From S2P Require Import Prelude Effects TidesDb RowDb TxnDb XaCodec Dml Txn.
Import XaCodec Dml Txn.
#[local] Open Scope Z_scope.
#[local] Open Scope tdb_scope.

Module Xa.

Section code.
Context {E txn : Type} `{!TidesDb E txn, !RowDb E txn, !SavepointDb E txn, !FamilyDb E txn, !XaDb E txn}.
Local Open Scope eff_scope.

#[local] Abbreviation trx_t := (tidesdb_trx_t txn).
#[local] Abbreviation cn := (conn E txn).

(** A failed prepare gives the transaction up. *)
Definition give_up_txn (t : txn) : M cn unit :=
  on_db (tdb_txn_rollback_stateful t);; on_db (txn_free t);; upd (fun x => set_clean (bump (set_txn_ptr None x))).

Definition tidesdb_prepare (thd : THD) (all : bool) : M cn hton_rc :=
  t <-- gets conn_txn;
  match t with
  | None => ret R_OK
  | Some t =>
      if negb all then ret R_OK
      else
        stmt_savepoint_disarm t;;
        let is_external := bool_decide (sql_command thd = SQLCOM_XA_PREPARE) in
        d <-- gets (fun c => from_option dirty false (ha_data c));
        if negb d && negb is_external then ret R_OK
        else
          frc <-- (if d : bool then with_trx flush_trx_fts_meta_pending else ret TDB_SUCCESS);
          if negb (tdb_ok frc) then give_up_txn t;; ret (rc_to_ha frc)
          else
            let key := tdb_xid_key (thd_xid thd) in
            rc <-- on_db (txn_prepare t key);
            if negb (tdb_ok rc) then give_up_txn t;; ret (rc_to_ha rc)
            else if negb is_external then ret R_OK
            else
              set_registry (<[key := t]>);;
              upd (fun x => set_prepared key [] (mod_tables x) x);;
              (if TDB_XA_PREPARE_DETACHES
               then upd (fun x => set_meta [] false (set_xid [] (bump (set_clean (set_txn_ptr None x)))))
               else upd (set_xid key));;
              ret R_OK
  end.

(** ** The reserved family of the coordinator's state *)

Definition tdb_xa_tc_cf : M E bool :=
  found <-- get_cf TDB_XA_TC_CF_NAME;
  if found : bool then ret true
  else
    rc <-- create_cf TDB_XA_TC_CF_NAME;
    if tdb_ok rc then get_cf TDB_XA_TC_CF_NAME else ret false.

Definition tdb_xa_tc_mark (key : bytes) (tables : tdb_table_names_t) : M E bool :=
  cf <-- tdb_xa_tc_cf;
  if negb cf then ret false
  else
    r <-- txn_begin;
    match r with
    | inl _ => ret false
    | inr t =>
        prc <-- txn_put t TDB_XA_TC_CF_NAME key (tdb_xa_tc_encode tables);
        ok <-- (if tdb_ok prc then rc <-- txn_commit t; ret (tdb_ok rc)
                else txn_rollback t;; ret false);
        txn_free t;; ret ok
    end.

Definition tdb_xa_tc_clear (key : bytes) : M E unit :=
  cf <-- tdb_xa_tc_cf;
  if negb cf || bool_decide (key = []) then ret tt
  else
    r <-- txn_begin;
    match r with
    | inl _ => ret tt
    | inr t =>
        rc <-- txn_delete t TDB_XA_TC_CF_NAME key;
        (if tdb_ok rc then txn_commit t;; ret tt else txn_rollback t;; ret tt);;
        txn_free t
    end.

Definition tidesdb_set_prepared_in_tc (thd : THD) : M cn hton_rc :=
  let key := tdb_xid_key (thd_xid thd) in
  tables <-- gets (fun c => from_option prepared_mod_tables [] (ha_data c));
  upd (fun x => set_prepared (prepared_xid x) (mod_tables x) [] x);;
  ok <-- on_db (tdb_xa_tc_mark key tables);
  ret (if ok : bool then R_OK else R_INTERNAL_ERROR).

Definition tidesdb_set_prepared_in_tc_by_xid (xid : XID) : M cn xa_rc :=
  let key := tdb_xid_key xid in
  tables <-- gets (fun c => default [] (recovery_mod_tables (glob c) !! key));
  ok <-- on_db (tdb_xa_tc_mark key tables);
  ret (if ok : bool then XA_OK else XAER_RMERR).

Definition add_mod_tables (k : bytes) (tables : tdb_table_names_t) : M cn unit := modify (fun c =>
  let g := glob c in
  set_glob {| prepared_txns := prepared_txns g; recovery_xids := recovery_xids g; recovery_pos := recovery_pos g;
              recovery_loaded := recovery_loaded g; recovery_mod_tables := <[k := tables]> (recovery_mod_tables g) |} c).

(** The walk of the family, one entry at a time: an entry counts when its key can be read, and one
    whose value cannot be read names no tables.  The answer is the server's list of transactions
    prepared in the coordinator. *)
Fixpoint tc_walk (l : list (answer * answer)) : M cn (list XID) :=
  match l with
  | [] => ret []
  | (inr k, v) :: l =>
      match tdb_xid_from_key k with
      | Some x =>
          add_mod_tables k (match v with inr v => (tdb_xa_tc_decode v).2 | inl _ => [] end);; xs <-- tc_walk l; ret (x :: xs)
      | None => tc_walk l
      end
  | (inl _, _) :: l => tc_walk l
  end.

Definition tidesdb_recover_prepared_in_tc : M cn (list XID) :=
  cf <-- on_db tdb_xa_tc_cf;
  if negb cf then ret []
  else
    r <-- on_db txn_begin;
    match r with
    | inl _ => ret []
    | inr t =>
        s <-- on_db (scan t TDB_XA_TC_CF_NAME);
        match s with
        | inl _ => on_db (txn_rollback t);; on_db (txn_free t);; ret []
        | inr l => xs <-- tc_walk l; on_db (txn_rollback t);; on_db (txn_free t);; ret xs
        end
    end.

(** ** Resolution by XID *)

Definition decide_by_xid (act : txn -> M E tdb_rc) (xid : XID) : M cn xa_rc :=
  let key := tdb_xid_key xid in
  reg <-- gets (fun c => prepared_txns (glob c));
  match reg !! key with
  | None => ret XA_OK
  | Some t =>
      set_registry (delete key);;
      rc <-- on_db (act t);
      if negb (tdb_ok rc) then set_registry (<[key := t]>);; ret XAER_RMERR
      else on_db (txn_free t);; on_db (tdb_xa_tc_clear key);; ret XA_OK
  end.

Definition tidesdb_commit_by_xid : XID -> M cn xa_rc := decide_by_xid txn_commit_prepared.
Definition tidesdb_rollback_by_xid : XID -> M cn xa_rc := decide_by_xid txn_rollback_prepared.

(** ** Recovery *)

Definition set_recovery (l : list (bytes * txn)) : M cn unit := modify (fun c =>
  let g := glob c in
  set_glob {| prepared_txns := fold_left (fun m kt => <[kt.1 := kt.2]> m) l (prepared_txns g);
              recovery_xids := recovery_xids g ++ l.*1; recovery_pos := recovery_pos g;
              recovery_loaded := recovery_loaded g; recovery_mod_tables := recovery_mod_tables g |} c).

Definition set_loaded : M cn unit := modify (fun c =>
  let g := glob c in
  set_glob {| prepared_txns := prepared_txns g; recovery_xids := recovery_xids g; recovery_pos := recovery_pos g;
              recovery_loaded := true; recovery_mod_tables := recovery_mod_tables g |} c).

Definition tdb_load_recovered_prepared : M cn unit :=
  loaded <-- gets (fun c => recovery_loaded (glob c));
  if loaded : bool then ret tt
  else
    set_loaded;;
    n <-- on_db recover_prepared_count;
    match n with
    | inl _ => ret tt
    | inr count =>
        if count <=? 0 then ret tt
        else
          r <-- on_db (recover_prepared count);
          match r with
          | inl _ => ret tt
          | inr l => set_recovery l
          end
    end.

(** The loop of [tidesdb_recover] over the keys from the cursor: how many it consumed, and the XIDs it
    handed over with the tables to lock, at most [len] of them. *)
Fixpoint recover_walk (names : gmap bytes tdb_table_names_t) (rest : list bytes) (len : nat) :
    nat * list (XID * tdb_table_names_t) :=
  match rest, len with
  | k :: rest, S len' =>
      match tdb_xid_from_key k with
      | None => let r := recover_walk names rest len in (S r.1, r.2)
      | Some x =>
          let r := recover_walk names rest len' in
          (S r.1, (x, default [] (names !! k)) :: r.2)
      end
  | _, _ => (O, [])
  end.

Definition advance (n : nat) (c : cn) : cn :=
  let g := glob c in
  set_glob {| prepared_txns := prepared_txns g; recovery_xids := recovery_xids g; recovery_pos := recovery_pos g + n;
              recovery_loaded := recovery_loaded g; recovery_mod_tables := recovery_mod_tables g |} c.

Definition tidesdb_recover (len : nat) : M cn (list (XID * tdb_table_names_t)) :=
  if Nat.eqb len 0 then ret []
  else
    tdb_load_recovered_prepared;;
    g <-- gets glob;
    let r := recover_walk (recovery_mod_tables g) (drop (recovery_pos g) (recovery_xids g)) len in
    modify (advance r.1);; ret r.2.

(** The server's loop at start: it asks for batches until one comes back short. *)
Fixpoint drain (fuel len : nat) : M cn (list (XID * tdb_table_names_t)) :=
  match fuel with
  | O => ret []
  | S fuel =>
      got <-- tidesdb_recover len;
      if Nat.ltb (length got) len then ret got
      else more <-- drain fuel len; ret (got ++ more)
  end.

End code.
End Xa.
