(* ===== verification/TxnUndo.v ===== *)
(** * Row operations can be undone

    Whatever a row operation does, the savepoint armed at the start of its statement still remembers the
    write set of the transaction at that moment, as long as a bulk statement stays below the size of a batch.
    [undoable] is that invariant of the handler; every operation of [Dml] keeps it, also where it fails, and
    [undoing w] says by how much an operation may raise the count of the batch.  The proofs are by the shape of
    the code: the tactic [undo] walks it and the database [undo] has the pieces already done. *)
From S2P Require Import Prelude Effects TidesDb RowDb TxnDb RowFormat FtsText Table KeyCodec Dml Txn.
Import Table KeyCodec Dml Txn.
#[local] Open Scope Z_scope.
#[local] Open Scope tdb_scope.

(** The services of the row operations leave savepoints alone. *)
Class ServicesUndo (E txn : Type) `{!TidesDb E txn, !RowDb E txn, !SavepointDb E txn, !RowServices E txn} := {
  serialize_saves r t : keeps (fun e => savepoints e t) (serialize_row r);
  fk_child_saves t' r t : keeps (fun e => savepoints e t) (fk_check_child t' r);
  fk_delete_saves t' r t : keeps (fun e => savepoints e t) (fk_enforce_parent_delete t' r);
  fk_update_saves t' r r' t : keeps (fun e => savepoints e t) (fk_enforce_parent_update t' r r');
  open_saves t : keeps (fun e => savepoints e t) open_stmt_txn;
  auto_increment_saves r t : keeps (fun e => savepoints e t) (update_auto_increment r) }.

Module TxnUndo.

Create HintDb undo.

(** The operations a bulk statement has counted are at most [n]; a bulk INSERT runs only if [ins] and a bulk
    DELETE only if [del]. *)
Definition flags (ins del : bool) (b : bulk) : Prop :=
  in_bulk_update_ b = false /\ (in_bulk_insert_ b = true -> ins = true) /\ (in_bulk_delete_ b = true -> del = true).

Section Undo.
Context {E txn : Type} `{!TidesDb E txn, !RowDb E txn, !SavepointDb E txn, !RowServices E txn, !ServicesUndo E txn}.
Context (ins del : bool) (t0 : txn) (ws0 : list write) (fts0 : list fts_meta_delta_t) (d0 : bool).

#[local] Abbreviation hdl := (handler E txn).
#[local] Abbreviation trx_t := (tidesdb_trx_t txn).

(** The savepoint is armed and remembers the write set [ws0] and the statistics [fts0], [d0]. *)
Definition armed (e : E) (x : trx_t) : Prop :=
  trx_txn x = Some t0 /\ stmt_savepoint_active x = true /\
  stmt_fts_snapshot x = fts0 /\ stmt_fts_dirty_snapshot x = d0 /\
  exists older, find_save TIDESDB_STMT_SAVEPOINT (savepoints e t0) = Some (ws0, older).

Definition counted_to (n : Z) (b : bulk) : Prop := flags ins del b /\ 0 <= bulk_insert_ops_ b <= n.

Definition undoable (n : Z) (h : hdl) : Prop :=
  counted_to n (bulk_of h) /\ match cached_trx_ h with Some x => armed (lib h) x | None => False end.

(** Run while the batch has room for [w] more operations. *)
Definition undoing (w : Z) {A} (m : M hdl A) : Prop :=
  forall n, n + w < TIDESDB_BULK_INSERT_BATCH_OPS -> spec (undoable n) m (fun _ => undoable (n + w)) (fun _ => True).

Lemma undoable_mono n n' h : n <= n' -> undoable n h -> undoable n' h.
Proof. intros Hn [[Hf Hb] Hc]. split; [split; [done|lia]|done]. Qed.

Lemma undoing_ret {A} w (a : A) : 0 <= w -> undoing w (ret a).
Proof. intros Hw n Hn. apply spec_ret. intros h. apply undoable_mono. lia. Qed.
Lemma undoing_gets {A} w (f : hdl -> A) : 0 <= w -> undoing w (gets f).
Proof. intros Hw n Hn. apply spec_gets. intros h. apply undoable_mono. lia. Qed.
Lemma undoing_then {A B} v w (m : M hdl A) (k : A -> M hdl B) :
  0 <= w -> undoing v m -> (forall a, undoing w (k a)) -> undoing (v + w) (bind m k).
Proof.
  intros Hw Hm Hk n Hn. eapply spec_bind; [apply Hm; lia|]. intros a. rewrite Z.add_assoc. apply Hk. lia.
Qed.
Lemma undoing_bind {A B} w (m : M hdl A) (k : A -> M hdl B) :
  0 <= w -> undoing 0 m -> (forall a, undoing w (k a)) -> undoing w (bind m k).
Proof. apply (undoing_then 0). Qed.
Lemma undoing_bind_gets {A B} w (f : hdl -> A) (k : A -> M hdl B) :
  (forall h, flags ins del (bulk_of h) -> undoing w (k (f h))) -> undoing w (bind (gets f) k).
Proof. intros Hk n Hn h Hh. unfold bind, gets. apply (Hk h); [apply Hh|done|done]. Qed.
Lemma undoing_for_each {A R} w (l : list A) (body : A -> M hdl (option R)) :
  0 <= w -> (forall x, undoing 0 (body x)) -> undoing w (for_each l body).
Proof.
  intros Hw Hb n Hn.
  apply (spec_weaken _ (undoable n) _ _ (fun _ => undoable n) _ (fun _ => True)); [|done|by intros r h; apply undoable_mono; lia|done].
  apply (spec_for_each (undoable n)); [|done].
  intros x _. apply (spec_weaken _ (undoable n) _ _ (fun _ => undoable (n + 0)) _ (fun _ => True)); [apply Hb; lia|done| |done].
    rewrite Z.add_0_r. by intros [r|] s.
Qed.

(** A change of the handler that reaches neither the library nor the transaction object nor the batch. *)
Lemma undoing_modify w (f : hdl -> hdl) :
  0 <= w -> (forall h, lib (f h) = lib h) -> (forall h, cached_trx_ (f h) = cached_trx_ h) ->
  (forall h, bulk_of (f h) = bulk_of h) -> undoing w (modify f).
Proof.
  intros Hw Hl Hc Hb n Hn. apply spec_modify. intros h Hh. apply (undoable_mono n); [lia|]. unfold undoable in *.
  by rewrite Hl, Hc, Hb.
Qed.

(** A change of the bulk state that keeps the batch's count or starts it over. *)
Lemma undoing_map_bulk w (f : bulk -> bulk) :
  0 <= w -> (forall b, flags ins del b -> flags ins del (f b)) ->
  (forall b, bulk_insert_ops_ (f b) = bulk_insert_ops_ b \/ bulk_insert_ops_ (f b) = 0) -> undoing w (modify (map_bulk f)).
Proof.
  intros Hw Hf Ho n Hn. apply spec_modify. intros h [[Hg Hb] Hc]. split; [|done]. split; [by apply Hf|]. simpl.
  destruct (Ho (bulk_of h)) as [-> | ->]; lia.
Qed.

(** A change of the transaction object that leaves the savepoint's state. *)
Lemma undoing_map_trx w (f : trx_t -> trx_t) :
  0 <= w ->
  (forall x, trx_txn (f x) = trx_txn x /\ stmt_savepoint_active (f x) = stmt_savepoint_active x /\
     stmt_fts_snapshot (f x) = stmt_fts_snapshot x /\ stmt_fts_dirty_snapshot (f x) = stmt_fts_dirty_snapshot x) ->
  undoing w (modify (map_trx f)).
Proof.
  intros Hw Hf n Hn. apply spec_modify. intros h Hh. apply (undoable_mono n); [lia|]. unfold undoable, map_trx, armed in *.
  simpl. destruct (cached_trx_ h) as [x|]; [|done]. simpl. by destruct (Hf x) as (-> & -> & -> & ->).
Qed.

Lemma undoing_lib {A} w (m : M E A) : 0 <= w -> (forall t, keeps (fun e => savepoints e t) m) -> undoing w (on_lib m).
Proof.
  intros Hw Hm n Hn. apply spec_lift. intros h Hu e ->. pose proof (Hm t0 _ (lib h) eq_refl) as H.
  assert (undoable (n + w) h) as Hu' by (by apply (undoable_mono n); [lia|]). unfold undoable, armed in *.
  destruct (m (lib h)) as [e' [a|]]; [|done]. simpl. destruct (cached_trx_ h) as [x|]; [|done]. by rewrite H.
Qed.

Lemma keeps_if {A B} (f : E -> B) (b : bool) (m m' : M E A) : keeps f m -> keeps f m' -> keeps f (if b then m else m').
Proof. by destruct b. Qed.

Lemma meta_saves t m t' : keeps (fun e => savepoints e t') (fts_update_meta t m).
Proof.
  unfold fts_update_meta, fts_load_meta. apply keeps_bind.
  - apply keeps_bind; [apply get_keeps_saves|]. intros r. apply keeps_ret.
  - intros [rrc [docs words]]. case_match; [apply keeps_ret|apply put_keeps_saves].
Qed.

Lemma count_saves t c lo hi t' : keeps (fun e => savepoints e t') (count_live_data_keys t c lo hi).
Proof. unfold count_live_data_keys. apply keeps_bind; [apply range_keeps_saves|]. intros r. apply keeps_ret. Qed.

End Undo.

#[export] Hint Resolve keeps_if meta_saves count_saves serialize_saves fk_child_saves fk_delete_saves
  fk_update_saves open_saves auto_increment_saves
  get_keeps_saves put_keeps_saves delete_keeps_saves single_delete_keeps_saves delete_range_keeps_saves
  contains_keeps_saves seek_keeps_saves range_keeps_saves : undo.

#[export] Hint Resolve Z.le_refl : undo.

(** One step along the code, or the end of it. *)
Ltac undo_step :=
  lazymatch goal with
  | |- forall _, _ => intros
  | |- 0 <= _ => assumption || lia
  | |- undoing _ _ _ _ _ _ _ (ret _) => apply undoing_ret
  | |- undoing _ _ _ _ _ _ _ (gets _) => apply undoing_gets
  | |- undoing _ _ _ _ _ _ _ (bind (gets _) _) => apply undoing_bind_gets
  | |- undoing _ _ _ _ _ _ _ (bind _ _) => apply undoing_bind
  | |- undoing _ _ _ _ _ _ _ (on_lib _) => apply undoing_lib; [|intros]
  | |- undoing _ _ _ _ _ _ _ (for_each _ _) => apply undoing_for_each
  | |- undoing _ _ _ _ _ _ _ (modify (map_trx _)) => apply undoing_map_trx; [|done]
  | |- undoing _ _ _ _ _ _ _ (modify (map_bulk _)) => apply undoing_map_bulk; [|by intros ? (? & ? & ?)|by left]
  | |- undoing _ _ _ _ _ _ _ (modify _) => apply undoing_modify; [|done..]
  | |- undoing _ _ _ _ _ _ _ (match ?x with _ => _ end) => destruct x eqn:?
  | |- undoing _ _ _ _ _ _ _ (let '(_, _) := ?x in _) => destruct x
  | |- keeps _ _ => solve [eauto with undo]
  end.
Ltac undo := repeat (first [solve [eauto with undo nocore] | undo_step]).

Section Rows.
Context {E txn : Type} `{!TidesDb E txn, !RowDb E txn, !SavepointDb E txn, !RowServices E txn, !ServicesUndo E txn}.
Context {SF : ServerField} {CS : FtsText.charset} (sh : share) (ses : session) (junk : memory).
Context (ins del : bool) (t0 : txn) (ws0 : list write) (fts0 : list fts_meta_delta_t) (d0 : bool).

#[local] Abbreviation undoes w m := (undoing ins del t0 ws0 fts0 d0 w m).

(** Below the size of a batch the threshold is not reached. *)
Lemma bulk_flush_undoes v w : 0 <= v <= w -> undoes w (bulk_flush_if_threshold (E := E) (txn := txn) v).
Proof.
  intros Hv n Hn h [[Hf Hb] Hc]. unfold bulk_flush_if_threshold, bind, modify, gets, map_bulk. simpl.
  unfold TIDESDB_BULK_INSERT_BATCH_OPS in *. unfold u64. rewrite Z.mod_small by lia.
  destruct (Z.leb_spec 500 (bulk_insert_ops_ (bulk_of h) + v)); [lia|]. split; [|done]. split; [done|]. simpl. lia.
Qed.

Lemma mark_dirty_undoes w : 0 <= w -> undoes w (mark_dirty (E := E) (txn := txn) sh).
Proof. unfold mark_dirty, note_modified_table. undo. Qed.
#[local] Hint Resolve mark_dirty_undoes : undo.

Lemma ensure_undoes w : 0 <= w -> undoes w (Dml.ensure_stmt_txn (E := E) (txn := txn)).
Proof. unfold Dml.ensure_stmt_txn. undo. Qed.
Lemma probe_undoes w dk : 0 <= w -> undoes w (probe_pk_exists (E := E) (txn := txn) sh dk).
Proof. unfold probe_pk_exists. undo. Qed.
Lemma dup_undoes w i ref : 0 <= w -> undoes w (dup (E := E) (txn := txn) i ref).
Proof. unfold dup. undo. Qed.
#[local] Hint Resolve ensure_undoes probe_undoes dup_undoes : undo.

Lemma dup_on_index_undoes w i suffix : 0 <= w -> undoes w (dup_on_index (E := E) (txn := txn) sh i suffix).
Proof. unfold dup_on_index. undo. Qed.
Lemma find_duplicate_undoes w t c p : 0 <= w -> undoes w (find_duplicate (E := E) (txn := txn) t c p).
Proof. unfold find_duplicate. undo. Qed.
Lemma put_undoes w t c k v : 0 <= w -> undoes w (put (E := E) (txn := txn) t c k v).
Proof. unfold put. undo. Qed.
Lemma delete_cf_undoes w t c k b : 0 <= w -> undoes w (tdb_txn_delete_cf_blocking (E := E) (txn := txn) t c k b).
Proof. unfold tdb_txn_delete_cf_blocking. undo. Qed.
#[local] Hint Resolve dup_on_index_undoes find_duplicate_undoes put_undoes delete_cf_undoes : undo.

Lemma puts_undoes w t c kvs : 0 <= w -> undoes w (puts (E := E) (txn := txn) t c kvs).
Proof. unfold puts. undo. Qed.
Lemma unchecked_undoes w t c ks : 0 <= w -> undoes w (unchecked_deletes (E := E) (txn := txn) t c ks).
Proof. unfold unchecked_deletes. undo. Qed.
Lemma accumulate_undoes w i docs words : 0 <= w -> undoes w (trx_fts_meta_accumulate (E := E) (txn := txn) sh i docs words).
Proof. unfold trx_fts_meta_accumulate. undo. Qed.
#[local] Hint Resolve puts_undoes unchecked_undoes accumulate_undoes : undo.

(** ** The operations *)

Lemma nsec_nonneg : 0 <= num_secondary_indexes sh.
Proof. unfold num_secondary_indexes, zlen. lia. Qed.

(** The end of a row operation of a bulk statement, of which the flags say what kind it is. *)
Ltac by_flags :=
  match goal with
  | Hf : flags _ _ ?b, Hb : in_bulk_update_ ?b = true |- _ => exfalso; destruct Hf as (Hu & _ & _); congruence
  | Hf : flags _ _ ?b, Hb : in_bulk_insert_ ?b = true |- _ =>
      destruct Hf as (_ & Hi & _); apply bulk_flush_undoes; pose proof nsec_nonneg; split; [lia|auto]
  | Hf : flags _ _ ?b, Hb : in_bulk_delete_ ?b && _ = true |- _ =>
      destruct Hf as (_ & _ & Hd); apply andb_prop in Hb as [Hb _]; apply bulk_flush_undoes;
      pose proof nsec_nonneg; split; [lia|auto]
  end.

Lemma write_row_undoes w r in0 :
  0 <= w -> (ins = true -> 1 + num_secondary_indexes sh <= w) -> undoes w (write_row (E := E) (txn := txn) sh ses junk r in0).
Proof.
  intros Hw Hins.
  unfold write_row, write_row_auto_increment, write_build_pk, write_row_body, write_check_pk_unique,
    write_check_secondary_unique, write_maintain_indexes, write_fts_index. undo.
  by_flags.
Qed.

Lemma flush_buffered_undoes w t : 0 <= w -> undoes w (bulk_delete_flush_buffered (E := E) (txn := txn) sh ses t).
Proof. unfold bulk_delete_flush_buffered. undo. Qed.
#[local] Hint Resolve flush_buffered_undoes : undo.

Lemma delete_row_undoes w r :
  0 <= w -> (del = true -> 1 + num_secondary_indexes sh <= w) -> undoes w (delete_row (E := E) (txn := txn) sh ses junk r).
Proof.
  intros Hw Hdel. unfold delete_row, delete_maintain_indexes, delete_primary. undo. by_flags.
Qed.

Lemma end_bulk_delete_undoes w : 0 <= w -> undoes w (end_bulk_delete (E := E) (txn := txn) sh ses).
Proof. intros Hw. unfold end_bulk_delete, try_range_tombstone. undo. Qed.

(** No statement is a bulk UPDATE: the handler declines the server's batched path. *)
Lemma update_row_undoes w old new : 0 <= w -> undoes w (update_row (E := E) (txn := txn) sh ses junk old new).
Proof.
  intros Hw. unfold update_row, update_row_body, update_check_unique, update_maintain_indexes, update_rewrite_primary,
    update_fts_index, update_fts_index_diff, update_spatial_index, update_regular_index. undo. by_flags.
Qed.

End Rows.
End TxnUndo.
