(* ===== verification/TxnSpec.v ===== *)
(** * What the transaction layer promises

    Statement rollback, commit and rollback of a connection's transaction ([Txn]) over the library's laws.
    [on_conn] lifts a triple of the library to the connection; [trx_is] is the shape of a connection whose
    transaction object is [x]. *)
From S2P Require Import Prelude Effects TidesDb RowDb TxnDb RowFormat FtsText Table KeyCodec Dml Txn TxnUndo.
Import Table KeyCodec Dml Txn TxnUndo.
#[local] Open Scope Z_scope.
#[local] Open Scope tdb_scope.

Module TxnSpec.

Section Spec.
Context {E txn : Type} `{!TidesDb E txn, !RowDb E txn, !SavepointDb E txn, !FamilyDb E txn, !XaDb E txn}.
Context (share_isolation : option tidesdb_isolation_level_t).

#[local] Abbreviation hdl := (handler E txn).
#[local] Abbreviation trx_t := (tidesdb_trx_t txn).
#[local] Abbreviation cn := (conn E txn).

Definition db (c : cn) : E := lib (hd c).

(** The connection has the transaction object [x] and the library is in a state of [P]. *)
Definition trx_is (x : trx_t) (P : E -> Prop) (c : cn) : Prop := ha_data c = Some x /\ P (db c).

Lemma conn_db_spec {A} x P (m : M E A) (Q : A -> E -> Prop) C :
  spec P m Q C -> spec (trx_is x P) (on_db m) (fun a => trx_is x (Q a)) (fun c => C (db c)).
Proof.
  intros H. apply spec_lift. intros c [Hx HP] e ->. specialize (H _ HP). unfold db in *.
  by destruct (m (lib (hd c))) as [e' [a|]].
Qed.

Lemma upd_spec x P (f : trx_t -> trx_t) C : spec (trx_is x P) (upd f) (fun _ => trx_is (f x) P) C.
Proof. apply spec_modify. intros c [Hx HP]. unfold trx_is. simpl. by rewrite Hx. Qed.

Lemma conn_gets_spec {A} x P (f : cn -> A) a C :
  (forall c, ha_data c = Some x -> f c = a) -> spec (trx_is x P) (gets f) (fun b c => b = a /\ trx_is x P c) C.
Proof. intros Hf. apply spec_gets. intros c Hc. split; [|done]. apply Hf, Hc. Qed.

(** Reading a field of the transaction object. *)
Lemma bind_gets {A B} x P (f : cn -> A) (k : A -> M cn B) a Q C :
  (forall c, ha_data c = Some x -> f c = a) -> spec (trx_is x P) (k a) Q C -> spec (trx_is x P) (bind (gets f) k) Q C.
Proof. intros Hf Hk c Hc. unfold bind, gets. rewrite (Hf c (proj1 Hc)). by apply Hk. Qed.

(** A change of the connection that reaches neither. *)
Lemma modify_other x P (f : cn -> cn) C :
  (forall c, ha_data (f c) = ha_data c) -> (forall c, db (f c) = db c) -> spec (trx_is x P) (modify f) (fun _ => trx_is x P) C.
Proof. intros H1 H2. apply spec_modify. intros c. unfold trx_is. by rewrite H1, H2. Qed.

Lemma on_db_cached {A} (m : M E A) : keeps (cached (E := E) (txn := txn)) (on_db m).
Proof. intros b c <-. unfold on_db, lift. by destruct (m _) as [e [a|]]. Qed.

Lemma arm_keeps_cached t : keeps cached (stmt_savepoint_arm t).
Proof.
  apply keeps_bind; [apply on_db_cached|]. intros _. apply keeps_bind; [apply on_db_cached|]. intros rc.
  destruct (tdb_ok rc); [|apply keeps_ret]. intros b. by apply spec_modify.
Qed.

(** Locking the table leaves the bulk state of the handler alone. *)
Lemma on_db_bulk {A} (m : M E A) : keeps (fun c : cn => bulk_of (hd c)) (on_db m).
Proof. intros b c <-. unfold on_db, lift. by destruct (m _) as [e [a|]]. Qed.
Lemma modify_bulk (f : cn -> cn) :
  (forall c, bulk_of (hd (f c)) = bulk_of (hd c)) -> keeps (fun c : cn => bulk_of (hd c)) (modify f).
Proof. intros Hf b. apply spec_modify. intros c <-. apply Hf. Qed.
Lemma gets_bulk {A} (f : cn -> A) : keeps (fun c : cn => bulk_of (hd c)) (gets f).
Proof. intros b. by apply spec_gets. Qed.

Ltac walk_bulk := repeat lazymatch goal with
  | |- forall _, _ => intros
  | |- keeps _ (bind _ _) => apply keeps_bind
  | |- keeps _ (ret _) => apply keeps_ret
  | |- keeps _ (gets _) => apply gets_bulk
  | |- keeps _ (on_db _) => apply on_db_bulk
  | |- keeps _ (match ?x with _ => _ end) => destruct x
  | |- keeps _ _ => by apply modify_bulk
  end.

Lemma acquire_keeps_bulk thd : keeps (fun c : cn => bulk_of (hd c)) (external_lock_acquire share_isolation thd).
Proof. unfold external_lock_acquire, get_or_create_trx, stmt_savepoint_arm, upd, trans_register_ha. walk_bulk. Qed.

(** ** Statements *)

Section Statement.
Context `{!RowServices E txn, !ServicesUndo E txn} {SF : ServerField} {CS : FtsText.charset}.
Context (sh : share) (ses : session) (junk : memory).

(** What the server asks of the handler while a statement runs. *)
Inductive row_op :=
  | Op_write (r : record) (in_record0 : bool)
  | Op_update (old_data new_data : record)
  | Op_delete (r : record)
  | Op_start_bulk_insert
  | Op_end_bulk_insert
  | Op_start_bulk_delete
  | Op_end_bulk_delete
  | Op_end_bulk_update.

Definition run_op (o : row_op) : M hdl ha_code :=
  match o with
  | Op_write r b => write_row sh ses junk r b
  | Op_update old new => update_row sh ses junk old new
  | Op_delete r => delete_row sh ses junk r
  | Op_start_bulk_insert => (modify (map_bulk start_bulk_insert);; ret HA_OK)%eff
  | Op_end_bulk_insert => (modify (map_bulk end_bulk_insert);; ret HA_OK)%eff
  | Op_start_bulk_delete => (modify (map_bulk (start_bulk_delete sh));; ret HA_OK)%eff
  | Op_end_bulk_delete => end_bulk_delete sh ses
  | Op_end_bulk_update => (modify (map_bulk end_bulk_update);; ret HA_OK)%eff
  end.

Fixpoint run_ops (l : list row_op) : M hdl unit :=
  match l with
  | [] => ret tt
  | o :: l => (run_op o;; run_ops l)%eff
  end.

(** The library operations a statement counts towards a batch: only the rows of a bulk INSERT and of a bulk
    DELETE are counted. *)
Definition starts_insert (o : row_op) : bool := match o with Op_start_bulk_insert => true | _ => false end.
Definition starts_delete (o : row_op) : bool := match o with Op_start_bulk_delete => true | _ => false end.

Definition op_weight (ins del : bool) (o : row_op) : Z :=
  match o with
  | Op_write _ _ => if ins then 1 + num_secondary_indexes sh else 0
  | Op_delete _ => if del then 1 + num_secondary_indexes sh else 0
  | _ => 0
  end.

Definition weight (ins del : bool) (l : list row_op) : Z := foldr (fun o n => op_weight ins del o + n) 0 l.

Definition batch_ops (b : bulk) (l : list row_op) : Z :=
  bulk_insert_ops_ b +
  weight (in_bulk_insert_ b || existsb starts_insert l) (in_bulk_delete_ b || existsb starts_delete l) l.

(** A statement that does not reach the end of a batch. *)
Definition one_batch (l : list row_op) (b : bulk) : Prop :=
  in_bulk_update_ b = false /\ 0 <= bulk_insert_ops_ b /\ batch_ops b l < TIDESDB_BULK_INSERT_BATCH_OPS.

Lemma op_weight_nonneg ins del o : 0 <= op_weight ins del o.
Proof. pose proof (nsec_nonneg sh). destruct o, ins, del; simpl; lia. Qed.
Lemma weight_nonneg ins del l : 0 <= weight ins del l.
Proof. induction l as [|o l IH]; simpl; [done|]. pose proof (op_weight_nonneg ins del o). unfold weight in *. lia. Qed.

Lemma hook_undoes ins del t0 ws0 fts0 d0 f :
  (forall b, flags ins del b -> flags ins del (f b)) ->
  (forall b, bulk_insert_ops_ (f b) = bulk_insert_ops_ b \/ bulk_insert_ops_ (f b) = 0) ->
  undoing ins del t0 ws0 fts0 d0 0 (modify (map_bulk f);; ret HA_OK)%eff.
Proof.
  intros Hf Ho. apply undoing_bind; [done|by apply undoing_map_bulk|]. intros _. by apply undoing_ret.
Qed.

Lemma run_op_undoes ins del t0 ws0 fts0 d0 o :
  (starts_insert o = true -> ins = true) -> (starts_delete o = true -> del = true) ->
  undoing ins del t0 ws0 fts0 d0 (op_weight ins del o) (run_op o).
Proof.
  intros Hi Hd. pose proof (op_weight_nonneg ins del o) as Hw. destruct o; simpl in *.
  - apply write_row_undoes; [done|]. by intros ->.
  - by apply update_row_undoes.
  - apply delete_row_undoes; [done|]. by intros ->.
  - apply hook_undoes; [|by right]. intros b (? & ? & ?). split_and!; auto.
  - apply hook_undoes; [|by left]. by intros b (? & ? & ?).
  - apply hook_undoes; [|by right]. intros b (? & ? & ?). split_and!; auto.
  - by apply end_bulk_delete_undoes.
  - apply hook_undoes; [|by left]. by intros b (? & ? & ?).
Qed.

Lemma run_ops_undoes ins del t0 ws0 fts0 d0 l :
  (existsb starts_insert l = true -> ins = true) -> (existsb starts_delete l = true -> del = true) ->
  undoing ins del t0 ws0 fts0 d0 (weight ins del l) (run_ops l).
Proof.
  induction l as [|o l IH]; simpl; intros Hi Hd; [by apply undoing_ret|].
  apply undoing_then; [apply weight_nonneg|apply run_op_undoes|intros _; apply IH]; intros H; [apply Hi|apply Hd|apply Hi|apply Hd];
    rewrite H; by rewrite ?orb_true_r.
Qed.

(** The connection in a statement with the bulk state [b], its savepoint remembering [ws0]. *)
Definition stmt_open t0 ws0 fts0 d0 b (c : cn) : Prop :=
  cached c = true /\ bulk_of (hd c) = b /\ match ha_data c with Some x => armed t0 ws0 fts0 d0 (db c) x | None => False end.

Lemma ops_undo t0 ws0 fts0 d0 l b :
  one_batch l b ->
  spec (stmt_open t0 ws0 fts0 d0 b) (on_handler (run_ops l))
    (fun _ c => exists x, ha_data c = Some x /\ armed t0 ws0 fts0 d0 (db c) x) (fun _ => True).
Proof.
  intros (Hu & H0 & Hn). apply spec_lift. intros c (Hc & Hb & Ha) h ->. rewrite Hc.
  pose proof (run_ops_undoes (in_bulk_insert_ b || existsb starts_insert l) (in_bulk_delete_ b || existsb starts_delete l) t0 ws0 fts0 d0 l
    (fun H => eq_trans (f_equal _ H) (orb_true_r _)) (fun H => eq_trans (f_equal _ H) (orb_true_r _)) _ Hn
    (set_trx (ha_data c) (hd c))) as Hm.
  destruct (run_ops l _) as [h' [a|]]; [|done]. simpl. unfold db. simpl. destruct Hm as [_ Hm].
  - split; [|done]. simpl. rewrite Hb. split; [|lia]. split; [done|]. by split; intros ->.
  - destruct (cached_trx_ h') as [x|]; [by exists x|done].
Qed.

(** The library does not refuse the statement's savepoint. *)
Definition takes_savepoint (t : txn) (e : E) : Prop :=
  forall e1 r1 e2 rc, txn_release_savepoint t TIDESDB_STMT_SAVEPOINT e = (e1, Ret r1) ->
    txn_savepoint t TIDESDB_STMT_SAVEPOINT e1 = (e2, Ret rc) -> rc = TDB_SUCCESS.

(** A connection about to run a statement: its transaction has the writes [ws]. *)
Definition stmt_ready x t ws : cn -> Prop := trx_is x (fun e => pending e t = ws /\ takes_savepoint t e).

(** Arming: the savepoint remembers the writes and the statistics of this moment. *)
Lemma arm_spec x t ws :
  trx_txn x = Some t ->
  spec (stmt_ready x t ws) (stmt_savepoint_arm t)
    (fun _ c => exists x', ha_data c = Some x' /\ armed t ws (fts_meta_pending x) (fts_meta_dirty x) (db c) x') (fun _ => True).
Proof.
  intros Ht. unfold stmt_savepoint_arm.
  eapply (spec_bind _ _ (fun _ => trx_is x (fun e => (forall e2 rc, txn_savepoint t TIDESDB_STMT_SAVEPOINT e = (e2, Ret rc) -> rc = TDB_SUCCESS) /\
    exists d sp, committed e = d /\ pending e t = ws /\ savepoints e t = sp))).
  { apply (conn_db_spec x _ _ _ (fun _ => True)).
    intros e [Hw Htk]. pose proof (txn_release_savepoint_law _ _ _ t TIDESDB_STMT_SAVEPOINT e (conj eq_refl (conj Hw eq_refl))) as H.
    destruct (txn_release_savepoint _ _ e) as [e' [rc|]] eqn:He; [|done]. destruct H as (? & ? & _). split; [|by do 2 eexists].
    intros e2 rc2. by apply (Htk e' rc). }
  intros _. eapply (spec_bind _ _ (fun rc => trx_is x (fun e =>
    rc = TDB_SUCCESS /\ exists older, find_save TIDESDB_STMT_SAVEPOINT (savepoints e t) = Some (ws, older)))).
  { apply (conn_db_spec x _ _ _ (fun _ => True)).
    intros e (Htk & d & sp & He). pose proof (txn_savepoint_law d ws sp t TIDESDB_STMT_SAVEPOINT e He) as H.
    destruct (txn_savepoint _ _ e) as [e' [rc|]] eqn:Hs; [|done]. pose proof (Htk _ _ eq_refl) as ->. destruct H as (_ & _ & Hsp).
    split; [done|]. exists sp. by rewrite Hsp. }
  intros rc. eapply (spec_pure _ (rc = TDB_SUCCESS)); [by intros c [_ [? _]]|]. intros ->. simpl.
  apply spec_modify. intros c (Hx & _ & older & Ho). eexists. simpl. rewrite Hx. split; [done|].
  split_and!; [done..|by exists older].
Qed.

Lemma acquire_spec thd x t ws :
  multi thd = true -> is_ddl (sql_command thd) = false ->
  trx_txn x = Some t -> needs_reset x = false -> stmt_savepoint_active x = false ->
  spec (stmt_ready x t ws) (external_lock_acquire share_isolation thd)
    (fun code c => cached c = true /\ exists x', ha_data c = Some x' /\ armed t ws (fts_meta_pending x) (fts_meta_dirty x) (db c) x')
    (fun _ => True).
Proof.
  intros Hm Hd Ht Hn Ha. unfold external_lock_acquire, get_or_create_trx. rewrite Hm. simpl negb.
  eapply spec_bind; [by apply modify_other|]. intros [].
  eapply (spec_bind _ _ (fun ok c => ok = true /\ stmt_ready x t ws c)).
  { apply (bind_gets x _ _ _ (Some x)); [done|]. rewrite Ht, Hn. apply spec_ret. by intros c Hc. }
  intros ok. eapply (spec_pure _ (ok = true)); [by intros c [? _]|]. intros ->. simpl.
  apply (spec_pre _ (stmt_ready x t ws)); [|by intros c [_ ?]].
  eapply spec_bind; [by apply modify_other|]. intros [].
  eapply (spec_bind _ _ (fun _ c => stmt_ready x t ws c /\ cached c = true)); [by apply spec_modify|].
  intros _. eapply (spec_bind _ _ (fun _ c => stmt_ready x t ws c /\ cached c = true)); [by apply spec_modify|].
  intros _. eapply (spec_bind _ _ (fun _ c => stmt_ready x t ws c /\ cached c = true)); [by apply spec_modify|].
  intros _. apply spec_at. intros c0 [Hc0 Hk].
  apply (spec_bind _ _ (fun a c => a = Some t /\ c = c0)); [apply spec_gets; intros c ->; by unfold conn_txn; rewrite (proj1 Hc0)|].
  intros a. apply (spec_pure _ (a = Some t)); [by intros c [? _]|]. intros ->.
  apply (spec_bind _ _ (fun a c => a = false /\ c = c0)); [apply spec_gets; intros c [_ ->]; by rewrite (proj1 Hc0)|].
  intros a. apply (spec_pure _ (a = false)); [by intros c [? _]|]. intros ->. rewrite Hd. simpl.
  eapply spec_bind; [eapply spec_weaken; [apply (spec_conj _ _ _ _ _ _ _ (arm_spec x t ws Ht) (arm_keeps_cached t true))|
    by intros c [_ ->]|intros u c Hu; exact Hu|done]|].
  intros []. apply spec_ret. by intros c [? ?].
Qed.

(** The statement's savepoint is there; and when the library takes the transaction back to it, the callback of
    the statement-level rollback leaves the transaction open, with the writes and the statistics it had before
    the statement, the same durable contents, and the savepoint disarmed. *)
Definition rolls_back (thd : THD) (x : trx_t) (t : txn) (ws : list write) (c : cn) : Prop :=
  exists x', ha_data c = Some x' /\ trx_txn x' = Some t /\
    (exists older, find_save TIDESDB_STMT_SAVEPOINT (savepoints (db c) t) = Some (ws, older)) /\
    forall e, txn_rollback_to_savepoint t TIDESDB_STMT_SAVEPOINT (db c) = (e, Ret TDB_SUCCESS) ->
      exists c' x'', tidesdb_rollback thd false c = (c', Ret R_OK) /\ pending (db c') t = ws /\
        committed (db c') = committed (db c) /\ ha_data c' = Some x'' /\ trx_txn x'' = Some t /\
        fts_meta_pending x'' = fts_meta_pending x /\ fts_meta_dirty x'' = fts_meta_dirty x /\
        dirty x'' = dirty x' /\ stmt_savepoint_active x'' = false /\
        txn_generation x'' = u64 (txn_generation x' + 1).

Lemma open_rolls_back thd x t ws c x' :
  multi thd = true -> ha_data c = Some x' -> armed t ws (fts_meta_pending x) (fts_meta_dirty x) (db c) x' ->
  rolls_back thd x t ws c.
Proof.
  intros Hm Hx (Ht & Hs & Hf & Hd & older & Ho). exists x'. split_and!; [done..|by exists older|]. intros e He.
  pose proof (txn_rollback_to_savepoint_law _ _ _ t TIDESDB_STMT_SAVEPOINT (db c) (conj eq_refl (conj eq_refl eq_refl))) as H.
  rewrite He in H. destruct H as (Hc & ws0 & older' & Hfind & Hp & _). rewrite Ho in Hfind. injection Hfind as <- <-.
  unfold tidesdb_rollback, stmt_savepoint_rollback, bind, gets, conn_txn. rewrite Hx. simpl. rewrite Ht, Hm. simpl.
  rewrite Hx. simpl. rewrite Hs. simpl. unfold on_db, lift. unfold db in He. rewrite He. simpl. rewrite Hx. simpl.
  eexists _, _. split; [reflexivity|]. unfold db. simpl. by rewrite Hf, Hd.
Qed.

(** C3: a statement of an open multi-statement transaction that is not DDL is atomic.  When the library takes the savepoint at the
    start of the statement, and the rows of a bulk INSERT or DELETE stay below the size of a batch (after which
    the engine commits what the statement did so far), then whatever row operations the statement ran and however
    they failed, its savepoint is still there and armed, and the statement-level rollback takes the transaction
    back to the writes and the full-text statistics it had when the statement began. *)
Theorem statement_rolls_back thd x t ws l :
  multi thd = true -> is_ddl (sql_command thd) = false ->
  trx_txn x = Some t -> needs_reset x = false -> stmt_savepoint_active x = false ->
  spec (fun c => stmt_ready x t ws c /\ one_batch l (bulk_of (hd c)))
    (external_lock_acquire share_isolation thd;; on_handler (run_ops l))%eff
    (fun _ => rolls_back thd x t ws) (fun _ => True).
Proof.
  intros Hm Hd Ht Hn Ha. apply spec_at. intros c0 [Hr Hb]. eapply spec_bind.
  { eapply spec_weaken; [apply (spec_conj _ _ _ _ _ _ _ (acquire_spec thd x t ws Hm Hd Ht Hn Ha) (acquire_keeps_bulk thd (bulk_of (hd c0))))|
      by intros c ->|intros u c Hu; exact Hu|done]. }
  intros code. eapply spec_weaken; [apply (ops_undo t ws (fts_meta_pending x) (fts_meta_dirty x) l _ Hb)| | |done].
  - intros c [[Hc (x' & Hx & Harm)] Hk]. split_and!; [done..|]. by rewrite Hx.
  - intros u c (x' & Hx & Harm). by eapply open_rolls_back.
Qed.

End Statement.

(** ** The end of a transaction *)

(** The durable contents [d], the transaction's writes [ws] over them, and the transactions in doubt. *)
Definition view t d ws D P (e : E) : Prop :=
  (committed e = d /\ pending e t = ws) /\ in_doubt e = D /\ prepared_as e = P.
Definition stays d D (e : E) : Prop := committed e = d /\ in_doubt e = D.

(** A call that leaves the transactions in doubt alone, beside what it does to the contents. *)
Lemma view_spec {A} t d ws D P (m : M E A) (Q : A -> E -> Prop) :
  keeps (fun e => (in_doubt e, prepared_as e)) m ->
  spec (fun e => committed e = d /\ pending e t = ws) m Q (fun e => committed e = d) ->
  spec (view t d ws D P) m (fun a e => Q a e /\ in_doubt e = D /\ prepared_as e = P) (stays d D).
Proof.
  intros Hk Hm. eapply spec_weaken; [apply (spec_keeps _ (D, P) _ _ _ _ Hk Hm)| | |].
  - intros e (He & <- & <-). done.
  - intros a e [Hq [= <- <-]]. done.
  - intros e [Hd [= <- _]]. done.
Qed.

(** The statistics a transaction folds into the contents [v] when it ends. *)
Definition fold_stat (m : fts_meta_delta_t) (v : store) : store :=
  let '(docs, words) := default (0, 0) (db_get (data_cf m) (fts_meta_key (keynr m)) v ≫= FtsText.decode_meta_value) in
  apply_write (W_put (data_cf m) (fts_meta_key (keynr m))
    (FtsText.encode_meta_value (Z.max 0 (docs + doc_delta m)) (Z.max 0 (words + word_delta m)))) v.
Definition fold_stats (l : list fts_meta_delta_t) (v : store) : store := fold_left (fun v m => fold_stat m v) l v.
Definition with_stats (x : trx_t) (v : store) : store :=
  if fts_meta_dirty x then fold_stats (fts_meta_pending x) v else v.

Lemma update_meta_spec t d ws D P m :
  spec (view t d ws D P) (fts_update_meta t m)
    (fun rc e => exists ws', view t d ws' D P e /\
       (rc = TDB_SUCCESS -> apply_writes ws' d = fold_stat m (apply_writes ws d))) (stays d D).
Proof.
  unfold fts_update_meta, fts_load_meta.
  apply (spec_bind _ _ (fun r e => view t d ws D P e /\
    (r.1 = TDB_SUCCESS \/ r.1 = TDB_ERR_NOT_FOUND ->
     r.2 = default (0, 0) (db_get (data_cf m) (fts_meta_key (keynr m)) (apply_writes ws d) ≫= FtsText.decode_meta_value)))).
  - eapply spec_bind; [apply view_spec; [apply get_keeps_doubt|apply txn_get_law]|]. intros r. apply spec_ret.
    intros e ([He Hr] & HD & HP). split; [done|]. destruct r as [rc|v]; simpl in *; [|by rewrite Hr].
    intros [->| ->]; [done|by rewrite Hr].
  - intros [rrc [docs words]]. simpl. destruct (negb (tdb_ok rrc) && negb (bool_decide (rrc = TDB_ERR_NOT_FOUND))) eqn:Ec.
    + apply spec_ret. intros e [He _]. exists ws. split; [done|]. intros ->. done.
    + apply (spec_pure _ ((docs, words) = default (0, 0) (db_get (data_cf m) (fts_meta_key (keynr m)) (apply_writes ws d) ≫= FtsText.decode_meta_value))).
      { intros e [_ Hr]. apply Hr. unfold tdb_ok in Ec. repeat case_bool_decide; auto; done. }
      intros Hr. eapply spec_weaken; [apply view_spec; [apply put_keeps_doubt|apply txn_put_law]|by intros e [? _]| |done].
      intros rc e ([Hd Hw] & HD & HP). eexists. split; [done|]. intros ->. rewrite apply_writes_app.
      unfold fold_stat. by rewrite <- Hr.
Qed.

Lemma flush_loop_spec x t d ws D P l :
  spec (fun h : hdl => cached_trx_ h = Some x /\ view t d ws D P (lib h))
    (for_each l (fun m => rc <-- on_lib (fts_update_meta t m); ret (if tdb_ok rc then None else Some rc))%eff)
    (fun r h => cached_trx_ h = Some x /\ exists ws', view t d ws' D P (lib h) /\
       (default TDB_SUCCESS r = TDB_SUCCESS -> apply_writes ws' d = fold_stats l (apply_writes ws d)))
    (fun h => stays d D (lib h)).
Proof.
  set (I pre h := cached_trx_ h = Some x /\ exists ws', view t d ws' D P (lib h) /\
    apply_writes ws' d = fold_stats pre (apply_writes ws d)).
  apply (spec_pre _ (I [])); [apply (spec_for_each_pre I)|].
  - intros pre m _. apply spec_at. intros h0 (Hx0 & ws1 & Hv0 & Hw1).
    eapply (spec_bind _ _ (fun rc h => cached_trx_ h = Some x /\ exists ws', view t d ws' D P (lib h) /\
       (rc = TDB_SUCCESS -> apply_writes ws' d = fold_stat m (apply_writes ws1 d)))).
    + apply spec_lift. intros h -> e ->. pose proof (update_meta_spec t d ws1 D P m _ Hv0) as H.
      destruct (fts_update_meta t m (lib h0)) as [e' [rc|]]; done.
    + intros rc. apply spec_ret. intros h (Hx & ws' & Hv & Hw). unfold tdb_ok. case_bool_decide as Hrc.
      * split; [done|]. exists ws'. split; [done|]. rewrite (Hw Hrc), Hw1. unfold fold_stats. by rewrite fold_left_app.
      * split; [done|]. exists ws'. split; [done|]. intros Hs. by destruct Hrc.
  - intros h (Hx & ws' & Hv & Hw). split; [done|]. by exists ws'.
  - intros h [Hx Hv]. split; [done|]. by exists ws.
Qed.

(** The fold over the connection's transaction object. *)
Lemma flush_spec x t d ws D P :
  trx_txn x = Some t ->
  spec (trx_is x (view t d ws D P)) (with_trx flush_trx_fts_meta_pending)
    (fun rc => trx_is (set_meta [] false x) (fun e => exists ws', view t d ws' D P e /\
       (rc = TDB_SUCCESS -> apply_writes ws' d = with_stats x (apply_writes ws d)))) (fun c => stays d D (db c)).
Proof.
  intros Ht. set (L h := cached_trx_ h = Some x /\ view t d ws D P (lib h)).
  set (R (rc : tdb_rc) h := cached_trx_ h = Some (set_meta [] false x) /\ exists ws', view t d ws' D P (lib h) /\
       (rc = TDB_SUCCESS -> apply_writes ws' d = with_stats x (apply_writes ws d))).
  enough (spec L flush_trx_fts_meta_pending R (fun h => stays d D (lib h))) as H.
  { apply spec_lift. intros c [Hx Hv] h ->. specialize (H (set_trx (ha_data c) (hd c)) (conj Hx Hv)).
    destruct (flush_trx_fts_meta_pending _) as [h' [rc|]]; [|done]. done. }
  assert (spec L (clear_meta;; ret TDB_SUCCESS)%eff (fun rc h => cached_trx_ h = Some (set_meta [] false x) /\ view t d ws D P (lib h))
    (fun h => stays d D (lib h))) as Hclear.
  { eapply (spec_bind _ _ (fun _ h => cached_trx_ h = Some (set_meta [] false x) /\ view t d ws D P (lib h))).
    - apply spec_modify. intros h [Hx Hv]. unfold map_trx. simpl. by rewrite Hx.
    - intros []. by apply spec_ret. }
  unfold flush_trx_fts_meta_pending. apply spec_bind_gets. intros trx.
  apply (spec_pure _ (trx = Some x)); [by intros h [[? _] <-]|]. intros ->. rewrite Ht.
  apply (spec_pre _ L); [|by intros h [? _]]. unfold R, with_stats.
  destruct (fts_meta_pending x) as [|m0 pend] eqn:Ep; [|destruct (fts_meta_dirty x)].
  1, 3: eapply spec_weaken; [exact Hclear|done| |done]; intros rc h [Hx Hv]; (split; [done|]); exists ws; split; [done|]; by destruct (fts_meta_dirty x).
  eapply spec_bind; [apply (flush_loop_spec x t d ws D P (m0 :: pend))|]. intros r.
  eapply (spec_bind _ _ (fun _ h => cached_trx_ h = Some (set_meta [] false x) /\ exists ws', view t d ws' D P (lib h) /\
    (default TDB_SUCCESS r = TDB_SUCCESS -> apply_writes ws' d = fold_stats (m0 :: pend) (apply_writes ws d)))).
  - apply spec_modify. intros h [Hx Hv]. unfold map_trx. simpl. rewrite Hx. by split.
  - intros []. apply spec_ret. by intros h Hh.
Qed.

Lemma release_spec t d ws D P nm :
  spec (view t d ws D P) (txn_release_savepoint t nm) (fun _ => view t d ws D P) (stays d D).
Proof.
  eapply spec_weaken; [apply (view_spec t d ws D P _ (fun _ e => committed e = d /\ pending e t = ws))|done|by intros a e [? ?]|done].
  - apply release_keeps_doubt.
  - intros e [Hd Hw]. pose proof (txn_release_savepoint_law d ws _ t nm e (conj Hd (conj Hw eq_refl))) as H.
    destruct (txn_release_savepoint t nm e) as [e' [rc|]]; [by destruct H as (? & ? & _)|done].
Qed.

Definition disarmed (x : trx_t) : trx_t := if stmt_savepoint_active x then clear_snapshot (set_active false x) else x.

Lemma disarm_spec x t d ws D P :
  spec (trx_is x (view t d ws D P)) (stmt_savepoint_disarm t) (fun _ => trx_is (disarmed x) (view t d ws D P))
    (fun c => stays d D (db c)).
Proof.
  unfold stmt_savepoint_disarm, disarmed. apply (bind_gets x _ _ _ (stmt_savepoint_active x)); [by intros c ->|].
  destruct (stmt_savepoint_active x); simpl; [|by apply spec_ret].
  eapply (spec_bind _ _ (fun _ => trx_is x (view t d ws D P))); [apply conn_db_spec, release_spec|].
  intros []; apply (upd_spec x _ (fun x => clear_snapshot (set_active false x))).
Qed.

Lemma drop_entry_spec x Pr C :
  prepared_xid x = [] -> spec (trx_is x Pr) tdb_drop_prepared_entry (fun _ => trx_is x Pr) C.
Proof.
  intros Hp. apply (bind_gets x _ _ _ (Some x)); [done|]. rewrite bool_decide_true by done. by apply spec_ret.
Qed.

(** Freeing and rolling back change no durable contents. *)
Lemma free_spec t d D :
  spec (stays d D) (txn_free t) (fun _ => stays d D) (stays d D).
Proof.
  apply spec_at. intros e0 [Hd HD].
  eapply spec_weaken; [apply (spec_conj _ _ _ _ _ _ _ (txn_free_law d t) (free_keeps_doubt D (prepared_as e0) t))|by intros e ->| |by intros e].
  by intros a e (? & ? & _).
Qed.

Lemma rollback_active_spec t d D P :
  P t = None ->
  spec (fun e => stays d D e /\ prepared_as e = P) (tdb_txn_rollback_stateful t)
    (fun _ e => stays d D e /\ prepared_as e = P) (stays d D).
Proof.
  intros HP. apply spec_at. intros e0 [[Hd HD] HP0]. eapply (spec_bind _ _ (fun st e => e = e0 /\ st = TDB_TXN_STATE_ACTIVE)).
  { eapply spec_weaken; [apply (txn_state_law t e0)|done| |by intros e ->]. intros st e [-> ->]. by rewrite HP0, HP. }
  intros st. apply (spec_pure _ (st = TDB_TXN_STATE_ACTIVE)); [by intros e [_ ?]|]. intros ->.
  eapply spec_weaken; [apply (spec_keeps _ (D, P) _ _ _ _ (rollback_keeps_doubt t) (txn_rollback_law d t))| | |].
  - intros e [-> _]. by rewrite HD, HP0.
  - by intros a e [? [= <- <-]].
  - by intros e [? [= <- _]].
Qed.

(** The commit of a transaction that is not prepared. *)
Lemma commit_active_spec t d ws D P :
  P t = None ->
  spec (view t d ws D P) (tdb_txn_commit_stateful t)
    (fun rc e => (in_doubt e = D /\ prepared_as e = P) /\
       match rc with
       | TDB_SUCCESS => committed e = apply_writes ws d
       | TDB_ERR_CONFLICT => committed e = d
       | _ => committed e = d \/ committed e = apply_writes ws d
       end)
    (fun e => in_doubt e = D /\ (committed e = d \/ committed e = apply_writes ws d)).
Proof.
  intros HP. apply spec_at. intros e0 (He & HD & HP0). eapply (spec_bind _ _ (fun st e => e = e0 /\ st = TDB_TXN_STATE_ACTIVE)).
  { eapply spec_weaken; [apply (txn_state_law t e0)|done| |]; [|intros e ->; split; [done|left; apply He]].
    intros st e [-> ->]. by rewrite HP0, HP. }
  intros st. apply (spec_pure _ (st = TDB_TXN_STATE_ACTIVE)); [by intros e [_ ?]|]. intros ->.
  eapply spec_weaken; [apply (spec_keeps _ (D, P) _ _ _ _ (commit_keeps_doubt t) (txn_commit_law d ws t))| | |].
  - intros e [-> _]. by rewrite HD, HP0.
  - by intros a e [? [= <- <-]].
  - by intros e [? [= <- _]].
Qed.

(** How a commit ends: with the new contents, or with an error that leaves the old ones or, when the
    library lost its own answer, the new ones; a conflict leaves the old ones.  The transactions in doubt
    are not touched. *)
Definition commit_ends (d v : store) D (code : hton_rc) (c : cn) : Prop :=
  in_doubt (db c) = D /\
  match code with
  | R_OK => committed (db c) = v /\ exists x, ha_data c = Some x /\ is_Some (trx_txn x) /\ needs_reset x = true /\
      dirty x = false /\ fts_meta_pending x = [] /\ stmt_savepoint_active x = false
  | R_LIB rc => (committed (db c) = d \/ (rc <> TDB_ERR_CONFLICT /\ committed (db c) = v)) /\
      exists x, ha_data c = Some x /\ trx_txn x = None /\ dirty x = false /\ fts_meta_pending x = [] /\
        stmt_savepoint_active x = false
  | _ => False
  end.

Lemma tear_down_spec x t d d' v D P {A} (m : M E A) rc :
  fts_meta_pending x = [] -> rc <> TDB_SUCCESS -> (d' = d \/ (rc <> TDB_ERR_CONFLICT /\ d' = v)) ->
  spec (fun e => stays d' D e /\ prepared_as e = P) m (fun _ => stays d' D) (stays d' D) ->
  spec (trx_is x (fun e => stays d' D e /\ prepared_as e = P))
    (on_db m;; on_db (txn_free t);; upd torn_down;; ret (rc_to_ha rc))%eff
    (commit_ends d v D) (fun c => in_doubt (db c) = D /\ (committed (db c) = d \/ committed (db c) = v)).
Proof.
  intros Hx Hrc Hd' Hm. assert (forall c : cn, stays d' D (db c) -> in_doubt (db c) = D /\ (committed (db c) = d \/ committed (db c) = v)) as HC.
  { intros c [<- <-]. split; [done|]. destruct Hd' as [?|[_ ?]]; auto. }
  eapply spec_bind; [eapply spec_crash; [apply conn_db_spec, Hm|apply HC]|]. intros ?.
  eapply (spec_bind _ _ (fun _ => trx_is x (stays d' D))); [eapply spec_crash; [apply conn_db_spec, free_spec|apply HC]|]. intros ?.
  eapply spec_bind; [apply upd_spec|]. intros ?. apply spec_ret. intros c [Hc [Hd HD]]. split; [done|].
  destruct rc; [done|..]; (split; [rewrite Hd; destruct Hd' as [?|[? ?]]; auto|]); by eexists.
Qed.

(** From the fold of the statistics to the end of the commit. *)
Lemma commit_tail_spec x t d ws D P :
  trx_txn x = Some t -> fts_meta_pending x = [] -> P t = None ->
  spec (trx_is x (view t d ws D P))
    (rc <-- on_db (tdb_txn_commit_stateful t);
     if negb (tdb_ok rc) then
       on_db (tdb_txn_rollback_stateful t);; on_db (txn_free t);; upd torn_down;; ret (rc_to_ha rc)
     else
       upd (fun x => set_needs_reset true (bump x));; upd (fun x => set_active false (set_clean x));; ret R_OK)%eff
    (commit_ends d (apply_writes ws d) D)
    (fun c => in_doubt (db c) = D /\ (committed (db c) = d \/ committed (db c) = apply_writes ws d)).
Proof.
  intros Ht Hx HP. eapply spec_bind; [eapply spec_crash; [apply conn_db_spec; by apply commit_active_spec|done]|]. intros rc. unfold tdb_ok.
  case_bool_decide as Hrc; simpl.
  - subst rc. eapply spec_bind; [apply upd_spec|]. intros ?. eapply spec_bind; [apply upd_spec|]. intros ?.
    apply spec_ret. intros c [Hc [[HD _] Hd]]. split; [done|]. split; [done|]. eexists. split; [exact Hc|]. simpl. by rewrite Ht.
  - apply spec_at. intros c0 (Hx0 & [HD HP0] & Hd). set (d' := committed (db c0)).
    apply (spec_pre _ (trx_is x (fun e => stays d' D e /\ prepared_as e = P))); [|by intros c ->].
    apply tear_down_spec; [done|done| |].
    + unfold d'. destruct rc; [done|..]; auto; destruct Hd; auto.
    + eapply spec_weaken; [by apply (rollback_active_spec t d' D P)|done|by intros a e [? _]|done].
Qed.

Lemma read_only_tail_spec x t d ws D P :
  trx_txn x = Some t -> fts_meta_pending x = [] -> P t = None ->
  spec (trx_is x (view t d ws D P))
    (on_db (txn_rollback t);; upd (fun x => set_needs_reset true (bump x));;
     upd (fun x => set_active false (set_clean x));; ret R_OK)%eff
    (commit_ends d d D) (fun c => in_doubt (db c) = D /\ (committed (db c) = d \/ committed (db c) = d)).
Proof.
  intros Ht Hx HP. eapply (spec_bind _ _ (fun _ => trx_is x (stays d D))).
  { eapply spec_weaken; [apply (conn_db_spec x _ _ _ _ (spec_keeps _ (D, P) _ _ _ _ (rollback_keeps_doubt t) (txn_rollback_law d t)))| | |].
    - intros c (Hc & [Hd _] & <- & <-). done.
    - by intros a c (Hc & Hd & [= <- _]).
    - intros c (Hd & [= <- _]). auto. }
  intros ?. eapply spec_bind; [apply upd_spec|]. intros ?. eapply spec_bind; [apply upd_spec|]. intros ?.
  apply spec_ret. intros c [Hc [Hd HD]]. split; [done|]. split; [done|]. eexists. split; [exact Hc|]. simpl. by rewrite Ht.
Qed.

(** C18: a commit is atomic with the full-text statistics of its rows.  The durable contents become those
    the transaction sees with its statistics folded in, all at once; a failure or a crash at any point
    leaves the old contents or these, never a mixture, and an error leaves the connection without the
    transaction. *)
Theorem commit_atomic thd all x t d ws D P :
  all || negb (multi thd) = true -> trx_txn x = Some t -> prepared_xid x = [] -> P t = None ->
  let v := if dirty x then with_stats x (apply_writes ws d) else d in
  spec (trx_is x (view t d ws D P)) (tidesdb_commit thd all) (commit_ends d v D)
    (fun c => in_doubt (db c) = D /\ (committed (db c) = d \/ committed (db c) = v)).
Proof.
  intros Hall Ht Hp HP v. assert (forall c : cn, stays d D (db c) -> in_doubt (db c) = D /\ (committed (db c) = d \/ committed (db c) = v)) as HC.
  { intros c [<- <-]. auto. }
  apply (bind_gets x _ _ _ (Some t)); [intros c Hc; by unfold conn_txn; rewrite Hc|]. rewrite Hall.
  eapply spec_bind; [eapply spec_crash; [apply disarm_spec|apply HC]|]. intros ?.
  set (y := disarmed x). assert (trx_txn y = Some t /\ prepared_xid y = [] /\ dirty y = dirty x /\ with_stats y = with_stats x)
    as (Hty & Hpy & Hdy & Hsy) by (unfold y, disarmed; by destruct (stmt_savepoint_active x)).
  eapply spec_bind; [by apply drop_entry_spec|]. intros ?.
  apply (bind_gets y _ _ _ (dirty x)); [by intros c ->|]. subst v. destruct (dirty x).
  - rewrite <- Hsy in HC |- *. eapply spec_bind; [eapply spec_crash; [by apply flush_spec|apply HC]|]. intros frc.
    unfold tdb_ok. case_bool_decide as Hf; simpl; [|].
    + subst frc. apply spec_at. intros c0 (Hx0 & ws' & Hv & Hws). specialize (Hws eq_refl). rewrite <- Hws in HC |- *.
      apply (spec_pre _ (trx_is (set_meta [] false y) (view t d ws' D P))); [|by intros c ->].
      by apply commit_tail_spec.
    + apply spec_at. intros c0 (Hx0 & ws' & Hv & _).
      apply (spec_pre _ (trx_is (set_meta [] false y) (fun e => stays d D e /\ prepared_as e = P))).
      * apply (tear_down_spec _ t d d); auto. eapply spec_weaken;
          [apply (spec_keeps _ (D, P) _ _ _ _ (rollback_keeps_doubt t) (txn_rollback_law d t))|by intros e [[? <-] <-]|
           by intros b e [? [= <- _]]|by intros e [? [= <- _]]].
      * intros c ->. split; [done|]. destruct Hv as ([? _] & ? & ?). done.
  - eapply spec_bind; [apply upd_spec|]. intros ?. by apply read_only_tail_spec.
Qed.

End Spec.
End TxnSpec.
