(* ===== verification/XaSpec.v ===== *)
(** * What two-phase commit promises

    [registered]: every entry of the prepared-transaction map is a library transaction prepared under its
    key, and its batch is in doubt.  Calls keep that, a batch leaves doubt only by a call that names it, and
    the decision on a batch is carried out whole. *)
From S2P Require Import Prelude Effects TidesDb RowDb TxnDb RowFormat FtsText Table KeyCodec Dml XaCodec Txn Xa TxnUndo TxnSpec.
Import Table KeyCodec Dml XaCodec Txn Xa TxnUndo TxnSpec.
#[local] Open Scope Z_scope.
#[local] Open Scope tdb_scope.

Module XaSpec.

Section Spec.
Context {E txn : Type} `{!TidesDb E txn, !RowDb E txn, !SavepointDb E txn, !FamilyDb E txn, !XaDb E txn}.

#[local] Abbreviation hdl := (handler E txn).
#[local] Abbreviation trx_t := (tidesdb_trx_t txn).
#[local] Abbreviation cn := (conn E txn).

(** ** The reserved family *)

(** The contents agree outside the reserved family. *)
Definition but_tc (d d' : store) : Prop := forall cf, cf <> TDB_XA_TC_CF_NAME -> d' !! cf = d !! cf.

Lemma but_tc_refl d : but_tc d d.
Proof. by intros cf. Qed.
Lemma but_tc_trans d d' d'' : but_tc d d' -> but_tc d' d'' -> but_tc d d''.
Proof. intros H1 H2 cf Hcf. by rewrite H2, H1. Qed.

(** The transactions that [P] says are prepared still are; a transaction it says nothing of is free. *)
Definition holds (P : txn -> bytes -> Prop) (e : E) : Prop := forall t xid, P t xid -> prepared_as e t = Some xid.
Definition unheld (P : txn -> bytes -> Prop) (t : txn) : Prop := forall xid, ~ P t xid.

(** Outside the reserved family the contents are [d]; [D] is in doubt and [P] is prepared. *)
Definition tc_inv d D P (e : E) : Prop := but_tc d (committed e) /\ in_doubt e = D /\ holds P e.
Definition tc_crash d D (e : E) : Prop := but_tc d (committed e) /\ in_doubt e = D.

(** A call that leaves the prepared transactions alone and changes at most the reserved family. *)
Lemma tc_step {A} d D P (m : M E A) (R : A -> Prop) :
  keeps (fun e => (in_doubt e, prepared_as e)) m ->
  (forall d', spec (fun e => committed e = d') m (fun a e => but_tc d' (committed e) /\ R a) (fun e => but_tc d' (committed e))) ->
  spec (tc_inv d D P) m (fun a e => tc_inv d D P e /\ R a) (tc_crash d D).
Proof.
  intros Hk Hm e (Hd & HD & HP). specialize (Hk _ e eq_refl). specialize (Hm _ e eq_refl).
  destruct (m e) as [e' [a|]].
  - injection Hk as HD' HP'. destruct Hm as [Hm HR]. split; [|done]. split; [by eapply but_tc_trans|split; [congruence|]].
    intros t xid Ht. rewrite HP'. by apply HP.
  - injection Hk as HD' HP'. split; [by eapply but_tc_trans|congruence].
Qed.

Lemma create_tc d' :
  spec (fun e => committed e = d') (create_cf TDB_XA_TC_CF_NAME) (fun _ e => but_tc d' (committed e) /\ True)
    (fun e => but_tc d' (committed e)).
Proof.
  assert (but_tc d' (<[TDB_XA_TC_CF_NAME := ∅]> d')) as Hi by (intros cf Hcf; by rewrite lookup_insert_ne).
  eapply spec_weaken; [apply (create_cf_law d' TDB_XA_TC_CF_NAME)|done| |].
  - intros rc e Hrc. split; [|done].
    destruct rc; [rewrite Hrc; case_match|..]; try destruct Hrc as [-> | [_ ->]]; auto using but_tc_refl.
  - intros e [-> | [_ ->]]; auto using but_tc_refl.
Qed.

Lemma tc_cf_spec d D P : spec (tc_inv d D P) tdb_xa_tc_cf (fun _ => tc_inv d D P) (tc_crash d D).
Proof.
  assert (spec (tc_inv d D P) (get_cf TDB_XA_TC_CF_NAME) (fun (r : bool) e => tc_inv d D P e /\ True) (tc_crash d D)) as Hget.
  { apply tc_step; [apply get_cf_keeps_doubt|]. intros d'. eapply spec_weaken; [apply (get_cf_law d' TDB_XA_TC_CF_NAME)|done| |by intros e ->].
    intros r e [-> _]. auto using but_tc_refl. }
  eapply spec_bind; [exact Hget|]. intros [|]; [apply spec_ret; by intros e [? _]|].
  eapply spec_bind; [eapply spec_pre; [apply tc_step; [apply create_cf_keeps_doubt|apply create_tc]|by intros e [? _]]|].
  intros rc. destruct (tdb_ok rc); [|apply spec_ret; by intros e [? _]].
  eapply spec_weaken; [exact Hget|by intros e [? _]|by intros r e [? _]|done].
Qed.

(** A transaction of its own on the reserved family: its one write [w], and its end. *)
Definition tc_open d D P t ws (e : E) : Prop := tc_inv d D P e /\ unheld P t /\ pending e t = ws.

Lemma tc_begin_spec d D P :
  spec (tc_inv d D P) txn_begin
    (fun r e => match r with inl _ => tc_inv d D P e | inr t => tc_open d D P t [] e end) (tc_crash d D).
Proof.
  intros e (Hd & HD & HP). pose proof (txn_begin_law _ e eq_refl) as H1.
  pose proof (begin_keeps_doubt _ _ e (conj HD eq_refl)) as H2. destruct (txn_begin e) as [e' [[rc|t]|]].
  - destruct H1 as [H1 _], H2 as (H2 & H3 & _). split; [by rewrite H1|split; [done|]]. intros t xid Ht. rewrite H3. by apply HP.
  - destruct H1 as [H1 Hw], H2 as (H2 & H3 & Ht). split; [split; [by rewrite H1|split; [done|]]|split; [|done]].
    + intros t' xid Ht'. rewrite H3. by apply HP.
    + intros xid Hx. rewrite (HP _ _ Hx) in Ht. done.
  - split; [by rewrite H1|done].
Qed.

Lemma tc_write_spec d D P t w (m : M E tdb_rc) :
  keeps (fun e => (in_doubt e, prepared_as e)) m ->
  (forall d', spec (fun e => committed e = d' /\ pending e t = []) m
     (fun rc e => committed e = d' /\ pending e t = match rc with TDB_SUCCESS => [] ++ [w] | _ => [] end) (fun e => committed e = d')) ->
  spec (tc_open d D P t []) m
    (fun rc => tc_open d D P t (if tdb_ok rc then [w] else [])) (tc_crash d D).
Proof.
  intros Hk Hm e ((Hd & HD & HP) & Hn & Hw). specialize (Hk _ e eq_refl). specialize (Hm _ e (conj eq_refl Hw)).
  destruct (m e) as [e' [rc|]]; injection Hk as HD' HP'.
  - destruct Hm as [Hc Hp]. split; [split; [by rewrite Hc|split; [congruence|]]|split; [done|]].
    + intros t' xid Ht'. rewrite HP'. by apply HP.
    + rewrite Hp. unfold tdb_ok. by destruct rc.
  - split; [by rewrite Hm|congruence].
Qed.

Lemma but_tc_writes d ws : Forall (fun w => write_cf w = TDB_XA_TC_CF_NAME) ws -> but_tc d (apply_writes ws d).
Proof.
  intros Hw cf Hcf. apply apply_writes_other. eapply Forall_impl; [exact Hw|]. simpl. congruence.
Qed.

(** The end of that transaction, by a commit or a rollback. *)
Lemma tc_end_spec d D P t ws (ok : bool) :
  Forall (fun w => write_cf w = TDB_XA_TC_CF_NAME) ws ->
  spec (tc_open d D P t ws) (if ok then txn_commit t else txn_rollback t)
    (fun rc e => (tc_inv d D P e /\ unheld P t) /\
       (ok = true -> rc = TDB_SUCCESS -> exists d', but_tc d d' /\ committed e = apply_writes ws d')) (tc_crash d D).
Proof.
  intros Hws e ((Hd & HD & HP) & Hn & Hw). pose proof (but_tc_writes (committed e) ws Hws) as Ht.
  assert (keeps (fun e => (in_doubt e, prepared_as e)) (if ok then txn_commit t else txn_rollback t)) as Hk
    by (destruct ok; [apply commit_keeps_doubt|apply rollback_keeps_doubt]). specialize (Hk _ e eq_refl).
  assert (match (if ok then txn_commit t else txn_rollback t) e with
    | (e', Ret rc) => (committed e' = committed e \/ committed e' = apply_writes ws (committed e)) /\
        (ok = true -> rc = TDB_SUCCESS -> committed e' = apply_writes ws (committed e))
    | (e', Crash) => committed e' = committed e \/ committed e' = apply_writes ws (committed e) end) as Hm.
  { destruct ok.
    - pose proof (txn_commit_law _ _ t e (conj eq_refl Hw)) as H. destruct (txn_commit t e) as [e' [rc|]]; [|done].
      split; [destruct rc; auto|by intros _ ->].
    - pose proof (txn_rollback_law _ t e eq_refl) as H. destruct (txn_rollback t e) as [e' [rc|]]; [|by left].
      split; [by left|done]. }
  assert (forall e', committed e' = committed e \/ committed e' = apply_writes ws (committed e) -> but_tc d (committed e')) as Hb.
  { intros e' [-> | ->]; [done|by eapply but_tc_trans]. }
  destruct ((if ok then txn_commit t else txn_rollback t) e) as [e' [rc|]]; injection Hk as HD' HP'.
  - destruct Hm as [Hm Hok]. split.
    + split; [|done]. split; [by apply Hb|split; [congruence|]]. intros t' xid Ht'. rewrite HP'. by apply HP.
    + intros Ho Hrc. exists (committed e). by rewrite (Hok Ho Hrc).
  - split; [by apply Hb|congruence].
Qed.

Lemma tc_free_spec d D P t : unheld P t ->
  spec (tc_inv d D P) (txn_free t) (fun _ => tc_inv d D P) (tc_crash d D).
Proof.
  intros Hn e (Hd & HD & HP). pose proof (txn_free_law _ t e eq_refl) as H1.
  pose proof (free_keeps_doubt _ _ t e (conj HD eq_refl)) as H2. destruct (txn_free t e) as [e' [u|]].
  - destruct H2 as [H2 H3]. split; [by rewrite H1|split; [done|]]. intros t' xid Ht'. rewrite H3; [by apply HP|]. intros ->. by destruct (Hn xid).
  - split; [by rewrite H1|done].
Qed.

Lemma tc_mark_spec d D P key tables :
  spec (tc_inv d D P) (tdb_xa_tc_mark key tables) (fun _ => tc_inv d D P) (tc_crash d D).
Proof.
  eapply spec_bind; [apply tc_cf_spec|]. intros [|]; simpl; [|by apply spec_ret].
  eapply spec_bind; [apply tc_begin_spec|]. intros [rc|t]; [by apply spec_ret|].
  eapply spec_bind; [apply tc_write_spec; [apply put_keeps_doubt|intros d'; apply (txn_put_law d' [] t TDB_XA_TC_CF_NAME key (tdb_xa_tc_encode tables))]|].
  intros prc. assert (Forall (fun w => write_cf w = TDB_XA_TC_CF_NAME)
    (if tdb_ok prc then [W_put TDB_XA_TC_CF_NAME key (tdb_xa_tc_encode tables)] else [])) as Hw
    by (destruct (tdb_ok prc); [by apply Forall_singleton|by apply Forall_nil_2]).
  eapply (spec_bind _ _ (fun _ e => tc_inv d D P e /\ unheld P t)).
  - destruct (tdb_ok prc) eqn:Ho.
    + eapply spec_bind; [apply (tc_end_spec d D P t _ true Hw)|]. intros rc. apply spec_ret. by intros e [? _].
    + eapply spec_bind; [apply (tc_end_spec d D P t _ false Hw)|]. intros rc. apply spec_ret. by intros e [? _].
  - intros ok. apply spec_at. intros e0 [He0 Hn]. eapply (spec_bind _ _ (fun _ => tc_inv d D P)).
    + eapply spec_pre; [by apply (tc_free_spec d D P t)|by intros e ->].
    + intros []. by apply spec_ret.
Qed.

Lemma tc_clear_spec d D P key :
  spec (tc_inv d D P) (tdb_xa_tc_clear key) (fun _ => tc_inv d D P) (tc_crash d D).
Proof.
  eapply spec_bind; [apply tc_cf_spec|]. intros cf. destruct (negb cf || bool_decide (key = [])); [by apply spec_ret|].
  eapply spec_bind; [apply tc_begin_spec|]. intros [rc|t]; [by apply spec_ret|].
  eapply spec_bind; [apply tc_write_spec; [apply delete_keeps_doubt|intros d'; apply (txn_delete_law d' [] t TDB_XA_TC_CF_NAME key)]|].
  intros drc. assert (Forall (fun w => write_cf w = TDB_XA_TC_CF_NAME)
    (if tdb_ok drc then [W_delete TDB_XA_TC_CF_NAME key] else [])) as Hw
    by (destruct (tdb_ok drc); [by apply Forall_singleton|by apply Forall_nil_2]).
  eapply (spec_bind _ _ (fun _ e => tc_inv d D P e /\ unheld P t)).
  - destruct (tdb_ok drc) eqn:Ho.
    + eapply spec_bind; [apply (tc_end_spec d D P t _ true Hw)|]. intros rc. apply spec_ret. by intros e [? _].
    + eapply spec_bind; [apply (tc_end_spec d D P t _ false Hw)|]. intros rc. apply spec_ret. by intros e [? _].
  - intros []. apply spec_at. intros e0 [He0 Hn]. eapply spec_pre; [by apply (tc_free_spec d D P t)|by intros e ->].
Qed.

(** A successful mark is stored. *)
Definition has_tc (e : E) : Prop := is_Some (committed e !! TDB_XA_TC_CF_NAME).

Lemma tc_mark_stored key tables :
  spec (fun _ => True) (tdb_xa_tc_mark key tables)
    (fun ok e => ok = true -> db_get TDB_XA_TC_CF_NAME key (committed e) = Some (tdb_xa_tc_encode tables)) (fun _ => True).
Proof.
  assert (spec (fun _ : E => True) (get_cf TDB_XA_TC_CF_NAME) (fun (r : bool) e => r = true -> has_tc e) (fun _ => True)) as Hget.
  { intros e _. pose proof (get_cf_law _ TDB_XA_TC_CF_NAME e eq_refl) as H. destruct (get_cf _ e) as [e' [r|]]; [|done].
    destruct H as [Hd ->]. unfold has_tc. rewrite Hd. intros H. by apply bool_decide_eq_true in H. }
  eapply (spec_bind _ _ (fun (r : bool) e => r = true -> has_tc e)).
  { eapply spec_bind; [exact Hget|]. intros [|]; [by apply spec_ret|].
    eapply (spec_bind _ _ (fun _ _ => True)); [intros e _; by destruct (create_cf _ e) as [e' [rc|]]|].
    intros rc. destruct (tdb_ok rc); [exact Hget|by apply spec_ret]. }
  intros [|]; simpl; [|by apply spec_ret]. apply (spec_pre _ has_tc); [|by intros e He; apply He].
  eapply (spec_bind _ _ (fun r e => has_tc e /\ match r with inl _ => True | inr t => pending e t = [] end)).
  { intros e He. pose proof (txn_begin_law _ e eq_refl) as H. unfold has_tc.
    destruct (txn_begin e) as [e' [[rc|t]|]]; [|by destruct H as [-> ?]|done]. by destruct H as [-> _]. }
  intros [rc|t]; [by apply spec_ret|].
  eapply (spec_bind _ _ (fun rc e => has_tc e /\ (rc = TDB_SUCCESS -> pending e t = [W_put TDB_XA_TC_CF_NAME key (tdb_xa_tc_encode tables)]))).
  { intros e [He Hw]. pose proof (txn_put_law _ _ t TDB_XA_TC_CF_NAME key (tdb_xa_tc_encode tables) e (conj eq_refl Hw)) as H.
    destruct (txn_put _ _ _ _ e) as [e' [rc|]]; [|done]. destruct H as [Hd Hp]. unfold has_tc. rewrite Hd. split; [done|]. by intros ->. }
  intros prc. eapply (spec_bind _ _ (fun (ok : bool) e => ok = true -> db_get TDB_XA_TC_CF_NAME key (committed e) = Some (tdb_xa_tc_encode tables))).
  - unfold tdb_ok. case_bool_decide as Hp.
    + eapply (spec_bind _ _ (fun rc e => rc = TDB_SUCCESS -> db_get TDB_XA_TC_CF_NAME key (committed e) = Some (tdb_xa_tc_encode tables))).
      * intros e [He Hw]. pose proof (txn_commit_law _ _ t e (conj eq_refl (Hw Hp))) as H.
        destruct (txn_commit t e) as [e' [rc|]]; [|done]. intros ->. rewrite H. by apply db_get_put.
      * intros rc. apply spec_ret. intros e He Hr. apply He. by case_bool_decide.
    + eapply (spec_bind _ _ (fun _ _ => True)); [intros e _; by destruct (txn_rollback t e) as [e' [rc|]]|].
      intros ?. by apply spec_ret.
  - intros ok. eapply (spec_bind _ _ (fun _ e => ok = true -> db_get TDB_XA_TC_CF_NAME key (committed e) = Some (tdb_xa_tc_encode tables))).
    + intros e He. pose proof (txn_free_law _ t e eq_refl) as H. destruct (txn_free t e) as [e' [u|]]; [|done]. by rewrite H.
    + intros []. by apply spec_ret.
Qed.

(** ** The registry *)

(** The entries [R] of the registry are prepared under their keys, and their batches are in doubt. *)
Definition owned (R : gmap bytes txn) (D : gmap bytes (list write)) (P : txn -> option bytes) : Prop :=
  forall k t, R !! k = Some t -> P t = Some k /\ is_Some (D !! k).
Definition registered (R : gmap bytes txn) (c : cn) : Prop :=
  prepared_txns (glob c) = R /\ owned R (in_doubt (db c)) (prepared_as (db c)).

(** The transactions a registry holds. *)
Definition in_reg (R : gmap bytes txn) (t : txn) (k : bytes) : Prop := R !! k = Some t.

Lemma owned_holds R e : owned R (in_doubt e) (prepared_as e) -> holds (in_reg R) e.
Proof. intros Ho t k Hk. apply (Ho k t Hk). Qed.

Lemma holds_owned R D P e : owned R D P -> holds (in_reg R) e -> owned R D (prepared_as e).
Proof. intros Ho Hh k t Hk. split; [by apply Hh|]. apply (Ho k t Hk). Qed.

Lemma owned_empty D P : owned ∅ D P.
Proof. intros k t H. by rewrite lookup_empty in H. Qed.

Lemma owned_delete R D P k : owned R D P -> owned (delete k R) (delete k D) P.
Proof.
  intros Ho k' t. rewrite lookup_delete_Some. intros [Hne Hk]. destruct (Ho k' t Hk) as [Hp Hd]. split; [done|].
  by rewrite lookup_delete_ne.
Qed.

(** A library call seen from the connection, with its registry. *)
Lemma on_db_glob {A} (g : globals txn) (P : E -> Prop) (m : M E A) (Q : A -> E -> Prop) C :
  spec P m Q C ->
  spec (fun c : cn => glob c = g /\ P (db c)) (on_db m) (fun a c => glob c = g /\ Q a (db c)) (fun c => C (db c)).
Proof.
  intros H. apply spec_lift. intros c [Hg HP] e ->. specialize (H _ HP). unfold db in *.
  by destruct (m (lib (hd c))) as [e' [a|]].
Qed.

(** What a decision does to the contents: [f ws d]. *)
Definition decides (act : txn -> M E tdb_rc) (f : list write -> store -> store) : Prop :=
  forall d ws D P t xid, P t = Some xid -> D !! xid = Some ws ->
  spec (fun e => committed e = d /\ in_doubt e = D /\ prepared_as e = P) (act t)
    (fun rc e =>
       match rc with
       | TDB_SUCCESS => committed e = f ws d /\ in_doubt e = delete xid D /\ forall t', t' <> t -> prepared_as e t' = P t'
       | _ => committed e = d /\ in_doubt e = D /\ prepared_as e = P
       end)
    (fun e => (committed e = d /\ in_doubt e = D) \/ (committed e = f ws d /\ in_doubt e = delete xid D)).

Lemma commit_decides : decides txn_commit_prepared apply_writes.
Proof. intros d ws D P t xid. apply txn_commit_prepared_law. Qed.

Lemma rollback_decides : decides txn_rollback_prepared (fun _ d => d).
Proof.
  intros d ws D P t xid HP HD. eapply spec_weaken; [by apply (txn_rollback_prepared_law d D P t xid)|done| |].
  - intros rc e [Hd Hr]. destruct rc; [|by destruct Hr..]. by destruct Hr.
  - intros e [Hd [HD'|HD']]; [by left|by right].
Qed.

(** A decision on the batch [ws] in doubt under [key]: carried out whole and forgotten, or refused and
    still to be made.  The reserved family apart, nothing else changes. *)
Definition decided (f : list write -> store -> store) (key : bytes) d ws D R (code : xa_rc) (c : cn) : Prop :=
  match code with
  | XA_OK => but_tc (f ws d) (committed (db c)) /\ in_doubt (db c) = delete key D /\ registered (delete key R) c
  | XAER_RMERR => committed (db c) = d /\ in_doubt (db c) = D /\ registered R c
  end.
Definition decision_cut (f : list write -> store -> store) (key : bytes) d ws D (c : cn) : Prop :=
  (committed (db c) = d /\ in_doubt (db c) = D) \/ (but_tc (f ws d) (committed (db c)) /\ in_doubt (db c) = delete key D).

Lemma decide_spec act f xid t d ws D R P :
  decides act f -> R !! tdb_xid_key xid = Some t -> D !! tdb_xid_key xid = Some ws -> owned R D P ->
  spec (fun c : cn => prepared_txns (glob c) = R /\ committed (db c) = d /\ in_doubt (db c) = D /\ prepared_as (db c) = P)
    (decide_by_xid act xid) (decided f (tdb_xid_key xid) d ws D R) (decision_cut f (tdb_xid_key xid) d ws D).
Proof.
  intros Hact HR HD Ho. set (key := tdb_xid_key xid) in *. destruct (Ho key t HR) as [HP _].
  apply spec_at. intros c0 (HR0 & Hd0 & HD0 & HP0).
  unfold decide_by_xid. fold key. eapply (spec_bind _ _ (fun r c => r = R /\ c = c0)); [apply spec_gets; by intros c ->|].
  intros r. apply (spec_pure _ (r = R)); [by intros c [? _]|]. intros ->. rewrite HR.
  set (g (R : gmap bytes txn) := {| prepared_txns := R; recovery_xids := recovery_xids (glob c0); recovery_pos := recovery_pos (glob c0);
    recovery_loaded := recovery_loaded (glob c0); recovery_mod_tables := recovery_mod_tables (glob c0) |}).
  eapply (spec_bind _ _ (fun _ c => glob c = g (delete key R) /\ (committed (db c) = d /\ in_doubt (db c) = D /\ prepared_as (db c) = P))).
  { apply spec_modify. intros c [_ ->]. unfold g. simpl. by rewrite HR0. }
  intros []. eapply spec_bind.
  { eapply spec_crash; [apply (on_db_glob (g (delete key R)) _ _ _ _ (Hact d ws D P t key HP HD))|]. intros c [H|[H1 H2]]; [by left|].
    right. split; [|done]. rewrite H1. apply but_tc_refl. }
  intros rc. unfold tdb_ok. case_bool_decide as Hrc; simpl.
  - subst rc. apply (spec_pre _ (fun c => glob c = g (delete key R) /\ tc_inv (f ws d) (delete key D) (in_reg (delete key R)) (db c))).
    + assert (forall c : cn, tc_crash (f ws d) (delete key D) (db c) -> decision_cut f key d ws D c) as HC by (intros c [? ?]; by right).
      assert (unheld (in_reg (delete key R)) t) as Hun.
      { intros k Hk. apply lookup_delete_Some in Hk as [Hne Hk]. destruct (Ho k t Hk). congruence. }
      eapply spec_bind; [eapply spec_crash; [apply (on_db_glob (g (delete key R))), tc_free_spec, Hun|apply HC]|]. intros ?.
      eapply spec_bind; [eapply spec_crash; [apply (on_db_glob (g (delete key R))), tc_clear_spec|apply HC]|]. intros ?.
      apply spec_ret. intros c (Hg & Hd & HD' & Hh). split_and!; [done..|]. split; [by rewrite Hg|]. rewrite HD'.
      eapply holds_owned; [by apply owned_delete|done].
    + intros c (Hg & Hd & HD' & HP'). split; [done|]. split; [rewrite Hd; apply but_tc_refl|split; [done|]].
      intros t' k Hk. apply lookup_delete_Some in Hk as [Hne Hk]. destruct (Ho k t' Hk) as [Hp _].
      rewrite HP'; [done|]. intros ->. congruence.
  - eapply (spec_bind _ _ (fun _ => decided f key d ws D R XAER_RMERR)); [|intros []; by apply spec_ret].
    apply spec_modify. intros c (Hg & Hc). destruct rc; [done|..]; destruct Hc as (Hd & HD' & HP'); unfold decided, registered, db in *;
      simpl; rewrite Hg; simpl; rewrite insert_delete_id by done; by rewrite HD', HP'.
Qed.

(** ** Prepare *)

#[local] Abbreviation the_glob := (glob (E := E) (txn := txn)).

Lemma on_db_keeps_glob {A} (m : M E A) : keeps the_glob (on_db m).
Proof. intros b c <-. unfold on_db, lift. by destruct (m _) as [e [a|]]. Qed.
Lemma with_trx_keeps_glob {A} (m : M hdl A) : keeps the_glob (with_trx m).
Proof. intros b c <-. unfold with_trx, lift. by destruct (m _) as [h [a|]]. Qed.
Lemma upd_keeps_glob (f : trx_t -> trx_t) : keeps the_glob (upd f).
Proof. intros b. by apply spec_modify. Qed.
Lemma disarm_keeps_glob t : keeps the_glob (stmt_savepoint_disarm t).
Proof.
  apply keeps_bind; [apply keeps_gets|]. intros [|]; [|apply keeps_ret].
  apply keeps_bind; [apply on_db_keeps_glob|]. intros ?. apply upd_keeps_glob.
Qed.

(** The transaction object [x], the shared maps [g] and the library in [Pr]. *)
Definition trx_glob x g (Pr : E -> Prop) (c : cn) : Prop := trx_is x Pr c /\ glob c = g.

Lemma give_up_spec x t g d D P :
  P t = None -> owned (prepared_txns g) D P ->
  spec (trx_glob x g (fun e => stays d D e /\ prepared_as e = P)) (give_up_txn t)
    (fun _ c => trx_is (set_clean (bump (set_txn_ptr None x))) (stays d D) c /\ registered (prepared_txns g) c)
    (fun c => stays d D (db c)).
Proof.
  intros HP Ho. unfold give_up_txn.
  eapply (spec_bind _ _ (fun _ => trx_glob x g (fun e => stays d D e /\ prepared_as e = P))).
  { eapply spec_crash; [apply spec_keeps; [apply on_db_keeps_glob|apply conn_db_spec; by apply rollback_active_spec]|by intros c [? _]]. }
  intros ?. eapply (spec_bind _ _ (fun _ => trx_glob x g (fun e => stays d D e /\ holds (in_reg (prepared_txns g)) e))).
  { eapply spec_crash; [apply spec_keeps; [apply on_db_keeps_glob|apply (conn_db_spec x _ _ _ (stays d D))]|by intros c [? _]].
    intros e [[Hd HD] HP0]. pose proof (txn_free_law _ t e Hd) as H1. pose proof (free_keeps_doubt _ _ t e (conj HD HP0)) as H2.
    destruct (txn_free t e) as [e' [u|]]; [|done]. destruct H2 as [H2 H3]. split; [done|].
    intros t' k Hk. destruct (Ho k t' Hk) as [Hp _]. rewrite H3; [done|]. intros ->. congruence. }
  intros []. apply spec_modify. intros c [[Hx [[Hd HD] Hh]] Hg]. unfold trx_is, registered, db in *. simpl. rewrite Hx, Hg.
  split; [done|]. split; [done|]. rewrite HD. by eapply holds_owned.
Qed.

(** A batch whose writes over the contents [d] give [v]. *)
Definition batch_of (d v : store) (ws : list write) : Prop := apply_writes ws d = v.

(** How XA PREPARE of the key ends: the batch is durable in doubt, the registry owns its transaction and the
    connection has let go of it; or nothing is in doubt that was not and the transaction is gone. *)
Definition prepared_ends (key : bytes) t g d v D (code : hton_rc) (c : cn) : Prop :=
  committed (db c) = d /\ (exists x, ha_data c = Some x /\ trx_txn x = None /\ prepared_xid x = [] /\ fts_meta_pending x = []) /\
  match code with
  | R_OK => exists ws, batch_of d v ws /\ in_doubt (db c) = <[key := ws]> D /\ registered (<[key := t]> (prepared_txns g)) c
  | R_LIB _ => in_doubt (db c) = D /\ registered (prepared_txns g) c
  | _ => False
  end.

Lemma prepare_step_spec x t g d ws D P key :
  P t = None -> D !! key = None -> owned (prepared_txns g) D P ->
  spec (trx_glob x g (view t d ws D P)) (on_db (txn_prepare t key))
    (fun rc => trx_glob x g (fun e =>
       match rc with
       | TDB_SUCCESS => stays d (<[key := ws]> D) e /\ owned (<[key := t]> (prepared_txns g)) (<[key := ws]> D) (prepared_as e)
       | _ => stays d D e /\ prepared_as e = P
       end))
    (fun c => committed (db c) = d /\ (in_doubt (db c) = D \/ in_doubt (db c) = <[key := ws]> D)).
Proof.
  intros HP HD Ho. eapply spec_crash; [apply spec_keeps; [apply on_db_keeps_glob|apply (conn_db_spec x _ _ _ (fun e =>
    committed e = d /\ (in_doubt e = D \/ in_doubt e = <[key := ws]> D)))]|by intros c [? _]].
  eapply spec_weaken; [apply (txn_prepare_law d ws D P t key)|by intros e ([? ?] & ? & ?)| |done].
  intros rc e [Hd Hr]. destruct rc; [|by destruct Hr..]. destruct Hr as (HD' & Hp & Hother). split; [done|].
  intros k t' [[<- <-]|[Hne Hk]]%lookup_insert_Some; [split; [done|by rewrite lookup_insert_eq; eexists]|].
  destruct (Ho k t' Hk) as [Hp' Hd']. split; [|by rewrite lookup_insert_ne]. rewrite Hother; [done|]. intros ->. congruence.
Qed.

(** From the prepare call to the end. *)
Lemma prepare_tail_spec x t g d ws D P key :
  trx_txn x = Some t -> prepared_xid x = [] -> fts_meta_pending x = [] ->
  P t = None -> D !! key = None -> owned (prepared_txns g) D P ->
  spec (trx_glob x g (view t d ws D P))
    (rc <-- on_db (txn_prepare t key);
     if negb (tdb_ok rc) then give_up_txn t;; ret (rc_to_ha rc)
     else
       set_registry (<[key := t]>);;
       upd (fun x => set_prepared key [] (mod_tables x) x);;
       upd (fun x => set_meta [] false (set_xid [] (bump (set_clean (set_txn_ptr None x)))));;
       ret R_OK)%eff
    (prepared_ends key t g d (apply_writes ws d) D)
    (fun c => committed (db c) = d /\ (in_doubt (db c) = D \/ exists ws', batch_of d (apply_writes ws d) ws' /\ in_doubt (db c) = <[key := ws']> D)).
Proof.
  intros Ht Hp Hm HP HD Ho. eapply spec_bind; [eapply spec_crash; [by apply prepare_step_spec|]|].
  { intros c [Hd [HD'|HD']]; (split; [done|]); [by left|right]. by exists ws. }
  intros rc. unfold tdb_ok. case_bool_decide as Hrc; simpl.
  - subst rc. set (g' := {| prepared_txns := <[key := t]> (prepared_txns g); recovery_xids := recovery_xids g;
      recovery_pos := recovery_pos g; recovery_loaded := recovery_loaded g; recovery_mod_tables := recovery_mod_tables g |}).
    set (Pr e := stays d (<[key := ws]> D) e /\ owned (<[key := t]> (prepared_txns g)) (<[key := ws]> D) (prepared_as e)).
    eapply (spec_bind _ _ (fun _ => trx_glob x g' Pr)).
    { apply spec_modify. intros c [[Hx Hc] Hg]. unfold trx_glob, trx_is. simpl. by rewrite Hg. }
    intros []. eapply (spec_bind _ _ (fun _ => trx_glob _ g' Pr)); [apply spec_modify; intros c [[Hx Hc] Hg]; by split; [split; [by simpl; rewrite Hx|]|]|].
    intros []. eapply (spec_bind _ _ (fun _ => trx_glob _ g' Pr)); [apply spec_modify; intros c [[Hx Hc] Hg]; by split; [split; [by simpl; rewrite Hx|]|]|].
    intros []. apply spec_ret. intros c [[Hx [[Hd HD'] Ho']] Hg]. split; [done|]. split; [by eexists|].
    exists ws. split; [done|]. split; [done|]. split; [by rewrite Hg|]. by rewrite HD'.
  - eapply spec_bind; [eapply spec_weaken; [by apply (give_up_spec x t g d D P)| |intros u c Hu; exact Hu|]|].
    + intros c [[Hx Hc] Hg]. split; [|done]. split; [done|]. by destruct rc.
    + intros c [? ?]. auto.
    + intros []. apply spec_ret. intros c [[Hx [Hd HD']] Hr]. split; [done|]. split; [by eexists|]. by destruct rc.
Qed.

Lemma prepare_spec thd x t g d ws D P :
  sql_command thd = SQLCOM_XA_PREPARE -> trx_txn x = Some t -> prepared_xid x = [] ->
  (dirty x = false -> fts_meta_pending x = []) -> P t = None ->
  let key := tdb_xid_key (thd_xid thd) in
  D !! key = None -> owned (prepared_txns g) D P ->
  let v := if dirty x then with_stats x (apply_writes ws d) else apply_writes ws d in
  spec (trx_glob x g (view t d ws D P)) (tidesdb_prepare thd true) (prepared_ends key t g d v D)
    (fun c => committed (db c) = d /\ (in_doubt (db c) = D \/ exists ws', batch_of d v ws' /\ in_doubt (db c) = <[key := ws']> D)).
Proof.
  intros Hcmd Ht Hp Hm HP key HD Ho v.
  assert (forall c : cn, stays d D (db c) -> committed (db c) = d /\ (in_doubt (db c) = D \/ exists ws', batch_of d v ws' /\
    in_doubt (db c) = <[key := ws']> D)) as HC by (intros c [? ?]; auto).
  unfold tidesdb_prepare. apply (spec_bind _ _ (fun r c => r = Some t /\ trx_glob x g (view t d ws D P) c)).
  { apply spec_gets. intros c Hc. split; [|done]. unfold conn_txn. by rewrite (proj1 (proj1 Hc)). }
  intros r. apply (spec_pure _ (r = Some t)); [by intros c [? _]|]. intros ->. simpl negb.
  set (y := disarmed x). assert (trx_txn y = Some t /\ prepared_xid y = [] /\ dirty y = dirty x /\ fts_meta_pending y = fts_meta_pending x /\
    with_stats y = with_stats x) as (Hty & Hpy & Hdy & Hmy & Hsy) by (unfold y, disarmed; by destruct (stmt_savepoint_active x)).
  eapply (spec_bind _ _ (fun _ => trx_glob y g (view t d ws D P))).
  { eapply spec_weaken; [apply (spec_keeps the_glob g); [apply disarm_keeps_glob|apply (disarm_spec x t d ws D P)]|by intros c [_ ?]|done|].
    intros c [? _]. by apply HC. }
  intros []. apply (spec_bind _ _ (fun r c => r = dirty x /\ trx_glob y g (view t d ws D P) c)).
  { apply spec_gets. intros c Hc. split; [|done]. by rewrite (proj1 (proj1 Hc)). }
  intros r. apply (spec_pure _ (r = dirty x)); [by intros c [? _]|]. intros ->.
  rewrite Hcmd, bool_decide_true, andb_false_r by done.
  apply (spec_pre _ (trx_glob y g (view t d ws D P))); [|by intros c [_ ?]]. subst v.
  destruct (dirty x) eqn:Ed.
  - rewrite <- Hsy in HC |- *. eapply spec_bind.
    { eapply spec_crash; [apply (spec_keeps the_glob g); [apply with_trx_keeps_glob|by apply flush_spec]|]. intros c [? _]. by apply HC. }
    intros frc. apply spec_at. intros c0 [(Hx0 & ws' & Hv & Hws) Hg0]. set (z := set_meta [] false y) in *.
    unfold tdb_ok. case_bool_decide as Hf; simpl.
    + rewrite <- (Hws Hf) in HC |- *. apply (spec_pre _ (trx_glob z g (view t d ws' D P))); [|by intros c ->].
      by apply prepare_tail_spec.
    + eapply spec_bind; [eapply spec_weaken; [by apply (give_up_spec z t g d D P)| |intros u c Hu; exact Hu|apply HC]|].
      * intros c ->. destruct Hv as ([? _] & ? & ?). done.
      * intros []. apply spec_ret. intros c [[Hx [Hd HD']] Hr]. split; [done|]. split; [by eexists|]. by destruct frc.
  - eapply (spec_bind _ _ (fun rc c => rc = TDB_SUCCESS /\ trx_glob y g (view t d ws D P) c)); [by apply spec_ret|].
    intros rc. apply (spec_pure _ (rc = TDB_SUCCESS)); [by intros c [? _]|]. intros ->. simpl.
    apply (spec_pre _ (trx_glob y g (view t d ws D P))); [|by intros c [_ ?]]. apply prepare_tail_spec; try done.
    rewrite Hmy. by apply Hm.
Qed.


(** C20: the second phase is exact.  XA COMMIT of a registered transaction applies its batch whole, takes it out
    of doubt and out of the registry; XA ROLLBACK drops it; a failure changes nothing and leaves it registered
    for the decision to be retried; a crash leaves the decision made or still to be made. *)
Theorem decision_exact xid t d ws D R P :
  R !! tdb_xid_key xid = Some t -> D !! tdb_xid_key xid = Some ws -> owned R D P ->
  let pre (c : cn) := prepared_txns (glob c) = R /\ committed (db c) = d /\ in_doubt (db c) = D /\ prepared_as (db c) = P in
  spec pre (tidesdb_commit_by_xid xid) (decided apply_writes (tdb_xid_key xid) d ws D R)
    (decision_cut apply_writes (tdb_xid_key xid) d ws D) /\
  spec pre (tidesdb_rollback_by_xid xid) (decided (fun _ d => d) (tdb_xid_key xid) d ws D R)
    (decision_cut (fun _ d => d) (tdb_xid_key xid) d ws D).
Proof.
  intros HR HD Ho pre. split; [by apply (decide_spec _ _ xid t d ws D R P commit_decides)|].
  by apply (decide_spec _ _ xid t d ws D R P rollback_decides).
Qed.

End Spec.
End XaSpec.
