(* ===== verification/XaRecover.v ===== *)
(** * Recovery of prepared transactions

    After a restart the server drains the XIDs in doubt in batches and then resolves each.  [drain] asks for
    batches until one comes back short; it terminates, hands over every XID once, and leaves each of them in
    the registry for its decision. *)
From S2P Require Import Prelude Effects TidesDb RowDb TxnDb RowFormat FtsText Table KeyCodec Dml XaCodec Txn Xa TxnUndo TxnSpec XaSpec.
Import Table KeyCodec Dml XaCodec Txn Xa TxnUndo TxnSpec XaSpec.
#[local] Open Scope Z_scope.
#[local] Open Scope tdb_scope.

Module XaRecover.

(** ** The loop over the recovered keys *)

Section Walk.
Context (names : gmap bytes tdb_table_names_t).

(** What the server is told of a key: its XID with the tables to lock, or nothing when it does not parse. *)
Definition told (k : bytes) : option (XID * tdb_table_names_t) :=
  (fun x => (x, default [] (names !! k))) <$> tdb_xid_from_key k.

Lemma recover_walk_spec rest len :
  let r := recover_walk names rest len in
  (r.1 <= length rest)%nat /\ r.2 = omap told (take r.1 rest) /\ (length r.2 <= len)%nat /\
  ((length r.2 < len)%nat -> r.1 = length rest) /\ (length r.2 <= r.1)%nat.
Proof.
  revert len. induction rest as [|k rest IH]; intros [|len]; simpl; try (split_and!; (done || lia)).
  destruct (tdb_xid_from_key k) as [x|] eqn:Ek; simpl.
  - assert (told k = Some (x, default [] (names !! k))) as -> by (unfold told; by rewrite Ek).
    destruct (IH len) as (H1 & -> & H3 & H4 & H5). split_and!; (done || lia).
  - assert (told k = None) as -> by (unfold told; by rewrite Ek).
    destruct (IH (S len)) as (H1 & H2 & H3 & H4 & H5). split_and!; (done || lia).
Qed.

End Walk.

Section Recover.
Context {E txn : Type} `{!TidesDb E txn, !RowDb E txn, !SavepointDb E txn, !FamilyDb E txn, !XaDb E txn}.

#[local] Abbreviation cn := (conn E txn).

(** The server has just started: nothing has been loaded, and [names] came from the reserved family. *)
Definition fresh_start names d D P (c : cn) : Prop :=
  glob c = {| prepared_txns := ∅; recovery_xids := []; recovery_pos := 0; recovery_loaded := false; recovery_mod_tables := names |} /\
  (committed (db c) = d /\ in_doubt (db c) = D /\ prepared_as (db c) = P).

(** The keys [l] have been loaded, [p] of them handed over; [R] is the registry. *)
Definition loaded names l p d D R (c : cn) : Prop :=
  glob c = {| prepared_txns := R; recovery_xids := l; recovery_pos := p; recovery_loaded := true; recovery_mod_tables := names |} /\
  (committed (db c) = d /\ in_doubt (db c) = D /\ owned R D (prepared_as (db c))).

(** The keys are those of the transactions in doubt, and the registry has each of them. *)
Definition complete (l : list bytes) (D : gmap bytes (list write)) (R : gmap bytes txn) : Prop :=
  NoDup l /\ (forall k, k ∈ l <-> is_Some (D !! k)) /\ (forall k, k ∈ l -> is_Some (R !! k)).

(** The library answers both calls of the load: the number of transactions in doubt, and these. *)
Definition answers (e : E) : Prop :=
  exists e1 n, recover_prepared_count e = (e1, Ret (inr n)) /\
    (0 < n -> exists e2 l, recover_prepared n e1 = (e2, Ret (inr l))).
Definition answering names d D P (c : cn) : Prop := fresh_start names d D P c /\ answers (db c).

Lemma registry_of_list (l : list (bytes * txn)) (R : gmap bytes txn) k t :
  fold_left (fun m kt => <[kt.1 := kt.2]> m) l R !! k = Some t -> (k, t) ∈ l \/ R !! k = Some t.
Proof.
  revert R. induction l as [|[k' t'] l IH]; intros R; simpl; [by right|]. intros [H|H]%IH; [left; by right|].
  apply lookup_insert_Some in H as [[<- <-]|[_ H]]; [left; left|by right].
Qed.

Lemma registry_has_list (l : list (bytes * txn)) (R : gmap bytes txn) k :
  k ∈ l.*1 \/ is_Some (R !! k) -> is_Some (fold_left (fun m kt => <[kt.1 := kt.2]> m) l R !! k).
Proof.
  revert R. induction l as [|[k' t'] l IH]; intros R; simpl; [intros [H|H]; [by apply not_elem_of_nil in H|done]|].
  intros [[->|H]%elem_of_cons|H]; apply IH; [right; by rewrite lookup_insert_eq|by left|right].
  destruct (decide (k = k')) as [->|Hne]; [by rewrite lookup_insert_eq|by rewrite lookup_insert_ne].
Qed.

Lemma load_spec names d D P :
  spec (answering names d D P) tdb_load_recovered_prepared
    (fun _ c => exists l R, complete l D R /\ loaded names l 0 d D R c) (fun _ => False).
Proof.
  intros c [[Hg Hc] (e1 & n & Hn & Hl)]. pose proof (recover_count_law d D P (db c) Hc) as Hcnt. rewrite Hn in Hcnt.
  destruct Hcnt as [He1 Hsize]. unfold tdb_load_recovered_prepared, set_loaded, modify, on_db, lift, bind, gets.
  rewrite Hg. simpl. unfold db in Hn. rewrite Hn. simpl. destruct (Z.leb_spec n 0) as [H0|H0]; simpl.
  - exists [], ∅. assert (D = ∅) as -> by (apply map_size_empty_iff; lia). destruct He1 as (? & ? & ?). split.
    + split; [constructor|]. split; intros k; [|by intros ?%not_elem_of_nil]. rewrite lookup_empty.
      split; [by intros ?%not_elem_of_nil|by intros [? ?]].
    + split; [simpl; by rewrite Hg|]. split_and!; [done..|]. apply owned_empty.
  - destruct (Hl H0) as (e2 & l & He2). rewrite He2. simpl.
    pose proof (recover_prepared_law d D P n (ltac:(lia)) e1 He1) as H. rewrite He2 in H.
    destruct H as (Hd & HD & Hnd & Hdom & Hp & _). exists l.*1, (fold_left (fun m kt => <[kt.1 := kt.2]> m) l ∅). split.
    + split_and!; [done..|]. intros k Hk. apply registry_has_list. by left.
    + split; [simpl; by rewrite Hg|]. split_and!; [done..|]. intros k t [H|H]%registry_of_list; [|by rewrite lookup_empty in H].
      split; [by apply Hp|]. apply Hdom, list_elem_of_fmap. by exists (k, t).
Qed.

(** One batch, once the keys are loaded. *)
Lemma recover_loaded_spec names l p d D R len :
  (0 < len)%nat ->
  spec (loaded names l p d D R) (tidesdb_recover len)
    (fun out c => let r := recover_walk names (drop p l) len in out = r.2 /\ loaded names l (p + r.1) d D R c)
    (fun _ => False).
Proof.
  intros Hlen. unfold tidesdb_recover. destruct (Nat.eqb_spec len 0) as [?|_]; [lia|].
  eapply (spec_bind _ _ (fun _ => loaded names l p d D R)).
  { unfold tdb_load_recovered_prepared. eapply (spec_bind _ _ (fun r c => r = true /\ loaded names l p d D R c)).
    - apply spec_gets. intros c Hc. split; [|done]. by rewrite (proj1 Hc).
    - intros r. apply (spec_pure _ (r = true)); [by intros c [? _]|]. intros ->. apply spec_ret. by intros c [_ ?]. }
  intros []. eapply (spec_bind _ _ (fun g c => glob c = g /\ loaded names l p d D R c)); [by apply spec_gets|].
  intros g. apply spec_at. intros c0 [Hg Hc0]. destruct Hc0 as [Hg0 Hc0]. rewrite Hg0 in Hg. subst g. simpl.
  eapply (spec_bind _ _ (fun _ => loaded names l (p + (recover_walk names (drop p l) len).1) d D R)).
  - apply spec_modify. intros c ->. split; [|done]. simpl. by rewrite Hg0.
  - intros []. by apply spec_ret.
Qed.

(** The loop from a cursor inside the loaded keys. *)
Lemma drain_loaded_spec names l d D R len fuel p :
  (0 < len)%nat -> (length (drop p l) < fuel)%nat -> (p <= length l)%nat ->
  spec (loaded names l p d D R) (drain fuel len)
    (fun out c => out = omap (told names) (drop p l) /\ loaded names l (length l) d D R c) (fun _ => False).
Proof.
  intros Hlen. revert p. induction fuel as [|fuel IH]; intros p Hf Hp; [lia|]. simpl.
  eapply spec_bind; [by apply recover_loaded_spec|]. intros got. cbv zeta.
  destruct (recover_walk_spec names (drop p l) len) as (H1 & H2 & H3 & H4 & H5).
  set (r := recover_walk names (drop p l) len) in *. apply (spec_pure _ (got = r.2)); [by intros c [? _]|]. intros ->.
  apply (spec_pre _ (loaded names l (p + r.1) d D R)); [|by intros c [_ ?]]. rewrite length_drop in *.
  destruct (Nat.ltb_spec (length r.2) len) as [Hl|Hl].
  - apply spec_ret. intros c Hc. rewrite (H4 Hl) in Hc, H2. rewrite take_ge in H2 by (by rewrite length_drop).
    split; [done|]. by replace (p + (length l - p))%nat with (length l) in Hc by lia.
  - eapply spec_bind; [apply (IH (p + r.1)%nat); [rewrite length_drop; lia|lia]|]. intros more. apply spec_ret.
    intros c [-> Hc]. split; [|done]. rewrite H2, <- drop_drop, <- omap_app. by rewrite take_drop.
Qed.

(** The load happens once, before the first batch. *)
Lemma load_sets : spec (fun _ : cn => True) tdb_load_recovered_prepared (fun _ c => recovery_loaded (glob c) = true) (fun _ => True).
Proof.
  set (L c := recovery_loaded (glob (E := E) (txn := txn) c) = true).
  assert (forall A (m : M E A), spec L (on_db m) (fun _ => L) (fun _ => True)) as Hdb.
  { intros A m c Hc. pose proof (on_db_keeps_glob m _ c eq_refl) as H. destruct (on_db m c) as [c' [a|]]; [|done]. unfold L. by rewrite H. }
  unfold tdb_load_recovered_prepared. eapply (spec_bind _ _ (fun r c => r = recovery_loaded (glob c))); [by apply spec_gets|].
  intros [|]; [apply spec_ret; by intros c|].
  eapply (spec_bind _ _ (fun _ => L)); [by apply spec_modify|]. intros [].
  eapply spec_bind; [apply Hdb|]. intros [rc|n]; [by apply spec_ret|]. destruct (n <=? 0); [by apply spec_ret|].
  eapply spec_bind; [apply Hdb|]. intros [rc|l]; [by apply spec_ret|]. by apply spec_modify.
Qed.

Lemma recover_loads_first len (c : cn) : (0 < len)%nat ->
  tidesdb_recover len c = bind tdb_load_recovered_prepared (fun _ => tidesdb_recover len) c.
Proof.
  intros Hlen. unfold tidesdb_recover. destruct (Nat.eqb_spec len 0) as [?|_]; [lia|].
  assert (forall A (k : unit -> M cn A), bind tdb_load_recovered_prepared k c =
    bind tdb_load_recovered_prepared (fun _ => bind tdb_load_recovered_prepared k) c) as H; [|apply H].
  intros A k. unfold bind at 1 2 3. pose proof (load_sets c I) as H. destruct (tdb_load_recovered_prepared c) as [c1 [[]|]]; [|done].
  assert (tdb_load_recovered_prepared c1 = (c1, Ret tt)) as ->; [|done].
  unfold tdb_load_recovered_prepared, bind, gets. by rewrite H.
Qed.

Lemma drain_loads_first fuel len (c : cn) : (0 < len)%nat -> (0 < fuel)%nat ->
  drain fuel len c = bind tdb_load_recovered_prepared (fun _ => drain fuel len) c.
Proof.
  intros Hlen Hf. destruct fuel as [|fuel]; [lia|]. simpl.
  generalize (fun got : list (XID * tdb_table_names_t) => if Nat.ltb (length got) len then ret got
    else bind (drain fuel len) (fun more => ret (S := cn) (got ++ more))). intros k.
  unfold bind at 1. rewrite recover_loads_first by done. unfold bind at 1 2 3.
  by destruct (tdb_load_recovered_prepared c) as [c1 [u|]].
Qed.

Lemma complete_length l D R : complete l D R -> (length l <= size D)%nat.
Proof.
  intros (Hn & Hk & _). rewrite <- (size_list_to_set (C := gset bytes) l Hn), <- size_dom.
  apply subseteq_size. intros k. rewrite elem_of_list_to_set, elem_of_dom. apply Hk.
Qed.

Lemma drain_spec names d D P len fuel :
  (0 < len)%nat -> (size D < fuel)%nat ->
  spec (answering names d D P) (drain fuel len)
    (fun out c => exists l R, complete l D R /\ out = omap (told names) l /\ loaded names l (length l) d D R c) (fun _ => False).
Proof.
  intros Hlen Hf. eapply spec_ext; [intros c; apply drain_loads_first; [done|lia]|].
  eapply spec_bind; [apply load_spec|]. intros []. apply spec_at. intros c0 (l & R & Hall & Hl).
  eapply spec_weaken; [apply (drain_loaded_spec names l d D R len fuel 0); [done|rewrite drop_0; pose proof (complete_length _ _ _ Hall); lia|lia]|
    by intros c ->| |done].
  intros out c [-> Hc]. exists l, R. by rewrite drop_0.
Qed.

(** C21: recovery terminates and is complete.  After a start, when the library answers the two calls of the
    load ([answers]: how many transactions are in doubt, and which), the server's loop of batches, of any size,
    comes to its end within as many rounds as transactions are in doubt and one more; it hands over the XIDs of
    exactly the transactions in doubt, each once and with the tables recorded for it (a key that is not an XID's is
    passed over), and leaves every one of them in the registry.  Nothing changes in storage. *)
Theorem recover_hands_over_all names d D P len :
  (0 < len)%nat ->
  spec (answering names d D P) (drain (S (size D)) len)
    (fun out c => exists l R, complete l D R /\ out = omap (told names) l /\ loaded names l (length l) d D R c) (fun _ => False).
Proof. intros Hlen. apply drain_spec; [done|lia]. Qed.

(** C17: a prepared transaction survives a restart.  When the library answers the two calls of the recovery
    ([answers]), the XID is among the ones handed over after the restart, and XA COMMIT of it, from any
    connection, makes its writes durable and takes it out of doubt; a failed decision leaves it to be made again,
    and a crash leaves it decided or in doubt. *)
Theorem prepared_commits_after_restart names d D P len xid ws :
  (0 < len)%nat -> xid_ok xid -> D !! tdb_xid_key xid = Some ws ->
  spec (answering names d D P)
    (out <-- drain (S (size D)) len; code <-- tidesdb_commit_by_xid xid; ret (out, code))%eff
    (fun r c => (exists y tables, (y, tables) ∈ r.1 /\ same_xid xid y) /\
        exists R, decided apply_writes (tdb_xid_key xid) d ws D R r.2 c)
    (decision_cut apply_writes (tdb_xid_key xid) d ws D).
Proof.
  intros Hlen Hok HD.
  eapply spec_bind; [eapply spec_crash; [by apply (drain_spec names d D P len (S (size D))); [|lia]|done]|].
  intros out. apply spec_at. intros c0 (l & R & (Hn & Hk & HR) & -> & Hg & Hd & HD0 & Ho).
  assert (tdb_xid_key xid ∈ l) as Hin by (apply Hk; by eexists). destruct (HR _ Hin) as [t Ht].
  eapply spec_bind; [eapply spec_pre; [by apply (decide_spec txn_commit_prepared apply_writes xid t d ws D R (prepared_as (db c0)) commit_decides)|]|].
  { intros c ->. by rewrite Hg. }
  intros code. apply spec_ret. intros c Hc. split; [|by exists R].
  destruct (xid_reads_back xid Hok) as (y & Hy & Hs). exists y, (default [] (names !! tdb_xid_key xid)). split; [|done].
  apply list_elem_of_omap. exists (tdb_xid_key xid). split; [done|]. unfold told. by rewrite Hy.
Qed.

End Recover.
End XaRecover.
