(* ===== verification/TxnDoubt.v ===== *)
(** * Row operations leave prepared transactions alone

    A statement of another connection runs beside the transactions in doubt.  [calm] is the invariant of its
    handler: every entry of the registry is prepared under its key, the batch under [key] is in doubt, and the
    handler's own transaction is not prepared.  Every operation of [Dml] keeps it, the commits at the batch
    boundaries of bulk statements included.  The tactic [doubt] walks the code as [undo] does. *)
From S2P Require Import Prelude Effects TidesDb RowDb TxnDb RowFormat FtsText Table KeyCodec Dml XaCodec Txn Xa TxnUndo TxnSpec XaSpec.
Import Table KeyCodec Dml Txn TxnSpec XaSpec.
#[local] Open Scope Z_scope.
#[local] Open Scope tdb_scope.

(** The transactions in doubt, and the names transaction objects are prepared under. *)
Abbreviation doubt_of := (fun e => (in_doubt e, prepared_as e)).

(** The services of the row operations leave them alone. *)
Class ServicesDoubt (E txn : Type) `{!TidesDb E txn, !RowDb E txn, !SavepointDb E txn, !FamilyDb E txn, !XaDb E txn, !RowServices E txn} := {
  serialize_doubt r : keeps doubt_of (serialize_row r);
  fk_child_doubt t r : keeps doubt_of (fk_check_child t r);
  fk_delete_doubt t r : keeps doubt_of (fk_enforce_parent_delete t r);
  fk_update_doubt t r r' : keeps doubt_of (fk_enforce_parent_update t r r');
  open_doubt : keeps doubt_of open_stmt_txn;
  auto_increment_doubt r : keeps doubt_of (update_auto_increment r) }.

Module TxnDoubt.

Create HintDb doubt.

Section Doubt.
Context {E txn : Type} `{!TidesDb E txn, !RowDb E txn, !SavepointDb E txn, !FamilyDb E txn, !XaDb E txn}.
Context (R : gmap bytes txn) (key : bytes) (ws : list write).

#[local] Abbreviation hdl := (handler E txn).
#[local] Abbreviation trx_t := (tidesdb_trx_t txn).

(** The entries of the registry [R] are prepared under their keys, and [ws] is in doubt under [key]. *)
Definition kept (e : E) : Prop := owned R (in_doubt e) (prepared_as e) /\ in_doubt e !! key = Some ws.
Definition free_txn (t : txn) (e : E) : Prop := prepared_as e t = None.

Lemma kept_lib {A} (m : M E A) (F : (txn -> option bytes) -> Prop) :
  keeps doubt_of m ->
  spec (fun e => kept e /\ F (prepared_as e)) m (fun _ e => kept e /\ F (prepared_as e)) (fun e => in_doubt e !! key = Some ws).
Proof.
  intros Hm e [[Ho Hk] HF]. specialize (Hm _ e eq_refl). unfold kept. destruct (m e) as [e' [a|]]; injection Hm as HD HP; by rewrite ?HD, ?HP.
Qed.

Lemma kept_begin (m : M E (tdb_rc + txn)) (F : (txn -> option bytes) -> Prop) :
  (forall D P, spec (fun e => in_doubt e = D /\ prepared_as e = P) m
     (fun r e => in_doubt e = D /\ prepared_as e = P /\ match r with inr t => P t = None | inl _ => True end) (fun e => in_doubt e = D)) ->
  spec (fun e => kept e /\ F (prepared_as e)) m
    (fun r e => (kept e /\ F (prepared_as e)) /\ match r with inr t => free_txn t e | inl _ => True end)
    (fun e => in_doubt e !! key = Some ws).
Proof.
  intros Hm e [[Ho Hk] HF]. specialize (Hm _ _ e (conj eq_refl eq_refl)). unfold kept, free_txn.
  destruct (m e) as [e' [r|]]; [|by rewrite Hm]. destruct Hm as (-> & -> & Hr). done.
Qed.

Lemma kept_same {A} (m : M E A) (F : (txn -> option bytes) -> Prop) t :
  (forall D P, P t = None -> spec (fun e => in_doubt e = D /\ prepared_as e = P) m
     (fun _ e => in_doubt e = D /\ prepared_as e = P) (fun e => in_doubt e = D)) ->
  spec (fun e => (kept e /\ F (prepared_as e)) /\ free_txn t e) m (fun _ e => (kept e /\ F (prepared_as e)) /\ free_txn t e)
    (fun e => in_doubt e !! key = Some ws).
Proof.
  intros Hm e [[[Ho Hk] HF] Ht]. specialize (Hm _ _ Ht e (conj eq_refl eq_refl)). unfold kept, free_txn in *.
  destruct (m e) as [e' [r|]]; [|by rewrite Hm]. by destruct Hm as [-> ->].
Qed.

(** The handler's own transaction is not prepared. *)
Definition own_free (o : option trx_t) (P : txn -> option bytes) : Prop :=
  forall x t, o = Some x -> trx_txn x = Some t -> P t = None.
Definition calm (h : hdl) : Prop := kept (lib h) /\ own_free (cached_trx_ h) (prepared_as (lib h)).
Definition still (h : hdl) : Prop := in_doubt (lib h) !! key = Some ws.
Definition calming {A} (m : M hdl A) : Prop := spec calm m (fun _ => calm) still.

(** A transaction the code holds in a variable. *)
Definition calm_with (t : txn) (h : hdl) : Prop := calm h /\ free_txn t (lib h).

Lemma calming_ret {A} (a : A) : calming (ret a).
Proof. by apply spec_ret. Qed.
Lemma calming_gets {A} (f : hdl -> A) : calming (gets f).
Proof. by apply spec_gets. Qed.
Lemma calming_bind {A B} (m : M hdl A) (k : A -> M hdl B) : calming m -> (forall a, calming (k a)) -> calming (bind m k).
Proof. intros Hm Hk. eapply spec_bind; [apply Hm|]. intros a. apply Hk. Qed.
Lemma calming_for_each {A R'} (l : list A) (body : A -> M hdl (option R')) :
  (forall x, calming (body x)) -> calming (for_each l body).
Proof.
  intros Hb. apply (spec_for_each calm); [|done]. intros x _.
  apply (spec_weaken _ calm _ _ (fun _ => calm) _ still); [apply Hb|done| |done]. by intros [r|] s.
Qed.

Lemma calming_modify (f : hdl -> hdl) :
  (forall h, lib (f h) = lib h) -> (forall h, cached_trx_ (f h) = cached_trx_ h) -> calming (modify f).
Proof. intros Hl Hc. apply spec_modify. intros h. unfold calm. by rewrite Hl, Hc. Qed.

Lemma calming_map_trx (f : trx_t -> trx_t) : (forall x, trx_txn (f x) = trx_txn x) -> calming (modify (map_trx f)).
Proof.
  intros Hf. apply spec_modify. intros h [Hk Ho]. split; [done|]. simpl. intros x t.
  destruct (cached_trx_ h) as [y|] eqn:Hy; [|done]. simpl. intros [= <-]. rewrite Hf. by apply Ho.
Qed.

Lemma calm_lib {A} t (m : M E A) : keeps doubt_of m -> spec (calm_with t) (on_lib m) (fun _ => calm_with t) still.
Proof.
  intros Hm. apply spec_lift. intros h [[Hk Ho] Ht] e ->.
  pose proof (kept_lib m (fun P => own_free (cached_trx_ h) P /\ P t = None) Hm (lib h) (conj Hk (conj Ho Ht))) as H.
  destruct (m (lib h)) as [e' [a|]]; [|done]. by destruct H as (? & ? & ?).
Qed.

Lemma calming_lib {A} (m : M E A) : keeps doubt_of m -> calming (on_lib m).
Proof.
  intros Hm. apply spec_lift. intros h [Hk Ho] e ->. pose proof (kept_lib m (own_free (cached_trx_ h)) Hm (lib h) (conj Hk Ho)) as H.
  by destruct (m (lib h)) as [e' [a|]].
Qed.

(** The transaction is let go of, and another one taken. *)
Lemma calming_drop : calming (modify (map_trx (set_trx_txn None))).
Proof.
  apply spec_modify. intros h [Hk _]. split; [done|]. simpl. intros x t. by destruct (cached_trx_ h); [intros [= <-]|].
Qed.

Lemma calm_begin :
  spec calm (on_lib txn_begin) (fun r h => match r with inl _ => calm h | inr t => calm_with t h end) still.
Proof.
  apply spec_lift. intros h [Hk Ho] e ->.
  pose proof (kept_begin txn_begin (own_free (cached_trx_ h)) begin_keeps_doubt (lib h) (conj Hk Ho)) as H.
  destruct (txn_begin (lib h)) as [e' [[rc|t]|]]; [by destruct H|done|done].
Qed.

Lemma calm_batch_end t d (code : ha_code) :
  spec (calm_with t) (modify (map_trx (after_batch (Some t) d true));; modify (set_scan (Some t));; ret code)%eff (fun _ => calm) still.
Proof.
  eapply (spec_bind _ _ (fun _ => calm)).
  - apply spec_modify. intros h [[Hk _] Ht]. split; [done|]. simpl. intros x t'. destruct (cached_trx_ h); [|done]. by intros [= <-] [= <-].
  - intros []. apply calming_bind; [by apply calming_modify|]. intros []. apply calming_ret.
Qed.

Lemma meta_doubt t m : keeps doubt_of (fts_update_meta t m).
Proof.
  unfold fts_update_meta, fts_load_meta. apply keeps_bind.
  - apply keeps_bind; [apply get_keeps_doubt|]. intros r. apply keeps_ret.
  - intros [rrc [docs words]]. case_match; [apply keeps_ret|apply put_keeps_doubt].
Qed.

Lemma count_doubt t c lo hi : keeps doubt_of (count_live_data_keys t c lo hi).
Proof. unfold count_live_data_keys. apply keeps_bind; [apply range_keeps_doubt|]. intros r. apply keeps_ret. Qed.

Lemma if_doubt {A} (b : bool) (m m' : M E A) : keeps doubt_of m -> keeps doubt_of m' -> keeps doubt_of (if b then m else m').
Proof. by destruct b. Qed.

End Doubt.

#[export] Hint Resolve if_doubt meta_doubt count_doubt serialize_doubt fk_child_doubt fk_delete_doubt fk_update_doubt open_doubt
  auto_increment_doubt get_keeps_doubt put_keeps_doubt delete_keeps_doubt single_delete_keeps_doubt delete_range_keeps_doubt
  contains_keeps_doubt seek_keeps_doubt range_keeps_doubt : doubt.

(** One step along the code, or the end of it. *)
Ltac doubt_step :=
  lazymatch goal with
  | |- forall _, _ => intros
  | |- calming _ _ _ (ret _) => apply calming_ret
  | |- calming _ _ _ (gets _) => apply calming_gets
  | |- calming _ _ _ (bind _ _) => apply calming_bind
  | |- calming _ _ _ (on_lib _) => apply calming_lib
  | |- calming _ _ _ (for_each _ _) => apply calming_for_each
  | |- calming _ _ _ (modify (map_trx _)) => by apply calming_map_trx
  | |- calming _ _ _ (modify _) => by apply calming_modify
  | |- calming _ _ _ (match ?x with _ => _ end) => destruct x
  | |- calming _ _ _ (let '(_, _) := ?x in _) => destruct x
  | |- keeps _ _ => solve [eauto with doubt]
  end.
Ltac doubt := repeat (first [solve [eauto with doubt nocore] | doubt_step]).

Section Rows.
Context {E txn : Type} `{!TidesDb E txn, !RowDb E txn, !SavepointDb E txn, !FamilyDb E txn, !XaDb E txn, !RowServices E txn, !ServicesDoubt E txn}.
Context {SF : ServerField} {CS : FtsText.charset} (sh : share) (ses : session) (junk : memory).
Context (R : gmap bytes txn) (key : bytes) (ws : list write).

#[local] Abbreviation hdl := (handler E txn).
#[local] Abbreviation calms m := (calming R key ws m).

(** The flush changes neither the transactions in doubt nor which transaction the handler has. *)
Definition txn_and_doubt (h : hdl) : option txn * (gmap bytes (list write) * (txn -> option bytes)) :=
  (cached_trx_ h ≫= trx_txn, (in_doubt (lib h), prepared_as (lib h))).

Lemma flush_meta_keeps : keeps txn_and_doubt flush_trx_fts_meta_pending.
Proof.
  assert (forall t m, keeps txn_and_doubt (on_lib (fts_update_meta t m))) as Hlib.
  { intros t m b h <-. unfold on_lib, lift. pose proof (meta_doubt t m _ (lib h) eq_refl) as H.
    unfold txn_and_doubt. destruct (fts_update_meta t m (lib h)) as [e [a|]]; simpl; by rewrite H. }
  assert (forall A (a : A), keeps txn_and_doubt (clear_meta;; ret a)%eff) as Hend.
  { intros A a. apply keeps_bind; [|intros ?; apply keeps_ret]. intros b. apply spec_modify. intros h. unfold txn_and_doubt. simpl. by destruct (cached_trx_ h). }
  unfold flush_trx_fts_meta_pending. apply keeps_bind; [apply keeps_gets|]. intros [x|]; [|apply keeps_ret].
  destruct (trx_txn x) as [t|]; [|done]. destruct (fts_meta_pending x) as [|m l]; [done|]. destruct (fts_meta_dirty x); [|done].
  apply keeps_bind; [|intros r; apply Hend]. apply keeps_for_each. intros m'. apply keeps_bind; [apply Hlib|]. intros rc. apply keeps_ret.
Qed.

(** The batch boundary ends the statement's own transaction, which is not prepared, and takes another. *)
Lemma maybe_bulk_commit_calms : calms (maybe_bulk_commit (E := E) (txn := txn)).
Proof.
  unfold maybe_bulk_commit. apply spec_at. intros h0 H0.
  apply (spec_bind _ _ (fun r h => r = cached_trx_ h0 /\ h = h0)); [apply spec_gets; by intros h ->|].
  intros r. apply (spec_pure _ (r = cached_trx_ h0)); [by intros h [? _]|]. intros ->.
  destruct (cached_trx_ h0 ≫= trx_txn) as [t|] eqn:Ht; [|apply spec_ret; by intros h [_ ->]].
  assert (free_txn t (lib h0)) as Hf.
  { destruct H0 as [_ Ho]. destruct (cached_trx_ h0) as [x|] eqn:Hx; [|done]. by apply (Ho x). }
  eapply (spec_bind _ _ (fun _ => calm_with R key ws t)).
  { intros h [_ ->]. pose proof (flush_meta_keeps _ h0 eq_refl) as H. destruct H0 as [[Hown Hkey] _]. unfold calm_with, calm, kept, free_txn, still in *.
    destruct (flush_trx_fts_meta_pending h0) as [h [rc|]]; injection H as Htx HD HP; rewrite ?HD, ?HP; [|done].
    split_and!; [done..| |done]. intros x t' Hx Ht'. rewrite Hx, Ht in Htx. simpl in Htx. congruence. }
  intros frc. destruct (negb (tdb_ok frc)); [apply spec_ret; by intros h [? _]|].
  eapply spec_bind; [apply calm_lib, commit_keeps_doubt|]. intros crc. destruct (negb (tdb_ok crc)).
  - eapply spec_bind; [apply calm_lib, rollback_keeps_doubt|]. intros ?.
    eapply (spec_bind _ _ (fun _ => calm R key ws)); [eapply spec_pre; [apply calming_drop|by intros h [? _]]|]. intros ?.
    eapply spec_bind; [apply calm_begin|]. intros [brc|t']; [by apply spec_ret|].
    apply spec_bind_gets_any. intros d. apply calm_batch_end.
  - eapply (spec_bind _ _ (fun _ => calm_with R key ws t)).
    { apply spec_lift. intros h [[Hk Ho] Hft] e ->.
      pose proof (kept_same R key ws (txn_reset t) (own_free (cached_trx_ h)) t (fun D P => row_reset_keeps_doubt D P t) (lib h) (conj (conj Hk Ho) Hft)) as H.
      destruct (txn_reset t (lib h)) as [e' [a|]]; [|done]. by destruct H as [[? ?] ?]. }
    intros rrc. eapply (spec_bind _ _ (fun (r : tdb_rc + txn) h => match r with inl _ => calm R key ws h | inr t' => calm_with R key ws t' h end)).
    + destruct (tdb_ok rrc); [by apply spec_ret|].
      eapply (spec_bind _ _ (fun _ => calm R key ws)); [eapply spec_pre; [apply calming_drop|by intros h [? _]]|].
      intros ?. apply calm_begin.
    + intros [rc|t']; [by apply spec_ret|apply calm_batch_end].
Qed.
#[local] Hint Resolve maybe_bulk_commit_calms : doubt.

Lemma bulk_flush_calms n : calms (bulk_flush_if_threshold (E := E) (txn := txn) n).
Proof. unfold bulk_flush_if_threshold, map_bulk. doubt. Qed.
Lemma mark_dirty_calms : calms (mark_dirty (E := E) (txn := txn) sh).
Proof. unfold mark_dirty, note_modified_table. doubt. Qed.
Lemma ensure_calms : calms (Dml.ensure_stmt_txn (E := E) (txn := txn)).
Proof. unfold Dml.ensure_stmt_txn. doubt. Qed.
Lemma probe_calms dk : calms (probe_pk_exists (E := E) (txn := txn) sh dk).
Proof. unfold probe_pk_exists. doubt. Qed.
Lemma dup_calms i ref : calms (dup (E := E) (txn := txn) i ref).
Proof. unfold dup. doubt. Qed.
#[local] Hint Resolve bulk_flush_calms mark_dirty_calms ensure_calms probe_calms dup_calms : doubt.

Lemma dup_on_index_calms i suffix : calms (dup_on_index (E := E) (txn := txn) sh i suffix).
Proof. unfold dup_on_index. doubt. Qed.
Lemma find_duplicate_calms t c p : calms (find_duplicate (E := E) (txn := txn) t c p).
Proof. unfold find_duplicate. doubt. Qed.
Lemma delete_cf_calms t c k b : calms (tdb_txn_delete_cf_blocking (E := E) (txn := txn) t c k b).
Proof. unfold tdb_txn_delete_cf_blocking. doubt. Qed.
#[local] Hint Resolve dup_on_index_calms find_duplicate_calms delete_cf_calms : doubt.

Lemma flush_buffered_calms t : calms (bulk_delete_flush_buffered (E := E) (txn := txn) sh ses t).
Proof. unfold bulk_delete_flush_buffered. doubt. Qed.
#[local] Hint Resolve flush_buffered_calms : doubt.

(** ** The operations *)

Lemma write_row_calms r in0 : calms (write_row (E := E) (txn := txn) sh ses junk r in0).
Proof.
  unfold write_row, write_row_auto_increment, write_build_pk, write_row_body, write_check_pk_unique,
    write_check_secondary_unique, write_maintain_indexes, write_fts_index, puts, put, trx_fts_meta_accumulate. doubt.
Qed.

Lemma delete_row_calms r : calms (delete_row (E := E) (txn := txn) sh ses junk r).
Proof. unfold delete_row, delete_maintain_indexes, delete_primary, map_bulk, unchecked_deletes, trx_fts_meta_accumulate. doubt. Qed.

Lemma end_bulk_delete_calms : calms (end_bulk_delete (E := E) (txn := txn) sh ses).
Proof. unfold end_bulk_delete, try_range_tombstone, map_bulk. doubt. Qed.

Lemma update_row_calms old new : calms (update_row (E := E) (txn := txn) sh ses junk old new).
Proof.
  unfold update_row, update_row_body, update_check_unique, update_maintain_indexes, update_rewrite_primary, update_fts_index,
    update_fts_index_diff, update_spatial_index, update_regular_index, puts, put, unchecked_deletes, trx_fts_meta_accumulate. doubt.
Qed.

Lemma run_ops_calms l : calms (run_ops (E := E) (txn := txn) sh ses junk l).
Proof.
  induction l as [|o l IH]; [apply calming_ret|]. apply calming_bind; [|by intros _].
  destruct o; simpl; [apply write_row_calms|apply update_row_calms|apply delete_row_calms| | | |apply end_bulk_delete_calms|];
    unfold map_bulk; doubt.
Qed.

End Rows.
End TxnDoubt.
