(* ===== verification/XaReach.v ===== *)
(** * Runs of the server

    The engine's transaction callbacks, its row operations, crashes and restarts as a step relation on the shared
    state (the registry of prepared transactions and the library), and what every run keeps of a batch in doubt.
    A step is one call on one connection: [ready] is what the server guarantees of the connection it calls on,
    and [resolves] says which calls are a decision on a batch. *)
From S2P Require Import Prelude Effects TidesDb RowDb TxnDb RowFormat FtsText Table KeyCodec Dml XaCodec Txn Xa TxnUndo TxnSpec XaSpec XaRecover TxnDoubt.
Import Table KeyCodec Dml XaCodec Txn Xa TxnSpec XaSpec XaRecover TxnDoubt.
#[local] Open Scope Z_scope.
#[local] Open Scope tdb_scope.

Module XaReach.

(** What the server calls. *)
Inductive server_call :=
  | Call_prepare (thd : THD) (all : bool)
  | Call_commit_by_xid (xid : XID)
  | Call_rollback_by_xid (xid : XID)
  | Call_recover (len : nat)
  | Call_mark (thd : THD)
  | Call_mark_by_xid (xid : XID)
  | Call_list_tc
  | Call_commit (thd : THD) (all : bool)
  | Call_rollback (thd : THD) (all : bool)
  | Call_savepoint_set (name : bytes)
  | Call_savepoint_rollback (name : bytes)
  | Call_savepoint_release (name : bytes)
  | Call_close
  | Call_snapshot (thd : THD)
  | Call_lock (iso : option tidesdb_isolation_level_t) (thd : THD) (unlock : bool)
  | Call_ensure (iso : option tidesdb_isolation_level_t) (thd : THD)
  | Call_ddl (thd : THD)
  | Call_rows (sh : share) (ses : session) (junk : memory) (l : list row_op).

Section Reach.
Context {E txn : Type} `{!TidesDb E txn, !RowDb E txn, !SavepointDb E txn, !FamilyDb E txn, !XaDb E txn, !RowServices E txn, !ServicesDoubt E txn}.
Context {SF : ServerField} {CS : FtsText.charset}.
Local Open Scope eff_scope.

#[local] Abbreviation cn := (conn E txn).
#[local] Abbreviation trx_t := (tidesdb_trx_t txn).

Definition run_call (call : server_call) : M cn unit :=
  match call with
  | Call_prepare thd all => tidesdb_prepare thd all;; ret tt
  | Call_commit_by_xid xid => tidesdb_commit_by_xid xid;; ret tt
  | Call_rollback_by_xid xid => tidesdb_rollback_by_xid xid;; ret tt
  | Call_recover len => tidesdb_recover len;; ret tt
  | Call_mark thd => tidesdb_set_prepared_in_tc thd;; ret tt
  | Call_mark_by_xid xid => tidesdb_set_prepared_in_tc_by_xid xid;; ret tt
  | Call_list_tc => tidesdb_recover_prepared_in_tc;; ret tt
  | Call_commit thd all => tidesdb_commit thd all;; ret tt
  | Call_rollback thd all => tidesdb_rollback thd all;; ret tt
  | Call_savepoint_set name => tidesdb_savepoint_set name;; ret tt
  | Call_savepoint_rollback name => tidesdb_savepoint_rollback name;; ret tt
  | Call_savepoint_release name => tidesdb_savepoint_release name;; ret tt
  | Call_close => tidesdb_close_connection;; ret tt
  | Call_snapshot thd => tidesdb_start_consistent_snapshot thd;; ret tt
  | Call_lock iso thd unlock => external_lock iso thd unlock;; ret tt
  | Call_ensure iso thd => Txn.ensure_stmt_txn iso thd;; ret tt
  | Call_ddl thd => tdb_stmt_txn_for_ddl thd;; ret tt
  | Call_rows sh ses junk l => on_handler (run_ops sh ses junk l);; ret tt
  end.

(** A decision on the batch under [key]: the resolvers that name it, and COMMIT or ROLLBACK on the connection
    whose own transaction is prepared under it, as in the server's internal two-phase commit. *)
Definition resolves (key : bytes) (call : server_call) (c : cn) : Prop :=
  match call with
  | Call_commit_by_xid xid | Call_rollback_by_xid xid => tdb_xid_key xid = key
  | Call_commit _ _ | Call_rollback _ _ => (conn_txn c ≫= prepared_as (db c)) = Some key
  | _ => False
  end.

(** The connection's own transaction is not prepared. *)
Definition unprepared (c : cn) : Prop := forall t, conn_txn c = Some t -> prepared_as (db c) t = None.

(** If it is prepared, by the internal two-phase commit, its batch is in doubt and the registry has no entry
    for it: only XA PREPARE makes one, and lets the connection's transaction go. *)
Definition own_phase (c : cn) : Prop :=
  forall t k, conn_txn c = Some t -> prepared_as (db c) t = Some k ->
    is_Some (in_doubt (db c) !! k) /\ prepared_txns (glob c) !! k = None.

(** When the server makes a call: a prepare has an XID that is not in use, work is done in a transaction that is
    not prepared, and a connection that ends has at most its own internal two-phase commit under way. *)
Definition ready (call : server_call) (c : cn) : Prop :=
  match call with
  | Call_prepare thd _ => in_doubt (db c) !! tdb_xid_key (thd_xid thd) = None /\ unprepared c
  | Call_commit_by_xid _ | Call_rollback_by_xid _ | Call_recover _ | Call_mark _ | Call_mark_by_xid _ | Call_list_tc => True
  | Call_commit _ _ | Call_rollback _ _ | Call_close => own_phase c
  | _ => unprepared c
  end.

(** What a restart keeps of the library. *)
Definition restarted (e e' : E) : Prop := committed e' = committed e /\ in_doubt e' = in_doubt e.

(** One step of the server that does not decide on [key]: a call that returns, a call cut short by a crash with
    the restart after it, a restart. *)
Inductive xa_step (key : bytes) : globals txn * E -> globals txn * E -> Prop :=
  | step_call call c c' u :
      ~ resolves key call c -> ready call c -> run_call call c = (c', Ret u) -> xa_step key (glob c, db c) (glob c', db c')
  | step_crash call c c' e :
      ~ resolves key call c -> ready call c -> run_call call c = (c', Crash) -> restarted (db c') e ->
      xa_step key (glob c, db c) (started, e)
  | step_restart g e e' : restarted e e' -> xa_step key (g, e) (started, e').

Definition sound (s : globals txn * E) : Prop := owned (prepared_txns s.1) (in_doubt s.2) (prepared_as s.2).

(** The connection's view of the same. *)
Definition safe (key : bytes) (ws : list write) (c : cn) : Prop :=
  sound (glob c, db c) /\ in_doubt (db c) !! key = Some ws.
Definition left_in_doubt (key : bytes) (ws : list write) (c : cn) : Prop := in_doubt (db c) !! key = Some ws.

Lemma decide_safe key ws act f xid :
  decides act f -> tdb_xid_key xid <> key ->
  spec (safe key ws) (decide_by_xid act xid) (fun _ => safe key ws) (left_in_doubt key ws).
Proof.
  intros Hact Hne. apply spec_at. intros c0 [Ho Hk]. destruct (prepared_txns (glob c0) !! tdb_xid_key xid) as [t|] eqn:Ht.
  - destruct (Ho _ _ Ht) as [_ [ws' Hws']].
    eapply spec_weaken; [by apply (decide_spec act f xid t (committed (db c0)) ws' (in_doubt (db c0)) (prepared_txns (glob c0))
      (prepared_as (db c0)) Hact)|by intros c ->| |].
    + intros [] c Hc; destruct Hc as (_ & HD & HR & Ho'); unfold safe, sound; simpl; rewrite HR; (split; [done|]); rewrite HD;
        [by rewrite lookup_delete_ne|done].
    + intros c [[_ HD]|[_ HD]]; unfold left_in_doubt; rewrite HD; [done|by rewrite lookup_delete_ne].
  - intros c ->. unfold decide_by_xid, bind, gets. by rewrite Ht.
Qed.

(** Library calls on the reserved family; [t] is a transaction opened for the purpose, which the registry
    does not hold. *)
Definition safe_with (key : bytes) (ws : list write) (t : txn) (c : cn) : Prop :=
  safe key ws c /\ unheld (in_reg (prepared_txns (glob c))) t.

Lemma on_db_tc {A} key ws c0 (m : M E A) (Q : A -> E -> Prop) (Q' : A -> cn -> Prop) :
  safe key ws c0 ->
  (let P := in_reg (prepared_txns (glob c0)) in
   spec (tc_inv (committed (db c0)) (in_doubt (db c0)) P) m Q (tc_crash (committed (db c0)) (in_doubt (db c0)))) ->
  (forall a c, glob c = glob c0 -> Q a (db c) -> Q' a c) ->
  spec (fun c => c = c0) (on_db m) Q' (left_in_doubt key ws).
Proof.
  intros [Ho Hk] Hm HQ. eapply spec_weaken; [apply (on_db_glob (glob c0) _ _ _ _ Hm)| | |].
  - intros c ->. split; [done|]. split; [apply but_tc_refl|split; [done|]]. by apply owned_holds.
  - intros a c [Hg Hc]. by apply HQ.
  - intros c [_ HD]. unfold left_in_doubt. by rewrite HD.
Qed.

Lemma tc_inv_safe key ws c0 c :
  safe key ws c0 -> glob c = glob c0 ->
  tc_inv (committed (db c0)) (in_doubt (db c0)) (in_reg (prepared_txns (glob c0))) (db c) -> safe key ws c.
Proof.
  intros [Ho Hk] Hg (_ & HD & Hh). unfold safe, sound. simpl. rewrite Hg, HD. split; [by eapply holds_owned|done].
Qed.

Lemma on_db_safe {A} key ws (m : M E A) :
  (forall d D P, spec (tc_inv d D P) m (fun _ => tc_inv d D P) (tc_crash d D)) ->
  spec (safe key ws) (on_db m) (fun _ => safe key ws) (left_in_doubt key ws).
Proof.
  intros Hm. apply spec_at. intros c0 H0. eapply on_db_tc; [done|apply Hm|]. intros a c Hg Hc. by eapply tc_inv_safe.
Qed.

Lemma on_db_safe_with {A} key ws t (m : M E A) :
  (forall d D P, unheld P t -> spec (tc_inv d D P) m (fun _ => tc_inv d D P) (tc_crash d D)) ->
  spec (safe_with key ws t) (on_db m) (fun _ => safe_with key ws t) (left_in_doubt key ws).
Proof.
  intros Hm. apply spec_at. intros c0 [H0 Hun]. eapply on_db_tc; [done|by apply Hm|]. intros a c Hg Hc.
  split; [by eapply tc_inv_safe|by rewrite Hg].
Qed.

Lemma begin_safe key ws :
  spec (safe key ws) (on_db txn_begin)
    (fun r c => match r with inl _ => safe key ws c | inr t => safe_with key ws t c end) (left_in_doubt key ws).
Proof.
  apply spec_at. intros c0 H0. eapply on_db_tc; [done|apply tc_begin_spec|]. intros [rc|t] c Hg Hc; [by eapply tc_inv_safe|].
  destruct Hc as (Hc & Hun & _). split; [by eapply tc_inv_safe|by rewrite Hg].
Qed.

Lemma modify_safe key ws (f : cn -> cn) C :
  (forall c, prepared_txns (glob (f c)) = prepared_txns (glob c)) -> (forall c, db (f c) = db c) ->
  spec (safe key ws) (modify f) (fun _ => safe key ws) C.
Proof. intros H1 H2. apply spec_modify. intros c. unfold safe, sound. simpl. by rewrite H1, H2. Qed.

Lemma gets_safe {A B} key ws (f : cn -> A) (k : A -> M cn B) :
  (forall a, spec (safe key ws) (k a) (fun _ => safe key ws) (left_in_doubt key ws)) ->
  spec (safe key ws) (bind (gets f) k) (fun _ => safe key ws) (left_in_doubt key ws).
Proof. apply spec_bind_gets_any. Qed.

Lemma bind_safe {A B} key ws (m : M cn A) (k : A -> M cn B) :
  spec (safe key ws) m (fun _ => safe key ws) (left_in_doubt key ws) ->
  (forall a, spec (safe key ws) (k a) (fun _ => safe key ws) (left_in_doubt key ws)) ->
  spec (safe key ws) (bind m k) (fun _ => safe key ws) (left_in_doubt key ws).
Proof. intros Hm Hk. by eapply spec_bind. Qed.

(** The load adds entries that are prepared under their keys. *)
Lemma load_safe key ws : spec (safe key ws) tdb_load_recovered_prepared (fun _ => safe key ws) (left_in_doubt key ws).
Proof.
  apply gets_safe. intros [|]; [by apply spec_ret|]. apply bind_safe; [by apply modify_safe|]. intros [].
  apply spec_at. intros c0 [Ho Hk]. set (d := committed (db c0)). set (D := in_doubt (db c0)) in *. set (P := prepared_as (db c0)).
  assert (forall c : cn, glob c = glob c0 -> in_doubt (db c) = D -> prepared_as (db c) = P -> safe key ws c) as Hsame.
  { intros c Hg HD HP. unfold safe, sound. simpl. by rewrite Hg, HD, HP. }
  eapply spec_bind.
  { eapply spec_weaken; [apply (on_db_glob (glob c0) _ _ _ _ (recover_count_law d D P))|by intros c ->|intros r c Hr; exact Hr|].
    intros c [_ HD]. unfold left_in_doubt. by rewrite HD. }
  intros [rc|n]; [apply spec_ret; intros c (Hg & (_ & ? & ?) & _); by apply Hsame|].
  apply (spec_pure _ (n = Z.of_nat (size D))); [by intros c (_ & _ & ?)|]. intros Hn.
  destruct (n <=? 0); [apply spec_ret; intros c (Hg & (_ & ? & ?) & _); by apply Hsame|].
  eapply spec_bind.
  { eapply spec_weaken; [apply (on_db_glob (glob c0) _ _ _ _ (recover_prepared_law d D P n (ltac:(lia))))|by intros c (? & ? & _)|
      intros r c Hr; exact Hr|]. intros c [_ HD]. unfold left_in_doubt. by rewrite HD. }
  intros [rc|l]; [apply spec_ret; intros c (Hg & _ & ? & _ & ?); by apply Hsame|].
  apply spec_modify. intros c (Hg & _ & HD & _ & Hdom & Hnew & Hold). split; [|simpl; unfold db in *; simpl; by rewrite HD].
  intros k t. simpl. unfold db in *. simpl. rewrite Hg, HD. intros [H|H]%registry_of_list.
  - split; [by apply Hnew|]. apply Hdom, list_elem_of_fmap. by exists (k, t).
  - destruct (Ho k t H) as [Hp ?]. split; [by apply Hold|done].
Qed.

Lemma walk_keeps l : keeps (fun c : cn => (prepared_txns (glob c), db c)) (tc_walk l).
Proof.
  induction l as [|[[rc|k] v] l IH]; simpl; [apply keeps_ret|done|].
  destruct (tdb_xid_from_key k) as [x|]; [|done]. apply keeps_bind; [intros b; by apply spec_modify|]. intros [].
  apply keeps_bind; [done|]. intros xs. apply keeps_ret.
Qed.

Lemma walk_safe key ws t l :
  spec (safe_with key ws t) (tc_walk l) (fun _ => safe_with key ws t) (left_in_doubt key ws).
Proof.
  intros c [[Ho Hk] Hun]. pose proof (walk_keeps l _ c eq_refl) as H. unfold safe_with, safe, sound, left_in_doubt in *. simpl in *.
  destruct (tc_walk l c) as [c' [xs|]]; injection H as HR HD; by rewrite HD, ?HR.
Qed.

(** The scan, the rollback and the free of the transaction that lists the reserved family. *)
Lemma tc_read_step {A} d D P (m : M E A) :
  keeps (fun e => (in_doubt e, prepared_as e)) m ->
  (forall d', spec (fun e => committed e = d') m (fun _ e => committed e = d') (fun e => committed e = d')) ->
  spec (tc_inv d D P) m (fun _ => tc_inv d D P) (tc_crash d D).
Proof.
  intros Hk Hm. eapply spec_weaken; [apply (tc_step d D P m (fun _ => True) Hk)|done|by intros a e [? _]|done].
  intros d'. eapply spec_weaken; [apply (Hm d')|done| |by intros e ->; apply but_tc_refl].
  intros a e ->. auto using but_tc_refl.
Qed.

Lemma list_tc_safe key ws : spec (safe key ws) tidesdb_recover_prepared_in_tc (fun _ => safe key ws) (left_in_doubt key ws).
Proof.
  apply bind_safe; [apply on_db_safe, tc_cf_spec|]. intros [|]; simpl; [|by apply spec_ret].
  eapply spec_bind; [apply begin_safe|]. intros [rc|t]; [by apply spec_ret|].
  assert (forall A (a : A), spec (safe_with key ws t) (on_db (txn_rollback t);; on_db (txn_free t);; ret a)
    (fun _ => safe key ws) (left_in_doubt key ws)) as Hend.
  { intros A a. eapply spec_bind; [apply on_db_safe_with; intros d D P _; apply tc_read_step; [apply rollback_keeps_doubt|intros d'; apply txn_rollback_law]|].
    intros ?. eapply spec_bind; [apply on_db_safe_with; intros d D P; apply tc_free_spec|]. intros ?. apply spec_ret. by intros c [? _]. }
  eapply spec_bind; [apply on_db_safe_with; intros d D P _; apply tc_read_step; [apply scan_keeps_doubt|]|].
  { intros d' e He. pose proof (scan_law _ _ t TDB_XA_TC_CF_NAME e (conj He eq_refl)) as H.
    destruct (scan t TDB_XA_TC_CF_NAME e) as [e' [r|]]; [by destruct H as [[? _] _]|done]. }
  intros [rc|l]; [apply Hend|]. eapply spec_bind; [apply walk_safe|]. intros xs. apply Hend.
Qed.

Lemma recover_safe key ws len : spec (safe key ws) (tidesdb_recover len) (fun _ => safe key ws) (left_in_doubt key ws).
Proof.
  unfold tidesdb_recover. destruct (Nat.eqb len 0); [by apply spec_ret|]. apply bind_safe; [apply load_safe|]. intros [].
  apply gets_safe. intros g. apply bind_safe; [by apply modify_safe|]. intros []. by apply spec_ret.
Qed.

(** ** Calls on the connection's own transaction *)

Section Own.
Context (key : bytes) (ws : list write).

(** What a call knows of the connection's transaction, the registry and the transactions in doubt. *)
#[local] Abbreviation fact := (option txn -> gmap bytes txn -> gmap bytes (list write) -> (txn -> option bytes) -> Prop).

Definition with_fact (F : fact) (c : cn) : Prop :=
  safe key ws c /\ F (conn_txn c) (prepared_txns (glob c)) (in_doubt (db c)) (prepared_as (db c)).
Definition walks (F : fact) {A} (m : M cn A) : Prop := spec (with_fact F) m (fun _ => with_fact F) (left_in_doubt key ws).

(** The transaction [t] and not prepared; [t] and, if prepared, under another key and unregistered; any, not prepared. *)
Definition is_free (t : txn) : fact := fun o _ _ P => o = Some t /\ P t = None.
Definition is_held (t : txn) : fact := fun o R D P =>
  o = Some t /\ forall k, P t = Some k -> k <> key /\ is_Some (D !! k) /\ R !! k = None.
Definition any_free : fact := fun o _ _ P => forall t, o = Some t -> P t = None.

Lemma free_held t o R D P : is_free t o R D P -> is_held t o R D P.
Proof. intros [? Ht]. split; [done|]. rewrite Ht. done. Qed.

(** The registry does not hold such a transaction. *)
Lemma held_unheld t c : with_fact (is_held t) c -> unheld (in_reg (prepared_txns (glob c))) t.
Proof. intros [[Ho _] [_ Ht]] k Hk. destruct (Ho k t Hk) as [Hp _]. destruct (Ht k Hp) as (_ & _ & Hn). unfold in_reg in Hk. simpl in *. congruence. Qed.

Lemma walks_ret {A} F (a : A) : walks F (ret a).
Proof. by apply spec_ret. Qed.
Lemma walks_gets {A} F (f : cn -> A) : walks F (gets f).
Proof. by apply spec_gets. Qed.
Lemma walks_bind {A B} F (m : M cn A) (k : A -> M cn B) : walks F m -> (forall a, walks F (k a)) -> walks F (bind m k).
Proof. intros Hm Hk. eapply spec_bind; [apply Hm|]. intros a. apply Hk. Qed.

Lemma walks_db {A} F (m : M E A) : keeps doubt_of m -> walks F (on_db m).
Proof.
  intros Hm. apply spec_lift. intros c [[Ho Hk] HF] e ->. specialize (Hm _ (db c) eq_refl). unfold with_fact, safe, sound, left_in_doubt, db in *.
  simpl in *. destruct (m (lib (hd c))) as [e' [a|]]; injection Hm as HD HP; simpl; by rewrite ?HD, ?HP.
Qed.

Lemma walks_modify F (f : cn -> cn) :
  (forall c, conn_txn (f c) = conn_txn c) -> (forall c, prepared_txns (glob (f c)) = prepared_txns (glob c)) ->
  (forall c, db (f c) = db c) -> walks F (modify f).
Proof. intros H1 H2 H3. apply spec_modify. intros c. unfold with_fact, safe, sound. simpl. by rewrite H1, H2, H3. Qed.

Lemma walks_upd F (f : trx_t -> trx_t) : (forall x, trx_txn (f x) = trx_txn x) -> walks F (upd f).
Proof. intros Hf. apply walks_modify; try done. intros c. unfold conn_txn. simpl. destruct (ha_data c); simpl; [apply Hf|done]. Qed.

Lemma safe_upd (f : trx_t -> trx_t) : spec (safe key ws) (upd f) (fun _ => safe key ws) (left_in_doubt key ws).
Proof. by apply spec_modify. Qed.

Lemma walks_flush F : walks F (with_trx flush_trx_fts_meta_pending).
Proof.
  apply spec_lift. intros c Hc h ->. pose proof (flush_meta_keeps _ (set_trx (ha_data c) (hd c)) eq_refl) as H.
  unfold with_fact, safe, sound, left_in_doubt, db, conn_txn, txn_and_doubt in *. simpl in *.
  destruct (flush_trx_fts_meta_pending _) as [h' [a|]]; injection H as Ht HD HP; simpl; rewrite ?Ht, ?HD, ?HP; [done|]. apply Hc.
Qed.

(** Taking an entry out of the registry loses nothing. *)
Lemma walks_drop F :
  (forall o R D P k, F o R D P -> F o (delete k R) D P) -> walks F tdb_drop_prepared_entry.
Proof.
  intros HF. apply walks_bind; [apply walks_gets|]. intros [x|]; [|apply walks_ret]. case_bool_decide; [apply walks_ret|].
  apply walks_bind; [|intros ?; by apply walks_upd]. apply spec_modify. intros c [[Ho Hk] Hc]. split; [|by apply HF].
  split; [|done]. intros k t. simpl. rewrite lookup_delete_Some. intros [_ Ht]. by apply Ho.
Qed.

Lemma held_delete t o R D P k : is_held t o R D P -> is_held t o (delete k R) D P.
Proof.
  intros [? Ht]. split; [done|]. intros k' Hk'. destruct (Ht k' Hk') as (? & ? & ?). split_and!; [done..|].
  apply lookup_delete_None. by right.
Qed.

Lemma safe_free t :
  spec (fun c => safe key ws c /\ unheld (in_reg (prepared_txns (glob c))) t) (on_db (txn_free t)) (fun _ => safe key ws) (left_in_doubt key ws).
Proof.
  apply spec_lift. intros c [[Ho Hk] Hu] e ->. pose proof (free_keeps_doubt _ _ t (db c) (conj eq_refl eq_refl)) as H.
  unfold safe, sound, left_in_doubt, db in *. simpl in *. destruct (txn_free t (lib (hd c))) as [e' [a|]]; simpl; [|by rewrite H].
  destruct H as [HD HP]. rewrite HD. split; [|done]. intros k t' Hk'. rewrite HP; [by apply Ho|]. intros ->. by destruct (Hu k).
Qed.

(** *** The end of the transaction *)

(** A decision on the connection's own transaction: one that is not prepared is committed or rolled back in the
    plain way, one that is prepared has another key. *)
Definition gone (t : txn) (c : cn) : Prop := safe key ws c /\ unheld (in_reg (prepared_txns (glob c))) t.

Lemma decided_own t (plain decide : txn -> M E tdb_rc) f :
  keeps doubt_of (plain t) -> decides decide f ->
  spec (with_fact (is_held t))
    (on_db (st <-- txn_state t; match st with TDB_TXN_STATE_PREPARED => decide t | TDB_TXN_STATE_ACTIVE => plain t end))
    (fun rc c => if tdb_ok rc then gone t c else with_fact (is_held t) c) (left_in_doubt key ws).
Proof.
  intros Hp Hd. apply spec_at. intros c0 Hc0. pose proof (held_unheld t c0 Hc0) as Hu. intros c ->. unfold on_db, lift, bind.
  pose proof (txn_state_law t (db c0) (db c0) eq_refl) as Hst. fold (db c0). destruct (txn_state t (db c0)) as [e1 [st|]].
  2: { subst e1. simpl. unfold left_in_doubt, db. simpl. apply Hc0. }
  destruct Hst as [-> ->]. destruct Hc0 as [[Ho Hk] [Htx Ht]]. destruct (prepared_as (db c0) t) as [k|] eqn:HP.
  - destruct (Ht k eq_refl) as (Hne & [ws' HD] & HR). specialize (Hd (committed (db c0)) ws' _ _ t k HP HD (db c0) (conj eq_refl (conj eq_refl eq_refl))).
    unfold with_fact, gone, safe, sound, left_in_doubt, db in *. simpl in *. destruct (decide t (lib (hd c0))) as [e2 [rc|]]; simpl.
    + unfold tdb_ok. case_bool_decide as Hrc.
      * subst rc. destruct Hd as (_ & HD' & HP'). rewrite HD'. split; [|done]. split; [|by rewrite lookup_delete_ne].
        intros k' t' Hk'. destruct (Ho k' t' Hk') as [Hp' Hd']. rewrite HP', lookup_delete_ne; [done| |]; congruence.
      * destruct rc; [done|..]; destruct Hd as (_ & -> & ->); (split; [done|]); (split; [done|]); by rewrite HP.
    + destruct Hd as [[_ ->]|[_ ->]]; [done|by rewrite lookup_delete_ne].
  - specialize (Hp _ (db c0) eq_refl). unfold with_fact, gone, safe, sound, left_in_doubt, db in *. simpl in *.
    destruct (plain t (lib (hd c0))) as [e2 [rc|]]; injection Hp as HD' HP'; simpl; rewrite ?HD', ?HP'; [|done].
    destruct (tdb_ok rc); [done|]. split; [done|]. split; [done|]. by rewrite HP.
Qed.

Lemma commit_own t :
  spec (with_fact (is_held t)) (on_db (tdb_txn_commit_stateful t))
    (fun rc c => if tdb_ok rc then gone t c else with_fact (is_held t) c) (left_in_doubt key ws).
Proof. apply (decided_own t txn_commit txn_commit_prepared _ (commit_keeps_doubt t) commit_decides). Qed.

Lemma rollback_own t : spec (with_fact (is_held t)) (on_db (tdb_txn_rollback_stateful t)) (fun _ => gone t) (left_in_doubt key ws).
Proof.
  eapply spec_weaken; [apply (decided_own t txn_rollback txn_rollback_prepared _ (rollback_keeps_doubt t) rollback_decides)|done| |done].
  intros rc c. cbv beta. destruct (tdb_ok rc); [by intros ?|]. intros Hc. split; [apply Hc|by apply held_unheld].
Qed.

(** The transaction is freed and the object told so. *)
Lemma teardown_safe {A} t (f : trx_t -> trx_t) (a : A) :
  spec (gone t) (on_db (txn_free t);; upd f;; ret a) (fun _ => safe key ws) (left_in_doubt key ws).
Proof.
  eapply spec_bind; [apply safe_free|]. intros ?. eapply spec_bind; [apply safe_upd|]. intros ?. by apply spec_ret.
Qed.

Lemma disarm_walks F t : walks F (stmt_savepoint_disarm t).
Proof.
  apply walks_bind; [apply walks_gets|]. intros [|]; [|apply walks_ret]. apply walks_bind; [apply walks_db, release_keeps_doubt|].
  intros ?. by apply walks_upd.
Qed.

Lemma finalize_safe t : spec (with_fact (is_held t)) (tdb_finalize_commit t) (fun _ => safe key ws) (left_in_doubt key ws).
Proof.
  unfold tdb_finalize_commit. eapply spec_bind; [apply disarm_walks|]. intros ?.
  eapply spec_bind; [apply walks_drop; apply held_delete|]. intros ?. eapply spec_bind; [apply walks_gets|]. intros [|].
  - eapply spec_bind; [apply walks_flush|]. intros frc. destruct (negb (tdb_ok frc)).
    + eapply spec_bind; [apply walks_db, rollback_keeps_doubt|]. intros ?. eapply spec_pre; [apply teardown_safe|].
      intros c Hc. split; [apply Hc|by apply held_unheld].
    + eapply spec_bind; [apply commit_own|]. intros rc. cbv beta. destruct (tdb_ok rc); simpl.
      * apply (spec_pre _ (safe key ws)); [|by intros c [? _]].
        do 2 (eapply spec_bind; [apply safe_upd|]; intros ?). by apply spec_ret.
      * eapply spec_bind; [apply rollback_own|]. intros ?. apply teardown_safe.
  - eapply spec_bind; [by apply walks_upd|]. intros ?. eapply spec_bind; [apply walks_db, rollback_keeps_doubt|]. intros ?.
    apply (spec_pre _ (safe key ws)); [|by intros c [? _]].
    do 2 (eapply spec_bind; [apply safe_upd|]; intros ?). by apply spec_ret.
Qed.

Lemma full_rollback_safe t : spec (with_fact (is_held t)) (full_rollback t) (fun _ => safe key ws) (left_in_doubt key ws).
Proof.
  unfold full_rollback. eapply spec_bind; [apply walks_gets|]. intros act. eapply (spec_bind _ _ (fun _ => with_fact (is_held t))).
  { destruct act; [|apply walks_ret]. apply walks_bind; [apply walks_db, release_keeps_doubt|]. intros ?. by apply walks_upd. }
  intros ?. eapply spec_bind; [apply walks_drop; apply held_delete|]. intros ?. eapply spec_bind; [by apply walks_upd|]. intros ?.
  eapply spec_bind; [apply rollback_own|]. intros ?. apply (spec_pre _ (safe key ws)); [|by intros c [? _]].
  eapply spec_bind; [apply safe_upd|]. intros ?. by apply spec_ret.
Qed.

(** Reading the connection's transaction. *)
Lemma bind_txn {B : Type} (Pre : cn -> Prop) (F : txn -> fact) (k : option txn -> M cn B) :
  (forall c, Pre c -> safe key ws c) -> (forall c t, Pre c -> conn_txn c = Some t -> with_fact (F t) c) ->
  spec (safe key ws) (k None) (fun _ => safe key ws) (left_in_doubt key ws) ->
  (forall t, spec (with_fact (F t)) (k (Some t)) (fun _ => safe key ws) (left_in_doubt key ws)) ->
  spec Pre (bind (gets conn_txn) k) (fun _ => safe key ws) (left_in_doubt key ws).
Proof.
  intros Hs HF Hn Ht c Hc. unfold bind, gets. destruct (conn_txn c) as [t|] eqn:Ec; [|by apply Hn, Hs].
  apply (Ht t). by apply HF.
Qed.

Lemma held_ready c t :
  safe key ws c /\ own_phase c /\ (conn_txn c ≫= prepared_as (db c)) <> Some key -> conn_txn c = Some t -> with_fact (is_held t) c.
Proof.
  intros (Hs & Ho & Hne) Ht. split; [done|]. split; [done|]. intros k Hk. rewrite Ht in Hne. simpl in Hne.
  destruct (Ho t k Ht Hk). split_and!; [congruence|done..].
Qed.

Lemma commit_safe thd all :
  spec (fun c => safe key ws c /\ own_phase c /\ (conn_txn c ≫= prepared_as (db c)) <> Some key) (tidesdb_commit thd all)
    (fun _ => safe key ws) (left_in_doubt key ws).
Proof.
  apply (bind_txn _ is_held); [by intros c [? _]|apply held_ready|by apply spec_ret|]. intros t.
  destruct (all || negb (multi thd)); [apply finalize_safe|].
  eapply spec_bind; [apply disarm_walks|]. intros ?. apply spec_ret. by intros c [? _].
Qed.

Lemma rollback_safe thd all :
  spec (fun c => safe key ws c /\ own_phase c /\ (conn_txn c ≫= prepared_as (db c)) <> Some key) (tidesdb_rollback thd all)
    (fun _ => safe key ws) (left_in_doubt key ws).
Proof.
  apply (bind_txn _ is_held); [by intros c [? _]|apply held_ready|by apply spec_ret|]. intros t.
  eapply (spec_bind _ _ (fun _ => with_fact (is_held t))).
  { destruct (all || negb (multi thd)); [apply walks_ret|]. apply walks_bind; [apply walks_gets|]. intros [|]; [|apply walks_ret]. simpl.
    apply walks_bind; [apply walks_db, rollback_to_keeps_doubt|]. intros rc. destruct (negb (tdb_ok rc)).
    - apply walks_bind; [by apply walks_upd|]. intros ?. apply walks_ret.
    - do 2 (apply walks_bind; [by apply walks_upd|]; intros ?). apply walks_ret. }
  intros [|]; [apply spec_ret; by intros c [? _]|apply full_rollback_safe].
Qed.

(** Closing a connection rolls nothing back that is prepared. *)
Lemma close_safe : spec (fun c => safe key ws c /\ own_phase c) tidesdb_close_connection (fun _ => safe key ws) (left_in_doubt key ws).
Proof.
  apply spec_at. intros c0 [Hs Ho]. assert (forall t, conn_txn c0 = Some t -> unheld (in_reg (prepared_txns (glob c0))) t) as Hu.
  { intros t Ht k Hk. destruct Hs as [Hs _]. destruct (Hs k t Hk) as [Hp _]. destruct (Ho t k Ht Hp). unfold in_reg in Hk. congruence. }
  unfold tidesdb_close_connection. apply (spec_bind _ _ (fun r c => r = ha_data c0 /\ c = c0)); [apply spec_gets; by intros c ->|].
  intros r. apply (spec_pure _ (r = ha_data c0)); [by intros c [? _]|]. intros ->. unfold conn_txn in Hu.
  destruct (ha_data c0) as [x|]; [|apply spec_ret; by intros c [_ ->]]. simpl in Hu.
  eapply (spec_bind _ _ (fun _ => safe key ws)).
  { case_bool_decide; simpl; [|apply spec_ret; by intros c [_ ->]]. destruct (trx_txn x) as [t|]; [|apply spec_ret; by intros c [_ ->]].
    eapply (spec_bind _ _ (fun _ c => safe key ws c /\ unheld (in_reg (prepared_txns (glob c))) t)); [|intros ?; apply safe_free].
    eapply spec_weaken; [apply (walks_db (fun _ R _ _ => unheld (in_reg R) t) _ (rollback_keeps_doubt t))| |done|done].
    intros c [_ ->]. split; [done|by apply Hu]. }
  intros ?. eapply spec_bind; [by apply modify_safe|]. intros ?. by apply spec_ret.
Qed.

(** *** Work in the transaction *)

Lemma begin_free iso :
  spec (with_fact any_free) (on_db (txn_begin_with_isolation iso))
    (fun r c => with_fact any_free c /\ match r with inr t => prepared_as (db c) t = None | inl _ => True end) (left_in_doubt key ws).
Proof.
  apply spec_lift. intros c [[Ho Hk] HF] e ->. pose proof (begin_with_isolation_keeps_doubt _ _ iso (db c) (conj eq_refl eq_refl)) as H.
  unfold with_fact, safe, sound, left_in_doubt, db in *. simpl in *.
  destruct (txn_begin_with_isolation iso (lib (hd c))) as [e' [r|]]; simpl; [|by rewrite H].
  destruct H as (HD & HP & Hr). rewrite HD, HP. split; [done|]. by destruct r.
Qed.

(** The object takes a transaction that is not prepared. *)
Lemma take_free {A} t (f : trx_t -> trx_t) (a : A) :
  (forall x, trx_txn (f x) = Some t) ->
  spec (fun c => safe key ws c /\ prepared_as (db c) t = None) (upd f;; ret a) (fun _ => with_fact any_free) (left_in_doubt key ws).
Proof.
  intros Hf. eapply (spec_bind _ _ (fun _ => with_fact any_free)); [|intros ?; apply walks_ret].
  apply spec_modify. intros c [Hs Ht]. split; [done|]. intros t'. unfold conn_txn. simpl. destruct (ha_data c) as [x|]; [|done].
  simpl. rewrite Hf. by intros [= <-].
Qed.

Lemma get_or_create_free iso : walks any_free (get_or_create_trx iso).
Proof.
  unfold get_or_create_trx. apply spec_at. intros c0 H0.
  apply (spec_bind _ _ (fun r c => r = ha_data c0 /\ c = c0)); [apply spec_gets; by intros c ->|].
  intros r. apply (spec_pure _ (r = ha_data c0)); [by intros c [? _]|]. intros ->.
  destruct (ha_data c0) as [x|] eqn:Hx; [destruct (trx_txn x) as [t|] eqn:Ht|].
  - destruct (needs_reset x); [|apply spec_ret; by intros c [_ ->]].
    assert (with_fact (is_free t) c0) as Hf.
    { destruct H0 as [? H0]. split; [done|]. unfold conn_txn in *. rewrite Hx in *. split; [done|by apply H0]. }
    eapply (spec_bind _ _ (fun _ => with_fact (is_free t))).
    { apply spec_lift. intros c [_ ->] e ->. destruct Hf as [[Ho Hk] [Hc Hp]]. pose proof (reset_keeps_doubt _ _ t iso Hp (db c0) (conj eq_refl eq_refl)) as H.
      unfold with_fact, safe, sound, left_in_doubt, is_free, conn_txn, db in *. simpl in *.
      destruct (txn_reset_with t iso (lib (hd c0))) as [e' [rc|]]; simpl; [|by rewrite H]. destruct H as [HD HP]. by rewrite HD, HP. }
    intros rrc. eapply (spec_bind _ _ (fun r c => with_fact any_free c /\ match r with inr t => prepared_as (db c) t = None | inl _ => True end)).
    + destruct (tdb_ok rrc).
      * apply spec_ret. intros c [Hs [Hc Hp]]. split; [|done]. split; [done|]. intros t'. rewrite Hc. by intros [= <-].
      * eapply (spec_bind _ _ (fun _ => safe key ws)).
        { eapply spec_pre; [apply safe_free|]. intros c Hc. split; [apply Hc|apply held_unheld]. destruct Hc as [? Hc]. split; [done|by apply free_held]. }
        intros ?. eapply (spec_bind _ _ (fun _ => with_fact any_free)); [|intros ?; apply begin_free].
        apply spec_modify. intros c Hs. split; [done|]. intros t'. unfold conn_txn. simpl. by destruct (ha_data c).
    + intros [rc|t']; [apply spec_ret; by intros c [? _]|]. eapply spec_pre; [by apply (take_free t')|]. by intros c [[? _] ?].
  - eapply spec_bind; [eapply spec_pre; [apply begin_free|by intros c [_ ->]]|]. intros [rc|t']; [apply spec_ret; by intros c [? _]|].
    eapply spec_pre; [by apply (take_free t')|]. by intros c [[? _] ?].
  - eapply spec_bind; [eapply spec_pre; [apply begin_free|by intros c [_ ->]]|]. intros [rc|t']; [apply spec_ret; by intros c [? _]|].
    eapply (spec_bind _ _ (fun _ => with_fact any_free)); [|intros ?; apply walks_ret].
    apply spec_modify. intros c [[Hs _] Hp]. split; [done|]. intros t''. unfold conn_txn. simpl. by intros [= <-].
Qed.

Lemma lock_walks iso thd unlock : walks any_free (external_lock iso thd unlock).
Proof.
  unfold external_lock. destruct unlock; simpl.
  { apply walks_bind; [|intros ?; apply walks_ret]. apply walks_modify; try done. intros c. unfold db. simpl. by destruct (_ || _). }
  unfold external_lock_acquire. apply walks_bind; [by apply walks_modify|]. intros ?.
  apply walks_bind; [apply get_or_create_free|]. intros [|]; simpl; [|apply walks_ret].
  do 3 (apply walks_bind; [by apply walks_modify|]; intros ?).
  apply walks_bind; [destruct (negb (negb (multi thd))); [by apply walks_modify|apply walks_ret]|]. intros ?.
  apply walks_bind; [apply walks_gets|]. intros o. apply walks_bind; [apply walks_gets|]. intros act.
  destruct o as [t|]; [|apply walks_ret]. apply walks_bind; [|intros ?; apply walks_ret].
  destruct (_ && _); [|apply walks_ret]. unfold stmt_savepoint_arm. apply walks_bind; [apply walks_db, release_keeps_doubt|]. intros ?.
  apply walks_bind; [apply walks_db, savepoint_keeps_doubt|]. intros rc. destruct (tdb_ok rc); [by apply walks_upd|apply walks_ret].
Qed.

Lemma work_walks call :
  match call with
  | Call_savepoint_set _ | Call_savepoint_rollback _ | Call_savepoint_release _ | Call_snapshot _ | Call_lock _ _ _ | Call_ensure _ _ | Call_ddl _ =>
      walks any_free (run_call call)
  | _ => True
  end.
Proof.
  assert (forall A (m : M cn A), walks any_free m -> walks any_free (m;; ret tt)) as Hrun.
  { intros A m Hm. apply walks_bind; [done|]. intros ?. apply walks_ret. }
  destruct call; try exact I; simpl; apply Hrun.
  - apply walks_bind; [apply walks_gets|]. intros [t|]; [|apply walks_ret].
    apply walks_bind; [apply walks_db, savepoint_keeps_doubt|]. intros rc. apply walks_ret.
  - apply walks_bind; [apply walks_gets|]. intros [t|]; [|apply walks_ret].
    apply walks_bind; [apply walks_db, rollback_to_keeps_doubt|]. intros [| | |]; try apply walks_ret.
    apply walks_bind; [apply walks_db, savepoint_keeps_doubt|]. intros rc. apply walks_ret.
  - apply walks_bind; [apply walks_gets|]. intros [t|]; [|apply walks_ret].
    apply walks_bind; [apply walks_db, release_keeps_doubt|]. intros [| | |]; apply walks_ret.
  - apply walks_bind; [apply get_or_create_free|]. intros [|]; simpl; [|apply walks_ret].
    do 2 (apply walks_bind; [by apply walks_modify|]; intros ?). apply walks_ret.
  - apply lock_walks.
  - unfold Txn.ensure_stmt_txn. apply walks_bind; [apply walks_gets|]. intros [t|]; [apply walks_ret|].
    apply walks_bind; [apply walks_gets|]. intros shp. apply walks_bind; [apply get_or_create_free|]. intros [|]; simpl; [|apply walks_ret].
    apply walks_bind; [by apply walks_modify|]. intros ?. apply walks_ret.
  - unfold tdb_stmt_txn_for_ddl. apply walks_bind; [apply get_or_create_free|]. intros ok. apply walks_bind; [apply walks_gets|].
    intros [t|]; destruct ok; try apply walks_ret. do 2 (apply walks_bind; [by apply walks_modify|]; intros ?).
    apply walks_bind; [by apply walks_upd|]. intros ?. apply walks_ret.
Qed.

(** The row operations of a statement. *)
Lemma rows_safe sh ses junk l :
  spec (with_fact any_free) (on_handler (run_ops sh ses junk l)) (fun _ => safe key ws) (left_in_doubt key ws).
Proof.
  apply spec_lift. intros c [Hs HF] h ->. set (h0 := set_trx _ _).
  assert (calm (prepared_txns (glob c)) key ws h0) as Hcalm.
  { split; [exact Hs|]. intros x t Hx Ht. apply HF. unfold conn_txn. simpl in Hx. destruct (cached c); [|done]. by rewrite Hx. }
  pose proof (run_ops_calms sh ses junk (prepared_txns (glob c)) key ws l h0 Hcalm) as H.
  destruct (run_ops sh ses junk l h0) as [h' [a|]]; destruct (cached c); try done; by destruct H.
Qed.

(** *** Prepare *)

Lemma give_up_safe {A} t (a : A) : spec (with_fact (is_held t)) (give_up_txn t;; ret a) (fun _ => safe key ws) (left_in_doubt key ws).
Proof.
  eapply (spec_bind _ _ (fun _ => safe key ws)); [|intros ?; by apply spec_ret]. unfold give_up_txn.
  eapply spec_bind; [apply rollback_own|]. intros ?. eapply spec_bind; [apply safe_free|]. intros ?. apply safe_upd.
Qed.

Definition to_prepare (k : bytes) (t : txn) : fact := fun o R D P => is_free t o R D P /\ D !! k = None.

Lemma prepare_own k t :
  spec (with_fact (to_prepare k t)) (on_db (txn_prepare t k))
    (fun rc c => if tdb_ok rc then safe key ws c /\ prepared_as (db c) t = Some k /\ is_Some (in_doubt (db c) !! k)
                 else with_fact (is_held t) c) (left_in_doubt key ws).
Proof.
  apply spec_lift. intros c [[Ho Hk] [[Hc Hp] HD]] e ->.
  pose proof (txn_prepare_law _ _ _ _ t k (db c) (conj eq_refl (conj eq_refl (conj eq_refl eq_refl)))) as H.
  assert (k <> key) as Hne by congruence. unfold with_fact, safe, sound, left_in_doubt, db in *. simpl in *.
  destruct (txn_prepare t k (lib (hd c))) as [e' [rc|]]; simpl.
  - destruct H as [_ H]. unfold tdb_ok. case_bool_decide as Hrc.
    + subst rc. destruct H as (-> & Hpt & Hother). rewrite lookup_insert_ne, lookup_insert_eq by done. split_and!; [|done|done|by eexists].
      intros k' t' Hk'. destruct (Ho k' t' Hk') as [Hp' Hd']. rewrite Hother by congruence. split; [done|].
      destruct (decide (k' = k)) as [->|]; [rewrite lookup_insert_eq; by eexists|by rewrite lookup_insert_ne].
    + destruct rc; [done|..]; destruct H as [-> ->]; (split; [done|]); by apply free_held.
  - destruct H as [_ [->| ->]]; [done|by rewrite lookup_insert_ne].
Qed.

Lemma register_safe k t :
  spec (fun c => safe key ws c /\ prepared_as (db c) t = Some k /\ is_Some (in_doubt (db c) !! k)) (set_registry (<[k := t]>))
    (fun _ => safe key ws) (left_in_doubt key ws).
Proof.
  apply spec_modify. intros c ([Ho Hk] & Hp & HD). split; [|done]. intros k' t'. simpl. rewrite lookup_insert_Some.
  intros [[<- <-]|[_ Hk']]; [done|by apply Ho].
Qed.

Lemma prepare_safe thd all :
  spec (fun c => safe key ws c /\ in_doubt (db c) !! tdb_xid_key (thd_xid thd) = None /\ unprepared c) (tidesdb_prepare thd all)
    (fun _ => safe key ws) (left_in_doubt key ws).
Proof.
  set (k := tdb_xid_key (thd_xid thd)). apply (bind_txn _ (to_prepare k)); [by intros c [? _]| |by apply spec_ret|].
  { intros c t (Hs & HD & Hu) Ht. split; [done|]. split; [|done]. split; [done|by apply Hu]. }
  assert (forall t c, with_fact (to_prepare k t) c -> with_fact (is_held t) c) as Hheld.
  { intros t c [? [? _]]. split; [done|by apply free_held]. }
  intros t. destruct all; simpl; [|apply spec_ret; by intros c [? _]].
  eapply spec_bind; [apply disarm_walks|]. intros ?. eapply spec_bind; [apply walks_gets|]. intros d.
  destruct (negb d && _); [apply spec_ret; by intros c [? _]|].
  eapply (spec_bind _ _ (fun _ => with_fact (to_prepare k t))); [destruct d; [apply walks_flush|apply walks_ret]|]. intros frc.
  destruct (negb (tdb_ok frc)); [eapply spec_pre; [apply give_up_safe|apply Hheld]|].
  eapply spec_bind; [apply prepare_own|]. intros rc. cbv beta. destruct (tdb_ok rc); simpl; [|apply give_up_safe].
  case_bool_decide; simpl; [|apply spec_ret; by intros c [? _]].
  eapply spec_bind; [apply register_safe|]. intros ?. do 2 (eapply spec_bind; [apply safe_upd|]; intros ?). by apply spec_ret.
Qed.

End Own.

Lemma call_safe key ws call :
  spec (fun c => safe key ws c /\ ready call c /\ ~ resolves key call c) (run_call call) (fun _ => safe key ws) (left_in_doubt key ws).
Proof.
  assert (forall A (m : M cn A), spec (fun c => safe key ws c /\ ready call c /\ ~ resolves key call c) m (fun _ => safe key ws) (left_in_doubt key ws) ->
    spec (fun c => safe key ws c /\ ready call c /\ ~ resolves key call c) (m;; ret tt) (fun _ => safe key ws) (left_in_doubt key ws)) as Hrun.
  { intros A m Hm. eapply spec_bind; [exact Hm|]. intros a. by apply spec_ret. }
  pose proof (work_walks key ws call) as Hwork.
  destruct call; try (eapply spec_weaken; [exact Hwork|by intros c (? & ? & _)|by intros ? c [? _]|done]); clear Hwork; simpl in *; apply Hrun.
  - eapply spec_pre; [apply (prepare_safe key ws thd all)|]. by intros c (? & [? ?] & _).
  - apply spec_at. intros c0 (Hs & _ & Hne). eapply spec_pre; [by apply (decide_safe key ws _ _ _ commit_decides Hne)|by intros c ->].
  - apply spec_at. intros c0 (Hs & _ & Hne). eapply spec_pre; [by apply (decide_safe key ws _ _ _ rollback_decides Hne)|by intros c ->].
  - eapply spec_pre; [apply recover_safe|by intros c [? _]].
  - eapply spec_pre; [|by intros c [? _]]. apply gets_safe. intros tables. apply bind_safe; [by apply modify_safe|]. intros [].
    apply bind_safe; [apply on_db_safe; intros; apply tc_mark_spec|]. intros ok. by apply spec_ret.
  - eapply spec_pre; [|by intros c [? _]].
    apply gets_safe. intros tables. apply bind_safe; [apply on_db_safe; intros; apply tc_mark_spec|]. intros ok. by apply spec_ret.
  - eapply spec_pre; [apply list_tc_safe|by intros c [? _]].
  - apply commit_safe.
  - apply rollback_safe.
  - eapply spec_pre; [apply close_safe|by intros c (? & ? & _)].
  - eapply spec_pre; [apply rows_safe|by intros c (? & ? & _)].
Qed.


End Reach.
End XaReach.
