(* ===== verification/TxnExample.v ===== *)
(** * Connections on a concrete library

    The table of [DmlExample] over the library of [SrvDb].  The lemmas discharge the hypotheses of the theorems
    on transactions at concrete inputs; the theorems at the end run the callbacks where the code departs
    from its own account. *)
From S2P Require Import Prelude Effects TidesDb RowDb TxnDb SrvDb RowFormat FtsText Table KeyCodec Dml DmlExample XaCodec Txn Xa TxnUndo TxnSpec XaSpec XaRecover TxnDoubt XaReach.
Import Table KeyCodec Dml DmlExample XaCodec Txn Xa TxnUndo TxnSpec XaSpec XaRecover TxnDoubt XaReach.
#[local] Open Scope Z_scope.
#[local] Open Scope tdb_scope.

Module TxnExample.

#[local] Existing Instance KeyCodec.example_server.
#[local] Existing Instance FtsText.example_charset.

Definition srv_services : RowServices srv_db nat := {|
  serialize_row r := ret (ex_serialize r);
  fk_check_child _ _ := ret 0;
  fk_enforce_parent_delete _ _ := ret 0;
  fk_enforce_parent_update _ _ _ := ret 0;
  open_stmt_txn := ret (Some O);
  next_number := ex_id;
  update_auto_increment r := ret (0, ex_number true r);
  mbr := unit;
  spatial_compute_mbr _ := None;
  centroid_hilbert _ := 0;
  spatial_build_value _ := [] |}.

#[local] Existing Instance srv_services.

#[export] Program Instance srv_services_undo : ServicesUndo srv_db nat (RowServices0 := srv_services).
Next Obligation. intros. apply keeps_ret. Qed.
Next Obligation. intros. apply keeps_ret. Qed.
Next Obligation. intros. apply keeps_ret. Qed.
Next Obligation. intros. apply keeps_ret. Qed.
Next Obligation. intros. apply keeps_ret. Qed.
Next Obligation. intros. apply keeps_ret. Qed.

#[export] Program Instance srv_services_doubt : ServicesDoubt srv_db nat (RowServices0 := srv_services).
Next Obligation. intros. apply keeps_ret. Qed.
Next Obligation. intros. apply keeps_ret. Qed.
Next Obligation. intros. apply keeps_ret. Qed.
Next Obligation. intros. apply keeps_ret. Qed.
Next Obligation. intros. apply keeps_ret. Qed.
Next Obligation. intros. apply keeps_ret. Qed.

(** A library with one open transaction, and a connection that runs it. *)
Definition srv (d : store) (ws : list write) (fates : list fate) : srv_db :=
  {| s_mem := d; s_script := fates; s_writes := {[0%nat := ws]}; s_saves := ∅; s_xids := ∅; s_doubt := ∅ |}.

Definition hd_of (e : srv_db) : handler srv_db nat := {|
  lib := e; stmt_txn := None; stmt_txn_dirty := false; cached_trx_ := None; scan_txn := None; scan_iter := false;
  current_pk := []; dup_key_no_ := 0; dup_ref := []; mod_table_noted_generation_ := 0; next_row_id := 1; auto_inc_val := 1;
  bulk_of := ex_bulk |}.

Definition conn_of (e : srv_db) (x : option (tidesdb_trx_t nat)) (g : globals nat) : conn srv_db nat :=
  {| hd := hd_of e; cached := false; shape := None; ha_data := x; glob := g; Txn.registered := (false, false) |}.

Definition trx0 : tidesdb_trx_t nat := new_trx 0%nat TDB_ISOLATION_SNAPSHOT.
Definition thd_in (cmd : sqlcom) (xid : XID) : THD := {| sql_command := cmd; multi := true; tx_isolation := 2; thd_xid := xid |}.
Definition thd0 : THD := thd_in (SQLCOM_OTHER 0) null_xid.

Definition xid1 : XID := {| formatID := 1; gtrid_length := 1; bqual_length := 0; data := 97 :: replicate 127 0 |}.
Definition key1 : bytes := tdb_xid_key xid1.

Lemma xid1_ok : xid_ok xid1.
Proof.
  split_and!; [vm_compute; (discriminate || reflexivity)..|].
  apply Forall_cons_2; [unfold is_byte; lia|]. apply Forall_replicate. unfold is_byte. lia.
Qed.

(** ** Witnesses *)

(** A statement that inserts [r8] into an empty table, after a write of the same transaction. *)
Definition earlier : list write := [W_put (bs "d") (bs "k") (bs "v")].

Definition ses_all : session := ex_session [0%nat; 1%nat; 2%nat; 3%nat].
(** The bulk INSERT of one row. *)
Definition insert8 : list row_op := [Op_start_bulk_insert; Op_write r8 true; Op_end_bulk_insert].
Definition in_stmt : conn srv_db nat := conn_of (srv empty_store earlier []) (Some trx0) started.

Lemma in_stmt_ready : stmt_ready trx0 0%nat earlier in_stmt /\ one_batch ex_table insert8 (bulk_of (hd in_stmt)).
Proof.
  split; [split; [done|split; [done|]]|by vm_compute].
  intros e1 r1 e2 rc [= <- <-] H. by vm_compute in H; injection H.
Qed.

Lemma statement_rolls_back_witness :
  rolls_back thd0 trx0 0%nat earlier
    (bind (external_lock_acquire None thd0) (fun _ => on_handler (run_ops ex_table ses_all junk9 insert8)) in_stmt).1.
Proof.
  apply (spec_run _ _ (fun _ => rolls_back thd0 trx0 0%nat earlier) _ in_stmt tt
    (statement_rolls_back None ex_table ses_all junk9 thd0 trx0 0%nat earlier insert8 eq_refl eq_refl eq_refl eq_refl eq_refl)).
  - exact in_stmt_ready.
  - vm_compute. reflexivity.
Defined.

(** The commit of a transaction with one write and one document counted. *)
Definition counted_doc : tidesdb_trx_t nat :=
  set_dirty true (set_meta [{| data_cf := bs "d"; keynr := 2; doc_delta := 1; word_delta := 3 |}] true trx0).
Definition committing : conn srv_db nat := conn_of (srv empty_store earlier []) (Some counted_doc) started.

Lemma commit_atomic_witness :
  commit_ends empty_store (with_stats counted_doc (apply_writes earlier empty_store)) ∅ R_OK
    (tidesdb_commit thd0 true committing).1.
Proof.
  apply (spec_run _ _ _ _ committing R_OK (commit_atomic thd0 true counted_doc 0%nat empty_store earlier ∅ (fun t => (∅ : gmap nat bytes) !! t)
    eq_refl eq_refl eq_refl eq_refl)).
  - by split.
  - vm_compute. reflexivity.
Defined.

(** Its preparation under [xid1]. *)
Definition thd_xa : THD := thd_in SQLCOM_XA_PREPARE xid1.


(** A library where [earlier] is in doubt under [xid1], before and after a restart. *)
Definition doubtful (xs : gmap nat bytes) (fates : list fate) : srv_db :=
  {| s_mem := empty_store; s_script := fates; s_writes := ∅; s_saves := ∅; s_xids := xs; s_doubt := {[key1 := earlier]} |}.
Definition holding1 : globals nat :=
  {| prepared_txns := {[key1 := 0%nat]}; recovery_xids := []; recovery_pos := 0; recovery_loaded := false; recovery_mod_tables := ∅ |}.

Lemma holding1_owned : owned {[key1 := 0%nat]} {[key1 := earlier]} (fun t => ({[0%nat := key1]} : gmap nat bytes) !! t).
Proof.
  intros k t [<- <-]%lookup_singleton_Some. split; [by rewrite lookup_singleton_eq|]. rewrite lookup_singleton_eq. by eexists.
Qed.

Lemma decision_exact_witness :
  let c := conn_of (doubtful {[0%nat := key1]} []) None holding1 in
  decided apply_writes key1 empty_store earlier {[key1 := earlier]} {[key1 := 0%nat]} XA_OK (tidesdb_commit_by_xid xid1 c).1.
Proof.
  intros c. eapply (spec_run _ _ _ _ c XA_OK).
  - apply (decision_exact xid1 0%nat empty_store earlier {[key1 := earlier]} {[key1 := 0%nat]}
      (fun t => ({[0%nat := key1]} : gmap nat bytes) !! t)); [apply lookup_singleton_eq..|apply holding1_owned].
  - done.
  - vm_compute. reflexivity.
Defined.

Definition restarted1 (fates : list fate) : conn srv_db nat := conn_of (doubtful ∅ fates) None started.

Lemma restarted1_answers : answering ∅ empty_store {[key1 := earlier]} (fun t => (∅ : gmap nat bytes) !! t) (restarted1 []).
Proof. split; [done|]. eexists _, _. split; [vm_compute; reflexivity|]. intros _. eexists _, _. vm_compute. reflexivity. Qed.

Lemma recover_hands_over_all_witness :
  exists out l R, (drain 2 1 (restarted1 [])).2 = Ret out /\
    complete l {[key1 := earlier]} R /\ out = omap (told ∅) l /\
    loaded ∅ l (length l) empty_store {[key1 := earlier]} R (drain 2 1 (restarted1 [])).1.
Proof.
  eexists. pose proof (spec_run _ _ _ _ (restarted1 []) _
    (recover_hands_over_all ∅ empty_store {[key1 := earlier]} (fun t => (∅ : gmap nat bytes) !! t) 1 (ltac:(lia)))
    restarted1_answers eq_refl) as (l & R & H).
  exists l, R. split; [reflexivity|exact H].
Defined.

Lemma prepared_commits_after_restart_witness :
  exists r, (bind (drain 2 1) (fun out => bind (tidesdb_commit_by_xid xid1) (fun code => ret (out, code))) (restarted1 [])).2 = Ret r /\
    (exists y tables, (y, tables) ∈ r.1 /\ same_xid xid1 y) /\
    exists R, decided apply_writes key1 empty_store earlier {[key1 := earlier]} R r.2
      (bind (drain 2 1) (fun out => bind (tidesdb_commit_by_xid xid1) (fun code => ret (out, code))) (restarted1 [])).1.
Proof.
  eexists. split; [vm_compute; reflexivity|].
  apply (spec_run _ _ _ _ (restarted1 []) _ (prepared_commits_after_restart ∅ empty_store {[key1 := earlier]}
    (fun t => (∅ : gmap nat bytes) !! t) 1 xid1 earlier (ltac:(lia)) xid1_ok (lookup_singleton_eq key1 earlier))).
  - exact restarted1_answers.
  - vm_compute. reflexivity.
Defined.

(** Beside a transaction in doubt another connection inserts [r8] and commits; then the server restarts. *)
Definition working : conn srv_db nat :=
  set_cached true None (conn_of (doubtful {[0%nat := key1]} []) (Some (new_trx 1%nat TDB_ISOLATION_SNAPSHOT)) holding1).
Definition insert_call : server_call := Call_rows ex_table ses_all junk9 insert8.
Definition worked : conn srv_db nat := (run_call insert_call working).1.
Definition ended : conn srv_db nat := (run_call (Call_commit thd0 true) worked).1.

Lemma returned {S A} (m : M S A) s a : (m s).2 = Ret a -> m s = ((m s).1, Ret a).
Proof. by destruct (m s) as [s' r]; simpl; intros ->. Qed.

Lemma in_txn1 (c : conn srv_db nat) : conn_txn c = Some 1%nat -> prepared_as (db c) 1%nat = None ->
  unprepared c /\ own_phase c /\ (conn_txn c ≫= prepared_as (db c)) = None.
Proof.
  intros Hc Hp. unfold unprepared, own_phase. rewrite Hc. split_and!; [by intros t [= <-]| |done].
  intros t k [= <-]. congruence.
Qed.

Lemma working_run : rtc (xa_step key1) (glob working, db working) (started, db ended).
Proof.
  assert (conn_txn working = Some 1%nat /\ prepared_as (db working) 1%nat = None) as [Hc0 Hp0] by (vm_compute; split; reflexivity).
  destruct (in_txn1 working Hc0 Hp0) as (Hfree & _ & _). apply (rtc_l _ _ (glob worked, db worked)).
  { apply (step_call key1 insert_call working worked tt); [intros []|exact Hfree|].
    unfold worked. apply (returned (run_call insert_call) working tt). vm_compute. reflexivity. }
  assert (conn_txn worked = Some 1%nat /\ prepared_as (db worked) 1%nat = None) as [Hc Hp] by (vm_compute; split; reflexivity).
  destruct (in_txn1 worked Hc Hp) as (_ & Hown & Hnone). apply (rtc_l _ _ (glob ended, db ended)).
  { apply (step_call key1 (Call_commit thd0 true) worked ended tt); [intros H|exact Hown|].
    { cut (@None bytes = Some key1); [discriminate|]. rewrite <- Hnone. exact H. }
    unfold ended. apply (returned (run_call (Call_commit thd0 true)) worked tt). vm_compute. reflexivity. }
  apply rtc_once, step_restart. split; reflexivity.
Qed.

Lemma working_sound : sound (glob working, db working).
Proof. exact holding1_owned. Qed.
Lemma working_doubt : in_doubt (glob working, db working).2 !! key1 = Some earlier.
Proof. exact (lookup_singleton_eq key1 earlier). Qed.


(** ** Where the code departs from its account *)

Definition sees (c : conn srv_db nat) (cf k : bytes) : option bytes := db_get cf k (committed (db c)).

(** BEGIN; SELECT; SAVEPOINT s; INSERT r8; ROLLBACK TO SAVEPOINT s; COMMIT. *)
Definition undo_insert : M (conn srv_db nat) hton_rc :=
  (external_lock_acquire None thd0;; tidesdb_commit thd0 false;; external_lock_release thd0;;
   tidesdb_savepoint_set (bs "sv_1");;
   external_lock_acquire None thd0;; on_handler (write_row ex_table ses_all junk9 r8 true);;
   tidesdb_commit thd0 false;; external_lock_release thd0;;
   tidesdb_savepoint_rollback (bs "sv_1");;
   tidesdb_commit thd0 true)%eff.

(** ROLLBACK TO SAVEPOINT takes back the rows and not the full-text statistics they were counted in: the
    transaction that inserted a row, took it back and committed stores no row and a count of one document. *)
Lemma savepoint_rollback_keeps_statistics :
  let r := undo_insert (conn_of (srv empty_store [] []) None started) in
  r.2 = Ret R_OK /\
  sees r.1 (bs "d") (RowFormat.build_data_key (pk_at 8)) = None /\
  (sees r.1 (bs "d") (fts_meta_key 2) ≫= FtsText.decode_meta_value) = Some (1, 1).
Proof. vm_compute. split_and!; reflexivity. Qed.

(** A library error while the transactions in doubt are loaded is not retried: the server is told there are
    none, and XA COMMIT of one of them answers success and leaves it undone and in doubt. *)
Lemma failed_load_hides_transactions :
  let r := (bind (drain 2 1) (fun out => bind (tidesdb_commit_by_xid xid1) (fun code => ret (out, code))) (restarted1 [fails])) in
  r.2 = Ret ([], XA_OK) /\ in_doubt (db r.1) !! key1 = Some earlier /\ committed (db r.1) = empty_store /\
  recovery_loaded (glob r.1) = true.
Proof. vm_compute. split_and!; reflexivity. Qed.

(** The internal two-phase commit of [committing], its second phase failing once. *)
Definition internal_2pc (xid : XID) : M (conn srv_db nat) (hton_rc * hton_rc) :=
  (p <-- tidesdb_prepare (thd_in (SQLCOM_OTHER 0) xid) true; r <-- tidesdb_commit (thd_in (SQLCOM_OTHER 0) xid) true; ret (p, r))%eff.

(** When the second phase fails for a transaction its own connection prepared, the callback rolls the
    prepared transaction back: the coordinator has decided to commit, the batch is no longer in doubt, and its
    writes are nowhere.  The resolver by XID keeps such a transaction for the decision to be retried. *)
Lemma failed_second_phase_discards :
  let r := internal_2pc xid1 (conn_of (srv empty_store earlier [works; works; works; fails]) (Some counted_doc) started) in
  r.2 = Ret (R_OK, R_LIB ERR_IO) /\ in_doubt (db r.1) = ∅ /\ committed (db r.1) = empty_store.
Proof. vm_compute. split_and!; reflexivity. Qed.

(** A library error while the transactions prepared in the coordinator are listed is answered with an empty
    list and success, so the server takes the transaction whose mark is stored for one it may roll back. *)
Lemma failed_listing_forgets_marks :
  let marked := (tidesdb_set_prepared_in_tc thd_xa (conn_of (doubtful ∅ []) None started)).1 in
  let unread := conn_of (set_script [fails] (db marked)) None started in
  is_Some (sees marked TDB_XA_TC_CF_NAME key1) /\
  (exists x, (tidesdb_recover_prepared_in_tc (conn_of (db marked) None started)).2 = Ret [x] /\ same_xid xid1 x) /\
  (tidesdb_recover_prepared_in_tc unread).2 = Ret [].
Proof.
  vm_compute. split; [by eexists|]. split; [|reflexivity]. eexists. split; [reflexivity|]. by vm_compute.
Qed.

End TxnExample.
