(* ===== verification/Udf.v ===== *)
(** * The engine's functions for administrators ([src/engine/ha_tidesdb_udf.cc])

    [tidesdb_backup], [tidesdb_checkpoint] and the two key rotations.  The library's backup and checkpoint
    are a parameter ([BackupDb]): they copy the committed contents and change nothing.  A function's
    message is a constructor of [udf_error].  Backup and checkpoint end the caller's open transaction first, and they roll it back:
    the last lemma shows what a later COMMIT makes of that. *)
From S2P Require Import Prelude Effects TidesDb RowDb TxnDb SrvDb KeyEnc Keyring XaCodec Dml DmlExample Txn TxnSpec TxnExample.
Import Keyring XaCodec Dml Txn TxnSpec.
#[local] Open Scope Z_scope.
#[local] Open Scope tdb_scope.

Class BackupDb (E txn : Type) `{!TidesDb E txn} := {
  backup : bytes -> M E tdb_rc;
  checkpoint : M E tdb_rc;
  backup_law d path : spec (fun e => committed e = d) (backup path) (fun _ e => committed e = d) (fun e => committed e = d);
  checkpoint_law d : spec (fun e => committed e = d) checkpoint (fun _ e => committed e = d) (fun e => committed e = d) }.

Module Udf.

(** ** Arguments *)

Inductive item_result := STRING_RESULT | INT_RESULT | OTHER_RESULT.

(** An argument: its type and, unless it is NULL, its bytes or its number. *)
Record udf_arg := { arg_type : item_result; arg_bytes : option bytes; arg_int : option Z }.

Inductive udf_error := Not_open | No_path | No_key_id | Key_id_out_of_range | Failed (rc : tdb_rc) | Not_rotated.

Definition TDB_UDF_OK : bytes := bs "OK".

(** [true] refuses the call. *)
Definition tdb_udf_init_one_string (args : list udf_arg) : bool :=
  match args with [a] => match arg_type a with STRING_RESULT => false | _ => true end | _ => true end.
Definition tidesdb_backup_udf_init := tdb_udf_init_one_string.
Definition tidesdb_checkpoint_udf_init := tdb_udf_init_one_string.
Definition tidesdb_rotate_table_key_udf_init (args : list udf_arg) : bool :=
  match args with [a] => match arg_type a with INT_RESULT => false | _ => true end | _ => true end.
Definition tidesdb_rotate_master_key_udf_init (args : list udf_arg) : bool :=
  match args with [] => false | _ => true end.

Definition tdb_udf_path_arg (args : list udf_arg) : option bytes :=
  match args with
  | a :: _ => match arg_bytes a with Some (c :: p) => Some (c :: p) | _ => None end
  | [] => None
  end.

Section code.
Context {E txn : Type} `{!TidesDb E txn, !RowDb E txn, !SavepointDb E txn, !BackupDb E txn}.
Local Open Scope eff_scope.

#[local] Abbreviation cn := (conn E txn).

(** ** Backup and checkpoint *)

(** The transaction object after its transaction was taken away. *)
Definition released (x : tidesdb_trx_t txn) : tidesdb_trx_t txn := set_meta [] false (bump (set_clean (set_txn_ptr None x))).

Definition tdb_udf_release_own_txn : M cn unit :=
  t <-- gets conn_txn;
  match t with
  | None => ret tt
  | Some t => on_db (txn_rollback t);; on_db (txn_free t);; upd released
  end.

(** [open] says that [tdb_global] is set. *)
Definition tidesdb_backup_udf (open : bool) (args : list udf_arg) : M cn (udf_error + bytes) :=
  if negb open then ret (inl Not_open)
  else match tdb_udf_path_arg args with
  | None => ret (inl No_path)
  | Some path =>
      tdb_udf_release_own_txn;;
      rc <-- on_db (backup path);
      ret (if tdb_ok rc then inr TDB_UDF_OK else inl (Failed rc))
  end.

Definition tidesdb_checkpoint_udf (open : bool) (args : list udf_arg) : M cn (udf_error + bytes) :=
  if negb open then ret (inl Not_open)
  else match tdb_udf_path_arg args with
  | None => ret (inl No_path)
  | Some path =>
      tdb_udf_release_own_txn;;
      rc <-- on_db checkpoint;
      rc <-- (if tdb_ok rc then on_db (backup path) else ret rc);
      ret (if tdb_ok rc then inr TDB_UDF_OK else inl (Failed rc))
  end.

(** The transaction is gone, and nothing was written. *)
Lemma release_ends d (x : tidesdb_trx_t txn) :
  spec (trx_is x (fun e => committed e = d)) tdb_udf_release_own_txn
    (fun _ (c : cn) => conn_txn c = None /\ committed (db c) = d) (fun c => committed (db c) = d).
Proof.
  unfold tdb_udf_release_own_txn. intros c [Hx Hd]. unfold bind at 1, gets. unfold conn_txn at 1. rewrite Hx. cbn [mbind option_bind].
  destruct (trx_txn x) as [t|] eqn:Et; [|split; [|done]; unfold conn_txn; by rewrite Hx].
  revert c Hx Hd. assert (spec (trx_is x (fun e => committed e = d)) (on_db (txn_rollback t);; on_db (txn_free t);; upd released)
    (fun _ (c : cn) => conn_txn c = None /\ committed (db c) = d) (fun c => committed (db c) = d)) as H.
  { eapply (spec_bind _ _ (fun _ => trx_is x (fun e => committed e = d))).
    - apply (conn_db_spec x (fun e => committed e = d) _ (fun _ e => committed e = d) (fun e => committed e = d)), txn_rollback_law.
    - intros _. eapply (spec_bind _ _ (fun _ => trx_is x (fun e => committed e = d))); 
        [apply (conn_db_spec x (fun e => committed e = d) _ (fun _ e => committed e = d) (fun e => committed e = d)), txn_free_law|].
      intros _. apply spec_modify. intros c [Hx Hd]. split; [|done]. unfold conn_txn. simpl. by rewrite Hx. }
  intros c Hx Hd. by apply (H c).
Qed.

Lemma backup_udf_ends d (x : tidesdb_trx_t txn) args path :
  tdb_udf_path_arg args = Some path ->
  spec (trx_is x (fun e => committed e = d)) (tidesdb_backup_udf true args)
    (fun _ (c : cn) => conn_txn c = None /\ committed (db c) = d) (fun c => committed (db c) = d).
Proof.
  intros Hp. unfold tidesdb_backup_udf. cbn [negb]. rewrite Hp. eapply spec_bind; [apply release_ends|]. intros ?.
  eapply (spec_bind _ _ (fun _ (c : cn) => conn_txn c = None /\ committed (db c) = d)).
  - apply spec_lift. intros c [Hc Hd] e ->. pose proof (backup_law d path (lib (hd c)) Hd) as H.
    by destruct (backup path (lib (hd c))) as [e' [rc|]].
  - intros rc. by apply spec_ret.
Qed.

Context `{!FamilyDb E txn, !XaDb E txn}.

(** A transaction in which [tidesdb_backup] is called is lost without a word: whatever it wrote before, the
    function rolls it back, and the COMMIT that follows finds nothing to do and reports success. *)
Lemma backup_loses_transaction d (x : tidesdb_trx_t txn) args path thd :
  tdb_udf_path_arg args = Some path ->
  spec (trx_is x (fun e => committed e = d))
    (tidesdb_backup_udf true args;; tidesdb_commit thd true)
    (fun rc (c : cn) => rc = R_OK /\ committed (db c) = d) (fun c => committed (db c) = d).
Proof.
  intros Hp. eapply spec_bind; [by apply (backup_udf_ends d x args path)|]. intros r c [Hc Hd].
  unfold tidesdb_commit, bind, gets. by rewrite Hc.
Qed.

End code.

(** ** Key rotation *)

Section keys.
Context {E T K R : Type} `{!TidesDb E T} `{!KeyringSvc K R}.
Context (my_aes_encrypt my_aes_decrypt : bytes -> bytes -> opmode -> option bytes -> bool -> option bytes).
Local Open Scope eff_scope.

Definition tidesdb_rotate_table_key_udf (args : list udf_arg) : M (crypto E K) (udf_error + bytes) :=
  match args with
  | a :: _ =>
      match arg_int a with
      | None => ret (inl No_key_id)
      | Some key_id =>
          if (key_id <=? 0) || (TIDESDB_MAX_ENCRYPTION_KEY_ID <? key_id) then ret (inl Key_id_out_of_range)
          else
            rc <-- tdb_crypto_rotate_table_key my_aes_encrypt key_id;
            ret (if rc =? TDB_CRYPTO_STATUS_OK then inr TDB_UDF_OK else inl Not_rotated)
      end
  | [] => ret (inl No_key_id)
  end.

Definition tidesdb_rotate_master_key_udf : M (crypto E K) (udf_error + bytes) :=
  rc <-- tdb_crypto_rotate_master_key my_aes_encrypt my_aes_decrypt;
  ret (if rc =? TDB_CRYPTO_STATUS_OK then inr TDB_UDF_OK else inl Not_rotated).

End keys.

(** ** Registering the functions *)

(** The two handles the module keeps, and of the server the references it holds and its functions. *)
Record registration := {
  tdb_udf_registry : bool; tdb_udf_reg : bool; registry_refs : Z; service_refs : Z; functions : list bytes }.

Definition tdb_udfs : list bytes :=
  [bs "tidesdb_backup"; bs "tidesdb_checkpoint"; bs "tidesdb_rotate_table_key"; bs "tidesdb_rotate_master_key"].

(** [accepts] is the server's answer for a name that is free; a name in use is refused.  The second component lists the
    functions that get a warning. *)
Definition udf_register (accepts : bytes -> bool) (acc : list bytes * list bytes) (nm : bytes) : list bytes * list bytes :=
  if accepts nm && negb (bool_decide (nm ∈ acc.1)) then (nm :: acc.1, acc.2) else (acc.1, acc.2 ++ [nm]).
Definition udf_unregister (fs : list bytes) (nm : bytes) : list bytes := filter (.≠ nm) fs.

Definition tdb_udf_register_all (registry_there service_there : bool) (accepts : bytes -> bool) (r : registration) : registration * list bytes :=
  if negb registry_there then
    ({| tdb_udf_registry := false; tdb_udf_reg := tdb_udf_reg r; registry_refs := registry_refs r; service_refs := service_refs r;
        functions := functions r |}, [])
  else if negb service_there then
    ({| tdb_udf_registry := false; tdb_udf_reg := tdb_udf_reg r; registry_refs := registry_refs r + 1 - 1; service_refs := service_refs r;
        functions := functions r |}, [bs "udf_registration"])
  else
    let '(fs, refused) := fold_left (udf_register accepts) tdb_udfs (functions r, []) in
    ({| tdb_udf_registry := true; tdb_udf_reg := true; registry_refs := registry_refs r + 1; service_refs := service_refs r + 1; functions := fs |},
     refused).

Definition tdb_udf_unregister_all (r : registration) : registration :=
  if negb (tdb_udf_reg r) || negb (tdb_udf_registry r) then r
  else
    {| tdb_udf_registry := false; tdb_udf_reg := false; registry_refs := registry_refs r - 1; service_refs := service_refs r - 1;
       functions := fold_left udf_unregister tdb_udfs (functions r) |}.

Lemma filter_own (names l : list bytes) : Forall (.∈ names) l -> filter (.∉ names) l = [].
Proof. induction 1 as [|x l Hx _ IH]; [done|]. rewrite filter_cons_False; [done|]. intros Hn. by apply Hn. Qed.
Lemma filter_others (names l : list bytes) : Forall (.∉ names) l -> filter (.∉ names) l = l.
Proof. induction 1 as [|x l Hx _ IH]; [done|]. by rewrite filter_cons_True, IH. Qed.

Lemma unregister_spec names : forall fs, fold_left udf_unregister names fs = filter (.∉ names) fs.
Proof.
  induction names as [|nm names IH]; intros fs; cbn [fold_left].
  - symmetry. apply filter_others, Forall_true. intros x. apply not_elem_of_nil.
  - rewrite IH. unfold udf_unregister. rewrite list_filter_filter. apply list_filter_iff. intros x. rewrite not_elem_of_cons. tauto.
Qed.

Lemma register_spec accepts names : forall fs refused,
  exists added, (fold_left (udf_register accepts) names (fs, refused)).1 = added ++ fs /\ Forall (.∈ names) added.
Proof.
  induction names as [|nm names IH]; intros fs refused; cbn [fold_left]; [by exists []|].
  unfold udf_register at 2. simpl. destruct (accepts nm && _).
  - destruct (IH (nm :: fs) refused) as (added & -> & Ha). exists (added ++ [nm]). rewrite <- app_assoc. split; [done|].
    apply Forall_app; split; [|constructor; [by left|done]]. eapply Forall_impl; [exact Ha|]. intros x Hx. by right.
  - destruct (IH fs (refused ++ [nm])) as (added & -> & Ha). exists added. split; [done|].
    eapply Forall_impl; [exact Ha|]. intros x Hx. by right.
Qed.

(** Stopping the plugin gives back whatever its start took, however far the start got. *)
Lemma registration_undone registry_there service_there accepts r :
  tdb_udf_registry r = false -> tdb_udf_reg r = false -> Forall (.∉ tdb_udfs) (functions r) ->
  tdb_udf_unregister_all (tdb_udf_register_all registry_there service_there accepts r).1 = r.
Proof.
  intros H1 H2 Hf. destruct r as [g s n m fs]; cbn in H1, H2, Hf; subst. unfold tdb_udf_register_all.
  destruct (register_spec accepts tdb_udfs fs []) as (added & Hadd & Ha). cbn [functions].
  destruct (fold_left (udf_register accepts) tdb_udfs (fs, [])) as [fs' refused]. cbn [fst] in Hadd. subst fs'.
  unfold tdb_udf_unregister_all. destruct registry_there, service_there;
    cbn [fst tdb_udf_registry tdb_udf_reg registry_refs service_refs functions orb negb]; rewrite ?Z.add_simpl_r; try done.
  by rewrite unregister_spec, filter_app, (filter_own tdb_udfs added Ha), (filter_others tdb_udfs fs Hf).
Qed.

(** ** A concrete call *)

#[local] Program Instance srv_backup : BackupDb srv_db nat := {|
  backup _ := SrvDb.call ERR_IO (ret TDB_SUCCESS);
  checkpoint := SrvDb.call ERR_IO (ret TDB_SUCCESS) |}.
Next Obligation. intros d path. by apply call_spec. Qed.
Next Obligation. intros d. by apply call_spec. Qed.

Definition to_path : list udf_arg := [{| arg_type := STRING_RESULT; arg_bytes := Some (bs "/b"); arg_int := None |}].

(** The write [k = v] of the open transaction is gone after the backup and the COMMIT, both of which answer
    that all is well; without the backup the COMMIT makes it durable. *)
Lemma backup_loses_write :
  let c := TxnExample.conn_of (TxnExample.srv DmlExample.empty_store TxnExample.earlier []) (Some (set_dirty true TxnExample.trx0)) started in
  let commit := tidesdb_commit TxnExample.thd0 true in
  let value (r : conn srv_db nat * reply hton_rc) := (r.2, db_get (bs "d") (bs "k") (s_mem (lib (hd r.1)))) in
  (tidesdb_backup_udf true to_path c).2 = Ret (inr TDB_UDF_OK) /\
  value (bind (tidesdb_backup_udf true to_path) (fun _ => commit) c) = (Ret R_OK, None) /\
  value (commit c) = (Ret R_OK, Some (bs "v")).
Proof. split_and!; vm_compute; reflexivity. Qed.

End Udf.
