(* ===== verification/Plugin.v ===== *)
(** * Starting and stopping the engine ([ha_tidesdb.cc], [ha_tidesdb_crypto_keyring.cc])

    The directory of the engine's files, the services key custody takes at start and gives back at stop,
    and the order in which library and key custody come up and go down.  Opening and closing the library
    and writing its log through are parameters ([LibraryDb]).  Filling the handlerton, the full-text
    dictionaries ([FtsWords]) and registering functions have no counterpart here. *)
From S2P Require Import Prelude Effects TidesDb RowDb Lifecycle KeyEnc Keyring FtsScore.
Import Keyring.
#[local] Open Scope Z_scope.
#[local] Open Scope tdb_scope.

Module Plugin.

(** ** The data directory *)

Definition SLASH : Z := 47.

(** [while (!s.empty() && s.back() == '/') s.pop_back()]; the string is given reversed. *)
Fixpoint drop_slashes (r : bytes) : bytes :=
  match r with c :: r' => if c =? SLASH then drop_slashes r' else r | [] => [] end.
Definition strip (s : bytes) : bytes := reverse (drop_slashes (reverse s)).

(** [s.substr(0, s.rfind('/') + 1)], reversed; [None] when there is no slash. *)
Fixpoint from_slash (r : bytes) : option bytes :=
  match r with c :: r' => if c =? SLASH then Some r else from_slash r' | [] => None end.

Definition tdb_path (srv_data_home_dir : option bytes) (mysql_real_data_home : bytes) : bytes :=
  match srv_data_home_dir with
  | Some (c :: p) => strip (c :: p)
  | _ =>
      match from_slash (reverse (strip mysql_real_data_home)) with
      | Some r => reverse r ++ bs "tidesdb_data"
      | None => bs "tidesdb_data"
      end
  end.

(** ** The library's configuration *)

Inductive log_level := TDB_LOG_TRACE | TDB_LOG_INFO | TDB_LOG_WARN | TDB_LOG_ERROR | TDB_LOG_NONE.
Inductive sync_mode := TDB_SYNC_NONE | TDB_SYNC_INTERVAL | TDB_SYNC_FULL.

Definition log_level_map : list log_level := [TDB_LOG_TRACE; TDB_LOG_INFO; TDB_LOG_WARN; TDB_LOG_ERROR; TDB_LOG_NONE].
Definition tdb_sync_mode_map : list sync_mode := [TDB_SYNC_NONE; TDB_SYNC_INTERVAL; TDB_SYNC_FULL].

(** The server's settings of the engine. *)
Record settings := {
  srv_flush_threads : Z;
  srv_compaction_threads : Z;
  srv_log_level : nat;
  srv_block_cache_size : Z;
  srv_max_open_sstables : Z;
  srv_log_to_file : bool;
  srv_log_truncation_at : Z;
  srv_memtable_write_buffer_size : Z;
  srv_memtable_sync_mode : nat;
  srv_memtable_sync_interval : Z;
  srv_memtable_skip_list_max_level : Z;
  srv_memtable_skip_list_probability : FtsScore.double;
  srv_vlog_segment_size : Z;
  srv_value_separation_threshold : Z;
  srv_memtable_l0_queue_stall_threshold : Z;
  srv_memtable_idle_flush_seconds : Z;
  srv_txn_timeout_seconds : Z }.

(** The members the engine sets. *)
Record db_config := {
  db_path : bytes;
  num_flush_threads : Z;
  num_compaction_threads : Z;
  cfg_log_level : log_level;
  block_cache_size : Z;
  max_open_sstables : Z;
  log_to_file : bool;
  log_truncation_at : Z;
  memtable_write_buffer_size : Z;
  memtable_sync_mode : sync_mode;
  memtable_sync_interval_us : Z;
  memtable_skip_list_max_level : Z;
  memtable_skip_list_probability : FtsScore.double;
  vlog_segment_size : Z;
  value_separation_threshold : Z;
  memtable_l0_queue_stall_threshold : Z;
  memtable_idle_flush_seconds : Z;
  txn_timeout_seconds : Z }.

(** [library] is the library's default, which the last five settings keep unless they are set; [None] is a read
    past the end of one of the two maps, which the server's enumerations exclude. *)
Definition build_db_config (library : db_config) (path : bytes) (v : settings) : option db_config :=
  lvl ← log_level_map !! srv_log_level v;
  mode ← tdb_sync_mode_map !! srv_memtable_sync_mode v;
  let over (x dflt : Z) := if negb (x =? 0) then x else dflt in
  let over_int (x dflt : Z) := if negb (x =? 0) then to_int x else dflt in
  let over_signed (x dflt : Z) := if 0 <=? x then x else dflt in
  Some {| db_path := path;
          num_flush_threads := to_int (srv_flush_threads v);
          num_compaction_threads := to_int (srv_compaction_threads v);
          cfg_log_level := lvl;
          block_cache_size := srv_block_cache_size v;
          max_open_sstables := to_int (srv_max_open_sstables v);
          log_to_file := srv_log_to_file v;
          log_truncation_at := srv_log_truncation_at v;
          memtable_write_buffer_size := srv_memtable_write_buffer_size v;
          memtable_sync_mode := mode;
          memtable_sync_interval_us := srv_memtable_sync_interval v;
          memtable_skip_list_max_level := to_int (srv_memtable_skip_list_max_level v);
          memtable_skip_list_probability := FtsScore.to_single (srv_memtable_skip_list_probability v);
          vlog_segment_size := over (srv_vlog_segment_size v) (vlog_segment_size library);
          value_separation_threshold := over (srv_value_separation_threshold v) (value_separation_threshold library);
          memtable_l0_queue_stall_threshold :=
            over_int (srv_memtable_l0_queue_stall_threshold v) (memtable_l0_queue_stall_threshold library);
          memtable_idle_flush_seconds := over_signed (srv_memtable_idle_flush_seconds v) (memtable_idle_flush_seconds library);
          txn_timeout_seconds := over_signed (srv_txn_timeout_seconds v) (txn_timeout_seconds library) |}.

(** The library's own start and stop. *)
Class LibraryDb (E txn : Type) `{!TidesDb E txn} := {
  lib_open : db_config -> M E tdb_rc;
  lib_close : M E unit;
  sync_wal : M E tdb_rc;
  lib_open_law d cfg : spec (fun e => committed e = d) (lib_open cfg) (fun _ e => committed e = d) (fun e => committed e = d);
  lib_close_law d : spec (fun e => committed e = d) lib_close (fun _ e => committed e = d) (fun e => committed e = d);
  sync_wal_law d : spec (fun e => committed e = d) sync_wal (fun _ e => committed e = d) (fun e => committed e = d) }.

(** ** Key custody *)

(** What the server offers at start: its service registry, the three keyring services, the value of
    [server_uuid] when it can be read. *)
Record server_services := { registry : bool; keyring_component : bool; server_uuid : option bytes }.

Definition tdb_read_server_uuid (w : server_services) : bytes :=
  if negb (registry w) then [] else default [] (server_uuid w).

Section code.
Context {E txn K R : Type} `{!TidesDb E txn, !FamilyDb E txn, !LibraryDb E txn, !KeyringSvc K R}.
Local Open Scope eff_scope.

#[local] Abbreviation st := (crypto E K).

Definition set_services (b : bool) (uuid : bytes) (cf : bool) (s : st) : st :=
  {| db := db s; kr := kr s; tdb_master_generation := tdb_master_generation s; tdb_server_uuid := uuid; tdb_global := tdb_global s;
     tdb_crypto_cf := cf; tdb_keyring_reader := b; tdb_keyring_generator := b |}.
Definition set_open (b : bool) (s : st) : st :=
  {| db := db s; kr := kr s; tdb_master_generation := tdb_master_generation s; tdb_server_uuid := tdb_server_uuid s; tdb_global := b;
     tdb_crypto_cf := tdb_crypto_cf s; tdb_keyring_reader := tdb_keyring_reader s; tdb_keyring_generator := tdb_keyring_generator s |}.

(** The family of the keys, made when it is not there. *)
Definition open_key_family : M st bool :=
  found <-- on_db (get_cf TDB_CRYPTO_CF_NAME);
  if found : bool then ret true
  else
    rc <-- on_db (create_cf TDB_CRYPTO_CF_NAME);
    if tdb_ok rc then on_db (get_cf TDB_CRYPTO_CF_NAME) else ret false.

Definition tdb_crypto_init (w : server_services) : M st bool :=
  if negb (registry w) || negb (keyring_component w) then ret true
  else
    modify (fun s => set_services true (tdb_read_server_uuid w) (tdb_crypto_cf s) s);;
    cf <-- open_key_family;
    modify (fun s => set_services true (tdb_server_uuid s) cf s);;
    ret true.

(** [registry] is [tdb_registry], which a start that found none leaves null. *)
Definition tdb_crypto_deinit (registry : bool) : M st unit :=
  if negb registry then ret tt
  else modify (fun s => with_generation KeyEnc.GENERATION_NONE (set_services false [] false s)).

(** ** The engine *)

(** The answer is the plugin's: 1 is a failure; [None] is a setting outside its enumeration. *)
Definition tidesdb_init_func (w : server_services) (library : db_config) (v : settings) (home : option bytes) (data_home : bytes) :
    M st (option Z) :=
  match build_db_config library (tdb_path home data_home) v with
  | None => ret None
  | Some cfg =>
      rc <-- on_db (lib_open cfg);
      if negb (tdb_ok rc) then ret (Some 1)
      else
        modify (set_open true);;
        ok <-- tdb_crypto_init w;
        if ok : bool then ret (Some 0)
        else on_db lib_close;; modify (set_open false);; ret (Some 1)
  end.

Definition close_library : M st unit :=
  g <-- gets tdb_global;
  if g : bool then on_db lib_close;; modify (set_open false) else ret tt.

Definition tidesdb_deinit_func (registry : bool) : M st Z := close_library;; tdb_crypto_deinit registry;; ret 0.

Definition tidesdb_hton_panic (closing : bool) : M st Z := if negb closing then ret 0 else close_library;; ret 0.

(** [true] is a failure. *)
Definition tidesdb_hton_flush_logs : M st bool :=
  g <-- gets tdb_global;
  if negb g then ret false else rc <-- on_db sync_wal; ret (negb (tdb_ok rc)).

Definition tidesdb_hton_pre_shutdown : M st unit :=
  g <-- gets tdb_global;
  if negb g then ret tt else tidesdb_hton_flush_logs;; ret tt.

End code.

(** ** Lemmas *)

(** The engine's files lie beside the server's data directory, never in it. *)
Lemma data_directory_is_sibling home dir :
  (SLASH ∉ dir) -> dir <> [] -> tdb_path None (home ++ SLASH :: dir) = home ++ SLASH :: bs "tidesdb_data".
Proof.
  intros Hd Hne. assert (forall r more, (SLASH ∉ r) -> from_slash (r ++ SLASH :: more) = Some (SLASH :: more)) as Hf.
  { intros r more. induction r as [|c r IH]; intros Hr; [done|]. apply not_elem_of_cons in Hr as [Hc Hr]. simpl.
    destruct (Z.eqb_spec c SLASH); [congruence|by apply IH]. }
  assert (strip (home ++ SLASH :: dir) = home ++ SLASH :: dir) as E.
  { unfold strip. rewrite reverse_app, reverse_cons, <- app_assoc. simpl.
    destruct (reverse dir) as [|c r] eqn:Er; [by rewrite <- (reverse_involutive dir), Er in Hne|]. simpl.
    assert (c <> SLASH) as Hc. { intros ->. apply Hd. rewrite <- (reverse_involutive dir), Er. apply elem_of_reverse. left. }
    destruct (Z.eqb_spec c SLASH); [done|]. rewrite app_comm_cons, <- Er. rewrite reverse_app, reverse_involutive.
    rewrite reverse_cons, reverse_involutive, <- app_assoc. done. }
  unfold tdb_path. rewrite E, reverse_app, reverse_cons, <- app_assoc. simpl.
  rewrite Hf by (by rewrite elem_of_reverse). rewrite reverse_cons, reverse_involutive, <- app_assoc. done.
Qed.

(** A library that answers starts, for every log level and sync mode the server accepts, and keeps its defaults
    where the settings are at theirs. *)
Lemma settings_follow_library library path v :
  (srv_log_level v < 5)%nat -> (srv_memtable_sync_mode v < 3)%nat ->
  exists cfg, build_db_config library path v = Some cfg /\ db_path cfg = path /\
    (srv_vlog_segment_size v = 0 -> vlog_segment_size cfg = vlog_segment_size library) /\
    (srv_value_separation_threshold v = 0 -> value_separation_threshold cfg = value_separation_threshold library) /\
    (srv_memtable_l0_queue_stall_threshold v = 0 -> memtable_l0_queue_stall_threshold cfg = memtable_l0_queue_stall_threshold library) /\
    (srv_memtable_idle_flush_seconds v = -1 -> memtable_idle_flush_seconds cfg = memtable_idle_flush_seconds library) /\
    (srv_txn_timeout_seconds v = -1 -> txn_timeout_seconds cfg = txn_timeout_seconds library).
Proof.
  intros Hl Hm. unfold build_db_config.
  destruct (lookup_lt_is_Some_2 log_level_map (srv_log_level v) Hl) as [lvl ->].
  destruct (lookup_lt_is_Some_2 tdb_sync_mode_map (srv_memtable_sync_mode v) Hm) as [mode ->]. simpl.
  eexists. split; [done|]. simpl. split_and!; [done|by intros ->..].
Qed.

Section Start.
Context {E txn K R : Type} `{!TidesDb E txn, !FamilyDb E txn, !QuietDb E txn, !QuietFamilies E txn, !LibraryDb E txn, !KeyringSvc K R}.
#[local] Abbreviation st := (crypto E K).
#[local] Abbreviation run P m Q := (spec P m Q (fun _ => True)).

(** The contents [d] with the family of the keys, added when it was not there. *)
Definition with_key_family (d : store) : store := if decide (is_Some (d !! TDB_CRYPTO_CF_NAME)) then d else <[TDB_CRYPTO_CF_NAME := ∅]> d.

(** The library holds [d] and does not fail, and the rest of the state is [s0]'s. *)
Definition settled (s0 : st) (d : store) (s : st) : Prop :=
  Lifecycle.at_store d (db s) /\ kr s = kr s0 /\ tdb_server_uuid s = tdb_server_uuid s0 /\ tdb_global s = tdb_global s0.

Lemma on_db_settled {A : Type} s0 d (m : M E A) (Q : A -> E -> Prop) :
  run (Lifecycle.at_store d) m Q ->
  run (settled s0 d) (on_db m) (fun a s => Q a (db s) /\ kr s = kr s0 /\ tdb_server_uuid s = tdb_server_uuid s0 /\ tdb_global s = tdb_global s0).
Proof.
  intros Hm. apply spec_lift. intros s (Hd & Hk & Hu & Hg) e ->. specialize (Hm _ Hd). by destruct (m (db s)) as [e' [a|]].
Qed.

Lemma family_quiet d nm :
  run (Lifecycle.at_store d) (get_cf nm) (fun b e => b = bool_decide (is_Some (d !! nm)) /\ Lifecycle.at_store d e).
Proof.
  eapply spec_weaken; [apply (spec_conj _ _ _ _ _ _ _ (quiet_get_cf nm) (get_cf_law d nm))|done| |done].
  intros b e [Hq [Hd ->]]. done.
Qed.

Lemma create_cf_quiet d nm :
  d !! nm = None ->
  run (Lifecycle.at_store d) (create_cf nm) (fun rc e => rc = TDB_SUCCESS /\ Lifecycle.at_store (<[nm := ∅]> d) e).
Proof.
  intros Hn. eapply spec_weaken; [apply (spec_conj _ _ _ _ _ _ _ (quiet_create_cf nm) (create_cf_law d nm))| | |done].
  - intros e [Hq Hd]. by rewrite Hd.
  - intros rc e [[Hq ->] Hd]. by rewrite Hn in Hd.
Qed.

Lemma open_key_family_spec s0 d :
  run (settled s0 d) open_key_family (fun b s => b = true /\ settled s0 (with_key_family d) s).
Proof.
  unfold open_key_family, with_key_family. eapply spec_bind; [apply (on_db_settled s0 d _ _ (family_quiet d TDB_CRYPTO_CF_NAME))|].
  intros b. apply (spec_pure _ (b = bool_decide (is_Some (d !! TDB_CRYPTO_CF_NAME)))); [by intros s [[? _] _]|]. intros ->.
  eapply (spec_pre _ (settled s0 d)); [|by intros s [[_ ?] ?]].
  case_decide as Hd; [rewrite bool_decide_true by done; by apply spec_ret|]. rewrite bool_decide_false by done.
  assert (d !! TDB_CRYPTO_CF_NAME = None) as Hn by (destruct (d !! TDB_CRYPTO_CF_NAME); [by destruct Hd|done]).
  eapply spec_bind; [apply (on_db_settled s0 d _ _ (create_cf_quiet d TDB_CRYPTO_CF_NAME Hn))|]. intros rc.
  apply (spec_pure _ (rc = TDB_SUCCESS)); [by intros s [[? _] _]|]. intros ->. cbn [tdb_ok].
  eapply (spec_pre _ (settled s0 (<[TDB_CRYPTO_CF_NAME := ∅]> d))); [|by intros s [[_ ?] ?]].
  eapply spec_weaken; [apply (on_db_settled s0 _ _ _ (family_quiet (<[TDB_CRYPTO_CF_NAME := ∅]> d) TDB_CRYPTO_CF_NAME))|done| |done].
  intros b s [[-> Hs] ?]. split; [|done]. apply bool_decide_true. by rewrite lookup_insert_eq.
Qed.

(** On a library that does not fail, a start makes key custody available just when the server has a keyring and
    its uuid can be read; it keeps the keys that are there and the keyring. *)
Lemma init_availability (w : server_services) d (s0 : st) :
  registry w = true -> keyring_component w = true -> Lifecycle.at_store d (db s0) ->
  run (fun s => s = s0) (tdb_crypto_init w)
    (fun ok s => ok = true /\ committed (db s) = with_key_family d /\ kr s = kr s0 /\
       tdb_crypto_available s = negb (zlen (default [] (server_uuid w)) =? 0)).
Proof.
  intros Hr Hk Hd. unfold tdb_crypto_init. rewrite Hr, Hk. cbn [negb orb].
  set (s1 := set_services true (tdb_read_server_uuid w) (tdb_crypto_cf s0) s0).
  eapply (spec_bind _ _ (fun _ => settled s1 d)); [apply spec_modify; by intros s ->|]. intros _.
  eapply spec_bind; [apply open_key_family_spec|]. intros b. apply (spec_pure _ (b = true)); [by intros s [? _]|]. intros ->.
  eapply (spec_bind _ _ (fun _ s => committed (db s) = with_key_family d /\ kr s = kr s0 /\
    tdb_crypto_available s = negb (zlen (default [] (server_uuid w)) =? 0))).
  - apply spec_modify. intros s (_ & [_ Hs] & Hkr & Hu & _). split_and!; [done|done|]. unfold tdb_crypto_available. simpl.
    rewrite Hu. unfold s1, tdb_read_server_uuid. simpl. by rewrite Hr.
  - intros _. by apply spec_ret.
Qed.

End Start.
End Plugin.
