(* ===== verification/Status.v ===== *)
(** * Status reports ([src/engine/ha_tidesdb_status.cc])

    The counters behind SHOW STATUS, their refresh, and the text of SHOW ENGINE TIDESDB STATUS, which is
    written piece by piece into a buffer of fixed size.  What the library reports is a parameter
    ([StatusDb]), one query per report; the clock and the outcome of the atomic exchange are arguments.
    The buffer is a memory: a piece written past its end is in the memory like any other. *)
From Stdlib Require Import SpecFloat.
From S2P Require Import Prelude Effects TidesDb CfName FtsScore.
#[local] Open Scope Z_scope.
#[local] Open Scope tdb_scope.

Import FtsScore (double, dmul, ddiv, dlt, of_int, ZERO).

(** ** What the library reports *)

Record tidesdb_db_stats_t := {
  num_column_families : Z; global_seq : Z; min_snapshot_seq : Z; active_txn_count : Z; memtable_bytes : Z; txn_memory_bytes : Z;
  total_sstable_count : Z; num_open_sstables : Z; total_data_size_bytes : Z; immutable_memtable_count : Z;
  compaction_pending_count : Z; is_flushing : bool; wal_generation : Z; next_cf_index : Z;
  flush_bytes_written : Z; flush_count : Z; compaction_bytes_written : Z; compaction_count : Z; compaction_bytes_read : Z;
  user_bytes_written : Z; vlog_bytes_written : Z; vlog_file_size : Z; vlog_value_count : Z; vlog_used_bytes : Z;
  vlog_stored_bytes : Z; vlog_live_bytes : Z; vlog_dead_bytes : Z; vlog_segment_count : Z; vlog_segments_drainable : Z;
  vlog_segments_retired : Z; vlog_reclaim_calls : Z; vlog_reclaim_passes : Z;
  writes_throttled : Z; writes_blocked : Z; write_stall_us : Z; write_stall_ceiling_hits : Z }.

Record tidesdb_cache_stats_t := {
  enabled : bool; total_entries : Z; total_bytes : Z; hits : Z; misses : Z; hit_rate : double; num_partitions : Z }.

Record tidesdb_io_stat_t := { ops : Z; io_bytes : Z; io_total_us : Z; io_max_us : Z }.
Record tidesdb_stall_stat_t := { count : Z; stall_total_us : Z; stall_max_us : Z }.
Record tidesdb_encoding_stats_t := { logical_bytes : Z; stored_bytes : Z }.

(** A level of a family: tables, keys, tombstones, bytes. *)
Record level_stats := { level_num_sstables : Z; level_key_counts : Z; level_tombstone_counts : Z; level_sizes : Z }.

Record family_stats := {
  num_levels : Z; total_keys : Z; unflushed_key_count : Z; total_data_size : Z; read_amp : double; avg_key_size : double;
  avg_value_size : double; btree_avg_height : double; btree_max_height : Z; btree_total_nodes : Z; tombstone_ratio : double;
  levels : list level_stats; wal_bytes_written : Z; family_compaction_count : Z;
  total_tombstones : Z; max_sst_density : double; max_sst_density_level : Z }.

Inductive query : Type -> Type :=
  | Q_db : query tidesdb_db_stats_t
  | Q_cache : query tidesdb_cache_stats_t
  | Q_io : query (nat -> tidesdb_io_stat_t)
  | Q_stall : query (nat -> tidesdb_stall_stat_t)
  | Q_klog : query (list tidesdb_encoding_stats_t)
  | Q_vlog : query (list tidesdb_encoding_stats_t)
  | Q_family (cf : bytes) : query family_stats.

(** Reports change nothing.  The positions and names of the metered devices and stall reasons are the library's. *)
Class StatusDb (E txn : Type) `{!TidesDb E txn} := {
  ask : forall A : Type, query A -> M E (tdb_rc + A);
  ask_law d A (q : query A) :
    spec (fun e => committed e = d) (ask A q) (fun _ e => committed e = d) (fun e => committed e = d);
  TDB_IO_COUNT : nat; TDB_IO_SSTABLE : nat; TDB_IO_WAL : nat; io_class_name : nat -> bytes;
  TDB_STALL_COUNT : nat; TDB_STALL_WAL_APPEND : nat; TDB_STALL_ROTATE_LOCK : nat; TDB_STALL_ROTATE_WORK : nat;
  TDB_STALL_ADMISSION : nat; TDB_STALL_MANIFEST_COMMIT : nat; stall_reason_name : nat -> bytes;
  TDB_MAX_LEVELS : nat }.
Arguments ask {E txn _ _ A} q.

Module Status.

(** [memset(&st, 0, sizeof(st))] *)
Definition zero_db : tidesdb_db_stats_t :=
  Build_tidesdb_db_stats_t 0 0 0 0 0 0 0 0 0 0 0 false 0 0 0 0 0 0 0 0 0 0 0 0 0 0 0 0 0 0 0 0 0 0 0 0.
Definition zero_cache : tidesdb_cache_stats_t := Build_tidesdb_cache_stats_t false 0 0 0 0 ZERO 0.
Definition zero_io : nat -> tidesdb_io_stat_t := fun _ => Build_tidesdb_io_stat_t 0 0 0 0.
Definition zero_stall : nat -> tidesdb_stall_stat_t := fun _ => Build_tidesdb_stall_stat_t 0 0 0.

(** ** The output of [printf] *)

Definition nl : bytes := [10].

(** [%lu], [%u], [%zu]. *)
Definition lu (z : Z) : bytes := to_string (u64 z).
(** [%d], [%ld]. *)
Definition dec (z : Z) : bytes := if z <? 0 then 45 :: to_string (- z) else to_string z.

Fixpoint digits (fuel : nat) (n : Z) : bytes :=
  match fuel with
  | O => []
  | S fuel => (if n <? 10 then [] else digits fuel (n / 10)) ++ [48 + n `mod` 10]
  end.

(** [m * 2 ^ e] to the nearest integer, to the even one in the middle. *)
Definition nearest (m e : Z) : Z :=
  if 0 <=? e then m * 2 ^ e
  else
    let q := Z.shiftr m (- e) in
    let r := 2 * (m - Z.shiftl q (- e)) in
    if (2 ^ (- e) <? r) || ((2 ^ (- e) =? r) && Z.odd q) then q + 1 else q.

Definition with_point (n : nat) (q : Z) : bytes :=
  let whole := q / 10 ^ Z.of_nat n in
  let part := digits n (q `mod` 10 ^ Z.of_nat n) in
  digits (S (Z.to_nat (Z.log2 whole))) whole ++
  (if Nat.eqb n 0 then [] else 46 :: replicate (n - length part) 48 ++ part).

Definition signed (s : bool) (t : bytes) : bytes := if s then 45 :: t else t.

(** [%.nf] *)
Definition fixed (n : nat) (x : double) : bytes :=
  match x with
  | S754_zero s => signed s (with_point n 0)
  | S754_infinity s => signed s (bs "inf")
  | S754_nan => bs "nan"
  | S754_finite s m e => signed s (with_point n (nearest (Zpos m * 10 ^ Z.of_nat n) e))
  end.

(** ** The buffer *)

Record out_buf := { cells : gmap Z Z; pos : Z }.

Definition store_at (p : Z) (text : bytes) (mem : gmap Z Z) : gmap Z Z :=
  (fold_left (fun '(i, m) c => (i + 1, <[i := c]> m)) text (p, mem)).2.

(** [pos += snprintf(buf + pos, sz - pos, ...)]; the difference is a [size_t]. *)
Definition put_line (sz : Z) (b : out_buf) (text : bytes) : out_buf :=
  let n := u64 (sz - pos b) in
  let shown := if zlen text <? n then text else take (Z.to_nat (n - 1)) text in
  {| cells := if n =? 0 then cells b else store_at (pos b) (shown ++ [0]) (cells b); pos := pos b + zlen text |}.

Definition put_lines (sz : Z) : list bytes -> out_buf -> out_buf := fun l b => fold_left (put_line sz) l b.

(** ** The sections *)

Definition PERCENT_SCALE : double := of_int 100.
Definition yes_no (b : bool) : bytes := if b then bs "YES" else bs "NO".

Definition status_format_db_stats (tdb_path : bytes) (st : tidesdb_db_stats_t) : list bytes :=
  let total_out_bytes := u64 (flush_bytes_written st + compaction_bytes_written st + vlog_bytes_written st) in
  let wa_total := if 0 <? user_bytes_written st then ddiv (of_int total_out_bytes) (of_int (user_bytes_written st)) else ZERO in
  [ bs "================== TidesDB Engine Status ==================" ++ nl;
    bs "Data directory: " ++ tdb_path ++ nl;
    bs "Column families: " ++ dec (num_column_families st) ++ nl;
    bs "Global sequence: " ++ lu (global_seq st) ++ nl;
    bs "Min snapshot sequence: " ++ lu (min_snapshot_seq st) ++ nl;
    bs "Active transactions: " ++ dec (active_txn_count st) ++ nl;
    nl ++ bs "=+=+= Memory =+=+=" ++ nl;
    bs "Memtable bytes: " ++ dec (memtable_bytes st) ++ nl;
    bs "Transaction memory bytes: " ++ dec (txn_memory_bytes st) ++ nl;
    nl ++ bs "=+=+= Storage =+=+=" ++ nl;
    bs "Total SSTables: " ++ dec (total_sstable_count st) ++ nl;
    bs "Open SSTable handles: " ++ dec (num_open_sstables st) ++ nl;
    bs "Total data size: " ++ lu (total_data_size_bytes st) ++ bs " bytes" ++ nl;
    bs "Immutable memtables: " ++ dec (immutable_memtable_count st) ++ nl;
    nl ++ bs "=+=+= Background =+=+=" ++ nl;
    bs "Flush pending: " ++ dec (immutable_memtable_count st) ++ nl;
    bs "Compaction pending: " ++ dec (compaction_pending_count st) ++ nl;
    bs "Currently flushing: " ++ yes_no (is_flushing st) ++ nl;
    bs "WAL generation: " ++ lu (wal_generation st) ++ nl;
    bs "Next CF index: " ++ lu (next_cf_index st) ++ nl;
    nl ++ bs "=+=+= Write Amplification =+=+=" ++ nl;
    bs "User bytes written: " ++ lu (user_bytes_written st) ++ nl;
    bs "Flush bytes written: " ++ lu (flush_bytes_written st) ++ bs " (" ++ lu (flush_count st) ++ bs " sstables)" ++ nl;
    bs "Compaction bytes written: " ++ lu (compaction_bytes_written st) ++ bs " (" ++ lu (compaction_count st) ++ bs " sstables)" ++ nl;
    bs "Compaction bytes read: " ++ lu (compaction_bytes_read st) ++ nl;
    bs "Vlog bytes written: " ++ lu (vlog_bytes_written st) ++ nl;
    bs "Total WA ratio: " ++ fixed 2 wa_total ++ bs "x" ++ nl;
    nl ++ bs "=+=+= Value Log =+=+=" ++ nl;
    bs "File size: " ++ lu (vlog_file_size st) ++ bs " bytes" ++ nl;
    bs "Indexed values: " ++ lu (vlog_value_count st) ++ nl;
    bs "Used bytes: " ++ lu (vlog_used_bytes st) ++ nl;
    bs "Stored bytes: " ++ lu (vlog_stored_bytes st) ++ nl;
    bs "Live bytes: " ++ lu (vlog_live_bytes st) ++ nl;
    bs "Dead bytes: " ++ lu (vlog_dead_bytes st) ++ nl;
    bs "Segments: " ++ lu (vlog_segment_count st) ++ bs " (drainable " ++ lu (vlog_segments_drainable st) ++ bs ", retired " ++
      lu (vlog_segments_retired st) ++ bs ")" ++ nl;
    bs "Reclaim: " ++ lu (vlog_reclaim_calls st) ++ bs " calls, " ++ lu (vlog_reclaim_passes st) ++ bs " passes" ++ nl;
    nl ++ bs "=+=+= Write Stalls =+=+=" ++ nl;
    bs "Writes throttled: " ++ lu (writes_throttled st) ++ nl;
    bs "Writes blocked: " ++ lu (writes_blocked st) ++ nl;
    bs "Stall time: " ++ lu (write_stall_us st) ++ bs " us" ++ nl;
    bs "Admission ceiling hits: " ++ lu (write_stall_ceiling_hits st) ++ nl ].

Definition status_format_cache_stats (st : tidesdb_cache_stats_t) : list bytes :=
  [ nl ++ bs "=+=+= Block Cache =+=+=" ++ nl;
    bs "Enabled: " ++ yes_no (enabled st) ++ nl;
    bs "Entries: " ++ lu (total_entries st) ++ nl;
    bs "Size: " ++ lu (total_bytes st) ++ bs " bytes" ++ nl;
    bs "Hits: " ++ lu (hits st) ++ nl;
    bs "Misses: " ++ lu (misses st) ++ nl;
    bs "Hit rate: " ++ fixed 1 (dmul (hit_rate st) PERCENT_SCALE) ++ bs "%" ++ nl;
    bs "Partitions: " ++ lu (num_partitions st) ++ nl ].

Definition sum_of {A} (f : A -> Z) (l : list A) : Z := fold_left (fun acc x => u64 (acc + f x)) l 0.

Definition status_format_encoding_summary (title : bytes) (enc : list tidesdb_encoding_stats_t) : list bytes :=
  let logical := sum_of logical_bytes enc in
  let stored := sum_of stored_bytes enc in
  let ratio := if 0 <? stored then ddiv (of_int logical) (of_int stored) else ZERO in
  [ nl ++ bs "=+=+= " ++ title ++ bs " Encoding =+=+=" ++ nl;
    bs "Chains: " ++ lu (zlen enc) ++ bs ", logical " ++ lu logical ++ bs " bytes, stored " ++ lu stored ++ bs " bytes, " ++
      fixed 2 ratio ++ bs "x" ++ nl ].

(** The lines of one family. *)
Definition level_text (l : nat) (v : level_stats) : bytes :=
  bs " L" ++ dec (Z.of_nat l + 1) ++ bs "[" ++ dec (level_num_sstables v) ++ bs "/" ++ lu (level_key_counts v) ++ bs "/" ++
  lu (level_tombstone_counts v) ++ bs "/" ++ lu (level_sizes v) ++ bs "]".

Definition family_lines (max_levels : nat) (nm : bytes) (st : family_stats) : list bytes :=
  [ nm ++ bs ": " ++ dec (num_levels st) ++ bs " levels, " ++ lu (total_keys st) ++ bs " keys (" ++ lu (unflushed_key_count st) ++
      bs " unflushed), " ++ lu (total_data_size st) ++ bs " bytes, read amp " ++ fixed 2 (read_amp st) ++ nl;
    bs "  avg key " ++ fixed 0 (avg_key_size st) ++ bs ", avg value " ++ fixed 0 (avg_value_size st) ++ bs ", btree height " ++
      fixed 1 (btree_avg_height st) ++ bs "/" ++ lu (btree_max_height st) ++ bs " over " ++ lu (btree_total_nodes st) ++
      bs " nodes, tombstone ratio " ++ fixed 2 (dmul (tombstone_ratio st) PERCENT_SCALE) ++ bs "%" ++ nl;
    bs "  levels [sstables/keys/tombstones/bytes]:" ] ++
  zip_with level_text (seq 0 (length (levels st))) (take (Z.to_nat (num_levels st) `min` max_levels) (levels st)) ++
  [ nl ++ bs "  WAL " ++ lu (wal_bytes_written st) ++ bs " bytes, " ++ lu (family_compaction_count st) ++ bs " compactions" ++ nl ].

Definition STATUS_CF_MARGIN : Z := 512.
Definition TIDESDB_STATUS_BUF_LEN : Z := 32768.

Definition truncation_line (left_over : Z) : bytes := bs "... " ++ dec left_over ++ bs " more families truncated" ++ nl.

(** The families the report leaves out: the engine's own. *)
Definition internal (nm : bytes) : bool :=
  CfName.tidesql_is_reserved_cf (Some nm) || bool_decide (take 9 nm = bs "__tidesdb").

(** ** The variables behind SHOW STATUS, grouped by the function that sets them *)

Record db_vars := {
  srv_column_families : Z; srv_global_seq : Z; srv_memtable_bytes : Z; srv_txn_memory_bytes : Z; srv_total_sstables : Z;
  srv_open_sstables : Z; srv_data_size_bytes : Z; srv_immutable_memtables : Z; srv_flush_pending : Z; srv_compaction_queue : Z;
  srv_cache_entries : Z; srv_cache_bytes : Z; srv_cache_hits : Z; srv_cache_misses : Z; srv_cache_hit_rate : double;
  srv_cache_partitions : Z; srv_memtable_is_flushing : Z; srv_wal_generation : Z; srv_flush_bytes_written : Z;
  srv_compaction_bytes_written : Z; srv_compaction_bytes_read : Z; srv_user_bytes_written : Z; srv_flush_count : Z;
  srv_compaction_count : Z; srv_active_transactions : Z; srv_min_snapshot_seq : Z; srv_vlog_file_size : Z; srv_vlog_value_count : Z;
  srv_vlog_used_bytes : Z; srv_vlog_bytes_written : Z; srv_writes_throttled : Z; srv_writes_blocked : Z; srv_write_stall_us : Z;
  srv_write_stall_ceiling_hits : Z }.
Record io_vars := { srv_sstable_write_ops : Z; srv_sstable_write_bytes : Z; srv_wal_write_ops : Z; srv_wal_write_bytes : Z }.
Record stall_vars := { srv_wal_append : Z; srv_rotate_lock : Z; srv_rotate_work : Z; srv_admission : Z; srv_manifest_commit : Z }.
(** Logical and stored bytes. *)
Record enc_vars := { srv_logical : Z; srv_stored : Z }.
Record tomb_vars := { srv_total_tombstones : Z; srv_tombstone_ratio : double; srv_max_sst_density : double; srv_max_sst_density_level : Z }.

Record status_vars := {
  v_db : db_vars; v_io : io_vars; v_stall : stall_vars; v_klog : enc_vars; v_vlog : enc_vars; v_tomb : tomb_vars;
  refresh_last_us : Z; srv_tombstone_stats_last_us : Z }.

(** The copy of the database and cache reports. *)
Definition copy_db (st : tidesdb_db_stats_t) (c : tidesdb_cache_stats_t) : db_vars := {|
  srv_column_families := num_column_families st; srv_global_seq := to_i64 (global_seq st);
  srv_memtable_bytes := memtable_bytes st; srv_txn_memory_bytes := txn_memory_bytes st;
  srv_total_sstables := total_sstable_count st; srv_open_sstables := num_open_sstables st;
  srv_data_size_bytes := to_i64 (total_data_size_bytes st); srv_immutable_memtables := immutable_memtable_count st;
  srv_flush_pending := immutable_memtable_count st; srv_compaction_queue := compaction_pending_count st;
  srv_cache_entries := to_i64 (total_entries c); srv_cache_bytes := to_i64 (total_bytes c); srv_cache_hits := to_i64 (hits c);
  srv_cache_misses := to_i64 (misses c); srv_cache_hit_rate := dmul (hit_rate c) PERCENT_SCALE;
  srv_cache_partitions := to_i64 (num_partitions c); srv_memtable_is_flushing := if is_flushing st then 1 else 0;
  srv_wal_generation := to_i64 (wal_generation st); srv_flush_bytes_written := to_i64 (flush_bytes_written st);
  srv_compaction_bytes_written := to_i64 (compaction_bytes_written st); srv_compaction_bytes_read := to_i64 (compaction_bytes_read st);
  srv_user_bytes_written := to_i64 (user_bytes_written st); srv_flush_count := to_i64 (flush_count st);
  srv_compaction_count := to_i64 (compaction_count st); srv_active_transactions := active_txn_count st;
  srv_min_snapshot_seq := to_i64 (min_snapshot_seq st); srv_vlog_file_size := to_i64 (vlog_file_size st);
  srv_vlog_value_count := to_i64 (vlog_value_count st); srv_vlog_used_bytes := to_i64 (vlog_used_bytes st);
  srv_vlog_bytes_written := to_i64 (vlog_bytes_written st); srv_writes_throttled := to_i64 (writes_throttled st);
  srv_writes_blocked := to_i64 (writes_blocked st); srv_write_stall_us := to_i64 (write_stall_us st);
  srv_write_stall_ceiling_hits := to_i64 (write_stall_ceiling_hits st) |}.

Section code.
Context {E txn : Type} `{!TidesDb E txn, !FamilyDb E txn, !StatusDb E txn}.
Local Open Scope eff_scope.

(** The library and the static variables of the module; [open] says that [tdb_global] is set. *)
Record status := { lib : E; vars : status_vars }.
Definition set_lib (e : E) (s : status) : status := {| lib := e; vars := vars s |}.
Definition set_vars (f : status_vars -> status_vars) (s : status) : status := {| lib := lib s; vars := f (vars s) |}.
Definition on_db {A} (m : M E A) : M status A := lift lib set_lib m.

Definition set_db (x : db_vars) (v : status_vars) : status_vars := {|
  v_db := x; v_io := v_io v; v_stall := v_stall v; v_klog := v_klog v; v_vlog := v_vlog v; v_tomb := v_tomb v;
  refresh_last_us := refresh_last_us v; srv_tombstone_stats_last_us := srv_tombstone_stats_last_us v |}.
Definition set_io (x : io_vars) (v : status_vars) : status_vars := {|
  v_db := v_db v; v_io := x; v_stall := v_stall v; v_klog := v_klog v; v_vlog := v_vlog v; v_tomb := v_tomb v;
  refresh_last_us := refresh_last_us v; srv_tombstone_stats_last_us := srv_tombstone_stats_last_us v |}.
Definition set_stall (x : stall_vars) (v : status_vars) : status_vars := {|
  v_db := v_db v; v_io := v_io v; v_stall := x; v_klog := v_klog v; v_vlog := v_vlog v; v_tomb := v_tomb v;
  refresh_last_us := refresh_last_us v; srv_tombstone_stats_last_us := srv_tombstone_stats_last_us v |}.
Definition set_klog (x : enc_vars) (v : status_vars) : status_vars := {|
  v_db := v_db v; v_io := v_io v; v_stall := v_stall v; v_klog := x; v_vlog := v_vlog v; v_tomb := v_tomb v;
  refresh_last_us := refresh_last_us v; srv_tombstone_stats_last_us := srv_tombstone_stats_last_us v |}.
Definition set_vlog (x : enc_vars) (v : status_vars) : status_vars := {|
  v_db := v_db v; v_io := v_io v; v_stall := v_stall v; v_klog := v_klog v; v_vlog := x; v_tomb := v_tomb v;
  refresh_last_us := refresh_last_us v; srv_tombstone_stats_last_us := srv_tombstone_stats_last_us v |}.
Definition set_tomb (x : tomb_vars) (v : status_vars) : status_vars := {|
  v_db := v_db v; v_io := v_io v; v_stall := v_stall v; v_klog := v_klog v; v_vlog := v_vlog v; v_tomb := x;
  refresh_last_us := refresh_last_us v; srv_tombstone_stats_last_us := srv_tombstone_stats_last_us v |}.
Definition set_times (refresh tomb : Z) (v : status_vars) : status_vars := {|
  v_db := v_db v; v_io := v_io v; v_stall := v_stall v; v_klog := v_klog v; v_vlog := v_vlog v; v_tomb := v_tomb v;
  refresh_last_us := refresh; srv_tombstone_stats_last_us := tomb |}.

(** ** Refreshing *)

Definition TIDESDB_STATS_REFRESH_US : Z := 2000000.

(** [won] is the outcome of the compare-exchange: no other caller moved the stamp meanwhile. *)
Definition status_refresh_window_claimed (now : Z) (won : bool) : M status bool :=
  last <-- gets (fun s => refresh_last_us (vars s));
  if negb (last =? 0) && (now - last <=? TIDESDB_STATS_REFRESH_US) then ret false
  else if won then modify (set_vars (fun v => set_times now (srv_tombstone_stats_last_us v) v));; ret true
  else ret false.

(** A report whose return code is not looked at: what was there stays when it fails. *)
Definition report {A} (dflt : A) (q : query A) : M status A :=
  r <-- on_db (ask q); ret (match r with inr a => a | inl _ => dflt end).

Definition status_refresh_db_and_cache : M status unit :=
  st <-- report zero_db Q_db;
  c <-- report zero_cache Q_cache;
  modify (set_vars (set_db (copy_db st c))).

Definition status_refresh_io_and_stalls : M status unit :=
  io <-- on_db (ask Q_io);
  (match io with
   | inl _ => ret tt
   | inr io => modify (set_vars (set_io {| srv_sstable_write_ops := to_i64 (ops (io TDB_IO_SSTABLE));
                                           srv_sstable_write_bytes := to_i64 (io_bytes (io TDB_IO_SSTABLE));
                                           srv_wal_write_ops := to_i64 (ops (io TDB_IO_WAL));
                                           srv_wal_write_bytes := to_i64 (io_bytes (io TDB_IO_WAL)) |}))
   end);;
  stall <-- on_db (ask Q_stall);
  match stall with
  | inl _ => ret tt
  | inr st => modify (set_vars (set_stall {| srv_wal_append := to_i64 (count (st TDB_STALL_WAL_APPEND));
                                             srv_rotate_lock := to_i64 (count (st TDB_STALL_ROTATE_LOCK));
                                             srv_rotate_work := to_i64 (count (st TDB_STALL_ROTATE_WORK));
                                             srv_admission := to_i64 (count (st TDB_STALL_ADMISSION));
                                             srv_manifest_commit := to_i64 (count (st TDB_STALL_MANIFEST_COMMIT)) |}))
  end.

Definition status_sum_encoding (enc : list tidesdb_encoding_stats_t) : enc_vars :=
  {| srv_logical := to_i64 (sum_of logical_bytes enc); srv_stored := to_i64 (sum_of stored_bytes enc) |}.

Definition status_refresh_encoding : M status unit :=
  k <-- on_db (ask Q_klog);
  (match k with inl _ => ret tt | inr enc => modify (set_vars (set_klog (status_sum_encoding enc))) end);;
  v <-- on_db (ask Q_vlog);
  match v with inl _ => ret tt | inr enc => modify (set_vars (set_vlog (status_sum_encoding enc))) end.

Definition tidesdb_refresh_status_vars (opened : bool) (now : Z) (won : bool) : M status unit :=
  if negb opened then ret tt
  else
    claimed <-- status_refresh_window_claimed now won;
    if negb claimed then ret tt
    else status_refresh_db_and_cache;; status_refresh_io_and_stalls;; status_refresh_encoding.

(** ** Tombstones *)

(** Tombstones, keys, the worst density and its level, over the families seen so far. *)
Definition tombstone_sums : Type := Z * Z * double * Z.

Definition add_family (acc : tombstone_sums) (st : family_stats) : tombstone_sums :=
  let '(tomb, keys, density, level) := acc in
  (u64 (tomb + total_tombstones st), u64 (keys + total_keys st),
   if dlt density (max_sst_density st) then max_sst_density st else density,
   if dlt density (max_sst_density st) then max_sst_density_level st else level).

Fixpoint sum_families (names : list bytes) (acc : tombstone_sums) : M status tombstone_sums :=
  match names with
  | [] => ret acc
  | nm :: names =>
      if CfName.tidesql_is_reserved_cf (Some nm) then sum_families names acc
      else
        found <-- on_db (get_cf nm);
        if negb found then sum_families names acc
        else
          r <-- on_db (ask (Q_family nm));
          sum_families names (match r with inr st => add_family acc st | inl _ => acc end)
  end.

Definition TOMBSTONE_TTL_US : Z := 500000.

Definition tombstone_figures (acc : tombstone_sums) : tomb_vars :=
  let '(tomb, keys, density, level) := acc in
  {| srv_total_tombstones := to_i64 tomb;
     srv_tombstone_ratio := if 0 <? keys then ddiv (of_int tomb) (of_int keys) else ZERO;
     srv_max_sst_density := density; srv_max_sst_density_level := level |}.

Definition tidesdb_compute_tombstone_stats (opened : bool) (now : Z) : M status unit :=
  if negb opened then ret tt
  else
    last <-- gets (fun s => srv_tombstone_stats_last_us (vars s));
    if negb (last =? 0) && (now - last <? TOMBSTONE_TTL_US) then ret tt
    else
      modify (set_vars (fun v => set_times (refresh_last_us v) now v));;
      r <-- on_db list_cfs;
      match r with
      | None => ret tt
      | Some names =>
          acc <-- sum_families names (0, 0, ZERO, 0);
          modify (set_vars (set_tomb (tombstone_figures acc)))
      end.

(** ** SHOW STATUS *)

Inductive tomb_figure := F_total_tombstones | F_tombstone_ratio | F_max_sst_density | F_max_sst_density_level.
Inductive shown := SHOW_LONGLONG (z : Z) | SHOW_DOUBLE (x : double) | SHOW_CHAR_PTR (t : bytes) | SHOW_FUNC (f : tomb_figure).

Definition figure (f : tomb_figure) (t : tomb_vars) : shown :=
  match f with
  | F_total_tombstones => SHOW_LONGLONG (srv_total_tombstones t)
  | F_tombstone_ratio => SHOW_DOUBLE (srv_tombstone_ratio t)
  | F_max_sst_density => SHOW_DOUBLE (srv_max_sst_density t)
  | F_max_sst_density_level => SHOW_LONGLONG (srv_max_sst_density_level t)
  end.

(** The four callbacks. *)
Definition tdb_show_figure (opened : bool) (now : Z) (f : tomb_figure) : M status shown :=
  tidesdb_compute_tombstone_stats opened now;;
  gets (fun s => figure f (v_tomb (vars s))).

(** The rows with the values the variables have. *)
Definition tidesdb_status_vars_inner (version library_version : bytes) (version_hex : Z) (v : status_vars) : list (bytes * shown) :=
  let d := v_db v in
  [ (bs "version", SHOW_CHAR_PTR version); (bs "version_hex", SHOW_LONGLONG version_hex);
    (bs "library_version", SHOW_CHAR_PTR library_version);
    (bs "column_families", SHOW_LONGLONG (srv_column_families d)); (bs "global_sequence", SHOW_LONGLONG (srv_global_seq d));
    (bs "memtable_bytes", SHOW_LONGLONG (srv_memtable_bytes d)); (bs "txn_memory_bytes", SHOW_LONGLONG (srv_txn_memory_bytes d));
    (bs "total_sstables", SHOW_LONGLONG (srv_total_sstables d)); (bs "open_sstables", SHOW_LONGLONG (srv_open_sstables d));
    (bs "data_size_bytes", SHOW_LONGLONG (srv_data_size_bytes d));
    (bs "immutable_memtables", SHOW_LONGLONG (srv_immutable_memtables d)); (bs "flush_pending", SHOW_LONGLONG (srv_flush_pending d));
    (bs "compaction_queue", SHOW_LONGLONG (srv_compaction_queue d)); (bs "cache_entries", SHOW_LONGLONG (srv_cache_entries d));
    (bs "cache_bytes", SHOW_LONGLONG (srv_cache_bytes d)); (bs "cache_hits", SHOW_LONGLONG (srv_cache_hits d));
    (bs "cache_misses", SHOW_LONGLONG (srv_cache_misses d)); (bs "cache_hit_rate", SHOW_DOUBLE (srv_cache_hit_rate d));
    (bs "cache_partitions", SHOW_LONGLONG (srv_cache_partitions d));
    (bs "total_tombstones", SHOW_FUNC F_total_tombstones); (bs "tombstone_ratio", SHOW_FUNC F_tombstone_ratio);
    (bs "max_sst_tombstone_density", SHOW_FUNC F_max_sst_density);
    (bs "max_sst_tombstone_density_level", SHOW_FUNC F_max_sst_density_level);
    (bs "memtable_is_flushing", SHOW_LONGLONG (srv_memtable_is_flushing d)); (bs "wal_generation", SHOW_LONGLONG (srv_wal_generation d));
    (bs "flush_bytes_written", SHOW_LONGLONG (srv_flush_bytes_written d));
    (bs "compaction_bytes_written", SHOW_LONGLONG (srv_compaction_bytes_written d));
    (bs "compaction_bytes_read", SHOW_LONGLONG (srv_compaction_bytes_read d));
    (bs "user_bytes_written", SHOW_LONGLONG (srv_user_bytes_written d)); (bs "flush_count", SHOW_LONGLONG (srv_flush_count d));
    (bs "compaction_count", SHOW_LONGLONG (srv_compaction_count d));
    (bs "active_transactions", SHOW_LONGLONG (srv_active_transactions d));
    (bs "min_snapshot_sequence", SHOW_LONGLONG (srv_min_snapshot_seq d)); (bs "vlog_file_size", SHOW_LONGLONG (srv_vlog_file_size d));
    (bs "vlog_value_count", SHOW_LONGLONG (srv_vlog_value_count d)); (bs "vlog_used_bytes", SHOW_LONGLONG (srv_vlog_used_bytes d));
    (bs "vlog_bytes_written", SHOW_LONGLONG (srv_vlog_bytes_written d));
    (bs "writes_throttled", SHOW_LONGLONG (srv_writes_throttled d)); (bs "writes_blocked", SHOW_LONGLONG (srv_writes_blocked d));
    (bs "write_stall_us", SHOW_LONGLONG (srv_write_stall_us d));
    (bs "write_stall_ceiling_hits", SHOW_LONGLONG (srv_write_stall_ceiling_hits d));
    (bs "io_sstable_write_ops", SHOW_LONGLONG (srv_sstable_write_ops (v_io v)));
    (bs "io_sstable_write_bytes", SHOW_LONGLONG (srv_sstable_write_bytes (v_io v)));
    (bs "io_wal_write_ops", SHOW_LONGLONG (srv_wal_write_ops (v_io v)));
    (bs "io_wal_write_bytes", SHOW_LONGLONG (srv_wal_write_bytes (v_io v)));
    (bs "stall_wal_append", SHOW_LONGLONG (srv_wal_append (v_stall v))); (bs "stall_rotate_lock", SHOW_LONGLONG (srv_rotate_lock (v_stall v)));
    (bs "stall_rotate_work", SHOW_LONGLONG (srv_rotate_work (v_stall v))); (bs "stall_admission", SHOW_LONGLONG (srv_admission (v_stall v)));
    (bs "stall_manifest_commit", SHOW_LONGLONG (srv_manifest_commit (v_stall v)));
    (bs "klog_logical_bytes", SHOW_LONGLONG (srv_logical (v_klog v))); (bs "klog_stored_bytes", SHOW_LONGLONG (srv_stored (v_klog v)));
    (bs "vlog_encoded_logical_bytes", SHOW_LONGLONG (srv_logical (v_vlog v)));
    (bs "vlog_encoded_stored_bytes", SHOW_LONGLONG (srv_stored (v_vlog v))) ].

Definition tidesdb_show_status_vars_export (version library_version : bytes) (version_hex : Z) (opened : bool) (now : Z) (won : bool) :
    M status (list (bytes * shown)) :=
  tidesdb_refresh_status_vars opened now won;;
  gets (fun s => tidesdb_status_vars_inner version library_version version_hex (vars s)).

(** ** SHOW ENGINE TIDESDB STATUS *)

Definition status_format_tombstones (t : tomb_vars) : list bytes :=
  [ nl ++ bs "=+=+= Tombstones =+=+=" ++ nl;
    bs "Total tombstones: " ++ dec (srv_total_tombstones t) ++ nl;
    bs "Tombstone ratio: " ++ fixed 2 (dmul (srv_tombstone_ratio t) PERCENT_SCALE) ++ bs "%" ++ nl;
    bs "Worst SSTable density: " ++ fixed 2 (dmul (srv_max_sst_density t) PERCENT_SCALE) ++ bs "% at level " ++
      dec (srv_max_sst_density_level t) ++ nl ].

Definition io_line (io : nat -> tidesdb_io_stat_t) (c : nat) : bytes :=
  let s := io c in
  let avg_us := if 0 <? ops s then ddiv (of_int (io_total_us s)) (of_int (ops s)) else ZERO in
  io_class_name c ++ bs ": " ++ lu (ops s) ++ bs " writes, " ++ lu (io_bytes s) ++ bs " bytes, avg " ++ fixed 1 avg_us ++ bs " us, max " ++
  lu (io_max_us s) ++ bs " us" ++ nl.

Definition status_format_io_stats (io : nat -> tidesdb_io_stat_t) : list bytes :=
  (nl ++ bs "=+=+= IO Device Writes =+=+=" ++ nl) :: map (io_line io) (seq 0 TDB_IO_COUNT).

Definition stall_line (st : nat -> tidesdb_stall_stat_t) (r : nat) : bytes :=
  stall_reason_name r ++ bs ": " ++ lu (count (st r)) ++ bs " stalls, " ++ lu (stall_total_us (st r)) ++ bs " us total, " ++
  lu (stall_max_us (st r)) ++ bs " us max" ++ nl.

Definition status_format_stall_stats (st : nat -> tidesdb_stall_stat_t) : list bytes :=
  (nl ++ bs "=+=+= Write Stalls By Reason =+=+=" ++ nl) :: map (stall_line st) (seq 0 TDB_STALL_COUNT).

(** The loop over the families. *)
Fixpoint put_families (sz : Z) (names : list bytes) (b : out_buf) : M status out_buf :=
  match names with
  | [] => ret b
  | nm :: rest =>
      if internal nm then put_families sz rest b
      else if sz - STATUS_CF_MARGIN <=? pos b then ret (put_line sz b (truncation_line (zlen names)))
      else
        found <-- on_db (get_cf nm);
        if negb found then put_families sz rest b
        else
          r <-- on_db (ask (Q_family nm));
          put_families sz rest (match r with inr st => put_lines sz (family_lines TDB_MAX_LEVELS nm st) b | inl _ => b end)
  end.

Definition status_format_cf_stats (sz : Z) (b : out_buf) : M status out_buf :=
  r <-- on_db list_cfs;
  match r with
  | None => ret b
  | Some names => put_families sz names (put_line sz b (nl ++ bs "=+=+= Column Families =+=+=" ++ nl))
  end.

(** The sections before the families. *)
Definition fixed_sections (tdb_path : bytes) (st : tidesdb_db_stats_t) (c : tidesdb_cache_stats_t) (io : nat -> tidesdb_io_stat_t)
    (stall : nat -> tidesdb_stall_stat_t) (klog vlog : list tidesdb_encoding_stats_t) (t : tomb_vars) : list bytes :=
  status_format_db_stats tdb_path st ++ status_format_cache_stats c ++ status_format_io_stats io ++ status_format_stall_stats stall ++
  status_format_encoding_summary (bs "Key Log") klog ++ status_format_encoding_summary (bs "Value Log") vlog ++ status_format_tombstones t.

(** The buffer handed to [print], with the position as its length; [None] when nothing is printed.  [allocated] is
    the outcome of the allocation. *)
Definition tidesdb_show_status (tdb_path : bytes) (engine_status opened : bool) (now : Z) (won allocated : bool) :
    M status (option out_buf) :=
  if negb engine_status || negb opened then ret None
  else
    tidesdb_refresh_status_vars opened now won;;
    st <-- report zero_db Q_db;
    c <-- report zero_cache Q_cache;
    io <-- report zero_io Q_io;
    stall <-- report zero_stall Q_stall;
    klog <-- report [] Q_klog;
    vlog <-- report [] Q_vlog;
    if negb allocated then ret None
    else
      t <-- gets (fun s => v_tomb (vars s));
      let b := put_lines TIDESDB_STATUS_BUF_LEN (fixed_sections tdb_path st c io stall klog vlog t) {| cells := ∅; pos := 0 |} in
      b <-- status_format_cf_stats TIDESDB_STATUS_BUF_LEN b;
      ret (Some b).

End code.

Arguments status : clear implicits.

(** ** Lemmas: the buffer *)

(** Everything written lies in the buffer, and it is [text] with its terminator. *)
Definition within (sz : Z) (m : gmap Z Z) : Prop := forall i, is_Some (m !! i) -> 0 <= i < sz.
Definition filled (sz : Z) (text : bytes) (b : out_buf) : Prop :=
  pos b = zlen text /\ zlen text < sz /\ within sz (cells b) /\
  forall i c, text !! i = Some c -> cells b !! Z.of_nat i = Some c.

Lemma store_at_lookup p text m i :
  store_at p text m !! i = if bool_decide (p <= i < p + zlen text) then text !! Z.to_nat (i - p) else m !! i.
Proof.
  unfold store_at. revert p m. induction text as [|c text IH]; intros p m; cbn [fold_left].
  - simpl. rewrite bool_decide_false; [done|unfold zlen; simpl; lia].
  - rewrite IH. assert (zlen (c :: text) = zlen text + 1) as -> by (unfold zlen; simpl; lia).
    assert (0 <= zlen text) by (unfold zlen; lia).
    destruct (Z.eq_dec i p) as [->|Hne].
    + rewrite bool_decide_false by lia. rewrite bool_decide_true by lia. rewrite Z.sub_diag. simpl. by rewrite lookup_insert_eq.
    + rewrite (bool_decide_ext (p + 1 <= i < p + 1 + zlen text) (p <= i < p + (zlen text + 1))) by lia. case_bool_decide as Hi.
      * replace (Z.to_nat (i - p)) with (S (Z.to_nat (i - (p + 1)))) by lia. done.
      * by rewrite lookup_insert_ne.
Qed.

Lemma put_line_fills sz text b line :
  sz < 2 ^ 64 -> filled sz text b -> zlen (text ++ line) < sz -> filled sz (text ++ line) (put_line sz b line).
Proof.
  intros Hsz (Hp & Ht & Hw & Hc) Hlen. rewrite zlen_app in Hlen. assert (0 <= zlen text /\ 0 <= zlen line) by (unfold zlen; lia).
  unfold put_line, filled. rewrite Hp. unfold u64. rewrite (Z.mod_small (sz - zlen text)) by lia.
  destruct (Z.ltb_spec (zlen line) (sz - zlen text)); [|lia]. destruct (Z.eqb_spec (sz - zlen text) 0); [lia|]. cbn [pos cells].
  assert (zlen (line ++ [0]) = zlen line + 1) as El by (by rewrite zlen_app).
  rewrite zlen_app. split_and!; [done|lia| |].
  - intros i. rewrite store_at_lookup, El. case_bool_decide as Hi; [lia|apply Hw].
  - intros i c Hi. rewrite store_at_lookup, El. apply lookup_app_Some in Hi as [Hi|[Hge Hi]].
    + pose proof (lookup_lt_Some _ _ _ Hi). rewrite bool_decide_false by (unfold zlen; lia). by apply Hc.
    + pose proof (lookup_lt_Some _ _ _ Hi). rewrite bool_decide_true by (unfold zlen; lia).
      replace (Z.to_nat (Z.of_nat i - zlen text)) with (i - length text)%nat by (unfold zlen; lia). by apply lookup_app_l_Some.
Qed.

Lemma put_lines_fills sz lines text b :
  sz < 2 ^ 64 -> filled sz text b -> zlen (text ++ concat lines) < sz -> filled sz (text ++ concat lines) (put_lines sz lines b).
Proof.
  intros Hsz. unfold put_lines. revert text b. induction lines as [|l lines IH]; intros text b Hf Hlen; cbn [fold_left concat] in *.
  - by rewrite app_nil_r.
  - rewrite app_assoc in Hlen |- *. apply IH; [|done]. apply put_line_fills; [done..|].
    rewrite zlen_app in Hlen. unfold zlen in *. lia.
Qed.

Lemma empty_filled sz : 0 < sz -> filled sz [] {| cells := ∅; pos := 0 |}.
Proof. intros Hsz. split_and!; [done|done| |done]. intros i [? Hi]. simpl in Hi. by rewrite lookup_empty in Hi. Qed.

(** ** Lemmas: the length of a printed number *)

(** What rounding leaves of a mantissa and an exponent. *)
Definition is_double (x : double) : Prop :=
  match x with S754_finite _ m e => Zpos m < 2 ^ 53 /\ e <= 971 | _ => True end.

Lemma shr_1_halves r : 2 * Z.abs (shr_m (shr_1 r)) <= Z.abs (shr_m r).
Proof. destruct r as [[|[]|[]] ? ?]; simpl; lia. Qed.

Lemma iter_shr_1 p : forall r, 2 ^ Zpos p * Z.abs (shr_m (SpecFloat.iter_pos shr_1 p r)) <= Z.abs (shr_m r).
Proof.
  induction p as [p IH|p IH|]; intros r; cbn [SpecFloat.iter_pos].
  - pose proof (IH (SpecFloat.iter_pos shr_1 p (shr_1 r))). pose proof (IH (shr_1 r)). pose proof (shr_1_halves r).
    replace (2 ^ Zpos p~1) with (2 * (2 ^ Zpos p * 2 ^ Zpos p)); [nia|].
    rewrite <- Z.pow_add_r by lia. replace (Zpos p~1) with (1 + (Zpos p + Zpos p)) by lia. rewrite (Z.pow_add_r 2 1) by lia. lia.
  - pose proof (IH (SpecFloat.iter_pos shr_1 p r)). pose proof (IH r).
    replace (2 ^ Zpos p~0) with (2 ^ Zpos p * 2 ^ Zpos p); [nia|].
    rewrite <- Z.pow_add_r by lia. f_equal. lia.
  - exact (shr_1_halves r).
Qed.

Lemma digits2_bound m : Z.abs m < 2 ^ Zdigits2 m.
Proof.
  assert (forall p, Zpos p < 2 ^ Zpos (digits2_pos p)) as H; [|destruct m; [done|apply H|exact (H p)]].
  induction p as [p IH|p IH|]; simpl; [| |done];
    (rewrite Pos2Z.inj_succ, Z.pow_succ_r by lia; lia).
Qed.

Lemma shr_fexp_bound m e l : Z.abs (shr_m (shr_fexp 53 1024 m e l).1) < 2 ^ 53.
Proof.
  pose proof (digits2_bound m) as Hm. unfold shr_fexp, shr, fexp, emin.
  assert (shr_m (shr_record_of_loc m l) = m) as Er by (by destruct l as [|[]]).
  set (n := Z.max _ _ - e). assert (Zdigits2 m - 53 <= n) as Hn by (unfold n; lia).
  assert (0 <= Zdigits2 m) by (destruct m; simpl; lia).
  destruct n as [|p|p]; cbn [fst]; [rewrite Er; apply (Z.lt_le_trans _ _ _ Hm), Z.pow_le_mono_r; lia| |
    rewrite Er; apply (Z.lt_le_trans _ _ _ Hm), Z.pow_le_mono_r; lia].
  pose proof (iter_shr_1 p (shr_record_of_loc m l)) as Hi. rewrite Er in Hi.
  assert (2 ^ Zdigits2 m <= 2 ^ Zpos p * 2 ^ 53) by (rewrite <- Z.pow_add_r by lia; apply Z.pow_le_mono_r; lia).
  assert (0 < 2 ^ Zpos p) by lia. nia.
Qed.

Lemma round_aux_double s m e l : is_double (binary_round_aux 53 1024 s m e l).
Proof.
  unfold binary_round_aux. destruct (shr_fexp 53 1024 m e l) as [r e']. 
  set (m2 := round_nearest_even _ _). pose proof (shr_fexp_bound m2 e' loc_Exact) as H.
  destruct (shr_fexp 53 1024 m2 e' loc_Exact) as [r2 e2]. cbn [fst] in H. destruct (shr_m r2) as [|p|p]; [done| |done].
  destruct (Z.leb_spec e2 (1024 - 53)); [|done]. split; [exact H|lia].
Qed.

Lemma ddiv_double x y : is_double (ddiv x y).
Proof.
  unfold ddiv, SFdiv. destruct x as [| | |? mx ex], y as [| | |? my ey]; try done.
  destruct (SFdiv_core_binary 53 1024 (Zpos mx) ex (Zpos my) ey) as [[m e] l]. apply round_aux_double.
Qed.

Lemma dmul_double x y : is_double (dmul x y).
Proof. unfold dmul, SFmul. destruct x, y; try done. apply round_aux_double. Qed.

Lemma digits_len fuel n : zlen (digits fuel n) <= Z.of_nat fuel.
Proof.
  revert n. induction fuel as [|fuel IH]; intros n; [done|]. cbn [digits]. rewrite zlen_app. specialize (IH (n / 10)).
  change (zlen [48 + n `mod` 10]) with 1. destruct (n <? 10); [change (zlen []) with 0|]; lia.
Qed.

Lemma to_string_len z : zlen (to_string z) <= 20.
Proof.
  assert (forall fuel n, zlen (to_string_fuel fuel n) <= Z.of_nat fuel) as H; [|exact (H 20%nat z)].
  induction fuel as [|fuel IH]; intros n; [done|]. cbn [to_string_fuel]. destruct (n <? 10); [rewrite zlen_cons; change (zlen []) with 0; lia|].
  rewrite zlen_app. specialize (IH (n / 10)). change (zlen [48 + n `mod` 10]) with 1. lia.
Qed.

Lemma lu_len z : zlen (lu z) <= 20.
Proof. apply to_string_len. Qed.

Lemma dec_len z : zlen (dec z) <= 21.
Proof.
  unfold dec. destruct (z <? 0); [rewrite zlen_cons|]; [pose proof (to_string_len (- z))|pose proof (to_string_len z)]; lia.
Qed.

Lemma with_point_len n q : (n <= 2)%nat -> 0 <= q < 2 ^ 1032 -> zlen (with_point n q) <= 1040.
Proof.
  intros Hn Hq. unfold with_point. set (whole := q / 10 ^ Z.of_nat n). set (part := digits n _).
  assert (0 < 10 ^ Z.of_nat n) by (apply Z.pow_pos_nonneg; lia).
  assert (0 <= whole < 2 ^ 1032) as Hw.
  { unfold whole. split; [apply Z.div_pos; lia|]. apply Z.le_lt_trans with q; [|lia]. apply Z.div_le_upper_bound; nia. }
  assert (Z.log2 whole <= 1032) as Hl.
  { rewrite <- (Z.log2_pow2 1032) by lia. apply Z.log2_le_mono. lia. }
  pose proof (digits_len (S (Z.to_nat (Z.log2 whole))) whole) as H1. pose proof (Z.log2_nonneg whole).
  pose proof (digits_len n (q `mod` 10 ^ Z.of_nat n)) as H2. fold part in H2. rewrite zlen_app.
  destruct (Nat.eqb n 0); [change (zlen []) with 0; lia|]. rewrite zlen_cons, zlen_app. unfold zlen at 2 3. unfold zlen in H2.
  rewrite length_replicate. lia.
Qed.

Lemma nearest_bound m e : 0 <= m < 2 ^ 60 -> e <= 971 -> 0 <= nearest m e < 2 ^ 1032.
Proof.
  intros Hm He. unfold nearest. destruct (Z.leb_spec 0 e) as [H0|H0].
  - assert (2 ^ e <= 2 ^ 971) by (apply Z.pow_le_mono_r; lia). assert (0 < 2 ^ e) by lia.
    assert (2 ^ 1032 = 2 * (2 ^ 60 * 2 ^ 971)) as -> by (rewrite <- Z.pow_add_r by lia; by rewrite <- Z.pow_succ_r by lia). nia.
  - set (q := Z.shiftr m (- e)). assert (0 <= q <= m) as Hq.
    { unfold q. rewrite Z.shiftr_div_pow2 by lia. assert (0 < 2 ^ (- e)) by (apply Z.pow_pos_nonneg; lia).
      split; [apply Z.div_pos; lia|apply Z.div_le_upper_bound; nia]. }
    assert (2 ^ 60 + 1 <= 2 ^ 1032).
    { transitivity (2 ^ 61); [done|]. apply Z.pow_le_mono_r; lia. }
    destruct (_ || _); lia.
Qed.

Lemma fixed_len n x : (n <= 2)%nat -> is_double x -> zlen (fixed n x) <= 1050.
Proof.
  intros Hn Hx. assert (forall s t, zlen (signed s t) <= zlen t + 1) as Hs by (intros [] t; simpl; rewrite ?zlen_cons; lia).
  assert (0 < 10 ^ Z.of_nat n <= 100) as H10 by (destruct n as [|[|[|]]]; simpl; lia).
  destruct x as [s|s| |s m e]; cbn [fixed].
  - specialize (Hs s (with_point n 0)). pose proof (with_point_len n 0 Hn) as H. assert (zlen (with_point n 0) <= 1040) by (apply H; lia). lia.
  - specialize (Hs s (bs "inf")). change (zlen (bs "inf")) with 3 in Hs. lia.
  - done.
  - destruct Hx as [Hm He]. specialize (Hs s (with_point n (nearest (Zpos m * 10 ^ Z.of_nat n) e))).
    assert (0 <= Zpos m * 10 ^ Z.of_nat n < 2 ^ 60) as Hb.
    { split; [nia|]. apply Z.lt_le_trans with (2 ^ 53 * 100); [nia|done]. }
    pose proof (with_point_len n _ Hn (nearest_bound _ e Hb He)). lia.
Qed.

(** Lengths of pieces of text are sums of bounded lengths. *)
Ltac text_room :=
  cbn [concat]; repeat rewrite zlen_app;
  repeat match goal with
    | |- context [zlen (lu ?z)] => let H := fresh in pose proof (lu_len z) as H; generalize dependent (zlen (lu z)); intros
    | |- context [zlen (dec ?z)] => let H := fresh in pose proof (dec_len z) as H; generalize dependent (zlen (dec z)); intros
    | |- context [zlen (bs ?t)] => let n := eval vm_compute in (zlen (bs t)) in change (zlen (bs t)) with n
    | |- context [zlen nl] => change (zlen nl) with 1
    | |- context [@zlen ?A []] => change (@zlen A []) with 0
    end.

Lemma yes_no_len b : zlen (yes_no b) <= 3.
Proof. by destruct b. Qed.

Lemma db_section_len path st : zlen (concat (status_format_db_stats path st)) <= zlen path + 3500.
Proof.
  unfold status_format_db_stats. set (wa := if 0 <? user_bytes_written st then _ else _).
  assert (zlen (fixed 2 wa) <= 1050) as Hwa. { apply fixed_len; [lia|]. unfold wa. destruct (0 <? _); [apply ddiv_double|done]. }
  pose proof (yes_no_len (is_flushing st)). generalize dependent (fixed 2 wa). intros w Hwa. text_room. lia.
Qed.

Lemma ratio_len n a (x y : double) : (n <= 2)%nat -> zlen (fixed n (if 0 <? a then ddiv x y else ZERO)) <= 1050.
Proof. intros Hn. apply fixed_len; [done|]. destruct (0 <? a); [apply ddiv_double|done]. Qed.

Lemma percent_len n (x y : double) : (n <= 2)%nat -> zlen (fixed n (dmul x y)) <= 1050.
Proof. intros Hn. apply fixed_len; [done|apply dmul_double]. Qed.

Lemma cache_section_len st : zlen (concat (status_format_cache_stats st)) <= 1300.
Proof.
  unfold status_format_cache_stats. pose proof (percent_len 1 (hit_rate st) PERCENT_SCALE ltac:(lia)).
  pose proof (yes_no_len (enabled st)). generalize dependent (fixed 1 (dmul (hit_rate st) PERCENT_SCALE)). intros w Hw. text_room. lia.
Qed.

Lemma encoding_section_len title enc : zlen (concat (status_format_encoding_summary title enc)) <= zlen title + 1300.
Proof.
  unfold status_format_encoding_summary.
  pose proof (ratio_len 2 (sum_of stored_bytes enc) (of_int (sum_of logical_bytes enc)) (of_int (sum_of stored_bytes enc)) ltac:(lia)) as Hr.
  cbv zeta. generalize dependent (fixed 2 (if 0 <? sum_of stored_bytes enc then ddiv (of_int (sum_of logical_bytes enc)) (of_int (sum_of stored_bytes enc)) else ZERO)).
  intros w Hw. text_room. lia.
Qed.

Lemma tombstone_section_len t : zlen (concat (status_format_tombstones t)) <= 2300.
Proof.
  unfold status_format_tombstones. pose proof (percent_len 2 (srv_tombstone_ratio t) PERCENT_SCALE ltac:(lia)).
  pose proof (percent_len 2 (srv_max_sst_density t) PERCENT_SCALE ltac:(lia)).
  generalize dependent (fixed 2 (dmul (srv_tombstone_ratio t) PERCENT_SCALE)). intros w Hw.
  generalize dependent (fixed 2 (dmul (srv_max_sst_density t) PERCENT_SCALE)). intros w' Hw'. text_room. lia.
Qed.

Lemma concat_map_len {A} (f : A -> bytes) l n : (forall a, zlen (f a) <= n) -> zlen (concat (map f l)) <= n * zlen l.
Proof.
  intros Hf. induction l as [|a l IH]; [unfold zlen; simpl; lia|]. cbn [map concat]. rewrite zlen_app, zlen_cons. specialize (Hf a). lia.
Qed.

Lemma truncation_len n : zlen (truncation_line n) <= 50.
Proof. unfold truncation_line. text_room. lia. Qed.

Section Report.
Context {E txn : Type} `{!TidesDb E txn, !FamilyDb E txn, !StatusDb E txn}.

(** The library meters a handful of devices and stall reasons and names them briefly. *)
Definition small_library : Prop :=
  (TDB_IO_COUNT <= 8)%nat /\ (TDB_STALL_COUNT <= 16)%nat /\
  (forall c, zlen (io_class_name c) <= 64) /\ (forall r, zlen (stall_reason_name r) <= 64).

Lemma io_section_len io : small_library -> zlen (concat (status_format_io_stats io)) <= 10300.
Proof.
  intros (Hc & _ & Hn & _). unfold status_format_io_stats.
  assert (forall c, zlen (io_line io c) <= 1260) as Hl.
  { intros c. unfold io_line. specialize (Hn c).
    pose proof (ratio_len 1 (ops (io c)) (of_int (io_total_us (io c))) (of_int (ops (io c))) ltac:(lia)) as Hr. cbv zeta.
    generalize dependent (fixed 1 (if 0 <? ops (io c) then ddiv (of_int (io_total_us (io c))) (of_int (ops (io c))) else ZERO)).
    intros w Hw. text_room. lia. }
  pose proof (concat_map_len (io_line io) (seq 0 TDB_IO_COUNT) _ Hl) as H. unfold zlen at 2 in H. rewrite length_seq in H.
  text_room. lia.
Qed.

Lemma stall_section_len st : small_library -> zlen (concat (status_format_stall_stats st)) <= 3000.
Proof.
  intros (_ & Hc & _ & Hn). unfold status_format_stall_stats.
  assert (forall r, zlen (stall_line st r) <= 180) as Hl by (intros r; unfold stall_line; specialize (Hn r); text_room; lia).
  pose proof (concat_map_len (stall_line st) (seq 0 TDB_STALL_COUNT) _ Hl) as H. unfold zlen at 2 in H. rewrite length_seq in H.
  text_room. lia.
Qed.

Lemma fixed_sections_len path st c io stall klog vlog t :
  small_library -> zlen path <= 4096 -> zlen (concat (fixed_sections path st c io stall klog vlog t)) <= 28000.
Proof.
  intros Hs Hp. unfold fixed_sections. rewrite !concat_app, !zlen_app.
  pose proof (db_section_len path st). pose proof (cache_section_len c). pose proof (io_section_len io Hs). pose proof (stall_section_len stall Hs).
  pose proof (encoding_section_len (bs "Key Log") klog) as Hk. pose proof (encoding_section_len (bs "Value Log") vlog) as Hv.
  pose proof (tombstone_section_len t). change (zlen (bs "Key Log")) with 7 in Hk. change (zlen (bs "Value Log")) with 9 in Hv. lia.
Qed.

(** A library in a state of [P] stays there, and what it reports of the families it lists takes no more than the
    margin less the note that more families follow. *)
Record modest (P : E -> Prop) (listed : bytes -> Prop) : Prop := {
  modest_list : spec P list_cfs (fun r e => P e /\ match r with Some l => Forall listed l | None => True end) (fun _ => True);
  modest_get nm : spec P (get_cf nm) (fun _ => P) (fun _ => True);
  modest_ask A (q : query A) : spec P (ask q) (fun _ => P) (fun _ => True);
  modest_family nm : listed nm -> spec P (ask (Q_family nm))
    (fun r e => P e /\ match r with inr st => zlen (concat (family_lines TDB_MAX_LEVELS nm st)) <= STATUS_CF_MARGIN - 50 | inl _ => True end)
    (fun _ => True) }.

#[local] Abbreviation run Pr m Q := (spec Pr m Q (fun _ => True)).
#[local] Abbreviation in_lib P := (fun s : status E => P (lib s)).

Lemma on_db_in {A : Type} (P : E -> Prop) (m : M E A) (Q : A -> E -> Prop) :
  run P m Q -> run (in_lib P) (on_db m) (fun a s => Q a (lib s)).
Proof. intros Hm. apply spec_lift. intros s Hs e ->. specialize (Hm _ Hs). by destruct (m (lib s)) as [e' [a|]]. Qed.

Lemma put_families_fills P listed sz names :
  modest P listed -> sz < 2 ^ 64 -> Forall listed names ->
  forall text b, filled sz text b -> zlen text + 50 < sz ->
  run (in_lib P) (put_families sz names b) (fun b' s => P (lib s) /\ exists more, filled sz (text ++ more) b').
Proof.
  intros HP Hsz. induction names as [|nm names IH]; intros Hl text b Hb Hroom; cbn [put_families].
  { apply spec_ret. intros s Hs. split; [done|]. exists []. by rewrite app_nil_r. }
  apply Forall_cons in Hl as [Hnm Hl]. specialize (IH Hl). destruct (internal nm); [by apply IH|]. destruct Hb as (Hp & Hb). rewrite Hp. destruct (Z.leb_spec (sz - STATUS_CF_MARGIN) (zlen text)) as [|Hm].
  { apply spec_ret. intros s Hs. split; [done|]. eexists. apply put_line_fills; [done|by split|].
    rewrite zlen_app. pose proof (truncation_len (zlen (nm :: names))). lia. }
  eapply spec_bind; [apply (on_db_in P), (modest_get P listed HP)|]. intros found. destruct (negb found); [by apply IH; [split|]|].
  eapply spec_bind; [apply (on_db_in P), (modest_family P listed HP nm Hnm)|]. intros [rc|st]; cbn beta match.
  - eapply spec_pre; [apply IH; [by split|done]|by intros s [? _]].
  - apply (spec_pure _ (zlen (concat (family_lines TDB_MAX_LEVELS nm st)) <= STATUS_CF_MARGIN - 50)); [by intros s [_ ?]|]. intros Hlen.
    unfold STATUS_CF_MARGIN in *. eapply spec_pre; [|intros s [Hs _]; exact Hs].
    eapply spec_weaken; [apply (IH (text ++ concat (family_lines TDB_MAX_LEVELS nm st)))|done| |done].
    + apply put_lines_fills; [done|by split|]. rewrite zlen_app. lia.
    + rewrite zlen_app. lia.
    + intros b' s [Hs [more Hf]]. split; [done|]. eexists. rewrite <- app_assoc in Hf. exact Hf.
Qed.

Lemma refresh_in P listed opened now won : modest P listed -> run (in_lib P) (tidesdb_refresh_status_vars opened now won) (fun _ => in_lib P).
Proof.
  intros HP. unfold tidesdb_refresh_status_vars. destruct (negb opened); [by apply spec_ret|].
  assert (forall f, run (in_lib P) (modify (set_vars f)) (fun _ => in_lib P)) as Hset by (intros f; by apply spec_modify).
  assert (forall A (q : query A), run (in_lib P) (on_db (ask q)) (fun _ => in_lib P)) as Hask
    by (intros A q; apply (on_db_in P), (modest_ask P listed HP)).
  eapply (spec_bind _ _ (fun _ => in_lib P)).
  { unfold status_refresh_window_claimed. apply spec_bind_gets_any. intros last. destruct (_ && _); [by apply spec_ret|].
    destruct won; [|by apply spec_ret]. eapply spec_bind; [apply Hset|]. intros ?. by apply spec_ret. }
  intros c. destruct (negb c); [by apply spec_ret|].
  unfold status_refresh_db_and_cache, status_refresh_io_and_stalls, status_refresh_encoding, report.
  repeat first [apply spec_ret; done | apply Hset | apply Hask
    | match goal with |- context [match ?x with inl _ => _ | inr _ => _ end] => is_var x; destruct x end
    | eapply (spec_bind _ _ (fun _ => in_lib P)); [|intros ?] ].
Qed.

Lemma report_in {A : Type} P listed (dflt : A) q : modest P listed -> run (in_lib P) (report dflt q) (fun _ => in_lib P).
Proof.
  intros HP. unfold report. eapply spec_bind; [apply (on_db_in P), (modest_ask P listed HP)|]. intros r. by apply spec_ret.
Qed.

(** SHOW ENGINE TIDESDB STATUS stays in its buffer: on a library whose reports of a family are no longer than the
    margin allows, whatever the numbers in them, the families and what fails, the report is printed whole: every
    byte is written inside the 32 KiB, no line is cut, and the length handed to the server is that of the text. *)
Lemma status_report_in_bounds P listed tdb_path now won :
  small_library -> modest P listed -> zlen tdb_path <= 4096 ->
  run (in_lib P) (tidesdb_show_status tdb_path true true now won true)
    (fun r s => P (lib s) /\ exists b text, r = Some b /\ filled TIDESDB_STATUS_BUF_LEN text b).
Proof.
  intros Hs HP Hp. unfold tidesdb_show_status. cbn [negb orb].
  eapply spec_bind; [by apply (refresh_in P listed)|]. intros ?. eapply spec_bind; [by apply (report_in P listed)|]. intros st.
  eapply spec_bind; [by apply (report_in P listed)|]. intros c. eapply spec_bind; [by apply (report_in P listed)|]. intros io.
  eapply spec_bind; [by apply (report_in P listed)|]. intros stall. eapply spec_bind; [by apply (report_in P listed)|]. intros klog.
  eapply spec_bind; [by apply (report_in P listed)|]. intros vlog. apply spec_bind_gets_any. intros t.
  pose proof (fixed_sections_len tdb_path st c io stall klog vlog t Hs Hp) as Hf. set (text := concat _) in Hf.
  assert (filled TIDESDB_STATUS_BUF_LEN ([] ++ text) (put_lines TIDESDB_STATUS_BUF_LEN (fixed_sections tdb_path st c io stall klog vlog t) {| cells := ∅; pos := 0 |})) as Hb.
  { apply put_lines_fills; [done|by apply empty_filled|]. fold text. cbn [app]. unfold TIDESDB_STATUS_BUF_LEN. lia. }
  cbn [app] in Hb. eapply (spec_bind _ _ (fun b s => P (lib s) /\ exists text, filled TIDESDB_STATUS_BUF_LEN text b)).
  - unfold status_format_cf_stats. eapply spec_bind; [apply (on_db_in P), (modest_list P listed HP)|]. intros [names|].
    + apply (spec_pure _ (Forall listed names)); [by intros s [_ ?]|]. intros Hn.
      eapply spec_weaken; [eapply (put_families_fills P listed _ names HP); [done|done|apply put_line_fills; [done|exact Hb|]|]|by intros s [? _]| |done].
      * rewrite zlen_app. unfold TIDESDB_STATUS_BUF_LEN. text_room. lia.
      * rewrite zlen_app. unfold TIDESDB_STATUS_BUF_LEN. text_room. lia.
      * intros b s [Hl [more Hm]]. split; [done|by eexists].
    + apply spec_ret. intros s [Hl _]. split; [done|by eexists].
  - intros b. apply spec_ret. intros s [Hl [text' Ht]]. split; [done|by eexists _, _].
Qed.

(** ** Lemmas: tombstones *)

(** The report shows the tombstone figures as they are: it does not compute them, so they are zero until a SHOW
    STATUS has read them. *)
Lemma report_keeps_figures tdb_path es opened now won allocated t :
  run (fun s : status E => v_tomb (vars s) = t) (tidesdb_show_status tdb_path es opened now won allocated) (fun _ s => v_tomb (vars s) = t).
Proof.
  set (K := fun s : status E => v_tomb (vars s) = t).
  assert (forall f, (forall v, v_tomb (f v) = v_tomb v) -> run K (modify (set_vars f)) (fun _ => K)) as Hset
    by (intros f Hf; apply spec_modify; intros s Hs; unfold K; simpl; by rewrite Hf).
  assert (forall (A : Type) (m : M E A), run K (on_db m) (fun _ => K)) as Hdb
    by (intros A m; apply spec_lift; intros s Hs e ->; by destruct (m (lib s)) as [e' [a|]]).
  assert (forall (A : Type) (dflt : A) q, run K (report dflt q) (fun _ => K)) as Hrep
    by (intros A dflt q; unfold report; eapply (spec_bind _ _ (fun _ => K)); [apply Hdb|intros ?; by apply spec_ret]).
  assert (forall sz names b, run K (put_families sz names b) (fun _ => K)) as Hfam.
  { intros sz names. induction names as [|nm names IH]; intros b; cbn [put_families]; [by apply spec_ret|].
    destruct (internal nm); [apply IH|]. destruct (_ <=? _); [by apply spec_ret|]. eapply (spec_bind _ _ (fun _ => K)); [apply Hdb|].
    intros f. destruct (negb f); [apply IH|]. eapply (spec_bind _ _ (fun _ => K)); [apply Hdb|]. intros r. apply IH. }
  unfold tidesdb_show_status, tidesdb_refresh_status_vars, status_refresh_window_claimed, status_refresh_db_and_cache,
    status_refresh_io_and_stalls, status_refresh_encoding, status_format_cf_stats.
  repeat first [apply spec_ret; done | apply Hset; done | apply Hdb | apply Hrep | apply Hfam
    | match goal with |- context [if ?x then _ else _] => destruct x end
    | match goal with |- context [match ?x with inl _ => _ | inr _ => _ end] => is_var x; destruct x end
    | match goal with |- context [match ?x with Some _ => _ | None => _ end] => is_var x; destruct x end
    | apply spec_bind_gets_any; intros ?
    | eapply (spec_bind _ _ (fun _ => K)); [|intros ?] ].
Qed.

(** The families the figures are about. *)
Definition user_families (names : list bytes) : list bytes := List.filter (fun nm => negb (CfName.tidesql_is_reserved_cf (Some nm))) names.

(** On a library that answers, the figures are those of all families but the engine's own. *)
Lemma tombstone_figures_exact P (report : bytes -> family_stats) names now :
  run P list_cfs (fun r e => r = Some names /\ P e) ->
  (forall nm, nm ∈ names -> run P (get_cf nm) (fun r e => r = true /\ P e)) ->
  (forall nm, nm ∈ names -> run P (ask (Q_family nm)) (fun r e => r = inr (report nm) /\ P e)) ->
  run (fun s : status E => P (lib s) /\ srv_tombstone_stats_last_us (vars s) = 0) (tidesdb_compute_tombstone_stats true now)
    (fun _ s => P (lib s) /\ v_tomb (vars s) = tombstone_figures (fold_left add_family (map report (user_families names)) (0, 0, ZERO, 0))).
Proof.
  intros Hl Hg Hf. unfold tidesdb_compute_tombstone_stats. cbn [negb]. apply spec_bind_gets. intros last.
  apply (spec_pure _ (last = 0)); [by intros s [[_ Hz] <-]|]. intros ->. cbn [negb andb Z.eqb].
  eapply (spec_bind _ _ (fun _ => in_lib P)); [apply spec_modify; by intros s [[? _] _]|]. intros ?.
  eapply spec_bind; [apply (on_db_in P _ _ Hl)|]. intros r. apply (spec_pure _ (r = Some names)); [by intros s [? _]|]. intros ->.
  eapply (spec_pre _ (in_lib P)); [|by intros s [_ ?]].
  eapply (spec_bind _ _ (fun acc s => P (lib s) /\ acc = fold_left add_family (map report (user_families names)) (0, 0, ZERO, 0))).
  - clear Hl. revert Hg Hf. generalize (0, 0, ZERO, 0) as acc. induction names as [|nm names IH]; intros acc Hg Hf; cbn [sum_families].
    { apply spec_ret. by intros s Hs. }
    assert (forall nm', nm' ∈ names -> nm' ∈ nm :: names) as Hin by (intros; by right).
    unfold user_families. cbn [List.filter]. destruct (CfName.tidesql_is_reserved_cf (Some nm)); cbn [negb]; [apply IH; eauto|].
    eapply spec_bind; [apply (on_db_in P _ _ (Hg nm ltac:(left)))|]. intros b. apply (spec_pure _ (b = true)); [by intros s [? _]|]. intros ->.
    cbn [negb]. eapply (spec_pre _ (in_lib P)); [|by intros s [_ ?]].
    eapply spec_bind; [apply (on_db_in P _ _ (Hf nm ltac:(left)))|]. intros r. apply (spec_pure _ (r = inr (report nm))); [by intros s [? _]|].
    intros ->. eapply (spec_pre _ (in_lib P)); [|by intros s [_ ?]]. cbn [map fold_left]. apply IH; eauto.
  - intros acc. apply spec_modify. intros s [Hs ->]. done.
Qed.

(** No two rows of SHOW STATUS have the same name. *)
Lemma status_names_distinct version library_version hex v : NoDup (map fst (tidesdb_status_vars_inner version library_version hex v)).
Proof. cbn [map fst tidesdb_status_vars_inner]. apply (bool_decide_unpack _). by vm_compute. Qed.

End Report.

End Status.
