(* ===== verification/StatusExample.v ===== *)
(** * The status report of a concrete library

    The map library with fixed reports: the witness of the theorem on the report's buffer, and a report that
    leaves the buffer because a family takes more than the margin. *)
From Stdlib Require Import SpecFloat.
From S2P Require Import Prelude Effects TidesDb CfName FtsScore Status.
Import Status.
#[local] Open Scope Z_scope.
#[local] Open Scope tdb_scope.

Module StatusExample.

Definition level (n keys tombs size : Z) : level_stats :=
  {| level_num_sstables := n; level_key_counts := keys; level_tombstone_counts := tombs; level_sizes := size |}.

(** A family with the given levels. *)
Definition family (lvls : list level_stats) : family_stats := {|
  num_levels := zlen lvls; total_keys := 18000000; unflushed_key_count := 12000; total_data_size := 2147483648;
  read_amp := FtsScore.of_int 7; avg_key_size := FtsScore.of_int 24; avg_value_size := FtsScore.of_int 120;
  btree_avg_height := FtsScore.of_int 3; btree_max_height := 4; btree_total_nodes := 524288; tombstone_ratio := FtsScore.scaled 1 (-6);
  levels := lvls; wal_bytes_written := 5368709120; family_compaction_count := 1289;
  total_tombstones := 3; max_sst_density := FtsScore.scaled 1 (-2); max_sst_density_level := 2 |}.

Definition answer (st : family_stats) (A : Type) (q : query A) : A :=
  match q in query A return A with
  | Q_db => zero_db
  | Q_cache => zero_cache
  | Q_io => zero_io
  | Q_stall => zero_stall
  | Q_klog => []
  | Q_vlog => [{| logical_bytes := 300; stored_bytes := 100 |}]
  | Q_family _ => st
  end.

#[local] Program Instance mem_status (st : family_stats) : StatusDb mem_db unit := {|
  ask A q := soft (inl ERR_IO) (ret (inr (answer st A q)));
  TDB_IO_COUNT := 3; TDB_IO_SSTABLE := 0; TDB_IO_WAL := 1; io_class_name _ := bs "device";
  TDB_STALL_COUNT := 5; TDB_STALL_WAL_APPEND := 0; TDB_STALL_ROTATE_LOCK := 1; TDB_STALL_ROTATE_WORK := 2;
  TDB_STALL_ADMISSION := 3; TDB_STALL_MANIFEST_COMMIT := 4; stall_reason_name _ := bs "reason";
  TDB_MAX_LEVELS := 16 |}.
Next Obligation. by intros st d A q [m b [|[] sc]]; cbn; intros <-. Qed.

Definition zero_vars : status_vars := {|
  v_db := copy_db zero_db zero_cache; v_io := Build_io_vars 0 0 0 0; v_stall := Build_stall_vars 0 0 0 0 0; v_klog := Build_enc_vars 0 0;
  v_vlog := Build_enc_vars 0 0; v_tomb := Build_tomb_vars 0 FtsScore.ZERO FtsScore.ZERO 0; refresh_last_us := 0; srv_tombstone_stats_last_us := 0 |}.

Definition holding (names : list bytes) (fates : list fate) : status mem_db :=
  {| lib := {| mem := list_to_map (map (fun nm => (nm, ∅)) names); buf := []; script := fates |}; vars := zero_vars |}.

(** ** A report that fits *)

Definition one_level : family_stats := family [level 4 1200000 3400 104857600].
Definition orders : list bytes := [bs "shop__orders"; bs "shop__orders__idx_day"].

Lemma small : small_library (StatusDb0 := mem_status one_level).
Proof. split_and!; [simpl; lia|simpl; lia|by intros|by intros]. Qed.

Lemma orders_modest : modest (StatusDb0 := mem_status one_level) (fun e => mem e = mem (lib (holding orders []))) (fun nm => nm ∈ orders).
Proof.
  split.
  - assert (Forall (fun nm => nm ∈ orders) (map fst (map_to_list (mem (lib (holding orders [])))))) as Hl.
    { assert (map fst (map_to_list (mem (lib (holding orders [])))) ≡ₚ orders) as ->; [|apply Forall_forall; by intros].
      unfold holding. cbn [lib mem]. change (map fst) with (fmap (M := list) (@fst bytes (gmap bytes bytes))). 
      rewrite map_to_list_to_map by (apply (bool_decide_unpack _); by vm_compute). done. }
    by intros [m b [|[] sc]]; cbn [list_cfs mem_families soft next_fate script mem]; intros ->.
  - by intros nm [m b sc].
  - by intros A q [m b [|[] sc]].
  - intros nm Hnm. assert (zlen (concat (family_lines 16 nm one_level)) <= STATUS_CF_MARGIN - 50) as Hlen.
    { apply list_elem_of_In in Hnm as [<-|[<-|[]]]; by vm_compute. }
    by intros [m b [|[] sc]] Hm; cbn [ask mem_status answer soft next_fate script ret] in *.
Qed.

Definition returns {A} (r : reply A) : bool := match r with Ret _ => true | Crash => false end.

(** Two families: the report fits, also when the second refresh of its counters fails. *)
Lemma orders_report_in_bounds :
  exists b text, (tidesdb_show_status (StatusDb0 := mem_status one_level) (bs "/var/lib/tidesdb_data") true true 7 true true (holding orders [works; fails])).2 =
    Ret (Some b) /\ filled TIDESDB_STATUS_BUF_LEN text b.
Proof.
  pose proof (status_report_in_bounds (StatusDb0 := mem_status one_level) _ _ (bs "/var/lib/tidesdb_data") 7 true small orders_modest ltac:(by vm_compute)
    (holding orders [works; fails]) eq_refl) as Hspec.
  assert (returns (tidesdb_show_status (StatusDb0 := mem_status one_level) (bs "/var/lib/tidesdb_data") true true 7 true true (holding orders [works; fails])).2 = true)
    as Hret by (vm_compute; reflexivity).
  destruct (tidesdb_show_status _ _ _ _ _ _ _) as [s [r|]]; [|discriminate].
  destruct Hspec as [_ (b & text & -> & Hb)]. by exists b, text.
Defined.

(** ** A report that does not fit *)

Definition deep : family_stats := family (map (fun i => level 12 (1200000 * i) (3400 * i) (1048576000 * i)) [1; 2; 3; 4; 5; 6; 7; 8; 9]).

Definition archive (i : nat) : bytes := bs "warehouse__orders_archive" ++ to_string (100 + Z.of_nat i) ++ bs "__idx_customer_and_delivery_date".

Lemma deep_takes_more_than_margin : STATUS_CF_MARGIN < zlen (concat (family_lines 16 (archive 1) deep)).
Proof. by vm_compute. Qed.

Definition show (n : nat) : option out_buf :=
  match (tidesdb_show_status (StatusDb0 := mem_status deep) (bs "/var/lib/tidesdb_data") true true 7 true true (holding (map archive (seq 0 n)) [])).2 with
  | Ret r => r
  | Crash => None
  end.

(** Sixty indexes of nine levels: one family's lines cross the end of the buffer, the position passes it, and the
    next piece is written behind the buffer, because the room left is computed as an unsigned difference.  The
    length handed to the server is past the end too. *)
Lemma long_families_leave_buffer :
  exists b, show 60 = Some b /\ TIDESDB_STATUS_BUF_LEN < pos b /\ is_Some (cells b !! (TIDESDB_STATUS_BUF_LEN + 32)).
Proof.
  assert (match show 60 with
          | Some b => (TIDESDB_STATUS_BUF_LEN <? pos b) && bool_decide (is_Some (cells b !! (TIDESDB_STATUS_BUF_LEN + 32)))
          | None => false end = true) as Hb by (vm_compute; reflexivity).
  destruct (show 60) as [b|]; [|done]. apply andb_true_iff in Hb as [Hp%Z.ltb_lt Hc%bool_decide_eq_true]. by exists b.
Qed.

End StatusExample.
