(* ===== verification/Handler.v ===== *)
(** * The handler object ([ha_tidesdb.cc], [ha_tidesdb_open.cc])

    What the modules of the handler share: the translation of the library's error codes, the hints the server
    gives, the session variables cached per statement, the shared object of a table, and the notes of ANALYZE. *)
From Stdlib Require Import SpecFloat.
From stdpp Require Import relations.
From S2P Require Import Prelude Effects TidesDb FtsScore Dml Status.
Import FtsScore (double, ddiv, of_int).
#[local] Open Scope Z_scope.

Module Handler.

(** ** Error codes *)

Inductive lib_rc :=
  | RC_SUCCESS | RC_CONFLICT | RC_TXN_ABORTED | RC_TXN_EXPIRED | RC_LOCKED | RC_MEMORY_LIMIT | RC_MEMORY | RC_NOT_FOUND
  | RC_EXISTS | RC_READONLY | RC_IO | RC_CORRUPTION | RC_TOO_LARGE | RC_INVALID_DB | RC_INVALID_ARGS | RC_UNKNOWN
  | RC_other (rc : Z).

Inductive ha_rc :=
  | HA_SUCCESS | HA_LOCK_DEADLOCK | HA_LOCK_WAIT_TIMEOUT | HA_OUT_OF_MEM | HA_KEY_NOT_FOUND | HA_FOUND_DUPP_KEY
  | HA_READ_ONLY_TRANSACTION | HA_CRASHED | HA_TO_BIG_ROW | HA_INTERNAL_ERROR | HA_GENERIC.

#[export] Instance lib_rc_eq_dec : EqDecision lib_rc.
Proof. solve_decision. Defined.
#[export] Instance ha_rc_eq_dec : EqDecision ha_rc.
Proof. solve_decision. Defined.

(** The level of the line that goes to the error log with it. *)
Inductive logged := Log_none | Log_warning | Log_error.

Definition tdb_rc_to_ha (rc : lib_rc) : ha_rc * logged :=
  match rc with
  | RC_SUCCESS => (HA_SUCCESS, Log_none)
  | RC_CONFLICT => (HA_LOCK_DEADLOCK, Log_none)
  | RC_TXN_ABORTED => (HA_LOCK_DEADLOCK, Log_none)
  | RC_TXN_EXPIRED => (HA_LOCK_WAIT_TIMEOUT, Log_none)
  | RC_LOCKED => (HA_LOCK_WAIT_TIMEOUT, Log_none)
  | RC_MEMORY_LIMIT => (HA_LOCK_WAIT_TIMEOUT, Log_none)
  | RC_MEMORY => (HA_OUT_OF_MEM, Log_error)
  | RC_NOT_FOUND => (HA_KEY_NOT_FOUND, Log_none)
  | RC_EXISTS => (HA_FOUND_DUPP_KEY, Log_none)
  | RC_READONLY => (HA_READ_ONLY_TRANSACTION, Log_none)
  | RC_IO => (HA_CRASHED, Log_error)
  | RC_CORRUPTION => (HA_CRASHED, Log_error)
  | RC_TOO_LARGE => (HA_TO_BIG_ROW, Log_none)
  | RC_INVALID_DB => (HA_INTERNAL_ERROR, Log_error)
  | RC_INVALID_ARGS => (HA_INTERNAL_ERROR, Log_error)
  | RC_UNKNOWN => (HA_LOCK_DEADLOCK, Log_none)
  | RC_other _ => (HA_GENERIC, Log_warning)
  end.

(** The three codes the other components tell apart, with some numbering of the rest. *)
Definition known (code : lib_rc -> Z) (rc : lib_rc) : tdb_rc :=
  match rc with RC_SUCCESS => TDB_SUCCESS | RC_NOT_FOUND => TDB_ERR_NOT_FOUND | RC_CONFLICT => TDB_ERR_CONFLICT | _ => TDB_ERR (code rc) end.

(** No failure of the library is reported as a success, and the row operations' own account of a code agrees. *)
Lemma failures_reported code rc :
  ((tdb_rc_to_ha rc).1 = HA_SUCCESS <-> rc = RC_SUCCESS) /\
  ((tdb_rc_to_ha rc).1 = HA_SUCCESS <-> Dml.tdb_rc_to_ha (known code rc) = Dml.HA_OK).
Proof. destruct rc; simpl; split; split; congruence. Qed.

(** A statement the server may run again is one that met another transaction or a full memory: it is not written to
    the log.  What is logged is never taken for a retry. *)
Lemma retries_silent rc :
  (tdb_rc_to_ha rc).1 ∈ [HA_LOCK_DEADLOCK; HA_LOCK_WAIT_TIMEOUT] <->
  rc ∈ [RC_CONFLICT; RC_TXN_ABORTED; RC_UNKNOWN; RC_TXN_EXPIRED; RC_LOCKED; RC_MEMORY_LIMIT].
Proof. rewrite !elem_of_cons, !elem_of_nil. destruct rc; simpl; split; intros Hx; intuition congruence. Qed.

(** ** Hints of the server *)

Inductive ha_extra_function :=
  | HA_EXTRA_KEYREAD | HA_EXTRA_NO_KEYREAD | HA_EXTRA_WRITE_CAN_REPLACE | HA_EXTRA_INSERT_WITH_UPDATE
  | HA_EXTRA_WRITE_CANNOT_REPLACE | HA_EXTRA_PREPARE_FOR_DROP | HA_EXTRA_other.

Record hints := { keyread_only_ : bool; write_can_replace_ : bool }.

Definition extra (operation : ha_extra_function) (h : hints) : hints :=
  match operation with
  | HA_EXTRA_KEYREAD => {| keyread_only_ := true; write_can_replace_ := write_can_replace_ h |}
  | HA_EXTRA_NO_KEYREAD => {| keyread_only_ := false; write_can_replace_ := write_can_replace_ h |}
  | HA_EXTRA_WRITE_CAN_REPLACE => {| keyread_only_ := keyread_only_ h; write_can_replace_ := true |}
  | HA_EXTRA_WRITE_CANNOT_REPLACE => {| keyread_only_ := keyread_only_ h; write_can_replace_ := false |}
  | HA_EXTRA_INSERT_WITH_UPDATE | HA_EXTRA_PREPARE_FOR_DROP | HA_EXTRA_other => h
  end.

(** The last word of the server on a hint counts, whatever it said about the other. *)
Definition last_said (on off : ha_extra_function -> bool) (ops : list ha_extra_function) (start : bool) : bool :=
  fold_left (fun b op => if on op then true else if off op then false else b) ops start.
Definition is_keyread (op : ha_extra_function) : bool := match op with HA_EXTRA_KEYREAD => true | _ => false end.
Definition is_no_keyread (op : ha_extra_function) : bool := match op with HA_EXTRA_NO_KEYREAD => true | _ => false end.
Definition is_replace (op : ha_extra_function) : bool := match op with HA_EXTRA_WRITE_CAN_REPLACE => true | _ => false end.
Definition is_no_replace (op : ha_extra_function) : bool := match op with HA_EXTRA_WRITE_CANNOT_REPLACE => true | _ => false end.

Lemma extra_last_said ops : forall h,
  fold_left (fun h op => extra op h) ops h =
  {| keyread_only_ := last_said is_keyread is_no_keyread ops (keyread_only_ h);
     write_can_replace_ := last_said is_replace is_no_replace ops (write_can_replace_ h) |}.
Proof. induction ops as [|op ops IH]; intros h; cbn [fold_left]; [by destruct h|]. rewrite IH. by destruct op. Qed.

(** ** The session's variables, cached per statement *)

Record session_vars := { skip_unique_check : bool; ttl : Z; single_delete_primary : bool; compact_after_range_delete_min_rows : Z }.

(** What the handler keeps of a statement: the variables, whether it has looked up the key version and the clock, the
    statement's shape, and whether it has the connection at hand. *)
Record caches := {
  cached : session_vars; cached_thdvars_valid_ : bool; enc_key_ver_valid_ : bool; cached_time_valid_ : bool;
  cached_stmt_shape_valid_ : bool; cached_thd_ : bool }.

Definition ha_tidesdb_caches : caches := {|
  cached := {| skip_unique_check := false; ttl := 0; single_delete_primary := false; compact_after_range_delete_min_rows := 0 |};
  cached_thdvars_valid_ := false; enc_key_ver_valid_ := false; cached_time_valid_ := false; cached_stmt_shape_valid_ := false;
  cached_thd_ := false |}.
Definition ha_tidesdb_hints : hints := {| keyread_only_ := false; write_can_replace_ := false |}.

Definition cache_stmt_thdvars (session : session_vars) (c : caches) : caches :=
  if cached_thdvars_valid_ c then c
  else {| cached := session; cached_thdvars_valid_ := true; enc_key_ver_valid_ := enc_key_ver_valid_ c;
          cached_time_valid_ := cached_time_valid_ c; cached_stmt_shape_valid_ := cached_stmt_shape_valid_ c; cached_thd_ := cached_thd_ c |}.

(** The part of the lock hooks that concerns these; [trx] says whether the connection's transaction object could be
    had.  The rest of the hooks is in [Txn]. *)
Definition external_lock_acquire (trx : bool) (c : caches) : caches := {|
  cached := cached c; cached_thdvars_valid_ := cached_thdvars_valid_ c; enc_key_ver_valid_ := enc_key_ver_valid_ c;
  cached_time_valid_ := cached_time_valid_ c; cached_stmt_shape_valid_ := true; cached_thd_ := if trx then true else cached_thd_ c |}.
Definition external_lock_release (c : caches) : caches := {|
  cached := cached c; cached_thdvars_valid_ := false; enc_key_ver_valid_ := false; cached_time_valid_ := false;
  cached_stmt_shape_valid_ := false; cached_thd_ := false |}.
Definition external_lock (unlock trx : bool) (c : caches) : caches :=
  if negb unlock then external_lock_acquire trx c else external_lock_release c.
Definition start_stmt (trx : bool) (c : caches) : caches := external_lock_acquire trx c.

(** A connection with one handler: between statements, in one, and the same while [LOCK TABLES] holds the table. *)
Inductive phase := Idle | Running | Held | Running_held.
Record connection := { session : session_vars; handler : caches; where_ : phase }.

Inductive step : connection -> connection -> Prop :=
  | step_set v v' c : step {| session := v; handler := c; where_ := Idle |} {| session := v'; handler := c; where_ := Idle |}
  | step_set_held v v' c : step {| session := v; handler := c; where_ := Held |} {| session := v'; handler := c; where_ := Held |}
  | step_begin v c : step {| session := v; handler := c; where_ := Idle |} {| session := v; handler := external_lock false true c; where_ := Running |}
  | step_row v c : step {| session := v; handler := c; where_ := Running |} {| session := v; handler := cache_stmt_thdvars v c; where_ := Running |}
  | step_end v c : step {| session := v; handler := c; where_ := Running |} {| session := v; handler := external_lock true true c; where_ := Idle |}
  | step_lock_tables v c : step {| session := v; handler := c; where_ := Idle |} {| session := v; handler := external_lock false true c; where_ := Held |}
  | step_begin_held v c : step {| session := v; handler := c; where_ := Held |} {| session := v; handler := start_stmt true c; where_ := Running_held |}
  | step_row_held v c : step {| session := v; handler := c; where_ := Running_held |} {| session := v; handler := cache_stmt_thdvars v c; where_ := Running_held |}
  | step_end_held v c : step {| session := v; handler := c; where_ := Running_held |} {| session := v; handler := c; where_ := Held |}
  | step_unlock_tables v c : step {| session := v; handler := c; where_ := Held |} {| session := v; handler := external_lock true true c; where_ := Idle |}.

Definition fresh (v : session_vars) : connection := {| session := v; handler := ha_tidesdb_caches; where_ := Idle |}.

Definition current (c : connection) : Prop :=
  match where_ c with
  | Idle => cached_thdvars_valid_ (handler c) = false
  | Running => cached_thd_ (handler c) = true /\ (cached_thdvars_valid_ (handler c) = true -> cached (handler c) = session c)
  | Held => True
  | Running_held => cached_thd_ (handler c) = true
  end.

Lemma cache_keeps_thd v c : cached_thd_ (cache_stmt_thdvars v c) = cached_thd_ c.
Proof. unfold cache_stmt_thdvars. by destruct (cached_thdvars_valid_ c). Qed.
Lemma cache_current v c :
  (cached_thdvars_valid_ c = true -> cached c = v) -> cached_thdvars_valid_ (cache_stmt_thdvars v c) = true /\ cached (cache_stmt_thdvars v c) = v.
Proof. unfold cache_stmt_thdvars. destruct (cached_thdvars_valid_ c) eqn:Hv; auto. Qed.

Lemma step_current a b : step a b -> current a -> current b.
Proof.
  intros Hs. destruct Hs; unfold current, external_lock, start_stmt, external_lock_acquire; simpl; rewrite ?cache_keeps_thd; intros Hc; try done.
  - split; [done|]. congruence.
  - destruct Hc as [Hthd Hc]. split; [done|]. intros _. by apply cache_current.
Qed.

Lemma reach_current a b : rtc step a b -> current a -> current b.
Proof. induction 1; eauto using step_current. Qed.

(** A row written by a statement that took its own lock has the connection at hand and sees the variables as they
    are. *)
Lemma statement_sees_session v a :
  rtc step (fresh v) a -> where_ a = Running ->
  cached_thd_ (handler a) = true /\ cached (cache_stmt_thdvars (session a) (handler a)) = session a.
Proof.
  intros Hr Hw. apply reach_current in Hr; [|done]. unfold current in Hr. rewrite Hw in Hr. destruct Hr as [Hthd Hc].
  split; [done|]. by apply cache_current.
Qed.

(** Under [LOCK TABLES] the variables stay what they were at the first row written, until the tables are unlocked:
    here [SET tidesdb_skip_unique_check = 0] and another lifetime between two statements have no effect. *)
Lemma locked_tables_keep_variables :
  exists v v' a, rtc step (fresh v) a /\ where_ a = Running_held /\ session a = v' /\
    skip_unique_check v' = false /\ ttl v' = 60 /\
    skip_unique_check (cached (cache_stmt_thdvars v' (handler a))) = true /\ ttl (cached (cache_stmt_thdvars v' (handler a))) = 0.
Proof.
  set (v := {| skip_unique_check := true; ttl := 0; single_delete_primary := false; compact_after_range_delete_min_rows := 0 |}).
  set (v' := {| skip_unique_check := false; ttl := 60; single_delete_primary := false; compact_after_range_delete_min_rows := 0 |}).
  exists v, v', {| session := v'; handler := start_stmt true (cache_stmt_thdvars v (start_stmt true (external_lock false true ha_tidesdb_caches))); where_ := Running_held |}.
  split; [|done]. unfold fresh.
  eapply rtc_l; [apply step_lock_tables|]. eapply rtc_l; [apply step_begin_held|]. eapply rtc_l; [apply step_row_held|].
  eapply rtc_l; [apply step_end_held|]. eapply rtc_l; [apply (step_set_held _ v')|]. eapply rtc_l; [apply step_begin_held|]. apply rtc_refl.
Qed.

(** ** The shared object of a table *)

(** The server keeps one pointer per table; [made] is the object [new] would give. *)
Definition get_share {A : Type} (made : A) (ha_share_ptr : option A) : A * option A :=
  match ha_share_ptr with Some s => (s, ha_share_ptr) | None => (made, Some made) end.

(** The handlers of a table share one object, the first one's. *)
Lemma one_share {A : Type} (made : A) (others : list A) (ptr : option A) :
  let first := get_share made ptr in
  forall m, (get_share m (fold_left (fun p o => (get_share o p).2) others first.2)).1 = first.1.
Proof.
  assert (forall s : A, fold_left (fun p o => (get_share o p).2) others (Some s) = Some s) as Hk by (induction others; auto).
  intros first m. subst first. destruct ptr; simpl; by rewrite Hk.
Qed.

(** ** The notes of ANALYZE *)

(** Figures of a family that only ANALYZE shows. *)
Record write_stats := {
  filter_resident_bytes : Z; cf_user_bytes : Z; cf_flush_bytes : Z; cf_compaction_bytes : Z; cf_compaction_read : Z }.

Import Status.

Definition level_note (i : nat) (v : level_stats) : bytes :=
  bs "[TIDESDB] level " ++ dec (Z.of_nat i + 1) ++ bs "  sstables=" ++ dec (level_num_sstables v) ++ bs "  size=" ++ lu (level_sizes v) ++
  bs " bytes  keys=" ++ lu (level_key_counts v).

(** The loop over the levels; [None] when it reads past the arrays. *)
Definition level_notes (num_levels : Z) (l : list level_stats) : option (list bytes) :=
  mapM (fun i => level_note i <$> l !! i) (seq 0 (Z.to_nat num_levels)).

Definition analyze_report_cf_stats (cf_name : bytes) (st : family_stats) (w : write_stats) : option (list bytes) :=
  ls ← level_notes (num_levels st) (levels st);
  Some (
    [ bs "[TIDESDB] CF '" ++ cf_name ++ bs "'  total_keys=" ++ lu (total_keys st + unflushed_key_count st) ++ bs "  data_size=" ++
        lu (total_data_size st) ++ bs " bytes  levels=" ++ dec (num_levels st) ++ bs "  read_amp=" ++ fixed 2 (read_amp st);
      bs "[TIDESDB] avg_key=" ++ fixed 1 (avg_key_size st) ++ bs " bytes  avg_value=" ++ fixed 1 (avg_value_size st) ++ bs " bytes" ] ++
    ls ++
    (if 0 <? btree_total_nodes st then
       [ bs "[TIDESDB] btree  nodes=" ++ lu (btree_total_nodes st) ++ bs "  max_height=" ++ lu (btree_max_height st) ++ bs "  avg_height=" ++
           fixed 2 (btree_avg_height st) ] else []) ++
    (if 0 <? filter_resident_bytes w then [ bs "[TIDESDB] filters  resident=" ++ lu (filter_resident_bytes w) ++ bs " bytes" ] else []) ++
    (if 0 <? cf_user_bytes w then
       let out_bytes := u64 (wal_bytes_written st + cf_flush_bytes w + cf_compaction_bytes w) in
       let wa := ddiv (of_int out_bytes) (of_int (cf_user_bytes w)) in
       [ bs "[TIDESDB] WA  user=" ++ lu (cf_user_bytes w) ++ bs "  wal=" ++ lu (wal_bytes_written st) ++ bs "  flush=" ++ lu (cf_flush_bytes w) ++
           bs "  compact_write=" ++ lu (cf_compaction_bytes w) ++ bs " (" ++ lu (family_compaction_count st) ++ bs " ssts)  compact_read=" ++
           lu (cf_compaction_read w) ++ bs "  ratio=" ++ fixed 2 wa ++ bs "x" ] else [])).

Lemma level_notes_total n l : n <= zlen l -> exists ls, level_notes n l = Some ls /\ length ls = Z.to_nat n.
Proof.
  intros Hn. unfold level_notes.
  destruct (mapM (fun i => level_note i <$> l !! i) (seq 0 (Z.to_nat n))) as [ls|] eqn:Hls.
  - exists ls. split; [done|]. apply mapM_Some, Forall2_length in Hls. by rewrite <- Hls, length_seq.
  - exfalso. apply mapM_None, Exists_exists in Hls as (i & Hi & Hx). apply elem_of_seq in Hi.
    destruct (lookup_lt_is_Some_2 l i) as [v Hv]; [unfold zlen in Hn; lia|]. by rewrite Hv in Hx.
Qed.

(** While a family has no more levels than its report has room for, every level gets a note, and there are two to
    five others. *)
Lemma analyze_notes cf_name st w :
  0 <= num_levels st <= zlen (levels st) ->
  exists notes, analyze_report_cf_stats cf_name st w = Some notes /\ num_levels st + 2 <= zlen notes <= num_levels st + 5.
Proof.
  intros Hn. unfold analyze_report_cf_stats. destruct (level_notes_total (num_levels st) (levels st)) as (ls & -> & Hl); [lia|].
  cbn [mbind option_bind]. eexists; split; [reflexivity|]. rewrite !zlen_app. unfold zlen at 2 5. rewrite Hl.
  destruct (0 <? btree_total_nodes st), (0 <? filter_resident_bytes w), (0 <? cf_user_bytes w); unfold zlen; simpl length; lia.
Qed.

End Handler.
